(* ===== verification/_CoqProject ===== *)
-Q . S2P
Prelude.v
Text.v
Common.v
Ir.v
Elf.v
ElfRoundTrip.v
Bpf.v
BpfDecode.v
BpfAsm.v
BpfRoundTrip.v
Evm.v
EvmRoundTrip.v
Keccak.v
RawImage.v
Mos6502.v
Mos6502Decode.v
Mos6502Text.v
Codec.v
Registry.v
CodecBranch.v
FunctionMap.v
Signatures.v
Mmu.v
MmuMemory.v
MmuPages.v
MmuState.v
Wasm.v
Regs.v
X86Alu.v
Sched.v
Threads.v
ThreadsInv.v
ThreadsRun.v
WaitApi.v
WaitInv.v
WaitStubs.v
WaitRun.v
Ssa.v
SsaLive.v
SsaDom.v
SsaIdom.v
SsaPhi.v
SsaRename.v
SsaTree.v
SsaRun.v
SsaBuild.v
SsaReach.v
X86Prologue.v
X86CondText.v
Lexer.v
LexerSpec.v
Ast.v
Emit.v
Parser.v
ParserTotal.v
Pieces.v
Literals.v
Reads.v
RoundBasic.v
RoundText.v
RoundMove.v
RoundCall.v
RoundStmt.v
RoundJump.v
RoundBody.v
RoundLoop.v
RoundBranch.v
RoundTrip.v
RoundFile.v
X86Decode.v
X86Cpu.v
X86Exec.v
X86Step.v
X86Sane.v
X86SaneCpu.v
X86SaneExec.v
X86SaneStep.v
X86Safe.v
X86Spec.v
