(* ===== verification/Prelude.v ===== *)
(** * Univdreams: a verification library

    Univdreams disassembles a binary into a readable tree, compiles the tree
    back to the same bytes, and runs guest programs in an emulator. The library
    translates the parts of the Rust sources listed below into Rocq functions
    and proves what they are for. Paths are relative to src/src/.

    ** How the program is put together

    A container reader (format/) cuts a file into headers, sections and
    padding, and writes them back unchanged. A decoder (arch/) turns code bytes
    into instructions, a lifter groups them into the blocks of ir/mod.rs, whose
    emission must give the bytes back; a formatter and an assembler go between
    instructions and text. The compiler asks an architecture codec
    (arch/codec/), found in a registry, to size and encode what the tree
    mentions. Discovery passes (analysis/, signatures/) feed a map of
    functions. The emulator (emulator/) is an interpreter over registers and
    paged memory, with a run loop that schedules guest threads, and host
    functions that stand for the guest's system calls.

    ** Files

    - Prelude.v: bytes, little-endian words, machine integers ([wrap], [sint],
      [in_range]), the result type of fallible and panicking code ([res] with
      [Ok], [Err] and [Panic]), checked slices, list lemmas.
    - Text.v: the standard library's text primitives on UTF-8 bytes.
    - Common.v: common/mod.rs, the byte comparison of the round-trip check.
    - Ir.v: ir/mod.rs; an instruction type is a class, decoder and lifter are
      interfaces that the architectures implement.
    - Elf.v, ElfRoundTrip.v: format/elf.rs, reader and writer.
    - Bpf.v, BpfDecode.v: arch/bpf/mod.rs, decoder, lifter, formatter.
    - BpfAsm.v, BpfRoundTrip.v: arch/bpf/assemble.rs.
    - Evm.v, EvmRoundTrip.v: arch/evm/mod.rs, table.rs, codec.rs.
    - Keccak.v: arch/evm/keccak.rs.
    - RawImage.v: format/raw.rs. Wasm.v: format/wasm.rs.
    - Mos6502.v, Mos6502Decode.v, Mos6502Text.v: arch/mos6502/.
    - Codec.v, CodecBranch.v: arch/codec/mod.rs and the codecs of BPF, EVM,
      6502, AArch64 and undecoded machines; Registry.v: arch/codec/registry.rs
      and the registrations of translate/mod.rs.
    - FunctionMap.v: analysis/function_map.rs. Signatures.v: signatures/mod.rs
      and signatures/x86_64.rs.
    - Mmu.v, MmuMemory.v, MmuPages.v, MmuState.v: emulator/emulator/mmu.rs and
      emulator/coverage.rs. An operation is a state function [St] that can
      trap; a page table is a finite map.
    - Regs.v: emulator/emulator/regs.rs. X86Decode.v:
      emulator/emulator/decode.rs. The rest of the integer interpreter is
      emulator/emulator/isa_int.rs: X86Alu.v (arithmetic primitives, condition
      codes), X86Cpu.v (processor state, segments, stack, fetching, operands),
      X86Exec.v (instruction bodies), X86Step.v (dispatch, one step, the run
      loop). An operation is a state function [X] on processor and memory that
      keeps what it changed before a trap; X86Step.v ends with unit tests of
      the source. X86Sane.v defines well-formed states and [sane], what an
      operation keeps whatever its outcome; X86SaneCpu.v, X86SaneExec.v and
      X86SaneStep.v go through the operands, the bodies with the string loops,
      and the dispatch; X86Safe.v has the theorems on steps and runs.
      X86Spec.v is addressing, multiplication and division, and REP STOS.
    - Sched.v: emulator/sched.rs. Threads.v, ThreadsInv.v, ThreadsRun.v: the
      thread table and the run loop of emulator/win32/mod.rs. WaitApi.v,
      WaitInv.v, WaitStubs.v, WaitRun.v: the synchronization and thread calls
      of emulator/win32/kernel32.rs, and the loop that runs them.
    - Ssa.v: ir/ssa.rs. SsaLive.v: its liveness; SsaDom.v, SsaIdom.v: graph,
      postorder and dominators; SsaPhi.v: frontiers and phi placement;
      SsaRename.v, SsaTree.v: the renaming walk; SsaRun.v: runs of the graph
      against the tree; SsaBuild.v, SsaReach.v: the construction and what it
      promises. The iteration order of hash tables is a class, [HashOrder],
      and every theorem holds for all orders.
    - X86Prologue.v: arch/x86/prologue_codec.rs. X86CondText.v:
      arch/x86/encode_text.rs and the condition-code names of arch/x86/mod.rs.
    - Lexer.v, LexerSpec.v: translate/compile/lexer.rs and what it accepts.
      Ast.v: ast/types.rs. Emit.v: ast/emit.rs. Parser.v, ParserTotal.v:
      translate/compile/parser.rs and its termination. The parser is a state
      monad over the token cursor; mutual recursion is open recursion tied by
      fuel.
    - Pieces.v, Literals.v, Reads.v: text as a list of pieces (blanks, and
      lexemes with their tokens) and what it means that a parser function reads
      some pieces, whatever stands around them. RoundBasic.v (values,
      attributes, types, signatures), RoundText.v (conditions), RoundMove.v
      (assignments), RoundCall.v, RoundStmt.v (directives), RoundJump.v,
      RoundBody.v, RoundLoop.v, RoundBranch.v, RoundTrip.v (all statements),
      RoundFile.v (items and files): emit followed by parse is the identity.
      They define no code, only which trees and which texts the theorem is
      about.

    A Rust struct is a [Record], an enum an [Inductive] with the same
    constructors, a [BTreeMap] a [gmap] (iterated in key order through
    [ordered]), a function that returns [Result] a function to [res]; [Panic]
    is an index out of bounds, an overflow of a checked operation or an
    [unwrap] of nothing. Integers are [Z] with their wrap-around written out.

    ** What the theorems show

    - Byte identity: [elf_roundtrip], [bpf_lift_emit_identity],
      [wasm_parse_exact]: what is read is written back; parsing never panics
      ([elf_parse_no_panic]) and succeeds exactly on the inputs described.
    - Decoders against specifications: [bpf_decode_exact], [evm_decode_exact],
      [mos6502_decode_exact], and the control-flow graph of the lifter
      ([bpf_cfg_well_formed]).
    - Data flow: the definition recorded for a read is the one that reaches it
      on every run of the graph ([ssa_reaching]), under dominators that are
      exact on every graph ([compute_dominators_exact]); liveness is exact
      ([liveness_exact]); [phi_incoming] says which values of a phi can be
      trusted, and examples show the others.
    - Text: [bpf_text_roundtrip], [bpf_label_resolution],
      [evm_text_roundtrip], [mos6502_text_unambiguous].
    - The source language: the lexer accepts exactly the texts that divide
      into lexemes and gives each its token and place
      ([lexer_accepts_divisions]); the parser returns on every input
      ([parse_terminates]); it reads what the emitter writes back as the same
      tree ([parse_emit]), for every tree that [RoundFile.wf_file] accepts:
      names that are words, texts that are UTF-8, numbers of their width, and
      operands whose tokens the parser delimits. Examples show trees outside
      it that do not survive.
    - Encoders: structured prologues and epilogues survive encoding and
      decoding ([prologue_codec_roundtrip]); the branch codecs hit the requested target; the registry
      answers every query whatever the order of registration.
    - Keccak: the digest is that of the standard's permutation and sponge,
      specified bit by bit without the code's tables ([keccak256_sponge]).
    - Memory: loads and stores refine an abstract memory of cells with
      permissions ([mmu_store_load], [mmu_mapping]); every reachable page table
      is well formed, and the watch log is the history of the watched stores
      ([mmu_reachable_inv]); the searches end and give what they promise.
    - Registers and arithmetic: the parts of a register alias bit by bit
      ([register_parts]); results, flags and condition codes are those of the
      mathematical integers ([alu_exact], [compare_conditions]); products and
      quotients too, with the bounds of a signed division ([div_undoes_mul],
      [idiv_exact]); a memory operand is the sum of the manual's table
      ([modrm32_table]).
    - Interpreter: a step keeps well-formed states, whatever the guest does
      ([step_keeps_state]), cannot change a page without write permission and
      can panic for the causes listed only ([step_isolated]); a fault of the
      opcode fetch is raised, and an undefined opcode names its instruction
      ([step_faults]); every run ends within its instruction limit, at the
      state and with the result its steps give ([run_ends]). REP STOS has its whole effect, also
      when a fault stops it half-way ([rep_stos_fills]).
    - Scheduling: along every run of the loop the thread table is consistent
      and no thread waits for an event, mutex, semaphore or critical section
      it could take ([guest_scheduler_invariant]); a switch loses no register
      file ([yield_switches]); a run with a budget ends ([budgeted_run_ends]).
      The end of a thread can pass a waiter by ([thread_end]).

    ** Fuel and bounds

    Loops over a byte string recurse on it or take its length as fuel, which
    is enough because each round consumes a byte (decoders, [leb_loop],
    [section_loop]); the free-range search takes the number of pages of its
    range, and [mmu_find_free_range] proves that this suffices. Liveness takes
    a round per block, side and variable occurrence ([live_fuel]), the
    dominators a round more than blocks, the walks over the dominator tree and
    the worklists a step per block; the theorems on ir/ssa.rs prove that none
    runs out. Lexer loops take the length of the text, and its [u32] counters
    suffice for texts below 2^32 - 1 bytes ([lexer_accepts_divisions]); parser loops and the
    nesting of statements take one more than the number of tokens, which
    [parse_terminates] proves enough. The run loop
    has no natural bound: it takes fuel, gives [None] when it runs out, and
    [budgeted_run_ends] proves that a budgeted run has enough for some fuel.
    The run loop of the interpreter has enough with one step more than its
    limit leaves ([run_ends]); a REP prefix takes ECX rounds.

    ** Interfaces

    [Ir.ArchInsn] with its decoder and lifter; [Codec.ArchCodec], implemented once
    per architecture; [Threads.CpuRest] (the processor fields the scheduler
    only carries along) and [Threads.Machine] (instruction execution and stub
    dispatch), under which the run loop is proved, with the assumptions
    [BudgetSafe] and [SyncMachine] and concrete machines that satisfy them.
    [X86Cpu.VectorState] and [X86Step.OtherIsa] stand for the state and the
    executors of x87, MMX, SSE, AVX and 64-bit mode; [X86SaneStep.ExecutorsOk]
    is what the theorems on steps ask of them, and X86Step.v has a processor
    without them.

    ** Not modelled

    Code that delegates to third-party crates (iced-x86, the AArch64
    disassembler, gimli) and host I/O have no source here to translate. The
    floating-point, vector and 64-bit interpreters, the several hundred emulated API
    calls outside synchronization, the heuristics of the decompiler and the
    compiler's lowering of whole programs are not modelled; the manifest lists
    each with its reason.
*)

(** Shared vocabulary of the development: bytes and little-endian words,
    machine-width integers, the result type of fallible and panicking Rust
    code, checked slice access, and the generic list lemmas the components
    use. *)

From stdpp Require Export base list list_numbers numbers option gmap strings sorting.
From Stdlib Require Export ZArith Lia Ascii.
From Stdlib Require Zbitwise.
From Stdlib Require String.
From Stdlib Require Strings.Byte.

#[export] Set Default Goal Selector "!".

Abbreviation byte := Corelib.Init.Byte.byte.
#[global] Open Scope Z_scope.

(** * Bytes *)

(** [u8 b] is the value of a Rust [u8]; [byte_of z] is the cast [z as u8]. *)
Definition u8 (b : byte) : Z := Z.of_N (Strings.Byte.to_N b).

Definition byte_of (z : Z) : byte :=
  match Strings.Byte.of_N (Z.to_N (z mod 256)) with
  | Some b => b
  | None => Init.Byte.x00
  end.

Lemma u8_range b : 0 <= u8 b < 256.
Proof.
  unfold u8. pose proof (Strings.Byte.to_N_bounded b). lia.
Qed.

Lemma u8_byte_of z : u8 (byte_of z) = z mod 256.
Proof.
  unfold u8, byte_of. pose proof (Z.mod_pos_bound z 256 eq_refl).
  destruct (Strings.Byte.of_N (Z.to_N (z mod 256))) as [b|] eqn:E.
  - apply Strings.Byte.to_of_N in E. rewrite E. lia.
  - apply Strings.Byte.of_N_None_iff in E. lia.
Qed.

Lemma byte_of_u8 b : byte_of (u8 b) = b.
Proof. destruct b; reflexivity. Qed.

Lemma u8_inj a b : u8 a = u8 b -> a = b.
Proof. intros H. rewrite <- (byte_of_u8 a), H. apply byte_of_u8. Qed.

Lemma byte_of_mod z : byte_of (z mod 256) = byte_of z.
Proof. unfold byte_of. by rewrite Z.mod_mod. Qed.

#[export] Instance byte_eq_decision : EqDecision byte := Strings.Byte.byte_eq_dec.

(** Equality of bytes as the Rust [==]. *)
Definition beqb (a b : byte) : bool := u8 a =? u8 b.

Lemma beqb_true a b : beqb a b = true <-> a = b.
Proof. unfold beqb. rewrite Z.eqb_eq. split; [apply u8_inj | congruence]. Qed.

(** Exhaustive checks over the 256 byte values. *)
Definition all_bytes : list byte := byte_of <$> seqZ 0 256.

Lemma elem_of_all_bytes b : b ∈ all_bytes.
Proof.
  unfold all_bytes. rewrite <- (byte_of_u8 b). apply list_elem_of_fmap_2.
  apply elem_of_seqZ. apply u8_range.
Qed.

Lemma all_bytes_spec (f : byte -> bool) :
  forallb f all_bytes = true -> forall b, f b = true.
Proof.
  intros H b. rewrite List.forallb_forall in H. apply H.
  apply list_elem_of_In, elem_of_all_bytes.
Qed.

(** The same over the values 0 to 255. *)
Lemma all_opcodes (f : Z -> bool) : forallb (fun b => f (u8 b)) all_bytes = true ->
  forall o, 0 <= o < 256 -> f o = true.
Proof.
  intros H o Ho. pose proof (all_bytes_spec _ H (byte_of o)) as E. cbv beta in E.
  by rewrite u8_byte_of, Z.mod_small in E.
Qed.

(** * Machine-width integers *)

(** [wrap w z] is [z] reduced to an unsigned [w]-bit integer, [sint w z] the
    signed reading of an unsigned [w]-bit integer. *)
Definition wrap (w z : Z) : Z := z mod 2 ^ w.
Definition sint (w z : Z) : Z := if z <? 2 ^ (w - 1) then z else z - 2 ^ w.

(** [in_range w z]: [z] is a value of the unsigned type of width [w]. *)
Definition in_range (w z : Z) : Prop := 0 <= z < 2 ^ w.

Abbreviation wrap8 := (wrap 8).
Abbreviation wrap16 := (wrap 16).
Abbreviation wrap32 := (wrap 32).
Abbreviation wrap64 := (wrap 64).

Lemma wrap_range w z : 0 <= w -> in_range w (wrap w z).
Proof. intros. apply Z.mod_pos_bound. lia. Qed.

Lemma wrap_small w z : in_range w z -> wrap w z = z.
Proof. apply Z.mod_small. Qed.

Lemma wrap_sint w z : 0 < w -> in_range w z -> wrap w (sint w z) = z.
Proof.
  intros Hw Hz. unfold wrap, sint. case_match; [by apply Z.mod_small|].
  rewrite <- (Z.mod_small z (2 ^ w) Hz) at 2.
  replace (z - 2 ^ w) with (z + (-1) * 2 ^ w) by lia. apply Z_mod_plus_full.
Qed.

Lemma sint_range w z :
  0 < w -> in_range w z -> - 2 ^ (w - 1) <= sint w z < 2 ^ (w - 1).
Proof.
  intros Hw [? ?]. unfold sint. assert (2 ^ w = 2 * 2 ^ (w - 1)) as E.
  { rewrite <- Z.pow_succ_r by lia. f_equal. lia. }
  destruct (Z.ltb_spec z (2 ^ (w - 1))); lia.
Qed.

(** The bits of a value in range. *)
Lemma high_bits_zero w x k : in_range w x -> w <= k -> Z.testbit x k = false.
Proof.
  intros Hx Hk. destruct (Z.le_gt_cases 0 w).
  - apply Z.testbit_false; [lia|]. rewrite Z.div_small; [done|].
    unfold in_range in Hx. pose proof (Z.pow_le_mono_r 2 w k). lia.
  - unfold in_range in Hx. rewrite Z.pow_neg_r in Hx; lia.
Qed.

Lemma in_range_bits w x : 0 <= w -> 0 <= x -> (forall k, w <= k -> Z.testbit x k = false) -> in_range w x.
Proof.
  intros Hw Hx Hb. split; [done|]. destruct (Z.le_gt_cases (2 ^ w) x) as [Hle|]; [|done].
  assert (0 < x) as Hpos by (pose proof (Z.pow_pos_nonneg 2 w); lia).
  pose proof (Z.bit_log2 x Hpos). rewrite Hb in H; [done|]. by apply Z.log2_le_pow2.
Qed.

Lemma wrap_testbit w x k : 0 <= w -> 0 <= k -> Z.testbit (wrap w x) k = (k <? w) && Z.testbit x k.
Proof.
  intros Hw Hk. unfold wrap. destruct (Z.ltb_spec k w).
  - by rewrite Z.mod_pow2_bits_low by lia.
  - by rewrite Z.mod_pow2_bits_high by lia.
Qed.

(** Joining two bit fields. *)
Lemma land_shiftl_low hi lo n : 0 <= n -> 0 <= lo < 2 ^ n -> Z.land (Z.shiftl hi n) lo = 0.
Proof.
  intros Hn Hlo. apply Z.bits_inj'. intros k Hk. rewrite Z.land_spec, Z.bits_0.
  destruct (decide (k < n)); [by rewrite Z.shiftl_spec_low|].
  replace (Z.testbit lo k) with false; [apply andb_false_r|].
  symmetry. apply Z.testbit_false; [lia|]. rewrite Z.div_small; [done|].
  pose proof (Z.pow_le_mono_r 2 n k). lia.
Qed.

Lemma lor_shiftl_add hi lo n : 0 <= n -> 0 <= lo < 2 ^ n ->
  Z.lor (Z.shiftl hi n) lo = hi * 2 ^ n + lo.
Proof.
  intros Hn Hlo. pose proof (Zbitwise.Z.add_lor_land (Z.shiftl hi n) lo) as H.
  rewrite land_shiftl_low, Z.shiftl_mul_pow2 in * by lia. lia.
Qed.

(** * Little-endian words *)

(** [uN::from_le_bytes] and [uN::to_le_bytes], [n] bytes wide. *)
Fixpoint from_le (bs : list byte) : Z :=
  match bs with
  | [] => 0
  | b :: bs' => u8 b + 256 * from_le bs'
  end.

Fixpoint to_le (n : nat) (v : Z) : list byte :=
  match n with
  | O => []
  | S n' => byte_of v :: to_le n' (v / 256)
  end.

Lemma length_to_le n v : length (to_le n v) = n.
Proof. revert v. induction n; simpl; auto. Qed.

Lemma from_le_range bs : 0 <= from_le bs < 256 ^ Z.of_nat (length bs).
Proof.
  induction bs as [|b bs IH]; [simpl; lia|].
  cbn [from_le length]. rewrite Nat2Z.inj_succ, Z.pow_succ_r by lia.
  pose proof (u8_range b). nia.
Qed.

Lemma to_le_from_le bs : to_le (length bs) (from_le bs) = bs.
Proof.
  induction bs as [|b bs IH]; [done|]. cbn [from_le length to_le].
  pose proof (u8_range b). f_equal.
  - rewrite <- byte_of_mod, Z.mul_comm, Z_mod_plus_full, Z.mod_small by lia.
    apply byte_of_u8.
  - rewrite Z.mul_comm, Z.div_add, Z.div_small by lia. apply IH.
Qed.

Lemma from_le_to_le n v : from_le (to_le n v) = v mod 256 ^ Z.of_nat n.
Proof.
  revert v. induction n as [|n IH]; intros v.
  { simpl. by rewrite Z.mod_1_r. }
  cbn [to_le from_le]. rewrite IH, u8_byte_of, Nat2Z.inj_succ, Z.pow_succ_r by lia.
  rewrite Z.rem_mul_r by lia. lia.
Qed.

Lemma to_le_wrap n v : to_le n (v mod 256 ^ Z.of_nat n) = to_le n v.
Proof.
  rewrite <- from_le_to_le. etransitivity; [|apply to_le_from_le].
  by rewrite length_to_le.
Qed.

Lemma from_le_wrap n w bs :
  length bs = n -> 2 ^ w = 256 ^ Z.of_nat n -> in_range w (from_le bs).
Proof.
  intros <- E. unfold in_range. rewrite E. apply from_le_range.
Qed.

Lemma to_le_from_le' n bs : length bs = n -> to_le n (from_le bs) = bs.
Proof. intros <-. apply to_le_from_le. Qed.

(** Big-endian words: [to_be_bytes] and [from_be_bytes]. *)
Definition from_be (bs : list byte) : Z := from_le (reverse bs).
Definition to_be (n : nat) (v : Z) : list byte := reverse (to_le n v).

Lemma to_be_from_be bs : to_be (length bs) (from_be bs) = bs.
Proof.
  unfold to_be, from_be. rewrite <- (length_reverse bs), to_le_from_le.
  apply reverse_involutive.
Qed.

Lemma from_be_to_be n v : from_be (to_be n v) = v mod 256 ^ Z.of_nat n.
Proof. unfold from_be, to_be. rewrite reverse_involutive. apply from_le_to_le. Qed.

(** * Results of fallible code *)

(** A Rust function returning [Result<A, E>] yields [Ok] or [Err]; [Panic] is
    a panic of the code itself (an index out of range, an arithmetic overflow
    in a checked build). *)
Inductive res (E A : Type) : Type :=
| Ok (a : A)
| Err (e : E)
| Panic.
Arguments Ok {E A} _.
Arguments Err {E A} _.
Arguments Panic {E A}.

#[export] Instance res_ret {E} : MRet (res E) := fun A a => Ok a.
#[export] Instance res_bind {E} : MBind (res E) := fun A B f m =>
  match m with Ok a => f a | Err e => Err e | Panic => Panic end.

#[export] Instance res_eq_dec {E A} `{EqDecision E, EqDecision A} : EqDecision (res E A).
Proof. solve_decision. Defined.

(** [Option::ok_or]. *)
Definition ok_or {E A} (o : option A) (e : E) : res E A :=
  match o with Some a => Ok a | None => Err e end.

(** [Result::map_err]. *)
Definition map_err {E E' A} (f : E -> E') (r : res E A) : res E' A :=
  match r with Ok a => Ok a | Err e => Err (f e) | Panic => Panic end.

(** [unwrap]-like uses: [None] panics. *)
Definition or_panic {E A} (o : option A) : res E A :=
  match o with Some a => Ok a | None => Panic end.

(** [if c { return Err(e) }]. *)
Definition guard_err {E} (c : bool) (e : E) : res E unit :=
  if c then Err e else Ok tt.

(** A [for] loop threading a state through fallible iterations. *)
Fixpoint foldM {E A B} (f : B -> A -> res E B) (b : B) (l : list A) : res E B :=
  match l with
  | [] => Ok b
  | a :: l' => b' ← f b a; foldM f b' l'
  end.

(** [iter.map(f).collect::<Result<Vec<_>, _>>()]-like loops. *)
Fixpoint mapM_res {E A B} (f : A -> res E B) (l : list A) : res E (list B) :=
  match l with
  | [] => Ok []
  | a :: l' => b ← f a; bs ← mapM_res f l'; Ok (b :: bs)
  end.

Lemma res_bind_ok {E A B} (m : res E A) (f : A -> res E B) b :
  (m ≫= f) = Ok b -> exists a, m = Ok a /\ f a = Ok b.
Proof. destruct m; simpl; try discriminate. eauto. Qed.

Lemma guard_err_ok {E} c (e : E) u : guard_err c e = Ok u -> c = false.
Proof. by destruct c. Qed.

(** Decompose a successful run of a [res] computation in hypothesis [H]. *)
Ltac res_inv H :=
  repeat match type of H with
  | (_ ≫= _) = Ok _ =>
      let a := fresh "x" in let Ha := fresh "Hx" in
      apply res_bind_ok in H as (a & Ha & H)
  end.

Lemma foldM_app {E A B} (f : B -> A -> res E B) b l1 l2 :
  foldM f b (l1 ++ l2) = (b' ← foldM f b l1; foldM f b' l2).
Proof.
  revert b. induction l1 as [|a l1 IH]; intros b; [done|]. simpl.
  destruct (f b a); simpl; auto.
Qed.

(** Rule for loops: an invariant kept by each successful iteration. *)
Lemma foldM_invariant {E A B} (I : list A -> B -> Prop) (f : B -> A -> res E B) l b :
  I [] b ->
  (forall done a todo b, l = done ++ a :: todo -> I done b ->
     exists b', f b a = Ok b' /\ I (done ++ [a]) b') ->
  exists b', foldM f b l = Ok b' /\ I l b'.
Proof.
  intros H0 Hstep.
  assert (forall todo done b, l = done ++ todo -> I done b ->
            exists b', foldM f b todo = Ok b' /\ I l b') as G.
  { clear b H0. induction todo as [|a todo IH]; intros done b E' Hd; simpl.
    - rewrite app_nil_r in E'. subst. eauto.
    - destruct (Hstep done a todo b E' Hd) as (b1 & -> & H1). simpl.
      apply (IH (done ++ [a])); [|done]. by rewrite <- (assoc_L (++)). }
  by apply (G l [] b).
Qed.

Lemma mapM_res_ok {E A B} (f : A -> res E B) l bs :
  mapM_res f l = Ok bs -> Forall2 (fun a b => f a = Ok b) l bs.
Proof.
  revert bs. induction l as [|a l IH]; intros bs H; simpl in H.
  - by simplify_eq.
  - res_inv H. simplify_eq. constructor; auto.
Qed.

(** [wp m Q]: running [m] does not panic, and a value it returns satisfies
    [Q]. An error is allowed. *)
Definition wp {E A} (m : res E A) (Q : A -> Prop) : Prop :=
  match m with Ok a => Q a | Err _ => True | Panic => False end.

Lemma wp_bind {E A B} (m : res E A) (f : A -> res E B) Q :
  wp m (fun a => wp (f a) Q) -> wp (m ≫= f) Q.
Proof. by destruct m. Qed.

Lemma wp_mono {E A} (m : res E A) (Q Q' : A -> Prop) :
  wp m Q -> (forall a, Q a -> Q' a) -> wp m Q'.
Proof. destruct m; simpl; auto. Qed.

Lemma wp_eq {E A} (m : res E A) Q : wp m Q -> wp m (fun a => m = Ok a /\ Q a).
Proof. destruct m; simpl; auto. Qed.

Lemma wp_ok {E A} (m : res E A) Q a : wp m Q -> m = Ok a -> Q a.
Proof. by intros H ->. Qed.

Lemma wp_no_panic {E A} (m : res E A) Q : wp m Q -> m <> Panic.
Proof. by destruct m. Qed.

Lemma wp_guard {E} c (e : E) : wp (guard_err c e) (fun _ => c = false).
Proof. by destruct c. Qed.

Lemma wp_ok_or {E A} (o : option A) (e : E) : wp (ok_or o e) (fun a => o = Some a).
Proof. by destruct o. Qed.

(** Rule for loops: an invariant indexed by the elements already visited. *)
Lemma wp_foldM {E A B} (I : list A -> B -> Prop) (f : B -> A -> res E B) l b :
  I [] b ->
  (forall done a todo b, l = done ++ a :: todo -> I done b ->
     wp (f b a) (I (done ++ [a]))) ->
  wp (foldM f b l) (I l).
Proof.
  intros H0 Hstep.
  assert (forall todo done b, l = done ++ todo -> I done b -> wp (foldM f b todo) (I l)) as G.
  { clear b H0. induction todo as [|a todo IH]; intros done b E' Hd; simpl.
    - rewrite app_nil_r in E'. by subst.
    - apply wp_bind. eapply wp_mono; [by eapply Hstep|]. intros b' Hb'.
      apply (IH (done ++ [a])); [|done]. by rewrite <- (assoc_L (++)). }
  by apply (G l [] b).
Qed.

Lemma wp_mapM {E A B} (f : A -> res E B) (P : A -> B -> Prop) l :
  Forall (fun a => wp (f a) (P a)) l -> wp (mapM_res f l) (Forall2 P l).
Proof.
  induction 1 as [|a l Ha Hl IH]; simpl; [constructor|].
  apply wp_bind. eapply wp_mono; [done|]. intros b Hb.
  apply wp_bind. eapply wp_mono; [done|]. intros bs Hbs. by constructor.
Qed.

(** * Checked slices *)

(** [len s] is [s.len()]. *)
Definition len {A} (l : list A) : Z := Z.of_nat (length l).

(** [sub l a b] is the sub-list of positions [a .. b). *)
Definition sub {A} (l : list A) (a b : Z) : list A :=
  take (Z.to_nat (b - a)) (drop (Z.to_nat a) l).

(** [l.get(a..b)], and the panicking [&l[a..b]]. *)
Definition get_range {A} (l : list A) (a b : Z) : option (list A) :=
  if (0 <=? a) && (a <=? b) && (b <=? len l) then Some (sub l a b) else None.

Definition slice {E A} (l : list A) (a b : Z) : res E (list A) := or_panic (get_range l a b).

(** [l.get(i)] and the panicking [l[i]]. *)
Definition get {A} (l : list A) (i : Z) : option A :=
  if 0 <=? i then l !! Z.to_nat i else None.

Definition index {E A} (l : list A) (i : Z) : res E A := or_panic (get l i).

(** [out[a..b].copy_from_slice(src)]. *)
Definition copy_into {E A} (out : list A) (a b : Z) (src : list A) : res E (list A) :=
  if (0 <=? a) && (a <=? b) && (b <=? len out) && (len src =? b - a)
  then Ok (take (Z.to_nat a) out ++ src ++ drop (Z.to_nat b) out)
  else Panic.

(** Additions on [usize] and [u64], overflow panicking and overflow checked. *)
Definition usize_add {E} (a b : Z) : res E Z :=
  if a + b <? 2 ^ 64 then Ok (a + b) else Panic.

Definition checked_add64 (a b : Z) : option Z :=
  if a + b <? 2 ^ 64 then Some (a + b) else None.

Lemma len_nonneg {A} (l : list A) : 0 <= len l.
Proof. unfold len. lia. Qed.

Lemma len_app {A} (l1 l2 : list A) : len (l1 ++ l2) = len l1 + len l2.
Proof. unfold len. rewrite length_app. lia. Qed.

Lemma length_sub {A} (l : list A) a b :
  0 <= a <= b -> b <= len l -> length (sub l a b) = Z.to_nat (b - a).
Proof. unfold sub, len. intros. rewrite length_take, length_drop. lia. Qed.

Lemma len_sub {A} (l : list A) a b :
  0 <= a <= b -> b <= len l -> len (sub l a b) = b - a.
Proof. intros. unfold len. rewrite length_sub by done. lia. Qed.

Lemma get_range_Some {A} (l : list A) a b s :
  get_range l a b = Some s <-> 0 <= a <= b /\ b <= len l /\ s = sub l a b.
Proof.
  unfold get_range. destruct (_ && _ && _) eqn:E.
  - apply andb_true_iff in E as [E1 E2]. apply andb_true_iff in E1 as [? ?].
    split; [intros [= <-]; split_and!; (lia || done) | intros (_ & _ & ->); done].
  - split; [discriminate|]. intros (? & ? & _).
    assert (true = false); [|done]. rewrite <- E. symmetry.
    rewrite !andb_true_iff. lia.
Qed.

Lemma slice_ok {E A} (l : list A) a b :
  0 <= a <= b -> b <= len l -> slice (E:=E) l a b = Ok (sub l a b).
Proof.
  intros. unfold slice. assert (get_range l a b = Some (sub l a b)) as ->; [|done].
  by apply get_range_Some.
Qed.

Lemma slice_inv {E A} (l : list A) a b s :
  slice (E:=E) l a b = Ok s -> 0 <= a <= b /\ b <= len l /\ s = sub l a b.
Proof.
  unfold slice. destruct (get_range l a b) eqn:G; simpl; [|discriminate].
  intros [= <-]. by apply get_range_Some.
Qed.

Lemma wp_slice {E A} (l : list A) a b :
  0 <= a <= b -> b <= len l -> wp (slice (E:=E) l a b) (fun s => s = sub l a b).
Proof. intros. by rewrite slice_ok. Qed.

Lemma slice_no_err {E A} (l : list A) a b (e : E) : slice l a b <> Err e.
Proof. unfold slice. by destruct (get_range l a b). Qed.

Lemma usize_add_ok {E} a b : a + b < 2 ^ 64 -> usize_add (E:=E) a b = Ok (a + b).
Proof. intros H. unfold usize_add. by replace (a + b <? 2 ^ 64) with true by lia. Qed.

Lemma drop_get {A} (l : list A) (p : Z) b : get l p = Some b ->
  0 <= p < len l /\ drop (Z.to_nat p) l = b :: drop (Z.to_nat (p + 1)) l.
Proof.
  unfold get. destruct (Z.leb_spec 0 p); [|done]. intros H1. pose proof (lookup_lt_Some _ _ _ H1).
  split; [unfold len; lia|]. replace (Z.to_nat (p + 1)) with (S (Z.to_nat p)) by lia.
  by apply drop_S.
Qed.

Lemma get_None {A} (l : list A) (p : Z) : 0 <= p -> get l p = None -> drop (Z.to_nat p) l = [].
Proof.
  unfold get. intros Hp. destruct (Z.leb_spec 0 p); [|lia]. intros H1.
  apply drop_ge. by apply lookup_ge_None.
Qed.

Lemma len_drop {A} (l : list A) p : 0 <= p <= len l -> len (drop (Z.to_nat p) l) = len l - p.
Proof. unfold len. rewrite length_drop. lia. Qed.

Lemma drop_past {A} (bs l rest : list A) p q : 0 <= p -> drop (Z.to_nat p) bs = l ++ rest ->
  q = p + len l -> drop (Z.to_nat q) bs = rest.
Proof.
  intros Hp E ->. unfold len. replace (Z.to_nat (p + Z.of_nat (length l))) with (Z.to_nat p + length l)%nat by lia.
  rewrite <- drop_drop, E. apply drop_app_length.
Qed.

Lemma lookup_sub {A} (l : list A) a b i :
  0 <= a -> Z.of_nat i < b - a -> sub l a b !! i = l !! (Z.to_nat a + i)%nat.
Proof. intros. unfold sub. rewrite lookup_take_lt by lia. by rewrite lookup_drop. Qed.

Lemma sub_sub {A} (l : list A) a b c d :
  0 <= a -> 0 <= c -> c <= d -> d <= b - a ->
  sub (sub l a b) c d = sub l (a + c) (a + d).
Proof.
  intros. unfold sub. rewrite skipn_firstn_comm, drop_drop, take_take.
  f_equal; [lia|]. f_equal. lia.
Qed.

Lemma sub_app {A} (l : list A) a b c :
  0 <= a <= b -> b <= c -> sub l a b ++ sub l b c = sub l a c.
Proof.
  intros. unfold sub. replace (Z.to_nat b) with (Z.to_nat a + Z.to_nat (b - a))%nat by lia.
  rewrite <- drop_drop. set (m := drop (Z.to_nat a) l).
  replace (Z.to_nat (c - a)) with (Z.to_nat (b - a) + Z.to_nat (c - b))%nat by lia.
  by rewrite take_take_drop.
Qed.

Lemma sub_nil {A} (l : list A) a : sub l a a = [].
Proof. unfold sub. by rewrite Z.sub_diag. Qed.

Lemma sub_full {A} (l : list A) : sub l 0 (len l) = l.
Proof. unfold sub, len. rewrite drop_0. apply take_ge. lia. Qed.

(** Positions in an enumerated list. *)
Lemma zip_seqZ_split {A} (l : list A) done i a todo :
  zip (seqZ 0 (len l)) l = done ++ (i, a) :: todo ->
  i = len done /\ l !! length done = Some a.
Proof.
  intros H. assert (zip (seqZ 0 (len l)) l !! length done = Some (i, a)) as Hl
    by (rewrite H; apply list_lookup_middle; done).
  apply lookup_zip_Some in Hl as [Hi Ha]. apply lookup_seqZ in Hi as [-> _].
  split; [unfold len; lia|done].
Qed.

Lemma len_zip_seqZ {A} (l : list A) : len (zip (seqZ 0 (len l)) l) = len l.
Proof. unfold len. rewrite length_zip, length_seqZ. lia. Qed.

(** * Writing a buffer region by region *)

(** [agree R ref out]: [out] has the length of [ref] and equals it on every
    position inside one of the ranges [R]. Writing slices of [ref] at their
    own positions grows [R]; once the ranges cover everything, [out = ref]. *)
Definition covered (R : list (Z * Z)) (i : Z) : Prop :=
  exists r, r ∈ R /\ r.1 <= i < r.2.

Definition agree {A} (R : list (Z * Z)) (ref out : list A) : Prop :=
  length out = length ref /\
  forall i : nat, covered R (Z.of_nat i) -> out !! i = ref !! i.

Lemma covered_cons r R i : covered (r :: R) i <-> r.1 <= i < r.2 \/ covered R i.
Proof.
  unfold covered. split.
  - intros (x & Hx & ?). apply elem_of_cons in Hx as [->|?]; eauto.
  - intros [?|(x & ? & ?)]; [exists r | exists x]; rewrite elem_of_cons; auto.
Qed.

Lemma covered_nil i : ~ covered [] i.
Proof. intros (x & H & _). by apply elem_of_nil in H. Qed.

(** How many ranges hold a position. *)
Definition cover_count (R : list (Z * Z)) (i : Z) : nat :=
  length (base.filter (fun r => r.1 <= i < r.2) R).

Lemma cover_count_app R1 R2 i :
  cover_count (R1 ++ R2) i = (cover_count R1 i + cover_count R2 i)%nat.
Proof. unfold cover_count. by rewrite filter_app, length_app. Qed.

Lemma cover_count_one a b i :
  cover_count [(a, b)] i = if (a <=? i) && (i <? b) then 1%nat else 0%nat.
Proof.
  unfold cover_count. rewrite filter_cons, filter_nil. simpl.
  destruct (decide _); destruct (_ && _) eqn:E; simpl; try done; lia.
Qed.

Lemma cover_count_covered R i : cover_count R i <> 0%nat -> covered R i.
Proof.
  unfold cover_count, covered. destruct (base.filter _ R) as [|r l] eqn:E; [done|].
  intros _. exists r. assert (r ∈ base.filter (fun r => r.1 <= i < r.2) R) as Hr
    by (rewrite E; left). by apply list_elem_of_filter in Hr as [??].
Qed.

Lemma cover_count_perm R R' i : R ≡ₚ R' -> cover_count R i = cover_count R' i.
Proof. unfold cover_count. by intros ->. Qed.

Lemma covered_app R1 R2 i : covered (R1 ++ R2) i <-> covered R1 i \/ covered R2 i.
Proof.
  unfold covered. setoid_rewrite elem_of_app. split.
  - intros (x & [?|?] & ?); eauto.
  - intros [(x & ? & ?)|(x & ? & ?)]; eauto.
Qed.

(** Two adjacent ranges are one. *)
Lemma agree_join {A} R (ref out : list A) a b c :
  agree ((b, c) :: (a, b) :: R) ref out -> agree ((a, c) :: R) ref out.
Proof.
  intros [Hl Ha]. split; [done|]. intros i Hi. apply Ha.
  rewrite covered_cons in Hi. rewrite !covered_cons. cbn [fst snd] in *.
  destruct Hi as [?|?]; [|by right; right].
  destruct (decide (Z.of_nat i < b)); [right; left|left]; lia.
Qed.

Lemma agree_nil {A} (ref out : list A) : length out = length ref -> agree [] ref out.
Proof. intros H. split; [done|]. intros i Hi. by apply covered_nil in Hi. Qed.

Lemma agree_full {A} R (ref out : list A) :
  agree R ref out -> (forall i, 0 <= i < len ref -> covered R i) -> out = ref.
Proof.
  intros [Hl Ha] Hc. apply list_eq_same_length with (length ref); [done..|].
  intros i x y Hi Hx Hy. rewrite Ha in Hx; [congruence|].
  apply Hc. unfold len. lia.
Qed.

Lemma agree_mono {A} R R' (ref out : list A) :
  (forall i, covered R' i -> covered R i) -> agree R ref out -> agree R' ref out.
Proof. intros Hs [Hl Ha]. split; auto. Qed.

Lemma agree_copy {E A} R (ref out : list A) a b :
  agree R ref out -> 0 <= a <= b -> b <= len ref ->
  exists out', copy_into (E:=E) out a b (sub ref a b) = Ok out' /\
               agree ((a, b) :: R) ref out'.
Proof.
  intros [Hl Ha] Hab Hb. unfold copy_into.
  assert (len out = len ref) as Ho by (unfold len; congruence).
  rewrite Ho, len_sub by done.
  replace (_ && _ && _ && _) with true
    by (symmetry; rewrite !andb_true_iff; lia).
  eexists. split; [done|].
  unfold len in *. pose proof (length_sub ref a b Hab Hb) as Hls.
  split.
  { rewrite !length_app, length_take, length_drop, Hls. lia. }
  intros i Hi. destruct (decide (Z.of_nat i < a)) as [?|?].
  { rewrite lookup_app_l by (rewrite length_take; lia).
    rewrite lookup_take_lt by lia. apply Ha.
    apply covered_cons in Hi as [?|?]; [simpl in *; lia|done]. }
  rewrite lookup_app_r by (rewrite length_take; lia). rewrite length_take.
  destruct (decide (Z.of_nat i < b)) as [?|?].
  { rewrite lookup_app_l by (rewrite Hls; lia). rewrite lookup_sub by lia.
    f_equal. lia. }
  rewrite lookup_app_r by (rewrite Hls; lia). rewrite Hls, lookup_drop.
  replace (Z.to_nat b + (i - Z.to_nat a `min` length out - Z.to_nat (b - a)))%nat
    with i by lia.
  apply Ha. apply covered_cons in Hi as [?|?]; [simpl in *; lia|done].
Qed.

(** [covers_upto R n]: decidable test that the ranges [R], in the order of
    their start, leave no hole below [n]. *)
Fixpoint no_hole (cur : Z) (R : list (Z * Z)) (n : Z) : bool :=
  match R with
  | [] => n <=? cur
  | r :: R' => (r.1 <=? cur) && no_hole (Z.max cur r.2) R' n
  end.

Lemma covered_reverse R i : covered (reverse R) i -> covered R i.
Proof. intros (r & Hr & ?). exists r. by rewrite <- elem_of_reverse. Qed.

Lemma no_hole_covers cur R n i :
  no_hole cur R n = true -> cur <= i < n -> covered R i.
Proof.
  revert cur. induction R as [|r R IH]; intros cur H Hi; simpl in H; [lia|].
  apply andb_true_iff in H as [? H]. apply covered_cons.
  destruct (decide (i < r.2)); [left; lia|right]. eapply IH; [done|]. lia.
Qed.

Lemma agree_done {A} R (ref out : list A) :
  agree R ref out -> no_hole 0 (reverse R) (len ref) = true -> out = ref.
Proof.
  intros HA Hn. apply (agree_full R); [done|]. intros i Hi.
  apply covered_reverse. eapply no_hole_covers; [done|lia].
Qed.

(** * Text *)

(** A Rust [str] is its UTF-8 bytes; [str "ADD"] is a literal. *)
Definition str (s : string) : list byte := String.list_byte_of_string s.
Arguments str !s.

(** * Sorting *)

(** [v.sort_by_key(key)]: a stable sort on integer keys. *)
Section sort_by_key.
Context {A : Type} (key : A -> Z).

Fixpoint insert_by_key (x : A) (l : list A) : list A :=
  match l with
  | [] => [x]
  | y :: l' => if key x <=? key y then x :: l else y :: insert_by_key x l'
  end.

Definition sort_by_key (l : list A) : list A := foldr insert_by_key [] l.

Lemma insert_by_key_perm x l : insert_by_key x l ≡ₚ x :: l.
Proof.
  induction l as [|y l IH]; simpl; [done|]. case_match; [done|].
  rewrite IH. apply Permutation_swap.
Qed.

Lemma sort_by_key_perm l : sort_by_key l ≡ₚ l.
Proof.
  induction l as [|x l IH]; simpl; [done|]. by rewrite insert_by_key_perm, IH.
Qed.

Lemma insert_by_key_sorted x l :
  StronglySorted (fun a b => key a <= key b) l ->
  StronglySorted (fun a b => key a <= key b) (insert_by_key x l).
Proof.
  induction 1 as [|y l Hl IH Hy]; simpl; [repeat constructor|].
  destruct (Z.leb_spec (key x) (key y)).
  - constructor; [by constructor|]. constructor; [done|].
    eapply Forall_impl; [done|]. simpl. lia.
  - constructor; [done|]. rewrite insert_by_key_perm. constructor; [lia|done].
Qed.

Lemma sort_by_key_sorted l :
  StronglySorted (fun a b => key a <= key b) (sort_by_key l).
Proof.
  induction l as [|x l IH]; simpl; [constructor|]. by apply insert_by_key_sorted.
Qed.
End sort_by_key.

(** The entries of a [BTreeMap] with integer keys, in the order of the keys. *)
Definition ordered {A} (m : gmap Z A) : list (Z * A) := sort_by_key fst (map_to_list m).

Lemma elem_of_ordered {A} (m : gmap Z A) k a : (k, a) ∈ ordered m <-> m !! k = Some a.
Proof. unfold ordered. rewrite (sort_by_key_perm fst). apply elem_of_map_to_list. Qed.
