(* ===== verification/Text.v ===== *)
(** The Rust standard library's text primitives as the source uses them, on
    UTF-8 bytes: white space and trimming, splitting, prefixes and search,
    ASCII case, and the parsing and formatting of integers. *)

From S2P Require Import Prelude.

(** * White space *)

(** Number of bytes of the [White_Space] character the text starts with, 0 if
    it starts with another character or is empty. *)
Definition ws_len (s : list byte) : nat :=
  match map u8 s with
  | [] => 0%nat
  | c :: t =>
      if ((9 <=? c) && (c <=? 13)) || (c =? 32) then 1%nat
      else match t with
      | [] => 0%nat
      | d :: t' =>
          if (c =? 194) && ((d =? 133) || (d =? 160)) then 2%nat
          else match t' with
          | [] => 0%nat
          | e :: _ =>
              if ((c =? 225) && (d =? 154) && (e =? 128))
                 || ((c =? 226) && (d =? 128)
                     && (((128 <=? e) && (e <=? 138)) || (e =? 168) || (e =? 169) || (e =? 175)))
                 || ((c =? 226) && (d =? 129) && (e =? 159))
                 || ((c =? 227) && (d =? 128) && (e =? 128))
              then 3%nat else 0%nat
          end
      end
  end.

(** [s.trim_start()]: [n] bounds the number of characters removed. *)
Fixpoint trim_start_n (n : nat) (s : list byte) : list byte :=
  match n with
  | O => s
  | S n' => match ws_len s with O => s | k => trim_start_n n' (drop k s) end
  end.
Definition trim_start (s : list byte) : list byte := trim_start_n (length s) s.

(** [s.trim_end()]: cut where the rest is white space only. *)
Fixpoint trim_end (s : list byte) : list byte :=
  match s with
  | [] => []
  | c :: t => match trim_start s with [] => [] | _ => c :: trim_end t end
  end.

Definition trim (s : list byte) : list byte := trim_end (trim_start s).

(** [s.find(char::is_whitespace)]: the byte offset of the first one. *)
Fixpoint find_ws (s : list byte) : option nat :=
  match s with
  | [] => None
  | c :: t => match ws_len s with O => S <$> find_ws t | _ => Some O end
  end.

(** [s.split_whitespace()]: [cur] is the word being read, [skip] the bytes of
    a multi-byte separator still to pass. *)
Fixpoint split_ws_from (skip : nat) (cur s : list byte) : list (list byte) :=
  match s with
  | [] => match cur with [] => [] | _ => [cur] end
  | c :: t =>
      match skip with
      | S k => split_ws_from k cur t
      | O => match ws_len s with
             | O => split_ws_from O (cur ++ [c]) t
             | S k => match cur with
                      | [] => split_ws_from k [] t
                      | _ => cur :: split_ws_from k [] t
                      end
             end
      end
  end.
Definition split_whitespace (s : list byte) : list (list byte) := split_ws_from O [] s.

(** * Prefixes, suffixes and search *)

Fixpoint strip_prefix (p s : list byte) : option (list byte) :=
  match p with
  | [] => Some s
  | a :: p' => match s with
               | b :: s' => if beqb a b then strip_prefix p' s' else None
               | [] => None
               end
  end.

Definition strip_suffix (p s : list byte) : option (list byte) :=
  reverse <$> strip_prefix (reverse p) (reverse s).

Definition starts_with (p s : list byte) : bool :=
  match strip_prefix p s with Some _ => true | None => false end.

(** [s.find(p)]: the byte offset of the first occurrence of [p]. *)
Fixpoint find (p s : list byte) : option nat :=
  if starts_with p s then Some O
  else match s with [] => None | _ :: t => S <$> find p t end.

(** [s.rfind(p)]: the byte offset of the last occurrence. *)
Fixpoint rfind (p s : list byte) : option nat :=
  match s with
  | [] => if starts_with p s then Some O else None
  | _ :: t => match rfind p t with
              | Some i => Some (S i)
              | None => if starts_with p s then Some O else None
              end
  end.

(** [s.split(c).next()]: the part before the first byte [c]. *)
Fixpoint before (c : byte) (s : list byte) : list byte :=
  match s with
  | [] => []
  | d :: t => if beqb c d then [] else d :: before c t
  end.

(** Equality of strings. *)
Definition str_eqb (s t : list byte) : bool := bool_decide (s = t).

(** * ASCII case *)

Definition to_ascii_upper (b : byte) : byte :=
  if (97 <=? u8 b) && (u8 b <=? 122) then byte_of (u8 b - 32) else b.
Definition to_ascii_lower (b : byte) : byte :=
  if (65 <=? u8 b) && (u8 b <=? 90) then byte_of (u8 b + 32) else b.
Definition to_ascii_uppercase (s : list byte) : list byte := map to_ascii_upper s.
Definition to_ascii_lowercase (s : list byte) : list byte := map to_ascii_lower s.
Definition eq_ignore_ascii_case (s t : list byte) : bool :=
  str_eqb (to_ascii_lowercase s) (to_ascii_lowercase t).

(** * UTF-8 *)

Definition is_cont (c : Z) : bool := (128 <=? c) && (c <=? 191).

(** [std::str::from_utf8(bytes).is_ok()]. *)
Fixpoint utf8_valid_n (n : nat) (s : list Z) : bool :=
  match n with
  | O => true
  | S n' =>
      match s with
      | [] => true
      | c :: t =>
          if c <? 128 then utf8_valid_n n' t
          else if (194 <=? c) && (c <=? 223) then
            match t with d :: t' => is_cont d && utf8_valid_n n' t' | _ => false end
          else if (224 <=? c) && (c <=? 239) then
            match t with
            | d :: e :: t' =>
                is_cont d && is_cont e
                && (negb (c =? 224) || (160 <=? d)) && (negb (c =? 237) || (d <=? 159))
                && utf8_valid_n n' t'
            | _ => false
            end
          else if (240 <=? c) && (c <=? 244) then
            match t with
            | d :: e :: f :: t' =>
                is_cont d && is_cont e && is_cont f
                && (negb (c =? 240) || (144 <=? d)) && (negb (c =? 244) || (d <=? 143))
                && utf8_valid_n n' t'
            | _ => false
            end
          else false
      end
  end.
Definition utf8_valid (s : list byte) : bool := utf8_valid_n (length s) (map u8 s).

(** * Integers as text *)

(** The value of a digit in a radix up to 36. *)
Definition digit_val (r : Z) (b : byte) : option Z :=
  let c := u8 b in
  let d := if (48 <=? c) && (c <=? 57) then c - 48
           else if (97 <=? c) && (c <=? 122) then c - 87
           else if (65 <=? c) && (c <=? 90) then c - 55
           else 99 in
  if d <? r then Some d else None.

Fixpoint digits_val (r bound acc : Z) (s : list byte) : option Z :=
  match s with
  | [] => Some acc
  | b :: t =>
      match digit_val r b with
      | Some d => let v := acc * r + d in
                  if v <? bound then digits_val r bound v t else None
      | None => None
      end
  end.

(** [uN::from_str_radix(s, r)] and, for [r = 10], [s.parse::<uN>()]: one
    leading [+] is accepted, an empty digit string and an overflow are not. *)
Definition parse_unsigned (r w : Z) (s : list byte) : option Z :=
  match s with
  | [] => None
  | c :: t =>
      let digits := if u8 c =? 43 then t else s in
      match digits with [] => None | _ => digits_val r (2 ^ w) 0 digits end
  end.

(** [s.parse::<iN>()]. *)
Definition parse_signed (w : Z) (s : list byte) : option Z :=
  match s with
  | [] => None
  | c :: t =>
      if u8 c =? 45 then
        match t with [] => None | _ => Z.opp <$> digits_val 10 (2 ^ (w - 1) + 1) 0 t end
      else
        let digits := if u8 c =? 43 then t else s in
        match digits with [] => None | _ => digits_val 10 (2 ^ (w - 1)) 0 digits end
  end.

(** Digits of a number, most significant first; [upper] as in [{:X}]. *)
Definition digit_char (upper : bool) (d : Z) : byte :=
  byte_of (if d <? 10 then 48 + d else (if upper then 55 else 87) + d).

Fixpoint digits_n (fuel : nat) (upper : bool) (r v : Z) (acc : list byte) : list byte :=
  let acc' := digit_char upper (v mod r) :: acc in
  match fuel with
  | O => acc'
  | S f => if v / r =? 0 then acc' else digits_n f upper r (v / r) acc'
  end.

Definition fmt_radix (upper : bool) (r v : Z) : list byte :=
  digits_n (Z.to_nat (Z.log2 v)) upper r v [].

(** [{}], [{:x}], [{:X}] on a non-negative number. *)
Definition fmt_dec (v : Z) : list byte := fmt_radix false 10 v.
Definition fmt_hex (v : Z) : list byte := fmt_radix false 16 v.
Definition fmt_HEX (v : Z) : list byte := fmt_radix true 16 v.

(** [{:0n x}]: zero padding on the left to [n] characters. *)
Definition pad0 (n : nat) (s : list byte) : list byte :=
  replicate (n - length s) (byte_of 48) ++ s.

(** [{}] on a signed number. *)
Definition fmt_int (v : Z) : list byte :=
  if v <? 0 then str "-" ++ fmt_dec (- v) else fmt_dec v.


(** * Lemmas: numbers *)

Lemma digit_char_val up d r : 0 <= d < r -> r <= 16 -> digit_val r (digit_char up d) = Some d.
Proof.
  intros Hd Hr.
  assert (forallb (fun u => forallb (fun d => match digit_val 16 (digit_char u d) with
            | Some e => e =? d | None => false end) (seqZ 0 16)) [true; false] = true) as C
    by reflexivity.
  rewrite List.forallb_forall in C. specialize (C up ltac:(destruct up; simpl; auto)).
  rewrite List.forallb_forall in C.
  specialize (C d ltac:(apply list_elem_of_In, elem_of_seqZ; lia)).
  unfold digit_val in *.
  repeat case_match; simplify_eq; apply Z.eqb_eq in C; simplify_eq; f_equal; lia.
Qed.

Lemma digits_n_val up r bound : 2 <= r -> r <= 16 ->
  forall fuel v t, 0 <= v < r ^ (Z.of_nat fuel + 1) -> v < bound ->
  digits_val r bound 0 (digits_n fuel up r v t) = digits_val r bound v t.
Proof.
  intros Hr Hr'. induction fuel as [|f IH]; intros v t Hv Hb; simpl.
  - rewrite Z.pow_1_r in Hv. rewrite Z.mod_small, digit_char_val by lia.
    change (0 * r + v) with v. by replace (v <? bound) with true by lia.
  - pose proof (Z.mod_pos_bound v r ltac:(lia)) as Hm.
    destruct (Z.eqb_spec (v / r) 0) as [E|E].
    + assert (v mod r = v) as Em by (pose proof (Z.div_mod v r); lia).
      simpl. rewrite digit_char_val, Em by lia. change (0 * r + v) with v.
      by replace (v <? bound) with true by lia.
    + rewrite IH.
      * simpl. rewrite digit_char_val by lia.
        replace (v / r * r + v mod r) with v by (pose proof (Z.div_mod v r); lia).
        by replace (v <? bound) with true by lia.
      * split; [apply Z.div_pos; lia|]. apply Z.div_lt_upper_bound; [lia|].
        rewrite <- Z.pow_succ_r by lia.
        replace (Z.succ (Z.of_nat f + 1)) with (Z.of_nat (S f) + 1) by lia. lia.
      * pose proof (Z.div_le_upper_bound v r v ltac:(lia) ltac:(nia)). lia.
Qed.

(** The characters a formatted number consists of. *)
Definition digit_like (b : byte) : bool :=
  ((48 <=? u8 b) && (u8 b <=? 57)) || ((65 <=? u8 b) && (u8 b <=? 70))
  || ((97 <=? u8 b) && (u8 b <=? 102)).

Lemma digit_char_like up d : 0 <= d < 16 -> digit_like (digit_char up d) = true.
Proof.
  intros Hd.
  assert (forallb (fun u => forallb (fun d => digit_like (digit_char u d)) (seqZ 0 16))
            [true; false] = true) as C by reflexivity.
  rewrite List.forallb_forall in C. specialize (C up ltac:(destruct up; simpl; auto)).
  rewrite List.forallb_forall in C. apply C, list_elem_of_In, elem_of_seqZ. lia.
Qed.

Lemma digits_n_shape up r fuel v t : 2 <= r <= 16 ->
  exists c ds, (digits_n fuel up r v t = (c :: ds) ++ t) /\
    Forall (fun b => digit_like b = true) (c :: ds).
Proof.
  intros Hr. revert v t. induction fuel as [|f IH]; intros v t; simpl.
  - exists (digit_char up (v mod r)), []. split; [done|].
    repeat constructor. apply digit_char_like. pose proof (Z.mod_pos_bound v r). lia.
  - pose proof (Z.mod_pos_bound v r ltac:(lia)) as Hm. case_match.
    + exists (digit_char up (v mod r)), []. split; [done|].
      repeat constructor. apply digit_char_like. lia.
    + destruct (IH (v / r) (digit_char up (v mod r) :: t)) as (c & ds & -> & Hds).
      exists c, (ds ++ [digit_char up (v mod r)]). split.
      { simpl. by rewrite <- (assoc_L (++)). }
      inversion_clear Hds. constructor; [done|]. apply Forall_app. split; [done|].
      repeat constructor. apply digit_char_like. lia.
Qed.

Lemma fmt_radix_shape up r v : 2 <= r <= 16 ->
  exists c ds, fmt_radix up r v = c :: ds /\
    Forall (fun b => digit_like b = true) (c :: ds).
Proof.
  intros Hr. unfold fmt_radix.
  destruct (digits_n_shape up r (Z.to_nat (Z.log2 v)) v [] Hr) as (c & ds & -> & H).
  exists c, ds. by rewrite app_nil_r.
Qed.

Lemma digit_like_not_plus b : digit_like b = true -> (u8 b =? 43) = false.
Proof. unfold digit_like. intros. lia. Qed.

(** Parsing what was formatted gives the number back. *)
Lemma digits_val_fmt up r bound v : 2 <= r <= 16 -> 0 <= v < bound ->
  digits_val r bound 0 (fmt_radix up r v) = Some v.
Proof.
  intros Hr Hv. unfold fmt_radix. rewrite digits_n_val; [done|lia|lia| |lia].
  split; [lia|]. pose proof (Z.log2_nonneg v). rewrite Z2Nat.id by done.
  destruct (decide (v = 0)) as [->|?]; [simpl; lia|].
  pose proof (Z.log2_spec v ltac:(lia)) as [_ Hl].
  eapply Z.lt_le_trans; [exact Hl|]. rewrite <- Z.add_1_r.
  apply Z.pow_le_mono_l. lia.
Qed.

Lemma parse_fmt up r w v : 2 <= r <= 16 -> in_range w v ->
  parse_unsigned r w (fmt_radix up r v) = Some v.
Proof.
  intros Hr Hv. pose proof (digits_val_fmt up r (2 ^ w) v Hr Hv) as E.
  destruct (fmt_radix_shape up r v Hr) as (c & ds & Hf & Hd). rewrite Hf in *.
  unfold parse_unsigned. inversion_clear Hd.
  by rewrite digit_like_not_plus.
Qed.

(** Leading zeros do not change the value parsed. *)
Lemma digits_val_zeros bound k s : 0 < bound ->
  digits_val 16 bound 0 (replicate k (byte_of 48) ++ s) = digits_val 16 bound 0 s.
Proof.
  intros Hb. induction k as [|k IH]; [done|]. cbn [replicate app digits_val].
  change (digit_val 16 (byte_of 48)) with (Some 0). cbv iota zeta beta.
  change (0 * 16 + 0) with 0. replace (0 <? bound) with true by lia. exact IH.
Qed.

Lemma parse_pad0 up n w v : 0 < w -> in_range w v ->
  parse_unsigned 16 w (pad0 n (fmt_radix up 16 v)) = Some v.
Proof.
  intros Hw Hv. pose proof (Z.pow_pos_nonneg 2 w ltac:(lia) ltac:(lia)) as Hp.
  pose proof (parse_fmt up 16 w v ltac:(lia) Hv) as E0.
  pose proof (digits_val_fmt up 16 (2 ^ w) v ltac:(lia) Hv) as E.
  unfold pad0. generalize (n - length (fmt_radix up 16 v))%nat as k. intros [|k]; [done|].
  rewrite <- (digits_val_zeros _ (S k)) in E by done.
  unfold parse_unsigned. cbn [replicate app] in *.
  by change (u8 (byte_of 48) =? 43) with false.
Qed.

(** A number below [r ^ n], padded to [n] characters, has exactly [n]. *)
Lemma length_digits_n up r n fuel v t : 2 <= r -> 0 <= v < r ^ Z.of_nat (S n) ->
  (length (digits_n fuel up r v t) <= S n + length t)%nat.
Proof.
  intros Hr. revert n v t. induction fuel as [|f IH]; intros n v t Hv; simpl; [lia|].
  destruct (Z.eqb_spec (v / r) 0) as [E|E]; [simpl; lia|].
  destruct n as [|n].
  { rewrite Z.pow_1_r in Hv. by rewrite Z.div_small in E by lia. }
  etransitivity; [apply (IH n)|simpl; lia]. split; [apply Z.div_pos; lia|].
  apply Z.div_lt_upper_bound; [lia|].
  rewrite (Nat2Z.inj_succ (S n)), Z.pow_succ_r in Hv by lia. lia.
Qed.

Lemma padded_field up r n v : 2 <= r <= 16 -> 0 <= v < r ^ Z.of_nat n -> (0 < n)%nat ->
  length (pad0 n (fmt_radix up r v)) = n /\
  Forall (fun b => digit_like b = true) (pad0 n (fmt_radix up r v)).
Proof.
  intros Hr Hv Hn. destruct n as [|n]; [lia|].
  pose proof (length_digits_n up r n (Z.to_nat (Z.log2 v)) v [] ltac:(lia) Hv) as Hl.
  fold (fmt_radix up r v) in Hl. destruct (fmt_radix_shape up r v Hr) as (c & ds & E & Hd).
  unfold pad0. rewrite E in *. split.
  - rewrite length_app, length_replicate. simpl length in *. lia.
  - apply Forall_app. split; [|done]. by apply Forall_replicate.
Qed.

(** * Lemmas: graphic text, trimming and splitting *)

(** Printable ASCII characters other than the space. *)
Definition graphic (b : byte) : bool := (33 <=? u8 b) && (u8 b <=? 126).

Lemma ws_len_graphic b t : graphic b = true -> ws_len (b :: t) = O.
Proof.
  unfold graphic, ws_len. intros H. cbn [map].
  replace (((9 <=? u8 b) && (u8 b <=? 13)) || (u8 b =? 32)) with false by lia.
  destruct (map u8 t) as [|d t']; [done|].
  replace (u8 b =? 194) with false by lia. cbn [andb].
  destruct t' as [|e ?]; [done|].
  replace (u8 b =? 225) with false by lia. replace (u8 b =? 226) with false by lia.
  by replace (u8 b =? 227) with false by lia.
Qed.

Lemma digit_like_graphic b : digit_like b = true -> graphic b = true.
Proof. unfold digit_like, graphic. lia. Qed.

Lemma trim_start_graphic b t : graphic b = true -> trim_start (b :: t) = b :: t.
Proof. intros H. unfold trim_start. cbn [length trim_start_n]. by rewrite ws_len_graphic. Qed.

(** A white-space character contains no graphic byte. *)
Lemma ws_len_skip b s : graphic b = true -> b ∈ s -> b ∈ drop (ws_len s) s.
Proof.
  intros Hb Hin. destruct s as [|c s1]; [done|].
  apply elem_of_cons in Hin as [->|Hin].
  { rewrite ws_len_graphic by done. left. }
  unfold ws_len, graphic in *. cbn [map]. rewrite andb_true_iff, !Z.leb_le in Hb.
  case_match; [exact Hin|].
  destruct s1 as [|d s2]; [by apply elem_of_nil in Hin|]. cbn [map].
  case_match.
  { apply elem_of_cons in Hin as [->|Hin]; [lia|exact Hin]. }
  destruct s2 as [|e s3]; [by right|]. cbn [map].
  case_match; [|by right].
  apply elem_of_cons in Hin as [->|Hin]; [lia|].
  apply elem_of_cons in Hin as [->|Hin]; [lia|exact Hin].
Qed.

Lemma trim_start_keeps b s : graphic b = true -> b ∈ s -> trim_start s <> [].
Proof.
  intros Hb Hin. unfold trim_start. generalize (length s) as n. intros n.
  revert s Hin. induction n as [|n IH]; intros s Hin; simpl; [by intros ->; apply elem_of_nil in Hin|].
  pose proof (ws_len_skip b s Hb Hin) as Hd.
  destruct (ws_len s); [by intros ->; apply elem_of_nil in Hin|]. by apply IH.
Qed.

Lemma trim_end_graphic s b : graphic b = true -> trim_end (s ++ [b]) = s ++ [b].
Proof.
  intros Hb. induction s as [|c s IH]; cbn [app trim_end].
  - rewrite trim_start_graphic by done. done.
  - destruct (trim_start (c :: s ++ [b])) eqn:E; [|by rewrite IH].
    exfalso. eapply (trim_start_keeps b); [done| |exact E].
    right. apply elem_of_app. right. by left.
Qed.

(** Text whose first and last characters are graphic is already trimmed. *)
Lemma trim_id s : (exists a, head s = Some a /\ graphic a = true) ->
  (exists b, last s = Some b /\ graphic b = true) -> trim s = s.
Proof.
  intros (a & Ha & Ga) (b & Hb & Gb). unfold trim.
  destruct s as [|a' s']; [done|]. simpl in Ha. simplify_eq.
  rewrite trim_start_graphic by done.
  apply last_Some in Hb as [s0 ->]. by apply trim_end_graphic.
Qed.

Lemma trim_nil : trim [] = [].
Proof. done. Qed.

Lemma trim_graphic s : Forall (fun b => graphic b = true) s -> trim s = s.
Proof.
  intros H. destruct s as [|a s]; [done|]. apply trim_id.
  - exists a. inversion_clear H. done.
  - destruct (last (a :: s)) as [b|] eqn:E.
    + exists b. split; [done|]. apply last_Some in E as [l E].
      rewrite E in H. apply Forall_app in H as [_ H]. by inversion_clear H.
    + by apply last_None in E.
Qed.

Lemma split_ws_word w cur s : Forall (fun b => graphic b = true) w ->
  split_ws_from O cur (w ++ s) = split_ws_from O (cur ++ w) s.
Proof.
  revert cur. induction w as [|b w IH]; intros cur H; [by rewrite app_nil_r|].
  inversion_clear H. cbn [app split_ws_from]. rewrite ws_len_graphic by done.
  rewrite IH by done. by rewrite <- (assoc_L (++)).
Qed.

Lemma split_ws_one w : Forall (fun b => graphic b = true) w -> w <> [] ->
  split_whitespace w = [w].
Proof.
  intros H ?. unfold split_whitespace. rewrite <- (app_nil_r w) at 1.
  rewrite split_ws_word by done. cbn. by destruct w.
Qed.

Lemma split_ws_space w s : Forall (fun b => graphic b = true) w -> w <> [] ->
  split_whitespace (w ++ str " " ++ s) = w :: split_whitespace s.
Proof.
  intros H ?. unfold split_whitespace. rewrite split_ws_word by done.
  change (str " ") with [byte_of 32]. cbn. by destruct w.
Qed.

Lemma find_ws_space w s : Forall (fun b => graphic b = true) w ->
  find_ws (w ++ str " " ++ s) = Some (length w).
Proof.
  intros H. induction H as [|b w Hb _ IH]; [done|].
  cbn [app find_ws]. rewrite ws_len_graphic by done. by rewrite IH.
Qed.

Lemma find_ws_none w : Forall (fun b => graphic b = true) w -> find_ws w = None.
Proof.
  induction 1 as [|b w Hb _ IH]; [done|]. cbn [find_ws].
  rewrite ws_len_graphic by done. by rewrite IH.
Qed.

Lemma beqb_refl b : beqb b b = true.
Proof. by apply beqb_true. Qed.

Lemma strip_prefix_app p s : strip_prefix p (p ++ s) = Some s.
Proof. induction p as [|b p IH]; [done|]. cbn. by rewrite beqb_refl. Qed.

Lemma strip_suffix_app p s : strip_suffix p (s ++ p) = Some s.
Proof.
  unfold strip_suffix. rewrite reverse_app, strip_prefix_app. simpl.
  by rewrite reverse_involutive.
Qed.

Lemma before_notin c s : c ∉ s -> before c s = s.
Proof.
  induction s as [|d s IH]; intros H; [done|]. cbn [before].
  destruct (beqb c d) eqn:E.
  { apply beqb_true in E as ->. exfalso. apply H. left. }
  rewrite IH; [done|]. intros ?. apply H. by right.
Qed.
