(* ===== verification/Common.v ===== *)
(** The shared error type and the buffer comparison of the round-trip harness
    (src/src/common/mod.rs). *)

From S2P Require Import Prelude.

(** [VAddr(u64)], a newtype over an unsigned 64-bit integer. *)
Definition VAddr : Type := Z.

(** [Error]; the [Io] variant keeps the path and the text of the source error. *)
Inductive Error : Type :=
| Io (path source : list byte)
| RoundTripMismatch (offset : Z) (input_byte output_byte : byte) (extra : Z)
| RoundTripLengthMismatch (input_len output_len : Z).

(** [zip(..).position(|(a, b)| a != b)]. *)
Fixpoint first_diff (a b : list byte) : option nat :=
  match a, b with
  | x :: a', y :: b' => if beqb x y then S <$> first_diff a' b' else Some O
  | _, _ => None
  end.

(** [zip(..).filter(|(a, b)| a != b).count()]. *)
Fixpoint count_diff (a b : list byte) : nat :=
  match a, b with
  | x :: a', y :: b' => ((if beqb x y then 0 else 1) + count_diff a' b')%nat
  | _, _ => O
  end.

Definition assert_bytes_equal (input output : list byte) : res Error unit :=
  if negb (len input =? len output)
  then Err (RoundTripLengthMismatch (len input) (len output))
  else match first_diff input output with
  | None => Ok tt
  | Some offset =>
      let offset := Z.of_nat offset in
      tail_in ← slice input (offset + 1) (len input);
      tail_out ← slice output (offset + 1) (len output);
      let extra := Z.of_nat (count_diff tail_in tail_out) in
      input_byte ← index input offset;
      output_byte ← index output offset;
      Err (RoundTripMismatch offset input_byte output_byte extra)
  end.

Lemma first_diff_None a b : length a = length b -> first_diff a b = None <-> a = b.
Proof.
  revert b. induction a as [|x a IH]; intros [|y b] H; simpl in *; try done.
  destruct (beqb x y) eqn:E.
  - apply beqb_true in E as ->. rewrite fmap_None, IH by lia. naive_solver.
  - split; [done|]. intros [= -> ->]. by rewrite (proj2 (beqb_true y y)) in E.
Qed.

Lemma first_diff_Some a b k : length a = length b -> first_diff a b = Some k ->
  exists x y, take k a = take k b /\ a !! k = Some x /\ b !! k = Some y /\ x <> y /\
    count_diff a b = S (count_diff (drop (S k) a) (drop (S k) b)).
Proof.
  revert b k. induction a as [|x a IH]; intros [|y b] k H Hk; simpl in *; try done.
  destruct (beqb x y) eqn:E.
  - apply beqb_true in E as ->. apply fmap_Some in Hk as (k' & Hk' & ->).
    destruct (IH b k' ltac:(lia) Hk') as (u & v & Ht & Hu & Hv & Hne & Hc).
    exists u, v. simpl. rewrite Ht, Hc. auto.
  - simplify_eq. exists x, y. simpl. split_and!; auto.
    intros ->. by rewrite (proj2 (beqb_true y y)) in E.
Qed.

(** The round-trip check is exact. It accepts two byte strings only when
    they are equal; it reports the two lengths when they differ, and otherwise
    the first position where the strings differ, the two bytes there, and how
    many of the bytes after it differ as well. It never panics. *)
Theorem assert_bytes_equal_spec (input output : list byte) :
  match assert_bytes_equal input output with
  | Ok _ => input = output
  | Err (RoundTripLengthMismatch li lo) =>
      li = len input /\ lo = len output /\ li <> lo
  | Err (RoundTripMismatch off x y extra) =>
      exists k, off = Z.of_nat k /\ len input = len output /\
        take k input = take k output /\ input !! k = Some x /\ output !! k = Some y /\
        x <> y /\ Z.of_nat (count_diff input output) = 1 + extra
  | Err (Io _ _) => False
  | Panic => False
  end.
Proof.
  unfold assert_bytes_equal.
  destruct (Z.eqb_spec (len input) (len output)) as [E|E]; simpl; [|by auto].
  assert (length input = length output) as El by (unfold len in E; lia).
  destruct (first_diff input output) as [k|] eqn:D; [|by apply first_diff_None].
  destruct (first_diff_Some _ _ _ El D) as (x & y & Ht & Hx & Hy & Hne & Hc).
  pose proof (lookup_lt_Some _ _ _ Hx). pose proof (lookup_lt_Some _ _ _ Hy).
  assert (forall l : list byte, (k < length l)%nat ->
            slice (E:=Error) l (Z.of_nat k + 1) (len l) = Ok (drop (S k) l)) as Hs.
  { intros l ?. rewrite slice_ok by (unfold len; lia). f_equal. unfold sub, len.
    rewrite take_ge by (rewrite length_drop; lia). f_equal. lia. }
  rewrite !Hs by done. simpl. unfold index, get. rewrite Nat2Z.id, Hx, Hy.
  replace (0 <=? Z.of_nat k) with true by lia. simpl.
  exists k. split_and!; auto. rewrite Hc. lia.
Qed.
