(* ===== verification/Ir.v ===== *)
(** The shared IR (src/src/ir/mod.rs): functions as basic blocks over an
    architecture's instruction type, and the byte-identity contract between a
    decoder, a lifter and [emit_bytes]. *)

From S2P Require Import Prelude Common.

(** Trait [ArchInsn]; [len_bytes] has the default implementation. *)
Class ArchInsn (Insn : Type) := {
  addr : Insn -> VAddr;
  original_bytes : Insn -> list byte;
}.

Definition len_bytes {Insn} `{!ArchInsn Insn} (i : Insn) : Z := len (original_bytes i).

Inductive Terminator : Type :=
| Fallthrough
| UnconditionalBranch (target : VAddr)
| ConditionalBranch (taken fallthrough : VAddr)
| Return
| IndirectBranch
| InvalidOrUnreachable.

Record BasicBlock (Insn : Type) : Type := {
  bb_addr : VAddr;
  insns : list Insn;
  terminator : Terminator;
}.
Arguments bb_addr {Insn} _.
Arguments insns {Insn} _.
Arguments terminator {Insn} _.

Record Function (Insn : Type) : Type := {
  fn_addr : VAddr;
  fn_name : list byte;
  blocks : list (BasicBlock Insn);
}.
Arguments fn_addr {Insn} _.
Arguments fn_name {Insn} _.
Arguments blocks {Insn} _.

(** [iter.sum()] on sizes. *)
Definition sum (l : list Z) : Z := foldr Z.add 0 l.

Section ir.
Context {Insn : Type} `{!ArchInsn Insn}.

(** [BasicBlock::size], [BasicBlock::end_addr]: the addition on the [u64]
    address panics on overflow. *)
Definition block_size (b : BasicBlock Insn) : Z := sum (map len_bytes (insns b)).

Definition end_addr {E} (b : BasicBlock Insn) : res E VAddr :=
  usize_add (bb_addr b) (wrap64 (block_size b)).

(** [Function::size], [Function::emit_bytes], [Function::block_at]. *)
Definition fn_size (f : Function Insn) : Z := sum (map block_size (blocks f)).

Definition emit_bytes (f : Function Insn) : list byte :=
  fold_left (fun out block =>
    fold_left (fun out insn => out ++ original_bytes insn) (insns block) out)
    (blocks f) [].

Definition block_at (f : Function Insn) (a : VAddr) : option (BasicBlock Insn) :=
  List.find (fun b => bb_addr b =? a) (blocks f).

(** All instructions of a function in layout order, and the bytes of an
    instruction list. *)
Definition all_insns (f : Function Insn) : list Insn := List.concat (map insns (blocks f)).
Definition concat_bytes (l : list Insn) : list byte := List.concat (map original_bytes l).

Lemma concat_bytes_app l1 l2 :
  concat_bytes (l1 ++ l2) = concat_bytes l1 ++ concat_bytes l2.
Proof. unfold concat_bytes. by rewrite map_app, List.concat_app. Qed.

Lemma fold_insns out l :
  fold_left (fun out insn => out ++ original_bytes insn) l out = out ++ concat_bytes l.
Proof.
  revert out. induction l as [|i l IH]; intros out; [by rewrite app_nil_r|].
  cbn [fold_left]. rewrite IH. by rewrite <- (assoc_L (++)).
Qed.

Lemma emit_bytes_concat f : emit_bytes f = concat_bytes (all_insns f).
Proof.
  unfold emit_bytes, all_insns.
  assert (forall bl out,
    fold_left (fun out block =>
      fold_left (fun out insn => out ++ original_bytes insn) (insns block) out) bl out
    = out ++ concat_bytes (List.concat (map insns bl))) as G.
  { induction bl as [|b bl IH]; intros out; [by rewrite app_nil_r|].
    cbn [fold_left map List.concat]. rewrite IH, fold_insns, concat_bytes_app.
    by rewrite (assoc_L (++)). }
  by rewrite G.
Qed.

Lemma sum_app l1 l2 : sum (l1 ++ l2) = sum l1 + sum l2.
Proof. unfold sum. induction l1 as [|x l1 IHl]; [done|]. cbn [app foldr]. lia. Qed.

Lemma len_concat_bytes l : len (concat_bytes l) = sum (map len_bytes l).
Proof.
  induction l as [|i l IH]; [done|]. change (i :: l) with ([i] ++ l).
  rewrite concat_bytes_app, len_app, IH, map_app, sum_app. cbn.
  unfold len_bytes. rewrite app_nil_r. lia.
Qed.

(** The size of a function is the number of bytes it emits. *)
Theorem fn_size_emit (f : Function Insn) : fn_size f = len (emit_bytes f).
Proof.
  rewrite emit_bytes_concat, len_concat_bytes. unfold fn_size, all_insns.
  induction (blocks f) as [|b bl IH]; [done|].
  cbn [map List.concat]. rewrite map_app, sum_app, <- IH. done.
Qed.
End ir.

(** ** Contracts between the layers

    [Decoder]: what an architecture's decoder promises to the layers above it:
    the instructions it returns carry exactly the input bytes. [Lifter]: a
    lifter only groups instructions into blocks. The byte identity of a lifted
    function is proved once against these promises. *)
Class Decoder (Insn Er : Type) `{!ArchInsn Insn} := {
  dec : list byte -> Z -> res Er (list Insn);
  dec_exact : forall bs start l, dec bs start = Ok l -> concat_bytes l = bs;
}.

Class Lifter (Insn : Type) `{!ArchInsn Insn} := {
  lift : list byte -> list Insn -> Function Insn;
  lift_view : forall name l, all_insns (lift name l) = l;
}.

Lemma lifted_emit_bytes {Insn Er : Type} `{!ArchInsn Insn, !Decoder Insn Er, !Lifter Insn}
    bs start l name :
  dec (Er:=Er) bs start = Ok l -> emit_bytes (lift name l) = bs.
Proof.
  intros Hd. rewrite emit_bytes_concat, lift_view. by eapply dec_exact.
Qed.
