(* ===== verification/Elf.v ===== *)
(** The ELF container (src/src/format/elf.rs): headers, sections, padding, the
    reader [parse] and the writer [write_to_vec]. The byte-identity theorems
    are in [ElfRoundTrip]. *)

From S2P Require Import Prelude Text.

(** * Constants *)

Definition EI_NIDENT : Z := 16.
Definition ELFMAG : list byte := [byte_of 127; byte_of 69; byte_of 76; byte_of 70].
Definition ELFCLASS32 : Z := 1.
Definition ELFCLASS64 : Z := 2.
Definition ELFDATA2LSB : Z := 1.
Definition SHT_NOBITS : Z := 8.

Inductive ElfClass : Type := Elf32 | Elf64.

#[export] Instance ElfClass_eq_dec : EqDecision ElfClass.
Proof. solve_decision. Defined.

Definition EHDR64_SIZE : Z := 64.
Definition PHDR64_SIZE : Z := 56.
Definition SHDR64_SIZE : Z := 64.
Definition EHDR32_SIZE : Z := 52.
Definition PHDR32_SIZE : Z := 32.
Definition SHDR32_SIZE : Z := 40.

Definition ehdr_size (c : ElfClass) : Z :=
  match c with Elf32 => EHDR32_SIZE | Elf64 => EHDR64_SIZE end.
Definition phdr_size (c : ElfClass) : Z :=
  match c with Elf32 => PHDR32_SIZE | Elf64 => PHDR64_SIZE end.
Definition shdr_size (c : ElfClass) : Z :=
  match c with Elf32 => SHDR32_SIZE | Elf64 => SHDR64_SIZE end.

(** * Errors *)

Inductive Error : Type :=
| Truncated (offset needed have : Z)
| BadMagic (magic : list byte)
| UnsupportedClass (class : Z)
| UnsupportedEncoding (encoding : Z)
| BadEhsize (got expected : Z)
| BadPhentsize (got expected : Z)
| BadShentsize (got expected : Z)
| OverlappingRegions (a_label : list byte) (a_start a_end : Z)
                     (b_label : list byte) (b_start b_end : Z)
| RegionOverflow (label : list byte) (offset size : Z).

Abbreviation Result := (res Error).

(** [debug_assert!(c)]. *)
Definition debug_assert (c : bool) : Result unit := if c then Ok tt else Panic.

(** * Byte access *)

Definition ensure_len (bytes : list byte) (offset needed : Z) : Result unit :=
  let have := len bytes in
  e ← ok_or (checked_add64 offset needed) (Truncated offset needed have);
  if have <? e then Err (Truncated offset needed have) else Ok tt.

Definition read_u16 (bytes : list byte) (at_ : Z) : Result Z :=
  s ← slice bytes at_ (at_ + 2); Ok (from_le s).
Definition read_u32 (bytes : list byte) (at_ : Z) : Result Z :=
  s ← slice bytes at_ (at_ + 4); Ok (from_le s).
Definition read_u64 (bytes : list byte) (at_ : Z) : Result Z :=
  s ← slice bytes at_ (at_ + 8); Ok (from_le s).

Definition write_u16 (at_ value : Z) (bytes : list byte) : Result (list byte) :=
  copy_into bytes at_ (at_ + 2) (to_le 2 value).
Definition write_u32 (at_ value : Z) (bytes : list byte) : Result (list byte) :=
  copy_into bytes at_ (at_ + 4) (to_le 4 value).
Definition write_u64 (at_ value : Z) (bytes : list byte) : Result (list byte) :=
  copy_into bytes at_ (at_ + 8) (to_le 8 value).

(** [f(&mut out[a..b])]: run a writer on a sub-slice. *)
Definition with_slice (out : list byte) (a b : Z)
    (f : list byte -> Result (list byte)) : Result (list byte) :=
  s ← slice out a b; s' ← f s; copy_into out a b s'.

(** * The ELF header *)

Record Ehdr64 : Type := {
  e_ident : list byte;
  e_type : Z;
  e_machine : Z;
  e_version : Z;
  e_entry : Z;
  e_phoff : Z;
  e_shoff : Z;
  e_flags : Z;
  e_ehsize : Z;
  e_phentsize : Z;
  e_phnum : Z;
  e_shentsize : Z;
  e_shnum : Z;
  e_shstrndx : Z;
}.

Definition ehdr_parse_64 (bytes e_ident : list byte) : Result Ehdr64 :=
  ensure_len bytes 0 EHDR64_SIZE ;;
  e_type ← read_u16 bytes 16;
  e_machine ← read_u16 bytes 18;
  e_version ← read_u32 bytes 20;
  e_entry ← read_u64 bytes 24;
  e_phoff ← read_u64 bytes 32;
  e_shoff ← read_u64 bytes 40;
  e_flags ← read_u32 bytes 48;
  e_ehsize ← read_u16 bytes 52;
  e_phentsize ← read_u16 bytes 54;
  e_phnum ← read_u16 bytes 56;
  e_shentsize ← read_u16 bytes 58;
  e_shnum ← read_u16 bytes 60;
  e_shstrndx ← read_u16 bytes 62;
  guard_err (negb (e_ehsize =? EHDR64_SIZE)) (BadEhsize e_ehsize EHDR64_SIZE) ;;
  guard_err ((0 <? e_phnum) && negb (e_phentsize =? PHDR64_SIZE))
            (BadPhentsize e_phentsize PHDR64_SIZE) ;;
  guard_err ((0 <? e_shnum) && negb (e_shentsize =? SHDR64_SIZE))
            (BadShentsize e_shentsize SHDR64_SIZE) ;;
  Ok {| e_ident := e_ident; e_type := e_type; e_machine := e_machine;
        e_version := e_version; e_entry := e_entry; e_phoff := e_phoff;
        e_shoff := e_shoff; e_flags := e_flags; e_ehsize := e_ehsize;
        e_phentsize := e_phentsize; e_phnum := e_phnum; e_shentsize := e_shentsize;
        e_shnum := e_shnum; e_shstrndx := e_shstrndx |}.

Definition ehdr_parse_32 (bytes e_ident : list byte) : Result Ehdr64 :=
  ensure_len bytes 0 EHDR32_SIZE ;;
  e_type ← read_u16 bytes 16;
  e_machine ← read_u16 bytes 18;
  e_version ← read_u32 bytes 20;
  e_entry ← read_u32 bytes 24;
  e_phoff ← read_u32 bytes 28;
  e_shoff ← read_u32 bytes 32;
  e_flags ← read_u32 bytes 36;
  e_ehsize ← read_u16 bytes 40;
  e_phentsize ← read_u16 bytes 42;
  e_phnum ← read_u16 bytes 44;
  e_shentsize ← read_u16 bytes 46;
  e_shnum ← read_u16 bytes 48;
  e_shstrndx ← read_u16 bytes 50;
  guard_err (negb (e_ehsize =? EHDR32_SIZE)) (BadEhsize e_ehsize EHDR32_SIZE) ;;
  guard_err ((0 <? e_phnum) && negb (e_phentsize =? PHDR32_SIZE))
            (BadPhentsize e_phentsize PHDR32_SIZE) ;;
  guard_err ((0 <? e_shnum) && negb (e_shentsize =? SHDR32_SIZE))
            (BadShentsize e_shentsize SHDR32_SIZE) ;;
  Ok {| e_ident := e_ident; e_type := e_type; e_machine := e_machine;
        e_version := e_version; e_entry := e_entry; e_phoff := e_phoff;
        e_shoff := e_shoff; e_flags := e_flags; e_ehsize := e_ehsize;
        e_phentsize := e_phentsize; e_phnum := e_phnum; e_shentsize := e_shentsize;
        e_shnum := e_shnum; e_shstrndx := e_shstrndx |}.

Definition ehdr_parse (bytes : list byte) : Result (Ehdr64 * ElfClass) :=
  guard_err (len bytes <? EI_NIDENT) (Truncated 0 EI_NIDENT (len bytes)) ;;
  e_ident ← slice bytes 0 EI_NIDENT;
  magic ← slice e_ident 0 4;
  guard_err (negb (str_eqb magic ELFMAG)) (BadMagic magic) ;;
  data ← index e_ident 5;
  guard_err (negb (u8 data =? ELFDATA2LSB)) (UnsupportedEncoding (u8 data)) ;;
  cl ← index e_ident 4;
  class ← (if u8 cl =? ELFCLASS32 then Ok Elf32
           else if u8 cl =? ELFCLASS64 then Ok Elf64
           else Err (UnsupportedClass (u8 cl)));
  match class with
  | Elf32 => h ← ehdr_parse_32 bytes e_ident; Ok (h, class)
  | Elf64 => h ← ehdr_parse_64 bytes e_ident; Ok (h, class)
  end.

Definition ehdr_write_64 (h : Ehdr64) (out : list byte) : Result (list byte) :=
  debug_assert (EHDR64_SIZE <=? len out) ;;
  out ← copy_into out 0 EI_NIDENT (e_ident h);
  out ← write_u16 16 (e_type h) out;
  out ← write_u16 18 (e_machine h) out;
  out ← write_u32 20 (e_version h) out;
  out ← write_u64 24 (e_entry h) out;
  out ← write_u64 32 (e_phoff h) out;
  out ← write_u64 40 (e_shoff h) out;
  out ← write_u32 48 (e_flags h) out;
  out ← write_u16 52 (e_ehsize h) out;
  out ← write_u16 54 (e_phentsize h) out;
  out ← write_u16 56 (e_phnum h) out;
  out ← write_u16 58 (e_shentsize h) out;
  out ← write_u16 60 (e_shnum h) out;
  write_u16 62 (e_shstrndx h) out.

Definition ehdr_write_32 (h : Ehdr64) (out : list byte) : Result (list byte) :=
  debug_assert (EHDR32_SIZE <=? len out) ;;
  out ← copy_into out 0 EI_NIDENT (e_ident h);
  out ← write_u16 16 (e_type h) out;
  out ← write_u16 18 (e_machine h) out;
  out ← write_u32 20 (e_version h) out;
  out ← write_u32 24 (wrap32 (e_entry h)) out;
  out ← write_u32 28 (wrap32 (e_phoff h)) out;
  out ← write_u32 32 (wrap32 (e_shoff h)) out;
  out ← write_u32 36 (e_flags h) out;
  out ← write_u16 40 (e_ehsize h) out;
  out ← write_u16 42 (e_phentsize h) out;
  out ← write_u16 44 (e_phnum h) out;
  out ← write_u16 46 (e_shentsize h) out;
  out ← write_u16 48 (e_shnum h) out;
  write_u16 50 (e_shstrndx h) out.

Definition ehdr_write (h : Ehdr64) (class : ElfClass) (out : list byte) : Result (list byte) :=
  match class with
  | Elf64 => ehdr_write_64 h out
  | Elf32 => ehdr_write_32 h out
  end.

(** * Program headers *)

Record Phdr64 : Type := {
  p_type : Z;
  p_flags : Z;
  p_offset : Z;
  p_vaddr : Z;
  p_paddr : Z;
  p_filesz : Z;
  p_memsz : Z;
  p_align : Z;
}.

Definition phdr_parse_64 (bytes : list byte) : Result Phdr64 :=
  debug_assert (PHDR64_SIZE <=? len bytes) ;;
  p_type ← read_u32 bytes 0;
  p_flags ← read_u32 bytes 4;
  p_offset ← read_u64 bytes 8;
  p_vaddr ← read_u64 bytes 16;
  p_paddr ← read_u64 bytes 24;
  p_filesz ← read_u64 bytes 32;
  p_memsz ← read_u64 bytes 40;
  p_align ← read_u64 bytes 48;
  Ok {| p_type := p_type; p_flags := p_flags; p_offset := p_offset; p_vaddr := p_vaddr;
        p_paddr := p_paddr; p_filesz := p_filesz; p_memsz := p_memsz; p_align := p_align |}.

Definition phdr_parse_32 (bytes : list byte) : Result Phdr64 :=
  debug_assert (PHDR32_SIZE <=? len bytes) ;;
  p_type ← read_u32 bytes 0;
  p_offset ← read_u32 bytes 4;
  p_vaddr ← read_u32 bytes 8;
  p_paddr ← read_u32 bytes 12;
  p_filesz ← read_u32 bytes 16;
  p_memsz ← read_u32 bytes 20;
  p_flags ← read_u32 bytes 24;
  p_align ← read_u32 bytes 28;
  Ok {| p_type := p_type; p_flags := p_flags; p_offset := p_offset; p_vaddr := p_vaddr;
        p_paddr := p_paddr; p_filesz := p_filesz; p_memsz := p_memsz; p_align := p_align |}.

Definition phdr_parse (class : ElfClass) (bytes : list byte) : Result Phdr64 :=
  match class with
  | Elf64 => phdr_parse_64 bytes
  | Elf32 => phdr_parse_32 bytes
  end.

Definition phdr_write_64 (p : Phdr64) (out : list byte) : Result (list byte) :=
  debug_assert (PHDR64_SIZE <=? len out) ;;
  out ← write_u32 0 (p_type p) out;
  out ← write_u32 4 (p_flags p) out;
  out ← write_u64 8 (p_offset p) out;
  out ← write_u64 16 (p_vaddr p) out;
  out ← write_u64 24 (p_paddr p) out;
  out ← write_u64 32 (p_filesz p) out;
  out ← write_u64 40 (p_memsz p) out;
  write_u64 48 (p_align p) out.

Definition phdr_write_32 (p : Phdr64) (out : list byte) : Result (list byte) :=
  debug_assert (PHDR32_SIZE <=? len out) ;;
  out ← write_u32 0 (p_type p) out;
  out ← write_u32 4 (wrap32 (p_offset p)) out;
  out ← write_u32 8 (wrap32 (p_vaddr p)) out;
  out ← write_u32 12 (wrap32 (p_paddr p)) out;
  out ← write_u32 16 (wrap32 (p_filesz p)) out;
  out ← write_u32 20 (wrap32 (p_memsz p)) out;
  out ← write_u32 24 (p_flags p) out;
  write_u32 28 (wrap32 (p_align p)) out.

Definition phdr_write (p : Phdr64) (class : ElfClass) (out : list byte) : Result (list byte) :=
  match class with
  | Elf64 => phdr_write_64 p out
  | Elf32 => phdr_write_32 p out
  end.

(** * Section headers *)

Record Shdr64 : Type := {
  sh_name : Z;
  sh_type : Z;
  sh_flags : Z;
  sh_addr : Z;
  sh_offset : Z;
  sh_size : Z;
  sh_link : Z;
  sh_info : Z;
  sh_addralign : Z;
  sh_entsize : Z;
}.

Definition shdr_parse_64 (bytes : list byte) : Result Shdr64 :=
  debug_assert (SHDR64_SIZE <=? len bytes) ;;
  sh_name ← read_u32 bytes 0;
  sh_type ← read_u32 bytes 4;
  sh_flags ← read_u64 bytes 8;
  sh_addr ← read_u64 bytes 16;
  sh_offset ← read_u64 bytes 24;
  sh_size ← read_u64 bytes 32;
  sh_link ← read_u32 bytes 40;
  sh_info ← read_u32 bytes 44;
  sh_addralign ← read_u64 bytes 48;
  sh_entsize ← read_u64 bytes 56;
  Ok {| sh_name := sh_name; sh_type := sh_type; sh_flags := sh_flags; sh_addr := sh_addr;
        sh_offset := sh_offset; sh_size := sh_size; sh_link := sh_link; sh_info := sh_info;
        sh_addralign := sh_addralign; sh_entsize := sh_entsize |}.

Definition shdr_parse_32 (bytes : list byte) : Result Shdr64 :=
  debug_assert (SHDR32_SIZE <=? len bytes) ;;
  sh_name ← read_u32 bytes 0;
  sh_type ← read_u32 bytes 4;
  sh_flags ← read_u32 bytes 8;
  sh_addr ← read_u32 bytes 12;
  sh_offset ← read_u32 bytes 16;
  sh_size ← read_u32 bytes 20;
  sh_link ← read_u32 bytes 24;
  sh_info ← read_u32 bytes 28;
  sh_addralign ← read_u32 bytes 32;
  sh_entsize ← read_u32 bytes 36;
  Ok {| sh_name := sh_name; sh_type := sh_type; sh_flags := sh_flags; sh_addr := sh_addr;
        sh_offset := sh_offset; sh_size := sh_size; sh_link := sh_link; sh_info := sh_info;
        sh_addralign := sh_addralign; sh_entsize := sh_entsize |}.

Definition shdr_parse (class : ElfClass) (bytes : list byte) : Result Shdr64 :=
  match class with
  | Elf64 => shdr_parse_64 bytes
  | Elf32 => shdr_parse_32 bytes
  end.

Definition shdr_write_64 (s : Shdr64) (out : list byte) : Result (list byte) :=
  debug_assert (SHDR64_SIZE <=? len out) ;;
  out ← write_u32 0 (sh_name s) out;
  out ← write_u32 4 (sh_type s) out;
  out ← write_u64 8 (sh_flags s) out;
  out ← write_u64 16 (sh_addr s) out;
  out ← write_u64 24 (sh_offset s) out;
  out ← write_u64 32 (sh_size s) out;
  out ← write_u32 40 (sh_link s) out;
  out ← write_u32 44 (sh_info s) out;
  out ← write_u64 48 (sh_addralign s) out;
  write_u64 56 (sh_entsize s) out.

Definition shdr_write_32 (s : Shdr64) (out : list byte) : Result (list byte) :=
  debug_assert (SHDR32_SIZE <=? len out) ;;
  out ← write_u32 0 (sh_name s) out;
  out ← write_u32 4 (sh_type s) out;
  out ← write_u32 8 (wrap32 (sh_flags s)) out;
  out ← write_u32 12 (wrap32 (sh_addr s)) out;
  out ← write_u32 16 (wrap32 (sh_offset s)) out;
  out ← write_u32 20 (wrap32 (sh_size s)) out;
  out ← write_u32 24 (sh_link s) out;
  out ← write_u32 28 (sh_info s) out;
  out ← write_u32 32 (wrap32 (sh_addralign s)) out;
  write_u32 36 (wrap32 (sh_entsize s)) out.

Definition shdr_write (s : Shdr64) (class : ElfClass) (out : list byte) : Result (list byte) :=
  match class with
  | Elf64 => shdr_write_64 s out
  | Elf32 => shdr_write_32 s out
  end.

Definition occupies_file (s : Shdr64) : bool :=
  negb (sh_type s =? SHT_NOBITS) && (0 <? sh_size s).

(** * Files *)

Record Elf64File : Type := {
  class : ElfClass;
  ehdr : Ehdr64;
  phdrs : list Phdr64;
  shdrs : list Shdr64;
  section_data : list (list byte);
  padding : list (Z * list byte);
  file_size : Z;
}.

Definition is_elf (bytes : list byte) : bool :=
  (4 <=? len bytes) && str_eqb (take 4 bytes) ELFMAG.

Definition is_elf64_le (bytes : list byte) : bool :=
  (6 <=? len bytes)
  && str_eqb (take 4 bytes) ELFMAG
  && match get bytes 4 with
     | Some c => (u8 c =? ELFCLASS32) || (u8 c =? ELFCLASS64)
     | None => false
     end
  && match get bytes 5 with Some d => u8 d =? ELFDATA2LSB | None => false end.

(** [checked_mul] on [usize]. *)
Definition checked_mul64 (a b : Z) : option Z :=
  if a * b <? 2 ^ 64 then Some (a * b) else None.

Definition parse_phdrs (class : ElfClass) (bytes : list byte) (ehdr : Ehdr64)
    : Result (list Phdr64) :=
  let count := e_phnum ehdr in
  if count =? 0 then Ok [] else
  let entry_size := phdr_size class in
  total ← ok_or (checked_mul64 count entry_size)
            (RegionOverflow (str "program-header table") (e_phoff ehdr) (wrap64 (count * entry_size)));
  ensure_len bytes (e_phoff ehdr) total ;;
  let start := e_phoff ehdr in
  mapM_res (fun i =>
    off ← usize_add start (i * entry_size);
    fin ← usize_add off entry_size;
    b ← slice bytes off fin;
    phdr_parse class b) (seqZ 0 count).

Definition parse_shdrs_and_sections (class : ElfClass) (bytes : list byte) (ehdr : Ehdr64)
    : Result (list Shdr64 * list (list byte)) :=
  let count := e_shnum ehdr in
  if count =? 0 then Ok ([], []) else
  let entry_size := shdr_size class in
  total ← ok_or (checked_mul64 count entry_size)
            (RegionOverflow (str "section-header table") (e_shoff ehdr) (wrap64 (count * entry_size)));
  ensure_len bytes (e_shoff ehdr) total ;;
  let start := e_shoff ehdr in
  foldM (fun '(shdrs, section_data) i =>
    off ← usize_add start (i * entry_size);
    fin ← usize_add off entry_size;
    b ← slice bytes off fin;
    sh ← shdr_parse class b;
    data ← (if occupies_file sh then
              ensure_len bytes (sh_offset sh) (sh_size sh) ;;
              data_end ← usize_add (sh_offset sh) (sh_size sh);
              slice bytes (sh_offset sh) data_end
            else Ok []);
    Ok (shdrs ++ [sh], section_data ++ [data])) ([], []) (seqZ 0 count).

(** * Regions and padding *)

Record Region : Type := { label : list byte; r_start : Z; r_end : Z }.

Definition region_end (label : list byte) (offset size : Z) : Result Z :=
  ok_or (checked_add64 offset size) (RegionOverflow label offset size).

(** The check over [regions.windows(2)]. *)
Fixpoint check_overlap (rs : list Region) : Result unit :=
  match rs with
  | a :: (b :: _) as rest =>
      if r_start b <? r_end a
      then Err (OverlappingRegions (label a) (r_start a) (r_end a) (label b) (r_start b) (r_end b))
      else check_overlap rest
  | _ => Ok tt
  end.

Definition section_label (i : Z) : list byte := str "section #" ++ fmt_dec i.

Definition build_regions (class : ElfClass) (ehdr : Ehdr64) (shdrs : list Shdr64)
    : Result (list Region) :=
  let regions := [{| label := str "ELF header"; r_start := 0; r_end := ehdr_size class |}] in
  regions ←
    (if 0 <? e_phnum ehdr then
       let size := e_phnum ehdr * phdr_size class in
       e ← region_end (str "program-header table") (e_phoff ehdr) size;
       Ok (regions ++ [{| label := str "program-header table";
                          r_start := e_phoff ehdr; r_end := e |}])
     else Ok regions);
  regions ←
    (if 0 <? e_shnum ehdr then
       let size := e_shnum ehdr * shdr_size class in
       e ← region_end (str "section-header table") (e_shoff ehdr) size;
       Ok (regions ++ [{| label := str "section-header table";
                          r_start := e_shoff ehdr; r_end := e |}])
     else Ok regions);
  regions ←
    foldM (fun regions '(i, sh) =>
      if occupies_file sh then
        e ← region_end (section_label i) (sh_offset sh) (sh_size sh);
        Ok (regions ++ [{| label := section_label i; r_start := sh_offset sh; r_end := e |}])
      else Ok regions)
      regions (zip (seqZ 0 (len shdrs)) shdrs);
  let regions := sort_by_key r_start regions in
  check_overlap regions ;;
  Ok regions.

Definition compute_padding (bytes : list byte) (regions : list Region)
    : Result (list (Z * list byte)) :=
  let file_end := len bytes in
  st ← foldM (fun '(padding, cursor) region =>
         padding ← (if cursor <? r_start region then
                      b ← slice bytes cursor (r_start region);
                      Ok (padding ++ [(cursor, b)])
                    else Ok padding);
         Ok (padding, Z.max cursor (r_end region))) ([], 0) regions;
  let '(padding, cursor) := st in
  if cursor <? file_end then
    b ← slice bytes cursor file_end;
    Ok (padding ++ [(cursor, b)])
  else Ok padding.

(** * Reading and writing a file *)

Definition parse (bytes : list byte) : Result Elf64File :=
  hc ← ehdr_parse bytes;
  let '(ehdr, class) := hc in
  phdrs ← parse_phdrs class bytes ehdr;
  ss ← parse_shdrs_and_sections class bytes ehdr;
  let '(shdrs, section_data) := ss in
  regions ← build_regions class ehdr shdrs;
  padding ← compute_padding bytes regions;
  Ok {| class := class; ehdr := ehdr; phdrs := phdrs; shdrs := shdrs;
        section_data := section_data; padding := padding; file_size := len bytes |}.

Definition from_parts (class : ElfClass) (ehdr : Ehdr64) (phdrs : list Phdr64)
    (shdrs : list Shdr64) (section_data : list (list byte)) (padding : list (Z * list byte))
    (file_size : Z) : Elf64File :=
  {| class := class; ehdr := ehdr; phdrs := phdrs; shdrs := shdrs;
     section_data := section_data; padding := padding; file_size := file_size |}.

(** Write the entries of a header table, the [i]-th at [start + i * entry_size]. *)
Definition write_table {H} (write : H -> list byte -> Result (list byte))
    (start entry_size : Z) (entries : list H) (out : list byte) : Result (list byte) :=
  foldM (fun out '(i, h) =>
    off ← usize_add start (i * entry_size);
    fin ← usize_add off entry_size;
    with_slice out off fin (write h)) out (zip (seqZ 0 (len entries)) entries).

(** The bodies of the loops over sections and padding. *)
Definition write_section (out : list byte) (x : Shdr64 * list byte) : Result (list byte) :=
  let '(sh, data) := x in
  if occupies_file sh then
    fin ← usize_add (sh_offset sh) (len data);
    copy_into out (sh_offset sh) fin data
  else Ok out.

Definition write_pad (out : list byte) (x : Z * list byte) : Result (list byte) :=
  let '(offset, bytes) := x in
  fin ← usize_add offset (len bytes);
  copy_into out offset fin bytes.

Definition write_to_vec (f : Elf64File) : Result (list byte) :=
  let out := replicate (Z.to_nat (file_size f)) (byte_of 0) in
  let class := class f in
  out ← with_slice out 0 (ehdr_size class) (ehdr_write (ehdr f) class);
  out ← (if decide (phdrs f = []) then Ok out
         else write_table (fun ph => phdr_write ph class)
                (e_phoff (ehdr f)) (phdr_size class) (phdrs f) out);
  out ← (if decide (shdrs f = []) then Ok out
         else write_table (fun sh => shdr_write sh class)
                (e_shoff (ehdr f)) (shdr_size class) (shdrs f) out);
  out ← foldM write_section out (zip (shdrs f) (section_data f));
  foldM write_pad out (padding f).

(** * Section lookup *)

Definition sections (f : Elf64File) : list (Z * Shdr64 * list byte) :=
  zip (zip (seqZ 0 (len (shdrs f))) (shdrs f)) (section_data f).

Definition section_name (f : Elf64File) (idx : Z) : option (list byte) :=
  shstrtab ← get (section_data f) (e_shstrndx (ehdr f));
  sh ← get (shdrs f) idx;
  let start := sh_name sh in
  tail ← get_range shstrtab start (len shstrtab);
  let name := before (byte_of 0) tail in
  if (len name <? len tail) && utf8_valid name then Some name else None.

Definition section_by_name (f : Elf64File) (name : list byte)
    : option (Z * Shdr64 * list byte) :=
  List.find (fun s => match section_name f (s.1.1) with
                      | Some n => str_eqb n name
                      | None => false
                      end) (sections f).
