(* ===== verification/ElfRoundTrip.v ===== *)
(** Byte identity of the ELF container: [parse] never panics, and writing a
    parsed file gives its bytes back. *)

From S2P Require Import Prelude Text Elf.

(** * Reading a field and writing it back *)

(** The three widths share one argument. *)
Lemma read_word_inv (n : nat) bs a v :
  (s ← slice (E:=Error) bs a (a + Z.of_nat n); Ok (from_le s)) = Ok v ->
  0 <= a /\ a + Z.of_nat n <= len bs /\ to_le n v = sub bs a (a + Z.of_nat n).
Proof.
  intros H. res_inv H. simplify_eq. apply slice_inv in Hx as (? & ? & ->).
  split_and!; [lia..|]. apply to_le_from_le'. rewrite length_sub by lia. lia.
Qed.

Lemma write_word_agree (n : nat) R ref out a v :
  agree R ref out ->
  (s ← slice (E:=Error) ref a (a + Z.of_nat n); Ok (from_le s)) = Ok v ->
  exists out', copy_into (E:=Error) out a (a + Z.of_nat n) (to_le n v) = Ok out' /\
               agree ((a, a + Z.of_nat n) :: R) ref out'.
Proof.
  intros HA H. apply read_word_inv in H as (? & ? & ->). apply agree_copy; [done|lia..].
Qed.

Lemma write_u16_agree R ref out a v : agree R ref out -> read_u16 ref a = Ok v ->
  exists out', write_u16 a v out = Ok out' /\ agree ((a, a + 2) :: R) ref out'.
Proof. apply (write_word_agree 2). Qed.

Lemma write_u32_agree R ref out a v : agree R ref out -> read_u32 ref a = Ok v ->
  exists out', write_u32 a v out = Ok out' /\ agree ((a, a + 4) :: R) ref out'.
Proof. apply (write_word_agree 4). Qed.

Lemma write_u64_agree R ref out a v : agree R ref out -> read_u64 ref a = Ok v ->
  exists out', write_u64 a v out = Ok out' /\ agree ((a, a + 8) :: R) ref out'.
Proof. apply (write_word_agree 8). Qed.

(** A 32-bit field kept in 64 bits loses nothing to the cast [as u32]. *)
Lemma write_u32_wrap_agree R ref out a v : agree R ref out -> read_u32 ref a = Ok v ->
  exists out', write_u32 a (wrap32 v) out = Ok out' /\ agree ((a, a + 4) :: R) ref out'.
Proof.
  intros HA Hr. unfold write_u32. change (wrap32 v) with (v mod 256 ^ Z.of_nat 4).
  rewrite to_le_wrap. by apply write_u32_agree.
Qed.

(** One write of a header, from the read that produced its value. *)
Ltac write_with lem A :=
  let o' := fresh "o" in let E := fresh "E" in let A' := fresh "A" in
  destruct lem as (o' & E & A'); [exact A|assumption|];
  rewrite E; clear E A; cbn [mbind res_bind].

Ltac write_field :=
  match goal with
  | A : agree ?R ?ref ?o |- context [write_u16 ?at_ ?v ?o] =>
      write_with (write_u16_agree R ref o at_ v) A
  | A : agree ?R ?ref ?o |- context [write_u32 ?at_ (wrap32 ?v) ?o] =>
      write_with (write_u32_wrap_agree R ref o at_ v) A
  | A : agree ?R ?ref ?o |- context [write_u32 ?at_ ?v ?o] =>
      write_with (write_u32_agree R ref o at_ v) A
  | A : agree ?R ?ref ?o |- context [write_u64 ?at_ ?v ?o] =>
      write_with (write_u64_agree R ref o at_ v) A
  end.

(** Write all fields of a header; the ranges written cover its [len ref]
    bytes, given by [Hb]. *)
Ltac write_header Hb :=
  cbn [debug_assert Z.leb Z.compare mbind res_bind];
  repeat write_field;
  match goal with
  | A : agree _ ?ref ?o |- Ok ?o = Ok ?ref =>
      f_equal; apply (agree_done _ _ _ A); rewrite Hb; reflexivity
  end.

Lemma phdr_write_parse class b p o :
  phdr_parse class b = Ok p -> len b = phdr_size class -> length o = length b ->
  phdr_write p class o = Ok b.
Proof.
  intros H Hb Ho. pose proof (agree_nil b o Ho) as A.
  assert (len o = len b) as Hlo by (unfold len; congruence).
  destruct class; simpl in *; unfold phdr_parse_32, phdr_parse_64 in H;
    res_inv H; simplify_eq; unfold phdr_write_32, phdr_write_64; rewrite Hlo, Hb;
    cbn [p_type p_flags p_offset p_vaddr p_paddr p_filesz p_memsz p_align].
  - change (debug_assert (PHDR32_SIZE <=? PHDR32_SIZE)) with (Ok (E:=Error) tt).
    write_header Hb.
  - change (debug_assert (PHDR64_SIZE <=? PHDR64_SIZE)) with (Ok (E:=Error) tt).
    write_header Hb.
Qed.

Lemma shdr_write_parse class b s o :
  shdr_parse class b = Ok s -> len b = shdr_size class -> length o = length b ->
  shdr_write s class o = Ok b.
Proof.
  intros H Hb Ho. pose proof (agree_nil b o Ho) as A.
  assert (len o = len b) as Hlo by (unfold len; congruence).
  destruct class; simpl in *; unfold shdr_parse_32, shdr_parse_64 in H;
    res_inv H; simplify_eq; unfold shdr_write_32, shdr_write_64; rewrite Hlo, Hb;
    cbn [sh_name sh_type sh_flags sh_addr sh_offset sh_size sh_link sh_info
         sh_addralign sh_entsize].
  - change (debug_assert (SHDR32_SIZE <=? SHDR32_SIZE)) with (Ok (E:=Error) tt).
    write_header Hb.
  - change (debug_assert (SHDR64_SIZE <=? SHDR64_SIZE)) with (Ok (E:=Error) tt).
    write_header Hb.
Qed.

(** A read below [n] sees only the first [n] bytes. *)
Lemma slice_prefix {E A} (l : list A) a b n :
  0 <= a <= b -> b <= n -> n <= len l ->
  slice (E:=E) (sub l 0 n) a b = slice l a b.
Proof.
  intros. rewrite !slice_ok by (rewrite ?len_sub by lia; lia).
  by rewrite sub_sub by lia.
Qed.

Lemma read_u16_prefix bs n a v :
  read_u16 bs a = Ok v -> a + 2 <= n -> n <= len bs -> read_u16 (sub bs 0 n) a = Ok v.
Proof.
  intros H ??. pose proof (read_word_inv 2 _ _ _ H) as (? & _ & _).
  unfold read_u16 in *. by rewrite slice_prefix by lia.
Qed.

Lemma read_u32_prefix bs n a v :
  read_u32 bs a = Ok v -> a + 4 <= n -> n <= len bs -> read_u32 (sub bs 0 n) a = Ok v.
Proof.
  intros H ??. pose proof (read_word_inv 4 _ _ _ H) as (? & _ & _).
  unfold read_u32 in *. by rewrite slice_prefix by lia.
Qed.

Lemma read_u64_prefix bs n a v :
  read_u64 bs a = Ok v -> a + 8 <= n -> n <= len bs -> read_u64 (sub bs 0 n) a = Ok v.
Proof.
  intros H ??. pose proof (read_word_inv 8 _ _ _ H) as (? & _ & _).
  unfold read_u64 in *. by rewrite slice_prefix by lia.
Qed.

Lemma ensure_len_ok bs off n u : ensure_len bs off n = Ok u ->
  off + n <= len bs /\ off + n < 2 ^ 64.
Proof.
  unfold ensure_len, checked_add64. case_match; simpl; [|discriminate].
  case_match; [discriminate|]. lia.
Qed.

Ltac reads_to_prefix n :=
  repeat match goal with
  | H : read_u16 ?bs ?a = Ok _ |- _ => apply (read_u16_prefix bs n) in H; [|lia|lia]
  | H : read_u32 ?bs ?a = Ok _ |- _ => apply (read_u32_prefix bs n) in H; [|lia|lia]
  | H : read_u64 ?bs ?a = Ok _ |- _ => apply (read_u64_prefix bs n) in H; [|lia|lia]
  end.

(** The identification bytes are the first bytes of the header. *)
Lemma copy_ident_agree (bs : list byte) n (o : list byte) : 16 <= n -> n <= len bs -> length o = length (sub bs 0 n) ->
  exists o', copy_into (E:=Error) o 0 EI_NIDENT (sub bs 0 EI_NIDENT) = Ok o' /\
    agree [(0, 16)] (sub bs 0 n) o'.
Proof.
  intros. pose proof (agree_nil (sub bs 0 n) o ltac:(assumption)) as A.
  destruct (agree_copy (E:=Error) [] (sub bs 0 n) o 0 16) as (o' & E & A'); [auto|lia| |].
  { rewrite len_sub by lia. lia. }
  exists o'. split; [|done]. rewrite <- E. unfold EI_NIDENT. f_equal.
  rewrite sub_sub by lia. done.
Qed.

Lemma ehdr_write_parse_64 bs h o :
  ehdr_parse_64 bs (sub bs 0 EI_NIDENT) = Ok h ->
  length o = length (sub bs 0 EHDR64_SIZE) ->
  64 <= len bs /\ ehdr_write_64 h o = Ok (sub bs 0 EHDR64_SIZE).
Proof.
  change EHDR64_SIZE with 64.
  intros H Ho. unfold ehdr_parse_64 in H. res_inv H. simplify_eq.
  apply ensure_len_ok in Hx as [Hl _]. change (0 + EHDR64_SIZE) with 64 in Hl.
  split; [done|]. reads_to_prefix 64.
  assert (len o = 64) as Hlo by (unfold len; rewrite Ho, length_sub by lia; lia).
  unfold ehdr_write_64. rewrite Hlo.
  change (debug_assert (EHDR64_SIZE <=? 64)) with (Ok (E:=Error) tt).
  cbn [mbind res_bind e_ident e_type e_machine e_version e_entry e_phoff e_shoff e_flags
       e_ehsize e_phentsize e_phnum e_shentsize e_shnum e_shstrndx].
  destruct (copy_ident_agree bs 64 o) as (o' & -> & A); [lia|lia|done|]. cbn [mbind res_bind].
  repeat write_field. f_equal.
  match goal with A : agree _ _ ?o |- ?o = _ => apply (agree_done _ _ _ A) end.
  by rewrite len_sub by lia.
Qed.

Lemma ehdr_write_parse_32 bs h o :
  ehdr_parse_32 bs (sub bs 0 EI_NIDENT) = Ok h ->
  length o = length (sub bs 0 EHDR32_SIZE) ->
  52 <= len bs /\ ehdr_write_32 h o = Ok (sub bs 0 EHDR32_SIZE).
Proof.
  change EHDR32_SIZE with 52.
  intros H Ho. unfold ehdr_parse_32 in H. res_inv H. simplify_eq.
  apply ensure_len_ok in Hx as [Hl _]. change (0 + EHDR32_SIZE) with 52 in Hl.
  split; [done|]. reads_to_prefix 52.
  assert (len o = 52) as Hlo by (unfold len; rewrite Ho, length_sub by lia; lia).
  unfold ehdr_write_32. rewrite Hlo.
  change (debug_assert (EHDR32_SIZE <=? 52)) with (Ok (E:=Error) tt).
  cbn [mbind res_bind e_ident e_type e_machine e_version e_entry e_phoff e_shoff e_flags
       e_ehsize e_phentsize e_phnum e_shentsize e_shnum e_shstrndx].
  destruct (copy_ident_agree bs 52 o) as (o' & -> & A); [lia|lia|done|]. cbn [mbind res_bind].
  repeat write_field. f_equal.
  match goal with A : agree _ _ ?o |- ?o = _ => apply (agree_done _ _ _ A) end.
  by rewrite len_sub by lia.
Qed.

Lemma ehdr_parse_ok bs h c : ehdr_parse bs = Ok (h, c) ->
  match c with
  | Elf32 => ehdr_parse_32 bs (sub bs 0 EI_NIDENT) = Ok h
  | Elf64 => ehdr_parse_64 bs (sub bs 0 EI_NIDENT) = Ok h
  end.
Proof.
  unfold ehdr_parse. intros H. res_inv H. apply slice_inv in Hx0 as (_ & _ & ->).
  destruct x6; res_inv H; simplify_eq; done.
Qed.

Lemma ehdr_write_parse bs h c o :
  ehdr_parse bs = Ok (h, c) -> length o = Z.to_nat (ehdr_size c) ->
  ehdr_size c <= len bs /\ ehdr_write h c o = Ok (sub bs 0 (ehdr_size c)).
Proof.
  intros H Ho. apply ehdr_parse_ok in H. destruct c; simpl in *.
  - assert (52 <= len bs) as Hl.
    { unfold ehdr_parse_32 in H. res_inv H. apply ensure_len_ok in Hx. simpl in Hx.
      unfold EHDR32_SIZE in *. lia. }
    eapply ehdr_write_parse_32; [done|]. rewrite length_sub by (unfold EHDR32_SIZE; lia).
    rewrite Ho. done.
  - assert (64 <= len bs) as Hl.
    { unfold ehdr_parse_64 in H. res_inv H. apply ensure_len_ok in Hx. simpl in Hx.
      unfold EHDR64_SIZE in *. lia. }
    eapply ehdr_write_parse_64; [done|]. rewrite length_sub by (unfold EHDR64_SIZE; lia).
    rewrite Ho. done.
Qed.

(** * Absence of panics, and what a successful read establishes *)

Lemma wp_read_word (n : nat) bs a :
  0 <= a -> a + Z.of_nat n <= len bs ->
  wp (s ← slice (E:=Error) bs a (a + Z.of_nat n); Ok (from_le s))
     (fun v => 0 <= v < 256 ^ Z.of_nat n).
Proof.
  intros. apply wp_bind. eapply wp_mono; [apply wp_slice; lia|]. simpl. intros s ->.
  pose proof (from_le_range (sub bs a (a + Z.of_nat n))) as H1.
  rewrite length_sub in H1 by lia.
  replace (Z.of_nat (Z.to_nat (a + Z.of_nat n - a))) with (Z.of_nat n) in H1 by lia. done.
Qed.

Lemma wp_read_u16 bs a : 0 <= a -> a + 2 <= len bs ->
  wp (read_u16 bs a) (fun v => 0 <= v < 2 ^ 16).
Proof. apply (wp_read_word 2). Qed.
Lemma wp_read_u32 bs a : 0 <= a -> a + 4 <= len bs ->
  wp (read_u32 bs a) (fun v => 0 <= v < 2 ^ 32).
Proof. apply (wp_read_word 4). Qed.
Lemma wp_read_u64 bs a : 0 <= a -> a + 8 <= len bs ->
  wp (read_u64 bs a) (fun v => 0 <= v < 2 ^ 64).
Proof. apply (wp_read_word 8). Qed.

Lemma wp_ensure_len bs off n :
  wp (ensure_len bs off n) (fun _ => off + n <= len bs /\ off + n < 2 ^ 64).
Proof.
  unfold ensure_len. apply wp_bind. eapply wp_mono; [apply wp_ok_or|]. simpl.
  unfold checked_add64. intros e He. case_match; simplify_eq.
  destruct (Z.ltb_spec (len bs) (off + n)); simpl; lia.
Qed.

(** One read of a header whose length is known. *)
Ltac wp_read :=
  apply wp_bind; eapply wp_mono;
  [ first [apply wp_read_u16 | apply wp_read_u32 | apply wp_read_u64]; lia
  | let v := fresh "v" in let Hv := fresh "Hv" in intros v Hv; cbv beta in Hv |- * ].
Ltac wp_check :=
  apply wp_bind; eapply wp_mono; [apply wp_guard | intros ? ?].

(** The counts and offsets of a header fit their fields. *)
Definition ehdr_wf (h : Ehdr64) : Prop :=
  0 <= e_phnum h < 2 ^ 16 /\ 0 <= e_shnum h < 2 ^ 16 /\
  0 <= e_phoff h < 2 ^ 64 /\ 0 <= e_shoff h < 2 ^ 64.

Lemma wp_ehdr_parse_64 bs i : wp (ehdr_parse_64 bs i) ehdr_wf.
Proof.
  unfold ehdr_parse_64. apply wp_bind. eapply wp_mono; [apply wp_ensure_len|].
  unfold EHDR64_SIZE. intros _ [? _]. do 13 wp_read. do 3 wp_check.
  unfold ehdr_wf. simpl. lia.
Qed.

Lemma wp_ehdr_parse_32 bs i : wp (ehdr_parse_32 bs i) ehdr_wf.
Proof.
  unfold ehdr_parse_32. apply wp_bind. eapply wp_mono; [apply wp_ensure_len|].
  unfold EHDR32_SIZE. intros _ [? _]. do 13 wp_read. do 3 wp_check.
  unfold ehdr_wf. simpl. lia.
Qed.

Lemma wp_index {A} (l : list A) i : 0 <= i < len l ->
  wp (index (E:=Error) l i) (fun _ => True).
Proof.
  intros [? ?]. unfold index, get, len in *. replace (0 <=? i) with true by lia.
  destruct (lookup_lt_is_Some_2 l (Z.to_nat i)) as [x ->]; [lia|done].
Qed.

Lemma wp_ehdr_parse bs : wp (ehdr_parse bs) (fun hc => ehdr_wf hc.1).
Proof.
  unfold ehdr_parse. wp_check. unfold EI_NIDENT in *.
  assert (16 <= len bs) by lia.
  apply wp_bind. eapply wp_mono; [apply wp_slice; lia|]. intros s ->. cbv beta.
  assert (len (sub bs 0 16) = 16) as Hl by (rewrite len_sub; lia).
  apply wp_bind. eapply wp_mono; [apply wp_slice; lia|]. intros ? _. cbv beta.
  wp_check. apply wp_bind. eapply wp_mono; [apply wp_index; lia|]. intros ? _.
  wp_check. apply wp_bind. eapply wp_mono; [apply wp_index; lia|]. intros c _.
  destruct (u8 c =? ELFCLASS32); [|destruct (u8 c =? ELFCLASS64); [|done]].
  - change (wp (h ← ehdr_parse_32 bs (sub bs 0 16); Ok (h, Elf32)) (fun hc => ehdr_wf hc.1)).
    apply wp_bind. eapply wp_mono; [apply wp_ehdr_parse_32|]. done.
  - change (wp (h ← ehdr_parse_64 bs (sub bs 0 16); Ok (h, Elf64)) (fun hc => ehdr_wf hc.1)).
    apply wp_bind. eapply wp_mono; [apply wp_ehdr_parse_64|]. done.
Qed.

Lemma wp_debug_assert (c : bool) : c = true -> wp (debug_assert c) (fun _ => True).
Proof. by intros ->. Qed.

Lemma wp_phdr_parse c b : len b = phdr_size c -> wp (phdr_parse c b) (fun _ => True).
Proof.
  destruct c; simpl; intros Hb; unfold phdr_parse_32, phdr_parse_64;
    unfold PHDR32_SIZE, PHDR64_SIZE in *; rewrite Hb; apply wp_bind;
    (eapply wp_mono; [by apply wp_debug_assert|]); intros _ _; do 8 wp_read; done.
Qed.

(** The fields of a section header that locate its contents. *)
Definition shdr_wf (s : Shdr64) : Prop := 0 <= sh_offset s < 2 ^ 64 /\ 0 <= sh_size s < 2 ^ 64.

Lemma wp_shdr_parse c b : len b = shdr_size c -> wp (shdr_parse c b) shdr_wf.
Proof.
  destruct c; simpl; intros Hb; unfold shdr_parse_32, shdr_parse_64;
    unfold SHDR32_SIZE, SHDR64_SIZE in *; rewrite Hb; apply wp_bind;
    (eapply wp_mono; [by apply wp_debug_assert|]); intros _ _; do 10 wp_read;
    unfold shdr_wf; simpl; lia.
Qed.

(** * Header tables *)

(** The entries [hs] are those found at [start] in [bs]. *)
Definition table_at {H} (parseH : list byte -> Result H) (size start : Z)
    (bs : list byte) (hs : list H) : Prop :=
  (hs <> [] -> start + len hs * size <= len bs /\ start + len hs * size < 2 ^ 64) /\
  forall i h, hs !! i = Some h ->
    let off := start + Z.of_nat i * size in parseH (sub bs off (off + size)) = Ok h.

Lemma phdr_size_pos c : 0 < phdr_size c < 2 ^ 8.
Proof. by destruct c. Qed.
Lemma shdr_size_pos c : 0 < shdr_size c < 2 ^ 8.
Proof. by destruct c. Qed.

Lemma wp_usize_add (a b : Z) : a + b < 2 ^ 64 ->
  wp (usize_add (E:=Error) a b) (fun c => c = a + b).
Proof. intros. unfold usize_add. by replace (a + b <? 2 ^ 64) with true by lia. Qed.

(** One entry of a table whose extent was checked. *)
Lemma wp_entry {B} (bs : list byte) start size count i (k : list byte -> Result B) Q :
  0 <= start -> 0 < size -> 0 <= i < count ->
  start + count * size <= len bs -> start + count * size < 2 ^ 64 ->
  (let b := sub bs (start + i * size) (start + i * size + size) in
   len b = size -> wp (k b) Q) ->
  wp (off ← usize_add start (i * size);
      fin ← usize_add off size; b ← slice bs off fin; k b) Q.
Proof.
  intros ????? Hk. apply wp_bind. eapply wp_mono; [apply wp_usize_add; nia|].
  intros ? ->. cbv beta.
  apply wp_bind. eapply wp_mono; [apply wp_usize_add; nia|]. intros ? ->. cbv beta.
  apply wp_bind. eapply wp_mono; [apply wp_slice; nia|]. intros ? ->. apply Hk.
  rewrite len_sub by nia. lia.
Qed.

Lemma Forall2_seqZ {B} (P : Z -> B -> Prop) n l :
  0 <= n -> Forall2 P (seqZ 0 n) l ->
  len l = n /\ forall i b, l !! i = Some b -> P (Z.of_nat i) b.
Proof.
  intros Hn H. pose proof (Forall2_length _ _ _ H) as Hl. rewrite length_seqZ in Hl.
  unfold len. split; [lia|]. intros i b Hb.
  assert (seqZ 0 n !! i = Some (Z.of_nat i)) as Hi.
  { apply lookup_seqZ. apply lookup_lt_Some in Hb. lia. }
  eapply Forall2_lookup_lr; done.
Qed.

Lemma wp_parse_phdrs c bs h : ehdr_wf h ->
  wp (parse_phdrs c bs h) (fun phs => len phs = e_phnum h /\
        table_at (phdr_parse c) (phdr_size c) (e_phoff h) bs phs).
Proof.
  intros (Hn & _ & Ho & _). unfold parse_phdrs. pose proof (phdr_size_pos c).
  destruct (Z.eqb_spec (e_phnum h) 0) as [Hz|Hz].
  { split; [done|]. split; [done|]. intros i ? Hi. by rewrite lookup_nil in Hi. }
  apply wp_bind. eapply wp_mono; [apply wp_ok_or|]. intros total Ht. cbv beta in Ht.
  unfold checked_mul64 in Ht. case_match; simplify_eq.
  apply wp_bind. eapply wp_mono; [apply wp_ensure_len|]. intros _ [? ?].
  eapply wp_mono; [apply wp_mapM with (P := fun i p =>
    phdr_parse c (sub bs (e_phoff h + i * phdr_size c)
                         (e_phoff h + i * phdr_size c + phdr_size c)) = Ok p)|].
  - apply Forall_forall. intros i Hi%elem_of_seqZ.
    apply (wp_entry bs _ _ (e_phnum h)); [lia..|]. intros b Hb.
    eapply wp_mono; [apply wp_eq, wp_phdr_parse, Hb|]. by intros p [? _].
  - intros phs Hphs. apply Forall2_seqZ in Hphs as [Hlen Hphs]; [|lia].
    split; [done|]. split; [intros _; rewrite Hlen; lia|]. intros i p Hp. by apply Hphs.
Qed.

(** The contents captured for a section. *)
Definition data_at (bs : list byte) (s : Shdr64) (data : list byte) : Prop :=
  if occupies_file s
  then sh_offset s + sh_size s <= len bs /\ sh_offset s + sh_size s < 2 ^ 64 /\
       data = sub bs (sh_offset s) (sh_offset s + sh_size s)
  else data = [].

Lemma wp_section_data bs s : shdr_wf s ->
  wp (if occupies_file s then
        ensure_len bs (sh_offset s) (sh_size s) ;;
        data_end ← usize_add (sh_offset s) (sh_size s);
        slice bs (sh_offset s) data_end
      else Ok []) (data_at bs s).
Proof.
  intros [? ?]. unfold data_at. destruct (occupies_file s); [|done].
  apply wp_bind. eapply wp_mono; [apply wp_ensure_len|]. intros _ [? ?].
  apply wp_bind. eapply wp_mono; [by apply wp_usize_add|]. intros ? ->. cbv beta.
  eapply wp_mono; [apply wp_slice; lia|]. intros ? ->. done.
Qed.

Definition sections_at (c : ElfClass) (bs : list byte) (start : Z)
    (shs : list Shdr64) (datas : list (list byte)) : Prop :=
  table_at (shdr_parse c) (shdr_size c) start bs shs /\
  Forall shdr_wf shs /\ Forall2 (data_at bs) shs datas.

(** Adding the next entry to a table read so far. *)
Lemma table_at_snoc {H} (parseH : list byte -> Result H) size start bs hs h :
  (forall i h, hs !! i = Some h ->
    let off := start + Z.of_nat i * size in parseH (sub bs off (off + size)) = Ok h) ->
  (let off := start + len hs * size in parseH (sub bs off (off + size)) = Ok h) ->
  forall i h', (hs ++ [h]) !! i = Some h' ->
    let off := start + Z.of_nat i * size in parseH (sub bs off (off + size)) = Ok h'.
Proof.
  intros Hhs Hh i h' Hi. apply lookup_snoc_Some in Hi as [[_ Hi]|[-> <-]]; [by apply Hhs|].
  apply Hh.
Qed.

Lemma seqZ_split n done i todo : seqZ 0 n = done ++ i :: todo ->
  i = len done /\ 0 <= i < n.
Proof.
  intros H. assert (seqZ 0 n !! length done = Some i) as Hi
    by (rewrite H; apply list_lookup_middle; reflexivity).
  apply lookup_seqZ in Hi as [-> ?]. unfold len. lia.
Qed.

Lemma wp_parse_shdrs c bs h : ehdr_wf h ->
  wp (parse_shdrs_and_sections c bs h) (fun '(shs, datas) =>
        len shs = e_shnum h /\ sections_at c bs (e_shoff h) shs datas).
Proof.
  intros (_ & Hn & _ & Ho). unfold parse_shdrs_and_sections. pose proof (shdr_size_pos c).
  destruct (Z.eqb_spec (e_shnum h) 0) as [Hz|Hz].
  { split; [done|]. split; [|done]. split; [done|]. intros i ? Hi. by rewrite lookup_nil in Hi. }
  apply wp_bind. eapply wp_mono; [apply wp_ok_or|]. intros total Ht. cbv beta in Ht.
  unfold checked_mul64 in Ht. case_match; simplify_eq.
  apply wp_bind. eapply wp_mono; [apply wp_ensure_len|]. intros _ [? ?].
  eapply wp_mono; [apply wp_foldM with (I := fun done '(shs, datas) =>
    length shs = length done /\
    (forall i s, shs !! i = Some s -> let off := e_shoff h + Z.of_nat i * shdr_size c in
       shdr_parse c (sub bs off (off + shdr_size c)) = Ok s) /\
    Forall shdr_wf shs /\ Forall2 (data_at bs) shs datas)|].
  - split_and!; [done| |constructor..]. intros i ? Hi. by rewrite lookup_nil in Hi.
  - intros done i todo [shs datas] Hs (Hl & Ht & Hw & Hd).
    apply seqZ_split in Hs as [-> ?].
    apply (wp_entry bs _ _ (e_shnum h)); [lia..|]. intros b Hb.
    apply wp_bind. eapply wp_mono; [apply wp_eq, wp_shdr_parse, Hb|]. intros s [Hp Hsw].
    apply wp_bind. eapply wp_mono; [by apply wp_section_data|]. intros data Hdata.
    split_and!; [by rewrite !length_app, Hl| |by apply Forall_app_2, Forall_singleton|].
    + apply table_at_snoc; [done|]. unfold len. rewrite Hl. apply Hp.
    + apply Forall2_app; [done|]. by repeat constructor.
  - intros [shs datas] (Hl & Ht & Hw & Hd). rewrite length_seqZ in Hl.
    assert (len shs = e_shnum h) as He by (unfold len; lia).
    split; [done|]. split; [|done]. split; [|done]. intros _. rewrite He. lia.
Qed.

(** * Regions and padding partition the file *)

Definition range_of (r : Region) : Z * Z := (r_start r, r_end r).
Definition pad_range (p : Z * list byte) : Z * Z := (p.1, p.1 + len p.2).

Definition section_ranges (shs : list Shdr64) : list (Z * Z) :=
  (fun s => (sh_offset s, sh_offset s + sh_size s)) <$>
  base.filter (fun s => occupies_file s = true) shs.

(** The ranges the headers claim: the file header, both tables, and the
    contents of every section present in the file. *)
Definition claimed (c : ElfClass) (h : Ehdr64) (shs : list Shdr64) : list (Z * Z) :=
  [(0, ehdr_size c)] ++
  (if 0 <? e_phnum h then [(e_phoff h, e_phoff h + e_phnum h * phdr_size c)] else []) ++
  (if 0 <? e_shnum h then [(e_shoff h, e_shoff h + e_shnum h * shdr_size c)] else []) ++
  section_ranges shs.

Lemma wp_region_end l a b : wp (region_end l a b) (fun e => e = a + b).
Proof.
  unfold region_end. eapply wp_mono; [apply wp_ok_or|]. simpl. unfold checked_add64.
  intros ? H. case_match; congruence.
Qed.

(** Consecutive regions do not overlap. *)
Lemma wp_check_overlap rs :
  StronglySorted (fun a b => r_start a <= r_start b) rs ->
  Forall (fun r => r_start r <= r_end r) rs ->
  wp (check_overlap rs) (fun _ => StronglySorted (fun a b => r_end a <= r_start b) rs).
Proof.
  induction 1 as [|a rs Hs IH Ha]; [repeat constructor|]. intros [Hr Hrs]%Forall_cons.
  simpl. destruct rs as [|b rs]; [repeat constructor|].
  destruct (Z.ltb_spec (r_start b) (r_end a)); [done|].
  eapply wp_mono; [by apply IH|]. intros ? Hss. constructor; [done|].
  apply Forall_cons in Hrs as [Hb _]. constructor; [done|].
  pose proof (StronglySorted_inv Hss) as [_ Hbs]. eapply Forall_impl; [exact Hbs|]. simpl. lia.
Qed.

Lemma section_ranges_app s1 s2 :
  section_ranges (s1 ++ s2) = section_ranges s1 ++ section_ranges s2.
Proof. unfold section_ranges. by rewrite filter_app, fmap_app. Qed.

Lemma section_ranges_one s : section_ranges [s] =
  if occupies_file s then [(sh_offset s, sh_offset s + sh_size s)] else [].
Proof.
  unfold section_ranges. rewrite filter_cons, filter_nil.
  by destruct (occupies_file s).
Qed.

Lemma wp_build_regions c h shs :
  ehdr_wf h -> Forall shdr_wf shs ->
  wp (build_regions c h shs) (fun rs =>
    range_of <$> rs ≡ₚ claimed c h shs /\
    Forall (fun r => r_start r <= r_end r) rs /\
    StronglySorted (fun a b => r_end a <= r_start b) rs).
Proof.
  intros (Hp & Hs & Hpo & Hso) Hshs. unfold build_regions.
  set (r0 := {| label := _; r_start := 0; r_end := _ |}).
  set (phr := if 0 <? e_phnum h then [(e_phoff h, e_phoff h + e_phnum h * phdr_size c)] else []).
  set (shr := if 0 <? e_shnum h then [(e_shoff h, e_shoff h + e_shnum h * shdr_size c)] else []).
  apply wp_bind. apply (wp_mono _ (fun rs => range_of <$> rs = [(0, ehdr_size c)] ++ phr)).
  { subst phr. destruct (0 <? e_phnum h); [|done].
    apply wp_bind. eapply wp_mono; [apply wp_region_end|]. intros e ->. simpl. done. }
  intros rs1 H1. apply wp_bind.
  apply (wp_mono _ (fun rs => range_of <$> rs = [(0, ehdr_size c)] ++ phr ++ shr)).
  { subst shr. destruct (0 <? e_shnum h); [|by rewrite app_nil_r].
    apply wp_bind. eapply wp_mono; [apply wp_region_end|]. intros e ->. simpl.
    by rewrite fmap_app, H1. }
  intros rs2 H2. apply wp_bind.
  eapply wp_mono; [apply wp_foldM with (I := fun done rs =>
    range_of <$> rs = [(0, ehdr_size c)] ++ phr ++ shr ++ section_ranges (snd <$> done))|].
  - by rewrite app_nil_r.
  - intros done [i s] todo rs Hz Hrs. rewrite fmap_app, section_ranges_app. simpl.
    rewrite section_ranges_one. destruct (occupies_file s).
    + apply wp_bind. eapply wp_mono; [apply wp_region_end|]. intros e ->. simpl.
      rewrite fmap_app, Hrs. simpl. by rewrite <- !(assoc_L (++)).
    + simpl. by rewrite app_nil_r.
  - intros rs3 H3. cbv beta in H3. rewrite snd_zip in H3
      by (rewrite length_seqZ; unfold len; lia).
    change (range_of <$> rs3 = claimed c h shs) in H3.
    assert (Forall (fun r => r_start r <= r_end r) (sort_by_key r_start rs3)) as Hwf.
    { rewrite sort_by_key_perm.
      cut (Forall (fun r => r.1 <= r.2) (range_of <$> rs3)); [apply (Forall_fmap range_of (fun r => r.1 <= r.2))|].
      rewrite H3. unfold claimed.
      pose proof (phdr_size_pos c). pose proof (shdr_size_pos c).
      apply Forall_app; split; [repeat constructor; by destruct c|].
      apply Forall_app; split; [case_match; repeat constructor; simpl; nia|].
      apply Forall_app; split; [case_match; repeat constructor; simpl; nia|].
      apply Forall_fmap, Forall_forall. intros s [_ Hin]%list_elem_of_filter.
      rewrite Forall_forall in Hshs. destruct (Hshs s Hin). simpl. lia. }
    apply wp_bind. eapply wp_mono; [apply wp_check_overlap; [apply sort_by_key_sorted|done]|].
    intros ? Ho. split_and!; [|done..]. by rewrite sort_by_key_perm, H3.
Qed.

(** A piece of padding is the file's bytes at its offset. *)
Definition pad_ok (bs : list byte) (p : Z * list byte) : Prop :=
  0 <= p.1 /\ p.1 + len p.2 <= len bs /\ p.2 = sub bs p.1 (p.1 + len p.2).

Lemma pad_ok_sub bs a b : 0 <= a <= b -> b <= len bs -> pad_ok bs (a, sub bs a b).
Proof.
  intros. unfold pad_ok. simpl. rewrite len_sub by lia.
  replace (a + (b - a)) with b by lia. split_and!; (lia || done).
Qed.

Lemma pad_range_sub {bs : list byte} a b : 0 <= a <= b -> b <= len bs ->
  pad_range (a, sub bs a b) = (a, b).
Proof. intros. unfold pad_range. simpl. rewrite len_sub by lia. f_equal. lia. Qed.

(** Every position below [cur] is held once, none above. *)
Definition covered_below (R : list (Z * Z)) (cur : Z) : Prop :=
  forall i, 0 <= i -> cover_count R i = if i <? cur then 1%nat else 0%nat.

Lemma covered_below_add R cur e : covered_below R cur -> 0 <= cur <= e ->
  covered_below (R ++ [(cur, e)]) e.
Proof.
  intros H ? i Hi. rewrite cover_count_app, cover_count_one, H by done.
  destruct (Z.ltb_spec i cur), (Z.leb_spec cur i), (Z.ltb_spec i e); simpl; lia.
Qed.

Lemma covered_below_perm R R' cur : R ≡ₚ R' -> covered_below R cur -> covered_below R' cur.
Proof. intros HR H i Hi. rewrite <- (cover_count_perm R R' i HR). by apply H. Qed.

Definition padding_inv (bs : list byte) (all done : list Region)
    (st : list (Z * list byte) * Z) : Prop :=
  let '(pads, cur) := st in
  0 <= cur <= len bs /\ Forall (pad_ok bs) pads /\
  (forall todo, all = done ++ todo -> Forall (fun r => cur <= r_start r) todo) /\
  covered_below ((range_of <$> done) ++ (pad_range <$> pads)) cur.

Lemma wp_compute_padding bs rs :
  Forall (fun r => 0 <= r_start r <= r_end r /\ r_end r <= len bs) rs ->
  StronglySorted (fun a b => r_end a <= r_start b) rs ->
  wp (compute_padding bs rs) (fun pads => Forall (pad_ok bs) pads /\
       covered_below ((range_of <$> rs) ++ (pad_range <$> pads)) (len bs)).
Proof.
  intros Hin Hs. unfold compute_padding. apply wp_bind.
  eapply wp_mono; [apply wp_foldM with (I := padding_inv bs rs)|].
  - split_and!; [lia|apply len_nonneg|constructor| |].
    + intros todo ->. eapply Forall_impl; [exact Hin|]. simpl. lia.
    + intros i ?. destruct (Z.ltb_spec i 0); [lia|done].
  - intros done r todo [pads cur] -> (Hcur & Hpads & Hle & Hcov).
    apply Forall_app in Hin as [_ [Hr _]%Forall_cons].
    pose proof (Hle _ eq_refl) as [Hcr _]%Forall_cons.
    apply wp_bind. apply (wp_mono _ (fun pads => Forall (pad_ok bs) pads /\
      covered_below ((range_of <$> done) ++ (pad_range <$> pads)) (r_start r))).
    { destruct (Z.ltb_spec cur (r_start r)).
      - apply wp_bind. eapply wp_mono; [apply wp_slice; lia|]. intros ? ->. split.
        + apply Forall_app_2, Forall_singleton; [done|]. apply pad_ok_sub; lia.
        + rewrite fmap_app. simpl. rewrite pad_range_sub, (assoc_L (++)) by lia.
          apply covered_below_add; [done|lia].
      - split; [done|]. by replace (r_start r) with cur by lia. }
    intros pads' [Hp' Hc']. replace (Z.max cur (r_end r)) with (r_end r) by lia.
    split_and!; [lia|lia|done| |].
    + intros todo' H'. rewrite <- (assoc_L (++)) in H'. apply app_inv_head in H' as [= ->].
      pose proof (StronglySorted_inv (StronglySorted_app_1_r _ _ _ Hs)) as [_ Hs2]. done.
    + rewrite fmap_app. simpl.
      eapply covered_below_perm;
        [|apply (covered_below_add _ _ (r_end r) Hc'); lia].
      unfold range_of at 3. solve_Permutation.
  - intros [pads cur] (Hcur & Hpads & _ & Hcov). destruct (Z.ltb_spec cur (len bs)).
    + apply wp_bind. eapply wp_mono; [apply wp_slice; lia|]. intros ? ->. split.
      * apply Forall_app_2, Forall_singleton; [done|]. apply pad_ok_sub; lia.
      * rewrite fmap_app. simpl. rewrite pad_range_sub, (assoc_L (++)) by lia.
        apply covered_below_add; [done|lia].
    + split; [done|]. by replace (len bs) with cur by lia.
Qed.

(** * What [parse] establishes *)

Record parsed (bs : list byte) (f : Elf64File) : Prop := {
  parsed_ehdr : ehdr_parse bs = Ok (ehdr f, class f);
  parsed_wf : ehdr_wf (ehdr f);
  parsed_phnum : len (phdrs f) = e_phnum (ehdr f);
  parsed_phdrs : table_at (phdr_parse (class f)) (phdr_size (class f))
                   (e_phoff (ehdr f)) bs (phdrs f);
  parsed_shnum : len (shdrs f) = e_shnum (ehdr f);
  parsed_sections : sections_at (class f) bs (e_shoff (ehdr f)) (shdrs f) (section_data f);
  parsed_padding : Forall (pad_ok bs) (padding f);
  parsed_cover : covered_below (claimed (class f) (ehdr f) (shdrs f) ++
                                (pad_range <$> padding f)) (len bs);
  parsed_size : file_size f = len bs;
}.

Lemma ehdr_parse_size bs h c : ehdr_parse bs = Ok (h, c) -> ehdr_size c <= len bs.
Proof.
  intros H. apply ehdr_parse_ok in H.
  destruct c; simpl in *; [unfold ehdr_parse_32 in H | unfold ehdr_parse_64 in H];
    res_inv H; apply ensure_len_ok in Hx; lia.
Qed.

(** What the headers claim lies inside the file. *)
Lemma claimed_in_file c h shs datas bs :
  ehdr_size c <= len bs -> ehdr_wf h ->
  (0 < e_phnum h -> e_phoff h + e_phnum h * phdr_size c <= len bs) ->
  (0 < e_shnum h -> e_shoff h + e_shnum h * shdr_size c <= len bs) ->
  Forall shdr_wf shs -> Forall2 (data_at bs) shs datas ->
  Forall (fun r => 0 <= r.1 /\ r.2 <= len bs) (claimed c h shs).
Proof.
  intros Hc (? & ? & ? & ?) Hp Hs Hwf Hd. unfold claimed.
  repeat (apply Forall_app; split).
  - repeat constructor; simpl; lia.
  - destruct (Z.ltb_spec 0 (e_phnum h)); repeat constructor; simpl; lia.
  - destruct (Z.ltb_spec 0 (e_shnum h)); repeat constructor; simpl; lia.
  - apply Forall_fmap, Forall_forall. intros s [Ho Hin]%list_elem_of_filter.
    apply list_elem_of_lookup in Hin as [i Hi].
    destruct (Forall2_lookup_l _ _ _ _ _ Hd Hi) as (d & _ & Hsd).
    unfold data_at in Hsd. rewrite Ho in Hsd. simpl.
    rewrite Forall_lookup in Hwf. destruct (Hwf i s Hi). lia.
Qed.

Lemma table_at_bound {H} (p : list byte -> Result H) size start bs hs n :
  table_at p size start bs hs -> len hs = n -> 0 < n -> start + n * size <= len bs.
Proof.
  intros [Ht _] <- Hn. apply Ht. intros ->. done.
Qed.

Lemma wp_parse bs : wp (parse bs) (parsed bs).
Proof.
  unfold parse. apply wp_bind. eapply wp_mono; [apply wp_eq, wp_ehdr_parse|].
  intros [h c] [Hh Hw]. simpl in Hw. pose proof (ehdr_parse_size _ _ _ Hh) as Hsz.
  apply wp_bind. eapply wp_mono; [by apply wp_parse_phdrs|]. intros phs [Hpn Hpt].
  apply wp_bind. eapply wp_mono; [by apply wp_parse_shdrs|].
  intros [shs datas] (Hsn & Hst & Hswf & Hdata).
  apply wp_bind. eapply wp_mono; [by apply wp_build_regions|]. intros rs (Hperm & Hle & Hso).
  assert (Forall (fun r => 0 <= r.1 /\ r.2 <= len bs) (range_of <$> rs)) as Hin.
  { rewrite Hperm. eapply claimed_in_file; eauto using table_at_bound. }
  apply Forall_fmap in Hin.
  apply wp_bind. eapply wp_mono; [apply wp_compute_padding; [|done]|].
  { rewrite Forall_forall in Hin, Hle |- *. intros r Hr.
    specialize (Hin r Hr). specialize (Hle r Hr). simpl in *. lia. }
  intros pads [Hpads Hcov]. constructor; simpl; try done.
  eapply covered_below_perm; [|exact Hcov]. by rewrite Hperm.
Qed.

(** * Writing *)

(** [f] rebuilds any buffer of the right size into the bytes of [ref]. *)
Lemma with_slice_agree R ref out a b f :
  agree R ref out -> 0 <= a <= b -> b <= len ref ->
  (forall o, length o = Z.to_nat (b - a) -> f o = Ok (sub ref a b)) ->
  exists out', with_slice out a b f = Ok out' /\ agree ((a, b) :: R) ref out'.
Proof.
  intros HA Hab Hb Hf. unfold with_slice.
  assert (len out = len ref) as Ho by (destruct HA; unfold len; congruence).
  rewrite slice_ok by lia. cbn [mbind res_bind]. rewrite Hf by (rewrite length_sub; lia).
  by apply agree_copy.
Qed.

Lemma write_table_agree {H} (parseH : list byte -> Result H) write size start bs hs R out :
  (forall b h o, parseH b = Ok h -> len b = size -> length o = length b -> write h o = Ok b) ->
  0 < size -> 0 <= start -> hs <> [] -> table_at parseH size start bs hs ->
  agree R bs out ->
  exists out', write_table write start size hs out = Ok out' /\
               agree ((start, start + len hs * size) :: R) bs out'.
Proof.
  intros Hrw Hsz Hst Hne [Hb Ht] HA. specialize (Hb Hne) as [Hb1 Hb2]. unfold write_table.
  destruct (foldM_invariant (fun done out => agree ((start, start + len done * size) :: R) bs out)
    (fun out '(i, h) => off ← usize_add start (i * size);
       fin ← usize_add off size; with_slice out off fin (write h))
    (zip (seqZ 0 (len hs)) hs) out) as (out' & -> & HA').
  - eapply agree_mono; [|exact HA]. intros i Hi. apply covered_cons in Hi as [?|?]; [|done].
    simpl in *. unfold len in *. simpl in *. lia.
  - intros done [i h] todo o Hz Ho. apply zip_seqZ_split in Hz as [-> Hh].
    pose proof (lookup_lt_Some _ _ _ Hh) as Hlt. specialize (Ht _ _ Hh). simpl in Ht.
    change (Z.of_nat (length done)) with (len done) in Ht.
    assert (len done + 1 <= len hs) as Hlt' by (unfold len; lia).
    pose proof (len_nonneg done).
    assert (len done * size + size <= len hs * size) as Hmul by nia.
    unfold usize_add. replace (start + len done * size <? 2 ^ 64) with true by nia.
    cbn [mbind res_bind].
    replace (start + len done * size + size <? 2 ^ 64) with true by lia. cbn [mbind res_bind].
    destruct (with_slice_agree _ _ _ (start + len done * size)
                (start + len done * size + size) (write h) Ho) as (o' & -> & Ho').
    + nia.
    + lia.
    + intros o' Hl. apply Hrw; [done|rewrite len_sub by nia; lia|].
      rewrite length_sub by nia. lia.
    + exists o'. split; [done|]. apply agree_join in Ho'.
      rewrite len_app. change (len [(len done, h)]) with 1.
      by replace (start + (len done + 1) * size) with (start + len done * size + size) by lia.
  - exists out'. split; [done|]. by rewrite len_zip_seqZ in HA'.
Qed.

(** Writing the contents of the sections covers their ranges. *)
Lemma write_sections_agree bs shs datas R out :
  Forall shdr_wf shs -> Forall2 (data_at bs) shs datas -> agree R bs out ->
  exists out',
    foldM write_section out (zip shs datas) = Ok out' /\
    agree (section_ranges shs ++ R) bs out'.
Proof.
  intros Hwf Hd. revert R out Hwf. induction Hd as [|s d shs datas Hsd _ IH];
    intros R out Hwf HA; simpl; [eauto|].
  apply Forall_cons in Hwf as [[? ?] Hwf]. unfold data_at in Hsd.
  unfold section_ranges. rewrite filter_cons. destruct (occupies_file s); simpl.
  - destruct Hsd as (? & ? & ->). unfold usize_add. rewrite len_sub by lia.
    replace (sh_offset s + (sh_offset s + sh_size s - sh_offset s))
      with (sh_offset s + sh_size s) by lia.
    replace (_ <? 2 ^ 64) with true by lia. cbn [mbind res_bind].
    destruct (agree_copy (E:=Error) R bs out (sh_offset s) (sh_offset s + sh_size s))
      as (o & -> & Ho); [done|lia..|]. cbn [mbind res_bind].
    destruct (IH _ o Hwf Ho) as (o' & -> & Ho'). exists o'. split; [done|].
    eapply agree_mono; [|exact Ho']. intros i.
    rewrite covered_cons, !covered_app, covered_cons. tauto.
  - destruct (IH _ out Hwf HA) as (o' & -> & Ho'). by exists o'.
Qed.

Lemma write_padding_agree bs pads R out :
  len bs < 2 ^ 64 -> Forall (pad_ok bs) pads -> agree R bs out ->
  exists out',
    foldM write_pad out pads = Ok out' /\
    agree ((pad_range <$> pads) ++ R) bs out'.
Proof.
  intros Hlen Hp. revert R out. induction Hp as [|[o b] pads Hb _ IH];
    intros R out HA; simpl; [eauto|].
  destruct Hb as (? & ? & Hb). simpl in *. pose proof (len_nonneg b).
  unfold usize_add. replace (_ <? 2 ^ 64) with true by lia. cbn [mbind res_bind].
  destruct (agree_copy (E:=Error) R bs out o (o + len b)) as (o1 & Ho1 & Ho); [done|lia..|].
  rewrite <- Hb in Ho1. rewrite Ho1.
  cbn [mbind res_bind]. destruct (IH _ o1 Ho) as (o' & -> & Ho'). exists o'. split; [done|].
  eapply agree_mono; [|exact Ho']. intros i.
  rewrite covered_cons, !covered_app, covered_cons. unfold pad_range at 1. simpl. tauto.
Qed.

Lemma claimed_covered c h (phs : list Phdr64) (shs : list Shdr64) i :
  len phs = e_phnum h -> len shs = e_shnum h -> covered (claimed c h shs) i ->
  covered (section_ranges shs ++
    (if decide (shs = []) then [] else [(e_shoff h, e_shoff h + len shs * shdr_size c)]) ++
    (if decide (phs = []) then [] else [(e_phoff h, e_phoff h + len phs * phdr_size c)]) ++
    [(0, ehdr_size c)]) i.
Proof.
  intros Hp Hs. unfold claimed. rewrite !covered_app, Hp, Hs.
  assert ((0 < e_phnum h) -> phs <> []) as Hp' by (intros ? ->; rewrite <- Hp in *; done).
  assert ((0 < e_shnum h) -> shs <> []) as Hs' by (intros ? ->; rewrite <- Hs in *; done).
  destruct (Z.ltb_spec 0 (e_phnum h)), (Z.ltb_spec 0 (e_shnum h));
    rewrite ?(decide_False (P := phs = [])), ?(decide_False (P := shs = [])) by auto;
    intros [?|[H1|[H1|?]]]; try (by apply covered_nil in H1); tauto.
Qed.

Lemma write_parsed bs f : len bs < 2 ^ 64 -> parsed bs f -> write_to_vec f = Ok bs.
Proof.
  intros Hlen [He Hw Hpn Hpt Hsn [Hst [Hsw Hsd]] Hpad Hcov Hsz].
  destruct Hw as (_ & _ & Hpo & Hso).
  pose proof (ehdr_parse_size _ _ _ He) as Hc.
  unfold write_to_vec. rewrite Hsz.
  assert (agree [] bs (replicate (Z.to_nat (len bs)) (byte_of 0))) as HA.
  { apply agree_nil. rewrite length_replicate. unfold len. lia. }
  destruct (with_slice_agree _ _ _ 0 (ehdr_size (class f)) (ehdr_write (ehdr f) (class f)) HA)
    as (o1 & -> & H1); [by destruct (class f)|done| |].
  { intros o Ho. rewrite Z.sub_0_r in Ho. by eapply ehdr_write_parse. }
  cbn [mbind res_bind]. clear HA.
  set (phr := if decide (phdrs f = []) then [] else
    [(e_phoff (ehdr f), e_phoff (ehdr f) + len (phdrs f) * phdr_size (class f))]).
  set (shr := if decide (shdrs f = []) then [] else
    [(e_shoff (ehdr f), e_shoff (ehdr f) + len (shdrs f) * shdr_size (class f))]).
  assert (exists o2, (if decide (phdrs f = []) then Ok o1
            else write_table (fun ph => phdr_write ph (class f)) (e_phoff (ehdr f))
                   (phdr_size (class f)) (phdrs f) o1) = Ok o2 /\
          agree (phr ++ [(0, ehdr_size (class f))]) bs o2) as (o2 & -> & H2).
  { subst phr. destruct (decide (phdrs f = [])); [eauto|].
    eapply write_table_agree; eauto; [|apply phdr_size_pos|lia].
    intros b h o ???. by eapply phdr_write_parse. }
  cbn [mbind res_bind]. clear H1.
  assert (exists o3, (if decide (shdrs f = []) then Ok o2
            else write_table (fun sh => shdr_write sh (class f)) (e_shoff (ehdr f))
                   (shdr_size (class f)) (shdrs f) o2) = Ok o3 /\
          agree (shr ++ phr ++ [(0, ehdr_size (class f))]) bs o3) as (o3 & -> & H3).
  { subst shr. destruct (decide (shdrs f = [])); [eauto|].
    eapply write_table_agree; eauto; [|apply shdr_size_pos|lia].
    intros b h o ???. by eapply shdr_write_parse. }
  cbn [mbind res_bind]. clear H2.
  destruct (write_sections_agree bs (shdrs f) (section_data f) _ o3 Hsw Hsd H3)
    as (o4 & -> & H4). cbn [mbind res_bind].
  destruct (write_padding_agree bs (padding f) _ o4 Hlen Hpad H4) as (o5 & -> & H5).
  f_equal. apply (agree_full _ _ _ H5). intros i Hi.
  assert (covered (claimed (class f) (ehdr f) (shdrs f) ++ (pad_range <$> padding f)) i) as Hci.
  { apply cover_count_covered. rewrite Hcov by lia. by replace (i <? len bs) with true by lia. }
  rewrite covered_app in *. destruct Hci as [Hci|?]; [right|by left].
  by apply claimed_covered.
Qed.

Definition parse_ok (bs : list byte) : bool :=
  match parse bs with Ok _ => true | _ => false end.

(** The identification checks, on a file long enough to hold them. *)
Lemma ehdr_parse_ident bs : 16 <= len bs ->
  exists c d, get bs 4 = Some c /\ get bs 5 = Some d /\
    take 4 bs = sub bs 0 4 /\
    ehdr_parse bs =
      (guard_err (negb (str_eqb (take 4 bs) ELFMAG)) (BadMagic (take 4 bs)) ;;
       guard_err (negb (u8 d =? ELFDATA2LSB)) (UnsupportedEncoding (u8 d)) ;;
       class ← (if u8 c =? ELFCLASS32 then Ok Elf32
                else if u8 c =? ELFCLASS64 then Ok Elf64
                else Err (UnsupportedClass (u8 c)));
       match class with
       | Elf32 => h ← ehdr_parse_32 bs (sub bs 0 EI_NIDENT); Ok (h, class)
       | Elf64 => h ← ehdr_parse_64 bs (sub bs 0 EI_NIDENT); Ok (h, class)
       end).
Proof.
  intros Hl. unfold len in Hl.
  destruct (lookup_lt_is_Some_2 bs 4) as [c Hc]; [lia|].
  destruct (lookup_lt_is_Some_2 bs 5) as [d Hd]; [lia|].
  exists c, d. split_and!; [done..|].
  unfold ehdr_parse, EI_NIDENT. replace (len bs <? 16) with false by (unfold len; lia).
  rewrite slice_ok by (unfold len; lia).
  change (guard_err false ?e) with (Ok (E:=Error) tt). cbn [mbind res_bind].
  rewrite slice_ok by (rewrite ?len_sub; unfold len; lia). cbn [mbind res_bind].
  rewrite sub_sub by lia.
  unfold index, get. rewrite !lookup_sub by lia. 
  change (Z.to_nat 0 + Z.to_nat 5)%nat with 5%nat.
  change (Z.to_nat 0 + Z.to_nat 4)%nat with 4%nat. rewrite Hc, Hd. done.
Qed.

Lemma parse_ok_ehdr bs : parse_ok bs = true -> exists hc, ehdr_parse bs = Ok hc.
Proof.
  unfold parse_ok, parse. destruct (ehdr_parse bs) as [hc| |]; [eauto|done..].
Qed.

Lemma ehdr_parse_len bs hc : ehdr_parse bs = Ok hc -> 16 <= len bs.
Proof.
  unfold ehdr_parse. intros H. res_inv H. apply guard_err_ok in Hx.
  unfold EI_NIDENT in *. lia.
Qed.

(** * Properties *)

(** A small ELF64 image: a header without tables, and four trailing bytes. *)
Definition tiny_elf : list byte :=
  byte_of <$> [127; 69; 76; 70; 2; 1; 1; 0; 0; 0; 0; 0; 0; 0; 0; 0;
               2; 0; 62; 0; 1; 0; 0; 0; 0; 0; 0; 0; 0; 0; 0; 0;
               0; 0; 0; 0; 0; 0; 0; 0; 0; 0; 0; 0; 0; 0; 0; 0;
               0; 0; 0; 0; 64; 0; 56; 0; 0; 0; 64; 0; 0; 0; 0; 0;
               222; 173; 190; 239].

(** An ELF32 image with one program header, one section and a gap before it. *)
Definition small_elf32 : list byte :=
  byte_of <$> [127; 69; 76; 70; 1; 1; 1; 0; 0; 0; 0; 0; 0; 0; 0; 0;
               2; 0; 3; 0; 1; 0; 0; 0; 0; 0; 0; 0; 52; 0; 0; 0;
               84; 0; 0; 0; 0; 0; 0; 0; 52; 0; 32; 0; 1; 0; 40; 0;
               1; 0; 0; 0;
               1; 0; 0; 0; 0; 0; 0; 0; 0; 0; 0; 0; 0; 0; 0; 0;
               128; 0; 0; 0; 128; 0; 0; 0; 5; 0; 0; 0; 0; 16; 0; 0;
               0; 0; 0; 0; 1; 0; 0; 0; 2; 0; 0; 0; 0; 0; 0; 0;
               126; 0; 0; 0; 4; 0; 0; 0; 0; 0; 0; 0; 0; 0; 0; 0;
               1; 0; 0; 0; 0; 0; 0; 0; 7; 7; 65; 66; 67; 68].

(** C1: reading an ELF file and writing it back gives the same bytes: whenever
    [Elf64File::parse] accepts a byte string, [write_to_vec] of the result
    succeeds without panicking and is byte-identical to the input, padding,
    headers of either class and section contents included. *)
Theorem elf_roundtrip bs f :
  len bs < 2 ^ 64 -> parse bs = Ok f -> write_to_vec f = Ok bs.
Proof.
  intros Hlen Hf. apply write_parsed; [done|]. exact (wp_ok _ _ _ (wp_parse bs) Hf).
Qed.

Lemma elf_roundtrip_witness :
  exists f, parse small_elf32 = Ok f /\ write_to_vec f = Ok small_elf32.
Proof.
  destruct (parse small_elf32) as [f| |] eqn:E; [|vm_compute in E; discriminate..].
  exists f. split; [reflexivity|]. apply (elf_roundtrip small_elf32 f); [reflexivity|exact E].
Defined.

(** C3: [Elf64File::parse] never panics: on every byte string it returns a
    file or one of the errors (every slice it takes and every sum it computes
    stays in range). *)
Theorem elf_parse_no_panic bs : parse bs <> Panic.
Proof. exact (wp_no_panic _ _ (wp_parse bs)). Qed.

(** C35: the regions of an accepted file and its padding partition it: every
    byte offset below the file size lies in exactly one of the file header,
    the header tables, the contents of the sections present in the file and
    the recorded padding, none of them reaches past the end, and the padding
    holds the file's own bytes. *)
Theorem elf_regions_partition bs f :
  parse bs = Ok f ->
  (forall i, 0 <= i -> cover_count (claimed (class f) (ehdr f) (shdrs f) ++
                         (pad_range <$> padding f)) i = if i <? len bs then 1%nat else 0%nat) /\
  Forall (pad_ok bs) (padding f).
Proof.
  intros Hf. destruct (wp_ok _ _ _ (wp_parse bs) Hf) as [? ? ? ? ? ? Hp Hc ?]. done.
Qed.

Lemma elf_regions_partition_witness :
  exists f, parse small_elf32 = Ok f /\
  (forall i, 0 <= i -> cover_count (claimed (class f) (ehdr f) (shdrs f) ++
        (pad_range <$> padding f)) i = if i <? len small_elf32 then 1%nat else 0%nat).
Proof.
  destruct (parse small_elf32) as [f| |] eqn:E; [|vm_compute in E; discriminate..].
  exists f. split; [reflexivity|]. exact (proj1 (elf_regions_partition small_elf32 f E)).
Defined.

(** C36: what [parse] returns are the file's own contents: as many program and
    section headers as the header announces, each one the parse of its table
    entry, and for every section present in the file the bytes at its offset
    (an empty slice for a section without file contents). *)
Theorem elf_parse_contents bs f :
  parse bs = Ok f ->
  len (phdrs f) = e_phnum (ehdr f) /\ len (shdrs f) = e_shnum (ehdr f) /\
  (forall i p, phdrs f !! i = Some p ->
     let off := e_phoff (ehdr f) + Z.of_nat i * phdr_size (class f) in
     phdr_parse (class f) (sub bs off (off + phdr_size (class f))) = Ok p) /\
  (forall i s, shdrs f !! i = Some s ->
     let off := e_shoff (ehdr f) + Z.of_nat i * shdr_size (class f) in
     shdr_parse (class f) (sub bs off (off + shdr_size (class f))) = Ok s /\
     section_data f !! i =
       Some (if occupies_file s then sub bs (sh_offset s) (sh_offset s + sh_size s) else [])).
Proof.
  intros Hf. destruct (wp_ok _ _ _ (wp_parse bs) Hf) as [? ? ? [_ Hp] ? [[_ Hs] [_ Hd]] ? ? ?].
  split_and!; [done..|]. intros i s Hi. split; [by apply Hs|].
  destruct (Forall2_lookup_l _ _ _ _ _ Hd Hi) as (d & -> & Hsd).
  unfold data_at in Hsd. destruct (occupies_file s); [by destruct Hsd as (_ & _ & ->)|by subst].
Qed.

Lemma elf_parse_contents_witness :
  exists f, parse small_elf32 = Ok f /\ len (phdrs f) = e_phnum (ehdr f).
Proof.
  destruct (parse small_elf32) as [f| |] eqn:E; [|vm_compute in E; discriminate..].
  exists f. split; [reflexivity|]. exact (proj1 (elf_parse_contents small_elf32 f E)).
Defined.

(** the format test agrees with the reader: a byte string [parse] accepts
    passes [is_elf] and [is_elf64_le], and one that is long enough to hold an
    identification but fails [is_elf64_le] is refused as a bad magic, an
    unsupported encoding or an unsupported class. *)
Theorem elf_gate_agrees bs :
  (parse_ok bs = true -> is_elf bs = true /\ is_elf64_le bs = true) /\
  (EI_NIDENT <= len bs -> is_elf64_le bs = false ->
   match parse bs with
   | Err (BadMagic _) | Err (UnsupportedEncoding _) | Err (UnsupportedClass _) => True
   | _ => False
   end).
Proof.
  split.
  - intros [hc Hh]%parse_ok_ehdr. pose proof (ehdr_parse_len _ _ Hh) as Hl.
    destruct (ehdr_parse_ident bs Hl) as (c & d & Hc & Hd & _ & E). rewrite E in Hh.
    unfold is_elf, is_elf64_le. rewrite Hc, Hd.
    destruct (str_eqb (take 4 bs) ELFMAG); [|discriminate Hh].
    destruct (u8 d =? ELFDATA2LSB); [|discriminate Hh].
    destruct (u8 c =? ELFCLASS32), (u8 c =? ELFCLASS64); try discriminate Hh;
      split; rewrite ?andb_true_iff; split_and!; try done; lia.
  - intros Hl Hg. destruct (ehdr_parse_ident bs Hl) as (c & d & Hc & Hd & _ & E).
    unfold parse. rewrite E. unfold is_elf64_le in Hg. rewrite Hc, Hd in Hg.
    replace (6 <=? len bs) with true in Hg by (unfold EI_NIDENT in Hl; lia).
    destruct (str_eqb (take 4 bs) ELFMAG); [|done].
    destruct (u8 d =? ELFDATA2LSB); [|done].
    destruct (u8 c =? ELFCLASS32), (u8 c =? ELFCLASS64); done.
Qed.

Lemma elf_gate_agrees_witness :
  is_elf64_le tiny_elf = true /\
  match parse (byte_of <$> seqZ 0 20) with Err (BadMagic _) => True | _ => False end.
Proof.
  split.
  - exact (proj2 (proj1 (elf_gate_agrees tiny_elf) ltac:(vm_compute; reflexivity))).
  - pose proof (proj2 (elf_gate_agrees (byte_of <$> seqZ 0 20))
        ltac:(apply Z.leb_le; reflexivity) ltac:(vm_compute; reflexivity)) as H.
    vm_compute in H |- *. exact H.
Defined.
