(* ===== verification/Bpf.v ===== *)
(** The eBPF / SBF decoder, lifter and formatter (src/src/arch/bpf/mod.rs). *)

From S2P Require Import Prelude Text Common Ir.

Definition INSN_SIZE : Z := 8.

Inductive BpfVariant : Type := Linux | Sbfv1 | Sbfv2.

Inductive Error : Type :=
| Misaligned (len : Z)
| LddwTruncated (offset : Z)
| LddwBadContinuation (offset opcode : Z).

Inductive InsnKind : Type :=
| Alu32 | Alu64 | Jmp | JmpCond | JmpCond32 | Call | CallReg | Exit
| Load | Store | Lddw | LddwSecondHalf | Endian | Unknown.

#[export] Instance InsnKind_eq_dec : EqDecision InsnKind.
Proof. solve_decision. Defined.

(** One decoded slot; [offset] and [imm] are signed, [opcode], [dst] and [src]
    are bytes. *)
Record DecodedInsn : Type := {
  i_addr : VAddr;
  i_bytes : list byte;
  kind : InsnKind;
  opcode : Z;
  dst : Z;
  src : Z;
  offset : Z;
  imm : Z;
  imm64 : option Z;
}.

#[export] Instance bpf_arch_insn : ArchInsn DecodedInsn :=
  {| addr := i_addr; original_bytes := i_bytes |}.

Definition raw_u64 (i : DecodedInsn) : Z := from_le (i_bytes i).

(** * Classification *)

Definition classify_jmp (opcode : Z) (variant : BpfVariant) : InsnKind :=
  let op := Z.shiftr opcode 4 in
  if op =? 0x0 then Jmp
  else if op =? 0x8 then
    if (opcode =? 0x8d) && match variant with Sbfv1 | Sbfv2 => true | Linux => false end
    then CallReg
    else if opcode =? 0x8d then Call
    else if opcode =? 0x85 then Call
    else JmpCond
  else if (op =? 0x9) && (opcode =? 0x95) then Exit
  else JmpCond.

Definition classify_jmp32 (opcode : Z) : InsnKind := JmpCond32.

Definition classify_opcode (opcode : Z) (variant : BpfVariant) : InsnKind :=
  let class := Z.land opcode 0x07 in
  if (class =? 0x00) || (class =? 0x01) then Load
  else if (class =? 0x02) || (class =? 0x03) then Store
  else if class =? 0x04 then
    if Z.shiftr opcode 4 =? 0xd then Endian else Alu32
  else if class =? 0x05 then classify_jmp opcode variant
  else if class =? 0x06 then classify_jmp32 opcode
  else if class =? 0x07 then
    if Z.shiftr opcode 4 =? 0xd then Endian else Alu64
  else Unknown.

Definition classify (insn : DecodedInsn) (variant : BpfVariant) : InsnKind :=
  classify_opcode (opcode insn) variant.

(** * Decoding *)

(** [raw[k]] on a slot, an array of fixed size. *)
Definition byte_at (raw : list byte) (k : nat) : Z := u8 (nth k raw Init.Byte.x00).

(** [i16::from_le_bytes([raw[2], raw[3]])] and [i32::from_le_bytes] of the
    bytes from 4. *)
Definition slot_offset (raw : list byte) : Z := sint 16 (from_le (sub raw 2 4)).
Definition slot_imm (raw : list byte) : Z := sint 32 (from_le (sub raw 4 8)).

(** The record built for a slot; the fields other than the address, the kind
    and the joined immediate are always read from the slot. *)
Definition mk_insn (addr : Z) (raw : list byte) (kind : InsnKind) (imm64 : option Z)
    : DecodedInsn :=
  {| i_addr := addr; i_bytes := raw; kind := kind;
     opcode := byte_at raw 0;
     dst := Z.land (byte_at raw 1) 0x0f;
     src := Z.land (Z.shiftr (byte_at raw 1) 4) 0x0f;
     offset := slot_offset raw; imm := slot_imm raw; imm64 := imm64 |}.

(** [u64::saturating_add]. *)
Definition saturating_add64 (a b : Z) : Z := Z.min (a + b) (2 ^ 64 - 1).

(** [while i < bytes.len()]: every iteration consumes a slot or two, so
    [length bytes] iterations are enough. *)
Fixpoint decode_loop (fuel : nat) (bytes : list byte) (start : Z) (variant : BpfVariant)
    (i : Z) (out : list DecodedInsn) : res Error (list DecodedInsn) :=
  if i <? len bytes then
    match fuel with
    | O => Panic
    | S fuel' =>
        raw ← slice bytes i (i + INSN_SIZE);
        let addr := saturating_add64 start i in
        if byte_at raw 0 =? 0x18 then
          paired ← (if i + 2 * INSN_SIZE <=? len bytes
                    then b ← index bytes (i + INSN_SIZE); Ok (u8 b =? 0)
                    else Ok false);
          if (paired : bool) then
            cont ← slice bytes (i + INSN_SIZE) (i + 2 * INSN_SIZE);
            let imm_hi := from_le (sub cont 4 8) in
            let imm_lo := wrap32 (slot_imm raw) in
            let imm64 := Z.lor (Z.shiftl imm_hi 32) imm_lo in
            let first := mk_insn addr raw Lddw (Some imm64) in
            let second :=
              {| i_addr := wrap64 (addr + INSN_SIZE); i_bytes := cont;
                 kind := LddwSecondHalf; opcode := 0;
                 dst := Z.land (byte_at cont 1) 0x0f;
                 src := Z.land (Z.shiftr (byte_at cont 1) 4) 0x0f;
                 offset := slot_offset cont; imm := slot_imm cont; imm64 := None |} in
            decode_loop fuel' bytes start variant (i + 2 * INSN_SIZE)
              (out ++ [first; second])
          else
            decode_loop fuel' bytes start variant (i + INSN_SIZE)
              (out ++ [mk_insn addr raw Unknown None])
        else
          decode_loop fuel' bytes start variant (i + INSN_SIZE)
            (out ++ [mk_insn addr raw (classify_opcode (byte_at raw 0) variant) None])
    end
  else Ok out.

Definition decode (bytes : list byte) (start : Z) (variant : BpfVariant)
    : res Error (list DecodedInsn) :=
  if negb (len bytes mod INSN_SIZE =? 0) then Err (Misaligned (len bytes))
  else decode_loop (length bytes) bytes start variant 0 [].

(** * Branch targets *)

Definition jump_target (insn : DecodedInsn) : Z :=
  let next_slot := wrap64 (i_addr insn + INSN_SIZE) in
  let off_bytes := offset insn * INSN_SIZE in
  wrap64 (next_slot + wrap64 off_bytes).

Definition call_target (insn : DecodedInsn) : Z :=
  let next_slot := wrap64 (i_addr insn + INSN_SIZE) in
  let off_bytes := imm insn * INSN_SIZE in
  wrap64 (next_slot + wrap64 off_bytes).

(** * Lifting *)

Definition block_terminator (insns : list DecodedInsn) : Terminator :=
  match last insns with
  | None => Fallthrough
  | Some l =>
      match kind l with
      | Exit => Return
      | Jmp => UnconditionalBranch (jump_target l)
      | JmpCond | JmpCond32 =>
          ConditionalBranch (jump_target l) (wrap64 (i_addr l + INSN_SIZE))
      | CallReg => IndirectBranch
      | _ => Fallthrough
      end
  end.

Definition is_jump (k : InsnKind) : bool :=
  match k with Jmp | JmpCond | JmpCond32 => true | _ => false end.
Definition is_flow_exit (k : InsnKind) : bool :=
  match k with Jmp | JmpCond | JmpCond32 | Exit => true | _ => false end.

(** The set of block boundaries of the stream. *)
Definition boundaries (insns : list DecodedInsn) (fn_start fn_end : Z) : gset Z :=
  fold_left (fun bs i =>
    let bs := if is_jump (kind i) then
                let t := jump_target i in
                if (fn_start <=? t) && (t <? fn_end) then {[t]} ∪ bs else bs
              else bs in
    if is_flow_exit (kind i) then
      let next := wrap64 (i_addr i + INSN_SIZE) in
      if next <? fn_end then {[next]} ∪ bs else bs
    else bs) insns {[fn_start]}.

(** The walk that cuts the stream into blocks. *)
Definition split_step (bnd : gset Z)
    (st : list (BasicBlock DecodedInsn) * list DecodedInsn * Z) (i : DecodedInsn)
    : list (BasicBlock DecodedInsn) * list DecodedInsn * Z :=
  let '(blocks, current, current_addr) := st in
  let '(blocks, current, current_addr) :=
    if bool_decide (i_addr i ∈ bnd) && bool_decide (current <> []) then
      (blocks ++ [{| bb_addr := current_addr; insns := current;
                     terminator := block_terminator current |}], [], i_addr i)
    else (blocks, current, current_addr) in
  (blocks, current ++ [i], current_addr).

Definition lift_function (name : list byte) (insns : list DecodedInsn)
    : Function DecodedInsn :=
  match insns with
  | [] => {| fn_addr := 0; fn_name := name; blocks := [] |}
  | first :: _ =>
      let fn_start := i_addr first in
      let fn_end := match last insns with
                    | Some i => wrap64 (i_addr i + INSN_SIZE)
                    | None => fn_start
                    end in
      let bnd := boundaries insns fn_start fn_end in
      let '(blocks, current, current_addr) :=
        fold_left (split_step bnd) insns ([], [], fn_start) in
      let blocks :=
        if bool_decide (current <> []) then
          blocks ++ [{| bb_addr := current_addr; insns := current;
                        terminator := block_terminator current |}]
        else blocks in
      {| fn_addr := fn_start; fn_name := name; blocks := blocks |}
  end.

(** * Text rendering *)

Definition size_letter (opcode : Z) : list byte :=
  let m := Z.land opcode 0x18 in
  if m =? 0x00 then str "w" else if m =? 0x08 then str "h"
  else if m =? 0x10 then str "b" else str "dw".

Definition format_offset (offset : Z) : list byte :=
  if offset =? 0 then []
  else if 0 <? offset then str " + 0x" ++ fmt_hex offset
  else str " - 0x" ++ fmt_hex (- offset).

Definition format_branch_offset (offset : Z) : list byte :=
  if 0 <=? offset then str "+0x" ++ fmt_hex offset
  else str "-0x" ++ fmt_hex (- offset).

(** [imm as u32] in hexadecimal. *)
Definition hex_imm (insn : DecodedInsn) : list byte := fmt_hex (wrap32 (imm insn)).

Definition format_ld (insn : DecodedInsn) : list byte :=
  if opcode insn =? 0x18 then
    let v := match imm64 insn with Some v => v | None => wrap32 (imm insn) end in
    str "lddw r" ++ fmt_dec (dst insn) ++ str ", 0x" ++ fmt_hex v
  else if opcode insn =? 0 then
    str "<lddw-cont 0x" ++ pad0 8 (hex_imm insn) ++ str ">"
  else if bool_decide (opcode insn ∈ [0x20; 0x28; 0x30; 0x38; 0x40; 0x48; 0x50]) then
    str "ld_abs_" ++ size_letter (opcode insn) ++ str " r0, 0x" ++ hex_imm insn
  else
    str "ldx" ++ size_letter (opcode insn) ++ str " r" ++ fmt_dec (dst insn)
    ++ str ", [r" ++ fmt_dec (src insn) ++ format_offset (offset insn) ++ str "]".

Definition format_st (insn : DecodedInsn) : list byte :=
  let sz := size_letter (opcode insn) in
  if Z.land (opcode insn) 0x07 =? 0x02
  then str "st" ++ sz ++ str " [r" ++ fmt_dec (dst insn) ++ format_offset (offset insn)
       ++ str "], 0x" ++ hex_imm insn
  else str "stx" ++ sz ++ str " [r" ++ fmt_dec (dst insn) ++ format_offset (offset insn)
       ++ str "], r" ++ fmt_dec (src insn).

Definition format_endian (insn : DecodedInsn) : list byte :=
  let dir := if Z.land (opcode insn) 0x08 =? 0 then str "le" else str "be" in
  dir ++ fmt_int (imm insn) ++ str " r" ++ fmt_dec (dst insn).

Definition alu_mnemonic (op_nibble : Z) (variant : BpfVariant) : list byte :=
  match op_nibble, variant with
  | 0x0, _ => str "add" | 0x1, _ => str "sub" | 0x2, _ => str "mul"
  | 0x3, (Linux | Sbfv1) => str "div" | 0x3, Sbfv2 => str "udiv"
  | 0x4, _ => str "or" | 0x5, _ => str "and" | 0x6, _ => str "lsh"
  | 0x7, _ => str "rsh" | 0x8, _ => str "neg"
  | 0x9, (Linux | Sbfv1) => str "mod" | 0x9, Sbfv2 => str "urem"
  | 0xa, _ => str "xor" | 0xb, _ => str "mov" | 0xc, _ => str "arsh"
  | 0xe, Sbfv2 => str "sdiv" | 0xf, Sbfv2 => str "srem"
  | _, _ => str "<alu?>"
  end.

Definition format_alu (insn : DecodedInsn) (alu64 : bool) (variant : BpfVariant)
    : list byte :=
  let is_reg := negb (Z.land (opcode insn) 0x08 =? 0) in
  let op_nibble := Z.shiftr (opcode insn) 4 in
  let suffix := if alu64 then str "64" else str "32" in
  if op_nibble =? 0xd then format_endian insn
  else if op_nibble =? 0x8 then str "neg" ++ suffix ++ str " r" ++ fmt_dec (dst insn)
  else
    let mnemonic := alu_mnemonic op_nibble variant in
    if is_reg
    then mnemonic ++ suffix ++ str " r" ++ fmt_dec (dst insn) ++ str ", r" ++ fmt_dec (src insn)
    else mnemonic ++ suffix ++ str " r" ++ fmt_dec (dst insn) ++ str ", 0x" ++ hex_imm insn.

Definition jmp_mnemonic (op : Z) : list byte :=
  match op with
  | 0x1 => str "jeq" | 0x2 => str "jgt" | 0x3 => str "jge" | 0x4 => str "jset"
  | 0x5 => str "jne" | 0x6 => str "jsgt" | 0x7 => str "jsge"
  | 0xa => str "jlt" | 0xb => str "jle" | 0xc => str "jslt" | 0xd => str "jsle"
  | _ => str "<jcc?>"
  end.

Definition format_jmp (insn : DecodedInsn) (is_32 : bool) : list byte :=
  let op := Z.shiftr (opcode insn) 4 in
  if (op =? 0) && negb is_32 && (opcode insn =? 0x05) then
    str "ja " ++ format_branch_offset (offset insn)
  else if opcode insn =? 0x85 then str "call 0x" ++ hex_imm insn
  else if opcode insn =? 0x8d then str "callx r" ++ fmt_dec (dst insn)
  else if opcode insn =? 0x95 then str "exit"
  else
    let is_reg := negb (Z.land (opcode insn) 0x08 =? 0) in
    let suffix := if is_32 then str "32" else [] in
    let rhs := if is_reg then str "r" ++ fmt_dec (src insn) else str "0x" ++ hex_imm insn in
    jmp_mnemonic op ++ suffix ++ str " r" ++ fmt_dec (dst insn) ++ str ", " ++ rhs
    ++ str ", " ++ format_branch_offset (offset insn).

Definition format_insn (insn : DecodedInsn) (variant : BpfVariant) : list byte :=
  match kind insn with
  | LddwSecondHalf => str "<lddw-cont 0x" ++ pad0 8 (hex_imm insn) ++ str ">"
  | _ =>
      let class := Z.land (opcode insn) 0x07 in
      if (class =? 0x00) || (class =? 0x01) then format_ld insn
      else if (class =? 0x02) || (class =? 0x03) then format_st insn
      else if class =? 0x04 then format_alu insn false variant
      else if class =? 0x05 then format_jmp insn false
      else if class =? 0x06 then format_jmp insn true
      else if class =? 0x07 then format_alu insn true variant
      else str "<bpf 0x" ++ pad0 16 (fmt_hex (raw_u64 insn)) ++ str ">"
  end.
