(* ===== verification/BpfDecode.v ===== *)
(** Correctness of the BPF decoder and of the control-flow graph the lifter
    builds. *)

From S2P Require Import Prelude Text Common Ir Bpf.

(** * What a decoded slot says *)

(** The kind of the [k]-th instruction of [l], decoded from [bs]. *)
Definition kind_ok (v : BpfVariant) (bs : list byte) (l : list DecodedInsn) (k : nat)
    (x : DecodedInsn) : Prop :=
  match kind x with
  | Lddw =>
      opcode x = 0x18 /\
      exists y, l !! S k = Some y /\ kind y = LddwSecondHalf /\
        imm64 x = Some (wrap32 (imm x) + 2 ^ 32 * wrap32 (imm y))
  | LddwSecondHalf =>
      opcode x = 0 /\ imm64 x = None /\
      exists k' y, k = S k' /\ l !! k' = Some y /\ kind y = Lddw
  | Unknown =>
      opcode x = 0x18 /\ imm64 x = None /\
      (8 * Z.of_nat k + 16 <= len bs -> byte_at (sub bs (8 * Z.of_nat k + 8) (8 * Z.of_nat k + 16)) 0 <> 0)
  | kd => opcode x <> 0x18 /\ kd = classify_opcode (opcode x) v /\ imm64 x = None
  end.

(** The [k]-th instruction carries the [k]-th slot, and its fields are the
    slot's. *)
Definition insn_ok (v : BpfVariant) (bs : list byte) (start : Z) (l : list DecodedInsn)
    (k : nat) (x : DecodedInsn) : Prop :=
  i_bytes x = sub bs (8 * Z.of_nat k) (8 * Z.of_nat k + 8) /\
  (0 <= start -> start + len bs <= 2 ^ 64 -> i_addr x = start + 8 * Z.of_nat k) /\
  opcode x = byte_at (i_bytes x) 0 /\
  dst x = byte_at (i_bytes x) 1 mod 16 /\ src x = byte_at (i_bytes x) 1 / 16 /\
  offset x = slot_offset (i_bytes x) /\ imm x = slot_imm (i_bytes x) /\
  kind_ok v bs l k x.

Definition decoded (v : BpfVariant) (bs : list byte) (start : Z) (l : list DecodedInsn) : Prop :=
  forall k x, l !! k = Some x -> insn_ok v bs start l k x.

(** * The decoder *)

Lemma land_low b n : 0 <= n -> Z.land b (Z.ones n) = b mod 2 ^ n.
Proof. intros. by apply Z.land_ones. Qed.

Lemma nibbles b : 0 <= b < 256 ->
  Z.land b 0x0f = b mod 16 /\ Z.land (Z.shiftr b 4) 0x0f = b / 16.
Proof.
  intros Hb. change 0x0f with (Z.ones 4). rewrite !Z.land_ones, Z.shiftr_div_pow2 by lia.
  split; [done|]. change (2 ^ 4) with 16. apply Z.mod_small. split.
  - apply Z.div_pos; lia.
  - apply Z.div_lt_upper_bound; lia.
Qed.

Lemma byte_at_range raw k : 0 <= byte_at raw k < 256.
Proof. apply u8_range. Qed.

Lemma classify_not_special o v : classify_opcode o v <> Unknown ->
  forall k : InsnKind, k = classify_opcode o v -> k <> Lddw /\ k <> LddwSecondHalf /\ k <> Unknown.
Proof.
  intros Hu k ->. split_and!; [| |done]; unfold classify_opcode, classify_jmp, classify_jmp32;
    repeat case_match; done.
Qed.

Lemma classify_known o v : 0 <= o -> classify_opcode o v <> Unknown.
Proof.
  intros Ho. unfold classify_opcode, classify_jmp, classify_jmp32.
  assert (0 <= Z.land o 7 < 8) as Hr.
  { change 7 with (Z.ones 3). rewrite Z.land_ones by lia. apply Z.mod_pos_bound. lia. }
  repeat case_match; try done. lia.
Qed.

Lemma kind_ok_app v bs l m k x : kind_ok v bs l k x -> kind_ok v bs (l ++ m) k x.
Proof.
  unfold kind_ok. destruct (kind x); try done.
  - intros [? (y & Hy & ?)]. split; [done|]. exists y. split; [|done].
    by apply lookup_app_l_Some.
  - intros (? & ? & k' & y & -> & Hy & ?). split_and!; [done..|]. exists k', y.
    split_and!; [done| |done]. by apply lookup_app_l_Some.
Qed.

Lemma decoded_app v bs start l m :
  decoded v bs start l ->
  (forall j x, m !! j = Some x -> insn_ok v bs start (l ++ m) (length l + j) x) ->
  decoded v bs start (l ++ m).
Proof.
  intros Hl Hm k x Hk. apply lookup_app_Some in Hk as [Hk|[Hle Hk]].
  - destruct (Hl k x Hk) as (?&?&?&?&?&?&?&?). unfold insn_ok. split_and!; auto.
    by apply kind_ok_app.
  - replace k with (length l + (k - length l))%nat by lia. by apply Hm.
Qed.

Lemma slot_imm_wrap raw : length raw = 8%nat -> wrap32 (slot_imm raw) = from_le (sub raw 4 8).
Proof.
  intros H. unfold slot_imm. apply wrap_sint; [lia|].
  apply (from_le_wrap 4); [|done]. rewrite length_sub; unfold len; lia.
Qed.

(** A slot decoded on its own. *)
Lemma mk_insn_ok v bs start l k kd im :
  8 * Z.of_nat k + 8 <= len bs ->
  let raw := sub bs (8 * Z.of_nat k) (8 * Z.of_nat k + 8) in
  let x := mk_insn (saturating_add64 start (8 * Z.of_nat k)) raw kd im in
  kind_ok v bs l k x -> insn_ok v bs start l k x.
Proof.
  intros Hk raw x Hkd. destruct (nibbles (byte_at raw 1) (byte_at_range raw 1)) as [Hd Hs].
  unfold insn_ok. split_and!; try done.
  intros. subst x. cbn [i_addr mk_insn]. unfold saturating_add64.
  lia.
Qed.

(** The two instructions of a well-formed [lddw]. *)
Definition lddw_pair (addr : Z) (raw cont : list byte) : list DecodedInsn :=
  [mk_insn addr raw Lddw
     (Some (Z.lor (Z.shiftl (from_le (sub cont 4 8)) 32) (wrap32 (slot_imm raw))));
   {| i_addr := wrap64 (addr + 8); i_bytes := cont; kind := LddwSecondHalf; opcode := 0;
      dst := Z.land (byte_at cont 1) 0x0f;
      src := Z.land (Z.shiftr (byte_at cont 1) 4) 0x0f;
      offset := slot_offset cont; imm := slot_imm cont; imm64 := None |}].

Lemma lddw_pair_ok v bs start out n : n = Z.of_nat (length out) ->
  let raw := sub bs (8 * n) (8 * n + 8) in
  let cont := sub bs (8 * n + 8) (8 * n + 16) in
  let l := out ++ lddw_pair (saturating_add64 start (8 * n)) raw cont in
  byte_at raw 0 = 0x18 -> byte_at cont 0 = 0 -> 8 * n + 16 <= len bs ->
  forall j x, lddw_pair (saturating_add64 start (8 * n)) raw cont !! j = Some x ->
    insn_ok v bs start l (length out + j) x.
Proof.
  intros Hn raw cont l Hraw Hcont Hlen. assert (0 <= n) as Hn0 by lia.
  assert (length cont = 8%nat) as Hlc by (unfold cont; rewrite length_sub by lia; lia).
  assert (forall j, l !! (length out + j)%nat =
            lddw_pair (saturating_add64 start (8 * n)) raw cont !! j) as Hl.
  { intros j. subst l. rewrite lookup_app_r by lia. f_equal. lia. }
  intros [|[|j]] x; [intros [= <-]|intros [= <-]|by destruct j].
  - rewrite Nat.add_0_r. unfold raw. rewrite Hn. apply mk_insn_ok; [lia|].
    rewrite <- Hn. fold raw. unfold kind_ok. cbn [kind opcode mk_insn imm imm64].
    split; [done|]. eexists. replace (S (length out)) with (length out + 1)%nat by lia.
    rewrite Hl. split; [done|]. split; [done|]. cbn [imm].
    rewrite lor_shiftl_add by (try apply wrap_range; lia).
    rewrite (slot_imm_wrap cont Hlc). f_equal. lia.
  - destruct (nibbles (byte_at cont 1) (byte_at_range cont 1)) as [Hd Hs].
    replace (8 * Z.of_nat (length out + 1)) with (8 * n + 8) in * by lia.
    unfold insn_ok. cbn [i_bytes i_addr opcode dst src offset imm].
    replace (8 * Z.of_nat (length out + 1)) with (8 * n + 8) in * by lia.
    split_and!; try done.
    + f_equal. lia.
    + intros. unfold saturating_add64, wrap. rewrite Z.mod_small by lia. lia.
    + unfold kind_ok. cbn [kind opcode imm64]. split_and!; [done..|].
      exists (length out). eexists. split; [lia|].
      rewrite <- (Nat.add_0_r (length out)), Hl. done.
Qed.

Lemma decode_loop_ok v bs start : len bs mod 8 = 0 ->
  forall fuel out, 8 * len out <= len bs -> len bs - 8 * len out <= 8 * Z.of_nat fuel ->
  decoded v bs start out ->
  exists l, decode_loop fuel bs start v (8 * len out) out = Ok l /\
            8 * len l = len bs /\ decoded v bs start l.
Proof.
  intros Hmod. induction fuel as [|fuel IH]; intros out Hle Hf Hout; cbn [decode_loop];
    destruct (Z.ltb_spec (8 * len out) (len bs)) as [Hlt|];
    try (exists out; split_and!; [done|lia|done]); [lia|].
  assert (exists q, len bs = 8 * q) as [q Hq].
  { exists (len bs / 8). pose proof (Z.div_mod (len bs) 8 ltac:(lia)). lia. }
  pose proof (len_nonneg out). unfold INSN_SIZE.
  assert (8 * len out + 8 <= len bs) as Hle8.
  { lia. }
  rewrite (slice_ok bs (8 * len out) (8 * len out + 8)) by lia. cbn [mbind res_bind].
  set (n := length out). change (len out) with (Z.of_nat n) in *.
  set (raw := sub bs (8 * Z.of_nat n) (8 * Z.of_nat n + 8)).
  assert (forall x, kind_ok v bs (out ++ [x]) n x ->
            (exists kd im, x = mk_insn (saturating_add64 start (8 * Z.of_nat n)) raw kd im) ->
            exists l, decode_loop fuel bs start v (8 * Z.of_nat n + 8) (out ++ [x]) = Ok l /\
                      8 * len l = len bs /\ decoded v bs start l) as Hone.
  { intros x Hx (kd & im & ->). replace (8 * Z.of_nat n + 8) with (8 * len (out ++ [mk_insn (saturating_add64 start (8 * Z.of_nat n)) raw kd im]))
      by (rewrite len_app; change (len out) with (Z.of_nat n); unfold len; simpl; lia).
    apply IH; rewrite ?len_app; change (len out) with (Z.of_nat n); unfold len in *; simpl length; [lia..|].
    apply decoded_app; [done|]. intros j y Hj.
    apply list_lookup_singleton_Some in Hj as [-> <-]. rewrite Nat.add_0_r. apply mk_insn_ok; [unfold len; lia|done]. }
  destruct (Z.eqb_spec (byte_at raw 0) 0x18) as [Hop|Hop]; cycle 1.
  { apply Hone; [|eauto]. pose proof (byte_at_range raw 0) as Hr.
    pose proof (classify_known (byte_at raw 0) v ltac:(lia)) as Hu.
    destruct (classify_not_special _ _ Hu _ eq_refl) as (?&?&?).
    unfold kind_ok. simpl. destruct (classify_opcode (byte_at raw 0) v) eqn:E; done. }
  set (cont := sub bs (8 * Z.of_nat n + 8) (8 * Z.of_nat n + 16)) in *.
  destruct (Z.leb_spec (8 * Z.of_nat n + 2 * 8) (len bs)) as [H2|H2]; cycle 1.
  { cbn [mbind res_bind]. apply Hone; [|eauto]. unfold kind_ok. simpl. split_and!; [done..|lia]. }
  assert (byte_at cont 0 = u8 (nth 0 cont Init.Byte.x00)) as Hc0 by done.
  assert (index (E:=Error) bs (8 * Z.of_nat n + 8) = Ok (nth 0 cont Init.Byte.x00)) as Hidx.
  { unfold index, get. replace (0 <=? 8 * Z.of_nat n + 8) with true by lia.
    destruct (lookup_lt_is_Some_2 bs (Z.to_nat (8 * Z.of_nat n + 8))) as [b Hb];
      [unfold len in *; lia|]. rewrite Hb. simpl. f_equal.
    assert (cont !! 0%nat = Some b) as Hcb.
    { subst cont. rewrite lookup_sub by lia. by rewrite Nat.add_0_r. }
    by destruct cont; simplify_eq/=. }
  rewrite Hidx. cbn [mbind res_bind]. rewrite <- Hc0.
  destruct (Z.eqb_spec (byte_at cont 0) 0) as [Hz|Hz]; cycle 1.
  { apply Hone; [|eauto]. unfold kind_ok. simpl. split_and!; done. }
  rewrite slice_ok by lia. cbn [mbind res_bind].
  replace (8 * Z.of_nat n + 2 * 8) with (8 * Z.of_nat n + 16) by lia. fold cont.
  match goal with |- context [out ++ ?p] =>
    change p with (lddw_pair (saturating_add64 start (8 * Z.of_nat n)) raw cont) end.
  match goal with |- context [out ++ ?p] =>
    replace (8 * Z.of_nat n + 16) with (8 * len (out ++ p))
      by (rewrite len_app; change (len out) with (Z.of_nat n); unfold len; simpl; lia) end.
  apply IH; rewrite ?len_app; change (len out) with (Z.of_nat n); unfold len in *; simpl length; [lia..|].
  apply decoded_app; [done|]. by apply lddw_pair_ok.
Qed.

Lemma decode_ok v bs start : len bs mod 8 = 0 ->
  exists l, decode bs start v = Ok l /\ 8 * len l = len bs /\ decoded v bs start l.
Proof.
  intros Hm. unfold decode, INSN_SIZE. rewrite Hm. simpl negb. cbv iota.
  apply (decode_loop_ok v bs start Hm (length bs) []).
  - unfold len at 1. simpl. apply len_nonneg.
  - unfold len. simpl. lia.
  - intros k x Hk. by rewrite lookup_nil in Hk.
Qed.

Lemma decode_misaligned v bs start : len bs mod 8 <> 0 ->
  decode bs start v = Err (Misaligned (len bs)).
Proof.
  intros Hm. unfold decode, INSN_SIZE. by replace (len bs mod 8 =? 0) with false by lia.
Qed.

(** A list whose [k]-th instruction carries the [k]-th slot carries the whole
    stream. *)
Lemma decoded_concat v bs start l :
  8 * len l = len bs -> decoded v bs start l -> concat_bytes l = bs.
Proof.
  intros Hlen Hd. rewrite <- (sub_full bs), <- Hlen.
  assert (forall n, (n <= length l)%nat ->
    concat_bytes (take n l) = sub bs 0 (8 * Z.of_nat n)) as G.
  { induction n as [|n IH]; intros Hn; [by rewrite take_0|].
    destruct (lookup_lt_is_Some_2 l n) as [x Hx]; [lia|].
    rewrite (take_S_r _ _ _ Hx), concat_bytes_app, IH by lia.
    destruct (Hd n x Hx) as (Hb & _). cbn [concat_bytes map List.concat original_bytes bpf_arch_insn].
    unfold concat_bytes. simpl. rewrite app_nil_r, Hb, sub_app by lia. f_equal. lia. }
  specialize (G (length l) ltac:(lia)). by rewrite take_ge in G.
Qed.

#[export] Instance bpf_decoder (v : BpfVariant) : Decoder DecodedInsn Error.
Proof.
  refine {| dec := fun bs start => decode bs start v |}.
  intros bs start l H. destruct (decide (len bs mod 8 = 0)) as [Hm|Hm].
  - destruct (decode_ok v bs start Hm) as (l' & E & Hl & Hd). rewrite E in H. simplify_eq.
    by eapply decoded_concat.
  - by rewrite decode_misaligned in H.
Defined.

(** * The lifter *)

(** Blocks cut out of a stream: none is empty, a block's address and
    terminator are those of its own instructions, its first instruction is at
    a boundary and no other is. *)
Definition block_ok (bnd : gset Z) (b : BasicBlock DecodedInsn) : Prop :=
  terminator b = block_terminator (insns b) /\
  exists i rest, insns b = i :: rest /\ bb_addr b = i_addr i /\ i_addr i ∈ bnd /\
    Forall (fun j => i_addr j ∉ bnd) rest.

Definition cut_ok (bnd : gset Z) (fn_start : Z) (done : list DecodedInsn)
    (st : list (BasicBlock DecodedInsn) * list DecodedInsn * Z) : Prop :=
  let '(blocks, current, current_addr) := st in
  List.concat (map insns blocks) ++ current = done /\
  Forall (block_ok bnd) blocks /\ current_addr ∈ bnd /\
  match current with
  | [] => blocks = [] /\ current_addr = fn_start
  | i :: rest => current_addr = i_addr i /\ Forall (fun j => i_addr j ∉ bnd) rest
  end.

Lemma split_step_ok bnd fn_start done st i :
  (done = [] -> fn_start = i_addr i) ->
  cut_ok bnd fn_start done st -> cut_ok bnd fn_start (done ++ [i]) (split_step bnd st i).
Proof.
  destruct st as [[blocks current] ca]. intros Hfirst (Hc & Hb & Hca & Hcur). unfold split_step.
  destruct current as [|c rest].
  - rewrite (bool_decide_false ([] <> [])), andb_false_r by (by intros Hne; apply Hne). cbn beta iota.
    destruct Hcur as [-> ->]. simpl in Hc. subst done. do 3 (split; [done|]).
    split; [by apply Hfirst|done].
  - rewrite (bool_decide_true (c :: rest <> [])), andb_true_r by done. destruct Hcur as [-> Hr].
    case_bool_decide as Hi; cbn beta iota.
    + split; [|split; [|by split_and!]].
      * rewrite map_app, List.concat_app. simpl. rewrite app_nil_r. by rewrite Hc.
      * apply Forall_app_2, Forall_singleton; [done|]. split; [done|].
        exists c, rest. simpl. tauto.
    + split; [rewrite (assoc_L (++)); by rewrite Hc|]. do 2 (split; [done|]).
      simpl. split; [done|]. apply Forall_app_2; [done|]. by apply Forall_singleton.
Qed.

Lemma fold_split_ok bnd fn_start todo : forall done st,
  (done = [] -> match todo with i :: _ => fn_start = i_addr i | [] => True end) ->
  cut_ok bnd fn_start done st ->
  cut_ok bnd fn_start (done ++ todo) (fold_left (split_step bnd) todo st).
Proof.
  induction todo as [|i todo IH]; intros done st Hf Hst; simpl; [by rewrite app_nil_r|].
  replace (done ++ i :: todo) with ((done ++ [i]) ++ todo) by (by rewrite <- (assoc_L (++))).
  apply IH; [by destruct done|]. by apply split_step_ok.
Qed.

(** The instructions that jump, and those that end a block. *)
Definition jumps : list InsnKind := [Jmp; JmpCond; JmpCond32].
Definition leaving : list InsnKind := [Jmp; JmpCond; JmpCond32; Exit].

(** The address [k] slots after the slot that follows [i]. *)
Definition slot_at (i : DecodedInsn) (k : Z) : Z := wrap64 (i_addr i + 8 * (1 + k)).

Lemma is_jump_elem k : is_jump k = true <-> k ∈ jumps.
Proof. unfold jumps. destruct k; cbn; set_solver. Qed.

Lemma is_flow_exit_elem k : is_flow_exit k = true <-> k ∈ leaving.
Proof. unfold leaving. destruct k; cbn; set_solver. Qed.

Lemma jump_target_slot i : jump_target i = slot_at i (offset i).
Proof.
  unfold jump_target, slot_at, INSN_SIZE, wrap. rewrite <- Zplus_mod. f_equal. lia.
Qed.

Lemma slot_at_0 i : slot_at i 0 = wrap64 (i_addr i + 8).
Proof. done. Qed.

Lemma elem_add_if (c d : bool) (u t : Z) (bs : gset Z) :
  t ∈ (if c then if d then {[u]} ∪ bs else bs else bs) <->
  t ∈ bs \/ (c = true /\ t = u /\ d = true).
Proof. destruct c, d; set_solver. Qed.

(** Membership in the boundary set. *)
Lemma elem_of_boundaries l a b t :
  t ∈ boundaries l a b <->
  t = a \/
  (exists i, i ∈ l /\ kind i ∈ jumps /\ t = slot_at i (offset i) /\ a <= t < b) \/
  (exists i, i ∈ l /\ kind i ∈ leaving /\ t = slot_at i 0 /\ t < b).
Proof.
  setoid_rewrite <- is_jump_elem. setoid_rewrite <- is_flow_exit_elem.
  setoid_rewrite <- jump_target_slot. setoid_rewrite slot_at_0.
  unfold boundaries. set (f := fun bs i => _).
  assert (forall l bs, t ∈ fold_left f l bs <-> t ∈ bs \/
    (exists i, i ∈ l /\ is_jump (kind i) = true /\ t = jump_target i /\ a <= t < b) \/
    (exists i, i ∈ l /\ is_flow_exit (kind i) = true /\ t = wrap64 (i_addr i + 8) /\ t < b)) as G.
  { clear l. induction l as [|i l IH]; intros bs; simpl.
    - split; [by left|]. intros [?|[(i & Hi & _)|(i & Hi & _)]]; [done|by apply elem_of_nil in Hi..].
    - rewrite IH. setoid_rewrite elem_of_cons.
      assert (t ∈ f bs i <-> t ∈ bs \/
        (is_jump (kind i) = true /\ t = jump_target i /\ a <= t < b) \/
        (is_flow_exit (kind i) = true /\ t = wrap64 (i_addr i + 8) /\ t < b)) as Hf.
      { unfold f, INSN_SIZE. rewrite !elem_add_if, andb_true_iff, Z.leb_le, !Z.ltb_lt.
        clear. split.
        - intros [[?|(-> & ? & ?)]|(-> & ? & ?)]; auto 6 with lia.
        - intros [?|[(? & -> & ? & ?)|(? & -> & ?)]]; auto 7. }
      rewrite Hf. clear. split.
      + intros [[?|[?|?]]|[(j & ? & ?)|(j & ? & ?)]]; [by left|right; left; exists i; tauto|
          right; right; exists i; auto|right; left; exists j; tauto|right; right; exists j; tauto].
      + intros [?|[(j & [->|?] & ?)|(j & [->|?] & ?)]]; eauto 10. }
  rewrite G, elem_of_singleton. done.
Qed.

(** The boundary set of a stream. *)
Definition stream_bounds (l : list DecodedInsn) : gset Z :=
  match l with
  | [] => ∅
  | first :: _ =>
      boundaries l (i_addr first)
        match last l with Some i => wrap64 (i_addr i + INSN_SIZE) | None => i_addr first end
  end.

Lemma lift_ok name l :
  all_insns (lift_function name l) = l /\
  Forall (block_ok (stream_bounds l)) (blocks (lift_function name l)).
Proof.
  destruct l as [|first rest]; [by split|].
  unfold lift_function, all_insns, stream_bounds.
  match goal with |- context [boundaries ?l ?a ?b] => set (bnd := boundaries l a b) end.
  assert (cut_ok bnd (i_addr first) (first :: rest)
            (fold_left (split_step bnd) (first :: rest) ([], [], i_addr first))) as H.
  { apply (fold_split_ok bnd (i_addr first) (first :: rest) []); [done|]. split_and!; try done.
    apply elem_of_boundaries. by left. }
  destruct (fold_left (split_step bnd) (first :: rest) ([], [], i_addr first))
    as [[bl current] ca]. destruct H as (Hc & Hb & Hca & Hcur). cbn [blocks].
  destruct current as [|c cr].
  - rewrite bool_decide_false by (by intros Hne; apply Hne). rewrite app_nil_r in Hc. done.
  - rewrite bool_decide_true by done. split.
    + rewrite map_app, List.concat_app. cbn [map List.concat insns]. by rewrite app_nil_r.
    + apply Forall_app_2, Forall_singleton; [done|]. split; [done|].
      exists c, cr. simpl. destruct Hcur as [-> Hr]. by split_and!.
Qed.

#[export] Instance bpf_lifter : Lifter DecodedInsn :=
  {| lift := lift_function; lift_view := fun name l => proj1 (lift_ok name l) |}.

(** The stream's addresses. *)
Definition consecutive (start : Z) (l : list DecodedInsn) : Prop :=
  0 <= start /\ start + 8 * len l < 2 ^ 64 /\
  forall k x, l !! k = Some x -> i_addr x = start + 8 * Z.of_nat k.

Lemma stream_bounds_consecutive start l : consecutive start l -> l <> [] ->
  stream_bounds l = boundaries l start (start + 8 * len l).
Proof.
  intros (Hs & Hb & Ha) Hne. destruct l as [|first rest]; [done|].
  unfold stream_bounds. rewrite (Ha 0%nat first eq_refl).
  replace (start + 8 * Z.of_nat 0) with start by lia. f_equal.
  destruct (last (first :: rest)) as [z|] eqn:E; [|by apply last_None in E].
  rewrite last_lookup in E. rewrite (Ha _ _ E). unfold INSN_SIZE, len in *. simpl length in *.
  unfold wrap. rewrite Z.mod_small by lia. lia.
Qed.

(** Where a piece of the stream sits. *)
Lemma block_in_stream (bl : list (BasicBlock DecodedInsn)) b :
  b ∈ bl -> exists A B, List.concat (map insns bl) = A ++ insns b ++ B.
Proof.
  intros Hb. apply list_elem_of_split in Hb as (l1 & l2 & ->).
  exists (List.concat (map insns l1)), (List.concat (map insns l2)).
  rewrite map_app, List.concat_app. done.
Qed.

(** How the instruction [z] leaves the block it ends. *)
Definition leads (z : DecodedInsn) : Terminator :=
  match kind z with
  | Exit => Return
  | Jmp => UnconditionalBranch (slot_at z (offset z))
  | JmpCond | JmpCond32 => ConditionalBranch (slot_at z (offset z)) (slot_at z 0)
  | CallReg => IndirectBranch
  | _ => Fallthrough
  end.

(** Inside a block only the last instruction can leave it, jumps enter a block
    only at its first instruction, and a block starts only where it has to: at
    the start of the stream, at the target of a jump, or after an instruction
    that ends a block. *)
Definition block_wf (l : list DecodedInsn) (b : BasicBlock DecodedInsn) : Prop :=
  (exists body z, insns b = body ++ [z] /\ terminator b = leads z /\
     Forall (fun j => kind j ∉ leaving) body) /\
  (exists i, head (insns b) = Some i /\ bb_addr b = i_addr i /\
     (head l = Some i \/ exists j, j ∈ l /\
        ((kind j ∈ jumps /\ i_addr i = slot_at j (offset j)) \/
         (kind j ∈ leaving /\ i_addr i = slot_at j 0)))) /\
  forall j i, j ∈ l -> kind j ∈ jumps -> i ∈ tail (insns b) -> slot_at j (offset j) <> i_addr i.

Lemma block_terminator_last body z : block_terminator (body ++ [z]) = leads z.
Proof.
  unfold block_terminator, leads. rewrite last_snoc.
  destruct (kind z); rewrite ?jump_target_slot; reflexivity.
Qed.

Lemma block_wf_ok start l b A B :
  consecutive start l -> l = A ++ insns b ++ B -> block_ok (stream_bounds l) b ->
  block_wf l b.
Proof.
  intros Hc Hl [Ht (i & rest & Hi & Ha & Hin & Hr)].
  assert (l <> []) as Hne by (rewrite Hl, Hi; by destruct A).
  rewrite (stream_bounds_consecutive start) in Hr, Hin by done.
  destruct Hc as (Hs & Hb & Hadr).
  assert (forall p x, insns b !! p = Some x -> l !! (length A + p)%nat = Some x) as Hpos.
  { intros p x Hp. rewrite Hl, lookup_app_r by lia.
    replace (length A + p - length A)%nat with p by lia.
    rewrite lookup_app_l; [done|]. by eapply lookup_lt_Some. }
  assert (forall p x, insns b !! p = Some x ->
            i_addr x = start + 8 * (len A + Z.of_nat p) /\ len A + Z.of_nat p < len l) as Hat.
  { intros p x Hp%Hpos. rewrite (Hadr _ _ Hp). apply lookup_lt_Some in Hp. unfold len. lia. }
  assert (0 <= len A) by (unfold len; lia).
  split_and!.
  - destruct (exists_last (l := insns b)) as (body & z & Hz); [by rewrite Hi|].
    exists body, z. split; [done|]. split; [by rewrite Ht, Hz, block_terminator_last|].
    apply Forall_lookup. intros p x Hp Hx.
    assert (insns b !! p = Some x) as Hbp by (rewrite Hz; by apply lookup_app_l_Some).
    destruct (lookup_lt_is_Some_2 (insns b) (S p)) as [y Hy].
    { rewrite Hz, length_app. simpl. apply lookup_lt_Some in Hp. lia. }
    pose proof (Hat _ _ Hbp). pose proof (Hat _ _ Hy). pose proof (Hpos _ _ Hbp) as Hxl.
    rewrite Hi in Hy. simpl in Hy. rewrite Forall_lookup in Hr. apply (Hr p y Hy).
    apply elem_of_boundaries. right; right. exists x. rewrite slot_at_0.
    split_and!; [by eapply list_elem_of_lookup_2|done| |lia].
    unfold wrap. rewrite Z.mod_small; lia.
  - exists i. split; [by rewrite Hi|]. split; [done|].
    apply elem_of_boundaries in Hin as [Hin|[(j & ? & ? & ? & _)|(j & ? & ? & ? & _)]];
      [left|right; exists j; split; [done|]; by left|right; exists j; split; [done|]; by right].
    assert (insns b !! 0%nat = Some i) as Hbp by (by rewrite Hi).
    pose proof (Hat _ _ Hbp) as [? _]. apply Hpos in Hbp.
    replace (length A + 0)%nat with 0%nat in Hbp by (unfold len in *; lia).
    by destruct l; simplify_eq/=.
  - intros j y Hj Hjk Hy Htgt. rewrite Hi in Hy. simpl in Hy.
    apply list_elem_of_lookup in Hy as [p Hp].
    pose proof (Hat (S p) y ltac:(by rewrite Hi)).
    rewrite Forall_lookup in Hr. apply (Hr p y Hp).
    apply elem_of_boundaries. right; left. exists j. split_and!; [done..|lia|lia].
Qed.

Lemma decoded_consecutive v bs start l :
  0 <= start -> start + len bs < 2 ^ 64 -> 8 * len l = len bs -> decoded v bs start l ->
  consecutive start l.
Proof.
  intros Hs Hb Hl Hd. split; [done|]. split; [lia|]. intros k x Hk.
  destruct (Hd k x Hk) as (_ & Ha & _). apply Ha; lia.
Qed.

(** * Properties *)

(** A loop: [mov64 r0, 0x1]; [lddw r1, …] (two slots); [jeq r0, 0x0, +0x1];
    [ja -0x2]; [exit]. *)
Definition bpf_sample : list byte :=
  byte_of <$> [0xb7; 0; 0; 0; 1; 0; 0; 0;
               0x18; 1; 0; 0; 0x78; 0x56; 0x34; 0x12;
               0; 0; 0; 0; 0xf0; 0xde; 0xbc; 0x9a;
               0x15; 0; 1; 0; 0; 0; 0; 0;
               0x05; 0; 0xfe; 0xff; 0; 0; 0; 0;
               0x95; 0; 0; 0; 0; 0; 0; 0].

(** C9: the BPF decoder is total on slot-aligned input and exact: a stream
    whose length is a multiple of 8 decodes, without panicking and within the
    loop bound, to one instruction per slot; the instruction bytes are the
    stream cut in slots, in order and at consecutive addresses, every field is
    the one its slot encodes, a pair of [lddw] slots (and only such a pair) is
    joined into one 64-bit immediate, and every other slot gets the kind its
    opcode has. Any other length is refused as misaligned. *)
Theorem bpf_decode_exact bs start v :
  (len bs mod INSN_SIZE = 0 ->
   exists l, decode bs start v = Ok l /\ INSN_SIZE * len l = len bs /\
     concat_bytes l = bs /\ forall k x, l !! k = Some x -> insn_ok v bs start l k x) /\
  (len bs mod INSN_SIZE <> 0 -> decode bs start v = Err (Misaligned (len bs))).
Proof.
  split; [|apply decode_misaligned]. intros Hm.
  destruct (decode_ok v bs start Hm) as (l & E & Hl & Hd).
  exists l. split_and!; [done|done| |exact Hd]. by eapply decoded_concat.
Qed.

Lemma bpf_decode_exact_witness :
  (exists l, decode bpf_sample 0x1000 Linux = Ok l /\ INSN_SIZE * len l = len bpf_sample /\
     concat_bytes l = bpf_sample /\
     forall k x, l !! k = Some x -> insn_ok Linux bpf_sample 0x1000 l k x) /\
  decode (take 5 bpf_sample) 0 Sbfv2 = Err (Misaligned 5).
Proof.
  split.
  - apply (proj1 (bpf_decode_exact bpf_sample 0x1000 Linux)). reflexivity.
  - apply (proj2 (bpf_decode_exact (take 5 bpf_sample) 0 Sbfv2)). vm_compute. discriminate.
Defined.

(** C10: the control-flow graph the BPF lifter builds from a decoded stream is
    well formed and minimal: the blocks, read in order, are the stream; no
    block is empty and each one carries the address of its first instruction; a
    jump or an [exit] only ever ends a block, whose terminator names the slots
    its last instruction leads to; no jump of the function goes to the middle
    of a block; and a block starts only at the start of the stream, at the
    target of a jump, or after a jump or an [exit]. *)
Theorem bpf_cfg_well_formed bs start v l name :
  0 <= start -> start + len bs < 2 ^ 64 -> decode bs start v = Ok l ->
  all_insns (lift_function name l) = l /\
  Forall (block_wf l) (blocks (lift_function name l)).
Proof.
  intros Hs Hb Hdec. destruct (lift_ok name l) as [Hall Hbl]. split; [done|].
  assert (consecutive start l) as Hc.
  { destruct (decide (len bs mod 8 = 0)) as [Hm|Hm].
    - destruct (decode_ok v bs start Hm) as (l' & E & Hl & Hd).
      rewrite E in Hdec. simplify_eq. by eapply decoded_consecutive.
    - by rewrite decode_misaligned in Hdec. }
  apply Forall_forall. intros b Hb'.
  destruct (block_in_stream _ _ Hb') as (A & B & HAB). unfold all_insns in Hall.
  rewrite Hall in HAB. rewrite Forall_forall in Hbl. eapply block_wf_ok; eauto.
Qed.

Lemma bpf_cfg_well_formed_witness :
  exists l, decode bpf_sample 0x1000 Linux = Ok l /\
    length (blocks (lift_function (str "f") l)) = 4%nat /\
    Forall (block_wf l) (blocks (lift_function (str "f") l)).
Proof.
  destruct (decode bpf_sample 0x1000 Linux) as [l| |] eqn:E; [|vm_compute in E; discriminate..].
  exists l. split; [reflexivity|]. split.
  - vm_compute in E. injection E as <-. vm_compute. reflexivity.
  - apply (proj2 (bpf_cfg_well_formed bpf_sample 0x1000 Linux l (str "f")
              ltac:(lia) ltac:(reflexivity) E)).
Defined.

(** C11: byte identity of the BPF pipeline: lifting what the decoder returned
    and emitting the function gives the input bytes back, whatever the
    variant, the load address and the name. *)
Theorem bpf_lift_emit_identity bs start v l name :
  decode bs start v = Ok l -> emit_bytes (lift_function name l) = bs.
Proof. exact (lifted_emit_bytes (Decoder0 := bpf_decoder v) bs start l name). Qed.

Lemma bpf_lift_emit_identity_witness :
  exists l, decode bpf_sample 0x1000 Linux = Ok l /\
    emit_bytes (lift_function (str "f") l) = bpf_sample.
Proof.
  destruct (decode bpf_sample 0x1000 Linux) as [l| |] eqn:E; [|vm_compute in E; discriminate..].
  exists l. split; [reflexivity|].
  exact (bpf_lift_emit_identity bpf_sample 0x1000 Linux l (str "f") E).
Defined.

(** The [lddw] second half is not protected from being split off its first
    half: a jump into it makes it a block of its own. *)
Definition split_lddw : list byte :=
  byte_of <$> [0x18; 1; 0; 0; 1; 0; 0; 0;
               0; 0; 0; 0; 2; 0; 0; 0;
               0x15; 0; 0xfe; 0xff; 0; 0; 0; 0].

Example lddw_pair_can_be_split :
  match decode split_lddw 0 Linux with
  | Ok l => map (fun b => (bb_addr b, map kind (insns b))) (blocks (lift_function [] l))
  | _ => []
  end = [(0, [Lddw]); (8, [LddwSecondHalf; JmpCond])].
Proof. vm_compute. reflexivity. Qed.
