(* ===== verification/BpfAsm.v ===== *)
(** The BPF assembler and the rewriting of symbolic texts to the numeric forms
    it accepts (src/src/arch/bpf/assemble.rs). A [&str] is its bytes; an
    overflow of a checked addition or negation is a [Panic]. *)

From S2P Require Import Prelude Text Common Ir Bpf.

Inductive AssembleError : Type :=
| Empty
| UnknownMnemonic (m : list byte)
| BadOperand (t ctx : list byte)
| WrongArity (mnemonic : list byte) (expected got : Z)
| ImmediateOverflow (value bits : Z)
| OffsetOverflow (v : Z)
| BadRegister (n : Z)
| NotRecognised.

Abbreviation AResult := (res AssembleError).

(** [matches!(s, "a" | "b" | ...)]. *)
Definition one_of (s : list byte) (l : list (list byte)) : bool := existsb (str_eqb s) l.

(** [text.contains(p)]. *)
Definition contains (p s : list byte) : bool :=
  match find p s with Some _ => true | None => false end.

(** * Operands *)

Definition lbracket : Z := 91.
Definition rbracket : Z := 93.
Definition comma : Z := 44.

(** One byte of the loop of [split_operands]; the state is [(out, depth, start)]. *)
Definition split_at (rest : list byte) (st : list (list byte) * Z * Z) (x : Z * byte)
    : list (list byte) * Z * Z :=
  let '(out, depth, start) := st in
  let '(i, b) := x in
  if u8 b =? lbracket then (out, depth + 1, start)
  else if u8 b =? rbracket then (out, depth - 1, start)
  else if (u8 b =? comma) && (depth =? 0) then
    (out ++ [trim (sub rest start i)], depth, i + 1)
  else (out, depth, start).

Definition split_operands (rest : list byte) : list (list byte) :=
  match rest with
  | [] => []
  | _ =>
      let '(out, _, start) :=
        fold_left (split_at rest) (zip (seqZ 0 (len rest)) rest) ([], 0, 0) in
      out ++ [trim (sub rest start (len rest))]
  end.

Definition arity (operands : list (list byte)) (expected : Z) (mnemonic : list byte)
    : AResult unit :=
  if len operands =? expected then Ok tt
  else Err (WrongArity mnemonic expected (len operands)).

Definition parse_reg (text : list byte) : AResult Z :=
  let t := trim text in
  rest ← ok_or (strip_prefix (str "r") t) (BadOperand t (str "register"));
  n ← ok_or (parse_unsigned 10 32 rest) (BadOperand t (str "register number"));
  if 10 <? n then Err (BadRegister n) else Ok n.

Definition parse_uint (text ctx : list byte) : AResult Z :=
  let t := trim text in
  match strip_prefix (str "0x") t with
  | Some hex => ok_or (parse_unsigned 16 64 hex) (BadOperand t ctx)
  | None => ok_or (parse_unsigned 10 64 t) (BadOperand t ctx)
  end.

Definition parse_int (text ctx : list byte) : AResult Z :=
  v ← parse_uint text ctx;
  if 2 ^ 32 - 1 <? v then Err (ImmediateOverflow v 32)
  else Ok (sint 32 (wrap32 v)).

Definition parse_int_signed (text ctx : list byte) : AResult Z :=
  let t := trim text in
  match strip_prefix (str "-") t with
  | Some rest =>
      v ← parse_uint rest ctx;
      if 0x80000000 <? v then Err (ImmediateOverflow v 32)
      else Ok (sint 32 (wrap32 (- v)))
  | None => parse_int t ctx
  end.

(** [(is_reg, src, imm)]. *)
Definition parse_alu_rhs (text : list byte) : AResult (bool * Z * Z) :=
  let t := trim text in
  if starts_with (str "r") t then r ← parse_reg t; Ok (true, r, 0)
  else imm ← parse_int t (str "alu rhs"); Ok (false, 0, imm).

Definition parse_offset_value (text : list byte) : AResult Z :=
  let t := trim text in
  match strip_prefix (str "0x") t with
  | Some hex =>
      v ← ok_or (parse_unsigned 16 64 hex) (BadOperand t (str "offset"));
      Ok (sint 64 v)
  | None => ok_or (parse_signed 64 t) (BadOperand t (str "offset"))
  end.

(** [i16::try_from(v)] with the overflow error, and [-v] on an [i64]. *)
Definition to_i16 (v : Z) : AResult Z :=
  if (- 2 ^ 15 <=? v) && (v <? 2 ^ 15) then Ok v else Err (OffsetOverflow v).
Definition neg_i64 (v : Z) : AResult Z := if v =? - 2 ^ 63 then Panic else Ok (- v).

Definition parse_mem (text : list byte) : AResult (Z * Z) :=
  let t := trim text in
  inner ← ok_or (s ← strip_prefix (str "[") t; strip_suffix (str "]") s)
                (BadOperand t (str "memory operand"));
  let inner := trim inner in
  match rfind (str " + ") inner with
  | Some idx =>
      reg ← parse_reg (trim (take idx inner));
      off ← parse_offset_value (drop (idx + 3) inner);
      off_i16 ← to_i16 off;
      Ok (reg, off_i16)
  | None =>
      match rfind (str " - ") inner with
      | Some idx =>
          reg ← parse_reg (trim (take idx inner));
          off ← parse_offset_value (drop (idx + 3) inner);
          neg ← neg_i64 off;
          off_i16 ← to_i16 neg;
          Ok (reg, off_i16)
      | None => reg ← parse_reg inner; Ok (reg, 0)
      end
  end.

Definition parse_branch_offset (text : list byte) : AResult Z :=
  let t := trim text in
  sr ← match strip_prefix (str "+") t with
       | Some r => Ok (1, r)
       | None => match strip_prefix (str "-") t with
                 | Some r => Ok (-1, r)
                 | None => Err (BadOperand t (str "branch offset"))
                 end
       end;
  let '(sign, rest) := sr in
  v ← match strip_prefix (str "0x") rest with
      | Some hex => ok_or (parse_unsigned 16 64 hex) (BadOperand t (str "branch offset"))
      | None => ok_or (parse_unsigned 10 64 rest) (BadOperand t (str "branch offset"))
      end;
  signed ← (if sign =? -1 then neg_i64 (sint 64 v) else Ok (sint 64 v));
  to_i16 signed.

(** * Encoders *)

Definition encode_slot (opcode dst src offset imm : Z) : list byte :=
  [byte_of opcode; byte_of (Z.lor (Z.land dst 0x0f) (Z.shiftl (Z.land src 0x0f) 4))]
  ++ to_le 2 offset ++ to_le 4 imm.

Definition assemble_lddw (operands : list (list byte)) : AResult (list byte) :=
  arity operands 2 (str "lddw") ;;
  o0 ← index operands 0; dst ← parse_reg o0;
  o1 ← index operands 1; imm64 ← parse_uint o1 (str "lddw");
  let low := sint 32 (wrap32 imm64) in
  Ok (encode_slot 0x18 dst 0 0 low).

Definition BPF_MODE_MEM : Z := 0x60.

Definition size_letter_to_bits (suffix : list byte) : Z :=
  if str_eqb suffix (str "h") then 0x08
  else if str_eqb suffix (str "b") then 0x10
  else if str_eqb suffix (str "dw") then 0x18
  else 0x00.

Definition assemble_ldx (mnemonic : list byte) (operands : list (list byte))
    : AResult (list byte) :=
  arity operands 2 mnemonic ;;
  o0 ← index operands 0; dst ← parse_reg o0;
  o1 ← index operands 1; so ← parse_mem o1;
  let '(src, offset) := so in
  let size_bits := size_letter_to_bits (drop 3 mnemonic) in
  let opcode := Z.lor (Z.lor BPF_MODE_MEM size_bits) 0x01 in
  Ok (encode_slot opcode dst src offset 0).

Definition assemble_st (mnemonic : list byte) (operands : list (list byte))
    : AResult (list byte) :=
  arity operands 2 mnemonic ;;
  o0 ← index operands 0; d ← parse_mem o0;
  let '(dst, offset) := d in
  o1 ← index operands 1; imm ← parse_int o1 (str "st");
  let size_bits := size_letter_to_bits (drop 2 mnemonic) in
  let opcode := Z.lor (Z.lor BPF_MODE_MEM size_bits) 0x02 in
  Ok (encode_slot opcode dst 0 offset imm).

Definition assemble_stx (mnemonic : list byte) (operands : list (list byte))
    : AResult (list byte) :=
  arity operands 2 mnemonic ;;
  o0 ← index operands 0; d ← parse_mem o0;
  let '(dst, offset) := d in
  o1 ← index operands 1; src ← parse_reg o1;
  let size_bits := size_letter_to_bits (drop 3 mnemonic) in
  let opcode := Z.lor (Z.lor BPF_MODE_MEM size_bits) 0x03 in
  Ok (encode_slot opcode dst src offset 0).

Definition assemble_endian (mnemonic : list byte) (operands : list (list byte))
    : AResult (list byte) :=
  arity operands 1 mnemonic ;;
  o0 ← index operands 0; dst ← parse_reg o0;
  opcode ← (if str_eqb (take 2 mnemonic) (str "le") then Ok 0xd4
            else if str_eqb (take 2 mnemonic) (str "be") then Ok 0xdc
            else Err (UnknownMnemonic mnemonic));
  width ← (if str_eqb (drop 2 mnemonic) (str "16") then Ok 16
           else if str_eqb (drop 2 mnemonic) (str "32") then Ok 32
           else if str_eqb (drop 2 mnemonic) (str "64") then Ok 64
           else Err (UnknownMnemonic mnemonic));
  Ok (encode_slot opcode dst 0 0 width).

Definition assemble_ja (operands : list (list byte)) : AResult (list byte) :=
  arity operands 1 (str "ja") ;;
  o0 ← index operands 0; off ← parse_branch_offset o0;
  Ok (encode_slot 0x05 0 0 off 0).

Definition assemble_call (operands : list (list byte)) (src : Z) : AResult (list byte) :=
  arity operands 1 (str "call") ;;
  o0 ← index operands 0; imm ← parse_int_signed o0 (str "call");
  Ok (encode_slot 0x85 0 src 0 imm).

Definition assemble_call_local (operands : list (list byte)) : AResult (list byte) :=
  arity operands 1 (str "call_local") ;;
  o0 ← index operands 0; imm ← parse_int_signed o0 (str "call_local");
  Ok (encode_slot 0x8d 0 0 0 imm).

Definition assemble_callx (operands : list (list byte)) : AResult (list byte) :=
  arity operands 1 (str "callx") ;;
  o0 ← index operands 0; dst ← parse_reg o0;
  Ok (encode_slot 0x8d dst 0 0 0).

(** [match s { "a" => x, ..., _ => None }] as a table. *)
Definition lookup_str {A} (s : list byte) (table : list (list byte * A)) : option A :=
  snd <$> List.find (fun e => str_eqb s e.1) table.

Definition alu_op_nibble (base : list byte) : option Z :=
  lookup_str base
    [(str "add", 0x0); (str "sub", 0x1); (str "mul", 0x2); (str "div", 0x3);
     (str "udiv", 0x3); (str "or", 0x4); (str "and", 0x5); (str "lsh", 0x6);
     (str "rsh", 0x7); (str "neg", 0x8); (str "mod", 0x9); (str "urem", 0x9);
     (str "xor", 0xa); (str "mov", 0xb); (str "arsh", 0xc); (str "sdiv", 0xe);
     (str "srem", 0xf)].

Definition jmp_op_nibble (base : list byte) : option Z :=
  lookup_str base
    [(str "jeq", 0x1); (str "jgt", 0x2); (str "jge", 0x3); (str "jset", 0x4);
     (str "jne", 0x5); (str "jsgt", 0x6); (str "jsge", 0x7); (str "jlt", 0xa);
     (str "jle", 0xb); (str "jslt", 0xc); (str "jsle", 0xd)].

Definition assemble_jmp (op_nibble : Z) (is_32 : bool) (operands : list (list byte))
    : AResult (list byte) :=
  guard_err (negb (len operands =? 3)) (WrongArity (str "jcc") 3 (len operands)) ;;
  o0 ← index operands 0; dst ← parse_reg o0;
  o1 ← index operands 1; rhs ← parse_alu_rhs o1;
  let '(is_reg, src, imm) := rhs in
  o2 ← index operands 2; off ← parse_branch_offset o2;
  let src_bit := if (is_reg : bool) then 0x08 else 0x00 in
  let class := if is_32 then 0x06 else 0x05 in
  let opcode := Z.lor (Z.lor (wrap8 (Z.shiftl op_nibble 4)) src_bit) class in
  Ok (encode_slot opcode dst src off imm).

Definition assemble_alu_or_jmp (mnemonic : list byte) (operands : list (list byte))
    : AResult (list byte) :=
  let '(base, alu64, jmp32) :=
    match strip_suffix (str "64") mnemonic with
    | Some b => (b, true, false)
    | None => match strip_suffix (str "32") mnemonic with
              | Some b => (b, false, true)
              | None => (mnemonic, false, false)
              end
    end in
  match jmp_op_nibble base with
  | Some op_nibble => assemble_jmp op_nibble jmp32 operands
  | None =>
      op_nibble ← ok_or (alu_op_nibble base) (UnknownMnemonic mnemonic);
      let alu_class := if (alu64 : bool) then 0x07 else 0x04 in
      if op_nibble =? 0x8 then
        arity operands 1 mnemonic ;;
        o0 ← index operands 0; dst ← parse_reg o0;
        let opcode := Z.lor (wrap8 (Z.shiftl op_nibble 4)) alu_class in
        Ok (encode_slot opcode dst 0 0 0)
      else
        arity operands 2 mnemonic ;;
        o0 ← index operands 0; dst ← parse_reg o0;
        o1 ← index operands 1; rhs ← parse_alu_rhs o1;
        let '(is_reg, src, imm) := rhs in
        let src_bit := if (is_reg : bool) then 0x08 else 0x00 in
        let opcode := Z.lor (Z.lor (wrap8 (Z.shiftl op_nibble 4)) src_bit) alu_class in
        Ok (encode_slot opcode dst src 0 imm)
  end.

Definition assemble_mnemonic (mnemonic : list byte) (operands : list (list byte))
    : AResult (list byte) :=
  if str_eqb mnemonic (str "lddw") then assemble_lddw operands
  else if one_of mnemonic [str "ldxw"; str "ldxh"; str "ldxb"; str "ldxdw"]
  then assemble_ldx mnemonic operands
  else if one_of mnemonic [str "stw"; str "sth"; str "stb"; str "stdw"]
  then assemble_st mnemonic operands
  else if one_of mnemonic [str "stxw"; str "stxh"; str "stxb"; str "stxdw"]
  then assemble_stx mnemonic operands
  else if one_of mnemonic [str "le16"; str "le32"; str "le64"; str "be16"; str "be32"; str "be64"]
  then assemble_endian mnemonic operands
  else if str_eqb mnemonic (str "ja") then assemble_ja operands
  else if str_eqb mnemonic (str "call") then assemble_call operands 0
  else if str_eqb mnemonic (str "call_internal") then assemble_call operands 1
  else if str_eqb mnemonic (str "call_local") then assemble_call_local operands
  else if str_eqb mnemonic (str "callx") then assemble_callx operands
  else assemble_alu_or_jmp mnemonic operands.

Definition assemble_bpf (text : list byte) : AResult (list byte) :=
  let text := trim text in
  match text with
  | [] => Err Empty
  | _ =>
      match strip_prefix (str "<bpf 0x") text with
      | Some rest =>
          hex ← ok_or (strip_suffix (str ">") rest) NotRecognised;
          v ← ok_or (parse_unsigned 16 64 hex) NotRecognised;
          Ok (to_le 8 v)
      | None =>
          match strip_prefix (str "<lddw-cont 0x") text with
          | Some rest =>
              hex ← ok_or (strip_suffix (str ">") rest) NotRecognised;
              high ← ok_or (parse_unsigned 16 32 hex) NotRecognised;
              Ok (encode_slot 0x00 0 0 0 (sint 32 high))
          | None =>
              if str_eqb text (str "exit") then Ok (encode_slot 0x95 0 0 0 0)
              else
                let '(mnemonic, rest) :=
                  match find_ws text with
                  | Some i => (take i text, trim (drop i text))
                  | None => (text, [])
                  end in
                assemble_mnemonic mnemonic (split_operands rest)
          end
      end
  end.

(** * Framing jumps of structured blocks *)

(** [format!("+0x{:x}")] / [format!("-0x{:x}", -i32::from(..))]. *)
Definition offset_text (slot_offset : Z) : list byte :=
  if 0 <=? slot_offset then str "+0x" ++ fmt_hex slot_offset
  else str "-0x" ++ fmt_hex (- slot_offset).

Definition find_top_level_op (cond op : list byte) : option nat := find op cond.

(** The scan for the first operator of [ops] that occurs in [cond]. *)
Fixpoint split_at_op (cond : list byte) (ops : list (list byte))
    : option (list byte * list byte * list byte) :=
  match ops with
  | [] => None
  | op :: ops' =>
      match find_top_level_op cond op with
      | Some at_ => Some (trim (take at_ cond), op, trim (drop (at_ + length op) cond))
      | None => split_at_op cond ops'
      end
  end.

Definition parse_ifblock_cond (cond : list byte)
    : AResult (list byte * list byte * list byte) :=
  let cond := trim cond in
  if starts_with (str "(") cond then Err NotRecognised
  else match split_at_op cond [str "!="; str "=="; str "<="; str ">="] with
       | Some r => Ok r
       | None => ok_or (split_at_op cond [str "<"; str ">"]) NotRecognised
       end.

Definition assemble_bpf_ifblock_cond (cond_text : list byte) (slot_offset : Z)
    : AResult (list byte) :=
  p ← parse_ifblock_cond cond_text;
  let '(lhs, op, rhs) := p in
  mnemonic ← ok_or (lookup_str op
      [(str "!=", str "jeq"); (str "==", str "jne"); (str "<=", str "jgt");
       (str "<", str "jge"); (str ">=", str "jlt"); (str ">", str "jle")])
    (UnknownMnemonic op);
  assemble_bpf (mnemonic ++ str " " ++ lhs ++ str ", " ++ rhs ++ str ", "
                ++ offset_text slot_offset).

Definition assemble_bpf_ja (slot_offset : Z) : AResult (list byte) :=
  assemble_bpf (str "ja " ++ offset_text slot_offset).

(** * Symbolic texts *)

(** Signed slot distance from the instruction after [insn_addr] to [target]. *)
Definition slot_offset_from (target insn_addr : Z) : option Z :=
  let next_slot := wrap64 (insn_addr + INSN_SIZE) in
  let delta := sint 64 (wrap64 (sint 64 target - sint 64 next_slot)) in
  if negb (Z.rem delta INSN_SIZE =? 0) then None
  else Some (Z.quot delta INSN_SIZE).

Definition is_ascii_digit (b : byte) : bool := (48 <=? u8 b) && (u8 b <=? 57).

Definition is_symbolic_callee (name : list byte) : bool :=
  match trim name with
  | [] => false
  | first :: _ as name =>
      if starts_with (str "0x") name || starts_with (str "0X") name then false
      else if starts_with (str "sub_") name then false
      else if is_ascii_digit first then false
      else negb (contains (str ",") name)
  end.

(** [u64::from_str_radix(rest.trim(), 16).ok()]. *)
Definition parse_hex64 (s : list byte) : option Z := parse_unsigned 16 64 (trim s).

(** [while let Some(at) = rest.find(prefix)]: each turn drops the prefix, so
    the length of the text bounds the iterations. *)
Fixpoint rewrite_stack_slot_loop (fuel : nat) (rest prefix replacement out : list byte)
    : list byte :=
  match find prefix rest with
  | None => out ++ rest
  | Some at_ =>
      match fuel with
      | O => out ++ rest
      | S fuel' =>
          let after := drop (at_ + length prefix) rest in
          match find (str "]") after with
          | Some close =>
              rewrite_stack_slot_loop fuel' (drop (close + 1) after) prefix replacement
                (out ++ take at_ rest ++ replacement ++ take close after ++ str "]")
          | None => out ++ take at_ rest ++ drop at_ rest
          end
      end
  end.

Definition rewrite_stack_slot (text prefix replacement : list byte) : list byte :=
  rewrite_stack_slot_loop (length text) text prefix replacement [].

(** The rewriting of a trailing [label_<hex>]. *)
Definition desymbolize_label (text : list byte) (insn_addr : Z) (label_at : nat)
    : option (list byte) :=
  let is_comma := match text !! label_at with Some b => u8 b =? comma | None => false end in
  let prefix := take label_at text in
  let label_name := drop (label_at + (if is_comma then 2 else 1)) text in
  hex ← strip_prefix (str "label_") label_name;
  target ← parse_hex64 hex;
  slot_offset ← slot_offset_from target insn_addr;
  Some (prefix ++ (if is_comma then str ", " else str " ") ++ offset_text slot_offset).

Definition desymbolize_lddw (text : list byte) : option (list byte) :=
  rest ← strip_prefix (str "lddw ") text;
  at_ ← find (str " @0x") rest;
  let head_with_reg := take at_ rest in
  let imm_text := drop (at_ + 4) rest in
  comma_at ← find (str ",") head_with_reg;
  Some (str "lddw " ++ trim (take comma_at head_with_reg) ++ str ", 0x" ++ trim imm_text).

Definition desymbolize_stack (text : list byte) : list byte :=
  let s := text in
  let s := if contains (str "[local_") s
           then rewrite_stack_slot s (str "[local_") (str "[r10 - 0x") else s in
  if contains (str "[arg_") s
  then rewrite_stack_slot s (str "[arg_") (str "[r10 + 0x") else s.

(** [x.or_else(y)]. *)
Definition or_else {A} (x y : option A) : option A :=
  match x with Some _ => x | None => y end.

Definition desymbolize_bpf_text (text : list byte) (insn_addr : Z) (opcode_hint : option Z)
    : option (list byte) :=
  match strip_prefix (str "call_local sub_") text with
  | Some rest =>
      target ← parse_hex64 rest;
      slots ← slot_offset_from target insn_addr;
      Some (str "call_local " ++ fmt_int slots)
  | None =>
  match strip_prefix (str "call sub_") text with
  | Some rest =>
      target ← parse_hex64 rest;
      slots ← slot_offset_from target insn_addr;
      let mnemonic := match opcode_hint with
                      | Some o => if o =? 0x8d then str "call_local" else str "call_internal"
                      | None => str "call_internal"
                      end in
      Some (mnemonic ++ str " " ++ fmt_int slots)
  | None =>
  if match strip_prefix (str "call ") text with
     | Some name => is_symbolic_callee name | None => false end
  then Some (str "call_internal -1")
  else if match strip_prefix (str "call_local ") text with
          | Some name => is_symbolic_callee name | None => false end
  then Some (str "call_local -1")
  else match or_else (find (str ", label_") text) (find (str " label_") text) with
       | Some label_at => desymbolize_label text insn_addr label_at
       | None => match desymbolize_lddw text with
                 | Some r => Some r
                 | None => Some (desymbolize_stack text)
                 end
       end
  end end.
