(* ===== verification/BpfRoundTrip.v ===== *)
(** The BPF text layer: assembling what the formatter prints gives the slot
    back, and symbolic branch targets resolve to the offset they came from. *)

From S2P Require Import Prelude Text Common Ir Bpf BpfDecode BpfAsm.

(** * Splitting operands *)

(** The bracket depth after [s], unless a comma occurs outside brackets. *)
Fixpoint scan (d : Z) (s : list byte) : option Z :=
  match s with
  | [] => Some d
  | b :: s' =>
      if u8 b =? lbracket then scan (d + 1) s'
      else if u8 b =? rbracket then scan (d - 1) s'
      else if (u8 b =? comma) && (d =? 0) then None
      else scan d s'
  end.

Definition plain (b : byte) : bool :=
  negb ((u8 b =? lbracket) || (u8 b =? rbracket) || (u8 b =? comma)).

Lemma scan_app d a b : scan d (a ++ b) = (d' ← scan d a; scan d' b).
Proof.
  revert d. induction a as [|c a IH]; intros d; [done|]. cbn [app scan].
  repeat case_match; try done; apply IH.
Qed.

Lemma scan_plain d s : Forall (fun b => plain b = true) s -> scan d s = Some d.
Proof.
  induction 1 as [|b s Hb _ IH]; [done|]. unfold plain in Hb. cbn [scan].
  destruct (u8 b =? lbracket), (u8 b =? rbracket), (u8 b =? comma); done.
Qed.

Lemma seqZ_cons_len {A} k (x : A) l : seqZ k (len (x :: l)) = k :: seqZ (k + 1) (len l).
Proof.
  rewrite seqZ_cons by (unfold len; simpl; lia). f_equal.
  f_equal; unfold len; simpl length; lia.
Qed.

Lemma fold_scan rest s : forall k out d start d', scan d s = Some d' ->
  fold_left (split_at rest) (zip (seqZ k (len s)) s) (out, d, start) = (out, d', start).
Proof.
  induction s as [|b s IH]; intros k out d start d' H; [by simplify_eq/=|].
  rewrite seqZ_cons_len. cbn [zip_with fold_left scan split_at] in *.
  destruct (u8 b =? lbracket); [by apply IH|].
  destruct (u8 b =? rbracket); [by apply IH|].
  destruct ((u8 b =? comma) && (d =? 0)); [done|by apply IH].
Qed.

Lemma zip_seqZ_app {A} k (a b : list A) :
  zip (seqZ k (len (a ++ b))) (a ++ b) =
  zip (seqZ k (len a)) a ++ zip (seqZ (k + len a) (len b)) b.
Proof.
  rewrite len_app, seqZ_app by apply len_nonneg. apply zip_with_app.
  rewrite length_seqZ. unfold len. lia.
Qed.

Fixpoint join_comma (segs : list (list byte)) : list byte :=
  match segs with
  | [] => []
  | [s] => s
  | s :: segs' => s ++ str "," ++ join_comma segs'
  end.

Lemma split_join rest : forall segs pre out, rest = pre ++ join_comma segs -> segs <> [] ->
  Forall (fun s => scan 0 s = Some 0) segs ->
  let '(o, _, st) :=
    fold_left (split_at rest) (zip (seqZ (len pre) (len (join_comma segs))) (join_comma segs))
      (out, 0, len pre) in
  o ++ [trim (sub rest st (len rest))] = out ++ map trim segs.
Proof.
  induction segs as [|s segs IH]; intros pre out Hr Hne Hs; [done|].
  apply Forall_cons in Hs as [Hs Hss]. destruct segs as [|s2 segs].
  - cbn [join_comma] in *. rewrite (fold_scan _ _ _ _ _ _ 0 Hs). cbn [map]. do 3 f_equal.
    rewrite Hr, len_app. unfold sub, len. rewrite Nat2Z.id, drop_app_length.
    apply take_ge. lia.
  - change (join_comma (s :: s2 :: segs)) with (s ++ str "," ++ join_comma (s2 :: segs)) in *.
    set (tl := join_comma (s2 :: segs)) in *.
    rewrite !zip_seqZ_app, !fold_left_app, (fold_scan _ _ _ _ _ _ 0 Hs).
    change (zip (seqZ (len pre + len s) (len (str ","))) (str ",")) with
      [(len pre + len s, byte_of comma)].
    change (fold_left (split_at rest) [(len pre + len s, byte_of comma)] (out, 0, len pre))
      with (out ++ [trim (sub rest (len pre) (len pre + len s))], 0, len pre + len s + 1).
    assert (sub rest (len pre) (len pre + len s) = s) as ->.
    { rewrite Hr. unfold sub, len. rewrite Nat2Z.id, drop_app_length.
      replace (Z.to_nat (Z.of_nat (length pre) + Z.of_nat (length s) - Z.of_nat (length pre)))
        with (length s) by lia. apply take_app_length. }
    replace (len pre + len s + len (str ",")) with (len (pre ++ s ++ str ","))
      by (rewrite !len_app; lia).
    replace (len pre + len s + 1) with (len (pre ++ s ++ str ",")) by (rewrite !len_app; change (len (str ",")) with 1; lia).
    specialize (IH (pre ++ s ++ str ",") (out ++ [trim s])).
    change (join_comma (s2 :: segs)) with tl in IH.
    destruct (fold_left _ _ _) as [[o d] st]. rewrite IH; [|by rewrite Hr, <- !(assoc_L (++))|done|done].
    by rewrite <- (assoc_L (++)).
Qed.

Lemma split_operands_join segs : segs <> [] -> join_comma segs <> [] ->
  Forall (fun s => scan 0 s = Some 0) segs -> split_operands (join_comma segs) = map trim segs.
Proof.
  intros Hne Hj Hs. pose proof (split_join (join_comma segs) segs [] [] eq_refl Hne Hs) as H.
  unfold split_operands. destruct (join_comma segs) as [|c t] eqn:E; [done|]. rewrite <- E in *.
  change (len (@nil byte)) with 0 in H.
  by destruct (fold_left _ _ _) as [[o d] st].
Qed.

(** * Operand texts *)

Definition starts_graphic (s : list byte) : Prop := exists a, head s = Some a /\ graphic a = true.
Definition ends_graphic (s : list byte) : Prop := exists b, last s = Some b /\ graphic b = true.

(** A text that can stand between commas. *)
Record operand (s : list byte) : Prop := {
  operand_scan : scan 0 s = Some 0;
  operand_starts : starts_graphic s;
  operand_ends : ends_graphic s;
}.

Lemma operand_trim s : operand s -> trim s = s.
Proof. intros []. by apply trim_id. Qed.

Lemma trim_space s : trim (str " " ++ s) = trim s.
Proof. done. Qed.

Lemma ends_graphic_app a b : ends_graphic b -> ends_graphic (a ++ b).
Proof.
  intros (c & Hc & ?). exists c. split; [|done].
  apply last_Some in Hc as [l ->]. by rewrite (assoc_L (++)), last_snoc.
Qed.

Lemma starts_graphic_app a b : starts_graphic a -> starts_graphic (a ++ b).
Proof. intros (c & Hc & ?). exists c. destruct a; simplify_eq/=. done. Qed.

Lemma graphic_ends s : Forall (fun b => graphic b = true) s -> s <> [] -> ends_graphic s.
Proof.
  intros H Hne. destruct (last s) as [b|] eqn:E; [|by apply last_None in E].
  exists b. split; [done|]. apply last_Some in E as [l ->].
  apply Forall_app in H as [_ H]. by inversion_clear H.
Qed.

Lemma graphic_starts s : Forall (fun b => graphic b = true) s -> s <> [] -> starts_graphic s.
Proof. intros H Hne. destruct H as [|b s]; [done|]. by exists b. Qed.

Lemma operand_nonempty s : operand s -> s <> [].
Proof. by intros [_ (a & Ha & _) _] ->. Qed.

Lemma operand_word s : Forall (fun b => graphic b && plain b = true) s -> s <> [] -> operand s.
Proof.
  intros H Hne. assert (Forall (fun b => graphic b = true) s /\ Forall (fun b => plain b = true) s)
    as [Hg Hp] by (split; (eapply Forall_impl; [exact H|]); simpl; intros b; rewrite andb_true_iff; tauto).
  constructor; [by apply scan_plain|by apply graphic_starts|by apply graphic_ends].
Qed.

Lemma split1 a : operand a -> split_operands a = [a].
Proof.
  intros Ha. change a with (join_comma [a]) at 1. rewrite split_operands_join; [cbn [map]; by rewrite (operand_trim a)|done| |].
  - by apply operand_nonempty.
  - constructor; [apply Ha|done].
Qed.

Lemma scan_space s : scan 0 (str " " ++ s) = scan 0 s.
Proof. done. Qed.

Lemma split2 a b : operand a -> operand b -> split_operands (a ++ str ", " ++ b) = [a; b].
Proof.
  intros Ha Hb. change (a ++ str ", " ++ b) with (join_comma [a; str " " ++ b]).
  rewrite split_operands_join; [|done| |].
  - cbn [map]. rewrite trim_space. by rewrite !operand_trim.
  - cbn [join_comma]. by destruct a.
  - repeat constructor; [apply Ha|]. rewrite scan_space. apply Hb.
Qed.

Lemma split3 a b c : operand a -> operand b -> operand c ->
  split_operands (a ++ str ", " ++ b ++ str ", " ++ c) = [a; b; c].
Proof.
  intros Ha Hb Hc.
  replace (a ++ str ", " ++ b ++ str ", " ++ c) with (join_comma [a; str " " ++ b; str " " ++ c])
    by (cbn [join_comma]; rewrite <- !(assoc_L (++)); done).
  rewrite split_operands_join; [|done| |].
  - cbn [map]. rewrite !trim_space. by rewrite !operand_trim.
  - cbn [join_comma]. by destruct a.
  - repeat constructor; rewrite ?scan_space; [apply Ha|apply Hb|apply Hc].
Qed.

(** Digits are words. *)
Lemma digit_like_word b : digit_like b = true -> graphic b && plain b = true.
Proof.
  intros H. rewrite digit_like_graphic by done. unfold plain, digit_like, lbracket, rbracket, comma in *.
  lia.
Qed.

Lemma fmt_word up r v : 2 <= r <= 16 ->
  Forall (fun b => graphic b && plain b = true) (fmt_radix up r v) /\ fmt_radix up r v <> [].
Proof.
  intros Hr. destruct (fmt_radix_shape up r v Hr) as (c & ds & E & H). rewrite E. split; [|done].
  eapply Forall_impl; [exact H|]. apply digit_like_word.
Qed.

Lemma word_app a b : Forall (fun b => graphic b && plain b = true) a ->
  Forall (fun b => graphic b && plain b = true) b ->
  Forall (fun b => graphic b && plain b = true) (a ++ b).
Proof. apply Forall_app_2. Qed.

(** A closed string is checked by evaluation. *)
Lemma word_str s : forallb (fun b => graphic b && plain b) s = true ->
  Forall (fun b => graphic b && plain b = true) s.
Proof. intros H. apply Forall_forall. intros b Hb. rewrite List.forallb_forall in H.
  apply H. by apply list_elem_of_In. Qed.

Lemma word_graphic s : Forall (fun b => graphic b && plain b = true) s ->
  Forall (fun b => graphic b = true) s.
Proof. intros H. eapply Forall_impl; [exact H|]. simpl. intros b. rewrite andb_true_iff. tauto. Qed.

Definition reg_text (n : Z) : list byte := str "r" ++ fmt_dec n.
Definition hex_text (v : Z) : list byte := str "0x" ++ fmt_hex v.

Lemma reg_word n : Forall (fun b => graphic b && plain b = true) (reg_text n).
Proof. apply word_app; [by apply word_str|]. by apply fmt_word. Qed.
Lemma hex_word v : Forall (fun b => graphic b && plain b = true) (hex_text v).
Proof. apply word_app; [by apply word_str|]. by apply fmt_word. Qed.
Lemma reg_operand n : operand (reg_text n).
Proof. by apply operand_word; [apply reg_word|]. Qed.
Lemma hex_operand v : operand (hex_text v).
Proof. by apply operand_word; [apply hex_word|]. Qed.

Lemma parse_reg_text n : 0 <= n <= 10 -> parse_reg (reg_text n) = Ok n.
Proof.
  intros Hn. unfold parse_reg. rewrite (operand_trim _ (reg_operand n)). unfold reg_text.
  rewrite strip_prefix_app. cbn [ok_or mbind res_bind]. unfold fmt_dec.
  rewrite parse_fmt by (unfold in_range; lia). cbn [ok_or mbind res_bind].
  by replace (10 <? n) with false by lia.
Qed.

Lemma parse_uint_text v ctx : in_range 64 v -> parse_uint (hex_text v) ctx = Ok v.
Proof.
  intros Hv. unfold parse_uint. rewrite (operand_trim _ (hex_operand v)). unfold hex_text.
  rewrite strip_prefix_app. unfold fmt_hex. rewrite parse_fmt by (done || lia). done.
Qed.

Lemma parse_int_text v ctx : in_range 32 v -> parse_int (hex_text v) ctx = Ok (sint 32 v).
Proof.
  intros Hv. unfold parse_int, in_range in *. rewrite parse_uint_text by (unfold in_range; lia).
  cbn [mbind res_bind]. replace (2 ^ 32 - 1 <? v) with false by lia. by rewrite wrap_small.
Qed.

(** The two shapes of a right-hand side. *)
Definition rhs_text (is_reg : bool) (src imm : Z) : list byte :=
  if is_reg then reg_text src else hex_text (wrap32 imm).

Lemma rhs_operand r s i : operand (rhs_text r s i).
Proof. destruct r; [apply reg_operand|apply hex_operand]. Qed.

Lemma sint_wrap32 i : - 2 ^ 31 <= i < 2 ^ 31 -> sint 32 (wrap32 i) = i.
Proof.
  intros Hi. unfold sint, wrap. destruct (decide (0 <= i)).
  - rewrite Z.mod_small by lia. by replace (i <? 2 ^ (32 - 1)) with true by lia.
  - replace (i mod 2 ^ 32) with (i + 2 ^ 32).
    + replace (i + 2 ^ 32 <? 2 ^ (32 - 1)) with false by lia. lia.
    + rewrite <- (Z_mod_plus_full i 1). symmetry. apply Z.mod_small. lia.
Qed.

Lemma parse_rhs_text r s i : 0 <= s <= 10 -> - 2 ^ 31 <= i < 2 ^ 31 ->
  parse_alu_rhs (rhs_text r s i) = Ok (r, if r then s else 0, if r then 0 else i).
Proof.
  intros Hs Hi. unfold parse_alu_rhs. rewrite (operand_trim _ (rhs_operand r s i)).
  destruct r; simpl rhs_text.
  - change (starts_with (str "r") (reg_text s)) with true. by rewrite parse_reg_text.
  - change (starts_with (str "r") (hex_text (wrap32 i))) with false.
    rewrite parse_int_text by (apply wrap_range; lia). cbn [mbind res_bind]. by rewrite sint_wrap32.
Qed.

(** * Memory operands and branch offsets *)

Lemma rfind_later p a s k : rfind p s = Some k -> rfind p (a ++ s) = Some (length a + k)%nat.
Proof.
  intros H. induction a as [|c a IH]; [done|]. cbn [app rfind length]. by rewrite IH.
Qed.

(** A pattern that begins with a space does not start at a graphic byte. *)
Lemma rfind_graphic p a s : Forall (fun b => graphic b = true) a ->
  rfind (str " " ++ p) s = None -> rfind (str " " ++ p) (a ++ s) = None.
Proof.
  intros Ha Hs. induction Ha as [|c a Hc _ IH]; [done|]. cbn [app rfind]. rewrite IH.
  unfold starts_with. change (str " " ++ p) with (Init.Byte.x20 :: p). cbn [strip_prefix].
  destruct (beqb Init.Byte.x20 c) eqn:E; [|done]. apply beqb_true in E as <-. discriminate Hc.
Qed.

Lemma rfind_word p a : Forall (fun b => graphic b = true) a ->
  rfind (str " " ++ p) a = None.
Proof.
  intros Ha. rewrite <- (app_nil_r a). by apply rfind_graphic.
Qed.

Definition mem_text (r off : Z) : list byte :=
  str "[" ++ reg_text r ++ format_offset off ++ str "]".

Lemma mem_text_eq r off : mem_text r off = str "[" ++ (reg_text r ++ format_offset off) ++ str "]".
Proof. unfold mem_text. by rewrite <- (assoc_L (++)). Qed.

Lemma plain_offset off : Forall (fun b => plain b = true) (format_offset off).
Proof.
  assert (forall v, Forall (fun b => plain b = true) (fmt_hex v)) as H.
  { intros v. eapply Forall_impl; [apply (proj1 (fmt_word false 16 v ltac:(lia)))|].
    simpl. intros b. rewrite andb_true_iff. tauto. }
  unfold format_offset. repeat case_match; [done|..];
    (apply Forall_app_2; [by repeat constructor|done]).
Qed.

Lemma mem_operand r off : operand (mem_text r off).
Proof.
  rewrite mem_text_eq. constructor.
  - rewrite scan_app. change (scan 0 (str "[")) with (Some 1). cbn [mbind option_bind].
    rewrite scan_app, (scan_plain 1 (reg_text r ++ format_offset off)); [done|].
    apply Forall_app_2; [|apply plain_offset]. eapply Forall_impl; [apply reg_word|].
    simpl. intros b. rewrite andb_true_iff. tauto.
  - by eexists.
  - apply ends_graphic_app, ends_graphic_app. by eexists.
Qed.

Lemma trim_inner r off : trim (reg_text r ++ format_offset off) = reg_text r ++ format_offset off.
Proof.
  apply trim_id; [by eexists|]. unfold format_offset.
  repeat case_match; [rewrite app_nil_r; apply (operand_ends _ (reg_operand r))|..];
    apply ends_graphic_app, ends_graphic_app, graphic_ends; try apply fmt_word; try lia;
    apply word_graphic, fmt_word; lia.
Qed.

Lemma parse_offset_text v : in_range 63 v -> parse_offset_value (hex_text v) = Ok v.
Proof.
  intros Hv. unfold in_range in Hv. unfold parse_offset_value.
  rewrite (operand_trim _ (hex_operand v)). unfold hex_text.
  rewrite strip_prefix_app. unfold fmt_hex. rewrite parse_fmt by (unfold in_range; lia).
  cbn [ok_or mbind res_bind]. unfold sint. by replace (v <? 2 ^ (64 - 1)) with true by lia.
Qed.

Lemma to_i16_ok v : - 2 ^ 15 <= v < 2 ^ 15 -> to_i16 v = Ok v.
Proof. intros. unfold to_i16. by replace ((- 2 ^ 15 <=? v) && (v <? 2 ^ 15)) with true by lia. Qed.

Lemma hex_graphic v : Forall (fun b => graphic b = true) (hex_text v).
Proof. apply word_graphic, hex_word. Qed.
Lemma reg_graphic n : Forall (fun b => graphic b = true) (reg_text n).
Proof. apply word_graphic, reg_word. Qed.

(** The last separator of a displacement. *)
Ltac rfind_tac v :=
  pose proof (rfind_word (str "+ ") (hex_text v) (hex_graphic v)) as Hp;
  pose proof (rfind_word (str "- ") (hex_text v) (hex_graphic v)) as Hm;
  change (str " " ++ str "+ ") with (str " + ") in *;
  change (str " " ++ str "- ") with (str " - ") in *;
  let p := eval vm_compute in (str " + ") in change (str " + ") with p in *;
  let m := eval vm_compute in (str " - ") in change (str " - ") with m in *;
  cbn [app rfind]; rewrite ?Hp, ?Hm; reflexivity.

Lemma rfind_plus v : rfind (str " + ") (str " + " ++ hex_text v) = Some 0%nat.
Proof. rfind_tac v. Qed.
Lemma rfind_minus v : rfind (str " - ") (str " - " ++ hex_text v) = Some 0%nat.
Proof. rfind_tac v. Qed.
Lemma rfind_minus_plus v : rfind (str " + ") (str " - " ++ hex_text v) = None.
Proof. rfind_tac v. Qed.

Lemma drop_sep n (a s t : list byte) : length s = n -> drop (length a + n) (a ++ s ++ t) = t.
Proof.
  intros Hs. rewrite (assoc_L (++)), <- Hs, <- length_app. apply drop_app_length.
Qed.

Lemma parse_mem_text r off : 0 <= r <= 10 -> - 2 ^ 15 <= off < 2 ^ 15 ->
  parse_mem (mem_text r off) = Ok (r, off).
Proof.
  intros Hr Ho. unfold parse_mem. rewrite (operand_trim _ (mem_operand r off)).
  rewrite mem_text_eq, strip_prefix_app. cbn [mbind option_bind].
  rewrite strip_suffix_app. cbn [ok_or mbind res_bind]. rewrite trim_inner.
  unfold format_offset. destruct (Z.eqb_spec off 0) as [->|Hne].
  - rewrite app_nil_r. change (str " + ") with (str " " ++ str "+ ").
    change (str " - ") with (str " " ++ str "- ").
    rewrite !rfind_word by apply reg_graphic. by rewrite parse_reg_text.
  - destruct (Z.ltb_spec 0 off).
    + change (str " + 0x" ++ fmt_hex off) with (str " + " ++ hex_text off).
      rewrite (rfind_later _ (reg_text r) _ _ (rfind_plus off)), Nat.add_0_r.
      rewrite take_app_length, (operand_trim _ (reg_operand r)), parse_reg_text by done.
      cbn [mbind res_bind]. rewrite drop_sep by done.
      rewrite parse_offset_text by (unfold in_range; lia). cbn [mbind res_bind].
      by rewrite to_i16_ok.
    + change (str " - 0x" ++ fmt_hex (- off)) with (str " - " ++ hex_text (- off)).
      rewrite (rfind_graphic (str "+ ")) by (apply reg_graphic || apply rfind_minus_plus).
      rewrite (rfind_later _ (reg_text r) _ _ (rfind_minus (- off))), Nat.add_0_r.
      rewrite take_app_length, (operand_trim _ (reg_operand r)), parse_reg_text by done.
      cbn [mbind res_bind]. rewrite drop_sep by done.
      rewrite parse_offset_text by (unfold in_range; lia). cbn [mbind res_bind]. unfold neg_i64.
      replace (- off =? - 2 ^ 63) with false by lia. cbn [mbind res_bind].
      rewrite Z.opp_involutive. by rewrite to_i16_ok.
Qed.

Lemma branch_word off : Forall (fun b => graphic b && plain b = true) (format_branch_offset off).
Proof.
  unfold format_branch_offset. destruct (0 <=? off); (apply word_app; [by apply word_str|]);
    by apply fmt_word.
Qed.

Lemma branch_operand off : operand (format_branch_offset off).
Proof.
  apply operand_word; [apply branch_word|]. unfold format_branch_offset. by destruct (0 <=? off).
Qed.

Lemma parse_branch_text off : - 2 ^ 15 <= off < 2 ^ 15 ->
  parse_branch_offset (format_branch_offset off) = Ok off.
Proof.
  intros Ho. unfold parse_branch_offset. rewrite (operand_trim _ (branch_operand off)).
  unfold format_branch_offset. destruct (Z.leb_spec 0 off).
  - change (str "+0x" ++ fmt_hex off) with (str "+" ++ str "0x" ++ fmt_hex off).
    rewrite strip_prefix_app. cbn [mbind res_bind]. rewrite strip_prefix_app.
    unfold fmt_hex. rewrite parse_fmt by (unfold in_range; lia). cbn [ok_or mbind res_bind].
    change (1 =? -1) with false. cbv iota.
    unfold sint. replace (off <? 2 ^ (64 - 1)) with true by lia. cbn [mbind res_bind].
    by rewrite to_i16_ok.
  - change (strip_prefix (str "+") (str "-0x" ++ fmt_hex (- off))) with (@None (list byte)).
    change (str "-0x" ++ fmt_hex (- off)) with (str "-" ++ str "0x" ++ fmt_hex (- off)).
    rewrite strip_prefix_app. cbn [mbind res_bind]. rewrite strip_prefix_app.
    unfold fmt_hex. rewrite parse_fmt by (unfold in_range; lia). cbn [ok_or mbind res_bind].
    change (-1 =? -1) with true. cbv iota.
    unfold sint. replace (- off <? 2 ^ (64 - 1)) with true by lia. unfold neg_i64.
    replace (- off =? - 2 ^ 63) with false by lia. cbn [mbind res_bind].
    rewrite Z.opp_involutive. by rewrite to_i16_ok.
Qed.

(** * From a text to its mnemonic and operands *)

(** A mnemonic: graphic, and not the opening of a placeholder. *)
Definition mnemonic_ok (m : list byte) : Prop :=
  Forall (fun b => graphic b = true) m /\ exists c t, m = c :: t /\ u8 c <> 60.

Lemma not_placeholder p c t : u8 c <> 60 -> strip_prefix (str "<" ++ p) (c :: t) = None.
Proof.
  intros Hc. change (str "<" ++ p) with (byte_of 60 :: p). cbn [strip_prefix].
  destruct (beqb (byte_of 60) c) eqn:E; [|done]. apply beqb_true in E as <-. done.
Qed.

Lemma assemble_text m rest : mnemonic_ok m -> starts_graphic rest -> ends_graphic rest ->
  assemble_bpf (m ++ str " " ++ rest) = assemble_mnemonic m (split_operands rest).
Proof.
  intros [Hm (c & t & -> & Hc)] Hs He. unfold assemble_bpf.
  rewrite trim_id; cycle 1.
  { exists c. split; [done|]. by inversion_clear Hm. }
  { by apply ends_graphic_app, ends_graphic_app. }
  change ((c :: t) ++ str " " ++ rest) with (c :: (t ++ str " " ++ rest)). cbv iota.
  change (str "<bpf 0x") with (str "<" ++ str "bpf 0x").
  change (str "<lddw-cont 0x") with (str "<" ++ str "lddw-cont 0x").
  rewrite !not_placeholder by done.
  change (c :: (t ++ str " " ++ rest)) with ((c :: t) ++ str " " ++ rest).
  assert (str_eqb ((c :: t) ++ str " " ++ rest) (str "exit") = false) as ->.
  { apply bool_decide_false. intros E.
    assert (byte_of 32 ∈ str "exit") as Hin.
    { rewrite <- E. apply elem_of_app. right. left. }
    apply list_elem_of_In in Hin. vm_compute in Hin. intuition discriminate. }
  rewrite find_ws_space by done. rewrite take_app_length, drop_app_length.
  rewrite trim_space. by rewrite trim_id.
Qed.

(** * Slots and their fields *)

Lemma to_le_sint n w v : 2 ^ w = 256 ^ Z.of_nat n -> to_le n (sint w v) = to_le n v.
Proof.
  intros E. rewrite <- (to_le_wrap n (sint w v)), <- (to_le_wrap n v). f_equal.
  unfold sint. case_match; [done|]. rewrite E.
  replace (v - 256 ^ Z.of_nat n) with (v + (-1) * 256 ^ Z.of_nat n) by lia.
  apply Z_mod_plus_full.
Qed.

Lemma nibble_join b : 0 <= b < 256 ->
  Z.lor (Z.land (b mod 16) 0x0f) (Z.shiftl (Z.land (b / 16) 0x0f) 4) = b.
Proof.
  intros Hb. pose proof (Z.mod_pos_bound b 16 ltac:(lia)).
  assert (0 <= b / 16 < 16) by (split; [apply Z.div_pos; lia|apply Z.div_lt_upper_bound; lia]).
  change 0x0f with (Z.ones 4). rewrite !Z.land_ones by lia. change (2 ^ 4) with 16.
  rewrite (Z.mod_small (b mod 16)), (Z.mod_small (b / 16)) by lia.
  rewrite Z.lor_comm, lor_shiftl_add by lia. pose proof (Z.div_mod b 16 ltac:(lia)). lia.
Qed.

(** The fields of a slot encode back to the slot. *)
Lemma encode_fields raw : length raw = 8%nat ->
  encode_slot (byte_at raw 0) (byte_at raw 1 mod 16) (byte_at raw 1 / 16)
    (slot_offset raw) (slot_imm raw) = raw.
Proof.
  intros H. unfold encode_slot. rewrite nibble_join by apply byte_at_range.
  unfold byte_at. rewrite !byte_of_u8. unfold slot_offset, slot_imm.
  rewrite !to_le_sint by done.
  rewrite (to_le_from_le' 2), (to_le_from_le' 4) by (rewrite length_sub; unfold len; lia).
  do 8 (destruct raw as [|? raw]; [done|]). destruct raw; [|done]. done.
Qed.

(** * The forms the formatter prints *)

Lemma assemble1 m a : mnemonic_ok m -> operand a ->
  assemble_bpf (m ++ str " " ++ a) = assemble_mnemonic m [a].
Proof. intros Hm Ha. rewrite assemble_text by (try done; apply Ha). by rewrite split1. Qed.

Lemma assemble2 m a b : mnemonic_ok m -> operand a -> operand b ->
  assemble_bpf (m ++ str " " ++ a ++ str ", " ++ b) = assemble_mnemonic m [a; b].
Proof.
  intros Hm Ha Hb. rewrite assemble_text; [by rewrite split2|done| |].
  - apply starts_graphic_app, Ha.
  - do 2 apply ends_graphic_app. apply Hb.
Qed.

Lemma assemble3 m a b c : mnemonic_ok m -> operand a -> operand b -> operand c ->
  assemble_bpf (m ++ str " " ++ a ++ str ", " ++ b ++ str ", " ++ c)
  = assemble_mnemonic m [a; b; c].
Proof.
  intros Hm Ha Hb Hc. rewrite assemble_text; [by rewrite split3|done| |].
  - apply starts_graphic_app, Ha.
  - do 4 apply ends_graphic_app. apply Hc.
Qed.

(** Fields in the range the text syntax covers. *)
Definition fields_ok (x : DecodedInsn) : Prop :=
  0 <= dst x <= 10 /\ 0 <= src x <= 10 /\
  - 2 ^ 15 <= offset x < 2 ^ 15 /\ - 2 ^ 31 <= imm x < 2 ^ 31.

Definition encoded (x : DecodedInsn) : list byte :=
  encode_slot (opcode x) (dst x) (src x) (offset x) (imm x).

Ltac mnemonic := by split; [apply word_graphic, word_str | eexists _, _].

(** The formatter dispatches on the opcode class alone. *)
Definition format_class (x : DecodedInsn) (v : BpfVariant) : list byte :=
  let class := Z.land (opcode x) 0x07 in
  if (class =? 0x00) || (class =? 0x01) then format_ld x
  else if (class =? 0x02) || (class =? 0x03) then format_st x
  else if class =? 0x04 then format_alu x false v
  else if class =? 0x05 then format_jmp x false
  else if class =? 0x06 then format_jmp x true
  else if class =? 0x07 then format_alu x true v
  else str "<bpf 0x" ++ pad0 16 (fmt_hex (raw_u64 x)) ++ str ">".

Lemma format_insn_class v x : kind x <> LddwSecondHalf -> format_insn x v = format_class x v.
Proof. unfold format_insn. by destruct (kind x). Qed.

(** Evaluate the formatter on a slot with a known opcode: [E] is
    [opcode x = o]. *)
Ltac known_text E :=
  unfold format_class, format_ld, format_st, format_alu, format_jmp, format_endian, hex_imm;
  rewrite E; reflexivity.

(** Case analysis on [H : o ∈ [..]] for a closed list. *)
Ltac elem_cases H E :=
  repeat (apply elem_of_cons in H as [E|H]); [..|by apply elem_of_nil in H].

Lemma ldx_roundtrip v x : fields_ok x ->
  opcode x ∈ [0x61; 0x69; 0x71; 0x79] -> imm x = 0 ->
  assemble_bpf (format_class x v) = Ok (encoded x).
Proof.
  intros (Hd & Hs & Ho & Hi) Hop Hz. unfold encoded. rewrite Hz.
  set (m := str "ldx" ++ size_letter (opcode x)).
  assert (format_class x v = m ++ str " " ++ reg_text (dst x) ++ str ", "
                               ++ mem_text (src x) (offset x) /\
    mnemonic_ok m /\ forall a b, assemble_mnemonic m [a; b] =
      (d ← parse_reg a; so ← parse_mem b;
       let '(s, off) := so in Ok (encode_slot (opcode x) d s off 0))) as (-> & Hm & Ha).
  { subst m. elem_cases Hop E; (split; [known_text E|rewrite E; split; [mnemonic|done]]). }
  rewrite assemble2, Ha, parse_reg_text by auto using reg_operand, mem_operand.
  cbn [mbind res_bind]. by rewrite parse_mem_text.
Qed.

Lemma st_roundtrip v x : fields_ok x ->
  opcode x ∈ [0x62; 0x6a; 0x72; 0x7a] -> src x = 0 ->
  assemble_bpf (format_class x v) = Ok (encoded x).
Proof.
  intros (Hd & Hs & Ho & Hi) Hop Hz. unfold encoded. rewrite Hz.
  set (m := str "st" ++ size_letter (opcode x)).
  assert (format_class x v = m ++ str " " ++ mem_text (dst x) (offset x) ++ str ", "
                               ++ hex_text (wrap32 (imm x)) /\
    mnemonic_ok m /\ forall a b, assemble_mnemonic m [a; b] =
      (d ← parse_mem a; let '(d, off) := d in i ← parse_int b (str "st");
       Ok (encode_slot (opcode x) d 0 off i))) as (-> & Hm & Ha).
  { subst m. elem_cases Hop E; (split; [|rewrite E; split; [mnemonic|done]]);
      unfold mem_text; rewrite <- !(assoc_L (++)); known_text E. }
  rewrite assemble2, Ha, parse_mem_text by auto using mem_operand, hex_operand.
  cbn [mbind res_bind]. rewrite parse_int_text by (apply wrap_range; lia).
  cbn [mbind res_bind]. by rewrite sint_wrap32.
Qed.

Lemma stx_roundtrip v x : fields_ok x ->
  opcode x ∈ [0x63; 0x6b; 0x73; 0x7b] -> imm x = 0 ->
  assemble_bpf (format_class x v) = Ok (encoded x).
Proof.
  intros (Hd & Hs & Ho & Hi) Hop Hz. unfold encoded. rewrite Hz.
  set (m := str "stx" ++ size_letter (opcode x)).
  assert (format_class x v = m ++ str " " ++ mem_text (dst x) (offset x) ++ str ", "
                               ++ reg_text (src x) /\
    mnemonic_ok m /\ forall a b, assemble_mnemonic m [a; b] =
      (d ← parse_mem a; let '(d, off) := d in s ← parse_reg b;
       Ok (encode_slot (opcode x) d s off 0))) as (-> & Hm & Ha).
  { subst m. elem_cases Hop E; (split; [|rewrite E; split; [mnemonic|done]]);
      unfold mem_text; rewrite <- !(assoc_L (++)); known_text E. }
  rewrite assemble2, Ha, parse_mem_text by auto using mem_operand, reg_operand.
  cbn [mbind res_bind]. by rewrite parse_reg_text.
Qed.

(** The operation nibbles with a mnemonic: one-operand [neg] (8) and the
    endian conversions (13) are printed differently. *)
Definition alu_nibbles (v : BpfVariant) : list Z :=
  [0x0; 0x1; 0x2; 0x3; 0x4; 0x5; 0x6; 0x7; 0x9; 0xa; 0xb; 0xc]
  ++ match v with Sbfv2 => [0xe; 0xf] | _ => [] end.
Definition jcc_nibbles : list Z := [0x1; 0x2; 0x3; 0x4; 0x5; 0x6; 0x7; 0xa; 0xb; 0xc; 0xd].

(** An opcode from its operation, source bit and class. *)
Definition opcode_of (n : Z) (r : bool) (c : Z) : Z := 16 * n + (if r then 8 else 0) + c.

Lemma alu_roundtrip v x n r c : fields_ok x -> opcode x = opcode_of n r c ->
  n ∈ alu_nibbles v -> c ∈ [0x4; 0x7] ->
  offset x = 0 -> (if r then imm x = 0 else src x = 0) ->
  assemble_bpf (format_class x v) = Ok (encoded x).
Proof.
  intros (Hd & Hs & Ho & Hi) E Hn Hc Hoff Hz. unfold encoded. rewrite Hoff, E.
  set (m := alu_mnemonic n v ++ (if c =? 7 then str "64" else str "32")).
  assert (format_class x v = m ++ str " " ++ reg_text (dst x) ++ str ", "
                               ++ rhs_text r (src x) (imm x) /\
    mnemonic_ok m /\ forall a b, assemble_mnemonic m [a; b] =
      (d ← parse_reg a; rhs ← parse_alu_rhs b; let '(is_reg, s, i) := rhs in
       Ok (encode_slot (Z.lor (Z.lor (wrap8 (Z.shiftl n 4)) (if (is_reg : bool) then 0x08 else 0x00)) c)
             d s 0 i))) as (-> & Hm & Ha).
  { subst m. destruct v, r; unfold alu_nibbles in Hn; cbn [app] in Hn; elem_cases Hn En;
      subst n; elem_cases Hc Ec; subst c; (split; [known_text E|split; [mnemonic|done]]). }
  rewrite assemble2, Ha, parse_reg_text by auto using reg_operand, rhs_operand.
  cbn [mbind res_bind]. rewrite parse_rhs_text by done. cbn [mbind res_bind].
  assert (Z.lor (Z.lor (wrap8 (Z.shiftl n 4)) (if r then 0x08 else 0x00)) c = opcode_of n r c) as ->.
  { destruct v, r; unfold alu_nibbles in Hn; cbn [app] in Hn; elem_cases Hn En;
      subst n; elem_cases Hc Ec; subst c; done. }
  destruct r; by rewrite Hz.
Qed.

Lemma jcc_roundtrip v x n r c : fields_ok x -> opcode x = opcode_of n r c ->
  n ∈ jcc_nibbles -> c ∈ [0x5; 0x6] -> (if r then imm x = 0 else src x = 0) ->
  assemble_bpf (format_class x v) = Ok (encoded x).
Proof.
  intros (Hd & Hs & Ho & Hi) E Hn Hc Hz. unfold encoded. rewrite E.
  set (m := jmp_mnemonic n ++ (if c =? 6 then str "32" else [])).
  assert (format_class x v = m ++ str " " ++ reg_text (dst x) ++ str ", "
            ++ rhs_text r (src x) (imm x) ++ str ", " ++ format_branch_offset (offset x) /\
    mnemonic_ok m /\ forall a b o, assemble_mnemonic m [a; b; o] =
      (d ← parse_reg a; rhs ← parse_alu_rhs b; let '(is_reg, s, i) := rhs in
       off ← parse_branch_offset o;
       Ok (encode_slot (Z.lor (Z.lor (wrap8 (Z.shiftl n 4)) (if (is_reg : bool) then 0x08 else 0x00)) c)
             d s off i))) as (-> & Hm & Ha).
  { subst m. destruct r; unfold jcc_nibbles in Hn; elem_cases Hn En;
      subst n; elem_cases Hc Ec; subst c; (split; [known_text E|split; [mnemonic|done]]). }
  rewrite assemble3, Ha, parse_reg_text by auto using reg_operand, rhs_operand, branch_operand.
  cbn [mbind res_bind]. rewrite parse_rhs_text by done. cbn [mbind res_bind].
  rewrite parse_branch_text by done. cbn [mbind res_bind].
  assert (Z.lor (Z.lor (wrap8 (Z.shiftl n 4)) (if r then 0x08 else 0x00)) c = opcode_of n r c) as ->.
  { destruct r; unfold jcc_nibbles in Hn; elem_cases Hn En;
      subst n; elem_cases Hc Ec; subst c; done. }
  destruct r; by rewrite Hz.
Qed.

Lemma neg_roundtrip v x : fields_ok x -> opcode x ∈ [0x84; 0x87] ->
  src x = 0 -> offset x = 0 -> imm x = 0 ->
  assemble_bpf (format_class x v) = Ok (encoded x).
Proof.
  intros (Hd & _) Hop Hs Ho Hi. unfold encoded. rewrite Hs, Ho, Hi.
  elem_cases Hop E; rewrite E.
  - assert (format_class x v = str "neg32" ++ str " " ++ reg_text (dst x)) as -> by known_text E.
    rewrite assemble1 by (mnemonic || apply reg_operand).
    change (assemble_mnemonic (str "neg32") [reg_text (dst x)]) with
      (d ← parse_reg (reg_text (dst x)); Ok (E:=AssembleError) (encode_slot 0x84 d 0 0 0)).
    by rewrite parse_reg_text.
  - assert (format_class x v = str "neg64" ++ str " " ++ reg_text (dst x)) as -> by known_text E.
    rewrite assemble1 by (mnemonic || apply reg_operand).
    change (assemble_mnemonic (str "neg64") [reg_text (dst x)]) with
      (d ← parse_reg (reg_text (dst x)); Ok (E:=AssembleError) (encode_slot 0x87 d 0 0 0)).
    by rewrite parse_reg_text.
Qed.

Lemma endian_roundtrip v x : fields_ok x -> opcode x ∈ [0xd4; 0xdc] ->
  src x = 0 -> offset x = 0 -> imm x ∈ [16; 32; 64] ->
  assemble_bpf (format_class x v) = Ok (encoded x).
Proof.
  intros (Hd & _) Hop Hs Ho Hi. unfold encoded. rewrite Hs, Ho.
  set (m := (if opcode x =? 0xd4 then str "le" else str "be") ++ fmt_int (imm x)).
  assert (format_class x v = m ++ str " " ++ reg_text (dst x) /\ mnemonic_ok m /\
    forall a, assemble_mnemonic m [a] =
      (d ← parse_reg a; Ok (encode_slot (opcode x) d 0 0 (imm x)))) as (-> & Hm & Ha).
  { subst m. elem_cases Hop E; elem_cases Hi Ei; rewrite Ei, E;
      (split; [|split; [mnemonic|done]]);
      unfold format_class, format_alu, format_endian; rewrite E, Ei; reflexivity. }
  rewrite assemble1, Ha by auto using reg_operand. by rewrite parse_reg_text.
Qed.

Lemma ja_roundtrip v x : fields_ok x -> opcode x = 0x05 ->
  dst x = 0 -> src x = 0 -> imm x = 0 ->
  assemble_bpf (format_class x v) = Ok (encoded x).
Proof.
  intros (_ & _ & Ho & _) E Hd Hs Hi. unfold encoded. rewrite Hd, Hs, Hi, E.
  assert (format_class x v = str "ja" ++ str " " ++ format_branch_offset (offset x)) as ->
    by known_text E.
  rewrite assemble1 by (mnemonic || apply branch_operand).
  change (assemble_mnemonic (str "ja") [format_branch_offset (offset x)]) with
    (off ← parse_branch_offset (format_branch_offset (offset x));
     Ok (E:=AssembleError) (encode_slot 0x05 0 0 off 0)).
  by rewrite parse_branch_text.
Qed.

Lemma parse_int_signed_text v ctx : in_range 32 v ->
  parse_int_signed (hex_text v) ctx = Ok (sint 32 v).
Proof.
  intros Hv. unfold parse_int_signed. rewrite (operand_trim _ (hex_operand v)).
  change (strip_prefix (str "-") (hex_text v)) with (@None (list byte)).
  by apply parse_int_text.
Qed.

Lemma call_roundtrip v x : fields_ok x -> opcode x = 0x85 ->
  dst x = 0 -> src x = 0 -> offset x = 0 ->
  assemble_bpf (format_class x v) = Ok (encoded x).
Proof.
  intros (_ & _ & _ & Hi) E Hd Hs Ho. unfold encoded. rewrite Hd, Hs, Ho, E.
  assert (format_class x v = str "call" ++ str " " ++ hex_text (wrap32 (imm x))) as ->
    by known_text E.
  rewrite assemble1 by (mnemonic || apply hex_operand).
  change (assemble_mnemonic (str "call") [hex_text (wrap32 (imm x))]) with
    (i ← parse_int_signed (hex_text (wrap32 (imm x))) (str "call");
     Ok (E:=AssembleError) (encode_slot 0x85 0 0 0 i)).
  rewrite parse_int_signed_text by (apply wrap_range; lia). cbn [mbind res_bind].
  by rewrite sint_wrap32.
Qed.

Lemma callx_roundtrip v x : fields_ok x -> opcode x = 0x8d ->
  src x = 0 -> offset x = 0 -> imm x = 0 ->
  assemble_bpf (format_class x v) = Ok (encoded x).
Proof.
  intros (Hd & _) E Hs Ho Hi. unfold encoded. rewrite Hs, Ho, Hi, E.
  assert (format_class x v = str "callx" ++ str " " ++ reg_text (dst x)) as -> by known_text E.
  rewrite assemble1 by (mnemonic || apply reg_operand).
  change (assemble_mnemonic (str "callx") [reg_text (dst x)]) with
    (d ← parse_reg (reg_text (dst x)); Ok (E:=AssembleError) (encode_slot 0x8d d 0 0 0)).
  by rewrite parse_reg_text.
Qed.

Lemma exit_roundtrip v x : opcode x = 0x95 ->
  dst x = 0 -> src x = 0 -> offset x = 0 -> imm x = 0 ->
  assemble_bpf (format_class x v) = Ok (encoded x).
Proof.
  intros E Hd Hs Ho Hi. unfold encoded. rewrite Hd, Hs, Ho, Hi, E.
  assert (format_class x v = str "exit") as -> by known_text E. reflexivity.
Qed.

(** The joined immediate of an [lddw] has the slot's own one in its low half. *)
Definition imm64_ok (x : DecodedInsn) : Prop :=
  match imm64 x with
  | Some w => in_range 64 w /\ wrap32 w = wrap32 (imm x)
  | None => True
  end.

Lemma lddw_roundtrip v x : fields_ok x -> imm64_ok x -> opcode x = 0x18 ->
  src x = 0 -> offset x = 0 ->
  assemble_bpf (format_class x v) = Ok (encoded x).
Proof.
  intros (Hd & _ & _ & Hi) H64 E Hs Ho. unfold encoded. rewrite Hs, Ho, E.
  set (w := match imm64 x with Some v => v | None => wrap32 (imm x) end).
  assert (in_range 64 w /\ wrap32 w = wrap32 (imm x)) as [Hw Hww].
  { unfold imm64_ok in H64. subst w. destruct (imm64 x); [done|].
    pose proof (wrap_range 32 (imm x) ltac:(lia)) as Hr. split; [unfold in_range in *; lia|].
    by apply wrap_small. }
  assert (format_class x v = str "lddw" ++ str " " ++ reg_text (dst x) ++ str ", " ++ hex_text w)
    as -> by known_text E.
  rewrite assemble2 by (mnemonic || apply reg_operand || apply hex_operand).
  change (assemble_mnemonic (str "lddw") [reg_text (dst x); hex_text w]) with
    (d ← parse_reg (reg_text (dst x)); i ← parse_uint (hex_text w) (str "lddw");
     Ok (E:=AssembleError) (encode_slot 0x18 d 0 0 (sint 32 (wrap32 i)))).
  rewrite parse_reg_text by done. cbn [mbind res_bind]. rewrite parse_uint_text by done.
  cbn [mbind res_bind]. by rewrite Hww, sint_wrap32.
Qed.

(** The continuation slot is printed as a placeholder. *)
Lemma cont_roundtrip x : fields_ok x -> opcode x = 0 ->
  dst x = 0 -> src x = 0 -> offset x = 0 ->
  assemble_bpf (str "<lddw-cont 0x" ++ pad0 8 (hex_imm x) ++ str ">") = Ok (encoded x).
Proof.
  intros (_ & _ & _ & Hi) E Hd Hs Ho. unfold encoded. rewrite Hd, Hs, Ho, E.
  unfold assemble_bpf. rewrite trim_id; [|by eexists|].
  2: { by apply ends_graphic_app, ends_graphic_app; eexists. }
  change (strip_prefix (str "<bpf 0x") (str "<lddw-cont 0x" ++ pad0 8 (hex_imm x) ++ str ">"))
    with (@None (list byte)).
  rewrite strip_prefix_app, strip_suffix_app.
  change (str "<lddw-cont 0x" ++ pad0 8 (hex_imm x) ++ str ">") with
    (byte_of 60 :: str "lddw-cont 0x" ++ pad0 8 (hex_imm x) ++ str ">"). cbv iota.
  cbn [ok_or mbind res_bind]. unfold hex_imm, fmt_hex.
  rewrite parse_pad0 by (try apply wrap_range; lia). cbn [ok_or mbind res_bind].
  by rewrite sint_wrap32.
Qed.

(** * Canonical slots *)

Definition z_in (z : Z) (l : list Z) : bool := existsb (Z.eqb z) l.

Lemma z_in_elem z l : z_in z l = true -> z ∈ l.
Proof.
  unfold z_in. rewrite List.existsb_exists. intros (y & Hy & E).
  apply Z.eqb_eq in E as ->. by apply list_elem_of_In.
Qed.

(** The slots whose text determines them: a register number up to 10, and zero
    in every field the text does not show. *)
Definition canonical_class (v : BpfVariant) (x : DecodedInsn) : bool :=
  let o := opcode x in
  let reg := negb (Z.land o 0x08 =? 0) in
  if o =? 0x18 then (src x =? 0) && (offset x =? 0)
  else if o =? 0 then (dst x =? 0) && (src x =? 0) && (offset x =? 0)
  else if z_in o [0x61; 0x69; 0x71; 0x79] then imm x =? 0
  else if z_in o [0x62; 0x6a; 0x72; 0x7a] then src x =? 0
  else if z_in o [0x63; 0x6b; 0x73; 0x7b] then imm x =? 0
  else if z_in o [0xd4; 0xdc] then (src x =? 0) && (offset x =? 0) && z_in (imm x) [16; 32; 64]
  else if z_in o [0x84; 0x87] then (src x =? 0) && (offset x =? 0) && (imm x =? 0)
  else if o =? 0x05 then (dst x =? 0) && (src x =? 0) && (imm x =? 0)
  else if o =? 0x85 then (dst x =? 0) && (src x =? 0) && (offset x =? 0)
  else if o =? 0x8d then (src x =? 0) && (offset x =? 0) && (imm x =? 0)
  else if o =? 0x95 then (dst x =? 0) && (src x =? 0) && (offset x =? 0) && (imm x =? 0)
  else if z_in (Z.shiftr o 4) (alu_nibbles v) && z_in (Z.land o 0x07) [0x4; 0x7]
  then (offset x =? 0) && (if reg then imm x =? 0 else src x =? 0)
  else z_in (Z.shiftr o 4) jcc_nibbles && z_in (Z.land o 0x07) [0x5; 0x6]
       && (if reg then imm x =? 0 else src x =? 0).

Definition canonical (v : BpfVariant) (x : DecodedInsn) : bool :=
  (dst x <=? 10) && (src x <=? 10) && canonical_class v x.

Lemma opcode_split o : 0 <= o < 256 ->
  o = opcode_of (Z.shiftr o 4) (negb (Z.land o 0x08 =? 0)) (Z.land o 0x07).
Proof.
  intros Ho.
  assert (forallb (fun b => u8 b =? opcode_of (Z.shiftr (u8 b) 4) (negb (Z.land (u8 b) 0x08 =? 0))
                                         (Z.land (u8 b) 0x07)) all_bytes = true) as H
    by (vm_compute; reflexivity).
  pose proof (all_bytes_spec _ H (byte_of o)) as E. cbv beta in E.
  rewrite u8_byte_of, Z.mod_small in E by done. by apply Z.eqb_eq in E.
Qed.

Ltac split_canonical H :=
  rewrite ?andb_true_iff, ?Z.eqb_eq in H; destruct_and? H.

Lemma canonical_roundtrip v x : fields_ok x -> imm64_ok x -> 0 <= opcode x < 256 ->
  canonical_class v x = true ->
  (kind x = LddwSecondHalf -> opcode x = 0) ->
  assemble_bpf (format_insn x v) = Ok (encoded x).
Proof.
  intros Hf H64 Hop Hc Hk.
  destruct (decide (kind x = LddwSecondHalf)) as [E2|E2].
  { unfold format_insn. rewrite E2. specialize (Hk E2).
    unfold canonical_class in Hc. rewrite Hk in Hc.
    change (((dst x =? 0) && (src x =? 0) && (offset x =? 0)) = true) in Hc.
    split_canonical Hc. by apply cont_roundtrip. }
  rewrite format_insn_class by done. unfold canonical_class in Hc.
  destruct (Z.eqb_spec (opcode x) 0x18); [split_canonical Hc; by apply lddw_roundtrip|].
  destruct (Z.eqb_spec (opcode x) 0) as [E0|].
  { split_canonical Hc.
    assert (format_class x v = str "<lddw-cont 0x" ++ pad0 8 (hex_imm x) ++ str ">") as ->
      by (unfold format_class, format_ld; rewrite E0; reflexivity).
    by apply cont_roundtrip. }
  destruct (z_in (opcode x) [0x61; 0x69; 0x71; 0x79]) eqn:?;
    [split_canonical Hc; by apply ldx_roundtrip; [|apply z_in_elem|]|].
  destruct (z_in (opcode x) [0x62; 0x6a; 0x72; 0x7a]) eqn:?;
    [split_canonical Hc; by apply st_roundtrip; [|apply z_in_elem|]|].
  destruct (z_in (opcode x) [0x63; 0x6b; 0x73; 0x7b]) eqn:?;
    [split_canonical Hc; by apply stx_roundtrip; [|apply z_in_elem|]|].
  destruct (z_in (opcode x) [0xd4; 0xdc]) eqn:?;
    [split_canonical Hc; by apply endian_roundtrip; [|apply z_in_elem| | |apply z_in_elem]|].
  destruct (z_in (opcode x) [0x84; 0x87]) eqn:?;
    [split_canonical Hc; by apply neg_roundtrip; [|apply z_in_elem|..]|].
  destruct (Z.eqb_spec (opcode x) 0x05); [split_canonical Hc; by apply ja_roundtrip|].
  destruct (Z.eqb_spec (opcode x) 0x85); [split_canonical Hc; by apply call_roundtrip|].
  destruct (Z.eqb_spec (opcode x) 0x8d); [split_canonical Hc; by apply callx_roundtrip|].
  destruct (Z.eqb_spec (opcode x) 0x95); [split_canonical Hc; by apply exit_roundtrip|].
  destruct (z_in (Z.shiftr (opcode x) 4) (alu_nibbles v) && z_in (Z.land (opcode x) 0x07) [0x4; 0x7]) eqn:Ea.
  - apply andb_true_iff in Ea as [Hn Hcl]. apply andb_true_iff in Hc as [Hoff Hc].
    apply Z.eqb_eq in Hoff. eapply alu_roundtrip; [done|by apply opcode_split|by apply z_in_elem..|done|].
    revert Hc. destruct (negb _); intros; by apply Z.eqb_eq.
  - apply andb_true_iff in Hc as [Hc Hz]. apply andb_true_iff in Hc as [Hn Hcl].
    eapply jcc_roundtrip; [done|by apply opcode_split|by apply z_in_elem..|].
    revert Hz. destruct (negb _); intros; by apply Z.eqb_eq.
Qed.

Lemma insn_ok_roundtrip v bs start l k x : (8 * Z.of_nat k + 8 <= len bs) ->
  insn_ok v bs start l k x -> canonical v x = true ->
  assemble_bpf (format_insn x v) = Ok (i_bytes x).
Proof.
  intros Hk (Hb & _ & Ho & Hd & Hs & Hoff & Hi & Hkd) Hc.
  assert (length (i_bytes x) = 8%nat) as Hlen by (rewrite Hb, length_sub; lia).
  unfold canonical in Hc. apply andb_true_iff in Hc as [Hc1 Hc].
  apply andb_true_iff in Hc1 as [Hd10 Hs10].
  rewrite <- (encode_fields (i_bytes x) Hlen), <- Ho, <- Hd, <- Hs, <- Hoff, <- Hi.
  pose proof (byte_at_range (i_bytes x) 0). pose proof (byte_at_range (i_bytes x) 1).
  assert (in_range 16 (from_le (sub (i_bytes x) 2 4)) /\ in_range 32 (from_le (sub (i_bytes x) 4 8)))
    as [H16 H32].
  { split; [apply (from_le_wrap 2)|apply (from_le_wrap 4)]; try done;
      rewrite length_sub; unfold len; lia. }
  apply canonical_roundtrip; [| |by rewrite Ho|done|].
  - unfold fields_ok. rewrite Hoff, Hi. unfold slot_offset, slot_imm.
    pose proof (sint_range 16 _ ltac:(lia) H16). pose proof (sint_range 32 _ ltac:(lia) H32).
    pose proof (Z.mod_pos_bound (byte_at (i_bytes x) 1) 16 ltac:(lia)).
    pose proof (Z.div_pos (byte_at (i_bytes x) 1) 16). lia.
  - unfold imm64_ok. unfold kind_ok in Hkd. destruct (kind x);
      try (by destruct Hkd as (_ & _ & ->)); [|by destruct Hkd as (_ & -> & _)..].
    destruct Hkd as (_ & y & _ & _ & ->).
    pose proof (wrap_range 32 (imm x) ltac:(lia)). pose proof (wrap_range 32 (imm y) ltac:(lia)).
    split; [unfold in_range in *; lia|]. unfold wrap at 1.
    rewrite Z.mul_comm, Z_mod_plus_full. by apply Z.mod_small.
  - unfold kind_ok in Hkd. intros E. rewrite E in Hkd. apply Hkd.
Qed.

Lemma assemble_stream v bs start l : forall n,
  (n <= length l)%nat -> 8 * len l = len bs -> decoded v bs start l ->
  Forall (fun x => canonical v x = true) l ->
  mapM_res (fun x => assemble_bpf (format_insn x v)) (drop n l)
  = Ok (map i_bytes (drop n l)).
Proof.
  intros n Hn Hl Hd Hc. remember (length l - n)%nat as m eqn:Em. revert n Hn Em.
  induction m as [|m IH]; intros n Hn Em.
  { by rewrite drop_ge by lia. }
  destruct (lookup_lt_is_Some_2 l n) as [x Hx]; [lia|].
  rewrite (drop_S _ _ _ Hx). cbn [mapM_res map].
  rewrite Forall_lookup in Hc.
  rewrite (insn_ok_roundtrip v bs start l n x); [|unfold len in *; lia|by apply Hd|by eapply Hc].
  cbn [mbind res_bind]. by rewrite IH by lia.
Qed.

(** * Symbolic targets *)

Lemma sint64_wrap z : - 2 ^ 63 <= z < 2 ^ 63 -> sint 64 (wrap64 z) = z.
Proof.
  intros Hz. unfold sint, wrap. destruct (decide (0 <= z)).
  - rewrite Z.mod_small by lia. by replace (z <? 2 ^ (64 - 1)) with true by lia.
  - rewrite <- (Z_mod_plus_full z 1), Z.mod_small by lia.
    replace (z + 1 * 2 ^ 64 <? 2 ^ (64 - 1)) with false by lia. lia.
Qed.

Lemma wrap_sint_sub a b : in_range 64 a -> in_range 64 b ->
  wrap64 (sint 64 a - sint 64 b) = wrap64 (a - b).
Proof.
  intros Ha Hb. unfold wrap. rewrite Zminus_mod.
  change (sint 64 a mod 2 ^ 64) with (wrap64 (sint 64 a)).
  change (sint 64 b mod 2 ^ 64) with (wrap64 (sint 64 b)).
  rewrite !wrap_sint by (done || lia).
  rewrite (Zminus_mod a b). unfold in_range in *. by rewrite (Z.mod_small a), (Z.mod_small b) by lia.
Qed.

(** The slot distance undoes [jump_target]. *)
Lemma slot_offset_target x : - 2 ^ 15 <= offset x < 2 ^ 15 ->
  slot_offset_from (jump_target x) (i_addr x) = Some (offset x).
Proof.
  intros Ho. unfold slot_offset_from, jump_target, INSN_SIZE.
  set (next := wrap64 (i_addr x + 8)).
  rewrite wrap_sint_sub by (apply wrap_range; lia).
  assert (wrap64 (wrap64 (next + wrap64 (offset x * 8)) - next) = wrap64 (offset x * 8)) as ->.
  { unfold wrap at 1 2. rewrite Zminus_mod_idemp_l.
    replace (next + wrap64 (offset x * 8) - next) with (wrap64 (offset x * 8)) by lia.
    apply Z.mod_small, wrap_range. lia. }
  rewrite sint64_wrap by lia. rewrite Z.rem_mul by lia. simpl. by rewrite Z.quot_mul by lia.
Qed.

Lemma find_skip c p a s : Forall (fun b => b <> c) a ->
  find (c :: p) (a ++ s) = Nat.add (length a) <$> find (c :: p) s.
Proof.
  induction 1 as [|b a Hb _ IH]; cbn [app find length Nat.add].
  - by destruct (find _ _).
  - unfold starts_with. cbn [strip_prefix]. destruct (beqb c b) eqn:E.
    { apply beqb_true in E. congruence. }
    rewrite IH. by destruct (find (c :: p) s).
Qed.

Lemma find_here c p s : find (c :: p) (c :: p ++ s) = Some 0%nat.
Proof. cbn [find]. unfold starts_with. change (c :: p ++ s) with ((c :: p) ++ s).
  by rewrite strip_prefix_app. Qed.

Lemma plain_no_comma s : Forall (fun b => plain b = true) s ->
  Forall (fun b => b <> byte_of comma) s.
Proof. intros H. eapply Forall_impl; [exact H|]. intros b Hb ->. discriminate Hb. Qed.

Lemma word_plain s : Forall (fun b => graphic b && plain b = true) s ->
  Forall (fun b => plain b = true) s.
Proof. intros H. eapply Forall_impl; [exact H|]. simpl. intros b. rewrite andb_true_iff. tauto. Qed.

Definition label_text (target : Z) : list byte := str "label_" ++ fmt_hex target.

Lemma trim_hex v : trim (fmt_hex v) = fmt_hex v.
Proof. apply trim_graphic, word_graphic. by apply fmt_word. Qed.

(** Resolving a label after a comma that is the first [", label_"]. *)
Lemma resolve_label text pre x :
  - 2 ^ 15 <= offset x < 2 ^ 15 ->
  text = pre ++ str ", " ++ label_text (jump_target x) ->
  desymbolize_label text (i_addr x) (length pre)
  = Some (pre ++ str ", " ++ format_branch_offset (offset x)).
Proof.
  intros Ho ->. unfold desymbolize_label.
  rewrite lookup_app_r, Nat.sub_diag by lia. simpl lookup. cbv iota.
  change (u8 (byte_of comma) =? comma) with true.
  change (match Some Init.Byte.x2c with Some b => u8 b =? comma | None => false end) with true.
  cbv zeta iota. rewrite take_app_length, drop_sep by done. unfold label_text. rewrite strip_prefix_app. cbn [mbind option_bind].
  unfold parse_hex64. rewrite trim_hex. unfold fmt_hex.
  rewrite parse_fmt; [|lia|apply wrap_range; lia]. cbn [mbind option_bind].
  by rewrite slot_offset_target.
Qed.

(** In the text of a conditional jump the first [", label_"] is the last
    operand. *)
Lemma find_label m a b l :
  Forall (fun b => plain b = true) m -> Forall (fun b => plain b = true) a ->
  (exists c t, b = c :: t /\ u8 c <> 108) -> Forall (fun b => plain b = true) b ->
  let pre := m ++ str " " ++ a ++ str ", " ++ b in
  find (str ", label_") (pre ++ str ", " ++ label_text l) = Some (length pre).
Proof.
  intros Hm Ha (c & t & -> & Hc) Hb pre.
  change (str ", label_") with (byte_of comma :: str " label_").
  set (q := (c :: t) ++ str ", " ++ label_text l).
  assert (pre ++ str ", " ++ label_text l = (m ++ str " " ++ a) ++ (byte_of comma :: str " " ++ q))
    as -> by (subst pre q; by rewrite <- !(assoc_L (++))).
  rewrite find_skip by (apply plain_no_comma, Forall_app_2; [done|];
    apply Forall_app_2; [by repeat constructor|done]).
  assert (find (byte_of comma :: str " label_") (byte_of comma :: str " " ++ q)
          = S <$> find (byte_of comma :: str " label_") (str " " ++ q)) as ->.
  { cbn [find]. unfold starts_with.
    assert (strip_prefix (byte_of comma :: str " label_") (byte_of comma :: str " " ++ q) = None)
      as ->; [|done].
    change (strip_prefix (str "label_") (c :: t ++ str ", " ++ label_text l) = None).
    change (str "label_") with (byte_of 108 :: str "abel_"). cbn [strip_prefix].
    destruct (beqb (byte_of 108) c) eqn:E; [|done]. apply beqb_true in E as <-. done. }
  assert (str " " ++ q = (str " " ++ c :: t) ++ (byte_of comma :: str " label_" ++ fmt_hex l)) as ->
    by (subst q; by rewrite <- !(assoc_L (++))).
  rewrite find_skip by (apply plain_no_comma, Forall_app_2; [by repeat constructor|done]).
  rewrite find_here. cbn [fmap option_fmap option_map]. f_equal.
  subst pre. rewrite !length_app. change (length (str ", ")) with 2%nat.
  change (length (str " ")) with 1%nat. lia.
Qed.

Lemma desymbolize_jump t a hint at_ :
  find (str ", label_") (str "j" ++ t) = Some at_ ->
  desymbolize_bpf_text (str "j" ++ t) a hint = desymbolize_label (str "j" ++ t) a at_.
Proof.
  intros H. unfold desymbolize_bpf_text.
  change (strip_prefix (str "call_local sub_") (str "j" ++ t)) with (@None (list byte)).
  change (strip_prefix (str "call sub_") (str "j" ++ t)) with (@None (list byte)).
  change (strip_prefix (str "call ") (str "j" ++ t)) with (@None (list byte)).
  change (strip_prefix (str "call_local ") (str "j" ++ t)) with (@None (list byte)).
  cbv iota. by rewrite H.
Qed.

(** * Properties *)

(** C4: the text layer of the BPF backend is lossless on canonical slots: when
    every slot of a decoded stream is canonical for the variant (registers up
    to 10 and zeros in the fields its text does not show, see
    [canonical_class]), assembling the formatted text of each instruction
    succeeds and yields, in order, the slots of the stream. *)
Theorem bpf_text_roundtrip bs start v l :
  decode bs start v = Ok l -> Forall (fun x => canonical v x = true) l ->
  exists slots, mapM_res (fun x => assemble_bpf (format_insn x v)) l = Ok slots /\
                List.concat slots = bs.
Proof.
  intros Hdec Hc. destruct (decide (len bs mod 8 = 0)) as [Hm|Hm];
    [|by rewrite decode_misaligned in Hdec].
  destruct (decode_ok v bs start Hm) as (l' & E & Hl & Hd). rewrite E in Hdec. simplify_eq.
  exists (map i_bytes l). split.
  - pose proof (assemble_stream v bs start l 0 ltac:(lia) Hl Hd Hc) as H. by rewrite !drop_0 in H.
  - exact (decoded_concat v bs start l Hl Hd).
Qed.

Lemma bpf_text_roundtrip_witness :
  exists l, decode bpf_sample 0x1000 Linux = Ok l /\
    exists slots, mapM_res (fun x => assemble_bpf (format_insn x Linux)) l = Ok slots /\
                  List.concat slots = bpf_sample.
Proof.
  destruct (decode bpf_sample 0x1000 Linux) as [l| |] eqn:E; [|vm_compute in E; discriminate..].
  exists l. split; [reflexivity|]. apply (bpf_text_roundtrip bpf_sample 0x1000 Linux l E).
  vm_compute in E. injection E as <-. repeat (constructor; [vm_compute; reflexivity|]). constructor.
Defined.

(** C12: resolving a symbolic conditional jump undoes the target computation:
    the text of a conditional jump with its offset replaced by the label of
    its absolute target desymbolizes, at the instruction's address, to the
    text with the original offset, at every address and across wrap-around. *)
Theorem bpf_label_resolution v x n r c hint :
  opcode x = opcode_of n r c -> n ∈ jcc_nibbles -> c ∈ [0x5; 0x6] ->
  - 2 ^ 15 <= offset x < 2 ^ 15 -> kind x <> LddwSecondHalf ->
  exists pre, format_insn x v = pre ++ str ", " ++ format_branch_offset (offset x) /\
    desymbolize_bpf_text (pre ++ str ", label_" ++ fmt_hex (jump_target x)) (i_addr x) hint
    = Some (format_insn x v).
Proof.
  intros E Hn Hc Ho Hk. rewrite format_insn_class by done.
  set (m := jmp_mnemonic n ++ (if c =? 6 then str "32" else [])).
  set (pre := m ++ str " " ++ reg_text (dst x) ++ str ", " ++ rhs_text r (src x) (imm x)).
  assert (format_class x v = pre ++ str ", " ++ format_branch_offset (offset x)) as ->.
  { subst pre. rewrite <- !(assoc_L (++)). subst m.
    destruct r; unfold jcc_nibbles in Hn; elem_cases Hn En; subst n; elem_cases Hc Ec; subst c;
      known_text E. }
  exists pre. split; [done|].
  assert (exists t, m = str "j" ++ t /\ Forall (fun b => plain b = true) m) as (t & Hj & Hm).
  { subst m. unfold jcc_nibbles in Hn. elem_cases Hn En; subst n; elem_cases Hc Ec; subst c;
      (eexists; split; [reflexivity|by apply word_plain, word_str]). }
  change (str ", label_" ++ fmt_hex (jump_target x)) with (str ", " ++ label_text (jump_target x)).
  assert (exists t', pre ++ str ", " ++ label_text (jump_target x) = str "j" ++ t') as [t' Ht'].
  { unfold pre. rewrite Hj, <- !(assoc_L (++)). by eexists. }
  assert (find (str ", label_") (pre ++ str ", " ++ label_text (jump_target x)) = Some (length pre))
    as Hf by (apply find_label; [done|apply word_plain, reg_word|destruct r; by eexists _, _|
                                 apply word_plain; destruct r; [apply reg_word|apply hex_word]]).
  rewrite Ht', (desymbolize_jump _ _ _ (length pre)) by (by rewrite <- Ht').
  rewrite <- Ht'. by apply resolve_label.
Qed.

Lemma bpf_label_resolution_witness :
  let x := mk_insn 0x1018 (sub bpf_sample 24 32) JmpCond None in
  exists pre, format_insn x Linux = pre ++ str ", " ++ format_branch_offset (offset x) /\
    desymbolize_bpf_text (pre ++ str ", label_" ++ fmt_hex (jump_target x)) (i_addr x) None
    = Some (format_insn x Linux).
Proof.
  apply (bpf_label_resolution Linux (mk_insn 0x1018 (sub bpf_sample 24 32) JmpCond None)
           1 false 5 None).
  - reflexivity.
  - by left.
  - by left.
  - vm_compute. split; [discriminate|reflexivity].
  - discriminate.
Defined.
