(* ===== verification/Evm.v ===== *)
(** The EVM backend (src/src/arch/evm): opcode table, decoder, text form and
    assembler, and the codec built on it. *)

From S2P Require Import Prelude Text Common Ir.

(** * The opcode table (table.rs) *)

Record OpInfo : Type := {
  name : list byte;
  imm_len : Z;
  pops : Z;
  pushes : Z;
}.

Definition UNDEFINED : OpInfo := {| name := []; imm_len := 0; pops := 0; pushes := 0 |}.

Definition is_defined (o : OpInfo) : bool := negb (bool_decide (name o = [])).

Definition op (n : string) (pops pushes : Z) : OpInfo :=
  {| name := str n; imm_len := 0; pops := pops; pushes := pushes |}.

Definition PUSH_NAMES : list (list byte) :=
 [str "PUSH1"; str "PUSH2"; str "PUSH3"; str "PUSH4"; str "PUSH5"; str "PUSH6"; str "PUSH7";
  str "PUSH8"; str "PUSH9"; str "PUSH10"; str "PUSH11"; str "PUSH12"; str "PUSH13";
  str "PUSH14"; str "PUSH15"; str "PUSH16"; str "PUSH17"; str "PUSH18"; str "PUSH19";
  str "PUSH20"; str "PUSH21"; str "PUSH22"; str "PUSH23"; str "PUSH24"; str "PUSH25";
  str "PUSH26"; str "PUSH27"; str "PUSH28"; str "PUSH29"; str "PUSH30"; str "PUSH31";
  str "PUSH32"].

Definition DUP_NAMES : list (list byte) :=
 [str "DUP1"; str "DUP2"; str "DUP3"; str "DUP4"; str "DUP5"; str "DUP6"; str "DUP7";
  str "DUP8"; str "DUP9"; str "DUP10"; str "DUP11"; str "DUP12"; str "DUP13"; str "DUP14";
  str "DUP15"; str "DUP16"].

Definition SWAP_NAMES : list (list byte) :=
 [str "SWAP1"; str "SWAP2"; str "SWAP3"; str "SWAP4"; str "SWAP5"; str "SWAP6"; str "SWAP7";
  str "SWAP8"; str "SWAP9"; str "SWAP10"; str "SWAP11"; str "SWAP12"; str "SWAP13";
  str "SWAP14"; str "SWAP15"; str "SWAP16"].

Definition LOG_NAMES : list (list byte) :=
 [str "LOG0"; str "LOG1"; str "LOG2"; str "LOG3"; str "LOG4"].

(** The assignments [t[i] = ...] of [build_table], loops unrolled by [map]. *)
Definition table_low : list (Z * OpInfo) :=
  ([(0x00, op "STOP" 0 0); (0x01, op "ADD" 2 1); (0x02, op "MUL" 2 1); (0x03, op "SUB" 2 1);
    (0x04, op "DIV" 2 1); (0x05, op "SDIV" 2 1); (0x06, op "MOD" 2 1); (0x07, op "SMOD" 2 1);
    (0x08, op "ADDMOD" 3 1); (0x09, op "MULMOD" 3 1); (0x0a, op "EXP" 2 1);
    (0x0b, op "SIGNEXTEND" 2 1); (0x10, op "LT" 2 1); (0x11, op "GT" 2 1); (0x12, op "SLT" 2 1);
    (0x13, op "SGT" 2 1); (0x14, op "EQ" 2 1); (0x15, op "ISZERO" 1 1); (0x16, op "AND" 2 1);
    (0x17, op "OR" 2 1); (0x18, op "XOR" 2 1); (0x19, op "NOT" 1 1); (0x1a, op "BYTE" 2 1);
    (0x1b, op "SHL" 2 1); (0x1c, op "SHR" 2 1); (0x1d, op "SAR" 2 1); (0x1e, op "CLZ" 1 1);
    (0x20, op "KECCAK256" 2 1); (0x30, op "ADDRESS" 0 1); (0x31, op "BALANCE" 1 1);
    (0x32, op "ORIGIN" 0 1); (0x33, op "CALLER" 0 1); (0x34, op "CALLVALUE" 0 1);
    (0x35, op "CALLDATALOAD" 1 1); (0x36, op "CALLDATASIZE" 0 1); (0x37, op "CALLDATACOPY" 3 0);
    (0x38, op "CODESIZE" 0 1); (0x39, op "CODECOPY" 3 0); (0x3a, op "GASPRICE" 0 1);
    (0x3b, op "EXTCODESIZE" 1 1); (0x3c, op "EXTCODECOPY" 4 0); (0x3d, op "RETURNDATASIZE" 0 1);
    (0x3e, op "RETURNDATACOPY" 3 0); (0x3f, op "EXTCODEHASH" 1 1); (0x40, op "BLOCKHASH" 1 1);
    (0x41, op "COINBASE" 0 1); (0x42, op "TIMESTAMP" 0 1); (0x43, op "NUMBER" 0 1);
    (0x44, op "PREVRANDAO" 0 1); (0x45, op "GASLIMIT" 0 1); (0x46, op "CHAINID" 0 1);
    (0x47, op "SELFBALANCE" 0 1); (0x48, op "BASEFEE" 0 1); (0x49, op "BLOBHASH" 1 1);
    (0x4a, op "BLOBBASEFEE" 0 1); (0x50, op "POP" 1 0); (0x51, op "MLOAD" 1 1);
    (0x52, op "MSTORE" 2 0); (0x53, op "MSTORE8" 2 0); (0x54, op "SLOAD" 1 1);
    (0x55, op "SSTORE" 2 0); (0x56, op "JUMP" 1 0); (0x57, op "JUMPI" 2 0); (0x58, op "PC" 0 1);
    (0x59, op "MSIZE" 0 1); (0x5a, op "GAS" 0 1); (0x5b, op "JUMPDEST" 0 0);
    (0x5c, op "TLOAD" 1 1); (0x5d, op "TSTORE" 2 0); (0x5e, op "MCOPY" 3 0);
    (0x5f, op "PUSH0" 0 1)])%string.

Definition table_push : list (Z * OpInfo) :=
  map (fun i => (0x60 + i, {| name := nth (Z.to_nat i) PUSH_NAMES []; imm_len := wrap8 (i + 1);
                              pops := 0; pushes := 1 |})) (seqZ 0 32).

Definition table_dup_swap : list (Z * OpInfo) :=
  List.concat (map (fun i =>
    [(0x80 + i, {| name := nth (Z.to_nat i) DUP_NAMES []; imm_len := 0;
                   pops := wrap8 (i + 1); pushes := wrap8 (i + 2) |});
     (0x90 + i, {| name := nth (Z.to_nat i) SWAP_NAMES []; imm_len := 0;
                   pops := wrap8 (i + 2); pushes := wrap8 (i + 2) |})]) (seqZ 0 16)).

Definition table_log : list (Z * OpInfo) :=
  map (fun i => (0xa0 + i, {| name := nth (Z.to_nat i) LOG_NAMES []; imm_len := 0;
                              pops := wrap8 (i + 2); pushes := 0 |})) (seqZ 0 5).

Definition table_high : list (Z * OpInfo) :=
  ([(0xf0, op "CREATE" 3 1); (0xf1, op "CALL" 7 1); (0xf2, op "CALLCODE" 7 1);
    (0xf3, op "RETURN" 2 0); (0xf4, op "DELEGATECALL" 6 1); (0xf5, op "CREATE2" 4 1);
    (0xfa, op "STATICCALL" 6 1); (0xfd, op "REVERT" 2 0); (0xfe, op "INVALID" 0 0);
    (0xff, op "SELFDESTRUCT" 1 0)])%string.

Definition build_table : list OpInfo :=
  fold_left (fun t '(i, o) => <[Z.to_nat i := o]> t)
    (table_low ++ table_push ++ table_dup_swap ++ table_log ++ table_high)
    (replicate 256 UNDEFINED).

Definition OPCODE_TABLE : list OpInfo := build_table.

(** [OPCODE_TABLE[b as usize]]. *)
Definition op_info (b : Z) : OpInfo := nth (Z.to_nat b) OPCODE_TABLE UNDEFINED.

#[global] Arguments op_info : simpl never.

Definition opcode_by_name (nm : list byte) : option Z :=
  let upper := to_ascii_uppercase nm in
  let canonical :=
    if str_eqb upper (str "SHA3") then str "KECCAK256"
    else if str_eqb upper (str "DIFFICULTY") then str "PREVRANDAO"
    else if str_eqb upper (str "SUICIDE") then str "SELFDESTRUCT"
    else upper in
  List.find (fun b => str_eqb (name (op_info b)) canonical) (seqZ 0 256).

(** * Instructions (mod.rs) *)

Definition JUMPDEST : Z := 0x5b.
Definition PUSH1 : Z := 0x60.
Definition PUSH32 : Z := 0x7f.

Record DecodedInsn : Type := {
  i_addr : VAddr;
  opcode : Z;
  i_bytes : list byte;
}.

#[export] Instance evm_arch_insn : ArchInsn DecodedInsn :=
  {| addr := i_addr; original_bytes := i_bytes |}.

Definition info (i : DecodedInsn) : OpInfo := op_info (opcode i).

(** [&self.original_bytes[1..]]; an instruction has at least its opcode. *)
Definition immediate (i : DecodedInsn) : list byte := drop 1 (i_bytes i).

Definition is_truncated (i : DecodedInsn) : bool :=
  len (i_bytes i) <? 1 + imm_len (info i).

(** [iter().skip_while(|&&b| b == 0)]. *)
Fixpoint skip_zeros (l : list byte) : list byte :=
  match l with
  | [] => []
  | b :: l' => if u8 b =? 0 then skip_zeros l' else l
  end.

Definition push_value (i : DecodedInsn) : option Z :=
  if negb ((0x5f <=? opcode i) && (opcode i <=? PUSH32)) || is_truncated i then None
  else
    let imm := immediate i in
    if 8 <? len (skip_zeros imm) then None
    else Some (fold_left (fun acc b => Z.lor (wrap64 (Z.shiftl acc 8)) (u8 b)) imm 0).

Definition next_addr {E} (i : DecodedInsn) : res E Z :=
  usize_add (i_addr i) (len (i_bytes i)).

Definition decode_one (bytes : list byte) (a : Z) : option DecodedInsn :=
  match bytes with
  | [] => None
  | b :: _ =>
      let opcode := u8 b in
      let n := Z.min (1 + imm_len (op_info opcode)) (len bytes) in
      Some {| i_addr := a; opcode := opcode; i_bytes := take (Z.to_nat n) bytes |}
  end.

(** [while let Some(insn) = decode_one(&bytes[off..], start + off)]: each turn
    consumes a byte, so [length bytes] turns are enough. The address
    computation overflows past the end of the address space. *)
Fixpoint decode_loop {E} (fuel : nat) (bytes : list byte) (start off : Z)
    (out : list DecodedInsn) : res E (list DecodedInsn) :=
  rest ← slice bytes off (len bytes);
  a ← usize_add start off;
  match decode_one rest a with
  | None => Ok out
  | Some insn =>
      match fuel with
      | O => Panic
      | S fuel' => decode_loop fuel' bytes start (off + len (i_bytes insn)) (out ++ [insn])
      end
  end.

Definition decode_range {E} (bytes : list byte) (start : Z) : res E (list DecodedInsn) :=
  decode_loop (length bytes) bytes start 0 [].

(** [{:02x}] of a byte. *)
Definition hex2 (b : byte) : list byte := pad0 2 (fmt_hex (u8 b)).

Definition format_insn (i : DecodedInsn) : list byte :=
  if negb (is_defined (info i)) then str ".byte 0x" ++ pad0 2 (fmt_hex (opcode i))
  else if imm_len (info i) =? 0 then name (info i)
  else
    name (info i) ++ str " 0x" ++ List.concat (map hex2 (immediate i)) ++
    (if is_truncated i then
       str " ; truncated: " ++ fmt_dec (len (immediate i)) ++ str " of "
       ++ fmt_dec (imm_len (info i)) ++ str " immediate bytes"
     else []).

Inductive InsnKind : Type := Jump | JumpI | JumpDest | Halt | Other.

Definition classify (i : DecodedInsn) : InsnKind :=
  if opcode i =? 0x56 then Jump
  else if opcode i =? 0x57 then JumpI
  else if opcode i =? JUMPDEST then JumpDest
  else if existsb (Z.eqb (opcode i)) [0x00; 0xf3; 0xfd; 0xfe; 0xff] then Halt
  else if negb (is_defined (op_info (opcode i))) then Halt
  else Other.

(** * The assembler *)

Inductive AssembleError : Type :=
| Empty
| UnknownMnemonic (m : list byte)
| UnexpectedOperand (mnemonic : list byte)
| MissingOperand (mnemonic : list byte)
| BadImmediate (t : list byte)
| ImmediateTooWide (text : list byte) (width : Z).

(** [chunks(2)]. *)
Fixpoint chunks2 (s : list byte) : list (list byte) :=
  match s with
  | [] => []
  | [a] => [[a]]
  | a :: b :: t => [a; b] :: chunks2 t
  end.

Definition parse_pair (text pair : list byte) : res AssembleError byte :=
  if utf8_valid pair
  then v ← ok_or (parse_unsigned 16 8 pair) (BadImmediate text); Ok (byte_of v)
  else Err (BadImmediate text).

Definition parse_immediate (text : list byte) (width : Z) : res AssembleError (list byte) :=
  let bad := BadImmediate text in
  digits ←
    match match strip_prefix (str "0x") text with
          | Some hex => Some hex
          | None => strip_prefix (str "0X") text
          end with
    | Some hex =>
        if bool_decide (hex = []) then Err bad
        else
          let padded := if len hex mod 2 =? 1 then str "0" ++ hex else hex in
          mapM_res (parse_pair text) (chunks2 padded)
    | None =>
        n ← ok_or (parse_unsigned 10 128 text) bad;
        Ok (to_be 16 n)
    end;
  let significant := skip_zeros digits in
  if width <? len significant then Err (ImmediateTooWide text width)
  else Ok (replicate (Z.to_nat (width - len significant)) (byte_of 0) ++ significant).

Definition assemble_one (text : list byte) : res AssembleError (list byte) :=
  let code := trim (before (byte_of 59) text) in
  let parts := split_whitespace code in
  mnemonic ← ok_or (parts !! 0%nat) Empty;
  let operand := parts !! 1%nat in
  match parts !! 2%nat with
  | Some extra => Err (BadImmediate extra)
  | None =>
      if eq_ignore_ascii_case mnemonic (str ".byte") then
        op ← ok_or operand (MissingOperand mnemonic);
        parse_immediate op 1
      else
        opcode ← ok_or (opcode_by_name mnemonic) (UnknownMnemonic mnemonic);
        let width := imm_len (op_info opcode) in
        match width =? 0, operand with
        | true, None => Ok [byte_of opcode]
        | true, Some _ => Err (UnexpectedOperand mnemonic)
        | false, None => Err (MissingOperand mnemonic)
        | false, Some op =>
            imm ← parse_immediate op width;
            Ok (byte_of opcode :: imm)
        end
  end.
