(* ===== verification/EvmRoundTrip.v ===== *)
(** The EVM decoder is exact and the assembler inverts the text form. *)

From S2P Require Import Prelude Text Common Ir Evm.

(** * The opcode table *)

Lemma imm_len_range o : 0 <= o < 256 -> 0 <= imm_len (op_info o) <= 32.
Proof.
  intros Ho.
  pose proof (all_opcodes (fun o => (0 <=? imm_len (op_info o)) && (imm_len (op_info o) <=? 32))
                ltac:(vm_compute; reflexivity) o Ho) as H. cbv beta in H. lia.
Qed.

(** Immediates belong to [PUSH1] to [PUSH32] alone. *)
Lemma imm_len_push o : 0 <= o < 256 ->
  imm_len (op_info o) = if (0x60 <=? o) && (o <=? 0x7f) then o - 0x5f else 0.
Proof.
  intros Ho.
  pose proof (all_opcodes (fun o => imm_len (op_info o) =?
                (if (0x60 <=? o) && (o <=? 0x7f) then o - 0x5f else 0))
                ltac:(vm_compute; reflexivity) o Ho) as H. cbv beta in H. lia.
Qed.

(** * The decoder *)

Inductive decodes : list byte -> Z -> list DecodedInsn -> Prop :=
| decodes_nil a : decodes [] a []
| decodes_cons bs a i l :
    decode_one bs a = Some i ->
    decodes (drop (length (i_bytes i)) bs) (a + len (i_bytes i)) l ->
    decodes bs a (i :: l).

Lemma evm_decode_one_ok bs a i : decode_one bs a = Some i ->
  i_addr i = a /\ (exists b t, bs = b :: t /\ opcode i = u8 b /\ head (i_bytes i) = Some b) /\
  i_bytes i = take (length (i_bytes i)) bs /\
  len (i_bytes i) = Z.min (1 + imm_len (info i)) (len bs).
Proof.
  destruct bs as [|b t]; [done|]. simpl. intros [= <-]. unfold info. cbn [i_addr opcode i_bytes].
  pose proof (imm_len_range (u8 b) (u8_range b)) as Hi.
  set (n := Z.min (1 + imm_len (op_info (u8 b))) (len (b :: t))).
  assert (1 <= n <= len (b :: t)) as Hn by (subst n; unfold len; simpl length; lia).
  split_and!; [done| | |].
  - exists b, t. split_and!; [done..|]. destruct (Z.to_nat n) eqn:E; [lia|done].
  - rewrite length_take. unfold len in Hn. by rewrite Nat.min_l by lia.
  - unfold len. rewrite length_take. unfold len in Hn. lia.
Qed.

Lemma evm_decode_loop_ok {E} bs start : 0 <= start -> start + len bs < 2 ^ 64 ->
  forall fuel off out, 0 <= off <= len bs -> len bs - off <= Z.of_nat fuel ->
  exists l, decode_loop (E:=E) fuel bs start off out = Ok (out ++ l) /\
            decodes (drop (Z.to_nat off) bs) (start + off) l.
Proof.
  intros Hs Hb. induction fuel as [|fuel IH]; intros off out Ho Hf; cbn [decode_loop];
    rewrite slice_ok by lia; cbn [mbind res_bind]; unfold usize_add;
    replace (start + off <? 2 ^ 64) with true by lia; cbn [mbind res_bind];
    (assert (sub bs off (len bs) = drop (Z.to_nat off) bs) as ->
       by (unfold sub; apply take_ge; rewrite length_drop; unfold len; lia)).
  - rewrite drop_ge by (unfold len in *; lia). exists []. rewrite app_nil_r. split; [done|constructor].
  - destruct (decode_one (drop (Z.to_nat off) bs) (start + off)) as [i|] eqn:E1; cycle 1.
    { destruct (drop (Z.to_nat off) bs) eqn:E2; [|done]. exists []. rewrite app_nil_r.
      split; [done|constructor]. }
    destruct (evm_decode_one_ok _ _ _ E1) as (_ & (b & t & Hbt & _) & _ & Hlen).
    pose proof (u8_range b).
    assert (len (drop (Z.to_nat off) bs) = len bs - off) as Hd
      by (unfold len in *; rewrite length_drop; lia).
    assert (1 <= len (i_bytes i) <= len bs - off) as Hi.
    { rewrite Hlen, Hd. assert (1 <= len bs - off) by (rewrite <- Hd, Hbt; unfold len; simpl; lia).
      unfold decode_one in E1. rewrite Hbt in E1. simplify_eq. unfold info. cbn [opcode].
      pose proof (imm_len_range (u8 b) ltac:(lia)). lia. }
    destruct (IH (off + len (i_bytes i)) (out ++ [i])) as (l & -> & Hl); [lia|lia|].
    exists (i :: l). rewrite <- (assoc_L (++)). split; [done|]. econstructor; [done|].
    rewrite drop_drop. replace (start + off + len (i_bytes i)) with (start + (off + len (i_bytes i))) by lia.
    replace (Z.to_nat off + length (i_bytes i))%nat with (Z.to_nat (off + len (i_bytes i)))
      by (unfold len; lia). done.
Qed.

Lemma decode_range_ok {E} bs start : 0 <= start -> start + len bs < 2 ^ 64 ->
  exists l, decode_range (E:=E) bs start = Ok l /\ decodes bs start l.
Proof.
  intros Hs Hb. unfold decode_range.
  destruct (evm_decode_loop_ok (E:=E) bs start Hs Hb (length bs) 0 []) as (l & -> & Hl);
    [unfold len; lia|unfold len; lia|].
  exists l. rewrite Z.add_0_r in Hl. done.
Qed.

Lemma evm_decodes_concat bs a l : decodes bs a l -> concat_bytes l = bs.
Proof.
  induction 1 as [|bs a i l Hi _ IH]; [done|]. change (i :: l) with ([i] ++ l).
  rewrite concat_bytes_app, IH. destruct (evm_decode_one_ok _ _ _ Hi) as (_ & _ & Hb & _).
  unfold concat_bytes. simpl. rewrite app_nil_r.
  rewrite Hb at 1. apply take_drop.
Qed.

(** Where each instruction of a decoded stream sits. *)
Definition placed (bs : list byte) (start : Z) (l : list DecodedInsn) (k : nat)
    (x : DecodedInsn) : Prop :=
  let off := len (concat_bytes (take k l)) in
  i_addr x = start + off /\ i_bytes x = sub bs off (off + len (i_bytes x)) /\
  head (i_bytes x) = Some (byte_of (opcode x)) /\ 0 <= opcode x < 256 /\
  len (i_bytes x) = Z.min (1 + imm_len (info x)) (len bs - off) /\
  (is_truncated x = true -> S k = length l).

Lemma evm_decodes_placed bs a l : decodes bs a l ->
  forall k x, l !! k = Some x -> placed bs a l k x.
Proof.
  induction 1 as [|bs a i l Hi Hl IH]; intros k x Hk; [by rewrite lookup_nil in Hk|].
  destruct (evm_decode_one_ok _ _ _ Hi) as (Ha & (b & t & Hbt & Hop & Hh) & Hb & Hn).
  destruct k as [|k].
  - injection Hk as <-. unfold placed. cbn [take concat_bytes map List.concat].
    change (len (@nil byte)) with 0. split_and!.
    + lia.
    + rewrite Hb at 1. unfold sub. rewrite drop_0. f_equal. unfold len. lia.
    + rewrite Hh, Hop. by rewrite byte_of_u8.
    + rewrite Hop. pose proof (u8_range b). lia.
    + rewrite Hop. pose proof (u8_range b). lia.
    + lia.
    + unfold is_truncated. intros Ht. apply Z.ltb_lt in Ht.
      assert (len (i_bytes i) = len bs) as E by lia.
      assert (drop (length (i_bytes i)) bs = []) as Hd
        by (apply drop_ge; unfold len in E; lia).
      rewrite Hd in Hl. inversion Hl as [|? ? ? ? Hnone]; subst; [done|]. by simpl in Hnone.
  - simpl in Hk. destruct (IH k x Hk) as (IHa & IHb & IHh & IHo & IHn & IHt). unfold placed.
    cbn [take]. change (i :: take k l) with ([i] ++ take k l).
    rewrite concat_bytes_app, len_app.
    assert (concat_bytes [i] = i_bytes i) as -> by (unfold concat_bytes; simpl; by rewrite app_nil_r).
    set (off := len (concat_bytes (take k l))) in *.
    pose proof (len_nonneg (i_bytes i)). pose proof (len_nonneg (concat_bytes (take k l))).
    assert (len (drop (length (i_bytes i)) bs) = len bs - len (i_bytes i)) as Hdl.
    { rewrite Hb at 1. unfold len. rewrite length_drop, length_take.
      pose proof (f_equal length Hb) as Hlb. rewrite length_take in Hlb. lia. }
    split_and!; [lia| |done|lia|lia| |intros Ht; simpl; by rewrite (IHt Ht)].
    + rewrite IHb at 1. unfold sub. rewrite drop_drop. f_equal; [lia|]. f_equal. unfold len. lia.
    + rewrite IHn, Hdl. lia.
Qed.

(** * Hexadecimal immediates *)

Definition hex2_check (b : byte) : bool :=
  match hex2 b with
  | [c; d] => utf8_valid [c; d] && bool_decide (parse_unsigned 16 8 [c; d] = Some (u8 b))
              && digit_like c && digit_like d
  | _ => false
  end.

Lemma hex2_ok b : exists c d, hex2 b = [c; d] /\ utf8_valid [c; d] = true /\
  parse_unsigned 16 8 [c; d] = Some (u8 b) /\ digit_like c = true /\ digit_like d = true.
Proof.
  pose proof (all_bytes_spec hex2_check ltac:(vm_compute; reflexivity) b) as H.
  unfold hex2_check in H.
  destruct (hex2 b) as [|c [|d [|]]]; try done. exists c, d.
  rewrite !andb_true_iff, bool_decide_eq_true in H. naive_solver.
Qed.

Lemma parse_hex_pairs t imm :
  mapM_res (parse_pair t) (chunks2 (List.concat (map hex2 imm))) = Ok imm.
Proof.
  induction imm as [|b imm IH]; [done|]. cbn [map List.concat].
  destruct (hex2_ok b) as (c & d & -> & Hu & Hp & _). cbn [app chunks2 mapM_res].
  assert (parse_pair t [c; d] = Ok b) as ->
    by (unfold parse_pair; rewrite Hu, Hp; cbn [ok_or mbind res_bind]; by rewrite byte_of_u8).
  cbn [mbind res_bind]. by rewrite IH.
Qed.

Lemma len_hex imm : len (List.concat (map hex2 imm)) = 2 * len imm.
Proof.
  induction imm as [|b imm IH]; [done|]. cbn [map List.concat].
  destruct (hex2_ok b) as (c & d & -> & _). rewrite len_app, IH. unfold len. simpl length. lia.
Qed.

Lemma hex_digit_like imm : Forall (fun b => digit_like b = true) (List.concat (map hex2 imm)).
Proof.
  induction imm as [|b imm IH]; [done|]. cbn [map List.concat].
  destruct (hex2_ok b) as (c & d & -> & _ & _ & ? & ?). by repeat constructor.
Qed.

Lemma skip_zeros_len l : len (skip_zeros l) <= len l.
Proof.
  induction l as [|b l IH]; [done|]. simpl. case_match; unfold len in *; simpl length; lia.
Qed.

Lemma skip_zeros_pad l :
  replicate (Z.to_nat (len l - len (skip_zeros l))) (byte_of 0) ++ skip_zeros l = l.
Proof.
  induction l as [|b l IH]; [done|]. simpl. destruct (Z.eqb_spec (u8 b) 0) as [Hb|Hb].
  - assert (b = byte_of 0) as -> by (by rewrite <- (byte_of_u8 b), Hb).
    pose proof (skip_zeros_len l).
    replace (Z.to_nat (len (byte_of 0 :: l) - len (skip_zeros l)))
      with (S (Z.to_nat (len l - len (skip_zeros l))))
      by (unfold len in *; simpl length; lia).
    cbn [replicate app]. by rewrite IH.
  - by rewrite Z.sub_diag.
Qed.

Lemma parse_immediate_hex imm : imm <> [] ->
  parse_immediate (str "0x" ++ List.concat (map hex2 imm)) (len imm) = Ok imm.
Proof.
  intros Hne. unfold parse_immediate. rewrite strip_prefix_app.
  rewrite bool_decide_false.
  2: { intros E. pose proof (len_hex imm) as H. rewrite E in H. destruct imm; [done|].
       unfold len in H. simpl length in H. lia. }
  rewrite len_hex, Z.mul_comm, Z_mod_mult. change (0 =? 1) with false. cbv iota.
  rewrite parse_hex_pairs. cbn [mbind res_bind]. pose proof (skip_zeros_len imm).
  replace (len imm <? len (skip_zeros imm)) with false by lia. by rewrite skip_zeros_pad.
Qed.

(** * Text round trip *)

(** Opcodes without immediate, checked one by one. *)
Definition plain_check (o : Z) : bool :=
  negb (imm_len (op_info o) =? 0) ||
  match assemble_one (format_insn {| i_addr := 0; opcode := o; i_bytes := [byte_of o] |}) with
  | Ok l => bool_decide (l = [byte_of o])
  | _ => false
  end.

Lemma assemble_plain o a : 0 <= o < 256 -> imm_len (op_info o) = 0 ->
  assemble_one (format_insn {| i_addr := a; opcode := o; i_bytes := [byte_of o] |})
  = Ok [byte_of o].
Proof.
  intros Ho Hi.
  pose proof (all_opcodes plain_check ltac:(vm_compute; reflexivity) o Ho) as H.
  unfold plain_check in H.
  rewrite Hi in H. cbn [Z.eqb negb orb] in H. cbv iota in H.
  change (format_insn {| i_addr := a; opcode := o; i_bytes := [byte_of o] |})
    with (format_insn {| i_addr := 0; opcode := o; i_bytes := [byte_of o] |}).
  destruct (assemble_one _); [|done..]. by apply bool_decide_eq_true in H as ->.
Qed.

Definition push_name_ok (o : Z) : bool :=
  let nm := name (op_info o) in
  forallb (fun b => graphic b && negb (u8 b =? 59)) nm && negb (bool_decide (nm = [])) &&
  negb (eq_ignore_ascii_case nm (str ".byte")) && bool_decide (opcode_by_name nm = Some o).

Lemma push_names o : 0 <= o < 256 -> is_defined (op_info o) = true ->
  let nm := name (op_info o) in
  Forall (fun b => graphic b = true /\ u8 b <> 59) nm /\ nm <> [] /\
  eq_ignore_ascii_case nm (str ".byte") = false /\ opcode_by_name nm = Some o.
Proof.
  intros Ho Hd.
  pose proof (all_opcodes (fun o => negb (is_defined (op_info o)) || push_name_ok o)
                ltac:(vm_compute; reflexivity) o Ho) as H. cbv beta in H.
  rewrite Hd in H. simpl in H. unfold push_name_ok in H.
  rewrite !andb_true_iff, !negb_true_iff, bool_decide_eq_true, bool_decide_eq_false in H.
  destruct H as [[[H1 H2] H3] H4]. split_and!; [|done..].
  apply Forall_forall. intros b Hb. rewrite List.forallb_forall in H1.
  specialize (H1 b (proj1 (list_elem_of_In _ _) Hb)). apply andb_true_iff in H1 as [? H5].
  apply negb_true_iff, Z.eqb_neq in H5. done.
Qed.

Lemma assemble_push nm imm o : 0 <= o < 256 -> is_defined (op_info o) = true ->
  nm = name (op_info o) -> imm_len (op_info o) = len imm -> imm <> [] ->
  assemble_one (nm ++ str " 0x" ++ List.concat (map hex2 imm)) = Ok (byte_of o :: imm).
Proof.
  intros Ho Hd -> Hi Hne. destruct (push_names o Ho Hd) as (Hnm & Hn & He & Hop).
  set (nm := name (op_info o)) in *. clearbody nm. set (hx := str "0x" ++ List.concat (map hex2 imm)).
  change (str " 0x" ++ List.concat (map hex2 imm)) with (str " " ++ hx).
  assert (Forall (fun b => graphic b = true) nm) as Hng
    by (eapply Forall_impl; [exact Hnm|]; simpl; tauto).
  assert (Forall (fun b => graphic b = true /\ u8 b <> 59) hx) as Hhx.
  { apply Forall_app_2; [by repeat constructor|]. eapply Forall_impl; [apply hex_digit_like|].
    intros b Hb. split; [by apply digit_like_graphic|]. unfold digit_like in Hb. lia. }
  assert (Forall (fun b => graphic b = true) hx) as Hhg
    by (eapply Forall_impl; [exact Hhx|]; simpl; tauto).
  assert (hx <> []) as Hhne by done.
  unfold assemble_one. rewrite before_notin; cycle 1.
  { assert (forall l, Forall (fun b => graphic b = true /\ u8 b <> 59) l -> byte_of 59 ∉ l) as G.
    { intros l Hl Hin. rewrite Forall_forall in Hl. by destruct (Hl _ Hin) as [_ ?]. }
    rewrite !not_elem_of_app. split_and!; [by apply G| |by apply G].
    intros Hin. apply list_elem_of_In in Hin. vm_compute in Hin. intuition discriminate. }
  rewrite trim_id; cycle 1.
  { destruct nm as [|c nm']; [by destruct (Hn eq_refl)|]. exists c. split; [done|]. by inversion_clear Hng. }
  { rewrite (assoc_L (++)). rewrite last_app. destruct (last hx) as [b|] eqn:E; [|by apply last_None in E].
    exists b. split; [done|]. apply last_Some in E as [l E]. rewrite E in Hhg.
    apply Forall_app in Hhg as [_ Hhg]. by inversion_clear Hhg. }
  rewrite split_ws_space, split_ws_one by done.
  cbn [lookup list_lookup ok_or mbind res_bind]. rewrite He, Hop. cbn [ok_or mbind res_bind].
  assert (1 <= len imm) by (destruct imm; [done|unfold len; simpl length; lia]).
  rewrite Hi. replace (len imm =? 0) with false by lia.
  subst hx. by rewrite parse_immediate_hex.
Qed.

Lemma opcode_by_name_upper s t :
  to_ascii_uppercase s = to_ascii_uppercase t -> opcode_by_name s = opcode_by_name t.
Proof. unfold opcode_by_name. by intros ->. Qed.

Definition upper_check (o : Z) : bool :=
  str_eqb (to_ascii_uppercase (name (op_info o))) (name (op_info o)).

Lemma upper_name o : 0 <= o < 256 -> to_ascii_uppercase (name (op_info o)) = name (op_info o).
Proof.
  intros Ho. pose proof (all_opcodes upper_check ltac:(vm_compute; reflexivity) o Ho) as H.
  by apply bool_decide_eq_true in H.
Qed.

Lemma opcode_by_name_inv s o : opcode_by_name s = Some o -> 0 <= o < 256 /\
  (name (op_info o) = to_ascii_uppercase s \/
   to_ascii_uppercase s ∈ [str "SHA3"; str "DIFFICULTY"; str "SUICIDE"]).
Proof.
  unfold opcode_by_name. intros H. apply List.find_some in H as [Hin Hn].
  apply list_elem_of_In, elem_of_seqZ in Hin. split; [lia|].
  unfold str_eqb in Hn. apply bool_decide_eq_true in Hn.
  repeat case_bool_decide; try (right; rewrite !elem_of_cons; tauto). by left.
Qed.

(** * Properties *)

(** [PUSH2 0x01a3], [JUMPDEST], an unassigned byte, and a truncated push. *)
Definition evm_sample : list byte :=
  byte_of <$> [0x61; 0x01; 0xa3; 0x5b; 0x0c; 0x63; 0xaa; 0xbb].

(** The EVM decoder is total and exact: below the end of the address
    space it decodes any byte string, the instructions concatenate to it, each
    one sits at the code offset of its first byte, carries its opcode and as
    many immediate bytes as the opcode has and the code still holds, and only
    the last instruction can be a truncated push. *)
Theorem evm_decode_exact bs start :
  0 <= start -> start + len bs < 2 ^ 64 ->
  exists l, decode_range (E:=Empty_set) bs start = Ok l /\ concat_bytes l = bs /\
    forall k x, l !! k = Some x -> placed bs start l k x.
Proof.
  intros Hs Hb. destruct (decode_range_ok (E:=Empty_set) bs start Hs Hb) as (l & E & Hl).
  exists l. split_and!; [done| |]; [by eapply evm_decodes_concat|by apply evm_decodes_placed].
Qed.

Lemma evm_decode_exact_witness :
  exists l, decode_range (E:=Empty_set) evm_sample 0 = Ok l /\ concat_bytes l = evm_sample /\
    forall k x, l !! k = Some x -> placed evm_sample 0 l k x.
Proof. apply (evm_decode_exact evm_sample 0); [lia|reflexivity]. Defined.

(** C32: the EVM assembler inverts the text form: every decoded instruction
    that is not a truncated push, an unassigned byte included, assembles from
    its own text to its own bytes. *)
Theorem evm_text_roundtrip bs a i :
  decode_one bs a = Some i -> is_truncated i = false ->
  assemble_one (format_insn i) = Ok (i_bytes i).
Proof.
  intros Hi Ht. destruct (evm_decode_one_ok _ _ _ Hi) as (_ & (b & t & _ & Hop & Hh) & _ & Hn).
  destruct i as [ad o ibs]. cbn [opcode i_bytes] in *. subst o. pose proof (u8_range b) as Hb.
  pose proof (imm_len_range (u8 b) Hb) as Hr.
  unfold is_truncated, info in *. cbn [opcode i_bytes] in *. apply Z.ltb_ge in Ht.
  assert (len ibs = 1 + imm_len (op_info (u8 b))) as Hl by lia.
  destruct ibs as [|b' imm]; [done|]. injection Hh as ->.
  assert (len imm = imm_len (op_info (u8 b))) as Hli by (unfold len in *; simpl length in *; lia).
  destruct (Z.eqb_spec (imm_len (op_info (u8 b))) 0) as [H0|H0].
  - destruct imm; [|unfold len in *; simpl length in *; lia].
    pose proof (assemble_plain (u8 b) ad Hb H0) as H. by rewrite byte_of_u8 in H.
  - assert (is_defined (op_info (u8 b)) = true) as Hd.
    { pose proof (all_opcodes (fun o => is_defined (op_info o) || (imm_len (op_info o) =? 0))
                    ltac:(vm_compute; reflexivity) (u8 b) Hb) as H. cbv beta in H.
      apply orb_true_iff in H as [H|H]; [done|lia]. }
    unfold format_insn, info, is_truncated, immediate, info. cbn [opcode i_bytes drop].
    rewrite Hd. cbn [negb]. cbv iota. replace (imm_len (op_info (u8 b)) =? 0) with false by lia.
    replace (len (b :: imm) <? 1 + imm_len (op_info (u8 b))) with false by lia.
    rewrite app_nil_r, (assemble_push _ imm (u8 b)); try done.
    + by rewrite byte_of_u8.
    + intros ->. unfold len in Hli. simpl in Hli. lia.
Qed.

Lemma evm_text_roundtrip_witness :
  exists i, decode_one evm_sample 0 = Some i /\ assemble_one (format_insn i) = Ok (i_bytes i).
Proof.
  destruct (decode_one evm_sample 0) as [i|] eqn:E; [|vm_compute in E; discriminate].
  exists i. split; [reflexivity|]. apply (evm_text_roundtrip evm_sample 0 i E).
  vm_compute in E. injection E as <-. vm_compute. reflexivity.
Defined.

(** Mnemonics and opcodes correspond: every assigned opcode is found by
    its mnemonic in any mix of cases; the names of assigned opcodes are
    distinct; the three historical aliases resolve to their successors; and a
    name that resolves to an assigned opcode is that opcode's mnemonic or an
    alias. *)
Theorem evm_mnemonics :
  (forall o s, 0 <= o < 256 -> is_defined (op_info o) = true ->
     to_ascii_uppercase s = name (op_info o) -> opcode_by_name s = Some o) /\
  (forall s o, opcode_by_name s = Some o -> 0 <= o < 256 /\
     (name (op_info o) = to_ascii_uppercase s \/
      to_ascii_uppercase s ∈ [str "SHA3"; str "DIFFICULTY"; str "SUICIDE"])) /\
  opcode_by_name (str "sha3") = Some 0x20 /\ opcode_by_name (str "Difficulty") = Some 0x44 /\
  opcode_by_name (str "SUICIDE") = Some 0xff.
Proof.
  split_and!; [|apply opcode_by_name_inv|vm_compute; reflexivity..].
  intros o s Ho Hd Hs. destruct (push_names o Ho Hd) as (_ & _ & _ & Hop).
  rewrite (opcode_by_name_upper s (name (op_info o))); [done|].
  by rewrite Hs, upper_name.
Qed.

Lemma evm_mnemonics_witness : opcode_by_name (str "pUsH2") = Some 0x61.
Proof. apply (proj1 evm_mnemonics 0x61 (str "pUsH2")); [lia|reflexivity..]. Defined.
