(* ===== verification/Keccak.v ===== *)
(** Keccak-256 and ABI selectors (src/src/arch/evm/keccak.rs). The state is the
    25 lanes of 64 bits as a list. *)

From S2P Require Import Prelude Text.

Definition RC : list Z :=
  [0x0000000000000001; 0x0000000000008082; 0x800000000000808a; 0x8000000080008000;
   0x000000000000808b; 0x0000000080000001; 0x8000000080008081; 0x8000000000008009;
   0x000000000000008a; 0x0000000000000088; 0x0000000080008009; 0x000000008000000a;
   0x000000008000808b; 0x800000000000008b; 0x8000000000008089; 0x8000000000008003;
   0x8000000000008002; 0x8000000000000080; 0x000000000000800a; 0x800000008000000a;
   0x8000000080008081; 0x8000000000008080; 0x0000000080000001; 0x8000000080008008].

Definition ROTC : list Z :=
  [1; 3; 6; 10; 15; 21; 28; 36; 45; 55; 2; 14; 27; 41; 56; 8; 25; 43; 62; 18; 39; 61; 20; 44].

Definition PILN : list nat :=
  [10; 7; 11; 17; 18; 3; 5; 16; 8; 21; 24; 4; 15; 23; 19; 13; 12; 2; 20; 14; 22; 9; 6; 1]%nat.

Definition RATE : Z := 136.

(** [x.rotate_left(n)] and [!x] on [u64]. *)
Definition rotate_left (x n : Z) : Z := Z.lor (wrap64 (Z.shiftl x n)) (Z.shiftr x (64 - n)).
Definition not64 (x : Z) : Z := wrap64 (Z.lnot x).

(** [a[i]] and [a[i] = v] on an array of fixed size with [i] in range. *)
Definition at_ (a : list Z) (i : nat) : Z := nth i a 0.

(** Column parities, [bc[i] = st[i] ^ st[i+5] ^ ...]. *)
Definition column_parity (st : list Z) : list Z :=
  map (fun i => Z.lxor (Z.lxor (Z.lxor (Z.lxor (at_ st i) (at_ st (i + 5)))
                                       (at_ st (i + 10))) (at_ st (i + 15))) (at_ st (i + 20)))
      (seq 0 5).

Definition theta (st : list Z) : list Z :=
  let bc := column_parity st in
  fold_left (fun st i =>
    let t := Z.lxor (at_ bc ((i + 4) mod 5)) (rotate_left (at_ bc ((i + 1) mod 5)) 1) in
    fold_left (fun st j => <[(j + i)%nat := Z.lxor (at_ st (j + i)) t]> st)
      [0; 5; 10; 15; 20]%nat st) (seq 0 5) st.

Definition rho_pi_step (x : list Z * Z) (i : nat) : list Z * Z :=
  let '(st, t) := x in
  let j := nth i PILN 0%nat in
  let next := at_ st j in
  (<[j := rotate_left t (at_ ROTC i)]> st, next).

Definition rho_pi (st : list Z) : list Z :=
  fst (fold_left rho_pi_step (seq 0 24) (st, at_ st 1)).

Definition chi (st : list Z) : list Z :=
  fold_left (fun st j =>
    let bc := take 5 (drop j st) in
    fold_left (fun st i =>
      <[(j + i)%nat := Z.lxor (at_ st (j + i))
                         (Z.land (not64 (at_ bc ((i + 1) mod 5))) (at_ bc ((i + 2) mod 5)))]> st)
      (seq 0 5) st) [0; 5; 10; 15; 20]%nat st.

Definition iota (rc : Z) (st : list Z) : list Z := <[0%nat := Z.lxor (at_ st 0) rc]> st.

Definition keccak_round (st : list Z) (rc : Z) : list Z := iota rc (chi (rho_pi (theta st))).

Definition keccak_f (st : list Z) : list Z := fold_left keccak_round RC st.

(** [as_chunks::<N>()]: the whole chunks and the remainder. *)
Fixpoint as_chunks (fuel : nat) (n : nat) (l : list byte) : list (list byte) * list byte :=
  match fuel with
  | O => ([], l)
  | S fuel' =>
      if (length l <? n)%nat then ([], l)
      else let '(cs, r) := as_chunks fuel' n (drop n l) in (take n l :: cs, r)
  end.

Definition absorb_block (st : list Z) (block : list byte) : list Z :=
  let chunks := fst (as_chunks (length block) 8 block) in
  keccak_f (zip_with (fun lane chunk => Z.lxor lane (from_le chunk)) st chunks
            ++ drop (length chunks) st).

Definition keccak256 (data : list byte) : list byte :=
  let st := replicate 25 0 in
  let '(blocks, rem) := as_chunks (length data) (Z.to_nat RATE) data in
  let st := fold_left absorb_block blocks st in
  let last := rem ++ replicate (Z.to_nat RATE - length rem) (byte_of 0) in
  let last := <[length rem := byte_of (Z.lxor (u8 (nth (length rem) last (byte_of 0))) 0x01)]> last in
  let last := <[135%nat := byte_of (Z.lxor (u8 (nth 135 last (byte_of 0))) 0x80)]> last in
  let st := absorb_block st last in
  List.concat (map (to_le 8) (take 4 st)).

Definition selector (signature : list byte) : Z := from_be (take 4 (keccak256 signature)).

(** * The state stays 25 lanes *)

Definition lanes (st : list Z) : Prop := length st = 25%nat /\ Forall (in_range 64) st.

Lemma in_range_lxor w a b : 0 <= w -> in_range w a -> in_range w b -> in_range w (Z.lxor a b).
Proof.
  unfold in_range. intros Hw Ha Hb. split; [apply Z.lxor_nonneg; lia|].
  destruct (decide (Z.lxor a b = 0)) as [->|Hne]; [apply Z.pow_pos_nonneg; lia|].
  apply Z.log2_lt_pow2; [pose proof (Z.lxor_nonneg a b); lia|].
  eapply Z.le_lt_trans; [apply Z.log2_lxor; lia|].
  destruct (decide (w = 0)) as [->|]; [assert (a = 0) as -> by lia; assert (b = 0) as -> by lia; done|].
  apply Z.max_lub_lt; (destruct (decide (0 < a)), (decide (0 < b));
    first [apply Z.log2_lt_pow2; lia | (assert (a = 0) as -> by lia; simpl; lia)
          | (assert (b = 0) as -> by lia; simpl; lia)]).
Qed.

Lemma in_range_lor w a b : 0 <= w -> in_range w a -> in_range w b -> in_range w (Z.lor a b).
Proof.
  unfold in_range. intros Hw Ha Hb. split; [apply Z.lor_nonneg; lia|].
  destruct (decide (a = 0)) as [->|]; [rewrite Z.lor_0_l; lia|].
  destruct (decide (b = 0)) as [->|]; [rewrite Z.lor_0_r; lia|].
  assert (0 < Z.lor a b).
  { pose proof (proj2 (Z.lor_nonneg a b)). destruct (decide (Z.lor a b = 0)) as [E|]; [|lia].
    apply Z.lor_eq_0_iff in E. lia. }
  apply Z.log2_lt_pow2; [done|]. rewrite Z.log2_lor by lia.
  apply Z.max_lub_lt; apply Z.log2_lt_pow2; lia.
Qed.

Lemma in_range_land w a b : 0 <= w -> in_range w a -> in_range w b -> in_range w (Z.land a b).
Proof.
  unfold in_range. intros Hw Ha Hb. split; [apply Z.land_nonneg; lia|].
  destruct (decide (Z.land a b = 0)) as [->|Hne]; [lia|].
  pose proof (proj2 (Z.land_nonneg a b) ltac:(lia)).
  assert (0 < a) by (destruct (decide (a = 0)) as [->|]; [by rewrite Z.land_0_l in Hne|lia]).
  apply Z.log2_lt_pow2; [lia|]. eapply Z.le_lt_trans; [apply Z.log2_land; lia|].
  eapply Z.le_lt_trans; [apply Z.le_min_l|]. apply Z.log2_lt_pow2; lia.
Qed.

Lemma rotate_left_range x n : in_range 64 x -> 0 <= n <= 64 -> in_range 64 (rotate_left x n).
Proof.
  intros Hx Hn. unfold rotate_left. apply in_range_lor; [lia|apply wrap_range; lia|].
  unfold in_range in *. rewrite Z.shiftr_div_pow2 by lia.
  pose proof (Z.pow_pos_nonneg 2 (64 - n)). split; [apply Z.div_pos; lia|].
  apply Z.div_lt_upper_bound; nia.
Qed.

Lemma nth_range l i : Forall (in_range 64) l -> in_range 64 (at_ l i).
Proof.
  intros H. unfold at_. revert i. induction H as [|x l Hx _ IH]; intros [|i]; simpl; done.
Qed.

Lemma at_range st i : lanes st -> in_range 64 (at_ st i).
Proof. intros [_ H]. by apply nth_range. Qed.

Lemma insert_lanes st i v : lanes st -> in_range 64 v -> lanes (<[i:=v]> st).
Proof.
  intros [Hl H] Hv. split; [by rewrite length_insert|].
  apply Forall_insert; done.
Qed.

(** A loop of lane updates keeps the shape. *)
Lemma fold_lanes {A} (f : list Z -> A -> list Z) l :
  (forall st a, a ∈ l -> lanes st -> lanes (f st a)) ->
  forall st, lanes st -> lanes (fold_left f l st).
Proof.
  induction l as [|a l IH]; intros Hf st Hst; [done|]. simpl. apply IH.
  - intros ????. apply Hf; [by right|done].
  - apply Hf; [left|done].
Qed.

Lemma parity_range st i : lanes st -> in_range 64 (at_ (column_parity st) i).
Proof.
  intros Hst. apply nth_range, Forall_forall. intros x Hx. unfold column_parity in Hx.
  apply list_elem_of_fmap in Hx as (k & -> & _).
  repeat (apply in_range_lxor; [lia| |by apply at_range]). by apply at_range.
Qed.

Lemma theta_lanes st : lanes st -> lanes (theta st).
Proof.
  intros Hst. unfold theta. apply fold_lanes; [|done]. intros st' i _ Hst'.
  apply fold_lanes; [|done]. intros st2 j _ Hst2. apply insert_lanes; [done|].
  apply in_range_lxor; [lia|by apply at_range|].
  apply in_range_lxor; [lia|by apply parity_range|].
  apply rotate_left_range; [by apply parity_range|lia].
Qed.

Lemma rotc_range i : 0 <= at_ ROTC i <= 64.
Proof.
  unfold at_, ROTC. do 24 (destruct i as [|i]; [simpl; lia|]). destruct i; simpl; lia.
Qed.

Lemma rho_pi_lanes st : lanes st -> lanes (rho_pi st).
Proof.
  intros Hst. unfold rho_pi.
  assert (forall l s, lanes s.1 /\ in_range 64 s.2 -> lanes (fst (fold_left rho_pi_step l s))) as G.
  { induction l as [|i l IH]; intros [s t] [Hs Ht]; [done|]. cbn [fold_left]. apply IH.
    unfold rho_pi_step. cbn [fst snd] in *. split; [|by apply at_range].
    apply insert_lanes; [done|]. apply rotate_left_range; [done|apply rotc_range]. }
  apply G. split; [done|by apply at_range].
Qed.

Lemma chi_lanes st : lanes st -> lanes (chi st).
Proof.
  intros Hst. unfold chi. apply fold_lanes; [|done]. intros s j _ Hs.
  assert (forall i, in_range 64 (at_ (take 5 (drop j s)) i)) as Hbc.
  { intros i. apply nth_range, Forall_take, Forall_drop. apply Hs. }
  apply fold_lanes; [|done]. intros s2 i _ Hs2. apply insert_lanes; [done|].
  apply in_range_lxor; [lia|by apply at_range|].
  apply in_range_land; [lia|apply wrap_range; lia|apply Hbc].
Qed.

Lemma rc_ranges r : r ∈ RC -> in_range 64 r.
Proof.
  intros Hr. assert (forallb (fun r => (0 <=? r) && (r <? 2 ^ 64)) RC = true) as HR by reflexivity.
  rewrite List.forallb_forall in HR. apply list_elem_of_In, HR in Hr. unfold in_range. lia.
Qed.

Lemma rc_range ir : in_range 64 (at_ RC ir).
Proof. apply nth_range. apply Forall_forall, rc_ranges. Qed.

Lemma iota_lanes st r : lanes st -> in_range 64 r -> lanes (iota r st).
Proof. intros Hst Hr. unfold iota. apply insert_lanes; [done|]. apply in_range_lxor; [lia|by apply at_range|done]. Qed.

Lemma round_lanes st r : lanes st -> in_range 64 r -> lanes (keccak_round st r).
Proof. intros Hst Hr. apply iota_lanes; [by apply chi_lanes, rho_pi_lanes, theta_lanes|done]. Qed.

Lemma keccak_f_lanes st : lanes st -> lanes (keccak_f st).
Proof. intros Hst. apply fold_lanes; [|done]. intros s r Hr Hs. by apply round_lanes, rc_ranges. Qed.

(** * Blocks *)

Lemma as_chunks_ok n l : (0 < n)%nat -> forall fuel, (length l <= fuel)%nat ->
  exists cs r, as_chunks fuel n l = (cs, r) /\ l = List.concat cs ++ r /\
    Forall (fun c => length c = n) cs /\ (length r < n)%nat.
Proof.
  intros Hn fuel. revert l. induction fuel as [|fuel IH]; intros l Hl.
  { exists [], l. simpl. split_and!; [done..|lia]. }
  cbn [as_chunks]. destruct (Nat.ltb_spec (length l) n).
  - exists [], l. done.
  - destruct (IH (drop n l)) as (cs & r & -> & Hcr & Hcs & Hr); [rewrite length_drop; lia|].
    exists (take n l :: cs), r. split_and!; [done| | |done].
    + simpl. rewrite <- (assoc_L (++)), <- Hcr. by rewrite take_drop.
    + constructor; [rewrite length_take; lia|done].
Qed.

Lemma as_chunks_concat n cs : (0 < n)%nat -> Forall (fun c => length c = n) cs ->
  forall fuel, (length (List.concat cs) <= fuel)%nat -> as_chunks fuel n (List.concat cs) = (cs, []).
Proof.
  intros Hn Hcs. induction Hcs as [|c cs Hc _ IH]; intros fuel Hf.
  { destruct fuel; simpl; [done|]. by destruct (Nat.ltb_spec 0 n); [|lia]. }
  simpl in *. rewrite length_app in Hf. destruct fuel as [|fuel]; [lia|]. cbn [as_chunks].
  rewrite length_app. destruct (Nat.ltb_spec (length c + length (List.concat cs)) n); [lia|].
  rewrite <- Hc, drop_app_length, take_app_length, Hc, IH by lia. done.
Qed.

(** Multi-rate padding in bytes: [0x01 0x00* 0x80], or [0x81] when one byte is
    missing. *)
Definition padding (data : list byte) : list byte :=
  let q := RATE - len data mod RATE in
  if q =? 1 then [byte_of 0x81]
  else [byte_of 0x01] ++ replicate (Z.to_nat (q - 2)) (byte_of 0) ++ [byte_of 0x80].

(** The last block the code builds in place. *)
Lemma last_block rem : (length rem < 136)%nat ->
  let last := rem ++ replicate (Z.to_nat RATE - length rem) (byte_of 0) in
  let last := <[length rem := byte_of (Z.lxor (u8 (nth (length rem) last (byte_of 0))) 0x01)]> last in
  <[135%nat := byte_of (Z.lxor (u8 (nth 135 last (byte_of 0))) 0x80)]> last
  = rem ++ (if RATE - len rem =? 1 then [byte_of 0x81]
            else [byte_of 0x01] ++ replicate (Z.to_nat (RATE - len rem - 2)) (byte_of 0) ++ [byte_of 0x80]).
Proof.
  intros Hr. cbv zeta. change (Z.to_nat RATE) with 136%nat. unfold RATE, len.
  rewrite app_nth2, Nat.sub_diag by lia.
  replace (136 - length rem)%nat with (S (135 - length rem)) by lia. cbn [replicate nth].
  rewrite insert_app_r_alt, Nat.sub_diag by lia.
  change (<[0%nat := ?x]> (?a :: ?l)) with (x :: l).
  rewrite insert_app_r_alt by lia. f_equal. rewrite app_nth2 by lia.
  destruct (decide (length rem = 135%nat)) as [E|E].
  - replace (136 - Z.of_nat (length rem) =? 1) with true by lia.
    rewrite E. reflexivity.
  - replace (136 - Z.of_nat (length rem) =? 1) with false by lia.
    replace (135 - length rem)%nat with (S (134 - length rem)) by lia.
    replace (Z.to_nat (136 - Z.of_nat (length rem) - 2)) with (134 - length rem)%nat by lia.
    set (m := (134 - length rem)%nat). rewrite replicate_S_end.
    change (?x :: ?l ++ [?y]) with ((x :: l) ++ [y]).
    rewrite insert_app_r_alt by (simpl; rewrite length_replicate; lia).
    simpl length. rewrite length_replicate, Nat.sub_diag. cbn [app]. do 2 f_equal.
    cbn [nth]. rewrite app_nth2 by (rewrite length_replicate; lia).
    by rewrite length_replicate, Nat.sub_diag.
Qed.

Lemma length_padding data rem : (length rem < 136)%nat -> len data mod RATE = len rem ->
  length (rem ++ padding data) = 136%nat.
Proof.
  intros Hr Hm. unfold padding. rewrite Hm, length_app. unfold RATE, len.
  destruct (Z.eqb_spec (136 - Z.of_nat (length rem)) 1); [simpl; lia|].
  rewrite !length_app, length_replicate. simpl. lia.
Qed.

(** The code absorbs the padded message block by block. *)
Lemma keccak256_blocks data : exists blocks,
  data ++ padding data = List.concat blocks /\ Forall (fun b => length b = 136%nat) blocks /\
  keccak256 data = List.concat (map (to_le 8) (take 4 (fold_left absorb_block blocks (replicate 25 0)))).
Proof.
  unfold keccak256. change (Z.to_nat RATE) with 136%nat.
  destruct (as_chunks_ok 136 data ltac:(lia) (length data) ltac:(lia))
    as (cs & rem & -> & Hd & Hcs & Hr).
  assert (len data mod RATE = len rem) as Hm.
  { rewrite Hd, len_app. assert (exists q, len (List.concat cs) = RATE * q) as [q ->].
    { clear Hd. induction Hcs as [|c cs Hc _ [q IH]]; [by exists 0|].
      exists (q + 1). simpl. rewrite len_app, IH. unfold len, RATE. lia. }
    rewrite Z.add_comm, Z.mul_comm, Z_mod_plus_full. apply Z.mod_small.
    unfold len, RATE. lia. }
  pose proof (length_padding data rem Hr Hm) as Hlast.
  pose proof (last_block rem Hr) as Hb. cbv zeta in Hb. change (Z.to_nat RATE) with 136%nat in Hb.
  rewrite <- Hm in Hb. fold (padding data) in Hb. exists (cs ++ [rem ++ padding data]). split_and!.
  - rewrite List.concat_app. simpl. rewrite app_nil_r, (assoc_L (++)). by rewrite <- Hd.
  - by apply Forall_app_2, Forall_singleton.
  - rewrite fold_left_app. cbn [fold_left]. rewrite Hb. unfold padding. reflexivity.
Qed.

(** The 17 lanes of a block. *)
Lemma block_chunks b : length b = 136%nat -> exists cs, as_chunks (length b) 8 b = (cs, []) /\ b = List.concat cs /\
  Forall (fun c => length c = 8%nat) cs /\ length cs = 17%nat.
Proof.
  intros Hb. destruct (as_chunks_ok 8 b ltac:(lia) (length b) ltac:(lia)) as (cs & r & -> & Hd & Hcs & Hr).
  assert (length (List.concat cs) = 8 * length cs)%nat as E.
  { clear Hd. induction Hcs as [|c cs Hc _ IH]; [done|]. simpl. rewrite length_app, IH. lia. }
  pose proof (f_equal length Hd) as Hl. rewrite length_app in Hl.
  assert (r = []) as -> by (apply nil_length_inv; lia). rewrite app_nil_r in Hd. exists cs. split_and!; [done..|]. simpl in Hl. lia.
Qed.

Lemma xor_lanes st cs : lanes st -> Forall (fun c => length c = 8%nat) cs -> length cs = 17%nat ->
  lanes (zip_with (fun lane chunk => Z.lxor lane (from_le chunk)) st cs ++ drop (length cs) st).
Proof.
  intros [Hl Hin] Hcs Hc. split.
  - rewrite length_app, length_zip_with, length_drop. lia.
  - apply Forall_app_2; [|by apply Forall_drop].
    clear Hc Hl. revert cs Hcs. induction Hin as [|x st Hx _ IH]; intros [|c cs] Hcs; simpl; try done.
    apply Forall_cons in Hcs as [Hc Hcs]. constructor; [|by apply IH].
    apply in_range_lxor; [lia|done|]. by apply (from_le_wrap 8).
Qed.

(** * The standard

    The permutation and the sponge over bits, as in FIPS 202: [a x y z] is bit
    [z] of the lane at column [x] and row [y]. The rotation offsets come from
    the walk over the lanes, the round constants from the shift register. *)

Definition State : Type := Z -> Z -> Z -> bool.

Definition same_bits (a b : State) : Prop :=
  forall x y z, 0 <= x < 5 -> 0 <= y < 5 -> 0 <= z < 64 -> a x y z = b x y z.

#[export] Instance same_bits_equiv : Equivalence same_bits.
Proof.
  split; [done|by intros a b H x y z Hx Hy Hz; rewrite H|].
  intros a b c H1 H2 x y z Hx Hy Hz. by rewrite H1, H2.
Qed.

Definition parity_bit (a : State) (x z : Z) : bool :=
  xorb (xorb (xorb (xorb (a x 0 z) (a x 1 z)) (a x 2 z)) (a x 3 z)) (a x 4 z).

Definition theta_bits (a : State) : State := fun x y z =>
  xorb (a x y z) (xorb (parity_bit a ((x - 1) mod 5) z) (parity_bit a ((x + 1) mod 5) ((z - 1) mod 64))).

(** The lane at step [t] of the walk, and the offset of a lane. *)
Definition walk (t : nat) : Z * Z := Nat.iter t (fun '(x, y) => (y, (2 * x + 3 * y) mod 5)) (1, 0).

Definition offset (x y : Z) : Z :=
  match List.find (fun t => bool_decide (walk t = (x, y))) (seq 0 24) with
  | Some t => (Z.of_nat t + 1) * (Z.of_nat t + 2) / 2
  | None => 0
  end.

Definition rho_bits (a : State) : State := fun x y z => a x y ((z - offset x y) mod 64).

Definition pi_bits (a : State) : State := fun x y z => a ((x + 3 * y) mod 5) x z.

Definition chi_bits (a : State) : State := fun x y z =>
  xorb (a x y z) (negb (a ((x + 1) mod 5) y z) && a ((x + 2) mod 5) y z).

Definition lfsr_step (r : list bool) : list bool :=
  match r with
  | [r0; r1; r2; r3; r4; r5; r6; r7] => [r7; r0; r1; r2; xorb r3 r7; xorb r4 r7; xorb r5 r7; r6]
  | _ => []
  end.

Definition rc (t : nat) : bool :=
  nth 0 (Nat.iter (t mod 255) lfsr_step [true; false; false; false; false; false; false; false]) false.

Definition rc_bit (ir : nat) (z : Z) : bool :=
  existsb (fun j => (z =? 2 ^ Z.of_nat j - 1) && rc (j + 7 * ir)) (seq 0 7).

Definition iota_bits (ir : nat) (a : State) : State := fun x y z =>
  if (x =? 0) && (y =? 0) then xorb (a x y z) (rc_bit ir z) else a x y z.

Definition round_bits (a : State) (ir : nat) : State := iota_bits ir (chi_bits (pi_bits (rho_bits (theta_bits a)))).

Definition keccak_p (a : State) : State := fold_left round_bits (seq 0 24) a.

(** The sponge with [pad10*1], no suffix, rate 1088 and 256 bits of output.
    Bit [64 * (5 * y + x) + z] of a block goes to the lane at [x], [y]. *)
Definition pad10_1 (rate m : Z) : list bool := [true] ++ replicate (Z.to_nat ((- m - 2) mod rate)) false ++ [true].

Definition blocks {A} (n : nat) (l : list A) : list (list A) := map (fun i => take n (drop (n * i) l)) (seq 0 (length l / n)).

Definition xor_block (a : State) (block : list bool) : State := fun x y z =>
  xorb (a x y z) (nth (Z.to_nat (64 * (5 * y + x) + z)) block false).

Definition squeeze (a : State) (n : Z) : list bool := map (fun i => a (i / 64 mod 5) (i / 64 / 5) (i mod 64)) (seqZ 0 n).

Definition keccak256_bits (message : list bool) : list bool :=
  squeeze (fold_left (fun a block => keccak_p (xor_block a block))
             (blocks 1088 (message ++ pad10_1 1088 (len message))) (fun _ _ _ => false)) 256.

(** The bits of bytes, the lowest of each first. *)
Definition bits_of (l : list byte) : list bool := l ≫= fun b => map (Z.testbit (u8 b)) (seqZ 0 8).

(** * The code against the standard *)

(** The bits of 25 lanes. *)
Definition bits (st : list Z) : State := fun x y z => Z.testbit (at_ st (Z.to_nat (5 * y + x))) z.

Lemma rotate_left_bit x n z : in_range 64 x -> 0 < n < 64 -> 0 <= z < 64 ->
  Z.testbit (rotate_left x n) z = Z.testbit x ((z - n) mod 64).
Proof.
  intros Hx Hn Hz. unfold rotate_left, wrap. rewrite Z.lor_spec, Z.mod_pow2_bits_low, Z.shiftl_spec, Z.shiftr_spec by lia.
  destruct (decide (n <= z)) as [H|H].
  - rewrite (Z.mod_small (z - n)) by lia. rewrite (high_bits_zero 64 x (z + (64 - n))) by (done || lia). apply orb_false_r.
  - rewrite (Z.testbit_neg_r x (z - n)) by lia. cbn [orb]. f_equal. rewrite <- (Z_mod_plus_full (z - n) 1 64).
    rewrite Z.mod_small; lia.
Qed.

Lemma five x : 0 <= x < 5 -> x = 0 \/ x = 1 \/ x = 2 \/ x = 3 \/ x = 4.
Proof. lia. Qed.

(** A fact of the 25 lanes, lane by lane. *)
Ltac each_lane st Hst x Hx y Hy :=
  destruct Hst as [Hst _]; do 25 (destruct st as [|? st]; [discriminate Hst|]); destruct st; [clear Hst|discriminate Hst];
  destruct (five x Hx) as [->|[->|[->|[->| ->]]]]; destruct (five y Hy) as [->|[->|[->|[->| ->]]]];
  lazy -[Z.lxor Z.land rotate_left not64]; reflexivity.

Lemma theta_lane st : lanes st -> forall x y, 0 <= x < 5 -> 0 <= y < 5 ->
  at_ (theta st) (Z.to_nat (5 * y + x)) =
  Z.lxor (at_ st (Z.to_nat (5 * y + x)))
    (Z.lxor (at_ (column_parity st) (Z.to_nat ((x - 1) mod 5))) (rotate_left (at_ (column_parity st) (Z.to_nat ((x + 1) mod 5))) 1)).
Proof. intros Hst x y Hx Hy. each_lane st Hst x Hx y Hy. Qed.

Lemma parity_lane st : lanes st -> forall x y, 0 <= x < 5 -> 0 <= y < 5 ->
  at_ (column_parity st) (Z.to_nat x) =
  Z.lxor (Z.lxor (Z.lxor (Z.lxor (at_ st (Z.to_nat (5 * 0 + x))) (at_ st (Z.to_nat (5 * 1 + x))))
    (at_ st (Z.to_nat (5 * 2 + x)))) (at_ st (Z.to_nat (5 * 3 + x)))) (at_ st (Z.to_nat (5 * 4 + x))).
Proof. intros Hst x y Hx Hy. each_lane st Hst x Hx y Hy. Qed.

Lemma rho_pi_lane st : lanes st -> forall x y, 0 <= x < 5 -> 0 <= y < 5 ->
  let n := offset ((x + 3 * y) mod 5) x mod 64 in let lane := at_ st (Z.to_nat (5 * x + (x + 3 * y) mod 5)) in
  at_ (rho_pi st) (Z.to_nat (5 * y + x)) = if n =? 0 then lane else rotate_left lane n.
Proof. intros Hst x y Hx Hy. each_lane st Hst x Hx y Hy. Qed.

Lemma chi_lane st : lanes st -> forall x y, 0 <= x < 5 -> 0 <= y < 5 ->
  at_ (chi st) (Z.to_nat (5 * y + x)) =
  Z.lxor (at_ st (Z.to_nat (5 * y + x)))
    (Z.land (not64 (at_ st (Z.to_nat (5 * y + (x + 1) mod 5)))) (at_ st (Z.to_nat (5 * y + (x + 2) mod 5)))).
Proof. intros Hst x y Hx Hy. each_lane st Hst x Hx y Hy. Qed.

Lemma iota_lane st r : lanes st -> forall x y, 0 <= x < 5 -> 0 <= y < 5 ->
  at_ (iota r st) (Z.to_nat (5 * y + x)) =
  if (x =? 0) && (y =? 0) then Z.lxor (at_ st (Z.to_nat (5 * y + x))) r else at_ st (Z.to_nat (5 * y + x)).
Proof. intros Hst x y Hx Hy. each_lane st Hst x Hx y Hy. Qed.

Lemma theta_same st : lanes st -> same_bits (bits (theta st)) (theta_bits (bits st)).
Proof.
  intros Hst x y z Hx Hy Hz. pose proof (Z.mod_pos_bound (x - 1) 5 eq_refl). pose proof (Z.mod_pos_bound (x + 1) 5 eq_refl).
  unfold bits at 1. rewrite theta_lane by done. rewrite !Z.lxor_spec, rotate_left_bit by (lia || by apply parity_range).
  unfold theta_bits, parity_bit. by rewrite !(fun x Hx => parity_lane st Hst x 0 Hx), !Z.lxor_spec by lia.
Qed.

Lemma offset_mod z x y : (z - offset x y mod 64) mod 64 = (z - offset x y) mod 64.
Proof. by rewrite Zminus_mod_idemp_r. Qed.

Lemma rho_pi_same st : lanes st -> same_bits (bits (rho_pi st)) (pi_bits (rho_bits (bits st))).
Proof.
  intros Hst x y z Hx Hy Hz. unfold bits at 1. rewrite rho_pi_lane by done. cbv zeta. unfold pi_bits, rho_bits, bits.
  rewrite <- offset_mod. pose proof (Z.mod_pos_bound (offset ((x + 3 * y) mod 5) x) 64 eq_refl).
  destruct (Z.eqb_spec (offset ((x + 3 * y) mod 5) x mod 64) 0) as [->|]; [by rewrite Z.sub_0_r, (Z.mod_small z)|].
  by rewrite rotate_left_bit by (lia || by apply at_range).
Qed.

Lemma not64_bit v z : 0 <= z < 64 -> Z.testbit (not64 v) z = negb (Z.testbit v z).
Proof. intros Hz. unfold not64, wrap. by rewrite Z.mod_pow2_bits_low, Z.lnot_spec by lia. Qed.

Lemma chi_same st : lanes st -> same_bits (bits (chi st)) (chi_bits (bits st)).
Proof.
  intros Hst x y z Hx Hy Hz. unfold bits at 1. by rewrite chi_lane, Z.lxor_spec, Z.land_spec, not64_bit by done.
Qed.

Lemma rc_bits : forallb (fun ir => forallb (fun z => Bool.eqb (Z.testbit (at_ RC ir) z) (rc_bit ir z)) (seqZ 0 64)) (seq 0 24) = true.
Proof. vm_compute. reflexivity. Qed.

Lemma iota_same st ir : lanes st -> (ir < 24)%nat -> same_bits (bits (iota (at_ RC ir) st)) (iota_bits ir (bits st)).
Proof.
  intros Hst Hir x y z Hx Hy Hz. unfold bits at 1. rewrite iota_lane by done. unfold iota_bits.
  destruct (_ && _); [|done]. rewrite Z.lxor_spec. f_equal. pose proof rc_bits as H.
  rewrite List.forallb_forall in H. specialize (H ir ltac:(apply in_seq; lia)).
  rewrite List.forallb_forall in H. specialize (H z ltac:(apply list_elem_of_In, elem_of_seqZ; lia)). by apply eqb_prop in H.
Qed.

(** The steps look at the bits of the state only. *)
#[export] Instance theta_proper : Proper (same_bits ==> same_bits) theta_bits.
Proof.
  intros a b H x y z Hx Hy Hz. unfold theta_bits, parity_bit. pose proof (Z.mod_pos_bound (x - 1) 5 eq_refl).
  pose proof (Z.mod_pos_bound (x + 1) 5 eq_refl). pose proof (Z.mod_pos_bound (z - 1) 64 eq_refl). by rewrite !H by lia.
Qed.
#[export] Instance rho_proper : Proper (same_bits ==> same_bits) rho_bits.
Proof. intros a b H x y z Hx Hy Hz. apply H; [done..|]. by apply Z.mod_pos_bound. Qed.
#[export] Instance pi_proper : Proper (same_bits ==> same_bits) pi_bits.
Proof. intros a b H x y z Hx Hy Hz. apply H; [by apply Z.mod_pos_bound|done..]. Qed.
#[export] Instance chi_proper : Proper (same_bits ==> same_bits) chi_bits.
Proof.
  intros a b H x y z Hx Hy Hz. unfold chi_bits. pose proof (Z.mod_pos_bound (x + 1) 5 eq_refl).
  pose proof (Z.mod_pos_bound (x + 2) 5 eq_refl). by rewrite !H by lia.
Qed.
#[export] Instance iota_proper ir : Proper (same_bits ==> same_bits) (iota_bits ir).
Proof. intros a b H x y z Hx Hy Hz. unfold iota_bits. by rewrite H. Qed.
#[export] Instance xor_block_proper : Proper (same_bits ==> eq ==> same_bits) xor_block.
Proof. intros a b H l _ <- x y z Hx Hy Hz. unfold xor_block. by rewrite H. Qed.
#[export] Instance keccak_p_proper : Proper (same_bits ==> same_bits) keccak_p.
Proof.
  unfold keccak_p. induction (seq 0 24) as [|ir l IH]; intros a b H; [done|]. apply IH. unfold round_bits. by rewrite H.
Qed.

Lemma round_same st a ir : lanes st -> (ir < 24)%nat -> same_bits (bits st) a ->
  same_bits (bits (keccak_round st (at_ RC ir))) (round_bits a ir).
Proof.
  intros Hst Hir H. pose proof (theta_lanes st Hst) as H1. pose proof (rho_pi_lanes _ H1) as H2. pose proof (chi_lanes _ H2) as H3.
  unfold keccak_round, round_bits. rewrite (iota_same _ ir H3 Hir), (chi_same _ H2), (rho_pi_same _ H1), (theta_same st Hst), H. reflexivity.
Qed.

(** The state holds the bits [a]. *)
Definition holds (st : list Z) (a : State) : Prop := lanes st /\ same_bits (bits st) a.

(** Two loops in step. *)
Lemma fold_left_rel {A B C D} (R : A -> B -> Prop) (Q : C -> D -> Prop) f g :
  (forall a b c d, R a b -> Q c d -> R (f a c) (g b d)) ->
  forall l1 l2, Forall2 Q l1 l2 -> forall a b, R a b -> R (fold_left f l1 a) (fold_left g l2 b).
Proof. intros Hf l1 l2 Hl. induction Hl as [|c d l1 l2 Hc _ IH]; intros a b Hab; [done|]. apply IH. by apply Hf. Qed.

Lemma RC_rounds : Forall2 (fun r ir => r = at_ RC ir /\ (ir < 24)%nat) RC (seq 0 24).
Proof. unfold RC at 2. repeat constructor; lia. Qed.

Lemma keccak_f_holds st a : holds st a -> holds (keccak_f st) (keccak_p a).
Proof.
  unfold keccak_f, keccak_p. eapply (fold_left_rel holds _ keccak_round round_bits); [|exact RC_rounds].
  intros s b r ir [Hs H] [-> Hir]. split; [by apply round_lanes, rc_range|by apply round_same].
Qed.

(** ** Blocks *)

Lemma nth_bits_byte b l n : nth n (bits_of (b :: l)) false = if (n <? 8)%nat then Z.testbit (u8 b) (Z.of_nat n) else nth (n - 8) (bits_of l) false.
Proof.
  change (bits_of (b :: l)) with (map (Z.testbit (u8 b)) (seqZ 0 8) ++ bits_of l). destruct (Nat.ltb_spec n 8) as [H|H].
  - rewrite app_nth1 by done. by do 8 (destruct n as [|n]; [done|]); lia.
  - by rewrite app_nth2.
Qed.

Lemma u8_high_bit b z : 8 <= z -> Z.testbit (u8 b) z = false.
Proof. intros Hz. apply (high_bits_zero 8); [apply u8_range|lia]. Qed.

Lemma from_le_bit l : forall n, Z.testbit (from_le l) (Z.of_nat n) = nth n (bits_of l) false.
Proof.
  induction l as [|b l IH]; intros n; [cbn [from_le]; rewrite Z.testbit_0_l; by destruct n|].
  rewrite nth_bits_byte. cbn [from_le].
  assert (u8 b + 256 * from_le l = Z.lor (Z.shiftl (from_le l) 8) (u8 b)) as ->.
  { rewrite lor_shiftl_add by (done || apply u8_range). lia. }
  rewrite Z.lor_spec, Z.shiftl_spec by lia. destruct (Nat.ltb_spec n 8) as [H|H].
  - by rewrite Z.testbit_neg_r by lia.
  - rewrite (u8_high_bit b) by lia. rewrite orb_false_r, <- IH. f_equal. lia.
Qed.

Lemma bits_of_app l1 l2 : bits_of (l1 ++ l2) = bits_of l1 ++ bits_of l2.
Proof. apply bind_app. Qed.

Lemma bits_of_cons b l : bits_of (b :: l) = bits_of [b] ++ bits_of l.
Proof. exact (bits_of_app [b] l). Qed.

Lemma length_bits_of l : length (bits_of l) = (8 * length l)%nat.
Proof.
  induction l as [|b l IH]; [done|]. rewrite bits_of_cons, length_app, IH. simpl length at 3.
  change (length (bits_of [b])) with 8%nat. lia.
Qed.

Lemma bits_of_concat cs : bits_of (List.concat cs) = List.concat (map bits_of cs).
Proof. induction cs as [|c cs IH]; [done|]. cbn [List.concat map]. by rewrite bits_of_app, IH. Qed.

Lemma nth_bits_chunk cs : Forall (fun c => length c = 8%nat) cs -> forall i z, (z < 64)%nat ->
  nth (64 * i + z) (bits_of (List.concat cs)) false = nth z (bits_of (nth i cs [])) false.
Proof.
  induction 1 as [|c cs Hc _ IH]; intros i z Hz; [by rewrite (nth_overflow []), nth_overflow by (destruct i; simpl; lia); destruct i, z|].
  cbn [List.concat]. rewrite bits_of_app. destruct i as [|i].
  - rewrite Nat.mul_0_r, Nat.add_0_l, app_nth1 by (rewrite length_bits_of, Hc; lia). done.
  - rewrite app_nth2; rewrite length_bits_of, Hc; [|lia]. cbn [nth]. rewrite <- IH by done. f_equal. lia.
Qed.

Lemma at_xor st cs i : lanes st -> length cs = 17%nat -> (i < 25)%nat ->
  at_ (zip_with (fun lane chunk => Z.lxor lane (from_le chunk)) st cs ++ drop (length cs) st) i =
  Z.lxor (at_ st i) (from_le (nth i cs [])).
Proof.
  intros [Hl _] Hc Hi. unfold at_. destruct (decide (i < 17)%nat) as [H|H].
  - rewrite app_nth1 by (rewrite length_zip_with; lia).
    destruct (lookup_lt_is_Some_2 st i) as [x Hx]; [lia|]. destruct (lookup_lt_is_Some_2 cs i) as [c Hcs]; [lia|].
    rewrite !nth_lookup, lookup_zip_with, Hx, Hcs. done.
  - rewrite app_nth2; rewrite length_zip_with; [|lia]. rewrite (nth_overflow cs) by lia. cbn [from_le].
    rewrite Z.lxor_0_r, !nth_lookup, lookup_drop. do 2 f_equal. lia.
Qed.

Lemma absorb_holds st a b : length b = 136%nat -> holds st a -> holds (absorb_block st b) (keccak_p (xor_block a (bits_of b))).
Proof.
  intros Hb [Hst H]. destruct (block_chunks b Hb) as (cs & Ecs & Eb & Hcs & Hc). unfold absorb_block. rewrite Ecs. cbn [fst].
  apply keccak_f_holds. split; [by apply xor_lanes|]. rewrite <- H. clear a H. intros x y z Hx Hy Hz.
  unfold bits at 1, xor_block. rewrite at_xor by (done || lia). rewrite Z.lxor_spec. unfold bits. f_equal.
  replace (Z.testbit (from_le (nth (Z.to_nat (5 * y + x)) cs [])) z)
    with (Z.testbit (from_le (nth (Z.to_nat (5 * y + x)) cs [])) (Z.of_nat (Z.to_nat z))) by (by rewrite Z2Nat.id by lia).
  rewrite from_le_bit, <- nth_bits_chunk by (done || lia). rewrite <- Eb. f_equal. lia.
Qed.

Lemma blocks_concat {A} n (cs : list (list A)) : (0 < n)%nat -> Forall (fun c => length c = n) cs -> blocks n (List.concat cs) = cs.
Proof.
  intros Hn Hcs. assert (length (List.concat cs) = n * length cs)%nat as El.
  { induction Hcs as [|c cs Hc _ IH]; [simpl; lia|]. simpl. rewrite length_app, IH. lia. }
  unfold blocks. rewrite El, Nat.mul_comm, Nat.div_mul by lia. clear El.
  induction Hcs as [|c cs Hc _ IH]; [done|]. cbn [length seq map List.concat]. f_equal.
  - rewrite Nat.mul_0_r, drop_0, <- Hc. apply take_app_length.
  - rewrite <- IH at 2. rewrite <- seq_shift, map_map. apply map_ext. intros i.
    rewrite drop_app_ge by lia. do 2 f_equal. lia.
Qed.

Lemma bits_of_zeros n : bits_of (replicate n (byte_of 0)) = replicate (8 * n) false.
Proof.
  induction n as [|n IH]; [done|]. cbn [replicate]. rewrite bits_of_cons, IH. replace (8 * S n)%nat with (8 + 8 * n)%nat by lia.
  by rewrite replicate_add.
Qed.

Lemma padding_bits data : bits_of (padding data) = pad10_1 1088 (len (bits_of data)).
Proof.
  unfold padding, pad10_1. pose proof (Z.mod_pos_bound (len data) RATE eq_refl) as Hm.
  assert ((- len (bits_of data) - 2) mod 1088 = 8 * (RATE - len data mod RATE) - 2) as ->.
  { unfold RATE in *. unfold len at 1. rewrite length_bits_of. pose proof (Z.div_mod (len data) 136 ltac:(done)) as Hd.
    unfold len in *. replace (- Z.of_nat (8 * length data) - 2)
      with (8 * (136 - Z.of_nat (length data) mod 136) - 2 + (- (Z.of_nat (length data) / 136) - 1) * 1088) by lia.
    rewrite Z_mod_plus_full. apply Z.mod_small. lia. }
  destruct (Z.eqb_spec (RATE - len data mod RATE) 1) as [->|Hq]; [reflexivity|].
  rewrite !bits_of_app, bits_of_zeros.
  replace (Z.to_nat (8 * (RATE - len data mod RATE) - 2)) with (7 + (8 * Z.to_nat (RATE - len data mod RATE - 2) + 7))%nat by lia.
  rewrite !replicate_add. change (bits_of [byte_of 1]) with ([true] ++ replicate 7 false).
  change (bits_of [byte_of 128]) with (replicate 7 false ++ [true]). by rewrite <- !(assoc_L (++)).
Qed.

Lemma bits_to_le n : forall v, bits_of (to_le n v) = map (Z.testbit v) (seqZ 0 (8 * Z.of_nat n)).
Proof.
  induction n as [|n IH]; intros v; [done|]. cbn [to_le]. rewrite bits_of_cons, IH.
  replace (8 * Z.of_nat (S n)) with (8 + 8 * Z.of_nat n) by lia. rewrite seqZ_app, map_app by lia. f_equal.
  - change (bits_of [byte_of v]) with (map (Z.testbit (u8 (byte_of v))) (seqZ 0 8)). apply map_ext_in.
    intros z Hz%list_elem_of_In%elem_of_seqZ. rewrite u8_byte_of. change 256 with (2 ^ 8). by rewrite Z.mod_pow2_bits_low by lia.
  - change (0 + 8) with 8. assert (forall k, seqZ 8 k = map (Z.add 8) (seqZ 0 k)) as -> by (intros k; symmetry; apply (fmap_add_seqZ 8 0)).
    rewrite map_map. apply map_ext_in. intros z Hz%list_elem_of_In%elem_of_seqZ.
    change 256 with (2 ^ 8). rewrite Z.div_pow2_bits by lia. f_equal. lia.
Qed.

Lemma squeeze_holds st a : holds st a -> bits_of (List.concat (map (to_le 8) (take 4 st))) = squeeze a 256.
Proof.
  intros [[Hl _] H]. assert (squeeze a 256 = squeeze (bits st) 256) as ->.
  { unfold squeeze. apply map_ext_in. intros i Hi%list_elem_of_In%elem_of_seqZ. symmetry.
    apply H; [by apply Z.mod_pos_bound| |by apply Z.mod_pos_bound]. split; [by apply Z.div_pos; [apply Z.div_pos|]; lia|].
    apply Z.div_lt_upper_bound; [done|]. apply Z.div_lt_upper_bound; lia. }
  destruct st as [|a0 [|a1 [|a2 [|a3 st]]]]; [discriminate Hl..|]. rewrite bits_of_concat. cbn [take map List.concat].
  rewrite !bits_to_le. lazy -[Z.testbit]. reflexivity.
Qed.

(** * Properties *)

(** C33: the digest is Keccak-256. For every input, whatever its length, the bits
    of the code's digest are those the standard's sponge gives for the bits of
    the input: the permutation of 24 rounds of theta, rho, pi, chi and iota
    over 1600 bits, with the rotation offsets and the round constants computed
    from their definitions, [pad10*1], rate 1088 and 256 bits of output. The
    specification shares no table and no operation with the code. The digest
    is 32 bytes, and the state is 25 lanes of 64 bits throughout. *)
Theorem keccak256_sponge data :
  bits_of (keccak256 data) = keccak256_bits (bits_of data) /\ length (keccak256 data) = 32%nat /\
  (forall st, lanes st -> lanes (keccak_f st)).
Proof.
  destruct (keccak256_blocks data) as (bs & Ed & Hbs & ->).
  assert (holds (fold_left absorb_block bs (replicate 25 0))
    (fold_left (fun a block => keccak_p (xor_block a block)) (map bits_of bs) (fun _ _ _ => false))) as Hh.
  { apply (fold_left_rel holds (fun b bb => length b = 136%nat /\ bb = bits_of b)).
    - intros st a b bb Hst [Hb ->]. by apply absorb_holds.
    - clear Ed. induction Hbs; constructor; auto.
    - split; [split; [done|by apply Forall_replicate]|]. intros x y z Hx Hy Hz. unfold bits, at_.
      rewrite nth_lookup. destruct (replicate 25 0 !! _) as [v|] eqn:E; [apply lookup_replicate in E as [-> _]|]; by rewrite Z.testbit_0_l. }
  split_and!; [|by destruct Hh as [[Hl _] _]; destruct (fold_left _ _ _) as [|? [|? [|? [|? ?]]]]|apply keccak_f_lanes].
  rewrite (squeeze_holds _ _ Hh). unfold keccak256_bits. do 2 f_equal.
  rewrite <- padding_bits, <- bits_of_app, Ed, bits_of_concat. symmetry. apply blocks_concat; [lia|].
  apply Forall_map. eapply Forall_impl; [exact Hbs|]. intros b Hb. cbn. by rewrite length_bits_of, Hb.
Qed.

Example transfer_selector : selector (str "transfer(address,uint256)") = 0xa9059cbb.
Proof. vm_compute. reflexivity. Qed.

Example empty_digest : from_be (keccak256 []) =
  0xc5d2460186f7233c927e7db2dcc703c0e500b653ca82273b7bfad8045d85a470.
Proof. vm_compute. reflexivity. Qed.
