(* ===== verification/RawImage.v ===== *)
(** The raw flat-binary container (src/src/format/raw.rs): bytes mapped at a
    load address. *)

From S2P Require Import Prelude.

Inductive Error : Type :=
| OutOfRange (addr load fin : Z)
| Truncated (addr len : Z).

Record RawImage : Type := { bytes : list byte; load_addr : Z }.

Definition new (bytes : list byte) (load_addr : Z) : RawImage :=
  {| bytes := bytes; load_addr := load_addr |}.

Definition start (r : RawImage) : Z := load_addr r.

(** The addition of [end] overflows for an image past the address space. *)
Definition end_ (r : RawImage) : res Error Z := usize_add (load_addr r) (len (bytes r)).

Definition contains (r : RawImage) (addr : Z) : res Error bool :=
  if start r <=? addr then e ← end_ r; Ok (addr <? e) else Ok false.

Definition offset_of (r : RawImage) (addr : Z) : res Error (option Z) :=
  c ← contains r addr;
  Ok (if (c : bool) then Some (addr - load_addr r) else None).

(** [self.offset_of(addr).ok_or(Error::OutOfRange { .. })?]; the error value is
    built eagerly. *)
Definition offset_or (r : RawImage) (addr : Z) : res Error Z :=
  o ← offset_of r addr;
  e ← end_ r;
  ok_or o (OutOfRange addr (start r) e).

Definition read_u8 (r : RawImage) (addr : Z) : res Error Z :=
  off ← offset_or r addr;
  b ← index (bytes r) off;
  Ok (u8 b).

Definition read_u16_le (r : RawImage) (addr : Z) : res Error Z :=
  off ← offset_or r addr;
  if len (bytes r) <? off + 2 then Err (Truncated addr 2)
  else
    b0 ← index (bytes r) off;
    b1 ← index (bytes r) (off + 1);
    Ok (from_le [b0; b1]).

Definition slice_at (r : RawImage) (addr : Z) : res Error (option (list byte)) :=
  o ← offset_of r addr;
  match o with
  | Some off => s ← slice (bytes r) off (len (bytes r)); Ok (Some s)
  | None => Ok None
  end.

Definition bounds (r : RawImage) : res Error (Z * Z) :=
  e ← end_ r; Ok (start r, e).

(** * Reads are within bounds *)

(** An image inside the address space. *)
Definition image_wf (r : RawImage) : Prop :=
  0 <= load_addr r /\ load_addr r + len (bytes r) < 2 ^ 64.

Lemma end_ok r : image_wf r -> end_ r = Ok (load_addr r + len (bytes r)).
Proof.
  intros [? ?]. unfold end_, usize_add.
  by replace (load_addr r + len (bytes r) <? 2 ^ 64) with true by lia.
Qed.

Lemma offset_of_ok r a : image_wf r ->
  offset_of r a = Ok (if (load_addr r <=? a) && (a <? load_addr r + len (bytes r))
                      then Some (a - load_addr r) else None).
Proof.
  intros Hw. unfold offset_of, contains, start. rewrite end_ok by done.
  destruct (load_addr r <=? a); cbn [mbind res_bind andb]; done.
Qed.

Lemma index_ok {E A} (l : list A) i x : l !! Z.to_nat i = Some x -> 0 <= i ->
  index (E:=E) l i = Ok x.
Proof. intros H Hi. unfold index, get. replace (0 <=? i) with true by lia. by rewrite H. Qed.

Lemma read_u16_le_ok r a b c : image_wf r -> load_addr r <= a ->
  bytes r !! Z.to_nat (a - load_addr r) = Some b ->
  bytes r !! Z.to_nat (a + 1 - load_addr r) = Some c ->
  read_u16_le r a = Ok (u8 b + 256 * u8 c).
Proof.
  intros Hw Ha Hb Hc. pose proof Hw as [? ?]. apply lookup_lt_Some in Hc as Hlt.
  unfold read_u16_le, offset_or. rewrite offset_of_ok, end_ok by done.
  cbn [mbind res_bind]. unfold len in *.
  replace ((load_addr r <=? a) && (a <? load_addr r + Z.of_nat (length (bytes r)))) with true by lia.
  cbn [mbind res_bind ok_or].
  replace (Z.of_nat (length (bytes r)) <? a - load_addr r + 2) with false by lia.
  rewrite (index_ok _ _ b Hb) by lia. cbn [mbind res_bind].
  replace (a - load_addr r + 1) with (a + 1 - load_addr r) by lia.
  rewrite (index_ok _ _ c Hc) by lia. cbn [mbind res_bind]. f_equal. simpl. lia.
Qed.

(** every read of a raw image inside the address space is decided by its
    address. At an address of [load_addr, load_addr + len) [read_u8] returns
    the byte there, [slice_at] the rest of the image from it, and
    [read_u16_le] the little-endian pair, or [Truncated] when only one byte is
    left; at any other address the reads return [OutOfRange] with the image's
    bounds and [slice_at] nothing. *)
Theorem raw_reads r a :
  image_wf r ->
  (load_addr r <= a < load_addr r + len (bytes r) ->
     exists b, bytes r !! Z.to_nat (a - load_addr r) = Some b /\ read_u8 r a = Ok (u8 b) /\
       slice_at r a = Ok (Some (drop (Z.to_nat (a - load_addr r)) (bytes r))) /\
       (a + 1 < load_addr r + len (bytes r) ->
          exists c, bytes r !! Z.to_nat (a + 1 - load_addr r) = Some c /\
            read_u16_le r a = Ok (u8 b + 256 * u8 c)) /\
       (a + 1 = load_addr r + len (bytes r) -> read_u16_le r a = Err (Truncated a 2))) /\
  (~ (load_addr r <= a < load_addr r + len (bytes r)) ->
     let oor := OutOfRange a (load_addr r) (load_addr r + len (bytes r)) in
     read_u8 r a = Err oor /\ read_u16_le r a = Err oor /\ slice_at r a = Ok None).
Proof.
  intros Hw. unfold read_u8, read_u16_le, slice_at, offset_or. rewrite offset_of_ok, end_ok by done.
  cbn [mbind res_bind]. pose proof Hw as [? ?].
  split; intros Ha.
  - replace ((load_addr r <=? a) && (a <? load_addr r + len (bytes r))) with true by lia.
    cbn [mbind res_bind ok_or]. set (off := a - load_addr r).
    assert (0 <= off < len (bytes r)) as Hoff by lia.
    destruct (lookup_lt_is_Some_2 (bytes r) (Z.to_nat off)) as [b Hb]; [unfold len in *; lia|].
    exists b. rewrite (index_ok _ _ b) by (done || lia). split_and!; [done|done| | |].
    + rewrite slice_ok by lia. cbn [mbind res_bind]. do 2 f_equal. unfold sub.
      apply take_ge. rewrite length_drop. unfold len. lia.
    + intros Hc.
      destruct (lookup_lt_is_Some_2 (bytes r) (Z.to_nat (a + 1 - load_addr r))) as [c Hc'];
        [unfold len in *; lia|].
      exists c. split; [done|]. pose proof (read_u16_le_ok r a b c Hw ltac:(lia) Hb Hc') as E.
      unfold read_u16_le, offset_or in E. rewrite offset_of_ok, end_ok in E by done.
      replace ((load_addr r <=? a) && (a <? load_addr r + len (bytes r))) with true in E by lia.
      cbn [mbind res_bind ok_or] in E. fold off in E. by rewrite (index_ok _ _ _ Hb) in E by lia.
    + intros Hc. by replace (len (bytes r) <? off + 2) with true by lia.
  - replace ((load_addr r <=? a) && (a <? load_addr r + len (bytes r))) with false by lia. done.
Qed.

Definition vectors : RawImage := new (byte_of <$> [0; 1; 2; 3]) 0xfffc.

Lemma raw_reads_witness :
  image_wf vectors /\ read_u16_le vectors 0xfffd = Ok 0x201 /\
  read_u8 vectors 0x10000 = Err (OutOfRange 0x10000 0xfffc 0x10000).
Proof.
  assert (image_wf vectors) as Hw by (split; vm_compute; discriminate || done).
  assert (len (bytes vectors) = 4) as Hl by done.
  split; [done|]. destruct (raw_reads vectors 0xfffd Hw) as [H _].
  destruct (raw_reads vectors 0x10000 Hw) as [_ H'].
  rewrite Hl in H, H'. cbn [load_addr vectors new] in H, H'. split.
  - destruct H as (b & Hb & _ & _ & H & _); [lia|].
    destruct H as (c & Hc & ->); [lia|]. vm_compute in Hb, Hc.
    injection Hb as <-. injection Hc as <-. reflexivity.
  - apply H'. lia.
Defined.
