(* ===== verification/Mos6502.v ===== *)
(** The MOS 6502 backend (src/src/arch/mos6502): opcode table, decoder, text
    form, control-flow classes, and the detection of headerless images. *)

From S2P Require Import Prelude Text Common Ir RawImage.

(** * The opcode table (table.rs) *)

Inductive Mnemonic : Type :=
  | ADC | AND | ASL | BCC | BCS | BEQ | BIT | BMI | BNE | BPL | BRK | BVC | BVS | CLC | CLD
  | CLI | CLV | CMP | CPX | CPY | DEC | DEX | DEY | EOR | INC | INX | INY | JMP | JSR | LDA
  | LDX | LDY | LSR | NOP | ORA | PHA | PHP | PLA | PLP | ROL | ROR | RTI | RTS | SBC | SEC
  | SED | SEI | STA | STX | STY | TAX | TAY | TSX | TXA | TXS | TYA | Illegal.

#[export] Instance Mnemonic_eq_dec : EqDecision Mnemonic.
Proof. solve_decision. Defined.

Inductive AddressingMode : Type :=
| Implied | Accumulator | Immediate | ZeroPage | ZeroPageX | ZeroPageY
| Absolute | AbsoluteX | AbsoluteY | Indirect | IndirectX | IndirectY
| Relative | IllegalOperand.

#[export] Instance AddressingMode_eq_dec : EqDecision AddressingMode.
Proof. solve_decision. Defined.

Definition operand_len (m : AddressingMode) : Z :=
  match m with
  | Implied | Accumulator | IllegalOperand => 0
  | Immediate | ZeroPage | ZeroPageX | ZeroPageY | IndirectX | IndirectY | Relative => 1
  | Absolute | AbsoluteX | AbsoluteY | Indirect => 2
  end.

(** An [OpInfo] is the pair of its mnemonic and its mode. *)
Definition OpInfo : Type := Mnemonic * AddressingMode.
Definition ILL : OpInfo := (Illegal, IllegalOperand).

(** The assignments [t[i] = OpInfo::new(...)]. *)
Definition documented : list (Z * OpInfo) :=
  [(0x69, (ADC, Immediate)); (0x65, (ADC, ZeroPage)); (0x75, (ADC, ZeroPageX));
   (0x6d, (ADC, Absolute)); (0x7d, (ADC, AbsoluteX)); (0x79, (ADC, AbsoluteY));
   (0x61, (ADC, IndirectX)); (0x71, (ADC, IndirectY)); (0x29, (AND, Immediate));
   (0x25, (AND, ZeroPage)); (0x35, (AND, ZeroPageX)); (0x2d, (AND, Absolute));
   (0x3d, (AND, AbsoluteX)); (0x39, (AND, AbsoluteY)); (0x21, (AND, IndirectX));
   (0x31, (AND, IndirectY)); (0x0a, (ASL, Accumulator)); (0x06, (ASL, ZeroPage));
   (0x16, (ASL, ZeroPageX)); (0x0e, (ASL, Absolute)); (0x1e, (ASL, AbsoluteX));
   (0x90, (BCC, Relative)); (0xb0, (BCS, Relative)); (0xf0, (BEQ, Relative));
   (0x30, (BMI, Relative)); (0xd0, (BNE, Relative)); (0x10, (BPL, Relative));
   (0x50, (BVC, Relative)); (0x70, (BVS, Relative)); (0x24, (BIT, ZeroPage));
   (0x2c, (BIT, Absolute)); (0x00, (BRK, Implied)); (0x18, (CLC, Implied));
   (0xd8, (CLD, Implied)); (0x58, (CLI, Implied)); (0xb8, (CLV, Implied));
   (0x38, (SEC, Implied)); (0xf8, (SED, Implied)); (0x78, (SEI, Implied));
   (0xc9, (CMP, Immediate)); (0xc5, (CMP, ZeroPage)); (0xd5, (CMP, ZeroPageX));
   (0xcd, (CMP, Absolute)); (0xdd, (CMP, AbsoluteX)); (0xd9, (CMP, AbsoluteY));
   (0xc1, (CMP, IndirectX)); (0xd1, (CMP, IndirectY)); (0xe0, (CPX, Immediate));
   (0xe4, (CPX, ZeroPage)); (0xec, (CPX, Absolute)); (0xc0, (CPY, Immediate));
   (0xc4, (CPY, ZeroPage)); (0xcc, (CPY, Absolute)); (0xc6, (DEC, ZeroPage));
   (0xd6, (DEC, ZeroPageX)); (0xce, (DEC, Absolute)); (0xde, (DEC, AbsoluteX));
   (0xca, (DEX, Implied)); (0x88, (DEY, Implied)); (0x49, (EOR, Immediate));
   (0x45, (EOR, ZeroPage)); (0x55, (EOR, ZeroPageX)); (0x4d, (EOR, Absolute));
   (0x5d, (EOR, AbsoluteX)); (0x59, (EOR, AbsoluteY)); (0x41, (EOR, IndirectX));
   (0x51, (EOR, IndirectY)); (0xe6, (INC, ZeroPage)); (0xf6, (INC, ZeroPageX));
   (0xee, (INC, Absolute)); (0xfe, (INC, AbsoluteX)); (0xe8, (INX, Implied));
   (0xc8, (INY, Implied)); (0x4c, (JMP, Absolute)); (0x6c, (JMP, Indirect));
   (0x20, (JSR, Absolute)); (0xa9, (LDA, Immediate)); (0xa5, (LDA, ZeroPage));
   (0xb5, (LDA, ZeroPageX)); (0xad, (LDA, Absolute)); (0xbd, (LDA, AbsoluteX));
   (0xb9, (LDA, AbsoluteY)); (0xa1, (LDA, IndirectX)); (0xb1, (LDA, IndirectY));
   (0xa2, (LDX, Immediate)); (0xa6, (LDX, ZeroPage)); (0xb6, (LDX, ZeroPageY));
   (0xae, (LDX, Absolute)); (0xbe, (LDX, AbsoluteY)); (0xa0, (LDY, Immediate));
   (0xa4, (LDY, ZeroPage)); (0xb4, (LDY, ZeroPageX)); (0xac, (LDY, Absolute));
   (0xbc, (LDY, AbsoluteX)); (0x4a, (LSR, Accumulator)); (0x46, (LSR, ZeroPage));
   (0x56, (LSR, ZeroPageX)); (0x4e, (LSR, Absolute)); (0x5e, (LSR, AbsoluteX));
   (0xea, (NOP, Implied)); (0x09, (ORA, Immediate)); (0x05, (ORA, ZeroPage));
   (0x15, (ORA, ZeroPageX)); (0x0d, (ORA, Absolute)); (0x1d, (ORA, AbsoluteX));
   (0x19, (ORA, AbsoluteY)); (0x01, (ORA, IndirectX)); (0x11, (ORA, IndirectY));
   (0x48, (PHA, Implied)); (0x08, (PHP, Implied)); (0x68, (PLA, Implied));
   (0x28, (PLP, Implied)); (0x2a, (ROL, Accumulator)); (0x26, (ROL, ZeroPage));
   (0x36, (ROL, ZeroPageX)); (0x2e, (ROL, Absolute)); (0x3e, (ROL, AbsoluteX));
   (0x6a, (ROR, Accumulator)); (0x66, (ROR, ZeroPage)); (0x76, (ROR, ZeroPageX));
   (0x6e, (ROR, Absolute)); (0x7e, (ROR, AbsoluteX)); (0x40, (RTI, Implied));
   (0x60, (RTS, Implied)); (0xe9, (SBC, Immediate)); (0xe5, (SBC, ZeroPage));
   (0xf5, (SBC, ZeroPageX)); (0xed, (SBC, Absolute)); (0xfd, (SBC, AbsoluteX));
   (0xf9, (SBC, AbsoluteY)); (0xe1, (SBC, IndirectX)); (0xf1, (SBC, IndirectY));
   (0x85, (STA, ZeroPage)); (0x95, (STA, ZeroPageX)); (0x8d, (STA, Absolute));
   (0x9d, (STA, AbsoluteX)); (0x99, (STA, AbsoluteY)); (0x81, (STA, IndirectX));
   (0x91, (STA, IndirectY)); (0x86, (STX, ZeroPage)); (0x96, (STX, ZeroPageY));
   (0x8e, (STX, Absolute)); (0x84, (STY, ZeroPage)); (0x94, (STY, ZeroPageX));
   (0x8c, (STY, Absolute)); (0xaa, (TAX, Implied)); (0xa8, (TAY, Implied));
   (0xba, (TSX, Implied)); (0x8a, (TXA, Implied)); (0x9a, (TXS, Implied));
   (0x98, (TYA, Implied))].

Definition OPCODE_TABLE : list OpInfo :=
  fold_left (fun t '(i, o) => <[Z.to_nat i := o]> t) documented (replicate 256 ILL).

Definition op_info (b : Z) : OpInfo := nth (Z.to_nat b) OPCODE_TABLE ILL.
#[global] Arguments op_info : simpl never.

Definition mnemonic_name (m : Mnemonic) : list byte :=
  match m with
  | ADC => str "ADC" | AND => str "AND" | ASL => str "ASL" | BCC => str "BCC"
  | BCS => str "BCS" | BEQ => str "BEQ" | BIT => str "BIT" | BMI => str "BMI"
  | BNE => str "BNE" | BPL => str "BPL" | BRK => str "BRK" | BVC => str "BVC"
  | BVS => str "BVS" | CLC => str "CLC" | CLD => str "CLD" | CLI => str "CLI"
  | CLV => str "CLV" | CMP => str "CMP" | CPX => str "CPX" | CPY => str "CPY"
  | DEC => str "DEC" | DEX => str "DEX" | DEY => str "DEY" | EOR => str "EOR"
  | INC => str "INC" | INX => str "INX" | INY => str "INY" | JMP => str "JMP"
  | JSR => str "JSR" | LDA => str "LDA" | LDX => str "LDX" | LDY => str "LDY"
  | LSR => str "LSR" | NOP => str "NOP" | ORA => str "ORA" | PHA => str "PHA"
  | PHP => str "PHP" | PLA => str "PLA" | PLP => str "PLP" | ROL => str "ROL"
  | ROR => str "ROR" | RTI => str "RTI" | RTS => str "RTS" | SBC => str "SBC"
  | SEC => str "SEC" | SED => str "SED" | SEI => str "SEI" | STA => str "STA"
  | STX => str "STX" | STY => str "STY" | TAX => str "TAX" | TAY => str "TAY"
  | TSX => str "TSX" | TXA => str "TXA" | TXS => str "TXS" | TYA => str "TYA"
  | Illegal => str "??"
  end.

(** * Decoding (mod.rs) *)

Record DecodedInsn : Type := {
  i_addr : VAddr;
  mnemonic : Mnemonic;
  mode : AddressingMode;
  operand : Z;
  i_bytes : list byte;
}.

#[export] Instance mos6502_arch_insn : ArchInsn DecodedInsn :=
  {| addr := i_addr; original_bytes := i_bytes |}.

Inductive Error : Type :=
| Truncated (offset opcode needs have : Z).

Definition decode_one (bytes : list byte) (a : Z) : res Error DecodedInsn :=
  if bool_decide (bytes = []) then Err (Truncated 0 0 1 0)
  else
    b0 ← index bytes 0;
    let opcode := u8 b0 in
    let info := op_info opcode in
    let needs := operand_len info.2 in
    if len bytes <? 1 + needs then Err (Truncated 0 opcode needs (len bytes - 1))
    else
      operand ←
        (if needs =? 0 then Ok 0
         else if needs =? 1 then b1 ← index bytes 1; Ok (u8 b1)
         else if needs =? 2 then
           b1 ← index bytes 1; b2 ← index bytes 2; Ok (from_le [b1; b2])
         else Panic);
      ob ← slice bytes 0 (needs + 1);
      Ok {| i_addr := a; mnemonic := info.1; mode := info.2; operand := operand; i_bytes := ob |}.

(** [while off < bytes.len()]: each turn consumes at least one byte, so
    [length bytes] turns are enough. *)
Fixpoint decode_loop (fuel : nat) (bytes : list byte) (start off : Z)
    (out : list DecodedInsn) : res Error (list DecodedInsn) :=
  if off <? len bytes then
    match fuel with
    | O => Panic
    | S fuel' =>
        rest ← slice bytes off (len bytes);
        insn ← decode_one rest (wrap64 (start + off));
        decode_loop fuel' bytes start (off + len (i_bytes insn)) (out ++ [insn])
    end
  else Ok out.

Definition decode_range (bytes : list byte) (start : Z) : res Error (list DecodedInsn) :=
  decode_loop (length bytes) bytes start 0 [].

(** * Control flow *)

Inductive InsnKind : Type :=
| Branch (taken fallthrough : Z)
| JumpDirect (target : Z)
| JumpIndirect
| Call (target fallthrough : Z)
| Return
| Break
| Other.

(** [insn.operand as i8] and back to [u64]. *)
Definition relative_offset (i : DecodedInsn) : Z := wrap64 (sint 8 (wrap8 (operand i))).

Definition next_addr (i : DecodedInsn) : Z := wrap64 (i_addr i + len (i_bytes i)).

Definition classify (i : DecodedInsn) : InsnKind :=
  let next := next_addr i in
  match mnemonic i, mode i with
  | BCC, _ | BCS, _ | BEQ, _ | BMI, _ | BNE, _ | BPL, _ | BVC, _ | BVS, _ =>
      Branch (wrap64 (next + relative_offset i)) next
  | JMP, Absolute => JumpDirect (operand i)
  | JMP, Indirect => JumpIndirect
  | JSR, _ => Call (operand i) next
  | RTS, _ | RTI, _ => Return
  | BRK, _ => Break
  | _, _ => Other
  end.

(** * Text *)

Definition hex2 (v : Z) : list byte := pad0 2 (fmt_HEX v).
Definition hex4 (v : Z) : list byte := pad0 4 (fmt_HEX v).

Definition format_insn_with (i : DecodedInsn) (resolve : Z -> option (list byte))
  : res Error (list byte) :=
  let m := mnemonic_name (mnemonic i) in
  let addr16 alt := default alt (resolve (operand i)) in
  let a2 := addr16 (str "$" ++ hex2 (operand i)) in
  let a4 := addr16 (str "$" ++ hex4 (operand i)) in
  match mode i with
  | Implied => Ok m
  | Accumulator => Ok (m ++ str " A")
  | Immediate => Ok (m ++ str " #$" ++ hex2 (operand i))
  | ZeroPage => Ok (m ++ str " " ++ a2)
  | ZeroPageX => Ok (m ++ str " " ++ a2 ++ str ",X")
  | ZeroPageY => Ok (m ++ str " " ++ a2 ++ str ",Y")
  | Absolute => Ok (m ++ str " " ++ a4)
  | AbsoluteX => Ok (m ++ str " " ++ a4 ++ str ",X")
  | AbsoluteY => Ok (m ++ str " " ++ a4 ++ str ",Y")
  | Indirect => Ok (m ++ str " (" ++ a4 ++ str ")")
  | IndirectX => Ok (m ++ str " (" ++ a2 ++ str ",X)")
  | IndirectY => Ok (m ++ str " (" ++ a2 ++ str "),Y")
  | Relative =>
      let tgt := Z.land (wrap64 (next_addr i + relative_offset i)) 0xffff in
      Ok (m ++ str " $" ++ hex4 tgt)
  | IllegalOperand => b ← index (i_bytes i) 0; Ok (str "?? $" ++ hex2 (u8 b))
  end.

Definition format_insn (i : DecodedInsn) : res Error (list byte) :=
  format_insn_with i (fun _ => None).

(** * Headerless images *)

Definition ENTRY_PROBE : nat := 12.

(** The loop [for _ in 0..ENTRY_PROBE], [n] turns left. *)
Fixpoint probe (n : nat) (bytes : list byte) (load_addr at_ : Z) : res Error bool :=
  match n with
  | O => Ok true
  | S n' =>
      match get_range bytes (wrap64 (at_ - load_addr)) (len bytes) with
      | None => Ok false
      | Some rest =>
          if bool_decide (rest = []) then Ok false
          else
            match decode_one rest at_ with
            | Panic => Panic
            | Err _ => Ok false
            | Ok insn =>
                if bool_decide (mnemonic insn = Illegal) then Ok false
                else match classify insn with
                | Break => Ok false
                | Return | JumpIndirect => Ok true
                | JumpDirect target => probe n' bytes load_addr target
                | _ => at' ← usize_add at_ (len (i_bytes insn)); probe n' bytes load_addr at'
                end
            end
      end
  end.

Definition plausible_entry (bytes : list byte) (load_addr entry : Z) : res Error bool :=
  probe ENTRY_PROBE bytes load_addr entry.

Definition raw_image_load_addr (bytes : list byte) : res Error (option Z) :=
  if negb ((6 <=? len bytes) && (len bytes <=? 0x10000)) then Ok None
  else
    let load_addr := 0x10000 - len bytes in
    let reset_off := 0xfffc - load_addr in
    match get bytes reset_off, get bytes (reset_off + 1) with
    | Some lo, Some hi =>
        let reset := from_le [lo; hi] in
        if reset <? load_addr then Ok None
        else
          p ← plausible_entry bytes load_addr reset;
          Ok (if (p : bool) then Some load_addr else None)
    | _, _ => Ok None
    end.
