(* ===== verification/Mos6502Decode.v ===== *)
(** The 6502 decoder is exact, its text is unambiguous, and the image
    detection accepts exactly the images whose reset code is plausible. *)

From S2P Require Import Prelude Text Common Ir RawImage Mos6502.

(** * One instruction *)

Lemma operand_len_range m : 0 <= operand_len m <= 2.
Proof. destruct m; simpl; lia. Qed.

(** The decoder as one equation on the bytes. *)
Lemma decode_one_eq bs a :
  decode_one bs a =
  match bs with
  | [] => Err (Truncated 0 0 1 0)
  | b :: t =>
      let n := operand_len (op_info (u8 b)).2 in
      if len t <? n then Err (Truncated 0 (u8 b) n (len t))
      else Ok {| i_addr := a; mnemonic := (op_info (u8 b)).1; mode := (op_info (u8 b)).2;
                 operand := from_le (take (Z.to_nat n) t);
                 i_bytes := b :: take (Z.to_nat n) t |}
  end.
Proof.
  destruct bs as [|b t]; [done|]. unfold decode_one. rewrite bool_decide_eq_false_2 by done.
  change (index (E:=Error) (b :: t) 0) with (Ok (E:=Error) b). cbn [mbind res_bind].
  set (n := operand_len (op_info (u8 b)).2).
  pose proof (operand_len_range (op_info (u8 b)).2) as Hn. fold n in Hn.
  assert (len (b :: t) = 1 + len t) as Hl by (unfold len; simpl length; lia). rewrite Hl.
  replace (1 + len t <? 1 + n) with (len t <? n) by lia. cbv zeta.
  destruct (Z.ltb_spec (len t) n) as [Ht|Ht]; [do 2 f_equal; lia|].
  rewrite slice_ok by lia. unfold sub. rewrite drop_0.
  replace (Z.to_nat (n + 1 - 0)) with (S (Z.to_nat n)) by lia.
  assert (n = 0 \/ n = 1 \/ n = 2) as [E|[E|E]] by lia; rewrite E in *; cbn [Z.eqb mbind res_bind];
    [done|destruct t as [|x t]|destruct t as [|x [|y t]]]; try done;
    try (unfold len in Ht; simpl in Ht; lia).
  change (Ok (E:=Error) {| i_addr := a; mnemonic := (op_info (u8 b)).1;
    mode := (op_info (u8 b)).2; operand := u8 x; i_bytes := [b; x] |} =
    Ok {| i_addr := a; mnemonic := (op_info (u8 b)).1;
    mode := (op_info (u8 b)).2; operand := from_le [x]; i_bytes := [b; x] |}).
  do 2 f_equal. cbn [from_le]. lia.
Qed.

(** What a decoded instruction looks like. *)
Definition insn_shape (i : DecodedInsn) : Prop :=
  exists b t, i_bytes i = b :: t /\ (mnemonic i, mode i) = op_info (u8 b) /\
    len t = operand_len (mode i) /\ operand i = from_le t.

Lemma mos_decode_one_ok bs a i : decode_one bs a = Ok i ->
  i_addr i = a /\ insn_shape i /\ i_bytes i = take (length (i_bytes i)) bs /\
  1 <= len (i_bytes i) <= 3 /\ len (i_bytes i) <= len bs.
Proof.
  rewrite decode_one_eq. destruct bs as [|b t]; [done|]. cbv zeta.
  pose proof (operand_len_range (op_info (u8 b)).2) as Hn. set (n := operand_len _) in *.
  destruct (Z.ltb_spec (len t) n) as [|Ht]; [done|]. intros [= <-]. cbn [i_addr i_bytes].
  assert (length (take (Z.to_nat n) t) = Z.to_nat n) as Hl
    by (rewrite length_take; unfold len in Ht; lia).
  assert (len (b :: take (Z.to_nat n) t) = 1 + n) as Hl' by (unfold len; simpl length; lia).
  split_and!; [done| | |lia|lia|rewrite Hl'; unfold len in *; simpl length; lia].
  - exists b, (take (Z.to_nat n) t). cbn [mnemonic mode i_bytes operand].
    split_and!; [done|by destruct (op_info (u8 b))| |done]. unfold len. lia.
  - simpl length. cbn [take]. by rewrite Hl.
Qed.

(** * A stream *)

Inductive decodes : list byte -> Z -> list DecodedInsn -> Prop :=
| decodes_nil a : decodes [] a []
| decodes_cons bs a i l :
    decode_one bs (wrap64 a) = Ok i ->
    decodes (drop (length (i_bytes i)) bs) (a + len (i_bytes i)) l ->
    decodes bs a (i :: l).

Lemma mos_decodes_concat bs a l : decodes bs a l -> concat_bytes l = bs.
Proof.
  induction 1 as [|bs a i l Hi _ IH]; [done|]. change (i :: l) with ([i] ++ l).
  rewrite concat_bytes_app, IH. destruct (mos_decode_one_ok _ _ _ Hi) as (_ & _ & Hb & _).
  unfold concat_bytes. simpl. rewrite app_nil_r. rewrite Hb at 1. apply take_drop.
Qed.

Lemma mos_decodes_placed bs a l : decodes bs a l -> forall k i, l !! k = Some i ->
  i_addr i = wrap64 (a + len (concat_bytes (take k l))) /\ insn_shape i.
Proof.
  induction 1 as [|bs a i l Hi Hl IH]; intros k x Hk; [by rewrite lookup_nil in Hk|].
  destruct (mos_decode_one_ok _ _ _ Hi) as (Ha & Hs & _).
  destruct k as [|k].
  - injection Hk as <-. cbn [take]. unfold concat_bytes. simpl. unfold len. simpl.
    by rewrite Z.add_0_r.
  - simpl in Hk. destruct (IH k x Hk) as [-> Hx]. split; [|done]. cbn [take].
    change (i :: take k l) with ([i] ++ take k l). rewrite concat_bytes_app, len_app.
    unfold concat_bytes at 2. simpl. rewrite app_nil_r. f_equal. lia.
Qed.

(** The outcome of a run: the whole input, or a complete prefix followed by an
    instruction whose operand is cut short. *)
Definition stream_result (bs : list byte) (a : Z) (r : res Error (list DecodedInsn)) : Prop :=
  match r with
  | Ok l => decodes bs a l
  | Err (Truncated offset opcode needs have) =>
      exists p b t l, bs = p ++ b :: t /\ decodes p a l /\ offset = 0 /\ opcode = u8 b /\
        needs = operand_len (op_info (u8 b)).2 /\ have = len t /\ have < needs
  | Panic => False
  end.

Lemma decode_loop_result bs start fuel off out : 0 <= off <= len bs ->
  len bs - off <= Z.of_nat fuel ->
  exists r, stream_result (drop (Z.to_nat off) bs) (start + off) r /\
    decode_loop fuel bs start off out = (l ← r; Ok (out ++ l)).
Proof.
  revert off out. induction fuel as [|fuel IH]; intros off out Ho Hf; cbn [decode_loop];
    destruct (Z.ltb_spec off (len bs)) as [Hlt|Hge]; try lia.
  1,3: exists (Ok []); cbn; rewrite app_nil_r; split; [|done];
    rewrite drop_ge by (unfold len in *; lia); constructor.
  rewrite slice_ok by lia. cbn [mbind res_bind].
  assert (sub bs off (len bs) = drop (Z.to_nat off) bs) as ->
    by (unfold sub; apply take_ge; rewrite length_drop; unfold len; lia).
  assert (len (drop (Z.to_nat off) bs) = len bs - off) as Hd
    by (unfold len in *; rewrite length_drop; lia).
  destruct (decode_one (drop (Z.to_nat off) bs) (wrap64 (start + off))) as [i|e|] eqn:E1.
  - destruct (mos_decode_one_ok _ _ _ E1) as (_ & _ & Hb & H1 & H2).
    destruct (IH (off + len (i_bytes i)) (out ++ [i])) as (r & Hr & Heq); [lia|lia|].
    cbn [mbind res_bind]. rewrite Heq.
    assert (drop (Z.to_nat (off + len (i_bytes i))) bs
            = drop (length (i_bytes i)) (drop (Z.to_nat off) bs)) as Hdr
      by (rewrite drop_drop; f_equal; unfold len; lia).
    rewrite Hdr, Z.add_assoc in Hr.
    exists (l ← r; Ok (i :: l)). split.
    + destruct r as [l|[o op n h]|]; cbn in *; [by econstructor| |done].
      destruct Hr as (p & b & t & l & Hp & Hl & Hrest).
      exists (i_bytes i ++ p), b, t, (i :: l). split_and!; [| |apply Hrest..].
      * rewrite <- (assoc_L (++)), <- Hp. rewrite Hb at 1. by rewrite take_drop.
      * assert (decode_one (i_bytes i ++ p) (wrap64 (start + off)) = Ok i) as E2.
        { destruct (mos_decode_one_ok _ _ _ E1) as (_ & (b' & t' & Hbt & Hop & Hlt' & Hopd) & _).
          rewrite decode_one_eq, Hbt. cbn [app]. cbv zeta. rewrite <- Hop. cbn [snd fst].
          assert (Z.to_nat (operand_len (mode i)) = length t') as Hnt by (unfold len in Hlt'; lia).
          replace (len (t' ++ p) <? operand_len (mode i)) with false
            by (rewrite len_app; pose proof (len_nonneg p); lia).
          rewrite Hnt, take_app_length, <- Hbt, <- Hopd.
          destruct (mos_decode_one_ok _ _ _ E1) as (<- & _). by destruct i. }
        econstructor; [done|]. by rewrite drop_app_length.
    + destruct r; cbn; [by rewrite <- (assoc_L (++))|done|done].
  - exists (Err e). split; [|done]. rewrite decode_one_eq in E1.
    destruct (drop (Z.to_nat off) bs) as [|b t] eqn:E2; [unfold len in *; simpl in Hd; lia|].
    cbv zeta in E1. destruct (Z.ltb_spec (len t) (operand_len (op_info (u8 b)).2)); [|done].
    injection E1 as <-. exists [], b, t, []. split_and!; try done. constructor.
  - rewrite decode_one_eq in E1. destruct (drop (Z.to_nat off) bs); [done|].
    cbv zeta in E1. by destruct (_ <? _).
Qed.

(** C34: the 6502 decoder never panics. Either it decodes the whole input:
    concatenating the instructions' bytes gives the input back, and every
    instruction sits at the (wrapping) address of its first byte, with the
    mnemonic and mode of its opcode, exactly the operand bytes the mode asks
    for, and their little-endian value; or it returns [Truncated] when, after
    a prefix that decodes completely, the last opcode has fewer operand bytes
    than its mode needs. The error's offset is always 0. *)
Theorem mos6502_decode_exact (bs : list byte) (start : Z) :
  match decode_range bs start with
  | Ok l =>
      concat_bytes l = bs /\
      forall k i, l !! k = Some i ->
        i_addr i = wrap64 (start + len (concat_bytes (take k l))) /\ insn_shape i
  | Err (Truncated offset opcode needs have) =>
      exists p b t l, bs = p ++ b :: t /\ concat_bytes l = p /\
        Forall insn_shape l /\ offset = 0 /\ opcode = u8 b /\
        needs = operand_len (op_info (u8 b)).2 /\ have = len t /\ have < needs
  | Panic => False
  end.
Proof.
  unfold decode_range.
  destruct (decode_loop_result bs start (length bs) 0 []) as (r & Hr & ->);
    [unfold len; lia|unfold len; lia|].
  change (drop (Z.to_nat 0) bs) with bs in Hr. rewrite Z.add_0_r in Hr.
  destruct r as [l|[o op n h]|]; cbn in *; [| |done].
  - split; [by eapply mos_decodes_concat|]. by eapply mos_decodes_placed.
  - destruct Hr as (p & b & t & l & -> & Hl & Hrest). exists p, b, t, l.
    split_and!; [done|by eapply mos_decodes_concat| |apply Hrest..].
    apply Forall_lookup. intros k i Hk. by eapply mos_decodes_placed.
Qed.

(** * Detecting a headerless image *)

(** The image of [bs] ending at the top of the 64 KiB address space, seen as
    the container the loader would build. *)
Definition rom (bs : list byte) : RawImage := new bs (0x10000 - len bs).

(** The code at [a] of an image is plausible for [n] instructions. *)
Definition decoded_at (img : RawImage) (a : Z) (i : DecodedInsn) : Prop :=
  exists rest, slice_at img a = Ok (Some rest) /\ decode_one rest a = Ok i.

Inductive plausible (img : RawImage) : nat -> Z -> Prop :=
| plausible_done a : plausible img O a
| plausible_stop n a i : decoded_at img a i ->
    classify i = Return \/ classify i = JumpIndirect -> plausible img (S n) a
| plausible_jump n a i t : decoded_at img a i ->
    classify i = JumpDirect t -> plausible img n t -> plausible img (S n) a
| plausible_next n a i : decoded_at img a i -> mnemonic i <> Illegal ->
    (classify i = Other \/ exists x y, classify i = Branch x y \/ classify i = Call x y) ->
    plausible img n (a + len (i_bytes i)) -> plausible img (S n) a.

Lemma rom_wf bs : len bs <= 0x10000 -> image_wf (rom bs).
Proof. intros H. pose proof (len_nonneg bs). unfold image_wf, rom, new. cbn. lia. Qed.

Lemma slice_at_ok r a rest : image_wf r -> slice_at r a = Ok (Some rest) <->
  load_addr r <= a < load_addr r + len (bytes r) /\
  rest = drop (Z.to_nat (a - load_addr r)) (bytes r).
Proof.
  intros Hw. unfold slice_at. rewrite offset_of_ok by done. cbn [mbind res_bind].
  destruct Hw. destruct ((_ <=? _) && _) eqn:E.
  - rewrite slice_ok by lia. cbn [mbind res_bind].
    assert (sub (bytes r) (a - load_addr r) (len (bytes r)) =
            drop (Z.to_nat (a - load_addr r)) (bytes r)) as ->
      by (unfold sub; apply take_ge; rewrite length_drop; unfold len; lia).
    split; [intros [= <-]; split; [lia|done]|intros [_ ->]; done].
  - split; [done|]. intros [? _]. lia.
Qed.

(** The window the probe decodes from, against the container's. *)
Lemma probe_window bs a : len bs <= 0x10000 -> 0 <= a < 2 ^ 63 ->
  (exists rest, rest <> [] /\ slice_at (rom bs) a = Ok (Some rest) /\
     get_range bs (wrap64 (a - (0x10000 - len bs))) (len bs) = Some rest) \/
  ((forall rest, slice_at (rom bs) a <> Ok (Some rest)) /\
   forall rest, get_range bs (wrap64 (a - (0x10000 - len bs))) (len bs) = Some rest -> rest = []).
Proof.
  intros Hl Ha. pose proof (rom_wf bs Hl) as Hw. pose proof (len_nonneg bs).
  set (la := 0x10000 - len bs) in *.
  destruct (decide (la <= a < la + len bs)) as [Hin|Hout].
  - left. exists (drop (Z.to_nat (a - la)) bs).
    assert (wrap64 (a - la) = a - la) as -> by (apply wrap_small; unfold in_range; lia).
    split_and!.
    + intros E. apply (f_equal length) in E. rewrite length_drop in E. unfold len in *. simpl in E. lia.
    + by apply slice_at_ok.
    + apply get_range_Some. split_and!; [lia..|]. unfold sub. symmetry.
      apply take_ge. rewrite length_drop. unfold len. lia.
  - right. split.
    + intros rest Hs. apply slice_at_ok in Hs as [? _]; [|done]. by apply Hout.
    + intros rest Hg. apply get_range_Some in Hg as (Hr & _ & ->).
      assert (len bs <= wrap64 (a - la)) as Hge.
      { destruct (decide (la <= a)).
        - rewrite wrap_small by (unfold in_range; lia). lia.
        - unfold wrap. replace (a - la) with (a - la + 2 ^ 64 + (-1) * 2 ^ 64) by lia.
          rewrite Z_mod_plus_full, Z.mod_small by lia. lia. }
      replace (wrap64 (a - la)) with (len bs) by lia. apply sub_nil.
Qed.

Lemma classify_jump_range bs a i t : decode_one bs a = Ok i -> classify i = JumpDirect t ->
  0 <= t < 2 ^ 16.
Proof.
  intros Hd Hc. destruct (mos_decode_one_ok _ _ _ Hd) as (_ & (b & u & _ & _ & Hu & Ho) & _).
  pose proof (operand_len_range (mode i)). pose proof (from_le_range u) as Hr.
  assert (t = operand i) as -> by (unfold classify in Hc; repeat case_match; by simplify_eq).
  rewrite Ho. unfold len in Hu.
  pose proof (Z.pow_le_mono_r 256 (Z.of_nat (length u)) 2 ltac:(lia) ltac:(lia)). lia.
Qed.

(** An undocumented opcode is classified as [Other]. *)
Lemma illegal_other i : mnemonic i = Illegal -> classify i = Other.
Proof. intros H. unfold classify. by rewrite H. Qed.

(** Inversion of [plausible] at an address where one instruction decodes. *)
Ltac inv_plausible Hat :=
  let Hj := fresh "Hj" in
  inversion 1 as [|? ? ? Hj ?|? ? ? ? Hj ? ?|? ? ? Hj ? ? ?]; subst; apply Hat in Hj as ->; destruct_and?;
  repeat match goal with H : _ \/ _ |- _ => destruct H | H : exists _, _ |- _ => destruct H end;
  try congruence.

Lemma probe_spec bs : len bs <= 0x10000 -> forall n a, 0 <= a < 2 ^ 62 + 3 * (12 - Z.of_nat n) ->
  (n <= 12)%nat ->
  exists p, probe n bs (0x10000 - len bs) a = Ok p /\ (p = true <-> plausible (rom bs) n a).
Proof.
  intros Hl. induction n as [|n IH]; intros a Ha Hn; cbn [probe].
  { exists true. split; [done|]. split; [constructor|done]. }
  destruct (probe_window bs a Hl ltac:(lia)) as [(rest & Hne & Hs & ->)|[Hs Hg]]; cycle 1.
  { assert (~ plausible (rom bs) (S n) a) as Hno
      by (inversion 1 as [|??? (?&?&?) ?|???? (?&?&?) ??|??? (?&?&?) ???]; subst; by eapply Hs).
    exists false. split; [|naive_solver].
    destruct (get_range _ _ _) as [rest|]; [|done]. by rewrite (Hg rest eq_refl). }
  rewrite bool_decide_eq_false_2 by done.
  destruct (decode_one rest a) as [i|e|] eqn:Hd; cycle 1.
  { exists false. split; [done|]. split; [done|]. 
    inversion 1 as [|??? (?&?&?) ?|???? (?&?&?) ??|??? (?&?&?) ???]; congruence. }
  { rewrite decode_one_eq in Hd. destruct rest; [done|]. cbv zeta in Hd. by destruct (_ <? _). }
  assert (forall j, decoded_at (rom bs) a j <-> j = i) as Hat.
  { intros j. split; [intros (? & ? & ?); congruence|intros ->; by exists rest]. }
  destruct (mos_decode_one_ok _ _ _ Hd) as (_ & _ & _ & H1 & _).
  assert (forall a', 0 <= a' < 2 ^ 62 + 3 * (12 - Z.of_nat n) ->
    (plausible (rom bs) (S n) a <-> plausible (rom bs) n a') ->
    exists p, probe n bs (0x10000 - len bs) a' = Ok p /\ (p = true <-> plausible (rom bs) (S n) a)) as Hgo.
  { intros a' Ha' Hiff. destruct (IH a' Ha' ltac:(lia)) as (p & -> & Hp). exists p. by rewrite Hiff. }
  destruct (bool_decide_reflect (mnemonic i = Illegal)) as [Hm|Hm].
  { exists false. split; [done|]. split; [done|].
    pose proof (illegal_other i Hm).
    by inv_plausible Hat. }
  destruct (classify i) as [tk ft|t| |tk ft| | |] eqn:Hc.
  - unfold usize_add. replace (a + len (i_bytes i) <? 2 ^ 64) with true by lia.
    apply Hgo; [lia|]. split; [by inv_plausible Hat|].
    intros. eapply plausible_next; [by apply Hat|done|eauto|done].
  - pose proof (classify_jump_range _ _ _ _ Hd Hc). apply Hgo; [lia|].
    split; [by inv_plausible Hat|]. intros. eapply plausible_jump; [by apply Hat|done|done].
  - exists true. split; [done|]. split; [|done]. intros _. eapply plausible_stop; [by apply Hat|auto].
  - unfold usize_add. replace (a + len (i_bytes i) <? 2 ^ 64) with true by lia.
    apply Hgo; [lia|]. split; [by inv_plausible Hat|].
    intros. eapply plausible_next; [by apply Hat|done|eauto|done].
  - exists true. split; [done|]. split; [|done]. intros _. eapply plausible_stop; [by apply Hat|auto].
  - exists false. split; [done|]. split; [done|]. by inv_plausible Hat.
  - unfold usize_add. replace (a + len (i_bytes i) <? 2 ^ 64) with true by lia.
    apply Hgo; [lia|]. split; [by inv_plausible Hat|].
    intros. eapply plausible_next; [by apply Hat|done|eauto|done].
Qed.

(** The detection of headerless 6502 images never panics, and it accepts
    exactly the images of 6 to 65536 bytes which, placed to end at $FFFF, hold
    a reset vector at $FFFC that points into the image at plausible code:
    within twelve instructions, following direct jumps, the probe only meets
    documented opcodes other than BRK inside the image, or stops early at a
    return or an indirect jump. The address returned is the one that puts the
    end of the image at the top of the address space. *)
Theorem raw_image_load_addr_iff (bs : list byte) :
  exists o, raw_image_load_addr bs = Ok o /\
    forall la, o = Some la <->
      6 <= len bs <= 0x10000 /\ la = 0x10000 - len bs /\
      exists reset, read_u16_le (rom bs) 0xfffc = Ok reset /\ la <= reset /\
        plausible (rom bs) ENTRY_PROBE reset.
Proof.
  unfold raw_image_load_addr.
  destruct (_ && _) eqn:Hl; cbn [negb]; cycle 1.
  { exists None. split; [done|]. intros la. split; [done|lia]. }
  assert (6 <= len bs <= 0x10000) as Hlen by lia. pose proof (rom_wf bs ltac:(lia)) as Hw.
  set (la := 0x10000 - len bs) in *.
  destruct (lookup_lt_is_Some_2 bs (Z.to_nat (0xfffc - la))) as [lo Hlo]; [unfold len in *; lia|].
  destruct (lookup_lt_is_Some_2 bs (Z.to_nat (0xfffc + 1 - la))) as [hi Hhi]; [unfold len in *; lia|].
  pose proof (read_u16_le_ok (rom bs) 0xfffc lo hi Hw ltac:(cbn; lia) Hlo Hhi) as Hr.
  unfold get. replace (0 <=? 0xfffc - la) with true by lia.
  replace (0 <=? 0xfffc - la + 1) with true by lia.
  replace (0xfffc - la + 1) with (0xfffc + 1 - la) by lia. rewrite Hlo, Hhi.
  assert (from_le [lo; hi] = u8 lo + 256 * u8 hi) as Hfl by (cbn [from_le]; lia).
  rewrite <- Hfl in Hr. set (reset := from_le [lo; hi]) in *.
  pose proof (u8_range lo). pose proof (u8_range hi).
  destruct (Z.ltb_spec reset la) as [Hlt|Hge].
  { exists None. split; [done|]. intros la'. split; [done|].
    intros (_ & -> & r & Hr' & Hle & _). rewrite Hr in Hr'. simplify_eq. lia. }
  destruct (probe_spec bs ltac:(lia) ENTRY_PROBE reset ltac:(unfold ENTRY_PROBE; lia)
              ltac:(unfold ENTRY_PROBE; lia)) as (p & Hp & Hiff).
  unfold plausible_entry. fold la in Hp. rewrite Hp. cbn [mbind res_bind].
  exists (if p then Some la else None). split; [done|]. intros la'. split.
  - destruct p; [|done]. intros [= <-]. split_and!; [lia..|]. exists reset.
    split_and!; [done|done|]. by apply Hiff.
  - intros (_ & -> & r & Hr' & Hle & Hpl). rewrite Hr in Hr'. injection Hr' as <-.
    by rewrite (proj2 Hiff Hpl).
Qed.

(** The unit test of the module: NOPs and a jump back to the start. *)
Example nop_image :
  let img j := <[4%nat := byte_of 0x4c]> (<[5%nat := byte_of 0x00]> (<[6%nat := byte_of j]>
    (<[252%nat := byte_of 0]> (<[253%nat := byte_of 0xff]> (replicate 256 (byte_of 0xea)))))) in
  raw_image_load_addr (img 0xff) = Ok (Some 0xff00) /\ raw_image_load_addr (img 0x10) = Ok None.
Proof. split; vm_compute; reflexivity. Qed.
