(* ===== verification/Mos6502Text.v ===== *)
(** The assembly text of the 6502 disassembler determines the bytes. *)

From S2P Require Import Prelude Text Common Ir RawImage Mos6502 Mos6502Decode.

(** * Hexadecimal fields *)

Lemma hex2_chars v : 0 <= v < 256 ->
  exists a b, hex2 v = [a; b] /\ digit_like a = true /\ digit_like b = true.
Proof.
  intros Hv. destruct (padded_field true 16 2 v) as [Hl Hd]; [lia..|].
  fold (fmt_HEX v) in *. fold (hex2 v) in *.
  destruct (hex2 v) as [|a [|b [|]]]; try done. rewrite !Forall_cons in Hd. naive_solver.
Qed.

Lemma hex4_chars v : 0 <= v < 65536 ->
  exists a b c d, hex4 v = [a; b; c; d] /\ digit_like a = true /\ digit_like b = true /\
    digit_like c = true /\ digit_like d = true.
Proof.
  intros Hv. destruct (padded_field true 16 4 v) as [Hl Hd]; [lia..|].
  fold (fmt_HEX v) in *. fold (hex4 v) in *.
  destruct (hex4 v) as [|a [|b [|c [|d [|]]]]]; try done. rewrite !Forall_cons in Hd.
  exists a, b, c, d. naive_solver.
Qed.

Lemma hex_inj n u v : 0 <= u < 2 ^ 64 -> 0 <= v < 2 ^ 64 ->
  pad0 n (fmt_HEX u) = pad0 n (fmt_HEX v) -> u = v.
Proof.
  intros Hu Hv E. apply (f_equal (parse_unsigned 16 64)) in E.
  unfold fmt_HEX in E. rewrite !parse_pad0 in E by (lia || done). by simplify_eq.
Qed.

(** * Mnemonics and opcodes *)

Definition mnemonics : list Mnemonic :=
  [ADC; AND; ASL; BCC; BCS; BEQ; BIT; BMI; BNE; BPL; BRK; BVC; BVS; CLC; CLD;
   CLI; CLV; CMP; CPX; CPY; DEC; DEX; DEY; EOR; INC; INX; INY; JMP; JSR; LDA;
   LDX; LDY; LSR; NOP; ORA; PHA; PHP; PLA; PLP; ROL; ROR; RTI; RTS; SBC; SEC;
   SED; SEI; STA; STX; STY; TAX; TAY; TSX; TXA; TXS; TYA].

Definition name_check : bool :=
  forallb (fun m => (length (mnemonic_name m) =? 3)%nat &&
    negb (beqb (hd (byte_of 63) (mnemonic_name m)) (byte_of 63)) &&
    forallb (fun m' => bool_decide (m = m') || negb (str_eqb (mnemonic_name m) (mnemonic_name m')))
      mnemonics) mnemonics.

Lemma elem_of_mnemonics m : m <> Illegal -> In m mnemonics.
Proof. destruct m; simpl; tauto. Qed.

Lemma mnemonic_name_ok m : m <> Illegal ->
  (exists a b c, mnemonic_name m = [a; b; c] /\ a <> byte_of 63) /\
  forall m', m' <> Illegal -> mnemonic_name m = mnemonic_name m' -> m = m'.
Proof.
  intros Hm. assert (name_check = true) as H by (vm_compute; reflexivity).
  unfold name_check in H. rewrite List.forallb_forall in H.
  specialize (H m (elem_of_mnemonics m Hm)). cbv beta in H.
  apply andb_true_iff in H as [H Hi]. apply andb_true_iff in H as [Hl Hh].
  apply Nat.eqb_eq in Hl. split.
  - destruct (mnemonic_name m) as [|a [|b [|c [|]]]]; try done. exists a, b, c.
    split; [done|]. intros ->. by rewrite (proj2 (beqb_true _ _)) in Hh.
  - intros m' Hm' E. rewrite List.forallb_forall in Hi.
    specialize (Hi m' (elem_of_mnemonics m' Hm')). cbv beta in Hi.
    apply orb_true_iff in Hi as [Hi|Hi]; [by apply bool_decide_eq_true in Hi|].
    unfold str_eqb in Hi. by rewrite bool_decide_eq_true_2 in Hi.
Qed.

(** An undocumented opcode is the only one without a mode, and a mnemonic and
    a mode belong to one documented opcode. *)
Definition opcode_of (o : OpInfo) : option Z :=
  fst <$> List.find (fun p => bool_decide (p.2 = o)) documented.

Definition opcode_check : bool :=
  forallb (fun b => let o := op_info (u8 b) in
    Bool.eqb (bool_decide (o.1 = Illegal)) (bool_decide (o.2 = IllegalOperand)) &&
    (bool_decide (o.1 = Illegal) || bool_decide (opcode_of o = Some (u8 b)))) all_bytes.

Lemma opcode_unique b : ((op_info (u8 b)).1 = Illegal <-> (op_info (u8 b)).2 = IllegalOperand) /\
  forall c, (op_info (u8 b)).1 <> Illegal -> op_info (u8 b) = op_info (u8 c) -> b = c.
Proof.
  assert (opcode_check = true) as H by (vm_compute; reflexivity).
  assert (forall b, (op_info (u8 b)).1 <> Illegal -> opcode_of (op_info (u8 b)) = Some (u8 b)) as Hu.
  { intros x Hn. pose proof (all_bytes_spec _ H x) as Hx. cbv beta zeta in Hx.
    apply andb_true_iff in Hx as [_ Hx]. rewrite (bool_decide_eq_false_2 _ Hn) in Hx.
    by apply bool_decide_eq_true in Hx. }
  pose proof (all_bytes_spec _ H b) as Hb. cbv beta zeta in Hb.
  apply andb_true_iff in Hb as [He _]. split.
  - apply Bool.eqb_prop in He.
    split; intros Hx; eapply bool_decide_eq_true; [rewrite <- He|rewrite He];
      by apply bool_decide_eq_true_2.
  - intros c Hn E. pose proof (Hu b Hn) as E1. rewrite E in Hn, E1. rewrite Hu in E1 by done.
    apply u8_inj. by injection E1.
Qed.

(** * The operand field *)

(** The value printed by a mode, and the text around it. *)
Definition printed (i : DecodedInsn) : Z :=
  match mode i with
  | Relative => Z.land (wrap64 (next_addr i + relative_offset i)) 0xffff
  | _ => operand i
  end.

Definition field (m : AddressingMode) (v : Z) : list byte :=
  match m with
  | Implied | IllegalOperand => []
  | Accumulator => str " A"
  | Immediate => str " #$" ++ hex2 v
  | ZeroPage => str " $" ++ hex2 v
  | ZeroPageX => str " $" ++ hex2 v ++ str ",X"
  | ZeroPageY => str " $" ++ hex2 v ++ str ",Y"
  | Absolute | Relative => str " $" ++ hex4 v
  | AbsoluteX => str " $" ++ hex4 v ++ str ",X"
  | AbsoluteY => str " $" ++ hex4 v ++ str ",Y"
  | Indirect => str " ($" ++ hex4 v ++ str ")"
  | IndirectX => str " ($" ++ hex2 v ++ str ",X)"
  | IndirectY => str " ($" ++ hex2 v ++ str "),Y"
  end.

Lemma format_field i : mode i <> IllegalOperand ->
  format_insn i = Ok (mnemonic_name (mnemonic i) ++ field (mode i) (printed i)).
Proof.
  intros Hm. unfold format_insn, format_insn_with, printed, field.
  destruct (mode i); try done; by rewrite ?app_nil_r.
Qed.

Definition value_ok (m : AddressingMode) (v : Z) : Prop :=
  match m with
  | Implied | Accumulator | IllegalOperand => v = 0
  | Immediate | ZeroPage | ZeroPageX | ZeroPageY | IndirectX | IndirectY => 0 <= v < 256
  | _ => 0 <= v < 65536
  end.

Ltac hex_chars m v Hv :=
  lazymatch m with
  | Implied => idtac | Accumulator => idtac | IllegalOperand => idtac
  | Immediate => destruct (hex2_chars v Hv) as (? & ? & -> & ? & ?)
  | ZeroPage => destruct (hex2_chars v Hv) as (? & ? & -> & ? & ?)
  | ZeroPageX => destruct (hex2_chars v Hv) as (? & ? & -> & ? & ?)
  | ZeroPageY => destruct (hex2_chars v Hv) as (? & ? & -> & ? & ?)
  | IndirectX => destruct (hex2_chars v Hv) as (? & ? & -> & ? & ?)
  | IndirectY => destruct (hex2_chars v Hv) as (? & ? & -> & ? & ?)
  | _ => destruct (hex4_chars v Hv) as (? & ? & ? & ? & -> & ? & ? & ? & ?)
  end.

(** The field fixes its mode, branches and absolute operands apart, which
    belong to different mnemonics. *)
Definition mode_class (m : AddressingMode) : AddressingMode :=
  match m with Relative => Absolute | _ => m end.

Lemma field_mode m m' v v' : m <> IllegalOperand -> m' <> IllegalOperand ->
  value_ok m v -> value_ok m' v' -> field m v = field m' v' -> mode_class m = mode_class m'.
Proof.
  intros Hm Hm' Hv Hv'. destruct m; try done; destruct m'; try done; cbn [value_ok] in Hv, Hv';
    cbn [field];
    lazymatch goal with |- _ -> mode_class ?m = mode_class ?m' =>
      hex_chars m v Hv; hex_chars m' v' Hv' end;
    cbn; intros E; simplify_eq; try done.
Qed.

Lemma field_value m v v' : value_ok m v -> value_ok m v' -> field m v = field m v' -> v = v'.
Proof.
  intros Hv Hv'. destruct m; cbn [value_ok field] in *; try (intros; congruence); intros E;
    repeat (apply (inj (app _)) in E || apply app_inv_tail in E);
    (eapply hex_inj; [| |exact E]; lia).
Qed.

Lemma operand_range i : insn_shape i -> 0 <= operand i < 256 ^ operand_len (mode i).
Proof.
  intros (b & t & _ & _ & Hl & ->). pose proof (from_le_range t). unfold len in Hl. by rewrite <- Hl.
Qed.

Lemma printed_ok i : insn_shape i -> value_ok (mode i) (printed i).
Proof.
  intros Hs. pose proof (operand_range i Hs) as Ho. unfold printed, value_ok.
  destruct (mode i); cbn [operand_len] in Ho; try lia.
  change 0xffff with (Z.ones 16). rewrite Z.land_ones by lia.
  apply Z.mod_pos_bound. lia.
Qed.

(** Two displacements with the same 16-bit target are equal. *)
Lemma relative_inj (next a b : Z) : 0 <= a < 256 -> 0 <= b < 256 ->
  Z.land (wrap64 (next + wrap64 (sint 8 (wrap8 a)))) 0xffff =
  Z.land (wrap64 (next + wrap64 (sint 8 (wrap8 b)))) 0xffff -> a = b.
Proof.
  intros Ha Hb. change 0xffff with (Z.ones 16). rewrite !Z.land_ones by lia.
  assert (forall x, wrap64 x mod 2 ^ 16 = x mod 2 ^ 16) as Hw.
  { intros x. unfold wrap. rewrite <- Znumtheory.Zmod_div_mod; [done|lia|lia|].
    by exists (2 ^ 48). }
  assert (forall x y, (x + wrap64 y) mod 2 ^ 16 = (x + y) mod 2 ^ 16) as Hw2.
  { intros x y. rewrite Z.add_mod, Hw, <- Z.add_mod by lia. done. }
  rewrite !Hw, !Hw2, !wrap_small by (unfold in_range; lia).
  pose proof (sint_range 8 a ltac:(lia) ltac:(unfold in_range; lia)).
  pose proof (sint_range 8 b ltac:(lia) ltac:(unfold in_range; lia)). intros E.
  assert (sint 8 a = sint 8 b) as E2.
  { apply (f_equal (fun z => (z - next) mod 2 ^ 16)) in E. rewrite !Zminus_mod_idemp_l in E.
    replace (next + sint 8 a - next) with (sint 8 a) in E by lia.
    replace (next + sint 8 b - next) with (sint 8 b) in E by lia. clear -H H0 E.
    destruct (Z.mod_eq (sint 8 a) (2 ^ 16) ltac:(lia)).
    pose proof (Z.div_mod (sint 8 a) (2 ^ 16) ltac:(lia)).
    pose proof (Z.div_mod (sint 8 b) (2 ^ 16) ltac:(lia)). lia. }
  rewrite <- (wrap_sint 8 a), <- (wrap_sint 8 b) by (unfold in_range; lia). by rewrite E2.
Qed.

Lemma shape_illegal i : insn_shape i ->
  (mnemonic i = Illegal <-> mode i = IllegalOperand).
Proof.
  intros (b & t & _ & E & _). pose proof (proj1 (opcode_unique b)) as H.
  rewrite <- E in H. exact H.
Qed.

Lemma format_illegal i : insn_shape i -> mode i = IllegalOperand ->
  exists b, i_bytes i = [b] /\ format_insn i = Ok (str "?? $" ++ hex2 (u8 b)).
Proof.
  intros (b & t & Hb & _ & Hl & _) Hm. rewrite Hm in Hl. exists b.
  destruct t; [|unfold len in Hl; simpl in Hl; lia]. split; [done|].
  unfold format_insn, format_insn_with. by rewrite Hm, Hb.
Qed.

Lemma same_op_same_bytes i j : insn_shape i -> insn_shape j -> mnemonic i <> Illegal ->
  mnemonic i = mnemonic j -> mode i = mode j -> operand i = operand j -> i_bytes i = i_bytes j.
Proof.
  intros (b & t & Hb & Ei & Hl & Ho) (b' & t' & Hb' & Ej & Hl' & Ho') Hn Em Eo Ev.
  assert (b = b') as <-.
  { apply (proj2 (opcode_unique b)); rewrite <- Ei; [done|]. rewrite <- Ej. congruence. }
  rewrite Hb, Hb'. f_equal. rewrite <- (to_le_from_le t), <- (to_le_from_le t').
  f_equal; [unfold len in *; rewrite Eo in Hl; lia|congruence].
Qed.

Lemma format_length3 i : insn_shape i -> mode i <> IllegalOperand ->
  exists a b c r, format_insn i = Ok ([a; b; c] ++ r) /\ mnemonic_name (mnemonic i) = [a; b; c] /\
    r = field (mode i) (printed i) /\ a <> byte_of 63.
Proof.
  intros Hs Hm. assert (mnemonic i <> Illegal) as Hn by (by rewrite shape_illegal).
  destruct (mnemonic_name_ok _ Hn) as [(a & b & c & E & Ha) _].
  exists a, b, c, (field (mode i) (printed i)). rewrite format_field, E by done. done.
Qed.

(** Branches are the instructions with a relative operand. *)
Definition relative_check : bool :=
  forallb (fun b => forallb (fun c =>
    negb (bool_decide ((op_info (u8 b)).2 = Relative)) ||
    negb (bool_decide ((op_info (u8 b)).1 = (op_info (u8 c)).1)) ||
    bool_decide ((op_info (u8 c)).2 = Relative)) all_bytes)
    (base.filter (fun b => (op_info (u8 b)).2 = Relative) all_bytes).

Lemma relative_mnemonic i j : insn_shape i -> insn_shape j ->
  mnemonic i = mnemonic j -> mode i = Relative -> mode j = Relative.
Proof.
  intros (b & t & _ & Ei & _) (c & t' & _ & Ej & _) Em Hr.
  assert (relative_check = true) as H by (vm_compute; reflexivity).
  unfold relative_check in H. rewrite List.forallb_forall in H.
  specialize (H b). cbv beta in H. pose proof (f_equal fst Ei) as E1. pose proof (f_equal snd Ei) as E2.
  pose proof (f_equal fst Ej) as E3. pose proof (f_equal snd Ej) as E4. cbn [fst snd] in *.
  assert (In b (base.filter (fun b => (op_info (u8 b)).2 = Relative) all_bytes)) as Hin.
  { apply list_elem_of_In, list_elem_of_filter. split; [congruence|apply elem_of_all_bytes]. }
  pose proof (all_bytes_spec _ (H Hin) c) as Hc. cbv beta in Hc.
  rewrite (bool_decide_eq_true_2 ((op_info (u8 b)).2 = Relative)) in Hc by congruence.
  rewrite (bool_decide_eq_true_2 ((op_info (u8 b)).1 = (op_info (u8 c)).1)) in Hc by congruence.
  cbn [negb orb] in Hc. apply bool_decide_eq_true in Hc. congruence.
Qed.

(** The text of a disassembled instruction is total and unambiguous: two
    instructions decoded at one address whose lines of assembly are equal
    have the same bytes. (Addresses matter, since a branch prints its
    absolute target.) *)
Theorem mos6502_text_unambiguous (i j : DecodedInsn) :
  insn_shape i -> insn_shape j -> i_addr i = i_addr j ->
  (exists t, format_insn i = Ok t) /\
  (format_insn i = format_insn j -> i_bytes i = i_bytes j).
Proof.
  intros Hi Hj Ha. destruct (decide (mode i = IllegalOperand)) as [Mi|Mi].
  - destruct (format_illegal i Hi Mi) as (b & -> & ->). split; [eauto|].
    destruct (decide (mode j = IllegalOperand)) as [Mj|Mj].
    + destruct (format_illegal j Hj Mj) as (c & -> & ->). intros [= E].
      apply hex_inj in E; [by apply u8_inj in E as ->| |]; pose proof (u8_range b);
        pose proof (u8_range c); lia.
    + destruct (format_length3 j Hj Mj) as (x & y & z & r & -> & _ & _ & Hx). intros [= <-]. done.
  - destruct (format_length3 i Hi Mi) as (x & y & z & r & -> & Ni & Er & Hx). split; [eauto|].
    destruct (decide (mode j = IllegalOperand)) as [Mj|Mj].
    { destruct (format_illegal j Hj Mj) as (c & _ & ->). intros [= ->]. done. }
    destruct (format_length3 j Hj Mj) as (x' & y' & z' & r' & -> & Nj & Er' & _).
    intros [= <- <- <- <-].
    assert (mnemonic i <> Illegal) as Hn by (by rewrite shape_illegal).
    assert (mnemonic j <> Illegal) as Hn' by (by rewrite shape_illegal).
    assert (mnemonic i = mnemonic j) as Em
      by (apply (mnemonic_name_ok _ Hn); [done|congruence]).
    rewrite Er in Er'. pose proof (printed_ok i Hi) as Vi. pose proof (printed_ok j Hj) as Vj.
    pose proof (field_mode _ _ _ _ Mi Mj Vi Vj Er') as Hc.
    pose proof (relative_mnemonic i j Hi Hj Em) as Hr. symmetry in Em.
    pose proof (relative_mnemonic j i Hj Hi Em) as Hr'. symmetry in Em.
    assert (mode i = mode j) as Eo.
    { destruct (mode i), (mode j); try done; naive_solver. }
    rewrite <- Eo in Er', Vj. apply field_value in Er'; [|done|done].
    apply same_op_same_bytes; try done. unfold printed in Er'. rewrite <- Eo in Er'.
    pose proof (operand_range i Hi) as Ri. pose proof (operand_range j Hj) as Rj.
    destruct (mode i) eqn:Mr; try done. rewrite <- Eo in Rj. cbn [operand_len] in Ri, Rj.
    unfold next_addr, relative_offset in Er'.
    assert (forall k, insn_shape k -> mode k = Relative -> len (i_bytes k) = 2) as Hlen.
    { intros k (b & t & -> & _ & Hl & _) Mk. rewrite Mk in Hl. unfold len in *. simpl in *. lia. }
    rewrite (Hlen i Hi Mr), (Hlen j Hj (eq_sym Eo)), Ha in Er'.
    by apply relative_inj in Er'; [|lia|lia].
Qed.

(** [BNE] at $FF00, branching to itself and to the next instruction. *)
Definition bne (d : Z) : DecodedInsn :=
  {| i_addr := 0xff00; mnemonic := BNE; mode := Relative; operand := d;
     i_bytes := [byte_of 0xd0; byte_of d] |}.

Lemma mos6502_text_unambiguous_witness :
  decode_one (byte_of <$> [0xd0; 0xfe; 0x60]) 0xff00 = Ok (bne 0xfe) /\
  format_insn (bne 0xfe) = Ok (str "BNE $FF00") /\ format_insn (bne 0x00) = Ok (str "BNE $FF02") /\
  (format_insn (bne 0xfe) = format_insn (bne 0) -> i_bytes (bne 0xfe) = i_bytes (bne 0)).
Proof.
  split_and!; [vm_compute; reflexivity..|].
  apply (mos6502_text_unambiguous (bne 0xfe) (bne 0)).
  - exists (byte_of 0xd0), [byte_of 0xfe]. split_and!; vm_compute; reflexivity.
  - exists (byte_of 0xd0), [byte_of 0]. split_and!; vm_compute; reflexivity.
  - reflexivity.
Defined.
