(* ===== verification/Codec.v ===== *)
(** The interface every architecture offers to the compiler
    (src/src/arch/codec/mod.rs) and its implementations for BPF, EVM, 6502,
    AArch64 and undecoded machines. *)

From S2P Require Import Prelude Text Common Ir Bpf BpfAsm.
From S2P Require Evm.

(** * The interface (codec/mod.rs) *)

(** The failure an [Assemble] error carries: the code keeps its text. *)
Inductive AsmFailure : Type :=
| BpfFailure (e : BpfAsm.AssembleError)
| EvmFailure (e : Evm.AssembleError).

Inductive ArchError : Type :=
| Unsupported (arch operation : list byte)
| Assemble (e : AsmFailure)
| OutOfRange (msg : list byte)
| UnknownArch (arch : option (list byte)) (e_machine : option Z).

Record EncodeHints : Type := {
  wide : option bool;
  bpf_call_local : option bool;
}.

Definition hints_wide (w : bool) : EncodeHints := {| wide := Some w; bpf_call_local := None |}.
Definition wide_or (h : EncodeHints) (d : bool) : bool := default d (wide h).

Record SwitchSpec : Type := {
  selector : list byte;
  cases : list Z;
  default_addr : Z;
  dispatch : list byte;
  table_va : Z;
  cmp_ip : Z;
}.

Abbreviation CResult := (res ArchError).

(** Trait [ArchCodec]; [C] is the implementing type. *)
Class ArchCodec (C : Type) := {
  codec_name : C -> list byte;
  assemble_one : C -> list byte -> Z -> CResult (list byte);
  desymbolize : C -> list byte -> Z -> list byte;
  encode_jump : C -> Z -> Z -> EncodeHints -> CResult (list byte);
  encode_call : C -> Z -> Z -> EncodeHints -> CResult (list byte);
  encode_cond_jump : C -> list byte -> Z -> Z -> EncodeHints -> CResult (list byte);
  encode_cond_jump_with_code : C -> Z -> Z -> Z -> EncodeHints -> CResult (list byte);
  encode_switch_dispatch : C -> SwitchSpec -> CResult (list byte);
  encoded_jump_size : C -> Z -> Z -> EncodeHints -> Z;
  encoded_cond_jump_size : C -> Z -> Z -> EncodeHints -> Z;
  encoded_call_size : C -> Z -> Z -> EncodeHints -> Z;
  direct_call_bytes_contain_call : C -> bool;
  encode_move : C -> list byte -> list byte -> CResult (list byte);
  encode_arith : C -> list byte -> list byte -> list byte -> CResult (list byte);
  encode_return : C -> option Z -> CResult (list byte);
}.

(** The default bodies of the optional methods. *)
Definition default_desymbolize (text : list byte) (a : Z) : list byte := text.
Definition default_cond_jump_with_code (name : list byte) : CResult (list byte) :=
  Err (Unsupported name (str "cond_jump_with_code")).
Definition default_switch_dispatch (name : list byte) : CResult (list byte) :=
  Err (Unsupported name (str "switch_dispatch")).
Definition default_move (name : list byte) : CResult (list byte) :=
  Err (Unsupported name (str "move")).
Definition default_arith (name : list byte) : CResult (list byte) :=
  Err (Unsupported name (str "arith")).
Definition default_return (name : list byte) : CResult (list byte) :=
  Err (Unsupported name (str "return")).

(** * BPF (bpf/codec.rs) *)

Record BpfCodec : Type := { bpf_variant : BpfVariant }.

Definition bpf_name (c : BpfCodec) : list byte :=
  match bpf_variant c with
  | Linux => str "bpf-linux"
  | Sbfv1 => str "bpf-sbf-v1"
  | Sbfv2 => str "bpf-sbf-v2"
  end.

Definition bpf_err {A} (r : res BpfAsm.AssembleError A) : CResult A :=
  map_err (fun e => Assemble (BpfFailure e)) r.

Definition codec_slot_offset (source_ip target : Z) : CResult Z :=
  let next_slot := wrap64 (source_ip + INSN_SIZE) in
  let delta := sint 64 (wrap64 (sint 64 target - sint 64 next_slot)) in
  if negb (Z.rem delta INSN_SIZE =? 0) then
    Err (OutOfRange (str "BPF branch displacement " ++ fmt_int delta
                     ++ str " bytes is not slot-aligned"))
  else
    let slots := Z.quot delta INSN_SIZE in
    if (- 2 ^ 15 <=? slots) && (slots <? 2 ^ 15) then Ok slots
    else Err (OutOfRange (str "BPF branch displacement " ++ fmt_int slots
                          ++ str " slots overflows i16 (max ±32768)")).

Definition bpf_assemble_one (text : list byte) : CResult (list byte) :=
  bpf_err (assemble_bpf text).

Definition bpf_desymbolize (text : list byte) (a : Z) : list byte :=
  default text (desymbolize_bpf_text text a None).

Definition bpf_encode_jump (source_ip target : Z) : CResult (list byte) :=
  off ← codec_slot_offset source_ip target;
  bpf_err (assemble_bpf_ja off).

Definition bpf_encode_call (source_ip target : Z) (hints : EncodeHints) : CResult (list byte) :=
  slots ← codec_slot_offset source_ip target;
  let mnemonic := if default false (bpf_call_local hints) then str "call_local"
                  else str "call_internal" in
  bpf_err (assemble_bpf (mnemonic ++ str " " ++ fmt_int slots)).

Definition bpf_encode_cond_jump (cond_text : list byte) (source_ip target : Z)
    : CResult (list byte) :=
  off ← codec_slot_offset source_ip target;
  bpf_err (assemble_bpf_ifblock_cond cond_text off).

(** ** Operands of the lifted statements *)

Definition is_bpf_reg (s : list byte) : bool :=
  let s := trim s in
  if negb (starts_with (str "r") s) then false
  else one_of (drop 1 s) [str "0"; str "1"; str "2"; str "3"; str "4"; str "5"; str "6";
                          str "7"; str "8"; str "9"; str "10"].

Definition ends_with (p s : list byte) : bool :=
  match strip_suffix p s with Some _ => true | None => false end.

Definition is_bracket_mem (s : list byte) : bool :=
  let s := trim s in starts_with (str "[") s && ends_with (str "]") s.

Definition desymbolize_mem (operand : list byte) : list byte :=
  default operand (desymbolize_bpf_text operand 0 None).

Definition split_size_suffix (s : list byte) : list byte * option Z :=
  let s := trim s in
  match rfind (str ":u") s with
  | Some idx =>
      match parse_unsigned 10 32 (drop (idx + 2) s) with
      | Some n => if existsb (Z.eqb n) [8; 16; 32; 64]
                  then (trim_end (take idx s), Some n) else (s, None)
      | None => (s, None)
      end
  | None => (s, None)
  end.

Definition size_suffix_for_bits (bits : Z) : CResult (list byte) :=
  if bits =? 8 then Ok (str "b")
  else if bits =? 16 then Ok (str "h")
  else if bits =? 32 then Ok (str "w")
  else if bits =? 64 then Ok (str "dw")
  else Err (OutOfRange (str "unsupported memory access width :u" ++ fmt_dec bits)).

Definition is_ascii_hexdigit (b : byte) : bool := digit_like b.

(** [s.strip_prefix('-').unwrap_or(s)]. *)
Definition strip_minus (s : list byte) : list byte := default s (strip_prefix (str "-") s).

Definition is_lddw_imm (s : list byte) : bool :=
  let s := strip_minus (trim s) in
  match strip_prefix (str "0x") s with
  | Some hex =>
      if bool_decide (hex = []) || negb (forallb is_ascii_hexdigit hex) then false
      else match parse_unsigned 16 64 hex with Some v => 2 ^ 32 - 1 <? v | None => false end
  | None => false
  end.

Definition is_bpf_imm (s : list byte) : bool :=
  let s := strip_minus (trim s) in
  match strip_prefix (str "0x") s with
  | Some hex => negb (bool_decide (hex = [])) && forallb is_ascii_hexdigit hex
  | None => negb (bool_decide (s = [])) && forallb is_ascii_digit s
  end.

Definition bpf_encode_move (c : BpfCodec) (dst src : list byte) : CResult (list byte) :=
  let dst := trim dst in
  let src := trim src in
  let '(dst_core, dst_size) := split_size_suffix dst in
  let '(src_core, src_size) := split_size_suffix src in
  if is_bpf_reg dst_core && (bool_decide (src_size = Some 64) || is_lddw_imm src_core) then
    bpf_err (assemble_bpf (str "lddw " ++ dst_core ++ str ", " ++ trim src_core))
  else if is_bpf_reg dst_core && is_bracket_mem src_core then
    suffix ← size_suffix_for_bits (default 64 src_size);
    bpf_err (assemble_bpf (str "ldx" ++ suffix ++ str " " ++ dst_core ++ str ", "
                           ++ desymbolize_mem src_core))
  else if is_bracket_mem dst_core && is_bpf_reg src_core then
    suffix ← size_suffix_for_bits (default 64 dst_size);
    bpf_err (assemble_bpf (str "stx" ++ suffix ++ str " " ++ desymbolize_mem dst_core
                           ++ str ", " ++ src_core))
  else if is_bpf_reg dst_core && (is_bpf_reg src_core || is_bpf_imm src_core) then
    bpf_err (assemble_bpf (str "mov64 " ++ dst_core ++ str ", " ++ src_core))
  else Err (Unsupported (bpf_name c) (str "move (unrecognised operand shape)")).

Definition bpf_encode_return : CResult (list byte) := bpf_err (assemble_bpf (str "exit")).

Definition arith_mnemonic (op : list byte) : option (list byte) :=
  lookup_str op
    [(str "+=", str "add64"); (str "-=", str "sub64"); (str "*=", str "mul64");
     (str "/=", str "div64"); (str "%=", str "mod64"); (str "|=", str "or64");
     (str "&=", str "and64"); (str "^=", str "xor64"); (str "<<=", str "lsh64");
     (str ">>=", str "rsh64")].

Definition bpf_encode_arith (c : BpfCodec) (dst op src : list byte) : CResult (list byte) :=
  let dst := trim dst in
  let src := trim src in
  if negb (is_bpf_reg dst) then Err (Unsupported (bpf_name c) (str "arith (non-register dst)"))
  else if negb (is_bpf_reg src || is_bpf_imm src)
  then Err (Unsupported (bpf_name c) (str "arith (unsupported src shape)"))
  else
    mnemonic ← ok_or (arith_mnemonic op) (Unsupported (bpf_name c) (str "arith (unsupported op)"));
    bpf_err (assemble_bpf (mnemonic ++ str " " ++ dst ++ str ", " ++ src)).

#[export] Instance bpf_codec : ArchCodec BpfCodec := {|
  codec_name := bpf_name;
  assemble_one c text a := bpf_assemble_one text;
  desymbolize c text a := bpf_desymbolize text a;
  encode_jump c s t h := bpf_encode_jump s t;
  encode_call c s t h := bpf_encode_call s t h;
  encode_cond_jump c cond s t h := bpf_encode_cond_jump cond s t;
  encode_cond_jump_with_code c _ _ _ _ := default_cond_jump_with_code (bpf_name c);
  encode_switch_dispatch c _ := Err (Unsupported (bpf_name c) (str "switch_dispatch"));
  encoded_jump_size c _ _ _ := INSN_SIZE;
  encoded_cond_jump_size c _ _ _ := INSN_SIZE;
  encoded_call_size c _ _ _ := INSN_SIZE;
  direct_call_bytes_contain_call c := true;
  encode_move := bpf_encode_move;
  encode_arith := bpf_encode_arith;
  encode_return c _ := bpf_encode_return;
|}.

(** * Codecs without branch encoders *)

(** The methods shared by the codecs whose encoders all refuse: [name] is the
    name in the error, [asm] the operation string of [assemble_one], and [j],
    [c], [k] the size answers for jumps, conditional jumps and calls. *)
Definition refusing (name : list byte) {C : Type} (cname : list byte)
    (asm : C -> list byte -> CResult (list byte)) (j c k : Z) : ArchCodec C := {|
  codec_name _ := cname;
  assemble_one x text _ := asm x text;
  desymbolize _ text a := default_desymbolize text a;
  encode_jump _ _ _ _ := Err (Unsupported name (str "jump"));
  encode_call _ _ _ _ := Err (Unsupported name (str "call"));
  encode_cond_jump _ _ _ _ _ := Err (Unsupported name (str "cond_jump"));
  encode_cond_jump_with_code _ _ _ _ _ := default_cond_jump_with_code cname;
  encode_switch_dispatch _ _ := default_switch_dispatch cname;
  encoded_jump_size _ _ _ _ := j;
  encoded_cond_jump_size _ _ _ _ := c;
  encoded_call_size _ _ _ _ := k;
  direct_call_bytes_contain_call _ := false;
  encode_move _ _ _ := default_move cname;
  encode_arith _ _ _ _ := default_arith cname;
  encode_return _ _ := default_return cname;
|}.

Inductive EvmCodec : Type := evm_unit.
Inductive M6502Codec : Type := m6502_unit.
Inductive Aarch64Codec : Type := aarch64_unit.
Inductive OpaqueCodec : Type := opaque_unit.

Definition evm_assemble_one (c : EvmCodec) (text : list byte) : CResult (list byte) :=
  map_err (fun e => Assemble (EvmFailure e)) (Evm.assemble_one text).

#[export] Instance evm_codec : ArchCodec EvmCodec :=
  refusing (str "evm") (str "evm") evm_assemble_one 4 4 4.

#[export] Instance m6502_codec : ArchCodec M6502Codec :=
  refusing (str "6502") (str "6502")
    (fun _ _ => Err (Unsupported (str "6502") (str "assemble_one"))) 3 2 3.

#[export] Instance aarch64_codec : ArchCodec Aarch64Codec :=
  refusing (str "aarch64") (str "aarch64")
    (fun _ _ => Err (Unsupported (str "aarch64") (str "assemble_one"))) 4 4 4.

#[export] Instance opaque_codec : ArchCodec OpaqueCodec :=
  refusing (str "opaque") (str "opaque")
    (fun _ _ => Err (Unsupported (str "opaque") (str "assemble"))) 0 0 0.
