(* ===== verification/Registry.v ===== *)
(** The registry of codec factories (src/src/arch/codec/registry.rs), the
    factories of the backends, and the order they are registered in
    (src/src/translate/mod.rs). *)

From S2P Require Import Prelude Text Common Ir Bpf BpfAsm Codec.

(** * Boxed codecs *)

Inductive Bitness : Type := Bits16 | Bits32 | Bits64.

(** A [Box<dyn ArchCodec>]: the type behind the pointer and its fields. *)
Inductive DynCodec : Type :=
| DynX86 (b : Bitness)
| DynAarch64 (c : Aarch64Codec)
| DynM6502 (c : M6502Codec)
| DynBpf (c : BpfCodec)
| DynEvm (c : EvmCodec)
| DynOpaque (c : OpaqueCodec).

Abbreviation CodecFactory := (option (list byte) -> option Z -> option DynCodec).

(** [matches!(arch_name, Some("a" | "b"))]. *)
Definition is_name (n : option (list byte)) (l : list (list byte)) : bool :=
  match n with Some n => one_of n l | None => false end.

Definition x86_factory : CodecFactory := fun arch_name _ =>
  if is_name arch_name [str "x86_64"] then Some (DynX86 Bits64)
  else if is_name arch_name [str "i386"] then Some (DynX86 Bits32)
  else if is_name arch_name [str "x86_16"] then Some (DynX86 Bits16)
  else None.

Definition aarch64_factory : CodecFactory := fun arch_name _ =>
  if is_name arch_name [str "aarch64"; str "arm64"] then Some (DynAarch64 aarch64_unit) else None.

Definition m6502_factory : CodecFactory := fun arch_name _ =>
  if is_name arch_name [str "6502"; str "mos6502"] then Some (DynM6502 m6502_unit) else None.

Definition EM_BPF : Z := 247.
Definition EM_SBF : Z := 263.

Definition bpf (v : BpfVariant) : DynCodec := DynBpf {| bpf_variant := v |}.

Definition bpf_factory : CodecFactory := fun arch_name e_machine =>
  if bool_decide (e_machine = Some EM_BPF) then Some (bpf Linux)
  else if bool_decide (e_machine = Some EM_SBF) then Some (bpf Sbfv1)
  else if is_name arch_name [str "bpf"] then Some (bpf Linux)
  else if is_name arch_name [str "sbf"; str "sbfv1"] then Some (bpf Sbfv1)
  else if is_name arch_name [str "sbfv2"] then Some (bpf Sbfv2)
  else None.

Definition evm_factory : CodecFactory := fun arch_name _ =>
  if is_name arch_name [str "evm"] then Some (DynEvm evm_unit) else None.

(** * Undecoded machines (opaque.rs) *)

Definition ELF_MACHINES : list (Z * list byte) :=
  [(2, str "sparc"); (3, str "i386"); (4, str "m68k"); (5, str "m88k"); (7, str "i860");
   (8, str "mips"); (10, str "mips_rs3_le"); (15, str "parisc"); (18, str "sparc32plus");
   (20, str "ppc"); (21, str "ppc64"); (22, str "s390"); (40, str "arm"); (41, str "alpha");
   (42, str "sh"); (43, str "sparcv9"); (46, str "h8_300"); (50, str "ia64");
   (53, str "m68hc12"); (62, str "x86_64"); (69, str "m68hc11"); (70, str "m68hc08");
   (75, str "vax"); (76, str "cris"); (83, str "avr"); (87, str "v850"); (88, str "m32r");
   (89, str "mn10300"); (92, str "openrisc"); (93, str "arc_compact"); (94, str "xtensa");
   (105, str "msp430"); (106, str "blackfin"); (113, str "altera_nios2"); (115, str "crx");
   (140, str "tms320c6000"); (164, str "hexagon"); (167, str "nds32"); (171, str "cr16");
   (183, str "aarch64"); (186, str "stm8"); (189, str "microblaze"); (190, str "cuda");
   (195, str "arc_compact2"); (220, str "z80"); (224, str "amdgpu"); (243, str "riscv");
   (247, str "bpf"); (252, str "csky"); (258, str "loongarch"); (263, str "sbf")].

Definition elf_machine_name (e_machine : Z) : option (list byte) :=
  snd <$> List.find (fun p => p.1 =? e_machine) ELF_MACHINES.

Definition opaque_named (arch_name : option (list byte)) : bool :=
  match arch_name with
  | Some n => str_eqb n (str "unknown") || existsb (fun p => str_eqb p.2 n) ELF_MACHINES
  | None => false
  end.

(** [u16::try_from(m).ok()] and the lookup. *)
Definition opaque_numbered (e_machine : option Z) : bool :=
  match e_machine with
  | Some m => (m <? 2 ^ 16) && bool_decide (is_Some (elf_machine_name m))
  | None => false
  end.

Definition opaque_factory : CodecFactory := fun arch_name e_machine =>
  if opaque_named arch_name || (bool_decide (arch_name = None) && opaque_numbered e_machine)
  then Some (DynOpaque opaque_unit) else None.

(** * The registry *)

(** The vector behind the lock. *)
Definition Registry : Type := list CodecFactory.

Definition register (r : Registry) (f : CodecFactory) : Registry := r ++ [f].

Fixpoint first_match (r : Registry) (arch_name : option (list byte)) (e_machine : option Z)
    : option DynCodec :=
  match r with
  | [] => None
  | factory :: r' =>
      match factory arch_name e_machine with
      | Some codec => Some codec
      | None => first_match r' arch_name e_machine
      end
  end.

Definition for_arch (r : Registry) (arch_name : option (list byte)) (e_machine : option Z)
    : CResult DynCodec :=
  ok_or (first_match r arch_name e_machine) (UnknownArch arch_name e_machine).

Definition factory_count (r : Registry) : Z := len r.

(** The six [register()] calls, from the registry [r]. *)
Definition register_all_arches (r : Registry) : Registry :=
  register (register (register (register (register (register r x86_factory)
    aarch64_factory) m6502_factory) bpf_factory) evm_factory) opaque_factory.

(** * Resolution *)

(** The answers of the factories of a registry agree. *)
Definition unanimous (r : Registry) (a : option (list byte)) (m : option Z) : Prop :=
  forall f g c d, In f r -> In g r -> f a m = Some c -> g a m = Some d -> c = d.

Lemma first_match_Some r a m c : first_match r a m = Some c -> exists f, In f r /\ f a m = Some c.
Proof.
  induction r as [|f r IH]; [done|]. cbn [first_match]. destruct (f a m) eqn:E.
  - intros [= <-]. exists f. split; [by left|done].
  - intros H. destruct (IH H) as (g & ? & ?). exists g. split; [by right|done].
Qed.

Lemma first_match_None r a m : first_match r a m = None <-> forall f, In f r -> f a m = None.
Proof.
  induction r as [|f r IH]; cbn [first_match]; [by split; [intros _ f []|]|].
  destruct (f a m) eqn:E.
  - split; [done|]. intros H. rewrite (H f) in E by (by left). done.
  - rewrite IH. split.
    + intros H g [<-|Hg]; auto.
    + intros H g Hg. apply H. by right.
Qed.

Lemma first_match_app r1 r2 a m :
  first_match (r1 ++ r2) a m = match first_match r1 a m with
                               | Some c => Some c | None => first_match r2 a m end.
Proof. induction r1 as [|f r IH]; [done|]. cbn. by destruct (f a m). Qed.

(** When the answers agree, a lookup only depends on the set of factories. *)
Lemma first_match_set r r' a m : unanimous r a m -> (forall f, In f r <-> In f r') ->
  first_match r a m = first_match r' a m.
Proof.
  intros Hu Hs. destruct (first_match r a m) as [c|] eqn:E.
  - apply first_match_Some in E as (f & Hf & Hc).
    destruct (first_match r' a m) as [d|] eqn:E'.
    + apply first_match_Some in E' as (g & Hg & Hd). f_equal. apply (Hu f g); [done|by apply Hs|done|done].
    + rewrite first_match_None in E'. rewrite (E' f) in Hc by (by apply Hs). done.
  - symmetry. apply first_match_None. intros f Hf. rewrite first_match_None in E. apply E. by apply Hs.
Qed.

(** The factories with a decoder behind them, and the names they claim. *)
Definition real_factories : list CodecFactory :=
  [x86_factory; aarch64_factory; m6502_factory; bpf_factory; evm_factory].

Definition claims : list (list byte * DynCodec) :=
  [(str "x86_64", DynX86 Bits64); (str "i386", DynX86 Bits32); (str "x86_16", DynX86 Bits16);
   (str "aarch64", DynAarch64 aarch64_unit); (str "arm64", DynAarch64 aarch64_unit);
   (str "6502", DynM6502 m6502_unit); (str "mos6502", DynM6502 m6502_unit);
   (str "bpf", bpf Linux); (str "sbf", bpf Sbfv1); (str "sbfv1", bpf Sbfv1);
   (str "sbfv2", bpf Sbfv2); (str "evm", DynEvm evm_unit)].

Lemma is_name_elem n l : is_name n l = true -> exists s, n = Some s /\ In s l.
Proof.
  destruct n as [s|]; [|done]. cbn. unfold one_of. rewrite List.existsb_exists.
  intros (t & Ht & E). apply bool_decide_eq_true in E. exists s. by subst.
Qed.

Ltac by_name E c :=
  apply is_name_elem in E as (s & -> & Hs); intros [= <-]; exists s; split; [done|];
  repeat (destruct Hs as [<-|Hs]; [vm_compute; reflexivity|]); destruct Hs.

Lemma real_factory_claim f a m c : In f real_factories -> m <> Some EM_BPF -> m <> Some EM_SBF ->
  f a m = Some c -> exists n, a = Some n /\ lookup_str n claims = Some c.
Proof.
  intros Hf Hb Hs. repeat (destruct Hf as [<-|Hf]); try destruct Hf;
    unfold x86_factory, aarch64_factory, m6502_factory, bpf_factory, evm_factory;
    rewrite ?(bool_decide_eq_false_2 (m = Some EM_BPF)), ?(bool_decide_eq_false_2 (m = Some EM_SBF)) by done;
    clear Hs Hb;
    repeat match goal with
    | |- (if is_name a ?l then _ else _) = _ -> _ =>
        let E := fresh "E" in destruct (is_name a l) eqn:E; [by_name E c|]
    end; done.
Qed.

Lemma real_unanimous a m : m <> Some EM_BPF -> m <> Some EM_SBF -> unanimous real_factories a m.
Proof.
  intros Hb Hs f g c d Hf Hg Hc Hd.
  destruct (real_factory_claim f a m c Hf Hb Hs Hc) as (n & -> & E1).
  destruct (real_factory_claim g _ m d Hg Hb Hs Hd) as (n' & [= <-] & E2). congruence.
Qed.

Lemma first_match_known r fs a m : (forall f, In f fs -> In f r) ->
  first_match (fold_left register fs r) a m = first_match r a m.
Proof.
  revert r. induction fs as [|f fs IH]; intros r H; [done|]. cbn [fold_left].
  rewrite IH.
  - unfold register. rewrite first_match_app. destruct (first_match r a m) eqn:E; [done|].
    cbn. rewrite first_match_None in E. by rewrite (E f) by (apply H; by left).
  - intros g Hg. unfold register. apply in_or_app. left. apply H. by right.
Qed.

(** Codec resolution does not depend on the order the backends register
    in, as long as the opaque codec comes last and the machine number is not
    one of BPF's two: whatever the permutation of the five real factories,
    every lookup resolves as after [register_all_arches]; and registering
    again factories that are already there changes no lookup. *)
Theorem registry_order_irrelevant (l fs : list CodecFactory) a m :
  l ≡ₚ real_factories -> m <> Some EM_BPF -> m <> Some EM_SBF ->
  (forall f, In f fs -> In f (l ++ [opaque_factory])) ->
  for_arch (fold_left register fs (l ++ [opaque_factory])) a m
  = for_arch (register_all_arches []) a m.
Proof.
  intros Hl Hb Hs Hfs. unfold for_arch. f_equal. rewrite first_match_known by done.
  change (register_all_arches []) with (real_factories ++ [opaque_factory]).
  rewrite !first_match_app.
  rewrite (first_match_set real_factories l); [done|by apply real_unanimous|].
  intros f. by rewrite <- !list_elem_of_In, Hl.
Qed.

Lemma registry_order_irrelevant_witness :
  for_arch (fold_left register [bpf_factory; x86_factory]
              (rev real_factories ++ [opaque_factory])) (Some (str "arm64")) (Some 183)
  = for_arch (register_all_arches []) (Some (str "arm64")) (Some 183).
Proof.
  apply (registry_order_irrelevant (rev real_factories) [bpf_factory; x86_factory]).
  - symmetry. apply Permutation_rev.
  - discriminate.
  - discriminate.
  - intros f [<-|[<-|[]]]; cbn; tauto.
Defined.

(** With a BPF machine number the order matters: it overrides the name. *)
Example bpf_machine_overrides_name :
  for_arch (register_all_arches []) (Some (str "evm")) (Some EM_BPF) = Ok (bpf Linux) /\
  for_arch ([evm_factory; bpf_factory; opaque_factory]) (Some (str "evm")) (Some EM_BPF)
  = Ok (DynEvm evm_unit).
Proof. split; reflexivity. Qed.

Definition known_machine (p : Z * list byte) : bool :=
  match for_arch (register_all_arches []) (Some p.2) (Some p.1),
        for_arch (register_all_arches []) (Some p.2) None,
        for_arch (register_all_arches []) None (Some p.1) with
  | Ok _, Ok _, Ok _ => bool_decide (elf_machine_name p.1 = Some p.2)
  | _, _, _ => false
  end.

(** every ELF machine of the table resolves to some codec, by its name, by
    its number and by both, and the table's numbers and names determine each
    other; a name outside the table that no backend claims resolves to the
    opaque codec only when it is ["unknown"], and is reported as
    [UnknownArch] otherwise, whatever the (non-BPF) machine number says. *)
Theorem registry_total :
  (forall m n, In (m, n) ELF_MACHINES ->
     (exists c, for_arch (register_all_arches []) (Some n) (Some m) = Ok c) /\
     (exists c, for_arch (register_all_arches []) (Some n) None = Ok c) /\
     (exists c, for_arch (register_all_arches []) None (Some m) = Ok c) /\
     elf_machine_name m = Some n /\
     (forall m', In (m', n) ELF_MACHINES -> m' = m)) /\
  (forall n m, ~ In n (map fst claims) -> ~ In n (map snd ELF_MACHINES) ->
     m <> Some EM_BPF -> m <> Some EM_SBF ->
     for_arch (register_all_arches []) (Some n) m =
     if str_eqb n (str "unknown") then Ok (DynOpaque opaque_unit) else Err (UnknownArch (Some n) m)).
Proof.
  split.
  - assert (forallb known_machine ELF_MACHINES = true) as H by (vm_compute; reflexivity).
    assert (NoDup (map snd ELF_MACHINES)) as Hnd.
    { apply (bool_decide_unpack _). vm_compute. exact I. }
    rewrite List.forallb_forall in H. intros m n Hin. specialize (H (m, n) Hin).
    unfold known_machine in H. cbn [fst snd] in H.
    destruct (for_arch _ (Some n) (Some m)) as [c1| |]; try done.
    destruct (for_arch _ (Some n) None) as [c2| |]; try done.
    destruct (for_arch _ None (Some m)) as [c3| |]; try done.
    apply bool_decide_eq_true in H. split_and!; [eauto..|done|].
    intros m' Hin'. apply list_elem_of_In, list_elem_of_lookup in Hin as [i Hi].
    apply list_elem_of_In, list_elem_of_lookup in Hin' as [j Hj].
    assert (i = j) as ->.
    { eapply NoDup_lookup; [done| |]; rewrite list_lookup_fmap.
      - by rewrite Hi.
      - by rewrite Hj. }
    congruence.
  - intros n m Hc He Hb Hs. unfold for_arch.
    change (register_all_arches []) with (real_factories ++ [opaque_factory]).
    rewrite first_match_app.
    assert (first_match real_factories (Some n) m = None) as ->.
    { apply first_match_None. intros f Hf. destruct (f (Some n) m) as [c|] eqn:E; [|done].
      destruct (real_factory_claim f _ m c Hf Hb Hs E) as (n' & [= <-] & Hl).
      destruct Hc. unfold lookup_str in Hl. apply fmap_Some in Hl as (p & Hp & _).
      apply List.find_some in Hp as [Hp Ep]. apply bool_decide_eq_true in Ep as ->.
      by apply in_map. }
    cbn [first_match]. unfold opaque_factory, opaque_named.
    assert (existsb (fun p => str_eqb p.2 n) ELF_MACHINES = false) as ->.
    { apply not_true_is_false. intros Hx. apply List.existsb_exists in Hx as (p & Hp & Ep).
      apply bool_decide_eq_true in Ep as <-. destruct He. by apply in_map. }
    rewrite orb_false_r. by destruct (str_eqb n (str "unknown")).
Qed.

Lemma registry_total_witness :
  (exists c, for_arch (register_all_arches []) (Some (str "hexagon")) (Some 164) = Ok c) /\
  for_arch (register_all_arches []) (Some (str "hexagn")) (Some 164)
  = Err (UnknownArch (Some (str "hexagn")) (Some 164)).
Proof.
  split.
  - apply (proj1 registry_total). apply list_elem_of_In.
    refine (bool_decide_unpack _ _). vm_compute. exact I.
  - apply (proj2 registry_total).
    + rewrite <- list_elem_of_In. refine (bool_decide_unpack _ _). vm_compute. exact I.
    + rewrite <- list_elem_of_In. refine (bool_decide_unpack _ _). vm_compute. exact I.
    + discriminate.
    + discriminate.
Defined.
