(* ===== verification/CodecBranch.v ===== *)
(** The branches the BPF codec encodes decode back to the requested target,
    and the size answers of the codecs agree with what they emit. *)

From S2P Require Import Prelude Text Common Ir Bpf BpfDecode BpfAsm BpfRoundTrip Codec.

(** * Slot distances *)

(** The absolute address [k] slots after the instruction at [a]. *)
Definition slot_target (a k : Z) : Z := wrap64 (wrap64 (a + INSN_SIZE) + wrap64 (k * INSN_SIZE)).

Lemma wrap_add_idemp a b : wrap64 (wrap64 a + b) = wrap64 (a + b).
Proof. unfold wrap. apply Zplus_mod_idemp_l. Qed.

Lemma codec_slot_offset_spec a t : in_range 64 t ->
  (exists k, - 2 ^ 15 <= k < 2 ^ 15 /\ t = slot_target a k /\ codec_slot_offset a t = Ok k) \/
  ((forall k, - 2 ^ 15 <= k < 2 ^ 15 -> t <> slot_target a k) /\
   exists msg, codec_slot_offset a t = Err (OutOfRange msg)).
Proof.
  intros Ht. unfold codec_slot_offset, slot_target, INSN_SIZE. set (next := wrap64 (a + 8)).
  assert (in_range 64 next) as Hn by (apply wrap_range; lia).
  rewrite wrap_sint_sub by done. set (delta := sint 64 (wrap64 (t - next))).
  assert (wrap64 delta = wrap64 (t - next)) as Hd by (apply wrap_sint; [lia|apply wrap_range; lia]).
  assert (t = wrap64 (next + wrap64 delta)) as Etd.
  { rewrite Hd. rewrite (Z.add_comm next), wrap_add_idemp. replace (t - next + next) with t by lia.
    symmetry. by apply wrap_small. }
  assert (- 2 ^ 63 <= delta < 2 ^ 63) as Hdr by (apply (sint_range 64); [lia|apply wrap_range; lia]).
  assert (forall k, - 2 ^ 15 <= k < 2 ^ 15 -> t = wrap64 (next + wrap64 (k * 8)) -> delta = k * 8) as Huniq.
  { intros k Hk E. subst delta. rewrite E.
    assert (wrap64 (wrap64 (next + wrap64 (k * 8)) - next) = wrap64 (k * 8)) as ->.
    { unfold wrap at 1 2. rewrite Zminus_mod_idemp_l.
      replace (next + wrap64 (k * 8) - next) with (wrap64 (k * 8)) by lia.
      apply Z.mod_small, wrap_range. lia. }
    apply sint64_wrap. lia. }
  destruct (Z.eqb_spec (Z.rem delta 8) 0) as [Er|Er]; cbn [negb].
  - pose proof (Z.quot_rem delta 8 ltac:(lia)) as Eq. rewrite Er in Eq.
    destruct (_ && _) eqn:Hr.
    + left. exists (Z.quot delta 8). split; [lia|]. split; [|done]. rewrite Etd at 1.
      do 3 f_equal. lia.
    + right. split; [|eauto]. intros k Hk E. apply Huniq in E; [|done].
      assert (Z.quot delta 8 = k) by lia. lia.
  - right. split; [|eauto]. intros k Hk E. apply Huniq in E; [|done]. apply Er.
    rewrite E. apply Z.rem_mul. lia.
Qed.

(** * One encoded slot, decoded *)

Lemma length_encode_slot o d s off i : length (encode_slot o d s off i) = 8%nat.
Proof. unfold encode_slot. by rewrite !length_app, !length_to_le. Qed.

Lemma nibbles_join d s : 0 <= d < 16 -> 0 <= s < 16 ->
  Z.lor (Z.land d 0x0f) (Z.shiftl (Z.land s 0x0f) 4) = 16 * s + d.
Proof.
  intros Hd Hs. change 0x0f with (Z.ones 4). rewrite !Z.land_ones by lia. change (2 ^ 4) with 16.
  rewrite !Z.mod_small by lia. rewrite Z.lor_comm, lor_shiftl_add by lia. lia.
Qed.

Lemma sint_to_le w n v : 0 < w -> 2 ^ w = 256 ^ Z.of_nat n -> - 2 ^ (w - 1) <= v < 2 ^ (w - 1) ->
  sint w (from_le (to_le n v)) = v.
Proof.
  intros Hw E Hv. rewrite from_le_to_le, <- E.
  assert (2 ^ w = 2 * 2 ^ (w - 1)) as E2.
  { rewrite <- Z.pow_succ_r by lia. f_equal. lia. }
  unfold sint. destruct (decide (0 <= v)).
  - rewrite Z.mod_small by lia. by replace (v <? 2 ^ (w - 1)) with true by lia.
  - rewrite <- (Z_mod_plus_full v 1), Z.mod_small by lia.
    replace (v + 1 * 2 ^ w <? 2 ^ (w - 1)) with false by lia. lia.
Qed.

(** The instruction a slot decodes to, apart from [lddw]. *)
Definition slot_insn (v : BpfVariant) (a o d s off i : Z) : DecodedInsn :=
  {| i_addr := a; i_bytes := encode_slot o d s off i; kind := classify_opcode o v;
     opcode := o; dst := d; src := s; offset := off; imm := i; imm64 := None |}.

Lemma decode_slot v a o d s off i :
  in_range 64 a -> 0 <= o < 256 -> o <> 0x18 -> 0 <= d < 16 -> 0 <= s < 16 ->
  - 2 ^ 15 <= off < 2 ^ 15 -> - 2 ^ 31 <= i < 2 ^ 31 ->
  decode (encode_slot o d s off i) a v = Ok [slot_insn v a o d s off i].
Proof.
  intros Ha Ho Hn Hd Hs Hoff Hi. set (raw := encode_slot o d s off i).
  assert (len raw = 8) as Hl by (unfold len; subst raw; by rewrite length_encode_slot).
  unfold decode. rewrite Hl. change (negb (8 mod INSN_SIZE =? 0)) with false. cbv iota.
  destruct (length raw) as [|f] eqn:El; [unfold len in Hl; lia|]. clear El.
  assert (sub raw 0 (0 + INSN_SIZE) = raw) as Hsub.
  { unfold INSN_SIZE. rewrite <- Hl at 1. apply sub_full. }
  cbn [decode_loop]. rewrite Hl. change (0 <? 8) with true. cbv iota.
  rewrite (slice_ok raw 0 (0 + INSN_SIZE)) by (unfold INSN_SIZE; lia). cbn [mbind res_bind].
  rewrite Hsub.
  assert (byte_at raw 0 = o) as Eo.
  { unfold byte_at. subst raw. unfold encode_slot. cbn [app nth]. rewrite u8_byte_of.
    by apply Z.mod_small. }
  rewrite Eo. replace (o =? 0x18) with false by lia. cbv iota.
  assert (forall out, decode_loop f raw a v (0 + INSN_SIZE) out = Ok out) as ->
    by (intros out; destruct f; cbn [decode_loop]; by rewrite Hl).
  cbn [app].
  do 2 f_equal. unfold mk_insn, slot_insn. rewrite Eo.
  assert (byte_at raw 1 = 16 * s + d) as E1.
  { unfold byte_at. subst raw. unfold encode_slot. cbn [app nth]. rewrite u8_byte_of.
    rewrite nibbles_join by lia. apply Z.mod_small. lia. }
  rewrite E1.
  assert (saturating_add64 a 0 = a) as -> by (unfold saturating_add64, in_range in *; lia).
  assert (slot_offset raw = off) as ->.
  { unfold slot_offset. assert (sub raw 2 4 = to_le 2 off) as -> by (subst raw; reflexivity).
    by apply (sint_to_le 16 2). }
  assert (slot_imm raw = i) as ->.
  { unfold slot_imm. assert (sub raw 4 8 = to_le 4 i) as -> by (subst raw; reflexivity).
    by apply (sint_to_le 32 4). }
  f_equal.
  - change 0x0f with (Z.ones 4). rewrite Z.land_ones by lia.
    change (2 ^ 4) with 16. replace (16 * s + d) with (d + s * 16) by lia.
    rewrite Z_mod_plus_full. by apply Z.mod_small.
  - change 0x0f with (Z.ones 4). rewrite Z.land_ones, Z.shiftr_div_pow2 by lia.
    change (2 ^ 4) with 16. replace (16 * s + d) with (d + s * 16) by lia.
    rewrite Z_div_plus_full, Z.div_small by lia. by apply Z.mod_small.
Qed.

(** * Texts the codec builds *)

Lemma assemble_bpf_ja_ok off : - 2 ^ 15 <= off < 2 ^ 15 ->
  assemble_bpf_ja off = Ok (encode_slot 0x05 0 0 off 0).
Proof.
  intros Ho. unfold assemble_bpf_ja.
  change (str "ja " ++ offset_text off) with (str "ja" ++ str " " ++ format_branch_offset off).
  rewrite assemble1 by (mnemonic || apply branch_operand).
  change (assemble_mnemonic (str "ja") [format_branch_offset off]) with
    (o ← parse_branch_offset (format_branch_offset off);
     Ok (E:=AssembleError) (encode_slot 0x05 0 0 o 0)).
  by rewrite parse_branch_text.
Qed.

Lemma int_word k : Forall (fun b => graphic b && plain b = true) (fmt_int k).
Proof.
  unfold fmt_int. destruct (k <? 0); [apply word_app; [by apply word_str|]|]; by apply fmt_word.
Qed.

Lemma int_operand k : operand (fmt_int k).
Proof.
  apply operand_word; [apply int_word|]. unfold fmt_int. destruct (k <? 0); [done|].
  by apply fmt_word.
Qed.

(** A decimal number has no [0x] and no sign. *)
Lemma strip_prefix_digits p c v : digit_like c = false ->
  strip_prefix (p ++ [c]) (fmt_dec v) = None.
Proof.
  intros Hc. destruct (fmt_radix_shape false 10 v ltac:(lia)) as (d & ds & E & Hd).
  unfold fmt_dec. rewrite E. clear E. revert Hd. generalize (d :: ds) as l.
  induction p as [|x p IH]; intros l Hl; destruct l as [|y l]; try done; cbn [app strip_prefix];
    inversion_clear Hl as [|? ? Hy Hl'].
  - destruct (beqb c y) eqn:E; [|done]. apply beqb_true in E as ->. congruence.
  - destruct (beqb x y); [|done]. by apply IH.
Qed.

Lemma parse_uint_dec v ctx : in_range 64 v -> parse_uint (fmt_dec v) ctx = Ok v.
Proof.
  intros Hv. unfold parse_uint. rewrite trim_graphic by (apply word_graphic, fmt_word; lia).
  change (str "0x") with (str "0" ++ [byte_of 120]). rewrite strip_prefix_digits by done.
  unfold fmt_dec. by rewrite parse_fmt by (done || lia).
Qed.

Lemma parse_int_signed_int k ctx : - 2 ^ 15 <= k < 2 ^ 15 ->
  parse_int_signed (fmt_int k) ctx = Ok k.
Proof.
  intros Hk. unfold parse_int_signed. rewrite (operand_trim _ (int_operand k)). unfold fmt_int.
  destruct (Z.ltb_spec k 0).
  - rewrite strip_prefix_app, parse_uint_dec by (unfold in_range; lia). cbn [mbind res_bind].
    replace (0x80000000 <? - k) with false by lia. do 2 f_equal. rewrite Z.opp_involutive.
    apply sint_wrap32. lia.
  - change (str "-") with ([] ++ [byte_of 45]). rewrite strip_prefix_digits by done.
    unfold parse_int. rewrite parse_uint_dec by (unfold in_range; lia). cbn [mbind res_bind].
    replace (2 ^ 32 - 1 <? k) with false by lia. f_equal. apply sint_wrap32. lia.
Qed.

Lemma assemble_call_ok (local : bool) k : - 2 ^ 15 <= k < 2 ^ 15 ->
  assemble_bpf ((if local then str "call_local" else str "call_internal") ++ str " " ++ fmt_int k)
  = Ok (if local then encode_slot 0x8d 0 0 0 k else encode_slot 0x85 0 1 0 k).
Proof.
  intros Hk. destruct local.
  - rewrite assemble1 by (mnemonic || apply int_operand).
    change (assemble_mnemonic (str "call_local") [fmt_int k]) with
      (i ← parse_int_signed (fmt_int k) (str "call_local");
       Ok (E:=AssembleError) (encode_slot 0x8d 0 0 0 i)).
    by rewrite parse_int_signed_int.
  - rewrite assemble1 by (mnemonic || apply int_operand).
    change (assemble_mnemonic (str "call_internal") [fmt_int k]) with
      (i ← parse_int_signed (fmt_int k) (str "call");
       Ok (E:=AssembleError) (encode_slot 0x85 0 1 0 i)).
    by rewrite parse_int_signed_int.
Qed.

(** * Conditions *)

(** A comparison of a structured condition: its text, the operation nibble of
    the jump that skips the body, and its meaning on unsigned operands. *)
Definition cond_table : list (list byte * Z * (Z -> Z -> bool)) :=
  [(str "!=", 0x1, fun a b => negb (a =? b)); (str "==", 0x5, Z.eqb);
   (str "<=", 0x2, Z.leb); (str ">=", 0xa, Z.geb); (str "<", 0x3, Z.ltb); (str ">", 0xb, Z.gtb)].

(** When an unsigned conditional jump is taken. *)
Definition jcc_taken (n a b : Z) : bool :=
  if n =? 0x1 then a =? b else if n =? 0x2 then b <? a else if n =? 0x3 then b <=? a
  else if n =? 0x5 then negb (a =? b) else if n =? 0xa then a <? b else a <=? b.

(** The characters of no operator. *)
Definition neutral (b : byte) : bool := negb (existsb (Z.eqb (u8 b)) [33; 60; 61; 62]).

Lemma find_none_neutral c p s : neutral c = false -> Forall (fun b => neutral b = true) s ->
  find (c :: p) s = None.
Proof.
  intros Hc. induction 1 as [|b s Hb _ IH]; [done|]. cbn [find]. unfold starts_with.
  cbn [strip_prefix]. destruct (beqb c b) eqn:E; [apply beqb_true in E; congruence|].
  by rewrite IH.
Qed.

Lemma find_hit q x s : starts_with q (x :: s) = true -> find q (x :: s) = Some O.
Proof. intros H. cbn [find]. by rewrite H. Qed.

Lemma find_step q x s : starts_with q (x :: s) = false -> find q (x :: s) = S <$> find q s.
Proof. intros H. cbn [find]. by rewrite H. Qed.

Definition cond_ops : list (list byte) :=
  [str "!="; str "=="; str "<="; str ">="; str "<"; str ">"].

Lemma find_cond q op a b : In q cond_ops -> In op cond_ops ->
  Forall (fun b => neutral b = true) a -> Forall (fun b => neutral b = true) b ->
  find q (a ++ str " " ++ op ++ str " " ++ b) = Nat.add (length a + 1) <$> find q op.
Proof.
  intros Hq Ho Ha Hb.
  assert (exists c p, q = c :: p /\ neutral c = false) as (c & p & -> & Hc).
  { repeat destruct Hq as [<-|Hq]; try destruct Hq; by eexists _, _. }
  change (str " " ++ op ++ str " " ++ b) with (str " " ++ (op ++ str " " ++ b)).
  rewrite (assoc_L (++) a), find_skip, length_app; cycle 1.
  { apply Forall_app_2; [|repeat constructor; intros <-; done].
    eapply Forall_impl; [exact Ha|]. intros x Hx ->. cbv beta in Hx. congruence. }
  change (length (str " ")) with 1%nat. f_equal.
  assert (find (c :: p) (str " " ++ b) = None) as Hn.
  { apply find_none_neutral; [done|]. by constructor. }
  set (t := str " " ++ b) in *.
  assert (exists t', t = byte_of 32 :: t') as [t' Ht] by (by eexists).
  repeat destruct Hq as [Eq|Hq]; try destruct Hq; injection Eq as <- <-;
    repeat destruct Ho as [<-|Ho]; try destruct Ho;
    repeat match goal with |- context [str ?x] =>
             let l := eval vm_compute in (str x) in change (str x) with l end;
    cbn [app];
    repeat (first [rewrite Hn | rewrite find_hit by (rewrite Ht; reflexivity)
                  | rewrite find_step by (rewrite Ht; reflexivity)]);
    reflexivity.
Qed.

Lemma word_neutral s : Forall (fun b => digit_like b || (u8 b =? 114) || (u8 b =? 120) = true) s ->
  Forall (fun b => neutral b = true) s.
Proof.
  intros H. eapply Forall_impl; [exact H|]. intros b Hb. unfold neutral, digit_like in *.
  cbn [existsb]. cbv beta in Hb. lia.
Qed.

Lemma fmt_neutral up r v : 2 <= r <= 16 -> Forall (fun b => neutral b = true) (fmt_radix up r v).
Proof.
  intros Hr. destruct (fmt_radix_shape up r v Hr) as (c & ds & -> & H).
  apply word_neutral. eapply Forall_impl; [exact H|]. intros b Hb. cbv beta in *. by rewrite Hb.
Qed.

Lemma rhs_neutral r s i : Forall (fun b => neutral b = true) (rhs_text r s i).
Proof.
  destruct r; (apply Forall_app_2; [by repeat constructor|by apply fmt_neutral]).
Qed.

(** The text of a condition on a register. *)
Definition cond_text (d : Z) (op : list byte) (r : bool) (s i : Z) : list byte :=
  reg_text d ++ str " " ++ op ++ str " " ++ rhs_text r s i.

Lemma take_drop_cond (a op b : list byte) :
  take (length a + 1) (a ++ str " " ++ op ++ str " " ++ b) = a ++ str " " /\
  drop (length a + 1 + length op) (a ++ str " " ++ op ++ str " " ++ b) = str " " ++ b.
Proof.
  rewrite (assoc_L (++) a). replace (length a + 1)%nat with (length (a ++ str " "))
    by (rewrite length_app; done).
  split; [apply take_app_length|]. rewrite <- drop_drop, drop_app_length. apply drop_app_length.
Qed.

Lemma trim_end_space s : Forall (fun b => graphic b = true) s -> s <> [] ->
  trim (s ++ str " ") = s.
Proof.
  intros Hs Hne. unfold trim. destruct s as [|c t]; [done|].
  assert (graphic c = true) as Hc by (by inversion_clear Hs).
  cbn [app]. rewrite trim_start_graphic by done. change (c :: t ++ str " ") with ((c :: t) ++ str " ").
  clear Hne Hc. induction Hs as [|b l Hb _ IH]; [done|].
  cbn [app trim_end]. rewrite trim_start_graphic by done. by rewrite IH.
Qed.

Lemma parse_cond d op n f r s i : In (op, n, f) cond_table ->
  parse_ifblock_cond (cond_text d op r s i) = Ok (reg_text d, op, rhs_text r s i).
Proof.
  intros Hin. set (a := reg_text d). set (b := rhs_text r s i).
  assert (Forall (fun b => neutral b = true) a) as Ha
    by (apply Forall_app_2; [by repeat constructor|by apply fmt_neutral]).
  assert (Forall (fun b => neutral b = true) b) as Hb by apply rhs_neutral.
  unfold parse_ifblock_cond, cond_text. fold a b.
  rewrite trim_id; cycle 1.
  { exists (byte_of 114). by split. }
  { do 4 apply ends_graphic_app. apply rhs_operand. }
  change (starts_with (str "(") (a ++ str " " ++ op ++ str " " ++ b)) with false. cbv iota.
  destruct (take_drop_cond a op b) as [Ht Hd].
  assert (trim (a ++ str " ") = a) as Hta.
  { apply trim_end_space; [apply word_graphic, reg_word|done]. }
  assert (trim (str " " ++ b) = b) as Htb by (rewrite trim_space; apply operand_trim, rhs_operand).
  repeat destruct Hin as [[= <- <- <-]|Hin]; try destruct Hin;
    cbn [split_at_op]; unfold find_top_level_op;
    rewrite !find_cond by (done || (cbn; tauto));
    repeat match goal with |- context [find (str ?x) (str ?y)] =>
      let l := eval vm_compute in (find (str x) (str y)) in change (find (str x) (str y)) with l end;
    cbn [fmap option_fmap option_map]; rewrite Nat.add_0_r, Ht, Hd, Hta, Htb; reflexivity.
Qed.

Lemma cond_opcode_range n r : n ∈ jcc_nibbles -> 0 <= opcode_of n r 5 < 256 /\
  opcode_of n r 5 <> 0x18 /\ opcode_of n r 5 / 16 = n /\
  forall v, classify_opcode (opcode_of n r 5) v = JmpCond.
Proof.
  intros Hn. unfold jcc_nibbles in Hn. elem_cases Hn En; subst n; destruct r;
    (split; [vm_compute; by split|split; [done|split; [done|by intros []]]]).
Qed.

Lemma assemble_cond d op n f r s i off : In (op, n, f) cond_table ->
  0 <= d <= 10 -> 0 <= s <= 10 -> - 2 ^ 31 <= i < 2 ^ 31 -> - 2 ^ 15 <= off < 2 ^ 15 ->
  assemble_bpf_ifblock_cond (cond_text d op r s i) off
  = Ok (encode_slot (opcode_of n r 5) d (if r then s else 0) off (if r then 0 else i)).
Proof.
  intros Hin Hd Hs Hi Ho. unfold assemble_bpf_ifblock_cond.
  rewrite (parse_cond _ _ _ _ _ _ _ Hin). cbn [mbind res_bind].
  set (x := slot_insn Linux 0 (opcode_of n r 5) d (if r then s else 0) off (if r then 0 else i)).
  assert (n ∈ jcc_nibbles) as Hn.
  { repeat destruct Hin as [[= <- <- <-]|Hin]; try destruct Hin; unfold jcc_nibbles;
      rewrite !elem_of_cons; lia. }
  assert (assemble_bpf (format_class x Linux) = Ok (encoded x)) as E.
  { apply (jcc_roundtrip Linux x n r 5).
    - unfold fields_ok, x, slot_insn. cbn [dst src offset imm]. destruct r; lia.
    - done.
    - done.
    - by left.
    - by destruct r. }
  change (encoded x) with (encode_slot (opcode_of n r 5) d (if r then s else 0) off (if r then 0 else i)) in E.
  rewrite <- E. subst x. clear E Hn.
  repeat destruct Hin as [[= <- <- <-]|Hin]; try destruct Hin; destruct r; reflexivity.
Qed.

(** * Everything the BPF assembler emits is one slot *)

Ltac one_slot :=
  repeat match goal with
  | |- (_ ≫= _) = Ok _ -> _ => let H := fresh "H" in intros H; res_inv H; revert H
  | |- (let '(_, _) := ?p in _) = Ok _ -> _ => destruct p
  | |- context [match ?x with Some _ => _ | None => _ end] => destruct x
  | |- (if ?c then _ else _) = Ok _ -> _ => destruct c
  end; try done;
  try (intros [= <-]; unfold len; rewrite ?length_encode_slot, ?length_to_le; reflexivity).

Lemma len_assemble_mnemonic m ops bs : assemble_mnemonic m ops = Ok bs -> len bs = 8.
Proof.
  unfold assemble_mnemonic.
  repeat match goal with |- (if ?c then _ else _) = _ -> _ => destruct c end;
    unfold assemble_lddw, assemble_ldx, assemble_st, assemble_stx, assemble_endian, assemble_ja,
      assemble_call, assemble_call_local, assemble_callx, assemble_alu_or_jmp, assemble_jmp;
    one_slot.
Qed.

Lemma len_assemble_bpf text bs : assemble_bpf text = Ok bs -> len bs = 8.
Proof.
  unfold assemble_bpf. destruct (trim text) as [|c t]; [done|].
  destruct (strip_prefix (str "<bpf 0x") _); [one_slot|].
  destruct (strip_prefix (str "<lddw-cont 0x") _); [one_slot|].
  destruct (str_eqb _ _); [one_slot|].
  destruct (find_ws _); apply len_assemble_mnemonic.
Qed.

Lemma bpf_err_ok {A} (r : res BpfAsm.AssembleError A) a : bpf_err r = Ok a -> r = Ok a.
Proof. destruct r; [|done..]. by intros [= <-]. Qed.

(** Whatever the BPF codec encodes, a jump, a call, a conditional jump, a
    move, an arithmetic statement, a return or a line of assembly, is exactly
    one eight-byte slot, the size its three size queries predict. In
    particular a 64-bit move, documented as 16 bytes, is encoded as the first
    slot of the [lddw] pair alone. *)
Theorem bpf_codec_sizes (c : BpfCodec) (bs : list byte) a t h :
  (encode_jump c a t h = Ok bs -> len bs = encoded_jump_size c a t h) /\
  (encode_call c a t h = Ok bs -> len bs = encoded_call_size c a t h) /\
  (forall cond, encode_cond_jump c cond a t h = Ok bs -> len bs = encoded_cond_jump_size c a t h) /\
  (forall text, assemble_one c text a = Ok bs -> len bs = INSN_SIZE) /\
  (forall d s, encode_move c d s = Ok bs -> len bs = INSN_SIZE) /\
  (forall d o s, encode_arith c d o s = Ok bs -> len bs = INSN_SIZE) /\
  (forall v, encode_return c v = Ok bs -> len bs = INSN_SIZE).
Proof.
  cbn -[len INSN_SIZE]. unfold INSN_SIZE. split_and!.
  - intros H. unfold bpf_encode_jump in H. res_inv H. apply bpf_err_ok in H.
    by eapply len_assemble_bpf.
  - intros H. unfold bpf_encode_call in H. res_inv H. apply bpf_err_ok in H.
    by eapply len_assemble_bpf.
  - intros cond H. unfold bpf_encode_cond_jump in H. res_inv H. apply bpf_err_ok in H.
    unfold assemble_bpf_ifblock_cond in H. res_inv H.
    match type of H with (let '(_, _) := ?p in _) = _ => destruct p as [[lhs op] rhs] end.
    res_inv H. by eapply len_assemble_bpf.
  - intros text H. apply bpf_err_ok in H. by eapply len_assemble_bpf.
  - intros d s. unfold bpf_encode_move.
    destruct (split_size_suffix (trim d)) as [dc ds], (split_size_suffix (trim s)) as [sc ss].
    repeat match goal with |- (if ?x then _ else _) = _ -> _ => destruct x end; try done;
      intros H; res_inv H; apply bpf_err_ok in H; by eapply len_assemble_bpf.
  - intros d o s. unfold bpf_encode_arith.
    repeat match goal with |- (if ?x then _ else _) = _ -> _ => destruct x end; try done.
    intros H; res_inv H; apply bpf_err_ok in H; by eapply len_assemble_bpf.
  - intros v H. apply bpf_err_ok in H. by eapply len_assemble_bpf.
Qed.

Definition linux : BpfCodec := {| bpf_variant := Linux |}.
Definition no_hints : EncodeHints := {| wide := None; bpf_call_local := None |}.

Lemma bpf_codec_sizes_witness :
  let c := linux in
  let bs := encode_slot 0x18 1 0 0 (sint 32 0x55667788) in
  encode_move c (str "r1") (str "0x1122334455667788:u64") = Ok bs /\ len bs = INSN_SIZE.
Proof.
  intros c bs. assert (encode_move c (str "r1") (str "0x1122334455667788:u64") = Ok bs) as H
    by (vm_compute; reflexivity).
  split; [exact H|]. destruct (bpf_codec_sizes c bs 0 0 no_hints) as (_ & _ & _ & _ & Hm & _).
  exact (Hm _ _ H).
Defined.

(** The jump encoder of the BPF codec is correct and complete. It succeeds
    exactly on the targets a signed 16-bit slot distance reaches (modulo the
    64-bit address space), and reports [OutOfRange] on the others; the slot
    it emits decodes, at its address and in every variant, to one
    unconditional jump whose target is the requested one. *)
Theorem bpf_jump_codec (c : BpfCodec) v a t h : in_range 64 a -> in_range 64 t ->
  (exists k, - 2 ^ 15 <= k < 2 ^ 15 /\ t = slot_target a k /\
     exists bs i, encode_jump c a t h = Ok bs /\ decode bs a v = Ok [i] /\ offset i = k /\
       block_terminator [i] = UnconditionalBranch t) \/
  ((forall k, - 2 ^ 15 <= k < 2 ^ 15 -> t <> slot_target a k) /\
   exists msg, encode_jump c a t h = Err (OutOfRange msg)).
Proof.
  intros Ha Ht. cbn. unfold bpf_encode_jump.
  destruct (codec_slot_offset_spec a t Ht) as [(k & Hk & -> & E)|[Hn (msg & E)]];
    rewrite E; cbn [mbind res_bind]; [left|right; eauto].
  exists k. split; [done|]. split; [done|]. rewrite assemble_bpf_ja_ok by done.
  exists (encode_slot 0x05 0 0 k 0), (slot_insn v a 0x05 0 0 k 0).
  split_and!; [done|apply decode_slot; done|done|done].
Qed.

Lemma bpf_jump_codec_witness :
  (exists bs i, encode_jump linux 0x1000 0xff8 no_hints = Ok bs /\
     decode bs 0x1000 Sbfv1 = Ok [i] /\ block_terminator [i] = UnconditionalBranch 0xff8) /\
  (exists msg, encode_jump linux 0x1000 0x1004 no_hints = Err (OutOfRange msg)).
Proof.
  assert (forall x, 0 <= x < 0x2000 -> in_range 64 x) as Hr by (intros x ?; unfold in_range; lia).
  split.
  - destruct (bpf_jump_codec linux Sbfv1 0x1000 0xff8 no_hints) as [(k & _ & _ & bs & i & H1 & H2 & _ & H3)|[H _]];
      [apply Hr; lia|apply Hr; lia|eauto|]. exfalso. apply (H (-2)); [lia|vm_compute; reflexivity].
  - destruct (bpf_jump_codec linux Sbfv1 0x1000 0x1004 no_hints) as [(k & _ & _ & bs & i & H1 & _)|[_ H]];
      [apply Hr; lia|apply Hr; lia| |exact H]. vm_compute in H1. discriminate H1.
Defined.

(** the call encoder of the BPF codec: on a reachable target the slot
    decodes to one call whose target is the requested one, in every variant
    for [call_internal], and for the [call_local] form under the Linux
    variant. The Solana variants decode that form's opcode as a register
    call, so the hint has to match the variant. *)
Theorem bpf_call_codec (c : BpfCodec) v (local : bool) a k w :
  in_range 64 a -> - 2 ^ 15 <= k < 2 ^ 15 ->
  exists bs i,
    encode_call c a (slot_target a k) {| wide := w; bpf_call_local := Some local |} = Ok bs /\
    decode bs a v = Ok [i] /\ call_target i = slot_target a k /\
    kind i = (if local then match v with Linux => Call | _ => CallReg end else Call).
Proof.
  intros Ha Hk. cbn. unfold bpf_encode_call. cbn [bpf_call_local default from_option id].
  destruct (codec_slot_offset_spec a (slot_target a k)) as [(k' & Hk' & E' & E)|[Hn _]];
    [apply wrap_range; lia| |by destruct (Hn k)].
  rewrite E. cbn [mbind res_bind]. rewrite E'.
  destruct local.
  - rewrite (assemble_call_ok true) by done.
    exists (encode_slot 0x8d 0 0 0 k'), (slot_insn v a 0x8d 0 0 0 k').
    split_and!; [done|apply decode_slot; done || lia|done|by destruct v].
  - rewrite (assemble_call_ok false) by done.
    exists (encode_slot 0x85 0 1 0 k'), (slot_insn v a 0x85 0 1 0 k').
    split_and!; [done|apply decode_slot; done || lia|done|by destruct v].
Qed.

Lemma bpf_call_codec_witness :
  exists bs i, encode_call linux 0x1000 0x1010 {| wide := None; bpf_call_local := Some false |} = Ok bs /\
    decode bs 0x1000 Sbfv2 = Ok [i] /\ call_target i = 0x1010 /\ kind i = Call.
Proof.
  change 0x1010 with (slot_target 0x1000 1).
  apply (bpf_call_codec linux Sbfv2 false 0x1000 1 None); unfold in_range; lia.
Defined.

(** the conditional jump that frames a structured block tests the negated
    condition: for a comparison of a register with a register or a 32-bit
    immediate, the encoded slot decodes to one conditional jump on the same
    operands to the requested target, falling through to the next slot, and
    it is taken exactly when the condition is false on unsigned operands. *)
Theorem bpf_cond_codec (c : BpfCodec) v d op n f r s i a k h :
  In (op, n, f) cond_table -> 0 <= d <= 10 -> 0 <= s <= 10 -> - 2 ^ 31 <= i < 2 ^ 31 ->
  in_range 64 a -> - 2 ^ 15 <= k < 2 ^ 15 ->
  exists bs x,
    encode_cond_jump c (cond_text d op r s i) a (slot_target a k) h = Ok bs /\
    decode bs a v = Ok [x] /\
    block_terminator [x] = ConditionalBranch (slot_target a k) (wrap64 (a + INSN_SIZE)) /\
    dst x = d /\ (if r then src x = s else imm x = i) /\
    Z.testbit (opcode x) 3 = r /\
    forall p q, jcc_taken (opcode x / 16) p q = negb (f p q).
Proof.
  intros Hin Hd Hs Hi Ha Hk. cbn [encode_cond_jump bpf_codec]. unfold bpf_encode_cond_jump.
  destruct (codec_slot_offset_spec a (slot_target a k)) as [(k' & Hk' & E' & E)|[Hn _]];
    [apply wrap_range; lia| |by destruct (Hn k)].
  rewrite E. cbn [mbind res_bind]. rewrite E'.
  rewrite (assemble_cond d op n f r s i k') by done.
  assert (n ∈ jcc_nibbles) as Hn.
  { repeat destruct Hin as [[= <- <- <-]|Hin]; try destruct Hin; unfold jcc_nibbles;
      rewrite !elem_of_cons; lia. }
  destruct (cond_opcode_range n r Hn) as (Ho & Hne & Hq & Hcl).
  set (s' := if r then s else 0). set (i' := if r then 0 else i).
  exists (encode_slot (opcode_of n r 5) d s' k' i'), (slot_insn v a (opcode_of n r 5) d s' k' i').
  split_and!; [done| | |done|by destruct r| |].
  - apply decode_slot; try done; destruct r; subst s' i'; lia.
  - unfold block_terminator. cbn [last kind slot_insn]. by rewrite Hcl.
  - cbn [opcode slot_insn]. unfold jcc_nibbles in Hn. elem_cases Hn En; subst n; by destruct r.
  - cbn [opcode slot_insn]. rewrite Hq. intros p q. unfold jcc_taken.
    repeat destruct Hin as [[= <- <- <-]|Hin]; try destruct Hin; cbn [Z.eqb Pos.eqb]; lia.
Qed.

Lemma bpf_cond_codec_witness :
  cond_text 0 (str "!=") false 0 0 = str "r0 != 0x0" /\
  exists bs x, encode_cond_jump linux (str "r0 != 0x0") 0x1000 0x1018 no_hints = Ok bs /\
    decode bs 0x1000 Linux = Ok [x] /\
    block_terminator [x] = ConditionalBranch 0x1018 0x1008.
Proof.
  split; [reflexivity|].
  destruct (bpf_cond_codec linux Linux 0 (str "!=") 0x1 (fun a b => negb (a =? b)) false 0 0
              0x1000 2 no_hints) as (bs & x & H1 & H2 & H3 & _).
  - by left.
  - lia.
  - lia.
  - lia.
  - unfold in_range. lia.
  - lia.
  - exists bs, x. exact (conj H1 (conj H2 H3)).
Defined.
