(* ===== verification/FunctionMap.v ===== *)
(** The map of discovered functions (src/src/analysis/function_map.rs): the
    records several discovery passes report are merged by address. *)

From S2P Require Import Prelude Text Common.

(** * Records *)

Inductive FunctionSource : Type :=
| Prologue | Entry | CallSite | EhFrame | Signature | Plt | DynSym | SymTab | UserOverride.

#[export] Instance FunctionSource_eq_dec : EqDecision FunctionSource.
Proof. solve_decision. Defined.

(** The discriminant, which is the derived order. *)
Definition rank (s : FunctionSource) : Z :=
  match s with
  | Prologue => 0 | Entry => 1 | CallSite => 2 | EhFrame => 3 | Signature => 4
  | Plt => 5 | DynSym => 6 | SymTab => 7 | UserOverride => 8
  end.

(** [f_addr] is the [u64] inside the [VAddr]. *)
Record Function : Type := {
  f_addr : Z;
  f_size : Z;
  f_name : list byte;
  f_sources : list FunctionSource;
}.

Definition has_source (s : FunctionSource) (l : list FunctionSource) : bool :=
  existsb (fun x => bool_decide (x = s)) l.

(** [iter().max()]: the last of the greatest elements, [None] when empty. *)
Definition max_source (l : list FunctionSource) : option FunctionSource :=
  fold_left (fun m s => match m with
                        | None => Some s
                        | Some m => Some (if rank m <=? rank s then s else m)
                        end) l None.

(** [for src in other.sources { if !self.sources.contains(&src) { push } }]. *)
Definition add_sources (l other : list FunctionSource) : list FunctionSource :=
  fold_left (fun l s => if has_source s l then l else l ++ [s]) other l.

Definition merge_in (self other : Function) : Function :=
  let other_auth := has_source Plt (f_sources other) && (0 <? f_size other) in
  let self_auth := has_source Plt (f_sources self) && (0 <? f_size self) in
  let take_other_size :=
    (other_auth && negb self_auth) || ((0 <? f_size other) && (f_size self =? 0)) in
  let size := if take_other_size then f_size other else f_size self in
  let highest_existing := max_source (f_sources self) in
  let incoming := max_source (f_sources other) in
  let name :=
    match highest_existing, incoming with
    | Some e, Some i => if rank e <? rank i then f_name other else f_name self
    | None, _ => f_name other
    | Some _, None => f_name self
    end in
  {| f_addr := f_addr self; f_size := size; f_name := name;
     f_sources := sort_by_key rank (add_sources (f_sources self) (f_sources other)) |}.

(** * The map *)

Record FunctionMap : Type := { by_addr : gmap Z Function }.

Definition new : FunctionMap := {| by_addr := ∅ |}.

Definition insert_fn (m : FunctionMap) (func : Function) : FunctionMap :=
  {| by_addr :=
       match by_addr m !! f_addr func with
       | None => <[f_addr func := func]> (by_addr m)
       | Some old => <[f_addr func := merge_in old func]> (by_addr m)
       end |}.

Definition map_len (m : FunctionMap) : Z := Z.of_nat (size (by_addr m)).
Definition is_empty (m : FunctionMap) : bool := bool_decide (by_addr m = ∅).

(** The entries of the [BTreeMap], in the order of their keys. *)
Definition entries (m : FunctionMap) : list (Z * Function) :=
  sort_by_key fst (map_to_list (by_addr m)).

Definition iter (m : FunctionMap) : list Function := map snd (entries m).
Definition get_fn (m : FunctionMap) (a : Z) : option Function := by_addr m !! a.

(** [range(..=addr).next_back()]. *)
Definition last_upto (m : FunctionMap) (a : Z) : option (Z * Function) :=
  last (base.filter (fun p => p.1 <= a) (entries m)).

(** [u64::saturating_add]. *)
Definition saturating_add (a b : Z) : Z := Z.min (a + b) (2 ^ 64 - 1).

Definition containing (m : FunctionMap) (a : Z) : option Function :=
  match last_upto m a with
  | Some (start, f) =>
      let fin := saturating_add start (f_size f) in
      if (0 <? f_size f) && (a <? fin) then Some f else None
  | None => None
  end.

(** * Sources *)

Lemma has_source_elem s l : has_source s l = true <-> s ∈ l.
Proof.
  unfold has_source. rewrite List.existsb_exists. split.
  - intros (x & Hx & E). apply bool_decide_eq_true in E as ->. by apply list_elem_of_In.
  - intros H. exists s. split; [by apply list_elem_of_In|by apply bool_decide_eq_true].
Qed.

Lemma rank_inj s t : rank s = rank t -> s = t.
Proof. destruct s, t; simpl; done. Qed.

(** The greatest source has every other below it. *)
Lemma max_source_ok l : match max_source l with
  | None => l = []
  | Some m => m ∈ l /\ forall s, s ∈ l -> rank s <= rank m end.
Proof.
  unfold max_source.
  assert (forall l o, match o with Some m => True | None => True end ->
    match fold_left (fun m s => match m with None => Some s
            | Some m => Some (if rank m <=? rank s then s else m) end) l o with
    | None => o = None /\ l = []
    | Some m => (o = Some m \/ m ∈ l) /\ (forall s, s ∈ l -> rank s <= rank m) /\
                (forall x, o = Some x -> rank x <= rank m)
    end) as G.
  { clear l. induction l as [|s l IH]; intros o _; cbn [fold_left].
    - destruct o as [m|]; [|done]. split; [by left|]. split; [by intros s ?%elem_of_nil|].
      intros x [= ->]. lia.
    - specialize (IH (match o with None => Some s
                      | Some m => Some (if rank m <=? rank s then s else m) end)).
      destruct (fold_left _ l _) as [m|]; [|destruct IH as [IH _]; [by destruct o|by destruct o]].
      destruct IH as (H1 & H2 & H3); [by destruct o|]. split_and!.
      + destruct o as [x|]; [destruct (rank x <=? rank s)|]; destruct H1 as [[= <-]|H1];
          rewrite ?elem_of_cons; auto.
      + intros t [->|Ht]%elem_of_cons; [|by apply H2]. destruct o as [x|]; [|by apply H3].
        destruct (Z.leb_spec (rank x) (rank s)); [by apply H3|].
        pose proof (H3 x eq_refl). lia.
      + intros x ->. destruct (Z.leb_spec (rank x) (rank s)); [|by apply H3].
        pose proof (H3 s eq_refl). lia. }
  specialize (G l None I). destruct (fold_left _ l None); [|by destruct G].
  destruct G as ([[=]|?] & ? & _). done.
Qed.

Lemma add_sources_ok l other : NoDup l ->
  NoDup (add_sources l other) /\ forall s, s ∈ add_sources l other <-> s ∈ l \/ s ∈ other.
Proof.
  unfold add_sources. revert l. induction other as [|x other IH]; intros l Hl; cbn [fold_left].
  - split; [done|]. intros s. rewrite elem_of_nil. tauto.
  - destruct (has_source x l) eqn:E.
    + apply has_source_elem in E. destruct (IH l Hl) as [Hn Hs]. split; [done|]. intros s.
      rewrite Hs, elem_of_cons. split; [tauto|]. intros [?|[->|?]]; tauto.
    + assert (x ∉ l) as Hx by (rewrite <- has_source_elem; congruence).
      destruct (IH (l ++ [x])) as [Hn Hs].
      { apply NoDup_app. split_and!; [done| |apply NoDup_singleton].
        by intros y Hy ->%list_elem_of_singleton. }
      split; [done|]. intros s. rewrite Hs, elem_of_app, list_elem_of_singleton, elem_of_cons. tauto.
Qed.

(** The fields of a merge, as the sources of both sides. *)
Lemma merge_sources a b : NoDup (f_sources a) ->
  NoDup (f_sources (merge_in a b)) /\
  StronglySorted (fun x y => rank x <= rank y) (f_sources (merge_in a b)) /\
  forall s, s ∈ f_sources (merge_in a b) <-> s ∈ f_sources a \/ s ∈ f_sources b.
Proof.
  intros Ha. destruct (add_sources_ok (f_sources a) (f_sources b) Ha) as [Hn Hs].
  unfold merge_in. cbn [f_sources].
  pose proof (sort_by_key_perm rank (add_sources (f_sources a) (f_sources b))) as Hp.
  split_and!; [by rewrite Hp|apply sort_by_key_sorted|]. intros s. by rewrite Hp.
Qed.

(** * Merging what several passes report *)

(** The first non-zero size of a list of records, 0 if there is none. *)
Definition first_size (l : list Function) : Z :=
  match List.find (fun f => 0 <? f_size f) l with Some f => f_size f | None => 0 end.

(** The record [r] is the merge of the reports [l] of one function. *)
Record merged (l : list Function) (r : Function) : Prop := {
  mg_nodup : NoDup (f_sources r);
  mg_sorted : StronglySorted (fun x y => rank x <= rank y) (f_sources r);
  mg_sources : forall s, s ∈ f_sources r <-> exists g, g ∈ l /\ f_sources g = [s];
  mg_name : exists g t, g ∈ l /\ f_sources g = [t] /\ f_name r = f_name g /\
              forall s, s ∈ f_sources r -> rank s <= rank t;
  mg_plt : forall p, p ∈ l -> f_sources p = [Plt] -> 0 < f_size p -> f_size r = f_size p;
  mg_size : (forall p, p ∈ l -> f_sources p = [Plt] -> f_size p = 0) -> f_size r = first_size l;
}.

Lemma first_size_app l g : 0 <= f_size g -> first_size (l ++ [g]) =
  if first_size l =? 0 then f_size g else first_size l.
Proof.
  intros Hg. unfold first_size. induction l as [|f l IH]; cbn [app List.find].
  - destruct (Z.ltb_spec 0 (f_size g)); simpl; lia.
  - destruct (Z.ltb_spec 0 (f_size f)); [|exact IH].
    by replace (f_size f =? 0) with false by lia.
Qed.

Lemma merge_step l r g s : merged l r -> Forall (fun f => 0 <= f_size f) (l ++ [g]) ->
  f_sources g = [s] -> s ∉ f_sources r -> merged (l ++ [g]) (merge_in r g).
Proof.
  intros [Hn _ Hsrc (b & t & Hb & Hbt & Hname & Hmax) Hplt Hsize] Hpos Hg Hs.
  apply Forall_app in Hpos as [Hpos Hgp]. inversion_clear Hgp as [|? ? Hg0 _].
  destruct (merge_sources r g Hn) as (Mn & Ms & Me).
  assert (forall x, x ∈ f_sources (merge_in r g) <-> x ∈ f_sources r \/ x = s) as Me'.
  { intros x. by rewrite Me, Hg, list_elem_of_singleton. }
  assert (t ∈ f_sources r) as Ht by (apply Hsrc; eauto).
  split; [done|done| | | |].
  - intros x. rewrite Me', Hsrc. split.
    + intros [(y & ? & ?)| ->]; [exists y|exists g]; rewrite elem_of_app, ?list_elem_of_singleton; auto.
    + intros (y & Hy & E). apply elem_of_app in Hy as [Hy|Hy]; [left; eauto|].
      apply list_elem_of_singleton in Hy as ->. right. congruence.
  - pose proof (max_source_ok (f_sources r)) as Hm.
    destruct (max_source (f_sources r)) as [e|] eqn:Ee; [|by rewrite Hm in Ht; apply elem_of_nil in Ht].
    destruct Hm as [He Hle].
    assert (rank e = rank t) as Eet by (pose proof (Hmax e He); pose proof (Hle t Ht); lia).
    assert (f_name (merge_in r g) = if rank e <? rank s then f_name g else f_name r) as ->.
    { unfold merge_in. cbn [f_name]. rewrite Ee, Hg. reflexivity. }
    destruct (Z.ltb_spec (rank e) (rank s)).
    + exists g, s. rewrite elem_of_app, list_elem_of_singleton. split_and!; auto.
      intros x Hx. apply Me' in Hx as [Hx| ->]; [|lia]. pose proof (Hle x Hx). lia.
    + exists b, t. rewrite elem_of_app. split_and!; auto.
      intros x Hx. apply Me' in Hx as [Hx| ->]; [by apply Hmax|lia].
  - assert (forall p, p ∈ l -> f_sources p = [Plt] -> Plt ∈ f_sources r) as Hin by (intros; apply Hsrc; eauto).
    intros p Hp Ep H0. unfold merge_in. cbn [f_size].
    apply elem_of_app in Hp as [Hp|Hp]; [|apply list_elem_of_singleton in Hp as ->].
    + pose proof (Hplt p Hp Ep H0) as Er. pose proof (Hin p Hp Ep) as HP.
      rewrite Hg. unfold has_source at 1. cbn [existsb].
      rewrite (bool_decide_eq_false_2 (s = Plt)) by congruence. cbn [orb andb].
      replace (f_size r =? 0) with false by lia. by rewrite andb_false_r.
    + rewrite Hg in Ep. injection Ep as ->.
      assert (has_source Plt (f_sources g) = true) as -> by (rewrite Hg; done).
      assert (has_source Plt (f_sources r) = false) as ->
        by (apply not_true_is_false; by rewrite has_source_elem).
      by replace (0 <? f_size g) with true by lia.
  - intros Hno. assert (f_size r = first_size l) as Er.
    { apply Hsize. intros p Hp. apply Hno. apply elem_of_app. by left. }
    rewrite first_size_app by done. unfold merge_in. cbn [f_size]. rewrite <- Er.
    assert (has_source Plt (f_sources g) && (0 <? f_size g) = false) as ->.
    { destruct (has_source Plt (f_sources g)) eqn:E; [|done]. apply has_source_elem in E.
      rewrite Hg in E. apply list_elem_of_singleton in E as <-.
      rewrite (Hno g) by (rewrite ?elem_of_app, ?list_elem_of_singleton; auto). done. }
    cbn [andb orb]. destruct (Z.eqb_spec (f_size r) 0); [|by rewrite andb_false_r].
    rewrite andb_true_r. destruct (Z.ltb_spec 0 (f_size g)); lia.
Qed.

(** Each record comes from one pass, and each pass reports an address once. *)
Definition reports (l : list Function) : Prop :=
  Forall (fun f => 0 <= f_size f) l /\ exists ss, map f_sources l = map (fun s => [s]) ss /\ NoDup ss.

Lemma merged_one f s : f_sources f = [s] -> 0 <= f_size f -> merged [f] f.
Proof.
  intros Hs H0. split.
  - rewrite Hs. apply NoDup_singleton.
  - rewrite Hs. repeat constructor.
  - intros x. rewrite Hs, list_elem_of_singleton. split.
    + intros ->. exists f. by rewrite list_elem_of_singleton.
    + intros (g & ->%list_elem_of_singleton & E). congruence.
  - exists f, s. rewrite list_elem_of_singleton. split_and!; auto.
    intros x. rewrite Hs, list_elem_of_singleton. intros ->. lia.
  - by intros p ->%list_elem_of_singleton.
  - intros _. unfold first_size. cbn [List.find]. destruct (Z.ltb_spec 0 (f_size f)); lia.
Qed.

(** Folding the merges over the reports of one address. *)
Lemma fold_merged todo : forall pre r, merged pre r -> reports (pre ++ todo) ->
  merged (pre ++ todo) (fold_left merge_in todo r).
Proof.
  induction todo as [|g todo IH]; intros pre r Hm Hr; [by rewrite app_nil_r|].
  cbn [fold_left]. change (g :: todo) with ([g] ++ todo) in *. rewrite (assoc_L (++)) in *.
  apply IH; [|done]. destruct Hr as (Hpos & ss & Hss & Hnd).
  rewrite !map_app in Hss. cbn [map] in Hss.
  assert (exists s1 s ss2, ss = s1 ++ s :: ss2 /\ map f_sources pre = map (fun s => [s]) s1 /\
            f_sources g = [s]) as (s1 & s & ss2 & -> & E1 & Eg).
  { clear -Hss. revert ss Hss. induction pre as [|f pre IH]; intros [|s ss] H; cbn in H; try done.
    - injection H as H _. by exists [], s, ss.
    - injection H as H1 H2. destruct (IH ss H2) as (s1 & s' & ss2 & -> & E & Eg).
      exists (s :: s1), s', ss2. cbn. split_and!; [done|by rewrite H1, E|done]. }
  apply (merge_step _ _ _ s); [done| |done|].
  - apply Forall_app in Hpos as [? _]. done.
  - rewrite (mg_sources _ _ Hm). intros (f & Hf & Ef).
    apply NoDup_app in Hnd as (_ & Hd & _). apply (Hd s); [|by left].
    apply (list_elem_of_fmap_2 f_sources) in Hf. change (f_sources <$> pre) with (map f_sources pre) in Hf.
    rewrite E1, Ef in Hf. apply list_elem_of_fmap in Hf as (y & [= <-] & ?). done.
Qed.

(** Insertions at other addresses do not matter. *)
Lemma fold_insert l : forall m a,
  get_fn (fold_left insert_fn l m) a =
  match base.filter (fun f => f_addr f = a) l, get_fn m a with
  | [], o => o
  | f :: t, None => Some (fold_left merge_in t f)
  | fs, Some r => Some (fold_left merge_in fs r)
  end.
Proof.
  induction l as [|f l IH]; intros m a; [by rewrite filter_nil|]. cbn [fold_left].
  rewrite IH, filter_cons. unfold get_fn, insert_fn. cbn [by_addr].
  destruct (decide (f_addr f = a)) as [<-|Hne].
  - destruct (by_addr m !! f_addr f) as [r|]; rewrite lookup_insert_eq; by destruct (base.filter _ l).
  - destruct (by_addr m !! f_addr f); by rewrite lookup_insert_ne.
Qed.

(** What the map holds for an address after any sequence of insertions.
    When the records inserted there each come from one discovery pass and no
    pass reports it twice, the entry lists exactly the passes that reported
    it, in ascending confidence; its name is the one the most confident of
    them gave, whatever the order of insertion; its size is the PLT's when
    the PLT gave one, and otherwise the first non-zero size in the order of
    insertion (0 if all are unknown). *)
Theorem function_map_merge (l : list Function) (a : Z) :
  let here := base.filter (fun f => f_addr f = a) l in
  reports here ->
  match get_fn (fold_left insert_fn l new) a with
  | Some r => here <> [] /\ merged here r
  | None => here = []
  end.
Proof.
  intros here Hr. rewrite fold_insert. fold here. unfold get_fn. cbn [by_addr new].
  rewrite lookup_empty. destruct here as [|f t]; [done|]. split; [done|].
  change (f :: t) with ([f] ++ t) in *. apply fold_merged; [|done].
  destruct Hr as (Hpos & ss & Hss & _). apply Forall_app in Hpos as [Hpos _].
  inversion_clear Hpos. destruct ss as [|s ss]; [done|]. injection Hss as Hs _.
  by apply (merged_one f s).
Qed.

Definition rec (a size : Z) (nm : string) (s : FunctionSource) : Function :=
  {| f_addr := a; f_size := size; f_name := str nm; f_sources := [s] |}.

Lemma function_map_merge_witness :
  let l := [rec 0x1000 0x40 "sub_1000" EhFrame; rec 0x2000 8 "other" SymTab;
            rec 0x1000 0x10 "printf" Plt; rec 0x1000 0 "sub_1000" CallSite] in
  exists r, get_fn (fold_left insert_fn l new) 0x1000 = Some r /\
    f_size r = 0x10 /\ f_name r = str "printf" /\ f_sources r = [CallSite; EhFrame; Plt].
Proof.
  intros l. pose proof (function_map_merge l 0x1000) as H. cbv zeta in H.
  assert (reports (base.filter (fun f => f_addr f = 0x1000) l)) as Hr.
  { split; [vm_compute; repeat constructor; discriminate|].
    exists [EhFrame; Plt; CallSite]. split; [vm_compute; reflexivity|].
    refine (bool_decide_unpack _ _). vm_compute. exact I. }
  specialize (H Hr). destruct (get_fn (fold_left insert_fn l new) 0x1000) as [r|] eqn:E.
  - exists r. destruct H as [_ Hm]. split; [done|]. split.
    + apply (mg_plt _ _ Hm (rec 0x1000 0x10 "printf" Plt)); [|done|done].
      apply list_elem_of_In. vm_compute. tauto.
    + vm_compute in E. injection E as <-. split; reflexivity.
  - vm_compute in E. discriminate E.
Defined.

(** * Lookup by containment *)

Lemma elem_of_entries m k f : (k, f) ∈ entries m <-> by_addr m !! k = Some f.
Proof.
  unfold entries. rewrite (sort_by_key_perm fst). apply elem_of_map_to_list.
Qed.

(** In a sorted list the last entry at or below [a] has the greatest key. *)
Lemma last_filter_sorted (l : list (Z * Function)) a :
  StronglySorted (fun x y => x.1 <= y.1) l ->
  match last (base.filter (fun p => p.1 <= a) l) with
  | Some p => p ∈ l /\ p.1 <= a /\ forall q, q ∈ l -> q.1 <= a -> q.1 <= p.1
  | None => forall q, q ∈ l -> ~ q.1 <= a
  end.
Proof.
  induction 1 as [|p l Hl IH Hp]; [by intros q ?%elem_of_nil|]. rewrite filter_cons.
  rewrite Forall_forall in Hp. destruct (decide (p.1 <= a)) as [Hpa|Hpa].
  - rewrite last_cons. destruct (last (base.filter _ l)) as [q|].
    + destruct IH as (Hq & Hqa & Hmax). split_and!; [by right|done|].
      intros x Hx Hxa. apply elem_of_cons in Hx as [->|Hx]; [by apply Hp|by apply Hmax].
    + split_and!; [by left|done|]. intros x Hx Hxa. apply elem_of_cons in Hx as [->|Hx]; [done|].
      by destruct (IH x Hx).
  - destruct (last (base.filter _ l)) as [q|].
    + destruct IH as (Hq & Hqa & Hmax). split_and!; [by right|done|].
      intros x Hx Hxa. apply elem_of_cons in Hx as [->|Hx]; [done|by apply Hmax].
    + intros x Hx. apply elem_of_cons in Hx as [->|Hx]; [done|by apply IH].
Qed.

(** [f] at [k] covers [a]: the range is cut at the last address. *)
Definition covers (k : Z) (f : Function) (a : Z) : Prop :=
  k <= a < Z.min (k + f_size f) (2 ^ 64 - 1).

Definition sizes_ok (m : FunctionMap) : Prop :=
  forall k f, by_addr m !! k = Some f -> 0 <= f_size f.

Definition disjoint_fns (m : FunctionMap) : Prop :=
  forall k f k' f', by_addr m !! k = Some f -> by_addr m !! k' = Some f' -> k < k' ->
    k + f_size f <= k'.

(** the entries are listed in ascending order of their addresses, and
    [containing] returns the function whose start is the closest at or below
    the address, if it covers it. When the functions do not overlap that is
    exactly the function covering the address. *)
Theorem function_map_containing (m : FunctionMap) (a : Z) :
  sizes_ok m ->
  StronglySorted (fun x y => x.1 <= y.1) (entries m) /\
  (forall f, containing m a = Some f <->
     exists k, by_addr m !! k = Some f /\ covers k f a /\
       forall k', k < k' <= a -> by_addr m !! k' = None) /\
  (disjoint_fns m -> forall f, containing m a = Some f <->
     exists k, by_addr m !! k = Some f /\ covers k f a).
Proof.
  intros Hsz. split; [apply sort_by_key_sorted|].
  pose proof (last_filter_sorted (entries m) a (sort_by_key_sorted _ _)) as Hlast.
  assert (forall f, containing m a = Some f <->
     exists k, by_addr m !! k = Some f /\ covers k f a /\
       forall k', k < k' <= a -> by_addr m !! k' = None) as G.
  { intros f. unfold containing, last_upto, saturating_add, covers.
    destruct (last _) as [[k g]|]; cbv zeta; cycle 1.
    { split; [done|]. intros (k & Hk & ? & _). destruct (Hlast (k, f)); [by apply elem_of_entries|simpl; lia]. }
    destruct Hlast as (Hk & Hka & Hmax). apply elem_of_entries in Hk. cbn [fst] in *.
    assert (forall k', k < k' <= a -> by_addr m !! k' = None) as Hnone.
    { intros k' Hk'. destruct (by_addr m !! k') as [h|] eqn:E; [|done].
      apply elem_of_entries in E. pose proof (Hmax _ E). cbn in *. lia. }
    split.
    - destruct (_ && _) eqn:E; [|done]. intros [= <-]. exists k. split_and!; [done|lia|lia|done].
    - intros (k' & Hk' & Hc & Hn'). pose proof (Hmax (k', f) ltac:(by apply elem_of_entries)) as Hle.
      cbn in Hle. assert (k' = k) as ->.
      { destruct (decide (k' = k)); [done|]. rewrite (Hn' k) in Hk by lia. done. }
      rewrite Hk' in Hk. injection Hk as <-. by replace (_ && _) with true by lia. }
  split; [exact G|]. intros Hdis f. rewrite G. split.
  - intros (k & ? & ? & _). eauto.
  - intros (k & Hk & Hc). exists k. split; [done|]. split; [done|].
    intros k' Hk'. destruct (by_addr m !! k') as [g|] eqn:E; [|done].
    pose proof (Hdis _ _ _ _ Hk E ltac:(lia)). unfold covers in Hc. lia.
Qed.

Definition two_fns : FunctionMap :=
  fold_left insert_fn [rec 0x2000 0x20 "g" SymTab; rec 0x1000 0x100 "f" SymTab] new.

Lemma two_fns_lookup k f : by_addr two_fns !! k = Some f <->
  (k = 0x2000 /\ f = rec 0x2000 0x20 "g" SymTab) \/ (k = 0x1000 /\ f = rec 0x1000 0x100 "f" SymTab).
Proof.
  change (by_addr two_fns) with
    (<[0x1000 := rec 0x1000 0x100 "f" SymTab]> (<[0x2000 := rec 0x2000 0x20 "g" SymTab]> (∅ : gmap Z Function))).
  rewrite !lookup_insert_Some, lookup_empty. naive_solver.
Qed.

Lemma function_map_containing_witness :
  sizes_ok two_fns /\ disjoint_fns two_fns /\
  containing two_fns 0x10ff = Some (rec 0x1000 0x100 "f" SymTab).
Proof.
  assert (sizes_ok two_fns) as Hs by (intros k f [[-> ->]|[-> ->]]%two_fns_lookup; simpl; lia).
  assert (disjoint_fns two_fns) as Hd.
  { intros k f k' f' [[-> ->]|[-> ->]]%two_fns_lookup [[-> ->]|[-> ->]]%two_fns_lookup; simpl; lia. }
  split; [exact Hs|]. split; [exact Hd|].
  apply (proj2 (proj2 (function_map_containing two_fns 0x10ff Hs)) Hd).
  exists 0x1000. split; [apply two_fns_lookup; by right|]. unfold covers. simpl. lia.
Defined.

(** With an inner function the enclosing one is no longer found after it. *)
Example nested_function_missed :
  let m := fold_left insert_fn [rec 0x1000 0x100 "outer" SymTab; rec 0x1010 8 "inner" SymTab] new in
  containing m 0x1014 = Some (rec 0x1010 8 "inner" SymTab) /\ containing m 0x1020 = None.
Proof. split; vm_compute; reflexivity. Qed.
