(* ===== verification/Signatures.v ===== *)
(** Byte-pattern signatures (src/src/signatures/mod.rs) and the database of
    the CRT helpers (src/src/signatures/x86_64.rs). *)

From S2P Require Import Prelude Text.

(** Scanning has no error value; an address past the end overflows. *)
Inductive Error : Type := .

Inductive PatternByte : Type := Exact (b : Z) | Wild.

Record Signature : Type := { s_name : list byte; pattern : list PatternByte }.
Record Match : Type := { m_addr : Z; m_name : list byte }.

(** One position of the loop: [bytes[i] != *b] on an exact byte. *)
Definition pattern_matches_at (bytes : list byte) (pat : list PatternByte) : res Error bool :=
  if len bytes <? len pat then Ok false
  else
    foldM (fun ok '(i, p) =>
      match p with
      | Exact b => if (ok : bool) then x ← index bytes i; Ok (u8 x =? b) else Ok false
      | Wild => Ok ok
      end) true (zip (seqZ 0 (len pat)) pat).

Definition scan_offset (bytes : list byte) (base_addr : Z) (sig : Signature)
    (matches : list Match) (offset : Z) : res Error (list Match) :=
  rest ← slice bytes offset (len bytes);
  hit ← pattern_matches_at rest (pattern sig);
  if (hit : bool) then
    a ← usize_add base_addr offset;
    Ok (matches ++ [{| m_addr := a; m_name := s_name sig |}])
  else Ok matches.

Definition scan_sig (bytes : list byte) (base_addr : Z) (matches : list Match) (sig : Signature)
    : res Error (list Match) :=
  if bool_decide (pattern sig = []) || (len bytes <? len (pattern sig)) then Ok matches
  else
    let last := len bytes - len (pattern sig) in
    foldM (scan_offset bytes base_addr sig) matches (seqZ 0 (last + 1)).

Definition scan (bytes : list byte) (base_addr : Z) (db : list Signature) : res Error (list Match) :=
  matches ← foldM (scan_sig bytes base_addr) [] db;
  Ok (sort_by_key m_addr matches).

(** [pat!(...)]: [None] stands for [_]. *)
Definition pat (l : list (option Z)) : list PatternByte :=
  map (fun o => match o with Some b => Exact b | None => Wild end) l.

Section crt.
Let x (b : Z) : option Z := Some b.
Let w : option Z := None.

Definition CRT_HELPERS_X86_64 : list Signature :=
  [{| s_name := str "deregister_tm_clones";
      pattern := pat [x 0x48; x 0x8d; x 0x3d; w; w; w; w; x 0x48; x 0x8d; x 0x05; w; w; w; w;
        x 0x48; x 0x39; x 0xf8; x 0x74; w; x 0x48; x 0x8b; x 0x05; w; w; w; w; x 0x48; x 0x85;
        x 0xc0; x 0x74; w; x 0xff; x 0xe0] |};
   {| s_name := str "register_tm_clones";
      pattern := pat [x 0x48; x 0x8d; x 0x3d; w; w; w; w; x 0x48; x 0x8d; x 0x35; w; w; w; w;
        x 0x48; x 0x29; x 0xfe; x 0x48; x 0x89; x 0xf0; x 0x48; x 0xc1; x 0xee; x 0x3f; x 0x48;
        x 0xc1; x 0xf8; x 0x03; x 0x48; x 0x01; x 0xc6; x 0x48; x 0xd1; x 0xfe; x 0x74; w] |};
   {| s_name := str "__do_global_dtors_aux";
      pattern := pat [x 0xf3; x 0x0f; x 0x1e; x 0xfa; x 0x80; x 0x3d; w; w; w; w; x 0x00; x 0x75;
        w; x 0x55; x 0x48; x 0x83; x 0x3d; w; w; w; w; x 0x00; x 0x48; x 0x89; x 0xe5; x 0x74;
        w] |};
   {| s_name := str "frame_dummy";
      pattern := pat [x 0xf3; x 0x0f; x 0x1e; x 0xfa; x 0xe9; w; w; w; w] |}].
End crt.

(** * Matching *)

(** [bytes] starts with a text of the pattern. *)
Fixpoint fits (bytes : list byte) (p : list PatternByte) {struct p} : bool :=
  match p, bytes with
  | [], _ => true
  | Wild :: p', _ :: bytes' => fits bytes' p'
  | Exact b :: p', x :: bytes' => (u8 x =? b) && fits bytes' p'
  | _ :: _, [] => false
  end.

Lemma fits_short bytes p : len bytes < len p -> fits bytes p = false.
Proof.
  revert bytes. induction p as [|[b|] p IH]; intros [|x bytes] H; unfold len in *; simpl in *;
    try lia; try done; rewrite IH; (lia || by rewrite ?andb_false_r).
Qed.

Lemma pattern_matches_at_fits bytes p : pattern_matches_at bytes p = Ok (fits bytes p).
Proof.
  unfold pattern_matches_at. destruct (Z.ltb_spec (len bytes) (len p)) as [H|H].
  { by rewrite fits_short. }
  (* The loop from position [k], the bytes before it consumed. *)
  assert (forall p pre post ok, len p <= len post ->
    foldM (fun ok '(i, p) =>
      match p with
      | Exact b => if (ok : bool) then x ← index (E:=Error) (pre ++ post) i; Ok (u8 x =? b) else Ok false
      | Wild => Ok ok
      end) ok (zip (seqZ (len pre) (len p)) p) = Ok (ok && fits post p)) as G.
  { clear. induction p as [|q p IH]; intros pre post ok Hl; [cbn; by rewrite andb_true_r|].
    destruct post as [|x post]; [unfold len in Hl; simpl in Hl; lia|].
    assert (seqZ (len pre) (len (q :: p)) = len pre :: seqZ (len (pre ++ [x])) (len p)) as ->.
    { rewrite len_app. unfold len. simpl length. rewrite seqZ_cons by lia.
      f_equal. f_equal; lia. }
    cbn [zip zip_with foldM]. change (x :: post) with ([x] ++ post). rewrite (assoc_L (++)).
    assert (len p <= len post) as Hl' by (unfold len in *; simpl in Hl; lia).
    destruct q as [b|]; cbn [fits app].
    - destruct ok.
      + assert (index (E:=Error) ((pre ++ [x]) ++ post) (len pre) = Ok x) as ->.
        { unfold index, get, len. rewrite (proj2 (Z.leb_le 0 (Z.of_nat (length pre))) (Nat2Z.is_nonneg _)).
          rewrite Nat2Z.id, <- (assoc_L (++)). change ([x] ++ post) with (x :: post).
          by rewrite list_lookup_middle. }
        cbn [mbind res_bind]. by rewrite (IH (pre ++ [x])).
      + cbn [mbind res_bind]. by rewrite (IH (pre ++ [x])).
    - cbn [mbind res_bind]. by rewrite (IH (pre ++ [x])). }
  exact (G p [] bytes true H).
Qed.

(** * Scanning *)

(** The hit of [sig] at [off]. *)
Definition hit (bytes : list byte) (sig : Signature) (off : Z) : Prop :=
  pattern sig <> [] /\ 0 <= off /\ off + len (pattern sig) <= len bytes /\
  fits (drop (Z.to_nat off) bytes) (pattern sig) = true.

Definition hits_of (bytes : list byte) (base : Z) (sig : Signature) : list Match :=
  if bool_decide (pattern sig = []) || (len bytes <? len (pattern sig)) then []
  else
    (fun off => {| m_addr := base + off; m_name := s_name sig |}) <$>
      base.filter (fun off => fits (drop (Z.to_nat off) bytes) (pattern sig) = true)
        (seqZ 0 (len bytes - len (pattern sig) + 1)).

Lemma scan_offsets_ok bytes base sig offs : forall acc,
  base + len bytes <= 2 ^ 64 -> Forall (fun off => 0 <= off < len bytes) offs ->
  foldM (scan_offset bytes base sig) acc offs =
  Ok (acc ++ ((fun off => {| m_addr := base + off; m_name := s_name sig |}) <$>
       base.filter (fun off => fits (drop (Z.to_nat off) bytes) (pattern sig) = true) offs)).
Proof.
  induction offs as [|off offs IH]; intros acc Hb Ho; [by rewrite app_nil_r|].
  inversion_clear Ho as [|? ? H Ho']. cbn [foldM]. rewrite filter_cons.
  assert (scan_offset bytes base sig acc off =
    Ok (if fits (drop (Z.to_nat off) bytes) (pattern sig)
        then acc ++ [{| m_addr := base + off; m_name := s_name sig |}] else acc)) as ->.
  { unfold scan_offset. rewrite (slice_ok bytes off) by lia. cbn [mbind res_bind].
    assert (sub bytes off (len bytes) = drop (Z.to_nat off) bytes) as ->
      by (unfold sub; apply take_ge; rewrite length_drop; unfold len; lia).
    rewrite pattern_matches_at_fits. cbn [mbind res_bind].
    destruct (fits _ _); [|done]. unfold usize_add.
    by replace (base + off <? 2 ^ 64) with true by lia. }
  cbn [mbind res_bind]. rewrite IH by done. destruct (fits _ _).
  - rewrite decide_True by done. by rewrite <- (assoc_L (++)).
  - by rewrite decide_False by done.
Qed.

Lemma scan_sigs_ok bytes base db : forall acc, base + len bytes <= 2 ^ 64 ->
  foldM (scan_sig bytes base) acc db = Ok (acc ++ List.concat (map (hits_of bytes base) db)).
Proof.
  induction db as [|sig db IH]; intros acc Hb; [by rewrite app_nil_r|].
  cbn [foldM map List.concat].
  assert (scan_sig bytes base acc sig = Ok (acc ++ hits_of bytes base sig)) as ->.
  { unfold scan_sig, hits_of.
    destruct (bool_decide_reflect (pattern sig = [])) as [Hp|Hp]; [by rewrite app_nil_r|].
    destruct (Z.ltb_spec (len bytes) (len (pattern sig))) as [Hl|Hl]; [by rewrite app_nil_r|].
    cbn [orb]. apply scan_offsets_ok; [done|].
    apply Forall_forall. intros off Hoff. apply elem_of_seqZ in Hoff.
    assert (0 < len (pattern sig)) by (unfold len; destruct (pattern sig); [done|simpl; lia]). lia. }
  cbn [mbind res_bind]. rewrite IH by done. by rewrite <- (assoc_L (++)).
Qed.

Lemma elem_of_hits bytes base sig m : m ∈ hits_of bytes base sig <->
  exists off, hit bytes sig off /\ m = {| m_addr := base + off; m_name := s_name sig |}.
Proof.
  unfold hits_of, hit. destruct (bool_decide_reflect (pattern sig = [])) as [Hp|Hp]; cbn [orb].
  { rewrite elem_of_nil. split; [done|]. by intros (? & (? & _) & _). }
  destruct (Z.ltb_spec (len bytes) (len (pattern sig))) as [Hl|Hl].
  { rewrite elem_of_nil. split; [done|]. intros (? & (? & ? & ? & _) & _). lia. }
  rewrite list_elem_of_fmap. split.
  - intros (off & -> & Hoff). apply list_elem_of_filter in Hoff as [Hf Hs].
    apply elem_of_seqZ in Hs. exists off. split_and!; try done; lia.
  - intros (off & (_ & H1 & H2 & H3) & ->). exists off. split; [done|].
    apply list_elem_of_filter. split; [done|]. apply elem_of_seqZ. lia.
Qed.

(** C40: scanning is exact and does not panic on data inside the address
    space: the result, in ascending address order, holds one match per hit of
    each non-empty pattern of the database, and nothing else. *)
Theorem scan_exact (bytes : list byte) (base : Z) (db : list Signature) :
  base + len bytes <= 2 ^ 64 ->
  exists l, scan bytes base db = Ok l /\
    StronglySorted (fun a b => m_addr a <= m_addr b) l /\
    l ≡ₚ List.concat (map (hits_of bytes base) db) /\
    forall m, m ∈ l <-> exists sig off, In sig db /\ hit bytes sig off /\
                          m = {| m_addr := base + off; m_name := s_name sig |}.
Proof.
  intros Hb. unfold scan. rewrite scan_sigs_ok by done. cbn [mbind res_bind app].
  eexists. split; [done|]. split; [apply sort_by_key_sorted|]. split; [apply sort_by_key_perm|].
  intros m. rewrite (sort_by_key_perm m_addr), list_elem_of_In, List.in_concat.
  split.
  - intros (l & Hl & Hm). apply List.in_map_iff in Hl as (sig & <- & Hs).
    apply list_elem_of_In, elem_of_hits in Hm as (off & ? & ?). eauto.
  - intros (sig & off & Hs & Hh & ->). exists (hits_of bytes base sig).
    split; [by apply List.in_map|]. apply list_elem_of_In, elem_of_hits. eauto.
Qed.

(** An [endbr64; jmp] and zeros. *)
Definition frame : list byte := byte_of <$> [0x90; 0xf3; 0x0f; 0x1e; 0xfa; 0xe9; 1; 2; 3; 4].

Lemma scan_exact_witness :
  exists l, scan frame 0x1000 CRT_HELPERS_X86_64 = Ok l /\
    {| m_addr := 0x1001; m_name := str "frame_dummy" |} ∈ l.
Proof.
  destruct (scan_exact frame 0x1000 CRT_HELPERS_X86_64) as (l & Hl & _ & _ & Hm);
    [vm_compute; discriminate|].
  exists l. split; [exact Hl|]. apply Hm.
  exists (nth 3 CRT_HELPERS_X86_64 {| s_name := []; pattern := [] |}), 1.
  split; [cbn; tauto|]. split; [|reflexivity].
  unfold hit. split; [discriminate|]. split; [lia|]. split; [vm_compute; discriminate|].
  vm_compute. reflexivity.
Defined.

(** Two patterns that no bytes fit both. *)
Fixpoint clash (p q : list PatternByte) : bool :=
  match p, q with
  | Exact a :: p', Exact b :: q' => negb (a =? b) || clash p' q'
  | _ :: p', _ :: q' => clash p' q'
  | _, _ => false
  end.

Lemma clash_fits p : forall q bytes, clash p q = true -> fits bytes p = true -> fits bytes q = true -> False.
Proof.
  induction p as [|a p IH]; intros [|b q] [|x bytes] Hc Hp Hq; cbn in *;
    try done; try (by destruct a); try (by destruct b).
  destruct a as [a|], b as [b|]; rewrite ?andb_true_iff, ?orb_true_iff in *; cbn in *.
  - destruct Hc as [Hc|Hc]; [lia|]. eapply IH; [done|apply Hp|apply Hq].
  - eapply IH; [done|apply Hp|apply Hq].
  - eapply IH; [done|apply Hp|apply Hq].
  - eapply IH; [done|apply Hp|apply Hq].
Qed.

Definition all_clash (db : list Signature) : bool :=
  forallb (fun s => forallb (fun t => str_eqb (s_name s) (s_name t) || clash (pattern s) (pattern t)) db) db.

(** The CRT database is unambiguous: whatever the bytes, a scan with it
    names an address at most once. *)
Theorem crt_unambiguous (bytes : list byte) (base : Z) :
  base + len bytes <= 2 ^ 64 ->
  exists l, scan bytes base CRT_HELPERS_X86_64 = Ok l /\
    forall m n, m ∈ l -> n ∈ l -> m_addr m = m_addr n -> m = n.
Proof.
  intros Hb. unfold scan. rewrite scan_sigs_ok by done. cbn [mbind res_bind app].
  eexists. split; [done|].
  assert (forall m, m ∈ sort_by_key m_addr (List.concat (map (hits_of bytes base) CRT_HELPERS_X86_64)) ->
    exists sig off, In sig CRT_HELPERS_X86_64 /\ hit bytes sig off /\
      m = {| m_addr := base + off; m_name := s_name sig |}) as G.
  { intros m. rewrite (sort_by_key_perm m_addr), list_elem_of_In, List.in_concat.
    intros (l & Hl & Hm). apply List.in_map_iff in Hl as (sig & <- & Hs).
    apply list_elem_of_In, elem_of_hits in Hm as (off & ? & ?). eauto. }
  intros m n Hm Hn. apply G in Hm as (s & o & Hs & (_ & _ & _ & Hf) & ->).
  apply G in Hn as (t & o' & Ht & (_ & _ & _ & Hf') & ->). cbn [m_addr]. intros E.
  assert (o = o') as <- by lia. f_equal.
  assert (all_clash CRT_HELPERS_X86_64 = true) as Hc by (vm_compute; reflexivity).
  unfold all_clash in Hc. rewrite List.forallb_forall in Hc. specialize (Hc s Hs).
  cbv beta in Hc. rewrite List.forallb_forall in Hc. specialize (Hc t Ht). cbv beta in Hc.
  apply orb_true_iff in Hc as [Hc|Hc]; [by apply bool_decide_eq_true in Hc|].
  exfalso. by eapply clash_fits.
Qed.

Lemma crt_unambiguous_witness :
  exists l, scan frame 0x1000 CRT_HELPERS_X86_64 = Ok l /\
    forall m n, m ∈ l -> n ∈ l -> m_addr m = m_addr n -> m = n.
Proof. apply crt_unambiguous. vm_compute. discriminate. Defined.
