(* ===== verification/Mmu.v ===== *)
(** The emulator's memory (src/src/emulator/emulator/mmu.rs): a 4 GiB address
    space of 4 KiB pages with permissions, the write coverage
    (src/src/emulator/coverage.rs) and the watchpoint log the stores feed. The
    default build is modelled: the [trace] feature off, and without the debug
    print [put_byte] makes when an environment variable is set. *)

From S2P Require Import Prelude.

(** * Traps (emulator/mod.rs) *)

Inductive Trap : Type :=
| MemoryFault (addr : Z)
| ReadProtectFault (addr : Z)
| WriteProtectFault (addr : Z)
| ExecuteProtectFault (addr : Z)
| UndefinedOpcode (eip opcode : Z)
| PrivilegedOpcode (eip : Z) (mnemonic : list byte)
| SoftwareInterrupt (num eip : Z)
| Syscall (pc : Z)
| DivideByZero (eip : Z)
| UnresolvedImport (dll name : list byte)
| InstructionLimitExceeded (eip count : Z)
| UnimplementedMmx (eip opcode : Z) (mnemonic_hint : list byte).

(** * Permissions *)

Definition Perm : Type := Z.
Definition perm_R : Perm := 1.
Definition perm_W : Perm := 2.
Definition perm_X : Perm := 4.
Definition perm_or (a b : Perm) : Perm := Z.lor a b.
Definition perm_from_bits (bits : Z) : Perm := Z.land bits 7.
Definition perm_contains (a b : Perm) : bool := Z.land a b =? b.

(** * Coverage (coverage.rs) *)

Record CoverageMap : Type := { executed : gset Z; writes : gmap Z Z }.

Definition coverage_new : CoverageMap := {| executed := ∅; writes := ∅ |}.
Definition record_exec (eip : Z) (c : CoverageMap) : CoverageMap :=
  {| executed := {[eip]} ∪ executed c; writes := writes c |}.

(** One iteration of [record_write]: [entry(target).or_insert(size_u8)], then
    the maximum. *)
Definition record_byte (size_u8 : Z) (w : gmap Z Z) (target : Z) : gmap Z Z :=
  let slot := default size_u8 (w !! target) in
  <[target := if slot <? size_u8 then size_u8 else slot]> w.

Definition record_write (a size : Z) (c : CoverageMap) : CoverageMap :=
  let size_u8 := Z.max (Z.min size 8) 1 in
  {| executed := executed c;
     writes := fold_left (fun w off => record_byte size_u8 w (wrap32 (a + off)))
                 (seqZ 0 size) (writes c) |}.

Definition is_self_modifying (a : Z) (c : CoverageMap) : bool :=
  bool_decide (is_Some (writes c !! a)) && bool_decide (a ∈ executed c).

(** * The address space *)

Definition PAGE_SIZE : Z := 0x1000.
Definition NUM_PAGES : Z := 2 ^ 20.
Definition PAGE_MASK : Z := PAGE_SIZE - 1.
Definition PAGE_SHIFT : Z := 12.
Definition DEFAULT_WATCH_LIMIT : Z := 1000000.

Record Page : Type := { p_bytes : list byte; p_perm : Perm }.

Definition zeroed (perm : Perm) : Page :=
  {| p_bytes := replicate (Z.to_nat PAGE_SIZE) (byte_of 0); p_perm := perm |}.

Record WatchEvent : Type := {
  w_seq : Z;
  w_addr : Z;
  w_width : Z;
  w_value : Z;
  w_eip : Z;
}.

(** The vector of [Option<Page>] is the map of the mapped page indices. *)
Record Mmu : Type := {
  pages : gmap Z Page;
  coverage : CoverageMap;
  dbg_eip : Z;
  watches : list (Z * Z);
  watch_log : list WatchEvent;
  watch_limit : Z;
  watch_seq : Z;
  watch_dropped : Z;
}.

Definition new : Mmu :=
  {| pages := ∅; coverage := coverage_new; dbg_eip := 0; watches := []; watch_log := [];
     watch_limit := DEFAULT_WATCH_LIMIT; watch_seq := 0; watch_dropped := 0 |}.

Definition fork_copy (m : Mmu) : Mmu :=
  {| pages := pages m; coverage := coverage_new; dbg_eip := dbg_eip m; watches := watches m;
     watch_log := []; watch_limit := watch_limit m; watch_seq := 0; watch_dropped := 0 |}.

Definition with_pages (m : Mmu) (p : gmap Z Page) : Mmu :=
  {| pages := p; coverage := coverage m; dbg_eip := dbg_eip m; watches := watches m;
     watch_log := watch_log m; watch_limit := watch_limit m; watch_seq := watch_seq m;
     watch_dropped := watch_dropped m |}.

Definition with_coverage (m : Mmu) (c : CoverageMap) : Mmu :=
  {| pages := pages m; coverage := c; dbg_eip := dbg_eip m; watches := watches m;
     watch_log := watch_log m; watch_limit := watch_limit m; watch_seq := watch_seq m;
     watch_dropped := watch_dropped m |}.

Definition with_watch (m : Mmu) (ws : list (Z * Z)) (log : list WatchEvent)
    (limit seq dropped : Z) : Mmu :=
  {| pages := pages m; coverage := coverage m; dbg_eip := dbg_eip m; watches := ws;
     watch_log := log; watch_limit := limit; watch_seq := seq; watch_dropped := dropped |}.

Definition page_index (a : Z) : Z := Z.shiftr a PAGE_SHIFT.
Definition page_offset (a : Z) : Z := Z.land a PAGE_MASK.

(** * State and traps

    A method with [&mut self] and a [Result<_, Trap>]: it returns the new
    state also when it fails, since what was stored before the fault stays. *)
Definition St (A : Type) : Type := Mmu -> Mmu * res Trap A.

#[export] Instance st_ret : MRet St := fun A a m => (m, Ok a).
#[export] Instance st_bind : MBind St := fun A B f c m =>
  match c m with
  | (m', Ok a) => f a m'
  | (m', Err e) => (m', Err e)
  | (m', Panic) => (m', Panic)
  end.

Definition modify (f : Mmu -> Mmu) : St unit := fun m => (f m, Ok tt).

(** [for x in l { f(x)?; }]. *)
Fixpoint for_each {A} (f : A -> St unit) (l : list A) : St unit :=
  match l with
  | [] => mret tt
  | x :: l' => f x ;; for_each f l'
  end.

(** * Watchpoints *)

Definition add_watch (start len : Z) (m : Mmu) : Mmu :=
  if negb (len =? 0) then
    with_watch m (watches m ++ [(start, wrap32 (start + len))]) (watch_log m) (watch_limit m)
      (watch_seq m) (watch_dropped m)
  else m.

Definition set_watch_limit (limit : Z) (m : Mmu) : Mmu :=
  with_watch m (watches m) (watch_log m) limit (watch_seq m) (watch_dropped m).

Definition has_watches (m : Mmu) : bool := negb (bool_decide (watches m = [])).

Definition clear_watches (m : Mmu) : Mmu := with_watch m [] [] (watch_limit m) 0 0.

(** The counters are [u64]: counting past the end panics. *)
Definition note_watch (a width value : Z) : St unit := fun m =>
  if bool_decide (watches m = []) then (m, Ok tt)
  else
    let fin := wrap32 (a + width) in
    if existsb (fun '(s, e) => (a <? e) && (s <? fin)) (watches m) then
      match usize_add (E:=Trap) (watch_seq m) 1 with
      | Ok seq =>
          if len (watch_log m) <? watch_limit m then
            let ev := {| w_seq := seq; w_addr := a; w_width := width; w_value := value;
                         w_eip := dbg_eip m |} in
            (with_watch m (watches m) (watch_log m ++ [ev]) (watch_limit m) seq (watch_dropped m),
             Ok tt)
          else
            match usize_add (E:=Trap) (watch_dropped m) 1 with
            | Ok dropped =>
                (with_watch m (watches m) (watch_log m) (watch_limit m) seq dropped, Ok tt)
            | _ => (with_watch m (watches m) (watch_log m) (watch_limit m) seq (watch_dropped m), Panic)
            end
      | _ => (m, Panic)
      end
    else (m, Ok tt).

(** * Mapping *)

(** The pages [start_page..end_page) of a range. *)
Definition end_page (a size : Z) : Z :=
  Z.min ((a + size + PAGE_SIZE - 1) / PAGE_SIZE) NUM_PAGES.
Definition page_range (a size : Z) : list Z :=
  seqZ (page_index a) (end_page a size - page_index a).

Definition map_page (perm : Perm) (ps : gmap Z Page) (p : Z) : gmap Z Page :=
  match ps !! p with
  | Some page => <[p := {| p_bytes := p_bytes page; p_perm := perm |}]> ps
  | None => <[p := zeroed perm]> ps
  end.

Definition map (a size : Z) (perm : Perm) (m : Mmu) : Mmu :=
  if size =? 0 then m
  else with_pages m (fold_left (map_page perm) (page_range a size) (pages m)).

Definition map_zeroed (a size : Z) (perm : Perm) (m : Mmu) : Mmu :=
  if size =? 0 then m
  else with_pages m (fold_left (fun ps p => <[p := zeroed perm]> ps) (page_range a size) (pages m)).

Definition unmap (a size : Z) (m : Mmu) : Mmu :=
  if size =? 0 then m
  else with_pages m (fold_left (fun ps p => delete p ps) (page_range a size) (pages m)).

Definition mapped (m : Mmu) (p : Z) : bool := bool_decide (is_Some (pages m !! p)).
Definition is_mapped (m : Mmu) (a : Z) : bool := mapped m (page_index a).

Definition region_is_unmapped (m : Mmu) (a size : Z) : bool :=
  if size =? 0 then true
  else
    let first := page_index a in
    let last_byte := wrap32 (a + (size - 1)) in
    let last := page_index last_byte in
    forallb (fun p => negb (mapped m p)) (seqZ first (last + 1 - first)).

Definition perm_at (m : Mmu) (a : Z) : option Perm := p_perm <$> pages m !! page_index a.

(** Panics on an unmapped page. *)
Definition set_perm (a : Z) (perm : Perm) : St unit := fun m =>
  match pages m !! page_index a with
  | Some page =>
      (with_pages m (<[page_index a := {| p_bytes := p_bytes page; p_perm := perm |}]> (pages m)),
       Ok tt)
  | None => (m, Panic)
  end.

(** One page of the scan of [regions]; the state is [(out, cur)]. *)
Definition region_step (m : Mmu) (st : list (Z * Z * Perm) * option (Z * Perm)) (i : Z)
    : list (Z * Z * Perm) * option (Z * Perm) :=
  let '(out, cur) := st in
  let a := Z.shiftl i PAGE_SHIFT in
  let here := p_perm <$> pages m !! i in
  match cur, here with
  | Some (start, perm), Some p =>
      if p =? perm then st else (out ++ [(start, a, perm)], Some (a, p))
  | Some (start, perm), None => (out ++ [(start, a, perm)], None)
  | None, Some p => (out, Some (a, p))
  | None, None => st
  end.

Definition regions_upto (m : Mmu) (n : Z) : list (Z * Z * Perm) :=
  let '(out, cur) := fold_left (region_step m) (seqZ 0 n) ([], None) in
  match cur with
  | Some (start, perm) => out ++ [(start, Z.shiftl n PAGE_SHIFT, perm)]
  | None => out
  end.

Definition regions (m : Mmu) : list (Z * Z * Perm) := regions_upto m NUM_PAGES.

(** [while p < hi && ...] and [while q < end && ...]: the first index from [p]
    that is not ([want = true]) or is ([want = false]) mapped, or [hi]. *)
Fixpoint skip_while (fuel : nat) (m : Mmu) (want : bool) (p hi : Z) : Z :=
  match fuel with
  | O => p
  | S f => if (p <? hi) && Bool.eqb (mapped m p) want then skip_while f m want (p + 1) hi else p
  end.

(** The outer loop of [find_free_range]; every turn moves [p] forward. *)
Fixpoint free_loop (fuel : nat) (m : Mmu) (need_pages hi_page p : Z) : option Z :=
  match fuel with
  | O => None
  | S f =>
      if p + need_pages <=? hi_page then
        let p := skip_while (Z.to_nat (hi_page - p)) m true p hi_page in
        if hi_page <? p + need_pages then None
        else
          let fin := p + need_pages in
          let q := skip_while (Z.to_nat (fin - p)) m false p fin in
          if q =? fin then Some (wrap32 (Z.shiftl p PAGE_SHIFT))
          else free_loop f m need_pages hi_page (q + 1)
      else None
  end.

Definition find_free_range (m : Mmu) (lo hi size : Z) : option Z :=
  if size =? 0 then Some lo
  else
    let need_pages := (size + PAGE_SIZE - 1) / PAGE_SIZE in
    let lo_page := page_index lo in
    let hi_page := page_index hi in
    if hi_page <? lo_page + need_pages then None
    else free_loop (S (Z.to_nat (hi_page - lo_page))) m need_pages hi_page lo_page.

(** * Bytes *)

Definition byte_of_page (page : Page) (a : Z) : byte :=
  nth (Z.to_nat (page_offset a)) (p_bytes page) (byte_of 0).

Definition fetch_byte (m : Mmu) (a : Z) : res Trap byte :=
  page ← ok_or (pages m !! page_index a) (MemoryFault a);
  if negb (perm_contains (p_perm page) perm_R) then Err (ReadProtectFault a)
  else Ok (byte_of_page page a).

Definition fetch_x8 (m : Mmu) (a : Z) : res Trap byte :=
  page ← ok_or (pages m !! page_index a) (MemoryFault a);
  if negb (perm_contains (p_perm page) perm_X) then Err (ExecuteProtectFault a)
  else Ok (byte_of_page page a).

(** [page.bytes[off] = value]. *)
Definition poke (a : Z) (value : byte) (page : Page) (m : Mmu) : Mmu :=
  with_pages m (<[page_index a :=
    {| p_bytes := <[Z.to_nat (page_offset a) := value]> (p_bytes page); p_perm := p_perm page |}]>
    (pages m)).

Definition put_byte (a : Z) (value : byte) : St unit := fun m =>
  match pages m !! page_index a with
  | None => (m, Err (MemoryFault a))
  | Some page =>
      if negb (perm_contains (p_perm page) perm_W) then (m, Err (WriteProtectFault a))
      else (poke a value page m, Ok tt)
  end.

Definition put_byte_raw (a : Z) (value : byte) : St unit := fun m =>
  match pages m !! page_index a with
  | None => (m, Err (MemoryFault a))
  | Some page => (poke a value page m, Ok tt)
  end.

(** * Loads *)

Definition load8 (m : Mmu) (a : Z) : res Trap Z := b ← fetch_byte m a; Ok (u8 b).

Definition load16 (m : Mmu) (a : Z) : res Trap Z :=
  b0 ← fetch_byte m a;
  b1 ← fetch_byte m (wrap32 (a + 1));
  Ok (from_le [b0; b1]).

Definition load32 (m : Mmu) (a : Z) : res Trap Z :=
  b0 ← fetch_byte m a;
  b1 ← fetch_byte m (wrap32 (a + 1));
  b2 ← fetch_byte m (wrap32 (a + 2));
  b3 ← fetch_byte m (wrap32 (a + 3));
  Ok (from_le [b0; b1; b2; b3]).

Definition load64 (m : Mmu) (a : Z) : res Trap Z :=
  lo ← load32 m a;
  hi ← load32 m (wrap32 (a + 4));
  Ok (Z.lor (Z.shiftl hi 32) lo).

(** * Stores *)

(** [self.coverage.record_write(addr, w); self.note_watch(addr, w, value)]. *)
Definition note_store (a width value : Z) : St unit :=
  modify (fun m => with_coverage m (record_write a width (coverage m))) ;;
  note_watch a width value.

Definition store8 (a value : Z) : St unit :=
  put_byte a (byte_of value) ;;
  note_store a 1 value.

(** [value.to_le_bytes()[k]]. *)
Definition le_byte (value : Z) (k : Z) : byte := byte_of (value / 256 ^ k).

Definition store16 (a value : Z) : St unit :=
  put_byte a (le_byte value 0) ;;
  put_byte (wrap32 (a + 1)) (le_byte value 1) ;;
  note_store a 2 value.

Definition store32 (a value : Z) : St unit :=
  put_byte a (le_byte value 0) ;;
  put_byte (wrap32 (a + 1)) (le_byte value 1) ;;
  put_byte (wrap32 (a + 2)) (le_byte value 2) ;;
  put_byte (wrap32 (a + 3)) (le_byte value 3) ;;
  note_store a 4 value.

(** Without the [trace] feature the two halves are plain [store32] calls. *)
Definition store64 (a value : Z) : St unit :=
  store32 a (wrap32 value) ;;
  store32 (wrap32 (a + 4)) (wrap32 (Z.shiftr value 32)) ;;
  note_store a 8 value.

Definition write (a : Z) (data : list byte) : St unit :=
  for_each (fun '(i, b) => store8 (wrap32 (a + i)) (u8 b)) (zip (seqZ 0 (len data)) data).

Definition write_initializer (a : Z) (data : list byte) : St unit :=
  for_each (fun '(i, b) => put_byte_raw (wrap32 (a + i)) b) (zip (seqZ 0 (len data)) data).

Definition read (m : Mmu) (a n : Z) : res Trap (list byte) :=
  mapM_res (fun i => b ← load8 m (wrap32 (a + i)); Ok (byte_of b)) (seqZ 0 n).
