(* ===== verification/MmuMemory.v ===== *)
(** Loads and stores of the emulator's memory, against an abstract memory of
    byte cells with permissions. *)

From S2P Require Import Prelude Mmu.

(** * The abstract memory *)

(** The cell at [a]: its byte and the permissions of its page. *)
Definition cell (m : Mmu) (a : Z) : option (byte * Perm) :=
  (fun page => (byte_of_page page a, p_perm page)) <$> pages m !! page_index a.

Definition mmu_wf (m : Mmu) : Prop :=
  forall p page, pages m !! p = Some page ->
    0 <= p < NUM_PAGES /\ len (p_bytes page) = PAGE_SIZE.

Definition writable (m : Mmu) (a : Z) : Prop :=
  exists b p, cell m a = Some (b, p) /\ perm_contains p perm_W = true.
Definition readable (m : Mmu) (a : Z) : Prop :=
  exists b p, cell m a = Some (b, p) /\ perm_contains p perm_R = true.

(** The trap a store raises on a cell it may not write. *)
Definition store_fault (m : Mmu) (a : Z) (t : Trap) : Prop :=
  (cell m a = None /\ t = MemoryFault a) \/
  (exists b p, cell m a = Some (b, p) /\ perm_contains p perm_W = false /\ t = WriteProtectFault a).

(** The cells after writing the bytes [l] from address [a], wrapping at the
    end of the address space. *)
Definition over (c : Z -> option (byte * Perm)) (a : Z) (l : list byte) (x : Z)
    : option (byte * Perm) :=
  (fun '(b, p) => (default b (l !! Z.to_nat (wrap32 (x - a))), p)) <$> c x.

Definition same_cells (m : Mmu) (c : Z -> option (byte * Perm)) : Prop :=
  forall x, in_range 32 x -> cell m x = c x.

Lemma page_split a : page_index a = a / 4096 /\ page_offset a = a mod 4096.
Proof.
  unfold page_index, page_offset, PAGE_SHIFT, PAGE_MASK, PAGE_SIZE. split.
  - by rewrite Z.shiftr_div_pow2 by lia.
  - change (0x1000 - 1) with (Z.ones 12). by rewrite Z.land_ones by lia.
Qed.

Lemma page_offset_range a : 0 <= page_offset a < PAGE_SIZE.
Proof. destruct (page_split a) as [_ ->]. apply Z.mod_pos_bound. done. Qed.

Lemma page_split_inj a b : page_index a = page_index b -> page_offset a = page_offset b -> a = b.
Proof.
  destruct (page_split a) as [-> ->], (page_split b) as [-> ->]. intros H1 H2.
  rewrite (Z.div_mod a 4096), (Z.div_mod b 4096) by lia. lia.
Qed.

Lemma wrap32_range x : in_range 32 (wrap32 x).
Proof. apply wrap_range. lia. Qed.

(** Offsets from two bases one apart. *)
Lemma wrap32_pred a x : in_range 32 x -> in_range 32 a ->
  (x = a /\ wrap32 (x - a) = 0 /\ wrap32 (x - wrap32 (a + 1)) = 2 ^ 32 - 1) \/
  (x <> a /\ 0 < wrap32 (x - a) /\ wrap32 (x - a) = wrap32 (x - wrap32 (a + 1)) + 1).
Proof.
  intros Hx Ha. unfold in_range, wrap in *. rewrite Zminus_mod_idemp_r.
  destruct (decide (x = a)) as [->|Hne].
  - left. rewrite Z.sub_diag. split_and!; [done|done|].
    replace (a - (a + 1)) with (2 ^ 32 - 1 + (-1) * 2 ^ 32) by lia.
    by rewrite Z_mod_plus_full.
  - right. split; [done|].
    assert (forall y, - 2 ^ 32 <= y < 2 ^ 32 -> y mod 2 ^ 32 = if y <? 0 then y + 2 ^ 32 else y) as Hm.
    { intros y Hy. destruct (Z.ltb_spec y 0); [|apply Z.mod_small; lia].
      rewrite <- (Z_mod_plus_full y 1). apply Z.mod_small. lia. }
    rewrite !Hm by lia. destruct (Z.ltb_spec (x - a) 0), (Z.ltb_spec (x - (a + 1)) 0); lia.
Qed.

Lemma over_nil c a x : over c a [] x = c x.
Proof. unfold over. destruct (c x) as [[b p]|]; done. Qed.

Lemma over_cons c a b l x : in_range 32 x -> in_range 32 a -> len l < 2 ^ 32 - 1 ->
  over (over c a [b]) (wrap32 (a + 1)) l x = over c a (b :: l) x.
Proof.
  intros Hx Ha Hl. unfold over. destruct (c x) as [[y p]|]; [|done]. cbn [fmap option_fmap option_map].
  do 2 f_equal. destruct (wrap32_pred a x Hx Ha) as [(-> & E1 & E2)|(Hne & E1 & E2)].
  - rewrite E1, E2. rewrite (lookup_ge_None_2 l) by (unfold len in Hl; lia). done.
  - pose proof (wrap32_range (x - wrap32 (a + 1))) as Hr. unfold in_range in Hr.
    rewrite E2. replace (Z.to_nat (wrap32 (x - wrap32 (a + 1)) + 1))
      with (S (Z.to_nat (wrap32 (x - wrap32 (a + 1))))) by lia. done.
Qed.

(** * Stores of byte lists *)

(** What a store may change besides the cells: the counters of the watch log. *)
Definition room (n : Z) (m : Mmu) : Prop :=
  watch_seq m + n < 2 ^ 64 /\ 0 <= watch_dropped m <= watch_seq m.

(** [f] writes the bytes [l] from [a], one after the other, up to the first
    cell it may not write; it logs at most [n] events. *)
Definition stores (n : Z) (f : St unit) (a : Z) (l : list byte) : Prop :=
  forall m c, mmu_wf m -> room (n + c) m -> 0 <= c ->
  match f m with
  | (m', Ok _) =>
      mmu_wf m' /\ room c m' /\ same_cells m' (over (cell m) a l) /\
      forall k, 0 <= k < len l -> writable m (wrap32 (a + k))
  | (m', Err t) =>
      mmu_wf m' /\ exists k, 0 <= k < len l /\ store_fault m (wrap32 (a + k)) t /\
        (forall j, 0 <= j < k -> writable m (wrap32 (a + j))) /\
        same_cells m' (over (cell m) a (take (Z.to_nat k) l))
  | (_, Panic) => False
  end.

Lemma poke_cell m a v page : mmu_wf m -> in_range 32 a -> pages m !! page_index a = Some page ->
  mmu_wf (poke a v page m) /\ same_cells (poke a v page m) (over (cell m) a [v]).
Proof.
  intros Hwf Ha Hp. pose proof (Hwf _ _ Hp) as [Hr Hl]. split.
  - intros q pg. unfold poke. cbn [pages with_pages]. rewrite lookup_insert_Some.
    intros [[<- <-]|[_ H]]; [|by apply Hwf]. cbn [p_bytes]. unfold len in *. by rewrite length_insert.
  - intros x Hx. unfold over, cell, poke. cbn [pages with_pages].
    destruct (decide (page_index a = page_index x)) as [E|E].
    + rewrite <- E, lookup_insert_eq, Hp. cbn [fmap option_fmap option_map p_perm]. do 2 f_equal.
      unfold byte_of_page. cbn [p_bytes]. rewrite !nth_lookup.
      pose proof (page_offset_range a) as Hoa.
      destruct (wrap32_pred a x Hx Ha) as [(-> & E1 & _)|(Hne & E1 & _)].
      * rewrite E1. simpl lookup. cbn [default from_option id].
        rewrite list_lookup_insert_eq; [done|]. unfold len in Hl. lia.
      * rewrite (lookup_ge_None_2 [v]) by (simpl; lia). cbn [default from_option id].
        rewrite list_lookup_insert_ne; [done|]. pose proof (page_offset_range x).
        intros Eo. apply Hne. symmetry. apply page_split_inj; [done|lia].
    + rewrite lookup_insert_ne by done.
      destruct (pages m !! page_index x) as [pg|]; [|done]. cbn [fmap option_fmap option_map].
      do 2 f_equal. destruct (wrap32_pred a x Hx Ha) as [(-> & _)|(Hne & E1 & _)]; [done|].
      by rewrite (lookup_ge_None_2 [v]) by (simpl; lia).
Qed.

Lemma put_byte_stores a v : in_range 32 a -> stores 0 (put_byte a v) a [v].
Proof.
  intros Ha m c Hwf Hroom Hc. unfold put_byte.
  assert (forall k, 0 <= k < len [v] -> wrap32 (a + k) = a) as Hk.
  { intros k Hk. unfold len in Hk. simpl in Hk. replace (a + k) with a by lia. by apply wrap_small. }
  destruct (pages m !! page_index a) as [page|] eqn:Ep; cycle 1.
  { split; [done|]. exists 0. rewrite Hk by done. split_and!; [done|done| |lia|].
    - left. unfold cell. by rewrite Ep.
    - intros x _. by rewrite over_nil. }
  assert (cell m a = Some (byte_of_page page a, p_perm page)) as Hcell by (unfold cell; by rewrite Ep).
  destruct (perm_contains (p_perm page) perm_W) eqn:Ew; cbn [negb].
  - destruct (poke_cell m a v page Hwf Ha Ep) as [H1 H2]. split_and!; [done|done|done|].
    intros k Hk'. rewrite Hk by done. by eexists _, _.
  - split; [done|]. exists 0. rewrite Hk by done. split_and!; [done|done| |lia|].
    + right. by eexists _, _.
    + intros x _. by rewrite over_nil.
Qed.

(** Sequencing two stores of adjacent bytes. *)
Lemma over_app c a l1 l2 x : in_range 32 x -> in_range 32 a -> len l1 + len l2 < 2 ^ 32 ->
  over (over c a l1) (wrap32 (a + len l1)) l2 x = over c a (l1 ++ l2) x.
Proof.
  intros Hx Ha Hl. unfold over. destruct (c x) as [[y p]|]; [|done]. cbn [fmap option_fmap option_map].
  do 2 f_equal. pose proof (len_nonneg l1). pose proof (len_nonneg l2).
  pose proof (wrap32_range (x - a)) as Hr. unfold in_range in Hr.
  assert (wrap32 (x - wrap32 (a + len l1)) =
          if wrap32 (x - a) <? len l1 then wrap32 (x - a) - len l1 + 2 ^ 32
          else wrap32 (x - a) - len l1) as ->.
  { unfold wrap. rewrite Zminus_mod_idemp_r.
    replace (x - (a + len l1)) with (x - a - len l1) by lia.
    rewrite <- Zminus_mod_idemp_l. unfold wrap in Hr. set (d := (x - a) mod 2 ^ 32) in *.
    destruct (Z.ltb_spec d (len l1)); [|apply Z.mod_small; lia].
    rewrite <- (Z_mod_plus_full _ 1), Z.mod_small; lia. }
  unfold len in *. destruct (Z.ltb_spec (wrap32 (x - a)) (Z.of_nat (length l1))).
  - rewrite lookup_app_l by lia. rewrite (lookup_ge_None_2 l2) by lia. done.
  - rewrite lookup_app_r by lia. rewrite (lookup_ge_None_2 l1) by lia. cbn [default from_option id].
    do 2 f_equal. lia.
Qed.

Lemma writable_over m m' a l x : in_range 32 x -> same_cells m' (over (cell m) a l) ->
  writable m' x -> writable m x.
Proof.
  intros Hx Hs (b & p & E & Hw). rewrite Hs in E by done. unfold over in E.
  apply fmap_Some in E as ([b' p'] & E & E'). exists b', p'. injection E' as _ ->. done.
Qed.

Lemma store_fault_over m m' a l x t : in_range 32 x -> same_cells m' (over (cell m) a l) ->
  store_fault m' x t -> store_fault m x t.
Proof.
  intros Hx Hs [[E ->]|(b & p & E & Hw & ->)]; rewrite Hs in E by done; unfold over in E.
  - left. by apply fmap_None in E.
  - right. apply fmap_Some in E as ([b' p'] & E & E'). exists b', p'. injection E' as _ ->. done.
Qed.

Lemma same_cells_over m m' m'' a l1 l2 : in_range 32 a -> len l1 + len l2 < 2 ^ 32 ->
  same_cells m' (over (cell m) a l1) ->
  same_cells m'' (over (cell m') (wrap32 (a + len l1)) l2) ->
  same_cells m'' (over (cell m) a (l1 ++ l2)).
Proof.
  intros Ha Hl H1 H2 x Hx. rewrite H2 by done. unfold over at 1. rewrite H1 by done.
  fold (over (over (cell m) a l1) (wrap32 (a + len l1)) l2 x). by apply over_app.
Qed.

Lemma stores_seq n1 n2 f g a l1 l2 : in_range 32 a -> len l1 + len l2 < 2 ^ 32 ->
  0 <= n1 -> 0 <= n2 ->
  stores n1 f a l1 -> stores n2 g (wrap32 (a + len l1)) l2 ->
  stores (n1 + n2) (f ;; g) a (l1 ++ l2).
Proof.
  intros Ha Hl Hn1 Hn2 Hf Hg m c Hwf Hroom Hc. unfold mbind, st_bind.
  pose proof (len_nonneg l1). pose proof (len_nonneg l2).
  specialize (Hf m (n2 + c) Hwf ltac:(by rewrite Z.add_assoc) ltac:(lia)).
  assert (forall k, wrap32 (wrap32 (a + len l1) + k) = wrap32 (a + (len l1 + k))) as Hw.
  { intros k. unfold wrap. rewrite Zplus_mod_idemp_l. f_equal. lia. }
  destruct (f m) as [m1 [u|t|]]; [|clear Hg|done].
  - destruct Hf as (Hwf1 & Hroom1 & Hc1 & Hw1).
    specialize (Hg m1 c Hwf1 Hroom1 Hc). destruct (g m1) as [m2 [u2|t2|]]; [| |done].
    + destruct Hg as (Hwf2 & Hroom2 & Hc2 & Hw2). split_and!; [done|done| |].
      * by eapply same_cells_over.
      * intros k Hk. rewrite len_app in Hk. destruct (decide (k < len l1)); [apply Hw1; lia|].
        apply (writable_over m m1 a l1); [apply wrap32_range|done|].
        replace (a + k) with (a + (len l1 + (k - len l1))) by lia. rewrite <- Hw. apply Hw2. lia.
    + destruct Hg as (Hwf2 & k & Hk & Hflt & Hj & Hc2). split; [done|]. exists (len l1 + k).
      rewrite len_app. split_and!; [lia|lia| | |].
      * apply (store_fault_over m m1 a l1); [apply wrap32_range|done|]. by rewrite <- Hw.
      * intros j Hj'. destruct (decide (j < len l1)); [apply Hw1; lia|].
        apply (writable_over m m1 a l1); [apply wrap32_range|done|].
        replace (a + j) with (a + (len l1 + (j - len l1))) by lia. rewrite <- Hw. apply Hj. lia.
      * replace (take (Z.to_nat (len l1 + k)) (l1 ++ l2)) with (l1 ++ take (Z.to_nat k) l2).
        { eapply same_cells_over; [done| |done|done].
          unfold len in *. rewrite length_take. lia. }
        unfold len. rewrite take_app_ge by lia. f_equal. f_equal. lia.
  - destruct Hf as (Hwf1 & k & Hk & Hflt & Hj & Hc1). split; [done|]. exists k.
    rewrite len_app. split_and!; [lia|lia|done|done|].
    unfold len in *. by rewrite take_app_le by lia.
Qed.

(** Recording a store leaves the cells alone. *)
Lemma note_store_stores a w v b : stores 1 (note_store a w v) b [].
Proof.
  intros m c Hwf [Hs Hd] Hc. unfold note_store, mbind, st_bind, modify, note_watch.
  assert (forall x, over (cell m) b [] x = cell m x) as Hnil by (intros; apply over_nil).
  cbn [watches with_coverage watch_seq watch_log watch_limit watch_dropped].
  destruct (bool_decide (watches m = [])).
  { split_and!; [done|split; cbn; lia|intros x _; by rewrite Hnil|]. intros k Hk. unfold len in Hk. simpl in Hk. lia. }
  destruct (existsb _ _); cycle 1.
  { split_and!; [done|split; cbn; lia|intros x _; by rewrite Hnil|]. intros k Hk. unfold len in Hk. simpl in Hk. lia. }
  unfold usize_add. replace (watch_seq m + 1 <? 2 ^ 64) with true by lia.
  destruct (len (watch_log m) <? watch_limit m).
  { split_and!; [done|split; cbn; lia|intros x _; by rewrite Hnil|]. intros k Hk. unfold len in Hk. simpl in Hk. lia. }
  replace (watch_dropped m + 1 <? 2 ^ 64) with true by lia.
  split_and!; [done|split; cbn; lia|intros x _; by rewrite Hnil|]. intros k Hk. unfold len in Hk. simpl in Hk. lia.
Qed.

Lemma wrap32_add a i j : wrap32 (wrap32 (a + i) + j) = wrap32 (a + (i + j)).
Proof. unfold wrap. rewrite Zplus_mod_idemp_l. f_equal. lia. Qed.

(** One byte, then the rest. *)
Lemma stores_cons n a i b g l : len l < 2 ^ 31 -> 0 <= n ->
  stores n g (wrap32 (a + (i + 1))) l ->
  stores n (put_byte (wrap32 (a + i)) b ;; g) (wrap32 (a + i)) (b :: l).
Proof.
  intros Hl Hn Hg. change (b :: l) with ([b] ++ l). rewrite <- (Z.add_0_l n).
  apply stores_seq; [apply wrap32_range|unfold len in *; simpl; lia|lia|lia| |].
  - apply put_byte_stores, wrap32_range.
  - change (len [b]) with 1. by rewrite wrap32_add.
Qed.

Lemma store8_stores a v : in_range 32 a -> stores 1 (store8 a v) a (to_le 1 v).
Proof.
  intros Ha. unfold store8. rewrite <- (wrap_small 32 a Ha). replace a with (a + 0) by lia.
  apply stores_cons; [done|lia|]. apply note_store_stores.
Qed.

Lemma le_bytes v : le_byte v 0 = byte_of v /\ le_byte v 1 = byte_of (v / 256) /\
  le_byte v 2 = byte_of (v / 256 / 256) /\ le_byte v 3 = byte_of (v / 256 / 256 / 256).
Proof.
  unfold le_byte. rewrite !Zdiv_Zdiv by lia. split_and!; try done.
  change (256 ^ 0) with 1. by rewrite Z.div_1_r.
Qed.

Lemma store16_stores a v : in_range 32 a -> stores 1 (store16 a v) a (to_le 2 v).
Proof.
  intros Ha. unfold store16. destruct (le_bytes v) as (-> & -> & _).
  pose proof (stores_cons 1 a 0 (byte_of v)) as H0. rewrite Z.add_0_r, (wrap_small 32 a Ha) in H0.
  apply H0; [done|lia|]. apply stores_cons; [done|lia|]. apply note_store_stores.
Qed.

Lemma store32_stores a v : in_range 32 a -> stores 1 (store32 a v) a (to_le 4 v).
Proof.
  intros Ha. unfold store32. destruct (le_bytes v) as (-> & -> & -> & ->).
  pose proof (stores_cons 1 a 0 (byte_of v)) as H0. rewrite Z.add_0_r, (wrap_small 32 a Ha) in H0.
  apply H0; [done|lia|]. do 3 (apply stores_cons; [done|lia|]). apply note_store_stores.
Qed.

Lemma to_le_split v : to_le 4 (wrap32 v) ++ to_le 4 (wrap32 (Z.shiftr v 32)) = to_le 8 v.
Proof.
  unfold wrap. rewrite !(to_le_wrap 4), Z.shiftr_div_pow2 by lia.
  change (2 ^ 32) with (256 * 256 * 256 * 256). cbn [to_le app]. rewrite <- !Zdiv_Zdiv by lia. done.
Qed.

Lemma store64_stores a v : in_range 32 a -> stores 3 (store64 a v) a (to_le 8 v).
Proof.
  intros Ha. unfold store64. rewrite <- to_le_split. change 3 with (1 + 2).
  apply stores_seq; [done|done|lia|lia|by apply store32_stores|].
  change (len (to_le 4 (wrap32 v))) with 4.
  rewrite <- (app_nil_r (to_le 4 (wrap32 (Z.shiftr v 32)))). change 2 with (1 + 1).
  apply stores_seq; [apply wrap32_range|done|lia|lia|apply store32_stores, wrap32_range|].
  apply note_store_stores.
Qed.

(** * Loads *)

(** The bytes of [n] cells from [a]; all of them readable. *)
Lemma fetch_cell m a b p : cell m a = Some (b, p) -> perm_contains p perm_R = true ->
  fetch_byte m a = Ok b.
Proof.
  unfold cell, fetch_byte. destruct (pages m !! page_index a) as [page|]; [|done].
  cbn [fmap option_fmap option_map]. intros [= <- <-] Hr. cbn [ok_or mbind res_bind]. by rewrite Hr.
Qed.

(** What the first cell of an overwritten range reads. *)
Lemma fetch_over m m' a l i b : same_cells m' (over (cell m) a l) -> in_range 32 a ->
  l !! i = Some b -> Z.of_nat i < 2 ^ 32 -> readable m (wrap32 (a + Z.of_nat i)) ->
  fetch_byte m' (wrap32 (a + Z.of_nat i)) = Ok b.
Proof.
  intros Hs Ha Hl Hi (y & p & E & Hr). eapply fetch_cell; [|exact Hr].
  rewrite Hs by apply wrap32_range. unfold over. rewrite E. cbn [fmap option_fmap option_map].
  do 2 f_equal. assert (wrap32 (wrap32 (a + Z.of_nat i) - a) = Z.of_nat i) as ->.
  { unfold wrap. rewrite Zminus_mod_idemp_l. replace (a + Z.of_nat i - a) with (Z.of_nat i) by lia.
    apply Z.mod_small. lia. }
  by rewrite Nat2Z.id, Hl.
Qed.

(** The operations by access width in bytes. *)
Definition store_n (n : Z) (a v : Z) : St unit :=
  if n =? 1 then store8 a v else if n =? 2 then store16 a v
  else if n =? 4 then store32 a v else store64 a v.
Definition load_n (n : Z) (m : Mmu) (a : Z) : res Trap Z :=
  if n =? 1 then load8 m a else if n =? 2 then load16 m a
  else if n =? 4 then load32 m a else load64 m a.

Definition widths : list Z := [1; 2; 4; 8].

Lemma load32_bytes m a b0 b1 b2 b3 :
  fetch_byte m a = Ok b0 -> fetch_byte m (wrap32 (a + 1)) = Ok b1 ->
  fetch_byte m (wrap32 (a + 2)) = Ok b2 -> fetch_byte m (wrap32 (a + 3)) = Ok b3 ->
  load32 m a = Ok (from_le [b0; b1; b2; b3]).
Proof. intros H0 H1 H2 H3. unfold load32. by rewrite H0, H1, H2, H3. Qed.

Lemma widths_bound n : In n widths -> 1 <= n <= 8.
Proof. intros Hn. repeat destruct Hn as [<-|Hn]; [lia..|destruct Hn]. Qed.

(** The bytes of a value of [n] bytes are the value. *)
Lemma from_le_value n v : In n widths -> in_range (8 * n) v -> from_le (to_le (Z.to_nat n) v) = v.
Proof.
  intros Hn Hv. pose proof (widths_bound n Hn). rewrite from_le_to_le. apply Z.mod_small.
  unfold in_range in Hv. rewrite Z2Nat.id by lia. change 256 with (2 ^ 8).
  by rewrite <- Z.pow_mul_r by lia.
Qed.

Lemma load_over n m m' a v : In n widths -> in_range (8 * n) v -> in_range 32 a ->
  same_cells m' (over (cell m) a (to_le (Z.to_nat n) v)) ->
  (forall k, 0 <= k < n -> readable m (wrap32 (a + k))) ->
  load_n n m' a = Ok v.
Proof.
  intros Hn Hv Ha Hs Hr. pose proof (from_le_value n v Hn Hv) as Hval.
  assert (forall k b, 0 <= k -> to_le (Z.to_nat n) v !! Z.to_nat k = Some b ->
            fetch_byte m' (wrap32 (a + k)) = Ok b) as Hf.
  { intros k b Hk Hi. pose proof (lookup_lt_Some _ _ _ Hi) as Hlt. rewrite length_to_le in Hlt.
    pose proof (widths_bound n Hn). replace k with (Z.of_nat (Z.to_nat k)) by lia.
    eapply fetch_over; [done|done|done|lia|]. apply Hr. lia. }
  pose proof (Hf 0 (byte_of v)) as H0. rewrite Z.add_0_r, (wrap_small 32 a Ha) in H0.
  repeat destruct Hn as [<-|Hn]; [| | | |destruct Hn]; unfold load_n; cbn [Z.eqb Pos.eqb].
  - unfold load8. rewrite H0 by done. cbn [mbind res_bind]. rewrite u8_byte_of.
    f_equal. apply Z.mod_small. unfold in_range in Hv. lia.
  - unfold load16. rewrite H0 by done. cbn [mbind res_bind].
    rewrite (Hf 1 (byte_of (v / 256))) by done. cbn [mbind res_bind]. f_equal. exact Hval.
  - erewrite load32_bytes; [f_equal; exact Hval|by apply H0|by apply Hf..].
  - unfold load64. erewrite (load32_bytes m' a); [|by apply H0|by apply Hf..].
    cbn [mbind res_bind].
    erewrite (load32_bytes m' (wrap32 (a + 4))); [|by apply Hf|rewrite wrap32_add; by apply Hf..].
    cbn [mbind res_bind]. f_equal. etransitivity; [|exact Hval].
    change (Z.to_nat 8) with 8%nat. cbn [to_le].
    pose proof (from_le_range [byte_of v; byte_of (v / 256); byte_of (v / 256 / 256);
                               byte_of (v / 256 / 256 / 256)]) as Hlo.
    rewrite lor_shiftl_add by (lia || exact Hlo). cbn [from_le]. lia.
Qed.

Lemma store_n_stores n a v : In n widths -> in_range 32 a ->
  stores 3 (store_n n a v) a (to_le (Z.to_nat n) v).
Proof.
  intros Hn Ha.
  assert (forall f l, stores 1 f a l -> stores 3 f a l) as Hweak.
  { intros f l Hf m c Hwf Hroom Hc. specialize (Hf m (2 + c) Hwf ltac:(by replace (1 + (2 + c)) with (3 + c) by lia) ltac:(lia)).
    destruct (f m) as [m' [u|t|]]; [|done..]. destruct Hf as (? & [? ?] & ? & ?).
    split_and!; [done|split; lia|done|done]. }
  repeat destruct Hn as [<-|Hn]; [| | | |destruct Hn]; unfold store_n; cbn [Z.eqb Pos.eqb].
  - by apply Hweak, store8_stores.
  - by apply Hweak, store16_stores.
  - by apply Hweak, store32_stores.
  - by apply store64_stores.
Qed.

(** C13: the loads and stores of the emulator's memory, for every width,
    alignment and address, including those that cross pages or wrap at 4 GiB.
    A store that succeeds found every byte in a mapped writable page, replaces
    exactly those bytes and no other cell or permission, and a load of the
    width then returns the value wherever the pages are readable. A store that
    fails reports the first byte it may not write, unmapped or not writable,
    and has written exactly the bytes before it. No store panics while the
    event counters are below their 64-bit limit. *)
Theorem mmu_store_load (n a v : Z) (m : Mmu) :
  In n widths -> in_range 32 a -> in_range (8 * n) v -> mmu_wf m -> room 3 m ->
  match store_n n a v m with
  | (m', Ok _) =>
      mmu_wf m' /\ same_cells m' (over (cell m) a (to_le (Z.to_nat n) v)) /\
      (forall k, 0 <= k < n -> writable m (wrap32 (a + k))) /\
      ((forall k, 0 <= k < n -> readable m (wrap32 (a + k))) -> load_n n m' a = Ok v)
  | (m', Err t) =>
      mmu_wf m' /\ exists k, 0 <= k < n /\ store_fault m (wrap32 (a + k)) t /\
        (forall j, 0 <= j < k -> writable m (wrap32 (a + j))) /\
        same_cells m' (over (cell m) a (take (Z.to_nat k) (to_le (Z.to_nat n) v)))
  | (_, Panic) => False
  end.
Proof.
  intros Hn Ha Hv Hwf Hroom. pose proof (widths_bound n Hn).
  pose proof (store_n_stores n a v Hn Ha m 0 Hwf Hroom ltac:(lia)) as H1.
  assert (len (to_le (Z.to_nat n) v) = n) as Hl by (unfold len; rewrite length_to_le; lia).
  rewrite Hl in H1. destruct (store_n n a v m) as [m' [u|t|]]; [|done..].
  destruct H1 as (? & ? & ? & ?). split_and!; try done. intros Hr. by eapply load_over.
Qed.

(** A writable page followed by a read-only one. *)
Definition two_pages : Mmu := map 0x2000 1 perm_R (map 0x1000 1 (perm_or perm_R perm_W) new).

Lemma two_pages_wf : mmu_wf two_pages /\ room 3 two_pages.
Proof.
  split; [|split; vm_compute; [done|split; discriminate]].
  intros p page. change (pages two_pages) with
    (<[2 := zeroed perm_R]> (<[1 := zeroed (perm_or perm_R perm_W)]> (∅ : gmap Z Page))).
  rewrite !lookup_insert_Some, lookup_empty. unfold NUM_PAGES.
  intros [[<- <-]|[_ [[<- <-]|[_ [=]]]]]; (split; [lia|vm_compute; reflexivity]).
Qed.

Lemma mmu_store_load_witness :
  load_n 4 (store_n 4 0x1ffc 0xdeadbeef two_pages).1 0x1ffc = Ok 0xdeadbeef /\
  exists m', store_n 4 0x1ffe 0x11223344 two_pages = (m', Err (WriteProtectFault 0x2000)) /\
    mmu_wf m'.
Proof.
  destruct two_pages_wf as [Hwf Hroom].
  assert (forall x, 0 <= x < 2 ^ 32 -> in_range 32 x) as Hr by (intros x Hx; exact Hx). split.
  - pose proof (mmu_store_load 4 0x1ffc 0xdeadbeef two_pages) as H.
    destruct (store_n 4 0x1ffc 0xdeadbeef two_pages) as [m' [u|t|]] eqn:E;
      [|vm_compute in E; discriminate E..].
    destruct H as (_ & _ & _ & H); [cbn; tauto|apply Hr; lia|unfold in_range; lia|done|done|].
    apply H. intros k Hk. assert (k = 0 \/ k = 1 \/ k = 2 \/ k = 3) as [->|[->|[->| ->]]] by lia;
      (eexists _, _; split; vm_compute; reflexivity).
  - pose proof (mmu_store_load 4 0x1ffe 0x11223344 two_pages) as H.
    destruct (store_n 4 0x1ffe 0x11223344 two_pages) as [m' r] eqn:E. exists m'.
    assert (r = Err (WriteProtectFault 0x2000)) as ->.
    { apply (f_equal snd) in E. cbn [snd] in E. rewrite <- E. vm_compute. reflexivity. }
    split; [reflexivity|].
    destruct H as [H _]; [cbn; tauto|apply Hr; lia|unfold in_range; lia|done|done|]. exact H.
Defined.

(** Without the [trace] feature a watched 64-bit store is logged three times:
    once per half, and once as a whole. *)
Example store64_logged_three_times :
  (fun e => (w_seq e, w_addr e, w_width e)) <$>
    watch_log (store64 0x1008 0 (add_watch 0x1000 0x100 two_pages)).1
  = [(1, 0x1008, 4); (2, 0x100c, 4); (3, 0x1008, 8)].
Proof. vm_compute. reflexivity. Qed.
