(* ===== verification/MmuPages.v ===== *)
(** The page table of the emulator's memory: mapping and unmapping, the region
    list, the search for a free range, block copies, and the invariant of every
    reachable memory. *)

From S2P Require Import Prelude Mmu MmuMemory.

(** * Mapping *)

(** Page [p] is touched by the range. *)
Lemma elem_of_page_range a size p : p ∈ page_range a size <-> page_index a <= p < end_page a size.
Proof. unfold page_range. rewrite elem_of_seqZ. lia. Qed.

Lemma page_range_touch a size x : in_range 32 a -> in_range 32 x -> 0 < size < 2 ^ 32 ->
  page_index x ∈ page_range a size <-> exists y, a <= y < a + size /\ page_index y = page_index x.
Proof.
  intros Ha Hx Hs. rewrite elem_of_page_range. unfold end_page, PAGE_SIZE, NUM_PAGES, in_range in *.
  setoid_rewrite (fun z => proj1 (page_split z)). split.
  - intros [H1 H2]. pose proof (Z.div_mod x 4096). pose proof (Z.mod_pos_bound x 4096).
    pose proof (Z.div_mod a 4096). pose proof (Z.mod_pos_bound a 4096).
    pose proof (Z.div_mod (a + size + 0x1000 - 1) 0x1000).
    pose proof (Z.mod_pos_bound (a + size + 0x1000 - 1) 0x1000).
    destruct (Z.le_gt_cases a (4096 * (x / 4096))).
    + exists (4096 * (x / 4096)). split; [lia|]. rewrite Z.mul_comm. by apply Z.div_mul.
    + exists a. lia.
  - intros (y & Hy & E). assert (x / 4096 < 2 ^ 20) by (apply Z.div_lt_upper_bound; lia).
    rewrite <- E in *. split; [apply Z.div_le_mono; lia|].
    pose proof (Z.div_mod y 4096). pose proof (Z.mod_pos_bound y 4096).
    apply Z.min_glb_lt; [|done].
    apply Z.lt_le_trans with (y / 4096 + 1); [lia|]. apply Z.div_le_lower_bound; lia.
Qed.

(** A loop that rewrites the pages of a list of distinct indices one by one. *)
Lemma fold_pages (f : gmap Z Page -> Z -> gmap Z Page) (g : option Page -> option Page) l ps q :
  (forall ps p, f ps p !! p = g (ps !! p)) ->
  (forall ps p q, q <> p -> f ps p !! q = ps !! q) ->
  NoDup l ->
  fold_left f l ps !! q = if decide (q ∈ l) then g (ps !! q) else ps !! q.
Proof.
  intros Hsame Hother. revert ps. induction l as [|p l IH]; intros ps Hl; cbn [fold_left].
  - by rewrite decide_False by apply not_elem_of_nil.
  - apply NoDup_cons in Hl as [Hp Hl]. rewrite IH by done.
    destruct (decide (q = p)) as [->|Hne].
    + rewrite decide_False, decide_True, Hsame by (done || by left). done.
    + rewrite Hother by done. destruct (decide (q ∈ l)).
      * by rewrite decide_True by by right.
      * by rewrite decide_False by (rewrite elem_of_cons; naive_solver).
Qed.

(** The three page updates of the mapping calls. *)
Definition remap (perm : Perm) (o : option Page) : option Page :=
  Some match o with
       | Some page => {| p_bytes := p_bytes page; p_perm := perm |}
       | None => zeroed perm
       end.

Lemma map_lookup a size perm m q : 0 < size ->
  pages (map a size perm m) !! q =
  if decide (q ∈ page_range a size) then remap perm (pages m !! q) else pages m !! q.
Proof.
  intros Hs. unfold map. destruct (Z.eqb_spec size 0); [lia|]. cbn [pages with_pages].
  apply fold_pages; [| |apply NoDup_seqZ].
  - intros ps p. unfold map_page. destruct (ps !! p) eqn:E; by rewrite lookup_insert_eq.
  - intros ps p r Hr. unfold map_page. destruct (ps !! p); by rewrite lookup_insert_ne.
Qed.

Lemma map_zeroed_lookup a size perm m q : 0 < size ->
  pages (map_zeroed a size perm m) !! q =
  if decide (q ∈ page_range a size) then Some (zeroed perm) else pages m !! q.
Proof.
  intros Hs. unfold map_zeroed. destruct (Z.eqb_spec size 0); [lia|]. cbn [pages with_pages].
  apply (fold_pages _ (fun _ => Some (zeroed perm))); [| |apply NoDup_seqZ].
  - intros ps p. by rewrite lookup_insert_eq.
  - intros ps p r Hr. by rewrite lookup_insert_ne.
Qed.

Lemma unmap_lookup a size m q : 0 < size ->
  pages (unmap a size m) !! q = if decide (q ∈ page_range a size) then None else pages m !! q.
Proof.
  intros Hs. unfold unmap. destruct (Z.eqb_spec size 0); [lia|]. cbn [pages with_pages].
  apply (fold_pages _ (fun _ => None)); [| |apply NoDup_seqZ].
  - intros ps p. by rewrite lookup_delete_eq.
  - intros ps p r Hr. by rewrite lookup_delete_ne.
Qed.

Lemma zeroed_byte perm a : byte_of_page (zeroed perm) a = byte_of 0.
Proof.
  unfold byte_of_page, zeroed. cbn [p_bytes]. rewrite nth_lookup, lookup_replicate_2; [done|].
  pose proof (page_offset_range a). lia.
Qed.

Lemma zeroed_len perm : len (p_bytes (zeroed perm)) = PAGE_SIZE.
Proof. unfold zeroed, len. cbn [p_bytes]. by rewrite length_replicate. Qed.

(** The bytes and permissions the three calls leave in a page they touch. *)
Definition cell_byte (m : Mmu) (x : Z) : byte :=
  match cell m x with Some (b, _) => b | None => byte_of 0 end.

(** C14: the mapping calls act on exactly the pages the byte range touches, up
    to the end of the address space. There [map] keeps the bytes of a page
    already mapped, fills a new one with zeros, and sets the permissions of
    both; [map_zeroed] always leaves zeros; [unmap] leaves nothing. Every cell
    of another page keeps its byte and permissions. *)
Theorem mmu_mapping (a size perm x : Z) (m : Mmu) :
  in_range 32 a -> in_range 32 size -> in_range 32 x ->
  ((exists y, a <= y < a + size /\ page_index y = page_index x) ->
     cell (map a size perm m) x = Some (cell_byte m x, perm) /\
     cell (map_zeroed a size perm m) x = Some (byte_of 0, perm) /\
     cell (unmap a size m) x = None) /\
  (~ (exists y, a <= y < a + size /\ page_index y = page_index x) ->
     cell (map a size perm m) x = cell m x /\
     cell (map_zeroed a size perm m) x = cell m x /\
     cell (unmap a size m) x = cell m x).
Proof.
  intros Ha Hs Hx. destruct (decide (size = 0)) as [->|Hne].
  { split; [intros (y & Hy & _); lia|done]. }
  unfold in_range in Hs. pose proof (page_range_touch a size x Ha Hx ltac:(lia)) as Ht.
  unfold cell_byte, cell.
  rewrite map_lookup, map_zeroed_lookup, unmap_lookup by lia. split; intros H.
  - rewrite !decide_True by by apply Ht. cbn [fmap option_fmap option_map].
    rewrite zeroed_byte. split_and!; [|done|done]. unfold remap.
    destruct (pages m !! page_index x) as [page|]; cbn [fmap option_fmap option_map p_perm];
      [done|by rewrite zeroed_byte].
  - rewrite !decide_False by by rewrite Ht. done.
Qed.

Lemma mmu_mapping_witness :
  cell (map 0x1800 0x900 perm_X two_pages) 0x2fff = Some (cell_byte two_pages 0x2fff, perm_X) /\
  cell (unmap 0x1800 0x900 two_pages) 0x3000 = cell two_pages 0x3000.
Proof.
  split.
  - apply (proj1 (mmu_mapping 0x1800 0x900 perm_X 0x2fff two_pages
      ltac:(split; reflexivity || discriminate) ltac:(split; reflexivity || discriminate)
      ltac:(split; reflexivity || discriminate))).
    exists 0x2000. split; [lia|reflexivity].
  - apply (proj2 (mmu_mapping 0x1800 0x900 perm_X 0x3000 two_pages
      ltac:(split; reflexivity || discriminate) ltac:(split; reflexivity || discriminate)
      ltac:(split; reflexivity || discriminate))).
    intros (y & Hy & E). destruct (page_split y) as [E1 _]. rewrite E1 in E.
    change (page_index 0x3000) with 3 in E. pose proof (Z.div_mod y 4096).
    pose proof (Z.mod_pos_bound y 4096). lia.
Defined.

(** * The region list *)

(** A region [(start, end, perm)], and the region before it in the list. *)
Definition region_before (r1 r2 : Z * Z * Perm) : Prop :=
  r1.1.2 <= r2.1.1 /\ (r1.1.2 = r2.1.1 -> r1.2 <> r2.2).

Definition region_aligned (r : Z * Z * Perm) : Prop :=
  exists s e, 0 <= s < e /\ r.1 = (4096 * s, 4096 * e).

Definition in_region (p : Z) (r : Z * Z * Perm) : Prop := r.1.1 <= 4096 * p < r.1.2.

(** The state of the scan after the pages below [n]. *)
Definition scan_inv (m : Mmu) (n : Z) (st : list (Z * Z * Perm) * option (Z * Perm)) : Prop :=
  let '(out, cur) := st in
  Sorted region_before out /\ Forall region_aligned out /\
  Forall (fun r => match cur with
                   | Some (start, q) => r.1.2 <= start
                   | None => r.1.2 < 4096 * n
                   end) out /\
  match cur with
  | Some (start, q) =>
      (exists s, 0 <= s < n /\ start = 4096 * s) /\
      (forall r, last out = Some r -> r.1.2 = start -> r.2 <> q)
  | None => True
  end /\
  forall p q, 0 <= p < n ->
    ((exists r, r ∈ out /\ in_region p r /\ r.2 = q) \/
     (exists start, cur = Some (start, q) /\ start <= 4096 * p)) <->
    p_perm <$> pages m !! p = Some q.

Lemma Sorted_snoc {A} (R : A -> A -> Prop) l x :
  Sorted R l -> (forall y, last l = Some y -> R y x) -> Sorted R (l ++ [x]).
Proof.
  induction 1 as [|y l Hl IH Hy]; intros Hx; simpl; [by repeat constructor|].
  constructor.
  - apply IH. intros z Hz. apply Hx. rewrite last_cons, Hz. done.
  - destruct l as [|z l]; [|by inversion Hy; constructor]. constructor. by apply Hx.
Qed.

Lemma page_addr i : Z.shiftl i PAGE_SHIFT = 4096 * i.
Proof. unfold PAGE_SHIFT. rewrite Z.shiftl_mul_pow2 by lia. change (2 ^ 12) with 4096. lia. Qed.

(** The regions [out] are those of the pages below [n]. *)
Definition scanned (m : Mmu) (n : Z) (out : list (Z * Z * Perm)) : Prop :=
  Sorted region_before out /\ Forall region_aligned out /\
  Forall (fun r => r.1.2 <= 4096 * n) out /\
  forall p q, 0 <= p < n ->
    (exists r, r ∈ out /\ in_region p r /\ r.2 = q) <-> p_perm <$> pages m !! p = Some q.

(** The open region ends before page [n]. *)
Lemma scan_end m n out start q : scan_inv m n (out, Some (start, q)) ->
  scanned m n (out ++ [(start, 4096 * n, q)]).
Proof.
  intros (H1 & H2 & H3 & ((s & Hs & ->) & H4) & H5). split_and!.
  - apply Sorted_snoc; [done|]. intros y Hy. pose proof (last_Some_elem_of _ _ Hy) as He.
    rewrite Forall_forall in H3. specialize (H3 y He). split; [done|]. by apply H4.
  - apply Forall_app_2, Forall_singleton; [done|]. exists s, n. split; [lia|done].
  - apply Forall_app_2, Forall_singleton; [|done]. eapply Forall_impl; [exact H3|]. intros r; cbn. lia.
  - intros p q' Hp. rewrite <- H5 by done. split.
    + intros (r & [Hr| ->%list_elem_of_singleton]%elem_of_app & Hin & <-).
      * left. by exists r.
      * right. unfold in_region in Hin. cbn in *. eexists. split; [done|lia].
    + intros [(r & Hr & Hin & <-)|(? & [= <- <-] & Hle)].
      * exists r. by rewrite elem_of_app; auto.
      * eexists. rewrite elem_of_app, list_elem_of_singleton. split; [by right|].
        unfold in_region. cbn. split; [lia|done].
Qed.

Lemma scan_none m n out : scan_inv m n (out, None) ->
  scanned m n out /\ forall r, r ∈ out -> r.1.2 < 4096 * n.
Proof.
  intros (H1 & H2 & H3 & _ & H5). rewrite Forall_forall in H3. split; [|done].
  split_and!; [done|done| |].
  - apply Forall_forall. intros r Hr. specialize (H3 r Hr). cbn in H3. lia.
  - intros p q Hp. rewrite <- H5 by done. split; [by left|]. intros [?|(? & [=] & _)]. done.
Qed.

Lemma scanned_past m n out r : scanned m n out -> r ∈ out -> ~ in_region n r.
Proof.
  intros (_ & _ & H & _) Hr. rewrite Forall_forall in H. specialize (H r Hr).
  unfold in_region. lia.
Qed.

(** Page [n] is read: it is unmapped, starts a region, or extends the open one. *)
Lemma scan_skip m n out : pages m !! n = None -> scanned m n out -> scan_inv m (n + 1) (out, None).
Proof.
  intros Hq Hs. pose proof Hs as (H1 & H2 & H3 & H5). split_and!; [done|done| |done|].
  - eapply Forall_impl; [exact H3|]. intros r; cbn. lia.
  - intros p q Hp. destruct (decide (p = n)) as [->|].
    + rewrite Hq. split; [|done]. intros [(r & Hr & Hin & _)|(? & [=] & _)].
      by apply (scanned_past m n out r) in Hin.
    + rewrite <- H5 by lia. split; [|by left]. intros [?|(? & [=] & _)]. done.
Qed.

Lemma scan_open m n out q : 0 <= n -> p_perm <$> pages m !! n = Some q -> scanned m n out ->
  (forall r, last out = Some r -> r.1.2 = 4096 * n -> r.2 <> q) ->
  scan_inv m (n + 1) (out, Some (4096 * n, q)).
Proof.
  intros Hn Hq Hs Hl. pose proof Hs as (H1 & H2 & H3 & H5).
  split_and!; [done|done|exact H3|exists n; lia|done|].
  intros p q' Hp. destruct (decide (p = n)) as [->|].
  - rewrite Hq. split.
    + intros [(r & Hr & Hin & _)|(? & [= <- <-] & _)]; [|done].
      by apply (scanned_past m n out r) in Hin.
    + intros [= <-]. right. eexists. split; [done|lia].
  - rewrite <- H5 by lia. split; [|by left]. intros [?|(? & [= <- <-] & ?)]; [done|lia].
Qed.

Lemma scan_same m n out start q : p_perm <$> pages m !! n = Some q ->
  scan_inv m n (out, Some (start, q)) -> scan_inv m (n + 1) (out, Some (start, q)).
Proof.
  intros Hq Hi. pose proof (scan_end m n out start q Hi) as Hs.
  destruct Hi as (H1 & H2 & H3 & ((s & Hs' & ->) & H4) & H5).
  split_and!; [done|done|done|exists s; lia|done|].
  intros p q' Hp. destruct (decide (p = n)) as [->|]; [|apply H5; lia].
  rewrite Hq. split.
  - intros [(r & Hr & Hin & _)|(? & [= <- <-] & _)]; [|done].
    eapply scanned_past in Hin; [done|exact Hs|]. rewrite elem_of_app. by left.
  - intros [= <-]. right. eexists. split; [done|lia].
Qed.

Lemma scan_step m n st : 0 <= n -> scan_inv m n st -> scan_inv m (n + 1) (region_step m st n).
Proof.
  intros Hn Hi. destruct st as [out [[start q]|]]; unfold region_step; rewrite page_addr.
  - destruct (p_perm <$> pages m !! n) as [p|] eqn:E.
    + destruct (Z.eqb_spec p q) as [->|Hne]; [by apply scan_same|].
      apply scan_open; [done|done|by apply scan_end|]. intros r. rewrite last_snoc.
      by intros [= <-] _.
    + apply fmap_None in E. apply scan_skip; [done|by apply scan_end].
  - apply scan_none in Hi as [Hs Hlt]. destruct (p_perm <$> pages m !! n) as [p|] eqn:E.
    + apply scan_open; [done..|]. intros r Hr%last_Some_elem_of Heq. specialize (Hlt r Hr). lia.
    + apply fmap_None in E. by apply scan_skip.
Qed.

Lemma regions_upto_ok m n : 0 <= n -> scanned m n (regions_upto m n).
Proof.
  intros Hn. unfold regions_upto.
  assert (scan_inv m n (fold_left (region_step m) (seqZ 0 n) ([], None))) as H.
  { revert n Hn. apply natlike_ind.
    - split_and!; try done; try by constructor. intros p q ?. lia.
    - intros n Hn IH. unfold Z.succ. rewrite seqZ_app, fold_left_app by lia.
      cbn [seqZ fold_left]. by apply scan_step. }
  destruct (fold_left _ _ _) as [out [[start q]|]].
  - rewrite page_addr. by apply scan_end.
  - by apply scan_none in H as [? _].
Qed.

(** the region list, which the guest reads as its memory map, is exact,
    ordered and coalesced: its entries are non-empty page-aligned ranges in
    ascending order; a page of the address space lies in an entry with given
    permissions exactly when it is mapped with them; and two entries that
    touch have different permissions, so no run of equal pages is cut. *)
Theorem mmu_regions (m : Mmu) :
  mmu_wf m ->
  Sorted region_before (regions m) /\ Forall region_aligned (regions m) /\
  forall p q, (exists r, r ∈ regions m /\ in_region p r /\ r.2 = q) <->
              p_perm <$> pages m !! p = Some q.
Proof.
  intros Hwf. unfold regions. destruct (regions_upto_ok m NUM_PAGES) as (H1 & H2 & H3 & H4); [done|].
  split_and!; [done|done|]. intros p q. destruct (decide (0 <= p < NUM_PAGES)) as [Hp|Hp]; [by apply H4|].
  split.
  - intros (r & Hr & Hin & _). rewrite Forall_forall in H2, H3. specialize (H3 r Hr).
    destruct (H2 r Hr) as (s & e & Hse & E). unfold in_region in Hin. rewrite E in Hin, H3.
    cbn [fst snd] in *. lia.
  - destruct (pages m !! p) as [page|] eqn:E; [|done]. by destruct (Hwf p page E).
Qed.

Lemma mmu_regions_witness :
  exists r, r ∈ regions two_pages /\ in_region 1 r /\ r.2 = perm_or perm_R perm_W.
Proof.
  apply (proj2 (proj2 (mmu_regions two_pages (proj1 two_pages_wf)))). vm_compute. reflexivity.
Defined.

(** * The search for a free range *)

Lemma skip_while_ok fuel m want p hi : hi - p <= Z.of_nat fuel -> p <= hi ->
  let r := skip_while fuel m want p hi in
  p <= r <= hi /\ (forall q, p <= q < r -> mapped m q = want) /\
  (r = hi \/ mapped m r = negb want).
Proof.
  revert p. induction fuel as [|fuel IH]; intros p Hf Hp; cbn [skip_while].
  - split_and!; [lia|lia|intros ? ?; lia|left; lia].
  - destruct (Z.ltb_spec p hi) as [Hlt|]; cbn [andb]; [|split_and!; [lia|lia|intros ? ?; lia|left; lia]].
    destruct (Bool.eqb (mapped m p) want) eqn:E.
    + destruct (IH (p + 1) ltac:(lia) ltac:(lia)) as (H1 & H2 & H3).
      split; [lia|]. split; [|done]. intros q Hq. destruct (decide (q = p)) as [->|].
      * by apply Bool.eqb_prop.
      * apply H2. lia.
    + split_and!; [lia|lia|lia|]. right. destruct (mapped m p), want; done.
Qed.

(** [need] free pages from page [p]. *)
Definition free_at (m : Mmu) (need p : Z) : Prop := forall q, p <= q < p + need -> mapped m q = false.

Lemma free_loop_ok fuel m need hi p : 0 < need -> 0 <= p -> hi <= NUM_PAGES ->
  hi - p < Z.of_nat fuel ->
  match free_loop fuel m need hi p with
  | Some a => exists q, a = 4096 * q /\ p <= q /\ q + need <= hi /\ free_at m need q /\
                forall r, p <= r < q -> ~ free_at m need r
  | None => forall r, p <= r -> r + need <= hi -> ~ free_at m need r
  end.
Proof.
  intros Hneed. revert p. induction fuel as [|fuel IH]; intros p Hp Hhi Hf; [cbn; intros r ? ?; lia|].
  cbn [free_loop]. destruct (Z.leb_spec (p + need) hi) as [Hle|]; [|intros r ? ?; lia].
  destruct (skip_while_ok (Z.to_nat (hi - p)) m true p hi) as (Hb & Hm & _); [lia|lia|].
  set (p1 := skip_while _ m true p hi) in *.
  assert (forall r, p <= r < p1 -> ~ free_at m need r) as Hskip.
  { intros r Hr Hfree. specialize (Hfree r ltac:(lia)). rewrite Hm in Hfree by lia. done. }
  destruct (Z.ltb_spec hi (p1 + need)).
  { intros r Hr Hrn. apply Hskip. lia. }
  destruct (skip_while_ok (Z.to_nat (p1 + need - p1)) m false p1 (p1 + need)) as (Hq & Hfr & Hend); [lia|lia|].
  set (q := skip_while _ m false p1 (p1 + need)) in *.
  destruct (Z.eqb_spec q (p1 + need)) as [E|Hne].
  - exists p1. split_and!; [|lia|lia|intros r Hr; apply Hfr; lia|done].
    rewrite page_addr. apply wrap_small. unfold in_range, NUM_PAGES in *. lia.
  - destruct Hend as [?|Hmq]; [done|].
    assert (forall r, p <= r <= q -> ~ free_at m need r) as Hskip2.
    { intros r Hr. destruct (decide (r < p1)); [apply Hskip; lia|]. intros Hfree.
      rewrite (Hfree q) in Hmq by lia. done. }
    specialize (IH (q + 1) ltac:(lia) Hhi ltac:(lia)). destruct (free_loop fuel m need hi (q + 1)) as [a|].
    + destruct IH as (r & Ha & Hr & Hrn & Hfree & Hno). exists r. split_and!; [done|lia|done|done|].
      intros r' Hr'. destruct (decide (r' <= q)); [apply Hskip2; lia|apply Hno; lia].
    + intros r Hr Hrn. destruct (decide (r <= q)); [apply Hskip2; lia|apply IH; lia].
Qed.

(** C16: the search for free address space is sound, complete and first-fit. For
    a non-empty request it terminates within its bound and returns the lowest
    page-aligned address, from the page of [lo] on, from which enough pages to
    hold [size] bytes lie below the page of [hi] and are all unmapped; it
    returns nothing exactly when there is no such address. *)
Theorem mmu_find_free_range (m : Mmu) (lo hi size : Z) :
  in_range 32 lo -> in_range 32 hi -> in_range 32 size -> 0 < size ->
  exists need, 4096 * (need - 1) < size <= 4096 * need /\
  match find_free_range m lo hi size with
  | Some a => exists q, a = 4096 * q /\ page_index lo <= q /\ q + need <= page_index hi /\
                (forall y, a <= y < a + size -> is_mapped m y = false) /\
                forall r, page_index lo <= r < q -> ~ free_at m need r
  | None => forall r, page_index lo <= r -> r + need <= page_index hi -> ~ free_at m need r
  end.
Proof.
  intros Hlo Hhi Hs Hpos. exists ((size + PAGE_SIZE - 1) / PAGE_SIZE). unfold PAGE_SIZE.
  pose proof (Z.div_mod (size + 0x1000 - 1) 0x1000). pose proof (Z.mod_pos_bound (size + 0x1000 - 1) 0x1000).
  set (need := (size + 0x1000 - 1) / 0x1000) in *. split; [lia|].
  unfold find_free_range, PAGE_SIZE. destruct (Z.eqb_spec size 0); [lia|]. fold need.
  destruct (Z.ltb_spec (page_index hi) (page_index lo + need)); [intros r ? ?; lia|].
  assert (0 <= page_index lo /\ page_index hi <= NUM_PAGES) as [Hl Hh].
  { rewrite (proj1 (page_split lo)), (proj1 (page_split hi)). unfold in_range, NUM_PAGES in *.
    split; [apply Z.div_pos; lia|]. apply Z.div_le_upper_bound; lia. }
  pose proof (free_loop_ok (S (Z.to_nat (page_index hi - page_index lo))) m need (page_index hi)
                (page_index lo) ltac:(lia) Hl Hh ltac:(lia)) as Hok.
  destruct (free_loop _ m need (page_index hi) (page_index lo)) as [a|]; [|done].
  destruct Hok as (q & -> & Hq & Hqn & Hfree & Hno). exists q. split_and!; try done.
  intros y Hy. unfold is_mapped. apply Hfree. rewrite (proj1 (page_split y)).
  split; [apply Z.div_le_lower_bound; lia|apply Z.div_lt_upper_bound; lia].
Qed.

Lemma mmu_find_free_range_witness :
  exists need, 4096 * (need - 1) < 0x1001 <= 4096 * need /\
  match find_free_range two_pages 0 0x10000 0x1001 with
  | Some a => exists q, a = 4096 * q /\ page_index 0 <= q /\ q + need <= page_index 0x10000 /\
                (forall y, a <= y < a + 0x1001 -> is_mapped two_pages y = false) /\
                forall r, page_index 0 <= r < q -> ~ free_at two_pages need r
  | None => forall r, page_index 0 <= r -> r + need <= page_index 0x10000 -> ~ free_at two_pages need r
  end /\ find_free_range two_pages 0 0x10000 0x1001 = Some 0x3000.
Proof.
  destruct (mmu_find_free_range two_pages 0 0x10000 0x1001) as (need & Hn & Hf);
    [split; reflexivity || discriminate..|reflexivity|].
  exists need. split; [exact Hn|]. split; [exact Hf|vm_compute; reflexivity].
Defined.

(** The search starts at the page of [lo]: an unaligned [lo] can give an
    address below it. *)
Example find_free_below_lo : find_free_range new 0x1800 0x4000 0x1000 = Some 0x1000.
Proof. vm_compute. reflexivity. Qed.

(** * Block copies *)

Lemma write_stores l a i : len l < 2 ^ 31 ->
  stores (len l) (for_each (fun '(i, b) => store8 (wrap32 (a + i)) (u8 b)) (zip (seqZ i (len l)) l))
    (wrap32 (a + i)) l.
Proof.
  revert i. induction l as [|b l IH]; intros i Hl.
  - intros m c Hwf Hroom Hc. cbn. split_and!; [done|done|intros x _; by rewrite over_nil|].
    intros k Hk. unfold len in Hk. simpl in Hk. lia.
  - assert (len (b :: l) = 1 + len l) as E by (unfold len; simpl; lia). rewrite E in Hl |- *.
    rewrite seqZ_cons by (unfold len in *; lia).
    replace (Z.pred (1 + len l)) with (len l) by lia. replace (Z.succ i) with (i + 1) by lia.
    cbn [zip zip_with for_each]. change (b :: l) with ([b] ++ l).
    pose proof (len_nonneg l).
    apply stores_seq; [apply wrap32_range|change (len [b]) with 1; lia|lia|lia| |].
    + assert ([b] = to_le 1 (u8 b)) as -> by (cbn [to_le]; by rewrite byte_of_u8).
      apply store8_stores, wrap32_range.
    + change (len [b]) with 1. rewrite wrap32_add. apply IH. lia.
Qed.

Lemma read_bytes m a l i :
  (forall k b, l !! k = Some b -> fetch_byte m (wrap32 (a + (i + Z.of_nat k))) = Ok b) ->
  mapM_res (fun i => b ← load8 m (wrap32 (a + i)); Ok (byte_of b)) (seqZ i (len l)) = Ok l.
Proof.
  revert i. induction l as [|b l IH]; intros i H; [done|].
  assert (len (b :: l) = 1 + len l) as -> by (unfold len; simpl; lia).
  pose proof (len_nonneg l). rewrite seqZ_cons by lia.
  replace (Z.pred (1 + len l)) with (len l) by lia. cbn [mapM_res].
  pose proof (H 0%nat b eq_refl) as Hb. rewrite Z.add_0_r in Hb.
  assert (load8 m (wrap32 (a + i)) = Ok (u8 b)) as -> by (unfold load8; by rewrite Hb).
  cbn [mbind res_bind]. rewrite byte_of_u8, IH; [done|].
  intros k x Hk. replace (Z.succ i + Z.of_nat k) with (i + Z.of_nat (S k)) by lia. by apply H.
Qed.

(** Copying a block into memory and reading it back. A block write that
    succeeds found every byte's page mapped and writable, replaced exactly
    those bytes, also across pages and across the end of the address space,
    and reading the range then returns the block if it is readable. One that
    fails reports the first byte it may not write and has written exactly the
    ones before it. *)
Theorem mmu_write_read (a : Z) (data : list byte) (m : Mmu) :
  in_range 32 a -> len data < 2 ^ 31 -> mmu_wf m -> room (len data) m ->
  match write a data m with
  | (m', Ok _) =>
      mmu_wf m' /\ same_cells m' (over (cell m) a data) /\
      (forall k, 0 <= k < len data -> writable m (wrap32 (a + k))) /\
      ((forall k, 0 <= k < len data -> readable m (wrap32 (a + k))) ->
         read m' a (len data) = Ok data)
  | (m', Err t) =>
      mmu_wf m' /\ exists k, 0 <= k < len data /\ store_fault m (wrap32 (a + k)) t /\
        (forall j, 0 <= j < k -> writable m (wrap32 (a + j))) /\
        same_cells m' (over (cell m) a (take (Z.to_nat k) data))
  | (_, Panic) => False
  end.
Proof.
  intros Ha Hl Hwf Hroom. pose proof (write_stores data a 0 Hl) as Hw.
  rewrite Z.add_0_r, (wrap_small 32 a Ha) in Hw.
  specialize (Hw m 0 Hwf ltac:(by rewrite Z.add_0_r) ltac:(lia)). unfold write.
  destruct (for_each _ _ m) as [m' [u|t|]]; [|done..].
  destruct Hw as (H1 & _ & H2 & H3). split_and!; [done|done|done|]. intros Hr.
  apply read_bytes. intros k b Hk. pose proof (lookup_lt_Some _ _ _ Hk). unfold len in *.
  rewrite Z.add_0_l. eapply fetch_over; [done|done|done|lia|apply Hr; lia].
Qed.

Lemma mmu_write_read_witness :
  read (write 0x1ffe [byte_of 1; byte_of 2] two_pages).1 0x1ffe 2 = Ok [byte_of 1; byte_of 2].
Proof.
  destruct two_pages_wf as [Hwf Hroom].
  pose proof (mmu_write_read 0x1ffe [byte_of 1; byte_of 2] two_pages) as H.
  destruct (write 0x1ffe [byte_of 1; byte_of 2] two_pages) as [m' [u|t|]] eqn:E;
    [|vm_compute in E; discriminate E..].
  destruct H as (_ & _ & _ & H); [split; reflexivity || discriminate|reflexivity|done| |].
  - split; [reflexivity|]. vm_compute. split; discriminate.
  - apply H. intros k Hk. change (len [byte_of 1; byte_of 2]) with 2 in Hk.
    assert (k = 0 \/ k = 1) as [->| ->] by lia; (eexists _, _; split; vm_compute; reflexivity).
Defined.
