(* ===== verification/MmuState.v ===== *)
(** The states the emulator's memory can reach: every public operation that
    changes it as a step, the invariant they all keep, and the watch log
    against the history of the watched stores. *)

From S2P Require Import Prelude Mmu MmuMemory MmuPages.

(** * Steps *)

(** One call of a public method, with its arguments. *)
Inductive Op : Type :=
| OpMap (a size : Z) (perm : Perm)
| OpMapZeroed (a size : Z) (perm : Perm)
| OpUnmap (a size : Z)
| OpSetPerm (a : Z) (perm : Perm)
| OpAddWatch (start len : Z)
| OpSetWatchLimit (limit : Z)
| OpClearWatches
| OpStore8 (a v : Z)
| OpStore16 (a v : Z)
| OpStore32 (a v : Z)
| OpStore64 (a v : Z)
| OpWrite (a : Z) (data : list byte)
| OpWriteInitializer (a : Z) (data : list byte)
| OpForkCopy
| OpSetEip (eip : Z).

(** [mmu.dbg_eip = eip], what the interpreter does in front of an instruction. *)
Definition set_dbg_eip (eip : Z) (m : Mmu) : Mmu :=
  {| pages := pages m; coverage := coverage m; dbg_eip := eip; watches := watches m; watch_log := watch_log m;
     watch_limit := watch_limit m; watch_seq := watch_seq m; watch_dropped := watch_dropped m |}.

Definition run_op (o : Op) : St unit :=
  match o with
  | OpMap a size perm => modify (map a size perm)
  | OpMapZeroed a size perm => modify (map_zeroed a size perm)
  | OpUnmap a size => modify (unmap a size)
  | OpSetPerm a perm => set_perm a perm
  | OpAddWatch start len => modify (add_watch start len)
  | OpSetWatchLimit limit => modify (set_watch_limit limit)
  | OpClearWatches => modify clear_watches
  | OpStore8 a v => store8 a v
  | OpStore16 a v => store16 a v
  | OpStore32 a v => store32 a v
  | OpStore64 a v => store64 a v
  | OpWrite a data => write a data
  | OpWriteInitializer a data => write_initializer a data
  | OpForkCopy => modify fork_copy
  | OpSetEip eip => modify (set_dbg_eip eip)
  end.

(** The addresses and sizes of a call are [u32] values. *)
Definition op_ok (o : Op) : Prop :=
  match o with
  | OpMap a size _ | OpMapZeroed a size _ | OpUnmap a size => in_range 32 a /\ in_range 32 size
  | OpSetPerm a _ | OpStore8 a _ | OpStore16 a _ | OpStore32 a _ | OpStore64 a _
  | OpWrite a _ | OpWriteInitializer a _ => in_range 32 a
  | OpAddWatch start len => in_range 32 start /\ in_range 32 len
  | OpSetEip eip => in_range 32 eip
  | OpSetWatchLimit _ | OpClearWatches | OpForkCopy => True
  end.

(** * The stores a watchpoint has to see

    Told without the log: a call completes the stores whose bytes are all
    writable, up to the first that is not. A store is its address, its width
    and its value. *)

Definition writable (m : Mmu) (a : Z) : bool :=
  match pages m !! page_index a with Some pg => perm_contains (p_perm pg) perm_W | None => false end.

Definition can_store (m : Mmu) (a width : Z) : bool := forallb (fun i => writable m (wrap32 (a + i))) (seqZ 0 width).

Fixpoint completed_bytes (m : Mmu) (l : list (Z * byte)) : list (Z * Z * Z) :=
  match l with
  | [] => []
  | (a, b) :: l => if can_store m a 1 then (a, 1, u8 b) :: completed_bytes m l else []
  end.

(** A store of 64 bits counts three times: its halves, then itself. *)
Definition completed (m : Mmu) (o : Op) : list (Z * Z * Z) :=
  match o with
  | OpStore8 a v => if can_store m a 1 then [(a, 1, v)] else []
  | OpStore16 a v => if can_store m a 2 then [(a, 2, v)] else []
  | OpStore32 a v => if can_store m a 4 then [(a, 4, v)] else []
  | OpStore64 a v =>
      let b := wrap32 (a + 4) in
      if can_store m a 4 then
        (a, 4, wrap32 v) :: (if can_store m b 4 then [(b, 4, wrap32 (Z.shiftr v 32)); (a, 8, v)] else [])
      else []
  | OpWrite a data => completed_bytes m (zip (fmap (fun i => wrap32 (a + i)) (seqZ 0 (len data))) data)
  | _ => []
  end.

(** The store touches a watched range; both ends wrap as in the code. *)
Definition touches (ws : list (Z * Z)) (x : Z * Z * Z) : Prop :=
  let '(a, width, _) := x in Exists (fun w => a < w.2 /\ w.1 < wrap32 (a + width)) ws.

#[export] Instance touches_dec ws x : Decision (touches ws x).
Proof. destruct x as [[a width] v]. unfold touches. apply _. Defined.

(** The history of the watched stores, each with its ordinal and whether the
    log had room for it. *)
Notation History := (list (WatchEvent * bool)).

Definition kept_events (h : list (WatchEvent * bool)) : list WatchEvent := (base.filter (fun x => x.2 = true) h).*1.

Definition observe (limit eip : Z) (h : History) (x : Z * Z * Z) : History :=
  let '(a, width, v) := x in
  h ++ [({| w_seq := len h + 1; w_addr := a; w_width := width; w_value := v; w_eip := eip |},
         bool_decide (len (kept_events h) < limit))].

Definition observe_all (m : Mmu) (h : History) (l : list (Z * Z * Z)) : History :=
  fold_left (observe (watch_limit m) (dbg_eip m)) (base.filter (touches (watches m)) l) h.

Definition history (m : Mmu) (o : Op) (h : History) : History :=
  match o with
  | OpClearWatches | OpForkCopy => []
  | _ => observe_all m h (completed m o)
  end.

(** The memories a run of calls reaches, with the history since the log was
    last cleared; a call that traps leaves its partial effect, one that panics
    ends the run. *)
Inductive reachable : History -> Mmu -> Prop :=
| reach_new : reachable [] new
| reach_op h m o m' r :
    reachable h m -> op_ok o -> run_op o m = (m', r) -> r <> Panic -> reachable (history m o h) m'.

(** * The invariant *)

(** The event touches the watched range; both ends wrap as in the code. *)
Definition overlaps (e : WatchEvent) (w : Z * Z) : Prop :=
  w_addr e < w.2 /\ w.1 < wrap32 (w_addr e + w_width e).

Record inv (m : Mmu) : Prop := {
  inv_pages : mmu_wf m;
  inv_count : watch_seq m = len (watch_log m) + watch_dropped m;
  inv_dropped : 0 <= watch_dropped m;
  inv_u64 : watch_seq m < 2 ^ 64;
  inv_order : StronglySorted (fun e f => w_seq e < w_seq f) (watch_log m);
  inv_seq : Forall (fun e => 1 <= w_seq e <= watch_seq m) (watch_log m);
  inv_hit : Forall (fun e => Exists (overlaps e) (watches m)) (watch_log m);
}.

(** A step keeps the invariant, whether it traps or not. *)
Definition keeps (f : St unit) : Prop := forall m, inv m -> (f m).2 <> Panic -> inv (f m).1.

Lemma keeps_bind (f g : St unit) : keeps f -> keeps g -> keeps (f ;; g).
Proof.
  intros Hf Hg m Hm. unfold mbind, st_bind. specialize (Hf m Hm).
  destruct (f m) as [m1 [u|t|]]; cbn [fst snd] in *; intros H; [|by apply Hf|done].
  apply Hg; [by apply Hf|done].
Qed.

Lemma keeps_for_each {A} (f : A -> St unit) l : (forall x, x ∈ l -> keeps (f x)) -> keeps (for_each f l).
Proof.
  induction l as [|x l IH]; intros H; cbn [for_each]; [by intros m Hm _|].
  apply keeps_bind; [apply H; by left|]. apply IH. intros y Hy. apply H. by right.
Qed.

(** A change of the pages alone. *)
Lemma inv_with_pages m ps : inv m -> mmu_wf (with_pages m ps) -> inv (with_pages m ps).
Proof. intros [] Hwf. by split. Qed.

Lemma keeps_pages (f : Mmu -> Mmu) :
  (forall m, exists ps, f m = with_pages m ps) -> (forall m, mmu_wf m -> mmu_wf (f m)) ->
  keeps (modify f).
Proof.
  intros Hf Hwf m Hm _. unfold modify. cbn [fst]. specialize (Hwf m (inv_pages m Hm)).
  destruct (Hf m) as [ps E]. rewrite E in *. by apply inv_with_pages.
Qed.

Lemma page_range_bound a size p : in_range 32 a -> p ∈ page_range a size -> 0 <= p < NUM_PAGES.
Proof.
  intros Ha. rewrite elem_of_page_range. unfold end_page.
  rewrite (proj1 (page_split a)). unfold in_range in Ha. pose proof (Z.div_pos a 4096). lia.
Qed.

(** Page-wise updates that put well-formed pages at indices in range. *)
Lemma wf_update m m' (l : list Z) (g : option Page -> option Page) :
  mmu_wf m -> (forall p, p ∈ l -> 0 <= p < NUM_PAGES) ->
  (forall p page, g (pages m !! p) = Some page -> len (p_bytes page) = PAGE_SIZE) ->
  (forall q, pages m' !! q = if decide (q ∈ l) then g (pages m !! q) else pages m !! q) ->
  mmu_wf m'.
Proof.
  intros Hwf Hl Hg Hm p page. rewrite Hm. destruct (decide (p ∈ l)) as [Hp|Hp]; [|by apply Hwf].
  intros H. split; [by apply Hl|by apply (Hg p)].
Qed.

Lemma map_wf a size perm m : in_range 32 a -> in_range 32 size -> mmu_wf m -> mmu_wf (map a size perm m).
Proof.
  intros Ha Hs Hwf. unfold in_range in Hs. destruct (decide (size = 0)) as [->|]; [done|].
  apply (wf_update m _ (page_range a size) (remap perm)); [done| | |].
  - intros p. by apply page_range_bound.
  - intros p page [= <-]. destruct (pages m !! p) as [pg|] eqn:E; [|apply zeroed_len].
    by destruct (Hwf p pg E).
  - intros q. apply map_lookup. lia.
Qed.

Lemma map_zeroed_wf a size perm m :
  in_range 32 a -> in_range 32 size -> mmu_wf m -> mmu_wf (map_zeroed a size perm m).
Proof.
  intros Ha Hs Hwf. unfold in_range in Hs. destruct (decide (size = 0)) as [->|]; [done|].
  apply (wf_update m _ (page_range a size) (fun _ => Some (zeroed perm))); [done| | |].
  - intros p. by apply page_range_bound.
  - intros p page [= <-]. apply zeroed_len.
  - intros q. apply map_zeroed_lookup. lia.
Qed.

Lemma unmap_wf a size m : in_range 32 a -> in_range 32 size -> mmu_wf m -> mmu_wf (unmap a size m).
Proof.
  intros Ha Hs Hwf. unfold in_range in Hs. destruct (decide (size = 0)) as [->|]; [done|].
  apply (wf_update m _ (page_range a size) (fun _ => None)); [done| |done|].
  - intros p. by apply page_range_bound.
  - intros q. apply unmap_lookup. lia.
Qed.

Lemma poke_wf a v page m : in_range 32 a -> pages m !! page_index a = Some page -> mmu_wf m ->
  mmu_wf (poke a v page m).
Proof. intros Ha Hp Hwf. by destruct (poke_cell m a v page Hwf Ha Hp). Qed.

Lemma keeps_put_byte a v : in_range 32 a -> keeps (put_byte a v).
Proof.
  intros Ha m Hm _. unfold put_byte. destruct (pages m !! page_index a) as [page|] eqn:E; [|done].
  destruct (negb _); [done|]. cbn [fst]. apply inv_with_pages; [done|].
  apply poke_wf; [done|done|apply Hm].
Qed.

Lemma keeps_put_byte_raw a v : in_range 32 a -> keeps (put_byte_raw a v).
Proof.
  intros Ha m Hm _. unfold put_byte_raw. destruct (pages m !! page_index a) as [page|] eqn:E; [|done].
  cbn [fst]. apply inv_with_pages; [done|]. apply poke_wf; [done|done|apply Hm].
Qed.

Lemma keeps_set_perm a perm : in_range 32 a -> keeps (set_perm a perm).
Proof.
  intros Ha m Hm _. unfold set_perm. destruct (pages m !! page_index a) as [page|] eqn:E; [|done].
  cbn [fst]. apply inv_with_pages; [done|]. pose proof (inv_pages m Hm) as Hwf.
  intros p pg. cbn [pages with_pages]. rewrite lookup_insert_Some.
  intros [[<- <-]|[_ H]]; [by apply (Hwf _ page)|by apply Hwf].
Qed.

(** Logging appends one event with the next ordinal, or counts a dropped one. *)
Lemma keeps_note_watch a w v : keeps (note_watch a w v).
Proof.
  intros m Hm. pose proof Hm as [Hp Hc Hd Hu Ho Hs Hh]. unfold note_watch.
  destruct (bool_decide (watches m = [])); [done|].
  destruct (existsb _ _) eqn:Eh; [|done]. unfold usize_add.
  destruct (Z.ltb_spec (watch_seq m + 1) (2 ^ 64)); [|done].
  destruct (len (watch_log m) <? watch_limit m).
  - intros _. cbn [fst]. set (ev := {| w_seq := watch_seq m + 1 |}). split; cbn.
    + done.
    + rewrite len_app. change (len [ev]) with 1. lia.
    + done.
    + done.
    + apply StronglySorted_app. split_and!; [|done|by repeat constructor].
      intros e f He ->%list_elem_of_singleton. rewrite Forall_forall in Hs.
      specialize (Hs e He). cbn. lia.
    + apply Forall_app_2, Forall_singleton; [|cbn; pose proof (len_nonneg (watch_log m)); lia].
      eapply Forall_impl; [exact Hs|]. cbn. lia.
    + apply Forall_app_2, Forall_singleton; [done|]. apply Exists_exists.
      apply List.existsb_exists in Eh as ([s e] & Hin & E). exists (s, e).
      split; [by apply list_elem_of_In|]. apply andb_true_iff in E as [E1 E2].
      split; cbn; [lia|by apply Z.ltb_lt].
  - destruct (watch_dropped m + 1 <? 2 ^ 64); [|done]. intros _. cbn [fst]. split; cbn; try done; try lia.
    eapply Forall_impl; [exact Hs|]. cbn. lia.
Qed.

Lemma keeps_note_store a w v : keeps (note_store a w v).
Proof.
  apply keeps_bind; [|apply keeps_note_watch]. intros m [] _. by split.
Qed.

Lemma keeps_store8 a v : in_range 32 a -> keeps (store8 a v).
Proof. intros Ha. apply keeps_bind; [by apply keeps_put_byte|apply keeps_note_store]. Qed.

Lemma keeps_store16 a v : in_range 32 a -> keeps (store16 a v).
Proof.
  intros Ha. unfold store16. do 2 (apply keeps_bind; [apply keeps_put_byte; (done || apply wrap32_range)|]).
  apply keeps_note_store.
Qed.

Lemma keeps_store32 a v : in_range 32 a -> keeps (store32 a v).
Proof.
  intros Ha. unfold store32. do 4 (apply keeps_bind; [apply keeps_put_byte; (done || apply wrap32_range)|]).
  apply keeps_note_store.
Qed.

Lemma keeps_store64 a v : in_range 32 a -> keeps (store64 a v).
Proof.
  intros Ha. apply keeps_bind; [by apply keeps_store32|].
  apply keeps_bind; [apply keeps_store32, wrap32_range|apply keeps_note_store].
Qed.

Lemma keeps_op o : op_ok o -> keeps (run_op o).
Proof.
  destruct o; cbn [op_ok run_op]; intros Ho.
  - apply keeps_pages; [|by intros; apply map_wf; tauto]. intros m. unfold map.
    destruct (_ =? _); [exists (pages m); by destruct m|by eexists].
  - apply keeps_pages; [|by intros; apply map_zeroed_wf; tauto]. intros m. unfold map_zeroed.
    destruct (_ =? _); [exists (pages m); by destruct m|by eexists].
  - apply keeps_pages; [|by intros; apply unmap_wf; tauto]. intros m. unfold unmap.
    destruct (_ =? _); [exists (pages m); by destruct m|by eexists].
  - by apply keeps_set_perm.
  - intros m Hm _. unfold modify, add_watch. cbn [fst]. destruct (negb _); [|done].
    destruct Hm as [? ? ? ? ? ? Hh]. split; try done. cbn. eapply Forall_impl; [exact Hh|].
    intros e He. apply Exists_app. by left.
  - intros m [] _. by split.
  - intros m [] _. split; cbn; try done. constructor.
  - by apply keeps_store8.
  - by apply keeps_store16.
  - by apply keeps_store32.
  - by apply keeps_store64.
  - apply keeps_for_each. intros [i b] _. apply keeps_store8, wrap32_range.
  - apply keeps_for_each. intros [i b] _. apply keeps_put_byte_raw, wrap32_range.
  - intros m [Hp ? ? ? ? ? ?] _. split; cbn; try done. constructor.
  - intros m [] _. by split.
Qed.

Lemma inv_new : inv new.
Proof. split; cbn; try done; constructor. Qed.

(** * The log tells the history *)

(** The log, the counter and the dropped stores are what the history says. *)
Record tells (h : History) (m : Mmu) : Prop := {
  tell_log : watch_log m = kept_events h;
  tell_seq : watch_seq m = len h;
  tell_dropped : watch_dropped m = len h - len (kept_events h);
}.

(** What decides which stores complete and are watched. *)
Definition same_setup (m m' : Mmu) : Prop :=
  watches m' = watches m /\ watch_limit m' = watch_limit m /\ dbg_eip m' = dbg_eip m /\
  forall a, writable m' a = writable m a.

#[export] Instance same_setup_preorder : PreOrder same_setup.
Proof.
  split; [done|]. intros m1 m2 m3 (? & ? & ? & Ha) (? & ? & ? & Hb). split_and!; [congruence..|]. intros a. by rewrite Hb.
Qed.

(** The operation completes if [c], and its completed stores are [l]. *)
Definition noting (c : Mmu -> bool) (l : Mmu -> list (Z * Z * Z)) (f : St unit) : Prop := forall h m, tells h m ->
  (f m).2 <> Panic ->
  tells (observe_all m h (l m)) (f m).1 /\ same_setup m (f m).1 /\ ((f m).2 = Ok tt <-> c m = true).

Definition stable {A} (c : Mmu -> A) : Prop := forall m m', same_setup m m' -> c m' = c m.

Lemma observe_all_app m h l1 l2 : observe_all m h (l1 ++ l2) = observe_all m (observe_all m h l1) l2.
Proof. unfold observe_all. by rewrite filter_app, fold_left_app. Qed.

Lemma observe_all_setup m m' h l : same_setup m m' -> observe_all m' h l = observe_all m h l.
Proof. intros (E1 & E2 & E3 & _). unfold observe_all. by rewrite E1, E2, E3. Qed.

Lemma noting_bind c1 l1 c2 l2 f g : stable c2 -> stable l2 -> noting c1 l1 f -> noting c2 l2 g ->
  noting (fun m => c1 m && c2 m) (fun m => l1 m ++ if c1 m then l2 m else []) (f ;; g).
Proof.
  intros Sc Sl Hf Hg h m Hm. unfold mbind, st_bind. specialize (Hf h m Hm). rewrite observe_all_app.
  destruct (f m) as [m1 [[]|t|]]; cbn [fst snd] in *; [| |done].
  - intros Hp. destruct (Hf ltac:(done)) as (H1 & H2 & H3). rewrite (proj1 H3 eq_refl). cbn [andb].
    destruct (Hg _ m1 H1 Hp) as (G1 & G2 & G3). rewrite (Sl m m1 H2), (observe_all_setup m m1), (Sc m m1 H2) in * by done.
    split_and!; [done|by transitivity m1|done].
  - intros _. destruct (Hf ltac:(done)) as (H1 & H2 & H3). destruct (c1 m); [discriminate (proj2 H3 eq_refl)|].
    split_and!; [exact H1|done|]. split; [done|by intros [=]].
Qed.

Lemma noting_ext c l c' l' f : noting c l f -> (forall m, c m = c' m) -> (forall m, l m = l' m) -> noting c' l' f.
Proof. intros Hf Hc Hl h m Hm Hp. rewrite <- Hc, <- Hl. by apply Hf. Qed.

Lemma noting_put_byte a v : noting (fun m => writable m a) (fun _ => []) (put_byte a v).
Proof.
  intros h m Hm _. unfold put_byte, writable. destruct (pages m !! page_index a) as [pg|] eqn:E; [|by split_and!].
  destruct (perm_contains (p_perm pg) perm_W) eqn:Ep; cbn [negb]; [|by split_and!]. split_and!; [by destruct Hm| |done].
  split_and!; try done. intros b. unfold writable, poke. cbn [fst pages with_pages].
  destruct (decide (page_index a = page_index b)) as [<-|Hne]; [by rewrite lookup_insert_eq, E|by rewrite lookup_insert_ne].
Qed.

Lemma kept_events_app h x b : kept_events (h ++ [(x, b)]) = kept_events h ++ if b : bool then [x] else [].
Proof. unfold kept_events. rewrite filter_app, fmap_app. by destruct b. Qed.

Lemma existsb_touches ws a width v :
  existsb (fun '(s, e) => (a <? e) && (s <? wrap32 (a + width))) ws = bool_decide (touches ws (a, width, v)).
Proof.
  apply eq_true_iff_eq. rewrite bool_decide_eq_true. unfold touches. rewrite List.existsb_exists, Exists_exists.
  split; intros ([s e] & Hin & Hx); exists (s, e); (split; [by apply list_elem_of_In|cbn in *; lia]).
Qed.

Lemma noting_note_store a width v : noting (fun _ => true) (fun _ => [(a, width, v)]) (note_store a width v).
Proof.
  intros h m [Hl Hs Hd]. unfold note_store, mbind, st_bind, modify, note_watch.
  cbn [watches with_coverage watch_seq watch_dropped watch_log watch_limit].
  assert (observe_all m h [(a, width, v)] = if bool_decide (touches (watches m) (a, width, v)) then observe (watch_limit m) (dbg_eip m) h (a, width, v) else h) as ->.
  { unfold observe_all. rewrite filter_cons, filter_nil. by case_decide; [rewrite bool_decide_eq_true_2|rewrite bool_decide_eq_false_2]. }
  case_bool_decide as Hw; [rewrite Hw; rewrite bool_decide_eq_false_2 by (intros Hx; by apply Exists_nil in Hx); split; [by split|done]|].
  rewrite (existsb_touches _ a width v). destruct (bool_decide (touches _ _)); [|intros _; split; [by split|done]]. unfold usize_add, observe.
  rewrite Hl, Hs, Hd. destruct (_ <? 2 ^ 64); [|done]. destruct (Z.ltb_spec (len (kept_events h)) (watch_limit m)) as [Hk|Hk].
  - intros _. split_and!; [|done|done]. rewrite bool_decide_eq_true_2 by done. split; cbn -[kept_events len]; rewrite ?kept_events_app; [done|by rewrite len_app|].
    rewrite !len_app. unfold len; cbn [length]; lia.
  - rewrite bool_decide_eq_false_2 by lia. destruct (_ <? 2 ^ 64); [|done]. intros _. split_and!; [|done|done].
    split; cbn -[kept_events len]; rewrite ?kept_events_app, ?app_nil_r; [done|by rewrite len_app|]. rewrite len_app. unfold len; cbn [length]; lia.
Qed.

Lemma stable_writable a : stable (fun m => writable m a).
Proof. intros m m' (_ & _ & _ & H). apply H. Qed.
Lemma stable_andb c1 c2 : stable c1 -> stable c2 -> stable (fun m => c1 m && c2 m).
Proof. intros H1 H2 m m' Hs. by rewrite (H1 m m'), (H2 m m'). Qed.
Lemma stable_if {A} c (l1 l2 : Mmu -> A) : stable c -> stable l1 -> stable l2 -> stable (fun m => if c m : bool then l1 m else l2 m).
Proof. intros Hc H1 H2 m m' Hs. by rewrite (Hc m m'), (H1 m m'), (H2 m m'). Qed.
Lemma stable_app {A} (l1 l2 : Mmu -> list A) : stable l1 -> stable l2 -> stable (fun m => l1 m ++ l2 m).
Proof. intros H1 H2 m m' Hs. by rewrite (H1 m m'), (H2 m m'). Qed.
Lemma stable_const {A} (x : A) : stable (fun _ => x).
Proof. done. Qed.
Lemma stable_can_store a width : stable (fun m => can_store m a width).
Proof.
  intros m m' Hs. unfold can_store. induction (seqZ 0 width) as [|i l IH]; [done|]. cbn. by rewrite IH, (stable_writable _ m m').
Qed.
Lemma stable_bytes l : stable (fun m => completed_bytes m l).
Proof.
  intros m m' Hs. induction l as [|[a b] l IH]; [done|]. cbn [completed_bytes]. by rewrite IH, (stable_can_store a 1 m m').
Qed.

Hint Resolve stable_writable stable_andb stable_if stable_app stable_const stable_can_store stable_bytes : noting.

Lemma can_store_1 m a : in_range 32 a -> can_store m a 1 = writable m a.
Proof. intros Ha. unfold can_store. change (seqZ 0 1) with [0]. cbn [forallb]. by rewrite Z.add_0_r, wrap_small, andb_true_r. Qed.
Lemma can_store_2 m a : in_range 32 a -> can_store m a 2 = writable m a && writable m (wrap32 (a + 1)).
Proof. intros Ha. unfold can_store. change (seqZ 0 2) with [0; 1]. cbn [forallb]. by rewrite Z.add_0_r, wrap_small, andb_true_r. Qed.
Lemma can_store_4 m a : in_range 32 a -> can_store m a 4 =
  writable m a && (writable m (wrap32 (a + 1)) && (writable m (wrap32 (a + 2)) && writable m (wrap32 (a + 3)))).
Proof. intros Ha. unfold can_store. change (seqZ 0 4) with [0; 1; 2; 3]. cbn [forallb]. by rewrite Z.add_0_r, wrap_small, andb_true_r. Qed.

(** A store completes exactly when its bytes are writable. *)
Ltac noting_tac :=
  lazymatch goal with
  | |- noting _ _ (note_store _ _ _) => apply noting_note_store
  | |- _ => eapply noting_bind; [..|apply noting_put_byte|noting_tac]; auto 20 with noting
  end.

Lemma noting_store8 a v : in_range 32 a ->
  noting (fun m => can_store m a 1) (fun m => if can_store m a 1 then [(a, 1, v)] else []) (store8 a v).
Proof.
  intros Ha. eapply noting_ext; [unfold store8; noting_tac|..]; intros m; cbv beta; rewrite can_store_1 by done; by destruct (writable m a).
Qed.

Lemma noting_store16 a v : in_range 32 a ->
  noting (fun m => can_store m a 2) (fun m => if can_store m a 2 then [(a, 2, v)] else []) (store16 a v).
Proof.
  intros Ha. eapply noting_ext; [unfold store16; noting_tac|..]; intros m; cbv beta; rewrite can_store_2 by done;
    by destruct (writable m a), (writable m _).
Qed.

Lemma noting_store32 a v : in_range 32 a ->
  noting (fun m => can_store m a 4) (fun m => if can_store m a 4 then [(a, 4, v)] else []) (store32 a v).
Proof.
  intros Ha. eapply noting_ext; [unfold store32; noting_tac|..]; intros m; cbv beta; rewrite can_store_4 by done;
    by destruct (writable m a), (writable m (wrap32 (a + 1))), (writable m (wrap32 (a + 2))), (writable m (wrap32 (a + 3))).
Qed.

Lemma noting_store64 a v : in_range 32 a ->
  noting (fun m => can_store m a 4 && can_store m (wrap32 (a + 4)) 4) (fun m => completed m (OpStore64 a v)) (store64 a v).
Proof.
  intros Ha. eapply noting_ext.
  - unfold store64. eapply noting_bind; [..|by apply noting_store32|eapply noting_bind; [..|apply noting_store32, wrap32_range|apply noting_note_store]];
      auto 8 with noting.
  - intros m. cbv beta. by rewrite andb_true_r.
  - intros m. cbv beta. cbn [completed]. by destruct (can_store m a 4), (can_store m (wrap32 (a + 4)) 4).
Qed.

Lemma noting_write a (l : list (Z * byte)) : exists c, noting c (fun m => completed_bytes m (zip (fmap (fun i => wrap32 (a + i)) l.*1) l.*2))
  (for_each (fun '(i, b) => store8 (wrap32 (a + i)) (u8 b)) l) /\ stable c.
Proof.
  induction l as [|[i b] l [c [IH Hc]]]; cbn [for_each].
  - exists (fun _ => true). split; [|done]. intros h m Hm _. by split_and!.
  - exists (fun m => can_store m (wrap32 (a + i)) 1 && c m). split; [|by auto with noting].
    eapply noting_ext; [eapply noting_bind; [exact Hc| |apply noting_store8, wrap32_range|exact IH]; auto with noting|done|].
    intros m. cbn [fmap list_fmap fst snd zip zip_with completed_bytes]. by destruct (can_store m _ 1).
Qed.

(** A change of what the log does not depend on. *)
Lemma tells_frame h m m' : tells h m -> watch_log m' = watch_log m -> watch_seq m' = watch_seq m ->
  watch_dropped m' = watch_dropped m -> tells h m'.
Proof. intros [] E1 E2 E3. by split; rewrite ?E1, ?E2, ?E3. Qed.

Lemma tells_for_each {A} (f : A -> St unit) l : (forall x h m, tells h m -> tells h (f x m).1) ->
  forall h m, tells h m -> tells h (for_each f l m).1.
Proof.
  intros Hf. induction l as [|x l IH]; intros h m Hm; [done|]. cbn [for_each]. unfold mbind, st_bind.
  specialize (Hf x h m Hm). destruct (f x m) as [m1 [u|t|]]; cbn [fst] in *; [by apply IH|done..].
Qed.

Lemma tells_op h m o : op_ok o -> tells h m -> (run_op o m).2 <> Panic -> tells (history m o h) (run_op o m).1.
Proof.
  intros Ho Hm Hp. destruct o; cbn [op_ok run_op history completed] in *.
  - apply (tells_frame h m); [done|..]; cbn; unfold map; by case_match.
  - apply (tells_frame h m); [done|..]; cbn; unfold map_zeroed; by case_match.
  - apply (tells_frame h m); [done|..]; cbn; unfold unmap; by case_match.
  - apply (tells_frame h m); [done|..]; unfold set_perm; by case_match.
  - apply (tells_frame h m); [done|..]; cbn; unfold add_watch; by case_match.
  - by apply (tells_frame h m).
  - by split.
  - by apply (noting_store8 a v Ho h m).
  - by apply (noting_store16 a v Ho h m).
  - by apply (noting_store32 a v Ho h m).
  - by apply (noting_store64 a v Ho h m).
  - destruct (noting_write a (zip (seqZ 0 (len data)) data)) as [c [Hw _]].
    specialize (Hw h m Hm Hp) as (Ht & _). rewrite fst_zip, snd_zip in Ht; [exact Ht|..];
      unfold len; rewrite length_seqZ; lia.
  - revert Hm. apply tells_for_each. clear. intros [i b] h m Hm. apply (tells_frame h m); [done|..]; unfold put_byte_raw; by case_match.
  - by split.
  - by apply (tells_frame h m).
Qed.

Lemma kept_events_all h : len h - len (kept_events h) = 0 -> kept_events h = h.*1.
Proof.
  intros Hl. induction h as [|[e b] h IH]; [done|]. unfold kept_events in *. rewrite filter_cons in *.
  assert (length (base.filter (fun x : WatchEvent * bool => x.2 = true) h) <= length h)%nat by apply length_filter.
  destruct (decide _); cbn [fmap list_fmap fst] in *; unfold len in *; cbn [length] in *; rewrite length_fmap in *; [|lia].
  f_equal. apply IH. lia.
Qed.

(** Away from the top of the address space touching is sharing a byte. *)
Lemma touches_shared ws a width v : Forall (fun w => w.1 < w.2) ws -> 0 <= a -> 0 < width -> a + width < 2 ^ 32 ->
  touches ws (a, width, v) <-> Exists (fun w => exists x, a <= x < a + width /\ w.1 <= x < w.2) ws.
Proof.
  intros Hws Ha Hw Hlt. unfold touches. rewrite wrap_small by (unfold in_range; lia). rewrite !Exists_exists, Forall_forall in *.
  split; intros ([s e] & Hin & Hx); exists (s, e); (split; [done|]); specialize (Hws _ Hin); cbn in *.
  - exists (Z.max a s). lia.
  - destruct Hx as (x & ? & ?). lia.
Qed.

(** A range that ends with the address space has its end at 0 and sees nothing. *)
Example top_range_silent :
  watch_log (store32 0xFFFFFFF0 7 (add_watch 0xFFFFF000 0x1000 (map 0xFFFFF000 0x1000 perm_W new))).1 = [].
Proof. vm_compute. reflexivity. Qed.

(** C15: every memory the emulator can reach by its public calls, in any order
    and with calls that trap half-way included, is well formed: pages only at
    the 2^20 indices and each of 4096 bytes; and its watch log is truthful and
    complete. The history of the stores that completed (all their bytes were
    writable) and touched a range armed at that moment, since the log was last
    cleared, is told without the log ([history]); the log is the part of the
    history it had room for, in order, each event with its ordinal, address,
    width, value and instruction; the counter is the length of the history and
    the dropped count the rest, so when nothing was dropped the log is the
    whole history. *)
Theorem mmu_reachable_inv (h : History) (m : Mmu) : reachable h m ->
  inv m /\ watch_log m = kept_events h /\ watch_seq m = len h /\ watch_dropped m = len h - len (watch_log m) /\
  (watch_dropped m = 0 -> watch_log m = h.*1).
Proof.
  intros Hr. assert (inv m /\ tells h m) as [Hi [H1 H2 H3]].
  { induction Hr as [|h m o m' r _ [IH1 IH2] Ho E Hr]; [split; [apply inv_new|by split]|].
    pose proof (keeps_op o Ho m IH1) as Hk. pose proof (tells_op h m o Ho IH2) as Ht. rewrite E in Hk, Ht. auto. }
  split_and!; [done..|by rewrite H1|]. rewrite H1, H3. apply kept_events_all.
Qed.

Lemma reach_step h m o : reachable h m -> op_ok o -> (run_op o m).2 <> Panic -> reachable (history m o h) (run_op o m).1.
Proof. intros Hm Ho Hr. apply (reach_op h m o _ (run_op o m).2); [done|done|by destruct (run_op o m)|done]. Qed.

(** Two watched stores, the second one dropped by the limit. *)
Definition armed : Mmu := set_watch_limit 1 (add_watch 0x1000 4 (map 0x1000 1 perm_W new)).
Definition watched : Mmu := (store16 0x1001 7 (store8 0x1000 1 armed).1).1.

Lemma mmu_reachable_inv_witness :
  inv watched /\ watch_dropped watched = 1 /\
  watch_log watched = [{| w_seq := 1; w_addr := 0x1000; w_width := 1; w_value := 1; w_eip := 0 |}].
Proof.
  assert (forall x, 0 <= x < 2 ^ 32 -> in_range 32 x) as Hr by (intros x Hx; exact Hx).
  assert (exists h, reachable h watched /\ len h = 2 /\
    kept_events h = [{| w_seq := 1; w_addr := 0x1000; w_width := 1; w_value := 1; w_eip := 0 |}]) as (h & Hh & Hl & Hk).
  { eexists. split.
    - eapply (reach_step _ _ (OpStore16 0x1001 7)); [|apply Hr; lia|vm_compute; discriminate].
      eapply (reach_step _ _ (OpStore8 0x1000 1)); [|apply Hr; lia|vm_compute; discriminate].
      eapply (reach_step _ _ (OpSetWatchLimit 1)); [|exact I|discriminate].
      eapply (reach_step _ _ (OpAddWatch 0x1000 4)); [|split; apply Hr; lia|discriminate].
      eapply (reach_step _ _ (OpMap 0x1000 1 perm_W)); [apply reach_new|split; apply Hr; lia|discriminate].
    - split; vm_compute; reflexivity. }
  destruct (mmu_reachable_inv h watched Hh) as (Hi & Hlog & _ & Hd & _). split; [exact Hi|].
  rewrite Hd, Hlog, Hl, Hk. split; reflexivity.
Defined.
