(* ===== verification/Wasm.v ===== *)
(** The WebAssembly container (src/src/format/wasm.rs): the section table, and
    the LEB128 sizes it is built from. *)

From S2P Require Import Prelude Text.

(** * Constants, errors and data *)

Definition MAGIC : list byte := byte_of <$> [0x00; 0x61; 0x73; 0x6d].

Inductive Error : Type :=
| TooShort (length : Z)
| BadMagic (magic : list byte)
| SectionTruncated (at_ : Z)
| LebOverflow (at_ : Z)
| LebTooLarge (at_ : Z)
| SectionRunsPastEnd (at_ size : Z).

Definition SECTION_CUSTOM : Z := 0.

(** The two ranges are pairs of their ends. *)
Record Section_ : Type := {
  id : Z;
  header_range : Z * Z;
  body_range : Z * Z;
}.

Record WasmFile : Type := {
  bytes : list byte;
  version : Z;
  sections : list Section_;
}.

(** * LEB128 *)

(** The loop leaves after six bytes at the latest. *)
Fixpoint leb_loop (fuel : nat) (bytes : list byte) (at_ result shift i : Z) : res Error (Z * Z) :=
  match fuel with
  | O => Panic
  | S fuel' =>
      pos ← ok_or (checked_add64 at_ i) (LebOverflow at_);
      b ← ok_or (get bytes pos) (LebOverflow at_);
      let chunk := Z.land (u8 b) 0x7f in
      let result := Z.lor result (wrap64 (Z.shiftl chunk shift)) in
      let i := i + 1 in
      if Z.land (u8 b) 0x80 =? 0 then Ok (result, i)
      else
        let shift := shift + 7 in
        if 5 <? i then Err (LebOverflow at_) else leb_loop fuel' bytes at_ result shift i
  end.

Definition read_leb128_u32 (bytes : list byte) (at_ : Z) : res Error (Z * Z) :=
  ri ← leb_loop 7 bytes at_ 0 0 0;
  let '(result, i) := ri in
  if 2 ^ 32 - 1 <? result then Err (LebTooLarge at_) else Ok (result, i).

(** * The container *)

(** [while cursor < bytes.len()]: a section is at least two bytes long. *)
Fixpoint section_loop (fuel : nat) (bytes : list byte) (cursor : Z) (sections : list Section_)
    : res Error (list Section_) :=
  if cursor <? len bytes then
    match fuel with
    | O => Panic
    | S fuel' =>
        next ← usize_add cursor 1;
        if len bytes <? next then Err (SectionTruncated cursor)
        else
          b ← index bytes cursor;
          let header_start := cursor in
          sz ← read_leb128_u32 bytes next;
          let '(size, size_len) := sz in
          body_start ← usize_add next size_len;
          body_end ← ok_or (checked_add64 body_start size) (SectionRunsPastEnd header_start size);
          if len bytes <? body_end then Err (SectionRunsPastEnd header_start size)
          else
            section_loop fuel' bytes body_end
              (sections ++ [{| id := u8 b; header_range := (header_start, body_start);
                               body_range := (body_start, body_end) |}])
    end
  else Ok sections.

Definition parse (bytes : list byte) : res Error WasmFile :=
  if len bytes <? 8 then Err (TooShort (len bytes))
  else
    magic ← slice bytes 0 4;
    if negb (str_eqb magic MAGIC) then Err (BadMagic magic)
    else
      v ← slice bytes 4 8;
      secs ← section_loop (length bytes) bytes 8 [];
      Ok {| bytes := bytes; version := from_le v; sections := secs |}.

Definition write_to_vec (f : WasmFile) : list byte := bytes f.

Definition section_body (f : WasmFile) (s : Section_) : res Error (list byte) :=
  slice (bytes f) (body_range s).1 (body_range s).2.

(** [.ok()?] turns the error of the length into [None]. *)
Definition custom_section_name (f : WasmFile) (s : Section_) : res Error (option (list byte)) :=
  if negb (id s =? SECTION_CUSTOM) then Ok None
  else
    body ← section_body f s;
    match read_leb128_u32 body 0 with
    | Panic => Panic
    | Err _ => Ok None
    | Ok (n, n_len) =>
        match checked_add64 n_len n with
        | None => Ok None
        | Some name_end =>
            if len body <? name_end then Ok None
            else
              name ← slice body n_len name_end;
              Ok (if utf8_valid name then Some name else None)
        end
    end.

Definition is_wasm (bytes : list byte) : bool :=
  (4 <=? len bytes) && str_eqb (sub bytes 0 4) MAGIC.

(** * The encoding of sizes *)

(** [l] is an LEB128 encoding of [v], of any width. *)
Inductive leb : list byte -> Z -> Prop :=
| leb_last b : u8 b < 128 -> leb [b] (u8 b)
| leb_more b l v : 128 <= u8 b -> leb l v -> leb (b :: l) (u8 b - 128 + 128 * v).

Lemma leb_nonneg l v : leb l v -> 0 <= v /\ 1 <= len l.
Proof.
  induction 1 as [b|b l v Hb Hl IH]; pose proof (u8_range b); unfold len in *; simpl in *; lia.
Qed.

Lemma leb_range l v : leb l v -> v < 2 ^ (7 * len l).
Proof.
  induction 1 as [b|b l v Hb Hl IH]; [change (7 * len [b]) with 7; lia|].
  pose proof (u8_range b). assert (len (b :: l) = 1 + len l) as -> by (unfold len; simpl; lia).
  pose proof (len_nonneg l). rewrite Z.mul_add_distr_l, Z.pow_add_r by lia.
  change (2 ^ (7 * 1)) with 128. lia.
Qed.

Lemma high_bit b : Z.land (u8 b) 0x80 = (if u8 b <? 128 then 0 else 128) /\
  Z.land (u8 b) 0x7f = (if u8 b <? 128 then u8 b else u8 b - 128).
Proof.
  pose (chk := fun c => (Z.land c 0x80 =? (if c <? 128 then 0 else 128)) &&
                        (Z.land c 0x7f =? (if c <? 128 then c else c - 128))).
  assert (chk (u8 b) = true) as H by (revert b; by apply (all_bytes_spec (fun b => chk (u8 b)))).
  apply andb_true_iff in H as [? ?]. lia.
Qed.

(** An encoding is determined by the bytes it starts. *)
Lemma leb_unique l v l' v' r r' : leb l v -> leb l' v' -> l ++ r = l' ++ r' -> l = l' /\ v = v'.
Proof.
  intros H. revert l' v'. induction H as [b Hb|b l v Hb Hl IH]; intros l' v' H' E.
  - inversion H' as [b' Hb'|b' l2 v2 Hb' Hl2]; subst; simplify_eq/=; [done|lia].
  - inversion H' as [b' Hb'|b' l2 v2 Hb' Hl2]; subst; simplify_eq/=; [lia|].
    by destruct (IH l2 v2 Hl2) as [-> ->].
Qed.

Lemma lor_low res b s : 0 <= s <= 35 -> 0 <= res < 2 ^ s -> 0 <= b < 128 ->
  Z.lor res (wrap64 (Z.shiftl b s)) = res + 2 ^ s * b.
Proof.
  intros Hs Hr Hb. assert (2 ^ s <= 2 ^ 35) by (apply Z.pow_le_mono_r; lia).
  assert (0 < 2 ^ s) by lia.
  assert (wrap64 (Z.shiftl b s) = Z.shiftl b s) as ->.
  { unfold wrap. rewrite Z.shiftl_mul_pow2 by lia. apply Z.mod_small. nia. }
  rewrite Z.lor_comm, lor_shiftl_add by lia. lia.
Qed.

(** The loop finds the encoding at [at_ + i], if one of at most [6 - i] bytes
    is there. *)
Lemma leb_loop_ok fuel bs at_ res i :
  0 <= at_ -> at_ + 6 < 2 ^ 64 -> 0 <= i <= 5 -> 0 <= res < 2 ^ (7 * i) -> 6 - i <= Z.of_nat fuel ->
  match leb_loop fuel bs at_ res (7 * i) i with
  | Ok (r, n) => exists l v rest, leb l v /\ drop (Z.to_nat (at_ + i)) bs = l ++ rest /\
                   n = i + len l /\ n <= 6 /\ r = res + 2 ^ (7 * i) * v
  | Err e => e = LebOverflow at_ /\ forall l v rest, leb l v -> len l <= 6 - i ->
               drop (Z.to_nat (at_ + i)) bs <> l ++ rest
  | Panic => False
  end.
Proof.
  intros Hat Hend. revert res i. induction fuel as [|fuel IH]; intros res i Hi Hr Hf; [lia|].
  cbn [leb_loop]. unfold checked_add64. replace (at_ + i <? 2 ^ 64) with true by lia.
  cbn [ok_or mbind res_bind]. destruct (get bs (at_ + i)) as [b|] eqn:Eg; cbn [ok_or mbind res_bind].
  2:{ split; [done|]. intros l v rest Hl _. rewrite (get_None bs (at_ + i) ltac:(lia) Eg).
      by inversion Hl; subst. }
  apply drop_get in Eg as [_ Eg]. destruct (high_bit b) as [E1 E2]. rewrite E1, E2.
  pose proof (u8_range b). rewrite Eg.
  destruct (Z.ltb_spec (u8 b) 128) as [Hb|Hb]; cbn [Z.eqb].
  - rewrite lor_low by lia. exists [b], (u8 b), (drop (Z.to_nat (at_ + i + 1)) bs).
    split_and!; [by constructor|done|done|lia|done].
  - rewrite lor_low by lia. destruct (Z.ltb_spec 5 (i + 1)) as [H5|H5].
    { split; [done|]. intros l v rest Hl Hlen E. inversion Hl; subst; simplify_eq/=; [lia|].
      unfold len in Hlen. simpl in Hlen. pose proof (leb_nonneg _ _ H1) as [_ ?]. unfold len in *. lia. }
    replace (7 * i + 7) with (7 * (i + 1)) by lia.
    assert (2 ^ (7 * (i + 1)) = 2 ^ (7 * i) * 128) as Hp.
    { rewrite Z.mul_add_distr_l, Z.pow_add_r by lia. done. }
    specialize (IH (res + 2 ^ (7 * i) * (u8 b - 128)) (i + 1) ltac:(lia) ltac:(nia) ltac:(lia)).
    replace (at_ + (i + 1)) with (at_ + i + 1) in IH by lia.
    destruct (leb_loop _ _ _ _ _ _) as [[r n]|e|]; [| |done].
    + destruct IH as (l & v & rest & Hl & Hd & Hn & Hn6 & Hv).
      exists (b :: l), (u8 b - 128 + 128 * v), rest. rewrite Hd. split_and!.
      * by constructor.
      * done.
      * unfold len in *. simpl length. lia.
      * done.
      * rewrite Hv, Hp. lia.
    + destruct IH as [-> Hno]. split; [done|]. intros l v rest Hl Hlen E.
      inversion Hl as [b' Hb'|b' l2 v2 Hb' Hl2]; subst; simplify_eq/=; [lia|].
      apply (Hno l2 v2 rest Hl2); [unfold len in *; simpl in Hlen; lia|done].
Qed.

(** Reading a size: the encoding at the position, if it has at most six bytes
    and fits 32 bits. *)
Lemma read_leb_ok bs at_ : 0 <= at_ -> at_ + 6 < 2 ^ 64 ->
  match read_leb128_u32 bs at_ with
  | Ok (v, n) => exists l rest, leb l v /\ drop (Z.to_nat at_) bs = l ++ rest /\ n = len l /\
                   n <= 6 /\ v < 2 ^ 32
  | Err e => (e = LebOverflow at_ \/ e = LebTooLarge at_) /\
      forall l v rest, leb l v -> len l <= 6 -> v < 2 ^ 32 -> drop (Z.to_nat at_) bs <> l ++ rest
  | Panic => False
  end.
Proof.
  intros Hat Hend. unfold read_leb128_u32.
  pose proof (leb_loop_ok 7 bs at_ 0 0 Hat Hend ltac:(lia) ltac:(lia) ltac:(lia)) as H.
  rewrite Z.mul_0_r, Z.add_0_r in H. destruct (leb_loop 7 bs at_ 0 0 0) as [[r n]|e|]; [| |done];
    cbn [mbind res_bind].
  - destruct H as (l & v & rest & Hl & Hd & -> & Hn & ->).
    replace (0 + 2 ^ 0 * v) with v by lia. replace (0 + len l) with (len l) in * by lia.
    destruct (Z.ltb_spec (2 ^ 32 - 1) v).
    + split; [by right|]. intros l' v' rest' Hl' _ Hv' E.
      destruct (leb_unique l v l' v' rest rest' Hl Hl') as [_ ->]; [congruence|lia].
    + exists l, rest. split_and!; try done. lia.
  - destruct H as [-> H]. split; [by left|]. intros l v rest Hl Hlen _. by apply (H l v).
Qed.

(** * The section table *)

(** The bytes of a module from [pos] on are the sections [ss]: an id, a size
    encoded in at most six bytes, and as many bytes of body. *)
Inductive sections_at (bs : list byte) : Z -> list Section_ -> Prop :=
| sections_end : sections_at bs (len bs) []
| sections_cons pos b l size rest ss :
    0 <= pos -> drop (Z.to_nat pos) bs = b :: l ++ rest ->
    leb l size -> len l <= 6 -> size < 2 ^ 32 -> size <= len rest ->
    sections_at bs (pos + 1 + len l + size) ss ->
    sections_at bs pos
      ({| id := u8 b; header_range := (pos, pos + 1 + len l);
          body_range := (pos + 1 + len l, pos + 1 + len l + size) |} :: ss).

(** The errors of the section table. *)
Definition section_error (e : Error) : Prop :=
  match e with TooShort _ | BadMagic _ => False | _ => True end.

Lemma section_loop_ok fuel bs cursor acc :
  len bs < 2 ^ 63 -> 0 <= cursor <= len bs -> len bs - cursor <= Z.of_nat fuel ->
  match section_loop fuel bs cursor acc with
  | Ok l => exists ss, l = acc ++ ss /\ sections_at bs cursor ss
  | Err e => section_error e /\ forall ss, ~ sections_at bs cursor ss
  | Panic => False
  end.
Proof.
  intros Hlen. revert cursor acc. induction fuel as [|fuel IH]; intros cursor acc Hc Hf; cbn [section_loop].
  { replace (cursor <? len bs) with false by lia. exists []. rewrite app_nil_r.
    split; [done|]. replace cursor with (len bs) by lia. constructor. }
  destruct (Z.ltb_spec cursor (len bs)) as [Hlt|]; cycle 1.
  { exists []. rewrite app_nil_r. split; [done|]. replace cursor with (len bs) by lia. constructor. }
  rewrite usize_add_ok by lia. cbn [mbind res_bind].
  destruct (Z.ltb_spec (len bs) (cursor + 1)); [lia|].
  assert (exists b, get bs cursor = Some b) as [b Eb].
  { unfold get. replace (0 <=? cursor) with true by lia. apply lookup_lt_is_Some_2. unfold len in *. lia. }
  unfold index. rewrite Eb. cbn [or_panic mbind res_bind]. apply drop_get in Eb as [_ Eb].
  assert (forall ss, sections_at bs cursor ss -> exists l size rest ss',
            drop (Z.to_nat (cursor + 1)) bs = l ++ rest /\ leb l size /\ len l <= 6 /\ size < 2 ^ 32 /\
            size <= len rest /\ sections_at bs (cursor + 1 + len l + size) ss') as Hinv.
  { intros ss Hs. inversion Hs as [|? b' l size rest ss' ? E]; subst; [lia|].
    exists l, size, rest, ss'. rewrite Eb in E. by simplify_eq. }
  pose proof (read_leb_ok bs (cursor + 1) ltac:(lia) ltac:(lia)) as Hr.
  destruct (read_leb128_u32 bs (cursor + 1)) as [[size n]|e|]; [| |done]; cbn [mbind res_bind].
  2:{ destruct Hr as [He Hr]. split; [by destruct He as [-> | ->]|]. intros ss (l & size & rest & ss' & E & Hl & H6 & H32 & _)%Hinv.
      by apply (Hr l size rest). }
  destruct Hr as (l & rest & Hl & Ed & -> & H6 & H32). pose proof (leb_nonneg _ _ Hl).
  assert (len rest = len bs - (cursor + 1 + len l)) as Hrest.
  { apply (f_equal len) in Ed. rewrite len_drop, len_app in Ed by lia. lia. }
  pose proof (len_nonneg rest).
  rewrite usize_add_ok by lia. unfold checked_add64. cbn [mbind res_bind]. replace (cursor + 1 + len l + size <? 2 ^ 64) with true by lia.
  cbn [ok_or mbind res_bind].
  destruct (Z.ltb_spec (len bs) (cursor + 1 + len l + size)).
  - split; [done|]. intros ss (l' & size' & rest' & ss' & E & Hl' & _ & _ & Hsz & _)%Hinv.
    destruct (leb_unique l size l' size' rest rest' Hl Hl') as [-> ->]; [congruence|].
    assert (rest = rest') as -> by (apply (app_inv_head l'); congruence). lia.
  - specialize (IH (cursor + 1 + len l + size)
      (acc ++ [{| id := u8 b; header_range := (cursor, cursor + 1 + len l);
                  body_range := (cursor + 1 + len l, cursor + 1 + len l + size) |}])
      ltac:(lia) ltac:(lia)).
    destruct (section_loop fuel bs _ _) as [secs|e|]; [| |done].
    + destruct IH as (ss & -> & Hs). eexists. rewrite <- (assoc_L (++)). split; [done|].
      econstructor; try done; [lia|by rewrite Eb, Ed|lia].
    + destruct IH as [He IH]. split; [done|].
      intros ss (l' & size' & rest' & ss' & E & Hl' & _ & _ & _ & Hs)%Hinv.
      destruct (leb_unique l size l' size' rest rest' Hl Hl') as [-> ->]; [congruence|].
      by apply (IH ss').
Qed.

(** The sections are the bytes: headers and bodies, in order, leave nothing out. *)
Lemma sections_tile bs pos ss : sections_at bs pos ss ->
  List.concat (map (fun s => sub bs (header_range s).1 (header_range s).2 ++
                             sub bs (body_range s).1 (body_range s).2) ss) = sub bs pos (len bs).
Proof.
  induction 1 as [|pos b l size rest ss Hp Ed Hl H6 H32 Hsz Hs IH]; [by rewrite sub_nil|].
  cbn [map List.concat header_range body_range fst snd]. rewrite IH.
  pose proof (leb_nonneg _ _ Hl).
  assert (pos + 1 + len l + size <= len bs) as Hle.
  { assert (pos <= len bs) as Hpb.
    { destruct (Z.le_gt_cases pos (len bs)); [done|].
      rewrite drop_ge in Ed by (unfold len in *; lia). done. }
    apply (f_equal len) in Ed. rewrite len_drop in Ed by lia.
    change (b :: l ++ rest) with ([b] ++ l ++ rest) in Ed. rewrite !len_app in Ed.
    change (len [b]) with 1 in Ed. lia. }
  rewrite (sub_app bs pos), (sub_app bs pos) by lia. done.
Qed.

Lemma sections_in bs pos ss s : sections_at bs pos ss -> s ∈ ss ->
  0 <= (body_range s).1 <= (body_range s).2 /\ (body_range s).2 <= len bs.
Proof.
  intros H. assert (pos <= len bs) as Hb.
  { induction H; [lia|]. pose proof (leb_nonneg _ _ H1). lia. }
  induction H as [|pos b l size rest ss Hp Ed Hl H6 H32 Hsz Hs IH]; [by intros ?%elem_of_nil|].
  pose proof (leb_nonneg _ _ Hl).
  assert (pos + 1 + len l + size <= len bs) as Hle.
  { apply (f_equal len) in Ed. rewrite len_drop in Ed by lia.
    change (b :: l ++ rest) with ([b] ++ l ++ rest) in Ed. rewrite !len_app in Ed.
    change (len [b]) with 1 in Ed. lia. }
  intros [->|Hin]%elem_of_cons; [cbn; lia|by apply IH].
Qed.

(** The name of a custom section whose body is [body]. *)
Definition names (body name : list byte) : Prop :=
  exists l rest, body = l ++ name ++ rest /\ leb l (len name) /\ len l <= 6 /\
    len name < 2 ^ 32 /\ utf8_valid name = true.

Lemma custom_name_ok f s body : len body < 2 ^ 63 -> section_body f s = Ok body -> id s = 0 ->
  exists o, custom_section_name f s = Ok o /\ forall name, o = Some name <-> names body name.
Proof.
  intros Hlen Hb Hid. unfold custom_section_name. rewrite Hb, Hid. cbn [negb Z.eqb mbind res_bind].
  pose proof (read_leb_ok body 0 ltac:(lia) ltac:(lia)) as Hr. rewrite drop_0 in Hr.
  destruct (read_leb128_u32 body 0) as [[n k]|e|]; [| |done].
  2:{ destruct Hr as [_ Hr]. exists None. split; [done|]. intros name. split; [done|].
      intros (l & rest & E & Hl & H6 & H32 & _). by destruct (Hr _ _ (name ++ rest) Hl H6 H32). }
  destruct Hr as (l & rest & Hl & E & -> & H6 & H32). pose proof (leb_nonneg _ _ Hl).
  unfold checked_add64. replace (len l + n <? 2 ^ 64) with true by lia.
  assert (forall name, names body name -> exists r, rest = name ++ r /\ len name = n) as Hinv.
  { intros name (l' & r & E' & Hl' & _ & _ & _).
    destruct (leb_unique l n l' (len name) rest (name ++ r) Hl Hl') as [-> Hn]; [congruence|].
    exists r. split; [|done]. apply (app_inv_head l'). congruence. }
  assert (len body = len l + len rest) as Hlb by (rewrite E; apply len_app).
  destruct (Z.ltb_spec (len body) (len l + n)).
  { exists None. split; [done|]. intros name. split; [done|]. intros (r & -> & Hn)%Hinv.
    rewrite len_app in Hlb. pose proof (len_nonneg r). lia. }
  rewrite slice_ok by lia. cbn [mbind res_bind].
  assert (sub body (len l) (len l + n) = take (Z.to_nat n) rest) as ->.
  { unfold sub, len. rewrite E, Nat2Z.id, drop_app_length. f_equal. lia. }
  assert (len (take (Z.to_nat n) rest) = n) as Hn by (unfold len in *; rewrite length_take; lia).
  assert (forall name r, rest = name ++ r -> len name = n -> take (Z.to_nat n) rest = name) as Ht.
  { intros name r -> <-. unfold len. rewrite Nat2Z.id. apply take_app_length. }
  eexists. split; [done|]. intros name. split.
  - destruct (utf8_valid _) eqn:Eu; [|done]. intros [= <-].
    exists l, (drop (Z.to_nat n) rest). rewrite take_drop, Hn. done.
  - intros Hname. pose proof Hname as (? & ? & _ & _ & _ & _ & Hu). apply Hinv in Hname as (r & Er & Hnn).
    rewrite (Ht name r Er Hnn), Hu. done.
Qed.

(** C17: reading a WebAssembly module is exact and total. Without panicking, the
    parser accepts the magic, four bytes of version, and a sequence of
    sections, each an id, a size in at most six bytes of LEB128 below 2^32,
    and a body of that size that ends inside the file; it refuses everything
    else, with the reason for a short file or a wrong magic. What it returns is
    that sequence: header and body ranges that tile the file from byte 8 to its
    end, so the bodies can be sliced, the file written back is the input, and
    a custom section has exactly the name its body starts with. *)
Theorem wasm_parse_exact (bs : list byte) :
  len bs < 2 ^ 63 ->
  match parse bs with
  | Ok f =>
      write_to_vec f = bs /\ version f = from_le (sub bs 4 8) /\ sub bs 0 4 = MAGIC /\
      sections_at bs 8 (sections f) /\
      sub bs 0 8 ++ List.concat (map (fun s => sub bs (header_range s).1 (header_range s).2 ++
        sub bs (body_range s).1 (body_range s).2) (sections f)) = bs /\
      forall s, s ∈ sections f ->
        section_body f s = Ok (sub bs (body_range s).1 (body_range s).2) /\
        exists o, custom_section_name f s = Ok o /\ forall name,
          o = Some name <-> id s = 0 /\ names (sub bs (body_range s).1 (body_range s).2) name
  | Err (TooShort n) => n = len bs /\ len bs < 8
  | Err (BadMagic m) => 8 <= len bs /\ m = sub bs 0 4 /\ m <> MAGIC
  | Err _ => 8 <= len bs /\ sub bs 0 4 = MAGIC /\ forall ss, ~ sections_at bs 8 ss
  | Panic => False
  end.
Proof.
  intros Hlen. unfold parse. destruct (Z.ltb_spec (len bs) 8) as [|H8]; [done|].
  rewrite (slice_ok bs 0 4), (slice_ok bs 4 8) by lia. cbn [mbind res_bind].
  destruct (str_eqb (sub bs 0 4) MAGIC) eqn:Hm; cbn [negb]; 
    [apply bool_decide_eq_true in Hm|].
  2:{ apply bool_decide_eq_false in Hm. by split_and!. }
  pose proof (section_loop_ok (length bs) bs 8 [] Hlen ltac:(lia) ltac:(unfold len in *; lia)) as Hs.
  destruct (section_loop _ _ _ _) as [l|e|] eqn:El; cbn [mbind res_bind]; [| |done].
  2:{ destruct Hs as [He Hs]. by destruct e. }
  destruct Hs as (ss & -> & Hs). cbn [app write_to_vec bytes version sections].
  split_and!; try done.
  - rewrite (sections_tile bs 8 ss Hs), sub_app by lia. apply sub_full.
  - intros s Hin. destruct (sections_in bs 8 ss s Hs Hin) as [Hb1 Hb2].
    assert (section_body {| bytes := bs; version := from_le (sub bs 4 8); sections := ss |} s =
            Ok (sub bs (body_range s).1 (body_range s).2)) as Hbody by (by apply slice_ok).
    split; [done|]. destruct (decide (id s = 0)) as [Hid|Hid].
    + destruct (custom_name_ok _ s (sub bs (body_range s).1 (body_range s).2)
        ltac:(rewrite len_sub by lia; lia) Hbody Hid) as (o & Ho & Hn).
      exists o. split; [done|]. intros name. rewrite Hn. tauto.
    + exists None. unfold custom_section_name. replace (id s =? SECTION_CUSTOM) with false
        by (unfold SECTION_CUSTOM; lia). split; [done|]. intros name. split; [done|tauto].
Qed.

(** A module with one custom section, named [a], and one empty section whose
    size takes two bytes. *)
Definition small_module : list byte :=
  byte_of <$> [0; 0x61; 0x73; 0x6d; 1; 0; 0; 0; 0; 3; 1; 0x61; 7; 5; 0x80; 0].

Lemma wasm_parse_exact_witness :
  len small_module < 2 ^ 63 /\
  match parse small_module with
  | Ok f =>
      write_to_vec f = small_module /\ version f = from_le (sub small_module 4 8) /\
      sub small_module 0 4 = MAGIC /\ sections_at small_module 8 (sections f) /\
      map id (sections f) = [0; 5] /\
      map (custom_section_name f) (sections f) = [Ok (Some (byte_of <$> [0x61])); Ok None]
  | _ => False
  end.
Proof.
  assert (len small_module < 2 ^ 63) as H by by vm_compute.
  split; [exact H|]. pose proof (wasm_parse_exact small_module H) as Hp.
  destruct (parse small_module) as [f| |] eqn:E; [|by vm_compute in E|done].
  destruct Hp as (Hw & Hv & Hm & Hs & _). vm_compute in E. injection E as <-.
  split_and!; [exact Hw|exact Hv|exact Hm|exact Hs|reflexivity|vm_compute; reflexivity].
Defined.
