(* ===== verification/Regs.v ===== *)
(** The 32-bit x86 register file (src/src/emulator/emulator/regs.rs): the
    general registers with their 16-bit and 8-bit parts, and the flags with
    their EFLAGS image. A [u32], [u16] or [u8] is a [Z] in range; [Regs_wf]
    states the ranges of a register file. *)

From S2P Require Import Prelude.

(** * Register numbers *)

Inductive Reg32 : Type := Eax | Ecx | Edx | Ebx | Esp | Ebp | Esi | Edi.
Inductive Reg16 : Type := Ax | Cx | Dx | Bx | Sp | Bp | Si | Di.
Inductive Reg8 : Type := Al | Cl | Dl | Bl | Ah | Ch | Dh | Bh.

#[export] Instance Reg32_eq_dec : EqDecision Reg32.
Proof. solve_decision. Defined.

(** [r as usize]: the discriminants. *)
Definition reg32_index (r : Reg32) : nat :=
  match r with Eax => 0 | Ecx => 1 | Edx => 2 | Ebx => 3 | Esp => 4 | Ebp => 5 | Esi => 6 | Edi => 7 end.

Definition reg16_index (r : Reg16) : nat :=
  match r with Ax => 0 | Cx => 1 | Dx => 2 | Bx => 3 | Sp => 4 | Bp => 5 | Si => 6 | Di => 7 end.

Definition reg8_index (r : Reg8) : nat :=
  match r with Al => 0 | Cl => 1 | Dl => 2 | Bl => 3 | Ah => 4 | Ch => 5 | Dh => 6 | Bh => 7 end.

(** The last arm of each [from_bits] is [unreachable!]: [b & 7] is below 8. *)
Definition reg32_from_bits (b : Z) : Reg32 :=
  match Z.land b 7 with
  | 0 => Eax | 1 => Ecx | 2 => Edx | 3 => Ebx | 4 => Esp | 5 => Ebp | 6 => Esi | _ => Edi
  end.

Definition reg16_from_bits (b : Z) : Reg16 :=
  match Z.land b 7 with
  | 0 => Ax | 1 => Cx | 2 => Dx | 3 => Bx | 4 => Sp | 5 => Bp | 6 => Si | _ => Di
  end.

Definition reg8_from_bits (b : Z) : Reg8 :=
  match Z.land b 7 with
  | 0 => Al | 1 => Cl | 2 => Dl | 3 => Bl | 4 => Ah | 5 => Ch | 6 => Dh | _ => Bh
  end.

(** * Flags *)

Record Flags : Type := {
  cf : bool;
  pf : bool;
  af : bool;
  zf : bool;
  sf : bool;
  df : bool;
  of_ : bool;
  id_ : bool;
}.

Definition flags_default : Flags :=
  {| cf := false; pf := false; af := false; zf := false; sf := false; df := false;
     of_ := false; id_ := false |}.

(** [if c { v |= 1 << n; }] *)
Definition set_bit (c : bool) (n v : Z) : Z := if c then Z.lor v (Z.shiftl 1 n) else v.

Definition pack (f : Flags) : Z :=
  let v := 2 in
  let v := set_bit (cf f) 0 v in
  let v := set_bit (pf f) 2 v in
  let v := set_bit (af f) 4 v in
  let v := set_bit (zf f) 6 v in
  let v := set_bit (sf f) 7 v in
  let v := set_bit (df f) 10 v in
  let v := set_bit (of_ f) 11 v in
  set_bit (id_ f) 21 v.

(** [(v & (1 << n)) != 0] *)
Definition has_bit (v n : Z) : bool := negb (Z.land v (Z.shiftl 1 n) =? 0).

Definition unpack (v : Z) : Flags :=
  {| cf := has_bit v 0; pf := has_bit v 2; af := has_bit v 4; zf := has_bit v 6;
     sf := has_bit v 7; df := has_bit v 10; of_ := has_bit v 11; id_ := has_bit v 21 |}.

Definition parity8 (b : Z) : bool :=
  let x := b in
  let x := Z.lxor x (Z.shiftr x 4) in
  let x := Z.lxor x (Z.shiftr x 2) in
  let x := Z.lxor x (Z.shiftr x 1) in
  Z.land x 1 =? 0.

(** Assigning [zf], [sf] and [pf]. *)
Definition with_szp (f : Flags) (z s p : bool) : Flags :=
  {| cf := cf f; pf := p; af := af f; zf := z; sf := s; df := df f; of_ := of_ f; id_ := id_ f |}.

Definition set_szp_32 (f : Flags) (result : Z) : Flags :=
  with_szp f (result =? 0) (negb (Z.land result 0x80000000 =? 0)) (parity8 (wrap8 result)).

Definition set_szp_16 (f : Flags) (result : Z) : Flags :=
  with_szp f (result =? 0) (negb (Z.land result 0x8000 =? 0)) (parity8 (wrap8 result)).

Definition set_szp_8 (f : Flags) (result : Z) : Flags :=
  with_szp f (result =? 0) (negb (Z.land result 0x80 =? 0)) (parity8 result).

Definition set_szp_64 (f : Flags) (result : Z) : Flags :=
  with_szp f (result =? 0) (negb (Z.land result 0x8000000000000000 =? 0)) (parity8 (wrap8 result)).

(** * The register file *)

Record Regs : Type := {
  gp : list Z;
  eip : Z;
  flags : Flags;
  gp64 : list Z;
  rip : Z;
}.

Definition regs_new : Regs :=
  {| gp := replicate 8 0; eip := 0; flags := flags_default; gp64 := replicate 16 0; rip := 0 |}.

(** Reading an array at an index below its length. *)
Definition gp_at (r : Regs) (i : nat) : Z := default 0 (gp r !! i).

Definition with_gp (r : Regs) (i : nat) (v : Z) : Regs :=
  {| gp := <[i := v]> (gp r); eip := eip r; flags := flags r; gp64 := gp64 r; rip := rip r |}.

Definition get32 (s : Regs) (r : Reg32) : Z := gp_at s (reg32_index r).
Definition set32 (s : Regs) (r : Reg32) (v : Z) : Regs := with_gp s (reg32_index r) v.

Definition get16 (s : Regs) (r : Reg16) : Z := wrap16 (gp_at s (reg16_index r)).
Definition set16 (s : Regs) (r : Reg16) (v : Z) : Regs :=
  let idx := reg16_index r in
  with_gp s idx (Z.lor (Z.land (gp_at s idx) 0xFFFF0000) v).

Definition get8 (s : Regs) (r : Reg8) : Z :=
  let i := reg8_index r in
  if (i <? 4)%nat then wrap8 (gp_at s i) else wrap8 (Z.shiftr (gp_at s (i - 4)) 8).

Definition set8 (s : Regs) (r : Reg8) (v : Z) : Regs :=
  let i := reg8_index r in
  if (i <? 4)%nat then with_gp s i (Z.lor (Z.land (gp_at s i) 0xFFFFFF00) v)
  else
    let host := (i - 4)%nat in
    with_gp s host (Z.lor (Z.land (gp_at s host) 0xFFFF00FF) (Z.shiftl v 8)).

Definition esp (s : Regs) : Z := gp_at s (reg32_index Esp).
Definition set_esp (s : Regs) (v : Z) : Regs := with_gp s (reg32_index Esp) v.
Definition ebp (s : Regs) : Z := gp_at s (reg32_index Ebp).

(** * Stepping (src/src/emulator/emulator/isa_int.rs) *)

(** The return address host calls push, and what an instruction that did not
    trap reports. *)
Definition RET_SENTINEL : Z := 0xFFFFFFF0.

Inductive StepOk : Type := Continued | Halted.

(** * Parts of registers *)

(** The name of a register or of a part of one: the general register it lies
    in, the lowest of its bits there, and their number. *)
Inductive Part : Type := Whole (r : Reg32) | Half (r : Reg16) | Quarter (r : Reg8).

Definition host (p : Part) : nat :=
  match p with
  | Whole r => reg32_index r
  | Half r => reg16_index r
  | Quarter r => if (reg8_index r <? 4)%nat then reg8_index r else (reg8_index r - 4)%nat
  end.

Definition low (p : Part) : Z :=
  match p with Quarter r => if (reg8_index r <? 4)%nat then 0 else 8 | _ => 0 end.

Definition width (p : Part) : Z := match p with Whole _ => 32 | Half _ => 16 | Quarter _ => 8 end.

Definition get_part (s : Regs) (p : Part) : Z :=
  match p with Whole r => get32 s r | Half r => get16 s r | Quarter r => get8 s r end.

Definition set_part (s : Regs) (p : Part) (v : Z) : Regs :=
  match p with Whole r => set32 s r v | Half r => set16 s r v | Quarter r => set8 s r v end.

(** The arrays have their lengths and the words their ranges. *)
Definition Regs_wf (s : Regs) : Prop :=
  length (gp s) = 8%nat /\ Forall (in_range 32) (gp s) /\ in_range 32 (eip s) /\
  length (gp64 s) = 16%nat /\ Forall (in_range 64) (gp64 s) /\ in_range 64 (rip s).

Lemma host_lt p : (host p < 8)%nat.
Proof. destruct p as [r|r|r]; destruct r; simpl; lia. Qed.

Lemma part_bounds p : 0 <= low p /\ 0 < width p /\ low p + width p <= 32.
Proof. destruct p as [r|r|r]; destruct r; simpl; lia. Qed.

Lemma gp_at_range s i : Regs_wf s -> in_range 32 (gp_at s i).
Proof.
  intros (_ & H & _). unfold gp_at. destruct (gp s !! i) as [z|] eqn:E; [|done].
  by apply (Forall_lookup_1 _ _ _ _ H E).
Qed.

Lemma gp_at_with s i j v : (i < length (gp s))%nat ->
  gp_at (with_gp s i v) j = if decide (i = j) then v else gp_at s j.
Proof.
  intros Hi. unfold gp_at, with_gp. cbn [gp]. destruct (decide (i = j)) as [<-|].
  - by rewrite list_lookup_insert_eq.
  - by rewrite list_lookup_insert_ne.
Qed.

Lemma with_gp_wf s i v : Regs_wf s -> in_range 32 v -> Regs_wf (with_gp s i v).
Proof.
  intros (H1 & H2 & H3) Hv. unfold Regs_wf, with_gp. cbn. rewrite length_insert.
  split; [done|]. split; [by apply Forall_insert|done].
Qed.

(** [mask] keeps the low 32 bits but those of the field. *)
Definition field_mask (mask lo w : Z) : bool :=
  forallb (fun k => Bool.eqb (Z.testbit mask k) (negb ((lo <=? k) && (k <? lo + w)))) (seqZ 0 32).

Lemma field_write mask lo w x v k :
  field_mask mask lo w = true -> 0 <= lo -> lo + w <= 32 -> in_range 32 x -> in_range w v -> 0 <= k ->
  Z.testbit (Z.lor (Z.land x mask) (Z.shiftl v lo)) k =
  if decide (lo <= k < lo + w) then Z.testbit v (k - lo) else Z.testbit x k.
Proof.
  intros Hm Hlo Hw Hx Hv Hk. rewrite Z.lor_spec, Z.land_spec, Z.shiftl_spec by lia.
  destruct (Z.le_gt_cases 32 k) as [Hhi|Hlt].
  - rewrite (high_bits_zero 32 x k Hx Hhi), (high_bits_zero w v (k - lo) Hv) by lia.
    by destruct (decide _); [lia|].
  - unfold field_mask in Hm. rewrite forallb_forall in Hm.
    specialize (Hm k). rewrite Bool.eqb_true_iff in Hm. rewrite Hm.
    2:{ apply list_elem_of_In, elem_of_seqZ. lia. }
    destruct (decide (lo <= k < lo + w)) as [Hin|Hout].
    + replace (lo <=? k) with true by lia. replace (k <? lo + w) with true by lia.
      by rewrite andb_false_r.
    + assert (Z.testbit v (k - lo) = false) as ->.
      { destruct (Z.le_gt_cases lo k); [apply (high_bits_zero w); [done|lia]|apply Z.testbit_neg_r; lia]. }
      replace ((lo <=? k) && (k <? lo + w)) with false by lia. by rewrite andb_true_r, orb_false_r.
Qed.

Lemma field_write_range mask lo w x v :
  field_mask mask lo w = true -> 0 <= lo -> lo + w <= 32 -> 0 <= mask -> in_range 32 x -> in_range w v ->
  in_range 32 (Z.lor (Z.land x mask) (Z.shiftl v lo)).
Proof.
  intros Hm Hlo Hw Hmask Hx Hv. apply in_range_bits; [lia| |].
  - apply Z.lor_nonneg. split; [apply Z.land_nonneg; right; done|].
    apply Z.shiftl_nonneg. apply Hv.
  - intros k Hk. rewrite (field_write mask lo w) by (done || lia).
    destruct (decide _); [lia|]. by apply (high_bits_zero 32).
Qed.

(** Reading a part is reading its bits of the register, and writing it
    replaces them. *)
Lemma get_part_bits s p k : Regs_wf s -> 0 <= k ->
  Z.testbit (get_part s p) k = (k <? width p) && Z.testbit (gp_at s (host p)) (low p + k).
Proof.
  intros Hs Hk. destruct p as [r|r|r]; cbn [get_part host low width].
  - unfold get32. destruct (Z.ltb_spec k 32); [done|].
    by rewrite (high_bits_zero 32) by (apply gp_at_range || lia; done).
  - unfold get16. by rewrite wrap_testbit by lia.
  - unfold get8. destruct (_ <? _)%nat; rewrite wrap_testbit by lia; [done|].
    by rewrite Z.shiftr_spec, Z.add_comm by lia.
Qed.

Lemma set_part_gp s p v : Regs_wf s -> in_range (width p) v ->
  exists x, set_part s p v = with_gp s (host p) x /\ in_range 32 x /\
    forall k, 0 <= k -> Z.testbit x k =
      if decide (low p <= k < low p + width p) then Z.testbit v (k - low p)
      else Z.testbit (gp_at s (host p)) k.
Proof.
  intros Hs Hv. pose proof (fun i => gp_at_range s i Hs) as Hg.
  destruct p as [r|r|r]; cbn [set_part host low width] in *.
  - exists v. split; [done|]. split; [done|]. intros k Hk. destruct (decide _) as [|Hout]; [by rewrite Z.sub_0_r|].
    rewrite !(high_bits_zero 32) by (done || lia). done.
  - unfold set16. eexists. split; [done|].
    assert (field_mask 0xFFFF0000 0 16 = true) as Hm by done.
    replace v with (Z.shiftl v 0) by apply Z.shiftl_0_r. split.
    + by apply (field_write_range 0xFFFF0000 0 16).
    + intros k Hk. rewrite (field_write _ 0 16) by (done || lia). by rewrite Z.shiftl_0_r.
  - unfold set8. destruct (_ <? _)%nat.
    + eexists. split; [done|]. assert (field_mask 0xFFFFFF00 0 8 = true) as Hm by done.
      replace v with (Z.shiftl v 0) by apply Z.shiftl_0_r. split.
      * by apply (field_write_range 0xFFFFFF00 0 8).
      * intros k Hk. rewrite (field_write _ 0 8) by (done || lia). by rewrite Z.shiftl_0_r.
    + eexists. split; [done|]. assert (field_mask 0xFFFF00FF 8 8 = true) as Hm by done. split.
      * by apply (field_write_range 0xFFFF00FF 8 8).
      * intros k Hk. by rewrite (field_write _ 8 8) by (done || lia).
Qed.

(** * The theorems *)

(** The parts of the registers alias the way the architecture says. Bit
    [k] of what a part reads after a write is the written bit if the two parts
    share it, and what was there otherwise; the write keeps the register file
    well formed and changes nothing but general registers. *)
Theorem register_parts s a v :
  Regs_wf s -> in_range (width a) v ->
  let s' := set_part s a v in
  Regs_wf s' /\ eip s' = eip s /\ flags s' = flags s /\ gp64 s' = gp64 s /\ rip s' = rip s /\
  get_part s' a = v /\
  forall b k, 0 <= k < width b ->
    Z.testbit (get_part s' b) k =
    if decide (host a = host b /\ low a <= low b + k < low a + width a)
    then Z.testbit v (low b + k - low a) else Z.testbit (get_part s b) k.
Proof.
  intros Hs Hv s'. destruct (set_part_gp s a v Hs Hv) as (x & E & Hx & Hbits).
  assert (Regs_wf s') as Hs'.
  { unfold s'. rewrite E. by apply with_gp_wf. }
  assert (forall b k, 0 <= k < width b ->
    Z.testbit (get_part s' b) k =
    if decide (host a = host b /\ low a <= low b + k < low a + width a)
    then Z.testbit v (low b + k - low a) else Z.testbit (get_part s b) k) as Hb.
  { intros b k Hk. pose proof (part_bounds b). rewrite !get_part_bits by (done || lia).
    replace (k <? width b) with true by lia. cbn [andb]. unfold s'. rewrite E, gp_at_with.
    2:{ destruct Hs as [-> _]. apply host_lt. }
    destruct (decide (host a = host b)) as [Eh|Eh]; cycle 1.
    { by destruct (decide _) as [[? _]|]. }
    rewrite Hbits, <- Eh by lia. repeat destruct (decide _); done || tauto. }
  split_and!; [done|by unfold s'; rewrite E..| |done].
  pose proof (part_bounds a). apply Z.bits_inj'. intros k Hk.
  destruct (Z.le_gt_cases (width a) k) as [Hhi|].
  - rewrite get_part_bits, (high_bits_zero (width a) v) by done.
    by replace (k <? width a) with false by lia.
  - rewrite Hb by lia. destruct (decide _); [f_equal; lia|lia].
Qed.

(** EAX is 0x11223344 and ESP 0x1000. *)
Definition some_regs : Regs :=
  set32 (set32 regs_new Eax 0x11223344) Esp 0x1000.

Lemma register_parts_witness :
  Regs_wf some_regs /\ in_range 8 0xFF /\
  get_part (set_part some_regs (Quarter Ah) 0xFF) (Quarter Ah) = 0xFF /\
  get_part (set_part some_regs (Quarter Ah) 0xFF) (Whole Eax) = 0x1122FF44.
Proof.
  assert (Regs_wf some_regs) as H.
  { unfold Regs_wf, some_regs. split_and!; try done; repeat constructor; done. }
  assert (in_range 8 0xFF) as Hv by done.
  destruct (register_parts some_regs (Quarter Ah) 0xFF H Hv) as (_ & _ & _ & _ & _ & Hr & _).
  split_and!; [exact H|exact Hv|exact Hr|vm_compute; reflexivity].
Defined.

(** The bits of EFLAGS that are kept. *)
Definition FLAG_MASK : Z := 0x200CD5.

Lemma has_bit_testbit v n : 0 <= n -> has_bit v n = Z.testbit v n.
Proof.
  intros Hn. unfold has_bit. destruct (Z.testbit v n) eqn:E.
  - apply negb_true_iff, Z.eqb_neq. intros H. apply (f_equal (fun z => Z.testbit z n)) in H.
    rewrite Z.land_spec, Z.shiftl_spec, Z.sub_diag, E, Z.bits_0 in H by lia. done.
  - apply negb_false_iff, Z.eqb_eq, Z.bits_inj'. intros k Hk.
    rewrite Z.land_spec, Z.shiftl_spec, Z.bits_0 by lia.
    destruct (decide (k = n)) as [->|]; [by rewrite E|].
    replace (Z.testbit 1 (k - n)) with false; [apply andb_false_r|].
    destruct (Z.lt_ge_cases k n); [by rewrite Z.testbit_neg_r by lia|].
    symmetry. apply (high_bits_zero 1); [done|lia].
Qed.

(** The number of one bits of a byte. *)
Definition ones_in (b : Z) : Z := foldr Z.add 0 (map (fun k => Z.b2z (Z.testbit b k)) (seqZ 0 8)).

Definition parity8_check (b : byte) : bool :=
  Bool.eqb (parity8 (u8 b)) (Z.even (ones_in (u8 b))).

Lemma parity8_even z : in_range 8 z -> parity8 z = Z.even (ones_in z).
Proof.
  intros Hz. assert (u8 (byte_of z) = z) as <- by (rewrite u8_byte_of; by apply Z.mod_small).
  apply Bool.eqb_true_iff. revert z Hz. 
  assert (forall b, parity8_check b = true) as H by (apply all_bytes_spec; vm_compute; reflexivity).
  intros z _. apply H.
Qed.

Lemma set_bit_testbit c n v k : 0 <= n -> 0 <= k ->
  Z.testbit (set_bit c n v) k = (c && (k =? n)) || Z.testbit v k.
Proof.
  intros Hn Hk. unfold set_bit. destruct c; [|done]. rewrite Z.lor_spec, Z.shiftl_spec, orb_comm by done.
  f_equal. destruct (Z.eqb_spec k n) as [->|]; [by rewrite Z.sub_diag|].
  destruct (Z.lt_ge_cases k n); [by rewrite Z.testbit_neg_r by lia|].
  apply (high_bits_zero 1); [done|lia].
Qed.

Definition flag_bits : list Z := [0; 2; 4; 6; 7; 10; 11; 21].

Lemma flag_mask_bit k : 0 <= k -> Z.testbit FLAG_MASK k = existsb (Z.eqb k) flag_bits.
Proof.
  intros Hk. destruct (Z.lt_ge_cases k 22) as [Hlt|Hge].
  - pose (chk := fun k => Bool.eqb (Z.testbit FLAG_MASK k) (existsb (Z.eqb k) flag_bits)).
    assert (forallb chk (seqZ 0 22) = true) as H by by vm_compute.
    rewrite forallb_forall in H. specialize (H k). apply Bool.eqb_true_iff, H.
    apply list_elem_of_In, elem_of_seqZ. lia.
  - rewrite (high_bits_zero 22) by done. unfold flag_bits. simpl. lia.
Qed.

(** the flags and their EFLAGS image determine each other. Packing and
    unpacking is the identity, unpacking a word and packing it again keeps the
    eight modelled bits, sets bit 1 and clears the rest, and the image fits 32
    bits; so toggling any modelled bit of a saved image, as the CPUID probe
    does with bit 21, toggles exactly that flag. *)
Theorem flags_image f v :
  unpack (pack f) = f /\ in_range 32 (pack f) /\
  pack (unpack v) = Z.lor 2 (Z.land v FLAG_MASK) /\
  pack (unpack (Z.lxor (pack f) (Z.shiftl 1 21))) = Z.lxor (pack f) (Z.shiftl 1 21) /\
  unpack (Z.lxor (pack f) (Z.shiftl 1 21)) =
    {| cf := cf f; pf := pf f; af := af f; zf := zf f; sf := sf f; df := df f; of_ := of_ f;
       id_ := negb (id_ f) |}.
Proof.
  assert (pack (unpack v) = Z.lor 2 (Z.land v FLAG_MASK)) as H.
  { apply Z.bits_inj'. intros k Hk. unfold pack, unpack.
    cbn [cf pf af zf sf df of_ id_]. rewrite !has_bit_testbit, !set_bit_testbit by lia.
    rewrite Z.lor_spec, Z.land_spec, flag_mask_bit by lia. unfold flag_bits. cbn [existsb].
    repeat match goal with |- context [k =? ?n] => destruct (Z.eqb_spec k n) as [->|] end;
      rewrite ?andb_false_r, ?andb_true_r; cbn [orb]; rewrite ?orb_false_r, ?orb_true_r; done. }
  split_and!; try exact H; clear H; destruct f as [[] [] [] [] [] [] [] []]; vm_compute; done.
Qed.
