(* ===== verification/X86Alu.v ===== *)
(** The integer arithmetic of the x86 interpreter
    (src/src/emulator/emulator/isa_int.rs, the ALU primitives and the condition
    codes). A primitive takes the operands and the flags and gives the result,
    whether it is written back, and the new flags. *)

From S2P Require Import Prelude Regs.

(** * Assigning flags *)

Definition with_cf (f : Flags) (b : bool) : Flags :=
  {| cf := b; pf := pf f; af := af f; zf := zf f; sf := sf f; df := df f; of_ := of_ f; id_ := id_ f |}.
Definition with_af (f : Flags) (b : bool) : Flags :=
  {| cf := cf f; pf := pf f; af := b; zf := zf f; sf := sf f; df := df f; of_ := of_ f; id_ := id_ f |}.
Definition with_of (f : Flags) (b : bool) : Flags :=
  {| cf := cf f; pf := pf f; af := af f; zf := zf f; sf := sf f; df := df f; of_ := b; id_ := id_ f |}.

(** [overflowing_add] and [overflowing_sub] at width [w]. *)
Definition overflowing_add (w a b : Z) : Z * bool := (wrap w (a + b), 2 ^ w <=? a + b).
Definition overflowing_sub (w a b : Z) : Z * bool := (wrap w (a - b), a <? b).

(** [x & mask != 0] *)
Definition any_bit (x mask : Z) : bool := negb (Z.land x mask =? 0).

Definition Alu : Type := Z -> Z -> Flags -> Z * bool * Flags.

(** * 32-bit primitives *)

Definition alu_add_32 : Alu := fun lhs rhs f =>
  let '(result, carry) := overflowing_add 32 lhs rhs in
  let f := with_cf f carry in
  let f := with_af f (any_bit (Z.lxor (Z.lxor lhs rhs) result) 0x10) in
  let f := with_of f (any_bit (Z.land (Z.lxor lhs result) (Z.lxor rhs result)) 0x80000000) in
  (result, true, set_szp_32 f result).

Definition alu_sub_32 : Alu := fun lhs rhs f =>
  let '(result, borrow) := overflowing_sub 32 lhs rhs in
  let f := with_cf f borrow in
  let f := with_af f (any_bit (Z.lxor (Z.lxor lhs rhs) result) 0x10) in
  let f := with_of f (any_bit (Z.land (Z.lxor lhs rhs) (Z.lxor lhs result)) 0x80000000) in
  (result, true, set_szp_32 f result).

Definition alu_cmp_32 : Alu := fun lhs rhs f =>
  let '(result, _, f) := alu_sub_32 lhs rhs f in
  (result, false, f).

Definition alu_and_32 : Alu := fun lhs rhs f =>
  let r := Z.land lhs rhs in
  let f := with_cf f false in
  let f := with_of f false in
  (r, true, set_szp_32 f r).

Definition alu_or_32 : Alu := fun lhs rhs f =>
  let r := Z.lor lhs rhs in
  let f := with_cf f false in
  let f := with_of f false in
  (r, true, set_szp_32 f r).

Definition alu_xor_32 : Alu := fun lhs rhs f =>
  let r := Z.lxor lhs rhs in
  let f := with_cf f false in
  let f := with_of f false in
  (r, true, set_szp_32 f r).

Definition alu_test_32 : Alu := fun lhs rhs f =>
  let r := Z.land lhs rhs in
  let f := with_cf f false in
  let f := with_of f false in
  (r, false, set_szp_32 f r).

Definition alu_adc_32 : Alu := fun lhs rhs f =>
  let c := Z.b2z (cf f) in
  let s1 := wrap 32 (lhs + rhs) in
  let result := wrap 32 (s1 + c) in
  let new_cf := (result <? lhs) || ((c =? 1) && (rhs =? 2 ^ 32 - 1)) in
  let f := with_cf f new_cf in
  let f := with_af f (any_bit (Z.lxor (Z.lxor lhs rhs) result) 0x10) in
  let f := with_of f (any_bit (Z.land (Z.lxor lhs result) (Z.lxor rhs result)) 0x80000000) in
  (result, true, set_szp_32 f result).

Definition alu_sbb_32 : Alu := fun lhs rhs f =>
  let c := Z.b2z (cf f) in
  let s1 := wrap 32 (lhs - rhs) in
  let result := wrap 32 (s1 - c) in
  let total := rhs + c in
  let f := with_cf f (lhs <? total) in
  let f := with_af f (any_bit (Z.lxor (Z.lxor lhs rhs) result) 0x10) in
  let f := with_of f (any_bit (Z.land (Z.lxor lhs rhs) (Z.lxor lhs result)) 0x80000000) in
  (result, true, set_szp_32 f result).

(** * 16-bit primitives *)

Definition alu_add_16 : Alu := fun lhs rhs f =>
  let '(result, carry) := overflowing_add 16 lhs rhs in
  let f := with_cf f carry in
  let f := with_af f (any_bit (Z.lxor (Z.lxor lhs rhs) result) 0x10) in
  let f := with_of f (any_bit (Z.land (Z.lxor lhs result) (Z.lxor rhs result)) 0x8000) in
  (result, true, set_szp_16 f result).

Definition alu_sub_16 : Alu := fun lhs rhs f =>
  let '(result, borrow) := overflowing_sub 16 lhs rhs in
  let f := with_cf f borrow in
  let f := with_af f (any_bit (Z.lxor (Z.lxor lhs rhs) result) 0x10) in
  let f := with_of f (any_bit (Z.land (Z.lxor lhs rhs) (Z.lxor lhs result)) 0x8000) in
  (result, true, set_szp_16 f result).

Definition alu_cmp_16 : Alu := fun lhs rhs f =>
  let '(result, _, f) := alu_sub_16 lhs rhs f in
  (0, false, f).

Definition alu_and_16 : Alu := fun lhs rhs f =>
  let r := Z.land lhs rhs in
  let f := with_cf f false in
  let f := with_of f false in
  (r, true, set_szp_16 f r).

Definition alu_or_16 : Alu := fun lhs rhs f =>
  let r := Z.lor lhs rhs in
  let f := with_cf f false in
  let f := with_of f false in
  (r, true, set_szp_16 f r).

Definition alu_xor_16 : Alu := fun lhs rhs f =>
  let r := Z.lxor lhs rhs in
  let f := with_cf f false in
  let f := with_of f false in
  (r, true, set_szp_16 f r).

Definition alu_test_16 : Alu := fun lhs rhs f =>
  let r := Z.land lhs rhs in
  let f := with_cf f false in
  let f := with_of f false in
  (r, false, set_szp_16 f r).

Definition alu_adc_16 : Alu := fun lhs rhs f =>
  let c := Z.b2z (cf f) in
  let s1 := wrap 16 (lhs + rhs) in
  let result := wrap 16 (s1 + c) in
  let total := rhs + c in
  let f := with_cf f (0xFFFF <? lhs + total) in
  let f := with_af f (any_bit (Z.lxor (Z.lxor lhs rhs) result) 0x10) in
  let f := with_of f (any_bit (Z.land (Z.lxor lhs result) (Z.lxor rhs result)) 0x8000) in
  (result, true, set_szp_16 f result).

Definition alu_sbb_16 : Alu := fun lhs rhs f =>
  let c := Z.b2z (cf f) in
  let s1 := wrap 16 (lhs - rhs) in
  let result := wrap 16 (s1 - c) in
  let total := rhs + c in
  let f := with_cf f (lhs <? total) in
  let f := with_af f (any_bit (Z.lxor (Z.lxor lhs rhs) result) 0x10) in
  let f := with_of f (any_bit (Z.land (Z.lxor lhs rhs) (Z.lxor lhs result)) 0x8000) in
  (result, true, set_szp_16 f result).

(** * 8-bit primitives *)

Definition alu_add_8 : Alu := fun lhs rhs f =>
  let '(result, carry) := overflowing_add 8 lhs rhs in
  let f := with_cf f carry in
  let f := with_af f (any_bit (Z.lxor (Z.lxor lhs rhs) result) 0x10) in
  let f := with_of f (any_bit (Z.land (Z.lxor lhs result) (Z.lxor rhs result)) 0x80) in
  (result, true, set_szp_8 f result).

Definition alu_sub_8 : Alu := fun lhs rhs f =>
  let '(result, borrow) := overflowing_sub 8 lhs rhs in
  let f := with_cf f borrow in
  let f := with_af f (any_bit (Z.lxor (Z.lxor lhs rhs) result) 0x10) in
  let f := with_of f (any_bit (Z.land (Z.lxor lhs rhs) (Z.lxor lhs result)) 0x80) in
  (result, true, set_szp_8 f result).

Definition alu_cmp_8 : Alu := fun lhs rhs f =>
  let '(result, _, f) := alu_sub_8 lhs rhs f in
  (0, false, f).

Definition alu_and_8 : Alu := fun lhs rhs f =>
  let r := Z.land lhs rhs in
  let f := with_cf f false in
  let f := with_of f false in
  (r, true, set_szp_8 f r).

Definition alu_or_8 : Alu := fun lhs rhs f =>
  let r := Z.lor lhs rhs in
  let f := with_cf f false in
  let f := with_of f false in
  (r, true, set_szp_8 f r).

Definition alu_xor_8 : Alu := fun lhs rhs f =>
  let r := Z.lxor lhs rhs in
  let f := with_cf f false in
  let f := with_of f false in
  (r, true, set_szp_8 f r).

Definition alu_adc_8 : Alu := fun lhs rhs f =>
  let c := Z.b2z (cf f) in
  let s1 := wrap 8 (lhs + rhs) in
  let result := wrap 8 (s1 + c) in
  let total := rhs + c in
  let f := with_cf f (0xFF <? lhs + total) in
  let f := with_af f (any_bit (Z.lxor (Z.lxor lhs rhs) result) 0x10) in
  let f := with_of f (any_bit (Z.land (Z.lxor lhs result) (Z.lxor rhs result)) 0x80) in
  (result, true, set_szp_8 f result).

Definition alu_sbb_8 : Alu := fun lhs rhs f =>
  let c := Z.b2z (cf f) in
  let s1 := wrap 8 (lhs - rhs) in
  let result := wrap 8 (s1 - c) in
  let total := rhs + c in
  let f := with_cf f (lhs <? total) in
  let f := with_af f (any_bit (Z.lxor (Z.lxor lhs rhs) result) 0x10) in
  let f := with_of f (any_bit (Z.land (Z.lxor lhs rhs) (Z.lxor lhs result)) 0x80) in
  (result, true, set_szp_8 f result).

(** * Dispatch. The last arm of each [match] is [unreachable!] for a three-bit
    field; 7 is the last operation. *)

Definition group1_op_16 (reg : Z) : Alu :=
  match reg with
  | 0 => alu_add_16
  | 1 => alu_or_16
  | 2 => alu_adc_16
  | 3 => alu_sbb_16
  | 4 => alu_and_16
  | 5 => alu_sub_16
  | 6 => alu_xor_16
  | _ => alu_cmp_16
  end.

Definition group1_op_8 (reg : Z) : Alu :=
  match reg with
  | 0 => alu_add_8
  | 1 => alu_or_8
  | 2 => alu_adc_8
  | 3 => alu_sbb_8
  | 4 => alu_and_8
  | 5 => alu_sub_8
  | 6 => alu_xor_8
  | _ => alu_cmp_8
  end.

Definition group1_op_32 (reg : Z) : Alu :=
  match reg with
  | 0 => alu_add_32
  | 1 => alu_or_32
  | 2 => alu_adc_32
  | 3 => alu_sbb_32
  | 4 => alu_and_32
  | 5 => alu_sub_32
  | 6 => alu_xor_32
  | _ => alu_cmp_32
  end.

Definition alu_fn16_for_opcode (op : Z) : Alu :=
  if op =? 0x85 then alu_test_16
  else
    match Z.land (Z.shiftr op 3) 7 with
    | 0 => alu_add_16
    | 1 => alu_or_16
    | 2 => alu_adc_16
    | 3 => alu_sbb_16
    | 4 => alu_and_16
    | 5 => alu_sub_16
    | 6 => alu_xor_16
    | _ => alu_cmp_16
    end.

Definition set_flags_inc_dec_16 (f : Flags) (lhs rhs result : Z) (sub : bool) : Flags :=
  let f := with_af f (any_bit (Z.lxor (Z.lxor lhs rhs) result) 0x10) in
  let f := with_of f
    (if sub then any_bit (Z.land (Z.lxor lhs rhs) (Z.lxor lhs result)) 0x8000
     else any_bit (Z.land (Z.lxor lhs result) (Z.lxor rhs result)) 0x8000) in
  set_szp_16 f result.

Definition set_flags_inc_dec_32 (f : Flags) (lhs rhs result : Z) (sub : bool) : Flags :=
  let f := with_af f (any_bit (Z.lxor (Z.lxor lhs rhs) result) 0x10) in
  let f := with_of f
    (if sub then any_bit (Z.land (Z.lxor lhs rhs) (Z.lxor lhs result)) 0x80000000
     else any_bit (Z.land (Z.lxor lhs result) (Z.lxor rhs result)) 0x80000000) in
  set_szp_32 f result.

Definition condition_holds (cc : Z) (f : Flags) : bool :=
  match Z.land cc 0x0F with
  | 0x0 => of_ f
  | 0x1 => negb (of_ f)
  | 0x2 => cf f
  | 0x3 => negb (cf f)
  | 0x4 => zf f
  | 0x5 => negb (zf f)
  | 0x6 => cf f || zf f
  | 0x7 => negb (cf f) && negb (zf f)
  | 0x8 => sf f
  | 0x9 => negb (sf f)
  | 0xA => pf f
  | 0xB => negb (pf f)
  | 0xC => negb (Bool.eqb (sf f) (of_ f))
  | 0xD => Bool.eqb (sf f) (of_ f)
  | 0xE => zf f || negb (Bool.eqb (sf f) (of_ f))
  | _ => negb (zf f) && Bool.eqb (sf f) (of_ f)
  end.

(** * What the flags mean *)

(** The flags after an arithmetic result [r] at width [w]. *)
Definition arith_flags (w r : Z) (carry half over : bool) (f : Flags) : Flags :=
  {| cf := carry; pf := Z.even (ones_in (wrap8 r)); af := half; zf := r =? 0;
     sf := sint w r <? 0; df := df f; of_ := over; id_ := id_ f |}.

Definition out_of_range (w z : Z) : bool := negb ((- 2 ^ (w - 1) <=? z) && (z <? 2 ^ (w - 1))).

(** [a + b + c]: carry out of the top bit, carry out of bit 3, signed result
    not representable. *)
Definition sum_flags (w a b c : Z) (f : Flags) : Flags :=
  arith_flags w (wrap w (a + b + c)) (2 ^ w <=? a + b + c) (16 <=? a mod 16 + b mod 16 + c)
    (out_of_range w (sint w a + sint w b + c)) f.

(** [a - b - c]: the borrows, and the signed result. *)
Definition diff_flags (w a b c : Z) (f : Flags) : Flags :=
  arith_flags w (wrap w (a - b - c)) (a <? b + c) (a mod 16 <? b mod 16 + c)
    (out_of_range w (sint w a - sint w b - c)) f.

(** Logic clears CF and OF and leaves AF. *)
Definition logic_flags (w r : Z) (f : Flags) : Flags := arith_flags w r false (af f) false f.

(** The flags of INC and DEC keep CF. *)
Definition inc_flags (w a : Z) (f : Flags) : Flags := with_cf (sum_flags w a 1 0 f) (cf f).
Definition dec_flags (w a : Z) (f : Flags) : Flags := with_cf (diff_flags w a 1 0 f) (cf f).

(** The result that is written, and the flags. *)
Definition written (x : Z * bool * Flags) : option Z * Flags :=
  let '(r, wb, f) := x in (if wb then Some r else None, f).

Definition group1_spec (w reg a b : Z) (f : Flags) : option Z * Flags :=
  let c := Z.b2z (cf f) in
  match reg with
  | 0 => (Some (wrap w (a + b)), sum_flags w a b 0 f)
  | 1 => (Some (Z.lor a b), logic_flags w (Z.lor a b) f)
  | 2 => (Some (wrap w (a + b + c)), sum_flags w a b c f)
  | 3 => (Some (wrap w (a - b - c)), diff_flags w a b c f)
  | 4 => (Some (Z.land a b), logic_flags w (Z.land a b) f)
  | 5 => (Some (wrap w (a - b)), diff_flags w a b 0 f)
  | 6 => (Some (Z.lxor a b), logic_flags w (Z.lxor a b) f)
  | _ => (None, diff_flags w a b 0 f)
  end.

(** The operations at a width. *)
Definition at_width {A} (w : Z) (x8 x16 x32 : A) : A :=
  if w =? 8 then x8 else if w =? 16 then x16 else x32.

Definition group1_op (w reg : Z) : Alu :=
  at_width w group1_op_8 group1_op_16 group1_op_32 reg.

Definition width_ok (w : Z) : Prop := w = 8 \/ w = 16 \/ w = 32.

(** * Bits *)

Lemma any_bit_testbit x k : 0 <= k -> any_bit x (2 ^ k) = Z.testbit x k.
Proof. intros Hk. rewrite <- has_bit_testbit by done. unfold any_bit, has_bit. by rewrite Z.shiftl_1_l. Qed.

Lemma sign_bit w x : 0 < w -> in_range w x -> Z.testbit x (w - 1) = (2 ^ (w - 1) <=? x).
Proof.
  intros Hw [H1 H2]. assert (2 ^ w = 2 * 2 ^ (w - 1)) as E.
  { rewrite <- Z.pow_succ_r by lia. f_equal. lia. }
  destruct (Z.leb_spec (2 ^ (w - 1)) x).
  - apply Z.testbit_true; [lia|]. rewrite <- (Z.div_unique x (2 ^ (w - 1)) 1 (x - 2 ^ (w - 1))) by lia. done.
  - apply Z.testbit_false; [lia|]. by rewrite Z.div_small by lia.
Qed.

Lemma bit_odd x k : 0 <= k -> Z.testbit x k = Z.odd (x / 2 ^ k).
Proof. intros. by rewrite Z.testbit_odd, Z.shiftr_div_pow2. Qed.

Lemma odd_b2z b : Z.odd (Z.b2z b) = b.
Proof. by destruct b. Qed.

(** The carry into bit [k]. *)
Lemma carry_bit a b c k : 0 <= k -> 0 <= c <= 1 ->
  Z.testbit (Z.lxor (Z.lxor a b) (a + b + c)) k = (2 ^ k <=? a mod 2 ^ k + b mod 2 ^ k + c).
Proof.
  intros Hk Hc. rewrite !Z.lxor_spec, !bit_odd by done. set (m := 2 ^ k).
  assert (0 < m) as Hm by (unfold m; apply Z.pow_pos_nonneg; lia).
  pose proof (Z.div_mod a m). pose proof (Z.div_mod b m).
  pose proof (Z.mod_pos_bound a m Hm). pose proof (Z.mod_pos_bound b m Hm).
  set (cr := m <=? a mod m + b mod m + c).
  rewrite <- (Z.div_unique (a + b + c) m (a / m + b / m + Z.b2z cr)
    (a mod m + b mod m + c - m * Z.b2z cr)).
  - rewrite !Z.odd_add, odd_b2z. by destruct (Z.odd _), (Z.odd _), cr.
  - left. unfold cr. destruct (Z.leb_spec m (a mod m + b mod m + c)); simpl; lia.
  - lia.
Qed.

Lemma borrow_bit a b c k : 0 <= k -> 0 <= c <= 1 ->
  Z.testbit (Z.lxor (Z.lxor a b) (a - b - c)) k = (a mod 2 ^ k <? b mod 2 ^ k + c).
Proof.
  intros Hk Hc. rewrite !Z.lxor_spec, !bit_odd by done. set (m := 2 ^ k).
  assert (0 < m) as Hm by (unfold m; apply Z.pow_pos_nonneg; lia).
  pose proof (Z.div_mod a m). pose proof (Z.div_mod b m).
  pose proof (Z.mod_pos_bound a m Hm). pose proof (Z.mod_pos_bound b m Hm).
  set (br := a mod m <? b mod m + c).
  rewrite <- (Z.div_unique (a - b - c) m (a / m - b / m - Z.b2z br)
    (a mod m - b mod m - c + m * Z.b2z br)).
  - rewrite !Z.odd_sub, odd_b2z. by destruct (Z.odd _), (Z.odd _), br.
  - left. unfold br. destruct (Z.ltb_spec (a mod m) (b mod m + c)); simpl; lia.
  - lia.
Qed.

(** Below the width a wrapped result has the bits of the result. *)
Lemma lxor_wrap_bit w x r k : 0 <= k < w -> Z.testbit (Z.lxor x (wrap w r)) k = Z.testbit (Z.lxor x r) k.
Proof.
  intros Hk. rewrite !Z.lxor_spec, wrap_testbit by lia. by replace (k <? w) with true by lia.
Qed.

(** Case analysis on every comparison of a boolean goal. *)
Ltac all_cmp :=
  repeat match goal with
  | |- context [if ?x <? ?y then _ else _] => destruct (Z.ltb_spec x y)
  | |- context [?x <=? ?y] => destruct (Z.leb_spec x y)
  | |- context [?x <? ?y] => destruct (Z.ltb_spec x y)
  end; cbn [andb orb negb xorb]; try done; lia.

Section width.
  Context (w : Z) (Hw : width_ok w) (a b : Z) (Ha : in_range w a) (Hb : in_range w b).

Lemma half_width : 8 <= w /\ 2 ^ w = 2 * 2 ^ (w - 1) /\ 0 < 2 ^ (w - 1).
Proof. clear a b Ha Hb. by destruct Hw as [-> | [-> | ->]]. Qed.

Lemma sum_half c : 0 <= c <= 1 ->
  any_bit (Z.lxor (Z.lxor a b) (wrap w (a + b + c))) 0x10 = (16 <=? a mod 16 + b mod 16 + c).
Proof.
  intros Hc. change 0x10 with (2 ^ 4). destruct half_width as [? _].
  rewrite any_bit_testbit, lxor_wrap_bit, carry_bit by lia. done.
Qed.

Lemma diff_half c : 0 <= c <= 1 ->
  any_bit (Z.lxor (Z.lxor a b) (wrap w (a - b - c))) 0x10 = (a mod 16 <? b mod 16 + c).
Proof.
  intros Hc. change 0x10 with (2 ^ 4). destruct half_width as [? _].
  rewrite any_bit_testbit, lxor_wrap_bit, borrow_bit by lia. done.
Qed.

Lemma wrap_sum c : 0 <= c <= 1 ->
  wrap w (a + b + c) = if 2 ^ w <=? a + b + c then a + b + c - 2 ^ w else a + b + c.
Proof.
  intros Hc. unfold wrap, in_range in *. destruct (Z.leb_spec (2 ^ w) (a + b + c)).
  - symmetry. apply (Z.mod_unique _ _ 1); lia.
  - apply Z.mod_small. lia.
Qed.

Lemma wrap_diff c : 0 <= c <= 1 ->
  wrap w (a - b - c) = if a <? b + c then a - b - c + 2 ^ w else a - b - c.
Proof.
  intros Hc. unfold wrap, in_range in *. destruct (Z.ltb_spec a (b + c)).
  - symmetry. apply (Z.mod_unique _ _ (-1)); lia.
  - apply Z.mod_small. lia.
Qed.

Lemma sum_over c : 0 <= c <= 1 ->
  any_bit (Z.land (Z.lxor a (wrap w (a + b + c))) (Z.lxor b (wrap w (a + b + c)))) (2 ^ (w - 1)) =
  out_of_range w (sint w a + sint w b + c).
Proof.
  intros Hc. destruct half_width as (H8 & E & Hp). pose proof (wrap_range w (a + b + c) ltac:(lia)) as Hr.
  rewrite any_bit_testbit, Z.land_spec, !Z.lxor_spec, !(sign_bit w) by (done || lia).
  rewrite (wrap_sum c) in * by done. unfold out_of_range, sint, in_range in *.
  destruct (Z.leb_spec (2 ^ w) (a + b + c)), (Z.ltb_spec a (2 ^ (w - 1))), (Z.ltb_spec b (2 ^ (w - 1))); all_cmp.
Qed.

Lemma diff_over c : 0 <= c <= 1 ->
  any_bit (Z.land (Z.lxor a b) (Z.lxor a (wrap w (a - b - c)))) (2 ^ (w - 1)) =
  out_of_range w (sint w a - sint w b - c).
Proof.
  intros Hc. destruct half_width as (H8 & E & Hp). pose proof (wrap_range w (a - b - c) ltac:(lia)) as Hr.
  rewrite any_bit_testbit, Z.land_spec, !Z.lxor_spec, !(sign_bit w) by (done || lia).
  rewrite (wrap_diff c) in * by done. unfold out_of_range, sint, in_range in *.
  destruct (Z.ltb_spec a (b + c)), (Z.ltb_spec a (2 ^ (w - 1))), (Z.ltb_spec b (2 ^ (w - 1))); all_cmp.
Qed.

Lemma sign_flag r : in_range w r -> any_bit r (2 ^ (w - 1)) = (sint w r <? 0).
Proof.
  intros Hr. destruct half_width as (H8 & E & Hp). rewrite any_bit_testbit, (sign_bit w) by (done || lia).
  unfold sint, in_range in *. destruct (Z.ltb_spec r (2 ^ (w - 1))); lia.
Qed.

Lemma logic_range r : (forall k, w <= k -> Z.testbit r k = false) -> 0 <= r -> in_range w r.
Proof. intros. destruct half_width. apply in_range_bits; [lia|done..]. Qed.

Lemma set_szp_flags f r : in_range w r ->
  at_width w set_szp_8 set_szp_16 set_szp_32 f r =
  with_szp f (r =? 0) (sint w r <? 0) (Z.even (ones_in (wrap8 r))).
Proof.
  intros Hr. pose proof (sign_flag r Hr) as Hs. pose proof (parity8_even (wrap8 r) (wrap_range 8 r ltac:(lia))) as Hp.
  clear Ha Hb. unfold any_bit in Hs. destruct Hw as [-> | [-> | ->]]; rewrite <- Hp, <- Hs; try done.
  cbn. unfold set_szp_8. by rewrite (wrap_small 8 r Hr).
Qed.

(** The flags every addition, subtraction and logic primitive sets. *)
Lemma sum_sets c f : 0 <= c <= 1 ->
  let r := wrap w (a + b + c) in
  at_width w set_szp_8 set_szp_16 set_szp_32
    (with_of (with_af (with_cf f (2 ^ w <=? a + b + c)) (any_bit (Z.lxor (Z.lxor a b) r) 0x10))
      (any_bit (Z.land (Z.lxor a r) (Z.lxor b r)) (2 ^ (w - 1)))) r = sum_flags w a b c f.
Proof.
  intros Hc r. destruct half_width as [? _]. rewrite set_szp_flags by (apply wrap_range; lia).
  unfold r. by rewrite sum_half, sum_over.
Qed.

Lemma diff_sets c f : 0 <= c <= 1 ->
  let r := wrap w (a - b - c) in
  at_width w set_szp_8 set_szp_16 set_szp_32
    (with_of (with_af (with_cf f (a <? b + c)) (any_bit (Z.lxor (Z.lxor a b) r) 0x10))
      (any_bit (Z.land (Z.lxor a b) (Z.lxor a r)) (2 ^ (w - 1)))) r = diff_flags w a b c f.
Proof.
  intros Hc r. destruct half_width as [? _]. rewrite set_szp_flags by (apply wrap_range; lia).
  unfold r. by rewrite diff_half, diff_over.
Qed.

Lemma logic_sets r f : in_range w r ->
  at_width w set_szp_8 set_szp_16 set_szp_32 (with_of (with_cf f false) false) r = logic_flags w r f.
Proof. intros Hr. by rewrite set_szp_flags. Qed.

Lemma land_range : in_range w (Z.land a b).
Proof.
  apply logic_range; [|apply Z.land_nonneg; left; apply Ha].
  intros k Hk. by rewrite Z.land_spec, (high_bits_zero w a).
Qed.

Lemma lor_range : in_range w (Z.lor a b).
Proof.
  apply logic_range; [|apply Z.lor_nonneg; split; [apply Ha|apply Hb]].
  intros k Hk. by rewrite Z.lor_spec, (high_bits_zero w a), (high_bits_zero w b).
Qed.

Lemma lxor_range : in_range w (Z.lxor a b).
Proof.
  apply logic_range; [|apply Z.lxor_nonneg; split; intros; [apply Hb|apply Ha]].
  intros k Hk. by rewrite Z.lxor_spec, (high_bits_zero w a), (high_bits_zero w b).
Qed.
End width.

(** The carry of [adc] at 32 bits, which the source states differently. *)
Lemma adc_carry a b c : in_range 32 a -> in_range 32 b -> 0 <= c <= 1 ->
  (wrap32 (a + b + c) <? a) || ((c =? 1) && (b =? 2 ^ 32 - 1)) = (2 ^ 32 <=? a + b + c).
Proof.
  intros Ha Hb Hc. rewrite (wrap_sum 32) by (done || by right; right).
  unfold in_range in *. destruct (Z.leb_spec (2 ^ 32) (a + b + c)), (Z.eqb_spec c 1), (Z.eqb_spec b (2 ^ 32 - 1));
    all_cmp.
Qed.

Lemma wrap_add_wrap w x y : wrap w (wrap w x + y) = wrap w (x + y).
Proof. apply Zplus_mod_idemp_l. Qed.
Lemma wrap_sub_wrap w x y : wrap w (wrap w x - y) = wrap w (x - y).
Proof. apply Zminus_mod_idemp_l. Qed.

Lemma alu_sums w a b f : width_ok w -> in_range w a -> in_range w b ->
  at_width w alu_add_8 alu_add_16 alu_add_32 a b f = (wrap w (a + b), true, sum_flags w a b 0 f) /\
  at_width w alu_adc_8 alu_adc_16 alu_adc_32 a b f =
    (wrap w (a + b + Z.b2z (cf f)), true, sum_flags w a b (Z.b2z (cf f)) f).
Proof.
  intros Hw Ha Hb. assert (0 <= Z.b2z (cf f) <= 1) as Hc by (destruct (cf f); simpl; lia). split.
  - rewrite <- (sum_sets w Hw a b Ha Hb 0) by lia. rewrite Z.add_0_r. by destruct Hw as [-> | [-> | ->]].
  - rewrite <- (sum_sets w Hw a b Ha Hb (Z.b2z (cf f)) f) by done.
    destruct Hw as [-> | [-> | ->]]; cbn [at_width Z.eqb Pos.eqb];
      unfold alu_adc_8, alu_adc_16, alu_adc_32; cbv zeta; rewrite wrap_add_wrap.
    + replace (0xFF <? a + (b + Z.b2z (cf f))) with (2 ^ 8 <=? a + b + Z.b2z (cf f)) by lia. done.
    + replace (0xFFFF <? a + (b + Z.b2z (cf f))) with (2 ^ 16 <=? a + b + Z.b2z (cf f)) by lia. done.
    + by rewrite adc_carry.
Qed.

Lemma alu_diffs w a b f : width_ok w -> in_range w a -> in_range w b ->
  at_width w alu_sub_8 alu_sub_16 alu_sub_32 a b f = (wrap w (a - b), true, diff_flags w a b 0 f) /\
  at_width w alu_sbb_8 alu_sbb_16 alu_sbb_32 a b f =
    (wrap w (a - b - Z.b2z (cf f)), true, diff_flags w a b (Z.b2z (cf f)) f).
Proof.
  intros Hw Ha Hb. assert (0 <= Z.b2z (cf f) <= 1) as Hc by (destruct (cf f); simpl; lia). split.
  - rewrite <- (diff_sets w Hw a b Ha Hb 0) by lia. rewrite Z.sub_0_r, Z.add_0_r.
    by destruct Hw as [-> | [-> | ->]].
  - rewrite <- (diff_sets w Hw a b Ha Hb (Z.b2z (cf f)) f) by done.
    destruct Hw as [-> | [-> | ->]]; cbn [at_width Z.eqb Pos.eqb];
      unfold alu_sbb_8, alu_sbb_16, alu_sbb_32; cbv zeta; by rewrite wrap_sub_wrap.
Qed.

Lemma alu_logic w a b f : width_ok w -> in_range w a -> in_range w b ->
  at_width w alu_and_8 alu_and_16 alu_and_32 a b f = (Z.land a b, true, logic_flags w (Z.land a b) f) /\
  at_width w alu_or_8 alu_or_16 alu_or_32 a b f = (Z.lor a b, true, logic_flags w (Z.lor a b) f) /\
  at_width w alu_xor_8 alu_xor_16 alu_xor_32 a b f = (Z.lxor a b, true, logic_flags w (Z.lxor a b) f).
Proof.
  intros Hw Ha Hb. pose proof (land_range w Hw a b Ha). pose proof (lor_range w Hw a b Ha Hb).
  pose proof (lxor_range w Hw a b Ha Hb).
  rewrite <- !(logic_sets w Hw) by done. by destruct Hw as [-> | [-> | ->]].
Qed.

(** * The theorems *)

(** C29: the arithmetic of the integer core is the architecture's, at 8, 16 and
    32 bits. Each of the eight operations of the ALU group gives the wrapped
    sum, difference or bitwise result of its operands and, for ADC and SBB, of
    the carry; CF is the unsigned carry or borrow, OF says that the signed
    result does not fit, AF is the carry or borrow out of bit 3, ZF, SF and PF
    describe the result, the other flags stay, and a comparison writes no
    result. At 16 and 32 bits TEST is AND without the result, INC and DEC are the
    sum and the difference with 1 that keep CF, and the 16-bit operation of an opcode is
    the group operation its bits 3 to 5 name. *)
Theorem alu_exact w reg a b f :
  width_ok w -> in_range w a -> in_range w b -> 0 <= reg < 8 ->
  written (group1_op w reg a b f) = group1_spec w reg a b f /\
  (w <> 8 ->
   written (at_width w alu_test_16 alu_test_16 alu_test_32 a b f) = (None, logic_flags w (Z.land a b) f) /\
   at_width w set_flags_inc_dec_16 set_flags_inc_dec_16 set_flags_inc_dec_32 f a 1 (wrap w (a + 1)) false =
     inc_flags w a f /\
   at_width w set_flags_inc_dec_16 set_flags_inc_dec_16 set_flags_inc_dec_32 f a 1 (wrap w (a - 1)) true =
     dec_flags w a f) /\
  forall low, 0 <= low < 8 -> 8 * reg + low <> 0x85 ->
    alu_fn16_for_opcode (8 * reg + low) = group1_op 16 reg.
Proof.
  intros Hw Ha Hb Hreg. destruct (alu_sums w a b f Hw Ha Hb) as [Eadd Eadc].
  destruct (alu_diffs w a b f Hw Ha Hb) as [Esub Esbb].
  destruct (alu_logic w a b f Hw Ha Hb) as (Eand & Eor & Exor).
  split; [|split].
  - assert (reg = 0 \/ reg = 1 \/ reg = 2 \/ reg = 3 \/ reg = 4 \/ reg = 5 \/ reg = 6 \/ reg = 7)
      as Hcases by lia. unfold group1_op, group1_spec.
    destruct Hcases as [-> | [-> | [-> | [-> | [-> | [-> | [-> | ->]]]]]]];
      destruct Hw as [-> | [-> | ->]]; cbn [at_width Z.eqb Pos.eqb group1_op_8 group1_op_16 group1_op_32] in *;
      unfold alu_cmp_8, alu_cmp_16, alu_cmp_32;
      first [rewrite Eadd|rewrite Eor|rewrite Eadc|rewrite Esbb|rewrite Eand|rewrite Esub|rewrite Exor];
      reflexivity.
  - intros H8. split; [pose proof (land_range w Hw a b Ha); rewrite <- (logic_sets w Hw) by done;
      clear -Hw H8; by destruct Hw as [-> | [-> | ->]]|].
    assert (in_range w 1) as H1 by (by destruct Hw as [-> | [-> | ->]]).
    unfold inc_flags, dec_flags.
    rewrite <- (sum_sets w Hw a 1 Ha H1 0), <- (diff_sets w Hw a 1 Ha H1 0), Z.add_0_r, Z.sub_0_r by lia.
    clear -Hw H8. by destruct Hw as [-> | [-> | ->]].
  - intros low Hlow H85. unfold alu_fn16_for_opcode, group1_op.
    replace (8 * reg + low =? 0x85) with false by lia.
    rewrite Z.shiftr_div_pow2 by lia. change (2 ^ 3) with 8.
    rewrite <- (Z.div_unique (8 * reg + low) 8 reg low) by lia.
    change 7 with (Z.ones 3). rewrite Z.land_ones, Z.mod_small by lia.
    assert (reg = 0 \/ reg = 1 \/ reg = 2 \/ reg = 3 \/ reg = 4 \/ reg = 5 \/ reg = 6 \/ reg = 7)
      as Hcases by lia.
    by destruct Hcases as [-> | [-> | [-> | [-> | [-> | [-> | [-> | ->]]]]]]].
Qed.

Lemma alu_exact_witness :
  width_ok 32 /\ in_range 32 0x7FFFFFFF /\ in_range 32 1 /\ 0 <= 0 < 8 /\
  written (group1_op 32 0 0x7FFFFFFF 1 flags_default) = group1_spec 32 0 0x7FFFFFFF 1 flags_default /\
  of_ (group1_op 32 0 0x7FFFFFFF 1 flags_default).2 = true.
Proof.
  assert (width_ok 32) as Hw by (right; right; reflexivity).
  assert (in_range 32 0x7FFFFFFF) as Ha by done. assert (in_range 32 1) as Hb by done.
  assert (0 <= 0 < 8) as Hr by lia.
  destruct (alu_exact 32 0 0x7FFFFFFF 1 flags_default Hw Ha Hb Hr) as (H & _).
  split; [exact Hw|]. split; [exact Ha|]. split; [exact Hb|]. split; [exact Hr|].
  split; [exact H|vm_compute; reflexivity].
Defined.

(** What a conditional jump decides after a comparison of [a] with [b]. *)
Definition condition_spec (w cc a b : Z) : bool :=
  xorb (Z.odd cc)
    match cc / 2 with
    | 0 => out_of_range w (sint w a - sint w b)
    | 1 => a <? b
    | 2 => a =? b
    | 3 => a <=? b
    | 4 => sint w (wrap w (a - b)) <? 0
    | 5 => Z.even (ones_in (wrap8 (a - b)))
    | 6 => sint w a <? sint w b
    | _ => sint w a <=? sint w b
    end.

Lemma wrap_wrap8 w x : width_ok w -> wrap8 (wrap w x) = wrap8 x.
Proof.
  intros Hw. apply Z.bits_inj'. intros k Hk. rewrite !wrap_testbit by (destruct Hw as [-> | [-> | ->]]; lia).
  destruct (Z.ltb_spec k 8); [|done]. cbn [andb].
  by replace (k <? w) with true by (destruct Hw as [-> | [-> | ->]]; lia).
Qed.

Lemma cmp_flags w a b f : width_ok w -> in_range w a -> in_range w b ->
  (group1_op w 7 a b f).2 = diff_flags w a b 0 f.
Proof.
  intros Hw Ha Hb. destruct (alu_diffs w a b f Hw Ha Hb) as [E _]. unfold group1_op.
  destruct Hw as [-> | [-> | ->]]; cbn [at_width Z.eqb Pos.eqb group1_op_8 group1_op_16 group1_op_32] in *;
    unfold alu_cmp_8, alu_cmp_16, alu_cmp_32; rewrite E; reflexivity.
Qed.

(** The signed order from the sign and the overflow of the difference. *)
Lemma signed_less w a b : width_ok w -> in_range w a -> in_range w b ->
  negb (Bool.eqb (sint w (wrap w (a - b)) <? 0) (out_of_range w (sint w a - sint w b))) =
  (sint w a <? sint w b).
Proof.
  intros Hw Ha Hb. destruct (half_width w Hw) as (H8 & E & Hp).
  pose proof (wrap_diff w a b Ha Hb 0 ltac:(lia)) as Er. rewrite Z.sub_0_r, Z.add_0_r in Er. rewrite Er.
  unfold out_of_range, sint, in_range in *.
  destruct (Z.ltb_spec a b), (Z.ltb_spec a (2 ^ (w - 1))), (Z.ltb_spec b (2 ^ (w - 1))); all_cmp.
Qed.

Lemma diff_zero w a b : in_range w a -> in_range w b -> (wrap w (a - b) =? 0) = (a =? b).
Proof.
  intros Ha Hb. pose proof (wrap_diff w a b Ha Hb 0 ltac:(lia)) as Er. rewrite Z.sub_0_r, Z.add_0_r in Er.
  rewrite Er. unfold in_range in *. destruct (Z.ltb_spec a b); lia.
Qed.

Lemma sint_inj w a b : 0 < w -> in_range w a -> in_range w b -> sint w a = sint w b -> a = b.
Proof. intros Hw Ha Hb E. apply (f_equal (wrap w)) in E. by rewrite !wrap_sint in E. Qed.

(** Even codes state a condition, odd ones its negation. *)
Lemma condition_cases cc f : 0 <= cc < 16 ->
  condition_holds cc f = xorb (Z.odd cc)
    match cc / 2 with
    | 0 => of_ f
    | 1 => cf f
    | 2 => zf f
    | 3 => cf f || zf f
    | 4 => sf f
    | 5 => pf f
    | 6 => negb (Bool.eqb (sf f) (of_ f))
    | _ => zf f || negb (Bool.eqb (sf f) (of_ f))
    end.
Proof.
  intros Hcc. assert (cc ∈ seqZ 0 16) as Hin by (apply elem_of_seqZ; lia).
  repeat (apply elem_of_cons in Hin as [->|Hin]; [destruct f as [[] [] [] [] [] [] [] []]; reflexivity|]).
  by apply elem_of_nil in Hin.
Qed.

(** C30: after a comparison the condition codes compare. Of two words of 8, 16 or
    32 bits, JB, JBE and their negations decide the unsigned order, JL, JLE
    and theirs the signed order (overflow included), JE equality, JS and JP
    the sign and parity of the difference, JO its overflow. *)
Theorem compare_conditions w cc a b f :
  width_ok w -> in_range w a -> in_range w b -> 0 <= cc < 16 ->
  condition_holds cc (group1_op w 7 a b f).2 = condition_spec w cc a b.
Proof.
  intros Hw Ha Hb Hcc. rewrite cmp_flags by done.
  pose proof (signed_less w a b Hw Ha Hb) as Hl. pose proof (diff_zero w a b Ha Hb) as Hz.
  assert (0 < w) as Hw0 by (destruct Hw as [-> | [-> | ->]]; lia).
  assert ((a =? b) || (sint w a <? sint w b) = (sint w a <=? sint w b)) as Hle.
  { destruct (Z.eqb_spec a b) as [->|Hne]; cbn [orb]; [lia|].
    assert (sint w a <> sint w b) by (intros ?%sint_inj; done). lia. }
  assert ((a <? b) || (a =? b) = (a <=? b)) as Hleu by lia.
  pose proof (wrap_wrap8 w (a - b) Hw) as Hp.
  rewrite condition_cases by done. unfold diff_flags, condition_spec, arith_flags.
  cbn [cf pf zf sf of_]. rewrite !Z.sub_0_r, Z.add_0_r, Hl, Hz, Hp, Hle, Hleu. done.
Qed.

Lemma compare_conditions_witness :
  width_ok 8 /\ in_range 8 0x80 /\ in_range 8 1 /\ 0 <= 12 < 16 /\
  condition_holds 12 (group1_op 8 7 0x80 1 flags_default).2 = condition_spec 8 12 0x80 1 /\
  condition_spec 8 12 0x80 1 = true /\ condition_spec 8 2 0x80 1 = false.
Proof.
  assert (width_ok 8) as Hw by (left; reflexivity).
  assert (in_range 8 0x80) as Ha by done. assert (in_range 8 1) as Hb by done.
  assert (0 <= 12 < 16) as Hc by lia.
  split; [exact Hw|]. split; [exact Ha|]. split; [exact Hb|]. split; [exact Hc|].
  split; [exact (compare_conditions 8 12 0x80 1 flags_default Hw Ha Hb Hc)|split; vm_compute; reflexivity].
Defined.
