(* ===== verification/Sched.v ===== *)
(** The synchronization objects of the guest scheduler
    (src/src/emulator/sched.rs): thread states, wait conditions, the object
    table with its handles, the named objects, the critical sections and the
    pipe buffers. A [u32] handle, thread or process number is a [Z]. *)

From S2P Require Import Prelude Text.

#[export] Instance byte_countable : Countable byte := inj_countable' u8 byte_of byte_of_u8.

(** * Data *)

Definition WAIT_OBJECT_HANDLE_BASE : Z := 0x6B000000.
Definition PRIORITY_NORMAL : Z := 0.
Definition INSTRUCTIONS_PER_MS : Z := 1000.
(** win32/mod.rs *)
Definition DEFAULT_QUANTUM : Z := 10000.

Inductive ThreadStatus : Type := Ready | Running | Waiting | Suspended | Terminated.

#[export] Instance ThreadStatus_eq_dec : EqDecision ThreadStatus.
Proof. solve_decision. Defined.

Inductive WaitCondition : Type :=
| Sleep (resume_after_instructions : Z)
| Object (handle : Z) (timeout_after : option Z)
| Multiple (handles : list Z) (wait_all : bool) (timeout_after : option Z).

Inductive WaitObject : Type :=
| Event (signaled manual_reset : bool)
| Mutex (owner : option Z) (recursion : Z)
| Semaphore (count max : Z)
| Thread (tid : Z)
| Process (pid : Z)
| CriticalSection (guest_addr : Z) (owner : option Z) (recursion : Z)
| Pipe (pipe_id : Z) (is_read_end : bool).

Inductive YieldRequest : Type :=
| Wait (cond : WaitCondition)
| Yield
| Exit (code : Z).

Record PipeBuffer : Type := { pipe_bytes : list byte; closed_ends : Z }.

Definition pipe_default : PipeBuffer := {| pipe_bytes := []; closed_ends := 0 |}.

Record Scheduler : Type := {
  objects : gmap Z WaitObject;
  critical_sections : gmap Z Z;
  named_objects : gmap (list byte) Z;
  pipes : gmap Z PipeBuffer;
  next_pipe_index : Z;
  next_handle_index : Z;
  instructions_global : Z;
  quantum_default : Z;
}.

Definition scheduler_new : Scheduler :=
  {| objects := ∅; critical_sections := ∅; named_objects := ∅; pipes := ∅;
     next_pipe_index := 0; next_handle_index := 0; instructions_global := 0;
     quantum_default := DEFAULT_QUANTUM |}.

(** * Assigning fields *)

Definition with_objects (s : Scheduler) (o : gmap Z WaitObject) : Scheduler :=
  {| objects := o; critical_sections := critical_sections s; named_objects := named_objects s;
     pipes := pipes s; next_pipe_index := next_pipe_index s; next_handle_index := next_handle_index s;
     instructions_global := instructions_global s; quantum_default := quantum_default s |}.

Definition with_clock (s : Scheduler) (n : Z) : Scheduler :=
  {| objects := objects s; critical_sections := critical_sections s; named_objects := named_objects s;
     pipes := pipes s; next_pipe_index := next_pipe_index s; next_handle_index := next_handle_index s;
     instructions_global := n; quantum_default := quantum_default s |}.

(** [if let Some(obj) = objects.get_mut(&h) { *obj = f(obj) }] *)
Definition update_object (s : Scheduler) (h : Z) (f : WaitObject -> WaitObject) : Scheduler :=
  match objects s !! h with
  | Some o => with_objects s (<[h := f o]> (objects s))
  | None => s
  end.

(** * Operations *)

Definition insert_object (s : Scheduler) (object : WaitObject) : Z * Scheduler :=
  let handle := wrap32 (WAIT_OBJECT_HANDLE_BASE + next_handle_index s) in
  (handle,
   {| objects := <[handle := object]> (objects s); critical_sections := critical_sections s;
      named_objects := named_objects s; pipes := pipes s; next_pipe_index := next_pipe_index s;
      next_handle_index := wrap32 (next_handle_index s + 1);
      instructions_global := instructions_global s; quantum_default := quantum_default s |}).

Definition lookup_named (s : Scheduler) (name : list byte) : option Z :=
  named_objects s !! to_ascii_lowercase name.

Definition register_named (s : Scheduler) (name : list byte) (handle : Z) : Scheduler :=
  {| objects := objects s; critical_sections := critical_sections s;
     named_objects := <[to_ascii_lowercase name := handle]> (named_objects s);
     pipes := pipes s; next_pipe_index := next_pipe_index s; next_handle_index := next_handle_index s;
     instructions_global := instructions_global s; quantum_default := quantum_default s |}.

Definition insert_pipe (s : Scheduler) : Z * Scheduler :=
  let id := next_pipe_index s in
  (id,
   {| objects := objects s; critical_sections := critical_sections s; named_objects := named_objects s;
      pipes := <[id := pipe_default]> (pipes s); next_pipe_index := wrap32 (id + 1);
      next_handle_index := next_handle_index s;
      instructions_global := instructions_global s; quantum_default := quantum_default s |}).

Definition owns (s : Scheduler) (handle : Z) : bool := bool_decide (is_Some (objects s !! handle)).

Definition critical_section_handle (s : Scheduler) (guest_addr : Z) : Z * Scheduler :=
  match critical_sections s !! guest_addr with
  | Some h => (h, s)
  | None =>
      let '(h, s) := insert_object s (CriticalSection guest_addr None 0) in
      (h, {| objects := objects s; critical_sections := <[guest_addr := h]> (critical_sections s);
             named_objects := named_objects s; pipes := pipes s; next_pipe_index := next_pipe_index s;
             next_handle_index := next_handle_index s;
             instructions_global := instructions_global s; quantum_default := quantum_default s |})
  end.

Definition object_is_signaled (obj : WaitObject) : bool :=
  match obj with
  | Event signaled _ => signaled
  | Mutex owner _ => match owner with None => true | Some _ => false end
  | Semaphore count _ => 0 <? count
  | Thread _ | Process _ => false
  | CriticalSection _ owner _ => match owner with None => true | Some _ => false end
  | Pipe _ _ => true
  end.

(** [count.saturating_sub(1)] *)
Definition saturating_sub (a b : Z) : Z := Z.max 0 (a - b).

Definition consume_signal_if_auto_reset (obj : WaitObject) (waker_tid : Z) : WaitObject :=
  match obj with
  | Event signaled manual_reset => Event (if negb manual_reset then false else signaled) manual_reset
  | Mutex _ _ => Mutex (Some waker_tid) 1
  | Semaphore count max => Semaphore (saturating_sub count 1) max
  | CriticalSection guest_addr _ _ => CriticalSection guest_addr (Some waker_tid) 1
  | Thread _ | Process _ => obj
  | Pipe _ _ => obj
  end.

(** Whether a wait condition is on the handle. *)
Definition waits_for (w : option WaitCondition) (handle : Z) : bool :=
  match w with
  | Some (Object h _) => h =? handle
  | Some (Multiple handles _ _) => existsb (Z.eqb handle) handles
  | _ => false
  end.
