(* ===== verification/Threads.v ===== *)
(** Guest threads and the run loop (src/src/emulator/win32/mod.rs): thread and
    process tables, the choice of the next thread, termination, sleep, and one
    iteration of [run_until_sentinel]. Of a [Cpu] it uses the
    register file and the stack; the other fields travel with it. Of a
    process it uses the exit fields and the two pools [CreateThread] takes
    from. The environment variables that only print are unset. *)

From S2P Require Import Prelude Regs Mmu Sched.

(** * Data *)

(** The fields of a [Cpu] that nothing here reads (FPU, vector registers,
    prefixes, counters), and their values in [Cpu::new]. *)
Class CpuRest : Type := { Rest : Type; rest_new : Rest }.

Section data.
Context `{CpuRest}.

Record Cpu : Type := { regs : Regs; code16 : bool; fs_base : Z; ss_base : Z; rest : Rest }.

Definition cpu_new : Cpu :=
  {| regs := regs_new; code16 := false; fs_base := 0; ss_base := 0; rest := rest_new |}.

Definition with_regs (c : Cpu) (r : Regs) : Cpu :=
  {| regs := r; code16 := code16 c; fs_base := fs_base c; ss_base := ss_base c; rest := rest c |}.

Definition set_eip (c : Cpu) (v : Z) : Cpu :=
  with_regs c {| gp := gp (regs c); eip := v; flags := flags (regs c); gp64 := gp64 (regs c);
                 rip := rip (regs c) |}.

Definition set_fs_base (c : Cpu) (base : Z) : Cpu :=
  {| regs := regs c; code16 := code16 c; fs_base := base; ss_base := ss_base c; rest := rest c |}.

Definition dec_sp (c : Cpu) (n : Z) : Z * Cpu :=
  let sp :=
    if code16 c then Z.land (wrap32 (esp (regs c) - n)) 0xFFFF else wrap32 (esp (regs c) - n) in
  (sp, with_regs c (set_esp (regs c) sp)).

Definition stack_addr (c : Cpu) (sp : Z) : Z := wrap32 (ss_base c + sp).

(** The processor is changed even when the store fails. *)
Definition push32 (c : Cpu) (value : Z) : Cpu * St unit :=
  let '(new_sp, c) := dec_sp c 4 in
  (c, store32 (stack_addr c new_sp) value).

Record ThreadState : Type := {
  t_tid : Z;
  t_pid : Z;
  priority : Z;
  tls_slots : gmap Z Z;
  parked_cpu : option Cpu;
  quantum_remaining : Z;
  status : ThreadStatus;
  wait : option WaitCondition;
  tib_addr : Z;
  last_eip_before_wild : Z;
  pthread_slots : gmap Z Z;
}.

Definition thread_new (tid pid : Z) : ThreadState :=
  {| t_tid := tid; t_pid := pid; priority := 0; tls_slots := ∅; parked_cpu := None;
     quantum_remaining := DEFAULT_QUANTUM; status := Ready; wait := None; tib_addr := 0;
     last_eip_before_wild := 0; pthread_slots := ∅ |}.

(** The fields of [ProcessState] that threads depend on. *)
Record ProcessState : Type := {
  p_pid : Z;
  exit_code : option Z;
  exit_requested : option Z;
  thread_stack_pool_bottom : Z;
  next_thread_stack_top : Z;
  tib_pool_bottom : Z;
  next_tib_addr : Z;
}.

(** The fields of [HostState] that threads depend on. *)
Record HostState : Type := {
  processes : gmap Z ProcessState;
  active_pid : Z;
  threads : gmap Z ThreadState;
  active_tid : Z;
  next_tid : Z;
  last_error : Z;
  tick : Z;
  instruction_budget : option Z;
  instructions_executed : Z;
  scheduler : Scheduler;
  yield_requested : option YieldRequest;
}.

Definition process_default (pid : Z) : ProcessState :=
  {| p_pid := pid; exit_code := None; exit_requested := None; thread_stack_pool_bottom := 0;
     next_thread_stack_top := 0; tib_pool_bottom := 0; next_tib_addr := 0 |}.

Definition host_default : HostState :=
  {| processes := {[1 := process_default 1]}; active_pid := 1;
     threads := {[1 := thread_new 1 1]}; active_tid := 1; next_tid := 2; last_error := 0; tick := 0;
     instruction_budget := None; instructions_executed := 0; scheduler := scheduler_new;
     yield_requested := None |}.

(** * Assigning fields *)

Definition with_status (t : ThreadState) (st : ThreadStatus) : ThreadState :=
  {| t_tid := t_tid t; t_pid := t_pid t; priority := priority t; tls_slots := tls_slots t;
     parked_cpu := parked_cpu t; quantum_remaining := quantum_remaining t; status := st;
     wait := wait t; tib_addr := tib_addr t; last_eip_before_wild := last_eip_before_wild t;
     pthread_slots := pthread_slots t |}.

Definition with_wait (t : ThreadState) (w : option WaitCondition) : ThreadState :=
  {| t_tid := t_tid t; t_pid := t_pid t; priority := priority t; tls_slots := tls_slots t;
     parked_cpu := parked_cpu t; quantum_remaining := quantum_remaining t; status := status t;
     wait := w; tib_addr := tib_addr t; last_eip_before_wild := last_eip_before_wild t;
     pthread_slots := pthread_slots t |}.

Definition with_parked (t : ThreadState) (c : option Cpu) : ThreadState :=
  {| t_tid := t_tid t; t_pid := t_pid t; priority := priority t; tls_slots := tls_slots t;
     parked_cpu := c; quantum_remaining := quantum_remaining t; status := status t;
     wait := wait t; tib_addr := tib_addr t; last_eip_before_wild := last_eip_before_wild t;
     pthread_slots := pthread_slots t |}.

Definition with_priority (t : ThreadState) (p : Z) : ThreadState :=
  {| t_tid := t_tid t; t_pid := t_pid t; priority := p; tls_slots := tls_slots t;
     parked_cpu := parked_cpu t; quantum_remaining := quantum_remaining t; status := status t;
     wait := wait t; tib_addr := tib_addr t; last_eip_before_wild := last_eip_before_wild t;
     pthread_slots := pthread_slots t |}.

Definition with_quantum (t : ThreadState) (q : Z) : ThreadState :=
  {| t_tid := t_tid t; t_pid := t_pid t; priority := priority t; tls_slots := tls_slots t;
     parked_cpu := parked_cpu t; quantum_remaining := q; status := status t;
     wait := wait t; tib_addr := tib_addr t; last_eip_before_wild := last_eip_before_wild t;
     pthread_slots := pthread_slots t |}.

Definition with_threads (s : HostState) (m : gmap Z ThreadState) : HostState :=
  {| processes := processes s; active_pid := active_pid s; threads := m; active_tid := active_tid s;
     next_tid := next_tid s; last_error := last_error s; tick := tick s;
     instruction_budget := instruction_budget s; instructions_executed := instructions_executed s;
     scheduler := scheduler s; yield_requested := yield_requested s |}.

Definition with_processes (s : HostState) (m : gmap Z ProcessState) : HostState :=
  {| processes := m; active_pid := active_pid s; threads := threads s; active_tid := active_tid s;
     next_tid := next_tid s; last_error := last_error s; tick := tick s;
     instruction_budget := instruction_budget s; instructions_executed := instructions_executed s;
     scheduler := scheduler s; yield_requested := yield_requested s |}.

Definition with_active (s : HostState) (tid pid : Z) : HostState :=
  {| processes := processes s; active_pid := pid; threads := threads s; active_tid := tid;
     next_tid := next_tid s; last_error := last_error s; tick := tick s;
     instruction_budget := instruction_budget s; instructions_executed := instructions_executed s;
     scheduler := scheduler s; yield_requested := yield_requested s |}.

Definition with_scheduler (s : HostState) (sc : Scheduler) : HostState :=
  {| processes := processes s; active_pid := active_pid s; threads := threads s;
     active_tid := active_tid s; next_tid := next_tid s; last_error := last_error s; tick := tick s;
     instruction_budget := instruction_budget s; instructions_executed := instructions_executed s;
     scheduler := sc; yield_requested := yield_requested s |}.

Definition with_yield (s : HostState) (y : option YieldRequest) : HostState :=
  {| processes := processes s; active_pid := active_pid s; threads := threads s;
     active_tid := active_tid s; next_tid := next_tid s; last_error := last_error s; tick := tick s;
     instruction_budget := instruction_budget s; instructions_executed := instructions_executed s;
     scheduler := scheduler s; yield_requested := y |}.

Definition with_counters (s : HostState) (budget : option Z) (executed : Z) : HostState :=
  {| processes := processes s; active_pid := active_pid s; threads := threads s;
     active_tid := active_tid s; next_tid := next_tid s; last_error := last_error s; tick := tick s;
     instruction_budget := budget; instructions_executed := executed;
     scheduler := scheduler s; yield_requested := yield_requested s |}.

Definition with_process_exit (p : ProcessState) (code requested : option Z) : ProcessState :=
  {| p_pid := p_pid p; exit_code := code; exit_requested := requested;
     thread_stack_pool_bottom := thread_stack_pool_bottom p;
     next_thread_stack_top := next_thread_stack_top p; tib_pool_bottom := tib_pool_bottom p;
     next_tib_addr := next_tib_addr p |}.

(** [if let Some(t) = threads.get_mut(&tid) { *t = f(t) }] *)
Definition update_thread (s : HostState) (tid : Z) (f : ThreadState -> ThreadState) : HostState :=
  match threads s !! tid with
  | Some t => with_threads s (<[tid := f t]> (threads s))
  | None => s
  end.

Definition update_process (s : HostState) (pid : Z) (f : ProcessState -> ProcessState) : HostState :=
  match processes s !! pid with
  | Some p => with_processes s (<[pid := f p]> (processes s))
  | None => s
  end.

(** [cur_thread] and [cur_process] panic on a missing entry; [cur_thread_mut]
    gives the state with the thread changed. *)
Definition cur_thread {E} (s : HostState) : res E ThreadState :=
  or_panic (threads s !! active_tid s).

Definition cur_process {E} (s : HostState) : res E ProcessState :=
  or_panic (processes s !! active_pid s).

Definition cur_thread_mut {E} (s : HostState) (f : ThreadState -> ThreadState) : res E HostState :=
  t ← cur_thread s; Ok (with_threads s (<[active_tid s := f t]> (threads s))).

(** * Waiters *)

(** [status = Ready; wait = None] *)
Definition make_ready (t : ThreadState) : ThreadState := with_wait (with_status t Ready) None.

Definition is_status (st : ThreadStatus) (t : ThreadState) : bool := bool_decide (status t = st).

Definition waiters_on (ts : gmap Z ThreadState) (handle : Z) : list Z :=
  sort_by_key (fun tid => tid)
    (List.map fst
      (base.filter (fun p : Z * ThreadState => waits_for (wait p.2) handle = true)
        (base.filter (fun p : Z * ThreadState => is_status Waiting p.2 = true) (ordered ts)))).

(** [for tid in waiters_on(..) { if let Some(t) = threads.get_mut(..) { .. } }] *)
Definition wake_waiters (s : HostState) (h : Z) : HostState :=
  fold_left (fun s tid => update_thread s tid make_ready) (waiters_on (threads s) h) s.

(** [on_thread_terminated]: the handles whose objects satisfy [p]. *)
Definition handles_where (s : HostState) (p : WaitObject -> bool) : list Z :=
  List.map fst (base.filter (fun e : Z * WaitObject => p e.2 = true) (ordered (objects (scheduler s)))).

Definition is_process_object (pid : Z) (o : WaitObject) : bool :=
  match o with Process p => p =? pid | _ => false end.

Definition is_thread_object (tid : Z) (o : WaitObject) : bool :=
  match o with Thread t => t =? tid | _ => false end.

Definition on_thread_terminated (s : HostState) (tid : Z) : HostState :=
  match threads s !! tid with
  | None => s
  | Some t =>
      let pid := t_pid t in
      let alive := existsb (fun e : Z * ThreadState => (t_pid e.2 =? pid) && negb (is_status Terminated e.2))
                     (ordered (threads s)) in
      if alive then s
      else
        let s := update_process s pid
          (fun p => match exit_code p with
                    | None => with_process_exit p (Some 0) (exit_requested p)
                    | Some _ => p
                    end) in
        let handles := handles_where s (is_process_object pid) in
        let s := fold_left wake_waiters handles s in
        let thread_handles := handles_where s (is_thread_object tid) in
        fold_left wake_waiters thread_handles s
  end.

(** * Choosing the next thread *)

(** Descending priority, then ascending thread number. *)
Definition before (a b : Z * Z) : Prop := b.1 < a.1 \/ (a.1 = b.1 /\ a.2 <= b.2).

#[export] Instance before_dec a b : Decision (before a b).
Proof. unfold before. apply _. Defined.

Definition candidates (s : HostState) (cur_tid : Z) : list (Z * Z) :=
  List.map (fun p : Z * ThreadState => (priority p.2, p.1))
    (base.filter (fun p : Z * ThreadState => p.1 <> cur_tid /\ is_status Ready p.2 = true)
      (ordered (threads s))).

Definition pick_next (s : HostState) (cur_tid : Z) : option Z :=
  match merge_sort before (candidates s cur_tid) with
  | [] => None
  | (_, tid) :: _ => Some tid
  end.

Definition is_runnable (t : ThreadState) : bool := is_status Ready t || is_status Running t.

Definition schedule_next_thread {E} (cpu : Cpu) (s : HostState) : res E (Cpu * HostState) :=
  let cur_tid := active_tid s in
  let next_tid := pick_next s cur_tid in
  let cur_is_runnable :=
    match threads s !! cur_tid with Some t => is_runnable t | None => false end in
  match next_tid with
  | None =>
      if cur_is_runnable then
        s ← cur_thread_mut s (fun t => with_status t Running);
        Ok (cpu, s)
      else Ok (cpu, s)
  | Some next_tid =>
      let parked := cpu in
      let cpu := cpu_new in
      let s := update_thread s cur_tid (fun t => with_parked t (Some parked)) in
      let '(cpu, s, new_pid) :=
        match threads s !! next_tid with
        | Some t =>
            (match parked_cpu t with Some c => c | None => cpu end,
             update_thread s next_tid (fun t => with_status (with_parked t None) Running),
             Some (t_pid t))
        | None => (cpu, s, None)
        end in
      let s := with_active s next_tid (active_pid s) in
      Ok (cpu,
          match new_pid with
          | Some pid =>
              if bool_decide (is_Some (processes s !! pid)) then with_active s next_tid pid else s
          | None => s
          end)
  end.

Definition handle_yield {E} (cpu : Cpu) (s : HostState) (req : YieldRequest) : res E (Cpu * HostState) :=
  s ← match req with
      | Wait cond => cur_thread_mut s (fun t => with_wait (with_status t Waiting) (Some cond))
      | Yield => cur_thread_mut s (fun t => with_status t Ready)
      | Exit _ =>
          let tid := active_tid s in
          s ← cur_thread_mut s (fun t => with_wait (with_status t Terminated) None);
          Ok (on_thread_terminated s tid)
      end;
  schedule_next_thread cpu s.

(** * Sleep *)

(** The resume target of a thread that waits on [Sleep]. *)
Definition sleep_target (t : ThreadState) : option Z :=
  if is_status Waiting t then
    match wait t with Some (Sleep n) => Some n | _ => None end
  else None.

(** [Iterator::min] *)
Definition min_of (l : list Z) : option Z :=
  foldr (fun x acc => Some (match acc with None => x | Some y => Z.min x y end)) None l.

Definition earliest_sleep_resume (s : HostState) : option Z :=
  min_of (omap (fun p : Z * ThreadState => sleep_target p.2) (ordered (threads s))).

Definition wake_sleep_if_due (s : HostState) : HostState :=
  let now := instructions_global (scheduler s) in
  with_threads s
    ((fun t => match sleep_target t with
               | Some n => if n <=? now then make_ready t else t
               | None => t
               end) <$> threads s).

(** * The run loop *)

(** The reason of an invalid argument is a text; where it is the rendering of a
    trap the trap is kept. *)
Inductive Reason : Type := ReasonText (s : list byte) | ReasonTrap (t : Trap).

Inductive Win32Error : Type :=
| UnknownImport (dll name : list byte)
| InvalidArgument (stub : list byte) (reason : Reason)
| InvalidHeapBlock (stub : list byte) (addr : Z)
| BudgetExhausted (executed : Z).

(** emulator/mod.rs; the payload of the PE loader's errors is [PeError]. *)
Inductive Error (PeError : Type) : Type :=
| NotImplemented
| ETrap (t : Trap)
| EPeLoader (e : PeError)
| EWin32 (e : Win32Error)
| ENeLoader (detail : list byte).
#[global] Arguments NotImplemented {PeError}.
#[global] Arguments ETrap {PeError} _.
#[global] Arguments EPeLoader {PeError} _.
#[global] Arguments EWin32 {PeError} _.
#[global] Arguments ENeLoader {PeError} _.

(** The rest of the emulator, as the loop calls it: the stub registry with its
    dispatcher, one instruction, and the DOS interrupts. *)
Class Machine : Type := {
  PeError : Type;
  Registry : Type;
  is_thunk : Registry -> Z -> bool;
  dispatch_stub : Cpu -> Mmu -> Registry -> HostState ->
    Cpu * Mmu * Registry * HostState * res (Error PeError) unit;
  step : Cpu -> Mmu -> Cpu * Mmu * res Trap StepOk;
  service_interrupt : Z -> Cpu -> Mmu -> HostState -> Cpu * Mmu * HostState * bool;
}.

Section loop.
Context `{Machine}.

Record World : Type := { w_cpu : Cpu; w_mmu : Mmu; w_registry : Registry; w_host : HostState }.

(** Leaving the loop: the state, and what [run_until_sentinel] returns. *)
Definition Exited : Type := World * res (Error PeError) unit.

Definition with_host (w : World) (c : Cpu) (s : HostState) : World :=
  {| w_cpu := c; w_mmu := w_mmu w; w_registry := w_registry w; w_host := s |}.

(** The yield request the last stub left. *)
Definition honour_yield (w : World) : res Exited World :=
  match yield_requested (w_host w) with
  | Some req =>
      cs ← handle_yield (w_cpu w) (with_yield (w_host w) None) req;
      let '(c, s) := cs in Ok (with_host w c s)
  | None => Ok w
  end.

(** The clock jumps to the next sleeper when the active thread cannot run. *)
Definition nudge (w : World) : res Exited World :=
  t ← cur_thread (w_host w);
  if is_runnable t then Ok w
  else
    w ← match earliest_sleep_resume (w_host w) with
        | Some earliest =>
            let sc := scheduler (w_host w) in
            let s := with_scheduler (w_host w) (with_clock sc (Z.max (instructions_global sc) earliest)) in
            let s := wake_sleep_if_due s in
            cs ← schedule_next_thread (w_cpu w) s;
            let '(c, s) := cs in Ok (with_host w c s)
        | None => Ok w
        end;
    t ← cur_thread (w_host w);
    if negb (is_runnable t) then Err (with_host w (set_eip (w_cpu w) RET_SENTINEL) (w_host w), Ok tt)
    else
      s ← cur_thread_mut (w_host w) (fun t => with_status t Running);
      Ok (with_host w (w_cpu w) s).

(** The active thread is over. *)
Definition finish_thread (w : World) : res Exited World :=
  let dead_tid := active_tid (w_host w) in
  s ← cur_thread_mut (w_host w) (fun t => with_status t Terminated);
  let s := on_thread_terminated s dead_tid in
  cs ← schedule_next_thread (w_cpu w) s;
  let '(c, s) := cs in Ok (with_host w c s).

(** [state.exit_requested] is the active process's field. *)
Definition exit_wanted (s : HostState) : res Exited bool :=
  p ← cur_process s;
  Ok (match exit_requested p with Some _ => true | None => false end).

(** [eip == RET_SENTINEL] *)
Definition at_sentinel (w : World) : res Exited World :=
  if active_tid (w_host w) =? 1 then Err (w, Ok tt)
  else
    w ← finish_thread w;
    if active_tid (w_host w) =? 1 then
      t ← cur_thread (w_host w);
      if is_runnable t && (eip (regs (w_cpu w)) =? RET_SENTINEL) then Err (w, Ok tt) else Ok w
    else Ok w.

Definition saturating_inc (n : Z) : Z := Z.min (n + 1) (2 ^ 64 - 1).

(** The budget and the counters. *)
Definition charge (w : World) : res Exited World :=
  let s := w_host w in
  budget ← match instruction_budget s with
           | Some remaining =>
               if remaining =? 0
               then Err (w, Err (EWin32 (BudgetExhausted (instructions_executed s))))
               else Ok (Some (remaining - 1))
           | None => Ok None
           end;
  let s := with_counters s budget (saturating_inc (instructions_executed s)) in
  let sc := scheduler s in
  Ok (with_host w (w_cpu w)
       (with_scheduler s (with_clock sc (saturating_inc (instructions_global sc))))).

(** Preemption at the end of a quantum. *)
Definition preempt (w : World) : res Exited World :=
  let s := w_host w in
  let cur_tid := active_tid s in
  t ← cur_thread s;
  let q := if 0 <? quantum_remaining t then quantum_remaining t - 1 else quantum_remaining t in
  let exhausted := q =? 0 in
  let q := if exhausted then quantum_default (scheduler s) else q in
  s ← cur_thread_mut s (fun t => with_quantum t q);
  let has_peer := existsb (fun p : Z * ThreadState => negb (p.1 =? cur_tid) && is_status Ready p.2)
                    (ordered (threads s)) in
  Ok (with_host w (w_cpu w) (if exhausted && has_peer then with_yield s (Some Yield) else s)).

(** A stub call or an instruction. *)
Definition execute (w : World) : res Exited World :=
  if is_thunk (w_registry w) (eip (regs (w_cpu w))) then
    let '(c, m, r, s, res) := dispatch_stub (w_cpu w) (w_mmu w) (w_registry w) (w_host w) in
    let w := {| w_cpu := c; w_mmu := m; w_registry := r; w_host := s |} in
    match res with
    | Ok _ => Ok w
    | Err e => Err (w, Err e)
    | Panic => Panic
    end
  else
    let '(c, m, res) := step (w_cpu w) (w_mmu w) in
    let w := {| w_cpu := c; w_mmu := m; w_registry := w_registry w; w_host := w_host w |} in
    match res with
    | Ok Continued => Ok w
    | Ok Halted =>
        if active_tid (w_host w) =? 1 then Err (w, Ok tt)
        else finish_thread (with_host w (set_eip (w_cpu w) RET_SENTINEL) (w_host w))
    | Err t =>
        match t with
        | SoftwareInterrupt num _ =>
            let '(c, m, s, served) := service_interrupt num (w_cpu w) (w_mmu w) (w_host w) in
            let w := {| w_cpu := c; w_mmu := m; w_registry := w_registry w; w_host := s |} in
            if served then Ok w else Err (w, Err (ETrap t))
        | _ => Err (w, Err (ETrap t))
        end
    | Panic => Panic
    end.

(** One iteration: [Ok] continues the loop, [Err] leaves it. *)
Definition iterate (w : World) : res Exited World :=
  w ← honour_yield w;
  w ← nudge w;
  ex ← exit_wanted (w_host w);
  if (ex : bool) then
    Err (with_host w (set_eip (w_cpu w) RET_SENTINEL) (w_host w), Ok tt)
  else if eip (regs (w_cpu w)) =? RET_SENTINEL then at_sentinel w
  else
    w ← charge w;
    w ← preempt w;
    execute w.

(** The loop, for at most [fuel] iterations; [None] when they do not suffice. *)
Fixpoint run_loop (fuel : nat) (w : World) : option (res Exited World) :=
  match fuel with
  | O => None
  | S fuel' =>
      match iterate w with
      | Ok w => run_loop fuel' w
      | out => Some out
      end
  end.

Definition run_until_sentinel (fuel : nat) (w : World) : option (res Exited World) :=
  run_loop fuel (with_host w (w_cpu w) (with_counters (w_host w) (instruction_budget (w_host w)) 0)).
End loop.
End data.
