(* ===== verification/ThreadsInv.v ===== *)
(** The scheduler's guarantees: what wakes whom, which thread runs next, that no
    register file is lost on a switch, and that a budgeted run ends
    (Threads.v). *)

From S2P Require Import Prelude Regs Mmu Sched Threads.

Section sched.
Context `{CpuRest}.

(** * Updates *)

Lemma with_threads_same s : with_threads s (threads s) = s.
Proof. by destruct s. Qed.

Lemma update_thread_alter s tid f : update_thread s tid f = with_threads s (alter f tid (threads s)).
Proof.
  unfold update_thread. destruct (threads s !! tid) as [t|] eqn:E.
  - f_equal. apply map_eq. intros k. destruct (decide (k = tid)) as [->|].
    + by rewrite lookup_insert_eq, lookup_alter_eq, E.
    + by rewrite lookup_insert_ne, lookup_alter_ne by done.
  - rewrite (map_eq (alter f tid (threads s)) (threads s)), with_threads_same; [done|].
    intros k. destruct (decide (k = tid)) as [->|]; [by rewrite lookup_alter_eq, E|by rewrite lookup_alter_ne].
Qed.

Lemma is_status_spec st t : is_status st t = true <-> status t = st.
Proof. apply bool_decide_eq_true. Qed.

(** Whether a thread waits on one of the handles, and what waking does to it. *)
Definition waits_any (hs : list Z) (t : ThreadState) : bool :=
  is_status Waiting t && existsb (waits_for (wait t)) hs.

Definition woken (hs : list Z) (t : ThreadState) : ThreadState :=
  if waits_any hs t then make_ready t else t.

Lemma waiters_on_spec ts h tid :
  tid ∈ waiters_on ts h <-> exists t, ts !! tid = Some t /\ waits_any [h] t = true.
Proof.
  unfold waiters_on, waits_any. cbn [existsb]. rewrite (sort_by_key_perm (fun x => x)), list_elem_of_fmap. split.
  - intros ((k & t) & -> & [Hw [Hs Hin%elem_of_ordered]%list_elem_of_filter]%list_elem_of_filter).
    exists t. split; [done|]. cbn [snd] in *. by rewrite Hw, Hs.
  - intros (t & E & [Hs Hw]%andb_true_iff). exists (tid, t). split; [done|].
    rewrite orb_false_r in Hw. by rewrite !list_elem_of_filter, elem_of_ordered.
Qed.

Lemma make_ready_idem t : make_ready (make_ready t) = make_ready t.
Proof. done. Qed.

Lemma alter_all (f : ThreadState -> ThreadState) l (s : HostState) : (forall t, f (f t) = f t) ->
  exists m, fold_left (fun s tid => update_thread s tid f) l s = with_threads s m /\
    forall k, m !! k = (if bool_decide (k ∈ l) then f else id) <$> threads s !! k.
Proof.
  intros Hf. revert s. induction l as [|tid l IH]; intros s; cbn [fold_left].
  { exists (threads s). rewrite with_threads_same. split; [done|]. intros k.
    rewrite bool_decide_eq_false_2 by apply not_elem_of_nil. by rewrite option_fmap_id. }
  rewrite update_thread_alter. destruct (IH (with_threads s (alter f tid (threads s)))) as (m & E & Hm).
  exists m. split; [exact E|]. intros k. rewrite Hm. cbn [threads with_threads].
  destruct (decide (k = tid)) as [->|Hne].
  - rewrite lookup_alter_eq, (bool_decide_eq_true_2 (tid ∈ tid :: l)) by left.
    destruct (threads s !! tid); [|done]. cbn. case_bool_decide; cbn; by rewrite ?Hf.
  - rewrite lookup_alter_ne by done.
    rewrite (bool_decide_ext (k ∈ tid :: l) (k ∈ l)); [done|]. rewrite elem_of_cons. tauto.
Qed.

(** Waking the waiters of handles changes every thread by [woken]. *)
Lemma wake_waiters_eq h s : wake_waiters s h = with_threads s (woken [h] <$> threads s).
Proof.
  unfold wake_waiters. destruct (alter_all make_ready (waiters_on (threads s) h) s make_ready_idem) as (m & -> & Hm).
  f_equal. apply map_eq. intros k. rewrite Hm, lookup_fmap. destruct (threads s !! k) as [t|] eqn:E; [|done].
  cbn. unfold woken. case_bool_decide as Hk.
  - apply waiters_on_spec in Hk as (t' & E' & Hw). rewrite E in E'. injection E' as <-. by rewrite Hw.
  - destruct (waits_any [h] t) eqn:Hw; [|done]. destruct Hk. apply waiters_on_spec. by exists t.
Qed.

Lemma woken_cons h hs t : woken hs (woken [h] t) = woken (h :: hs) t.
Proof.
  unfold woken, waits_any. cbn [existsb]. rewrite orb_false_r.
  destruct (is_status Waiting t) eqn:Es; cbn [andb]; [|by rewrite Es].
  destruct (waits_for (wait t) h); cbn [orb]; [done|by rewrite Es].
Qed.

Lemma woken_app hs hs' t : woken hs' (woken hs t) = woken (hs ++ hs') t.
Proof.
  unfold woken, waits_any. rewrite existsb_app.
  destruct (is_status Waiting t) eqn:Es; cbn [andb]; [|by rewrite Es].
  destruct (existsb _ hs); cbn [orb]; [done|by rewrite Es].
Qed.

Lemma wake_all_eq hs s : fold_left wake_waiters hs s = with_threads s (woken hs <$> threads s).
Proof.
  revert s. induction hs as [|h hs IH]; intros s; cbn [fold_left].
  - rewrite (map_fmap_ext _ id), map_fmap_id, with_threads_same; [done|].
    intros k t _. unfold woken, waits_any. cbn. by rewrite andb_false_r.
  - rewrite IH, wake_waiters_eq. cbn [threads with_threads]. rewrite <- map_fmap_compose.
    unfold with_threads. cbn. f_equal. apply map_fmap_ext. intros k t _. apply woken_cons.
Qed.

(** * Termination *)

(** Some thread of the process is not terminated. *)
Definition process_alive (s : HostState) (pid : Z) : Prop :=
  exists tid t, threads s !! tid = Some t /\ t_pid t = pid /\ status t <> Terminated.

(** The exit code a process gets when its last thread ends. *)
Definition exited (p : ProcessState) : ProcessState :=
  match exit_code p with None => with_process_exit p (Some 0) (exit_requested p) | Some _ => p end.

(** The handles that stand for the thread or for its process. *)
Definition death_handles (s : HostState) (tid pid : Z) : list Z :=
  handles_where s (is_process_object pid) ++ handles_where s (is_thread_object tid).

Lemma elem_of_handles_where s p h :
  h ∈ handles_where s p <-> exists o, objects (scheduler s) !! h = Some o /\ p o = true.
Proof.
  unfold handles_where. rewrite list_elem_of_fmap. split.
  - intros ((k & o) & -> & [Hp Hin%elem_of_ordered]%list_elem_of_filter). by exists o.
  - intros (o & E & Hp). exists (h, o). by rewrite list_elem_of_filter, elem_of_ordered.
Qed.

Lemma alive_spec s pid :
  existsb (fun e : Z * ThreadState => (t_pid e.2 =? pid) && negb (is_status Terminated e.2))
    (ordered (threads s)) = true <-> process_alive s pid.
Proof.
  rewrite existsb_exists. split.
  - intros ((k & t) & Hin%list_elem_of_In%elem_of_ordered & [Hp Hs]%andb_true_iff). exists k, t.
    split_and!; [done|cbn in *; lia|]. intros Ht%is_status_spec. cbn in Hs. by rewrite Ht in Hs.
  - intros (k & t & E & Hp & Hs). exists (k, t). split; [by apply list_elem_of_In, elem_of_ordered|].
    cbn. apply andb_true_iff. split; [lia|]. apply negb_true_iff, not_true_iff_false.
    by rewrite is_status_spec.
Qed.

Lemma update_process_alter s pid f :
  update_process s pid f = with_processes s (alter f pid (processes s)).
Proof.
  unfold update_process. destruct (processes s !! pid) as [p|] eqn:E.
  - f_equal. apply map_eq. intros k. destruct (decide (k = pid)) as [->|].
    + by rewrite lookup_insert_eq, lookup_alter_eq, E.
    + by rewrite lookup_insert_ne, lookup_alter_ne by done.
  - rewrite (map_eq (alter f pid (processes s)) (processes s)); [by destruct s|].
    intros k. destruct (decide (k = pid)) as [->|]; [by rewrite lookup_alter_eq, E|by rewrite lookup_alter_ne].
Qed.

Lemma on_thread_terminated_eq s tid t : threads s !! tid = Some t ->
  (process_alive s (t_pid t) /\ on_thread_terminated s tid = s) \/
  (~ process_alive s (t_pid t) /\
   on_thread_terminated s tid =
   with_threads (with_processes s (alter exited (t_pid t) (processes s)))
     (woken (death_handles s tid (t_pid t)) <$> threads s)).
Proof.
  intros E. unfold on_thread_terminated. rewrite E.
  destruct (existsb _ _) eqn:Ha; [left; by apply alive_spec in Ha|right].
  split; [rewrite <- alive_spec; congruence|]. rewrite update_process_alter, !wake_all_eq.
  unfold with_threads at 1 2, handles_where. cbn. rewrite <- map_fmap_compose. unfold with_threads. cbn.
  f_equal. apply map_fmap_ext. intros k u _. apply woken_app.
Qed.

Lemma on_thread_terminated_missing s tid : threads s !! tid = None -> on_thread_terminated s tid = s.
Proof. intros E. unfold on_thread_terminated. by rewrite E. Qed.

(** * The choice of the next thread *)

#[local] Instance before_total : Total before.
Proof. intros x y. unfold before. lia. Qed.
#[local] Instance before_trans : Transitive before.
Proof. intros x y z. unfold before. lia. Qed.

(** A thread, other than the current one, that can be switched to. *)
Definition ready_peer (s : HostState) (cur k : Z) (t : ThreadState) : Prop :=
  threads s !! k = Some t /\ k <> cur /\ status t = Ready.

Lemma elem_of_candidates s cur p k :
  (p, k) ∈ candidates s cur <-> exists t, ready_peer s cur k t /\ priority t = p.
Proof.
  unfold candidates, ready_peer. rewrite list_elem_of_fmap. split.
  - intros ((k' & t) & [= -> ->] & [[Hne Hs%is_status_spec] Hin%elem_of_ordered]%list_elem_of_filter).
    by exists t.
  - intros (t & (E & Hne & Hs) & <-). exists (k, t). split; [done|].
    rewrite list_elem_of_filter, elem_of_ordered, is_status_spec. done.
Qed.

(** Thread [n] with state [t] goes first: nobody ready has a higher priority,
    and nobody of the same priority a lower number. *)
Definition goes_first (s : HostState) (cur n : Z) (t : ThreadState) : Prop :=
  ready_peer s cur n t /\ forall k u, ready_peer s cur k u ->
    priority u <= priority t /\ (priority u = priority t -> n <= k).

Lemma pick_next_spec s cur :
  match pick_next s cur with
  | Some n => exists t, goes_first s cur n t
  | None => forall k u, ~ ready_peer s cur k u
  end.
Proof.
  unfold pick_next. pose proof (merge_sort_Permutation before (candidates s cur)) as Hp.
  pose proof (StronglySorted_merge_sort before (candidates s cur)) as Hs.
  destruct (merge_sort before (candidates s cur)) as [|[p n] l].
  - intros k u Hk. apply Permutation_nil_l in Hp. 
    assert ((priority u, k) ∈ candidates s cur) as Hin by (apply elem_of_candidates; by exists u).
    rewrite <- Hp in Hin. by apply elem_of_nil in Hin.
  - assert ((p, n) ∈ candidates s cur) as (t & Ht & <-)%elem_of_candidates by (rewrite <- Hp; left).
    exists t. split; [done|]. intros k u Hk. apply StronglySorted_inv in Hs as [_ Hall].
    assert ((priority u, k) ∈ candidates s cur) as Hin by (apply elem_of_candidates; by exists u).
    rewrite <- Hp in Hin. apply elem_of_cons in Hin as [E|Hin].
    + injection E as -> ->. lia.
    + pose proof (proj1 (list.Forall_forall _ _) Hall _ Hin) as Hb. unfold before in Hb. simpl in Hb. lia.
Qed.

(** * The invariant *)

(** Of a consistent scheduler state: the active thread exists, its registers
    are the live ones and it belongs to the active process; every other thread
    has its registers parked; only the active thread is running; a thread has a
    wait condition exactly when it is waiting; threads know their number and
    belong to processes. *)
Record threads_ok (s : HostState) : Prop := {
  ok_active : exists t, threads s !! active_tid s = Some t /\ parked_cpu t = None /\ t_pid t = active_pid s;
  ok_parked : forall k t, threads s !! k = Some t -> k <> active_tid s -> is_Some (parked_cpu t);
  ok_running : forall k t, threads s !! k = Some t -> status t = Running -> k = active_tid s;
  ok_wait : forall k t, threads s !! k = Some t -> is_Some (wait t) <-> status t = Waiting;
  ok_ids : forall k t, threads s !! k = Some t -> t_tid t = k /\ is_Some (processes s !! t_pid t);
}.

(** The registers of a thread, live or parked. *)
Definition context (cpu : Cpu) (s : HostState) (tid : Z) : option Cpu :=
  if decide (tid = active_tid s) then Some cpu else threads s !! tid ≫= parked_cpu.

(** A change of one thread's record that keeps its part of the invariant. *)
Definition keeps (s : HostState) (k : Z) (t t' : ThreadState) : Prop :=
  parked_cpu t' = parked_cpu t /\ t_pid t' = t_pid t /\ t_tid t' = t_tid t /\
  (status t' = Running -> status t = Running \/ k = active_tid s) /\
  ((is_Some (wait t) <-> status t = Waiting) -> (is_Some (wait t') <-> status t' = Waiting)).

(** Threads change by [g], processes may gain exit codes, the rest is free. *)
Lemma threads_ok_change s s' (g : Z -> ThreadState -> ThreadState) :
  threads_ok s -> active_tid s' = active_tid s -> active_pid s' = active_pid s ->
  (forall k, threads s' !! k = g k <$> threads s !! k) ->
  (forall pid, is_Some (processes s !! pid) -> is_Some (processes s' !! pid)) ->
  (forall k t, threads s !! k = Some t -> keeps s k t (g k t)) ->
  threads_ok s' /\ forall cpu tid, context cpu s' tid = context cpu s tid.
Proof.
  intros Hok Ea Ep Hg Hpr Hk.
  assert (forall k t', threads s' !! k = Some t' -> exists t, threads s !! k = Some t /\ t' = g k t) as Hinv.
  { intros k t' E. rewrite Hg in E. destruct (threads s !! k) as [t|]; [|done].
    injection E as <-. by exists t. }
  split.
  - split.
    + destruct (ok_active s Hok) as (t & E & Hp & Hpid). exists (g (active_tid s') t).
      rewrite Hg, Ea, E. destruct (Hk _ _ E) as (-> & -> & _). by rewrite Ep.
    + intros k t' (t & E & ->)%Hinv Hne. destruct (Hk _ _ E) as (-> & _). rewrite Ea in Hne.
      by apply (ok_parked s Hok k).
    + intros k t' (t & E & ->)%Hinv Hs. destruct (Hk _ _ E) as (_ & _ & _ & Hr & _). rewrite Ea.
      destruct (Hr Hs); [by apply (ok_running s Hok k t)|done].
    + intros k t' (t & E & ->)%Hinv. destruct (Hk _ _ E) as (_ & _ & _ & _ & Hw). by apply Hw, (ok_wait s Hok k).
    + intros k t' (t & E & ->)%Hinv. destruct (Hk _ _ E) as (_ & -> & -> & _).
      destruct (ok_ids s Hok k t E). auto.
  - intros cpu tid. unfold context. rewrite Ea. destruct (decide _); [done|]. rewrite Hg.
    destruct (threads s !! tid) as [t|] eqn:E; [|done]. cbn. by destruct (Hk _ _ E) as (-> & _).
Qed.

(** The switch of [schedule_next_thread] when [n] is picked. *)
Lemma schedule_switch {E} cpu s n t c : threads_ok s ->
  pick_next s (active_tid s) = Some n -> threads s !! n = Some t -> parked_cpu t = Some c ->
  exists a, threads s !! active_tid s = Some a /\
  schedule_next_thread (E:=E) cpu s =
  Ok (c, with_active
    (with_threads s (<[n := with_status (with_parked t None) Running]>
       (<[active_tid s := with_parked a (Some cpu)]> (threads s)))) n (t_pid t)).
Proof.
  intros Hok Hpick En Ec. pose proof (pick_next_spec s (active_tid s)) as Hspec. rewrite Hpick in Hspec.
  destruct Hspec as (t' & (En' & Hne & _) & _). rewrite En in En'. injection En' as <-.
  destruct (ok_active s Hok) as (a & Ea & _). exists a. split; [done|].
  unfold schedule_next_thread. rewrite Hpick. unfold update_thread at 1. rewrite Ea.
  cbn [threads with_threads]. rewrite lookup_insert_ne, En by done. rewrite Ec.
  unfold update_thread. cbn [threads with_threads]. rewrite Ea. cbn [threads with_threads].
  rewrite lookup_insert_ne, En by done. cbn [processes with_threads with_active].
  destruct (ok_ids s Hok n t En) as [_ Hp]. by rewrite bool_decide_eq_true_2.
Qed.

(** What [schedule_next_thread] decides. *)
Definition chosen (s : HostState) (n : Z) : Prop :=
  (exists t, goes_first s (active_tid s) n t) \/
  (n = active_tid s /\ forall k u, ~ ready_peer s (active_tid s) k u).

(** The status a thread has after the choice of [n]. *)
Definition scheduled_status (n k : Z) (st : ThreadStatus) : ThreadStatus :=
  if decide (k = n) then match st with Ready => Running | _ => st end else st.

Lemma with_status_same t st : status t = st -> with_status t st = t.
Proof. intros <-. by destruct t. Qed.

(** The active thread stays; it runs if it can. *)
Lemma schedule_stay {E} cpu s : threads_ok s ->
  (forall t, threads s !! active_tid s = Some t -> status t <> Running) ->
  pick_next s (active_tid s) = None ->
  schedule_next_thread (E:=E) cpu s =
  Ok (cpu, update_thread s (active_tid s)
             (fun t => with_status t (scheduled_status (active_tid s) (active_tid s) (status t)))).
Proof.
  intros Hok Hnr Hpick. destruct (ok_active s Hok) as (a & Ea & _). specialize (Hnr a Ea).
  unfold schedule_next_thread, cur_thread_mut, cur_thread, update_thread, scheduled_status, is_runnable, is_status.
  rewrite Hpick, Ea, decide_True by done. cbn [or_panic mbind res_bind].
  destruct (status a) eqn:Es; try done; cbn.
  all: rewrite (with_status_same a _ Es), (insert_id _ _ _ Ea), with_threads_same; reflexivity.
Qed.

Lemma schedule_ok {E} cpu s : threads_ok s ->
  (forall t, threads s !! active_tid s = Some t -> status t <> Running) ->
  exists cpu' s', schedule_next_thread (E:=E) cpu s = Ok (cpu', s') /\ threads_ok s' /\
    chosen s (active_tid s') /\
    (forall tid, context cpu' s' tid = context cpu s tid) /\
    (forall k, status <$> threads s' !! k = scheduled_status (active_tid s') k <$> (status <$> threads s !! k)) /\
    scheduler s' = scheduler s /\ processes s' = processes s /\ instruction_budget s' = instruction_budget s.
Proof.
  intros Hok Hnr. pose proof (pick_next_spec s (active_tid s)) as Hspec.
  destruct (ok_active s Hok) as (a & Ea & Hap & Hapid).
  destruct (pick_next s (active_tid s)) as [n|] eqn:Hpick.
  - destruct Hspec as (t & (En & Hne & Hst) & Hbest).
    destruct (ok_parked s Hok n t En Hne) as [c Ec].
    destruct (schedule_switch (E:=E) cpu s n t c Hok Hpick En Ec) as (a' & Ea' & ->).
    rewrite Ea in Ea'. injection Ea' as <-. eexists c, _. split; [done|].
    assert (forall k u, (<[n := with_status (with_parked t None) Running]>
              (<[active_tid s := with_parked a (Some cpu)]> (threads s))) !! k = Some u ->
            (k = n /\ u = with_status (with_parked t None) Running) \/
            (k <> n /\ k = active_tid s /\ u = with_parked a (Some cpu)) \/
            (k <> n /\ k <> active_tid s /\ threads s !! k = Some u)) as Hinv.
    { intros k u. rewrite !lookup_insert_Some. naive_solver. }
    split_and!; cbn [threads with_threads with_active active_tid processes scheduler instruction_budget]; try done.
    + split; cbn [threads with_threads with_active active_tid active_pid processes].
      * eexists. rewrite lookup_insert_eq. split_and!; done.
      * intros k u [[-> ->]|[(? & -> & ->)|(? & Hk & E')]]%Hinv Hkn; [done|by eexists|by apply (ok_parked s Hok k)].
      * intros k u [[-> ->]|[(? & -> & ->)|(? & Hk & E')]]%Hinv Hr; [done| |].
        -- by destruct (Hnr a Ea).
        -- by destruct Hk; apply (ok_running s Hok k u).
      * intros k u [[-> ->]|[(? & -> & ->)|(? & Hk & E')]]%Hinv; cbn; [|by apply (ok_wait s Hok _ _ Ea)|by apply (ok_wait s Hok k)].
        rewrite (ok_wait s Hok n t En), Hst. done.
      * intros k u [[-> ->]|[(? & -> & ->)|(? & Hk & E')]]%Hinv; cbn;
          [by apply (ok_ids s Hok n)|by apply (ok_ids s Hok _ a)|by apply (ok_ids s Hok k)].
    + left. exists t. done.
    + intros tid. unfold context. cbn. destruct (decide (tid = n)) as [->|Htn].
      { rewrite decide_False, En by done. by cbn. }
      rewrite lookup_insert_ne by done. destruct (decide (tid = active_tid s)) as [->|].
      * by rewrite lookup_insert_eq.
      * by rewrite lookup_insert_ne.
    + intros k. unfold scheduled_status. destruct (decide (k = n)) as [->|Hkn].
      { rewrite lookup_insert_eq, En. cbn. by rewrite Hst. }
      rewrite lookup_insert_ne by done. destruct (decide (k = active_tid s)) as [->|].
      * by rewrite lookup_insert_eq, Ea.
      * rewrite lookup_insert_ne by done. by destruct (threads s !! k).
  - rewrite (schedule_stay cpu s Hok Hnr Hpick). eexists cpu, _. split; [done|].
    set (st := scheduled_status (active_tid s) (active_tid s)). rewrite update_thread_alter.
    pose (f := fun t => with_status t (st (status t))). fold f.
    pose (g := fun k => if decide (k = active_tid s) then f else id).
    assert (forall k, threads (with_threads s (alter f (active_tid s) (threads s))) !! k = g k <$> threads s !! k) as Hg.
    { intros k. cbn. unfold g. destruct (decide (k = active_tid s)) as [->|].
      - by rewrite lookup_alter_eq.
      - by rewrite lookup_alter_ne, option_fmap_id. }
    destruct (threads_ok_change s (with_threads s (alter f (active_tid s) (threads s))) g
                Hok eq_refl eq_refl Hg (fun _ H => H)) as [Hok' Hc].
    { intros k t Et. unfold g. destruct (decide (k = active_tid s)) as [->|]; [|by unfold keeps, id; split_and!; auto].
      split; [done|]. split; [done|]. split; [done|]. split; [by right|].
      intros Hw. unfold f. cbn. unfold st, scheduled_status. rewrite decide_True, Hw by done.
      by destruct (status t). }
    split_and!; try done; [by right|]. intros k. rewrite Hg. cbn [active_tid with_threads].
    destruct (threads s !! k) as [t|]; [|done]. cbn. unfold g, f, st, scheduled_status.
    by destruct (decide (k = active_tid s)) as [->|]; [rewrite decide_True|].
Qed.
End sched.
