(* ===== verification/ThreadsRun.v ===== *)
(** The run loop ends: every iteration either uses up budget or ends a thread
    (Threads.v). *)

From S2P Require Import Prelude Regs Mmu Sched Threads ThreadsInv.

Section live.
Context `{CpuRest}.

(** The threads that have not terminated. *)
Definition live_set (s : HostState) : gset Z :=
  dom (base.filter (fun p : Z * ThreadState => status p.2 <> Terminated) (threads s)).

Lemma elem_of_live s k :
  k ∈ live_set s <-> exists t, threads s !! k = Some t /\ status t <> Terminated.
Proof.
  unfold live_set. rewrite elem_of_dom. unfold is_Some. setoid_rewrite map_lookup_filter_Some. done.
Qed.

(** A change of threads that terminates and revives none. *)
Lemma live_same s s' (g : Z -> ThreadState -> ThreadState) :
  (forall k, threads s' !! k = g k <$> threads s !! k) ->
  (forall k t, threads s !! k = Some t -> status (g k t) = Terminated <-> status t = Terminated) ->
  live_set s' = live_set s.
Proof.
  intros Hg Hs. apply set_eq. intros k. rewrite !elem_of_live, Hg. split.
  - intros (t' & E & Ht). destruct (threads s !! k) as [t|] eqn:Ek; [|done]. injection E as <-.
    exists t. split; [done|]. by rewrite <- (Hs k t Ek).
  - intros (t & E & Ht). rewrite E. exists (g k t). split; [done|]. by rewrite (Hs k t E).
Qed.

Lemma live_update s k f :
  (forall t, threads s !! k = Some t -> status (f t) = Terminated <-> status t = Terminated) ->
  live_set (update_thread s k f) = live_set s.
Proof.
  intros Hf. rewrite update_thread_alter.
  apply (live_same s _ (fun j => if decide (j = k) then f else id)).
  - intros j. cbn. destruct (decide (j = k)) as [->|]; [by rewrite lookup_alter_eq|].
    by rewrite lookup_alter_ne, option_fmap_id.
  - intros j t E. destruct (decide (j = k)) as [->|]; [by apply Hf|done].
Qed.

(** What a scheduling step leaves alone. *)
Definition frame (s s' : HostState) : Prop :=
  instruction_budget s' = instruction_budget s /\ yield_requested s' = yield_requested s /\
  live_set s' = live_set s.

Lemma frame_refl s : frame s s.
Proof. done. Qed.
Lemma frame_trans s1 s2 s3 : frame s1 s2 -> frame s2 s3 -> frame s1 s3.
Proof. unfold frame. intros (-> & -> & ->) (-> & -> & ->). done. Qed.

Lemma frame_update s k f :
  (forall t, threads s !! k = Some t -> status (f t) = Terminated <-> status t = Terminated) ->
  frame s (update_thread s k f).
Proof.
  intros Hf. split_and!; [..|by apply live_update]; unfold update_thread; by destruct (threads s !! k).
Qed.

Lemma cur_thread_mut_frame {E} s f s' : cur_thread_mut (E:=E) s f = Ok s' ->
  (forall t, threads s !! active_tid s = Some t -> status (f t) = Terminated <-> status t = Terminated) ->
  frame s s'.
Proof.
  unfold cur_thread_mut, cur_thread. destruct (threads s !! active_tid s) as [t|] eqn:Et; [|done].
  intros [= <-] Hf. pose proof (frame_update s (active_tid s) f) as Hu. unfold update_thread in Hu.
  rewrite Et in Hu. by apply Hu; intros ? [= <-]; apply Hf.
Qed.

Lemma schedule_frame {E} cpu s cpu' s' :
  schedule_next_thread (E:=E) cpu s = Ok (cpu', s') -> frame s s'.
Proof.
  unfold schedule_next_thread. pose proof (pick_next_spec s (active_tid s)) as Hp.
  destruct (pick_next s (active_tid s)) as [n|].
  - destruct Hp as (t & (En & Hne & Hst) & _). set (park := fun t => with_parked t (Some cpu)).
    pose proof (frame_update s (active_tid s) park (fun t _ => iff_refl _)) as Hf1.
    set (s1 := update_thread s (active_tid s) park) in *.
    assert (threads s1 !! n = Some t) as En1.
    { unfold s1. rewrite update_thread_alter. cbn. by rewrite lookup_alter_ne. }
    rewrite En1. set (unpark := fun t => with_status (with_parked t None) Running).
    assert (frame s1 (update_thread s1 n unpark)) as Hf2.
    { apply frame_update. intros u Eu. rewrite En1 in Eu. injection Eu as <-. cbn. by rewrite Hst. }
    intros [= _ <-]. eapply frame_trans; [exact Hf1|]. eapply frame_trans; [exact Hf2|].
    by destruct (bool_decide _).
  - destruct (threads s !! active_tid s) as [t|] eqn:Et; cbn [andb]; [|by intros [= _ <-]].
    destruct (is_runnable t) eqn:Hr; [|by intros [= _ <-]].
    intros H1. apply res_bind_ok in H1 as (s1 & H1 & [= _ <-]).
    apply (cur_thread_mut_frame _ _ _ H1). intros u Eu. rewrite Et in Eu. injection Eu as <-. cbn.
    unfold is_runnable, is_status in Hr. by destruct (status t).
Qed.

Lemma wake_sleep_frame s : frame s (wake_sleep_if_due s).
Proof.
  split_and!; [done|done|].
  apply (live_same s _ (fun _ t => match sleep_target t with
               | Some n => if n <=? instructions_global (scheduler s) then make_ready t else t
               | None => t
               end)).
  - intros k. unfold wake_sleep_if_due. cbn. by rewrite lookup_fmap.
  - intros _ t _. unfold sleep_target. destruct (is_status Waiting t) eqn:Hw; [|done].
    apply is_status_spec in Hw. destruct (wait t) as [[]|]; try done. case_match; [cbn; by rewrite Hw|done].
Qed.

Lemma on_thread_terminated_frame s tid : frame s (on_thread_terminated s tid).
Proof.
  destruct (threads s !! tid) as [t|] eqn:Et; [|by rewrite on_thread_terminated_missing].
  destruct (on_thread_terminated_eq s tid t Et) as [[_ ->]|[_ ->]]; [done|].
  split_and!; [done|done|]. apply (live_same s _ (fun _ => woken (death_handles s tid (t_pid t)))).
  - intros k. cbn. by rewrite lookup_fmap.
  - intros _ u _. unfold woken, waits_any. destruct (is_status Waiting u) eqn:Hw; [|done].
    apply is_status_spec in Hw. case_match; [cbn; by rewrite Hw|done].
Qed.

(** Ending the active thread takes it out. *)
Lemma terminate_live {E} s f s' : cur_thread_mut (E:=E) s f = Ok s' ->
  (forall t, status (f t) = Terminated) ->
  instruction_budget s' = instruction_budget s /\ yield_requested s' = yield_requested s /\
  live_set s' = live_set s ∖ {[active_tid s]}.
Proof.
  unfold cur_thread_mut, cur_thread. destruct (threads s !! active_tid s) as [t|] eqn:Et; [|done].
  intros [= <-] Hf. split_and!; [done|done|]. apply set_eq. intros k.
  rewrite elem_of_difference, not_elem_of_singleton, !elem_of_live. cbn.
  destruct (decide (k = active_tid s)) as [->|Hk].
  - rewrite lookup_insert_eq. split; [|naive_solver]. intros (u & [= <-] & Hu). by rewrite Hf in Hu.
  - rewrite lookup_insert_ne by done. naive_solver.
Qed.
End live.

Section run.
Context `{MA : Machine}.

(** Stubs and interrupts count against the budget they run under: a nested
    run lowers it, nothing raises it. *)
Definition budget_kept (s s' : HostState) : Prop :=
  forall b, instruction_budget s = Some b -> 0 <= b ->
    exists b', instruction_budget s' = Some b' /\ 0 <= b' <= b.

Class BudgetSafe : Prop := {
  dispatch_budget c m r s c' m' r' s' : dispatch_stub c m r s = (c', m', r', s', Ok tt) -> budget_kept s s';
  interrupt_budget n c m s c' m' s' : service_interrupt n c m s = (c', m', s', true) -> budget_kept s s';
}.

Lemma budget_kept_eq s s' : instruction_budget s' = instruction_budget s -> budget_kept s s'.
Proof. intros E b Hb Hb0. exists b. rewrite E. split; [done|lia]. Qed.

(** The number of live threads, and one more while a yield is pending. *)
Definition weight (s : HostState) : nat :=
  (size (live_set s) + match yield_requested s with Some _ => 1 | None => 0 end)%nat.

Lemma handle_yield_live {E} c s req c' s' : handle_yield (E:=E) c s req = Ok (c', s') ->
  instruction_budget s' = instruction_budget s /\ yield_requested s' = yield_requested s /\
  live_set s' ⊆ live_set s ∪ {[active_tid s]}.
Proof.
  unfold handle_yield. intros H1. apply res_bind_ok in H1 as (s1 & H1 & H2).
  apply schedule_frame in H2 as (-> & -> & ->).
  assert (forall f s2, cur_thread_mut (E:=E) s f = Ok s2 -> instruction_budget s2 = instruction_budget s /\
    yield_requested s2 = yield_requested s /\ live_set s2 ⊆ live_set s ∪ {[active_tid s]}) as Hmut.
  { intros f s2. unfold cur_thread_mut, cur_thread. destruct (threads s !! active_tid s) as [t|]; [|done].
    intros [= <-]. split_and!; [done|done|]. intros k. rewrite elem_of_union, elem_of_singleton, !elem_of_live.
    cbn. destruct (decide (k = active_tid s)) as [->|Hk]; [by right|].
    rewrite lookup_insert_ne by done. naive_solver. }
  destruct req; [by apply (Hmut _ _ H1)|by apply (Hmut _ _ H1)|].
  apply res_bind_ok in H1 as (s2 & H2 & [= <-]).
  destruct (on_thread_terminated_frame s2 (active_tid s)) as (-> & -> & ->). by apply (Hmut _ _ H2).
Qed.

Lemma honour_yield_weight w w' : honour_yield w = Ok w' ->
  instruction_budget (w_host w') = instruction_budget (w_host w) /\
  yield_requested (w_host w') = None /\ (size (live_set (w_host w')) <= weight (w_host w))%nat.
Proof.
  unfold honour_yield, weight. destruct (yield_requested (w_host w)) as [req|] eqn:Ey.
  - intros H1. apply res_bind_ok in H1 as ([c s] & H1 & [= <-]). cbn.
    apply handle_yield_live in H1 as (-> & -> & Hl). split_and!; [done|done|].
    apply subseteq_size in Hl. pose proof (size_union_alt (live_set (with_yield (w_host w) None))
      {[active_tid (with_yield (w_host w) None)]}) as Hu. rewrite Hu in Hl.
    assert (size ({[active_tid (with_yield (w_host w) None)]} ∖ live_set (with_yield (w_host w) None)) <= 1)%nat.
    { etrans; [apply subseteq_size, subseteq_difference_l; done|]. by rewrite size_singleton. }
    change (live_set (with_yield (w_host w) None)) with (live_set (w_host w)) in *. lia.
  - intros [= <-]. rewrite Ey. split_and!; [done|done|lia].
Qed.

Lemma nudge_runnable w w' : nudge w = Ok w' -> frame (w_host w) (w_host w') /\
  active_tid (w_host w') ∈ live_set (w_host w').
Proof.
  assert (forall s t, threads s !! active_tid s = Some t -> is_runnable t = true ->
    active_tid s ∈ live_set s) as Hlive.
  { intros s t E Hr. apply elem_of_live. exists t. split; [done|]. intros Ht.
    unfold is_runnable, is_status in Hr. by rewrite Ht in Hr. }
  unfold nudge. intros H1. apply res_bind_ok in H1 as (t & Ht & H1).
  assert (threads (w_host w) !! active_tid (w_host w) = Some t) as Et.
  { unfold cur_thread in Ht. destruct (_ !! _); [by injection Ht as ->|done]. }
  destruct (is_runnable t) eqn:Hr; [injection H1 as <-; split; [done|by apply (Hlive _ t)]|].
  apply res_bind_ok in H1 as (w1 & H1 & H2).
  assert (frame (w_host w) (w_host w1)) as Hf.
  { destruct (earliest_sleep_resume _) as [e|]; [|by injection H1 as <-].
    apply res_bind_ok in H1 as ([c s] & H1 & [= <-]). apply schedule_frame in H1.
    eapply frame_trans; [|exact H1]. eapply frame_trans; [|apply wake_sleep_frame]. done. }
  apply res_bind_ok in H2 as (u & Hu & H2).
  assert (threads (w_host w1) !! active_tid (w_host w1) = Some u) as Eu.
  { unfold cur_thread in Hu. destruct (_ !! _); [by injection Hu as ->|done]. }
  destruct (is_runnable u) eqn:Hru; cbn [negb] in H2; [|done].
  apply res_bind_ok in H2 as (s & Hs & [= <-]). cbn [w_host with_host].
  assert (frame (w_host w1) s) as Hf'.
  { apply (cur_thread_mut_frame _ _ _ Hs). intros v Ev. rewrite Eu in Ev. injection Ev as <-. cbn.
    unfold is_runnable, is_status in Hru. by destruct (status u). }
  split; [by eapply frame_trans|]. unfold cur_thread_mut, cur_thread in Hs. rewrite Eu in Hs.
  injection Hs as <-. apply elem_of_live. cbn. rewrite lookup_insert_eq. by eexists.
Qed.

Lemma finish_thread_live w w' : finish_thread w = Ok w' ->
  instruction_budget (w_host w') = instruction_budget (w_host w) /\
  yield_requested (w_host w') = yield_requested (w_host w) /\
  live_set (w_host w') = live_set (w_host w) ∖ {[active_tid (w_host w)]}.
Proof.
  unfold finish_thread. intros H1. apply res_bind_ok in H1 as (s1 & H1 & H2).
  apply res_bind_ok in H2 as ([c s] & H2 & [= <-]). cbn.
  apply terminate_live in H1 as (H3 & H4 & H5); [|done].
  apply schedule_frame in H2 as (-> & -> & ->).
  destruct (on_thread_terminated_frame s1 (active_tid (w_host w))) as (-> & -> & ->). done.
Qed.

Lemma at_sentinel_live w w' : at_sentinel w = Ok w' ->
  instruction_budget (w_host w') = instruction_budget (w_host w) /\
  yield_requested (w_host w') = yield_requested (w_host w) /\
  live_set (w_host w') = live_set (w_host w) ∖ {[active_tid (w_host w)]}.
Proof.
  unfold at_sentinel. case_match; [done|]. intros H1. apply res_bind_ok in H1 as (w1 & H1 & H2).
  assert (w' = w1) as ->.
  { case_match; [|by injection H2]. apply res_bind_ok in H2 as (t & _ & H2).
    case_match; [done|by injection H2]. }
  by apply finish_thread_live.
Qed.

Lemma charge_budget w w' b : charge w = Ok w' -> instruction_budget (w_host w) = Some b -> 0 <= b ->
  instruction_budget (w_host w') = Some (b - 1) /\ 0 <= b - 1.
Proof.
  unfold charge. intros H1 Hb Hb0. rewrite Hb in H1. apply res_bind_ok in H1 as (b' & H1 & [= <-]).
  destruct (Z.eqb_spec b 0); [done|]. injection H1 as <-. cbn. split; [done|lia].
Qed.

Lemma preempt_budget w w' : preempt w = Ok w' ->
  instruction_budget (w_host w') = instruction_budget (w_host w).
Proof.
  unfold preempt. intros H1. apply res_bind_ok in H1 as (t & _ & H1).
  apply res_bind_ok in H1 as (s & H1 & [= <-]). cbn.
  assert (instruction_budget s = instruction_budget (w_host w)) as Es.
  2:{ rewrite <- Es. by destruct (_ && _). }
  unfold cur_thread_mut, cur_thread in H1. destruct (_ !! _); [by injection H1 as <-|done].
Qed.

Lemma execute_budget `{BS : BudgetSafe} w w' : execute w = Ok w' -> budget_kept (w_host w) (w_host w').
Proof.
  unfold execute. destruct (is_thunk _ _).
  - destruct (dispatch_stub _ _ _ _) as [[[[c m] r] s] o] eqn:Ed. destruct o as [[]| |]; [|done|done].
    intros [= <-]. by apply (dispatch_budget _ _ _ _ _ _ _ _ Ed).
  - destruct (step _ _) as [[c m] [[]|t|]] eqn:Es; [by intros [= <-]; apply budget_kept_eq| | |done].
    + case_match; [done|]. intros H1. apply finish_thread_live in H1 as (H1 & _). by apply budget_kept_eq.
    + destruct t; try done. destruct (service_interrupt _ _ _ _) as [[[c' m'] s] []] eqn:Ei; [|done].
      intros [= <-]. by apply (interrupt_budget _ _ _ _ _ _ _ Ei).
Qed.
End run.

Section termination.
Context `{MA : Machine, BS : !BudgetSafe}.

(** An iteration that continues lowers the budget, or keeps it and the number of
    live threads and pending yields falls. *)
Lemma iterate_progress w w' b : iterate w = Ok w' -> instruction_budget (w_host w) = Some b -> 0 <= b ->
  exists b', instruction_budget (w_host w') = Some b' /\ 0 <= b' /\
    (b' < b \/ (b' = b /\ (weight (w_host w') < weight (w_host w))%nat)).
Proof.
  unfold iterate. intros H1 Hb Hb0. apply res_bind_ok in H1 as (w1 & H1 & H2).
  destruct (honour_yield_weight w w1 H1) as (E1 & Ey & Hw). rewrite Hb in E1.
  apply res_bind_ok in H2 as (w2 & H2 & H3). destruct (nudge_runnable w1 w2 H2) as [(E2 & Ey2 & El2) Hact].
  rewrite E1 in E2. rewrite Ey in Ey2. apply res_bind_ok in H3 as (ex & _ & H3); destruct ex; [discriminate H3|].
  destruct (_ =? _).
  - destruct (at_sentinel_live w2 w' H3) as (E3 & Ey3 & El3). exists b. rewrite E3, E2.
    split; [done|]. split; [done|]. right. split; [done|]. unfold weight at 1. rewrite Ey3, Ey2, El3.
    assert (size (live_set (w_host w2) ∖ {[active_tid (w_host w2)]}) < size (live_set (w_host w2)))%nat.
    { apply subset_size. set_solver. }
    rewrite El2 in *. lia.
  - apply res_bind_ok in H3 as (w3 & H3 & H4). destruct (charge_budget w2 w3 b H3 E2 Hb0) as [E3 ?].
    apply res_bind_ok in H4 as (w4 & H4 & H5). apply preempt_budget in H4. rewrite E3 in H4.
    destruct (execute_budget w4 w' H5 (b - 1) H4) as (b' & Hb' & ?); [done|]. exists b'.
    split; [done|]. split; [lia|]. left. lia.
Qed.

(** C20: a run with an instruction budget ends. Whatever the instructions and the
    stubs do, as long as nothing raises the budget, the loop reaches a result
    after finitely many iterations: each iteration that goes on has used up
    budget or has ended a thread for good. *)
Theorem budgeted_run_ends (w : World) (b : Z) :
  instruction_budget (w_host w) = Some b -> 0 <= b ->
  exists fuel out, run_until_sentinel fuel w = Some out /\ forall w', out <> Ok w'.
Proof.
  intros Hb Hb0. unfold run_until_sentinel. set (w0 := with_host _ _ _).
  assert (instruction_budget (w_host w0) = Some b) as H1 by done. clearbody w0. clear Hb w.
  revert w0 H1. assert (exists n, b <= Z.of_nat n) as [n Hn] by (exists (Z.to_nat b); lia).
  revert b Hb0 Hn. induction n as [n IHn] using lt_wf_ind. intros b Hb0 Hn w.
  assert (exists k, weight (w_host w) <= k)%nat as [k Hk] by by eexists.
  revert w Hk. induction k as [k IHk] using lt_wf_ind. intros w Hk Hb.
  destruct (iterate w) as [w'|e|] eqn:Ei.
  - destruct (iterate_progress w w' b Ei Hb Hb0) as (b' & Hb' & Hb0' & Hdec).
    assert (exists fuel out, run_loop fuel w' = Some out /\ forall w', out <> Ok w') as (fuel & out & Hrun & Hout).
    { destruct Hdec as [Hlt|[-> Hlt]].
      - apply (IHn (Z.to_nat b') ltac:(lia) b' Hb0' ltac:(lia) w' Hb').
      - apply (IHk (weight (w_host w')) ltac:(lia) w' ltac:(lia) Hb'). }
    exists (S fuel), out. cbn [run_loop]. by rewrite Ei.
  - exists 1%nat, (Err e). cbn [run_loop]. rewrite Ei. done.
  - exists 1%nat, Panic. cbn [run_loop]. rewrite Ei. done.
Qed.
End termination.

(** A machine without stubs whose instructions go nowhere. *)
Definition spin_rest : CpuRest := {| Rest := unit; rest_new := tt |}.

Definition spin : @Machine spin_rest :=
  {| PeError := unit; Registry := unit; is_thunk := fun _ _ => false;
     dispatch_stub := fun c m r s => (c, m, r, s, Ok tt);
     step := fun c m => (c, m, Ok Continued);
     service_interrupt := fun _ c m s => (c, m, s, false) |}.

Lemma spin_safe : @BudgetSafe spin_rest spin.
Proof.
  split.
  - intros * [= <- <- <- <-]. by apply budget_kept_eq.
  - intros * [=].
Qed.

Definition spin_world (b : Z) : @World spin_rest spin :=
  @Build_World spin_rest spin (@cpu_new spin_rest) Mmu.new tt
    (@with_counters spin_rest (@host_default spin_rest) (Some b) 0).

Lemma budgeted_run_ends_witness :
  exists fuel out, @run_until_sentinel spin_rest spin fuel (spin_world 2) = Some out /\ forall w', out <> Ok w'.
Proof.
  exact (@budgeted_run_ends spin_rest spin spin_safe (spin_world 2) 2 eq_refl ltac:(lia)).
Defined.
