(* ===== verification/WaitApi.v ===== *)
(** The Win32 synchronization calls (src/src/emulator/win32/kernel32.rs): events,
    mutexes, semaphores, critical sections, waits, sleep, and the calls that
    create, resume and end threads, as functions of the processor, the memory
    and the host state. *)

From S2P Require Import Prelude Text Regs Sched Threads Mmu.

(** * Names *)

(** [String::from_utf8_lossy]: the length of the character, or of the invalid
    piece, at the front, and whether it is valid. A byte past the end counts
    as 0, which continues nothing. *)
Definition utf8_chunk (s : list byte) : bool * nat :=
  let at_ i := u8 (nth i s (byte_of 0)) in
  let c := at_ 0%nat in
  if c <? 128 then (true, 1%nat)
  else if (194 <=? c) && (c <=? 223) then
    if is_cont (at_ 1%nat) then (true, 2%nat) else (false, 1%nat)
  else if (224 <=? c) && (c <=? 239) then
    let d := at_ 1%nat in
    if is_cont d && (negb (c =? 224) || (160 <=? d)) && (negb (c =? 237) || (d <=? 159)) then
      if is_cont (at_ 2%nat) then (true, 3%nat) else (false, 2%nat)
    else (false, 1%nat)
  else if (240 <=? c) && (c <=? 244) then
    let d := at_ 1%nat in
    if is_cont d && (negb (c =? 240) || (144 <=? d)) && (negb (c =? 244) || (d <=? 143)) then
      if is_cont (at_ 2%nat) then
        if is_cont (at_ 3%nat) then (true, 4%nat) else (false, 3%nat)
      else (false, 2%nat)
    else (false, 1%nat)
  else (false, 1%nat).

(** U+FFFD *)
Definition REPLACEMENT : list byte := byte_of <$> [0xEF; 0xBF; 0xBD].

Fixpoint utf8_lossy_n (n : nat) (s : list byte) : list byte :=
  match n, s with
  | S n', _ :: _ =>
      let '(ok, k) := utf8_chunk s in
      (if ok then take k s else REPLACEMENT) ++ utf8_lossy_n n' (drop k s)
  | _, _ => []
  end.
Definition from_utf8_lossy (s : list byte) : list byte := utf8_lossy_n (length s) s.

(** The loop of [read_cstr]. *)
Fixpoint cstr_loop (max : nat) (m : Mmu) (a : Z) : res Trap (list byte) :=
  match max with
  | O => Ok []
  | S max' =>
      b ← load8 m a;
      if b =? 0 then Ok []
      else
        rest ← cstr_loop max' m (wrap32 (a + 1));
        Ok (byte_of b :: rest)
  end.

Definition trap_to_win32 (stub : list byte) (t : Trap) : Win32Error :=
  InvalidArgument stub (ReasonTrap t).

Definition read_cstr (m : Mmu) (a max : Z) : res Win32Error (list byte) :=
  bytes ← map_err (trap_to_win32 (str "read_cstr")) (cstr_loop (Z.to_nat max) m a);
  Ok (from_utf8_lossy bytes).

(** [Result::ok]; a panic goes on. *)
Definition res_ok {E E' A} (r : res E A) : res E' (option A) :=
  match r with Ok a => Ok (Some a) | Err _ => Ok None | Panic => Panic end.

Section api.
Context `{CpuRest}.

(** * The state of a call *)

Record Host : Type := { h_mmu : Mmu; h_state : HostState }.

(** A call reads the processor and changes memory and host state; the changes
    made before an error stay. *)
Definition Stub (A : Type) : Type := Host -> Host * res Win32Error A.

#[export] Instance stub_ret : MRet Stub := fun A a h => (h, Ok a).
#[export] Instance stub_bind : MBind Stub := fun A B f c h =>
  match c h with
  | (h', Ok a) => f a h'
  | (h', Err e) => (h', Err e)
  | (h', Panic) => (h', Panic)
  end.

Definition get_state : Stub HostState := fun h => (h, Ok (h_state h)).
Definition set_state (f : HostState -> HostState) : Stub unit :=
  fun h => ({| h_mmu := h_mmu h; h_state := f (h_state h) |}, Ok tt).
Definition set_scheduler (f : Scheduler -> Scheduler) : Stub unit :=
  set_state (fun s => with_scheduler s (f (scheduler s))).

(** Lifting a fallible read, and a store. *)
Definition lift {A} (f : Mmu -> HostState -> res Win32Error A) : Stub A :=
  fun h => (h, f (h_mmu h) (h_state h)).
Definition store (stub : list byte) (c : St unit) : Stub unit :=
  fun h => let '(m, r) := c (h_mmu h) in
           ({| h_mmu := m; h_state := h_state h |}, map_err (trap_to_win32 stub) r).

Definition arg_dword (cpu : Cpu) (m : Mmu) (n : Z) : res Trap Z :=
  load32 m (wrap32 (esp (regs cpu) + 4 * (n + 1))).

Definition arg (stub : list byte) (cpu : Cpu) (n : Z) : Stub Z :=
  lift (fun m _ => map_err (trap_to_win32 stub) (arg_dword cpu m n)).

(** [u64::from(ms).saturating_mul(INSTRUCTIONS_PER_MS)] added to the clock. *)
Definition after_ms (s : HostState) (ms : Z) : Z :=
  Z.min (instructions_global (scheduler s) + Z.min (ms * INSTRUCTIONS_PER_MS) (2 ^ 64 - 1)) (2 ^ 64 - 1).

Definition timeout_of (s : HostState) (ms : Z) : option Z :=
  if ms =? 0xFFFFFFFF then None else Some (after_ms s ms).

Definition request (y : YieldRequest) : Stub unit := set_state (fun s => with_yield s (Some y)).

(** * Waking *)

Definition wake_thread (s : HostState) (tid handle : Z) : HostState :=
  let s := with_scheduler s
    (update_object (scheduler s) handle (fun o => consume_signal_if_auto_reset o tid)) in
  update_thread s tid make_ready.

(** * Events *)

Definition with_last_error (s : HostState) (e : Z) : HostState :=
  {| processes := processes s; active_pid := active_pid s; threads := threads s;
     active_tid := active_tid s; next_tid := next_tid s; last_error := e; tick := tick s;
     instruction_budget := instruction_budget s; instructions_executed := instructions_executed s;
     scheduler := scheduler s; yield_requested := yield_requested s |}.

(** Creating an object, named or not: an existing name gives its handle. *)
Definition create_named (name : option (list byte)) (o : HostState -> WaitObject) : Stub Z :=
  s ← get_state;
  match (match name with Some n => lookup_named (scheduler s) n | None => None end) with
  | Some h => set_state (fun s => with_last_error s 183) ;; mret h
  | None =>
      let '(h, sc) := insert_object (scheduler s) (o s) in
      let sc := match name with Some n => register_named sc n h | None => sc end in
      set_state (fun s => with_scheduler s sc) ;; mret h
  end.

Definition name_at (p_name : Z) : Stub (option (list byte)) :=
  if negb (p_name =? 0) then lift (fun m _ => res_ok (read_cstr m p_name 260)) else mret None.

Definition stub_create_event_a (cpu : Cpu) : Stub Z :=
  let nm := str "CreateEventA" in
  _ ← arg nm cpu 0;
  manual ← arg nm cpu 1;
  init ← arg nm cpu 2;
  p_name ← arg nm cpu 3;
  name ← name_at p_name;
  create_named name (fun _ => Event (negb (init =? 0)) (negb (manual =? 0))).

Definition stub_set_event (cpu : Cpu) : Stub Z :=
  h ← arg (str "SetEvent") cpu 0;
  s ← get_state;
  match objects (scheduler s) !! h with
  | Some (Event _ manual) =>
      set_scheduler (fun sc => with_objects sc (<[h := Event true manual]> (objects sc))) ;;
      s ← get_state;
      let waiters := waiters_on (threads s) h in
      (if (manual : bool) then set_state (fun s => fold_left (fun s tid => wake_thread s tid h) waiters s)
       else match waiters with
            | tid :: _ => set_state (fun s => wake_thread s tid h)
            | [] => mret tt
            end) ;;
      mret 1
  | _ => mret 0
  end.

Definition stub_reset_event (cpu : Cpu) : Stub Z :=
  h ← arg (str "ResetEvent") cpu 0;
  s ← get_state;
  match objects (scheduler s) !! h with
  | Some (Event _ manual) =>
      set_scheduler (fun sc => with_objects sc (<[h := Event false manual]> (objects sc)))
  | _ => mret tt
  end ;;
  mret 1.

(** * Mutexes and semaphores *)

Definition create_mutex (name : option (list byte)) (init_owner : bool) : Stub Z :=
  create_named name (fun s => Mutex (if init_owner then Some (active_tid s) else None)
                                    (if init_owner then 1 else 0)).

Definition stub_create_mutex_a (cpu : Cpu) : Stub Z :=
  let nm := str "CreateMutexA" in
  _ ← arg nm cpu 0;
  init_owner ← arg nm cpu 1;
  p_name ← arg nm cpu 2;
  name ← name_at p_name;
  create_mutex name (negb (init_owner =? 0)).

Definition stub_release_mutex (cpu : Cpu) : Stub Z :=
  h ← arg (str "ReleaseMutex") cpu 0;
  s ← get_state;
  let cur_tid := active_tid s in
  match objects (scheduler s) !! h with
  | Some (Mutex owner recursion) =>
      if negb (bool_decide (owner = Some cur_tid)) then mret 0
      else
        let recursion := saturating_sub recursion 1 in
        let owner := if recursion =? 0 then None else owner in
        set_scheduler (fun sc => with_objects sc (<[h := Mutex owner recursion]> (objects sc))) ;;
        (if recursion =? 0 then
           s ← get_state;
           match waiters_on (threads s) h with
           | tid :: _ => set_state (fun s => wake_thread s tid h)
           | [] => mret tt
           end
         else mret tt) ;;
        mret 1
  | _ => mret 0
  end.

Definition stub_create_semaphore_a (cpu : Cpu) : Stub Z :=
  let nm := str "CreateSemaphoreA" in
  _ ← arg nm cpu 0;
  init ← arg nm cpu 1;
  max ← arg nm cpu 2;
  _ ← arg nm cpu 3;
  create_named None (fun _ => Semaphore init max).

(** [u32::saturating_add] *)
Definition saturating_add32 (a b : Z) : Z := Z.min (a + b) (2 ^ 32 - 1).

Definition stub_release_semaphore (cpu : Cpu) : Stub Z :=
  let nm := str "ReleaseSemaphore" in
  h ← arg nm cpu 0;
  release ← arg nm cpu 1;
  lp_prev ← arg nm cpu 2;
  s ← get_state;
  match objects (scheduler s) !! h with
  | Some (Semaphore prev max) =>
      let count := Z.min (saturating_add32 prev release) max in
      set_scheduler (fun sc => with_objects sc (<[h := Semaphore count max]> (objects sc))) ;;
      (if negb (lp_prev =? 0) then store nm (store32 lp_prev prev) else mret tt) ;;
      s ← get_state;
      let waiters := waiters_on (threads s) h in
      set_state (fun s => fold_left (fun s tid => wake_thread s tid h) (take (Z.to_nat release) waiters) s) ;;
      mret 1
  | _ => mret 0
  end.

(** * Critical sections *)

(** [critical_section_handle] on the host's scheduler. *)
Definition section_handle (p : Z) : Stub Z :=
  s ← get_state;
  let '(h, sc) := critical_section_handle (scheduler s) p in
  set_state (fun s => with_scheduler s sc) ;; mret h.

(** [*recursion += 1] overflows, and panics in a debug build, at [u32::MAX]. *)
Definition inc32 (n : Z) : Stub Z :=
  fun h => (h, if n + 1 <? 2 ^ 32 then Ok (n + 1) else Panic).

Definition put_object (h : Z) (o : WaitObject) : Stub unit :=
  set_scheduler (fun sc => with_objects sc (<[h := o]> (objects sc))).

Definition stub_enter_critical_section (cpu : Cpu) : Stub Z :=
  p ← arg (str "EnterCriticalSection") cpu 0;
  if p =? 0 then mret 0
  else
    s ← get_state;
    let cur_tid := active_tid s in
    h ← section_handle p;
    s ← get_state;
    match objects (scheduler s) !! h with
    | Some (CriticalSection a None _) => put_object h (CriticalSection a (Some cur_tid) 1) ;; mret 0
    | Some (CriticalSection a (Some o) recursion) =>
        if o =? cur_tid then
          recursion ← inc32 recursion;
          put_object h (CriticalSection a (Some o) recursion) ;; mret 0
        else request (Wait (Object h None)) ;; mret 0
    | _ => request (Wait (Object h None)) ;; mret 0
    end.

Definition stub_leave_critical_section (cpu : Cpu) : Stub Z :=
  p ← arg (str "LeaveCriticalSection") cpu 0;
  if p =? 0 then mret 0
  else
    s ← get_state;
    match critical_sections (scheduler s) !! p with
    | None => mret 0
    | Some h =>
        let cur_tid := active_tid s in
        match objects (scheduler s) !! h with
        | Some (CriticalSection a owner recursion) =>
            if negb (bool_decide (owner = Some cur_tid)) then mret 0
            else
              let recursion := saturating_sub recursion 1 in
              put_object h (CriticalSection a (if recursion =? 0 then None else owner) recursion) ;;
              (if recursion =? 0 then
                 s ← get_state;
                 match waiters_on (threads s) h with
                 | tid :: _ => set_state (fun s => wake_thread s tid h)
                 | [] => mret tt
                 end
               else mret tt) ;;
              mret 0
        | _ => mret 0
        end
    end.

Definition stub_try_enter_critical_section (cpu : Cpu) : Stub Z :=
  p ← arg (str "TryEnterCriticalSection") cpu 0;
  if p =? 0 then mret 0
  else
    s ← get_state;
    let cur_tid := active_tid s in
    h ← section_handle p;
    s ← get_state;
    match objects (scheduler s) !! h with
    | Some (CriticalSection a None _) => put_object h (CriticalSection a (Some cur_tid) 1) ;; mret 1
    | Some (CriticalSection a (Some o) recursion) =>
        if o =? cur_tid then
          recursion ← inc32 recursion;
          put_object h (CriticalSection a (Some o) recursion) ;; mret 1
        else mret 0
    | _ => mret 0
    end.

(** * Waits *)

Definition stub_sleep (cpu : Cpu) : Stub Z :=
  ms ← arg (str "Sleep") cpu 0;
  s ← get_state;
  request (Wait (Sleep (after_ms s ms))) ;;
  set_state (fun s =>
    {| processes := processes s; active_pid := active_pid s; threads := threads s;
       active_tid := active_tid s; next_tid := next_tid s; last_error := last_error s;
       tick := wrap32 (tick s + ms); instruction_budget := instruction_budget s;
       instructions_executed := instructions_executed s; scheduler := scheduler s;
       yield_requested := yield_requested s |}) ;;
  mret 0.

(** Whether [WaitForSingleObject] finds the object signaled. *)
Definition signaled_now (s : HostState) (o : WaitObject) : bool :=
  match o with
  | Thread tid => match threads s !! tid with Some t => is_status Terminated t | None => true end
  | Process pid =>
      match processes s !! pid with
      | Some p => match exit_code p with Some _ => true | None => false end
      | None => true
      end
  | _ => object_is_signaled o
  end.

Definition stub_wait_for_single_object (cpu : Cpu) : Stub Z :=
  let nm := str "WaitForSingleObject" in
  h ← arg nm cpu 0;
  ms ← arg nm cpu 1;
  s ← get_state;
  match objects (scheduler s) !! h with
  | None => mret 0
  | Some o =>
      let cur_tid := active_tid s in
      if signaled_now s o then put_object h (consume_signal_if_auto_reset o cur_tid) ;; mret 0
      else request (Wait (Object h (timeout_of s ms))) ;; mret 0
  end.

(** [for i in 0..n { handles.push(mmu.load32(p_handles + i * 4)?) }]; the sum
    and the product overflow, and panic in a debug build, past 32 bits. *)
Fixpoint load_handles (fuel : nat) (m : Mmu) (p i n : Z) : res Win32Error (list Z) :=
  match fuel with
  | O => Ok []
  | S f =>
      if i <? n then
        if (i * 4 <? 2 ^ 32) && (p + i * 4 <? 2 ^ 32) then
          h ← map_err (trap_to_win32 (str "WaitForMultipleObjects")) (load32 m (p + i * 4));
          t ← load_handles f m p (i + 1) n;
          Ok (h :: t)
        else Panic
      else Ok []
  end.

Definition signaled_or_unknown (s : HostState) (h : Z) : bool :=
  match objects (scheduler s) !! h with Some o => object_is_signaled o | None => true end.

(** [iter().position(|x| *x)] *)
Fixpoint position (l : list bool) : option nat :=
  match l with
  | [] => None
  | true :: _ => Some 0%nat
  | false :: t => option_map S (position t)
  end.

Definition stub_wait_for_multiple_objects (cpu : Cpu) : Stub Z :=
  let nm := str "WaitForMultipleObjects" in
  n ← arg nm cpu 0;
  p_handles ← arg nm cpu 1;
  wait_all ← arg nm cpu 2;
  ms ← arg nm cpu 3;
  if (n =? 0) || (p_handles =? 0) then mret 0
  else
    handles ← lift (fun m _ => load_handles (Z.to_nat n) m p_handles 0 n);
    s ← get_state;
    let now := List.map (signaled_or_unknown s) handles in
    let cur_tid := active_tid s in
    let consume := fun sc h => update_object sc h (fun o => consume_signal_if_auto_reset o cur_tid) in
    let block := request (Wait (Multiple handles (negb (wait_all =? 0)) (timeout_of s ms))) ;; mret 0 in
    if negb (wait_all =? 0) then
      if forallb (fun x => x) now then
        set_scheduler (fun sc => fold_left consume handles sc) ;; mret 0
      else block
    else
      match position now with
      | Some idx =>
          set_scheduler (fun sc => consume sc (nth idx handles 0)) ;; mret (Z.of_nat idx)
      | None => block
      end.

(** * Threads and processes *)

Definition stub_switch_to_thread (_ : Cpu) : Stub Z :=
  s ← get_state;
  let cur_tid := active_tid s in
  if existsb (fun p : Z * ThreadState => negb (p.1 =? cur_tid) && is_status Ready p.2) (ordered (threads s))
  then request Yield ;; mret 1
  else mret 0.

Definition stub_exit_thread (cpu : Cpu) : Stub Z :=
  code ← arg (str "ExitThread") cpu 0;
  request (Exit code) ;; mret 0.

(** [as i32] *)
Definition stub_set_thread_priority (cpu : Cpu) : Stub Z :=
  let nm := str "SetThreadPriority" in
  h ← arg nm cpu 0;
  prio ← arg nm cpu 1;
  s ← get_state;
  match objects (scheduler s) !! h with
  | Some (Thread tid) => set_state (fun s => update_thread s tid (fun t => with_priority t (sint 32 prio)))
  | _ => mret tt
  end ;;
  mret 1.

Definition stub_resume_thread (cpu : Cpu) : Stub Z :=
  h ← arg (str "ResumeThread") cpu 0;
  s ← get_state;
  match objects (scheduler s) !! h with
  | Some (Thread tid) =>
      match threads s !! tid with
      | None => mret 0xFFFFFFFF
      | Some t =>
          if is_status Suspended t then
            set_state (fun s => update_thread s tid (fun t => with_status t Ready)) ;; mret 1
          else mret 0
      end
  | _ => mret 0xFFFFFFFF
  end.

Definition stub_exit_process (cpu : Cpu) : Stub Z :=
  code ← arg (str "ExitProcess") cpu 0;
  s ← get_state;
  p ← lift (fun _ s => cur_process s);
  set_state (fun s => update_process s (active_pid s) (fun p => with_process_exit p (Some code) (Some code))) ;;
  mret 0.

Definition stub_terminate_process (cpu : Cpu) : Stub Z :=
  let nm := str "TerminateProcess" in
  h ← arg nm cpu 0;
  code ← arg nm cpu 1;
  if code =? 0xC0000409 then mret 1
  else
    s ← get_state;
    let target_pid :=
      if h =? 0xFFFFFFFF then active_pid s
      else match objects (scheduler s) !! h with Some (Process pid) => pid | _ => active_pid s end in
    set_state (fun s => update_process s target_pid (fun p => with_process_exit p (Some code) (exit_requested p))) ;;
    set_state (fun s => fold_left wake_waiters (handles_where s (is_process_object target_pid)) s) ;;
    s ← get_state;
    (if target_pid =? active_pid s then
       p ← lift (fun _ s => cur_process s);
       set_state (fun s => update_process s (active_pid s) (fun p => with_process_exit p (exit_code p) (Some code)))
     else mret tt) ;;
    mret 1.

Definition THREAD_STACK_SIZE : Z := 0x10000.
Definition THREAD_TIB_SIZE : Z := 0x1000.
Definition CREATE_SUSPENDED : Z := 4.

(** [let _ = mmu.store32(..)]: the error is dropped. *)
Definition store_unchecked (a v : Z) : Stub unit :=
  fun h => match store32 a v (h_mmu h) with
           | (m, Panic) => ({| h_mmu := m; h_state := h_state h |}, Panic)
           | (m, _) => ({| h_mmu := m; h_state := h_state h |}, Ok tt)
           end.

Definition with_pools (p : ProcessState) (stack_top tib : Z) : ProcessState :=
  {| p_pid := p_pid p; exit_code := exit_code p; exit_requested := exit_requested p;
     thread_stack_pool_bottom := thread_stack_pool_bottom p; next_thread_stack_top := stack_top;
     tib_pool_bottom := tib_pool_bottom p; next_tib_addr := tib |}.

(** The thread information block of a new thread, if there is a pool.
    [addr + 0x18] overflows, and panics in a debug build, at the top of the
    address space. *)
Definition reserve_tib : Stub Z :=
  p ← lift (fun _ s => cur_process s);
  if negb (tib_pool_bottom p =? 0) then
    let addr := next_tib_addr p in
    set_state (fun s => update_process s (active_pid s)
      (fun p => with_pools p (next_thread_stack_top p) (wrap32 (addr + THREAD_TIB_SIZE)))) ;;
    store_unchecked addr 0xFFFFFFFF ;;
    (fun h => (h, if addr + 0x18 <? 2 ^ 32 then Ok tt else Panic)) ;;
    store_unchecked (addr + 0x18) addr ;;
    mret addr
  else mret 0.

(** [new_cpu.push32(mmu, v)?] *)
Definition push_arg (nm : list byte) (c : Cpu) (v : Z) : Stub Cpu :=
  let '(c, st) := push32 c v in
  store nm st ;; mret c.

(** [state.threads.insert(tid, t)] with the next thread number. *)
Definition add_thread (s : HostState) (t : ThreadState) : HostState :=
  {| processes := processes s; active_pid := active_pid s; threads := <[next_tid s := t]> (threads s);
     active_tid := active_tid s; next_tid := wrap32 (next_tid s + 1); last_error := last_error s;
     tick := tick s; instruction_budget := instruction_budget s;
     instructions_executed := instructions_executed s; scheduler := scheduler s;
     yield_requested := yield_requested s |}.

Definition new_thread (tid pid tib : Z) (c : Cpu) (suspended : bool) : ThreadState :=
  {| t_tid := tid; t_pid := pid; priority := 0; tls_slots := ∅; parked_cpu := Some c;
     quantum_remaining := DEFAULT_QUANTUM; status := if suspended then Suspended else Ready; wait := None;
     tib_addr := tib; last_eip_before_wild := 0; pthread_slots := ∅ |}.

(** [stack_top - 0x10] does not underflow: the pool has at least 64 KiB left. *)
Definition stub_create_thread (cpu : Cpu) : Stub Z :=
  let nm := str "CreateThread" in
  _ ← arg nm cpu 0;
  _ ← arg nm cpu 1;
  start ← arg nm cpu 2;
  param ← arg nm cpu 3;
  flags ← arg nm cpu 4;
  p_tid ← arg nm cpu 5;
  if start =? 0 then mret 0
  else
    p ← lift (fun _ s => cur_process s);
    let arena_top := next_thread_stack_top p in
    let arena_bottom := thread_stack_pool_bottom p in
    if (arena_top =? 0) || (saturating_sub arena_top arena_bottom <? THREAD_STACK_SIZE) then
      lift (fun _ _ => Err (InvalidArgument nm (ReasonText (str
        "thread-stack pool exhausted (configure with HostState::with_thread_stack_pool)"))))
    else
      let stack_top := arena_top in
      set_state (fun s => update_process s (active_pid s)
        (fun p => with_pools p (stack_top - THREAD_STACK_SIZE) (next_tib_addr p))) ;;
      tib_addr ← reserve_tib;
      let new_cpu := with_regs cpu_new (set_esp regs_new (stack_top - 0x10)) in
      let new_cpu := set_eip new_cpu start in
      let new_cpu := if negb (tib_addr =? 0) then set_fs_base new_cpu tib_addr else new_cpu in
      new_cpu ← push_arg nm new_cpu param;
      new_cpu ← push_arg nm new_cpu RET_SENTINEL;
      s ← get_state;
      let tid := next_tid s in
      t ← lift (fun _ s => cur_thread s);
      set_state (fun s => add_thread s
        (new_thread tid (t_pid t) tib_addr new_cpu (negb (Z.land flags CREATE_SUSPENDED =? 0)))) ;;
      s ← get_state;
      let '(handle, sc) := insert_object (scheduler s) (Thread tid) in
      set_state (fun s => with_scheduler s sc) ;;
      (if negb (p_tid =? 0) then store nm (store32 p_tid tid) else mret tt) ;;
      mret handle.
End api.
