(* ===== verification/WaitInv.v ===== *)
(** The invariant of the guest scheduler and its synchronization calls
    (WaitApi.v): who owns what, unique handles, and what a waiting thread waits
    for. *)

From S2P Require Import Prelude Regs Mmu Sched Threads ThreadsInv WaitApi.

Section inv.
Context `{CpuRest}.

(** * The invariant *)

(** There is an object at the handle, and nobody can take it: an event that is
    not set, a mutex or critical section with an owner, a semaphore at 0, or a
    thread or process, whose end does not count ([object_is_signaled]). *)
Definition unsignaled (objs : gmap Z WaitObject) (h : Z) : Prop :=
  exists o, objs !! h = Some o /\ object_is_signaled o = false.

(** The wait has to go on: no object it waits for can be taken, or not all of
    them when it waits for all. *)
Definition blocked (objs : gmap Z WaitObject) (c : WaitCondition) : Prop :=
  match c with
  | Sleep _ => True
  | Object h _ => unsignaled objs h
  | Multiple hs false _ => Forall (unsignaled objs) hs
  | Multiple hs true _ => Exists (unsignaled objs) hs
  end.

Lemma blocked_mono objs objs' c : (forall h, waits_for (Some c) h = true -> unsignaled objs h -> unsignaled objs' h) ->
  blocked objs c -> blocked objs' c.
Proof.
  intros Hob. destruct c as [n|h tm|hs [] tm]; cbn [blocked waits_for] in *; [done|apply Hob, Z.eqb_refl| |].
  all: assert (forall h, h ∈ hs -> unsignaled objs h -> unsignaled objs' h) as H'
    by (intros h Hin; apply Hob, existsb_exists; exists h; split; [by apply list_elem_of_In|apply Z.eqb_refl]).
  - rewrite !Exists_exists. intros (h & Hin & Hu). exists h. auto.
  - rewrite !Forall_forall. intros Hu h Hin. auto.
Qed.

(** A mutex or critical section is owned exactly when it has been entered. *)
Definition object_wf (o : WaitObject) : Prop :=
  match o with
  | Mutex owner recursion | CriticalSection _ owner recursion =>
      in_range 32 recursion /\ (owner = None <-> recursion = 0)
  | Semaphore count max => in_range 32 count /\ in_range 32 max
  | _ => True
  end.

Definition handle_of (i : Z) : Z := wrap32 (WAIT_OBJECT_HANDLE_BASE + i).

Record host_ok (s : HostState) : Prop := {
  h_threads : threads_ok s;
  h_tids : forall k, is_Some (threads s !! k) -> 0 < k < next_tid s;
  h_tid_range : in_range 32 (next_tid s);
  h_waits : forall k t c, threads s !! k = Some t -> wait t = Some c -> blocked (objects (scheduler s)) c;
  h_pending : forall c, yield_requested s = Some (Wait c) -> blocked (objects (scheduler s)) c;
  h_objects : forall h o, objects (scheduler s) !! h = Some o ->
    object_wf o /\ exists i, 0 <= i < next_handle_index (scheduler s) /\ h = handle_of i;
  h_index : in_range 32 (next_handle_index (scheduler s));
  h_sections : forall a h, critical_sections (scheduler s) !! a = Some h ->
    exists owner r, objects (scheduler s) !! h = Some (CriticalSection a owner r);
  h_active : yield_requested s <> None ->
    forall t, threads s !! active_tid s = Some t -> wait t = None;
}.

(** Numbers are left for one more object and one more thread. *)
Definition room (s : HostState) : Prop :=
  next_handle_index (scheduler s) + 1 < 2 ^ 32 /\ next_tid s + 1 < 2 ^ 32.

(** The last request has been honoured and the active thread can run. *)
Definition settled (s : HostState) : Prop :=
  (forall c, yield_requested s <> Some (Wait c)) /\
  forall t, threads s !! active_tid s = Some t -> wait t = None.

(** * Signalling *)

(** [fold_left] of [wake_thread] over a list of threads. *)
Lemma wake_list_eq l s h :
  exists m, fold_left (fun s tid => wake_thread s tid h) l s =
    with_threads (with_scheduler s (update_object (scheduler s) h (fun o => fold_left consume_signal_if_auto_reset l o))) m /\
    forall k, m !! k = (if bool_decide (k ∈ l) then make_ready else id) <$> threads s !! k.
Proof.
  revert s. induction l as [|tid l IH]; intros s; cbn [fold_left].
  { exists (threads s). split.
    - unfold update_object. destruct (objects (scheduler s) !! h) as [o|] eqn:E; [|by destruct s].
      rewrite insert_id by done. by destruct s as [? ? ? ? ? ? ? ? ? [] ?].
    - intros k. rewrite bool_decide_eq_false_2 by apply not_elem_of_nil. by rewrite option_fmap_id. }
  destruct (IH (wake_thread s tid h)) as (m & -> & Hm). exists m. split.
  - unfold wake_thread. rewrite update_thread_alter. cbn [threads with_threads scheduler with_scheduler].
    unfold update_object. destruct (objects (scheduler s) !! h) as [o|] eqn:E.
    + cbn [objects with_objects]. rewrite lookup_insert_eq, insert_insert_eq. done.
    + rewrite E. done.
  - intros k. rewrite Hm. unfold wake_thread. rewrite update_thread_alter. cbn.
    destruct (decide (k = tid)) as [->|Hne].
    + rewrite lookup_alter_eq, (bool_decide_eq_true_2 (tid ∈ tid :: l)) by left.
      destruct (threads s !! tid); [|done]. cbn. by case_bool_decide.
    + rewrite lookup_alter_ne by done.
      rewrite (bool_decide_ext (k ∈ tid :: l) (k ∈ l)); [done|]. rewrite elem_of_cons. tauto.
Qed.

(** Waiting threads are listed under every handle they wait for. *)
Lemma waiter_listed s k t c h : threads_ok s -> threads s !! k = Some t -> wait t = Some c ->
  waits_for (Some c) h = true -> k ∈ waiters_on (threads s) h.
Proof.
  intros Hok E Hw Hc. apply waiters_on_spec. exists t. split; [done|].
  assert (status t = Waiting) as Hs by (apply (ok_wait s Hok k t E); by rewrite Hw).
  unfold waits_any. rewrite (proj2 (is_status_spec Waiting t) Hs), Hw. cbn [existsb andb]. by rewrite Hc.
Qed.

Lemma consume_section l a ow r : exists ow' r',
  fold_left consume_signal_if_auto_reset l (CriticalSection a ow r) = CriticalSection a ow' r'.
Proof. revert ow r. induction l as [|x l IH]; intros ow r; [by eexists _, _|apply IH]. Qed.

(** Putting [o1] at a registered handle and waking some of its waiters. *)
Lemma signal_ok s h o o1 l :
  host_ok s -> settled s -> objects (scheduler s) !! h = Some o ->
  (forall a ow r, o = CriticalSection a ow r -> exists ow' r', o1 = CriticalSection a ow' r') ->
  (forall k, k ∈ l -> k ∈ waiters_on (threads s) h) ->
  object_wf (fold_left consume_signal_if_auto_reset l o1) ->
  (object_is_signaled (fold_left consume_signal_if_auto_reset l o1) = true -> object_is_signaled o = true \/
   forall k t c, threads s !! k = Some t -> wait t = Some c -> waits_for (Some c) h = true -> k ∈ l) ->
  host_ok (fold_left (fun s tid => wake_thread s tid h) l
             (with_scheduler s (with_objects (scheduler s) (<[h := o1]> (objects (scheduler s)))))).
Proof.
  intros Hok Hset Eo Hkind Hl Hwf Hsig.
  destruct (wake_list_eq l (with_scheduler s (with_objects (scheduler s) (<[h := o1]> (objects (scheduler s))))) h)
    as (m & -> & Hm). cbn [scheduler with_scheduler threads] in *.
  unfold update_object. cbn [objects with_objects]. rewrite lookup_insert_eq. cbn [objects with_objects].
  set (o2 := fold_left consume_signal_if_auto_reset l o1) in *.
  rewrite insert_insert_eq.
  assert (forall k t', m !! k = Some t' -> exists t, threads s !! k = Some t /\
    ((k ∈ l /\ t' = make_ready t) \/ (k ∉ l /\ t' = t))) as Hinv.
  { intros k t' E. rewrite Hm in E. destruct (threads s !! k) as [t|]; [|by destruct (bool_decide _)].
    exists t. split; [done|]. case_bool_decide; injection E as <-; [by left|by right]. }
  assert (forall k, m !! k = (fun k => if bool_decide (k ∈ l) then make_ready else id) k <$> threads s !! k) as Hg
    by (intros k; by rewrite Hm).
  match goal with |- host_ok ?s' => destruct (threads_ok_change s s' _ (h_threads s Hok) eq_refl eq_refl Hg (fun _ H => H))
    as [Hthreads _] end.
  { intros k t E. cbn. case_bool_decide; unfold keeps; cbn; [|by split_and!; auto].
    by split_and!. }
  split; [exact Hthreads|..]; cbn [threads with_threads scheduler with_scheduler objects with_objects next_tid
    yield_requested next_handle_index critical_sections].
  - intros k [t' E]. destruct (Hinv _ _ E) as (t & Et & _). apply (h_tids s Hok). by exists t.
  - apply (h_tid_range s Hok).
  - intros k t' c E Hw. destruct (Hinv _ _ E) as (t & Et & [[_ ->]|[Hnin ->]]); [done|].
    refine (blocked_mono _ _ c _ (h_waits s Hok k t c Et Hw)). intros h' Hc (o' & Eo' & Hf).
    destruct (decide (h' = h)) as [->|Hne].
    + exists o2. rewrite lookup_insert_eq. split; [done|]. rewrite Eo in Eo'. injection Eo' as <-.
      destruct (object_is_signaled o2) eqn:Es; [|done].
      destruct (Hsig eq_refl) as [Ho|Hl']; [congruence|]. destruct Hnin. by apply (Hl' k t c).
    + exists o'. by rewrite lookup_insert_ne.
  - intros c Hc. by destruct (proj1 Hset c).
  - intros h' o' E. apply lookup_insert_Some in E as [[<- <-]|[_ E]]; [|by apply (h_objects s Hok)].
    split; [done|]. by apply (h_objects s Hok h o).
  - apply (h_index s Hok).
  - intros a h' E. destruct (h_sections s Hok a h' E) as (ow & r & E').
    destruct (decide (h' = h)) as [->|]; [|rewrite lookup_insert_ne by done; by eexists _, _].
    rewrite lookup_insert_eq. rewrite Eo in E'. injection E' as ->.
    destruct (Hkind a ow r eq_refl) as (ow' & r' & ->). unfold o2.
    destruct (consume_section l a ow' r') as (? & ? & ->). by eexists _, _.
  - intros _ t' E. destruct (Hinv _ _ E) as (t & Et & [[_ ->]|[_ ->]]); [done|by apply (proj2 Hset)].
Qed.

(** * Single changes *)

(** The invariant looks at these fields only. *)
Lemma host_ok_frame s s' :
  host_ok s -> threads s' = threads s -> active_tid s' = active_tid s -> active_pid s' = active_pid s ->
  next_tid s' = next_tid s -> objects (scheduler s') = objects (scheduler s) ->
  critical_sections (scheduler s') = critical_sections (scheduler s) ->
  next_handle_index (scheduler s') = next_handle_index (scheduler s) -> yield_requested s' = yield_requested s ->
  (forall pid, is_Some (processes s !! pid) -> is_Some (processes s' !! pid)) -> host_ok s'.
Proof.
  intros Hok E1 E2 E3 E4 E5 E7 E8 E6 Hp.
  destruct (threads_ok_change s s' (fun _ => id) (h_threads s Hok) E2 E3) as [Ht _].
  { intros k. by rewrite E1, option_fmap_id. }
  { exact Hp. }
  { intros k t _. unfold keeps. cbn. split_and!; auto. }
  destruct Hok. split; rewrite ?E1, ?E2, ?E4, ?E5, ?E6, ?E7, ?E8; done.
Qed.

(** Threads change; their waits stay or end. *)
Lemma host_ok_threads s m (g : Z -> ThreadState -> ThreadState) :
  host_ok s -> (forall k, m !! k = g k <$> threads s !! k) ->
  (forall k t, threads s !! k = Some t -> keeps s k t (g k t) /\ (wait (g k t) = wait t \/ wait (g k t) = None)) ->
  host_ok (with_threads s m).
Proof.
  intros Hok Hg Hk.
  destruct (threads_ok_change s (with_threads s m) g (h_threads s Hok) eq_refl eq_refl Hg (fun _ H => H)) as [Ht _].
  { intros k t E. by apply Hk. }
  split; cbn [threads with_threads scheduler next_tid yield_requested]; try by destruct Hok.
  - intros k [t' E]. rewrite Hg in E. destruct (threads s !! k) as [t|] eqn:Et; [|done].
    apply (h_tids s Hok). by exists t.
  - intros k t' c E Hw. rewrite Hg in E. destruct (threads s !! k) as [t|] eqn:Et; [|done]. injection E as <-.
    destruct (Hk k t Et) as [_ [E|E]]; rewrite E in Hw; [by apply (h_waits s Hok k t)|done].
  - intros Hy t' E. cbn [active_tid with_threads] in E. rewrite Hg in E.
    destruct (threads s !! active_tid s) as [t|] eqn:Et; [|done]. injection E as <-.
    destruct (Hk _ t Et) as [_ [->|E]]; [by apply (h_active s Hok)|done].
Qed.

Lemma host_ok_update s k f :
  host_ok s -> (forall t, threads s !! k = Some t -> keeps s k t (f t) /\ (wait (f t) = wait t \/ wait (f t) = None)) ->
  host_ok (update_thread s k f).
Proof.
  intros Hok Hf. rewrite update_thread_alter.
  apply (host_ok_threads s _ (fun j => if decide (j = k) then f else id) Hok).
  - intros j. destruct (decide (j = k)) as [->|]; [by rewrite lookup_alter_eq|].
    by rewrite lookup_alter_ne, option_fmap_id.
  - intros j t E. destruct (decide (j = k)) as [->|]; [by apply Hf|].
    unfold keeps. cbn. split; [split_and!; auto|by left].
Qed.

Lemma host_ok_request s y :
  host_ok s -> (forall t, threads s !! active_tid s = Some t -> wait t = None) -> (forall c, y = Some (Wait c) -> blocked (objects (scheduler s)) c) -> host_ok (with_yield s y).
Proof.
  intros Hok Hact Hy. split; try by destruct Hok.
  destruct (threads_ok_change s (with_yield s y) (fun _ => id) (h_threads s Hok) eq_refl eq_refl) as [Ht _]; [| |  |done].
  - intros k. cbn. by rewrite option_fmap_id.
  - done.
  - intros k t _. unfold keeps. cbn. split_and!; auto.
Qed.

Lemma handle_of_inj i j : in_range 32 i -> in_range 32 j -> handle_of i = handle_of j -> i = j.
Proof.
  unfold handle_of, in_range, wrap. intros Hi Hj E.
  assert ((WAIT_OBJECT_HANDLE_BASE + i - (WAIT_OBJECT_HANDLE_BASE + j)) mod 2 ^ 32 = 0) as Hm
    by (rewrite Zminus_mod, E, Z.sub_diag; done).
  apply Z.mod_divide in Hm as [q Hq]; [|done]. assert (q = 0) by nia. lia.
Qed.

(** A new object gets a handle no object has. *)
Lemma fresh_handle s : host_ok s -> objects (scheduler s) !! handle_of (next_handle_index (scheduler s)) = None.
Proof.
  intros Hok. destruct (_ !! _) as [o|] eqn:E; [|done].
  destruct (h_objects s Hok _ _ E) as (_ & i & Hi & Ei). pose proof (h_index s Hok) as Hn.
  apply handle_of_inj in Ei; [lia|done|unfold in_range in *; lia].
Qed.

Lemma host_ok_insert s o sc h : host_ok s -> next_handle_index (scheduler s) + 1 < 2 ^ 32 ->
  insert_object (scheduler s) o = (h, sc) -> object_wf o ->
  host_ok (with_scheduler s sc) /\ objects sc = <[h := o]> (objects (scheduler s)) /\
  objects (scheduler s) !! h = None /\ critical_sections sc = critical_sections (scheduler s).
Proof.
  intros Hok Hroom [= <- <-] Hwf. pose proof (fresh_handle s Hok) as Hfresh. unfold handle_of in Hfresh.
  pose proof (h_index s Hok) as Hidx.
  assert (wrap32 (next_handle_index (scheduler s) + 1) = next_handle_index (scheduler s) + 1) as Ew
    by (apply wrap_small; unfold in_range in *; lia).
  assert (forall c, blocked (objects (scheduler s)) c ->
    blocked (<[wrap32 (WAIT_OBJECT_HANDLE_BASE + next_handle_index (scheduler s)) := o]> (objects (scheduler s))) c) as Hmono.
  { intros c. apply blocked_mono. intros h _ (o' & E & Hs). exists o'. split; [|done].
    rewrite lookup_insert_ne; [done|congruence]. }
  split_and!; [|done|done|done].
  split; cbn [threads scheduler with_scheduler objects next_tid yield_requested next_handle_index critical_sections].
  - destruct (threads_ok_change s (with_scheduler s (insert_object (scheduler s) o).2) (fun _ => id)
      (h_threads s Hok) eq_refl eq_refl) as [Ht _]; [| | |exact Ht].
    + intros k. cbn. by rewrite option_fmap_id.
    + done.
    + intros k t _. unfold keeps. cbn. split_and!; auto.
  - apply (h_tids s Hok).
  - apply (h_tid_range s Hok).
  - intros k t c E Hw. by apply Hmono, (h_waits s Hok k t).
  - intros c Hc. by apply Hmono, (h_pending s Hok).
  - intros h o' E. rewrite Ew. apply lookup_insert_Some in E as [[<- <-]|[_ E]].
    + split; [done|]. exists (next_handle_index (scheduler s)). unfold in_range in *. split; [lia|done].
    + destruct (h_objects s Hok h o' E) as (? & i & ? & ?). split; [done|]. exists i. split; [lia|done].
  - rewrite Ew. unfold in_range in *. lia.
  - intros a h E. destruct (h_sections s Hok a h E) as (ow & r & E'). exists ow, r.
    rewrite lookup_insert_ne; [done|congruence].
  - apply (h_active s Hok).
Qed.

Lemma host_ok_add_thread s t : host_ok s -> next_tid s + 1 < 2 ^ 32 ->
  t_tid t = next_tid s -> is_Some (processes s !! t_pid t) -> is_Some (parked_cpu t) -> wait t = None ->
  status t = Ready \/ status t = Suspended -> host_ok (add_thread s t).
Proof.
  intros Hok Hroom Htid Hpid Hparked Hwait Hst. pose proof (h_tid_range s Hok) as Hr.
  assert (threads s !! next_tid s = None) as Hnew.
  { destruct (threads s !! next_tid s) eqn:E; [|done].
    destruct (h_tids s Hok (next_tid s)); [by eexists|lia]. }
  assert (wrap32 (next_tid s + 1) = next_tid s + 1) as Ew by (apply wrap_small; unfold in_range in *; lia).
  destruct (h_threads s Hok) as [(a & Ea & Hap & Hapid) Hp Hrun Hw Hids].
  assert (forall k u, threads (add_thread s t) !! k = Some u -> (k = next_tid s /\ u = t) \/ threads s !! k = Some u) as Hinv.
  { intros k u. cbn. rewrite lookup_insert_Some. naive_solver. }
  split; cbn [scheduler add_thread yield_requested next_tid]; try by destruct Hok.
  - split.
    + exists a. cbn. rewrite lookup_insert_ne; [done|congruence].
    + intros k u [[-> ->]|E]%Hinv Hk; [done|by apply (Hp k)].
    + intros k u [[-> ->]|E]%Hinv Hs; [by destruct Hst; congruence|by apply (Hrun k u)].
    + intros k u [[-> ->]|E]%Hinv; [|by apply (Hw k)]. rewrite Hwait. split; [by intros [? ?]|].
      by destruct Hst as [-> | ->].
    + intros k u [[-> ->]|E]%Hinv; [done|by apply (Hids k)].
  - intros k [u [[-> ->]|E]%Hinv]; rewrite Ew; [unfold in_range in Hr|].
    + destruct (h_tids s Hok (active_tid s)); [by eexists|lia].
    + destruct (h_tids s Hok k); [by eexists|lia].
  - rewrite Ew. unfold in_range in *. lia.
  - intros k u c [[-> ->]|E]%Hinv Hwu; [congruence|by apply (h_waits s Hok k u)].
  - intros Hy u [[E ->]|E]%Hinv; [done|by apply (h_active s Hok)].
Qed.
End inv.
