(* ===== verification/WaitStubs.v ===== *)
(** Every synchronization call keeps the scheduler's invariant (WaitApi.v,
    WaitInv.v). *)

From S2P Require Import Prelude Text Regs Mmu Sched Threads ThreadsInv WaitApi WaitInv.

Section stubs.
Context `{CpuRest}.

(** * Inverting a call *)

Lemma stub_bind_ok {A B} (c : Stub A) (f : A -> Stub B) h h' b :
  (c ≫= f) h = (h', Ok b) -> exists h1 a, c h = (h1, Ok a) /\ f a h1 = (h', Ok b).
Proof.
  unfold mbind, stub_bind. destruct (c h) as [h1 [a|e|]]; [|done|done]. intros Hf. by exists h1, a.
Qed.

Lemma stub_ret_ok {A} (a b : A) h h' : (mret a : Stub A) h = (h', Ok b) -> h' = h /\ b = a.
Proof. by intros [= <- <-]. Qed.

Lemma stub_lift_ok {A} (g : Mmu -> HostState -> res Win32Error A) h h' a : lift g h = (h', Ok a) ->
  h' = h /\ g (h_mmu h) (h_state h) = Ok a.
Proof. by intros [= <- Hg]. Qed.

Lemma load32_range m a v : load32 m a = Ok v -> in_range 32 v.
Proof.
  unfold load32. intros Hv. do 4 apply res_bind_ok in Hv as (? & _ & Hv). injection Hv as <-.
  apply (from_le_range [_; _; _; _]).
Qed.

Lemma arg_ok nm cpu n h h' a : arg nm cpu n h = (h', Ok a) -> h' = h /\ in_range 32 a.
Proof.
  intros [-> E]%stub_lift_ok. split; [done|]. unfold arg_dword in E.
  destruct (load32 _ _) as [v| |] eqn:Ev; [|done|done]. injection E as <-. by apply load32_range in Ev.
Qed.

Lemma get_state_ok h h' s : get_state h = (h', Ok s) -> h' = h /\ s = h_state h.
Proof. by intros [= <- <-]. Qed.

Lemma set_state_ok f h h' u : set_state f h = (h', Ok u) -> h' = {| h_mmu := h_mmu h; h_state := f (h_state h) |}.
Proof. by intros [= <-]. Qed.

Lemma store_ok nm c h h' u : store nm c h = (h', Ok u) -> h_state h' = h_state h.
Proof. unfold store. destruct (c (h_mmu h)) as [m [[]| |]]; intros [= <- _] || intros [=]; done. Qed.

Lemma name_at_ok p h h' o : name_at p h = (h', Ok o) -> h' = h.
Proof. unfold name_at. case_match; [by intros [-> _]%stub_lift_ok|by intros [-> _]%stub_ret_ok]. Qed.

End stubs.

(** Takes a call apart into its steps. *)
Ltac stub_step H :=
  first
    [ apply stub_ret_ok in H as [-> ->]
    | apply get_state_ok in H as [-> ->]
    | let Ha := fresh "Harg" in apply arg_ok in H as [-> Ha]
    | apply set_state_ok in H as ->
    | apply name_at_ok in H as ->
    | apply stub_lift_ok in H as [-> H] ].

Ltac stub_run H :=
  repeat
    lazymatch type of H with
    | (_ ≫= _) _ = (_, Ok _) =>
        let h := fresh "h" in let a := fresh "a" in let H1 := fresh "Hrun" in
        apply stub_bind_ok in H as (h & a & H1 & H); try stub_step H1
    end;
  try stub_step H; cbn [h_state h_mmu] in *.

Section preserve.
Context `{CpuRest}.

(** A call keeps the invariant when it returns. *)
Definition preserves {A} (f : Stub A) : Prop :=
  forall h h' v, host_ok (h_state h) -> settled (h_state h) -> room (h_state h) ->
    f h = (h', Ok v) -> host_ok (h_state h').

(** [objects.get_mut(&h)] writing, as a signal without waking. *)
Lemma put_object_ok s h o o1 : host_ok s -> settled s -> objects (scheduler s) !! h = Some o ->
  (forall a ow r, o = CriticalSection a ow r -> exists ow' r', o1 = CriticalSection a ow' r') ->
  object_wf o1 -> (object_is_signaled o1 = true -> object_is_signaled o = true) ->
  host_ok (with_scheduler s (with_objects (scheduler s) (<[h := o1]> (objects (scheduler s))))).
Proof.
  intros Hok Hset Eo Hk Hwf Hs. apply (signal_ok s h o o1 [] Hok Hset Eo Hk); [by intros k ?%elem_of_nil|done|].
  intros Hsig. left. by apply Hs.
Qed.

Lemma consume_wf o tid : object_wf o -> object_wf (consume_signal_if_auto_reset o tid).
Proof.
  destruct o as [| | | | |? ow r|]; cbn; try done.
  all: unfold saturating_sub, in_range; lia.
Qed.

Lemma consume_unsignals o tid :
  object_is_signaled (consume_signal_if_auto_reset o tid) = true -> object_is_signaled o = true.
Proof.
  destruct o as [[] []| | | | | |]; cbn; try done. unfold saturating_sub.
  intros ?%Z.ltb_lt. apply Z.ltb_lt. lia.
Qed.

Lemma consume_kind o tid a ow r : o = CriticalSection a ow r ->
  exists ow' r', consume_signal_if_auto_reset o tid = CriticalSection a ow' r'.
Proof. intros ->. by eexists _, _. Qed.

(** What a successful wait does. *)
Lemma consume_ok s h o tid : host_ok s -> settled s -> objects (scheduler s) !! h = Some o ->
  host_ok (with_scheduler s (with_objects (scheduler s)
    (<[h := consume_signal_if_auto_reset o tid]> (objects (scheduler s))))).
Proof.
  intros Hok Hset Eo. apply (put_object_ok s h o); [done..|by intros ? ? ? ?; eapply consume_kind| |].
  - apply consume_wf. by apply (h_objects s Hok h o).
  - apply consume_unsignals.
Qed.

Lemma create_named_ok name o : (forall s, object_wf (o s)) -> preserves (create_named name o).
Proof.
  intros Hwf h h' v Hok Hset Hroom Hrun. unfold create_named in Hrun. stub_run Hrun.
  destruct (match name with Some n => _ | None => _ end).
  - stub_run Hrun. by apply (host_ok_frame (h_state h)).
  - destruct (insert_object _ _) as [hd sc] eqn:Ei. stub_run Hrun.
    destruct (host_ok_insert _ _ _ _ Hok (proj1 Hroom) Ei (Hwf _)) as (Hok' & _).
    by destruct name; [apply (host_ok_frame _ _ Hok')|].
Qed.

Lemma create_event_ok cpu : preserves (stub_create_event_a cpu).
Proof.
  intros h h' v Hok Hset Hroom Hrun. unfold stub_create_event_a in Hrun. stub_run Hrun.
  eapply create_named_ok; [|exact Hok|exact Hset|exact Hroom|exact Hrun]. done.
Qed.

Lemma create_mutex_ok cpu : preserves (stub_create_mutex_a cpu).
Proof.
  intros h h' v Hok Hset Hroom Hrun. unfold stub_create_mutex_a in Hrun. stub_run Hrun.
  eapply create_named_ok; [|exact Hok|exact Hset|exact Hroom|exact Hrun].
  intros s. cbn. by destruct (negb _).
Qed.

(** Waking the first waiter. *)
Lemma wake_first_ok l (hd : Z) h h' u :
  (match l with tid :: _ => set_state (fun s => wake_thread s tid hd) | [] => mret tt end : Stub unit) h = (h', Ok u) ->
  h_state h' = fold_left (fun s tid => wake_thread s tid hd) (take 1 l) (h_state h).
Proof. destruct l; intros Hrun; stub_run Hrun; done. Qed.

Lemma signal_first_ok s h o o1 : host_ok s -> settled s -> objects (scheduler s) !! h = Some o ->
  (forall a ow r, o = CriticalSection a ow r -> exists ow' r', o1 = CriticalSection a ow' r') ->
  object_wf o1 -> (forall tid, object_is_signaled (consume_signal_if_auto_reset o1 tid) = false) ->
  host_ok (fold_left (fun s tid => wake_thread s tid h) (take 1 (waiters_on (threads s) h))
    (with_scheduler s (with_objects (scheduler s) (<[h := o1]> (objects (scheduler s)))))).
Proof.
  intros Hok Hset Eo Hk Hwf Hs. apply (signal_ok s h o o1); [done..| | |].
  - intros k Hin. by apply elem_of_take in Hin as (i & Hi%list_elem_of_lookup_2 & _).
  - destruct (waiters_on _ _); [done|by apply consume_wf].
  - intros Hsig. right. intros k t c Et Hw Hc. pose proof (waiter_listed s k t c h (h_threads s Hok) Et Hw Hc) as Hin.
    destruct (waiters_on _ _) as [|tid l]; [done|].
    change (object_is_signaled (consume_signal_if_auto_reset o1 tid) = true) in Hsig. by rewrite Hs in Hsig.
Qed.

Lemma signal_all_ok s h o o1 : host_ok s -> settled s -> objects (scheduler s) !! h = Some o ->
  (forall a ow r, o = CriticalSection a ow r -> exists ow' r', o1 = CriticalSection a ow' r') ->
  object_wf o1 ->
  host_ok (fold_left (fun s tid => wake_thread s tid h) (waiters_on (threads s) h)
    (with_scheduler s (with_objects (scheduler s) (<[h := o1]> (objects (scheduler s)))))).
Proof.
  intros Hok Hset Eo Hk Hwf. apply (signal_ok s h o o1); [done..| | |].
  - done.
  - generalize (waiters_on (threads s) h) as l. intros l. clear Hk. revert o1 Hwf.
    induction l as [|tid l IH]; intros o1 Hwf; [done|]. by apply IH, consume_wf.
  - intros _. right. intros k t c Et Hw Hc. by apply (waiter_listed s k t c h (h_threads s Hok)).
Qed.

Lemma set_event_ok cpu : preserves (stub_set_event cpu).
Proof.
  intros h h' v Hok Hset Hroom Hrun. unfold stub_set_event in Hrun. stub_run Hrun.
  destruct (objects _ !! _) as [[sg manual| | | | | |]|] eqn:Eo; try (stub_run Hrun; done).
  unfold set_scheduler in Hrun. stub_run Hrun. destruct manual.
  - stub_step Hrun0. by apply (signal_all_ok (h_state h) a (Event sg true) (Event true true)).
  - rewrite (wake_first_ok _ _ _ _ _ Hrun0). by apply (signal_first_ok (h_state h) a (Event sg false) (Event true false)).
Qed.

Lemma reset_event_ok cpu : preserves (stub_reset_event cpu).
Proof.
  intros h h' v Hok Hset Hroom Hrun. unfold stub_reset_event in Hrun. stub_run Hrun.
  destruct (objects _ !! _) as [[sg manual| | | | | |]|] eqn:Eo; try (stub_run Hrun0; done).
  unfold set_scheduler in Hrun0. stub_run Hrun0. by apply (put_object_ok (h_state h) a (Event sg manual)).
Qed.

Lemma release_mutex_ok cpu : preserves (stub_release_mutex cpu).
Proof.
  intros h h' v Hok Hset Hroom Hrun. unfold stub_release_mutex in Hrun. stub_run Hrun.
  destruct (objects _ !! _) as [[|ow r| | | | |]|] eqn:Eo; try (stub_run Hrun; done).
  case_bool_decide as Ho; cbn [negb] in Hrun; [|stub_run Hrun; done].
  destruct (h_objects _ Hok _ _ Eo) as [[Hr Hiff] _]. unfold set_scheduler in Hrun. stub_run Hrun.
  unfold saturating_sub in *. destruct (Z.eqb_spec (Z.max 0 (r - 1)) 0) as [E0|E0].
  - stub_run Hrun0. rewrite (wake_first_ok _ _ _ _ _ Hrun0). rewrite E0.
    apply (signal_first_ok (h_state h) a (Mutex ow r) (Mutex None 0)); done.
  - stub_run Hrun0. apply (put_object_ok (h_state h) a (Mutex ow r)); try done.
    unfold object_wf, in_range in *. rewrite Ho in *. split; [lia|]. split; [done|lia].
Qed.

Lemma consume_semaphore l c m :
  fold_left consume_signal_if_auto_reset l (Semaphore c m) =
  Semaphore (if decide (l = []) then c else Z.max 0 (c - len l)) m.
Proof.
  destruct l as [|x l]; [done|]. rewrite decide_False by done. revert c x.
  induction l as [|y l IH]; intros c x; [done|]. change (fold_left consume_signal_if_auto_reset (y :: l)
    (Semaphore (saturating_sub c 1) m) = Semaphore (Z.max 0 (c - len (x :: y :: l))) m).
  rewrite (IH (saturating_sub c 1) y). unfold saturating_sub, len. simpl length. f_equal. lia.
Qed.

Lemma release_semaphore_ok cpu : preserves (stub_release_semaphore cpu).
Proof.
  intros h h' v Hok Hset Hroom Hrun. unfold stub_release_semaphore in Hrun. stub_run Hrun.
  destruct (objects _ !! _) as [[| |prev max| | | |]|] eqn:Eo; try (stub_run Hrun; done).
  destruct (h_objects _ Hok _ _ Eo) as [[Hr Hmax] _]. unfold set_scheduler in Hrun. stub_run Hrun.
  assert (h_state h0 = with_scheduler (h_state h) (with_objects (scheduler (h_state h))
    (<[a := Semaphore (saturating_add32 prev a0 `min` max) max]> (objects (scheduler (h_state h)))))) as ->.
  { destruct (negb _); [by rewrite (store_ok _ _ _ _ _ Hrun0)|by stub_run Hrun0]. }
  cbn [threads with_scheduler]. unfold saturating_add32, in_range in *.
  apply (signal_ok (h_state h) a (Semaphore prev max)); [done..| | |].
  - intros k Hin. by apply elem_of_take in Hin as (i & Hi%list_elem_of_lookup_2 & _).
  - rewrite consume_semaphore. unfold object_wf, in_range. destruct (decide _); [lia|].
    pose proof (len_nonneg (take (Z.to_nat a0) (waiters_on (threads (h_state h)) a))). lia.
  - rewrite consume_semaphore. cbn. intros Hsig%Z.ltb_lt. destruct (Z.ltb_spec 0 prev) as [|Hf]; [by left|right].
    intros k t c Et Hw Hc. pose proof (waiter_listed _ k t c a (h_threads _ Hok) Et Hw Hc) as Hin.
    rewrite take_ge; [done|]. unfold len in Hsig. destruct (decide _) as [El|_];
      [apply (f_equal length) in El; rewrite length_take in El; simpl in El|rewrite length_take in Hsig]; lia.
Qed.

Lemma create_semaphore_ok cpu : preserves (stub_create_semaphore_a cpu).
Proof.
  intros h h' v Hok Hset Hroom Hrun. unfold stub_create_semaphore_a in Hrun. stub_run Hrun.
  eapply create_named_ok; [|exact Hok|exact Hset|exact Hroom|exact Hrun]. done.
Qed.

(** * Critical sections *)

Lemma section_handle_ok p h h' hd : host_ok (h_state h) -> settled (h_state h) -> room (h_state h) ->
  section_handle p h = (h', Ok hd) ->
  host_ok (h_state h') /\ settled (h_state h') /\
  exists ow r, objects (scheduler (h_state h')) !! hd = Some (CriticalSection p ow r).
Proof.
  intros Hok Hset Hroom Hrun. unfold section_handle in Hrun. stub_run Hrun.
  unfold critical_section_handle in Hrun. destruct (critical_sections _ !! p) as [hd'|] eqn:Ecs.
  - stub_run Hrun. split; [by apply (host_ok_frame _ _ Hok)|]. split; [done|by apply (h_sections _ Hok)].
  - destruct (insert_object _ _) as [hd' sc] eqn:Ei. stub_run Hrun.
    destruct (host_ok_insert _ _ _ _ Hok (proj1 Hroom) Ei) as (Hok' & Eobj & Hnew & Esec); [done|].
    assert (objects sc !! hd' = Some (CriticalSection p None 0)) as Hhd by (by rewrite Eobj, lookup_insert_eq).
    split; [|split; [done|by eexists _, _]].
    destruct Hok'. split; try done.
    + destruct (threads_ok_change _ (h_state h) (fun _ => id) h_threads eq_refl eq_refl) as [Ht _].
      * intros k. cbn. by rewrite option_fmap_id.
      * done.
      * intros k t _. unfold keeps. cbn. split_and!; auto.
      * destruct Ht. by split.
    + cbn. intros a hd. rewrite lookup_insert_Some. intros [[<- <-]|[_ E]]; [by eexists _, _|].
      by apply h_sections.
Qed.

Lemma inc32_ok n h h' m : inc32 n h = (h', Ok m) -> h' = h /\ m = n + 1 /\ n + 1 < 2 ^ 32.
Proof. unfold inc32. case_match eqn:E; intros [= <- <-]. split_and!; [done|done|lia]. Qed.

(** Entering a section that is free or the caller's own. *)
Lemma enter_ok s hd a ow r tid r' : host_ok s -> settled s ->
  objects (scheduler s) !! hd = Some (CriticalSection a ow r) -> in_range 32 r' -> 0 < r' ->
  host_ok (with_scheduler s (with_objects (scheduler s)
    (<[hd := CriticalSection a (Some tid) r']> (objects (scheduler s))))).
Proof.
  intros Hok Hset Eo Hr Hpos. apply (put_object_ok s hd (CriticalSection a ow r)); [done..|by intros ? ? ? [= -> _ _]; eexists _, _| |done].
  split; [done|]. split; [done|lia].
Qed.

Lemma blocked_object objs hd tm o : objs !! hd = Some o -> object_is_signaled o = false ->
  blocked objs (Object hd tm).
Proof. intros E Hs. by exists o. Qed.

Lemma enter_critical_section_ok cpu : preserves (stub_enter_critical_section cpu).
Proof.
  intros h h' v Hok Hset Hroom Hrun. unfold stub_enter_critical_section in Hrun. stub_run Hrun.
  case_match; [stub_run Hrun; done|]. stub_run Hrun.
  destruct (section_handle_ok _ _ _ _ Hok Hset Hroom Hrun0) as (Hok1 & Hset1 & ow & r & Eo).
  rewrite Eo in Hrun. destruct (h_objects _ Hok1 _ _ Eo) as [[Hr Hiff] _].
  unfold put_object, set_scheduler, request in Hrun. destruct ow as [o|].
  - case_match.
    + apply stub_bind_ok in Hrun as (h2 & r' & (-> & -> & Hlt)%inc32_ok & Hrun). stub_run Hrun.
      unfold in_range in *. by apply (enter_ok _ _ _ (Some o) r); unfold in_range; [..|lia|lia].
    + stub_run Hrun. apply host_ok_request; [done|apply Hset1|]. intros c [= <-]. by eapply blocked_object.
  - stub_run Hrun. by apply (enter_ok _ _ _ None r).
Qed.

Lemma try_enter_critical_section_ok cpu : preserves (stub_try_enter_critical_section cpu).
Proof.
  intros h h' v Hok Hset Hroom Hrun. unfold stub_try_enter_critical_section in Hrun. stub_run Hrun.
  case_match; [stub_run Hrun; done|]. stub_run Hrun.
  destruct (section_handle_ok _ _ _ _ Hok Hset Hroom Hrun0) as (Hok1 & Hset1 & ow & r & Eo).
  rewrite Eo in Hrun. destruct (h_objects _ Hok1 _ _ Eo) as [[Hr Hiff] _].
  unfold put_object, set_scheduler in Hrun. destruct ow as [o|].
  - case_match; [|by stub_run Hrun].
    apply stub_bind_ok in Hrun as (h2 & r' & (-> & -> & Hlt)%inc32_ok & Hrun). stub_run Hrun.
    unfold in_range in *. by apply (enter_ok _ _ _ (Some o) r); unfold in_range; [..|lia|lia].
  - stub_run Hrun. by apply (enter_ok _ _ _ None r).
Qed.

Lemma leave_critical_section_ok cpu : preserves (stub_leave_critical_section cpu).
Proof.
  intros h h' v Hok Hset Hroom Hrun. unfold stub_leave_critical_section in Hrun. stub_run Hrun.
  case_match; [stub_run Hrun; done|]. stub_run Hrun.
  destruct (critical_sections _ !! a) as [hd|]; [|stub_run Hrun; done].
  destruct (objects _ !! _) as [[| | | | |p ow r|]|] eqn:Eo; try (stub_run Hrun; done).
  case_bool_decide as Ho; cbn [negb] in Hrun; [|stub_run Hrun; done].
  destruct (h_objects _ Hok _ _ Eo) as [[Hr Hiff] _]. unfold put_object, set_scheduler in Hrun. stub_run Hrun.
  unfold saturating_sub in *. destruct (Z.eqb_spec (Z.max 0 (r - 1)) 0) as [E0|E0].
  - stub_run Hrun0. rewrite (wake_first_ok _ _ _ _ _ Hrun0). rewrite E0.
    apply (signal_first_ok (h_state h) hd (CriticalSection p ow r)); try done.
    by intros ? ? ? [= -> _ _]; eexists _, _.
  - stub_run Hrun0. rewrite Ho. apply (enter_ok (h_state h) hd p ow r); unfold in_range in *; [done..|lia|lia].
Qed.

(** * Waits *)

Lemma sleep_ok cpu : preserves (stub_sleep cpu).
Proof.
  intros h h' v Hok Hset Hroom Hrun. unfold stub_sleep, request in Hrun. stub_run Hrun.
  assert (host_ok (with_yield (h_state h) (Some (Wait (Sleep (after_ms (h_state h) a)))))) as Hok'.
  { apply host_ok_request; [done|apply Hset|]. by intros c [= <-]. }
  by apply (host_ok_frame _ _ Hok').
Qed.

(** What is not signaled for [WaitForSingleObject] is not signaled. *)
Lemma signaled_now_object s o : signaled_now s o = false -> object_is_signaled o = false.
Proof. by destruct o. Qed.

Lemma wait_for_single_object_ok cpu : preserves (stub_wait_for_single_object cpu).
Proof.
  intros h h' v Hok Hset Hroom Hrun. unfold stub_wait_for_single_object in Hrun. stub_run Hrun.
  destruct (objects _ !! _) as [o|] eqn:Eo; [|stub_run Hrun; done].
  destruct (signaled_now _ _) eqn:Es; unfold put_object, set_scheduler, request in Hrun; stub_run Hrun.
  - by apply consume_ok.
  - apply host_ok_request; [done|apply Hset|]. intros c [= <-].
    by apply (blocked_object _ _ _ o Eo), (signaled_now_object (h_state h)).
Qed.

Lemma update_consume_ok s h tid : host_ok s -> settled s ->
  host_ok (with_scheduler s (update_object (scheduler s) h (fun o => consume_signal_if_auto_reset o tid))).
Proof.
  intros Hok Hset. unfold update_object. destruct (objects _ !! _) eqn:E; [by apply consume_ok|].
  by apply (host_ok_frame _ _ Hok).
Qed.

Lemma position_None l : position l = None -> Forall (fun b => b = false) l.
Proof.
  induction l as [|[] l IH]; [constructor|done|]. cbn. destruct (position l); [done|].
  intros _. constructor; [done|by apply IH].
Qed.

Lemma signaled_or_unknown_false s h : signaled_or_unknown s h = false -> unsignaled (objects (scheduler s)) h.
Proof. unfold signaled_or_unknown. destruct (objects _ !! h) as [o|] eqn:E; [by exists o|done]. Qed.

Lemma not_all_signaled s hs : forallb (fun x => x) (List.map (signaled_or_unknown s) hs) = false ->
  Exists (unsignaled (objects (scheduler s))) hs.
Proof.
  induction hs as [|h hs IH]; [done|]. cbn [List.map forallb]. intros [Hh|Hh]%andb_false_iff; [left|right; by apply IH].
  by apply signaled_or_unknown_false.
Qed.

Lemma wait_for_multiple_objects_ok cpu : preserves (stub_wait_for_multiple_objects cpu).
Proof.
  intros h h' v Hok Hset Hroom Hrun. unfold stub_wait_for_multiple_objects in Hrun. stub_run Hrun.
  case_match; [stub_run Hrun; done|]. stub_run Hrun. unfold request, set_scheduler in Hrun.
  destruct (a1 =? 0) eqn:Ea; cbn [negb] in Hrun.
  - destruct (position _) as [idx|] eqn:Ep; stub_run Hrun; [by apply update_consume_ok|].
    apply host_ok_request; [done|apply Hset|]. intros c [= <-]. apply Forall_forall. intros hd Hin.
    apply position_None in Ep. rewrite Forall_map, Forall_forall in Ep. apply signaled_or_unknown_false, (Ep hd Hin).
  - destruct (forallb _ _) eqn:Eall; stub_run Hrun.
    + assert (forall l s, host_ok s -> settled s -> host_ok (with_scheduler s (fold_left (fun sc hd =>
        update_object sc hd (fun o => consume_signal_if_auto_reset o (active_tid (h_state h)))) l (scheduler s)))) as Hfold.
      { induction l as [|hd l IH]; intros s Hs1 Hs2; [by apply (host_ok_frame _ _ Hs1)|]. cbn [fold_left].
        apply (IH (with_scheduler s (update_object (scheduler s) hd
          (fun o => consume_signal_if_auto_reset o (active_tid (h_state h)))))); [by apply update_consume_ok|done]. }
      by apply Hfold.
    + apply host_ok_request; [done|apply Hset|]. intros c [= <-]. cbn [blocked]. by apply not_all_signaled.
Qed.

(** * Threads and processes *)

Lemma switch_to_thread_ok cpu : preserves (stub_switch_to_thread cpu).
Proof.
  intros h h' v Hok Hset Hroom Hrun. unfold stub_switch_to_thread, request in Hrun. stub_run Hrun.
  case_match; stub_run Hrun; [by apply host_ok_request; [|apply Hset|]|done].
Qed.

Lemma exit_thread_ok cpu : preserves (stub_exit_thread cpu).
Proof.
  intros h h' v Hok Hset Hroom Hrun. unfold stub_exit_thread, request in Hrun. stub_run Hrun.
  by apply host_ok_request; [|apply Hset|].
Qed.

Lemma set_thread_priority_ok cpu : preserves (stub_set_thread_priority cpu).
Proof.
  intros h h' v Hok Hset Hroom Hrun. unfold stub_set_thread_priority in Hrun. stub_run Hrun.
  destruct (objects _ !! _) as [[]|]; stub_run Hrun0; try done.
  apply host_ok_update; [done|]. intros t _. unfold keeps. cbn. split; [split_and!; auto|by left].
Qed.

Lemma resume_thread_ok cpu : preserves (stub_resume_thread cpu).
Proof.
  intros h h' v Hok Hset Hroom Hrun. unfold stub_resume_thread in Hrun. stub_run Hrun.
  destruct (objects _ !! _) as [[]|]; try (stub_run Hrun; done).
  destruct (threads _ !! _) as [t|] eqn:Et; [|stub_run Hrun; done].
  destruct (is_status Suspended t) eqn:Es; stub_run Hrun; [|done].
  apply is_status_spec in Es. apply host_ok_update; [done|]. intros u Eu. rewrite Et in Eu. injection Eu as <-.
  unfold keeps. cbn. split; [|by left]. rewrite Es. split_and!; try done. intros ->. done.
Qed.

(** Processes gain exit codes or pools; none goes away. *)
Lemma host_ok_process s pid f : host_ok s -> host_ok (update_process s pid f).
Proof.
  intros Hok. rewrite update_process_alter. apply (host_ok_frame _ _ Hok); try done.
  intros p Hp. cbn. destruct (decide (p = pid)) as [->|].
  - rewrite lookup_alter_eq. by apply fmap_is_Some.
  - by rewrite lookup_alter_ne.
Qed.

Lemma exit_process_ok cpu : preserves (stub_exit_process cpu).
Proof.
  intros h h' v Hok Hset Hroom Hrun. unfold stub_exit_process in Hrun. stub_run Hrun.
  by apply host_ok_process.
Qed.

Lemma wake_all_ok s hs : host_ok s -> host_ok (fold_left wake_waiters hs s).
Proof.
  intros Hok. rewrite wake_all_eq. apply (host_ok_threads s _ (fun _ => woken hs) Hok).
  - intros k. by rewrite lookup_fmap.
  - intros k t Et. unfold woken, waits_any. destruct (is_status Waiting t) eqn:Es; cbn [andb].
    + apply is_status_spec in Es. case_match; unfold keeps; cbn; [split; [by split_and!|by right]|].
      split; [split_and!; auto|by left].
    + unfold keeps. split; [split_and!; auto|by left].
Qed.

Lemma terminate_process_ok cpu : preserves (stub_terminate_process cpu).
Proof.
  intros h h' v Hok Hset Hroom Hrun. unfold stub_terminate_process in Hrun. stub_run Hrun.
  case_match; [stub_run Hrun; done|]. stub_run Hrun.
  set (pid := if a =? 0xFFFFFFFF then _ else _) in *.
  assert (host_ok (fold_left wake_waiters (handles_where (update_process (h_state h) pid
    (fun p => with_process_exit p (Some a0) (exit_requested p))) (is_process_object pid))
    (update_process (h_state h) pid (fun p => with_process_exit p (Some a0) (exit_requested p))))) as Hok1
    by by apply wake_all_ok, host_ok_process.
  case_match; stub_run Hrun0; [by apply host_ok_process|done].
Qed.

(** Steps that touch processes and memory only. *)
Definition pools_only (s s' : HostState) : Prop :=
  threads s' = threads s /\ active_tid s' = active_tid s /\ active_pid s' = active_pid s /\
  next_tid s' = next_tid s /\ scheduler s' = scheduler s /\ yield_requested s' = yield_requested s /\
  forall pid, is_Some (processes s !! pid) -> is_Some (processes s' !! pid).

Lemma pools_only_update s pid f : pools_only s (update_process s pid f).
Proof.
  rewrite update_process_alter. split_and!; try done. intros p Hp. cbn.
  destruct (decide (p = pid)) as [->|]; [rewrite lookup_alter_eq; by apply fmap_is_Some|by rewrite lookup_alter_ne].
Qed.

Lemma pools_only_ok s s' : pools_only s s' -> host_ok s -> host_ok s'.
Proof.
  intros (E1 & E2 & E3 & E4 & E5 & E6 & Hp) Hok. apply (host_ok_frame _ _ Hok); try done; by rewrite E5.
Qed.

Lemma pools_only_trans s1 s2 s3 : pools_only s1 s2 -> pools_only s2 s3 -> pools_only s1 s3.
Proof.
  intros (E1 & E2 & E3 & E4 & E5 & E6 & Hp) (F1 & F2 & F3 & F4 & F5 & F6 & Hq).
  split_and!; try congruence. auto.
Qed.

Lemma store_unchecked_ok x y h h' u : store_unchecked x y h = (h', Ok u) -> h_state h' = h_state h.
Proof. unfold store_unchecked. destruct (store32 _ _ _) as [m [| |]]; intros [= <-]; done. Qed.

Lemma reserve_tib_ok h h' a : reserve_tib h = (h', Ok a) -> pools_only (h_state h) (h_state h').
Proof.
  unfold reserve_tib. intros Hrun. stub_run Hrun. case_match; [|stub_run Hrun; by split_and!].
  stub_run Hrun. apply store_unchecked_ok in Hrun1. apply store_unchecked_ok in Hrun3.
  injection Hrun2 as <- _. rewrite Hrun3, Hrun1. apply pools_only_update.
Qed.

Lemma push_arg_ok nm c x h h' c' : push_arg nm c x h = (h', Ok c') -> h_state h' = h_state h.
Proof.
  unfold push_arg. destruct (push32 c x) as [c1 st]. intros Hrun. stub_run Hrun.
  by apply store_ok in Hrun0.
Qed.

Lemma create_thread_ok cpu : preserves (stub_create_thread cpu).
Proof.
  intros h h' v Hok Hset Hroom Hrun. unfold stub_create_thread in Hrun. stub_run Hrun.
  case_match; [stub_run Hrun; done|]. stub_run Hrun. case_match; [by apply stub_lift_ok in Hrun as [_ ?]|].
  stub_run Hrun. apply reserve_tib_ok in Hrun1. apply push_arg_ok in Hrun2. apply push_arg_ok in Hrun3.
  set (s1 := update_process _ _ _) in *.
  assert (pools_only (h_state h) (h_state h2)) as Hp.
  { rewrite Hrun3, Hrun2. eapply pools_only_trans; [|exact Hrun1]. apply pools_only_update. }
  pose proof (pools_only_ok _ _ Hp Hok) as Hok2. destruct Hp as (E1 & E2 & E3 & E4 & E5 & E6 & _).
  destruct Hroom as [Hroom1 Hroom2].
  assert (host_ok (add_thread (h_state h2) (new_thread (next_tid (h_state h2)) (t_pid a9) a6 a8
    (negb (Z.land a3 CREATE_SUSPENDED =? 0))))) as Hok3.
  { apply host_ok_add_thread; [done|by rewrite E4|done| |by eexists|done|by unfold new_thread; cbn; destruct (negb _); [right|left]].
    unfold cur_thread in Hrun4. destruct (threads _ !! _) as [t|] eqn:Et; [|done]. injection Hrun4 as <-.
    by apply (ok_ids _ (h_threads _ Hok2) _ _ Et). }
  destruct (insert_object _ _) as [hd sc] eqn:Ei. stub_run Hrun.
  apply (host_ok_insert _ _ _ _ Hok3) in Ei as [Hok4 _]; [|cbn; by rewrite E5|done].
  assert (h_state h3 = with_scheduler (add_thread (h_state h2) (new_thread (next_tid (h_state h2)) (t_pid a9) a6 a8
    (negb (Z.land a3 CREATE_SUSPENDED =? 0)))) sc) as ->; [|done].
  destruct (negb (a4 =? 0)); [by apply store_ok in Hrun5|by stub_run Hrun5].
Qed.
End preserve.
