(* ===== verification/WaitRun.v ===== *)
(** The run loop keeps the scheduler's invariant when the stubs are the
    synchronization calls (Threads.v, WaitStubs.v). *)

From S2P Require Import Prelude Regs Mmu Sched Threads ThreadsInv WaitApi WaitInv WaitStubs.

Section phases.
Context `{CpuRest}.

(** * Scheduling keeps waits *)

Definition same_waits (s s' : HostState) : Prop :=
    next_tid s' = next_tid s /\ scheduler s' = scheduler s /\ yield_requested s' = yield_requested s /\
  forall k, wait <$> threads s' !! k = wait <$> threads s !! k.

Lemma same_waits_ok s s' : host_ok s -> threads_ok s' -> same_waits s s' ->
  (yield_requested s <> None -> forall t, threads s' !! active_tid s' = Some t -> wait t = None) -> host_ok s'.
Proof.
  intros Hok Ht (E1 & E2 & E3 & Hw) Hact. destruct Hok. split; rewrite ?E1, ?E2, ?E3; try done.
  - intros k [t E]. apply h_tids. specialize (Hw k). rewrite E in Hw. destruct (threads s !! k); [by eexists|done].
  - intros k t c E Hc. specialize (Hw k). rewrite E in Hw. destruct (threads s !! k) as [u|] eqn:Eu; [|done].
    injection Hw as Hw. apply (h_waits k u c Eu). congruence.
Qed.

Lemma same_waits_trans s1 s2 s3 : same_waits s1 s2 -> same_waits s2 s3 -> same_waits s1 s3.
Proof. unfold same_waits. intros (-> & -> & -> & H1) (-> & -> & -> & H2). split_and!; try done. intros k. by rewrite H2. Qed.

Lemma same_waits_update s k f : (forall t, wait (f t) = wait t) -> same_waits s (update_thread s k f).
Proof.
  intros Hf. rewrite update_thread_alter. split_and!; try done. intros j. cbn.
  destruct (decide (j = k)) as [->|]; [|by rewrite lookup_alter_ne].
  rewrite lookup_alter_eq. destruct (threads s !! k); [|done]. cbn. by rewrite Hf.
Qed.

Lemma same_waits_mut {E} s f s' : cur_thread_mut (E:=E) s f = Ok s' -> (forall t, wait (f t) = wait t) ->
  same_waits s s'.
Proof.
  intros Hm Hf. pose proof (same_waits_update s (active_tid s) f Hf) as Hs. unfold update_thread in Hs.
  unfold cur_thread_mut, cur_thread in Hm. destruct (threads s !! active_tid s); [|done]. by injection Hm as <-.
Qed.

Lemma schedule_waits {E} cpu s cpu' s' : schedule_next_thread (E:=E) cpu s = Ok (cpu', s') -> same_waits s s'.
Proof.
  unfold schedule_next_thread. destruct (pick_next s (active_tid s)) as [n|].
  - set (s1 := update_thread s (active_tid s) (fun t => with_parked t (Some cpu))).
    assert (same_waits s s1) as H1 by by apply same_waits_update.
    set (f := fun t : ThreadState => with_status (with_parked t None) Running).
    assert (same_waits s1 (update_thread s1 n f)) as H2 by by apply same_waits_update.
    destruct (threads s1 !! n) as [t|]; intros [= _ <-].
    + eapply same_waits_trans; [exact H1|]. eapply same_waits_trans; [exact H2|]. by case_match.
    + exact H1.
  - destruct (match threads s !! active_tid s with Some t => _ | None => _ end); [|by intros [= _ <-]].
    intros H1. apply res_bind_ok in H1 as (s1 & H1 & [= _ <-]). by apply (same_waits_mut _ _ _ H1).
Qed.

Lemma context_of_schedule {E} cpu s : threads_ok s ->
  (forall t, threads s !! active_tid s = Some t -> status t <> Running) ->
  forall cpu' s', schedule_next_thread (E:=E) cpu s = Ok (cpu', s') ->
  threads_ok s' /\ chosen s (active_tid s') /\
  (forall tid, context cpu' s' tid = context cpu s tid) /\
  (forall k, status <$> threads s' !! k = scheduled_status (active_tid s') k <$> (status <$> threads s !! k)).
Proof.
  intros Hok Hnr cpu' s' Hs. destruct (schedule_ok (E:=E) cpu s Hok Hnr) as (c & s2 & E2 & H1 & H2 & H3 & H4 & _).
  rewrite Hs in E2. by injection E2 as <- <-.
Qed.

Lemma host_ok_schedule {E} cpu s cpu' s' : host_ok s ->
  (forall t, threads s !! active_tid s = Some t -> status t <> Running) ->
  schedule_next_thread (E:=E) cpu s = Ok (cpu', s') -> host_ok s'.
Proof.
  intros Hok Hnr Hs. destruct (context_of_schedule cpu s (h_threads s Hok) Hnr cpu' s' Hs) as (Ht & Hch & _).
  pose proof (schedule_waits cpu s cpu' s' Hs) as Hsw. apply (same_waits_ok s); [done..|].
  intros Hy t Et. destruct Hsw as (_ & _ & _ & Hw). specialize (Hw (active_tid s')). rewrite Et in Hw.
  destruct Hch as [(u & (Eu & _ & Hr) & _)|[En _]].
  - rewrite Eu in Hw. injection Hw as ->. destruct (wait u) eqn:Ewu; [|done].
    assert (status u = Waiting) by (apply (ok_wait s (h_threads s Hok) _ u Eu); by rewrite Ewu). congruence.
  - rewrite En in *. destruct (threads s !! active_tid s) as [u|] eqn:Eu; [|done]. injection Hw as ->.
    by apply (h_active s Hok).
Qed.

(** * The phases of an iteration *)

(** The active thread changes, to something that does not run. *)
Lemma host_ok_active {E} s f s' : host_ok s -> cur_thread_mut (E:=E) s f = Ok s' ->
  (forall t, threads s !! active_tid s = Some t -> keeps s (active_tid s) t (f t) /\
     (forall c, wait (f t) = Some c -> blocked (objects (scheduler s)) c) /\
     (yield_requested s <> None -> wait (f t) = None)) -> host_ok s'.
Proof.
  intros Hok Hm Hf. unfold cur_thread_mut, cur_thread in Hm.
  destruct (threads s !! active_tid s) as [a|] eqn:Ea; [|done]. injection Hm as <-.
  destruct (Hf a eq_refl) as (Hk & Hb & Hn).
  pose (g := fun k => if decide (k = active_tid s) then f else id).
  assert (forall k, (<[active_tid s := f a]> (threads s)) !! k = g k <$> threads s !! k) as Hg.
  { intros k. unfold g. destruct (decide (k = active_tid s)) as [->|].
    - by rewrite lookup_insert_eq, Ea.
    - by rewrite lookup_insert_ne, option_fmap_id. }
  destruct (threads_ok_change s (with_threads s (<[active_tid s := f a]> (threads s))) g
    (h_threads s Hok) eq_refl eq_refl Hg (fun _ H => H)) as [Ht _].
  { intros k t Et. unfold g. destruct (decide (k = active_tid s)) as [->|].
    - rewrite Ea in Et. by injection Et as <-.
    - unfold keeps. cbn. split_and!; auto. }
  split; cbn; try by destruct Hok.
  - intros k [t E']. apply (h_tids s Hok). rewrite Hg in E'. destruct (threads s !! k); [by eexists|done].
  - intros k t c E' Hw. apply lookup_insert_Some in E' as [[<- <-]|[_ E']]; [by apply Hb|by apply (h_waits s Hok k t)].
  - intros Hy t. rewrite lookup_insert_eq. intros [= <-]. by apply Hn.
Qed.

Lemma host_ok_terminated s tid : host_ok s -> host_ok (on_thread_terminated s tid).
Proof.
  intros Hok. unfold on_thread_terminated. destruct (threads s !! tid); [|done]. case_match; [done|].
  by apply wake_all_ok, wake_all_ok, host_ok_process.
Qed.

Lemma terminated_status s tid k t : threads s !! k = Some t -> status t <> Running ->
  forall t', threads (on_thread_terminated s tid) !! k = Some t' -> status t' <> Running.
Proof.
  intros E Hs t'. destruct (threads s !! tid) as [u|] eqn:Eu;
    [|rewrite on_thread_terminated_missing by done; rewrite E; by intros [= <-]].
  destruct (on_thread_terminated_eq s tid u Eu) as [[_ ->]|[_ ->]]; [rewrite E; by intros [= <-]|].
  cbn. rewrite lookup_fmap, E. intros [= <-]. unfold woken. case_match; done.
Qed.

(** What [handle_yield] does to the active thread before it schedules. *)
Definition requested (s : HostState) (req : YieldRequest) : HostState :=
  match req with
  | Wait c => update_thread s (active_tid s) (fun t => with_wait (with_status t Waiting) (Some c))
  | Yield => update_thread s (active_tid s) (fun t => with_status t Ready)
  | Exit _ => on_thread_terminated
      (update_thread s (active_tid s) (fun t => with_wait (with_status t Terminated) None)) (active_tid s)
  end.

Lemma cur_thread_mut_update {E} s f : threads_ok s ->
  cur_thread_mut (E:=E) s f = Ok (update_thread s (active_tid s) f).
Proof.
  intros Hok. destruct (ok_active s Hok) as (a & Ea & _). unfold cur_thread_mut, cur_thread, update_thread.
  by rewrite Ea.
Qed.

Lemma handle_yield_eq {E} cpu s req : threads_ok s ->
  handle_yield (E:=E) cpu s req = schedule_next_thread cpu (requested s req).
Proof.
  intros Hok. unfold handle_yield, requested. destruct req; by rewrite cur_thread_mut_update.
Qed.

(** Setting the status and the wait of the active thread. *)
Lemma active_change s f a : threads_ok s -> threads s !! active_tid s = Some a ->
  keeps s (active_tid s) a (f a) ->
  threads_ok (update_thread s (active_tid s) f) /\
  threads (update_thread s (active_tid s) f) !! active_tid s = Some (f a) /\
  forall cpu tid, context cpu (update_thread s (active_tid s) f) tid = context cpu s tid.
Proof.
  intros Hok Ea Hk. rewrite update_thread_alter.
  pose (g := fun k => if decide (k = active_tid s) then f else id).
  assert (forall k, threads (with_threads s (alter f (active_tid s) (threads s))) !! k = g k <$> threads s !! k) as Hg.
  { intros k. cbn. unfold g. destruct (decide (k = active_tid s)) as [->|]; [by rewrite lookup_alter_eq|].
    by rewrite lookup_alter_ne, option_fmap_id. }
  destruct (threads_ok_change s (with_threads s (alter f (active_tid s) (threads s))) g Hok eq_refl eq_refl Hg
    (fun _ H => H)) as [Ht Hc].
  { intros k t Et. unfold g. destruct (decide (k = active_tid s)) as [->|]; [by simplify_eq|].
    unfold keeps. cbn. split_and!; auto. }
  split_and!; [done| |done]. cbn. by rewrite lookup_alter_eq, Ea.
Qed.

Lemma terminated_change s tid : threads_ok s ->
  threads_ok (on_thread_terminated s tid) /\ active_tid (on_thread_terminated s tid) = active_tid s /\
  (forall k t, threads s !! k = Some t -> exists t', threads (on_thread_terminated s tid) !! k = Some t' /\
     (status t' = Running -> status t = Running)) /\
  forall cpu k, context cpu (on_thread_terminated s tid) k = context cpu s k.
Proof.
  intros Hok. destruct (threads s !! tid) as [u|] eqn:Eu;
    [|rewrite on_thread_terminated_missing by done; naive_solver].
  destruct (on_thread_terminated_eq s tid u Eu) as [[_ ->]|[_ ->]]; [naive_solver|].
  set (s' := with_threads _ _).
  destruct (threads_ok_change s s' (fun _ => woken (death_handles s tid (t_pid u))) Hok eq_refl eq_refl) as [Ht Hc].
  - intros k. cbn. by rewrite lookup_fmap.
  - intros p Hp. cbn. destruct (decide (p = t_pid u)) as [->|];
      [rewrite lookup_alter_eq; by apply fmap_is_Some|by rewrite lookup_alter_ne].
  - intros k t _. unfold woken, keeps. case_match; cbn; split_and!; auto; [done|].
    intros _. split; [by intros [? ?]|done].
  - split_and!; [done|done| |done]. intros k t E. cbn. rewrite lookup_fmap, E. eexists. split; [done|].
    unfold woken. case_match; done.
Qed.

(** The requested change of a consistent state: consistent, with the same
    registers, and nothing running. *)
Lemma requested_ok s req : threads_ok s -> (forall t, threads s !! active_tid s = Some t -> wait t = None) ->
  threads_ok (requested s req) /\ active_tid (requested s req) = active_tid s /\
  (forall t, threads (requested s req) !! active_tid s = Some t -> status t <> Running) /\
  forall cpu tid, context cpu (requested s req) tid = context cpu s tid.
Proof.
  intros Hok Hw. destruct (ok_active s Hok) as (a & Ea & _). specialize (Hw a Ea). destruct req as [c| |code].
  - destruct (active_change s (fun t => with_wait (with_status t Waiting) (Some c)) a Hok Ea) as (H1 & H2 & H3);
      [unfold keeps; cbn; by split_and!|].
    unfold requested. split_and!; [done|by rewrite update_thread_alter|rewrite H2; by intros ? [= <-]|done].
  - destruct (active_change s (fun t => with_status t Ready) a Hok Ea) as (H1 & H2 & H3).
    { unfold keeps. cbn. rewrite Hw. by split_and!. }
    unfold requested. split_and!; [done|by rewrite update_thread_alter|rewrite H2; by intros ? [= <-]|done].
  - destruct (active_change s (fun t => with_wait (with_status t Terminated) None) a Hok Ea) as (H1 & H2 & H3).
    { unfold keeps. cbn. by split_and!. }
    destruct (terminated_change _ (active_tid s) H1) as (H4 & H5 & H6 & H7). unfold requested.
    split_and!; [done|by rewrite H5, update_thread_alter| |intros; by rewrite H7].
    intros t Et Hr. destruct (H6 _ _ H2) as (t' & Et' & Hr'). rewrite Et in Et'. injection Et' as <-.
    by apply Hr' in Hr.
Qed.

Lemma host_ok_requested s req : host_ok s -> yield_requested s = None ->
  (forall t, threads s !! active_tid s = Some t -> wait t = None) ->
  (forall c, req = Wait c -> blocked (objects (scheduler s)) c) -> host_ok (requested s req).
Proof.
  intros Hok Hy Hw Hreq.
  assert (forall f s2, cur_thread_mut (E:=unit) s f = Ok s2 -> s2 = update_thread s (active_tid s) f) as Hmut.
  { intros f s2. rewrite cur_thread_mut_update by apply (h_threads s Hok). by intros [= ->]. }
  assert (forall f, (forall t, threads s !! active_tid s = Some t -> keeps s (active_tid s) t (f t) /\
    (forall c, wait (f t) = Some c -> blocked (objects (scheduler s)) c)) ->
    host_ok (update_thread s (active_tid s) f)) as Hup.
  { intros f Hf. apply (host_ok_active (E:=unit) s f); [done|by apply cur_thread_mut_update, (h_threads s Hok)|].
    intros t Et. destruct (Hf t Et). split_and!; done. }
  destruct req as [c| |code]; unfold requested; [| |apply host_ok_terminated]; apply Hup; intros t Et;
    specialize (Hw t Et); (split; [unfold keeps; cbn; rewrite ?Hw; by split_and!|cbn]).
  - intros ? [= <-]. by apply Hreq.
  - by rewrite Hw.
  - done.
Qed.

(** * The theorems on one switch *)

(** C19: a context switch loses nothing and picks the right thread. From a
    consistent state whose active thread is not already waiting, a yield
    request is carried out without panicking: the active thread waits, is ready
    or is terminated as asked; the thread that runs next is the ready one of
    highest priority and, among equals, lowest number, or the same thread when
    no other is ready; the live registers are its registers; every other
    thread has its own registers, unchanged; and the state is consistent, with
    at most the active thread running and waits exactly on waiting threads. *)
Theorem yield_switches cpu s req :
  threads_ok s -> (forall t, threads s !! active_tid s = Some t -> wait t = None) ->
  exists cpu' s', handle_yield (E:=Win32Error) cpu s req = Ok (cpu', s') /\ threads_ok s' /\
    chosen (requested s req) (active_tid s') /\
    (forall tid, context cpu' s' tid = context cpu s tid) /\
    forall k, status <$> threads s' !! k =
      scheduled_status (active_tid s') k <$> (status <$> threads (requested s req) !! k).
Proof.
  intros Hok Hw. destruct (requested_ok s req Hok Hw) as (H1 & H2 & H3 & H4). rewrite <- H2 in H3.
  destruct (schedule_ok (E:=Win32Error) cpu (requested s req) H1 H3) as (cpu' & s' & E1 & H5 & H6 & H7 & H8 & _).
  exists cpu', s'. rewrite handle_yield_eq, E1 by done. split_and!; try done. intros tid. by rewrite H7.
Qed.

(** The thread waits on a handle of the thread or of the process. *)
Definition notified (s : HostState) (tid pid : Z) (u : ThreadState) : Prop :=
  status u = Waiting /\ exists h o, waits_for (wait u) h = true /\
    objects (scheduler s) !! h = Some o /\ (o = Process pid \/ o = Thread tid).

Lemma notified_spec s tid pid u : waits_any (death_handles s tid pid) u = true <-> notified s tid pid u.
Proof.
  unfold waits_any, notified, death_handles. rewrite andb_true_iff, is_status_spec, existsb_exists.
  split; intros [Hs Hh]; (split; [done|]).
  - destruct Hh as (h & Hin%list_elem_of_In & Hw). apply elem_of_app in Hin.
    rewrite !elem_of_handles_where in Hin. destruct Hin as [(o & Eo & Hp)|(o & Eo & Hp)]; exists h, o.
    + split_and!; [done|done|]. left. destruct o; try done. cbn in Hp. f_equal. lia.
    + split_and!; [done|done|]. right. destruct o; try done. cbn in Hp. f_equal. lia.
  - destruct Hh as (h & o & Hw & Eo & Ho). exists h. split; [|done]. apply list_elem_of_In, elem_of_app.
    rewrite !elem_of_handles_where. destruct Ho as [-> | ->]; [left|right]; eexists; (split; [done|cbn; lia]).
Qed.

(** C31: who learns of the end of a thread. When the last thread of a process ends
    the process gets exit code 0 unless it has one, and exactly the threads
    waiting on a handle of the process or of that thread become ready, their
    waits cleared. While another thread of the process is alive nothing
    happens at all: in particular a thread of the same process that waits for
    the ended thread is not woken. *)
Theorem thread_end s tid t :
  threads s !! tid = Some t ->
  let s' := on_thread_terminated s tid in
  scheduler s' = scheduler s /\ active_tid s' = active_tid s /\
  (process_alive s (t_pid t) -> s' = s) /\
  (~ process_alive s (t_pid t) ->
   (forall pid, processes s' !! pid =
      (if decide (pid = t_pid t) then exited <$> processes s !! pid else processes s !! pid)) /\
   forall k u, threads s !! k = Some u -> exists u', threads s' !! k = Some u' /\
     (notified s tid (t_pid t) u -> u' = make_ready u) /\ (~ notified s tid (t_pid t) u -> u' = u)) /\
  forall k u h, threads s !! k = Some u -> t_pid u = t_pid t -> status u = Waiting ->
    waits_for (wait u) h = true -> objects (scheduler s) !! h = Some (Thread tid) ->
    threads s' !! k = Some u.
Proof.
  intros E s'. destruct (on_thread_terminated_eq s tid t E) as [[Ha Es]|[Ha Es]]; fold s' in Es.
  - rewrite Es. split_and!; [done|done|done|done|]. intros k u h Eu _ _ _ _. done.
  - split_and!; [by rewrite Es|by rewrite Es|done| |].
    + intros _. split.
      * intros pid. rewrite Es. cbn. destruct (decide (pid = t_pid t)) as [->|];
          [by rewrite lookup_alter_eq|by rewrite lookup_alter_ne].
      * intros k u Eu. exists (woken (death_handles s tid (t_pid t)) u). split.
        { rewrite Es. cbn. by rewrite lookup_fmap, Eu. }
        unfold woken. rewrite <- notified_spec. by destruct (waits_any _ u).
    + intros k u h Eu Hp Hs _ _. destruct Ha. exists k, u. by rewrite Hs.
Qed.
End phases.

Section loop.
Context `{MA : Machine}.

(** Numbers are not used up between two calls. *)
Definition same_numbers (s s' : HostState) : Prop :=
  next_tid s' = next_tid s /\
  next_handle_index (scheduler s') = next_handle_index (scheduler s).

Lemma same_numbers_trans s1 s2 s3 : same_numbers s1 s2 -> same_numbers s2 s3 -> same_numbers s1 s3.
Proof. unfold same_numbers. intros [-> ->] [-> ->]. done. Qed.

Lemma same_waits_numbers s s' : same_waits s s' -> same_numbers s s'.
Proof. unfold same_numbers. by intros (-> & -> & _). Qed.

Lemma requested_numbers s req : same_numbers s (requested s req) /\
  yield_requested (requested s req) = yield_requested s.
Proof.
  unfold requested. destruct req; rewrite ?update_thread_alter; [done|done|].
  set (s1 := with_threads s _). destruct (threads s1 !! active_tid s) as [u|] eqn:Eu;
    [|by rewrite on_thread_terminated_missing].
  by destruct (on_thread_terminated_eq s1 (active_tid s) u Eu) as [[_ ->]|[_ ->]].
Qed.

Lemma on_thread_terminated_numbers s tid : same_numbers s (on_thread_terminated s tid).
Proof.
  destruct (threads s !! tid) as [u|] eqn:Eu; [|by rewrite on_thread_terminated_missing].
  by destruct (on_thread_terminated_eq s tid u Eu) as [[_ ->]|[_ ->]].
Qed.

(** The invariant at the head of the loop, and with an active thread that runs. *)
Definition running_ok (s : HostState) : Prop :=
  host_ok s /\ settled s /\ exists t, threads s !! active_tid s = Some t /\ is_runnable t = true.

Lemma honour_yield_ok w w' : host_ok (w_host w) -> honour_yield w = Ok w' ->
  host_ok (w_host w') /\ yield_requested (w_host w') = None /\ same_numbers (w_host w) (w_host w').
Proof.
  intros Hok. unfold honour_yield. destruct (yield_requested (w_host w)) as [req|] eqn:Ey; [|by intros [= <-]].
  intros H1. apply res_bind_ok in H1 as ([c s] & H1 & [= <-]). cbn [w_host with_host].
  set (s0 := with_yield (w_host w) None) in *.
  assert (forall t, threads s0 !! active_tid s0 = Some t -> wait t = None) as Hact.
  { apply (h_active _ Hok). by rewrite Ey. }
  assert (host_ok s0) as Hok0 by by apply host_ok_request.
  rewrite handle_yield_eq in H1 by apply (h_threads _ Hok0).
  destruct (requested_ok s0 req (h_threads _ Hok0) Hact) as (_ & Ea & Hnr & _).
  pose proof (schedule_waits _ _ _ _ H1) as Hsw. destruct (requested_numbers s0 req) as [Hn Ey0].
  split_and!.
  - rewrite <- Ea in Hnr. refine (host_ok_schedule _ _ _ _ _ Hnr H1). apply host_ok_requested; try done.
    intros c0 ->. by apply (h_pending _ Hok).
  - destruct Hsw as (_ & _ & -> & _). by rewrite Ey0.
  - eapply same_numbers_trans; [exact Hn|by apply same_waits_numbers].
Qed.

Lemma active_tid_update s k f : active_tid (update_thread s k f) = active_tid s.
Proof. by rewrite update_thread_alter. Qed.

(** A runnable thread does not wait. *)
Lemma runnable_no_wait s k t : threads_ok s -> threads s !! k = Some t -> is_runnable t = true -> wait t = None.
Proof.
  intros Hok E Hr. destruct (wait t) eqn:Ew; [|done].
  assert (status t = Waiting) as Hs by (apply (ok_wait s Hok k t E); by rewrite Ew).
  unfold is_runnable, is_status in Hr. by rewrite Hs in Hr.
Qed.

Lemma wake_sleep_ok s : host_ok s -> host_ok (wake_sleep_if_due s).
Proof.
  intros Hok. unfold wake_sleep_if_due. cbv zeta. set (f := fun t : ThreadState => _).
  apply (host_ok_threads s _ (fun _ => f) Hok); [intros k; by rewrite lookup_fmap|].
  intros k t _. assert (keeps s k t t /\ (wait t = wait t \/ wait t = None)) as Hid
    by (unfold keeps; split; [split_and!; auto|by left]).
  unfold f. destruct (sleep_target t); [|done]. case_match; [|done].
  unfold keeps. cbn. split; [by split_and!|by right].
Qed.

Lemma nudge_ok w w' : host_ok (w_host w) -> yield_requested (w_host w) = None -> nudge w = Ok w' ->
  running_ok (w_host w') /\ same_numbers (w_host w) (w_host w').
Proof.
  intros Hok Hy H1. unfold nudge in H1. apply res_bind_ok in H1 as (t & Ht & H1).
  assert (threads (w_host w) !! active_tid (w_host w) = Some t) as Et.
  { unfold cur_thread in Ht. destruct (_ !! _); [by injection Ht as ->|done]. }
  destruct (is_runnable t) eqn:Hr.
  { injection H1 as <-. split; [|done]. split; [done|]. split; [|by exists t]. split.
    - intros c. by rewrite Hy.
    - intros u Eu. rewrite Et in Eu. injection Eu as <-. by apply (runnable_no_wait _ _ _ (h_threads _ Hok) Et). }
  apply res_bind_ok in H1 as (w1 & H1 & H2).
  assert (host_ok (w_host w1) /\ yield_requested (w_host w1) = None /\ same_numbers (w_host w) (w_host w1))
    as (Hok1 & Hy1 & Hn1).
  { destruct (earliest_sleep_resume _) as [e|]; [|by injection H1 as <-].
    apply res_bind_ok in H1 as ([c s] & H1 & [= <-]). cbn [w_host with_host].
    set (s0 := with_scheduler (w_host w) _) in *.
    assert (host_ok s0) as Hok0 by by apply (host_ok_frame _ _ Hok).
    pose proof (wake_sleep_ok s0 Hok0) as Hok1. pose proof (schedule_waits _ _ _ _ H1) as Hsw.
    split; [|split].
    - refine (host_ok_schedule _ _ _ _ Hok1 _ H1). intros u Eu Hru.
      unfold wake_sleep_if_due in Eu. cbn in Eu. rewrite lookup_fmap, Et in Eu. injection Eu as <-.
      destruct (status t) eqn:Es; try (unfold is_runnable, is_status in Hr; rewrite Es in Hr; done);
        destruct (sleep_target t); try congruence; case_match; try done; congruence.
    - by destruct Hsw as (_ & _ & -> & _).
    - by apply same_waits_numbers in Hsw. }
  apply res_bind_ok in H2 as (u & Hu & H2).
  assert (threads (w_host w1) !! active_tid (w_host w1) = Some u) as Eu.
  { unfold cur_thread in Hu. destruct (_ !! _); [by injection Hu as ->|done]. }
  destruct (is_runnable u) eqn:Hru; cbn [negb] in H2; [|done].
  apply res_bind_ok in H2 as (s & Hs & [= <-]). cbn [w_host with_host].
  rewrite cur_thread_mut_update in Hs by apply (h_threads _ Hok1). injection Hs as <-.
  assert (wait u = None) as Hwu by by apply (runnable_no_wait _ _ _ (h_threads _ Hok1) Eu).
  assert (keeps (w_host w1) (active_tid (w_host w1)) u (with_status u Running)) as Hk.
  { unfold keeps. cbn. rewrite Hwu. split_and!; try done. by right. }
  destruct (active_change _ (fun t => with_status t Running) u (h_threads _ Hok1) Eu Hk) as (_ & Et1 & _).
  split; [split; [|split]|].
  - apply host_ok_update; [done|]. intros v Ev. rewrite Eu in Ev. injection Ev as <-. split; [done|by left].
  - split; [intros c; rewrite update_thread_alter; cbn; by rewrite Hy1|]. rewrite active_tid_update, Et1.
    by intros v [= <-].
  - exists (with_status u Running). by rewrite active_tid_update.
  - by rewrite update_thread_alter.
Qed.

Lemma finish_thread_ok w w' : running_ok (w_host w) -> finish_thread w = Ok w' ->
  host_ok (w_host w') /\ same_numbers (w_host w) (w_host w').
Proof.
  intros (Hok & [Hset Hact] & t & Et & Hr) H1. unfold finish_thread in H1.
  rewrite cur_thread_mut_update in H1 by apply (h_threads _ Hok). cbn [mbind res_bind] in H1.
  apply res_bind_ok in H1 as ([c s] & H1 & [= <-]). cbn [w_host with_host].
  assert (keeps (w_host w) (active_tid (w_host w)) t (with_status t Terminated)) as Hk.
  { unfold keeps. cbn. rewrite (Hact t Et). by split_and!. }
  destruct (active_change _ (fun t => with_status t Terminated) t (h_threads _ Hok) Et Hk) as (Ht & Et1 & _).
  set (s1 := update_thread _ _ _) in *.
  assert (host_ok s1) as Hok1.
  { apply host_ok_update; [done|]. intros u Eu. rewrite Et in Eu. injection Eu as <-. split; [done|by left]. }
  destruct (terminated_change s1 (active_tid (w_host w)) Ht) as (_ & Ea & Hst & _).
  pose proof (schedule_waits _ _ _ _ H1) as Hsw. split.
  - refine (host_ok_schedule _ _ _ _ (host_ok_terminated _ _ Hok1) _ H1).
    rewrite Ea. assert (active_tid s1 = active_tid (w_host w)) as -> by apply active_tid_update. intros u Eu Hru.
    destruct (Hst _ _ Et1) as (u' & Eu' & Hr'). rewrite Eu in Eu'. injection Eu' as <-. by apply Hr' in Hru.
  - apply same_waits_numbers in Hsw. refine (same_numbers_trans _ _ _ _ Hsw).
    refine (same_numbers_trans _ s1 _ _ (on_thread_terminated_numbers _ _)).
    unfold s1. by rewrite update_thread_alter.
Qed.

Lemma at_sentinel_ok w w' : running_ok (w_host w) -> at_sentinel w = Ok w' ->
  host_ok (w_host w') /\ same_numbers (w_host w) (w_host w').
Proof.
  intros Hok. unfold at_sentinel. case_match; [done|]. intros H1. apply res_bind_ok in H1 as (w1 & H1 & H2).
  assert (w' = w1) as ->; [|by apply finish_thread_ok].
  case_match; [|by injection H2]. apply res_bind_ok in H2 as (t & _ & H2). case_match; [done|by injection H2].
Qed.

Lemma charge_ok w w' : running_ok (w_host w) -> charge w = Ok w' ->
  running_ok (w_host w') /\ same_numbers (w_host w) (w_host w').
Proof.
  intros (Hok & Hset & Hr). unfold charge. intros H1. apply res_bind_ok in H1 as (b & _ & [= <-]).
  split; [|done]. split; [by apply (host_ok_frame _ _ Hok)|]. by split.
Qed.

Lemma preempt_ok w w' : running_ok (w_host w) -> preempt w = Ok w' ->
  host_ok (w_host w') /\ settled (w_host w') /\ same_numbers (w_host w) (w_host w') /\
  exists t, threads (w_host w') !! active_tid (w_host w') = Some t /\ is_runnable t = true.
Proof.
  intros (Hok & [Hset Hact] & t & Et & Hr) H1. unfold preempt in H1. apply res_bind_ok in H1 as (t' & _ & H1).
  rewrite cur_thread_mut_update in H1 by apply (h_threads _ Hok). cbn [mbind res_bind] in H1.
  injection H1 as <-. set (f := fun t : ThreadState => _).
  assert (keeps (w_host w) (active_tid (w_host w)) t (f t)) as Hk by (unfold keeps, f; cbn; split_and!; auto).
  destruct (active_change _ f t (h_threads _ Hok) Et Hk) as (Ht & Et1 & _). set (s1 := update_thread _ _ _) in *.
  assert (host_ok s1) as Hok1.
  { apply host_ok_update; [done|]. intros u Eu. rewrite Et in Eu. injection Eu as <-. split; [done|by left]. }
  assert (active_tid s1 = active_tid (w_host w)) as Ea by (unfold s1; apply active_tid_update).
  assert (yield_requested s1 = yield_requested (w_host w)) as Ey by (unfold s1; by rewrite update_thread_alter).
  assert (forall u, threads s1 !! active_tid s1 = Some u -> wait u = None) as Hact1.
  { intros u. rewrite Ea, Et1. intros [= <-]. exact (Hact t Et). }
  assert (same_numbers (w_host w) s1) as Hn by (unfold s1; by rewrite update_thread_alter).
  cbn [w_host with_host]. destruct (_ && _).
  - split; [by apply host_ok_request|]. split; [split; [by intros c [=]|exact Hact1]|]. split; [done|]. exists (f t). cbn.
    by rewrite Ea, Et1.
  - split; [done|]. split; [split; [intros c; rewrite Ey; apply Hset|exact Hact1]|].
    split; [done|]. exists (f t). by rewrite Ea, Et1.
Qed.
End loop.

(** * The whole loop *)

(** The stubs that are modelled. *)
Definition sync_calls `{CpuRest} : list (Cpu -> Stub Z) :=
  [stub_create_event_a; stub_set_event; stub_reset_event; stub_create_mutex_a; stub_release_mutex;
   stub_create_semaphore_a; stub_release_semaphore; stub_enter_critical_section;
   stub_leave_critical_section; stub_try_enter_critical_section; stub_sleep;
   stub_wait_for_single_object; stub_wait_for_multiple_objects; stub_switch_to_thread;
   stub_exit_thread; stub_set_thread_priority; stub_resume_thread; stub_exit_process;
   stub_terminate_process; stub_create_thread].

Lemma sync_calls_ok `{CpuRest} f cpu : f ∈ sync_calls -> preserves (f cpu).
Proof.
  intros Hf. unfold sync_calls in Hf.
  repeat (apply elem_of_cons in Hf as [->|Hf]; [eauto using create_event_ok, set_event_ok, reset_event_ok,
    create_mutex_ok, release_mutex_ok, create_semaphore_ok, release_semaphore_ok, enter_critical_section_ok,
    leave_critical_section_ok, try_enter_critical_section_ok, sleep_ok, wait_for_single_object_ok,
    wait_for_multiple_objects_ok, switch_to_thread_ok, exit_thread_ok, set_thread_priority_ok,
    resume_thread_ok, exit_process_ok, terminate_process_ok, create_thread_ok|]).
  by apply elem_of_nil in Hf.
Qed.

(** A machine whose stubs change the host only through these calls, and whose
    interrupts leave threads and objects alone. *)
Class SyncMachine `{MA : Machine} : Prop := {
  dispatch_sync c m r s c' m' r' s' : dispatch_stub c m r s = (c', m', r', s', Ok tt) ->
    s' = s \/ exists f cpu h' v, f ∈ sync_calls /\
      f cpu {| h_mmu := m; h_state := s |} = (h', Ok v) /\ s' = h_state h';
  interrupt_sync n c m s c' m' s' : service_interrupt n c m s = (c', m', s', true) -> pools_only s s';
}.

Section whole.
Context `{SM : SyncMachine}.

(** Iterations that go on, while there are numbers for new objects and threads. *)
Inductive runs : World -> World -> Prop :=
| runs_refl w : runs w w
| runs_step w w1 w2 : room (w_host w) -> iterate w = Ok w1 -> runs w1 w2 -> runs w w2.

Lemma iterate_ok w w' : host_ok (w_host w) -> room (w_host w) -> iterate w = Ok w' -> host_ok (w_host w').
Proof.
  intros Hok Hroom H1. unfold iterate in H1. apply res_bind_ok in H1 as (w1 & H1 & H2).
  destruct (honour_yield_ok w w1 Hok H1) as (Hok1 & Hy1 & N1).
  apply res_bind_ok in H2 as (w2 & H2 & H3). destruct (nudge_ok w1 w2 Hok1 Hy1 H2) as (Hok2 & N2).
  apply res_bind_ok in H3 as (ex & _ & H3). destruct ex; [discriminate H3|].
  destruct (_ =? _); [by apply (at_sentinel_ok w2)|].
  apply res_bind_ok in H3 as (w3 & H3 & H4). destruct (charge_ok w2 w3 Hok2 H3) as (Hok3 & N3).
  apply res_bind_ok in H4 as (w4 & H4 & H5). destruct (preempt_ok w3 w4 Hok3 H4) as (Hok4 & Hset4 & N4 & Hr4).
  assert (room (w_host w4)) as Hroom4.
  { pose proof (same_numbers_trans _ _ _ N1 (same_numbers_trans _ _ _ N2 (same_numbers_trans _ _ _ N3 N4))) as [E1 E2].
    unfold room. by rewrite E1, E2. }
  unfold execute in H5. destruct (is_thunk _ _).
  - destruct (dispatch_stub _ _ _ _) as [[[[c m] r] s] o] eqn:Ed. destruct o as [[]| |]; [|done|done].
    injection H5 as <-. cbn [w_host]. apply dispatch_sync in Ed as [->|(f & cpu & h' & v & Hf & Hrun & ->)]; [done|].
    by apply (sync_calls_ok f cpu Hf {| h_mmu := w_mmu w4; h_state := w_host w4 |} h' v).
  - destruct (step _ _) as [[c m] [[]|t|]] eqn:Es; [by injection H5 as <-| | |done].
    + case_match; [done|]. apply finish_thread_ok in H5 as [H5 _]; [done|]. by split_and!.
    + destruct t; try done. destruct (service_interrupt _ _ _ _) as [[[c' m'] s] []] eqn:Ei; [|done].
      injection H5 as <-. apply interrupt_sync in Ei. by apply (pools_only_ok _ _ Ei).
Qed.

(** C18: the guest scheduler stays consistent, and nobody sleeps beside an object
    it could take. Along every run whose stubs are the synchronization calls
    and whose interrupts leave threads and objects alone ([SyncMachine]), as
    long as numbers for one more handle and one more thread are left at the
    head of each iteration ([room], in [runs]): the thread table is consistent
    (one active thread with the live registers, everyone else parked, only the
    active one running, waits exactly on waiting threads); the handles in use
    come from the counter, so a new object gets one that no object has; a mutex
    or critical section has an owner exactly when it is entered; each critical
    section's handle stands for its own address; and a thread that waits waits
    for something ([blocked]): for one object, that it cannot be taken (an
    event not set, a mutex or critical section with an owner, a semaphore at
    0); for any of several, that none of them can; for all of several, that
    one of them cannot. Threads and processes are no part of the last claim:
    their ends do not count there, and a wait for them can miss the end
    ([thread_end]). *)
Theorem guest_scheduler_invariant w w' :
  host_ok (w_host w) -> runs w w' -> host_ok (w_host w').
Proof.
  intros Hok Hr. induction Hr as [|w w1 w2 Hroom Hi Hr IH]; [done|]. apply IH.
  by apply (iterate_ok w w1).
Qed.
End whole.

(** * Examples *)

Lemma host_default_ok `{CpuRest} : host_ok host_default.
Proof.
  assert (forall k t, threads host_default !! k = Some t -> k = 1 /\ t = thread_new 1 1) as Hinv.
  { intros k t. cbn. rewrite lookup_singleton_Some. naive_solver. }
  split; try done.
  - split.
    + exists (thread_new 1 1). cbn. by rewrite lookup_singleton_eq.
    + intros k t [-> ->]%Hinv Hk. by destruct Hk.
    + intros k t [-> ->]%Hinv. done.
    + intros k t [-> ->]%Hinv. split; [by intros [? ?]|done].
    + intros k t [-> ->]%Hinv. split; [done|]. cbn. rewrite lookup_singleton_eq. by eexists.
  - intros k [t [-> ->]%Hinv]. cbn. lia.
  - intros k t c [-> ->]%Hinv. done.
Qed.

(** A machine that calls [SwitchToThread] for ever. *)
Definition sync_rest : CpuRest := {| Rest := unit; rest_new := tt |}.

Definition sync_machine : @Machine sync_rest :=
  {| PeError := unit; Registry := unit; is_thunk := fun _ _ => true;
     dispatch_stub := fun c m r s =>
       let '(h, res) := @stub_switch_to_thread sync_rest c {| h_mmu := m; h_state := s |} in
       (c, h_mmu h, r, h_state h, match res with Ok _ => Ok tt | Err e => Err (EWin32 e) | Panic => Panic end);
     step := fun c m => (c, m, Ok Continued);
     service_interrupt := fun _ c m s => (c, m, s, false) |}.

Lemma sync_machine_ok : @SyncMachine sync_rest sync_machine.
Proof.
  split; [|by intros * [=]]. intros c m r s c' m' r' s' Hd. right.
  exists stub_switch_to_thread, c. unfold dispatch_stub, sync_machine in Hd.
  destruct (@stub_switch_to_thread sync_rest c {| h_mmu := m; h_state := s |}) as [h res] eqn:E.
  destruct res as [v| |]; [|done|done]. injection Hd as _ _ _ <-. exists h, v. split; [|done].
  apply (list_elem_of_lookup_2 _ 13). reflexivity.
Qed.

Definition sync_world : @World sync_rest sync_machine :=
  @Build_World sync_rest sync_machine (@cpu_new sync_rest) Mmu.new tt (@host_default sync_rest).

Definition sync_next : @World sync_rest sync_machine :=
  match @iterate sync_rest sync_machine sync_world with Ok w => w | _ => sync_world end.

Lemma guest_scheduler_invariant_witness :
  @host_ok sync_rest (w_host sync_world) /\ @runs sync_rest sync_machine sync_world sync_next /\
  @host_ok sync_rest (w_host sync_next) /\
  instructions_executed (w_host sync_next) = 1.
Proof.
  assert (@host_ok sync_rest (w_host sync_world)) as H1 by exact (@host_default_ok sync_rest).
  assert (@runs sync_rest sync_machine sync_world sync_next) as H2.
  { apply (@runs_step sync_rest sync_machine sync_world sync_next).
    - split; reflexivity.
    - unfold sync_next. assert (exists w, iterate sync_world = Ok w) as [w ->]; [|reflexivity].
      destruct (iterate sync_world) as [w| |] eqn:E; [by exists w|vm_compute in E; discriminate E..].
    - apply runs_refl. }
  split; [exact H1|]. split; [exact H2|].
  split; [exact (@guest_scheduler_invariant sync_rest sync_machine sync_machine_ok sync_world sync_next H1 H2)|].
  vm_compute. reflexivity.
Defined.

(** Thread 1 waits for thread 2 of its own process through handle 0x6B000000. *)
Definition join_state : @HostState sync_rest :=
  with_threads (with_scheduler host_default (insert_object scheduler_new (Thread 2)).2)
    {[1 := with_wait (with_status (thread_new 1 1) Waiting) (Some (Object 0x6B000000 None));
      2 := with_status (thread_new 2 1) Terminated]}.

Lemma thread_end_witness :
  threads join_state !! 2 = Some (with_status (thread_new 2 1) Terminated) /\
  threads (on_thread_terminated join_state 2) !! 1 = threads join_state !! 1.
Proof.
  assert (threads join_state !! 2 = Some (with_status (thread_new 2 1) Terminated)) as H by reflexivity.
  split; [exact H|]. destruct (@thread_end sync_rest join_state 2 _ H) as (_ & _ & _ & _ & Hjoin).
  rewrite (Hjoin 1 (with_wait (with_status (thread_new 1 1) Waiting) (Some (Object 0x6B000000 None))) 0x6B000000);
    reflexivity.
Defined.

Lemma yield_switches_witness :
  threads_ok (@host_default sync_rest) /\
  exists cpu' s', handle_yield (E:=Win32Error) cpu_new (@host_default sync_rest) Yield = Ok (cpu', s') /\
    threads_ok s' /\ active_tid s' = 1.
Proof.
  assert (threads_ok (@host_default sync_rest)) as H by exact (h_threads _ (@host_default_ok sync_rest)).
  split; [exact H|].
  destruct (@yield_switches sync_rest cpu_new host_default Yield H) as (c & s & E & Hs & _).
  - intros t Et. vm_compute in Et. injection Et as <-. reflexivity.
  - exists c, s. split; [exact E|]. split; [exact Hs|]. vm_compute in E. injection E as <- <-. reflexivity.
Defined.
