(* ===== verification/Ssa.v ===== *)
(** SSA construction and liveness (src/src/ir/ssa.rs), over any instruction
    type and any classification of its reads and writes. A block number or a
    length is a [nat], an address a [Z]; the vectors the functions index have
    one entry per block. A [Vec] used as a stack has its top first. The loops
    and recursions take fuel, [OutOfFuel] marks its end; the functions of the
    source have no errors of their own. *)

From S2P Require Import Prelude Common Ir.

(** * Data *)

Inductive Var : Type :=
| Reg (name : list byte)
| Stack (offset : Z)
| Memory.

#[export] Instance Var_eq_dec : EqDecision Var.
Proof. solve_decision. Defined.

#[export] Instance Var_countable : Countable Var :=
  inj_countable'
    (fun v => match v with Reg s => inl (inl (u8 <$> s)) | Stack o => inl (inr o) | Memory => inr tt end)
    (fun x => match x with inl (inl s) => Reg (byte_of <$> s) | inl (inr o) => Stack o | inr _ => Memory end)
    (fun v => match v with
              | Reg s => f_equal Reg (eq_trans (eq_sym (list_fmap_compose u8 byte_of s))
                           (eq_trans (list_fmap_ext _ id _ (fun _ b _ => byte_of_u8 b)) (list_fmap_id s)))
              | Stack _ | Memory => eq_refl
              end).

(** A [u32]. *)
Abbreviation DefId := Z.

Inductive DefSite : Type :=
| Insn (ip : Z)
| Phi (block : VAddr) (incoming : list DefId)
| Entry.

Record DefRecord : Type := { d_var : Var; site : DefSite; uses : list Z }.

Record SsaInfo : Type := {
  defs : list DefRecord;
  use_at : gmap (Z * Var) DefId;
  def_at : gmap (Z * Var) DefId;
}.

Definition ssa_default : SsaInfo := {| defs := []; use_at := ∅; def_at := ∅ |}.

Definition def_reaching (ssa : SsaInfo) (ip : Z) (v : Var) : option DefId := use_at ssa !! (ip, v).

Definition def_record (ssa : SsaInfo) (d : DefId) : option DefRecord := defs ssa !! Z.to_nat d.

Definition use_count (ssa : SsaInfo) (d : DefId) : Z :=
  match def_record ssa d with Some r => len (uses r) | None => 0 end.

Definition uses_of (ssa : SsaInfo) (d : DefId) : list Z :=
  match def_record ssa d with Some r => uses r | None => [] end.

Definition def_var (ssa : SsaInfo) (d : DefId) : option Var := d_var <$> def_record ssa d.

Definition def_site (ssa : SsaInfo) (d : DefId) : option DefSite := site <$> def_record ssa d.

Record Liveness : Type := {
  live_in : list (gset Var);
  live_out : list (gset Var);
  live_after_insn : gmap Z (gset Var);
}.

Definition liveness_default : Liveness :=
  {| live_in := []; live_out := []; live_after_insn := ∅ |}.

(** One instruction: its address, what it reads, what it writes. *)
Abbreviation InsnRw := (Z * list Var * list Var)%type.
Abbreviation BlockRw := (list (list InsnRw)).

(** A stack of definitions per variable. *)
Abbreviation Stacks := (gmap Var (list DefId)).

Inductive Stuck : Type := OutOfFuel.

(** [HashMap] and [HashSet] give their entries in an unspecified order. *)
Class HashOrder := {
  set_order : forall {A : Type} `{Countable A}, gset A -> list A;
  map_order : forall {K A : Type} `{Countable K}, gmap K A -> list (K * A);
  set_order_perm : forall {A : Type} `{Countable A} (X : gset A), set_order X ≡ₚ elements X;
  map_order_perm : forall {K A : Type} `{Countable K} (m : gmap K A), map_order m ≡ₚ map_to_list m;
}.

(** [v[i]] of a vector of sets, of lists, of optional numbers. *)
Definition set_at {A} `{Countable A} (l : list (gset A)) (i : nat) : gset A := default ∅ (l !! i).
Definition list_at {A} (l : list (list A)) (i : nat) : list A := default [] (l !! i).
Definition opt_at {A} (l : list (option A)) (i : nat) : option A := default None (l !! i).

Definition enumerate {A} (l : list A) : list (nat * A) := zip (seq 0 (length l)) l.

(** * The control-flow graph *)

Section cfg.
Context {I : Type} `{!ArchInsn I}.

(** The [HashMap] of block addresses; the last of equal addresses stays. *)
Definition block_index (f : Function I) : gmap Z nat :=
  fold_left (fun m '(i, b) => <[bb_addr b := i]> m) (enumerate (blocks f)) ∅.

Definition block_successors {E} (block : BasicBlock I) (idx : gmap Z nat) : res E (list nat) :=
  match terminator block with
  | Fallthrough =>
      next ← usize_add (bb_addr block) (wrap64 (block_size block));
      Ok (option_list (idx !! next))
  | UnconditionalBranch target => Ok (option_list (idx !! target))
  | ConditionalBranch taken fallthrough =>
      Ok (option_list (idx !! fallthrough) ++ option_list (idx !! taken))
  | Return | IndirectBranch | InvalidOrUnreachable => Ok []
  end.

(** The successors of every block. [build_ssa] asks for them in three places,
    the first time for all blocks; they are handed on here. *)
Definition successors {E} (f : Function I) : res E (list (list nat)) :=
  mapM_res (fun b => block_successors b (block_index f)) (blocks f).

Definition collect_reads_writes (f : Function I) (rw : I -> list Var * list Var) : BlockRw :=
  List.map (fun b => List.map (fun i => (addr i, (rw i).1, (rw i).2)) (insns b)) (blocks f).
End cfg.

Definition compute_predecessors (succs : list (list nat)) : list (list nat) :=
  fold_left (fun preds '(i, ss) =>
      fold_left (fun preds s => alter (fun l => l ++ [i]) s preds) ss preds)
    (enumerate succs) (replicate (length succs) []).

(** * Liveness *)

(** (killed, use, def) *)
Definition use_def_insn (st : gset Var * gset Var * gset Var) (x : InsnRw) : gset Var * gset Var * gset Var :=
  let '(killed, u, d) := st in
  let '(_, reads, writes) := x in
  let u := fold_left (fun u r => if decide (r ∈ killed) then u else u ∪ {[r]}) reads u in
  let killed := fold_left (fun k w => k ∪ {[w]}) writes killed in
  let d := fold_left (fun d w => d ∪ {[w]}) writes d in
  (killed, u, d).

(** [use[B]] and [def[B]] *)
Definition use_def (brw : list InsnRw) : gset Var * gset Var :=
  let '(_, u, d) := fold_left use_def_insn brw (∅, ∅, ∅) in (u, d).

(** (live_in, live_out, changed) *)
Abbreviation LiveState := (list (gset Var) * list (gset Var) * bool)%type.

Definition live_step (succs : list (list nat)) (ud : list (gset Var * gset Var))
    (st : LiveState) (b : nat) : LiveState :=
  let '(lin, lout, changed) := st in
  let new_out := ⋃ (List.map (set_at lin) (list_at succs b)) in
  let '(use_, def_) := default (∅, ∅) (ud !! b) in
  let new_in := use_ ∪ (new_out ∖ def_) in
  let '(lin, changed) :=
    if decide (new_in = set_at lin b) then (lin, changed) else (<[b := new_in]> lin, true) in
  let '(lout, changed) :=
    if decide (new_out = set_at lout b) then (lout, changed) else (<[b := new_out]> lout, true) in
  (lin, lout, changed).

Fixpoint live_loop (fuel : nat) (succs : list (list nat)) (ud : list (gset Var * gset Var))
    (lin lout : list (gset Var)) : res Stuck (list (gset Var) * list (gset Var)) :=
  match fuel with
  | O => Err OutOfFuel
  | S fuel =>
      let '(lin, lout, changed) :=
        fold_left (live_step succs ud) (reverse (seq 0 (length succs))) (lin, lout, false) in
      if (changed : bool) then live_loop fuel succs ud lin lout else Ok (lin, lout)
  end.

(** One instruction of the loop over a block backwards from [live_out]. *)
Definition live_after_step (st : gmap Z (gset Var) * gset Var) (x : InsnRw) : gmap Z (gset Var) * gset Var :=
  let '(m, live) := st in
  let '(ip, reads, writes) := x in
  let m := <[ip := live]> m in
  let live := fold_left (fun l w => l ∖ {[w]}) writes live in
  let live := fold_left (fun l r => l ∪ {[r]}) reads live in
  (m, live).

Definition live_after (lout : gset Var) (brw : list InsnRw) (m : gmap Z (gset Var)) : gmap Z (gset Var) :=
  (fold_left live_after_step (reverse brw) (m, lout)).1.

(** Every round but the last adds a variable to a set of a block. *)
Definition live_fuel (brw : BlockRw) : nat :=
  let vars := length (List.concat (List.map (fun '(_, r, w) => r ++ w) (List.concat brw))) in
  S (2 * length brw * vars).

Definition compute_liveness {I} `{!ArchInsn I} (f : Function I) (rw : I -> list Var * list Var)
    : res Stuck Liveness :=
  match blocks f with
  | [] => Ok liveness_default
  | _ =>
      let block_rw := collect_reads_writes f rw in
      let n := length (blocks f) in
      let ud := List.map use_def block_rw in
      succs ← successors f;
      '(lin, lout) ← live_loop (live_fuel block_rw) succs ud (replicate n ∅) (replicate n ∅);
      Ok {| live_in := lin; live_out := lout;
            live_after_insn :=
              fold_left (fun m '(b, brw) => live_after (set_at lout b) brw m) (enumerate block_rw) ∅ |}
  end.

(** * Dominators *)

(** (visited, post) *)
Fixpoint rpo_dfs (fuel : nat) (succs : list (list nat)) (st : list bool * list nat) (b : nat)
    : res Stuck (list bool * list nat) :=
  match fuel with
  | O => Err OutOfFuel
  | S fuel =>
      visited ← or_panic (st.1 !! b);
      if (visited : bool) then Ok st
      else
        '(visited, post) ← foldM (rpo_dfs fuel succs) (<[b := true]> st.1, st.2) (list_at succs b);
        Ok (visited, post ++ [b])
  end.

Definition reverse_postorder (succs : list (list nat)) : res Stuck (list nat) :=
  '(_, post) ← rpo_dfs (S (length succs)) succs (replicate (length succs) false, []) O;
  Ok (reverse post).

(** The order of [Option]: [None] is the least. *)
Definition opt_gt (x y : option nat) : bool :=
  match x, y with
  | Some a, Some b => (b <? a)%nat
  | Some _, None => true
  | None, _ => false
  end.

(** [while rpo_index.get(&f) > rpo_index.get(&g) { f = dom[f].unwrap_or(f) }] *)
Fixpoint climb (fuel : nat) (dom : list (option nat)) (rpo_index : gmap nat nat) (f g : nat) : res Stuck nat :=
  match fuel with
  | O => Err OutOfFuel
  | S fuel =>
      if opt_gt (rpo_index !! f) (rpo_index !! g)
      then climb fuel dom rpo_index (default f (opt_at dom f)) g
      else Ok f
  end.

Fixpoint intersect_loop (fuel : nat) (dom : list (option nat)) (rpo_index : gmap nat nat) (f1 f2 : nat)
    : res Stuck nat :=
  match fuel with
  | O => Err OutOfFuel
  | S fuel =>
      if decide (f1 = f2) then Ok f1
      else
        f1 ← climb (S (length dom)) dom rpo_index f1 f2;
        f2 ← climb (S (length dom)) dom rpo_index f2 f1;
        if decide (f1 = O /\ f2 = O) then Ok O
        else intersect_loop fuel dom rpo_index f1 f2
  end.

Definition intersect (b1 b2 : nat) (dom : list (option nat)) (rpo_index : gmap nat nat) : res Stuck nat :=
  intersect_loop (S (length dom)) dom rpo_index b1 b2.

Definition dom_step (preds : list (list nat)) (rpo_index : gmap nat nat)
    (st : list (option nat) * bool) (b : nat) : res Stuck (list (option nat) * bool) :=
  let '(dom, changed) := st in
  match base.filter (fun p => is_Some (opt_at dom p)) (list_at preds b) with
  | [] => Ok (dom, changed)
  | p :: ps =>
      new_idom ← foldM (fun x p => intersect x p dom rpo_index) p ps;
      if decide (opt_at dom b = Some new_idom) then Ok (dom, changed)
      else Ok (<[b := Some new_idom]> dom, true)
  end.

Fixpoint dom_loop (fuel : nat) (preds : list (list nat)) (rpo : list nat) (rpo_index : gmap nat nat)
    (dom : list (option nat)) : res Stuck (list (option nat)) :=
  match fuel with
  | O => Err OutOfFuel
  | S fuel =>
      '(dom, changed) ← foldM (dom_step preds rpo_index) (dom, false) (tail rpo);
      if (changed : bool) then dom_loop fuel preds rpo rpo_index dom else Ok dom
  end.

(** Block number to rank. *)
Definition rank_of (rpo : list nat) : gmap nat nat :=
  fold_left (fun m '(rank, b) => <[b := rank]> m) (enumerate rpo) ∅.

(** A round more than blocks is enough, see [compute_dominators_exact]. *)
Definition compute_dominators (succs preds : list (list nat)) : res Stuck (list nat) :=
  let n := length succs in
  let dom := <[O := Some O]> (replicate n None) in
  rpo ← reverse_postorder succs;
  dom ← dom_loop (S n) preds rpo (rank_of rpo) dom;
  Ok (List.map (default O) dom).

Definition nat_at (l : list nat) (i : nat) : nat := default O (l !! i).

(** [while runner != dom[b] { .. }] *)
Fixpoint frontier_walk (fuel : nat) (dom : list nat) (b runner : nat) (df : list (gset nat))
    : res Stuck (list (gset nat)) :=
  match fuel with
  | O => Err OutOfFuel
  | S fuel =>
      if decide (runner = nat_at dom b) then Ok df
      else
        let df := alter (fun s => s ∪ {[b]}) runner df in
        let next := nat_at dom runner in
        if decide (next = runner) then Ok df else frontier_walk fuel dom b next df
  end.

Definition compute_dominance_frontiers (preds : list (list nat)) (dom : list nat)
    : res Stuck (list (gset nat)) :=
  let n := length dom in
  foldM (fun df b =>
      if (length (list_at preds b) <? 2)%nat then Ok df
      else foldM (fun df p => frontier_walk (S n) dom b p df) df (list_at preds b))
    (replicate n ∅) (seq 0 n).

Definition invert_dom_tree (dom : list nat) : list (list nat) :=
  fold_left (fun children '(b, idom) =>
      if decide (b = idom) then children else alter (fun l => l ++ [b]) idom children)
    (enumerate dom) (replicate (length dom) []).

(** * Phi placement *)

Section ssa.
Context `{HO : HashOrder}.

Definition def_blocks (block_rw : BlockRw) : gmap Var (gset nat) :=
  fold_left (fun m '(bi, brw) =>
      fold_left (fun m (x : InsnRw) =>
          fold_left (fun m w => <[w := default ∅ (m !! w) ∪ {[bi]}]> m) x.2 m) brw m)
    (enumerate block_rw) ∅.

Record Placing : Type := {
  worklist : list nat;
  placed : gset nat;
  in_worklist : gset nat;
  phi_blocks : gmap Var (gset nat);
}.

(** [for &y in &df[b]] *)
Definition place_at (var : Var) (st : Placing) (y : nat) : Placing :=
  if decide (y ∈ placed st) then st
  else
    let phis := <[var := default ∅ (phi_blocks st !! var) ∪ {[y]}]> (phi_blocks st) in
    if decide (y ∈ in_worklist st) then
      {| worklist := worklist st; placed := placed st ∪ {[y]}; in_worklist := in_worklist st;
         phi_blocks := phis |}
    else
      {| worklist := y :: worklist st; placed := placed st ∪ {[y]};
         in_worklist := in_worklist st ∪ {[y]}; phi_blocks := phis |}.

Fixpoint place_loop (fuel : nat) (df : list (gset nat)) (var : Var) (st : Placing) : res Stuck Placing :=
  match worklist st with
  | [] => Ok st
  | b :: rest =>
      match fuel with
      | O => Err OutOfFuel
      | S fuel =>
          let st := {| worklist := rest; placed := placed st; in_worklist := in_worklist st;
                       phi_blocks := phi_blocks st |} in
          place_loop fuel df var (fold_left (place_at var) (set_order (set_at df b)) st)
      end
  end.

(** Each block enters a worklist once. *)
Definition place_phis (df : list (gset nat)) (block_rw : BlockRw) : res Stuck (gmap Var (gset nat)) :=
  foldM (fun phis '(var, ds) =>
      st ← place_loop (length df) df var
             {| worklist := reverse (set_order ds); placed := ∅; in_worklist := ds; phi_blocks := phis |};
      Ok (phi_blocks st))
    ∅ (map_order (def_blocks block_rw)).

Definition collect_all_vars (rw : BlockRw) (phi_blocks : gmap Var (gset nat)) : gset Var :=
  let out := fold_left (fun out brw =>
      fold_left (fun out (x : InsnRw) => fold_left (fun o v => o ∪ {[v]}) (x.1.2 ++ x.2) out) brw out)
    rw ∅ in
  fold_left (fun out '(var, _) => out ∪ {[var]}) (map_order phi_blocks) out.

(** * Renaming *)

Definition alloc_def (ssa : SsaInfo) (var : Var) (s : DefSite) : DefId * SsaInfo :=
  (wrap32 (len (defs ssa)),
   {| defs := defs ssa ++ [{| d_var := var; site := s; uses := [] |}];
      use_at := use_at ssa; def_at := def_at ssa |}).

(** [stacks.entry(var).or_default().push(id)] *)
Definition push (st : Stacks) (v : Var) (d : DefId) : Stacks := <[v := d :: default [] (st !! v)]> st.

(** [defs[d].uses.push(ip)] *)
Definition add_use (ssa : SsaInfo) (d : DefId) (ip : Z) : res Stuck SsaInfo :=
  r ← or_panic (def_record ssa d);
  Ok {| defs := <[Z.to_nat d := {| d_var := d_var r; site := site r; uses := uses r ++ [ip] |}]> (defs ssa);
        use_at := use_at ssa; def_at := def_at ssa |}.

Definition rename_read (ip : Z) (stacks : Stacks) (ssa : SsaInfo) (r : Var) : res Stuck SsaInfo :=
  match stacks !! r with
  | Some (top :: _) =>
      add_use {| defs := defs ssa; use_at := <[(ip, r) := top]> (use_at ssa); def_at := def_at ssa |} top ip
  | _ => Ok ssa
  end.

Definition rename_write (ip : Z) (st : SsaInfo * Stacks) (w : Var) : SsaInfo * Stacks :=
  let '(ssa, stacks) := st in
  let '(id, ssa) := alloc_def ssa w (Insn ip) in
  ({| defs := defs ssa; use_at := use_at ssa; def_at := <[(ip, w) := id]> (def_at ssa) |},
   push stacks w id).

Definition rename_insn (st : SsaInfo * Stacks) (x : InsnRw) : res Stuck (SsaInfo * Stacks) :=
  let '(ip, reads, writes) := x in
  ssa ← foldM (rename_read ip st.2) st.1 reads;
  Ok (fold_left (rename_write ip) writes (ssa, st.2)).

Definition push_phis (b : nat) (phi_def_at : gmap (nat * Var) DefId) (stacks : Stacks) : Stacks :=
  fold_left (fun st '((bi, var), d) => if decide (bi = b) then push st var d else st)
    (map_order phi_def_at) stacks.

(** [while stk.len() > target_len { stk.pop(); }] on every stack. *)
Definition pop_to (snapshot : gmap Var nat) (stacks : Stacks) : Stacks :=
  map_imap (fun v stk => Some (drop (length stk - default O (snapshot !! v)) stk)) stacks.

Fixpoint rename_dfs (fuel : nat) (dom_children : list (list nat)) (phi_def_at : gmap (nat * Var) DefId)
    (rw : BlockRw) (st : SsaInfo * Stacks) (b : nat) : res Stuck (SsaInfo * Stacks) :=
  match fuel with
  | O => Err OutOfFuel
  | S fuel =>
      let snapshot := @length DefId <$> st.2 in
      st ← foldM rename_insn (st.1, push_phis b phi_def_at st.2) (list_at rw b);
      st ← foldM (rename_dfs fuel dom_children phi_def_at rw) st (list_at dom_children b);
      Ok (st.1, pop_to snapshot st.2)
  end.

(** * The values a phi joins *)

Section fill.
Context {I : Type} `{!ArchInsn I}.

(** The definitions a block ends with. *)
Definition last_defs (ssa : SsaInfo) (block : BasicBlock I) : gmap Var DefId :=
  fold_left (fun last insn =>
      fold_left (fun last '((iip, var), did) => if iip =? addr insn then <[var := did]> last else last)
        (map_order (def_at ssa)) last)
    (insns block) ∅.

Definition exit_defs (ssa : SsaInfo) (f : Function I) : gmap (nat * Var) DefId :=
  fold_left (fun m '(b, block) =>
      fold_left (fun m '(var, did) => <[(b, var) := did]> m) (map_order (last_defs ssa block)) m)
    (enumerate (blocks f)) ∅.

Definition entry_defs (ssa : SsaInfo) : gmap Var DefId :=
  fold_left (fun m '(i, r) =>
      match site r with Entry => <[d_var r := wrap32 (Z.of_nat i)]> m | _ => m end)
    (enumerate (defs ssa)) ∅.

(** The last read of a variable in a block, for [rev().find_map(..)]. *)
Definition last_use (ssa : SsaInfo) (block : BasicBlock I) (var : Var) : option DefId :=
  fold_right (fun insn acc => match acc with Some d => Some d | None => use_at ssa !! (addr insn, var) end)
    None (insns block).

Definition incoming_def (ssa : SsaInfo) (f : Function I) (var : Var) (p : nat) : DefId :=
  default 0
    (match exit_defs ssa f !! (p, var) with
     | Some d => Some d
     | None =>
         match blocks f !! p ≫= (fun block => last_use ssa block var) with
         | Some d => Some d
         | None => entry_defs ssa !! var
         end
     end).

Definition set_incoming (ssa : SsaInfo) (d : DefId) (inc : list DefId) : res Stuck SsaInfo :=
  r ← or_panic (def_record ssa d);
  Ok (match site r with
      | Phi block _ =>
          {| defs := <[Z.to_nat d := {| d_var := d_var r; site := Phi block inc; uses := uses r |}]> (defs ssa);
             use_at := use_at ssa; def_at := def_at ssa |}
      | _ => ssa
      end).

Definition fill_phi_incoming (ssa : SsaInfo) (phi_def_at : gmap (nat * Var) DefId)
    (preds : list (list nat)) (f : Function I) : res Stuck SsaInfo :=
  foldM (fun s '((bi, var), phi_id) =>
      set_incoming s phi_id (List.map (incoming_def ssa f var) (list_at preds bi)))
    ssa (map_order phi_def_at).

(** * The whole construction *)

Definition alloc_entry (st : SsaInfo * Stacks) (var : Var) : SsaInfo * Stacks :=
  let '(id, ssa) := alloc_def st.1 var Entry in (ssa, push st.2 var id).

Definition alloc_phi (f : Function I) (var : Var) (st : SsaInfo * gmap (nat * Var) DefId) (b : nat)
    : res Stuck (SsaInfo * gmap (nat * Var) DefId) :=
  block ← or_panic (blocks f !! b);
  let '(id, ssa) := alloc_def st.1 var (Phi (bb_addr block) []) in
  Ok (ssa, <[(b, var) := id]> st.2).

Definition alloc_phis (f : Function I) (phis : gmap Var (gset nat)) (ssa : SsaInfo)
    : res Stuck (SsaInfo * gmap (nat * Var) DefId) :=
  foldM (fun st '(var, bs) => foldM (alloc_phi f var) st (set_order bs)) (ssa, ∅) (map_order phis).

Definition build_ssa (f : Function I) (rw : I -> list Var * list Var) : res Stuck SsaInfo :=
  match blocks f with
  | [] => Ok ssa_default
  | _ =>
      succs ← successors f;
      let preds := compute_predecessors succs in
      dom ← compute_dominators succs preds;
      df ← compute_dominance_frontiers preds dom;
      let block_rw := collect_reads_writes f rw in
      phis ← place_phis df block_rw;
      let '(ssa, stacks) :=
        fold_left alloc_entry (set_order (collect_all_vars block_rw phis)) (ssa_default, ∅) in
      '(ssa, phi_def_at) ← alloc_phis f phis ssa;
      st ← rename_dfs (S (length (blocks f))) (invert_dom_tree dom) phi_def_at block_rw (ssa, stacks) O;
      fill_phi_incoming st.1 phi_def_at preds f
  end.
End fill.
End ssa.

(** The order of the finite maps. *)
#[export] Instance map_hash_order : HashOrder :=
  {| set_order := fun A _ _ X => elements X;
     map_order := fun K A _ _ m => map_to_list m;
     set_order_perm := fun A _ _ X => Permutation_refl _;
     map_order_perm := fun K A _ _ m => Permutation_refl _ |}.

(** * Sample instructions, as in the unit tests of the source *)

Record TestInsn : Type := { t_addr : Z; t_reads : list Var; t_writes : list Var }.

#[export] Instance test_insn : ArchInsn TestInsn :=
  {| addr := t_addr; original_bytes := fun _ => [byte_of 0x90; byte_of 0x90] |}.

Definition test_rw (i : TestInsn) : list Var * list Var := (t_reads i, t_writes i).

Definition test_block (a : Z) (l : list (Z * list Var * list Var)) (t : Terminator) : BasicBlock TestInsn :=
  {| bb_addr := a; terminator := t;
     insns := List.map (fun '(ip, r, w) => {| t_addr := ip; t_reads := r; t_writes := w |}) l |}.

Definition test_func (l : list (BasicBlock TestInsn)) : Function TestInsn :=
  {| fn_addr := 0; fn_name := []; blocks := l |}.
