(* ===== verification/SsaLive.v ===== *)
(** The liveness analysis of ir/ssa.rs is exact: it ends, and a variable is in
    a computed set exactly when some path reads it before any write. *)

From S2P Require Import Prelude Common Ir Ssa.

(** * Specification *)

Section spec.
Context (succs : list (list nat)) (rw : BlockRw) (v : Var).

(** [v] is live in block [b] before the instructions [l] that are left of it. *)
Inductive live : nat -> list InsnRw -> Prop :=
| live_read b ip reads writes l : v ∈ reads -> live b ((ip, reads, writes) :: l)
| live_past b ip reads writes l : v ∉ writes -> live b l -> live b ((ip, reads, writes) :: l)
| live_edge b s : s ∈ list_at succs b -> live s (list_at rw s) -> live b [].
End spec.

(** Read before written, written, in a straight line. *)
Fixpoint read_first (v : Var) (l : list InsnRw) : Prop :=
  match l with
  | [] => False
  | (_, reads, writes) :: l => v ∈ reads \/ (v ∉ writes /\ read_first v l)
  end.

Definition written_in (v : Var) (l : list InsnRw) : Prop := exists x, x ∈ l /\ v ∈ x.2.

Lemma written_in_cons v x l : written_in v (x :: l) <-> v ∈ x.2 \/ written_in v l.
Proof. unfold written_in. set_solver. Qed.

Lemma live_block succs rw v b l :
  live succs rw v b l <-> read_first v l \/ (~ written_in v l /\ live succs rw v b []).
Proof.
  induction l as [|[[ip reads] writes] l IH].
  - split; [|by intros [[]|[_ ?]]]. intros Hl. right. split; [|done]. unfold written_in. set_solver.
  - rewrite written_in_cons. cbn [read_first snd]. split.
    + intros Hl. inversion Hl as [| ? ? ? ? ? Hw Hl'|]; subst; [tauto|]. apply IH in Hl'. tauto.
    + intros [[Hr|[Hw Hf]]|[Hn Hl]]; [by apply live_read|apply live_past; [done|]; tauto|].
      apply live_past; [tauto|]. apply IH. right. tauto.
Qed.

(** * Folds over sets *)

Lemma fold_union {A} `{Countable A} (l : list A) (X : gset A) :
  fold_left (fun s a => s ∪ {[a]}) l X = X ∪ list_to_set l.
Proof. revert X. induction l as [|a l IH]; intros X; cbn; [set_solver|]. rewrite IH. set_solver. Qed.

Lemma fold_difference {A} `{Countable A} (l : list A) (X : gset A) :
  fold_left (fun s a => s ∖ {[a]}) l X = X ∖ list_to_set l.
Proof. revert X. induction l as [|a l IH]; intros X; cbn; [set_solver|]. rewrite IH. set_solver. Qed.

Lemma elem_of_fold_reads (killed u : gset Var) reads v :
  v ∈ fold_left (fun u r => if decide (r ∈ killed) then u else u ∪ {[r]}) reads u <->
  v ∈ u \/ (v ∈ reads /\ v ∉ killed).
Proof.
  revert u. induction reads as [|r reads IH]; intros u; cbn; [set_solver|].
  rewrite IH. case_decide; set_solver.
Qed.

Lemma use_def_fold l k u d :
  let '(k', u', d') := fold_left use_def_insn l (k, u, d) in
  (forall v, v ∈ u' <-> v ∈ u \/ (v ∉ k /\ read_first v l)) /\ (forall v, v ∈ d' <-> v ∈ d \/ written_in v l).
Proof.
  revert k u d. induction l as [|[[ip reads] writes] l IH]; intros k u d.
  - cbn. unfold written_in. set_solver.
  - cbn [fold_left use_def_insn]. rewrite !fold_union.
    set (u1 := fold_left _ reads u). specialize (IH (k ∪ list_to_set writes) u1 (d ∪ list_to_set writes)).
    destruct (fold_left use_def_insn l _) as [[k' u'] d']. destruct IH as [IHu IHd]. split; intros v.
    + rewrite IHu. unfold u1. rewrite elem_of_fold_reads. cbn [read_first].
      rewrite not_elem_of_union, elem_of_list_to_set. destruct (decide (v ∈ k)); tauto.
    + rewrite IHd, written_in_cons. cbn. set_solver.
Qed.

Lemma use_def_spec brw :
  (forall v, v ∈ (use_def brw).1 <-> read_first v brw) /\ (forall v, v ∈ (use_def brw).2 <-> written_in v brw).
Proof.
  unfold use_def. pose proof (use_def_fold brw ∅ ∅ ∅) as Hf.
  destruct (fold_left use_def_insn brw _) as [[k u] d]. cbn. destruct Hf as [Hu Hd].
  split; intros v; [rewrite Hu|rewrite Hd]; set_solver.
Qed.

Lemma size_of_list {A} `{Countable A} (l : list A) : (size (list_to_set l : gset A) <= length l)%nat.
Proof.
  induction l as [|v l IH]; [done|]. cbn. rewrite size_union_alt, size_singleton.
  pose proof (subseteq_size (list_to_set l ∖ {[v]}) (list_to_set l : gset A) ltac:(set_solver)). lia.
Qed.

(** * One pass *)

Definition total (l : list (gset Var)) : nat := sum_list_with size l.

Lemma total_insert l b X : (b < length l)%nat -> set_at l b ⊆ X ->
  (total l <= total (<[b := X]> l))%nat /\ (X <> set_at l b -> (total l < total (<[b := X]> l))%nat).
Proof.
  intros [Y HY]%lookup_lt_is_Some. unfold set_at. rewrite HY. unfold default, id. intros Hs.
  apply list_elem_of_split_length in HY as (l1 & l2 & -> & ->).
  rewrite <- (Nat.add_0_r (length l1)), insert_app_r. unfold total.
  rewrite !sum_list_with_app. cbn [insert list_insert sum_list_with].
  pose proof (subseteq_size _ _ Hs). split; [lia|]. intros Hne.
  assert (Y ⊂ X) as Hp by (split; [done|]; intros ?; apply Hne; set_solver).
  apply subset_size in Hp. lia.
Qed.

Lemma set_at_insert {A} `{Countable A} (l : list (gset A)) b c X : (b < length l)%nat ->
  set_at (<[b := X]> l) c = if decide (c = b) then X else set_at l c.
Proof.
  intros Hb. unfold set_at. destruct (decide (c = b)) as [->|Hne].
  - by rewrite list_lookup_insert_eq.
  - by rewrite list_lookup_insert_ne.
Qed.

Lemma set_at_same {A} `{Countable A} (l : list (gset A)) b : (b < length l)%nat -> <[b := set_at l b]> l = l.
Proof. intros [X HX]%lookup_lt_is_Some. unfold set_at. rewrite HX. by apply list_insert_id. Qed.

Lemma elem_of_outs lin (ss : list nat) v :
  v ∈ ⋃ (List.map (set_at lin) ss) <-> exists s, s ∈ ss /\ v ∈ set_at (A:=Var) lin s.
Proof.
  rewrite elem_of_union_list. split.
  - intros (X & (s & -> & Hs)%list_elem_of_fmap & Hv). by exists s.
  - intros (s & Hs & Hv). exists (set_at lin s). split; [|done]. apply list_elem_of_fmap. by exists s.
Qed.

Section pass.
Context (succs : list (list nat)) (rw : BlockRw).
Let n := length succs.
Context (Hn : length rw = n) (Hlt : forall b s, s ∈ list_at succs b -> (s < n)%nat).
Let ud := List.map use_def rw.

Definition outs (lin : list (gset Var)) (b : nat) : gset Var := ⋃ (List.map (set_at lin) (list_at succs b)).
Definition ins (lin : list (gset Var)) (b : nat) : gset Var :=
  (use_def (list_at rw b)).1 ∪ (outs lin b ∖ (use_def (list_at rw b)).2).

Lemma ud_at b : default (∅, ∅) (ud !! b) = use_def (list_at rw b).
Proof.
  unfold ud, list_at. change (List.map use_def rw) with (use_def <$> rw). rewrite list_lookup_fmap.
  by destruct (rw !! b).
Qed.

Definition grows (lin lin' : list (gset Var)) : Prop := forall b, set_at lin b ⊆ set_at lin' b.

Lemma outs_grows lin lin' b : grows lin lin' -> outs lin b ⊆ outs lin' b.
Proof. intros Hg v. unfold outs. rewrite !elem_of_outs. intros (s & Hs & Hv). exists s. split; [done|]. by apply Hg. Qed.

Lemma ins_grows lin lin' b : grows lin lin' -> ins lin b ⊆ ins lin' b.
Proof. intros Hg. pose proof (outs_grows lin lin' b Hg). unfold ins. set_solver. Qed.

(** Everything found is live, and what a set holds follows from its neighbours. *)
Record live_ok (lin lout : list (gset Var)) : Prop := {
  lo_in : length lin = n;
  lo_out : length lout = n;
  lo_in_sound : forall b v, v ∈ set_at lin b -> live succs rw v b (list_at rw b);
  lo_out_sound : forall b v, v ∈ set_at lout b -> live succs rw v b [];
  lo_in_pre : forall b, set_at lin b ⊆ ins lin b;
  lo_out_pre : forall b, set_at lout b ⊆ outs lin b;
}.

Definition settled_at (lin lout : list (gset Var)) (b : nat) : Prop :=
  set_at lin b = ins lin b /\ set_at lout b = outs lin b.

Definition measure_of (lin lout : list (gset Var)) : nat := (total lin + total lout)%nat.

Lemma outs_sound lin lout b v : live_ok lin lout -> v ∈ outs lin b -> live succs rw v b [].
Proof.
  intros Hok. unfold outs. rewrite elem_of_outs. intros (s & Hs & Hv).
  by apply (live_edge succs rw v b s), (lo_in_sound _ _ Hok).
Qed.

Lemma ins_sound lin lout b v : live_ok lin lout -> v ∈ ins lin b -> live succs rw v b (list_at rw b).
Proof.
  intros Hok Hv. destruct (use_def_spec (list_at rw b)) as [Hu Hd]. apply live_block. unfold ins in Hv.
  apply elem_of_union in Hv as [Hv|[Hv Hnd]%elem_of_difference]; [left; by apply Hu|].
  right. rewrite <- Hd. split; [done|]. by apply (outs_sound lin lout).
Qed.

Lemma live_step_eq lin lout changed b : live_ok lin lout -> (b < n)%nat ->
  live_step succs ud (lin, lout, changed) b =
  (<[b := ins lin b]> lin, <[b := outs lin b]> lout,
   changed || negb (bool_decide (settled_at lin lout b))).
Proof.
  intros Hok Hb. unfold live_step. rewrite ud_at. fold (outs lin b).
  destruct (use_def (list_at rw b)) as [u d] eqn:Eud.
  assert (ins lin b = u ∪ (outs lin b ∖ d)) as Hi by (unfold ins; by rewrite Eud).
  rewrite <- Hi. unfold settled_at.
  destruct (decide (ins lin b = set_at lin b)) as [E1|E1], (decide (outs lin b = set_at lout b)) as [E2|E2].
  - rewrite bool_decide_eq_true_2 by done. rewrite E1, E2, !set_at_same, orb_false_r; [done|..];
      [by rewrite (lo_out _ _ Hok)|by rewrite (lo_in _ _ Hok)].
  - rewrite bool_decide_eq_false_2 by naive_solver. rewrite orb_true_r.
    by rewrite E1, set_at_same by (by rewrite (lo_in _ _ Hok)).
  - rewrite bool_decide_eq_false_2 by naive_solver. rewrite orb_true_r.
    by rewrite E2, set_at_same by (by rewrite (lo_out _ _ Hok)).
  - rewrite bool_decide_eq_false_2 by naive_solver. by rewrite orb_true_r.
Qed.

Lemma step_grows lin lout b : live_ok lin lout -> (b < n)%nat -> grows lin (<[b := ins lin b]> lin).
Proof.
  intros Hok Hb c. rewrite set_at_insert by (by rewrite (lo_in _ _ Hok)).
  destruct (decide _) as [->|]; [apply (lo_in_pre _ _ Hok)|done].
Qed.

Lemma live_ok_step lin lout b : live_ok lin lout -> (b < n)%nat ->
  live_ok (<[b := ins lin b]> lin) (<[b := outs lin b]> lout).
Proof.
  intros Hok Hb. pose proof (step_grows lin lout b Hok Hb) as Hg.
  assert (b < length lin)%nat by (by rewrite (lo_in _ _ Hok)).
  assert (b < length lout)%nat by (by rewrite (lo_out _ _ Hok)). split.
  - by rewrite length_insert, (lo_in _ _ Hok).
  - by rewrite length_insert, (lo_out _ _ Hok).
  - intros c v. rewrite set_at_insert by done. destruct (decide _) as [->|]; [by apply (ins_sound lin lout)|].
    apply (lo_in_sound _ _ Hok).
  - intros c v. rewrite set_at_insert by done. destruct (decide _) as [->|]; [by apply (outs_sound lin lout)|].
    apply (lo_out_sound _ _ Hok).
  - intros c. pose proof (ins_grows _ _ c Hg) as Hc. rewrite set_at_insert by done.
    destruct (decide _) as [->|]; [done|]. pose proof (lo_in_pre _ _ Hok c). set_solver.
  - intros c. pose proof (outs_grows _ _ c Hg) as Hc. rewrite set_at_insert by done.
    destruct (decide _) as [->|]; [done|]. pose proof (lo_out_pre _ _ Hok c). set_solver.
Qed.

Lemma measure_step lin lout b : live_ok lin lout -> (b < n)%nat ->
  (measure_of lin lout <= measure_of (<[b := ins lin b]> lin) (<[b := outs lin b]> lout))%nat /\
  (~ settled_at lin lout b ->
   (measure_of lin lout < measure_of (<[b := ins lin b]> lin) (<[b := outs lin b]> lout))%nat).
Proof.
  intros Hok Hb. unfold measure_of.
  destruct (total_insert lin b (ins lin b)) as [H1 H2]; [by rewrite (lo_in _ _ Hok)|apply (lo_in_pre _ _ Hok)|].
  destruct (total_insert lout b (outs lin b)) as [H3 H4]; [by rewrite (lo_out _ _ Hok)|apply (lo_out_pre _ _ Hok)|].
  split; [lia|]. intros Hs. destruct (decide (ins lin b = set_at lin b)) as [E1|E1]; [|specialize (H2 E1); lia].
  destruct (decide (outs lin b = set_at lout b)) as [E2|E2]; [|specialize (H4 E2); lia].
  by destruct Hs.
Qed.

Lemma pass_ok bs lin lout changed : live_ok lin lout -> Forall (fun b => b < n)%nat bs ->
  exists lin' lout' changed', fold_left (live_step succs ud) bs (lin, lout, changed) = (lin', lout', changed') /\
    live_ok lin' lout' /\ (measure_of lin lout <= measure_of lin' lout')%nat /\
    (changed = true -> changed' = true) /\
    (changed' = false -> lin' = lin /\ lout' = lout /\ Forall (settled_at lin lout) bs) /\
    (changed = false -> changed' = true -> (measure_of lin lout < measure_of lin' lout')%nat).
Proof.
  revert lin lout changed. induction bs as [|b bs IH]; intros lin lout changed Hok Hbs.
  - exists lin, lout, changed. split_and!; try done. by intros -> [=].
  - apply Forall_cons in Hbs as [Hb Hbs]. cbn [fold_left]. rewrite live_step_eq by done.
    pose proof (live_ok_step lin lout b Hok Hb) as Hok1. destruct (measure_step lin lout b Hok Hb) as [Hm1 Hm2].
    set (ch1 := changed || _). destruct (IH _ _ ch1 Hok1 Hbs)
      as (lin' & lout' & changed' & E & H1 & H2 & H3 & H4 & H5).
    exists lin', lout', changed'. split_and!; [done|done|lia| | |].
    + intros ->. by apply H3.
    + intros Ec. destruct (H4 Ec) as (-> & -> & Hs). destruct ch1 eqn:Ech; [by rewrite H3 in Ec|].
      apply orb_false_iff in Ech as [_ Ech]. apply negb_false_iff, bool_decide_eq_true in Ech.
      destruct Ech as [E1 E2]. rewrite <- E1, <- E2 in *.
      rewrite !set_at_same in * by (rewrite ?(lo_in _ _ Hok), ?(lo_out _ _ Hok); done).
      split_and!; [done|done|]. by constructor.
    + intros -> Ec. destruct ch1 eqn:Ech.
      * apply negb_true_iff, bool_decide_eq_false in Ech. specialize (Hm2 Ech). lia.
      * specialize (H5 eq_refl Ec). lia.
Qed.

(** * The loop *)

(** At most all variables in every set. *)
Definition all_vars : list Var := List.concat (List.map (fun '(_, r, w) => r ++ w) (List.concat rw)).

Lemma read_var b (x : InsnRw) v : x ∈ list_at rw b -> v ∈ x.1.2 -> v ∈ all_vars.
Proof.
  destruct x as [[ip rs] ws]. intros Hx Hv. unfold list_at in Hx.
  destruct (rw !! b) as [l|] eqn:El; [|by apply elem_of_nil in Hx]. apply list_elem_of_lookup_2 in El.
  apply list_elem_of_In, List.in_concat. exists (rs ++ ws). split; [|apply list_elem_of_In; set_solver].
  apply (List.in_map (fun '(_, r, w) => r ++ w) _ (ip, rs, ws)), List.in_concat.
  exists l. by split; apply list_elem_of_In.
Qed.

Lemma read_first_var v l : read_first v l -> exists x : InsnRw, x ∈ l /\ v ∈ x.1.2.
Proof.
  induction l as [|[[ip rs] ws] l IH]; [done|]. cbn.
  intros [Hr|[_ (x & Hx & Hv)%IH]]; [exists (ip, rs, ws)|exists x]; set_solver.
Qed.

Lemma live_var v b l : live succs rw v b l -> (forall x, x ∈ l -> v ∈ x.1.2 -> v ∈ all_vars) -> v ∈ all_vars.
Proof.
  induction 1 as [b ip rs ws l Hv|b ip rs ws l Hw Hl IH|b s Hs Hl IH]; intros H.
  - apply (H (ip, rs, ws)); set_solver.
  - apply IH. intros x Hx. apply H. set_solver.
  - apply IH. intros x. apply read_var.
Qed.

Lemma total_bound l (V : gset Var) : (forall b, set_at l b ⊆ V) -> (total l <= length l * size V)%nat.
Proof.
  unfold total. induction l as [|X l IH]; intros H; cbn; [lia|].
  pose proof (subseteq_size _ _ (H O)) as H0. cbn in H0.
  assert (forall b, set_at l b ⊆ V) as Hb by (intros b; apply (H (S b))). specialize (IH Hb). lia.
Qed.

Lemma measure_bound lin lout : live_ok lin lout ->
  (measure_of lin lout <= 2 * n * length all_vars)%nat.
Proof.
  intros Hok. set (V := list_to_set all_vars : gset Var).
  assert (size V <= length all_vars)%nat as HV by apply size_of_list.
  assert (total lin <= n * size V)%nat as H1.
  { rewrite <- (lo_in _ _ Hok). apply total_bound. intros b v Hv%(lo_in_sound _ _ Hok).
    apply elem_of_list_to_set, (live_var v b _ Hv). intros x. apply read_var. }
  assert (total lout <= n * size V)%nat as H2.
  { rewrite <- (lo_out _ _ Hok). apply total_bound. intros b v Hv%(lo_out_sound _ _ Hok).
    apply elem_of_list_to_set, (live_var v b _ Hv). intros x Hx. by apply elem_of_nil in Hx. }
  unfold measure_of. nia.
Qed.

(** The sets of a state in which every block is settled are exact. *)
Lemma settled_exact lin lout : live_ok lin lout -> (forall b, (b < n)%nat -> settled_at lin lout b) ->
  forall b v, (b < n)%nat ->
    (v ∈ set_at lin b <-> live succs rw v b (list_at rw b)) /\ (v ∈ set_at lout b <-> live succs rw v b []).
Proof.
  intros Hok Hs.
  assert (forall b l v, live succs rw v b l -> (b < n)%nat ->
    read_first v l \/ (~ written_in v l /\ v ∈ set_at lout b)) as Hc.
  { induction 1 as [b ip rs ws l Hv|b ip rs ws l Hw Hl IH|b s Hin Hl IH]; intros Hb.
    - left. by left.
    - rewrite written_in_cons. cbn. destruct (IH Hb) as [?|[??]]; tauto.
    - right. split; [unfold written_in; set_solver|]. destruct (Hs b Hb) as [_ ->].
      apply elem_of_outs. exists s. split; [done|]. pose proof (Hlt b s Hin) as Hsn.
      destruct (Hs s Hsn) as [E1 E2]. destruct (use_def_spec (list_at rw s)) as [Hu Hd].
      rewrite E1. unfold ins. rewrite elem_of_union, elem_of_difference, Hu, Hd, <- E2. tauto. }
  intros b v Hb. split; split.
  - apply (lo_in_sound _ _ Hok).
  - intros Hl%Hc; [|done]. destruct (Hs b Hb) as [E1 E2]. destruct (use_def_spec (list_at rw b)) as [Hu Hd].
    rewrite E1. unfold ins. rewrite elem_of_union, elem_of_difference, Hu, Hd, <- E2. tauto.
  - apply (lo_out_sound _ _ Hok).
  - intros Hl%Hc; [|done]. by destruct Hl as [[]|[_ ?]].
Qed.

Lemma live_loop_ok fuel lin lout : live_ok lin lout ->
  (2 * n * length all_vars - measure_of lin lout < fuel)%nat ->
  exists lin' lout', live_loop fuel succs ud lin lout = Ok (lin', lout') /\ live_ok lin' lout' /\
    forall b, (b < n)%nat -> settled_at lin' lout' b.
Proof.
  revert lin lout. induction fuel as [|fuel IH]; intros lin lout Hok Hf; [lia|].
  cbn [live_loop]. destruct (pass_ok (reverse (seq 0 n)) lin lout false Hok)
    as (lin' & lout' & changed & E & Hok' & Hm & _ & Hstay & Hmore).
  { apply Forall_forall. intros b Hb. apply elem_of_reverse, elem_of_seq in Hb. lia. }
  fold n. rewrite E. destruct changed.
  - apply IH; [done|]. specialize (Hmore eq_refl eq_refl). pose proof (measure_bound _ _ Hok'). lia.
  - destruct (Hstay eq_refl) as (-> & -> & Hs). exists lin, lout. split_and!; [done|done|].
    intros b Hb. rewrite Forall_forall in Hs. apply Hs, elem_of_reverse, elem_of_seq. lia.
Qed.

Lemma live_ok_empty : live_ok (replicate n ∅) (replicate n ∅).
Proof.
  assert (forall b, set_at (replicate n ∅) b = (∅ : gset Var)) as He.
  { intros b. unfold set_at. destruct (replicate n ∅ !! b) as [X|] eqn:E; [|done].
    by apply lookup_replicate in E as [-> _]. }
  split; try (by rewrite length_replicate); intros b; rewrite He; set_solver.
Qed.
End pass.

(** * The sets after each instruction *)

Definition ip_of (x : InsnRw) : Z := x.1.1.

Lemma live_after_fold lout l m :
  let '(m', live') := fold_left live_after_step (reverse l) (m, lout) in
  (forall v, v ∈ live' <-> read_first v l \/ (~ written_in v l /\ v ∈ lout)) /\
  (forall ip, ip ∉ List.map ip_of l -> m' !! ip = m !! ip) /\
  (NoDup (List.map ip_of l) -> forall pre ip rs ws post, l = pre ++ (ip, rs, ws) :: post ->
    exists X, m' !! ip = Some X /\
      forall v, v ∈ X <-> read_first v post \/ (~ written_in v post /\ v ∈ lout)).
Proof.
  induction l as [|[[ip rs] ws] l IH].
  - cbn. split_and!; [unfold written_in; set_solver|done|]. intros _ pre ip rs ws post E.
    by apply app_cons_not_nil in E.
  - rewrite reverse_cons, fold_left_app. destruct (fold_left live_after_step (reverse l) (m, lout)) as [m' X].
    destruct IH as (IH1 & IH2 & IH3). cbn [fold_left live_after_step].
    rewrite fold_union, fold_difference. split_and!.
    + intros v. rewrite written_in_cons. cbn [read_first snd].
      rewrite elem_of_union, elem_of_difference, !elem_of_list_to_set, IH1.
      destruct (decide (v ∈ ws)), (decide (v ∈ rs)); tauto.
    + intros ip'. cbn. intros Hip. rewrite lookup_insert_ne by set_solver. apply IH2. set_solver.
    + cbn. intros [Hni Hnd]%NoDup_cons pre ip' rs' ws' post E. destruct pre as [|y pre].
      * injection E as <- <- <- <-. exists X. by rewrite lookup_insert_eq.
      * injection E as <- E. destruct (IH3 Hnd pre ip' rs' ws' post E) as (Y & HY & Hv). exists Y.
        split; [|done]. rewrite lookup_insert_ne; [done|]. intros ->. apply Hni. rewrite E.
        apply list_elem_of_fmap. exists (ip', rs', ws'). set_solver.
Qed.

Lemma live_after_other lout l m ip : ip ∉ List.map ip_of l -> live_after lout l m !! ip = m !! ip.
Proof.
  intros Hip. unfold live_after. pose proof (live_after_fold lout l m) as Hf.
  destruct (fold_left live_after_step (reverse l) (m, lout)) as [m' X]. by apply Hf.
Qed.

Lemma live_after_blocks (lout : list (gset Var)) rw m k :
  NoDup (List.map ip_of (List.concat rw)) ->
  let m' := fold_left (fun m '(b, brw) => live_after (set_at lout b) brw m) (zip (seq k (length rw)) rw) m in
  (forall ip, ip ∉ List.map ip_of (List.concat rw) -> m' !! ip = m !! ip) /\
  forall b pre ip rs ws post, rw !! b = Some (pre ++ (ip, rs, ws) :: post) ->
    exists X, m' !! ip = Some X /\
      forall v, v ∈ X <-> read_first v post \/ (~ written_in v post /\ v ∈ set_at lout (k + b)).
Proof.
  revert m k. induction rw as [|l rw IH]; intros m k Hnd; [done|].
  cbn [List.concat] in *. rewrite List.map_app in Hnd. apply NoDup_app in Hnd as (Hl & Hdis & Hrw).
  cbn [length seq zip zip_with fold_left].
  destruct (IH (live_after (set_at lout k) l m) (S k) Hrw) as [IH1 IH2]. split.
  - intros ip. rewrite List.map_app. intros [H1 H2]%not_elem_of_app.
    cbn in IH1. rewrite IH1 by done. by apply live_after_other.
  - intros [|b] pre ip rs ws post E.
    + injection E as ->. cbn in IH1. rewrite Nat.add_0_r.
      assert (ip ∈ List.map ip_of (pre ++ (ip, rs, ws) :: post)) as Hip.
      { apply list_elem_of_fmap. exists (ip, rs, ws). set_solver. }
      rewrite IH1 by (by apply Hdis). unfold live_after.
      pose proof (live_after_fold (set_at lout k) (pre ++ (ip, rs, ws) :: post) m) as Hf.
      destruct (fold_left live_after_step _ (m, set_at lout k)) as [m' X]. destruct Hf as (_ & _ & Hf).
      by apply (Hf Hl pre ip rs ws post).
    + cbn in E. destruct (IH2 b pre ip rs ws post E) as (X & HX & Hv). exists X. split; [done|].
      by rewrite <- Nat.add_succ_comm.
Qed.

(** * The graph *)

Section graph.
Context {I : Type} `{!ArchInsn I}.

Lemma lookup_enumerate {A} (l : list A) i x : (i, x) ∈ enumerate l <-> l !! i = Some x.
Proof.
  unfold enumerate. rewrite list_elem_of_lookup. split.
  - intros (j & H). apply lookup_zip_with_Some in H as (a & b & [= <- <-] & Ha & Hb).
    apply lookup_seq in Ha as [-> _]. done.
  - intros E. exists i. apply lookup_zip_with_Some. exists i, x. split_and!; [done| |done].
    apply lookup_seq. split; [done|]. by apply lookup_lt_Some in E.
Qed.

Lemma block_index_lt (f : Function I) a i : block_index f !! a = Some i -> (i < length (blocks f))%nat.
Proof.
  unfold block_index. assert (forall (l : list (nat * BasicBlock I)) (m : gmap Z nat), (forall i b, (i, b) ∈ l -> (i < length (blocks f))%nat) ->
    (forall a i, m !! a = Some i -> (i < length (blocks f))%nat) ->
    fold_left (fun m '(i, b) => <[bb_addr b := i]> m) l m !! a = Some i -> (i < length (blocks f))%nat) as G.
  { induction l as [|[j b] l IH]; intros m Hl Hm; [apply Hm|]. cbn. apply IH; [set_solver|].
    intros a' i'. rewrite lookup_insert_Some. intros [[<- <-]|[_ H]]; [apply (Hl j b); set_solver|by apply (Hm a')]. }
  apply G; [|set_solver]. intros j b Hj%lookup_enumerate. by apply lookup_lt_Some in Hj.
Qed.

Lemma mapM_res_Forall2 {E A B} (g : A -> res E B) l l' :
  mapM_res g l = Ok l' -> Forall2 (fun a b => g a = Ok b) l l'.
Proof.
  revert l'. induction l as [|a l IH]; intros l' H; cbn in H; [by injection H as <-|].
  destruct (g a) as [b| |] eqn:Eb; cbn in H; try done.
  destruct (mapM_res g l) as [bs| |]; cbn in H; try done. injection H as <-. constructor; [done|]. by apply IH.
Qed.

Lemma successors_ok {E} (f : Function I) succs : successors (E:=E) f = Ok succs ->
  length succs = length (blocks f) /\ forall b s, s ∈ list_at succs b -> (s < length succs)%nat.
Proof.
  unfold successors. intros H%mapM_res_Forall2. pose proof (Forall2_length _ _ _ H) as Hlen.
  split; [done|]. rewrite <- Hlen. intros b s Hs. unfold list_at in Hs.
  destruct (succs !! b) as [l|] eqn:El; [|by apply elem_of_nil in Hs].
  destruct (Forall2_lookup_r _ _ _ _ _ H El) as (blk & _ & Hb).
  assert (forall a, s ∈ option_list (block_index f !! a) -> (s < length (blocks f))%nat) as Ho.
  { intros a. destruct (block_index f !! a) eqn:Ea; cbn; [|set_solver].
    intros ->%list_elem_of_singleton. by apply block_index_lt in Ea. }
  unfold block_successors in Hb. destruct (terminator blk); try (injection Hb as <-; by apply elem_of_nil in Hs).
  - destruct (usize_add _ _) in Hb; cbn in Hb; try done. injection Hb as <-. by eapply Ho.
  - injection Hb as <-. by eapply Ho.
  - injection Hb as <-. cbn in Hs. apply elem_of_app in Hs as [Hs|Hs]; by eapply Ho.
Qed.

Lemma length_collect (f : Function I) rw : length (collect_reads_writes f rw) = length (blocks f).
Proof. apply length_map. Qed.

(** C7: the liveness analysis ends and is exact. Unless computing a block's end
    address overflows, the iteration reaches a fixed point within its bound;
    a variable is in the live-in set of a block exactly when some path from
    the start of the block reads it before any write, in the live-out set
    exactly when such a path leaves the block's end, and, instruction
    addresses being distinct, in the set of an instruction exactly when such a
    path starts right after it. *)
Theorem liveness_exact (f : Function I) rw succs :
  successors (E:=Stuck) f = Ok succs ->
  let R := collect_reads_writes f rw in
  exists L, compute_liveness f rw = Ok L /\
    (forall b v, (b < length (blocks f))%nat ->
      (v ∈ set_at (live_in L) b <-> live succs R v b (list_at R b)) /\
      (v ∈ set_at (live_out L) b <-> live succs R v b [])) /\
    (NoDup (List.map ip_of (List.concat R)) -> forall b pre ip rs ws post,
      R !! b = Some (pre ++ (ip, rs, ws) :: post) ->
      exists X, live_after_insn L !! ip = Some X /\ forall v, v ∈ X <-> live succs R v b post).
Proof.
  intros Hs R. destruct (successors_ok f succs Hs) as [Hlen Hlt].
  assert (length R = length succs) as HR by (unfold R; by rewrite length_collect).
  unfold compute_liveness. destruct (blocks f) as [|b0 bs] eqn:Eb.
  { exists liveness_default. split; [done|]. split; [cbn; lia|]. intros _ b pre ip rs ws post E.
    unfold R, collect_reads_writes in E. by rewrite Eb in E. }
  rewrite <- Eb in *. clear b0 bs Eb. fold R.
  destruct (live_loop_ok succs R HR Hlt (live_fuel R) (replicate (length (blocks f)) ∅)
    (replicate (length (blocks f)) ∅)) as (lin & lout & E & Hok & Hset).
  { rewrite <- Hlen. by apply live_ok_empty. }
  { unfold live_fuel. fold (all_vars R). rewrite HR. lia. }
  rewrite Hs. cbn [mbind res_bind]. rewrite E. cbn [mbind res_bind]. eexists. split; [done|].
  pose proof (settled_exact succs R HR Hlt lin lout Hok Hset) as Hex. rewrite Hlen in Hex. split; [done|].
  intros Hnd b pre ip rs ws post Hb. destruct (live_after_blocks lout R ∅ O Hnd) as [_ Hafter].
  destruct (Hafter b pre ip rs ws post Hb) as (X & HX & Hv). exists X. split; [done|]. intros v.
  rewrite Hv, live_block. cbn. destruct (Hex b v) as [_ ->]; [|done].
  rewrite <- Hlen, <- HR. by apply lookup_lt_Some in Hb.
Qed.
End graph.

(** A loop that reads its counter, [i], and the sum, [s], that it leaves with. *)
Definition counting_loop : Function TestInsn :=
  let i := Stack 1 in let s := Stack 2 in
  test_func
    [test_block 0 [(0, [], [i])] Fallthrough;
     test_block 2 [(2, [i], [i]); (4, [i], [s])] (ConditionalBranch 2 6);
     test_block 6 [(6, [s], [])] Return].

Lemma liveness_exact_witness :
  successors (E:=Stuck) counting_loop = Ok [[1]; [2; 1]; []]%nat /\
  exists L, compute_liveness counting_loop test_rw = Ok L /\ Stack 1 ∈ set_at (live_out L) 1.
Proof.
  assert (successors (E:=Stuck) counting_loop = Ok [[1]; [2; 1]; []]%nat) as Hs by (vm_compute; reflexivity).
  split; [exact Hs|].
  destruct (liveness_exact counting_loop test_rw _ Hs) as (L & E & HL & _). exists L. split; [exact E|].
  destruct (HL 1%nat (Stack 1)) as [_ Hout]; [vm_compute; lia|]. apply Hout.
  apply live_edge with 1%nat; [unfold list_at; cbn; rewrite !elem_of_cons; auto|].
  unfold list_at. cbn. apply live_read. by left.
Defined.
