(* ===== verification/SsaDom.v ===== *)
(** The dominator computation of ir/ssa.rs: it ends, and what it gives is the
    immediate dominator of every reachable block. *)

From S2P Require Import Prelude Common Ir Ssa SsaLive.

(** * Predecessors *)

Lemma list_at_alter {A} (g : list A -> list A) l i j : (i < length l)%nat ->
  list_at (alter g i l) j = if decide (j = i) then g (list_at l j) else list_at l j.
Proof.
  intros [x Hx]%lookup_lt_is_Some. unfold list_at. destruct (decide (j = i)) as [->|Hne].
  - by rewrite list_lookup_alter_eq, Hx.
  - by rewrite list_lookup_alter_ne.
Qed.

Section preds.
Context (succs : list (list nat)).
Let n := length succs.
Context (Hlt : forall b s, s ∈ list_at succs b -> (s < n)%nat).

Lemma push_preds i ss (preds : list (list nat)) : length preds = n -> Forall (fun s => s < n)%nat ss ->
  let preds' := fold_left (fun preds s => alter (fun l => l ++ [i]) s preds) ss preds in
  length preds' = n /\
  forall p b, p ∈ list_at preds' b <-> p ∈ list_at preds b \/ (p = i /\ b ∈ ss).
Proof.
  revert preds. induction ss as [|s ss IH]; intros preds Hl Hss; cbn.
  - split; [done|]. set_solver.
  - apply Forall_cons in Hss as [Hs Hss]. destruct (IH (alter (fun l => l ++ [i]) s preds)) as [H1 H2];
      [by rewrite length_alter|done|]. split; [done|]. intros p b. rewrite H2, list_at_alter by lia.
    case_decide; set_solver.
Qed.

Lemma predecessors_ok :
  length (compute_predecessors succs) = n /\
  forall p b, p ∈ list_at (compute_predecessors succs) b <-> b ∈ list_at succs p.
Proof.
  unfold compute_predecessors. fold n.
  assert (forall k l (preds : list (list nat)), length preds = n -> drop k succs = l ->
    (forall p b, p ∈ list_at preds b <-> b ∈ list_at succs p /\ (p < k)%nat) ->
    let preds' := fold_left (fun preds '(i, ss) =>
      fold_left (fun preds s => alter (fun l => l ++ [i]) s preds) ss preds) (zip (seq k (length l)) l) preds in
    length preds' = n /\ forall p b, p ∈ list_at preds' b <-> b ∈ list_at succs p) as G.
  { intros k l. revert k. induction l as [|ss l IH]; intros k preds Hl Hd Hp; cbn.
    - split; [done|]. intros p b. rewrite Hp. split; [by intros []|]. intros Hb. split; [done|].
      apply (f_equal length) in Hd. rewrite length_drop in Hd. cbn in Hd. unfold list_at in Hb.
      destruct (succs !! p) eqn:Ep; [|by apply elem_of_nil in Hb]. apply lookup_lt_Some in Ep. lia.
    - assert (succs !! k = Some ss) as Hk.
      { rewrite <- (Nat.add_0_r k), <- lookup_drop, Hd. done. }
      assert (list_at succs k = ss) as Ek by (unfold list_at; by rewrite Hk).
      destruct (push_preds k ss preds Hl) as [H1 H2].
      { apply Forall_forall. intros s Hs. apply (Hlt k). by rewrite Ek. }
      apply IH; [done| |].
      + rewrite <- Nat.add_1_r, <- drop_drop, Hd. done.
      + intros p b. rewrite H2, Hp. destruct (decide (p = k)) as [->|]; [rewrite Ek|];
          intuition (try lia; done). }
  apply (G O succs (replicate n [])); [by rewrite length_replicate|done|].
  intros p b. unfold list_at at 1. destruct (replicate n [] !! b) as [l|] eqn:El.
  - apply lookup_replicate in El as [-> _]. cbn. rewrite elem_of_nil. lia.
  - cbn. rewrite elem_of_nil. lia.
Qed.
End preds.

(** * Depth-first search *)

Section dfs.
Context (succs : list (list nat)).
Let n := length succs.
Context (Hlt : forall b s, s ∈ list_at succs b -> (s < n)%nat).

Definition edge (p b : nat) : Prop := b ∈ list_at succs p.

Definition seen (visited : list bool) (b : nat) : Prop := visited !! b = Some true.

Definition unseen (visited : list bool) : nat := sum_list_with (fun v : bool => if v then O else 1%nat) visited.

(** The blocks a search adds, in postorder: new, closed under successors,
    reachable from the roots, and each but the roots with a predecessor that
    comes later. *)
Record found (roots : list nat) (vis vis' : list bool) (new : list nat) : Prop := {
  f_len : length vis' = n;
  f_keep : forall x, seen vis x -> seen vis' x;
  f_new : forall x, x ∈ new <-> seen vis' x /\ ~ seen vis x;
  f_nodup : NoDup new;
  f_roots : forall x, x ∈ roots -> seen vis' x;
  f_closed : forall x s, x ∈ new -> edge x s -> seen vis' s;
  f_reach : forall x, x ∈ new -> exists r, r ∈ roots /\ rtc edge r x;
  f_order : forall l1 x l2, new = l1 ++ x :: l2 -> x ∈ roots \/ exists p, p ∈ l2 /\ edge p x;
}.

Lemma seen_insert vis b x : (b < length vis)%nat -> seen (<[b := true]> vis) x <-> x = b \/ seen vis x.
Proof.
  intros Hb. unfold seen. destruct (decide (x = b)) as [->|Hne].
  - rewrite list_lookup_insert_eq by done. tauto.
  - rewrite list_lookup_insert_ne by done. tauto.
Qed.

Lemma unseen_insert vis b : vis !! b = Some false -> (unseen vis = S (unseen (<[b := true]> vis)))%nat.
Proof.
  intros Hb. unfold unseen. rewrite (insert_take_drop vis b true) by (by apply lookup_lt_Some in Hb).
  rewrite <- (take_drop_middle vis b false Hb) at 1.
  rewrite !sum_list_with_app. cbn. lia.
Qed.

Lemma unseen_mono vis vis' : length vis = length vis' -> (forall x, seen vis x -> seen vis' x) ->
  (unseen vis' <= unseen vis)%nat.
Proof.
  unfold unseen. revert vis'. induction vis as [|v vis IH]; intros [|v' vis'] Hl Hk; cbn in *; try lia.
  specialize (IH vis' ltac:(lia) (fun x => Hk (S x))). pose proof (Hk O) as H0. unfold seen in H0. cbn in H0.
  destruct v, v'; cbn; try lia. by discriminate (H0 eq_refl).
Qed.

Lemma found_nil vis : length vis = n -> found [] vis vis [].
Proof.
  intros Hl. split; try done; try set_solver.
  - constructor.
  - intros l1 x l2 E. by apply app_cons_not_nil in E.
Qed.

Lemma found_cons r roots vis vis1 vis2 new1 new2 :
  found [r] vis vis1 new1 -> found roots vis1 vis2 new2 -> found (r :: roots) vis vis2 (new1 ++ new2).
Proof.
  intros F1 F2. split.
  - apply F2.
  - intros x Hx. by apply (f_keep _ _ _ _ F2), (f_keep _ _ _ _ F1).
  - intros x. rewrite elem_of_app, (f_new _ _ _ _ F1), (f_new _ _ _ _ F2).
    pose proof (f_keep _ _ _ _ F1 x). pose proof (f_keep _ _ _ _ F2 x).
    assert (Decision (seen vis1 x)) as Hd by (unfold seen; apply _). destruct Hd; tauto.
  - apply NoDup_app. split_and!; [apply F1| |apply F2].
    intros x [? _]%(f_new _ _ _ _ F1) [_ ?]%(f_new _ _ _ _ F2). done.
  - intros x [->|Hx]%elem_of_cons; [|by apply (f_roots _ _ _ _ F2)].
    apply (f_keep _ _ _ _ F2), (f_roots _ _ _ _ F1). set_solver.
  - intros x s [Hx|Hx]%elem_of_app He; [apply (f_keep _ _ _ _ F2); by apply (f_closed _ _ _ _ F1 x)|by apply (f_closed _ _ _ _ F2 x)].
  - intros x [Hx|Hx]%elem_of_app.
    + destruct (f_reach _ _ _ _ F1 x Hx) as (y & Hy & Hr). exists y. set_solver.
    + destruct (f_reach _ _ _ _ F2 x Hx) as (y & Hy & Hr). exists y. set_solver.
  - intros l1 x l2 E. apply app_eq_app in E as (k & [[-> E]|[-> E]]).
    + destruct k as [|y k]; cbn in E.
      * destruct (f_order _ _ _ _ F2 [] x l2) as [?|(p & ? & ?)]; [done|set_solver|right; by exists p].
      * injection E as <- ->. destruct (f_order _ _ _ _ F1 l1 x k eq_refl) as [?|(p & ? & ?)];
          [set_solver|right; exists p; set_solver].
    + destruct (f_order _ _ _ _ F2 k x l2 E) as [?|(p & ? & ?)]; [set_solver|right; by exists p].
Qed.

Lemma rpo_dfs_ok fuel : forall vis post b, length vis = n -> (b < n)%nat -> (unseen vis < fuel)%nat ->
  exists vis' new, rpo_dfs fuel succs (vis, post) b = Ok (vis', post ++ new) /\ found [b] vis vis' new /\
    (~ seen vis b -> exists new0, new = new0 ++ [b]).
Proof.
  induction fuel as [|fuel IH]; intros vis post b Hl Hb Hf; [lia|].
  cbn [rpo_dfs fst snd]. destruct (vis !! b) as [v|] eqn:Ev; [|apply lookup_ge_None in Ev; lia].
  cbn [or_panic mbind res_bind]. destruct v.
  { exists vis, []. rewrite app_nil_r. split; [done|]. split; [|intros Hn; by destruct Hn].
    split; [exact Hl|done|set_solver|constructor| |set_solver..|].
    - by intros x ->%list_elem_of_singleton.
    - intros l1 x l2 E. by apply app_cons_not_nil in E. }
  pose proof (unseen_insert vis b Ev) as Hu.
  assert (forall ss vis1 post1, length vis1 = n -> (unseen vis1 < fuel)%nat -> Forall (fun s => s < n)%nat ss ->
    exists vis' new, foldM (rpo_dfs fuel succs) (vis1, post1) ss = Ok (vis', post1 ++ new) /\
      found ss vis1 vis' new) as G.
  { induction ss as [|s ss IHs]; intros vis1 post1 Hl1 Hf1 Hss.
    - exists vis1, []. rewrite app_nil_r. split; [done|]. by apply found_nil.
    - apply Forall_cons in Hss as [Hs Hss]. destruct (IH vis1 post1 s Hl1 Hs Hf1) as (vis2 & new1 & E1 & F1 & _).
      destruct (IHs vis2 (post1 ++ new1)) as (vis3 & new2 & E2 & F2); [apply F1| |done|].
      { pose proof (unseen_mono vis1 vis2) as Hm. rewrite Hl1, (f_len _ _ _ _ F1) in Hm.
        specialize (Hm eq_refl (f_keep _ _ _ _ F1)). lia. }
      exists vis3, (new1 ++ new2). cbn [foldM]. rewrite E1. cbn [mbind res_bind]. rewrite E2, (assoc_L (++)).
      split; [done|]. by apply (found_cons s ss vis1 vis2). }
  destruct (G (list_at succs b) (<[b := true]> vis) post) as (vis' & new & E & F).
  { by rewrite length_insert. }
  { lia. }
  { apply Forall_forall. intros s. apply Hlt. }
  assert (b < length vis)%nat as Hbl by lia.
  rewrite E. cbn [mbind res_bind]. exists vis', (new ++ [b]). rewrite (assoc_L (++)). split; [done|].
  assert (~ seen vis b) as Hnb by (unfold seen; by rewrite Ev).
  assert (seen vis' b) as Hsb by (apply (f_keep _ _ _ _ F), seen_insert; [done|by left]).
  split; [|intros _; by exists new]. split.
  - apply F.
  - intros x Hx. apply (f_keep _ _ _ _ F), seen_insert; [done|by right].
  - intros x. rewrite elem_of_app, list_elem_of_singleton, (f_new _ _ _ _ F), seen_insert by done.
    destruct (decide (x = b)) as [->|]; [tauto|].
    pose proof (f_keep _ _ _ _ F x) as Hk. rewrite seen_insert in Hk by done. tauto.
  - apply NoDup_app. split_and!; [apply F| |apply NoDup_singleton].
    intros x [_ Hx]%(f_new _ _ _ _ F) ->%list_elem_of_singleton. apply Hx, seen_insert; [done|by left].
  - intros x ->%list_elem_of_singleton. done.
  - intros x s [Hx| ->%list_elem_of_singleton]%elem_of_app He; [by apply (f_closed _ _ _ _ F x)|by apply (f_roots _ _ _ _ F)].
  - intros x [Hx| ->%list_elem_of_singleton]%elem_of_app; exists b; (split; [set_solver|]); [|done].
    destruct (f_reach _ _ _ _ F x Hx) as (r & Hr & Hx'). by apply rtc_l with r.
  - intros l1 x l2 Eq. destruct l2 as [|y l2 _] using rev_ind.
    + apply app_inj_tail in Eq as [_ ->]. left. set_solver.
    + change (new ++ [b] = l1 ++ (x :: l2) ++ [y]) in Eq. rewrite (assoc_L (++)) in Eq.
      apply app_inj_tail in Eq as [-> <-]. right.
      destruct (f_order _ _ _ _ F l1 x l2 eq_refl) as [?|(p & ? & ?)]; [exists b|exists p]; set_solver.
Qed.

(** * Reverse postorder *)

(** What [reverse_postorder] promises. *)
Class rpo_ok (rpo : list nat) : Prop := {
  r_head : exists rest, rpo = O :: rest;
  r_nodup : NoDup rpo;
  r_reach : forall b, b ∈ rpo <-> rtc edge O b;
  r_before : forall l1 x l2, rpo = l1 ++ x :: l2 -> l1 <> [] -> exists p, p ∈ l1 /\ edge p x;
}.

Lemma unseen_all k : unseen (replicate k false) = k.
Proof. unfold unseen. induction k as [|k IH]; [done|]. cbn in *. by rewrite IH. Qed.

Lemma reverse_postorder_ok : (0 < n)%nat ->
  exists rpo, reverse_postorder succs = Ok rpo /\ rpo_ok rpo.
Proof.
  intros Hn. unfold reverse_postorder. fold n.
  destruct (rpo_dfs_ok (S n) (replicate n false) [] O) as (vis & new & E & F & Hlast);
    [by rewrite length_replicate|done|rewrite unseen_all; lia|].
  rewrite E. cbn [mbind res_bind app]. exists (reverse new). split; [done|].
  assert (forall x, ~ seen (replicate n false) x) as Hnone.
  { intros x Hx. unfold seen in Hx. by apply lookup_replicate in Hx as [? _]. }
  destruct (Hlast (Hnone O)) as [new0 Enew].
  assert (forall x, x ∈ new <-> seen vis x) as Hnew.
  { intros x. rewrite (f_new _ _ _ _ F). pose proof (Hnone x). tauto. }
  split.
  - rewrite Enew, reverse_app. by eexists.
  - rewrite reverse_Permutation. apply F.
  - intros b. rewrite elem_of_reverse. split.
    + intros Hb. destruct (f_reach _ _ _ _ F b Hb) as (r & ->%list_elem_of_singleton & Hr). done.
    + intros Hb. revert b Hb. apply (rtc_ind_r (fun b => b ∈ new) O); [|intros y z _ Hyz IH]; apply Hnew.
      * apply (f_roots _ _ _ _ F). set_solver.
      * by apply (f_closed _ _ _ _ F y).
  - intros l1 x l2 Er Hl1. assert (new = reverse l2 ++ x :: reverse l1) as En.
    { rewrite <- (reverse_involutive new), Er, reverse_app, reverse_cons, <- (assoc_L (++)). done. }
    destruct (f_order _ _ _ _ F _ x _ En) as [->%list_elem_of_singleton|(p & Hp & He)].
    + exfalso. destruct l1 as [|y l1]; [done|]. rewrite En in Enew. rewrite reverse_cons in Enew.
      assert (NoDup new) as Hnd by apply F. rewrite En, reverse_cons in Hnd.
      change (reverse l2 ++ O :: reverse l1 ++ [y]) with (reverse l2 ++ (O :: reverse l1) ++ [y]) in *.
      rewrite (assoc_L (++)) in Enew. apply app_inj_tail in Enew as [_ ->].
      apply NoDup_app in Hnd as (_ & _ & Hnd). apply NoDup_cons in Hnd as [Hnd _]. set_solver.
    + exists p. split; [|done]. by rewrite elem_of_reverse in Hp.
Qed.
End dfs.

(** * Ranks and paths *)

(** A path from the entry, the last block first. *)
Inductive path (succs : list (list nat)) : list nat -> nat -> Prop :=
| path_entry : path succs [O] O
| path_edge l p b : path succs l p -> edge succs p b -> path succs (b :: l) b.

(** Block [x] is on every path from the entry to [b]. *)
Definition dominates (succs : list (list nat)) (x b : nat) : Prop := forall l, path succs l b -> x ∈ l.

(** A graph as [successors] gives it: an entry block, and successors in range. *)
Class Cfg (succs : list (list nat)) : Prop := {
  cfg_lt b s : s ∈ list_at succs b -> (s < length succs)%nat;
  cfg_pos : (0 < length succs)%nat;
}.

Section rank.
Context {succs : list (list nat)} {Hcfg : Cfg succs} {rpo : list nat} {Hrpo : rpo_ok succs rpo}.
#[local] Abbreviation n := (length succs).

Definition rk (b : nat) : nat := default n (rank_of rpo !! b).

Lemma rank_of_lookup b k : rank_of rpo !! b = Some k <-> rpo !! k = Some b.
Proof.
  unfold rank_of, enumerate. pose proof (r_nodup succs) as Hnd.
  assert (forall l j (m : gmap nat nat), NoDup l ->
    fold_left (fun m '(rank, b) => <[b := rank]> m) (zip (seq j (length l)) l) m !! b =
    match list_find (fun x => x = b) l with Some (i, _) => Some (j + i)%nat | None => m !! b end) as G.
  { induction l as [|x l IH]; intros j m Hl; [done|]. apply NoDup_cons in Hl as [Hx Hl].
    cbn [length seq zip zip_with fold_left list_find]. rewrite IH by done.
    destruct (decide (x = b)) as [->|Hne].
    - destruct (list_find (fun x => x = b) l) as [[i y]|] eqn:El.
      + apply list_find_Some in El as (Hi & -> & _). by apply list_elem_of_lookup_2 in Hi.
      + rewrite lookup_insert_eq, Nat.add_0_r. done.
    - destruct (list_find (fun x => x = b) l) as [[i y]|] eqn:El; cbn; [f_equal; lia|].
      by rewrite lookup_insert_ne. }
  rewrite G by done. split.
  - destruct (list_find _ rpo) as [[i y]|] eqn:El; [|by rewrite lookup_empty].
    apply list_find_Some in El as (Hi & -> & _). by intros [= <-].
  - intros Hk. destruct (list_find (fun x => x = b) rpo) as [[i y]|] eqn:El.
    + apply list_find_Some in El as (Hi & -> & _). f_equal. by apply (NoDup_lookup rpo i k b).
    + apply list_find_None in El. rewrite Forall_forall in El. by destruct (El b (list_elem_of_lookup_2 _ _ _ Hk)).
Qed.

Lemma rpo_lt b : b ∈ rpo -> (b < n)%nat.
Proof.
  intros Hb%(r_reach succs). revert b Hb. apply (rtc_ind_r (fun b => b < n)%nat O); [apply cfg_pos|].
  intros y z _ Hyz _. by apply (cfg_lt y).
Qed.

Lemma rpo_length : (length rpo <= n)%nat.
Proof.
  rewrite <- (length_seq n 0). apply submseteq_length, NoDup_submseteq; [apply Hrpo|].
  intros b Hb%rpo_lt. apply elem_of_seq. lia.
Qed.

Lemma rk_spec b : b ∈ rpo -> rpo !! rk b = Some b /\ rank_of rpo !! b = Some (rk b) /\ (rk b < n)%nat.
Proof.
  intros [k Hk]%list_elem_of_lookup. pose proof Hk as E%rank_of_lookup. unfold rk. rewrite E. cbn.
  split_and!; [done|done|]. apply lookup_lt_Some in Hk. pose proof rpo_length. lia.
Qed.

Lemma rk_at k b : rpo !! k = Some b -> rk b = k.
Proof. intros E%rank_of_lookup. unfold rk. by rewrite E. Qed.

Lemma rk_inj a b : a ∈ rpo -> b ∈ rpo -> rk a = rk b -> a = b.
Proof. intros (Ea & _)%rk_spec (Eb & _)%rk_spec E. rewrite E in Ea. congruence. Qed.

Lemma entry_in : O ∈ rpo.
Proof. destruct (r_head succs) as [rest ->]. set_solver. Qed.

Lemma rk_entry : rk O = O.
Proof. apply rk_at. by destruct (r_head succs) as [rest ->]. Qed.

Lemma rk_pos b : b ∈ rpo -> b <> O -> (0 < rk b)%nat.
Proof. intros Hb Hne. destruct (rk b) eqn:E; [|lia]. destruct Hne. apply rk_inj; [done|apply entry_in|]. by rewrite rk_entry. Qed.

Definition fwd (x y : nat) : Prop := edge succs x y /\ x ∈ rpo /\ y ∈ rpo /\ (rk x < rk y)%nat.

Lemma fwd_pred b : b ∈ rpo -> b <> O -> exists p, fwd p b.
Proof.
  intros Hb Hne. destruct (rk_spec b Hb) as (E & _). apply list_elem_of_split_length in E as (l1 & l2 & E & Hl).
  destruct (r_before succs l1 b l2 E) as (p & Hp & He).
  { intros ->. pose proof (rk_pos b Hb Hne). cbn in Hl. lia. }
  exists p. apply list_elem_of_lookup in Hp as [k Hk]. pose proof (lookup_lt_Some _ _ _ Hk).
  assert (rpo !! k = Some p) as Ek by (rewrite E, lookup_app_l by done; done).
  split_and!; [done|by apply list_elem_of_lookup_2 in Ek|done|]. rewrite (rk_at k p Ek). lia.
Qed.

Lemma edge_in p b : p ∈ rpo -> edge succs p b -> b ∈ rpo.
Proof. intros Hp%(r_reach succs) He. apply (r_reach succs). by eapply rtc_r. Qed.

Lemma inc_rank d b : rtc fwd d b -> (rk d <= rk b)%nat.
Proof. induction 1 as [|x y z (_ & _ & _ & Hxy) _ IH]; lia. Qed.

(** * Paths *)

Lemma path_in l b x : path succs l b -> x ∈ l -> x ∈ rpo.
Proof.
  intros Hp. revert x. induction Hp as [|l p b Hp IH He]; intros x.
  - intros ->%list_elem_of_singleton. apply entry_in.
  - intros [-> | Hx]%elem_of_cons; [|by apply IH]. apply (edge_in p); [|done].
    apply IH. inversion Hp; set_solver.
Qed.

Lemma path_end l b : path succs l b -> b ∈ l.
Proof. inversion 1; set_solver. Qed.

Lemma path_exists b : b ∈ rpo -> exists l, path succs l b.
Proof.
  intros Hb%(r_reach succs). revert b Hb. apply (rtc_ind_r (fun b => exists l, path succs l b) O).
  - exists [O]. constructor.
  - intros y z _ Hyz [l Hl]. exists (z :: l). by apply path_edge with y.
Qed.

(** A path that is extended along increasing ranks. *)
Lemma path_inc l b y : path succs l b -> rtc fwd b y ->
  exists l', path succs (l' ++ l) y /\ forall x, x ∈ l' -> (rk b < rk x)%nat.
Proof.
  intros Hp Hr. revert y Hr. apply (rtc_ind_r (fun y => exists l', path succs (l' ++ l) y /\
    forall x, x ∈ l' -> (rk b < rk x)%nat) b).
  - exists []. split; [done|]. set_solver.
  - intros y z Hby (He & _ & _ & Hyz) (l' & Hl' & Hx). exists (z :: l'). split; [by apply path_edge with y|].
    intros x [-> | ?]%elem_of_cons; [|by apply Hx]. pose proof (inc_rank b y Hby). lia.
Qed.

Lemma path_cut l b x : path succs l b -> x ∈ l -> exists l1 l2, l = l1 ++ x :: l2 /\ path succs (x :: l2) x.
Proof.
  intros Hp. induction Hp as [|l p b Hp IH He].
  - intros ->%list_elem_of_singleton. exists [], []. split; [done|constructor].
  - intros [-> | Hx]%elem_of_cons.
    + exists [], l. split; [done|]. by apply path_edge with p.
    + destruct (IH Hx) as (l1 & l2 & -> & H). by exists (b :: l1), l2.
Qed.

Lemma path_simple l b : path succs l b -> exists l', path succs l' b /\ NoDup l' /\ forall x, x ∈ l' -> x ∈ l.
Proof.
  induction 1 as [|l p b Hp IH He].
  - exists [O]. split_and!; [constructor|apply NoDup_singleton|done].
  - destruct IH as (l' & Hp' & Hnd & Hsub). destruct (decide (b ∈ l')) as [Hin|Hin].
    + destruct (path_cut l' p b Hp' Hin) as (l1 & l2 & -> & Hb). exists (b :: l2). split_and!; [done| |].
      * by apply NoDup_app in Hnd as (_ & _ & ?).
      * intros x Hx. right. apply Hsub. set_solver.
    + exists (b :: l'). split_and!; [by apply path_edge with p|by apply NoDup_cons|set_solver].
Qed.

(** The number of edges that do not go up in rank. *)
Fixpoint retreats (l : list nat) : nat :=
  match l with
  | b :: (p :: _) as t => (if (rk b <=? rk p)%nat then 1 else 0) + retreats t
  | _ => O
  end%nat.

Lemma retreats_cons b p l :
  retreats (b :: p :: l) = ((if (rk b <=? rk p)%nat then 1 else 0) + retreats (p :: l))%nat.
Proof. done. Qed.

Lemma retreats_length l : (retreats l <= pred (length l))%nat.
Proof.
  induction l as [|b [|p l] IH]; cbn; [lia..|]. cbn in IH. destruct (rk b <=? rk p)%nat; lia.
Qed.

Lemma retreats_cut l1 x l2 : (retreats (x :: l2) <= retreats (l1 ++ x :: l2))%nat.
Proof.
  induction l1 as [|y l1 IH]; [done|]. destruct l1 as [|z l1]; cbn in *;
    destruct (Nat.leb _ _); lia.
Qed.

(** On every path with fewer than [k] retreating edges. *)
Definition on_all (k : nat) (x b : nat) : Prop := forall l, path succs l b -> (retreats l < k)%nat -> x ∈ l.

Lemma on_all_mono k j x b : (j <= k)%nat -> on_all k x b -> on_all j x b.
Proof. intros Hjk H l Hl Hr. apply H; [done|lia]. Qed.

Lemma on_all_dominates x b : on_all n x b -> dominates succs x b.
Proof.
  intros H l Hl. destruct (path_simple l b Hl) as (l' & Hl' & Hnd & Hsub). apply Hsub, H; [done|].
  pose proof (retreats_length l').
  assert (length l' <= n)%nat.
  { rewrite <- (length_seq n 0). apply submseteq_length, NoDup_submseteq; [done|].
    intros x' Hx'. apply elem_of_seq. pose proof (rpo_lt x' (path_in l' b x' Hl' Hx')). lia. }
  assert (0 < length l')%nat by (inversion Hl'; cbn; lia). lia.
Qed.

Lemma dominates_refl b : dominates succs b b.
Proof. intros l Hl. by apply path_end. Qed.

Lemma dominates_pred x p b : dominates succs x b -> x <> b -> edge succs p b -> dominates succs x p.
Proof. intros Hd Hne He l Hl. pose proof (Hd (b :: l) (path_edge _ _ _ _ Hl He)). set_solver. Qed.

Lemma dominates_in x b : dominates succs x b -> b ∈ rpo -> x ∈ rpo.
Proof. intros Hd Hb. destruct (path_exists b Hb) as [l Hl]. apply (path_in l b); [done|]. by apply Hd. Qed.
End rank.
Arguments rk : clear implicits.
Arguments fwd : clear implicits.
Arguments retreats : clear implicits.
Arguments on_all : clear implicits.
