(* ===== verification/SsaIdom.v ===== *)
(** The fixed-point iteration of [compute_dominators] (ir/ssa.rs): parent
    pointers that always include the true dominators lose, round by round, the
    blocks some path with few retreating edges avoids. *)

From S2P Require Import Prelude Common Ir Ssa SsaLive SsaDom.

Section idom.
Context {succs : list (list nat)} {Hcfg : Cfg succs} {rpo : list nat} {Hrpo : rpo_ok succs rpo}.
#[local] Abbreviation n := (length succs).
Context (preds : list (list nat)) (Hpreds : forall p b, p ∈ list_at preds b <-> edge succs p b).

#[local] Abbreviation rank := (rk succs rpo).
#[local] Abbreviation up := (fwd succs rpo).

(** * Parent pointers *)

Definition proc (dom : list (option nat)) (b : nat) : Prop := is_Some (opt_at dom b).

Record dom_wf (dom : list (option nat)) : Prop := {
  w_len : length dom = n;
  w_root : opt_at dom O = Some O;
  w_par : forall b d, b <> O -> opt_at dom b = Some d ->
    b ∈ rpo /\ proc dom d /\ (rank d < rank b)%nat /\ rtc up d b;
}.

(** [x] is [b] or one of its ancestors. *)
Inductive anc (dom : list (option nat)) (x : nat) : nat -> Prop :=
| anc_refl : anc dom x x
| anc_up b d : b <> O -> opt_at dom b = Some d -> anc dom x d -> anc dom x b.

Lemma opt_at_insert dom b c (x : option nat) : (b < length dom)%nat ->
  opt_at (<[b := x]> dom) c = if decide (c = b) then x else opt_at dom c.
Proof.
  intros Hb. unfold opt_at. destruct (decide (c = b)) as [->|].
  - by rewrite list_lookup_insert_eq.
  - by rewrite list_lookup_insert_ne.
Qed.

Lemma anc_entry dom x : anc dom x O <-> x = O.
Proof. split; [by inversion 1|intros ->; constructor]. Qed.

Lemma anc_inv dom x b d : b <> O -> opt_at dom b = Some d -> anc dom x b <-> x = b \/ anc dom x d.
Proof.
  intros Hb E. split.
  - inversion 1 as [|b' d' _ E' Hd]; [by left|]. rewrite E in E'. injection E' as <-. by right.
  - intros [-> | Hd]; [constructor|by apply (anc_up dom x b d)].
Qed.

Lemma anc_none dom x b : opt_at dom b = None -> anc dom x b <-> x = b.
Proof. intros E. split; [inversion 1; subst; congruence|intros ->; constructor]. Qed.

Section one.
Context (dom : list (option nat)) (Hwf : dom_wf dom).

Lemma proc_in b : proc dom b -> b ∈ rpo.
Proof.
  intros [d E]. destruct (decide (b = O)) as [->|Hb]; [by apply entry_in|].
  by apply (w_par _ Hwf b d).
Qed.

Lemma anc_inc x b : anc dom x b -> rtc up x b.
Proof.
  induction 1 as [|b d Hb E _ IH]; [done|]. etrans; [done|]. by apply (w_par _ Hwf b d).
Qed.

Lemma anc_rank x b : anc dom x b -> (rank x <= rank b)%nat.
Proof. intros H%anc_inc. by apply inc_rank. Qed.

Lemma anc_proc x b : anc dom x b -> proc dom b -> proc dom x.
Proof. induction 1 as [|b d Hb E _ IH]; [done|]. intros _. apply IH. by apply (w_par _ Hwf b d). Qed.

Lemma anc_strict x b : anc dom x b -> x = b \/ (rank x < rank b)%nat.
Proof.
  inversion 1 as [|b' d Hb E Hd]; [by left|]. right. apply anc_rank in Hd.
  destruct (w_par _ Hwf b d Hb E) as (_ & _ & ? & _). lia.
Qed.

Lemma anc_antisym x y : anc dom x y -> anc dom y x -> x = y.
Proof. intros [?|H1]%anc_strict [?|H2]%anc_strict; [done..|lia]. Qed.

(** Induction along the parents. *)
Lemma parent_ind (P : nat -> Prop) :
  P O -> (forall b, b <> O -> opt_at dom b = None -> P b) ->
  (forall b d, b <> O -> opt_at dom b = Some d -> P d -> P b) -> forall b, P b.
Proof.
  intros H0 Hnone Hsome b. remember (rank b) as k eqn:Ek. revert b Ek.
  induction k as [k IH] using lt_wf_ind. intros b ->. destruct (decide (b = O)) as [->|Hb]; [done|].
  destruct (opt_at dom b) as [d|] eqn:E; [|by apply Hnone].
  apply (Hsome b d Hb E). apply (IH (rank d)); [|done]. by apply (w_par _ Hwf b d).
Qed.

Lemma anc_dec x b : anc dom x b \/ ~ anc dom x b.
Proof.
  revert b. apply parent_ind.
  - rewrite anc_entry. destruct (decide (x = O)); tauto.
  - intros b _ E. rewrite (anc_none dom x b E). destruct (decide (x = b)); tauto.
  - intros b d Hb E IH. rewrite (anc_inv dom x b d Hb E). destruct (decide (x = b)); tauto.
Qed.

(** * [intersect] *)

Lemma climb_ok fuel f g : proc dom f -> proc dom g -> (rank f < fuel)%nat ->
  exists f', climb fuel dom (rank_of rpo) f g = Ok f' /\ proc dom f' /\ (rank f' <= rank g)%nat /\
    (rank f' <= rank f)%nat /\ ((rank g < rank f)%nat -> (rank f' < rank f)%nat) /\
    forall x, (rank x <= rank g)%nat -> anc dom x f <-> anc dom x f'.
Proof.
  revert f. induction fuel as [|fuel IH]; intros f Hf Hg Hfuel; [lia|]. cbn [climb].
  destruct (rk_spec f (proc_in f Hf)) as (_ & -> & _).
  destruct (rk_spec g (proc_in g Hg)) as (_ & -> & _). cbn [opt_gt].
  destruct (Nat.ltb_spec (rank g) (rank f)) as [Hgt|Hle]; cycle 1.
  { exists f. split_and!; [done|done|lia..|done]. }
  assert (f <> O) as Hf0.
  { intros ->. rewrite rk_entry in Hgt. lia. }
  destruct Hf as [d E]. destruct (w_par _ Hwf f d Hf0 E) as (_ & Hd & Hr & _). rewrite E. cbn [default].
  destruct (IH d Hd Hg ltac:(lia)) as (f' & E' & Hp & H1 & H2 & _ & H3).
  exists f'. split_and!; [done|done|lia..|]. intros x Hx. rewrite (anc_inv dom x f d Hf0 E), <- H3 by done.
  split; [intros [-> | ?]; [lia|done]|by right].
Qed.

Lemma climb_both f1 f2 : proc dom f1 -> proc dom f2 ->
  exists f1' f2', climb (S (length dom)) dom (rank_of rpo) f1 f2 = Ok f1' /\
    climb (S (length dom)) dom (rank_of rpo) f2 f1' = Ok f2' /\ proc dom f1' /\ proc dom f2' /\
    (rank f2' <= rank f1')%nat /\ ((rank f2 < rank f1)%nat -> (rank f1' < rank f1)%nat) /\
    forall x, anc dom x f1 /\ anc dom x f2 <-> anc dom x f1' /\ anc dom x f2'.
Proof.
  intros H1 H2. rewrite (w_len _ Hwf).
  destruct (rk_spec f1 (proc_in f1 H1)) as (_ & _ & Hr1).
  destruct (rk_spec f2 (proc_in f2 H2)) as (_ & _ & Hr2).
  destruct (climb_ok (S n) f1 f2 H1 H2 ltac:(lia)) as (f1' & E1 & P1 & L1 & L1' & S1 & A1).
  destruct (climb_ok (S n) f2 f1' H2 P1 ltac:(lia)) as (f2' & E2 & P2 & L2 & L2' & _ & A2).
  exists f1', f2'. split_and!; [done..|]. intros x. split.
  - intros [Hx1 Hx2]. pose proof (anc_rank x f2 Hx2). apply A1 in Hx1; [|done].
    split; [done|]. apply A2; [|done]. by apply anc_rank.
  - intros [Hx1 Hx2]. pose proof (anc_rank x f1' Hx1). split; [apply A1; [lia|done]|by apply A2].
Qed.

Lemma intersect_loop_ok fuel f1 f2 : proc dom f1 -> proc dom f2 -> (rank f2 <= rank f1)%nat ->
  (rank f1 < fuel)%nat ->
  exists r, intersect_loop fuel dom (rank_of rpo) f1 f2 = Ok r /\ proc dom r /\
    forall x, anc dom x r <-> anc dom x f1 /\ anc dom x f2.
Proof.
  revert f1 f2. induction fuel as [|fuel IH]; intros f1 f2 H1 H2 Hr Hf; [lia|]. cbn [intersect_loop].
  destruct (decide (f1 = f2)) as [<-|Hne]; [exists f1; split_and!; [done|done|tauto]|].
  destruct (climb_both f1 f2 H1 H2) as (f1' & f2' & E1 & E2 & P1 & P2 & L & S & A).
  rewrite E1. cbn [mbind res_bind]. rewrite E2. cbn [mbind res_bind].
  assert (rank f2 < rank f1)%nat as Hlt'.
  { destruct (decide (rank f2 = rank f1)) as [E|]; [|lia]. destruct Hne. symmetry.
    by apply rk_inj; [apply proc_in..|]. }
  destruct (decide (f1' = O /\ f2' = O)) as [[-> ->]|_].
  - exists O. split_and!; [done|done|]. intros x. rewrite A. tauto.
  - destruct (IH f1' f2' P1 P2 L) as (r & E & Hp & Hx); [specialize (S Hlt'); lia|].
    exists r. split_and!; [done|done|]. intros x. by rewrite Hx, A.
Qed.

Lemma intersect_ok f1 f2 : proc dom f1 -> proc dom f2 ->
  exists r, intersect f1 f2 dom (rank_of rpo) = Ok r /\ proc dom r /\
    forall x, anc dom x r <-> anc dom x f1 /\ anc dom x f2.
Proof.
  intros H1 H2. unfold intersect. cbn [intersect_loop].
  destruct (decide (f1 = f2)) as [<-|Hne]; [exists f1; split_and!; [done|done|tauto]|].
  destruct (climb_both f1 f2 H1 H2) as (f1' & f2' & E1 & E2 & P1 & P2 & L & S & A).
  rewrite E1. cbn [mbind res_bind]. rewrite E2. cbn [mbind res_bind].
  destruct (decide (f1' = O /\ f2' = O)) as [[-> ->]|_].
  - exists O. split_and!; [done|done|]. intros x. rewrite A. tauto.
  - destruct (intersect_loop_ok (length dom) f1' f2' P1 P2 L) as (r & E & Hp & Hx).
    { rewrite (w_len _ Hwf). by apply rk_spec, proc_in. }
    exists r. split_and!; [done|done|]. intros x. by rewrite Hx, A.
Qed.

Lemma intersect_all ps p : proc dom p -> Forall (proc dom) ps ->
  exists r, foldM (fun x p => intersect x p dom (rank_of rpo)) p ps = Ok r /\ proc dom r /\
    forall x, anc dom x r <-> forall q, q ∈ p :: ps -> anc dom x q.
Proof.
  revert p. induction ps as [|q ps IH]; intros p Hp Hps; cbn [foldM].
  - exists p. split_and!; [done|done|]. intros x. set_solver.
  - apply Forall_cons in Hps as [Hq Hps]. destruct (intersect_ok p q Hp Hq) as (r & -> & Hr & Hx).
    destruct (IH r Hr Hps) as (r' & E & Hr' & Hx'). exists r'. split_and!; [done|done|].
    intros x. rewrite Hx'. split.
    + intros H q' [-> | [-> | Hq']%elem_of_cons]%elem_of_cons.
      * apply (Hx x), H. set_solver.
      * apply (Hx x), H. set_solver.
      * apply H. set_solver.
    + intros H q' [-> | Hq']%elem_of_cons; [apply Hx; split; apply H; set_solver|apply H; set_solver].
Qed.
End one.

(** * One update *)

Section update.
Context (dom : list (option nat)) (Hwf : dom_wf dom) (b r : nat).
Context (Hb : b ∈ rpo) (Hb0 : b <> O) (Hr : proc dom r) (Hrank : (rank r < rank b)%nat) (Hup : rtc up r b).
Let dom' := <[b := Some r]> dom.

Lemma update_at c : opt_at dom' c = if decide (c = b) then Some r else opt_at dom c.
Proof. apply opt_at_insert. rewrite (w_len _ Hwf). by apply rpo_lt. Qed.

Lemma update_proc c : proc dom c -> proc dom' c.
Proof. unfold proc. rewrite update_at. by destruct (decide _). Qed.

Lemma update_wf : dom_wf dom'.
Proof.
  split.
  - unfold dom'. by rewrite length_insert, (w_len _ Hwf).
  - rewrite update_at. destruct (decide _); [congruence|apply Hwf].
  - intros c d Hc. rewrite update_at. destruct (decide (c = b)) as [->|].
    + intros [= <-]. split_and!; [done|by apply update_proc|done..].
    + intros E. destruct (w_par _ Hwf c d Hc E) as (? & ? & ? & ?). split_and!; [done|by apply update_proc|done..].
Qed.

(** Blocks that do not have [b] above them keep their ancestors. *)
Lemma update_other y : ~ anc dom b y -> forall x, anc dom' x y <-> anc dom x y.
Proof.
  induction y as [|y Hy E|y d Hy E IH] using (parent_ind dom Hwf); intros Hn x.
  - by rewrite !anc_entry.
  - assert (y <> b) by (intros ->; destruct Hn; constructor).
    rewrite (anc_none dom x y E), (anc_none dom' x y); [done|]. rewrite update_at. by destruct (decide _).
  - assert (y <> b) by (intros ->; destruct Hn; constructor).
    rewrite (anc_inv dom x y d Hy E), (anc_inv dom' x y d Hy), IH; [done|..].
    + intros Hd. apply Hn. by apply (anc_up dom b y d).
    + rewrite update_at. by destruct (decide _).
Qed.

Lemma update_root x : anc dom' x b <-> x = b \/ anc dom x r.
Proof.
  rewrite (anc_inv dom' x b r Hb0) by (rewrite update_at; by destruct (decide _)).
  rewrite update_other; [done|]. intros H. apply (anc_rank dom Hwf) in H. lia.
Qed.

(** The others keep the part from [b] on. *)
Lemma update_below y : anc dom b y -> forall x, anc dom' x y <-> (anc dom x y /\ (rank b <= rank x)%nat) \/ anc dom x r.
Proof.
  intros Hy x. induction Hy as [|y d Hy0 E Hd IH].
  - rewrite update_root. split.
    + intros [-> | ?]; [left; split; [constructor|done]|by right].
    + intros [[[-> | ?]%(anc_strict dom Hwf) ?]|?]; [by left|lia|by right].
  - destruct (decide (y = b)) as [->|Hne].
    { apply (anc_rank dom Hwf) in Hd. destruct (w_par _ Hwf b d Hy0 E) as (_ & _ & ? & _). lia. }
    rewrite (anc_inv dom' x y d Hy0), IH, (anc_inv dom x y d Hy0 E)
      by (rewrite ?update_at; by destruct (decide _)).
    assert (rank b <= rank y)%nat.
    { apply (anc_rank dom Hwf) in Hd. destruct (w_par _ Hwf y d Hy0 E) as (_ & _ & ? & _). lia. }
    split; [|tauto]. intros [-> | [[? ?]|?]]; tauto.
Qed.
End update.

(** * The invariants *)

(** Every dominator is an ancestor. *)
Definition over (dom : list (option nat)) : Prop :=
  forall x y, proc dom y -> dominates succs x y -> anc dom x y.

(** After [k] rounds, and the blocks of rank below [r] of the next. *)
Definition bounded (k r : nat) (dom : list (option nat)) : Prop :=
  forall x y, y ∈ rpo -> anc dom x y -> on_all succs rpo (if (rank y <? r)%nat then S k else k) x y.

(** The common ancestors of the predecessors that have a parent. *)
Definition joins (dom : list (option nat)) (b r : nat) : Prop :=
  forall x, anc dom x r <-> forall p, edge succs p b -> proc dom p -> anc dom x p.

(** What [dom_step] computes for [b]. *)
Lemma dom_step_ok dom ch b : dom_wf dom -> b ∈ rpo -> b <> O ->
  (exists p, up p b /\ proc dom p) ->
  exists r, proc dom r /\ (rank r < rank b)%nat /\ rtc up r b /\ joins dom b r /\
    dom_step preds (rank_of rpo) (dom, ch) b =
      Ok (<[b := Some r]> dom, ch || negb (bool_decide (opt_at dom b = Some r))).
Proof.
  intros Hwf Hb Hb0 (p0 & Hp0 & Hpp0). unfold dom_step.
  set (l := base.filter (fun p => is_Some (opt_at dom p)) (list_at preds b)).
  assert (forall p, p ∈ l <-> edge succs p b /\ proc dom p) as Hl.
  { intros p. unfold l. rewrite list_elem_of_filter, Hpreds. unfold proc. tauto. }
  assert (p0 ∈ l) as Hin by (apply Hl; split; [apply Hp0|done]).
  destruct l as [|p ps] eqn:El; [by apply elem_of_nil in Hin|].
  destruct (intersect_all dom Hwf ps p) as (r & Er & Hr & Hx).
  { by apply Hl; left. }
  { apply Forall_forall. intros q Hq. by apply Hl; right. }
  assert (joins dom b r) as Hj.
  { intros x. rewrite Hx. split; intros H q; [intros; by apply H, Hl|]. intros [??]%Hl. by apply H. }
  assert (anc dom r p0) as Hrp.
  { apply Hj; [constructor|apply Hp0|done]. }
  exists r. split_and!; [done| | |done|].
  - apply (anc_rank dom Hwf) in Hrp. destruct Hp0 as (_ & _ & _ & ?). lia.
  - apply (anc_inc dom Hwf) in Hrp. by apply rtc_r with p0.
  - rewrite Er. cbn [mbind res_bind]. destruct (decide (opt_at dom b = Some r)) as [E|E].
    + rewrite bool_decide_eq_true_2, orb_false_r by done. do 2 f_equal. symmetry. apply list_insert_id.
      unfold opt_at in E. destruct (dom !! b) as [o|]; [by rewrite <- E|done].
    + by rewrite bool_decide_eq_false_2, orb_true_r.
Qed.

Section step.
Context (dom : list (option nat)) (Hwf : dom_wf dom) (Hover : over dom) (b r : nat).
Context (Hb : b ∈ rpo) (Hb0 : b <> O) (Hr : proc dom r) (Hrank : (rank r < rank b)%nat) (Hup : rtc up r b).
Context (Hj : joins dom b r).
Let dom' := <[b := Some r]> dom.

Lemma step_over_root x : dominates succs x b -> anc dom' x b.
Proof.
  intros Hd. apply update_root; [done..|]. destruct (decide (x = b)) as [->|Hne]; [by left|].
  right. apply Hj. intros p He Hp. apply Hover; [done|]. by apply (dominates_pred x p b).
Qed.

Lemma step_over : over dom'.
Proof.
  intros x y Hy Hd. destruct (decide (y = b)) as [->|Hne]; [by apply step_over_root|].
  assert (proc dom y) as Hy'.
  { unfold proc, dom' in Hy. rewrite update_at in Hy by done. by destruct (decide _). }
  pose proof (Hover x y Hy' Hd) as Hxy. destruct (anc_dec dom Hwf b y) as [Hby|Hby]; cycle 1.
  { by apply update_other. }
  apply update_below; [done..|]. destruct (Nat.le_gt_cases (rank b) (rank x)) as [Hle|Hgt]; [by left|].
  assert (dominates succs x b) as Hdb.
  { intros l Hl. destruct (path_inc l b y Hl (anc_inc dom Hwf b y Hby)) as (l' & Hl' & Hx).
    specialize (Hd _ Hl'). apply elem_of_app in Hd as [Hin|]; [|done]. specialize (Hx x Hin). lia. }
  apply step_over_root, update_root in Hdb as [-> | ?]; [lia|by right|done..].
Qed.

Lemma step_bounded k : bounded k (rank b) dom -> (k = O \/ forall y, y ∈ rpo -> proc dom y) ->
  (forall y, y ∈ rpo -> (rank y < rank b)%nat -> proc dom y) -> bounded k (S (rank b)) dom'.
Proof.
  intros Hk Hall Hdone.
  assert (forall x, anc dom x r -> on_all succs rpo (S k) x b) as Hroot.
  { intros x Hx l Hl Hret. inversion Hl as [|l' p b' Hl' He]; subst; [done|]. right.
    assert (p ∈ rpo) as Hp by (apply (path_in l' p p Hl'), (path_end l' p), Hl').
    assert (exists t, l' = p :: t) as [t ->] by (inversion Hl'; by eexists).
    rewrite retreats_cons in Hret. destruct (Nat.leb_spec (rank b) (rank p)) as [Hle|Hgt].
    - destruct Hall as [-> | Hall]; [lia|]. assert (anc dom x p) as Hxp by (apply Hj; [done..|by apply Hall]).
      apply Hk in Hxp; [|done]. replace (rank p <? rank b)%nat with false in Hxp by (symmetry; apply Nat.ltb_ge; lia).
      apply Hxp; [done|lia].
    - assert (anc dom x p) as Hxp by (apply Hj; [done..|by apply Hdone]).
      apply Hk in Hxp; [|done]. replace (rank p <? rank b)%nat with true in Hxp by (symmetry; apply Nat.ltb_lt; lia).
      apply Hxp; [done|lia]. }
  intros x y Hy. destruct (anc_dec dom Hwf b y) as [Hby|Hby]; cycle 1.
  - unfold dom'. rewrite update_other by done. intros Hxy%Hk; [|done].
    destruct (Nat.ltb_spec (rank y) (rank b)), (Nat.ltb_spec (rank y) (S (rank b))); try done; [lia|].
    assert (y = b) as -> by (apply rk_inj; [done..|lia]). destruct Hby. constructor.
  - unfold dom'. rewrite update_below by done. pose proof (anc_rank dom Hwf b y Hby) as Hle.
    destruct (anc_strict dom Hwf b y Hby) as [<-|Hlt].
    + replace (rank b <? S (rank b))%nat with true by (symmetry; apply Nat.ltb_lt; lia).
      intros [[[-> | ?]%(anc_strict dom Hwf) ?]|Hx]; [|lia|by apply Hroot].
      intros l Hl _. by apply path_end.
    + replace (rank y <? S (rank b))%nat with false by (symmetry; apply Nat.ltb_ge; lia).
      assert (forall z, anc dom z y -> on_all succs rpo k z y) as Hky.
      { intros z Hz%Hk; [|done]. by replace (rank y <? rank b)%nat with false in Hz by (symmetry; apply Nat.ltb_ge; lia). }
      intros [[Hx _]|Hx]; [by apply Hky|]. intros l Hl Hret.
      pose proof (Hky b Hby l Hl Hret) as Hbl. destruct (path_cut l y b Hl Hbl) as (l1 & l2 & -> & Hp).
      pose proof (retreats_cut (succs:=succs) (rpo:=rpo) l1 b l2). assert (x ∈ b :: l2) by (apply Hroot; [done|done|lia]).
      apply elem_of_app. by right.
Qed.
End step.

(** * Rounds *)

Record round_ok (k r : nat) (dom : list (option nat)) : Prop := {
  j_wf : dom_wf dom;
  j_over : over dom;
  j_bound : bounded k r dom;
  j_done : forall y, y ∈ rpo -> (rank y < r)%nat -> proc dom y;
  j_all : k = O \/ forall y, y ∈ rpo -> proc dom y;
}.

Definition joined (dom : list (option nat)) (b : nat) : Prop := exists d, opt_at dom b = Some d /\ joins dom b d.

Lemma round_step k dom ch b : round_ok k (rank b) dom -> b ∈ rpo -> b <> O ->
  exists dom' ch', dom_step preds (rank_of rpo) (dom, ch) b = Ok (dom', ch') /\
    round_ok k (S (rank b)) dom' /\ (ch = true -> ch' = true) /\ (ch' = false -> dom' = dom /\ joined dom b).
Proof.
  intros [Hwf Hov Hbd Hdone Hall] Hb Hb0. destruct (fwd_pred b Hb Hb0) as [p Hp].
  assert (proc dom p) as Hpp by (apply Hdone; apply Hp).
  destruct (dom_step_ok dom ch b Hwf Hb Hb0) as (r & Hr & Hrk & Hup & Hj & E); [by exists p|].
  exists (<[b := Some r]> dom), (ch || negb (bool_decide (opt_at dom b = Some r))). split_and!; [done| | |].
  - split.
    + by apply update_wf.
    + by apply step_over.
    + by apply step_bounded.
    + intros y Hy Hlt. destruct (decide (y = b)) as [->|Hne].
      * unfold proc. rewrite update_at by done. destruct (decide _); [by eexists|done].
      * apply update_proc; [done..|]. apply Hdone; [done|].
        assert (rank y <> rank b) by (intros ?; by apply Hne, rk_inj). lia.
    + destruct Hall as [?|Hall]; [by left|]. right. intros y Hy. by apply update_proc, Hall.
  - by intros ->.
  - intros [-> Hc]%orb_false_iff. apply negb_false_iff, bool_decide_eq_true in Hc. split; [|by exists r].
    apply list_insert_id. unfold opt_at in Hc. destruct (dom !! b) as [o|]; [by rewrite <- Hc|done].
Qed.

Lemma round_suffix k l pre dom ch : rpo = pre ++ l -> pre <> [] -> round_ok k (length pre) dom ->
  exists dom' ch', foldM (dom_step preds (rank_of rpo)) (dom, ch) l = Ok (dom', ch') /\
    round_ok k (length rpo) dom' /\ (ch = true -> ch' = true) /\
    (ch' = false -> dom' = dom /\ forall b, b ∈ l -> joined dom b).
Proof.
  revert pre dom ch. induction l as [|b l IH]; intros pre dom ch E Hpre Hok.
  - exists dom, ch. rewrite app_nil_r in E. subst pre. split_and!; try done. intros _. split; [done|]. set_solver.
  - assert (rpo !! length pre = Some b) as Eb by (rewrite E, lookup_app_r, Nat.sub_diag; done).
    assert (b ∈ rpo) as Hb by (by eapply list_elem_of_lookup_2).
    assert (rank b = length pre) as Hrk by (by apply rk_at).
    assert (b <> O) as Hb0.
    { intros ->. rewrite rk_entry in Hrk. by destruct pre. }
    rewrite <- Hrk in Hok. destruct (round_step k dom ch b Hok Hb Hb0) as (dom1 & ch1 & E1 & H1 & H2 & H3).
    cbn [foldM]. rewrite E1. cbn [mbind res_bind].
    destruct (IH (pre ++ [b]) dom1 ch1) as (dom' & ch' & E2 & H4 & H5 & H6).
    { by rewrite <- (assoc_L (++)). }
    { by destruct pre. }
    { rewrite length_app, Nat.add_1_r, <- Hrk. done. }
    exists dom', ch'. split_and!; [done|done|tauto|]. intros Hc. destruct (H6 Hc) as [-> Hl].
    destruct ch1; [by rewrite H5 in Hc|]. destruct (H3 eq_refl) as [-> Hj]. split; [done|].
    intros c [-> | Hc']%elem_of_cons; [done|by apply Hl].
Qed.

(** * Exactness *)

Definition exact (dom : list (option nat)) : Prop :=
  forall x y, y ∈ rpo -> anc dom x y <-> dominates succs x y.

Lemma over_exact dom : over dom -> (forall y, y ∈ rpo -> proc dom y) ->
  (forall x y, y ∈ rpo -> anc dom x y -> dominates succs x y) -> exact dom.
Proof. intros Hov Hall H x y Hy. split; [by apply H|]. apply Hov. by apply Hall. Qed.

Lemma joined_exact dom : over dom -> (forall y, y ∈ rpo -> proc dom y) ->
  (forall b, b ∈ rpo -> b <> O -> joined dom b) -> exact dom.
Proof.
  intros Hov Hall Hj. apply over_exact; [done..|]. intros x y _ Hxy l Hl. revert x Hxy.
  induction Hl as [|l p b Hl IH He]; intros x Hx.
  - apply anc_entry in Hx as ->. by left.
  - assert (p ∈ rpo) as Hp by (apply (path_in l p p Hl), (path_end l p), Hl).
    destruct (decide (b = O)) as [->|Hb0]; [apply anc_entry in Hx as ->; by left|].
    destruct (Hj b (edge_in p b Hp He) Hb0) as (d & E & Hd).
    apply (anc_inv dom x b d Hb0 E) in Hx as [-> | Hx]; [by left|]. right.
    apply IH. apply Hd; [done..|by apply Hall].
Qed.

Lemma exact_stable dom b : dom_wf dom -> exact dom -> (forall y, y ∈ rpo -> proc dom y) ->
  b ∈ rpo -> b <> O -> dom_step preds (rank_of rpo) (dom, false) b = Ok (dom, false).
Proof.
  intros Hwf Hex Hall Hb Hb0. destruct (fwd_pred b Hb Hb0) as [p Hp].
  destruct (dom_step_ok dom false b Hwf Hb Hb0) as (r & Hr & Hrk & Hup & Hj & ->).
  { exists p. split; [done|]. apply Hall, Hp. }
  destruct (Hall b Hb) as [d E]. assert (forall x, anc dom x r <-> anc dom x d) as Hx.
  { intros x. rewrite (Hj x). split.
    - intros H. assert (anc dom x b) as Hxb.
      { apply Hex; [done|]. intros l Hl. inversion Hl as [|l' q b' Hl' He]; subst; [done|]. right.
        assert (q ∈ rpo) as Hq by (apply (path_in l' q q Hl'), (path_end l' q), Hl').
        specialize (H q He (Hall q Hq)). apply Hex in H; [|done]. by apply H. }
      apply (anc_inv dom x b d Hb0 E) in Hxb as [-> | ?]; [|done].
      assert (anc dom b p) as Hbp by (apply H; [apply Hp|apply Hall, Hp]).
      apply (anc_rank dom Hwf) in Hbp. destruct Hp as (_ & _ & _ & ?). lia.
    - intros Hd q He Hq. apply Hex; [by apply (proc_in dom Hwf)|]. apply (dominates_pred x q b); [| |done].
      + apply Hex; [done|]. by apply (anc_up dom x b d).
      + intros ->. apply (anc_rank dom Hwf) in Hd. destruct (w_par _ Hwf b d Hb0 E) as (_ & _ & ? & _). lia. }
  assert (r = d) as ->.
  { apply (anc_antisym dom Hwf); [apply Hx; constructor|apply Hx; constructor]. }
  rewrite bool_decide_eq_true_2 by done. do 2 f_equal. apply list_insert_id.
  unfold opt_at in E. destruct (dom !! b) as [o|]; [by rewrite <- E|done].
Qed.

Lemma round_next k dom : round_ok k (length rpo) dom -> round_ok (S k) 1 dom.
Proof.
  intros [Hwf Hov Hbd Hdone Hall].
  assert (forall y, y ∈ rpo -> (rank y < length rpo)%nat) as Hlt.
  { intros y Hy. destruct (rk_spec y Hy) as (E & _ & _). by apply lookup_lt_Some in E. }
  split; [done|done| | |].
  - intros x y Hy Hxy. destruct (Nat.ltb_spec (rank y) 1) as [H1|H1].
    + assert (y = O) as -> by (apply rk_inj; [done|apply entry_in|rewrite rk_entry; lia]).
      apply anc_entry in Hxy as ->. intros l Hl _. by apply path_end.
    + pose proof (Hbd x y Hy Hxy) as Hk. by rewrite (proj2 (Nat.ltb_lt _ _) (Hlt y Hy)) in Hk.
  - intros y Hy _. by apply Hdone, Hlt.
  - right. intros y Hy. by apply Hdone, Hlt.
Qed.

Lemma dom_loop_ok fuel k dom : round_ok k 1 dom -> (k <= n)%nat -> (n - k < fuel)%nat ->
  exists dom', dom_loop fuel preds rpo (rank_of rpo) dom = Ok dom' /\ dom_wf dom' /\
    (forall y, y ∈ rpo -> proc dom' y) /\ exact dom'.
Proof.
  revert k dom. induction fuel as [|fuel IH]; intros k dom Hok Hk Hf; [lia|]. cbn [dom_loop].
  destruct (r_head succs) as [rest Erpo]. assert (tail rpo = rest) as -> by (by rewrite Erpo).
  destruct (decide (k = n)) as [->|Hne].
  - destruct Hok as [Hwf Hov Hbd Hdone Hall]. destruct Hall as [Hall|Hall]; [pose proof cfg_pos; lia|].
    assert (exact dom) as Hex.
    { apply over_exact; [done..|]. intros x y Hy Hxy. apply on_all_dominates.
      pose proof (Hbd x y Hy Hxy) as H. destruct (rank y <? 1)%nat; [|done].
      by apply (on_all_mono (S n)); [lia|]. }
    exists dom. split_and!; try done.
    assert (forall l, (forall b, b ∈ l -> b ∈ rpo /\ b <> O) ->
      foldM (dom_step preds (rank_of rpo)) (dom, false) l = Ok (dom, false)) as G.
    { induction l as [|b l IHl]; intros H; [done|]. cbn [foldM].
      rewrite exact_stable by (done || by apply H; left). cbn [mbind res_bind]. apply IHl.
      intros c Hc. apply H. by right. }
    rewrite G; [done|]. intros b Hb. pose proof (r_nodup succs) as Hnd. rewrite Erpo in *.
    apply NoDup_cons in Hnd as [H0 _]. split; [by right|]. by intros ->.
  - destruct (round_suffix k rest [O] dom false Erpo) as (dom1 & ch & E & H1 & _ & H2); [done|done|].
    rewrite E. cbn [mbind res_bind]. destruct ch.
    + apply (IH (S k)); [by apply round_next|lia..].
    + destruct (H2 eq_refl) as [-> Hj]. pose proof (round_next k dom H1) as [Hwf Hov _ _ Hall].
      destruct Hall as [|Hall]; [done|]. exists dom. split_and!; try done. apply joined_exact; [done..|].
      intros b Hb Hb0. apply Hj. rewrite Erpo in Hb. set_solver.
Qed.
End idom.

(** * The result *)

(** The parents of the dominator tree, [rank] increasing downwards. *)
Record dom_tree (succs : list (list nat)) (rpo dom : list nat) : Prop := {
  dt_len : length dom = length succs;
  dt_entry : nat_at dom O = O;
  dt_unreached b : b ∉ rpo -> nat_at dom b = O;
  dt_in b : b ∈ rpo -> nat_at dom b ∈ rpo;
  dt_rank b : b ∈ rpo -> b <> O -> (rk succs rpo (nat_at dom b) < rk succs rpo b)%nat;
  dt_dom b : b ∈ rpo -> dominates succs (nat_at dom b) b;
  dt_idom b x : b ∈ rpo -> dominates succs x b -> x <> b -> dominates succs x (nat_at dom b);
}.

Lemma compute_dominators_ok succs {Hcfg : Cfg succs} :
  exists rpo dom, rpo_ok succs rpo /\ compute_dominators succs (compute_predecessors succs) = Ok dom /\
    dom_tree succs rpo dom.
Proof.
  destruct (reverse_postorder_ok succs cfg_lt cfg_pos) as (rpo & Er & Hrpo).
  destruct (predecessors_ok succs cfg_lt) as [_ Hp].
  set (dom0 := <[O := Some O]> (replicate (length succs) None)).
  assert (forall b, opt_at dom0 b = if decide (b = O) then Some O else None) as H0.
  { intros b. unfold dom0. rewrite opt_at_insert by (rewrite length_replicate; apply cfg_pos).
    destruct (decide _); [done|]. unfold opt_at. destruct (replicate _ _ !! b) eqn:E; [|done].
    by apply lookup_replicate in E as [-> _]. }
  assert (forall y, proc dom0 y -> y = O) as Hproc.
  { intros y. unfold proc. rewrite H0. destruct (decide _); [done|]. by intros [? ?]. }
  assert (round_ok (succs:=succs) (rpo:=rpo) O 1 dom0) as Hok.
  { split.
    - split; [unfold dom0; by rewrite length_insert, length_replicate|by rewrite H0|].
      intros b d Hb. rewrite H0. by destruct (decide _).
    - intros x y ->%Hproc Hd. specialize (Hd _ (path_entry succs)). apply list_elem_of_singleton in Hd as ->. constructor.
    - intros x y Hy Hxy. assert (y = O \/ x = y) as [-> | ->].
      { destruct (decide (y = O)) as [->|Hne]; [by left|right]. apply (anc_none dom0 x y); [|done].
        rewrite H0. by destruct (decide _). }
      + apply anc_entry in Hxy as ->. intros l Hl _. by apply path_end.
      + intros l Hl _. by apply path_end.
    - intros y Hy Hlt. assert (y = O) as -> by (apply rk_inj; [done|apply entry_in|rewrite rk_entry; lia]).
      unfold proc. rewrite H0. by eexists.
    - by left. }
  destruct (dom_loop_ok (compute_predecessors succs) Hp (S (length succs)) O dom0 Hok) as (dom & E & Hwf & Hall & Hex);
    [lia..|].
  exists rpo, (List.map (default O) dom). split; [done|]. split.
  { unfold compute_dominators. rewrite Er. cbn [mbind res_bind]. fold dom0. by rewrite E. }
  assert (forall b, nat_at (List.map (default O) dom) b = default O (opt_at dom b)) as Hat.
  { intros b. unfold nat_at, opt_at. change (List.map (default O) dom) with (default O <$> dom).
    rewrite list_lookup_fmap. by destruct (dom !! b) as [[d|]|]. }
  assert (forall b, b ∈ rpo -> b <> O -> exists d, opt_at dom b = Some d /\ d ∈ rpo /\
    (rk succs rpo d < rk succs rpo b)%nat /\ anc dom d b) as Hd.
  { intros b Hb Hb0. destruct (Hall b Hb) as [d Ed]. destruct (w_par _ Hwf b d Hb0 Ed) as (_ & Hpd & Hrk & _).
    exists d. split_and!; [done|by apply (proc_in dom Hwf)|done|]. apply (anc_up dom d b d); [done..|constructor]. }
  split.
  - rewrite length_map. apply Hwf.
  - rewrite Hat, (w_root _ Hwf). done.
  - intros b Hb. rewrite Hat. destruct (opt_at dom b) as [d|] eqn:Ed; [|done].
    destruct Hb. apply (proc_in dom Hwf). by exists d.
  - intros b Hb. rewrite Hat. destruct (decide (b = O)) as [->|Hb0]; [by rewrite (w_root _ Hwf)|].
    destruct (Hd b Hb Hb0) as (d & -> & ? & _). done.
  - intros b Hb Hb0. rewrite Hat. destruct (Hd b Hb Hb0) as (d & -> & _ & ? & _). done.
  - intros b Hb. rewrite Hat. destruct (decide (b = O)) as [->|Hb0].
    + rewrite (w_root _ Hwf). apply dominates_refl.
    + destruct (Hd b Hb Hb0) as (d & -> & _ & _ & Ha). by apply Hex.
  - intros b x Hb Hx Hne. rewrite Hat. destruct (decide (b = O)) as [->|Hb0].
    + destruct Hne. specialize (Hx _ (path_entry succs)). by apply list_elem_of_singleton in Hx.
    + destruct (Hd b Hb Hb0) as (d & Ed & Hdr & _ & _). rewrite Ed. apply Hex; [done|].
      apply Hex in Hx; [|done]. apply (anc_inv dom x b d Hb0 Ed) in Hx as [-> | ?]; done.
Qed.

(** C6: the dominator computation ends within its bound and is right. For every
    control-flow graph with an entry block, irreducible ones included, the
    block it gives for a reachable block other than the entry is the immediate
    dominator: it is another block on every path from the entry, and every
    other block on every such path is on every path to it. The entry and the
    unreachable blocks get the entry. *)
Theorem compute_dominators_exact {I} `{!ArchInsn I} (f : Function I) succs :
  blocks f <> [] -> successors (E:=Stuck) f = Ok succs ->
  exists dom, compute_dominators succs (compute_predecessors succs) = Ok dom /\
    length dom = length (blocks f) /\
    (forall b, rtc (edge succs) O b -> b <> O ->
      nat_at dom b <> b /\ dominates succs (nat_at dom b) b /\
      forall x, dominates succs x b -> x <> b -> dominates succs x (nat_at dom b)) /\
    (forall b, ~ rtc (edge succs) O b \/ b = O -> nat_at dom b = O).
Proof.
  intros Hne [Hlen Hlt]%successors_ok.
  assert (Cfg succs) as Hcfg by (split; [done|]; rewrite Hlen; by destruct (blocks f); [|cbn; lia]).
  destruct (compute_dominators_ok succs) as (rpo & dom & Hrpo & E & Hdt). exists dom.
  split_and!; [done|by rewrite (dt_len _ _ _ Hdt)| |].
  - intros b Hb%(r_reach succs) Hb0. pose proof (dt_rank _ _ _ Hdt b Hb Hb0) as Hr.
    split_and!; [intros Eq; rewrite Eq in Hr; lia|by apply (dt_dom _ _ _ Hdt)|].
    intros x. by apply (dt_idom _ _ _ Hdt).
  - intros b [Hb | ->]; [|apply Hdt]. apply (dt_unreached _ _ _ Hdt). by rewrite (r_reach succs).
Qed.

(** The entry branches into the two halves of a cycle: no natural loop. *)
Definition irreducible : Function TestInsn :=
  test_func
    [test_block 0 [(0, [], [])] (ConditionalBranch 2 4);
     test_block 2 [(2, [], [])] Fallthrough;
     test_block 4 [(4, [], [])] (ConditionalBranch 2 6);
     test_block 6 [(6, [], [])] Return].

Lemma compute_dominators_exact_witness :
  blocks irreducible <> [] /\ successors (E:=Stuck) irreducible = Ok [[2; 1]; [2]; [3; 1]; []]%nat /\
  exists dom, compute_dominators [[2; 1]; [2]; [3; 1]; []]%nat
      (compute_predecessors [[2; 1]; [2]; [3; 1]; []]%nat) = Ok dom /\
    dom = [0; 0; 0; 2]%nat.
Proof.
  assert (blocks irreducible <> []) as H1 by done.
  assert (successors (E:=Stuck) irreducible = Ok [[2; 1]; [2]; [3; 1]; []]%nat) as H2 by (vm_compute; reflexivity).
  split; [exact H1|]. split; [exact H2|].
  destruct (compute_dominators_exact irreducible _ H1 H2) as (dom & E & _). exists dom.
  split; [exact E|]. vm_compute in E. by injection E as <-.
Defined.
