(* ===== verification/SsaPhi.v ===== *)
(** Dominance frontiers and the placement of phis (ir/ssa.rs): the walks end,
    and the placement is closed: a block in the frontier of a block that
    defines a variable, by an instruction or by a phi, has a phi for it. *)

From S2P Require Import Prelude Common Ir Ssa SsaLive SsaDom SsaIdom.

(** * Frontiers *)

(** [x] is met on the way up from [p], before the block [t]. *)
Inductive on_walk (dom : list nat) (t x : nat) : nat -> Prop :=
| ow_here : x <> t -> on_walk dom t x x
| ow_up p : p <> t -> nat_at dom p <> p -> on_walk dom t x (nat_at dom p) -> on_walk dom t x p.

Section frontier.
Context {succs : list (list nat)} {Hcfg : Cfg succs} {rpo : list nat} {Hrpo : rpo_ok succs rpo}.
#[local] Abbreviation n := (length succs).
#[local] Abbreviation rank := (rk succs rpo).

Lemma rank_le b : (rank b <= n)%nat.
Proof.
  destruct (decide (b ∈ rpo)) as [Hb|Hb]; [destruct (rk_spec b Hb) as (_ & _ & ?); lia|].
  unfold rk. destruct (rank_of rpo !! b) as [k|] eqn:E; [|done].
  apply rank_of_lookup, list_elem_of_lookup_2 in E. done.
Qed.

Lemma rank_out b : b ∉ rpo -> rank b = n.
Proof.
  intros Hb. unfold rk. destruct (rank_of rpo !! b) as [k|] eqn:E; [|done].
  by apply rank_of_lookup, list_elem_of_lookup_2 in E.
Qed.

Context (dom : list nat) (Hdt : dom_tree succs rpo dom).

(** Going up in the tree lowers the rank, from unreachable blocks too. *)
Lemma up_rank b : nat_at dom b <> b -> (rank (nat_at dom b) < rank b)%nat.
Proof.
  intros Hne. destruct (decide (b ∈ rpo)) as [Hb|Hb].
  - apply (dt_rank _ _ _ Hdt); [done|]. intros ->. by rewrite (dt_entry _ _ _ Hdt) in Hne.
  - rewrite (dt_unreached _ _ _ Hdt b Hb), (rank_out b Hb), rk_entry. apply cfg_pos.
Qed.

Lemma up_lt b : (nat_at dom b < n)%nat.
Proof.
  destruct (decide (b ∈ rpo)) as [Hb|Hb]; [by apply rpo_lt, (dt_in _ _ _ Hdt)|].
  rewrite (dt_unreached _ _ _ Hdt b Hb). apply cfg_pos.
Qed.

Context (preds : list (list nat)) (Hlen : length preds = length succs).
Context (Hpreds : forall p b, p ∈ list_at preds b <-> edge succs p b).

Lemma pred_lt p b : edge succs p b -> (p < n)%nat.
Proof.
  unfold edge, list_at. intros H. destruct (succs !! p) eqn:E; [by apply lookup_lt_Some in E|].
  by apply elem_of_nil in H.
Qed.

Record df_ok (df : list (gset nat)) : Prop := {
  df_len : length df = n;
  df_join x y : y ∈ set_at df x -> (y < n)%nat /\ (2 <= length (list_at preds y))%nat;
}.

Definition df_grows (df df' : list (gset nat)) : Prop := forall x y, y ∈ set_at df x -> y ∈ set_at df' x.

Lemma frontier_walk_ok fuel b : forall runner df, df_ok df -> (b < n)%nat ->
  (2 <= length (list_at preds b))%nat -> (runner < n)%nat -> (rank runner < fuel)%nat ->
  exists df', frontier_walk fuel dom b runner df = Ok df' /\ df_ok df' /\ df_grows df df' /\
    forall x, on_walk dom (nat_at dom b) x runner -> b ∈ set_at df' x.
Proof.
  induction fuel as [|fuel IH]; intros runner df Hdf Hb Hj Hr Hf; [lia|]. cbn [frontier_walk].
  destruct (decide (runner = nat_at dom b)) as [Et|Hne].
  { exists df. split_and!; [done|done|by intros ??|]. intros x Hx. inversion Hx; congruence. }
  set (df1 := alter (fun s => s ∪ {[b]}) runner df).
  assert (forall x, set_at df1 x = if decide (x = runner) then set_at df x ∪ {[b]} else set_at df x) as H1.
  { intros x. unfold df1, set_at. destruct (decide (x = runner)) as [->|?].
    - rewrite list_lookup_alter_eq. destruct (df !! runner) eqn:E; [done|].
      apply lookup_ge_None in E. rewrite (df_len _ Hdf) in E. lia.
    - by rewrite list_lookup_alter_ne. }
  assert (df_ok df1) as Hdf1.
  { split; [unfold df1; by rewrite length_alter, (df_len _ Hdf)|]. intros x y. rewrite H1.
    destruct (decide _); [|apply Hdf]. intros [Hy| ->%elem_of_singleton]%elem_of_union; [by apply (df_join _ Hdf x)|done]. }
  assert (df_grows df df1) as Hg1.
  { intros x y Hy. rewrite H1. destruct (decide _); set_solver. }
  destruct (decide (nat_at dom runner = runner)) as [Eu|Hu].
  - exists df1. split_and!; [done..|]. intros x Hx. inversion Hx; subst; [|done].
    rewrite H1. destruct (decide _); set_solver.
  - destruct (IH (nat_at dom runner) df1) as (df' & E & H2 & H3 & H4); [done..|apply up_lt| |].
    { pose proof (up_rank runner Hu). lia. }
    exists df'. split_and!; [done|done|by intros x y Hy; apply H3, Hg1|].
    intros x Hx. inversion Hx; subst; [|by apply H4]. apply H3. rewrite H1. destruct (decide _); set_solver.
Qed.

(** Every block on the way from a predecessor of a join up to the join's
    dominator has the join in its frontier. *)
Lemma frontiers_ok : exists df, compute_dominance_frontiers preds dom = Ok df /\ df_ok df /\
  forall b p x, (b < n)%nat -> (2 <= length (list_at preds b))%nat -> edge succs p b ->
    on_walk dom (nat_at dom b) x p -> b ∈ set_at df x.
Proof.
  unfold compute_dominance_frontiers. rewrite (dt_len _ _ _ Hdt).
  assert (df_ok (replicate n ∅)) as H0.
  { split; [by rewrite length_replicate|]. intros x y. unfold set_at.
    destruct (replicate n ∅ !! x) as [X|] eqn:E; [|set_solver]. apply lookup_replicate in E as [-> _]. set_solver. }
  destruct (foldM_invariant (E:=Stuck)
    (fun done df => df_ok df /\ forall b p x, b ∈ done -> (2 <= length (list_at preds b))%nat -> edge succs p b ->
       on_walk dom (nat_at dom b) x p -> b ∈ set_at df x)
    (fun df b => if (length (list_at preds b) <? 2)%nat then Ok df
       else foldM (fun df p => frontier_walk (S n) dom b p df) df (list_at preds b))
    (seq 0 n) (replicate n ∅)) as (df & E & Hdf & Hw).
  - split; [done|]. intros b p x Hb. by apply elem_of_nil in Hb.
  - intros pre b post df Es [Hdf Hw]. assert (b < n)%nat as Hb.
    { assert (b ∈ seq 0 n) as Hin by (rewrite Es; set_solver). apply elem_of_seq in Hin. lia. }
    destruct (Nat.ltb_spec (length (list_at preds b)) 2) as [H2|H2].
    + exists df. split; [done|]. split; [done|]. intros c p x [Hc| ->%list_elem_of_singleton]%elem_of_app ?; [by apply Hw|lia].
    + destruct (foldM_invariant (E:=Stuck)
        (fun done df' => df_ok df' /\ df_grows df df' /\
           forall p x, p ∈ done -> on_walk dom (nat_at dom b) x p -> b ∈ set_at df' x)
        (fun df p => frontier_walk (S n) dom b p df) (list_at preds b) df) as (df' & E & H1 & H3 & H4).
      * split_and!; [done|by intros ??|]. intros p x Hp. by apply elem_of_nil in Hp.
      * intros pre' p post' df1 Ep (H1 & H3 & H4). assert (p ∈ list_at preds b) as Hp by (rewrite Ep; set_solver).
        destruct (frontier_walk_ok (S n) b p df1 H1 Hb H2) as (df2 & E2 & H5 & H6 & H7).
        { by apply (pred_lt p b), Hpreds. }
        { pose proof (rank_le p). lia. }
        exists df2. split_and!; [done|done|by intros x y Hy; apply H6, H3|].
        intros q x [Hq| ->%list_elem_of_singleton]%elem_of_app Hx; [by apply H6, (H4 q)|by apply H7].
      * exists df'. split; [done|]. split; [done|].
        intros c p x [Hc| ->%list_elem_of_singleton]%elem_of_app H2' He Hx; [by apply H3, (Hw c p)|].
        apply (H4 p); [by apply Hpreds|done].
  - exists df. split_and!; [done|done|]. intros b p x Hb. apply Hw, elem_of_seq. lia.
Qed.
End frontier.

(** * Blocks that define a variable *)

Lemma add_block_at (b : nat) (ws : list Var) (m : gmap Var (gset nat)) v c :
  c ∈ default ∅ (fold_left (fun m w => <[w := default ∅ (m !! w) ∪ {[b]}]> m) ws m !! v) <->
  c ∈ default ∅ (m !! v) \/ (c = b /\ v ∈ ws).
Proof.
  revert m. induction ws as [|w ws IH]; intros m; cbn; [set_solver|]. rewrite IH.
  destruct (decide (w = v)) as [->|Hne].
  - rewrite lookup_insert_eq. cbn. set_solver.
  - rewrite lookup_insert_ne by done. set_solver.
Qed.

Lemma add_blocks_at (b : nat) (l : list InsnRw) (m : gmap Var (gset nat)) v c :
  c ∈ default ∅ (fold_left (fun m (x : InsnRw) =>
    fold_left (fun m w => <[w := default ∅ (m !! w) ∪ {[b]}]> m) x.2 m) l m !! v) <->
  c ∈ default ∅ (m !! v) \/ (c = b /\ written_in v l).
Proof.
  revert m. induction l as [|x l IH]; intros m; cbn.
  - unfold written_in. set_solver.
  - rewrite IH, add_block_at, written_in_cons. tauto.
Qed.

Lemma def_blocks_spec R v b : b ∈ default ∅ (def_blocks R !! v) <-> written_in v (list_at R b).
Proof.
  unfold def_blocks.
  assert (forall l k (m : gmap Var (gset nat)),
    b ∈ default ∅ (fold_left (fun m '(bi, brw) =>
      fold_left (fun m (x : InsnRw) =>
          fold_left (fun m w => <[w := default ∅ (m !! w) ∪ {[bi]}]> m) x.2 m) brw m)
      (zip (seq k (length l)) l) m !! v) <->
    b ∈ default ∅ (m !! v) \/ exists j, b = (k + j)%nat /\ written_in v (list_at l j)) as G.
  { induction l as [|brw l IH]; intros k m; cbn [length seq zip zip_with fold_left].
    - split; [by left|]. intros [?|(j & _ & x & Hx & _)]; [done|]. by apply elem_of_nil in Hx.
    - rewrite IH, add_blocks_at. split.
      + intros [[?|[-> ?]]|(j & -> & ?)]; [by left|right; exists O; split; [lia|done]|].
        right. exists (S j). split; [lia|done].
      + intros [?|([|j] & -> & ?)]; [by left; left|left; right; split; [lia|done]|].
        right. exists j. split; [lia|done]. }
  unfold enumerate. rewrite G, lookup_empty. cbn. split.
  - intros [?|(j & -> & ?)]; [set_solver|done].
  - intros H. right. by exists b.
Qed.

(** * The order of the hash tables *)

Lemma map_order_spec `{HO : HashOrder} {K A} `{Countable K} (m : gmap K A) :
  NoDup (map_order m).*1 /\ forall k a, (k, a) ∈ map_order m <-> m !! k = Some a.
Proof.
  rewrite map_order_perm. split; [apply NoDup_fst_map_to_list|]. intros k a.
  by rewrite map_order_perm, elem_of_map_to_list.
Qed.

Lemma elem_of_set_order `{HO : HashOrder} {A} `{Countable A} (X : gset A) x : x ∈ set_order X <-> x ∈ X.
Proof. by rewrite set_order_perm, elem_of_elements. Qed.

(** * The worklist *)

Section place.
Context `{HO : HashOrder} (df : list (gset nat)) (var : Var) (D : gset nat) (phis : gmap Var (gset nat)).
#[local] Abbreviation n := (length df).
Context (Hdf : forall x y, y ∈ set_at df x -> (y < n)%nat) (HD : forall b, b ∈ D -> (b < n)%nat).

Record placing_ok (st : Placing) : Prop := {
  pl_defs b : b ∈ D -> b ∈ in_worklist st;
  pl_placed b : b ∈ placed st -> b ∈ in_worklist st;
  pl_lt b : b ∈ in_worklist st -> (b < n)%nat;
  pl_work b : b ∈ worklist st -> b ∈ in_worklist st;
  pl_phis : default ∅ (phi_blocks st !! var) = placed st;
  pl_other v : v <> var -> phi_blocks st !! v = phis !! v;
  pl_join y : y ∈ placed st -> exists x, y ∈ set_at df x;
}.

Definition done_at (st : Placing) (b : nat) : Prop := forall y, y ∈ set_at df b -> y ∈ placed st.

(** Pops still to come. *)
Definition left_over (st : Placing) : nat := (length (worklist st) + (n - size (in_worklist st)))%nat.

Lemma in_worklist_size st : placing_ok st -> (size (in_worklist st) <= n)%nat.
Proof.
  intros Hok. etrans; [|by rewrite <- (length_seq n 0); apply size_of_list].
  apply subseteq_size. intros b Hb%(pl_lt _ Hok). apply elem_of_list_to_set, elem_of_seq. lia.
Qed.

Lemma place_at_ok st y : placing_ok st -> (exists x, y ∈ set_at df x) ->
  placing_ok (place_at var st y) /\ placed (place_at var st y) = placed st ∪ {[y]} /\
  (left_over (place_at var st y) = left_over st)%nat /\
  (forall b, b ∈ worklist st -> b ∈ worklist (place_at var st y)) /\
  forall b, b ∈ in_worklist (place_at var st y) -> b ∈ in_worklist st \/ b ∈ worklist (place_at var st y).
Proof.
  intros Hok [x Hx]. pose proof (Hdf x y Hx) as Hy. unfold place_at.
  destruct (decide (y ∈ placed st)) as [Hp|Hp].
  { split_and!; [done|set_solver|done|done|tauto]. }
  assert (forall w iw, (forall b, b ∈ in_worklist st -> b ∈ iw) -> y ∈ iw -> (forall b, b ∈ iw -> (b < n)%nat) ->
    (forall b, b ∈ w -> b ∈ iw) ->
    placing_ok {| worklist := w; placed := placed st ∪ {[y]}; in_worklist := iw;
      phi_blocks := <[var := default ∅ (phi_blocks st !! var) ∪ {[y]}]> (phi_blocks st) |}) as G.
  { intros w iw Hi Hyi Hl Hw. split; cbn.
    - intros b Hb. by apply Hi, (pl_defs _ Hok).
    - intros b [Hb|Hb]%elem_of_union; [by apply Hi, (pl_placed _ Hok)|set_solver].
    - done.
    - done.
    - rewrite lookup_insert_eq. cbn. by rewrite (pl_phis _ Hok).
    - intros v Hv. rewrite lookup_insert_ne by done. by apply (pl_other _ Hok).
    - intros z [Hz|Hz]%elem_of_union; [by apply (pl_join _ Hok)|]. exists x. set_solver. }
  destruct (decide (y ∈ in_worklist st)) as [Hin|Hin]; cbn.
  - split_and!; [|done|done|done|tauto]. apply G; [done|done|apply (pl_lt _ Hok)|apply (pl_work _ Hok)].
  - split_and!; [|done| | |].
    + apply G; [set_solver|set_solver| |].
      * intros b [Hb|Hb]%elem_of_union; [by apply (pl_lt _ Hok)|]. by apply elem_of_singleton in Hb as ->.
      * intros b [-> | Hb]%elem_of_cons; [set_solver|]. apply elem_of_union_l. by apply (pl_work _ Hok).
    + unfold left_over. cbn. pose proof (in_worklist_size st Hok). rewrite size_union by set_solver.
      rewrite size_singleton. assert (placing_ok {| worklist := y :: worklist st; placed := placed st;
        in_worklist := in_worklist st ∪ {[y]}; phi_blocks := phi_blocks st |}) as Hok'.
      { split; cbn.
        - intros b Hb. apply elem_of_union_l. by apply (pl_defs _ Hok).
        - intros b Hb. apply elem_of_union_l. by apply (pl_placed _ Hok).
        - intros b [Hb|Hb]%elem_of_union; [by apply (pl_lt _ Hok)|]. by apply elem_of_singleton in Hb as ->.
        - intros b [-> | Hb]%elem_of_cons; [set_solver|]. apply elem_of_union_l. by apply (pl_work _ Hok).
        - apply Hok.
        - apply Hok.
        - apply Hok. }
      apply in_worklist_size in Hok'. cbn in Hok'. rewrite size_union, size_singleton in Hok' by set_solver. lia.
    + set_solver.
    + set_solver.
Qed.

Lemma place_all_ok ys st : placing_ok st -> (forall y, y ∈ ys -> exists x, y ∈ set_at df x) ->
  let st' := fold_left (place_at var) ys st in
  placing_ok st' /\ placed st' = placed st ∪ list_to_set ys /\ (left_over st' = left_over st)%nat /\
  (forall b, b ∈ worklist st -> b ∈ worklist st') /\
  forall b, b ∈ in_worklist st' -> b ∈ in_worklist st \/ b ∈ worklist st'.
Proof.
  revert st. induction ys as [|y ys IH]; intros st Hok Hys; cbn.
  - split_and!; [done|set_solver|done|done|tauto].
  - destruct (place_at_ok st y Hok) as (H1 & H2 & H3 & H4 & H5); [apply Hys; set_solver|].
    destruct (IH _ H1) as (H6 & H7 & H8 & H9 & H10); [set_solver|].
    split_and!; [done| |lia|by intros b Hb; apply H9, H4|].
    + rewrite H7, H2. set_solver.
    + intros b Hb. destruct (H10 b Hb) as [Hb'|]; [|by right]. destruct (H5 b Hb') as [?|?]; [by left|right; by apply H9].
Qed.

Lemma place_loop_ok fuel st : placing_ok st -> (left_over st <= fuel)%nat ->
  (forall b, b ∈ in_worklist st -> b ∈ worklist st \/ done_at st b) ->
  exists st', place_loop fuel df var st = Ok st' /\ placing_ok st' /\ forall b, b ∈ in_worklist st' -> done_at st' b.
Proof.
  revert st. induction fuel as [|fuel IH]; intros st Hok Hf Hd; cbn [place_loop].
  - destruct (worklist st) as [|b rest] eqn:Ew; [|unfold left_over in Hf; rewrite Ew in Hf; cbn in Hf; lia].
    exists st. split_and!; [done|done|]. intros b Hb. destruct (Hd b Hb) as [Hb'|]; [|done]. by apply elem_of_nil in Hb'.
  - destruct (worklist st) as [|b rest] eqn:Ew.
    { exists st. split_and!; [done|done|]. intros b Hb. destruct (Hd b Hb) as [Hb'|]; [|done]. by apply elem_of_nil in Hb'. }
    set (st0 := {| worklist := rest; placed := placed st; in_worklist := in_worklist st; phi_blocks := phi_blocks st |}).
    assert (placing_ok st0) as Hok0.
    { destruct Hok as [? ? ? Hwk ? ? ?]. split; cbn; try done. intros c Hc. apply Hwk. rewrite Ew. by right. }
    destruct (place_all_ok (set_order (set_at df b)) st0 Hok0) as (H1 & H2 & H3 & H4 & H5).
    { intros y Hy%elem_of_set_order. by exists b. }
    apply IH; [done| |].
    + rewrite H3. unfold left_over in *. rewrite Ew in Hf. cbn in *. lia.
    + intros c Hc. destruct (H5 c Hc) as [Hc'|]; [|by left]. cbn in Hc'.
      destruct (Hd c Hc') as [[-> | Hc'']%elem_of_cons|Hc''].
      * right. intros y Hy. rewrite H2. apply elem_of_union_r, elem_of_list_to_set, elem_of_set_order, Hy.
      * left. by apply H4.
      * right. intros y Hy. rewrite H2. apply elem_of_union_l. by apply Hc''.
Qed.

Lemma place_start : phis !! var = None ->
  exists st, place_loop n df var {| worklist := reverse (set_order D); placed := ∅; in_worklist := D; phi_blocks := phis |}
    = Ok st /\ (forall v, v <> var -> phi_blocks st !! v = phis !! v) /\
    (forall b, b ∈ D \/ b ∈ default ∅ (phi_blocks st !! var) ->
      set_at df b ⊆ default ∅ (phi_blocks st !! var)) /\
    forall y, y ∈ default ∅ (phi_blocks st !! var) -> exists x, y ∈ set_at df x.
Proof.
  intros Hnone. set (st0 := {| worklist := _ |}).
  assert (placing_ok st0) as Hok.
  { split; cbn; try done; try set_solver.
    - intros b. by rewrite elem_of_reverse, elem_of_set_order.
    - by rewrite Hnone. }
  destruct (place_loop_ok n st0 Hok) as (st & E & Hst & Hd).
  - unfold left_over. cbn. pose proof (in_worklist_size st0 Hok). cbn in *.
    rewrite length_reverse, set_order_perm. change (length (elements D)) with (size D). lia.
  - intros b Hb. left. cbn. by apply elem_of_reverse, elem_of_set_order.
  - exists st. split_and!; [done|apply Hst| |].
    + intros b Hb y Hy. rewrite (pl_phis _ Hst) in *. apply (Hd b); [|done].
      destruct Hb as [Hb|Hb]; [by apply (pl_defs _ Hst)|by apply (pl_placed _ Hst)].
    + intros y. rewrite (pl_phis _ Hst). apply Hst.
Qed.
End place.

(** * Placement *)

Section phis.
Context `{HO : HashOrder} (df : list (gset nat)) (R : BlockRw) (HR : length R = length df).
Context (Hdf : forall x y, y ∈ set_at df x -> (y < length df)%nat).

(** [b] has a phi for [v]. *)
Definition has_phi (phis : gmap Var (gset nat)) (v : Var) (b : nat) : Prop := b ∈ default ∅ (phis !! v).

Lemma place_phis_ok : exists phis, place_phis df R = Ok phis /\
  (forall v b, written_in v (list_at R b) \/ has_phi phis v b -> forall y, y ∈ set_at df b -> has_phi phis v y) /\
  (forall v y, has_phi phis v y -> exists x, y ∈ set_at df x).
Proof.
  unfold place_phis.
  destruct (map_order_spec (def_blocks R)) as [Hnd Hin]. revert Hnd Hin. generalize (map_order (def_blocks R)). intros l Hnd Hin.
  assert (forall pre post, l = pre ++ post -> forall phis,
    (forall v, v ∉ pre.*1 -> phis !! v = None) ->
    (forall v b, v ∈ pre.*1 -> written_in v (list_at R b) \/ has_phi phis v b ->
      forall y, y ∈ set_at df b -> has_phi phis v y) ->
    (forall v y, has_phi phis v y -> exists x, y ∈ set_at df x) ->
    exists phis', foldM (fun phis '(var, ds) =>
      st ← place_loop (length df) df var
             {| worklist := reverse (set_order ds); placed := ∅; in_worklist := ds; phi_blocks := phis |};
      Ok (phi_blocks st)) phis post = Ok phis' /\
      (forall v, v ∉ l.*1 -> phis' !! v = None) /\
      (forall v b, v ∈ l.*1 -> written_in v (list_at R b) \/ has_phi phis' v b ->
        forall y, y ∈ set_at df b -> has_phi phis' v y) /\
      (forall v y, has_phi phis' v y -> exists x, y ∈ set_at df x)) as G.
  { intros pre post. revert pre. induction post as [|[w D] post IH]; intros pre El phis H1 H2 H3.
    - exists phis. rewrite app_nil_r in El. by subst pre.
    - assert (def_blocks R !! w = Some D) as HD by (apply Hin; rewrite El; set_solver).
      assert (forall b, b ∈ D <-> written_in w (list_at R b)) as HDw.
      { intros b. rewrite <- def_blocks_spec, HD. done. }
      assert (w ∉ pre.*1) as Hw.
      { rewrite El, fmap_app in Hnd. apply NoDup_app in Hnd as (_ & Hdis & _). intros Hw. apply (Hdis w Hw). cbn. set_solver. }
      destruct (place_start df w D phis Hdf) as (st & E & H4 & H5 & H6).
      { intros b (x & Hx & _)%HDw. unfold list_at in Hx. destruct (R !! b) eqn:Eb; [|by apply elem_of_nil in Hx].
        rewrite <- HR. by apply lookup_lt_Some in Eb. }
      { by apply H1. }
      cbn [foldM]. rewrite E. cbn [mbind res_bind]. apply (IH (pre ++ [(w, D)])).
      + by rewrite <- (assoc_L (++)).
      + intros v. rewrite fmap_app, not_elem_of_app. intros [Hv Hvw]. cbn in Hvw. rewrite H4 by set_solver. by apply H1.
      + intros v b Hv Hb y Hy. rewrite fmap_app in Hv. unfold has_phi in *.
        destruct (decide (v = w)) as [->|Hne].
        * apply (H5 b); [|done]. by rewrite HDw.
        * rewrite H4 in * by done. apply (H2 v b); [|done..]. cbn in Hv. set_solver.
      + intros v y. unfold has_phi in *. destruct (decide (v = w)) as [->|Hne]; [apply H6|].
        rewrite H4 by done. apply H3. }
  destruct (G [] l eq_refl ∅) as (phis & E & H1 & H2 & H3).
  - intros v _. apply lookup_empty.
  - intros v b Hv. by apply elem_of_nil in Hv.
  - intros v y. unfold has_phi. rewrite lookup_empty. cbn. set_solver.
  - exists phis. split_and!; [done| |done]. intros v b Hb y Hy.
    destruct (def_blocks R !! v) as [D|] eqn:ED.
    + apply (H2 v b); [|done..]. apply list_elem_of_fmap. exists (v, D). split; [done|]. by apply Hin.
    + exfalso. destruct Hb as [Hb|Hb].
      * apply def_blocks_spec in Hb. rewrite ED in Hb. cbn in Hb. set_solver.
      * unfold has_phi in Hb. rewrite H1 in Hb; [cbn in Hb; set_solver|].
        intros ([v' D] & -> & HD%Hin)%list_elem_of_fmap. cbn in *. congruence.
Qed.
End phis.
