(* ===== verification/SsaRename.v ===== *)
(** The renaming walk over the dominator tree (ir/ssa.rs): it ends without a
    panic, gives the stacks back, and records for every read the definition on
    top of the variable's stack. *)

From S2P Require Import Prelude Common Ir Ssa SsaLive SsaDom SsaIdom SsaPhi.

(** * Definitions and stacks *)

Definition stk (st : Stacks) (v : Var) : list DefId := default [] (st !! v).
Definition top (st : Stacks) (v : Var) : option DefId := head (stk st v).

Definition in_defs (ssa : SsaInfo) (d : DefId) : Prop := 0 <= d /\ (Z.to_nat d < length (defs ssa))%nat.

Definition stacks_ok (ssa : SsaInfo) (st : Stacks) : Prop := forall v d, d ∈ stk st v -> in_defs ssa d.

(** Records stay but for their uses, and the new ones are instructions'. *)
Definition ssa_keeps (ssa ssa' : SsaInfo) : Prop :=
  forall i r, defs ssa !! i = Some r -> exists r', defs ssa' !! i = Some r' /\ d_var r' = d_var r /\ site r' = site r.

Definition ssa_ext (ssa ssa' : SsaInfo) : Prop :=
  ssa_keeps ssa ssa' /\
  forall i r, defs ssa' !! i = Some r -> defs ssa !! i = None -> exists ip, site r = Insn ip.

(** The instruction at an address reads, or writes, a variable. *)
Definition Touches : Type := Z -> Var -> Prop.

(** What the three tables of a state say agrees. *)
Record ssa_ok (Rd W : Touches) (ssa : SsaInfo) : Prop := {
  so_use key d : use_at ssa !! key = Some d -> in_defs ssa d;
  so_uses i r ip : defs ssa !! i = Some r -> ip ∈ uses r <-> exists v, use_at ssa !! (ip, v) = Some (Z.of_nat i);
  so_def ip v d : len (defs ssa) <= 2 ^ 32 -> def_at ssa !! (ip, v) = Some d ->
    exists r, def_record ssa d = Some r /\ d_var r = v /\ site r = Insn ip;
  so_used ip v : is_Some (use_at ssa !! (ip, v)) -> Rd ip v;
  so_written ip v : is_Some (def_at ssa !! (ip, v)) -> W ip v;
}.

(** The values of the variables after some instructions. *)
Definition exec_insn (D : gmap (Z * Var) DefId) (s : Var -> option DefId) (x : InsnRw) : Var -> option DefId :=
  fun v => if decide (v ∈ x.2) then D !! (ip_of x, v) else s v.

Definition exec (D : gmap (Z * Var) DefId) (l : list InsnRw) (s : Var -> option DefId) : Var -> option DefId :=
  fold_left (exec_insn D) l s.

(** Nothing changes at the addresses that satisfy [P]. *)
Definition same_on (P : Z -> Prop) (ssa ssa' : SsaInfo) : Prop :=
  forall ip v, P ip -> use_at ssa' !! (ip, v) = use_at ssa !! (ip, v) /\ def_at ssa' !! (ip, v) = def_at ssa !! (ip, v).

Lemma exec_ext D l s s' : (forall v, s v = s' v) -> forall v, exec D l s v = exec D l s' v.
Proof.
  revert s s'. induction l as [|x l IH]; intros s s' H; [done|]. cbn. apply IH.
  intros v. unfold exec_insn. by destruct (decide _).
Qed.

Lemma exec_same D D' l s : (forall ip v, ip ∈ List.map ip_of l -> D' !! (ip, v) = D !! (ip, v)) ->
  forall v, exec D' l s v = exec D l s v.
Proof.
  revert s. induction l as [|x l IH]; intros s H; [done|]. intros v.
  change (exec D' l (exec_insn D' s x) v = exec D l (exec_insn D s x) v). rewrite IH.
  - apply exec_ext. intros w. unfold exec_insn. destruct (decide _); [|done]. apply H. cbn. set_solver.
  - intros ip w Hip. apply H. cbn. set_solver.
Qed.

Lemma exec_other D l s v : ~ written_in v l -> exec D l s v = s v.
Proof.
  revert s. induction l as [|x l IH]; intros s Hw; [done|]. rewrite written_in_cons in Hw.
  change (exec D l (exec_insn D s x) v = s v). rewrite IH by tauto. unfold exec_insn. destruct (decide _); [tauto|done].
Qed.

Lemma ssa_keeps_trans s1 s2 s3 : ssa_keeps s1 s2 -> ssa_keeps s2 s3 -> ssa_keeps s1 s3.
Proof.
  intros H1 H2 i r E. destruct (H1 i r E) as (r' & E' & H3 & H4). destruct (H2 i r' E') as (r'' & E'' & H5 & H6).
  exists r''. split_and!; [done|by rewrite H5|by rewrite H6].
Qed.

Lemma ssa_ext_refl ssa : ssa_ext ssa ssa.
Proof. split; [intros i r E; by exists r|]. intros i r E E'. congruence. Qed.

Lemma ssa_ext_trans s1 s2 s3 : ssa_ext s1 s2 -> ssa_ext s2 s3 -> ssa_ext s1 s3.
Proof.
  intros [H1 H1'] [H2 H2']. split; [by eapply ssa_keeps_trans|]. intros i r E E1.
  destruct (defs s2 !! i) as [r2|] eqn:E2; [|by apply (H2' i)].
  destruct (H1' i r2 E2 E1) as [ip Hip]. destruct (H2 i r2 E2) as (r' & E' & _ & Hs).
  rewrite E in E'. injection E' as <-. exists ip. by rewrite Hs.
Qed.

Lemma ssa_keeps_length ssa ssa' : ssa_keeps ssa ssa' -> (length (defs ssa) <= length (defs ssa'))%nat.
Proof.
  intros H. destruct (Nat.le_gt_cases (length (defs ssa)) (length (defs ssa'))) as [|Hgt]; [done|].
  destruct (lookup_lt_is_Some_2 (defs ssa) (length (defs ssa')) Hgt) as [r E].
  destruct (H _ _ E) as (r' & E' & _). apply lookup_lt_Some in E'. lia.
Qed.

Lemma in_defs_keeps ssa ssa' d : ssa_keeps ssa ssa' -> in_defs ssa d -> in_defs ssa' d.
Proof. intros H%ssa_keeps_length [? ?]. split; [done|lia]. Qed.

Lemma in_defs_ext ssa ssa' d : ssa_ext ssa ssa' -> in_defs ssa d -> in_defs ssa' d.
Proof. intros [H _]. by apply in_defs_keeps. Qed.

Lemma same_on_trans P s1 s2 s3 : same_on P s1 s2 -> same_on P s2 s3 -> same_on P s1 s3.
Proof. intros H1 H2 ip v Hp. destruct (H2 ip v Hp) as [-> ->]. by apply H1. Qed.

Lemma same_on_mono (P Q : Z -> Prop) s1 s2 : (forall ip, Q ip -> P ip) -> same_on P s1 s2 -> same_on Q s1 s2.
Proof. intros H H1 ip v Hq. by apply H1, H. Qed.

(** * Reads *)

Section rename.
Context (Rd W : Touches).
#[local] Abbreviation ssa_ok := (ssa_ok Rd W).

Lemma def_record_range ssa d : in_defs ssa d -> exists r, def_record ssa d = Some r.
Proof. intros [_ H]. unfold def_record. by apply lookup_lt_is_Some_2. Qed.

(** The uses are the recorded reads. *)
Lemma rename_read_ok ip st ssa r : Rd ip r -> ssa_ok ssa -> stacks_ok ssa st ->
  (forall v, use_at ssa !! (ip, v) = None \/ use_at ssa !! (ip, v) = top st v) ->
  exists ssa', rename_read ip st ssa r = Ok ssa' /\ ssa_ok ssa' /\ ssa_ext ssa ssa' /\
    length (defs ssa') = length (defs ssa) /\ def_at ssa' = def_at ssa /\
    forall key, use_at ssa' !! key =
      if decide (key = (ip, r) /\ is_Some (top st r)) then top st r else use_at ssa !! key.
Proof.
  intros Hrd Hok Hst Hf. unfold rename_read. unfold top, stk in *. destruct (st !! r) as [[|d l]|] eqn:Er; cbn.
  1,3: exists ssa; split_and!; [done|done|apply ssa_ext_refl|done|done|];
    intros key; destruct (decide _) as [[_ [? ?]]|]; done.
  assert (in_defs ssa d) as Hd by (apply (Hst r d); unfold stk; rewrite Er; cbn; set_solver).
  destruct (def_record_range ssa d Hd) as [rc Erc]. unfold add_use, def_record in *. cbn. rewrite Erc. cbn.
  assert (forall i x, <[Z.to_nat d := {| d_var := d_var rc; site := site rc; uses := uses rc ++ [ip] |}]> (defs ssa) !! i = Some x ->
    exists y, defs ssa !! i = Some y /\ d_var x = d_var y /\ site x = site y /\
      uses x = if decide (i = Z.to_nat d) then uses y ++ [ip] else uses y) as Hins.
  { intros i x Hx. destruct (decide (i = Z.to_nat d)) as [->|Hne].
    - rewrite list_lookup_insert_eq in Hx by apply Hd. injection Hx as <-. by exists rc.
    - rewrite list_lookup_insert_ne in Hx by done. by exists x. }
  eexists. split_and!; [done| | |by cbn; rewrite length_insert|done|].
  - split; cbn.
    + intros key d'. rewrite lookup_insert_Some. unfold in_defs. cbn. rewrite length_insert.
      intros [[_ <-]|[_ Hu]]; [done|]. by apply (so_use _ _ _ Hok key).
    + intros i x ip' Hx. destruct (Hins i x Hx) as (y & Ey & _ & _ & ->).
      pose proof (so_uses _ _ _ Hok i y ip' Ey) as Hy. destruct (decide (i = Z.to_nat d)) as [->|Hne].
      * rewrite elem_of_app, list_elem_of_singleton, Hy. split.
        -- intros [[v Hv]| ->].
           ++ exists v. rewrite lookup_insert_Some. destruct (decide ((ip, r) = (ip', v))) as [[= <- <-]|]; [|by right].
              left. split; [done|]. destruct Hd. lia.
           ++ exists r. rewrite lookup_insert_eq. f_equal. destruct Hd. lia.
        -- intros [v [[[= <- <-] _]|[_ Hv]]%lookup_insert_Some]; [by right|left; by exists v].
      * rewrite Hy. split.
        -- intros [v Hv]. exists v. rewrite lookup_insert_ne; [done|]. intros [= <- <-].
           destruct (Hf r) as [Hn|Hn]; rewrite Hn in Hv; [done|]. rewrite Er in Hv. cbn in Hv. injection Hv as ->. lia.
        -- intros [v [[_ E]|[_ Hv]]%lookup_insert_Some]; [|by exists v]. destruct Hd. lia.
    + intros ip' v d' Hlen Hd'. unfold len in Hlen. rewrite length_insert in Hlen.
      destruct (so_def _ _ _ Hok ip' v d' Hlen Hd') as (rr & Err & H1 & H2). unfold def_record in *. cbn.
      destruct (decide (Z.to_nat d' = Z.to_nat d)) as [E|Hne].
      * rewrite E, Erc in Err. injection Err as <-. rewrite E, list_lookup_insert_eq by apply Hd. by eexists.
      * rewrite list_lookup_insert_ne by done. by exists rr.
    + intros ip' v [d' [[[= <- <-] _]|[_ Hd']]%lookup_insert_Some]; [done|by apply (so_used _ _ _ Hok)].
    + intros ip' v. by apply (so_written _ _ _ Hok).
  - split.
    + intros i x Hx. cbn. destruct (decide (i = Z.to_nat d)) as [->|Hne].
      * rewrite list_lookup_insert_eq by apply Hd. eexists. split; [done|]. cbn. rewrite Erc in Hx. by injection Hx as <-.
      * rewrite list_lookup_insert_ne by done. by exists x.
    + intros i x (y & Ey & _)%Hins E. congruence.
  - cbn. intros key. destruct (decide (key = (ip, r))) as [->|Hne].
    + rewrite lookup_insert_eq. destruct (decide _) as [|Hn]; [done|]. destruct Hn. by split.
    + rewrite lookup_insert_ne by done. destruct (decide _) as [[? _]|]; done.
Qed.

Lemma rename_reads_ok ip st rs : (forall r, r ∈ rs -> Rd ip r) -> forall ssa, ssa_ok ssa -> stacks_ok ssa st ->
  (forall v, use_at ssa !! (ip, v) = None \/ use_at ssa !! (ip, v) = top st v) ->
  exists ssa', foldM (rename_read ip st) ssa rs = Ok ssa' /\ ssa_ok ssa' /\ ssa_ext ssa ssa' /\
    stacks_ok ssa' st /\ def_at ssa' = def_at ssa /\
    (forall r, r ∈ rs -> is_Some (top st r) -> use_at ssa' !! (ip, r) = top st r) /\
    forall ip' v, ip' <> ip -> use_at ssa' !! (ip', v) = use_at ssa !! (ip', v).
Proof.
  intros Hrd. assert (forall ssa, ssa_ok ssa -> stacks_ok ssa st ->
    (forall v, use_at ssa !! (ip, v) = None \/ use_at ssa !! (ip, v) = top st v) ->
    exists ssa', foldM (rename_read ip st) ssa rs = Ok ssa' /\ ssa_ok ssa' /\ ssa_ext ssa ssa' /\
      stacks_ok ssa' st /\ def_at ssa' = def_at ssa /\
      (forall r, r ∈ rs \/ use_at ssa !! (ip, r) = top st r -> is_Some (top st r) -> use_at ssa' !! (ip, r) = top st r) /\
      forall ip' v, ip' <> ip -> use_at ssa' !! (ip', v) = use_at ssa !! (ip', v)) as G.
  { revert Hrd. induction rs as [|r rs IH]; intros Hrd ssa Hok Hst Hf.
    - exists ssa. split_and!; [done|done|apply ssa_ext_refl|done|done| |done].
      intros r [Hr|?]; [by apply elem_of_nil in Hr|done].
    - destruct (rename_read_ok ip st ssa r (Hrd r ltac:(by left)) Hok Hst Hf) as (ssa1 & E & H1 & H2 & H3 & H4 & H5).
      destruct (IH (fun x Hx => Hrd x ltac:(by right)) ssa1 H1) as (ssa2 & E2 & H6 & H7 & H8 & H9 & H10 & H11).
      { intros v d Hd. eapply in_defs_ext; [done|]. by apply (Hst v). }
      { intros v. rewrite H5. destruct (decide _) as [[[= <-] _]|]; [by right|apply Hf]. }
      exists ssa2. cbn [foldM]. rewrite E. cbn [mbind res_bind].
      split_and!; [done|done|by eapply ssa_ext_trans|done|by rewrite H9| |].
      + intros r' Hr' Hs. apply H10; [|done]. rewrite H5. destruct (decide _) as [[[= <-] _]|Hn]; [by right|].
        destruct Hr' as [[-> | Hr']%elem_of_cons|Hr']; [|by left|by right]. by destruct Hn.
      + intros ip' v Hip. rewrite H11, H5 by done. destruct (decide _) as [[[= -> _] _]|]; done. }
  intros ssa Hok Hst Hf. destruct (G ssa Hok Hst Hf) as (ssa' & ? & ? & ? & ? & ? & H & ?).
  exists ssa'. split_and!; try done. intros r Hr. apply H. by left.
Qed.

(** * Writes *)

Lemma push_stk st v d w : stk (push st v d) w = if decide (w = v) then d :: stk st v else stk st w.
Proof.
  unfold stk, push. destruct (decide (w = v)) as [->|Hne]; [by rewrite lookup_insert_eq|].
  by rewrite lookup_insert_ne.
Qed.

Lemma wrap32_len n : wrap32 (Z.of_nat n) <= Z.of_nat n.
Proof. unfold wrap. apply Z.mod_le; lia. Qed.

(** A new record at the end, its number in the tables. *)
Lemma alloc_def_ok ssa v s : ssa_ok ssa ->
  let '(d, ssa') := alloc_def ssa v s in
  ssa_ok ssa' /\ ssa_keeps ssa ssa' /\ ((exists ip, s = Insn ip) -> ssa_ext ssa ssa') /\ in_defs ssa' d /\ use_at ssa' = use_at ssa /\ def_at ssa' = def_at ssa /\
  (len (defs ssa') <= 2 ^ 32 -> def_record ssa' d = Some {| d_var := v; site := s; uses := [] |}).
Proof.
  intros Hok. cbn. unfold len in *. set (r := {| d_var := v; site := s; uses := [] |}).
  set (ssa' := {| defs := defs ssa ++ [r]; use_at := use_at ssa; def_at := def_at ssa |}).
  assert (ssa_keeps ssa ssa') as Hkeep.
  { intros i x Hx. exists x. split_and!; [|done..]. cbn. by apply lookup_app_l_Some. }
  split_and!; [|done| | |done|done|].
  - split; cbn.
    + intros key d Hd. eapply in_defs_keeps; [done|]. by apply (so_use _ _ _ Hok key).
    + intros i x ip Hx. apply lookup_app_Some in Hx as [Hx|[Hi Hx]]; [by apply (so_uses _ _ _ Hok)|].
      apply list_lookup_singleton_Some in Hx as [Hx <-]. cbn. split; [by intros ?%elem_of_nil|].
      intros [w Hw]. apply (so_use _ _ _ Hok) in Hw as [_ Hw]. rewrite Nat2Z.id in Hw. lia.
    + intros ip w d Hl Hd. unfold len in Hl. rewrite length_app in Hl.
      destruct (so_def _ _ _ Hok ip w d) as (x & Ex & H1 & H2); [unfold len; lia|done|].
      exists x. split_and!; [|done..]. unfold def_record in *. cbn. by apply lookup_app_l_Some.
    + intros ip w. by apply (so_used _ _ _ Hok).
    + intros ip w. by apply (so_written _ _ _ Hok).
  - intros [ip ->]. split; [done|]. cbn. intros i x Hx E. apply lookup_app_Some in Hx as [Hx|[_ Hx]]; [congruence|].
    apply list_lookup_singleton_Some in Hx as [_ <-]. by exists ip.
  - split; cbn; [apply wrap_range; lia|]. rewrite length_app. cbn. pose proof (wrap32_len (length (defs ssa))).
    pose proof (wrap_range 32 (Z.of_nat (length (defs ssa))) ltac:(lia)) as [? _]. lia.
  - cbn. rewrite length_app. cbn. intros Hl. unfold def_record. cbn. rewrite wrap_small by (unfold in_range; lia).
    rewrite Nat2Z.id, lookup_app_r, Nat.sub_diag by done. done.
Qed.

Lemma rename_write_ok ip ssa st w : ssa_ok ssa -> stacks_ok ssa st -> W ip w ->
  let '(ssa', st') := rename_write ip (ssa, st) w in
  ssa_ok ssa' /\ ssa_ext ssa ssa' /\ stacks_ok ssa' st' /\ use_at ssa' = use_at ssa /\
  (exists d, def_at ssa' = <[(ip, w) := d]> (def_at ssa) /\
    forall v, stk st' v = if decide (v = w) then d :: stk st w else stk st v).
Proof.
  intros Hok Hst Hw. unfold rename_write. pose proof (alloc_def_ok ssa w (Insn ip) Hok) as Ha.
  destruct (alloc_def ssa w (Insn ip)) as [d ssa1]. destruct Ha as (H1 & _ & H2 & H3 & H4 & H5 & H6).
  specialize (H2 ltac:(by eexists)).
  split_and!; [| | |done|].
  - split; cbn; [apply H1|apply H1| |apply H1|].
    + intros ip' v d' Hl. rewrite lookup_insert_Some. intros [[[= <- <-] <-]|[_ Hd']]; [|by apply H1].
      exists {| d_var := w; site := Insn ip; uses := [] |}. split_and!; [by apply H6|done|done].
    + intros ip' v [d' Hd']. apply lookup_insert_Some in Hd' as [[[= <- <-] _]|[_ Hd']]; [done|].
      rewrite H5 in Hd'. by apply (so_written _ _ _ Hok).
  - destruct H2 as [H2 H2']. split; [intros i r Hr; by apply H2|intros i r; by apply H2'].
  - intros v d'. rewrite push_stk. assert (forall x, in_defs ssa x -> in_defs ssa1 x) as He.
    { intros x. by apply in_defs_ext. }
    destruct (decide (v = w)) as [->|Hne].
    + intros [-> | Hd']%elem_of_cons; [done|]. by apply He, (Hst w).
    + intros Hd'. by apply He, (Hst v).
  - exists d. cbn. rewrite H5. split; [done|]. intros v. apply push_stk.
Qed.

Lemma rename_writes_ok ip ws : (forall w, w ∈ ws -> W ip w) -> forall ssa st, ssa_ok ssa -> stacks_ok ssa st ->
  let '(ssa', st') := fold_left (rename_write ip) ws (ssa, st) in
  ssa_ok ssa' /\ ssa_ext ssa ssa' /\ stacks_ok ssa' st' /\ use_at ssa' = use_at ssa /\
  (forall ip' v, ip' <> ip -> def_at ssa' !! (ip', v) = def_at ssa !! (ip', v)) /\
  (forall v, exists l, stk st' v = l ++ stk st v) /\
  (forall v, v ∉ ws -> stk st' v = stk st v) /\
  (forall v, v ∈ ws \/ top st v = def_at ssa !! (ip, v) -> top st' v = def_at ssa' !! (ip, v)) /\
  forall v, v ∈ ws \/ is_Some (def_at ssa !! (ip, v)) -> is_Some (def_at ssa' !! (ip, v)).
Proof.
  induction ws as [|w ws IH]; intros HW ssa st Hok Hst; cbn [fold_left].
  - split_and!; try done; [apply ssa_ext_refl|by intros v; exists []| |].
    + intros v [Hv|Hv]; [by apply elem_of_nil in Hv|done].
    + intros v [Hv|Hv]; [by apply elem_of_nil in Hv|done].
  - pose proof (rename_write_ok ip ssa st w Hok Hst (HW w ltac:(by left))) as Hw.
    destruct (rename_write ip (ssa, st) w) as [ssa1 st1].
    destruct Hw as (H1 & H2 & H3 & H4 & d & H5 & H6). specialize (IH (fun v Hv => HW v ltac:(by right)) ssa1 st1 H1 H3).
    destruct (fold_left (rename_write ip) ws (ssa1, st1)) as [ssa2 st2].
    destruct IH as (I1 & I2 & I3 & I4 & I5 & I6 & I7 & I8 & I9).
    split_and!; [done|by eapply ssa_ext_trans|done|by rewrite I4, H4| | | | |].
    + intros ip' v Hip. rewrite I5, H5 by done. apply lookup_insert_ne. congruence.
    + intros v. destruct (I6 v) as [l El]. rewrite El, H6. destruct (decide _) as [->|]; [|by exists l].
      exists (l ++ [d]). by rewrite <- (assoc_L (++)).
    + intros v [Hvw Hv]%not_elem_of_cons. rewrite I7, H6 by done. by destruct (decide _).
    + intros v Hv. apply I8. unfold top. rewrite H6, H5. destruct (decide (v = w)) as [->|Hne].
      * right. by rewrite lookup_insert_eq.
      * destruct Hv as [[?|?]%elem_of_cons|Hv]; [done|by left|]. right. rewrite lookup_insert_ne by congruence. done.
    + intros v Hv. apply I9. rewrite H5. destruct (decide (v = w)) as [->|Hne].
      * right. rewrite lookup_insert_eq. by eexists.
      * destruct Hv as [[?|?]%elem_of_cons|Hv]; [done|by left|]. right. rewrite lookup_insert_ne by congruence. done.
Qed.

(** * Instructions *)

Lemma rename_insn_ok ssa st x : (forall v, v ∈ x.1.2 -> Rd (ip_of x) v) ->
  (forall v, v ∈ x.2 -> W (ip_of x) v) -> ssa_ok ssa -> stacks_ok ssa st ->
  (forall v, use_at ssa !! (ip_of x, v) = None) ->
  exists ssa' st', rename_insn (ssa, st) x = Ok (ssa', st') /\ ssa_ok ssa' /\ ssa_ext ssa ssa' /\ stacks_ok ssa' st' /\
    (forall v, exists l, stk st' v = l ++ stk st v) /\
    (forall v, top st' v = exec_insn (def_at ssa') (top st) x v) /\
    (forall r, r ∈ x.1.2 -> is_Some (top st r) -> use_at ssa' !! (ip_of x, r) = top st r) /\
    (forall v, v ∈ x.2 -> is_Some (def_at ssa' !! (ip_of x, v))) /\
    same_on (fun ip => ip <> ip_of x) ssa ssa'.
Proof.
  destruct x as [[ip rs] ws]. cbn [ip_of fst snd]. intros Hrd HW Hok Hst Hf. cbn.
  destruct (rename_reads_ok ip st rs Hrd ssa Hok Hst) as (ssa1 & E1 & H1 & H2 & H3 & H4 & H5 & H6); [by left|].
  rewrite E1. cbn [mbind res_bind]. pose proof (rename_writes_ok ip ws HW ssa1 st H1 H3) as Hw.
  destruct (fold_left (rename_write ip) ws (ssa1, st)) as [ssa2 st2].
  destruct Hw as (I1 & I2 & I3 & I4 & I5 & I6 & I7 & I8 & I9). exists ssa2, st2.
  split_and!; [done|done|by eapply ssa_ext_trans|done|done| | | |].
  - intros v. unfold exec_insn. cbn. destruct (decide (v ∈ ws)) as [Hv|Hv]; [by apply I8; left|].
    unfold top. by rewrite I7.
  - intros r Hr Hs. rewrite I4. by apply H5.
  - intros v Hv. apply I9. by left.
  - intros ip' v Hip. rewrite I4, H6, I5, H4 by done. done.
Qed.

Definition block_ips (l : list InsnRw) : list Z := List.map ip_of l.

(** The tables say of a block whose variables start as [s] what it reads, and
    have a definition for all it writes. *)
Record recorded (ssa : SsaInfo) (l : list InsnRw) (s : Var -> option DefId) : Prop := {
  rec_reads pre ip rs ws post : l = pre ++ (ip, rs, ws) :: post ->
    forall r, r ∈ rs -> use_at ssa !! (ip, r) = exec (def_at ssa) pre s r /\ is_Some (use_at ssa !! (ip, r));
  rec_writes x v : x ∈ l -> v ∈ x.2 -> is_Some (def_at ssa !! (ip_of x, v));
}.

Lemma rename_block_ok l : forall ssa st, ssa_ok ssa -> stacks_ok ssa st -> NoDup (block_ips l) ->
  (forall ip v, ip ∈ block_ips l -> use_at ssa !! (ip, v) = None) ->
  (forall x r, x ∈ l -> r ∈ x.1.2 -> stk st r <> []) ->
  (forall x v, x ∈ l -> v ∈ x.1.2 -> Rd (ip_of x) v) ->
  (forall x v, x ∈ l -> v ∈ x.2 -> W (ip_of x) v) ->
  exists ssa' st', foldM rename_insn (ssa, st) l = Ok (ssa', st') /\ ssa_ok ssa' /\ ssa_ext ssa ssa' /\ stacks_ok ssa' st' /\
    (forall v, exists l', stk st' v = l' ++ stk st v) /\
    (forall v, top st' v = exec (def_at ssa') l (top st) v) /\
    recorded ssa' l (top st) /\
    same_on (fun ip => ip ∉ block_ips l) ssa ssa'.
Proof.
  induction l as [|x l IH]; intros ssa st Hok Hst Hnd Hf Hfull Hrd HW.
  - exists ssa, st. split_and!; [done|done|apply ssa_ext_refl|done|by intros v; exists []|done| |done].
    split; [intros pre ip rs ws post E; by apply app_cons_not_nil in E|by intros x v ?%elem_of_nil].
  - cbn [block_ips List.map] in *. apply NoDup_cons in Hnd as [Hx Hnd].
    destruct (rename_insn_ok ssa st x) as (ssa1 & st1 & E1 & H1 & H2 & H3 & H4 & H5 & H6 & H8 & H7);
      [intros v; apply Hrd; by left|intros v; apply HW; by left|done|done|intros v; apply Hf; by left|].
    destruct (IH ssa1 st1 H1 H3 Hnd) as (ssa2 & st2 & E2 & I1 & I2 & I3 & I4 & I5 & I6 & I7).
    { intros ip v Hip. destruct (H7 ip v) as [-> _]; [|apply Hf; by right]. intros ->. done. }
    { intros y r Hy Hr. destruct (H4 r) as [l' ->]. intros [_ ?]%app_nil. revert H. apply (Hfull y); [by right|done]. }
    { intros y v Hy. apply Hrd. by right. }
    { intros y v Hy. apply HW. by right. }
    assert (forall v, use_at ssa2 !! (ip_of x, v) = use_at ssa1 !! (ip_of x, v) /\
      def_at ssa2 !! (ip_of x, v) = def_at ssa1 !! (ip_of x, v)) as Hkeep by (intros v; by apply I7).
    assert (forall v, top st1 v = exec_insn (def_at ssa2) (top st) x v) as Htop.
    { intros v. rewrite H5. unfold exec_insn. destruct (decide _); [|done]. by destruct (Hkeep v) as [_ ->]. }
    exists ssa2, st2. cbn [foldM]. rewrite E1. cbn [mbind res_bind].
    split_and!; [done|done|by eapply ssa_ext_trans|done| | | |].
    + intros v. destruct (I4 v) as [l1 ->], (H4 v) as [l2 ->]. exists (l1 ++ l2). by rewrite <- (assoc_L (++)).
    + intros v. rewrite I5. change (exec (def_at ssa2) (x :: l) (top st)) with
        (exec (def_at ssa2) l (exec_insn (def_at ssa2) (top st) x)). by apply exec_ext.
    + split.
      * intros pre ip rs ws post E r Hr. destruct pre as [|y pre].
        -- injection E as -> ->. assert (is_Some (top st r)) as Hs.
           { assert (stk st r <> []) as Hs by (apply (Hfull (ip, rs, ws)); [by left|done]).
             unfold top. destruct (stk st r); [done|by eexists]. }
           assert (use_at ssa2 !! (ip, r) = top st r) as ->
             by (exact (eq_trans (proj1 (Hkeep r)) (H6 r Hr Hs))). done.
        -- injection E as <- ->. destruct (rec_reads _ _ _ I6 pre ip rs ws post eq_refl r Hr) as [-> Hs].
           split; [|done]. change (exec (def_at ssa2) (x :: pre) (top st)) with
             (exec (def_at ssa2) pre (exec_insn (def_at ssa2) (top st) x)). by apply exec_ext.
      * intros y v [-> | Hy]%elem_of_cons Hv; [|by apply (rec_writes _ _ _ I6)].
        destruct (Hkeep v) as [_ ->]. by apply H8.
    + intros ip v [Hne Hip]%not_elem_of_cons. destruct (I7 ip v Hip) as [-> ->]. by apply H7.
Qed.
End rename.
