(* ===== verification/SsaTree.v ===== *)
(** The recursion of [rename_dfs] (ir/ssa.rs) over the dominator tree: every
    block is visited once, with the definitions its dominator ends with. *)

From S2P Require Import Prelude Common Ir Ssa SsaLive SsaDom SsaIdom SsaPhi SsaRename.

(** * The tree of children *)

Section children.
Context {succs : list (list nat)} {Hcfg : Cfg succs} {rpo : list nat} {Hrpo : rpo_ok succs rpo}.
Context (dom : list nat) (Hdt : dom_tree succs rpo dom).
#[local] Abbreviation n := (length succs).
#[local] Abbreviation rank := (rk succs rpo).

Definition child (b c : nat) : Prop := c ∈ list_at (invert_dom_tree dom) b.

Lemma invert_ok : (forall b c, child b c <-> (c < n)%nat /\ nat_at dom c <> c /\ nat_at dom c = b) /\
  forall b, NoDup (list_at (invert_dom_tree dom) b).
Proof.
  unfold child, invert_dom_tree. rewrite (dt_len _ _ _ Hdt).
  assert (forall k l (ch : list (list nat)), drop k dom = l -> length ch = n ->
    (forall b c, c ∈ list_at ch b <-> (c < k)%nat /\ nat_at dom c <> c /\ nat_at dom c = b) ->
    (forall b, NoDup (list_at ch b)) -> (k + length l)%nat = n ->
    let ch' := fold_left (fun children '(b, idom) =>
      if decide (b = idom) then children else alter (fun l => l ++ [b]) idom children) (zip (seq k (length l)) l) ch in
    (forall b c, c ∈ list_at ch' b <-> (c < n)%nat /\ nat_at dom c <> c /\ nat_at dom c = b) /\
    forall b, NoDup (list_at ch' b)) as G.
  { intros k l. revert k. induction l as [|d l IH]; intros k ch Hd Hl Hch Hnd Hk; cbn.
    - cbn in Hk. rewrite Nat.add_0_r in Hk. subst k. done.
    - assert (nat_at dom k = d) as Ek.
      { unfold nat_at. rewrite <- (Nat.add_0_r k), <- lookup_drop, Hd. done. }
      assert (drop (S k) dom = l) as Hd' by (by rewrite <- Nat.add_1_r, <- drop_drop, Hd).
      cbn in Hk. assert (d < n)%nat as Hdn by (rewrite <- Ek; apply (up_lt dom Hdt)).
      destruct (decide (k = d)) as [->|Hne].
      + apply IH; [done..| |done|lia]. intros b c. rewrite Hch.
        split; [intros (? & ? & ?); split_and!; [lia|done|done]|].
        intros (? & ? & ?). split_and!; [|done|done]. destruct (decide (c = d)) as [->|]; [done|lia].
      + assert (forall b, list_at (alter (fun l => l ++ [k]) d ch) b =
          if decide (b = d) then list_at ch b ++ [k] else list_at ch b) as Hat.
        { intros b. rewrite list_at_alter by lia. by destruct (decide _). }
        apply IH; [done|by rewrite length_alter| | |lia].
        * intros b c. rewrite Hat. destruct (decide (b = d)) as [->|Hb].
          -- rewrite elem_of_app, list_elem_of_singleton, Hch. split.
             ++ intros [(? & ? & ?)| ->]; [split_and!; [lia|done|done]|split_and!; [lia|congruence|done]].
             ++ intros (? & ? & ?). destruct (decide (c = k)) as [->|]; [by right|left; split_and!; [lia|done|done]].
          -- rewrite Hch. split; [intros (? & ? & ?); split_and!; [lia|done|done]|].
             intros (? & ? & ?). split_and!; [|done|done]. destruct (decide (c = k)) as [->|]; [congruence|lia].
        * intros b. rewrite Hat. destruct (decide (b = d)) as [->|]; [|done].
          apply NoDup_app. split_and!; [done| |apply NoDup_singleton].
          intros c Hc ->%list_elem_of_singleton. apply Hch in Hc as (? & _). lia. }
  apply (G O dom); [done|by rewrite length_replicate| | |by rewrite (dt_len _ _ _ Hdt)].
  - intros b c. unfold list_at. destruct (replicate n [] !! b) as [l|] eqn:E; cbn.
    + apply lookup_replicate in E as [-> _]. rewrite elem_of_nil. lia.
    + rewrite elem_of_nil. lia.
  - intros b. unfold list_at. destruct (replicate n [] !! b) as [l|] eqn:E; cbn; [|constructor].
    apply lookup_replicate in E as [-> _]. constructor.
Qed.

Lemma child_rank b c : child b c -> (rank b < rank c)%nat.
Proof. intros (_ & Hne & <-)%invert_ok. by apply (up_rank dom Hdt). Qed.

Lemma child_unique b b' c : child b c -> child b' c -> b = b'.
Proof. intros (_ & _ & <-)%invert_ok (_ & _ & <-)%invert_ok. done. Qed.

Lemma child_lt b c : child b c -> (c < n)%nat.
Proof. by intros (? & _ & _)%invert_ok. Qed.

Lemma under_rank b x : rtc child b x -> (rank b <= rank x)%nat.
Proof. induction 1 as [|x y z Hxy%child_rank _ IH]; lia. Qed.

Lemma under_linear a c x : rtc child a x -> rtc child c x -> rtc child a c \/ rtc child c a.
Proof.
  intros Ha. revert x Ha.
  apply (rtc_ind_r (fun x => rtc child c x -> rtc child a c \/ rtc child c a) a); [by right|].
  intros y z Hay Hyz IH Hcz. destruct (rtc_inv_r _ _ Hcz) as [->|(y' & Hcy & Hyz')].
  - left. by eapply rtc_r.
  - rewrite <- (child_unique y y' z Hyz Hyz') in Hcy. by apply IH.
Qed.

Lemma under_siblings b c1 c2 x : child b c1 -> child b c2 -> rtc child c1 x -> rtc child c2 x -> c1 = c2.
Proof.
  intros H1 H2 Hx1 Hx2.
  assert (forall a c, child b a -> child b c -> rtc child a c -> a = c) as G.
  { intros a c Ha Hc Hac. destruct (rtc_inv_r _ _ Hac) as [->|(y & Hy & Hyc)]; [done|].
    rewrite (child_unique y b c Hyc Hc) in Hy. apply under_rank in Hy. apply child_rank in Ha. lia. }
  destruct (under_linear c1 c2 x Hx1 Hx2) as [H|H]; [by apply G|symmetry; by apply G].
Qed.

(** * The walk *)

Context `{HO : HashOrder} (R : BlockRw) (HR : length R = n) (phi_at : gmap (nat * Var) DefId).
Context (Hips : NoDup (block_ips (List.concat R))).

#[local] Abbreviation ips := (fun b => block_ips (list_at R b)).

(** The instruction of the program at an address reads, or writes, a variable. *)
Definition reads_at : Touches := fun ip v => exists x, x ∈ List.concat R /\ ip_of x = ip /\ v ∈ x.1.2.
Definition writes_at : Touches := fun ip v => exists x, x ∈ List.concat R /\ ip_of x = ip /\ v ∈ x.2.

#[local] Abbreviation ssa_ok := (ssa_ok reads_at writes_at).

Lemma list_at_concat {A} (l : list (list A)) b x : x ∈ list_at l b -> x ∈ List.concat l.
Proof.
  unfold list_at. destruct (l !! b) as [l'|] eqn:E; [|by intros ?%elem_of_nil]. cbn. intros Hx.
  apply list_elem_of_In, List.in_concat. exists l'. split; apply list_elem_of_In; [|done].
  by eapply list_elem_of_lookup_2.
Qed.

Lemma concat_ips l : forall b b', NoDup (block_ips (List.concat l)) ->
  NoDup (block_ips (list_at l b)) /\
  (b <> b' -> forall ip, ip ∈ block_ips (list_at l b) -> ip ∉ block_ips (list_at l b')).
Proof.
  induction l as [|brw l IH]; intros b b' Hnd; [split; [constructor|by intros _ ip ?%elem_of_nil]|].
  cbn [List.concat] in Hnd. unfold block_ips in *. rewrite List.map_app in Hnd.
  apply NoDup_app in Hnd as (H1 & H2 & H3).
  assert (forall k ip, ip ∈ List.map ip_of (list_at l k) -> ip ∈ List.map ip_of (List.concat l)) as Hin.
  { intros k ip (x & -> & Hx)%list_elem_of_fmap. apply list_elem_of_fmap. exists x. split; [done|].
    by apply (list_at_concat l k). }
  destruct b as [|b], b' as [|b'].
  - split; [done|]. by intros ?.
  - split; [done|]. intros _ ip Hip Hip'. apply (H2 ip Hip). by apply (Hin b').
  - split; [by apply (IH b b)|]. intros _ ip Hip Hip'. apply (H2 ip Hip'). by apply (Hin b).
  - destruct (IH b b' H3) as [? H]. split; [done|]. intros Hne. apply H. congruence.
Qed.

(** The values at the start of a block: its phis first. *)
Definition enter (b : nat) (s : Var -> option DefId) : Var -> option DefId :=
  fun v => match phi_at !! (b, v) with Some d => Some d | None => s v end.

(** The values along the tree, from [b] with [s0] before its phis. *)
Inductive tree_run (D : gmap (Z * Var) DefId) (b : nat) (s0 : Var -> option DefId) : nat -> (Var -> option DefId) -> Prop :=
| tr_root s : (forall v, s v = enter b s0 v) -> tree_run D b s0 b s
| tr_child y c s s' : tree_run D b s0 y s -> child y c ->
    (forall v, s' v = enter c (exec D (list_at R y) s) v) -> tree_run D b s0 c s'.

Lemma enter_ext b s s' : (forall v, s v = s' v) -> forall v, enter b s v = enter b s' v.
Proof. intros H v. unfold enter. by destruct (phi_at !! (b, v)). Qed.

Lemma tree_run_under D b s0 x s : tree_run D b s0 x s -> rtc child b x.
Proof. induction 1 as [|y c s s' _ IH Hc _]; [done|by eapply rtc_r]. Qed.

Lemma tree_run_start D b s0 s1 x s : (forall v, s0 v = s1 v) -> tree_run D b s0 x s -> tree_run D b s1 x s.
Proof.
  intros Heq. induction 1 as [s Hs|y c s s' _ IH Hc Hs].
  - apply tr_root. intros v. rewrite Hs. by apply enter_ext.
  - by apply (tr_child D b s1 y c s).
Qed.

(** Either at the root or below one of its children. *)
Lemma tree_run_split D b s0 x s : tree_run D b s0 x s ->
  (x = b /\ forall v, s v = enter b s0 v) \/
  exists c, child b c /\ tree_run D c (exec D (list_at R b) (enter b s0)) x s.
Proof.
  induction 1 as [s Hs|y c s s' _ IH Hc Hs]; [by left|]. right.
  destruct IH as [[-> Hy]|(c0 & Hc0 & Hy)].
  - exists c. split; [done|]. apply tr_root. intros v. rewrite Hs. apply enter_ext.
    intros w. by apply exec_ext.
  - exists c0. split; [done|]. by apply (tr_child _ _ _ y c s).
Qed.

Definition under_ips (b : nat) (ip : Z) : Prop := exists x, rtc child b x /\ ip ∈ ips x.

(** Every read below [b] is recorded as the values along the tree say. *)
Definition correct (ssa : SsaInfo) (b : nat) (s0 : Var -> option DefId) : Prop :=
  forall x s, tree_run (def_at ssa) b s0 x s -> recorded ssa (list_at R x) s.

Lemma recorded_same ssa ssa' l s s' : same_on (fun ip => ip ∈ block_ips l) ssa ssa' -> (forall v, s v = s' v) ->
  recorded ssa l s -> recorded ssa' l s'.
Proof.
  intros Hsame Hs H. split.
  - intros pre ip rs ws post E r Hr. destruct (rec_reads _ _ _ H pre ip rs ws post E r Hr) as [H1 H2].
    destruct (Hsame ip r) as [-> _].
    { rewrite E. unfold block_ips. rewrite List.map_app. cbn. set_solver. }
    split; [|done]. rewrite H1, (exec_ext _ pre s s' Hs). symmetry. apply exec_same. intros ip' v Hip.
    apply Hsame. rewrite E. unfold block_ips. rewrite List.map_app. set_solver.
  - intros x v Hx Hv. destruct (Hsame (ip_of x) v) as [_ ->]; [by apply list_elem_of_fmap_2|].
    by apply (rec_writes _ _ _ H).
Qed.

Lemma correct_same ssa ssa' b s0 : same_on (under_ips b) ssa ssa' -> correct ssa b s0 -> correct ssa' b s0.
Proof.
  intros Hsame Hc x s Hx. assert (rtc child b x) as Hu by (by eapply tree_run_under).
  apply (recorded_same ssa ssa' _ s s); [|done|].
  { eapply same_on_mono; [|done]. intros ip Hip. by exists x. }
  apply Hc. clear Hu. induction Hx as [s Hs|y c s s' Hy IH Hch Hs]; [by apply tr_root|].
  apply (tr_child _ _ _ y c s s' IH Hch). intros v. rewrite Hs. apply enter_ext. intros w. apply exec_same.
  intros ip u Hip. apply Hsame. exists y. split; [by eapply tree_run_under|done].
Qed.

Lemma under_ips_siblings b c1 c2 ip : child b c1 -> child b c2 -> c1 <> c2 ->
  under_ips c1 ip -> ~ under_ips c2 ip.
Proof.
  intros H1 H2 Hne (x & Hx & Hipx) (y & Hy & Hipy). destruct (decide (x = y)) as [->|Hxy].
  - apply Hne. by apply (under_siblings b c1 c2 y).
  - by apply (proj2 (concat_ips R x y Hips) Hxy ip).
Qed.

Lemma under_ips_root b c ip : child b c -> ip ∈ ips b -> ~ under_ips c ip.
Proof.
  intros Hc Hb (x & Hx & Hipx). apply child_rank in Hc. apply under_rank in Hx.
  assert (b <> x) as Hne by (intros ->; lia). by apply (proj2 (concat_ips R b x Hips) Hne ip).
Qed.

(** What a visit of [b] promises. *)
Definition visits (f : SsaInfo * Stacks -> res Stuck (SsaInfo * Stacks)) (b : nat) (s1 : SsaInfo) (st : Stacks) : Prop :=
  exists s2 st2, f (s1, st) = Ok (s2, st2) /\ ssa_ok s2 /\ ssa_ext s1 s2 /\
    (forall v, stk st2 v = stk st v) /\ same_on (fun ip => ~ under_ips b ip) s1 s2 /\ correct s2 b (top st).

(** No address below [b] has been read yet. *)
Definition fresh (ssa : SsaInfo) (b : nat) : Prop := forall ip v, under_ips b ip -> use_at ssa !! (ip, v) = None.

Lemma children_ok f b cs : NoDup cs -> (forall c, c ∈ cs -> child b c) -> forall ssa st,
  (forall c s1 st1, c ∈ cs -> ssa_ok s1 -> ssa_ext ssa s1 -> (forall v, stk st1 v = stk st v) -> fresh s1 c ->
    visits (fun x => f x c) c s1 st1) ->
  ssa_ok ssa -> (forall c, c ∈ cs -> fresh ssa c) ->
  exists s2 st2, foldM f (ssa, st) cs = Ok (s2, st2) /\ ssa_ok s2 /\ ssa_ext ssa s2 /\
    (forall v, stk st2 v = stk st v) /\
    same_on (fun ip => forall c, c ∈ cs -> ~ under_ips c ip) ssa s2 /\
    forall c, c ∈ cs -> correct s2 c (top st).
Proof.
  induction cs as [|c cs IH]; intros Hnd Hch ssa st Hf Hok Hfresh.
  - exists ssa, st. split_and!; [done|done|apply ssa_ext_refl|done|done|]. by intros c ?%elem_of_nil.
  - apply NoDup_cons in Hnd as [Hc Hnd].
    destruct (Hf c ssa st) as (s1 & st1 & E1 & H1 & H2 & H3 & H4 & H5);
      [by left|done|apply ssa_ext_refl|done|apply Hfresh; by left|].
    assert (forall c', c' ∈ cs -> forall ip, under_ips c' ip -> ~ under_ips c ip) as Hdis.
    { intros c' Hc' ip. apply (under_ips_siblings b); [apply Hch; by right|apply Hch; by left|]. by intros ->. }
    destruct (IH Hnd (fun c' H => Hch c' ltac:(by right)) s1 st1) as (s2 & st2 & E2 & I1 & I2 & I3 & I4 & I5).
    { intros c' s1' st1' Hc' Hok' Hext Hst. apply Hf; [by right|done|by eapply ssa_ext_trans|].
      intros v. by rewrite Hst. }
    { done. }
    { intros c' Hc' ip v Hip. destruct (H4 ip v) as [-> _]; [by apply (Hdis c')|]. apply (Hfresh c'); [by right|done]. }
    exists s2, st2. cbn [foldM]. rewrite E1. cbn [mbind res_bind].
    split_and!; [done|done|by eapply ssa_ext_trans|intros v; by rewrite I3| |].
    + intros ip v Hip. destruct (I4 ip v) as [-> ->]; [intros c' Hc'; apply Hip; by right|].
      apply H4, Hip. by left.
    + intros c' [-> | Hc']%elem_of_cons.
      * apply (correct_same s1); [|done]. eapply same_on_mono; [|exact I4].
        intros ip Hip c' Hc' Hip'. by apply (Hdis c' Hc' ip).
      * intros x s Hx. apply (I5 c' Hc' x s). eapply tree_run_start; [|exact Hx]. intros v. unfold top. by rewrite H3.
Qed.

(** * The recursion *)

Lemma push_phis_stk b st v :
  stk (push_phis b phi_at st) v = match phi_at !! (b, v) with Some d => d :: stk st v | None => stk st v end.
Proof.
  unfold push_phis.
  destruct (map_order_spec phi_at) as [Hnd Hin]. revert Hnd Hin. generalize (map_order phi_at). intros l Hnd Hin.
  assert (forall l st, NoDup l.*1 ->
    stk (fold_left (fun st '((bi, var), d) => if decide (bi = b) then push st var d else st) l st) v =
    match list_find (fun e : nat * Var * DefId => e.1 = (b, v)) l with
    | Some (_, (_, d)) => d :: stk st v
    | None => stk st v
    end) as G.
  { clear l Hnd Hin st. induction l as [|[[bi var] d] l IH]; intros st Hnd; [done|].
    cbn [fmap list_fmap fst] in Hnd. apply NoDup_cons in Hnd as [Hni Hnd]. cbn [fold_left list_find fst].
    rewrite IH by done. destruct (decide ((bi, var) = (b, v))) as [[= -> ->]|Hne].
    - rewrite decide_True by done. destruct (list_find _ l) as [[i [k d']]|] eqn:El.
      + apply list_find_Some in El as (El & Ek & _). cbn in Ek. subst k. destruct Hni.
        apply list_elem_of_fmap. exists (b, v, d'). split; [done|]. by eapply list_elem_of_lookup_2.
      + rewrite push_stk. by rewrite decide_True.
    - assert (stk (if decide (bi = b) then push st var d else st) v = stk st v) as ->.
      { destruct (decide (bi = b)) as [->|]; [|done]. rewrite push_stk. destruct (decide _); [congruence|done]. }
      by destruct (list_find _ l) as [[i [k d']]|]. }
  rewrite G by done. destruct (list_find _ l) as [[i [k d]]|] eqn:El.
  - apply list_find_Some in El as (El & Ek & _). cbn in Ek. subst k.
    apply list_elem_of_lookup_2, Hin in El. by rewrite El.
  - destruct (phi_at !! (b, v)) as [d|] eqn:Ed; [|done]. apply Hin in Ed. apply list_find_None in El.
    rewrite Forall_forall in El. by destruct (El _ Ed).
Qed.

Lemma pop_to_stk st st1 : (forall v, exists l, stk st1 v = l ++ stk st v) ->
  forall v, stk (pop_to (@length DefId <$> st) st1) v = stk st v.
Proof.
  intros H v. destruct (H v) as [l Hl]. unfold stk, pop_to in *. rewrite map_lookup_imap, lookup_fmap.
  destruct (st1 !! v) as [s1|]; cbn in *.
  - subst s1. assert (default O (@length DefId <$> st !! v) = length (default [] (st !! v))) as ->
      by (by destruct (st !! v)).
    rewrite length_app, Nat.add_sub, drop_app_length. done.
  - destruct (default [] (st !! v)); [done|]. by destruct l.
Qed.

(** The variables that are read have a definition on their stacks. *)
Definition full (st : Stacks) : Prop :=
  forall b x r, x ∈ list_at R b -> r ∈ x.1.2 -> stk st r <> [].

Lemma rename_dfs_ok fuel : forall b ssa st, (b < n)%nat -> (n - rank b < fuel)%nat ->
  ssa_ok ssa -> stacks_ok ssa st -> (forall key d, phi_at !! key = Some d -> in_defs ssa d) ->
  full st -> fresh ssa b ->
  visits (fun x => rename_dfs fuel (invert_dom_tree dom) phi_at R x b) b ssa st.
Proof.
  induction fuel as [|fuel IH]; intros b ssa st Hb Hf Hok Hst Hphi Hfull Hfresh; [lia|].
  unfold visits. cbn [rename_dfs fst snd].
  set (st0 := push_phis b phi_at st).
  assert (forall v, exists l, stk st0 v = l ++ stk st v) as Hst0.
  { intros v. unfold st0. rewrite push_phis_stk. destruct (phi_at !! (b, v)) as [d|]; [by exists [d]|by exists []]. }
  assert (forall v, top st0 v = enter b (top st) v) as Htop0.
  { intros v. unfold top, st0, enter. rewrite push_phis_stk. by destruct (phi_at !! (b, v)). }
  destruct (rename_block_ok reads_at writes_at (list_at R b) ssa st0) as (s1 & st1 & E1 & H1 & H2 & H3 & H4 & H5 & H6 & H7).
  { done. }
  { intros v d. unfold st0. rewrite push_phis_stk. destruct (phi_at !! (b, v)) as [d'|] eqn:Ed; [|apply Hst].
    intros [-> | Hd]%elem_of_cons; [by eapply Hphi|by apply (Hst v)]. }
  { by apply (concat_ips R b b). }
  { intros ip v Hip. apply Hfresh. by exists b. }
  { intros x r Hx Hr E. destruct (Hst0 r) as [l El]. rewrite El in E. apply app_nil in E as [_ E].
    by apply (Hfull b x r). }
  { intros x v Hx Hv. exists x. split_and!; [|done|done]. by apply (list_at_concat R b). }
  { intros x v Hx Hv. exists x. split_and!; [|done|done]. by apply (list_at_concat R b). }
  rewrite E1. cbn [mbind res_bind].
  assert (forall c, child b c -> forall ip, under_ips c ip -> ip ∉ ips b) as Hout.
  { intros c Hc ip Hip Hin. by apply (under_ips_root b c ip). }
  destruct (children_ok (rename_dfs fuel (invert_dom_tree dom) phi_at R) b (list_at (invert_dom_tree dom) b))
    with (ssa := s1) (st := st1) as (s2 & st2 & E2 & I1 & I2 & I3 & I4 & I5).
  { apply invert_ok. }
  { done. }
  { intros c s1' st1' Hc Hok' Hext Hst' Hfr. apply IH.
    - by apply (child_lt b c).
    - apply child_rank in Hc. pose proof (rank_le (succs:=succs) (rpo:=rpo) c). lia.
    - done.
    - intros v d. rewrite Hst'. intros Hd. eapply in_defs_ext; [done|]. by apply (H3 v).
    - intros key d Hd. apply (in_defs_ext ssa s1'); [by apply (ssa_ext_trans ssa s1 s1')|]. by apply (Hphi key).
    - intros b' x r Hx Hr. rewrite Hst'. intros E. destruct (H4 r) as [l1 El1], (Hst0 r) as [l2 El2].
      rewrite El1, El2 in E. apply app_nil in E as [_ E]. apply app_nil in E as [_ E]. by apply (Hfull b' x r).
    - done. }
  { done. }
  { intros c Hc ip v Hip. destruct (H7 ip v) as [-> _]; [by apply (Hout c)|].
    apply Hfresh. destruct Hip as (x & Hx & Hin). exists x. split; [|done]. by eapply rtc_l. }
  rewrite E2. cbn [mbind res_bind fst snd]. exists s2, (pop_to (@length DefId <$> st) st2).
  split_and!; [done|done|by eapply ssa_ext_trans| | |].
  - apply pop_to_stk. intros v. rewrite I3. destruct (H4 v) as [l1 El1], (Hst0 v) as [l2 El2].
    exists (l1 ++ l2). by rewrite El1, El2, (assoc_L (++)).
  - intros ip v Hip. destruct (I4 ip v) as [-> ->].
    { intros c Hc Hin. apply Hip. destruct Hin as (x & Hx & Hin). exists x. split; [|done]. by eapply rtc_l. }
    apply H7. intros Hin. apply Hip. by exists b.
  - assert (same_on (fun ip => ip ∈ ips b) s1 s2) as Hsame.
    { eapply same_on_mono; [|exact I4]. intros ip Hip c Hc Hin. by apply (Hout c Hc ip). }
    intros x s Hx. apply tree_run_split in Hx as [[-> Hs]|(c & Hc & Hx)].
    + apply (recorded_same s1 s2 _ (top st0)); [done| |done]. intros v. by rewrite Hs, Htop0.
    + apply (I5 c Hc x s). eapply tree_run_start; [|exact Hx]. intros v. rewrite H5.
      rewrite (exec_same (def_at s1) (def_at s2)) by (intros ip w Hip; by apply Hsame).
      apply exec_ext. intros w. by rewrite Htop0.
Qed.
End children.
