(* ===== verification/SsaRun.v ===== *)
(** The runs of the control-flow graph (ir/ssa.rs): whatever way a run takes to
    a block, the definitions it arrives with are those of the dominator tree,
    because the phis stand where they have to. *)

From S2P Require Import Prelude Common Ir Ssa SsaLive SsaDom SsaIdom SsaPhi SsaRename SsaTree.

(** The current definitions of the variables at the start of the blocks of a
    run that starts with [e]: each instruction makes its own current, each
    block entered its phis. *)
Inductive run (succs : list (list nat)) (R : BlockRw) (phi : gmap (nat * Var) DefId) (D : gmap (Z * Var) DefId)
    (e : Var -> option DefId) : nat -> (Var -> option DefId) -> Prop :=
| run_entry s : (forall v, s v = e v) -> run succs R phi D e O s
| run_edge p b s s' : run succs R phi D e p s -> edge succs p b ->
    (forall v, s' v = enter phi b (exec D (list_at R p) s) v) -> run succs R phi D e b s'.

Section walk.
Context {succs : list (list nat)} {Hcfg : Cfg succs} {rpo : list nat} {Hrpo : rpo_ok succs rpo}.
Context (dom : list nat) (Hdt : dom_tree succs rpo dom).
#[local] Abbreviation n := (length succs).
#[local] Abbreviation rank := (rk succs rpo).
#[local] Abbreviation above := (rtc (child dom)).

(** Dominance is the order of the tree. *)
Lemma dominates_above x b : b ∈ rpo -> dominates succs x b -> above x b.
Proof.
  remember (rank b) as k eqn:Ek. revert b Ek. induction k as [k IH] using lt_wf_ind. intros b -> Hb Hx.
  destruct (decide (x = b)) as [->|Hne]; [done|]. destruct (decide (b = O)) as [->|Hb0].
  { destruct Hne. specialize (Hx _ (path_entry succs)). by apply list_elem_of_singleton in Hx. }
  pose proof (dt_rank _ _ _ Hdt b Hb Hb0) as Hr. apply (rtc_r x (nat_at dom b) b).
  - apply (IH (rank (nat_at dom b))); [done..|by apply (dt_in _ _ _ Hdt)|by apply (dt_idom _ _ _ Hdt)].
  - apply (proj1 (invert_ok dom Hdt)). split_and!; [by apply rpo_lt|intros E; rewrite E in Hr; lia|done].
Qed.

Lemma idom_child b : b ∈ rpo -> b <> O -> child dom (nat_at dom b) b.
Proof.
  intros Hb Hb0. pose proof (dt_rank _ _ _ Hdt b Hb Hb0) as Hr.
  apply (proj1 (invert_ok dom Hdt)). split_and!; [by apply rpo_lt|intros E; rewrite E in Hr; lia|done].
Qed.

(** The dominator of a block is above its predecessors. *)
Lemma idom_above p b : p ∈ rpo -> edge succs p b -> b <> O -> above (nat_at dom b) p.
Proof.
  intros Hp He Hb0. pose proof (edge_in p b Hp He) as Hb. apply dominates_above; [done|].
  apply (dominates_pred _ p b); [by apply (dt_dom _ _ _ Hdt)| |done].
  intros E. pose proof (dt_rank _ _ _ Hdt b Hb Hb0) as Hr. rewrite E in Hr. lia.
Qed.

Context (preds : list (list nat)) (Hpreds : forall p b, p ∈ list_at preds b <-> edge succs p b).

(** A block with one predecessor is the predecessor's child. *)
Lemma idom_single p b : b ∈ rpo -> edge succs p b -> b <> O -> (length (list_at preds b) < 2)%nat ->
  nat_at dom b = p.
Proof.
  intros Hb He Hb0 Hlen. assert (forall q, edge succs q b -> q = p) as Hone.
  { intros q Hq. apply Hpreds in He, Hq. destruct (list_at preds b) as [|a [|a' l]]; [by apply elem_of_nil in He| |cbn in Hlen; lia].
    apply list_elem_of_singleton in He, Hq. congruence. }
  destruct (fwd_pred b Hb Hb0) as (p' & He' & Hp & _ & Hrk). rewrite (Hone p' He') in *.
  pose proof (idom_above p b Hp He Hb0) as H1.
  assert (above p (nat_at dom b)) as H2.
  { apply dominates_above; [by apply (dt_in _ _ _ Hdt)|]. apply (dt_idom _ _ _ Hdt); [done| |intros ->; lia].
    intros l Hl. inversion Hl as [|l' q b' Hl' Hq]; subst; [done|]. right. rewrite <- (Hone q Hq).
    by apply (path_end l' q). }
  apply rk_inj; [by apply (dt_in _ _ _ Hdt)|done|]. apply (under_rank dom Hdt) in H1, H2. lia.
Qed.

(** * States along the tree *)

Context `{HO : HashOrder} (R : BlockRw) (phi_at : gmap (nat * Var) DefId) (D : gmap (Z * Var) DefId).
Context (e : Var -> option DefId).

#[local] Abbreviation state := (tree_run dom R phi_at D O e).

Lemma state_unique x s s' : state x s -> state x s' -> forall v, s v = s' v.
Proof.
  intros H. revert s'. induction H as [s Hs|y c s s1 Hy IH Hc Hs]; intros s' H'.
  - inversion H' as [s0 Hs0|y c s0 s1 _ Hc _]; subst; [intros v; by rewrite Hs, Hs0|].
    apply (child_rank dom Hdt) in Hc. rewrite rk_entry in Hc. lia.
  - inversion H' as [s0 Hs0|y' c' s0 s2 Hy' Hc' Hs']; subst.
    { apply (child_rank dom Hdt) in Hc. rewrite rk_entry in Hc. lia. }
    rewrite (child_unique dom Hdt y' y c Hc' Hc) in Hy'. rewrite (child_unique dom Hdt y' y c Hc' Hc) in Hs'.
    intros v. rewrite Hs, Hs'. apply enter_ext, exec_ext. by apply IH.
Qed.

Lemma state_exists b : b ∈ rpo -> exists s, state b s.
Proof.
  intros Hb. assert (above O b) as Ha.
  { apply dominates_above; [done|]. intros l Hl. clear Hb. induction Hl; [by left|by right]. }
  clear Hb. revert b Ha. apply (rtc_ind_r (fun b => exists s, state b s) O).
  - eexists. by apply tr_root.
  - intros y c _ Hc [s Hs]. eexists. by apply (tr_child _ _ _ _ _ _ y c s).
Qed.

(** Nothing on the way up from a block to one above it defines [v]. *)
Definition clear_walk (v : Var) (y p : nat) : Prop :=
  forall x, on_walk dom y x p -> ~ written_in v (list_at R x) /\ phi_at !! (x, v) = None.

Lemma clear_walk_value v y p : above y p -> clear_walk v y p -> forall sy sp, state y sy -> state p sp ->
  exec D (list_at R p) sp v = exec D (list_at R y) sy v.
Proof.
  revert p. apply (rtc_ind_r (fun p => clear_walk v y p -> forall sy sp, state y sy -> state p sp ->
    exec D (list_at R p) sp v = exec D (list_at R y) sy v) y).
  - intros _ sy sp Hy Hp. apply exec_ext. by apply (state_unique y).
  - intros q p Hyq Hqp IH Hcl sy sp Hy Hp.
    assert (p <> y) as Hpy.
    { intros ->. apply (child_rank dom Hdt) in Hqp. apply (under_rank dom Hdt) in Hyq. lia. }
    destruct (proj1 (proj1 (invert_ok dom Hdt) q p) Hqp) as (_ & Hne & Eq).
    destruct (Hcl p) as [Hw Hphi]; [by apply ow_here|]. rewrite exec_other by done.
    inversion Hp as [s0 Hs0|q' c s0 s1 Hq Hc Hs]; subst.
    { apply (child_rank dom Hdt) in Hqp. rewrite rk_entry in Hqp. lia. }
    rewrite (child_unique dom Hdt q' _ p Hc Hqp) in Hq, Hs. rewrite Hs. unfold enter. rewrite Hphi.
    apply IH; [|done..]. intros x Hx. apply Hcl. by apply ow_up.
Qed.

(** What the placement of the phis has to promise. *)
Context (Hphi : forall p b v, b ∈ rpo -> edge succs p b -> (2 <= length (list_at preds b))%nat ->
  phi_at !! (b, v) = None -> clear_walk v (nat_at dom b) p).
Context (Hentry : forall p, ~ edge succs p O) (Hphi0 : forall v, phi_at !! (O, v) = None).

Lemma edge_value p b sp sb : p ∈ rpo -> edge succs p b -> state p sp -> state b sb ->
  forall v, sb v = enter phi_at b (exec D (list_at R p) sp) v.
Proof.
  intros Hp He Hsp Hsb v. pose proof (edge_in p b Hp He) as Hb.
  assert (b <> O) as Hb0 by (intros ->; by apply (Hentry p)).
  pose proof (idom_child b Hb Hb0) as Hc. inversion Hsb as [s0 Hs0|y c s0 s1 Hy Hc' Hs]; subst; [done|].
  rewrite (child_unique dom Hdt y _ b Hc' Hc) in Hy, Hs. rewrite Hs. unfold enter.
  destruct (phi_at !! (b, v)) as [d|] eqn:Ed; [done|]. symmetry.
  destruct (Nat.lt_ge_cases (length (list_at preds b)) 2) as [Hlt|Hge].
  - rewrite (idom_single p b Hb He Hb0 Hlt) in Hy. rewrite (idom_single p b Hb He Hb0 Hlt).
    apply exec_ext. by apply (state_unique p).
  - apply clear_walk_value; [by apply idom_above|by apply Hphi|done..].
Qed.

(** A run arrives with the definitions of the tree. *)
Lemma run_state b s : run succs R phi_at D e b s -> b ∈ rpo /\ state b s.
Proof.
  induction 1 as [s Hs|p b s s' Hr [Hp IH] He Hs'].
  - split; [apply entry_in|]. apply tr_root. intros v. rewrite Hs. unfold enter. by rewrite Hphi0.
  - pose proof (edge_in p b Hp He) as Hb. split; [done|]. destruct (state_exists b Hb) as [sb Hsb].
    pose proof (edge_value p b s sb Hp He IH Hsb) as Hv.
    inversion Hsb as [s0 Hs0|y c s0 s1 Hy Hc Hs]; subst; [by destruct (Hentry p)|].
    apply (tr_child _ _ _ _ _ _ y b s0); [done..|]. intros v. by rewrite Hs', <- Hv, Hs.
Qed.
End walk.
