(* ===== verification/SsaBuild.v ===== *)
(** The whole construction (ir/ssa.rs): the entry definitions, the phis, the
    walk, the values the phis join; and what it promises of every run. *)

From S2P Require Import Prelude Common Ir Ssa SsaLive SsaDom SsaIdom SsaPhi SsaRename SsaTree SsaRun.

(** * Variables *)

Lemma collect_insns l (X : gset Var) v :
  v ∈ fold_left (fun out (x : InsnRw) => fold_left (fun o v => o ∪ {[v]}) (x.1.2 ++ x.2) out) l X <->
  v ∈ X \/ exists x, x ∈ l /\ v ∈ x.1.2 ++ x.2.
Proof.
  revert X. induction l as [|x l IH]; intros X; cbn [fold_left]; [set_solver|].
  rewrite IH, fold_union. set_solver.
Qed.

Section vars.
Context `{HO : HashOrder}.

Lemma elem_of_all_vars (R : BlockRw) phis b (x : InsnRw) v : x ∈ list_at R b -> v ∈ x.1.2 ++ x.2 ->
  v ∈ collect_all_vars R phis.
Proof.
  intros Hx Hv. unfold collect_all_vars. set (X := fold_left _ R ∅).
  assert (v ∈ X) as HX.
  { apply (list_at_concat R b) in Hx. unfold X. clear X. revert Hx.
    generalize (∅ : gset Var). induction R as [|brw l IH]; intros X Hx; cbn in *; [by apply elem_of_nil in Hx|].
    assert (forall l (Y : gset Var), v ∈ Y -> v ∈ fold_left (fun out brw =>
      fold_left (fun out (x : InsnRw) => fold_left (fun o v => o ∪ {[v]}) (x.1.2 ++ x.2) out) brw out) l Y) as Hmono.
    { clear. induction l as [|brw l IH]; intros Y HY; [done|]. cbn. apply IH, collect_insns. by left. }
    apply elem_of_app in Hx as [Hx|Hx]; [|by apply IH]. apply Hmono, collect_insns. right. by exists x. }
  clearbody X. revert X HX. generalize (map_order phis). induction l as [|[w Y] l IH]; intros X HX; [done|].
  cbn. apply IH. set_solver.
Qed.
End vars.

(** * Entry definitions *)

Definition entry_record (v : Var) : DefRecord := {| d_var := v; site := Entry; uses := [] |}.

Lemma alloc_entries l : NoDup l ->
  let '(ssa, st) := fold_left alloc_entry l (ssa_default, ∅) in
  ssa = {| defs := List.map entry_record l; use_at := ∅; def_at := ∅ |} /\
  (forall i v, l !! i = Some v -> stk st v = [wrap32 (Z.of_nat i)]) /\ forall v, v ∉ l -> stk st v = [].
Proof.
  induction l as [|w l IH] using rev_ind; intros Hnd.
  - cbn. split_and!; [done|intros i v; by rewrite lookup_nil|done].
  - apply NoDup_app in Hnd as (Hnd & Hw & _). rewrite fold_left_app. cbn [fold_left].
    assert (w ∉ l) as Hwl by (intros H; apply (Hw w H); set_solver).
    specialize (IH Hnd). destruct (fold_left alloc_entry l (ssa_default, ∅)) as [ssa st].
    destruct IH as (-> & H1 & H2). unfold alloc_entry. cbn. split_and!.
    + by rewrite List.map_app.
    + intros i v Hv. rewrite push_stk. apply lookup_app_Some in Hv as [Hv|[Hi Hv]].
      * destruct (decide _) as [->|]; [|by apply H1]. by apply list_elem_of_lookup_2 in Hv.
      * apply list_lookup_singleton_Some in Hv as [Hi' <-]. rewrite decide_True by done. rewrite H2 by done.
        unfold len. rewrite length_map. do 3 f_equal. lia.
    + intros v [Hv Hvw]%not_elem_of_app. rewrite push_stk. destruct (decide _) as [->|]; [set_solver|by apply H2].
Qed.

(** * Phi definitions *)

Section phis.
Context {I : Type} `{!ArchInsn I} (f : Function I) `{HO : HashOrder}.

(** The phis to allocate, in order. *)
Definition phi_pairs (phis : gmap Var (gset nat)) : list (Var * nat) :=
  List.concat (List.map (fun '(v, bs) => pair v <$> set_order bs) (map_order phis)).

Lemma alloc_phis_pairs phis ssa :
  alloc_phis f phis ssa = foldM (fun st '(v, b) => alloc_phi f v st b) (ssa, ∅) (phi_pairs phis).
Proof.
  unfold alloc_phis, phi_pairs. generalize (ssa, ∅ : gmap (nat * Var) DefId).
  induction (map_order phis) as [|[v bs] l IH]; intros st; [done|]. cbn [foldM List.map List.concat].
  rewrite foldM_app.
  assert (forall bs st, foldM (alloc_phi f v) st bs = foldM (fun st '(v, b) => alloc_phi f v st b) st (pair v <$> bs)) as ->.
  { clear. induction bs as [|b bs IH]; intros st; [done|]. cbn. destruct (alloc_phi f v st b); [apply IH|done..]. }
  destruct (foldM _ st _); [apply IH|done..].
Qed.

Lemma elem_of_phi_pairs phis v b : (v, b) ∈ phi_pairs phis <-> has_phi phis v b.
Proof.
  unfold phi_pairs, has_phi. destruct (map_order_spec phis) as [_ Hin]. rewrite list_elem_of_In, List.in_concat. split.
  - intros (l & Hl & Hv). apply List.in_map_iff in Hl as ([w bs] & <- & Hw). apply list_elem_of_In in Hv, Hw.
    apply list_elem_of_fmap in Hv as (c & [= <- <-] & Hc). apply Hin in Hw. rewrite Hw. by apply elem_of_set_order.
  - intros Hb. destruct (phis !! v) as [bs|] eqn:E; [|by apply elem_of_empty in Hb].
    exists (pair v <$> set_order bs). split; apply list_elem_of_In.
    + apply list_elem_of_In, List.in_map_iff. exists (v, bs). split; [done|]. by apply list_elem_of_In, Hin.
    + apply list_elem_of_fmap. exists b. split; [done|]. by apply elem_of_set_order.
Qed.

Lemma phi_pairs_nodup phis : NoDup (phi_pairs phis).
Proof.
  unfold phi_pairs. destruct (map_order_spec phis) as [Hnd _]. revert Hnd.
  induction (map_order phis) as [|[v bs] l IH]; intros Hnd; cbn; [constructor|].
  cbn [fmap list_fmap fst] in Hnd. apply NoDup_cons in Hnd as [Hv Hnd]. apply NoDup_app. split_and!; [| |by apply IH].
  - apply NoDup_fmap; [congruence|]. rewrite set_order_perm. apply NoDup_elements.
  - intros [w b] (c & [= -> ->] & _)%list_elem_of_fmap Hin. apply list_elem_of_In, List.in_concat in Hin as (k & Hk & Hin).
    apply List.in_map_iff in Hk as ([w' cs] & <- & Hw). apply list_elem_of_In in Hin, Hw.
    apply list_elem_of_fmap in Hin as (c' & [= -> ->] & _). apply Hv, list_elem_of_fmap. by exists (w', cs).
Qed.

Context (Rd W : Touches).

(** The phis of [P] are allocated, on top of [ssa0]. *)
Record phis_ok (ssa0 : SsaInfo) (P : list (Var * nat)) (ssa : SsaInfo) (phi : gmap (nat * Var) DefId) : Prop := {
  po_ok : ssa_ok Rd W ssa;
  po_keeps : ssa_keeps ssa0 ssa;
  po_use : use_at ssa = use_at ssa0;
  po_in key d : phi !! key = Some d -> in_defs ssa d;
  po_keys b v : is_Some (phi !! (b, v)) <-> (v, b) ∈ P;
  po_rec : len (defs ssa) <= 2 ^ 32 -> forall b v d, phi !! (b, v) = Some d ->
    exists blk r, blocks f !! b = Some blk /\ def_record ssa d = Some r /\ d_var r = v /\ site r = Phi (bb_addr blk) [];
  po_inj : len (defs ssa) <= 2 ^ 32 -> forall key key' d, phi !! key = Some d -> phi !! key' = Some d -> key = key';
  po_all : len (defs ssa) <= 2 ^ 32 -> forall i r a inc, defs ssa !! i = Some r -> site r = Phi a inc ->
    exists b, phi !! (b, d_var r) = Some (Z.of_nat i);
}.

Lemma def_record_keeps ssa ssa' d r : ssa_keeps ssa ssa' -> def_record ssa d = Some r ->
  exists r', def_record ssa' d = Some r' /\ d_var r' = d_var r /\ site r' = site r.
Proof. intros H. apply H. Qed.

Lemma alloc_phi_ok ssa0 P ssa phi v b blk : (v, b) ∉ P -> phis_ok ssa0 P ssa phi -> blocks f !! b = Some blk ->
  exists ssa' phi', alloc_phi f v (ssa, phi) b = Ok (ssa', phi') /\ phis_ok ssa0 (P ++ [(v, b)]) ssa' phi'.
Proof.
  intros HvP Hok Hb. unfold alloc_phi. rewrite Hb. cbn [or_panic mbind res_bind fst snd].
  pose proof (alloc_def_ok Rd W ssa v (Phi (bb_addr blk) []) (po_ok _ _ _ _ Hok)) as Ha.
  assert (len (defs (alloc_def ssa v (Phi (bb_addr blk) [])).2) <= 2 ^ 32 ->
    (alloc_def ssa v (Phi (bb_addr blk) [])).1 = len (defs ssa) /\ len (defs ssa) <= 2 ^ 32) as Hid.
  { cbn. unfold len. rewrite length_app. cbn. intros Hl. split; [|lia]. apply wrap_small. unfold in_range. lia. }
  assert (defs (alloc_def ssa v (Phi (bb_addr blk) [])).2 = defs ssa ++ [{| d_var := v; site := Phi (bb_addr blk) []; uses := [] |}])
    as Happ by done.
  destruct (alloc_def ssa v (Phi (bb_addr blk) [])) as [d ssa']. cbn [fst snd] in Hid, Happ.
  destruct Ha as (H1 & H2 & _ & H3 & H4 & _ & H6). eexists ssa', _. split; [done|]. split.
  - done.
  - by apply (ssa_keeps_trans _ ssa), H2; apply Hok.
  - by rewrite H4, (po_use _ _ _ _ Hok).
  - intros key x [[_ <-]|[_ Hx]]%lookup_insert_Some; [done|]. apply (in_defs_keeps ssa); [done|]. by apply (po_in _ _ _ _ Hok key).
  - intros c w. rewrite elem_of_app, list_elem_of_singleton, <- (po_keys _ _ _ _ Hok).
    destruct (decide ((c, w) = (b, v))) as [[= -> ->]|Hne].
    + rewrite lookup_insert_eq. split; [by right|by eexists].
    + rewrite lookup_insert_ne by done. split; [by left|]. intros [?|[= -> ->]]; done.
  - intros Hl c w x [[[= <- <-] <-]|[_ Hx]]%lookup_insert_Some; [by eexists _, _; split_and!; [|by apply H6|..]|].
    destruct (po_rec _ _ _ _ Hok (proj2 (Hid Hl)) c w x Hx) as (bl & r & Hbl & Hr & Hv & Hs).
    destruct (def_record_keeps ssa ssa' x r H2 Hr) as (r' & Hr' & Hv' & Hs'). exists bl, r'.
    split_and!; [done|done|by rewrite Hv'|by rewrite Hs'].
  - intros Hl. destruct (Hid Hl) as [Hd Hl']. assert (forall key, phi !! key <> Some d) as Hnew.
    { intros key Hk. apply (po_in _ _ _ _ Hok) in Hk as [_ Hk]. rewrite Hd in Hk. unfold len in Hk. lia. }
    intros key key' x [[<- <-]|[_ Hx]]%lookup_insert_Some [[<- ?]|[_ Hx']]%lookup_insert_Some; subst; try done.
    + by destruct (Hnew key').
    + by destruct (Hnew key).
    + by apply (po_inj _ _ _ _ Hok Hl' _ _ x).
  - intros Hl i r a inc Hi Hs. destruct (Hid Hl) as [Hd Hl']. rewrite Happ in Hi.
    apply lookup_app_Some in Hi as [Hi|[Hi Hr]].
    + destruct (po_all _ _ _ _ Hok Hl' i r a inc Hi Hs) as [c Hc]. exists c. rewrite lookup_insert_ne; [done|].
      intros [= -> ->]. apply HvP, (po_keys _ _ _ _ Hok). by eexists.
    + apply list_lookup_singleton_Some in Hr as [Hi' <-]. exists b. cbn. rewrite lookup_insert_eq, Hd. unfold len. f_equal. lia.
Qed.

Lemma alloc_phis_ok phis ssa0 : ssa_ok Rd W ssa0 ->
  (forall i r a inc, defs ssa0 !! i = Some r -> site r <> Phi a inc) ->
  (forall v b, has_phi phis v b -> (b < length (blocks f))%nat) ->
  exists ssa phi, alloc_phis f phis ssa0 = Ok (ssa, phi) /\ phis_ok ssa0 (phi_pairs phis) ssa phi.
Proof.
  intros Hok Hno Hb. rewrite alloc_phis_pairs.
  destruct (foldM_invariant (E:=Stuck) (fun P '(ssa, phi) => phis_ok ssa0 P ssa phi)
    (fun st '(v, b) => alloc_phi f v st b) (phi_pairs phis) (ssa0, ∅)) as ([ssa phi] & E & H).
  - split; [done|by intros i r Hr; exists r|done| | | | |].
    + intros key d. by rewrite lookup_empty.
    + intros b v. rewrite lookup_empty. split; [by intros [? ?]|by intros ?%elem_of_nil].
    + intros _ b v d. by rewrite lookup_empty.
    + intros _ key key' d. by rewrite lookup_empty.
    + intros _ i r a inc Hi Hs. by destruct (Hno i r a inc).
  - intros pre [v b] post [ssa phi] E Hp. assert (has_phi phis v b) as Hvb by (apply elem_of_phi_pairs; rewrite E; set_solver).
    destruct (lookup_lt_is_Some_2 _ _ (Hb v b Hvb)) as [blk Eb].
    assert ((v, b) ∉ pre) as Hnew.
    { pose proof (phi_pairs_nodup phis) as Hnd. rewrite E in Hnd. apply NoDup_app in Hnd as (_ & Hdis & _).
      intros Hin. apply (Hdis _ Hin). by left. }
    destruct (alloc_phi_ok ssa0 pre ssa phi v b blk Hnew Hp Eb) as (ssa' & phi' & E' & H'). by exists (ssa', phi').
  - by exists ssa, phi.
Qed.
End phis.

(** * The values of the phis *)

(** Only the values that phis join differ. *)
Record ssa_sites (ssa s : SsaInfo) : Prop := {
  si_use : use_at s = use_at ssa;
  si_def : def_at s = def_at ssa;
  si_len : length (defs s) = length (defs ssa);
  si_rec i r : defs ssa !! i = Some r -> exists r', defs s !! i = Some r' /\ d_var r' = d_var r /\ uses r' = uses r /\
    (site r' = site r \/ exists a i0 i1, site r = Phi a i0 /\ site r' = Phi a i1);
}.

Lemma ssa_sites_refl ssa : ssa_sites ssa ssa.
Proof. split; [done..|]. intros i r Hr. exists r. split_and!; [done..|by left]. Qed.

Lemma ssa_sites_trans s1 s2 s3 : ssa_sites s1 s2 -> ssa_sites s2 s3 -> ssa_sites s1 s3.
Proof.
  intros [U1 D1 L1 R1] [U2 D2 L2 R2]. split; [by rewrite U2|by rewrite D2|by rewrite L2|]. intros i r Hr.
  destruct (R1 i r Hr) as (r1 & Hr1 & V1 & X1 & S1). destruct (R2 i r1 Hr1) as (r2 & Hr2 & V2 & X2 & S2).
  exists r2. split_and!; [done|by rewrite V2|by rewrite X2|].
  destruct S1 as [S1|(a & i0 & i1 & S1 & S1')], S2 as [S2|(a' & j0 & j1 & S2 & S2')].
  - left. by rewrite S2.
  - right. exists a', j0, j1. by rewrite <- S1.
  - right. exists a, i0, i1. by rewrite S2.
  - right. exists a, i0, j1. rewrite S1' in S2. by injection S2 as <- <-.
Qed.

Lemma set_incoming_ok s d inc : in_defs s d ->
  exists s', set_incoming s d inc = Ok s' /\ ssa_sites s s' /\
    (forall r a i0, def_record s d = Some r -> site r = Phi a i0 ->
      exists r', def_record s' d = Some r' /\ d_var r' = d_var r /\ site r' = Phi a inc) /\
    forall d', 0 <= d' -> d' <> d -> def_record s' d' = def_record s d'.
Proof.
  intros Hd. destruct (def_record_range s d Hd) as [r Hr]. unfold set_incoming. rewrite Hr. cbn [or_panic mbind res_bind].
  destruct (site r) as [ip|a i0|] eqn:Es; (eexists; split; [done|]).
  1,3: split_and!; [apply ssa_sites_refl| |done]; intros r' a i0 Hr' E; congruence.
  unfold def_record in *. split_and!.
  - split; [done|done|by cbn; rewrite length_insert|]. intros i x Hx. cbn. destruct (decide (i = Z.to_nat d)) as [->|Hne].
    + rewrite list_lookup_insert_eq by apply Hd. rewrite Hr in Hx. injection Hx as <-. eexists.
      split_and!; [done..|]. right. by exists a, i0, inc.
    + rewrite list_lookup_insert_ne by done. exists x. split_and!; [done..|by left].
  - intros x b j0 Hx Es'. assert (x = r) as -> by congruence. rewrite Es in Es'. injection Es' as <- <-. cbn.
    rewrite list_lookup_insert_eq by apply Hd. by eexists.
  - intros d' H0 Hne. cbn. rewrite list_lookup_insert_ne; [done|]. destruct Hd. lia.
Qed.

Section fill.
Context {I : Type} `{!ArchInsn I} (f : Function I) `{HO : HashOrder}.

Lemma in_defs_sites ssa s d : ssa_sites ssa s -> in_defs ssa d -> in_defs s d.
Proof. intros H [? ?]. split; [done|]. by rewrite (si_len _ _ H). Qed.

Lemma fill_ok ssa phi preds : (forall key d, phi !! key = Some d -> in_defs ssa d) ->
  exists s, fill_phi_incoming ssa phi preds f = Ok s /\ ssa_sites ssa s /\
    ((forall key key' d, phi !! key = Some d -> phi !! key' = Some d -> key = key') ->
     forall b v d r a i0, phi !! (b, v) = Some d -> def_record ssa d = Some r -> site r = Phi a i0 ->
       exists r', def_record s d = Some r' /\ d_var r' = d_var r /\
         site r' = Phi a (List.map (incoming_def ssa f v) (list_at preds b))).
Proof.
  intros Hin. unfold fill_phi_incoming. destruct (map_order_spec phi) as [Hnd Hel].
  destruct (foldM_invariant (E:=Stuck) (fun done s => ssa_sites ssa s /\
    ((forall key key' d, phi !! key = Some d -> phi !! key' = Some d -> key = key') ->
     forall b v d r a i0, (b, v, d) ∈ done -> def_record ssa d = Some r -> site r = Phi a i0 ->
       exists r', def_record s d = Some r' /\ d_var r' = d_var r /\
         site r' = Phi a (List.map (incoming_def ssa f v) (list_at preds b))))
    (fun s '((bi, var), phi_id) => set_incoming s phi_id (List.map (incoming_def ssa f var) (list_at preds bi)))
    (map_order phi) ssa) as (s & E & Hs & Hrec).
  - split; [apply ssa_sites_refl|]. intros _ b v d r a i0 H. by apply elem_of_nil in H.
  - intros pre [[b v] d] post s E [Hs Hpre].
    assert (phi !! (b, v) = Some d) as Hd by (apply Hel; rewrite E; set_solver).
    destruct (set_incoming_ok s d (List.map (incoming_def ssa f v) (list_at preds b))) as (s' & E' & Hs' & Hnew & Hold).
    { apply (in_defs_sites ssa); [done|]. by apply (Hin (b, v)). }
    exists s'. split; [done|]. split; [by apply (ssa_sites_trans _ s)|].
    intros Hinj c w x r a i0 [Hx|[= -> -> ->]%list_elem_of_singleton]%elem_of_app Hr Hsite.
    + assert (phi !! (c, w) = Some x) as Hcw by (apply Hel; rewrite E; set_solver).
      rewrite Hold; [by apply (Hpre Hinj c w x r a i0)|by apply (Hin _ _ Hcw)|].
      intros ->. pose proof (Hinj _ _ _ Hcw Hd) as [= -> ->]. rewrite E, fmap_app in Hnd.
      apply NoDup_app in Hnd as (_ & Hdis & _). apply (Hdis (b, v)).
      * apply list_elem_of_fmap. by exists (b, v, d).
      * cbn. by left.
    + destruct (si_rec _ _ Hs _ _ Hr) as (r' & Hr' & Hv & _ & Hsite').
      assert (exists i1, site r' = Phi a i1) as [i1 Ei1].
      { destruct Hsite' as [Eq|(a' & j0 & j1 & Ea & Ea')]; [by exists i0; rewrite Eq|].
        rewrite Hsite in Ea. injection Ea as <- <-. by exists j1. }
      destruct (Hnew r' a i1 Hr' Ei1) as (r'' & H1 & H2 & H3). exists r''. split_and!; [done|by rewrite H2|done].
  - exists s. split_and!; [done|done|]. intros Hinj b v d r a i0 Hd. apply Hrec; [done|]. by apply Hel.
Qed.
End fill.

(** * What reaches the end of a block *)

(** A loop that moves the entries of a hash table that [h] selects. *)
Lemma fold_moved {K K' A} `{Countable K, Countable K'} (h : K -> option K') (g : gmap K' A -> K * A -> gmap K' A)
    (l : list (K * A)) m k' :
  (forall m k a, g m (k, a) = match h k with Some k' => <[k' := a]> m | None => m end) ->
  (forall k1 k2, h k1 = Some k' -> h k2 = Some k' -> k1 = k2) -> NoDup l.*1 ->
  (forall k a, (k, a) ∈ l -> h k = Some k' -> fold_left g l m !! k' = Some a) /\
  ((forall k a, (k, a) ∈ l -> h k <> Some k') -> fold_left g l m !! k' = m !! k').
Proof.
  intros Hg Hinj. revert m. induction l as [|[k a] l IH]; intros m Hnd.
  - split; [by intros k a ?%elem_of_nil|done].
  - cbn [fmap list_fmap fst] in Hnd. apply NoDup_cons in Hnd as [Hk Hnd]. cbn [fold_left].
    destruct (IH (g m (k, a)) Hnd) as [H1 H2]. split.
    + intros k1 a1 [[= -> ->]|Hin]%elem_of_cons Hk1; [|by apply (H1 k1)]. rewrite H2.
      * rewrite Hg, Hk1. apply lookup_insert_eq.
      * intros k2 a2 Hin Hk2. rewrite (Hinj k k2 Hk1 Hk2) in Hk. apply Hk, list_elem_of_fmap. by exists (k2, a2).
    + intros Hno. rewrite H2 by (intros k1 a1 Hin; apply (Hno k1 a1); by right). rewrite Hg.
      assert (h k <> Some k') as Hne by (apply (Hno k a); by left).
      destruct (h k) as [k1|]; [|done]. apply lookup_insert_ne. congruence.
Qed.

Section exits.
Context {I : Type} `{!ArchInsn I} `{HO : HashOrder} (ssa : SsaInfo).

Lemma last_defs_step (last : gmap Var DefId) a v :
  fold_left (fun last '((iip, var), did) => if iip =? a then <[var := did]> last else last) (map_order (def_at ssa)) last !! v
  = match def_at ssa !! (a, v) with Some d => Some d | None => last !! v end.
Proof.
  destruct (map_order_spec (def_at ssa)) as [Hnd Hin].
  destruct (fold_moved (fun k : Z * Var => if k.1 =? a then Some k.2 else None)
    (fun last '((iip, var), did) => if iip =? a then <[var := did]> last else last)
    (map_order (def_at ssa)) last v) as [H1 H2].
  - intros m [ip w] d. cbn. by destruct (ip =? a).
  - intros [i1 w1] [i2 w2]. cbn. destruct (Z.eqb_spec i1 a), (Z.eqb_spec i2 a); congruence.
  - done.
  - destruct (def_at ssa !! (a, v)) as [d|] eqn:E.
    + apply (H1 (a, v) d); [by apply Hin|]. cbn. by rewrite Z.eqb_refl.
    + apply H2. intros [ip w] d Hd%Hin. cbn. destruct (Z.eqb_spec ip a) as [->|]; [|done]. intros [= ->]. congruence.
Qed.

Lemma last_defs_lookup (block : BasicBlock I) v :
  last_defs ssa block !! v =
  fold_left (fun acc insn => match def_at ssa !! (addr insn, v) with Some d => Some d | None => acc end) (insns block) None.
Proof.
  unfold last_defs. rewrite <- (lookup_empty (A:=DefId) v). generalize (∅ : gmap Var DefId).
  induction (insns block) as [|i l IH]; intros m; [done|]. cbn [fold_left]. by rewrite IH, last_defs_step.
Qed.

Lemma exit_defs_lookup (f : Function I) p v :
  exit_defs ssa f !! (p, v) = blocks f !! p ≫= fun block => last_defs ssa block !! v.
Proof.
  unfold exit_defs.
  assert (forall l k (m : gmap (nat * Var) DefId), (forall j, (k <= j)%nat -> m !! (j, v) = None) ->
    fold_left (fun m '(b, block) => fold_left (fun m '(var, did) => <[(b, var) := did]> m) (map_order (last_defs ssa block)) m)
      (zip (seq k (length l)) l) m !! (p, v) =
    if (p <? k)%nat then m !! (p, v) else l !! (p - k)%nat ≫= fun block => last_defs ssa block !! v) as G.
  { induction l as [|block l IH]; intros k m Hm; cbn [length seq zip zip_with fold_left].
    - destruct (Nat.ltb_spec p k); [done|]. rewrite lookup_nil. by apply Hm.
    - assert (forall j, fold_left (fun m '(var, did) => <[(k, var) := did]> m) (map_order (last_defs ssa block)) m !! (j, v) =
        if decide (j = k) then match last_defs ssa block !! v with Some d => Some d | None => m !! (j, v) end
        else m !! (j, v)) as Hstep.
      { intros j. destruct (map_order_spec (last_defs ssa block)) as [Hnd Hin].
        destruct (fold_moved (fun w : Var => Some (k, w)) (fun m '(var, did) => <[(k, var) := did]> m)
          (map_order (last_defs ssa block)) m (j, v)) as [H1 H2]; [done|congruence|done|].
        destruct (decide (j = k)) as [->|Hne]; [|apply H2; congruence].
        destruct (last_defs ssa block !! v) as [d|] eqn:E; [by apply (H1 v d); [apply Hin|]|].
        apply H2. intros w d Hd%Hin. congruence. }
      rewrite IH.
      + destruct (Nat.ltb_spec p (S k)), (Nat.ltb_spec p k).
        * rewrite Hstep. by rewrite decide_False by lia.
        * assert (p = k) as -> by lia. rewrite Hstep, decide_True, Nat.sub_diag by done. cbn.
          rewrite Hm by done. by destruct (last_defs ssa block !! v).
        * lia.
        * by replace (p - k)%nat with (S (p - S k)) by lia.
      + intros j Hj. rewrite Hstep, decide_False by lia. apply Hm. lia. }
  unfold enumerate. rewrite G by (intros; apply lookup_empty). by rewrite Nat.sub_0_r.
Qed.
End exits.

Definition mentions (v : Var) (l : list InsnRw) : Prop := exists x : InsnRw, x ∈ l /\ (v ∈ x.1.2 \/ v ∈ x.2).

Lemma ip_inj (l : list InsnRw) x y : NoDup (block_ips l) -> x ∈ l -> y ∈ l -> ip_of x = ip_of y -> x = y.
Proof.
  intros Hnd [i Hi]%list_elem_of_lookup [j Hj]%list_elem_of_lookup E. unfold block_ips in Hnd.
  assert (i = j) as ->; [|congruence]. apply (NoDup_lookup (ip_of <$> l) i j (ip_of x)); [done|..];
    rewrite list_lookup_fmap; [by rewrite Hi|by rewrite Hj, E].
Qed.

Lemma fold_default {A} (g : A -> option DefId) l acc :
  fold_left (fun acc x => match g x with Some d => Some d | None => acc end) l acc =
  match fold_left (fun acc x => match g x with Some d => Some d | None => acc end) l None with
  | Some d => Some d
  | None => acc
  end.
Proof.
  revert acc. induction l as [|x l IH]; intros acc; [done|]. cbn. rewrite IH. symmetry. rewrite IH.
  by destruct (fold_left _ l None), (g x).
Qed.

Lemma fold_exec D v l s : (forall x, x ∈ l -> is_Some (D !! (ip_of x, v)) <-> v ∈ x.2) ->
  fold_left (fun acc x => match D !! (ip_of x, v) with Some d => Some d | None => acc end) l (s v) = exec D l s v.
Proof.
  revert s. induction l as [|x l IH]; intros s H; [done|].
  change (exec D (x :: l) s v) with (exec D l (exec_insn D s x) v). rewrite <- IH by (intros y Hy; apply H; by right).
  cbn [fold_left]. f_equal. unfold exec_insn. pose proof (H x ltac:(by left)) as Hx.
  destruct (decide (v ∈ x.2)) as [Hv|Hv].
  - apply Hx in Hv as [d ->]. done.
  - destruct (D !! (ip_of x, v)); [|done]. destruct Hv. apply Hx. by eexists.
Qed.

Lemma last_use_spec {A} (g : A -> option DefId) (o : option DefId) l :
  (forall x, x ∈ l -> is_Some (g x) -> g x = o) -> (exists x, x ∈ l /\ is_Some (g x)) ->
  fold_right (fun x acc => match acc with Some d => Some d | None => g x end) None l = o.
Proof.
  intros Hall Hex.
  assert (forall l, (forall x, x ∈ l -> is_Some (g x) -> g x = o) ->
    let r := fold_right (fun x acc => match acc with Some d => Some d | None => g x end) None l in
    (r = None /\ forall x, x ∈ l -> g x = None) \/ (is_Some r /\ r = o)) as G.
  { clear. induction l as [|x l IH]; intros H; cbn; [left; split; [done|by intros x ?%elem_of_nil]|].
    destruct IH as [[-> Hn]|[[d Hd] Ho]]; [intros y Hy; apply H; by right| |].
    - destruct (g x) as [d|] eqn:Ex.
      + right. split; [by eexists|]. rewrite <- Ex. apply H; [by left|]. by eexists.
      + left. split; [done|]. intros y [-> | Hy]%elem_of_cons; [done|by apply Hn].
    - right. rewrite Hd in *. by split. }
  destruct (G l Hall) as [[_ Hn]|[_ ?]]; [|done]. destruct Hex as (x & Hx & [d Hd]). by rewrite (Hn x Hx) in Hd.
Qed.

Section incoming.
Context {I : Type} `{!ArchInsn I} `{HO : HashOrder} (f : Function I) (rw : I -> list Var * list Var) (ssa : SsaInfo).
Let R := collect_reads_writes f rw.
Context (Hips : NoDup (block_ips (List.concat R))) (Hok : ssa_ok (reads_at R) (writes_at R) ssa).

Lemma block_reads_writes p block : blocks f !! p = Some block ->
  list_at R p = (fun i => (addr i, (rw i).1, (rw i).2)) <$> insns block.
Proof.
  intros E. unfold list_at, R, collect_reads_writes.
  change (List.map ?g (blocks f)) with (g <$> blocks f). by rewrite list_lookup_fmap, E.
Qed.

(** The tables speak of a block's instructions and their variables. *)
Lemma touched p s x v : recorded ssa (list_at R p) s -> x ∈ list_at R p ->
  (is_Some (def_at ssa !! (ip_of x, v)) <-> v ∈ x.2) /\ (is_Some (use_at ssa !! (ip_of x, v)) <-> v ∈ x.1.2).
Proof.
  intros Hrec Hx. assert (forall y, y ∈ List.concat R -> ip_of y = ip_of x -> y = x) as Hin.
  { intros y Hy. apply (ip_inj (List.concat R)); [done|done|]. by apply (list_at_concat R p). }
  split; split.
  - intros (y & Hy & E & Hv)%(so_written _ _ _ Hok). by rewrite (Hin y Hy E) in Hv.
  - intros Hv. by apply (rec_writes _ _ _ Hrec).
  - intros (y & Hy & E & Hv)%(so_used _ _ _ Hok). by rewrite (Hin y Hy E) in Hv.
  - intros Hv. destruct x as [[ip rs] ws]. apply list_elem_of_split in Hx as (pre & post & E).
    by apply (rec_reads _ _ _ Hrec pre ip rs ws post E v).
Qed.

(** For a predecessor that mentions the variable, the definition its end has. *)
Lemma incoming_reaches p block s v : blocks f !! p = Some block -> recorded ssa (list_at R p) s ->
  mentions v (list_at R p) -> exec (def_at ssa) (list_at R p) s v = Some (incoming_def ssa f v p).
Proof.
  intros Hb Hrec (x & Hx & Hv). pose proof (fun x Hx => touched p s x v Hrec Hx) as Ht.
  rewrite <- fold_exec by (intros y Hy; by apply Ht). rewrite fold_default.
  unfold incoming_def. rewrite exit_defs_lookup, Hb. cbn [mbind option_bind]. rewrite last_defs_lookup.
  assert (fold_left (fun acc insn => match def_at ssa !! (addr insn, v) with Some d => Some d | None => acc end) (insns block) None
    = fold_left (fun acc x => match def_at ssa !! (ip_of x, v) with Some d => Some d | None => acc end) (list_at R p) None) as ->.
  { rewrite (block_reads_writes p block Hb). generalize (None : option DefId).
    induction (insns block) as [|i l IH]; intros o; [done|]. apply IH. }
  destruct (fold_left _ (list_at R p) None) as [d|] eqn:Ef; [done|].
  assert (~ written_in v (list_at R p)) as Hw.
  { intros (y & Hy & Hvy). apply list_elem_of_split in Hy as (l1 & l2 & E). rewrite E in Ht, Ef.
    rewrite fold_left_app in Ef. cbn [fold_left] in Ef. rewrite fold_default in Ef.
    destruct (proj1 (Ht y ltac:(set_solver))) as [_ H]. destruct (H Hvy) as [d Hd]. rewrite Hd in Ef.
    by destruct (fold_left _ l2 None). }
  assert (forall y, y ∈ list_at R p -> is_Some (use_at ssa !! (ip_of y, v)) -> use_at ssa !! (ip_of y, v) = s v) as Huse.
  { intros y Hy Hs. apply (Ht y Hy) in Hs. destruct y as [[ip rs] ws].
    apply list_elem_of_split in Hy as (pre & post & E). destruct (rec_reads _ _ _ Hrec pre ip rs ws post E v Hs) as [Hu _].
    etrans; [exact Hu|]. apply exec_other. intros (z & Hz & Hvz). apply Hw. exists z. rewrite E. set_solver. }
  destruct Hv as [Hv|Hv]; [|by destruct Hw; exists x].
  assert (is_Some (use_at ssa !! (ip_of x, v))) as Hs by (by apply (Ht x Hx)).
  assert (last_use ssa block v = s v) as ->.
  { unfold last_use. apply last_use_spec.
    - intros i Hi. apply (Huse (addr i, (rw i).1, (rw i).2)). rewrite (block_reads_writes p block Hb).
      apply list_elem_of_fmap. by exists i.
    - rewrite (block_reads_writes p block Hb) in Hx. apply list_elem_of_fmap in Hx as (i & -> & Hi). by exists i. }
  rewrite <- (Huse x Hx Hs). by destruct Hs as [d ->].
Qed.
End incoming.

(** * The construction *)

Lemma ssa_ok_sites Rd W ssa s : ssa_sites ssa s -> ssa_ok Rd W ssa -> ssa_ok Rd W s.
Proof.
  intros Hs Hok. destruct Hs as [Hu Hd Hl Hr]. split.
  - intros key d. rewrite Hu. intros H. destruct (so_use _ _ _ Hok key d H) as [? ?]. split; [done|by rewrite Hl].
  - intros i r' ip Hi. destruct (lookup_lt_is_Some_2 (defs ssa) i) as [r Er]; [rewrite <- Hl; by apply lookup_lt_Some in Hi|].
    destruct (Hr i r Er) as (r1 & E1 & _ & Hx & _). rewrite E1 in Hi. injection Hi as ->. rewrite Hx, Hu.
    by apply (so_uses _ _ _ Hok).
  - intros ip v d. unfold len. rewrite Hl, Hd. intros Hlen H. destruct (so_def _ _ _ Hok ip v d Hlen H) as (r & Er & Hv & Hsite).
    destruct (Hr _ r Er) as (r' & Er' & Hv' & _ & Hsite'). exists r'. split_and!; [done|by rewrite Hv'|].
    destruct Hsite' as [->|(a & i0 & i1 & E & _)]; [done|congruence].
  - intros ip v. rewrite Hu. apply Hok.
  - intros ip v. rewrite Hd. apply Hok.
Qed.

Section build.
Context {I : Type} `{!ArchInsn I} `{HO : HashOrder} (f : Function I) (rw : I -> list Var * list Var).
Context (succs : list (list nat)) (Hne : blocks f <> []) (Hsuccs : successors (E:=Stuck) f = Ok succs).
Let R := collect_reads_writes f rw.
Let preds := compute_predecessors succs.
Context (Hips : NoDup (block_ips (List.concat R))) (Hentry : forall p, O ∉ list_at succs p).

(** What the result, the phis and the entry definitions promise. *)
Record built (ssa : SsaInfo) (phi : gmap (nat * Var) DefId) (e : Var -> option DefId) : Prop := {
  bu_ok : ssa_ok (reads_at R) (writes_at R) ssa;
  bu_runs b s : run succs R phi (def_at ssa) e b s -> recorded ssa (list_at R b) s;
  bu_entry v d : len (defs ssa) <= 2 ^ 32 -> e v = Some d ->
    exists r, def_record ssa d = Some r /\ d_var r = v /\ site r = Entry;
  bu_phi b v d : len (defs ssa) <= 2 ^ 32 -> phi !! (b, v) = Some d ->
    exists block r inc, blocks f !! b = Some block /\ def_record ssa d = Some r /\ d_var r = v /\
      site r = Phi (bb_addr block) inc /\ (2 <= length (list_at preds b))%nat /\ length inc = length (list_at preds b) /\
      forall i p s, list_at preds b !! i = Some p -> run succs R phi (def_at ssa) e p s -> mentions v (list_at R p) ->
        inc !! i = exec (def_at ssa) (list_at R p) s v;
  bu_all i r a inc : len (defs ssa) <= 2 ^ 32 -> defs ssa !! i = Some r -> site r = Phi a inc ->
    exists b, phi !! (b, d_var r) = Some (Z.of_nat i);
}.

(** The first steps: the phis, with a definition for each variable. *)
Lemma prepared : exists rpo dom df phis ssa0 st ssa1 phi,
  rpo_ok succs rpo /\ dom_tree succs rpo dom /\
  compute_dominators succs preds = Ok dom /\ compute_dominance_frontiers preds dom = Ok df /\
  place_phis df R = Ok phis /\
  fold_left alloc_entry (set_order (collect_all_vars R phis)) (ssa_default, ∅) = (ssa0, st) /\
  alloc_phis f phis ssa0 = Ok (ssa1, phi) /\
  phis_ok f (reads_at R) (writes_at R) ssa0 (phi_pairs phis) ssa1 phi /\ use_at ssa0 = ∅ /\
  stacks_ok ssa0 st /\ full R st /\
  (forall v d, len (defs ssa0) <= 2 ^ 32 -> top st v = Some d ->
     exists r, def_record ssa0 d = Some r /\ d_var r = v /\ site r = Entry) /\
  (forall v b, has_phi phis v b -> (2 <= length (list_at preds b))%nat) /\
  (forall p b v, b ∈ rpo -> edge succs p b -> (2 <= length (list_at preds b))%nat ->
     phi !! (b, v) = None -> clear_walk dom R phi v (nat_at dom b) p).
Proof.
  destruct (successors_ok f succs Hsuccs) as [Hlen Hlt].
  assert (Cfg succs) as Hcfg by (split; [done|]; rewrite Hlen; by destruct (blocks f); [|cbn; lia]).
  destruct (compute_dominators_ok succs) as (rpo & dom & Hrpo & Edom & Hdt).
  destruct (predecessors_ok succs cfg_lt) as [Hplen Hpreds]. fold preds in Hplen, Hpreds.
  destruct (frontiers_ok dom Hdt preds Hplen Hpreds) as (df & Edf & Hdf & Hwalk).
  assert (length R = length df) as HR by (unfold R; by rewrite length_collect, (df_len _ _ Hdf)).
  assert (forall x y, y ∈ set_at df x -> (y < length df)%nat) as Hdflt.
  { intros x y Hy. rewrite (df_len _ _ Hdf). by apply (df_join _ _ Hdf x). }
  destruct (place_phis_ok df R HR Hdflt) as (phis & Ephis & Hclosed & Hjoin).
  assert (forall v b, has_phi phis v b -> (b < length (blocks f))%nat /\ (2 <= length (list_at preds b))%nat) as Hphi.
  { intros v b [x Hx]%Hjoin. rewrite <- Hlen. by apply (df_join _ _ Hdf x). }
  set (vars := set_order (collect_all_vars R phis)).
  assert (NoDup vars) as Hvars by (unfold vars; rewrite set_order_perm; apply NoDup_elements).
  pose proof (alloc_entries vars Hvars) as Hal.
  destruct (fold_left alloc_entry vars (ssa_default, ∅)) as [ssa0 st] eqn:Eal. destruct Hal as (E0 & Hst1 & Hst2).
  assert (ssa_ok (reads_at R) (writes_at R) ssa0) as Hok0.
  { rewrite E0. split; cbn.
    - intros key d. by rewrite lookup_empty.
    - intros i r ip Hr. change (List.map entry_record vars) with (entry_record <$> vars) in Hr.
      rewrite list_lookup_fmap in Hr. destruct (vars !! i); [|done]. injection Hr as <-. cbn.
      split; [by intros ?%elem_of_nil|]. intros [w Hw]. by rewrite lookup_empty in Hw.
    - intros ip v d _. by rewrite lookup_empty.
    - intros ip v [d Hd]. by rewrite lookup_empty in Hd.
    - intros ip v [d Hd]. by rewrite lookup_empty in Hd. }
  destruct (alloc_phis_ok f (reads_at R) (writes_at R) phis ssa0 Hok0) as (ssa1 & phi & Eph & Hpo).
  { intros i r a inc Hi. rewrite E0 in Hi. cbn in Hi. change (List.map ?g ?l) with (g <$> l) in Hi.
    rewrite list_lookup_fmap in Hi. destruct (vars !! i); [|done]. by injection Hi as <-. }
  { intros v b Hb. by apply (Hphi v). }
  assert (forall v d, d ∈ stk st v -> exists i, vars !! i = Some v /\ d = wrap32 (Z.of_nat i)) as Hst.
  { intros v d Hd. destruct (decide (v ∈ vars)) as [Hv|Hv].
    - apply list_elem_of_lookup in Hv as [i Hi]. exists i. split; [done|]. rewrite (Hst1 i v Hi) in Hd. by apply list_elem_of_singleton in Hd.
    - rewrite (Hst2 v Hv) in Hd. by apply elem_of_nil in Hd. }
  assert (length (defs ssa0) = length vars) as Hl0 by (rewrite E0; apply length_map).
  exists rpo, dom, df, phis, ssa0, st, ssa1, phi. split_and!; try done.
  - by rewrite E0.
  - intros v d (i & Hi & ->)%Hst. pose proof (lookup_lt_Some _ _ _ Hi). split; [apply wrap_range; lia|].
    rewrite Hl0. pose proof (wrap32_len i). pose proof (wrap_range 32 (Z.of_nat i) ltac:(lia)) as [? _]. lia.
  - intros b x r Hx Hr E. assert (r ∈ vars) as [i Hi]%list_elem_of_lookup.
    { apply elem_of_set_order, (elem_of_all_vars R phis b x); [done|]. apply elem_of_app. by left. }
    by rewrite (Hst1 i r Hi) in E.
  - intros v d Hl Hd. assert (d ∈ stk st v) as (i & Hi & ->)%Hst.
    { unfold top in Hd. destruct (stk st v); [done|]. injection Hd as ->. by left. }
    exists (entry_record v). split_and!; [|done|done]. unfold def_record. rewrite E0. cbn.
    change (List.map entry_record vars) with (entry_record <$> vars). unfold len in Hl. rewrite Hl0 in Hl.
    pose proof (lookup_lt_Some _ _ _ Hi). rewrite wrap_small, Nat2Z.id by (unfold in_range; lia).
    by rewrite list_lookup_fmap, Hi.
  - intros v b Hb. by apply (Hphi v).
  - intros p b v Hb He H2 Hn x Hx. assert (b ∈ set_at df x) as Hbx.
    { apply (Hwalk b p x); [by apply rpo_lt|done..]. }
    assert (~ has_phi phis v b) as Hnb.
    { intros Hb'. apply elem_of_phi_pairs, (po_keys _ _ _ _ _ _ _ Hpo) in Hb' as [d Hd]. congruence. }
    split.
    + intros Hw. apply Hnb. apply (Hclosed v x); [by left|done].
    + destruct (phi !! (x, v)) as [d|] eqn:Ed; [|done]. destruct Hnb. apply (Hclosed v x); [|done]. right.
      apply elem_of_phi_pairs, (po_keys _ _ _ _ _ _ _ Hpo). by eexists.
Qed.

Lemma len_keeps ssa ssa' : ssa_keeps ssa ssa' -> len (defs ssa') <= 2 ^ 32 -> len (defs ssa) <= 2 ^ 32.
Proof. intros H%ssa_keeps_length. unfold len. lia. Qed.

Lemma build_ssa_built : exists ssa phi e, build_ssa f rw = Ok ssa /\ built ssa phi e.
Proof.
  destruct (successors_ok f succs Hsuccs) as [Hlen Hlt].
  assert (Cfg succs) as Hcfg by (split; [done|]; rewrite Hlen; by destruct (blocks f); [|cbn; lia]).
  destruct prepared as (rpo & dom & df & phis & ssa0 & st & ssa1 & phi & Hrpo & Hdt & Edom & Edf & Ephis & Eal & Eph & Hpo &
    Huse0 & Hst & Hfull & Htop & Hjoin & Hclear).
  assert (length R = length succs) as HR by (unfold R; by rewrite length_collect, Hlen).
  destruct (rename_dfs_ok dom Hdt R HR phi Hips (S (length (blocks f))) O ssa1 st) as
    (s2 & st2 & Edfs & Hok2 & Hext & _ & _ & Hcorrect).
  { apply cfg_pos. }
  { rewrite Hlen. lia. }
  { apply Hpo. }
  { intros v d Hd. apply (in_defs_keeps ssa0); [apply Hpo|]. by apply (Hst v). }
  { apply Hpo. }
  { done. }
  { intros ip v _. rewrite (po_use _ _ _ _ _ _ _ Hpo), Huse0. apply lookup_empty. }
  destruct (fill_ok f s2 phi preds) as (s3 & Efill & Hsites & Hinc).
  { intros key d Hd. apply (in_defs_ext ssa1); [done|]. by apply (po_in _ _ _ _ _ _ _ Hpo key). }
  assert (forall b s, run succs R phi (def_at s3) (top st) b s -> recorded s2 (list_at R b) s) as Hruns.
  { intros b s Hr. rewrite (si_def _ _ Hsites) in Hr. apply (Hcorrect b s).
    apply (run_state dom Hdt preds) in Hr as [_ Hr]; [done| | | |].
    - by apply predecessors_ok.
    - done.
    - intros p Hp. by apply (Hentry p).
    - intros v. destruct (phi !! (O, v)) as [d|] eqn:Ed; [|done].
      assert ((v, O) ∈ phi_pairs phis) as Hv by (apply (po_keys _ _ _ _ _ _ _ Hpo); by eexists).
      apply elem_of_phi_pairs, Hjoin in Hv. destruct (list_at preds O) as [|p l] eqn:Ep; [cbn in Hv; lia|].
      destruct (Hentry p). apply (proj2 (predecessors_ok succs Hlt) p O). fold preds. rewrite Ep. by left. }
  assert (len (defs s3) <= 2 ^ 32 -> len (defs ssa1) <= 2 ^ 32) as Hl1.
  { unfold len. rewrite (si_len _ _ Hsites). apply len_keeps, Hext. }
  exists s3, phi, (top st). split.
  { unfold build_ssa. destruct (blocks f) as [|b0 bs] eqn:Eb; [done|]. rewrite <- Eb in *.
    rewrite Hsuccs. cbn [mbind res_bind]. fold preds. rewrite Edom. cbn [mbind res_bind]. rewrite Edf.
    cbn [mbind res_bind]. fold R. rewrite Ephis. cbn [mbind res_bind]. rewrite Eal, Eph. cbn [mbind res_bind].
    rewrite Edfs. done. }
  split.
  - by apply (ssa_ok_sites _ _ s2).
  - intros b s Hr. destruct (Hruns b s Hr) as [H1 H2]. split.
    + intros pre ip rs ws post E r Hrd. rewrite (si_use _ _ Hsites), (si_def _ _ Hsites). by apply (H1 pre ip rs ws post).
    + intros x v Hx Hv. rewrite (si_def _ _ Hsites). by apply H2.
  - intros v d Hl Hd. destruct (Htop v d) as (r & Er & Hv & Hs); [apply (len_keeps ssa0 ssa1); [apply Hpo|by apply Hl1]|done|].
    destruct (def_record_keeps ssa0 ssa1 d r (po_keeps _ _ _ _ _ _ _ Hpo) Er) as (r1 & Er1 & Hv1 & Hs1).
    destruct (def_record_keeps ssa1 s2 d r1 (proj1 Hext) Er1) as (r2 & Er2 & Hv2 & Hs2).
    destruct (si_rec _ _ Hsites _ _ Er2) as (r3 & Er3 & Hv3 & _ & Hs3). exists r3.
    split_and!; [done|congruence|]. destruct Hs3 as [?|(a & i0 & i1 & E & _)]; congruence.
  - intros b v d Hl Hd. destruct (po_rec _ _ _ _ _ _ _ Hpo (Hl1 Hl) b v d Hd) as (block & r & Hb & Er & Hv & Hs).
    destruct (def_record_keeps ssa1 s2 d r (proj1 Hext) Er) as (r2 & Er2 & Hv2 & Hs2). rewrite Hs in Hs2.
    destruct (Hinc (po_inj _ _ _ _ _ _ _ Hpo (Hl1 Hl)) b v d r2 _ _ Hd Er2 Hs2) as (r3 & Er3 & Hv3 & Hs3).
    exists block, r3, (List.map (incoming_def s2 f v) (list_at preds b)).
    split_and!; [done|done|congruence|done| |by rewrite length_map|].
    + apply (Hjoin v), elem_of_phi_pairs, (po_keys _ _ _ _ _ _ _ Hpo). by eexists.
    + intros i p s Hi Hr Hm. pose proof (Hruns p s Hr) as Hrec. rewrite (si_def _ _ Hsites).
      assert (p < length (blocks f))%nat as [blk Ep]%lookup_lt_is_Some_2.
      { destruct (decide (p < length (blocks f))%nat) as [|Hge]; [done|]. destruct Hm as (x & Hx & _).
        unfold list_at in Hx. rewrite (proj2 (lookup_ge_None R p)) in Hx; [by apply elem_of_nil in Hx|].
        unfold R. rewrite length_collect. lia. }
      etrans; [|symmetry; exact (incoming_reaches f rw s2 Hips Hok2 p blk s v Ep Hrec Hm)].
      change (List.map ?g ?l) with (g <$> l). by rewrite list_lookup_fmap, Hi.
  - intros i r a inc Hl Hi Hs. destruct (lookup_lt_is_Some_2 (defs s2) i) as [r2 E2].
    { rewrite <- (si_len _ _ Hsites). by apply lookup_lt_Some in Hi. }
    destruct (si_rec _ _ Hsites i r2 E2) as (r' & Hi' & Hv & _ & Hs'). rewrite Hi in Hi'. injection Hi' as <-.
    assert (exists inc2, site r2 = Phi a inc2) as [inc2 Es2].
    { destruct Hs' as [Eq|(a' & i0 & i1 & Ea & Ea')]; [exists inc; by rewrite <- Eq|].
      rewrite Hs in Ea'. injection Ea' as <- <-. by exists i0. }
    destruct (defs ssa1 !! i) as [r1|] eqn:E1; [|destruct (proj2 Hext i r2 E2 E1); congruence].
    destruct (proj1 Hext i r1 E1) as (r2' & E2' & Hv' & Hs2). rewrite E2 in E2'. injection E2' as <-.
    rewrite Hv, Hv'. apply (po_all _ _ _ _ _ _ _ Hpo (Hl1 Hl) i r1 a inc2 E1). congruence.
Qed.
End build.
