(* ===== verification/SsaReach.v ===== *)
(** What SSA construction (ir/ssa.rs) promises: every recorded read is reached
    by its definition on every run, and a phi joins what its predecessors end
    with as far as they mention the variable. *)

From S2P Require Import Prelude Common Ir Ssa SsaLive SsaDom SsaIdom SsaPhi SsaRename SsaTree SsaRun SsaBuild.

Section claims.
Context {I : Type} `{!ArchInsn I} `{HO : HashOrder} (f : Function I) (rw : I -> list Var * list Var).

Lemma def_record_site ssa d r : def_record ssa d = Some r -> def_var ssa d = Some (d_var r) /\ def_site ssa d = Some (site r).
Proof. unfold def_var, def_site. by intros ->. Qed.

(** C5: SSA construction is right for every control-flow graph without an edge
    back to its entry block. It ends without a panic, and whatever way a run
    takes to a block, the definition recorded for a read is the one current
    there: the latest the run has passed, of an instruction that writes the
    variable or of a phi of a block it has entered, the entry definition
    otherwise. The uses of a definition are the addresses of its reads. Up to
    2^32 definitions each has the variable and the site it stands for. *)
Theorem ssa_reaching succs :
  blocks f <> [] -> successors (E:=Stuck) f = Ok succs -> (forall p, O ∉ list_at succs p) ->
  let R := collect_reads_writes f rw in
  NoDup (List.map ip_of (List.concat R)) ->
  exists ssa phi e, build_ssa f rw = Ok ssa /\
    (forall b s pre ip rs ws post v, run succs R phi (def_at ssa) e b s ->
       list_at R b = pre ++ (ip, rs, ws) :: post -> v ∈ rs ->
       is_Some (def_reaching ssa ip v) /\ def_reaching ssa ip v = exec (def_at ssa) pre s v) /\
    (forall d ip, in_defs ssa d -> ip ∈ uses_of ssa d <-> exists v, def_reaching ssa ip v = Some d) /\
    (len (defs ssa) <= 2 ^ 32 ->
       (forall v d, e v = Some d -> def_var ssa d = Some v /\ def_site ssa d = Some Entry) /\
       (forall b v d, phi !! (b, v) = Some d -> def_var ssa d = Some v /\
          exists block inc, blocks f !! b = Some block /\ def_site ssa d = Some (Phi (bb_addr block) inc)) /\
       (forall ip v d, def_at ssa !! (ip, v) = Some d -> def_var ssa d = Some v /\ def_site ssa d = Some (Insn ip))).
Proof.
  intros Hne Hs H0 R Hips. destruct (build_ssa_built f rw succs Hne Hs Hips H0) as (ssa & phi & e & E & Hb).
  exists ssa, phi, e. split_and!; [done| | |].
  - intros b s pre ip rs ws post v Hr%(bu_runs _ _ _ _ _ _ Hb) El Hv. unfold def_reaching.
    destruct (rec_reads _ _ _ Hr pre ip rs ws post El v Hv) as [<- ?]. done.
  - intros d ip Hd. destruct (def_record_range ssa d Hd) as [r Er]. unfold uses_of, def_reaching. rewrite Er.
    rewrite (so_uses _ _ _ (bu_ok _ _ _ _ _ _ Hb) _ r ip Er), Z2Nat.id by apply Hd. done.
  - intros Hl. split_and!.
    + intros v d Hd. destruct (bu_entry _ _ _ _ _ _ Hb v d Hl Hd) as (r & Er & <- & <-). by apply def_record_site.
    + intros b v d Hd. destruct (bu_phi _ _ _ _ _ _ Hb b v d Hl Hd) as (block & r & inc & Hblk & Er & <- & Es & _).
      destruct (def_record_site ssa d r Er) as [? ?]. split; [done|]. exists block, inc. by rewrite <- Es.
    + intros ip v d Hd. destruct (so_def _ _ _ (bu_ok _ _ _ _ _ _ Hb) ip v d Hl Hd) as (r & Er & <- & <-).
      by apply def_record_site.
Qed.

(** C8: a phi joins what reaches it. Up to 2^32 definitions, every phi stands
    for a block with two predecessors or more, and has a value per
    predecessor; for a predecessor that reads or writes the variable it is the
    definition current at that block's end, on every run. *)
Theorem phi_incoming succs :
  blocks f <> [] -> successors (E:=Stuck) f = Ok succs -> (forall p, O ∉ list_at succs p) ->
  let R := collect_reads_writes f rw in
  let preds := compute_predecessors succs in
  NoDup (List.map ip_of (List.concat R)) ->
  exists ssa phi e, build_ssa f rw = Ok ssa /\ (len (defs ssa) <= 2 ^ 32 ->
    forall d v a inc, in_defs ssa d -> def_var ssa d = Some v -> def_site ssa d = Some (Phi a inc) ->
    exists b block, blocks f !! b = Some block /\ a = bb_addr block /\ phi !! (b, v) = Some d /\
      (2 <= length (list_at preds b))%nat /\ length inc = length (list_at preds b) /\
      forall i p s, list_at preds b !! i = Some p -> run succs R phi (def_at ssa) e p s -> mentions v (list_at R p) ->
        inc !! i = exec (def_at ssa) (list_at R p) s v).
Proof.
  intros Hne Hs H0 R preds Hips. destruct (build_ssa_built f rw succs Hne Hs Hips H0) as (ssa & phi & e & E & Hb).
  exists ssa, phi, e. split; [done|]. intros Hl d v a inc Hd Hv Hsite.
  destruct (def_record_range ssa d Hd) as [r Er]. destruct (def_record_site ssa d r Er) as [Hv' Hsite'].
  rewrite Hv in Hv'. rewrite Hsite in Hsite'. injection Hv' as ->. injection Hsite' as Hsite'.
  destruct (bu_all _ _ _ _ _ _ Hb (Z.to_nat d) r a inc Hl Er) as [b Hphi]; [done|].
  rewrite Z2Nat.id in Hphi by apply Hd.
  destruct (bu_phi _ _ _ _ _ _ Hb b (d_var r) d Hl Hphi) as (block & r' & inc' & Hblk & Er' & _ & Es & H2 & Hlen & Hinc).
  rewrite Er in Er'. injection Er' as <-. rewrite <- Hsite' in Es. injection Es as -> ->.
  exists b, block. done.
Qed.
End claims.

(** * Samples *)

(** Both arms of a branch may come from the first block's [x]; one writes it. *)
Definition one_arm (other : list (Z * list Var * list Var)) : Function TestInsn :=
  let x := Stack 1 in
  test_func
    [test_block 0 [(0, [], [x])] (ConditionalBranch 4 2);
     test_block 2 [(2, [], [x])] (UnconditionalBranch 6);
     test_block 4 other Fallthrough;
     test_block 6 [(6, [x], [])] Return].

Definition one_arm_succs : list (list nat) := [[1; 2]; [3]; [3]; []]%nat.

Lemma one_arm_entry p : O ∉ list_at one_arm_succs p.
Proof.
  do 4 (destruct p as [|p]; [unfold list_at; cbn; rewrite ?elem_of_cons, elem_of_nil; lia|]).
  unfold list_at. cbn. apply not_elem_of_nil.
Qed.

Lemma one_arm_runs R phi D e : exists s, run one_arm_succs R phi D e 3 s.
Proof.
  eexists. eapply (run_edge _ _ _ _ _ 1); [eapply (run_edge _ _ _ _ _ 0); [by apply run_entry| |done]| |done];
    unfold edge, list_at; cbn; rewrite ?elem_of_cons; auto.
Qed.

Lemma ssa_reaching_witness :
  let f := one_arm [(4, [Stack 1], [])] in
  blocks f <> [] /\ successors (E:=Stuck) f = Ok one_arm_succs /\ (forall p, O ∉ list_at one_arm_succs p) /\
  NoDup (List.map ip_of (List.concat (collect_reads_writes f test_rw))) /\
  exists ssa, build_ssa f test_rw = Ok ssa /\ is_Some (def_reaching ssa 6 (Stack 1)).
Proof.
  intros f. assert (blocks f <> []) as H1 by done.
  assert (successors (E:=Stuck) f = Ok one_arm_succs) as H2 by (vm_compute; reflexivity).
  assert (NoDup (List.map ip_of (List.concat (collect_reads_writes f test_rw)))) as H3 by (apply (bool_decide_unpack _); vm_compute; exact I).
  split_and!; [exact H1|exact H2|exact one_arm_entry|exact H3|].
  destruct (ssa_reaching f test_rw _ H1 H2 one_arm_entry H3) as (ssa & phi & e & E & Hr & _). exists ssa. split; [exact E|].
  destruct (one_arm_runs (collect_reads_writes f test_rw) phi (def_at ssa) e) as [s Hs].
  apply (Hr 3%nat s [] 6 [Stack 1] [] [] (Stack 1) Hs); [reflexivity|by left].
Defined.

Lemma phi_incoming_witness :
  let f := one_arm [(4, [Stack 1], [])] in
  blocks f <> [] /\ successors (E:=Stuck) f = Ok one_arm_succs /\ (forall p, O ∉ list_at one_arm_succs p) /\
  NoDup (List.map ip_of (List.concat (collect_reads_writes f test_rw))) /\
  exists ssa, build_ssa f test_rw = Ok ssa /\ len (defs ssa) <= 2 ^ 32 /\ in_defs ssa 1 /\
    def_var ssa 1 = Some (Stack 1) /\ def_site ssa 1 = Some (Phi 6 [3; 2]).
Proof.
  intros f. assert (blocks f <> []) as H1 by done.
  assert (successors (E:=Stuck) f = Ok one_arm_succs) as H2 by (vm_compute; reflexivity).
  assert (NoDup (List.map ip_of (List.concat (collect_reads_writes f test_rw)))) as H3 by (apply (bool_decide_unpack _); vm_compute; exact I).
  split_and!; [exact H1|exact H2|exact one_arm_entry|exact H3|].
  destruct (phi_incoming f test_rw _ H1 H2 one_arm_entry H3) as (ssa & phi & e & E & Hp). exists ssa. split; [exact E|].
  assert (match build_ssa f test_rw with
    | Ok s => (length (defs s), def_var s 1, def_site s 1) = (4%nat, Some (Stack 1), Some (Phi 6 [3; 2]))
    | _ => False end) as Hc by (vm_compute; reflexivity).
  rewrite E in Hc. injection Hc as Hl Hv Hs.
  assert (len (defs ssa) <= 2 ^ 32) as H4 by (unfold len; rewrite Hl; lia).
  assert (in_defs ssa 1) as Hd by (split; [lia|rewrite Hl; lia]).
  destruct (Hp H4 1 (Stack 1) 6 [3; 2] Hd Hv Hs) as (b & _).
  split_and!; [exact H4|exact Hd|exact Hv|exact Hs].
Defined.

(** A predecessor that does not mention the variable is given the entry
    definition, 0, although the definition of the first block, 2, reaches it. *)
Example incoming_unmentioned :
  match build_ssa (one_arm [(4, [], [])]) test_rw with
  | Ok ssa => (def_site ssa 0, def_site ssa 1, def_site ssa 2) = (Some Entry, Some (Phi 6 [3; 0]), Some (Insn 0))
  | _ => False
  end.
Proof. vm_compute. reflexivity. Qed.

(** A loop over the entry block gets no phi: its read has the entry
    definition, in the second round too. *)
Example entry_loop :
  let f := test_func [test_block 0 [(0, [Stack 1], []); (2, [], [Stack 1])] (ConditionalBranch 0 4);
                      test_block 4 [(4, [], [])] Return] in
  match build_ssa f test_rw with
  | Ok ssa => def_site ssa <$> def_reaching ssa 0 (Stack 1) = Some (Some Entry) /\ length (defs ssa) = 2%nat
  | _ => False
  end.
Proof. vm_compute. by split. Qed.
