(* ===== verification/X86Prologue.v ===== *)
(** The structured form of x86 function prologues and epilogues
    (arch/x86/prologue_codec.rs), and that decoder and encoder agree on it. A
    cursor into a byte slice is the rest of the slice. *)

From S2P Require Import Prelude.

Inductive CodecBits : Type := Bits32 | Bits64.

Record StructuredPrologue : Type := {
  saves : list (list byte);
  saves_after : list (list byte);
  frame : bool;
  sub_esp : Z;
  cf_protect : bool;
  frame_alt_encoding : bool;
}.

Record StructuredEpilogue : Type := {
  e_saves : list (list byte);
  leave : bool;
  pop_frame : bool;
  add_esp : Z;
  ret_imm : Z;
}.

(** * Registers *)

Definition REG_NAMES : list (list byte) :=
  [str "eax"; str "ecx"; str "edx"; str "ebx"; str "esp"; str "ebp"; str "esi"; str "edi";
   str "r8"; str "r9"; str "r10"; str "r11"; str "r12"; str "r13"; str "r14"; str "r15"].

Definition reg_name_for_opcode_index (n : Z) : option (list byte) := get REG_NAMES n.

Definition WIDE_NAMES : list (list byte) :=
  [str "rax"; str "rcx"; str "rdx"; str "rbx"; str "rsp"; str "rbp"; str "rsi"; str "rdi"].

(** The index of a name, with the REX.B bit apart. *)
Definition encode_index_of (name : list byte) : option (Z * bool) :=
  match list_find (fun s => s = name) REG_NAMES with
  | Some (i, _) => Some (Z.of_nat i mod 8, bool_decide (8 <= i)%nat)
  | None =>
      match list_find (fun s => s = name) WIDE_NAMES with
      | Some (i, _) => Some (Z.of_nat i, false)
      | None => None
      end
  end.

Definition push_reg_name (opcode : Z) (rex_b : bool) : option (list byte) :=
  reg_name_for_opcode_index (Z.lor (opcode - 0x50) (if rex_b then 8 else 0)).

Definition pop_reg_name (opcode : Z) (rex_b : bool) : option (list byte) :=
  reg_name_for_opcode_index (Z.lor (opcode - 0x58) (if rex_b then 8 else 0)).

(** [base] is the opcode of register 0; the [assert!] panics. *)
Definition reg_encoded (base : Z) (name : list byte) (bits : CodecBits) : res unit (list byte) :=
  match encode_index_of name with
  | Some (idx, true) =>
      match bits with
      | Bits64 => Ok [byte_of 0x41; byte_of (base + idx)]
      | Bits32 => Panic
      end
  | Some (idx, false) => Ok [byte_of (base + idx)]
  | None => Ok []
  end.

Definition push_reg_encoded := reg_encoded 0x50.
Definition pop_reg_encoded := reg_encoded 0x58.

(** * Pieces *)

Definition endbr (bits : CodecBits) : list byte :=
  byte_of <$> [0xf3; 0x0f; 0x1e; match bits with Bits32 => 0xfb | Bits64 => 0xfa end].

(** [name] of the opcodes from [lo] to [lo + 7], as long as they follow. *)
Fixpoint reg_run (name : Z -> bool -> option (list byte)) (lo : Z) (bits : CodecBits) (bytes : list byte)
    : option (list (list byte) * list byte) :=
  match bytes with
  | [] => Some ([], [])
  | b :: t =>
      if (lo <=? u8 b) && (u8 b <=? lo + 7) then
        r ← name (u8 b) false; '(rs, rest) ← reg_run name lo bits t; Some (r :: rs, rest)
      else
        match bits, t with
        | Bits64, c :: t' =>
            if (u8 b =? 0x41) && (lo <=? u8 c) && (u8 c <=? lo + 7) then
              r ← name (u8 c) true; '(rs, rest) ← reg_run name lo bits t'; Some (r :: rs, rest)
            else Some ([], bytes)
        | _, _ => Some ([], bytes)
        end
  end.

Definition mov_bp_sp_len (bits : CodecBits) : nat := match bits with Bits32 => 2 | Bits64 => 3 end.

(** The two encodings of [mov ebp, esp]. *)
Definition mov_bp_sp (bits : CodecBits) (alt : bool) : list byte :=
  byte_of <$>
    match bits, alt with
    | Bits32, false => [0x8b; 0xec]
    | Bits32, true => [0x89; 0xe5]
    | Bits64, false => [0x48; 0x8b; 0xec]
    | Bits64, true => [0x48; 0x89; 0xe5]
    end.

Definition mov_bp_sp_form (b : list byte) (bits : CodecBits) : option bool :=
  if decide (b = mov_bp_sp bits false) then Some false
  else if decide (b = mov_bp_sp bits true) then Some true
  else None.

(** [sub esp, imm] and [add esp, imm] differ in the ModRM byte: the immediate
    and the rest. *)
Definition parse_esp_imm (modrm : Z) (bytes : list byte) (bits : CodecBits) : option (Z * list byte) :=
  bytes ← match bits, bytes with
          | Bits32, _ => Some bytes
          | Bits64, b :: t => if u8 b =? 0x48 then Some t else None
          | Bits64, [] => None
          end;
  match bytes with
  | op :: m :: rest =>
      if (u8 op =? 0x83) && (u8 m =? modrm) then
        match rest with imm :: rest => Some (u8 imm, rest) | [] => None end
      else if (u8 op =? 0x81) && (u8 m =? modrm) then
        match rest with
        | b0 :: b1 :: b2 :: b3 :: rest => Some (from_le [b0; b1; b2; b3], rest)
        | _ => None
        end
      else None
  | _ => None
  end.

Definition parse_sub_esp := parse_esp_imm 0xec.
Definition parse_add_esp := parse_esp_imm 0xc4.

Definition encode_esp_imm (modrm imm : Z) (bits : CodecBits) : list byte :=
  match bits with Bits64 => [byte_of 0x48] | Bits32 => [] end ++
  (if imm <? 0x80 then [byte_of 0x83; byte_of modrm; byte_of imm]
   else byte_of 0x81 :: byte_of modrm :: to_le 4 imm).

Definition encode_sub_esp := encode_esp_imm 0xec.
Definition encode_add_esp := encode_esp_imm 0xc4.

(** * Prologues *)

Definition decode_prologue (bytes : list byte) (bits : CodecBits) : option StructuredPrologue :=
  let '(cf, i) := if decide (take 4 bytes = endbr bits) then (true, drop 4 bytes) else (false, bytes) in
  '(pushes, i) ← reg_run push_reg_name 0x50 bits i;
  let '(pushes, fr, alt, i) :=
    match last pushes with
    | Some r =>
        if decide (r = str "ebp" \/ r = str "rbp") then
          match mov_bp_sp_form (take (mov_bp_sp_len bits) i) bits with
          | Some alt => (removelast pushes, true, alt, drop (mov_bp_sp_len bits) i)
          | None => (pushes, false, false, i)
          end
        else (pushes, false, false, i)
    | None => (pushes, false, false, i)
    end in
  let '(sub, i) := match parse_sub_esp i bits with Some (imm, i) => (imm, i) | None => (0, i) end in
  '(after, i) ← reg_run push_reg_name 0x50 bits i;
  match i with
  | [] => Some {| saves := pushes; saves_after := after; frame := fr; sub_esp := sub; cf_protect := cf;
                  frame_alt_encoding := alt |}
  | _ => None
  end.

Definition encode_prologue (p : StructuredPrologue) (bits : CodecBits) : res unit (list byte) :=
  before ← mapM_res (fun r => push_reg_encoded r bits) (saves p);
  after ← mapM_res (fun r => push_reg_encoded r bits) (saves_after p);
  Ok ((if cf_protect p then endbr bits else []) ++ concat before ++
      (if frame p then byte_of 0x55 :: mov_bp_sp bits (frame_alt_encoding p) else []) ++
      (if 0 <? sub_esp p then encode_sub_esp (sub_esp p) bits else []) ++ concat after).

(** * Epilogues *)

Definition decode_epilogue (bytes : list byte) (bits : CodecBits) : option StructuredEpilogue :=
  '(pops, i) ← reg_run pop_reg_name 0x58 bits bytes;
  let '(add, i) := match parse_add_esp i bits with Some (imm, i) => (imm, i) | None => (0, i) end in
  let '(pops, lv, pf, i) :=
    match i with
    | b :: t =>
        if u8 b =? 0xc9 then (pops, true, false, t)
        else match last pops with
             | Some r => if decide (r = str "ebp" \/ r = str "rbp") then (removelast pops, false, true, i)
                         else (pops, false, false, i)
             | None => (pops, false, false, i)
             end
    | [] => (pops, false, false, i)
    end in
  match i with
  | b :: rest =>
      '(imm, rest) ←
        (if u8 b =? 0xc3 then Some (0, rest)
         else if u8 b =? 0xc2 then
           match rest with lo :: hi :: rest => Some (Z.lor (u8 lo) (Z.shiftl (u8 hi) 8), rest) | _ => None end
         else None);
      match rest with
      | [] => Some {| e_saves := pops; leave := lv; pop_frame := pf; add_esp := add; ret_imm := imm |}
      | _ => None
      end
  | [] => None
  end.

Definition encode_epilogue (e : StructuredEpilogue) (bits : CodecBits) : res unit (list byte) :=
  pops ← mapM_res (fun r => pop_reg_encoded r bits) (e_saves e);
  Ok (concat pops ++
      (if 0 <? add_esp e then encode_add_esp (add_esp e) bits else []) ++
      (if leave e then [byte_of 0xc9] else if pop_frame e then [byte_of 0x5d] else []) ++
      (if ret_imm e =? 0 then [byte_of 0xc3]
       else [byte_of 0xc2; byte_of (Z.land (ret_imm e) 0xff); byte_of (Z.land (Z.shiftr (ret_imm e) 8) 0xff)])).

(** [Some] when the structured form stands for the bytes. *)
Definition prologue_roundtrips (bytes : list byte) (bits : CodecBits) : res unit (option StructuredPrologue) :=
  match decode_prologue bytes bits with
  | None => Ok None
  | Some p => out ← encode_prologue p bits; Ok (if decide (out = bytes) then Some p else None)
  end.

Definition epilogue_roundtrips (bytes : list byte) (bits : CodecBits) : res unit (option StructuredEpilogue) :=
  match decode_epilogue bytes bits with
  | None => Ok None
  | Some e => out ← encode_epilogue e bits; Ok (if decide (out = bytes) then Some e else None)
  end.

(** * Defaults *)

Record ProfileInputs : Type := {
  saves_used : list (list byte);
  frame_required : bool;
  pi_sub_esp : Z;
  pi_cf_protect : bool;
  stack_arg_count : Z;
  abi : list byte;
  pi_bits : Z;
  pi_frame_alt : bool;
  body_has_call : bool;
}.

(** Additions and products of [u32], overflow panicking. *)
Definition u32_checked (v : Z) : res unit Z := if v <? 2 ^ 32 then Ok v else Panic.

Definition compute_aligned_sub_esp (inputs : ProfileInputs) : res unit Z :=
  let max_var_off := pi_sub_esp inputs in
  if pi_bits inputs =? 64 then
    if frame_required inputs then v ← u32_checked (max_var_off + 15); Ok (Z.land v (2 ^ 32 - 1 - 15))
    else if (max_var_off =? 0) && negb (body_has_call inputs) then Ok 0
    else if max_var_off <=? 8 then Ok 8
    else v ← u32_checked (max_var_off - 8 + 15); u32_checked (Z.land v (2 ^ 32 - 1 - 15) + 8)
  else Ok max_var_off.

Definition default_prologue (inputs : ProfileInputs) : res unit StructuredPrologue :=
  sub ← compute_aligned_sub_esp inputs;
  Ok {| saves := if frame_required inputs then [] else saves_used inputs;
        saves_after := if frame_required inputs then saves_used inputs else [];
        frame := frame_required inputs; sub_esp := sub; cf_protect := pi_cf_protect inputs;
        frame_alt_encoding := pi_frame_alt inputs |}.

Definition default_epilogue (inputs : ProfileInputs) : res unit StructuredEpilogue :=
  imm ← (if decide (abi inputs = str "stdcall" \/ abi inputs = str "thiscall" \/ abi inputs = str "fastcall") then
           v ← u32_checked (stack_arg_count inputs * 4); Ok (if v <? 2 ^ 16 then v else 0)
         else Ok 0);
  sub ← compute_aligned_sub_esp inputs;
  let lv := frame_required inputs && (0 <? sub) in
  Ok {| e_saves := reverse (saves_used inputs); leave := lv; pop_frame := frame_required inputs && negb lv;
        add_esp := if frame_required inputs then 0 else sub; ret_imm := imm |}.

(** * Pieces: what the encoder writes, the decoder reads *)

(** The registers a code of that width can name. *)
Definition named (bits : CodecBits) (r : list byte) : Prop :=
  exists i, REG_NAMES !! i = Some r /\ (i < match bits with Bits32 => 8 | Bits64 => 16 end)%nat.

Definition reg_code (base : Z) (i : nat) : list byte :=
  (if (8 <=? i)%nat then [byte_of 0x41] else []) ++ [byte_of (base + Z.of_nat i mod 8)].

Lemma reg_names_index i r : REG_NAMES !! i = Some r -> encode_index_of r = Some (Z.of_nat i mod 8, bool_decide (8 <= i)%nat).
Proof. intros H. do 16 (destruct i as [|i]; [injection H as <-; reflexivity|]). done. Qed.

Lemma reg_encoded_named base bits i r : REG_NAMES !! i = Some r ->
  (i < match bits with Bits32 => 8 | Bits64 => 16 end)%nat -> reg_encoded base r bits = Ok (reg_code base i).
Proof.
  intros Hr Hi. unfold reg_encoded, reg_code. rewrite (reg_names_index i r Hr).
  destruct (Nat.leb_spec 8 i); [rewrite bool_decide_eq_true_2 by done|rewrite bool_decide_eq_false_2 by lia]; [|done].
  destruct bits; [lia|done].
Qed.

(** A byte at which a run of registers stops. *)
Definition no_reg (lo : Z) (bits : CodecBits) (rest : list byte) : Prop :=
  match rest with
  | [] => True
  | b :: _ => ~ (lo <= u8 b <= lo + 7) /\ (bits = Bits64 -> u8 b <> 0x41)
  end.

Lemma reg_run_stop name lo bits rest : no_reg lo bits rest -> reg_run name lo bits rest = Some ([], rest).
Proof.
  destruct rest as [|b t]; [done|]. intros [Hb H41]. cbn.
  replace ((lo <=? u8 b) && (u8 b <=? lo + 7)) with false by lia.
  destruct bits; [done|]. specialize (H41 eq_refl). destruct t; [done|].
  by replace (u8 b =? 0x41) with false by lia.
Qed.

(** The two opcode rows, and the names they stand for. *)
Definition row (name : Z -> bool -> option (list byte)) (lo : Z) : Prop :=
  0x50 <= lo <= 0x58 /\
  forall i, (i < 16)%nat -> name (lo + Z.of_nat i mod 8) (8 <=? i)%nat = REG_NAMES !! i.

Lemma push_row : row push_reg_name 0x50.
Proof. split; [lia|]. intros i Hi. do 16 (destruct i as [|i]; [reflexivity|]). lia. Qed.

Lemma pop_row : row pop_reg_name 0x58.
Proof. split; [lia|]. intros i Hi. do 16 (destruct i as [|i]; [reflexivity|]). lia. Qed.

Lemma reg_run_one name lo bits i r rest : row name lo -> REG_NAMES !! i = Some r ->
  (i < match bits with Bits32 => 8 | Bits64 => 16 end)%nat ->
  reg_run name lo bits (reg_code lo i ++ rest) =
  '(rs, t) ← reg_run name lo bits rest; Some (r :: rs, t).
Proof.
  intros [Hlo Hrow] Hr Hi. assert (i < 16)%nat as Hi16 by (destruct bits; lia).
  assert (u8 (byte_of (lo + Z.of_nat i mod 8)) = lo + Z.of_nat i mod 8) as Hu.
  { rewrite u8_byte_of, Z.mod_small; pose proof (Z.mod_pos_bound (Z.of_nat i) 8); lia. }
  pose proof (Z.mod_pos_bound (Z.of_nat i) 8). specialize (Hrow i Hi16). rewrite Hr in Hrow.
  unfold reg_code. destruct (Nat.leb_spec 8 i); cbn [app reg_run]; rewrite ?Hu.
  - destruct bits; [lia|]. replace (u8 (byte_of 0x41)) with 0x41 by done.
    replace ((lo <=? 0x41) && (0x41 <=? lo + 7)) with false by lia.
    replace ((0x41 =? 0x41) && (lo <=? lo + Z.of_nat i mod 8) && (lo + Z.of_nat i mod 8 <=? lo + 7)) with true by lia.
    rewrite Hrow. done.
  - replace ((lo <=? lo + Z.of_nat i mod 8) && (lo + Z.of_nat i mod 8 <=? lo + 7)) with true by lia. rewrite Hrow. done.
Qed.

Lemma reg_run_all name lo bits rs : row name lo -> Forall (named bits) rs ->
  exists codes, mapM_res (fun r => reg_encoded lo r bits) rs = Ok codes /\
    forall rest, no_reg lo bits rest -> reg_run name lo bits (concat codes ++ rest) = Some (rs, rest).
Proof.
  intros Hrow. induction 1 as [|r rs (i & Hr & Hi) _ (codes & E & IH)].
  - exists []. split; [done|]. intros rest. apply reg_run_stop.
  - exists (reg_code lo i :: codes). cbn. rewrite (reg_encoded_named lo bits i r Hr Hi), E. split; [done|].
    intros rest Hrest. rewrite <- (assoc_L (++)), (reg_run_one name lo bits i r _ Hrow Hr Hi), IH by done. done.
Qed.

Lemma parse_esp_imm_ok modrm imm bits rest : 0 <= modrm < 256 -> 0 <= imm < 2 ^ 32 ->
  parse_esp_imm modrm (encode_esp_imm modrm imm bits ++ rest) bits = Some (imm, rest).
Proof.
  intros Hm Hi. pose proof (from_le_to_le 4 imm) as E. rewrite Z.mod_small in E by (cbn; lia).
  unfold encode_esp_imm, parse_esp_imm.
  assert (u8 (byte_of modrm) =? modrm = true) as Hmod by (rewrite u8_byte_of, Z.mod_small by done; apply Z.eqb_refl).
  destruct (Z.ltb_spec imm 0x80), bits; cbn [app to_le mbind option_bind andb] in *; rewrite Hmod || (change (u8 (byte_of 72) =? 72) with true; cbn [mbind option_bind]; rewrite Hmod).
  1,2: change (u8 (byte_of 131) =? 131) with true; cbn [andb]; by rewrite u8_byte_of, Z.mod_small by lia.
  all: change (u8 (byte_of 129) =? 131) with false; change (u8 (byte_of 129) =? 129) with true; cbn [andb]; by rewrite E.
Qed.

(** * What a piece starts with *)

Definition starts (P : Z -> Prop) (l : list byte) : Prop := match l with [] => True | b :: _ => P (u8 b) end.

Lemma starts_app P l1 l2 : starts P l1 -> starts P l2 -> starts P (l1 ++ l2).
Proof. by destruct l1. Qed.

Lemma starts_mono (P Q : Z -> Prop) l : (forall b, P b -> Q b) -> starts P l -> starts Q l.
Proof. destruct l; [done|]. intros H. apply H. Qed.

Lemma codes_start lo bits rs codes : row push_reg_name lo \/ row pop_reg_name lo -> Forall (named bits) rs ->
  mapM_res (fun r => reg_encoded lo r bits) rs = Ok codes ->
  starts (fun b => (bits = Bits64 /\ b = 0x41) \/ lo <= b <= lo + 7) (concat codes).
Proof.
  intros Hrow Hrs E. destruct Hrs as [|r rs (i & Hr & Hi) _]; cbn [mapM_res] in E; [by injection E as <-|].
  rewrite (reg_encoded_named lo bits i r Hr Hi) in E. cbn [mbind res_bind] in E.
  destruct (mapM_res _ rs) as [cs| |]; cbn [mbind res_bind] in E; try done. injection E as <-. cbn [concat]. unfold reg_code.
  assert (0x50 <= lo <= 0x58) as Hlo by (by destruct Hrow as [[? _]|[? _]]).
  pose proof (Z.mod_pos_bound (Z.of_nat i) 8).
  destruct (Nat.leb_spec 8 i); cbn [app starts].
  - left. destruct bits; [lia|done].
  - right. rewrite u8_byte_of, Z.mod_small; lia.
Qed.

Lemma esp_imm_start modrm imm bits :
  starts (fun b => (bits = Bits64 /\ b = 0x48) \/ (bits = Bits32 /\ (b = 0x83 \/ b = 0x81))) (encode_esp_imm modrm imm bits).
Proof.
  unfold encode_esp_imm. destruct bits; [|by left].
  destruct (imm <? 128); cbn; right; (split; [done|]); [by left|by right].
Qed.

Lemma parse_esp_imm_none modrm bits rest : starts (fun b => b <> 0x83 /\ b <> 0x81 /\ b <> 0x48) rest ->
  parse_esp_imm modrm rest bits = None.
Proof.
  destruct rest as [|b t]; [by destruct bits|]. cbn. intros (H83 & H81 & H48). destruct bits; cbn.
  - destruct t as [|m t]; [done|]. replace (u8 b =? 131) with false by lia. by replace (u8 b =? 129) with false by lia.
  - by replace (u8 b =? 72) with false by lia.
Qed.

Lemma no_reg_start lo bits l : starts (fun b => ~ (lo <= b <= lo + 7) /\ (bits = Bits64 -> b <> 0x41)) l -> no_reg lo bits l.
Proof. by destruct l. Qed.

Lemma mov_bp_sp_form_ok bits alt : mov_bp_sp_form (mov_bp_sp bits alt) bits = Some alt.
Proof. by destruct bits, alt. Qed.

(** Not the [mov] that sets up a frame. *)
Lemma mov_form_sub imm bits rest :
  mov_bp_sp_form (take (mov_bp_sp_len bits) (encode_sub_esp imm bits ++ rest)) bits = None.
Proof.
  unfold encode_sub_esp, encode_esp_imm, mov_bp_sp_form.
  destruct bits, (imm <? 128); cbn; by repeat (destruct (decide _) as [[=]|]).
Qed.

(** * Prologues *)

(** A form the decoder gives: no pushes are split without a reason. *)
Record canonical_prologue (bits : CodecBits) (p : StructuredPrologue) : Prop := {
  cp_saves : Forall (named bits) (saves p);
  cp_after : Forall (named bits) (saves_after p);
  cp_sub : 0 <= sub_esp p < 2 ^ 32;
  cp_alt : frame_alt_encoding p = true -> frame p = true;
  cp_split : saves_after p <> [] -> frame p = true \/ 0 < sub_esp p;
}.

Lemma named_ebp bits : named bits (str "ebp").
Proof. exists 5%nat. split; [done|]. destruct bits; lia. Qed.

(** The part behind the landing pad and the frame. *)
Lemma decode_tail bits p after : canonical_prologue bits p ->
  mapM_res (fun r => reg_encoded 0x50 r bits) (saves_after p) = Ok after ->
  match parse_sub_esp ((if 0 <? sub_esp p then encode_sub_esp (sub_esp p) bits else []) ++ concat after) bits with
  | Some (imm, i) => (imm, i)
  | None => (0, (if 0 <? sub_esp p then encode_sub_esp (sub_esp p) bits else []) ++ concat after)
  end = (sub_esp p, concat after) /\
  reg_run push_reg_name 0x50 bits (concat after) = Some (saves_after p, []).
Proof.
  intros Hc Ea. split.
  - destruct (Z.ltb_spec 0 (sub_esp p)).
    + unfold parse_sub_esp, encode_sub_esp. rewrite parse_esp_imm_ok; [done|lia|apply (cp_sub _ _ Hc)].
    + unfold parse_sub_esp. cbn [app]. rewrite parse_esp_imm_none.
      * pose proof (cp_sub _ _ Hc). by replace (sub_esp p) with 0 by lia.
      * eapply starts_mono; [|apply (codes_start 0x50 bits _ after (or_introl push_row) (cp_after _ _ Hc) Ea)]. intros b Hb. cbn in Hb. lia.
  - destruct (reg_run_all push_reg_name 0x50 bits _ push_row (cp_after _ _ Hc)) as (codes & E & Hrun).
    rewrite Ea in E. injection E as <-. rewrite <- (app_nil_r (concat after)). by apply Hrun.
Qed.

(** The same codes with the frame pointer pushed last. *)
Lemma reg_codes_snoc base bits rs codes : reg_encoded base (str "ebp") bits = Ok [byte_of (base + 5)] ->
  mapM_res (fun r => reg_encoded base r bits) rs = Ok codes ->
  mapM_res (fun r => reg_encoded base r bits) (rs ++ [str "ebp"]) = Ok (codes ++ [[byte_of (base + 5)]]).
Proof.
  intros E5. revert codes. induction rs as [|r rs IH]; intros codes E; cbn [app mapM_res] in *.
  - injection E as <-. by rewrite E5.
  - destruct (reg_encoded base r bits) as [c| |]; cbn [mbind res_bind] in *; try done.
    destruct (mapM_res _ rs) as [cs| |]; cbn [mbind res_bind] in *; try done. injection E as <-.
    by rewrite (IH cs eq_refl).
Qed.

Lemma reg_encoded_ebp base bits : reg_encoded base (str "ebp") bits = Ok [byte_of (base + 5)].
Proof. rewrite (reg_encoded_named base bits 5 (str "ebp")) by (done || destruct bits; lia). done. Qed.

Definition sub_code (bits : CodecBits) (p : StructuredPrologue) : list byte :=
  if 0 <? sub_esp p then encode_sub_esp (sub_esp p) bits else [].

Definition frame_code (bits : CodecBits) (p : StructuredPrologue) : list byte :=
  if frame p then byte_of 0x55 :: mov_bp_sp bits (frame_alt_encoding p) else [].

Lemma sub_code_start bits p : starts (fun b => ~ (0x50 <= b <= 0x57) /\ b <> 0x41 /\ b <> 0xf3) (sub_code bits p).
Proof.
  unfold sub_code. destruct (0 <? sub_esp p); [|done].
  eapply starts_mono; [|apply esp_imm_start]. intros b Hb. cbn in Hb. lia.
Qed.

(** The landing pad is recognised exactly when it is there. *)
Lemma landing_pad bits (cf : bool) rest : starts (fun b => b <> 0xf3) rest ->
  (if decide (take 4 ((if cf then endbr bits else []) ++ rest) = endbr bits)
   then (true, drop 4 ((if cf then endbr bits else []) ++ rest))
   else (false, (if cf then endbr bits else []) ++ rest)) = (cf, rest).
Proof.
  intros Hno. destruct cf.
  - rewrite (take_app_length' _ rest 4), (drop_app_length' _ rest 4) by (by destruct bits). by rewrite decide_True.
  - cbn [app]. rewrite decide_False; [done|]. destruct rest as [|b t]; [by destruct bits|]. cbn in Hno.
    intros [= E _]. apply Hno. rewrite E. by destruct bits.
Qed.

(** What stands behind the pushes of a form without a frame is no push. *)
Lemma no_frame_stop bits p after : canonical_prologue bits p -> frame p = false ->
  mapM_res (fun r => reg_encoded 0x50 r bits) (saves_after p) = Ok after ->
  no_reg 0x50 bits (sub_code bits p ++ concat after) /\
  mov_bp_sp_form (take (mov_bp_sp_len bits) (sub_code bits p ++ concat after)) bits = None.
Proof.
  intros Hc Ef Ea. pose proof (sub_code_start bits p) as SS. destruct (Z.ltb_spec 0 (sub_esp p)) as [Hp|Hp].
  - assert (sub_code bits p = encode_sub_esp (sub_esp p) bits) as E by (unfold sub_code; by replace (0 <? sub_esp p) with true by lia).
    rewrite E in *. split; [|apply mov_form_sub]. apply no_reg_start. clear -SS.
    destruct (encode_sub_esp (sub_esp p) bits) eqn:E; [by destruct bits; unfold encode_sub_esp, encode_esp_imm in E; destruct (_ <? _)|].
    cbn in *. destruct SS as (? & ? & ?). split; [lia|done].
  - destruct (decide (saves_after p = [])) as [E0|E0]; [|destruct (cp_split _ _ Hc E0); [congruence|lia]].
    rewrite E0 in Ea. injection Ea as <-. unfold sub_code. replace (0 <? sub_esp p) with false by lia. by destruct bits.
Qed.

(** The pushes as the decoder first sees them: the frame pointer among them. *)
Lemma decode_pushes bits p before after : canonical_prologue bits p ->
  mapM_res (fun r => reg_encoded 0x50 r bits) (saves p) = Ok before ->
  mapM_res (fun r => reg_encoded 0x50 r bits) (saves_after p) = Ok after ->
  reg_run push_reg_name 0x50 bits (concat before ++ frame_code bits p ++ sub_code bits p ++ concat after) =
    Some (saves p ++ (if frame p then [str "ebp"] else []),
          (if frame p then mov_bp_sp bits (frame_alt_encoding p) else []) ++ sub_code bits p ++ concat after).
Proof.
  intros Hc Eb Ea. unfold frame_code. destruct (frame p) eqn:Ef.
  - destruct (reg_run_all push_reg_name 0x50 bits (saves p ++ [str "ebp"]) push_row) as (codes & E & Hr).
    { apply Forall_app. split; [apply Hc|]. apply Forall_singleton, named_ebp. }
    rewrite (reg_codes_snoc _ _ _ before (reg_encoded_ebp _ _) Eb) in E. injection E as <-.
    rewrite concat_app in Hr. cbn [concat] in Hr. rewrite app_nil_r in Hr.
    rewrite <- Hr; [by rewrite <- !(assoc_L (++))|]. apply no_reg_start.
    by destruct bits, (frame_alt_encoding p); (split; [vm_compute; intuition congruence|]).
  - destruct (reg_run_all push_reg_name 0x50 bits (saves p) push_row (cp_saves _ _ Hc)) as (codes & E & Hr).
    rewrite Eb in E. injection E as <-. rewrite app_nil_r. cbn [app]. apply Hr. by apply no_frame_stop.
Qed.

Lemma decode_encode_prologue bits p : canonical_prologue bits p ->
  exists bytes, encode_prologue p bits = Ok bytes /\ decode_prologue bytes bits = Some p.
Proof.
  intros Hc. destruct (reg_run_all push_reg_name 0x50 bits _ push_row (cp_saves _ _ Hc)) as (before & Eb & _).
  destruct (reg_run_all push_reg_name 0x50 bits _ push_row (cp_after _ _ Hc)) as (after & Ea & _).
  destruct (decode_tail bits p after Hc Ea) as [Hsub Hafter]. fold (sub_code bits p) in Hsub.
  unfold encode_prologue, push_reg_encoded. rewrite Eb, Ea. cbn [mbind res_bind]. eexists. split; [done|].
  fold (sub_code bits p) (frame_code bits p). unfold decode_prologue. rewrite landing_pad; last first.
  { apply starts_app; [|apply starts_app; [|apply starts_app]].
    - eapply starts_mono; [|exact (codes_start 0x50 bits _ before (or_introl push_row) (cp_saves _ _ Hc) Eb)]. intros b Hb. cbn in Hb. lia.
    - unfold frame_code. by destruct (frame p).
    - eapply starts_mono; [|apply sub_code_start]. intros b Hb. cbn in Hb. lia.
    - eapply starts_mono; [|exact (codes_start 0x50 bits _ after (or_introl push_row) (cp_after _ _ Hc) Ea)]. intros b Hb. cbn in Hb. lia. }
  rewrite (decode_pushes bits p before after Hc Eb Ea). cbn [mbind option_bind]. destruct (frame p) eqn:Ef.
  - rewrite last_snoc. rewrite decide_True by (by left). rewrite take_app_length' by (by destruct bits, (frame_alt_encoding p)).
    rewrite mov_bp_sp_form_ok, drop_app_length' by (by destruct bits, (frame_alt_encoding p)).
    rewrite List.removelast_last, Hsub, Hafter. cbn. f_equal. destruct p; cbn in *; by subst.
  - assert (frame_alt_encoding p = false) as Ealt.
    { destruct (frame_alt_encoding p) eqn:E; [|done]. by apply (cp_alt _ _ Hc) in E; congruence. }
    rewrite app_nil_r. cbn [app]. destruct (no_frame_stop bits p after Hc Ef Ea) as [_ Hmov]. rewrite Hmov.
    destruct (last (saves p)) as [r|]; [destruct (decide _)|]; rewrite Hsub, Hafter; cbn; f_equal; destruct p; cbn in *; by subst.
Qed.

(** * Epilogues *)

(** A form the decoder gives: one way to drop the frame, and a pop of the
    frame pointer that is not among the saves. *)
Record canonical_epilogue (bits : CodecBits) (e : StructuredEpilogue) : Prop := {
  ce_saves : Forall (named bits) (e_saves e);
  ce_add : 0 <= add_esp e < 2 ^ 32;
  ce_ret : 0 <= ret_imm e < 2 ^ 16;
  ce_one : leave e && pop_frame e = false;
  ce_pop : pop_frame e = true -> add_esp e = 0;
  ce_last : leave e = false -> pop_frame e = false -> last (e_saves e) <> Some (str "ebp");
}.

Definition ret_code (e : StructuredEpilogue) : list byte :=
  if ret_imm e =? 0 then [byte_of 0xc3]
  else [byte_of 0xc2; byte_of (Z.land (ret_imm e) 0xff); byte_of (Z.land (Z.shiftr (ret_imm e) 8) 0xff)].

Definition add_code (bits : CodecBits) (e : StructuredEpilogue) : list byte :=
  if 0 <? add_esp e then encode_add_esp (add_esp e) bits else [].

Lemma named_not_rbp bits rs : Forall (named bits) rs -> last rs <> Some (str "rbp").
Proof.
  intros H E. rewrite Forall_forall in H. destruct (H (str "rbp")) as (i & Hi & Hb).
  - apply last_Some in E as [rs' ->]. set_solver.
  - do 16 (destruct i as [|i]; [done|]). done.
Qed.

Lemma split_u16 v : 0 <= v < 2 ^ 16 ->
  Z.lor (u8 (byte_of (Z.land v 0xff))) (Z.shiftl (u8 (byte_of (Z.land (Z.shiftr v 8) 0xff))) 8) = v.
Proof.
  intros Hv. change 255 with (Z.ones 8). rewrite !u8_byte_of, !Z.land_ones, !Zmod_mod, Z.shiftr_div_pow2 by lia.
  change (2 ^ 8) with 256. change (2 ^ 16) with 65536 in Hv.
  rewrite Z.lor_comm, (lor_shiftl_add _ _ 8) by (change (2 ^ 8) with 256; Z.div_mod_to_equations; lia).
  change (2 ^ 8) with 256. rewrite (Z.mod_small (v / 256)); Z.div_mod_to_equations; lia.
Qed.

(** Behind the pops: the adjustment, then how the frame is dropped. *)
Lemma decode_add bits e rest : 0 <= add_esp e < 2 ^ 32 ->
  starts (fun b => b <> 0x83 /\ b <> 0x81 /\ b <> 0x48) rest ->
  match parse_add_esp (add_code bits e ++ rest) bits with
  | Some (imm, i) => (imm, i)
  | None => (0, add_code bits e ++ rest)
  end = (add_esp e, rest).
Proof.
  intros Ha Hr. unfold add_code, parse_add_esp, encode_add_esp. destruct (Z.ltb_spec 0 (add_esp e)).
  - rewrite parse_esp_imm_ok; [done|lia|done].
  - cbn [app]. rewrite parse_esp_imm_none by done. by replace (add_esp e) with 0 by lia.
Qed.

Lemma no_reg_app lo bits l1 l2 : no_reg lo bits l1 -> no_reg lo bits l2 -> no_reg lo bits (l1 ++ l2).
Proof. by destruct l1. Qed.

Lemma ret_code_no_reg bits e : no_reg 0x58 bits (ret_code e).
Proof. unfold ret_code. destruct (ret_imm e =? 0); (split; [vm_compute; intuition congruence|done]). Qed.

Lemma add_code_no_reg bits e : no_reg 0x58 bits (add_code bits e).
Proof.
  unfold add_code, encode_add_esp, encode_esp_imm. destruct (0 <? add_esp e); [|done].
  by destruct bits, (add_esp e <? 128); (split; [vm_compute; intuition congruence|]).
Qed.

Lemma ret_code_start e : starts (fun b => b <> 0x83 /\ b <> 0x81 /\ b <> 0x48) (ret_code e).
Proof. unfold ret_code. by destruct (ret_imm e =? 0). Qed.

(** The pops as the decoder first sees them: the frame pointer among them. *)
Lemma decode_pops bits e pops : canonical_epilogue bits e ->
  mapM_res (fun r => reg_encoded 0x58 r bits) (e_saves e) = Ok pops ->
  reg_run pop_reg_name 0x58 bits (concat pops ++ add_code bits e ++
      (if leave e then [byte_of 0xc9] else if pop_frame e then [byte_of 0x5d] else []) ++ ret_code e) =
    Some (e_saves e ++ (if pop_frame e then [str "ebp"] else []),
          add_code bits e ++ (if leave e then [byte_of 0xc9] else []) ++ ret_code e).
Proof.
  intros Hc Eb. destruct (pop_frame e) eqn:Ef.
  - assert (leave e = false) as -> by (pose proof (ce_one _ _ Hc) as H1; rewrite Ef in H1; by destruct (leave e)).
    assert (add_code bits e = []) as -> by (unfold add_code; by rewrite (ce_pop _ _ Hc Ef)).
    destruct (reg_run_all pop_reg_name 0x58 bits (e_saves e ++ [str "ebp"]) pop_row) as (codes & E & Hr).
    { apply Forall_app. split; [apply Hc|]. apply Forall_singleton, named_ebp. }
    rewrite (reg_codes_snoc _ _ _ pops (reg_encoded_ebp _ _) Eb) in E. injection E as <-.
    rewrite concat_app in Hr. cbn [concat app] in Hr. cbn [app].
    rewrite <- Hr by apply ret_code_no_reg. by rewrite <- (assoc_L (++)).
  - destruct (reg_run_all pop_reg_name 0x58 bits (e_saves e) pop_row (ce_saves _ _ Hc)) as (codes & E & Hr).
    rewrite Eb in E. injection E as <-. rewrite app_nil_r. apply Hr.
    apply no_reg_app; [apply add_code_no_reg|]. destruct (leave e); [|apply ret_code_no_reg].
    split; [vm_compute; intuition congruence|done].
Qed.

Lemma decode_ret e : 0 <= ret_imm e < 2 ^ 16 -> exists b rest, ret_code e = b :: rest /\ u8 b <> 0xc9 /\
  (if u8 b =? 0xc3 then Some (0, rest)
   else if u8 b =? 0xc2 then
     match rest with lo :: hi :: rest => Some (Z.lor (u8 lo) (Z.shiftl (u8 hi) 8), rest) | _ => None end
   else None) = Some (ret_imm e, []).
Proof.
  intros Hr. unfold ret_code. destruct (Z.eqb_spec (ret_imm e) 0) as [->|]; do 2 eexists; (split; [done|]); [done|].
  split; [done|]. change (u8 (byte_of 194) =? 195) with false. change (u8 (byte_of 194) =? 194) with true. by rewrite split_u16.
Qed.

Lemma decode_encode_epilogue bits e : canonical_epilogue bits e ->
  exists bytes, encode_epilogue e bits = Ok bytes /\ decode_epilogue bytes bits = Some e.
Proof.
  intros Hc. destruct (reg_run_all pop_reg_name 0x58 bits _ pop_row (ce_saves _ _ Hc)) as (pops & Eb & _).
  unfold encode_epilogue, pop_reg_encoded. rewrite Eb. cbn [mbind res_bind]. eexists. split; [done|].
  fold (add_code bits e) (ret_code e). unfold decode_epilogue. rewrite (decode_pops bits e pops Hc Eb). cbn [mbind option_bind].
  destruct (decode_ret e (ce_ret _ _ Hc)) as (b & rest & Er & Hb & Hret). pose proof (ret_code_start e) as Hs.
  rewrite decode_add; [|apply Hc|destruct (leave e); done]. destruct (leave e) eqn:El; cbn [app].
  - change (u8 (byte_of 201) =? 201) with true. cbv iota. rewrite Er. cbv iota. rewrite Hret. cbn.
    assert (pop_frame e = false) as Ef by (pose proof (ce_one _ _ Hc) as H1; by rewrite El in H1).
    rewrite Ef, app_nil_r. destruct e; cbn in *; by subst.
  - rewrite Er. replace (u8 b =? 201) with false by lia. destruct (pop_frame e) eqn:Ef.
    + rewrite last_snoc. rewrite decide_True by (by left). rewrite List.removelast_last, Hret. cbn. destruct e; cbn in *; by subst.
    + rewrite app_nil_r. pose proof (ce_last _ _ Hc El Ef) as Hl. pose proof (named_not_rbp bits _ (ce_saves _ _ Hc)) as Hl'.
      destruct (last (e_saves e)) as [r|]; [rewrite decide_False by (intros [->| ->]; congruence)|]; rewrite Hret; cbn;
        destruct e; cbn in *; by subst.
Qed.

(** C39: A canonical prologue or epilogue (registers the width can name,
    immediates in range, one way to drop the frame) is encoded without a
    panic, and the bytes decode to the same form, which the round-trip check
    therefore reports. *)
Theorem prologue_codec_roundtrip bits p e : canonical_prologue bits p -> canonical_epilogue bits e ->
  (exists b, encode_prologue p bits = Ok b /\ decode_prologue b bits = Some p /\ prologue_roundtrips b bits = Ok (Some p)) /\
  (exists b, encode_epilogue e bits = Ok b /\ decode_epilogue b bits = Some e /\ epilogue_roundtrips b bits = Ok (Some e)).
Proof.
  intros Hp He. destruct (decode_encode_prologue bits p Hp) as (b & E1 & E2).
  destruct (decode_encode_epilogue bits e He) as (b' & E3 & E4).
  split; [exists b|exists b']; (split; [done|]); (split; [done|]);
    unfold prologue_roundtrips, epilogue_roundtrips; rewrite ?E2, ?E4, ?E1, ?E3; cbn; by rewrite decide_True.
Qed.

Lemma prologue_codec_roundtrip_witness :
  let p := {| saves := [str "ebx"]; saves_after := [str "esi"; str "r12"]; frame := true; sub_esp := 300;
              cf_protect := true; frame_alt_encoding := true |} in
  let e := {| e_saves := [str "r12"; str "esi"]; leave := true; pop_frame := false; add_esp := 8; ret_imm := 12 |} in
  exists b, encode_prologue p Bits64 = Ok b /\ decode_prologue b Bits64 = Some p /\ length b = 19%nat.
Proof.
  assert (forall i, (i < 16)%nat -> forall r, REG_NAMES !! i = Some r -> named Bits64 r) as Hn by (intros i Hi r Hr; by exists i).
  intros p e. destruct (prologue_codec_roundtrip Bits64 p e) as [(b & E & D & _) _].
  - split; [| |done|done|right; done].
    + repeat constructor. by apply (Hn 3%nat); [lia|].
    + repeat constructor; [by apply (Hn 6%nat); [lia|]|by apply (Hn 12%nat); [lia|]].
  - split; [|done|done|done|done|done].
    repeat constructor; [by apply (Hn 12%nat); [lia|]|by apply (Hn 6%nat); [lia|]].
  - exists b. split; [done|]. split; [done|]. vm_compute in E. by injection E as <-.
Defined.
