(* ===== verification/X86CondText.v ===== *)
(** The bytes of the compare a condition text stands for
    (src/src/arch/x86/encode_text.rs), and the names of the condition codes
    (src/src/arch/x86/mod.rs).

    The source returns [Option]; the functions below return [res unit (option _)],
    [Panic] being a slice inside a character ([split_relational] walks the
    bytes) or the overflow of [-1 * i64::MIN]. *)

From S2P Require Import Prelude Text.

(** * Numbers *)

(** [i64::from_str_radix(s, r)]. *)
Definition i64_from_str_radix (r : Z) (s : list byte) : option Z :=
  match s with
  | [] => None
  | c :: t =>
      if u8 c =? 45 then
        match t with [] => None | _ => Z.opp <$> digits_val r (2 ^ 63 + 1) 0 t end
      else
        let digits := if u8 c =? 43 then t else s in
        match digits with [] => None | _ => digits_val r (2 ^ 63) 0 digits end
  end.

(** First of two alternatives that applies. *)
Definition or_else {A} (o o' : option A) : option A := match o with Some a => Some a | None => o' end.

(** [sign * unsigned]: the product of a checked build. *)
Definition i64_checked (v : Z) : res unit Z := if (- 2 ^ 63 <=? v) && (v <? 2 ^ 63) then Ok v else Panic.

Definition parse_int_literal (s : list byte) : res unit (option Z) :=
  let s := trim s in
  let '(sign, body) :=
    match strip_prefix (str "-") s with
    | Some rest => (-1, trim rest)
    | None => match strip_prefix (str "+") s with Some rest => (1, trim rest) | None => (1, s) end
    end in
  let unsigned :=
    match or_else (strip_prefix (str "0x") body) (strip_prefix (str "0X") body) with
    | Some hex => i64_from_str_radix 16 hex
    | None =>
        match or_else (strip_suffix (str "h") body) (strip_suffix (str "H") body) with
        | Some hex => i64_from_str_radix 16 hex
        | None => i64_from_str_radix 10 body
        end
    end in
  match unsigned with
  | Some v => v ← i64_checked (sign * v); Ok (Some v)
  | None => Ok None
  end.

(** * Registers *)

Definition reg_in (names : list (list byte)) (s : list byte) : option Z :=
  (fun '(i, _) => Z.of_nat i) <$> list_find (fun n => s = n) names.

Definition parse_reg32 : list byte -> option Z :=
  reg_in [str "eax"; str "ecx"; str "edx"; str "ebx"; str "esp"; str "ebp"; str "esi"; str "edi"].
Definition parse_reg8 : list byte -> option Z :=
  reg_in [str "al"; str "cl"; str "dl"; str "bl"; str "ah"; str "ch"; str "dh"; str "bh"].

Definition mod_rm_reg_reg (reg rm : Z) : Z := Z.lor (Z.lor 0xc0 (Z.shiftl reg 3)) rm.
Definition mod_rm_op_reg (op rm : Z) : Z := Z.lor (Z.lor 0xc0 (Z.shiftl op 3)) rm.

(** * Memory operands *)

Inductive MemOperand : Type :=
| BasedDisp (base disp : Z)
| Absolute (addr : Z).

Definition imm_as_i32 (v : Z) : option Z :=
  if (- 2 ^ 31 <=? v) && (v <? 2 ^ 31) then Some v
  else if (0 <=? v) && (v <? 2 ^ 32) then Some (sint 32 v)
  else None.

Definition is_i8 (v : Z) : bool := (-128 <=? v) && (v <=? 127).

(** [(v as u32).to_le_bytes()]. *)
Definition le32 (v : Z) : list byte := to_le 4 (wrap 32 v).

Definition mem_mod_and_disp (reg_base disp : Z) : Z * list byte :=
  if (disp =? 0) && negb (reg_base =? 5) then (0, [])
  else if is_i8 disp then (1, [byte_of (wrap 8 disp)])
  else (2, le32 disp).

Definition push_mem_modrm (reg_field : Z) (mem : MemOperand) : option (list byte) :=
  match mem with
  | BasedDisp base disp =>
      if base =? 4 then None
      else let '(mod_field, disp_bytes) := mem_mod_and_disp base disp in
           Some (byte_of (Z.lor (Z.lor (Z.shiftl mod_field 6) (Z.shiftl reg_field 3)) base) :: disp_bytes)
  | Absolute addr => Some (byte_of (Z.lor (Z.shiftl reg_field 3) 5) :: to_le 4 addr)
  end.

Definition encode_modrm_mem (opcode reg : Z) (mem : MemOperand) : option (list byte) :=
  (cons (byte_of opcode)) <$> push_mem_modrm reg mem.

Definition encode_cmp_reg_imm (reg imm : Z) (reg_is_eax : bool) : list byte :=
  match imm_as_i32 imm with
  | Some imm32 =>
      if is_i8 imm32 then [byte_of 0x83; byte_of (mod_rm_op_reg 7 reg); byte_of (wrap 8 imm32)]
      else if reg_is_eax then byte_of 0x3d :: le32 imm32
      else byte_of 0x81 :: byte_of (mod_rm_op_reg 7 reg) :: le32 imm32
  | None => byte_of 0x81 :: byte_of (mod_rm_op_reg 7 reg) :: le32 imm
  end.

Definition encode_cmp_mem_imm (mem : MemOperand) (imm : Z) : list byte :=
  let '(opcode, imm_bytes) :=
    match imm_as_i32 imm with
    | Some v => if is_i8 v then (0x83, [byte_of (wrap 8 v)]) else (0x81, le32 v)
    | None => (0x81, le32 imm)
    end in
  match push_mem_modrm 7 mem with
  | Some m => byte_of opcode :: m ++ imm_bytes
  | None => []
  end.

(** The letters a text starts with, and the rest trimmed. *)
Fixpoint span_alpha (s : list byte) : list byte * list byte :=
  match s with
  | b :: t =>
      if ((65 <=? u8 b) && (u8 b <=? 90)) || ((97 <=? u8 b) && (u8 b <=? 122)) then
        let '(w, r) := span_alpha t in (b :: w, r)
      else ([], s)
  | [] => ([], [])
  end.

Definition split_after_reg (s : list byte) : option (list byte * list byte) :=
  match span_alpha (trim s) with
  | ([], _) => None
  | (reg, rest) => Some (reg, trim rest)
  end.

Definition strip_or (p s : list byte) : list byte := match strip_prefix p s with Some t => t | None => s end.

(** [[inner]], trimmed. *)
Definition bracketed (s : list byte) : option (list byte) :=
  s ← strip_prefix (str "[") s; s ← strip_suffix (str "]") s; Some (trim s).

(** A base register and what follows it. *)
Definition based (inner : list byte) : option (Z * list byte) :=
  '(base, disp_part) ← split_after_reg inner; reg ← parse_reg32 base; Some (reg, disp_part).

Definition absolute (addr : option Z) : option MemOperand :=
  addr ← addr; addr32 ← imm_as_i32 addr; Some (Absolute (wrap 32 addr32)).

Definition based_at (base : Z) (disp : option Z) : option MemOperand := disp ← disp; Some (BasedDisp base disp).

Definition parse_mem_dword (s : list byte) : res unit (option MemOperand) :=
  let s := trim s in
  match strip_prefix (str "arg_") s with
  | Some rest => Ok (based_at 5 (parse_unsigned 16 32 rest))
  | None =>
  match strip_prefix (str "var_") s with
  | Some rest => Ok (based_at 5 (off ← parse_unsigned 16 32 rest; Some (- off)))
  | None =>
      let s := trim (strip_or (str "dword ptr ") s) in
      let s := trim (strip_or (str "qword ptr ") s) in
      match bracketed s with
      | None => Ok None
      | Some inner =>
          match based inner with
          | Some (reg, []) => Ok (based_at reg (Some 0))
          | Some (reg, disp_part) => disp ← parse_int_literal disp_part; Ok (based_at reg disp)
          | None => addr ← parse_int_literal inner; Ok (absolute addr)
          end
      end
  end
  end.

(** * Compares *)

Definition split_two (s : list byte) : option (list byte * list byte) :=
  comma ← find (str ",") s;
  Some (trim (take comma s), trim (drop (comma + 1) s)).

Definition both {A B} (o : option A) (o' : option B) : option (A * B) := a ← o; b ← o'; Some (a, b).

Definition encode_test (operands : list byte) : option (list byte) :=
  '(a, b) ← split_two operands;
  match both (parse_reg32 a) (parse_reg32 b) with
  | Some (r1, r2) => Some [byte_of 0x85; byte_of (mod_rm_reg_reg r2 r1)]
  | None =>
      '(r1, r2) ← both (parse_reg8 a) (parse_reg8 b);
      Some [byte_of 0x84; byte_of (mod_rm_reg_reg r2 r1)]
  end.

Definition encode_cmp (operands : list byte) : res unit (option (list byte)) :=
  match split_two operands with
  | None => Ok None
  | Some (a, b) =>
      match both (parse_reg8 a) (parse_reg8 b) with
      | Some (r1, r2) => Ok (Some [byte_of 0x3a; byte_of (mod_rm_reg_reg r1 r2)])
      | None =>
      match both (parse_reg32 a) (parse_reg32 b) with
      | Some (r1, r2) => Ok (Some [byte_of 0x3b; byte_of (mod_rm_reg_reg r1 r2)])
      | None =>
          imm ← parse_int_literal b;
          match both (parse_reg32 a) imm with
          | Some (reg, imm) => Ok (Some (encode_cmp_reg_imm reg imm (str_eqb a (str "eax"))))
          | None =>
              mem ← parse_mem_dword b;
              match both (parse_reg32 a) mem with
              | Some (reg, mem) => Ok (encode_modrm_mem 0x3b reg mem)
              | None =>
                  mem ← parse_mem_dword a;
                  match both mem (parse_reg32 b) with
                  | Some (mem, reg) => Ok (encode_modrm_mem 0x39 reg mem)
                  | None => Ok ('(mem, imm) ← both mem imm; Some (encode_cmp_mem_imm mem imm))
                  end
              end
          end
      end
      end
  end.

Definition encode_cmp_or_test (text : list byte) : res unit (option (list byte)) :=
  let text := trim text in
  match strip_prefix (str "test ") text with
  | Some rest => Ok (encode_test (trim rest))
  | None =>
      match strip_prefix (str "cmp ") text with
      | Some rest => encode_cmp (trim rest)
      | None => Ok None
      end
  end.

(** * Relations *)

Definition OPS : list (list byte) :=
  [str "<=u"; str ">=u"; str "<u"; str ">u"; str "=="; str "!="; str "<="; str ">="; str "<"; str ">"].

(** The first operator the text at [rest] starts with that has operands. *)
Fixpoint op_at (ops : list (list byte)) (pre rest : list byte) : option (list byte * list byte * list byte) :=
  match ops with
  | [] => None
  | op :: ops =>
      match strip_prefix op rest with
      | Some r => match trim pre, trim r with
                  | (_ :: _) as lhs, (_ :: _) as rhs => Some (lhs, op, rhs)
                  | _, _ => op_at ops pre rest
                  end
      | None => op_at ops pre rest
      end
  end.

(** [pre] is the text before byte [i]. *)
Fixpoint split_relational_from (depth : Z) (pre rest : list byte) : res unit (option (list byte * list byte * list byte)) :=
  match rest with
  | [] => Ok None
  | b :: t =>
      if (u8 b =? 40) || (u8 b =? 91) then split_relational_from (depth + 1) (pre ++ [b]) t
      else if (u8 b =? 41) || (u8 b =? 93) then split_relational_from (depth - 1) (pre ++ [b]) t
      else if depth =? 0 then
        if is_cont (u8 b) then Panic
        else match op_at OPS pre rest with
             | Some r => Ok (Some r)
             | None => split_relational_from depth (pre ++ [b]) t
             end
      else split_relational_from depth (pre ++ [b]) t
  end.

Definition split_relational (text : list byte) : res unit (option (list byte * list byte * list byte)) :=
  split_relational_from 0 [] text.

Definition encode_relational (text : list byte) : res unit (option (list byte)) :=
  r ← split_relational text;
  match r with
  | None => Ok None
  | Some (lhs, op, rhs) =>
      let is_signed_op := match strip_suffix (str "u") op with Some _ => false | None => true end in
      match (if is_signed_op && str_eqb rhs (str "0") then
               match parse_reg32 lhs with
               | Some r => Some [byte_of 0x85; byte_of (mod_rm_reg_reg r r)]
               | None => (fun r => [byte_of 0x84; byte_of (mod_rm_reg_reg r r)]) <$> parse_reg8 lhs
               end
             else None) with
      | Some bytes => Ok (Some bytes)
      | None => encode_cmp (lhs ++ str "," ++ rhs)
      end
  end.

Definition encode_head_from_cond_text (cond_text : list byte) : res unit (option (list byte)) :=
  match trim (before (byte_of 59) cond_text) with
  | [] => Ok None
  | head =>
      bytes ← encode_relational head;
      match bytes with Some bytes => Ok (Some bytes) | None => encode_cmp_or_test head end
  end.

(** * Condition codes *)

Definition jcc_names : list (Z * list (list byte)) :=
  [(0x0, [str "jo"]); (0x1, [str "jno"]); (0x2, [str "jb"; str "jc"; str "jnae"]);
   (0x3, [str "jae"; str "jnb"; str "jnc"]); (0x4, [str "je"; str "jz"]); (0x5, [str "jne"; str "jnz"]);
   (0x6, [str "jbe"; str "jna"]); (0x7, [str "ja"; str "jnbe"]); (0x8, [str "js"]); (0x9, [str "jns"]);
   (0xa, [str "jp"; str "jpe"]); (0xb, [str "jnp"; str "jpo"]); (0xc, [str "jl"; str "jnge"]);
   (0xd, [str "jge"; str "jnl"]); (0xe, [str "jle"; str "jng"]); (0xf, [str "jg"; str "jnle"])].

Definition jcc_cond_code_from_name (name : list byte) : option Z :=
  fst <$> (snd <$> list_find (fun '(_, names) => name ∈ names) jcc_names).
