(* ===== verification/Lexer.v ===== *)
(** The lexer of the source language (src/src/translate/compile/lexer.rs).

    A text is its UTF-8 bytes, a [char] the bytes of one character. [Lexer]
    is the state of the character iterator: the text that is left, the byte
    offset it starts at, the line and the column. The lexer counts lines and
    columns in [nat]; the [u32] counters of the source are in [bump_u32], and
    LexerSpec.v shows that the two agree on every text of fewer than 2^32 - 1
    bytes. A loop over the characters has the length of the text as fuel and
    panics when it runs out; LexerSpec.v shows that it never does. *)

From S2P Require Import Prelude Text.

(** * Data *)

Inductive TokenKind : Type :=
| LBrace | RBrace | LParen | RParen | LBracket | RBracket
| Comma | Colon | At | Arrow | Lt | Gt | Eq | Hash | Dollar | Semicolon
| Plus | Star | Slash | Percent | Ampersand | Pipe | Caret | Tilde | Dot | Bang | Minus
| Ident (name : list byte)
| TString (s : list byte)
| Int (n : Z)
| BigInt (text : list byte)
| Comment (text : list byte)
| Eof.

#[export] Instance TokenKind_eq_dec : EqDecision TokenKind.
Proof. solve_decision. Defined.

Record Token : Type := {
  kind : TokenKind;
  line : nat;
  col : nat;
  tstart : nat;
  tend : nat;
}.

(** The kinds of [ParseIntError] an integer text can give. *)
Inductive IntErrorKind : Type := IntEmpty | InvalidDigit | PosOverflow.

Inductive LexError : Type :=
| UnexpectedChar (ch : list byte) (line col : nat)
| UnterminatedString (line col : nat)
| InvalidEscape (ch : list byte) (line col : nat)
| InvalidNumber (text : list byte) (line col : nat) (reason : IntErrorKind).

Record Lexer : Type := {
  l_rest : list byte;
  l_pos : nat;
  l_line : nat;
  l_col : nat;
}.

(** * Characters *)

(** Bytes of the character a text starts with. *)
Definition char_len (b : byte) : nat :=
  if u8 b <? 0x80 then 1 else if u8 b <? 0xe0 then 2 else if u8 b <? 0xf0 then 3 else 4.

Definition next_char (s : list byte) : option (list byte * list byte) :=
  match s with
  | [] => None
  | b :: _ => Some (take (char_len b) s, drop (char_len b) s)
  end.

(** [char::from_u32], and the bytes [String::push] writes. *)
Definition char_from_u32 (n : Z) : option (list byte) :=
  if n <? 0x80 then Some [byte_of n]
  else if n <? 0x800 then Some [byte_of (0xc0 + n / 64); byte_of (0x80 + n mod 64)]
  else if (0xd800 <=? n) && (n <? 0xe000) then None
  else if n <? 0x10000 then
    Some [byte_of (0xe0 + n / 4096); byte_of (0x80 + n / 64 mod 64); byte_of (0x80 + n mod 64)]
  else if n <? 0x110000 then
    Some [byte_of (0xf0 + n / 262144); byte_of (0x80 + n / 4096 mod 64); byte_of (0x80 + n / 64 mod 64);
          byte_of (0x80 + n mod 64)]
  else None.

(** A test of ASCII characters, applied to a character. *)
Definition ascii_char (f : Z -> bool) (ch : list byte) : bool :=
  match ch with [b] => f (u8 b) | _ => false end.

(** [ch] is the ASCII character [c]. *)
Definition is_char (c : Z) (ch : list byte) : bool := ascii_char (Z.eqb c) ch.

Definition is_digit10 (c : Z) : bool := (48 <=? c) && (c <=? 57).
Definition is_alpha (c : Z) : bool := ((65 <=? c) && (c <=? 90)) || ((97 <=? c) && (c <=? 122)).
Definition is_ascii_digit (ch : list byte) : bool := ascii_char is_digit10 ch.

(** [c.is_digit(radix)], for radix 10 and 16. *)
Definition is_digit (radix : Z) (ch : list byte) : bool :=
  match ch with [b] => match digit_val radix b with Some _ => true | None => false end | _ => false end.

Definition is_whitespace (ch : list byte) : bool := match ws_len ch with O => false | _ => true end.

Definition is_ident_start (c : list byte) : bool := ascii_char (fun c => (c =? 95) || is_alpha c) c.
Definition is_ident_continue (c : list byte) : bool :=
  ascii_char (fun c => (c =? 95) || (c =? 46) || is_alpha c || is_digit10 c) c.

(** [&src[a..b]] panics off the text and inside a character. *)
Definition is_char_boundary (s : list byte) (i : nat) : bool :=
  match drop i s with
  | [] => (i =? length s)%nat
  | b :: _ => negb (is_cont (u8 b))
  end.

Definition str_slice {E} (s : list byte) (a b : nat) : res E (list byte) :=
  if (a <=? b)%nat && is_char_boundary s a && is_char_boundary s b then Ok (take (b - a) (drop a s)) else Panic.

(** * The iterator *)

Definition lexer_new (src : list byte) : Lexer := {| l_rest := src; l_pos := 0; l_line := 1; l_col := 1 |}.

Definition bump (lx : Lexer) : option (nat * list byte * Lexer) :=
  '(ch, rest) ← next_char (l_rest lx);
  Some (l_pos lx, ch,
        {| l_rest := rest; l_pos := l_pos lx + length ch;
           l_line := if is_char 10 ch then l_line lx + 1 else l_line lx;
           l_col := if is_char 10 ch then 1 else l_col lx + 1 |})%nat.

(** The same with the [u32] counters of the source, whose increments panic past
    the end. *)
Definition u32_succ (n : nat) : res LexError nat := if Z.of_nat n + 1 <? 2 ^ 32 then Ok (n + 1)%nat else Panic.

Definition bump_u32 (lx : Lexer) : res LexError (option (nat * list byte * Lexer)) :=
  match next_char (l_rest lx) with
  | None => Ok None
  | Some (ch, rest) =>
      '(ln, cl) ← (if is_char 10 ch then ln ← u32_succ (l_line lx); Ok (ln, 1%nat)
                   else cl ← u32_succ (l_col lx); Ok (l_line lx, cl));
      Ok (Some (l_pos lx, ch, {| l_rest := rest; l_pos := (l_pos lx + length ch)%nat; l_line := ln; l_col := cl |}))
  end.

Definition peek_char (lx : Lexer) : option (list byte) := fst <$> next_char (l_rest lx).

(** [while let Some(c) = self.peek_char() { if p(c) { self.bump() } else { break } }]
    and the characters passed. *)
Fixpoint bump_while (p : list byte -> bool) (fuel : nat) (lx : Lexer) : res LexError (list byte * Lexer) :=
  match peek_char lx with
  | Some c =>
      if p c then
        match fuel, bump lx with
        | S f, Some (_, c, lx) => '(cs, lx) ← bump_while p f lx; Ok (c ++ cs, lx)
        | _, _ => Panic
        end
      else Ok ([], lx)
  | None => Ok ([], lx)
  end.

Definition loop_fuel (lx : Lexer) : nat := length (l_rest lx).

Definition skip_whitespace (lx : Lexer) : res LexError Lexer :=
  '(_, lx) ← bump_while is_whitespace (loop_fuel lx) lx; Ok lx.

(** Byte position of the next character. *)
Definition current_byte_pos (src : list byte) (lx : Lexer) : nat :=
  match l_rest lx with [] => length src | _ => l_pos lx end.

(** * Lexemes *)

Definition read_line_comment (lx : Lexer) : res LexError (TokenKind * Lexer) :=
  '(text, lx) ← bump_while (fun c => negb (is_char 10 c)) (loop_fuel lx) lx;
  Ok (Comment (trim_start text), lx).

(** [u32::from_str_radix(&hex, 16)] of the two characters behind [\x]. *)
Definition read_hex_escape (line col : nat) (escape_line escape_col : nat) (lx : Lexer)
    : res LexError (list byte * Lexer) :=
  match bump lx with
  | None => Err (UnterminatedString line col)
  | Some (_, c1, lx) =>
      match bump lx with
      | None => Err (UnterminatedString line col)
      | Some (_, c2, lx) =>
          match parse_unsigned 16 32 (c1 ++ c2) with
          | None => Err (InvalidEscape c1 escape_line escape_col)
          | Some n =>
              match char_from_u32 n with
              | Some c => Ok (c, lx)
              | None => Err (InvalidEscape (str "x") escape_line escape_col)
              end
          end
      end
  end.

(** The character an escape stands for, [\] consumed. *)
Definition read_escape (line col : nat) (lx : Lexer) : res LexError (list byte * Lexer) :=
  let escape_line := l_line lx in
  let escape_col := l_col lx in
  match bump lx with
  | None => Err (UnterminatedString line col)
  | Some (_, esc, lx) =>
      if is_char 34 esc then Ok ([byte_of 34], lx)
      else if is_char 92 esc then Ok ([byte_of 92], lx)
      else if is_char 110 esc then Ok ([byte_of 10], lx)
      else if is_char 116 esc then Ok ([byte_of 9], lx)
      else if is_char 114 esc then Ok ([byte_of 13], lx)
      else if is_char 48 esc then Ok ([byte_of 0], lx)
      else if is_char 120 esc then read_hex_escape line col escape_line escape_col lx
      else Err (InvalidEscape esc escape_line escape_col)
  end.

Fixpoint read_string_from (fuel : nat) (line col : nat) (text : list byte) (lx : Lexer)
    : res LexError (TokenKind * Lexer) :=
  match bump lx with
  | None => Err (UnterminatedString line col)
  | Some (_, ch, lx) =>
      match fuel with
      | O => Panic
      | S f =>
          if is_char 34 ch then Ok (TString text, lx)
          else if is_char 92 ch then
            '(c, lx) ← read_escape line col lx; read_string_from f line col (text ++ c) lx
          else read_string_from f line col (text ++ ch) lx
      end
  end.

Definition read_string (line col : nat) (lx : Lexer) : res LexError (TokenKind * Lexer) :=
  read_string_from (loop_fuel lx) line col [] lx.

(** [u64::from_str_radix]: the number or the kind of the error. *)
Definition u64_from_str_radix (r : Z) (s : list byte) : IntErrorKind + Z :=
  match parse_unsigned r 64 s with
  | Some n => inr n
  | None =>
      match s with
      | [] => inl IntEmpty
      | c :: t =>
          let digits := if u8 c =? 43 then t else s in
          if (0 <? length digits)%nat &&
             forallb (fun b => match digit_val r b with Some _ => true | None => false end) digits
          then inl PosOverflow
          else inl InvalidDigit
      end
  end.

Definition read_number (src : list byte) (start : nat) (line col : nat) (lx : Lexer)
    : res LexError (TokenKind * Lexer) :=
  first ← or_panic (src !! start);
  let negative := u8 first =? 45 in
  let nend := (start + 1)%nat in
  let radix_start := if negative then nend else start in
  radix_first ← or_panic (src !! radix_start);
  let '(lx, nend) := if negative then (match bump lx with Some (_, _, lx) => lx | None => lx end, (nend + 1)%nat)
                     else (lx, nend) in
  let '(radix, lx, nend) :=
    match peek_char lx with
    | Some c =>
        if (u8 radix_first =? 48) && (is_char 120 c || is_char 88 c) then
          (16, match bump lx with Some (_, _, lx) => lx | None => lx end, (nend + 1)%nat)
        else (10, lx, nend)
    | None => (10, lx, nend)
    end in
  '(cs, lx) ← bump_while (fun c => is_char 95 c || is_digit radix c) (loop_fuel lx) lx;
  let nend := (nend + length cs)%nat in
  text ← str_slice src start nend;
  let trimmed := List.filter (fun b => negb (u8 b =? 95)) text in
  body ← (if negative then str_slice trimmed (if radix =? 16 then 3 else 1) (length trimmed)
          else if radix =? 16 then str_slice trimmed 2 (length trimmed)
          else Ok trimmed);
  match u64_from_str_radix radix body with
  | inr n => Ok (Int (if negative then wrap 64 (- n) else n), lx)
  | inl e =>
      match e with
      | PosOverflow =>
          if negb negative && (length body <=? (if (radix =? 16)%Z then 64 else 78))%nat then Ok (BigInt text, lx)
          else Err (InvalidNumber text line col e)
      | _ => Err (InvalidNumber text line col e)
      end
  end.

Definition read_ident (src : list byte) (start : nat) (lx : Lexer) : res LexError (TokenKind * Lexer) :=
  '(cs, lx) ← bump_while is_ident_continue (loop_fuel lx) lx;
  text ← str_slice src start (start + 1 + length cs)%nat;
  Ok (Ident text, lx).

(** * Tokens *)

(** The characters that are a token on their own whatever follows. *)
Definition punct (c : Z) : option TokenKind :=
  if c =? 123 then Some LBrace else if c =? 125 then Some RBrace
  else if c =? 40 then Some LParen else if c =? 41 then Some RParen
  else if c =? 91 then Some LBracket else if c =? 93 then Some RBracket
  else if c =? 44 then Some Comma else if c =? 58 then Some Colon
  else if c =? 64 then Some At else if c =? 60 then Some Lt
  else if c =? 62 then Some Gt else if c =? 61 then Some Eq
  else if c =? 35 then Some Hash else if c =? 36 then Some Dollar
  else if c =? 59 then Some Semicolon else if c =? 43 then Some Plus
  else if c =? 42 then Some Star else if c =? 38 then Some Ampersand
  else if c =? 124 then Some Pipe else if c =? 94 then Some Caret
  else if c =? 126 then Some Tilde else if c =? 46 then Some Dot
  else if c =? 33 then Some Bang else if c =? 37 then Some Percent
  else None.

(** [Some(c) == self.peek_char()]. *)
Definition peeks (p : list byte -> bool) (lx : Lexer) : bool :=
  match peek_char lx with Some c => p c | None => false end.

Definition bumped (lx : Lexer) : Lexer := match bump lx with Some (_, _, lx) => lx | None => lx end.

(** The kind of the token that starts with [ch] at [start]; the white space is
    skipped and [ch] consumed. *)
Definition read_kind (src : list byte) (start : nat) (line col : nat) (ch : list byte) (lx : Lexer)
    : res LexError (TokenKind * Lexer) :=
  match (match ch with [b] => punct (u8 b) | _ => None end) with
  | Some k => Ok (k, lx)
  | None =>
      if is_char 45 ch && peeks (is_char 62) lx then Ok (Arrow, bumped lx)
      else if is_char 47 ch && peeks (is_char 47) lx then read_line_comment (bumped lx)
      else if is_char 47 ch then Ok (Slash, lx)
      else if is_char 34 ch then read_string line col lx
      else if is_char 45 ch && peeks is_ascii_digit lx then read_number src start line col lx
      else if is_char 45 ch then Ok (Minus, lx)
      else if is_ascii_digit ch then read_number src start line col lx
      else if is_ident_start ch then read_ident src start lx
      else Err (UnexpectedChar ch line col)
  end.

Definition next_token (src : list byte) (lx : Lexer) : res LexError (Token * Lexer) :=
  lx ← skip_whitespace lx;
  let line := l_line lx in
  let col := l_col lx in
  match bump lx with
  | None => Ok ({| kind := Eof; line := line; col := col; tstart := length src; tend := length src |}, lx)
  | Some (start, ch, lx) =>
      '(k, lx) ← read_kind src start line col ch lx;
      Ok ({| kind := k; line := line; col := col; tstart := start; tend := current_byte_pos src lx |}, lx)
  end.

Fixpoint tokenize_from (fuel : nat) (src : list byte) (lx : Lexer) : res LexError (list Token) :=
  match fuel with
  | O => Panic
  | S f =>
      '(tok, lx) ← next_token src lx;
      if decide (kind tok = Eof) then Ok [tok]
      else toks ← tokenize_from f src lx; Ok (tok :: toks)
  end.

Definition tokenize (input : list byte) : res LexError (list Token) :=
  tokenize_from (S (length input)) input (lexer_new input).
