(* ===== verification/LexerSpec.v ===== *)
(** The lexical grammar of the source language, and the lexer against it.

    A text is a sequence of pieces: white space, and lexemes with the kind of
    token they stand for. [lexeme w k rest] is the grammar: the word [w] in
    front of [rest] is a token of kind [k]. [tokenize] accepts exactly the
    texts that have such a division, and its tokens are the lexemes at their
    places; on valid UTF-8 it does not panic. *)

From S2P Require Import Prelude Text Lexer.

(** * Characters of a text *)

(** The bytes of one character. *)
Definition valid_char (ch : list byte) : Prop :=
  match ch with
  | [] => False
  | b :: t => is_cont (u8 b) = false /\ length ch = char_len b /\ Forall (fun c => is_cont (u8 c) = true) t
  end.

(** A text all of whose characters satisfy [p]. *)
Inductive Chars (p : list byte -> bool) : list byte -> Prop :=
| Chars_nil : Chars p []
| Chars_cons ch s : valid_char ch -> p ch = true -> Chars p s -> Chars p (ch ++ s).

Definition utf8 : list byte -> Prop := Chars (fun _ => true).

(** A loop over [p] stops in front of this text. *)
Definition stops (p : list byte -> bool) (s : list byte) : Prop :=
  match next_char s with Some (c, _) => p c = false | None => True end.

#[export] Instance stops_dec p s : Decision (stops p s).
Proof. unfold stops. destruct (next_char s) as [[c t]|]; apply _. Defined.

Lemma valid_ascii b : u8 b < 128 -> valid_char [b].
Proof.
  intros Hb. pose proof (u8_range b). unfold valid_char, is_cont, char_len. split_and!; [lia| |done].
  by replace (u8 b <? 128) with true by lia.
Qed.

Lemma next_char_valid ch s : valid_char ch -> next_char (ch ++ s) = Some (ch, s).
Proof.
  destruct ch as [|b t]; [done|]. intros (_ & Hl & _). unfold next_char. cbn [app].
  change (b :: t ++ s) with ((b :: t) ++ s). by rewrite <- Hl, take_app_length, drop_app_length.
Qed.

Lemma next_char_ascii b s : u8 b < 128 -> next_char (b :: s) = Some ([b], s).
Proof. intros Hb. by apply (next_char_valid [b] s), valid_ascii. Qed.

Lemma valid_char_ascii ch b : valid_char ch -> head ch = Some b -> u8 b < 128 -> ch = [b].
Proof.
  destruct ch as [|c t]; [done|]. intros (_ & Hl & _) [= ->] Hb. unfold char_len in Hl.
  replace (u8 b <? 128) with true in Hl by lia. by destruct t.
Qed.

Lemma Chars_app p s t : Chars p s -> Chars p t -> Chars p (s ++ t).
Proof. induction 1; [done|]. intros. rewrite <- (assoc_L (++)). constructor; auto. Qed.

Lemma Chars_mono (p q : list byte -> bool) s : (forall c, p c = true -> q c = true) -> Chars p s -> Chars q s.
Proof. intros H. induction 1; constructor; auto. Qed.

Lemma Chars_utf8 p s : Chars p s -> utf8 s.
Proof. by apply Chars_mono. Qed.

Lemma utf8_inv s : utf8 s -> s = [] \/ exists ch t, s = ch ++ t /\ valid_char ch /\ utf8 t.
Proof. destruct 1 as [|ch t]; [by left|right; eauto]. Qed.

Lemma app_valid_inv ch ch' s s' : valid_char ch -> valid_char ch' -> ch ++ s = ch' ++ s' -> ch = ch' /\ s = s'.
Proof.
  intros H H' E. pose proof (next_char_valid ch s H) as E1. rewrite E, (next_char_valid ch' s' H') in E1. by simplify_eq.
Qed.

(** What is left behind whole characters is a text again. *)
Lemma Chars_drop p w s : Chars p w -> utf8 (w ++ s) -> utf8 s.
Proof.
  induction 1 as [|ch w Hc _ Hw IH]; [done|]. rewrite <- (assoc_L (++)). intros Hu.
  apply utf8_inv in Hu as [E|(ch' & t & E & Hc' & Ht)]; [destruct ch; done|].
  apply app_valid_inv in E as [_ E]; [|done|done]. subst t. auto.
Qed.

Lemma utf8_ascii_tail b s : u8 b < 128 -> utf8 (b :: s) -> utf8 s.
Proof.
  intros Hb Hu. apply (Chars_drop (fun _ => true) [b] s); [|exact Hu].
  apply (Chars_cons _ [b] []); [by apply valid_ascii|done|constructor].
Qed.

Lemma Chars_ascii p s : Forall (fun b => u8 b < 128 /\ p [b] = true) s -> Chars p s.
Proof.
  induction 1 as [|b s [Hb Hp] _ IH]; [constructor|]. apply (Chars_cons p [b] s); [by apply valid_ascii|done|done].
Qed.

Lemma utf8_head s b : utf8 s -> head s = Some b -> is_cont (u8 b) = false.
Proof.
  intros H E. apply utf8_inv in H as [->|(ch & t & -> & Hc & _)]; [done|].
  destruct ch as [|c ch]; [done|]. destruct Hc as (Hc & _). cbn in E. by simplify_eq.
Qed.

(** The division of a text where a loop stops. *)
Lemma Chars_split p s : utf8 s -> exists w r, s = w ++ r /\ Chars p w /\ stops p r /\ utf8 r.
Proof.
  induction 1 as [|ch s Hc _ Hs IH]; [by exists [], []; split_and!; constructor|].
  destruct (p ch) eqn:E.
  - destruct IH as (w & r & -> & Hw & Hr & Hu). exists (ch ++ w), r. rewrite <- (assoc_L (++)).
    split_and!; [done| |done|done]. by constructor.
  - exists [], (ch ++ s). split_and!; [done|constructor| |by constructor].
    unfold stops. by rewrite next_char_valid.
Qed.

(** [str::from_utf8] accepts such texts only. *)
Lemma utf8_cons b t s : is_cont (u8 b) = false -> S (length t) = char_len b ->
  Forall (fun c => is_cont (u8 c) = true) t -> utf8 s -> utf8 (b :: t ++ s).
Proof. intros Hb Hn Ht Hs. by apply (Chars_cons _ (b :: t) s). Qed.

Lemma utf8_of_valid_n n s : (length s <= n)%nat -> utf8_valid_n n (map u8 s) = true -> utf8 s.
Proof.
  revert s. induction n as [|n IH]; intros s Hn; [destruct s; [constructor|cbn in Hn; lia]|].
  destruct s as [|b t]; [constructor|]. cbn [map utf8_valid_n length] in *. pose proof (u8_range b).
  assert (forall k : nat, k = (if u8 b <? 128 then 1%nat else if u8 b <? 224 then 2%nat else if u8 b <? 240 then 3%nat else 4%nat) ->
    k = char_len b) as Hl by done.
  destruct (Z.ltb_spec (u8 b) 128).
  { intros Hv. apply (utf8_cons b [] t); [unfold is_cont; lia| |done|apply IH; [lia|done]].
    apply Hl. by replace (u8 b <? 128) with true by lia. }
  destruct ((194 <=? u8 b) && (u8 b <=? 223)) eqn:E2.
  { destruct t as [|d t]; [done|]. cbn [map length] in *. intros [Hd Hv]%andb_prop.
    apply (utf8_cons b [d] t); [unfold is_cont; lia| |by repeat constructor|apply IH; [lia|done]].
    apply Hl. replace (u8 b <? 128) with false by lia. by replace (u8 b <? 224) with true by lia. }
  destruct ((224 <=? u8 b) && (u8 b <=? 239)) eqn:E3.
  { destruct t as [|d [|e t]]; [done|done|]. cbn [map length] in *.
    intros [[[[Hd He]%andb_prop _]%andb_prop _]%andb_prop Hv]%andb_prop.
    apply (utf8_cons b [d; e] t); [unfold is_cont; lia| |by repeat constructor|apply IH; [lia|done]].
    apply Hl. replace (u8 b <? 128) with false by lia. replace (u8 b <? 224) with false by lia. by replace (u8 b <? 240) with true by lia. }
  destruct ((240 <=? u8 b) && (u8 b <=? 244)) eqn:E4; [|done].
  destruct t as [|d [|e [|f t]]]; [done|done|done|]. cbn [map length] in *.
  intros [[[[[Hd He]%andb_prop Hf]%andb_prop _]%andb_prop _]%andb_prop Hv]%andb_prop.
  apply (utf8_cons b [d; e; f] t); [unfold is_cont; lia| |by repeat constructor|apply IH; [lia|done]].
  apply Hl. replace (u8 b <? 128) with false by lia. replace (u8 b <? 224) with false by lia. by replace (u8 b <? 240) with false by lia.
Qed.

Lemma utf8_of_valid s : utf8_valid s = true -> utf8 s.
Proof. by apply utf8_of_valid_n. Qed.

(** * Positions *)

(** Line and column behind a text. *)
Definition step_pos (lc : nat * nat) (b : byte) : nat * nat :=
  if u8 b =? 10 then (lc.1 + 1, 1)%nat else if is_cont (u8 b) then lc else (lc.1, lc.2 + 1)%nat.
Definition advance (lc : nat * nat) (w : list byte) : nat * nat := foldl step_pos lc w.

Lemma advance_app lc w w' : advance lc (w ++ w') = advance (advance lc w) w'.
Proof. apply foldl_app. Qed.

(** The state of the iterator [w] further, in front of [r]. *)
Definition after (lx : Lexer) (w r : list byte) : Lexer :=
  let lc := advance (l_line lx, l_col lx) w in
  {| l_rest := r; l_pos := (l_pos lx + length w)%nat; l_line := lc.1; l_col := lc.2 |}.

Lemma after_after lx w w' r r' : after (after lx w r) w' r' = after lx (w ++ w') r'.
Proof. unfold after, advance. cbn. by rewrite foldl_app, length_app, Nat.add_assoc, <- surjective_pairing. Qed.

Lemma after_nil lx r : l_rest lx = r -> after lx [] r = lx.
Proof. intros <-. unfold after. cbn. rewrite Nat.add_0_r. by destruct lx. Qed.

Lemma foldl_cont lc t : Forall (fun c => is_cont (u8 c) = true) t -> foldl step_pos lc t = lc.
Proof.
  intros H. revert lc. induction H as [|b t Hb _ IH]; intros lc; [done|]. cbn. rewrite IH. unfold step_pos.
  rewrite Hb. by replace (u8 b =? 10) with false by (unfold is_cont in Hb; lia).
Qed.

Lemma bump_valid lx ch s : valid_char ch -> l_rest lx = ch ++ s ->
  bump lx = Some (l_pos lx, ch, after lx ch s).
Proof.
  intros Hc E. unfold bump. rewrite E, (next_char_valid ch s Hc). cbn [mbind option_bind]. unfold after, advance.
  destruct ch as [|b t]; [done|]. destruct Hc as (Hb & Hl & Ht). cbn [foldl]. rewrite foldl_cont by done.
  unfold is_char, ascii_char, step_pos. rewrite Hb. cbn [fst snd].
  destruct t as [|c t].
  - rewrite (Z.eqb_sym 10). by destruct (u8 b =? 10).
  - replace (u8 b =? 10) with false; [done|]. unfold char_len in Hl. cbn in Hl.
    destruct (Z.ltb_spec (u8 b) 128); [done|lia].
Qed.

Lemma bump_ascii lx b s : u8 b < 128 -> l_rest lx = b :: s -> bump lx = Some (l_pos lx, [b], after lx [b] s).
Proof. intros Hb. apply (bump_valid lx [b]), valid_ascii, Hb. Qed.

Lemma bump_end lx : l_rest lx = [] -> bump lx = None.
Proof. unfold bump. by intros ->. Qed.

(** * Loops *)

Lemma bump_while_spec p w : Chars p w -> forall fuel lx r, (length w <= fuel)%nat -> l_rest lx = w ++ r -> stops p r ->
  bump_while p fuel lx = Ok (w, after lx w r).
Proof.
  induction 1 as [|ch w Hc Hp _ IH]; intros fuel lx r Hf E Hr.
  - cbn in E. assert (peek_char lx = fst <$> next_char r) as Ep by (unfold peek_char; by rewrite E).
    rewrite after_nil by done. unfold stops in Hr. destruct fuel; cbn [bump_while]; rewrite Ep; clear Ep;
      (destruct (next_char r) as [[c t]|]; cbn; [|done]); by rewrite Hr.
  - rewrite <- (assoc_L (++)) in E. rewrite length_app in Hf.
    assert (0 < length ch)%nat by (destruct ch; [done|cbn; lia]). destruct fuel as [|fuel]; [lia|].
    cbn [bump_while]. unfold peek_char. rewrite E, (next_char_valid ch _ Hc). cbn [fmap option_fmap option_map fst].
    rewrite Hp, (bump_valid lx ch (w ++ r) Hc E), (IH fuel _ r) by (done || lia). cbn [mbind res_bind].
    by rewrite after_after.
Qed.

(** A loop with the length of the text as fuel. *)
Lemma bump_while_fuel p w lx r : Chars p w -> l_rest lx = w ++ r -> stops p r ->
  bump_while p (loop_fuel lx) lx = Ok (w, after lx w r).
Proof. intros Hw E Hr. apply bump_while_spec; [done| |done|done]. unfold loop_fuel. rewrite E, length_app. lia. Qed.

(** * The lexical grammar *)

(** The escapes of one character. *)
Definition named_escapes : list (Z * Z) := [(34, 34); (92, 92); (110, 10); (116, 9); (114, 13); (48, 0)].

(** A character of a string literal as it is written, and its value. *)
Inductive str_char : list byte -> list byte -> Prop :=
| SC_plain ch : valid_char ch -> is_char 34 ch = false -> is_char 92 ch = false -> str_char ch ch
| SC_named e v : (e, v) ∈ named_escapes -> str_char [byte_of 92; byte_of e] [byte_of v]
| SC_hex c1 c2 n c : valid_char c1 -> valid_char c2 -> parse_unsigned 16 32 (c1 ++ c2) = Some n ->
    char_from_u32 n = Some c -> str_char ([byte_of 92; byte_of 120] ++ c1 ++ c2) c.

Inductive str_body : list byte -> list byte -> Prop :=
| SB_nil : str_body [] []
| SB_cons w v ws vs : str_char w v -> str_body ws vs -> str_body (w ++ ws) (v ++ vs).

(** What the digits of a number give: [body] without sign, prefix and [_]. *)
Definition number_result (negative : bool) (radix : Z) (body text : list byte) : IntErrorKind + TokenKind :=
  match u64_from_str_radix radix body with
  | inr n => inr (Int (if negative then wrap 64 (- n) else n))
  | inl PosOverflow =>
      if negb negative && (length body <=? (if (radix =? 16)%Z then 64 else 78))%nat then inr (BigInt text)
      else inl PosOverflow
  | inl e => inl e
  end.

(** The spelling of a number: sign, first digit, radix prefix, digits. *)
Record number_parts : Type := { np_neg : bool; np_first : byte; np_hex : option byte; np_digits : list byte }.

Definition np_radix (p : number_parts) : Z := match np_hex p with Some _ => 16 | None => 10 end.
Definition np_text (p : number_parts) : list byte :=
  (if np_neg p then [byte_of 45] else []) ++ [np_first p] ++ match np_hex p with Some x => [x] | None => [] end ++ np_digits p.
Definition np_body (p : number_parts) : list byte :=
  List.filter (fun b => negb (u8 b =? 95)) (match np_hex p with Some _ => [] | None => [np_first p] end ++ np_digits p).

Definition digit_of (radix : Z) (c : list byte) : bool := is_char 95 c || is_digit radix c.
Definition is_x (c : list byte) : bool := is_char 120 c || is_char 88 c.

Record number_ok (p : number_parts) (rest : list byte) : Prop := {
  no_first : is_digit10 (u8 (np_first p)) = true;
  no_hex : forall x, np_hex p = Some x -> u8 (np_first p) = 48 /\ is_x [x] = true;
  no_dec : np_hex p = None -> u8 (np_first p) = 48 -> stops is_x (np_digits p ++ rest);
  no_digits : Chars (digit_of (np_radix p)) (np_digits p);
  no_stop : stops (digit_of (np_radix p)) rest;
}.

Inductive lexeme : list byte -> TokenKind -> list byte -> Prop :=
| L_punct b k rest : punct (u8 b) = Some k -> lexeme [b] k rest
| L_arrow rest : lexeme [byte_of 45; byte_of 62] Arrow rest
| L_comment w rest : Chars (fun c => negb (is_char 10 c)) w -> stops (fun c => negb (is_char 10 c)) rest ->
    lexeme ([byte_of 47; byte_of 47] ++ w) (Comment (trim_start w)) rest
| L_slash rest : stops (is_char 47) rest -> lexeme [byte_of 47] Slash rest
| L_minus rest : stops (is_char 62) rest -> stops is_ascii_digit rest -> lexeme [byte_of 45] Minus rest
| L_string w v rest : str_body w v -> lexeme ([byte_of 34] ++ w ++ [byte_of 34]) (TString v) rest
| L_number p k rest : number_ok p rest -> number_result (np_neg p) (np_radix p) (np_body p) (np_text p) = inr k ->
    lexeme (np_text p) k rest
| L_ident b w rest : is_ident_start [b] = true -> Chars is_ident_continue w -> stops is_ident_continue rest ->
    lexeme (b :: w) (Ident (b :: w)) rest.

(** A text divided. *)
Inductive piece : Type :=
| Sp (w : list byte)
| Tk (w : list byte) (k : TokenKind).

Definition piece_text (p : piece) : list byte := match p with Sp w | Tk w _ => w end.
Definition render (ps : list piece) : list byte := concat (map piece_text ps).

(** Each piece is what it says in front of the next. *)
Fixpoint divides (ps : list piece) (rest : list byte) : Prop :=
  match ps with
  | [] => True
  | Sp w :: ps => Chars is_whitespace w /\ divides ps rest
  | Tk w k :: ps => lexeme w k (render ps ++ rest) /\ divides ps rest
  end.

(** The tokens of a division, at a place. *)
Fixpoint place (pos : nat) (lc : nat * nat) (ps : list piece) : list Token :=
  match ps with
  | [] => [{| kind := Eof; line := lc.1; col := lc.2; tstart := pos; tend := pos |}]
  | Sp w :: ps => place (pos + length w) (advance lc w) ps
  | Tk w k :: ps =>
      {| kind := k; line := lc.1; col := lc.2; tstart := pos; tend := pos + length w |}
      :: place (pos + length w) (advance lc w) ps
  end.

(** * Lexemes are read *)

(** The iterator stands in the text. *)
Record lexes_in (src : list byte) (lx : Lexer) : Prop := {
  li_rest : l_rest lx = drop (l_pos lx) src;
  li_pos : (l_pos lx <= length src)%nat;
  li_utf8 : utf8 (l_rest lx);
}.

Lemma lexes_in_after src lx w r : lexes_in src lx -> l_rest lx = w ++ r -> utf8 r -> lexes_in src (after lx w r).
Proof.
  intros [H1 H2 H3] E Hr. assert (length (w ++ r) = length src - l_pos lx)%nat as Hl by (rewrite <- E, H1; apply length_drop).
  rewrite length_app in Hl. split; cbn; [|lia|done].
  rewrite <- drop_drop, <- H1, E. by rewrite drop_app_length.
Qed.

Lemma boundary_utf8 s i : (i <= length s)%nat -> utf8 (drop i s) -> is_char_boundary s i = true.
Proof.
  intros Hi Hu. unfold is_char_boundary. destruct (drop i s) as [|b t] eqn:E.
  - apply Nat.eqb_eq. pose proof (length_drop s i) as Hl. rewrite E in Hl. cbn in Hl. lia.
  - by rewrite (utf8_head _ b Hu).
Qed.

Lemma str_slice_ok {E} (s pre w r : list byte) : s = pre ++ w ++ r -> utf8 (w ++ r) -> utf8 r ->
  str_slice (E:=E) s (length pre) (length pre + length w) = Ok w.
Proof.
  intros -> H1 H2. unfold str_slice. rewrite !boundary_utf8, drop_app_length.
  - replace (length pre <=? length pre + length w)%nat with true by (symmetry; apply Nat.leb_le; lia). cbn.
    by replace (length pre + length w - length pre)%nat with (length w) by lia; rewrite take_app_length.
  - rewrite !length_app. lia.
  - rewrite (assoc_L (++)), drop_app_length'; [done|by rewrite length_app].
  - rewrite !length_app. lia.
  - by rewrite drop_app_length.
Qed.

Lemma read_ident_eval src pre b w r lx : src = pre ++ (b :: w) ++ r -> u8 b < 128 -> l_rest lx = w ++ r -> utf8 (w ++ r) ->
  Chars is_ident_continue w -> stops is_ident_continue r ->
  read_ident src (length pre) lx = Ok (Ident (b :: w), after lx w r).
Proof.
  intros Hsrc Hb E Hu Hw Hr. unfold read_ident. rewrite (bump_while_fuel _ w lx r Hw E Hr). cbn [mbind res_bind].
  replace (length pre + 1 + length w)%nat with (length pre + length (b :: w))%nat by (cbn; lia).
  rewrite (str_slice_ok src pre (b :: w) r Hsrc); [done| |by eapply Chars_drop].
  apply (Chars_cons _ [b] (w ++ r)); [by apply valid_ascii|done|done].
Qed.

Lemma digit10_ascii b : is_digit10 b = true -> b < 128.
Proof. unfold is_digit10. lia. Qed.

Lemma is_x_ascii b : is_x [b] = true -> u8 b < 128.
Proof. unfold is_x, is_char, ascii_char. lia. Qed.


Lemma utf8_ascii_app b s : u8 b < 128 -> utf8 s -> utf8 (b :: s).
Proof. intros Hb Hs. apply (Chars_cons _ [b] s); [by apply valid_ascii|done|done]. Qed.


(** Behind sign and prefix. *)
Lemma np_trimmed p r : number_ok p r ->
  let trimmed := List.filter (fun b => negb (u8 b =? 95)) (np_text p) in
  let skip := ((if np_neg p then 1 else 0) + match np_hex p with Some _ => 2 | None => 0 end)%nat in
  (skip <= length trimmed)%nat /\ np_body p = drop skip trimmed.
Proof.
  intros H. pose proof (no_first _ _ H) as Hf. unfold is_digit10 in Hf.
  unfold np_text, np_body. destruct (np_hex p) as [x|] eqn:Ex.
  - destruct (no_hex _ _ H x Ex) as [H0 Hx]. unfold is_x, is_char, ascii_char in Hx.
    destruct (np_neg p); cbn [app List.filter]; change (u8 (byte_of 45) =? 95) with false; replace (u8 (np_first p) =? 95) with false by lia;
      replace (u8 x =? 95) with false by lia; cbn; (split; [lia|done]).
  - destruct (np_neg p); cbn [app List.filter]; change (u8 (byte_of 45) =? 95) with false; replace (u8 (np_first p) =? 95) with false by lia; cbn; (split; [lia|done]).
Qed.

Definition np_prefix (p : number_parts) : list byte := match np_hex p with Some x => [x] | None => [] end.

(** The radix prefix is read when it is there. *)
Lemma radix_eval p r lx (n : nat) : number_ok p r -> l_rest lx = np_prefix p ++ np_digits p ++ r ->
  match peek_char lx with
  | Some c =>
      if (u8 (np_first p) =? 48) && (is_char 120 c || is_char 88 c) then
        (16, match bump lx with Some (_, _, lx) => lx | None => lx end, (n + 1)%nat)
      else (10, lx, n)
  | None => (10, lx, n)
  end = (np_radix p, after lx (np_prefix p) (np_digits p ++ r), (n + length (np_prefix p))%nat).
Proof.
  intros H E. unfold peek_char, np_radix, np_prefix in *. destruct (np_hex p) as [x|] eqn:Ex.
  - destruct (no_hex _ _ H x Ex) as [H0 Hx]. pose proof (is_x_ascii x Hx) as Ha. cbn [app] in E.
    rewrite (bump_ascii lx x _ Ha E), E, (next_char_ascii x _ Ha). cbn [fmap option_fmap option_map fst].
    fold (is_x [x]). rewrite Hx. replace (u8 (np_first p) =? 48) with true by lia. done.
  - rewrite after_nil by done. rewrite Nat.add_0_r, E. cbn [app].
    destruct (Z.eqb_spec (u8 (np_first p)) 48) as [H0|]; [|by destruct (fst <$> _)].
    pose proof (no_dec _ _ H Ex H0) as Hs. unfold stops in Hs. destruct (next_char _) as [[c t]|]; [|done].
    cbn. fold (is_x c). by rewrite Hs.
Qed.

Lemma number_ascii p r : number_ok p r -> Forall (fun b => u8 b < 128) (np_text p).
Proof.
  intros H. pose proof (no_first _ _ H) as Hf. apply digit10_ascii in Hf.
  assert (Forall (fun b => u8 b < 128) (np_digits p)) as Hd.
  { pose proof (no_digits _ _ H) as Hd. induction Hd as [|ch s Hc Hp _ IH]; [done|]. apply Forall_app. split; [|done].
    destruct ch as [|b [|? ?]]; [done| |by unfold digit_of in Hp]. repeat constructor.
    destruct Hc as (_ & Hl & _). unfold char_len in Hl. cbn in Hl.
    destruct (Z.ltb_spec (u8 b) 128); [done|]. destruct (u8 b <? 224), (u8 b <? 240); done. }
  unfold np_text. repeat (apply Forall_app; split); [by destruct (np_neg p); repeat constructor|by repeat constructor| |done].
  destruct (np_hex p) as [x|] eqn:Ex; [|done]. destruct (no_hex _ _ H x Ex) as [_ Hx]. repeat constructor. by apply is_x_ascii.
Qed.

Lemma ascii_utf8 s r : Forall (fun b => u8 b < 128) s -> utf8 r -> utf8 (s ++ r).
Proof. intros H Hr. apply Chars_app; [|done]. apply Chars_ascii. by eapply Forall_impl. Qed.

Lemma Forall_filter_list {A} (P : A -> Prop) f (l : list A) : Forall P l -> Forall P (List.filter f l).
Proof. induction 1 as [|a l Ha _ IH]; [constructor|]. cbn. destruct (f a); [by constructor|done]. Qed.

Lemma slice_tail {E} (s : list byte) k : (k <= length s)%nat -> Forall (fun b => u8 b < 128) s ->
  str_slice (E:=E) s k (length s) = Ok (drop k s).
Proof.
  intros Hk Hs. pose proof (str_slice_ok (E:=E) s (take k s) (drop k s) []) as H.
  rewrite app_nil_r, take_drop, length_take, length_drop, Nat.min_l in H by lia.
  replace (k + (length s - k))%nat with (length s) in H by lia. apply H; [done| |constructor].
  rewrite <- (app_nil_r (drop k s)). apply ascii_utf8; [by apply Forall_drop|constructor].
Qed.

(** The body the code slices off is the digits. *)
Lemma np_body_eval {E} p r : number_ok p r ->
  let trimmed := List.filter (fun b => negb (u8 b =? 95)) (np_text p) in
  (if np_neg p then str_slice (E:=E) trimmed (if np_radix p =? 16 then 3 else 1) (length trimmed)
   else if np_radix p =? 16 then str_slice trimmed 2 (length trimmed) else Ok trimmed) = Ok (np_body p).
Proof.
  intros H. destruct (np_trimmed p r H) as [Hl ->].
  pose proof (Forall_filter_list _ (fun b => negb (u8 b =? 95)) _ (number_ascii p r H)) as Ha. cbn zeta.
  unfold np_radix in *. destruct (np_neg p), (np_hex p); cbn [Z.eqb Pos.eqb Nat.add] in *; rewrite ?slice_tail by done; done.
Qed.

Lemma read_number_eval src pre p c tl r lx ln cl : np_text p = c :: tl -> src = pre ++ np_text p ++ r -> number_ok p r ->
  l_rest lx = tl ++ r -> utf8 r ->
  read_number src (length pre) ln cl lx =
    match number_result (np_neg p) (np_radix p) (np_body p) (np_text p) with
    | inr k => Ok (k, after lx tl r)
    | inl e => Err (InvalidNumber (np_text p) ln cl e)
    end.
Proof.
  intros Et Hsrc H E Hu. unfold read_number.
  assert (src !! length pre = Some c) as -> by (by rewrite Hsrc, lookup_app_r, Nat.sub_diag, Et by lia).
  cbn [or_panic mbind res_bind].
  pose proof (digit10_ascii _ (no_first _ _ H)) as Hfa.
  assert ((u8 c =? 45) = np_neg p) as Hneg.
  { pose proof (no_first _ _ H) as Hf. unfold is_digit10 in Hf. unfold np_text in Et.
    destruct (np_neg p); cbn in Et; injection Et as <- _; [done|lia]. }
  rewrite Hneg.
  assert (src !! (if np_neg p then (length pre + 1)%nat else length pre) = Some (np_first p)) as ->.
  { rewrite Hsrc, lookup_app_r by (destruct (np_neg p); lia). unfold np_text.
    destruct (np_neg p); [|by rewrite Nat.sub_diag]. by replace (length pre + 1 - length pre)%nat with 1%nat by lia. }
  cbn [or_panic mbind res_bind].
  set (lx1 := if np_neg p then after lx [np_first p] (np_prefix p ++ np_digits p ++ r) else lx).
  assert (l_rest lx1 = np_prefix p ++ np_digits p ++ r) as E1.
  { unfold lx1. destruct (np_neg p) eqn:En; [done|]. rewrite E. unfold np_text in Et. rewrite En in Et. cbn in Et.
    injection Et as _ <-. by rewrite <- (assoc_L (++)). }
  assert ((if np_neg p then (match bump lx with Some (_, _, lx) => lx | None => lx end, (length pre + 1 + 1)%nat)
           else (lx, (length pre + 1)%nat)) = (lx1, (length pre + (if np_neg p then 2 else 1))%nat)) as ->.
  { unfold lx1. destruct (np_neg p) eqn:En; [|done].
    assert (l_rest lx = np_first p :: np_prefix p ++ np_digits p ++ r) as Er.
    { rewrite E. unfold np_text in Et. rewrite En in Et. cbn in Et. injection Et as _ <-. cbn. by rewrite <- (assoc_L (++)). }
    rewrite (bump_ascii lx _ _ Hfa Er). f_equal. lia. }
  rewrite (radix_eval p r lx1 _ H E1).
  rewrite (bump_while_fuel (digit_of (np_radix p)) (np_digits p) _ r); [|apply H|done|apply H].
  cbn [mbind res_bind]. rewrite after_after.
  assert (length (np_text p) = (if np_neg p then 2 else 1) + length (np_prefix p) + length (np_digits p))%nat as Hlen.
  { unfold np_text, np_prefix. rewrite !length_app. by destruct (np_neg p). }
  replace (length pre + (if np_neg p then 2 else 1) + length (np_prefix p) + length (np_digits p))%nat
    with (length pre + length (np_text p))%nat by lia.
  rewrite (str_slice_ok src pre (np_text p) r Hsrc); [|apply ascii_utf8; [by eapply number_ascii|done]|done].
  cbn [mbind res_bind]. rewrite (np_body_eval p r H). cbn [mbind res_bind]. unfold number_result.
  assert (after lx1 (np_prefix p ++ np_digits p) r = after lx tl r) as ->.
  { unfold lx1. unfold np_text in Et. fold (np_prefix p) in Et. destruct (np_neg p); [|by injection Et as _ <-].
    rewrite after_after. cbn in Et. by injection Et as _ <-. }
  destruct (u64_from_str_radix _ _) as [[]|]; try done. by destruct (negb (np_neg p) && _).
Qed.

(** String literals. *)
Lemma is_char_eq c ch : is_char c ch = true -> exists b, ch = [b] /\ u8 b = c.
Proof. unfold is_char, ascii_char. destruct ch as [|b [|? ?]]; [done| |done]. intros H. exists b. split; [done|lia]. Qed.

Lemma is_char_byte c ch : is_char c ch = true -> ch = [byte_of c].
Proof. intros (b & -> & <-)%is_char_eq. by rewrite byte_of_u8. Qed.

Lemma is_char_single c b : is_char c [b] = (c =? u8 b).
Proof. done. Qed.

Lemma read_hex_eval ln cl el ec lx c1 c2 n c r : valid_char c1 -> valid_char c2 -> l_rest lx = c1 ++ c2 ++ r ->
  parse_unsigned 16 32 (c1 ++ c2) = Some n -> char_from_u32 n = Some c ->
  read_hex_escape ln cl el ec lx = Ok (c, after lx (c1 ++ c2) r).
Proof.
  intros H1 H2 E Hn Hc. unfold read_hex_escape. rewrite (bump_valid lx c1 _ H1 E), (bump_valid _ c2 r H2) by done.
  by rewrite Hn, Hc, after_after.
Qed.

Lemma read_escape_eval ln cl w v lx r : str_char (byte_of 92 :: w) v -> l_rest lx = w ++ r ->
  read_escape ln cl lx = Ok (v, after lx w r).
Proof.
  intros H E. inversion H as [ch Hv H34 H92|e v' Hin|c1 c2 n c H1 H2 Hn Hc]; subst.
  - destruct w; [done|]. by destruct Hv as (_ & ? & _).
  - unfold read_escape. unfold named_escapes in Hin.
    repeat (apply elem_of_cons in Hin as [[= -> ->]|Hin]; [match type of E with l_rest _ = [?b] ++ _ => rewrite (bump_ascii lx b r) by done end; reflexivity|]).
    by apply elem_of_nil in Hin.
  - unfold read_escape. cbn [app] in *. rewrite <- (assoc_L (++)) in E.
    rewrite (bump_ascii lx (byte_of 120) (c1 ++ c2 ++ r)) by done.
    change (is_char 34 [byte_of 120]) with false. change (is_char 92 [byte_of 120]) with false.
    change (is_char 110 [byte_of 120]) with false. change (is_char 116 [byte_of 120]) with false.
    change (is_char 114 [byte_of 120]) with false. change (is_char 48 [byte_of 120]) with false.
    change (is_char 120 [byte_of 120]) with true. cbv iota.
    rewrite (read_hex_eval _ _ _ _ _ c1 c2 n v r) by done. by rewrite after_after.
Qed.

Lemma str_char_start w v : str_char w v -> exists ch t, w = ch ++ t /\ valid_char ch /\ is_char 34 ch = false /\
  (if is_char 92 ch then ch = [byte_of 92] else t = [] /\ v = ch).
Proof.
  intros [ch Hv H34 H92|e v' Hin|c1 c2 n c H1 H2 Hn Hc].
  - exists ch, []. by rewrite H92, app_nil_r.
  - exists [byte_of 92], [byte_of e]. split_and!; [done|by apply valid_ascii|done|done].
  - exists [byte_of 92], ([byte_of 120] ++ c1 ++ c2). split_and!; [done|by apply valid_ascii|done|done].
Qed.

Lemma read_string_eval ln cl w v : str_body w v -> forall fuel text lx r, (length w < fuel)%nat ->
  l_rest lx = w ++ [byte_of 34] ++ r ->
  read_string_from fuel ln cl text lx = Ok (TString (text ++ v), after lx (w ++ [byte_of 34]) r).
Proof.
  induction 1 as [|w v ws vs Hw _ IH]; intros fuel text lx r Hf E.
  - destruct fuel as [|fuel]; [lia|]. cbn [read_string_from]. rewrite (bump_ascii lx (byte_of 34) r) by done.
    change (is_char 34 [byte_of 34]) with true. by rewrite app_nil_r.
  - destruct fuel as [|fuel]; [lia|]. rewrite length_app in Hf.
    destruct (str_char_start w v Hw) as (ch & t & -> & Hch & H34 & H). cbn [read_string_from].
    rewrite <- !(assoc_L (++)) in E. rewrite (bump_valid lx ch _ Hch E), H34.
    assert (0 < length ch)%nat by (destruct ch; [done|cbn; lia]). rewrite length_app in Hf.
    destruct (is_char 92 ch) eqn:E92.
    + subst ch. rewrite (read_escape_eval ln cl t v _ (ws ++ [byte_of 34] ++ r) Hw) by done. cbn [mbind res_bind].
      rewrite IH with (r := r) by (done || lia). by rewrite !after_after, <- !(assoc_L (++)).
    + destruct H as [-> ->]. rewrite IH with (r := r) by (done || lia). rewrite app_nil_r. by rewrite !after_after, <- !(assoc_L (++)).
Qed.

Lemma bump_wp lx : utf8 (l_rest lx) ->
  match bump lx with
  | None => l_rest lx = []
  | Some (pos, ch, lx') => exists s, l_rest lx = ch ++ s /\ valid_char ch /\ utf8 s /\ pos = l_pos lx /\ lx' = after lx ch s
  end.
Proof.
  intros Hu. apply utf8_inv in Hu as [E|(ch & s & E & Hc & Hs)]; [by rewrite bump_end|].
  rewrite (bump_valid lx ch s Hc E). by exists s.
Qed.



Lemma read_escape_wp ln cl lx : utf8 (l_rest lx) ->
  wp (read_escape ln cl lx) (fun x => exists w s, l_rest lx = w ++ s /\ utf8 s /\ x.2 = after lx w s /\
    str_char (byte_of 92 :: w) x.1).
Proof.
  intros Hu. unfold read_escape. pose proof (bump_wp lx Hu) as Hb. destruct (bump lx) as [[[pos esc] lx1]|]; [|done].
  destruct Hb as (s & E & Hc & Hs & _ & ->).
  assert (forall e v, (e, v) ∈ named_escapes -> is_char e esc = true ->
    exists w s0, l_rest lx = w ++ s0 /\ utf8 s0 /\ after lx esc s = after lx w s0 /\ str_char (byte_of 92 :: w) [byte_of v]) as Hn.
  { intros e v Hin He. apply is_char_eq in He as (b & -> & He). exists [b], s. split_and!; [done|done|done|].
    rewrite <- (byte_of_u8 b), He. by apply SC_named. }
  destruct (is_char 34 esc) eqn:E1; [by apply (Hn 34); [unfold named_escapes; set_solver|]|].
  destruct (is_char 92 esc) eqn:E2; [by apply (Hn 92); [unfold named_escapes; set_solver|]|].
  destruct (is_char 110 esc) eqn:E3; [by apply (Hn 110); [unfold named_escapes; set_solver|]|].
  destruct (is_char 116 esc) eqn:E4; [by apply (Hn 116); [unfold named_escapes; set_solver|]|].
  destruct (is_char 114 esc) eqn:E5; [by apply (Hn 114); [unfold named_escapes; set_solver|]|].
  destruct (is_char 48 esc) eqn:E6; [by apply (Hn 48); [unfold named_escapes; set_solver|]|].
  destruct (is_char 120 esc) eqn:E7; [|done]. apply is_char_eq in E7 as (b & -> & E7).
  unfold read_hex_escape. pose proof (bump_wp (after lx [b] s) Hs) as Hb. destruct (bump _) as [[[pos1 c1] lx1]|]; [|done].
  destruct Hb as (s1 & E1' & Hc1 & Hs1 & _ & ->).
  pose proof (bump_wp (after (after lx [b] s) c1 s1) Hs1) as Hb. destruct (bump _) as [[[pos2 c2] lx1]|]; [|done].
  destruct Hb as (s2 & E2' & Hc2 & Hs2 & _ & ->). cbn in E1', E2'. subst s s1.
  destruct (parse_unsigned _ _ _) as [n|] eqn:En; [|done].
  destruct (char_from_u32 n) as [c|] eqn:Ec; [|done].
  exists ([b] ++ c1 ++ c2), s2. cbn [fst snd]. rewrite !after_after. split_and!; [by rewrite E, <- !(assoc_L (++))|done| |].
  - done.
  - rewrite <- (byte_of_u8 b), E7. by eapply (SC_hex c1 c2).
Qed.

Lemma read_string_wp ln cl fuel text lx : utf8 (l_rest lx) -> (length (l_rest lx) <= fuel)%nat ->
  wp (read_string_from fuel ln cl text lx) (fun x => exists w v s, l_rest lx = (w ++ [byte_of 34]) ++ s /\ utf8 s /\
    str_body w v /\ x = (TString (text ++ v), after lx (w ++ [byte_of 34]) s)).
Proof.
  revert text lx. induction fuel as [|fuel IH]; intros text lx Hu Hf.
  - destruct (l_rest lx) eqn:E; [|cbn in Hf; lia]. cbn [read_string_from]. by rewrite bump_end.
  - cbn [read_string_from]. pose proof (bump_wp lx Hu) as Hb. destruct (bump lx) as [[[pos ch] lx1]|]; [|done].
    destruct Hb as (s & E & Hc & Hs & _ & ->).
    assert (length (l_rest lx) = length ch + length s)%nat as Hl by (by rewrite E, length_app).
    assert (0 < length ch)%nat by (destruct ch; [done|cbn; lia]).
    destruct (is_char 34 ch) eqn:E34.
    { apply is_char_byte in E34 as ->. exists [], [], s. rewrite app_nil_r.
      split_and!; [done|done|constructor|done]. }
    destruct (is_char 92 ch) eqn:E92.
    + apply is_char_byte in E92 as ->. apply wp_bind.
      eapply wp_mono; [by apply (read_escape_wp ln cl (after lx _ s))|]. cbn [l_rest after]. intros [c lx1] (w & s1 & Es & Hs1 & H2 & Hw).
      cbn [fst snd] in *. subst lx1 s. rewrite after_after.
      eapply wp_mono; [apply IH; [done|cbn; rewrite length_app in Hl; cbn in Hl; lia]|]. cbn [l_rest after].
      intros x (w' & v' & s' & -> & Hs' & Hb' & ->). exists (([byte_of 92] ++ w) ++ w'), (c ++ v'), s'.
      rewrite after_after, E. rewrite <- ?(assoc_L (++)). split_and!; [done|done| |done].
      rewrite (assoc_L (++)). by constructor.
    + eapply wp_mono; [apply IH; [done|cbn; lia]|]. cbn [l_rest after].
      intros x (w' & v' & s' & -> & Hs' & Hb' & ->). exists (ch ++ w'), (ch ++ v'), s'.
      rewrite after_after, E. rewrite <- ?(assoc_L (++)). split_and!; [done|done| |done].
      constructor; [by constructor|done].
Qed.

(** Look-ahead. *)
Lemma peeks_false p lx : peeks p lx = false <-> stops p (l_rest lx).
Proof. unfold peeks, peek_char, stops. by destruct (next_char (l_rest lx)) as [[c t]|]. Qed.

Lemma peeks_true p lx : utf8 (l_rest lx) -> peeks p lx = true ->
  exists ch s, l_rest lx = ch ++ s /\ valid_char ch /\ utf8 s /\ p ch = true.
Proof.
  intros Hu. apply utf8_inv in Hu as [E|(ch & s & E & Hc & Hs)]; unfold peeks, peek_char; rewrite E; [done|].
  rewrite (next_char_valid ch s Hc). cbn. eauto 10.
Qed.

Lemma digit_char1 ch : is_ascii_digit ch = true -> exists d, ch = [d] /\ is_digit10 (u8 d) = true.
Proof. unfold is_ascii_digit, ascii_char. destruct ch as [|d [|? ?]]; [done| |done]. eauto. Qed.

Lemma ident_char1 ch : is_ident_start ch = true -> exists d, ch = [d] /\ is_ident_start [d] = true /\ u8 d < 128.
Proof.
  destruct ch as [|d [|? ?]]; [done| |done]. intros H. exists d. split_and!; [done|done|].
  unfold is_ident_start, ascii_char, is_alpha in H. lia.
Qed.

(** The longest number a digit starts. *)
Lemma number_split (neg : bool) d s : is_digit10 (u8 d) = true -> utf8 s -> exists hex ds r,
  s = match hex with Some x => [x] | None => [] end ++ ds ++ r /\ utf8 r /\
  number_ok {| np_neg := neg; np_first := d; np_hex := hex; np_digits := ds |} r.
Proof.
  intros Hd Hu. destruct (decide (u8 d = 48 /\ ~ stops is_x s)) as [[H0 Hx]|Hx].
  - apply utf8_inv in Hu as [->|(ch & t & -> & Hc & Ht)]; [by destruct Hx|].
    assert (exists x, ch = [x] /\ is_x [x] = true) as (x & -> & Hx').
    { unfold stops in Hx. rewrite (next_char_valid ch t Hc) in Hx. destruct (is_x ch) eqn:E; [|done].
      unfold is_x, is_char, ascii_char in E. destruct ch as [|x [|? ?]]; [done| |done]. eauto. }
    destruct (Chars_split (digit_of 16) t Ht) as (ds & r & -> & Hds & Hr & Hur).
    exists (Some x), ds, r. split_and!; [done|done|]. split; cbn; [done|by intros ? [= <-]|done|done|done].
  - destruct (Chars_split (digit_of 10) s Hu) as (ds & r & -> & Hds & Hr & Hur).
    exists None, ds, r. split_and!; [done|done|]. split; cbn; [done|done| |done|done].
    intros _ H0. unfold stops in *. destruct (next_char _) as [[c t]|]; [|done].
    destruct (is_x c); [|done]. exfalso. by apply Hx.
Qed.

Lemma read_number_wp src pre (neg : bool) d s lx ln cl : is_digit10 (u8 d) = true -> utf8 s ->
  src = pre ++ (if neg then [byte_of 45] else []) ++ d :: s -> l_rest lx = (if neg then [d] else []) ++ s ->
  wp (read_number src (length pre) ln cl lx) (fun x => exists tl r,
    l_rest lx = tl ++ r /\ utf8 r /\ x.2 = after lx tl r /\ lexeme ((if neg then [byte_of 45] else [d]) ++ tl) x.1 r).
Proof.
  intros Hd Hu Hsrc E. destruct (number_split neg d s Hd Hu) as (hex & ds & r & -> & Hr & Hok).
  set (p := {| np_neg := neg; np_first := d; np_hex := hex; np_digits := ds |}) in *.
  set (tl := (if neg then [d] else []) ++ np_prefix p ++ ds).
  assert (np_text p = (if neg then byte_of 45 else d) :: tl) as Et by (unfold tl, np_text; by destruct neg).
  assert (l_rest lx = tl ++ r) as E' by (rewrite E; unfold tl; by rewrite <- !(assoc_L (++))).
  rewrite (read_number_eval src pre p _ tl r lx ln cl Et); [| |done|done|done].
  - destruct (number_result _ _ _ _) as [e|k] eqn:En; [done|]. exists tl, r. split_and!; [done|done|done|]. cbn [fst].
    replace ((if neg then [byte_of 45] else [d]) ++ tl) with (np_text p) by (rewrite Et; by destruct neg). by apply L_number.
  - rewrite Hsrc. unfold np_text, np_prefix. cbn. destruct neg; cbn; by rewrite <- !(assoc_L (++)).
Qed.

Lemma punct_ascii b k : punct b = Some k -> b < 128.
Proof. unfold punct. intros H. repeat case_match; simplify_eq; lia. Qed.

Lemma read_kind_wp src pre ch lx ln cl : valid_char ch -> utf8 (l_rest lx) -> src = pre ++ ch ++ l_rest lx ->
  wp (read_kind src (length pre) ln cl ch lx) (fun x => exists tl r,
    l_rest lx = tl ++ r /\ utf8 r /\ x.2 = after lx tl r /\ lexeme (ch ++ tl) x.1 r).
Proof.
  intros Hc Hu Hsrc. unfold read_kind.
  assert (forall k, lexeme ch k (l_rest lx) -> wp (Ok (k, lx) : res LexError (TokenKind * Lexer)) (fun x => exists tl r,
    l_rest lx = tl ++ r /\ utf8 r /\ x.2 = after lx tl r /\ lexeme (ch ++ tl) x.1 r)) as Hnil.
  { intros k Hk. exists [], (l_rest lx). cbn [fst snd]. rewrite app_nil_r, after_nil by done. done. }
  destruct (match ch with [b] => punct (u8 b) | _ => None end) as [k|] eqn:Ep.
  { destruct ch as [|b [|? ?]]; try done. by apply Hnil, L_punct. }
  destruct (is_char 45 ch && peeks (is_char 62) lx) eqn:E1.
  { apply andb_prop in E1 as [->%is_char_byte Hp]. apply peeks_true in Hp as (c & s & E & Hcc & Hs & ->%is_char_byte); [|done].
    exists [byte_of 62], s. unfold bumped. rewrite (bump_valid lx _ s Hcc E). split_and!; [done|done|done|apply L_arrow]. }
  destruct (is_char 47 ch && peeks (is_char 47) lx) eqn:E2.
  { apply andb_prop in E2 as [->%is_char_byte Hp]. apply peeks_true in Hp as (c & s & E & Hcc & Hs & ->%is_char_byte); [|done].
    unfold bumped. rewrite (bump_valid lx _ s Hcc E). unfold read_line_comment.
    destruct (Chars_split (fun c => negb (is_char 10 c)) s Hs) as (w & r & -> & Hw & Hr & Hur).
    rewrite (bump_while_fuel _ w _ r) by done. exists ([byte_of 47] ++ w), r. cbn [fst snd]. rewrite after_after, E.
    split_and!; [done|done|done|by apply L_comment]. }
  destruct (is_char 47 ch) eqn:E3.
  { apply Hnil. apply is_char_byte in E3 as ->. apply L_slash, peeks_false. by destruct (peeks _ _). }
  destruct (is_char 34 ch) eqn:E4.
  { apply is_char_byte in E4 as ->. eapply wp_mono; [by apply read_string_wp|].
    intros x (w & v & s & E & Hs & Hb & ->). exists (w ++ [byte_of 34]), s. split_and!; [done|done|done|by apply L_string]. }
  destruct (is_char 45 ch && peeks is_ascii_digit lx) eqn:E5.
  { apply andb_prop in E5 as [->%is_char_byte Hp]. apply peeks_true in Hp as (c & s & E & Hcc & Hs & (d & -> & Hd)%digit_char1); [|done].
    apply (read_number_wp src pre true d s lx); [done|done|by rewrite Hsrc, E|done]. }
  destruct (is_char 45 ch) eqn:E6.
  { apply Hnil. apply is_char_byte in E6 as ->. apply L_minus; apply peeks_false; [by destruct (peeks (is_char 62) lx)|by destruct (peeks is_ascii_digit lx)]. }
  destruct (is_ascii_digit ch) eqn:E7.
  { apply digit_char1 in E7 as (d & -> & Hd). apply (read_number_wp src pre false d (l_rest lx) lx); [done|done|by rewrite Hsrc|done]. }
  destruct (is_ident_start ch) eqn:E8; [|done]. apply ident_char1 in E8 as (d & -> & Hd & Ha).
  destruct (Chars_split is_ident_continue _ Hu) as (w & r & E & Hw & Hr & Hur).
  rewrite (read_ident_eval src pre d w r lx); [|by rewrite Hsrc, E|done|done|by rewrite <- E|done|done].
  exists w, r. split_and!; [done|done|done|by apply L_ident].
Qed.

(** A lexeme starts with an ASCII character that is no white space. *)
Lemma lexeme_head w k r : lexeme w k r -> exists b tl, w = b :: tl /\ graphic b = true.
Proof.
  unfold graphic. intros [b k' r' H| | | | | |p k' r' H _|b w' r' H _ _].
  2-6: do 2 eexists; (split; [reflexivity|done]).
  - exists b, []. split; [done|]. unfold punct in H. repeat case_match; simplify_eq; lia.
  - pose proof (no_first _ _ H) as Hf. unfold is_digit10 in Hf. unfold np_text.
    destruct (np_neg p); do 2 eexists; (split; [reflexivity|]); [done|lia].
  - exists b, w'. split; [done|]. unfold is_ident_start, ascii_char, is_alpha in H. lia.
Qed.

Lemma peeks_head p lx c s : u8 c < 128 -> l_rest lx = c :: s -> peeks p lx = p [c].
Proof. intros Hc E. unfold peeks, peek_char. by rewrite E, next_char_ascii. Qed.

Lemma peeks_stops p lx : stops p (l_rest lx) -> peeks p lx = false.
Proof. apply peeks_false. Qed.

(** A letter or digit is no punctuation. *)
Lemma word_first b : is_ident_start [b] = true \/ is_digit10 (u8 b) = true ->
  punct (u8 b) = None /\ is_char 45 [b] = false /\ is_char 47 [b] = false /\ is_char 34 [b] = false.
Proof.
  intros H. assert ((u8 b = 95 \/ 65 <= u8 b <= 90 \/ 97 <= u8 b <= 122) \/ 48 <= u8 b <= 57) as Hb.
  { unfold is_ident_start, ascii_char, is_alpha, is_digit10 in H. lia. }
  unfold is_char, ascii_char, punct. split_and!; [|lia|lia|lia]. repeat (case_match; [lia|]). done.
Qed.

Lemma read_kind_number src pre p b tl k r lx ln cl : np_text p = b :: tl -> number_ok p r ->
  number_result (np_neg p) (np_radix p) (np_body p) (np_text p) = inr k ->
  src = pre ++ np_text p ++ r -> l_rest lx = tl ++ r -> utf8 r ->
  read_kind src (length pre) ln cl [b] lx = Ok (k, after lx tl r).
Proof.
  intros Et Hok Hnum Hsrc E Hr. unfold read_kind.
  pose proof (read_number_eval src pre p b tl r lx ln cl Et Hsrc Hok E Hr) as He. rewrite Hnum in He.
  pose proof (no_first _ _ Hok) as Hf. unfold np_text in Et. destruct (np_neg p) eqn:En.
  - cbn [app] in Et. injection Et as <- <-. change (punct (u8 (byte_of 45))) with (@None TokenKind). cbv iota.
    cbn [app] in E. rewrite !(peeks_head _ lx _ _ (digit10_ascii _ Hf) E).
    change (is_char 45 [byte_of 45]) with true. change (is_char 47 [byte_of 45]) with false.
    change (is_char 34 [byte_of 45]) with false. rewrite is_char_single. cbn [andb].
    replace (62 =? u8 (np_first p)) with false by (unfold is_digit10 in Hf; lia).
    unfold is_ascii_digit, ascii_char. by rewrite Hf.
  - cbn [app] in Et. injection Et as <- <-. destruct (word_first _ (or_intror Hf)) as (-> & -> & -> & ->). cbn [andb].
    unfold is_ascii_digit at 1, ascii_char. by rewrite Hf.
Qed.

Lemma read_kind_eval src pre b tl k r lx ln cl : lexeme (b :: tl) k r -> src = pre ++ (b :: tl) ++ r -> l_rest lx = tl ++ r ->
  utf8 (tl ++ r) -> utf8 r -> read_kind src (length pre) ln cl [b] lx = Ok (k, after lx tl r).
Proof.
  intros H Hsrc E Hu Hr.
  remember (b :: tl) as w eqn:Ew. destruct H as [b' k r Hp|r|w r Hw Hst|r Hs|r Hs1 Hs2|w v r Hb|p k r Hok Hnum|b' w r Hb Hw Hst].
  - injection Ew as -> <-. unfold read_kind. rewrite Hp. by rewrite after_nil.
  - injection Ew as <- <-. unfold read_kind. change (punct (u8 (byte_of 45))) with (@None TokenKind). cbv iota.
    rewrite (peeks_head _ lx (byte_of 62) r) by done. change (is_char 45 [byte_of 45] && is_char 62 [byte_of 62]) with true.
    unfold bumped. by rewrite (bump_ascii lx (byte_of 62) r).
  - injection Ew as <- <-. unfold read_kind. change (punct (u8 (byte_of 47))) with (@None TokenKind). cbv iota.
    change (is_char 45 [byte_of 47]) with false. cbn [andb app] in *.
    rewrite (peeks_head _ lx (byte_of 47) (w ++ r)) by done. change (is_char 47 [byte_of 47] && is_char 47 [byte_of 47]) with true.
    unfold bumped. rewrite (bump_ascii lx (byte_of 47) (w ++ r)) by done. unfold read_line_comment.
    rewrite (bump_while_fuel _ w _ r) by done. cbn [mbind res_bind]. by rewrite after_after.
  - injection Ew as <- <-. unfold read_kind. change (punct (u8 (byte_of 47))) with (@None TokenKind). cbv iota.
    change (is_char 45 [byte_of 47]) with false. cbn [andb app] in *. rewrite peeks_stops by (by rewrite E).
    rewrite andb_false_r. change (is_char 47 [byte_of 47]) with true. by rewrite after_nil.
  - injection Ew as <- <-. unfold read_kind. change (punct (u8 (byte_of 45))) with (@None TokenKind). cbv iota.
    cbn [app] in E. rewrite (peeks_stops (is_char 62)), (peeks_stops is_ascii_digit) by (by rewrite E). rewrite !andb_false_r.
    change (is_char 47 [byte_of 45]) with false. change (is_char 34 [byte_of 45]) with false. cbn [andb].
    change (is_char 45 [byte_of 45]) with true. by rewrite after_nil.
  - injection Ew as <- <-. unfold read_kind. change (punct (u8 (byte_of 34))) with (@None TokenKind). cbv iota.
    change (is_char 45 [byte_of 34]) with false. change (is_char 47 [byte_of 34]) with false. cbn [andb app] in *.
    change (is_char 34 [byte_of 34]) with true. cbv iota. unfold read_string.
    rewrite <- (assoc_L (++)) in E. rewrite (read_string_eval ln cl w v Hb _ [] lx r); [done| |done].
    unfold loop_fuel. rewrite E, !length_app. cbn. lia.
  - rewrite Ew in Hsrc. rewrite <- Ew in Hsrc. by eapply read_kind_number.
  - injection Ew as -> ->. unfold read_kind. destruct (word_first _ (or_introl Hb)) as (-> & -> & -> & ->). cbn [andb].
    assert (is_ascii_digit [b] = false) as ->.
    { unfold is_ident_start, is_ascii_digit, ascii_char, is_alpha, is_digit10 in *. lia. }
    rewrite Hb. apply read_ident_eval; [done| |done|done|done|done].
    unfold is_ident_start, ascii_char, is_alpha in Hb. lia.
Qed.

(** * The token sequence *)

Lemma graphic_char b : graphic b = true -> u8 b < 128 /\ is_whitespace [b] = false.
Proof. intros H. unfold is_whitespace. rewrite ws_len_graphic by done. unfold graphic in H. split; [lia|done]. Qed.

Lemma stops_graphic b s : graphic b = true -> stops is_whitespace (b :: s).
Proof. intros [Hb Hw]%graphic_char. unfold stops. by rewrite next_char_ascii. Qed.

Definition token_at (k : TokenKind) (lx : Lexer) (n : nat) : Token :=
  {| kind := k; line := l_line lx; col := l_col lx; tstart := l_pos lx; tend := (l_pos lx + n)%nat |}.

Lemma lexes_in_split src lx : lexes_in src lx -> exists pre, src = pre ++ l_rest lx /\ length pre = l_pos lx.
Proof.
  intros [H1 H2 _]. exists (take (l_pos lx) src). rewrite H1, take_drop. split; [done|]. rewrite length_take. lia.
Qed.

Lemma current_byte_pos_after src lx w r : lexes_in src lx -> l_rest lx = w ++ r ->
  current_byte_pos src (after lx w r) = (l_pos lx + length w)%nat.
Proof.
  intros Hin E. unfold current_byte_pos. cbn. destruct r; [|done].
  destruct (lexes_in_split src lx Hin) as (pre & -> & <-). by rewrite E, app_nil_r, length_app.
Qed.

Lemma str_body_utf8 w v : str_body w v -> utf8 w.
Proof.
  induction 1 as [|w v ws vs Hw _ IH]; [constructor|]. apply Chars_app; [|done].
  assert (forall ch, valid_char ch -> utf8 ch) as Hone.
  { intros ch Hc. rewrite <- (app_nil_r ch). constructor; [done|done|constructor]. }
  destruct Hw as [ch Hv _ _|e v' Hin|c1 c2 n c H1 H2 _ _].
  - by apply Hone.
  - unfold named_escapes in Hin.
    repeat (apply elem_of_cons in Hin as [[= -> ->]|Hin]; [by apply Chars_ascii; repeat constructor|]). by apply elem_of_nil in Hin.
  - apply Chars_app; [by apply Chars_ascii; repeat constructor|]. apply Chars_app; by apply Hone.
Qed.

Lemma lexeme_utf8 w k r : lexeme w k r -> utf8 w.
Proof.
  intros [b k' r' H|r'|w' r' Hw _|r' _|r' _ _|w' v r' Hb|p k' r' H _|b w' r' Hb Hw _].
  - apply Chars_ascii. repeat constructor. by eapply punct_ascii.
  - by apply Chars_ascii; repeat constructor.
  - apply Chars_app; [by apply Chars_ascii; repeat constructor|by eapply Chars_utf8].
  - by apply Chars_ascii; repeat constructor.
  - by apply Chars_ascii; repeat constructor.
  - apply Chars_app; [by apply Chars_ascii; repeat constructor|]. apply Chars_app; [by eapply str_body_utf8|].
    by apply Chars_ascii; repeat constructor.
  - rewrite <- (app_nil_r (np_text p)). apply ascii_utf8; [by eapply number_ascii|constructor].
  - apply utf8_ascii_app; [|by eapply Chars_utf8]. unfold is_ident_start, ascii_char, is_alpha in Hb. lia.
Qed.

Lemma next_token_eval src lx ws w k r : lexes_in src lx -> l_rest lx = ws ++ w ++ r -> Chars is_whitespace ws ->
  lexeme w k r -> next_token src lx = Ok (token_at k (after lx ws (w ++ r)) (length w), after lx (ws ++ w) r).
Proof.
  intros Hin E Hws Hk. destruct (lexeme_head w k r Hk) as (b & tl & -> & Hb). pose proof (graphic_char b Hb) as [Hb' _].
  assert (utf8 ((b :: tl) ++ r)) as Hu by (eapply (Chars_drop _ ws); [done|]; rewrite <- E; apply Hin).
  assert (utf8 r) as Hr by (eapply (Chars_drop _ (b :: tl)); [by eapply lexeme_utf8|done]).
  assert (lexes_in src (after lx ws ((b :: tl) ++ r))) as Hin1 by (by apply lexes_in_after).
  assert (utf8 (tl ++ r)) as Hu' by (by eapply utf8_ascii_tail).
  destruct (lexes_in_split _ _ Hin1) as (pre & Hsrc & Hpre). cbn [l_rest l_pos after] in Hsrc, Hpre.
  unfold next_token, skip_whitespace. rewrite (bump_while_fuel _ ws lx _ Hws E) by (by apply stops_graphic).
  cbn [mbind res_bind]. rewrite (bump_ascii _ b (tl ++ r)) by done. cbn [l_pos after]. rewrite <- Hpre.
  rewrite (read_kind_eval src pre b tl k r _ _ _ Hk Hsrc) by done. cbn [mbind res_bind].
  rewrite !after_after. f_equal. rewrite (current_byte_pos_after src lx (ws ++ [b] ++ tl) r); [|done|by rewrite E, <- !(assoc_L (++))].
  f_equal. unfold token_at. cbn [after l_pos l_line l_col]. rewrite Hpre, !length_app. cbn. f_equal. lia.
Qed.

Lemma next_token_eof src lx ws : lexes_in src lx -> l_rest lx = ws -> Chars is_whitespace ws ->
  next_token src lx = Ok (token_at Eof (after lx ws []) 0, after lx ws []).
Proof.
  intros Hin E Hws. unfold next_token, skip_whitespace. rewrite (bump_while_fuel _ ws lx [] Hws) by (done || by rewrite app_nil_r).
  cbn [mbind res_bind]. rewrite bump_end by done. unfold token_at. cbn. do 3 f_equal;
    destruct (lexes_in_split _ _ Hin) as (pre & -> & <-); rewrite E, length_app; lia.
Qed.

Lemma next_token_wp src lx : lexes_in src lx ->
  wp (next_token src lx) (fun x => exists ws w r, l_rest lx = ws ++ w ++ r /\ Chars is_whitespace ws /\
    x = (token_at (kind x.1) (after lx ws (w ++ r)) (length w), after lx (ws ++ w) r) /\
    ((kind x.1 = Eof /\ w = [] /\ r = []) \/ lexeme w (kind x.1) r)).
Proof.
  intros Hin. destruct (Chars_split is_whitespace _ (li_utf8 _ _ Hin)) as (ws & s & E & Hws & Hs & Hu).
  pose proof (lexes_in_after src lx ws s Hin E Hu) as Hin1. destruct (lexes_in_split _ _ Hin1) as (pre & Hsrc & Hpre).
  unfold next_token, skip_whitespace. rewrite (bump_while_fuel _ ws lx s Hws E Hs). cbn [mbind res_bind].
  pose proof (bump_wp (after lx ws s) Hu) as Hb. destruct (bump _) as [[[pos ch] lx1]|]; cbn [l_rest after] in Hb.
  - destruct Hb as (s1 & -> & Hc & Hu1 & -> & ->). cbn [l_pos l_rest after] in *. rewrite <- Hpre.
    apply wp_bind. eapply wp_mono; [by apply (read_kind_wp src pre ch)|]. intros [k lx2] (tl & r & E1 & Hr & E2 & Hk).
    cbn [fst snd l_rest after] in *. subst s1 lx2. exists ws, (ch ++ tl), r. cbn [wp kind fst]. rewrite !after_after.
    split_and!; [by rewrite E, <- (assoc_L (++))|done| |by right]. f_equal.
    rewrite (current_byte_pos_after src lx _ r Hin) by (by rewrite E, <- !(assoc_L (++))). unfold token_at. cbn [after l_pos l_line l_col].
    rewrite Hpre, !length_app. f_equal. lia.
  - subst s. exists ws, [], []. cbn [wp kind fst app]. rewrite app_nil_r. split_and!; [by rewrite E, !app_nil_r|done| |by left].
    unfold token_at. cbn. do 2 f_equal; destruct (lexes_in_split _ _ Hin) as (pre' & -> & <-); rewrite E, length_app, app_nil_r; lia.
Qed.

(** * The division of a text *)

Lemma lexeme_not_eof w k r : lexeme w k r -> k <> Eof.
Proof.
  intros [b k' r' H| | | | | |p k' r' _ H|]; try done.
  - intros ->. unfold punct in H. by repeat case_match.
  - intros ->. unfold number_result in H. by repeat case_match.
Qed.

(** Up to the first lexeme of a division. *)
Lemma divides_split ps rest : divides ps rest ->
  exists ws, Chars is_whitespace ws /\
    ((render ps = ws /\ (forall pos lc, place pos lc ps = place (pos + length ws) (advance lc ws) [])) \/
     (exists w k ps', render ps = ws ++ w ++ render ps' /\ lexeme w k (render ps' ++ rest) /\ divides ps' rest /\
        (length ps' < length ps)%nat /\
        forall pos lc, place pos lc ps = place (pos + length ws) (advance lc ws) (Tk w k :: ps'))).
Proof.
  induction ps as [|[w|w k] ps IH].
  - intros _. exists []. split; [constructor|]. left. split; [done|]. intros. by rewrite Nat.add_0_r.
  - intros [Hw Hps]. destruct (IH Hps) as (ws & Hws & H). exists (w ++ ws). split; [by apply Chars_app|].
    destruct H as [[E Hp]|(w' & k & ps' & E & Hk & Hd & Hl & Hp)].
    + left. split; [by rewrite <- E|]. intros. cbn [place]. rewrite Hp, length_app, Nat.add_assoc. unfold advance. by rewrite foldl_app.
    + right. exists w', k, ps'. split_and!; [|done|done|cbn; lia|].
      * change (render (Sp w :: ps)) with (w ++ render ps). by rewrite E, <- (assoc_L (++)).
      * intros. cbn [place] in *. rewrite Hp. rewrite length_app, Nat.add_assoc. unfold advance. by rewrite foldl_app.
  - intros [Hk Hps]. exists []. split; [constructor|]. right. exists w, k, ps. split_and!; [done|done|done|cbn; lia|].
    intros. by rewrite Nat.add_0_r.
Qed.

Lemma tokenize_from_complete src fuel : forall ps lx, divides ps [] -> lexes_in src lx -> l_rest lx = render ps ->
  (length (render ps) < fuel)%nat -> tokenize_from fuel src lx = Ok (place (l_pos lx) (l_line lx, l_col lx) ps).
Proof.
  induction fuel as [|fuel IH]; intros ps lx Hd Hin E Hf; [lia|]. cbn [tokenize_from].
  destruct (divides_split ps [] Hd) as (ws & Hws & [[E' Hp]|(w & k & ps' & E' & Hk & Hd' & _ & Hp)]).
  - rewrite (next_token_eof src lx ws Hin) by (done || by rewrite E). cbn [mbind res_bind]. rewrite decide_True by done.
    rewrite Hp. cbn [place]. unfold token_at. cbn. by rewrite Nat.add_0_r.
  - rewrite app_nil_r in Hk. rewrite E' in E, Hf. rewrite (next_token_eval src lx ws w k (render ps') Hin E Hws Hk). cbn [mbind res_bind].
    rewrite decide_False by (by eapply lexeme_not_eof).
    destruct (lexeme_head w k _ Hk) as (b & tl & Ew & _).
    rewrite (IH ps' (after lx (ws ++ w) (render ps'))); [|done| |done|].
    + cbn [mbind res_bind]. rewrite Hp. cbn [place]. unfold token_at. cbn [l_pos l_line l_col after].
      by rewrite length_app, Nat.add_assoc, <- surjective_pairing, advance_app.
    + apply lexes_in_after; [done|by rewrite E, <- (assoc_L (++))|]. apply (Chars_drop (fun _ => true) (ws ++ w)).
      * apply Chars_app; [by eapply Chars_utf8|by eapply lexeme_utf8].
      * rewrite <- (assoc_L (++)), <- E. apply Hin.
    + rewrite !length_app in Hf. rewrite Ew in Hf. cbn in Hf. lia.
Qed.

Lemma tokenize_from_sound src fuel : forall lx, lexes_in src lx -> (length (l_rest lx) < fuel)%nat ->
  wp (tokenize_from fuel src lx) (fun toks => exists ps, l_rest lx = render ps /\ divides ps [] /\
    toks = place (l_pos lx) (l_line lx, l_col lx) ps).
Proof.
  induction fuel as [|fuel IH]; intros lx Hin Hf; [lia|]. cbn [tokenize_from]. apply wp_bind.
  eapply wp_mono; [by apply next_token_wp|]. intros [tok lx1] (ws & w & r & E & Hws & Ex & H).
  cbn [fst snd] in *. destruct H as [(Hk & -> & ->)|Hk].
  - rewrite decide_True by done. injection Ex as -> _. rewrite Hk. rewrite !app_nil_r in *. exists [Sp ws]. cbn.
    rewrite app_nil_r. unfold token_at. cbn. rewrite Nat.add_0_r. by split_and!.
  - rewrite decide_False by (by eapply lexeme_not_eof). destruct (lexeme_head w _ _ Hk) as (b & tl & Ew & _).
    assert (utf8 r) as Hr.
    { apply (Chars_drop (fun _ => true) (ws ++ w)); [apply Chars_app; [by eapply Chars_utf8|by eapply lexeme_utf8]|].
      rewrite <- (assoc_L (++)), <- E. apply Hin. }
    assert (lx1 = after lx (ws ++ w) r) as -> by congruence.
    assert (tok = token_at (kind tok) (after lx ws (w ++ r)) (length w)) as Et by congruence. clear Ex.
    apply wp_bind. eapply wp_mono; [apply IH|].
    + apply lexes_in_after; [done|by rewrite E, <- (assoc_L (++))|done].
    + cbn. rewrite E, !length_app, Ew in Hf. cbn in Hf. lia.
    + cbn [l_rest l_pos l_line l_col after]. intros toks (ps & Er & Hd & ->). exists (Sp ws :: Tk w (kind tok) :: ps). split_and!.
      * rewrite E, Er. done.
      * cbn [divides]. rewrite app_nil_r, <- Er. done.
      * cbn [place]. rewrite Et at 1. unfold token_at. cbn [l_pos l_line l_col after].
        by rewrite length_app, Nat.add_assoc, <- surjective_pairing, advance_app.
Qed.

Lemma lexes_in_new src : utf8 src -> lexes_in src (lexer_new src).
Proof. intros Hu. split; cbn; [done|lia|done]. Qed.

(** Both directions, for a whole text. *)
Lemma tokenize_complete ps : utf8 (render ps) -> divides ps [] -> tokenize (render ps) = Ok (place 0 (1, 1)%nat ps).
Proof.
  intros Hu Hd. unfold tokenize.
  rewrite (tokenize_from_complete (render ps) _ ps (lexer_new (render ps)) Hd (lexes_in_new _ Hu)); [done|done|lia].
Qed.

Lemma tokenize_wp src : utf8 src ->
  wp (tokenize src) (fun toks => exists ps, render ps = src /\ divides ps [] /\ toks = place 0 (1, 1)%nat ps).
Proof.
  intros Hu. unfold tokenize. eapply wp_mono; [apply tokenize_from_sound; [by apply lexes_in_new|cbn; lia]|].
  intros toks (ps & E & Hd & ->). by exists ps.
Qed.

(** * The counters *)

(** The states of the iterator the lexer can pass: it changes it by [bump] only. *)
Inductive passes (src : list byte) : Lexer -> Prop :=
| passes_new : passes src (lexer_new src)
| passes_bump lx pos ch lx' : passes src lx -> bump lx = Some (pos, ch, lx') -> passes src lx'.

(** Every character uses up text, and moves one counter by one. *)
Definition counters_below (n : nat) (lx : Lexer) : Prop :=
  (1 <= l_line lx /\ 1 <= l_col lx /\ l_line lx + l_col lx + length (l_rest lx) <= n)%nat.

Lemma next_char_shorter s ch t : next_char s = Some (ch, t) -> (length t < length s)%nat.
Proof.
  unfold next_char. destruct s as [|b s]; [done|]. intros [= _ <-]. rewrite length_drop. unfold char_len.
  repeat case_match; cbn [length]; lia.
Qed.

Lemma passes_below src lx : passes src lx -> counters_below (length src + 2) lx.
Proof.
  induction 1 as [|lx pos ch lx' _ (H1 & H2 & H3) E]; [unfold counters_below; cbn; lia|]. unfold bump in E.
  destruct (next_char (l_rest lx)) as [[c t]|] eqn:En; [|discriminate E]. apply next_char_shorter in En. injection E as <- <- <-.
  unfold counters_below. cbn [l_line l_col l_rest]. destruct (is_char 10 c); lia.
Qed.

Lemma bump_u32_eq src lx : len src < 2 ^ 32 - 1 -> passes src lx -> bump_u32 lx = Ok (bump lx).
Proof.
  intros Hlen (H1 & H2 & H3)%passes_below. unfold bump_u32, bump, u32_succ. unfold len in Hlen.
  destruct (next_char (l_rest lx)) as [[c t]|] eqn:En; [|reflexivity]. apply next_char_shorter in En.
  cbn [mbind option_bind]. destruct (is_char 10 c).
  - replace (Z.of_nat (l_line lx) + 1 <? 2 ^ 32) with true by lia. reflexivity.
  - replace (Z.of_nat (l_col lx) + 1 <? 2 ^ 32) with true by lia. reflexivity.
Qed.

(** C37: on valid UTF-8 of fewer than 2^32 - 1 bytes the lexer does not panic and
    always ends, and it accepts exactly the texts the lexical grammar divides:
    its tokens are the lexemes of the division, in order, at their byte
    offsets, lines and columns, and an [Eof] at the end; and no [u32] counter
    of lines or columns overflows on the way (a longer text could: the bound
    is what the source needs). The grammar ([lexeme]) is the code's: of the
    escapes of C only six and [\x] are in it, and [\x] takes what
    [from_str_radix] reads, a plus sign and one digit included; both differ
    from the documentation. *)
Theorem lexer_accepts_divisions src : utf8_valid src = true -> len src < 2 ^ 32 - 1 ->
  tokenize src <> Panic /\
  (forall toks, tokenize src = Ok toks <->
     exists ps, render ps = src /\ divides ps [] /\ toks = place 0 (1, 1)%nat ps) /\
  (forall lx, passes src lx -> bump_u32 lx = Ok (bump lx)).
Proof.
  intros Hu Hlen. apply utf8_of_valid in Hu. pose proof (tokenize_wp src Hu) as H. split_and!; [by eapply wp_no_panic| |].
  - intros toks. split; [intros E; by rewrite E in H|]. intros (ps & <- & Hd & ->). by apply tokenize_complete.
  - intros lx. by apply bump_u32_eq.
Qed.

Lemma lexer_accepts_divisions_witness :
  exists ps, render ps = str "a1 = -0x1f // x" /\
    map kind (place 0 (1, 1)%nat ps) = [Ident (str "a1"); Eq; Int (2 ^ 64 - 31); Comment (str "x"); Eof].
Proof.
  destruct (lexer_accepts_divisions (str "a1 = -0x1f // x") eq_refl eq_refl) as (_ & H & _).
  destruct (tokenize (str "a1 = -0x1f // x")) as [toks|e|] eqn:E; [|by vm_compute in E|by vm_compute in E].
  destruct (proj1 (H toks) eq_refl) as (ps & Hps & _ & Et). exists ps. split; [done|]. rewrite <- Et.
  vm_compute in E. injection E as <-. reflexivity.
Defined.

(** Two escapes against the documentation: [a] behind a backslash is rejected,
    and [x+5] is the character 5. *)
Example escape_bell_rejected :
  tokenize (map byte_of [34; 92; 97; 34]) = Err (InvalidEscape (str "a") 1 3).
Proof. vm_compute. reflexivity. Qed.
Example escape_plus_digit :
  (toks ← tokenize (map byte_of [34; 92; 120; 43; 53; 34]); Ok (map kind toks)) = Ok [TString [byte_of 5]; Eof].
Proof. vm_compute. reflexivity. Qed.
