(* ===== verification/Ast.v ===== *)
(** The syntax tree of the source language (src/src/ast/types.rs). Strings are
    their bytes; an [u64], [u32], [u16] or [u8] is the number, an [i64] the
    signed number. *)

From S2P Require Import Prelude.

(** * Module header *)

Inductive Value : Type :=
| VString (s : list byte)
| VInt (n : Z)
| VList (items : list Value)
| VBlock (fields : list (list byte * Value)).

(** A field is its name and its value. *)
Definition Field : Type := list byte * Value.

(** * Attributes *)

Inductive AttrValue : Type :=
| AString (s : list byte)
| AInt (n : Z)
| AByteList (bytes : list byte)
| AFlag.

Record Attribute : Type := { key : list byte; avalue : AttrValue }.

(** * Signatures and locals *)

Inductive Ty : Type :=
| TVoid | TI8 | TI16 | TI32 | TI64 | TU8 | TU16 | TU32 | TU64 | TF32 | TF64 | TBool | TChar
| TPointer (inner : Ty)
| TUnknown.

Record Param : Type := { p_name : list byte; p_ty : Ty; location : option (list byte) }.
Record Signature : Type := { params : list Param; return_type : Ty }.

Inductive LocalKind : Type := LStack | LRegister.
Record LocalDecl : Type := { l_name : list byte; l_ty : Ty; l_kind : LocalKind }.

(** * Statements *)

Record PrologueParams : Type := {
  pp_saves : list (list byte);
  pp_saves_after : list (list byte);
  pp_frame : bool;
  pp_sub_esp : Z;
  pp_cf_protect : bool;
  pp_frame_alt : bool;
}.

Record EpilogueParams : Type := {
  ep_saves : list (list byte);
  ep_leave : bool;
  ep_pop_frame : bool;
  ep_add_esp : Z;
  ep_ret_imm : Z;
}.

Inductive Stmt : Type :=
| Asm (text bytes : list byte)
| StComment (text : list byte)
| Return (value : Z) (bytes : list byte)
| Prologue (kind : list byte) (params : option PrologueParams) (bytes : list byte)
| Epilogue (kind : list byte) (params : option EpilogueParams) (bytes : list byte)
| Save (reg bytes : list byte)
| RestoreReg (reg bytes : list byte)
| IfReturn (cond_text value_text : list byte) (target_addr : Z) (cmp_bytes : list byte) (cond_code : Z) (wide : bool)
| Label (addr : Z)
| Goto (target_addr : Z) (wide : bool)
| IfGoto (cond_text : list byte) (target_addr : Z) (cmp_bytes : list byte) (cond_code : Z) (wide : bool)
| Switch (selector : list byte) (cases : list Z) (default_addr : Z) (dispatch : list byte) (table_va : Z)
| SehInstall (bytes : list byte)
| SehRestore (bytes : list byte)
| ReturnExpr (text bytes : list byte)
| ArgSpill (arg_index : Z) (bytes : list byte)
| Call (name : list byte) (args : list (list byte)) (bytes : list byte) (direct_target : option Z)
| IfBranch (cond_text cond_bytes : list byte) (attrs : list Attribute) (pre_body then_body : list Stmt)
    (else_body : option (list Stmt))
| LocalSet (slot value : Z) (bytes : list byte)
| LocalArith (slot : Z) (op : list byte) (value : Z) (bytes : list byte)
| LocalCompound (dst : Z) (op : list byte) (src : Z) (bytes : list byte)
| Move (dst src bytes : list byte)
| Inc16 (lo hi bytes : list byte)
| Loop (cond_text : list byte) (entry_jmp_bytes : option (list byte)) (tail_bytes : list byte) (body : list Stmt)
| IfBlock (cond_text cond_bytes : list byte) (then_body : list Stmt) (then_tail_jmp : list byte) (else_body : list Stmt)
| WhileBlock (cond_text entry_bytes tail_bytes : list byte) (body : list Stmt)
| RegArith (dst op src bytes : list byte).

(** * Items *)

Record NoteEntry : Type := { note_type : Z; note_name : list byte; desc : list byte }.
Record JumpTableEntry : Type := { case : Z; target : Z }.

Record FnDecl : Type := {
  addr : option Z;
  fn_name : list byte;
  attrs : list Attribute;
  signature : option Signature;
  locals : list LocalDecl;
  body : list Stmt;
}.

Inductive Item : Type :=
| ItComment (text : list byte)
| Function (f : FnDecl)
| Raw (addr : Z) (bytes : list byte)
| Strings (addr : Z) (strings : list (list byte))
| Notes (addr : Z) (entries : list NoteEntry)
| Section_ (name : list byte) (addr : Z) (items : list Item)
| JumpTable (addr : Z) (dispatch : list byte) (entries : list JumpTableEntry).

(** [UdFile], and [Module] as its fields. *)
Record UdFile : Type := { module : list Field; items : list Item }.

(** [Stmt::asm] and [Stmt::asm_text]. *)
Definition asm (text bytes : list byte) : Stmt := Asm text bytes.
Definition asm_text (text : list byte) : Stmt := Asm text [].

(** * Induction through the nested lists *)

Section Value_rect.
Context (P : Value -> Prop).
Hypothesis HString : forall s, P (VString s).
Hypothesis HInt : forall n, P (VInt n).
Hypothesis HList : forall l, Forall P l -> P (VList l).
Hypothesis HBlock : forall l, Forall (fun f => P f.2) l -> P (VBlock l).

Fixpoint value_ind (v : Value) : P v :=
  match v with
  | VString s => HString s
  | VInt n => HInt n
  | VList l => HList l ((fix go l : Forall P l :=
      match l with [] => List.Forall_nil _ | v :: l => List.Forall_cons _ _ _ (value_ind v) (go l) end) l)
  | VBlock l => HBlock l ((fix go l : Forall (fun f : Field => P f.2) l :=
      match l with
      | [] => List.Forall_nil _
      | f :: l => List.Forall_cons _ _ _ (match f return P f.2 with (_, v) => value_ind v end) (go l)
      end) l)
  end.
End Value_rect.

Section Stmt_rect.
Context (P : Stmt -> Prop).

(** What holds of the statements directly inside one. *)
Definition inside (s : Stmt) : Prop :=
  match s with
  | IfBranch _ _ _ pre th el => Forall P pre /\ Forall P th /\ (forall l, el = Some l -> Forall P l)
  | Loop _ _ _ b | WhileBlock _ _ _ b => Forall P b
  | IfBlock _ _ th _ el => Forall P th /\ Forall P el
  | _ => True
  end.

Hypothesis H : forall s, inside s -> P s.

Fixpoint stmt_ind (s : Stmt) : P s :=
  let go := fix go l : Forall P l :=
    match l with [] => List.Forall_nil _ | s :: l => List.Forall_cons _ _ _ (stmt_ind s) (go l) end in
  H s (match s return inside s with
       | IfBranch _ _ _ pre th el =>
           conj (go pre) (conj (go th) (fun l E =>
             match el return el = Some l -> Forall P l with
             | Some l' => fun E => eq_ind l' (Forall P) (go l') l (f_equal (fun o => match o with Some x => x | None => l' end) E)
             | None => fun E => False_ind _ (eq_ind None (fun o => match o with None => True | Some _ => False end) I _ E)
             end E))
       | Loop _ _ _ b => go b
       | WhileBlock _ _ _ b => go b
       | IfBlock _ _ th _ el => conj (go th) (go el)
       | _ => I
       end).
End Stmt_rect.

Section Item_rect.
Context (P : Item -> Prop).
Hypothesis HSection : forall name addr items, Forall P items -> P (Section_ name addr items).
Hypothesis HOther : forall it, (forall name addr items, it <> Section_ name addr items) -> P it.

Fixpoint item_ind (it : Item) : P it :=
  match it with
  | Section_ name addr items => HSection name addr items ((fix go l : Forall P l :=
      match l with [] => List.Forall_nil _ | v :: l => List.Forall_cons _ _ _ (item_ind v) (go l) end) items)
  | it => HOther it ltac:(discriminate)
  end.
End Item_rect.
