(* ===== verification/Emit.v ===== *)
(** The canonical pretty-printer of the source language (src/src/ast/emit.rs).

    Each function of the source appends to [out]; here it returns the text.
    [{dispatch:?}] is the standard library's [Debug] of a string, which
    decides by Unicode tables whether a character outside ASCII is printed as
    it is: [printable] stands for them. The one call that can panic is the
    derivation of [head_bytes] from a condition text ([X86CondText]), so the
    statements are in [res unit]. *)

From S2P Require Import Prelude Text X86CondText Lexer Ast.

(** * Text *)

(** [" ".repeat(n)]. *)
Definition spaces (n : nat) : list byte := replicate n (byte_of 32).
Definition nl : list byte := [byte_of 10].

(** [0x{v:x}] and [0x{b:02x}]. *)
Definition hex_lit (v : Z) : list byte := str "0x" ++ fmt_hex v.
Definition byte_lit (b : byte) : list byte := str "0x" ++ pad0 2 (fmt_hex (u8 b)).

(** Pieces with [sep] between them, as the [if i > 0] loops write them. *)
Fixpoint sep_by (sep : list byte) (l : list (list byte)) : list byte :=
  match l with
  | [] => []
  | [x] => x
  | x :: l => x ++ sep ++ sep_by sep l
  end.

(** The characters of a text. *)
Fixpoint chars_n (fuel : nat) (s : list byte) : list (list byte) :=
  match fuel, next_char s with
  | S f, Some (c, r) => c :: chars_n f r
  | _, _ => []
  end.
Definition chars (s : list byte) : list (list byte) := chars_n (length s) s.

Definition quote_char (ch : list byte) : list byte :=
  if is_char 92 ch then str "\\"
  else if is_char 34 ch then [byte_of 92; byte_of 34]
  else if is_char 10 ch then str "\n"
  else if is_char 13 ch then str "\r"
  else if is_char 9 ch then str "\t"
  else if is_char 0 ch then str "\0"
  else match ch with
       | [b] => if (u8 b <? 0x20) || (u8 b =? 0x7f) then str "\x" ++ pad0 2 (fmt_hex (u8 b)) else ch
       | _ => ch
       end.

Definition quote_string (s : list byte) : list byte :=
  [byte_of 34] ++ concat (map quote_char (chars s)) ++ [byte_of 34].

Definition emit_byte_list (bytes : list byte) : list byte := sep_by (str ", ") (map byte_lit bytes).

(** [-0x{:x}] and [0x{:x}]. *)
Definition emit_signed_hex (n : Z) : list byte := if n <? 0 then str "-0x" ++ fmt_hex (- n) else hex_lit n.

(** * What can stand unquoted *)

(** Whether the lexer accepts every character. *)
Definition lexes (s : list byte) : bool := match tokenize s with Ok _ => true | _ => false end.

(** [char::is_control]: the categories Cc, U+0000-1F and U+007F-9F. *)
Definition is_control (ch : list byte) : bool :=
  match map u8 ch with
  | [c] => (c <? 32) || (c =? 127)
  | [c; d] => (c =? 0xc2) && (d <? 0xa0)
  | _ => false
  end.

Definition is_ascii_graphic (ch : list byte) : bool := ascii_char (fun c => (33 <=? c) && (c <=? 126)) ch.
Definition is_open (ch : list byte) : bool := is_char 40 ch || is_char 91 ch.
Definition is_close (ch : list byte) : bool := is_char 41 ch || is_char 93 ch.

(** The scan of [move_side_is_unquoted_safe]. *)
Fixpoint move_scan (depth : Z) (in_string escape : bool) (s : list (list byte)) : bool :=
  match s with
  | [] => negb in_string && (depth =? 0)
  | c :: s =>
      if is_control c then false
      else if in_string then
        if escape then move_scan depth true false s
        else if is_char 92 c then move_scan depth true true s
        else if is_char 34 c then move_scan depth false false s
        else move_scan depth true false s
      else if is_char 34 c then move_scan depth true escape s
      else if is_char 92 c then false
      else if is_open c then move_scan (depth + 1) false escape s
      else if is_close c then if depth =? 0 then false else move_scan (depth - 1) false escape s
      else move_scan depth false escape s
  end.

Definition move_side_is_unquoted_safe (s : list byte) : bool :=
  match s with [] => false | _ => lexes s && move_scan 0 false false (chars s) end.

Definition emit_move_side (s : list byte) : list byte :=
  if move_side_is_unquoted_safe s then s else quote_string s.

(** The scan of [cond_is_unquoted_safe]. *)
Fixpoint cond_scan (depth : Z) (s : list (list byte)) : bool :=
  match s with
  | [] => depth =? 0
  | c :: s =>
      if is_control c then false
      else if is_char 34 c || is_char 92 c then false
      else if is_open c then cond_scan (depth + 1) s
      else if is_close c then if depth =? 0 then false else cond_scan (depth - 1) s
      else cond_scan depth s
  end.

Definition cond_is_unquoted_safe (s : list byte) : bool :=
  match s with [] => false | _ => lexes s && cond_scan 0 (chars s) end.

Definition render_cond (s : list byte) : list byte := if cond_is_unquoted_safe s then s else quote_string s.

(** The scan of [arg_is_unquoted_safe]. *)
Fixpoint arg_scan (depth : Z) (in_string escape saw_non_string : bool) (s : list (list byte)) : bool :=
  match s with
  | [] => negb (in_string || negb (depth =? 0)) && saw_non_string
  | c :: s =>
      if in_string then
        if is_control c then false
        else if escape then arg_scan depth true false saw_non_string s
        else if is_char 92 c then arg_scan depth true true saw_non_string s
        else if is_char 34 c then arg_scan depth false false saw_non_string s
        else arg_scan depth true false saw_non_string s
      else if negb (is_ascii_graphic c) && (depth =? 0) then false
      else if is_whitespace c && (0 <? depth) then arg_scan depth false escape true s
      else if negb (is_ascii_graphic c) then false
      else if is_char 34 c then arg_scan depth true escape saw_non_string s
      else if is_char 92 c then false
      else if is_open c then arg_scan (depth + 1) false escape true s
      else if is_close c then if depth =? 0 then false else arg_scan (depth - 1) false escape true s
      else if is_char 44 c && (depth =? 0) then false
      else arg_scan depth false escape true s
  end.

Definition arg_is_unquoted_safe (s : list byte) : bool :=
  match s with [] => false | _ => lexes s && arg_scan 0 false false false (chars s) end.

(** * Attributes *)

Definition emit_attr_value (value : AttrValue) : list byte :=
  match value with
  | AString s => quote_string s
  | AInt n => hex_lit n
  | AByteList bytes => str "[" ++ emit_byte_list bytes ++ str "]"
  | AFlag => []
  end.

Definition emit_attr (a : Attribute) : list byte :=
  key a ++ match avalue a with AFlag => [] | v => str "=" ++ emit_attr_value v end.

(** [emit_attrs] of the attributes its caller keeps. *)
Definition emit_attrs (kept : list Attribute) : list byte :=
  match kept with
  | [] => []
  | _ => str "#[" ++ sep_by (str ", ") (map emit_attr kept) ++ str "]"
  end.

Definition head_bytes_is_derivable (attr : Attribute) (cond_text : list byte) : res unit bool :=
  if negb (str_eqb (key attr) (str "head_bytes")) then Ok false
  else match avalue attr with
       | AByteList bytes =>
           derived ← encode_head_from_cond_text cond_text;
           Ok (match derived with Some d => str_eqb d bytes | None => false end)
       | _ => Ok false
       end.

(** The attributes that are not derivable. *)
Fixpoint visible_attrs (attrs : list Attribute) (cond_text : list byte) : res unit (list Attribute) :=
  match attrs with
  | [] => Ok []
  | a :: attrs =>
      omit ← head_bytes_is_derivable a cond_text;
      kept ← visible_attrs attrs cond_text;
      Ok (if omit : bool then kept else a :: kept)
  end.

Definition jcc_cond_name_for_emit (cond_code : Z) : list byte :=
  let c := Z.land cond_code 0xf in
  if c =? 0x0 then str "jo" else if c =? 0x1 then str "jno" else if c =? 0x2 then str "jb" else if c =? 0x3 then str "jae"
  else if c =? 0x4 then str "je" else if c =? 0x5 then str "jne" else if c =? 0x6 then str "jbe" else if c =? 0x7 then str "ja"
  else if c =? 0x8 then str "js" else if c =? 0x9 then str "jns" else if c =? 0xa then str "jp" else if c =? 0xb then str "jnp"
  else if c =? 0xc then str "jl" else if c =? 0xd then str "jge" else if c =? 0xe then str "jle" else str "jg".

Definition emit_jcc_attrs (cond_code : Z) (wide : bool) (cmp_bytes : list byte) (target_addr : Z) (include_target : bool)
    : list byte :=
  let parts :=
    [str "cond=" ++ [byte_of 34] ++ jcc_cond_name_for_emit cond_code ++ [byte_of 34]] ++
    match cmp_bytes with [] => [] | _ => [str "cmp=[" ++ emit_byte_list cmp_bytes ++ str "]"] end ++
    (if wide then [str "wide"] else []) ++
    (if include_target then [str "target=" ++ hex_lit target_addr] else []) in
  str " #[" ++ sep_by (str ", ") parts ++ str "]".

(** * Types, fields and signatures *)

Fixpoint emit_type (t : Ty) : list byte :=
  match t with
  | TVoid => str "void" | TI8 => str "i8" | TI16 => str "i16" | TI32 => str "i32" | TI64 => str "i64"
  | TU8 => str "u8" | TU16 => str "u16" | TU32 => str "u32" | TU64 => str "u64" | TF32 => str "f32" | TF64 => str "f64"
  | TBool => str "bool" | TChar => str "char"
  | TPointer inner => str "ptr<" ++ emit_type inner ++ str ">"
  | TUnknown => str "unknown"
  end.

Section emit_list.
Context {A : Type} (f : A -> list byte).
Fixpoint emit_all (l : list A) : list byte := match l with [] => [] | a :: l => f a ++ emit_all l end.
Fixpoint emit_sep (l : list A) : list byte :=
  match l with [] => [] | a :: l => f a ++ (match l with [] => [] | _ => str ", " end) ++ emit_sep l end.
End emit_list.

(** [emit_value], with [emit_list], [emit_block] and [emit_field]. *)
Fixpoint emit_value (v : Value) (depth : nat) : list byte :=
  match v with
  | VString s => quote_string s
  | VInt n => hex_lit n
  | VList items => str "[" ++ emit_sep (fun v => emit_value v depth) items ++ str "]"
  | VBlock fields =>
      str "{" ++ nl ++
      emit_all (fun '(name, v) => spaces ((depth + 1) * 4) ++ name ++ str ": " ++ emit_value v (depth + 1) ++ str "," ++ nl) fields ++
      spaces (depth * 4) ++ str "}"
  end.

Definition emit_field (f : Field) (depth : nat) : list byte :=
  spaces (depth * 4) ++ f.1 ++ str ": " ++ emit_value f.2 depth ++ str "," ++ nl.

Definition emit_module (module : list Field) : list byte :=
  str "@module {" ++ nl ++ emit_all (fun f => emit_field f 1) module ++ str "}" ++ nl.

Definition emit_param (p : Param) : list byte :=
  p_name p ++ str ": " ++ emit_type (p_ty p) ++
  match location p with Some loc => str " @" ++ loc | None => [] end.

Definition emit_params (params : list Param) : list byte := emit_sep emit_param params.

(** * Prologues and epilogues *)

Definition emit_regs (name : list byte) (regs : list (list byte)) : list byte :=
  match regs with
  | [] => []
  | _ => str ", " ++ name ++ str ": [" ++ sep_by (str ", ") regs ++ str "]"
  end.

Definition emit_prologue_params (p : PrologueParams) : list byte :=
  emit_regs (str "saves") (pp_saves p) ++
  (if pp_frame p then if pp_frame_alt p then str ", frame=alt" else str ", frame" else []) ++
  (if 0 <? pp_sub_esp p then str ", sub: " ++ hex_lit (pp_sub_esp p) else []) ++
  emit_regs (str "saves_after") (pp_saves_after p) ++
  (if pp_cf_protect p then str ", cf" else []).

Definition emit_epilogue_params (e : EpilogueParams) : list byte :=
  emit_regs (str "saves") (ep_saves e) ++
  (if 0 <? ep_add_esp e then str ", add: " ++ hex_lit (ep_add_esp e) else []) ++
  (if ep_leave e then str ", leave" else if ep_pop_frame e then str ", pop_frame" else []) ++
  (if 0 <? ep_ret_imm e then str ", ret_imm: " ++ hex_lit (ep_ret_imm e) else []).

(** A directive [@name(args, [bytes])] on a line of its own; [args] ends
    with its comma and space. *)
Definition directive (indent name args bytes : list byte) : list byte :=
  indent ++ str "@" ++ name ++ str "(" ++ args ++ str "[" ++ emit_byte_list bytes ++ str "])" ++ nl.

Definition emit_prologue (indent kind : list byte) (params : option PrologueParams) (bytes : list byte) : list byte :=
  match params with
  | Some p => indent ++ str "@prologue(" ++ quote_string kind ++ emit_prologue_params p ++ str ")" ++ nl
  | None => directive indent (str "prologue") (quote_string kind ++ str ", ") bytes
  end.

Definition emit_epilogue (indent kind : list byte) (params : option EpilogueParams) (bytes : list byte) : list byte :=
  match params with
  | Some e => indent ++ str "@epilogue(" ++ quote_string kind ++ emit_epilogue_params e ++ str ")" ++ nl
  | None => directive indent (str "epilogue") (quote_string kind ++ str ", ") bytes
  end.

(** * Statements *)

(** The code point of a character. *)
Definition char_code (ch : list byte) : Z :=
  match map u8 ch with
  | [a] => a
  | [a; b] => (a - 0xc0) * 64 + (b - 0x80)
  | [a; b; c] => (a - 0xe0) * 4096 + (b - 0x80) * 64 + (c - 0x80)
  | [a; b; c; d] => (a - 0xf0) * 262144 + (b - 0x80) * 4096 + (c - 0x80) * 64 + (d - 0x80)
  | _ => 0
  end.

(** [{:?}] of a character in a string. *)
Definition debug_char (printable : list byte -> bool) (ch : list byte) : list byte :=
  if is_char 0 ch then str "\0"
  else if is_char 9 ch then str "\t"
  else if is_char 13 ch then str "\r"
  else if is_char 10 ch then str "\n"
  else if is_char 92 ch then str "\\"
  else if is_char 34 ch then [byte_of 92; byte_of 34]
  else if (match ch with [b] => (32 <=? u8 b) && (u8 b <=? 126) | _ => printable ch end) then ch
  else str "\u{" ++ fmt_hex (char_code ch) ++ str "}".

Definition debug_str (printable : list byte -> bool) (s : list byte) : list byte :=
  [byte_of 34] ++ concat (map (debug_char printable) (chars s)) ++ [byte_of 34].

(** The indentation one level in. *)
Definition deeper (indent : list byte) : list byte := indent ++ spaces 4.

Definition label_ref (a : Z) : list byte := str "label_" ++ fmt_hex a.

(** [ [bytes]] and the end of the line, when there are any. *)
Definition opt_bytes (bytes : list byte) : list byte :=
  match bytes with [] => nl | _ => str " [" ++ emit_byte_list bytes ++ str "]" ++ nl end.

Definition call_name_starts_ok (name : list byte) : bool :=
  match name with
  | [] => false
  | b :: _ => let c := u8 b in is_alpha c || (c =? 95) || (c =? 91) || (c =? 40) || (c =? 42) || (c =? 38)
  end.

Definition emit_arg (a : list byte) : list byte := if arg_is_unquoted_safe a then a else quote_string a.

Definition emit_call (indent name : list byte) (args : list (list byte)) (bytes : list byte) (direct_target : option Z) : list byte :=
  indent ++ (if call_name_starts_ok name && lexes name then name else str "(" ++ name ++ str ")") ++ str "(" ++
  sep_by (str ", ") (map emit_arg args) ++ str ")" ++
  match direct_target with Some t => str " #[target=" ++ hex_lit t ++ str "]" | None => [] end ++
  opt_bytes bytes.

(** The statements without a body. *)
Definition emit_simple (printable : list byte -> bool) (stmt : Stmt) (indent : list byte) : list byte :=
  match stmt with
  | Asm text [] => indent ++ str "@asm(" ++ quote_string text ++ str ")" ++ nl
  | Asm text bytes => directive indent (str "asm") (quote_string text ++ str ", ") bytes
  | StComment text => indent ++ str "// " ++ text ++ nl
  | Return value bytes =>
      indent ++ str "return " ++ (if value <? 10 then fmt_dec value else hex_lit value) ++ str ";" ++ opt_bytes bytes
  | Prologue kind params bytes => emit_prologue indent kind params bytes
  | Epilogue kind params bytes => emit_epilogue indent kind params bytes
  | Save reg bytes => directive indent (str "save") (quote_string reg ++ str ", ") bytes
  | RestoreReg reg bytes => directive indent (str "restore") (quote_string reg ++ str ", ") bytes
  | IfReturn cond_text value_text target_addr cmp_bytes cond_code wide =>
      indent ++ str "if (" ++ cond_text ++ str ") return" ++
      match value_text with [] => [] | _ => str " " ++ value_text end ++
      emit_jcc_attrs cond_code wide cmp_bytes target_addr true ++ str ";" ++ nl
  | Label addr =>
      (if (4 <=? length indent)%nat then take (length indent - 4) indent else indent) ++ label_ref addr ++ str ":" ++ nl
  | Goto target_addr wide =>
      indent ++ str "goto " ++ label_ref target_addr ++ (if wide then str " #[wide];" else str ";") ++ nl
  | IfGoto cond_text target_addr cmp_bytes cond_code wide =>
      indent ++ str "if (" ++ cond_text ++ str ") goto " ++ label_ref target_addr ++
      emit_jcc_attrs cond_code wide cmp_bytes target_addr false ++ str ";" ++ nl
  | SehInstall bytes => directive indent (str "seh_install") [] bytes
  | SehRestore bytes => directive indent (str "seh_restore") [] bytes
  | Switch selector cases default_addr dispatch table_va =>
      indent ++ str "switch (" ++ selector ++ str ") #[dispatch=" ++ debug_str printable dispatch ++ str ", table_va=" ++
      hex_lit table_va ++ str "] {" ++ nl ++
      emit_all (fun '(i, t) => deeper indent ++ str "case " ++ fmt_dec i ++ str ": goto " ++ label_ref t ++ str ";" ++ nl)
        (zip (seqZ 0 (len cases)) cases) ++
      deeper indent ++ str "default: goto " ++ label_ref default_addr ++ str ";" ++ nl ++ indent ++ str "}" ++ nl
  | ReturnExpr text bytes =>
      indent ++ match text with [] => str "return;" | _ => str "return " ++ text ++ str ";" end ++
      str " [" ++ emit_byte_list bytes ++ str "]" ++ nl
  | ArgSpill arg_index bytes => directive indent (str "arg_spill") (fmt_dec arg_index ++ str ", ") bytes
  | Call name args bytes direct_target => emit_call indent name args bytes direct_target
  | LocalSet slot value bytes =>
      directive indent (str "local_set") (emit_signed_hex slot ++ str ", " ++ emit_signed_hex value ++ str ", ") bytes
  | LocalArith slot op value bytes =>
      directive indent (str "local_arith")
        (emit_signed_hex slot ++ str ", " ++ quote_string op ++ str ", " ++ emit_signed_hex value ++ str ", ") bytes
  | LocalCompound dst op src bytes =>
      directive indent (str "local_compound")
        (emit_signed_hex dst ++ str ", " ++ quote_string op ++ str ", " ++ emit_signed_hex src ++ str ", ") bytes
  | Move dst src bytes => indent ++ emit_move_side dst ++ str " = " ++ emit_move_side src ++ opt_bytes bytes
  | Inc16 lo hi bytes => directive indent (str "inc16") (quote_string lo ++ str ", " ++ quote_string hi ++ str ", ") bytes
  | RegArith dst op src bytes =>
      indent ++ emit_move_side dst ++ str " " ++ op ++ str " " ++ emit_move_side src ++ str ";" ++ opt_bytes bytes
  | IfBranch _ _ _ _ _ _ | Loop _ _ _ _ | IfBlock _ _ _ _ _ | WhileBlock _ _ _ _ => []
  end.

(** [a { … }] on its lines. *)
Definition braces (head block indent : list byte) : list byte := head ++ str " {" ++ nl ++ block ++ indent ++ str "}".

Section emit_stmts.
Context (emit_stmt : Stmt -> list byte -> res unit (list byte)).
Fixpoint emit_stmts_with (stmts : list Stmt) (indent : list byte) : res unit (list byte) :=
  match stmts with
  | [] => Ok []
  | s :: stmts => a ← emit_stmt s indent; b ← emit_stmts_with stmts indent; Ok (a ++ b)
  end.
End emit_stmts.

(** The text of an optional [else] arm. *)
Definition opt_else (else_text : option (list byte)) (f : list byte -> list byte) : list byte :=
  match else_text with Some t => f t | None => [] end.

Fixpoint emit_stmt (printable : list byte -> bool) (stmt : Stmt) (indent : list byte) : res unit (list byte) :=
  let emit_stmts := emit_stmts_with (emit_stmt printable) in
  match stmt with
  | IfBranch cond_text cond_bytes attrs pre_body then_body else_body =>
      let body_indent := deeper indent in
      let arm_indent := deeper body_indent in
      let cond := indent ++ str "if (" ++ render_cond cond_text ++ str ") " in
      let bytes := str "[" ++ emit_byte_list cond_bytes ++ str "]" in
      visible ← visible_attrs attrs cond_text;
      match visible, pre_body with
      | [], [] =>
          th ← emit_stmts then_body body_indent;
          el ← match else_body with Some l => e ← emit_stmts l body_indent; Ok (Some e) | None => Ok None end;
          Ok (cond ++ bytes ++ str " {" ++ nl ++ th ++ opt_else el (fun e => indent ++ str "} else {" ++ nl ++ e) ++
              indent ++ str "}" ++ nl)
      | _, _ =>
          pre ← emit_stmts pre_body body_indent;
          th ← emit_stmts then_body arm_indent;
          el ← match else_body with Some l => e ← emit_stmts l arm_indent; Ok (Some e) | None => Ok None end;
          Ok (cond ++ emit_attrs visible ++ match visible with [] => [] | _ => str " " end ++ bytes ++ str " {" ++ nl ++
              pre ++ braces (body_indent ++ str "@then") th body_indent ++ nl ++
              opt_else el (fun e => braces (body_indent ++ str "@else") e body_indent ++ nl) ++ indent ++ str "}" ++ nl)
      end
  | Loop cond_text entry_jmp_bytes tail_bytes body =>
      b ← emit_stmts body (deeper indent);
      Ok (braces (indent ++ str "do" ++
            match entry_jmp_bytes with Some j => str " entry=[" ++ emit_byte_list j ++ str "]" | None => [] end) b indent ++
          str " while (" ++ render_cond cond_text ++ str ") [" ++ emit_byte_list tail_bytes ++ str "]" ++ nl)
  | IfBlock cond_text cond_bytes then_body then_tail_jmp else_body =>
      th ← emit_stmts then_body (deeper indent);
      let head := braces (indent ++ str "ifblock (" ++ render_cond cond_text ++ str ") [" ++ emit_byte_list cond_bytes ++ str "]") th indent in
      match else_body, then_tail_jmp with
      | [], [] => Ok (head ++ nl)
      | _, _ =>
          el ← emit_stmts else_body (deeper indent);
          Ok (braces (head ++ str " else" ++
                match then_tail_jmp with [] => [] | _ => str " tail=[" ++ emit_byte_list then_tail_jmp ++ str "]" end) el indent ++ nl)
      end
  | WhileBlock cond_text entry_bytes tail_bytes body =>
      b ← emit_stmts body (deeper indent);
      Ok (braces (indent ++ str "whileblock (" ++ render_cond cond_text ++ str ") entry=[" ++ emit_byte_list entry_bytes ++
                  str "] tail=[" ++ emit_byte_list tail_bytes ++ str "]") b indent ++ nl)
  | _ => Ok (emit_simple printable stmt indent)
  end.

Definition emit_stmts (printable : list byte -> bool) : list Stmt -> list byte -> res unit (list byte) :=
  emit_stmts_with (emit_stmt printable).

(** * Functions and items *)

Definition is_stack (l : LocalDecl) : bool := match l_kind l with LStack => true | LRegister => false end.

Definition emit_local (l : LocalDecl) : list byte := l_name l ++ str ": " ++ emit_type (l_ty l).

Definition emit_locals (locals : list LocalDecl) (indent : list byte) : list byte :=
  emit_all (fun l => indent ++ str "let " ++ emit_local l ++ str ";" ++ nl) (List.filter is_stack locals) ++
  match List.filter (fun l => negb (is_stack l)) locals with
  | [] => []
  | regs => indent ++ str "let " ++ emit_sep emit_local regs ++ str " @reg;" ++ nl
  end.

Definition emit_fn_indented (printable : list byte -> bool) (f : FnDecl) (depth : nat) : res unit (list byte) :=
  let indent := spaces (depth * 4) in
  let body_indent := spaces ((depth + 1) * 4) in
  b ← emit_stmts printable (body f) body_indent;
  Ok (match addr f with Some a => indent ++ str "@addr(" ++ hex_lit a ++ str ")" ++ nl | None => [] end ++
      indent ++ str "fn " ++ fn_name f ++ str "(" ++
      match signature f with Some sig => emit_params (params sig) | None => [] end ++ str ")" ++
      match signature f with
      | Some sig => match return_type sig with TVoid => [] | t => str " -> " ++ emit_type t end
      | None => []
      end ++
      match attrs f with [] => [] | a => str " " ++ emit_attrs a end ++
      str " {" ++ nl ++
      match locals f with [] => [] | l => emit_locals l body_indent ++ match body f with [] => [] | _ => nl end end ++
      b ++ indent ++ str "}" ++ nl).

Definition emit_raw (addr : Z) (bytes : list byte) (depth : nat) : list byte :=
  spaces (depth * 4) ++ str "@raw(" ++ hex_lit addr ++ str ", [" ++ emit_byte_list bytes ++ str "])" ++ nl.

Definition emit_strings (addr : Z) (strings : list (list byte)) (depth : nat) : list byte :=
  spaces (depth * 4) ++ str "@strings(" ++ hex_lit addr ++ str ", [" ++ nl ++
  emit_all (fun s => spaces ((depth + 1) * 4) ++ quote_string s ++ str "," ++ nl) strings ++
  spaces (depth * 4) ++ str "])" ++ nl.

Definition emit_jump_table (addr : Z) (dispatch : list byte) (entries : list JumpTableEntry) (depth : nat) : list byte :=
  spaces (depth * 4) ++ str "@jump_table(" ++ hex_lit addr ++ str ", dispatch=" ++ quote_string dispatch ++ str ") {" ++ nl ++
  emit_all (fun e => spaces ((depth + 1) * 4) ++ str "case_" ++ fmt_dec (case e) ++ str ": " ++ label_ref (target e) ++
                     str "," ++ nl) entries ++
  spaces (depth * 4) ++ str "}" ++ nl.

Definition emit_note (e : NoteEntry) (depth : nat) : list byte :=
  let inner := spaces ((depth + 1) * 4) in
  let kv := spaces ((depth + 2) * 4) in
  inner ++ str "{" ++ nl ++
  kv ++ str "type: " ++ hex_lit (note_type e) ++ str "," ++ nl ++
  kv ++ str "name: " ++ quote_string (note_name e) ++ str "," ++ nl ++
  kv ++ str "desc: [" ++ emit_byte_list (desc e) ++ str "]," ++ nl ++
  inner ++ str "}," ++ nl.

Definition emit_notes (addr : Z) (entries : list NoteEntry) (depth : nat) : list byte :=
  spaces (depth * 4) ++ str "@notes(" ++ hex_lit addr ++ str ", [" ++ nl ++ emit_all (fun e => emit_note e depth) entries ++
  spaces (depth * 4) ++ str "])" ++ nl.

Section emit_items.
Context (emit_item : Item -> res unit (list byte)).
(** Items with an empty line between them. *)
Fixpoint emit_items_with (items : list Item) : res unit (list byte) :=
  match items with
  | [] => Ok []
  | it :: items =>
      a ← emit_item it; b ← emit_items_with items;
      Ok (a ++ match items with [] => [] | _ => nl end ++ b)
  end.
End emit_items.

(** [emit_item_indented], with [emit_section]. *)
Fixpoint emit_item_indented (printable : list byte -> bool) (item : Item) (depth : nat) : res unit (list byte) :=
  let indent := spaces (depth * 4) in
  match item with
  | ItComment text => Ok (indent ++ str "// " ++ text ++ nl)
  | Function f => emit_fn_indented printable f depth
  | Raw addr bytes => Ok (emit_raw addr bytes depth)
  | Strings addr strings => Ok (emit_strings addr strings depth)
  | Notes addr entries => Ok (emit_notes addr entries depth)
  | Section_ name addr items =>
      b ← emit_items_with (fun it => emit_item_indented printable it (depth + 1)) items;
      Ok (indent ++ str "@section(" ++ quote_string name ++ str ", " ++ hex_lit addr ++ str ") {" ++ nl ++ b ++
          indent ++ str "}" ++ nl)
  | JumpTable addr dispatch entries => Ok (emit_jump_table addr dispatch entries depth)
  end.

Definition emit_item (printable : list byte -> bool) (item : Item) : res unit (list byte) :=
  emit_item_indented printable item 0.

Fixpoint emit_top (printable : list byte -> bool) (items : list Item) : res unit (list byte) :=
  match items with
  | [] => Ok []
  | it :: items => a ← emit_item printable it; b ← emit_top printable items; Ok (nl ++ a ++ b)
  end.

Definition emit (printable : list byte -> bool) (file : UdFile) : res unit (list byte) :=
  b ← emit_top printable (items file); Ok (emit_module (module file) ++ b).
