(* ===== verification/Parser.v ===== *)
(** The recursive-descent parser of the source language
    (src/src/translate/compile/parser.rs).

    [P] is the state and error monad of the methods of [Parser]: the source
    text, its tokens, the index of the next one, and the width the module
    header declares. The errors keep their positions; their messages are left
    out. A loop or a recursion has fuel and fails with [OutOfFuel], which the
    source does not have, when it runs out; [ParserTotal] shows that it never
    does. A slice off the text or inside a character panics, as does the
    encoder of a prologue ([X86Prologue]) or of a condition ([X86CondText]). *)

From S2P Require Import Prelude Text X86Prologue X86CondText Lexer Ast.

(** * The monad *)

Inductive ParseError : Type :=
| Lex (e : LexError)
| Expected (line col : nat)
| UnknownDirective (name : list byte) (line col : nat)
| UnexpectedEof
| OutOfFuel.

Record Parser : Type := { src : list byte; tokens : list Token; pos : nat; bits : Z }.

Definition P (A : Type) : Type := Parser -> res ParseError (A * Parser).

#[export] Instance P_ret : MRet P := fun A a s => Ok (a, s).
#[export] Instance P_bind : MBind P := fun A B f m s =>
  match m s with Ok (a, s') => f a s' | Err e => Err e | Panic => Panic end.

Definition fail {A} (e : ParseError) : P A := fun _ => Err e.
Definition get_parser : P Parser := fun s => Ok (s, s).
Definition lift {E A} (r : res E A) : P A := fun s => match r with Ok a => Ok (a, s) | _ => Panic end.

(** Fuel for a loop: more than the tokens there are. *)
Definition with_fuel {A} (f : nat -> P A) : P A := fun s => f (S (length (tokens s))) s.

Definition parser_new (src : list byte) (tokens : list Token) : Parser :=
  {| src := src; tokens := tokens; pos := 0; bits := 32 |}.

(** * Tokens *)

Definition peek : P Token := fun s => match tokens s !! pos s with Some t => Ok (t, s) | None => Panic end.
Definition peek_kind : P TokenKind := t ← peek; mret (kind t).

Definition set_pos (s : Parser) (p : nat) : Parser := {| src := src s; tokens := tokens s; pos := p; bits := bits s |}.

Definition bump : P Token := fun s =>
  match tokens s !! pos s with
  | Some t => Ok (t, if (pos s + 1 <? length (tokens s))%nat then set_pos s (pos s + 1) else s)
  | None => Panic
  end.

Definition expected_at {A} (t : Token) : P A := fail (Expected (line t) (col t)).
Definition expected_here {A} : P A := t ← peek; expected_at t.

Definition eat_kind (k : TokenKind) : P bool :=
  t ← peek; if decide (kind t = k) then _ ← bump; mret true else mret false.

Definition expect (k : TokenKind) : P unit :=
  tok ← peek; if decide (kind tok = k) then _ ← bump; mret tt else expected_at tok.

Definition expect_ident : P (list byte) :=
  tok ← peek; match kind tok with Ident name => _ ← bump; mret name | _ => expected_at tok end.

Definition expect_string : P (list byte) :=
  tok ← peek; match kind tok with TString s => _ ← bump; mret s | _ => expected_at tok end.

Definition expect_int : P Z :=
  tok ← peek; match kind tok with Int n => _ ← bump; mret n | _ => expected_at tok end.

(** An identifier that must be [kw]; the error is at its place. *)
Definition expect_keyword (kw : list byte) : P unit :=
  tok ← peek; if decide (kind tok = Ident kw) then _ ← bump; mret tt else expected_at tok.

(** [matches!(&self.peek().kind, TokenKind::Ident(n) if n == kw)]. *)
Definition at_keyword (kw : list byte) : P bool := k ← peek_kind; mret (bool_decide (k = Ident kw)).
Definition at_kind (k : TokenKind) : P bool := k' ← peek_kind; mret (bool_decide (k' = k)).

(** The raw text between two offsets. *)
Definition snip (a b : nat) : P (list byte) := s ← get_parser; lift (str_slice (E:=unit) (src s) a b).
Definition snip_trim (a b : nat) : P (list byte) := t ← snip a b; mret (trim t).

(** * Lists *)

(** [loop { item; if !eat(Comma) break; if peek == close break }]. *)
Fixpoint comma_list {A} (item : P A) (close : TokenKind) (fuel : nat) : P (list A) :=
  match fuel with
  | O => fail OutOfFuel
  | S f =>
      a ← item;
      c ← eat_kind Comma;
      if c : bool then
        e ← at_kind close;
        if e : bool then mret [a] else l ← comma_list item close f; mret (a :: l)
      else mret [a]
  end.

(** [while !matches!(peek, close | Eof) { item; if !eat(Comma) break }]. *)
Fixpoint while_list {A} (item : P A) (close : TokenKind) (fuel : nat) : P (list A) :=
  match fuel with
  | O => fail OutOfFuel
  | S f =>
      k ← peek_kind;
      if decide (k = close \/ k = Eof) then mret []
      else
        a ← item;
        c ← eat_kind Comma;
        if c : bool then l ← while_list item close f; mret (a :: l) else mret [a]
  end.

(** [while !matches!(peek, close | Eof) { item }]. *)
Fixpoint many_until {A} (item : P A) (close : TokenKind) (fuel : nat) : P (list A) :=
  match fuel with
  | O => fail OutOfFuel
  | S f =>
      k ← peek_kind;
      if decide (k = close \/ k = Eof) then mret [] else a ← item; l ← many_until item close f; mret (a :: l)
  end.

(** A list in brackets that may be empty. *)
Definition bracketed_list {A} (item : P A) : P (list A) :=
  _ ← expect LBracket;
  e ← at_kind RBracket;
  l ← if e : bool then mret [] else with_fuel (comma_list item RBracket);
  _ ← expect RBracket;
  mret l.

Definition parse_byte : P byte :=
  tok ← peek; n ← expect_int; if 0xff <? n then expected_at tok else mret (byte_of n).

Definition parse_byte_list : P (list byte) := bracketed_list parse_byte.

(** A byte list that is there when a [[] is. *)
Definition opt_byte_list : P (list byte) :=
  b ← at_kind LBracket; if b : bool then parse_byte_list else mret [].

Definition parse_register_list : P (list (list byte)) := bracketed_list expect_ident.

(** * Module header, types, parameters *)

(** [parse_value] and [parse_field_list]; a field is [name: value,]. *)
Fixpoint parse_value (fuel : nat) : P Value :=
  match fuel with
  | O => fail OutOfFuel
  | S f =>
      tok ← peek;
      match kind tok with
      | TString s => _ ← bump; mret (VString s)
      | Int n => _ ← bump; mret (VInt n)
      | LBracket =>
          _ ← bump;
          e ← at_kind RBracket;
          items ← if e : bool then mret [] else comma_list (parse_value f) RBracket f;
          _ ← expect RBracket;
          mret (VList items)
      | LBrace =>
          _ ← bump;
          fields ← many_until (name ← expect_ident; _ ← expect Colon; v ← parse_value f; _ ← expect Comma; mret (name, v))
                     RBrace f;
          _ ← expect RBrace;
          mret (VBlock fields)
      | _ => expected_at tok
      end
  end.

Definition parse_field : P Field :=
  name ← expect_ident; _ ← expect Colon; v ← with_fuel parse_value; _ ← expect Comma; mret (name, v).
Definition parse_field_list : P (list Field) := with_fuel (many_until parse_field RBrace).

Fixpoint skip_comments (fuel : nat) : P unit :=
  match fuel with
  | O => fail OutOfFuel
  | S f => k ← peek_kind; match k with Comment _ => _ ← bump; skip_comments f | _ => mret tt end
  end.

Definition parse_module : P (list Field) :=
  _ ← with_fuel skip_comments;
  _ ← expect At;
  name_tok ← peek;
  name ← expect_ident;
  if decide (name <> str "module") then expected_at name_tok
  else
    _ ← expect LBrace;
    fields ← parse_field_list;
    _ ← expect RBrace;
    mret fields.

Definition primitive (name : list byte) : option Ty :=
  let types := [(str "void", TVoid); (str "i8", TI8); (str "i16", TI16); (str "i32", TI32); (str "i64", TI64);
                (str "u8", TU8); (str "u16", TU16); (str "u32", TU32); (str "u64", TU64); (str "f32", TF32);
                (str "f64", TF64); (str "bool", TBool); (str "char", TChar); (str "unknown", TUnknown)] in
  snd <$> (snd <$> list_find (fun '(n, _) => n = name) types).

Fixpoint parse_type (fuel : nat) : P Ty :=
  match fuel with
  | O => fail OutOfFuel
  | S f =>
      tok ← peek;
      name ← expect_ident;
      match primitive name with
      | Some t => mret t
      | None =>
          if decide (name = str "ptr") then
            _ ← expect Lt; inner ← parse_type f; _ ← expect Gt; mret (TPointer inner)
          else expected_at tok
      end
  end.

Definition parse_param : P Param :=
  name ← expect_ident;
  _ ← expect Colon;
  ty ← with_fuel parse_type;
  a ← eat_kind At;
  loc ← if a : bool then l ← expect_ident; mret (Some l) else mret None;
  mret {| p_name := name; p_ty := ty; location := loc |}.

Definition parse_param_list : P (list Param) := with_fuel (comma_list parse_param RParen).

(** * Attributes *)

Definition parse_attr_value : P AttrValue :=
  tok ← peek;
  match kind tok with
  | TString s => _ ← bump; mret (AString s)
  | Int n => _ ← bump; mret (AInt n)
  | LBracket => bytes ← parse_byte_list; mret (AByteList bytes)
  | _ => expected_at tok
  end.

Definition parse_attr : P Attribute :=
  k ← expect_ident;
  next ← peek_kind;
  v ← if decide (next = Comma \/ next = RBracket) then mret AFlag else _ ← expect Eq; parse_attr_value;
  mret {| key := k; avalue := v |}.

Definition parse_attrs : P (list Attribute) :=
  h ← at_kind Hash;
  if h : bool then _ ← expect Hash; bracketed_list parse_attr else mret [].

(** * Labels and numbers *)

Definition parse_label_addr (name : list byte) : option Z :=
  rest ← strip_prefix (str "label_") name; parse_unsigned 16 64 rest.

Definition is_label_name (name : list byte) : bool := match parse_label_addr name with Some _ => true | None => false end.

Definition parse_int_literal (s : list byte) : option Z :=
  let s := trim s in
  match or_else (strip_prefix (str "0x") s) (strip_prefix (str "0X") s) with
  | Some rest => parse_unsigned 16 64 rest
  | None => parse_unsigned 10 64 s
  end.

(** An identifier [label_<hex>]; the error is at its place. *)
Definition expect_label : P Z :=
  tok ← peek; name ← expect_ident; match parse_label_addr name with Some a => mret a | None => expected_at tok end.

(** * Raw text *)

(** Bump up to a token that [stop] names; the text up to it. *)
Fixpoint bump_until (stop : TokenKind -> bool) (fuel : nat) : P Token :=
  match fuel with
  | O => fail OutOfFuel
  | S f =>
      tok ← peek;
      if stop (kind tok) then mret tok
      else match kind tok with Eof => fail UnexpectedEof | _ => _ ← bump; bump_until stop f end
  end.

Definition is_semicolon (k : TokenKind) : bool := match k with Semicolon => true | _ => false end.
Definition is_semicolon_or_hash (k : TokenKind) : bool := match k with Semicolon | Hash => true | _ => false end.

Definition snip_until (stop : TokenKind -> bool) : P (list byte) :=
  start ← peek; stop_tok ← with_fuel (bump_until stop); snip_trim (tstart start) (tstart stop_tok).

Definition parse_until_semicolon : P (list byte) := snip_until is_semicolon.
Definition parse_until_semicolon_or_attr : P (list byte) := snip_until is_semicolon_or_hash.

(** Up to the [)] that closes the one before: its token. *)
Fixpoint paren_loop (depth : Z) (fuel : nat) : P Token :=
  match fuel with
  | O => fail OutOfFuel
  | S f =>
      tok ← peek;
      match kind tok with
      | LParen | LBracket => _ ← bump; paren_loop (depth + 1) f
      | RParen => if 0 <? depth then _ ← bump; paren_loop (depth - 1) f else mret tok
      | RBracket => if 0 <? depth then _ ← bump; paren_loop (depth - 1) f else _ ← bump; paren_loop depth f
      | Eof => fail UnexpectedEof
      | _ => _ ← bump; paren_loop depth f
      end
  end.

Definition paren_raw (start : nat) : P (list byte) :=
  close ← with_fuel (paren_loop 0); snip_trim start (tstart close).

Definition parse_paren_inner : P (list byte) :=
  tok ← peek;
  match kind tok with
  | RParen => mret []
  | TString s =>
      _ ← bump;
      e ← at_kind RParen;
      if e : bool then mret s else paren_raw (tstart tok)
  | _ => paren_raw (tstart tok)
  end.

(** [( text )]. *)
Definition parens : P (list byte) :=
  _ ← expect LParen; t ← parse_paren_inner; _ ← expect RParen; mret t.

(** * Scans of the token list *)

(** The integers and commas of a byte list, up to its bracket. *)
Fixpoint byte_list_rest (l : list TokenKind) : bool :=
  match l with
  | Int _ :: Comma :: l => byte_list_rest l
  | Int _ :: RBracket :: _ => true
  | _ => false
  end.

Definition is_byte_list_block (tokens : list Token) (lbracket_idx : nat) : bool :=
  match map kind (drop lbracket_idx tokens) with
  | LBracket :: RBracket :: _ => true
  | LBracket :: l => byte_list_rest l
  | _ => false
  end.

Definition detect_compound_op (tokens : list Token) (eq_idx : nat) : option (nat * nat) :=
  if (eq_idx =? 0)%nat then None
  else
    prev ← tokens !! (eq_idx - 1)%nat;
    eq_tok ← tokens !! eq_idx;
    if negb (tend prev =? tstart eq_tok)%nat then None
    else
      let shift :=
        match kind prev with
        | Lt | Gt =>
            if (2 <=? eq_idx)%nat then
              prev2 ← tokens !! (eq_idx - 2)%nat;
              if bool_decide (kind prev2 = kind prev) && (tend prev2 =? tstart prev)%nat then Some ((eq_idx - 2)%nat, 3%nat)
              else None
            else None
        | _ => None
        end in
      match shift with
      | Some r => Some r
      | None =>
          match kind prev with
          | Plus | Minus | Star | Slash | Percent | Pipe | Ampersand | Caret => Some ((eq_idx - 1)%nat, 2%nat)
          | _ => None
          end
      end.

Fixpoint matching_close (close : TokenKind) (depth : Z) (i : nat) (l : list TokenKind) : option nat :=
  match l with
  | [] => None
  | k :: l =>
      if decide (k = LParen \/ k = LBracket) then matching_close close (depth + 1) (S i) l
      else if decide (k = close) then
        if depth - 1 =? 0 then Some i else matching_close close (depth - 1) (S i) l
      else if decide (k = RParen \/ k = RBracket) then matching_close close (depth - 1) (S i) l
      else if decide (k = Eof \/ k = RBrace) then None
      else matching_close close depth (S i) l
  end.

Definition find_matching_close (tokens : list Token) (open_idx : nat) : option nat :=
  let l := map kind (drop open_idx tokens) in
  match l with
  | LParen :: _ => matching_close RParen 0 open_idx l
  | LBracket :: _ => matching_close RBracket 0 open_idx l
  | _ => None
  end.

(** The pairs [Arrow Ident] from here on, and the kind that follows them. *)
Fixpoint arrow_chain (saw : bool) (l : list TokenKind) : bool :=
  match l with
  | Arrow :: Ident _ :: l => arrow_chain true l
  | Arrow :: _ => false
  | LParen :: _ => saw
  | _ => false
  end.

Definition lookahead_is_method_call (tokens : list Token) (pos : nat) : bool :=
  arrow_chain false (map kind (drop (pos + 1) tokens)).

(** The last [=] and the last byte list at depth zero on the line. *)
Fixpoint scan_move (tokens : list Token) (stmt_line : nat) (l : list Token) (probe : nat) (depth : Z)
    (last_eq byte_list : option nat) : option nat * option nat :=
  match l with
  | [] => (last_eq, byte_list)
  | tok :: l =>
      if negb (line tok =? stmt_line)%nat then (last_eq, byte_list)
      else
        match kind tok with
        | LBracket =>
            let byte_list := if (depth =? 0) && is_byte_list_block tokens probe then Some probe else byte_list in
            scan_move tokens stmt_line l (S probe) (depth + 1) last_eq byte_list
        | LParen => scan_move tokens stmt_line l (S probe) (depth + 1) last_eq byte_list
        | RParen | RBracket => scan_move tokens stmt_line l (S probe) (depth - 1) last_eq byte_list
        | Eq => scan_move tokens stmt_line l (S probe) depth (if depth =? 0 then Some probe else last_eq) byte_list
        | Eof | Comment _ | RBrace => (last_eq, byte_list)
        | _ => scan_move tokens stmt_line l (S probe) depth last_eq byte_list
        end
  end.

(** * Assignments *)

(** Bump while the next token starts before [p]. *)
Fixpoint bump_to (p : nat) (fuel : nat) : P unit :=
  match fuel with
  | O => fail OutOfFuel
  | S f => tok ← peek; if (tstart tok <? p)%nat then _ ← bump; bump_to p f else mret tt
  end.

(** Bump to the end of the line: the end of its last token. *)
Fixpoint bump_line (stmt_line : nat) (last_end : nat) (fuel : nat) : P nat :=
  match fuel with
  | O => fail OutOfFuel
  | S f =>
      tok ← peek;
      if negb (line tok =? stmt_line)%nat then mret last_end
      else match kind tok with
           | Eof | Comment _ | RBrace => mret last_end
           | _ => _ ← bump; bump_line stmt_line (tend tok) f
           end
  end.

Definition strip_semicolon (src : list byte) : list byte :=
  match strip_suffix (str ";") src with Some s => trim s | None => src end.

Definition parse_move_stmt : P Stmt :=
  start ← peek;
  s ← get_parser;
  let '(last_eq_idx, byte_list_idx) := scan_move (tokens s) (line start) (drop (pos s) (tokens s)) (pos s) 0 None None in
  match i ← last_eq_idx; t ← tokens s !! i; Some (i, t) with
  | None => expected_here
  | Some (eq_idx, last_eq_tok) =>
      let compound_op := detect_compound_op (tokens s) eq_idx in
      let dst_end :=
        match p ← fst <$> compound_op; tokens s !! p with Some t => tstart t | None => tstart last_eq_tok end in
      let bytes_tok :=
        i ← byte_list_idx; t ← tokens s !! i; if (tstart last_eq_tok <? tstart t)%nat then Some t else None in
      dst ← snip_trim (tstart start) dst_end;
      '(value, bytes) ←
        match bytes_tok with
        | Some btok =>
            value ← snip_trim (tend last_eq_tok) (tstart btok);
            _ ← with_fuel (bump_to (tstart btok));
            bytes ← parse_byte_list;
            mret (value, bytes)
        | None =>
            last_tok_end ← with_fuel (bump_line (line start) (tend last_eq_tok));
            value ← snip_trim (tend last_eq_tok) last_tok_end;
            mret (value, [])
        end;
      let value := strip_semicolon value in
      match compound_op with
      | Some _ => op ← snip_trim dst_end (tend last_eq_tok); mret (RegArith dst op value bytes)
      | None => mret (Move dst value bytes)
      end
  end.

(** * Calls *)

(** [while self.pos < self.tokens.len() && self.pos <= close { self.bump() }]. *)
Fixpoint bump_past (close : nat) (fuel : nat) : P unit :=
  match fuel with
  | O => fail OutOfFuel
  | S f =>
      s ← get_parser;
      if (pos s <? length (tokens s))%nat && (pos s <=? close)%nat then _ ← bump; bump_past close f else mret tt
  end.

Fixpoint method_chain (start : nat) (name : list byte) (fuel : nat) : P (list byte) :=
  match fuel with
  | O => fail OutOfFuel
  | S f =>
      a ← at_kind Arrow;
      if a : bool then
        _ ← bump;
        tok ← peek;
        match kind tok with
        | Ident _ => _ ← bump; name ← snip start (tend tok); method_chain start name f
        | _ => mret name
        end
      else mret name
  end.

Definition parse_call_target_name : P (list byte) :=
  tok ← peek;
  s ← get_parser;
  match kind tok with
  | Ident n => _ ← bump; with_fuel (method_chain (tstart tok) n)
  | LBracket =>
      match c ← find_matching_close (tokens s) (pos s); t ← tokens s !! c; Some (c, t) with
      | None => fail UnexpectedEof
      | Some (close, t) => text ← snip (tstart tok) (tend t); _ ← with_fuel (bump_past close); mret text
      end
  | LParen =>
      match c ← find_matching_close (tokens s) (pos s); t ← tokens s !! c; Some (c, t) with
      | None => fail UnexpectedEof
      | Some (close, t) => inner ← snip_trim (tend tok) (tstart t); _ ← with_fuel (bump_past close); mret inner
      end
  | _ => expected_at tok
  end.

(** One segment of the arguments: nothing, or its text. *)
Definition flush_call_arg (seg_start seg_end : nat) (seg_string : option (list byte)) (token_count : nat) : P (list (list byte)) :=
  match token_count, seg_string with
  | O, _ => mret []
  | 1%nat, Some s => mret [s]
  | _, _ => raw ← snip_trim seg_start seg_end; mret (match raw with [] => [] | _ => [raw] end)
  end.

Fixpoint collect_call_args (depth : Z) (seg_start : nat) (seg_string : option (list byte)) (seg_token_count : nat) (fuel : nat)
    : P (list (list byte)) :=
  match fuel with
  | O => fail OutOfFuel
  | S f =>
      tok ← peek;
      let closing := _ ← bump; collect_call_args (depth - 1) seg_start seg_string (S seg_token_count) f in
      let other := _ ← bump; collect_call_args depth seg_start None (S seg_token_count) f in
      match kind tok with
      | LParen | LBracket => _ ← bump; collect_call_args (depth + 1) seg_start seg_string (S seg_token_count) f
      | RParen => if 0 <? depth then closing else flush_call_arg seg_start (tstart tok) seg_string seg_token_count
      | RBracket => if 0 <? depth then closing else other
      | Comma =>
          if depth =? 0 then
            a ← flush_call_arg seg_start (tstart tok) seg_string seg_token_count;
            _ ← bump;
            next ← peek;
            rest ← collect_call_args 0 (tstart next) None 0 f;
            mret (a ++ rest)
          else other
      | Eof => fail UnexpectedEof
      | TString s =>
          _ ← bump;
          collect_call_args depth seg_start (if (seg_token_count =? 0)%nat then Some s else None) (S seg_token_count) f
      | _ => other
      end
  end.

(** The value of the first attribute [name] with an integer. *)
Fixpoint find_int_attr (name : list byte) (attrs : list Attribute) : option Z :=
  match attrs with
  | [] => None
  | a :: attrs =>
      match avalue a with
      | AInt n => if decide (key a = name) then Some n else find_int_attr name attrs
      | _ => find_int_attr name attrs
      end
  end.

Definition parse_call_stmt : P Stmt :=
  name ← parse_call_target_name;
  _ ← expect LParen;
  first ← peek;
  args ← if decide (kind first = RParen) then mret [] else with_fuel (collect_call_args 0 (tstart first) None 0);
  _ ← expect RParen;
  attrs ← parse_attrs;
  s ← get_parser;
  let call_line := match tokens s !! (pos s - 1)%nat with Some t => line t | None => O end in
  tok ← peek;
  bytes ← if bool_decide (kind tok = LBracket) && (line tok =? call_line)%nat && is_byte_list_block (tokens s) (pos s)
          then parse_byte_list else mret [];
  mret (Call name args bytes (find_int_attr (str "target") attrs)).

Definition parse_call_or_move_stmt : P Stmt :=
  tok ← peek;
  s ← get_parser;
  match kind tok with
  | Ident _ =>
      if bool_decide ((kind <$> tokens s !! (pos s + 1)%nat) = Some LParen) || lookahead_is_method_call (tokens s) (pos s)
      then parse_call_stmt else parse_move_stmt
  | _ =>
      match close ← find_matching_close (tokens s) (pos s); kind <$> tokens s !! (close + 1)%nat with
      | Some LParen => parse_call_stmt
      | _ => parse_move_stmt
      end
  end.

(** * Jumps and returns *)

Definition parse_return_stmt : P Stmt :=
  _ ← bump;
  e ← at_kind Semicolon;
  value_text ← if e : bool then mret [] else parse_until_semicolon;
  _ ← expect Semicolon;
  bytes ← opt_byte_list;
  mret match parse_int_literal value_text with Some value => Return value bytes | None => ReturnExpr value_text bytes end.

(** What the attributes of a conditional jump say: its compare, its condition
    code, its width and its target; [None] for an unknown name. *)
Record jcc_attrs : Type := { j_cmp : list byte; j_code : option Z; j_wide : bool; j_target : option Z }.

Fixpoint fold_jcc_attrs (attrs : list Attribute) (j : jcc_attrs) : option jcc_attrs :=
  match attrs with
  | [] => Some j
  | a :: attrs =>
      match avalue a with
      | AString s =>
          if decide (key a = str "cond") then
            code ← jcc_cond_code_from_name s;
            fold_jcc_attrs attrs {| j_cmp := j_cmp j; j_code := Some code; j_wide := j_wide j; j_target := j_target j |}
          else fold_jcc_attrs attrs j
      | AByteList b =>
          fold_jcc_attrs attrs
            (if decide (key a = str "cmp")
             then {| j_cmp := b; j_code := j_code j; j_wide := j_wide j; j_target := j_target j |} else j)
      | AFlag =>
          fold_jcc_attrs attrs
            (if decide (key a = str "wide")
             then {| j_cmp := j_cmp j; j_code := j_code j; j_wide := true; j_target := j_target j |} else j)
      | AInt n =>
          fold_jcc_attrs attrs
            (if decide (key a = str "target")
             then {| j_cmp := j_cmp j; j_code := j_code j; j_wide := j_wide j; j_target := Some n |} else j)
      end
  end.

Definition parse_jcc_attrs (anchor_tok : Token) : P (list byte * Z * bool * option Z) :=
  attrs ← parse_attrs;
  match j ← fold_jcc_attrs attrs {| j_cmp := []; j_code := None; j_wide := false; j_target := None |};
        code ← j_code j; Some (j_cmp j, code, j_wide j, j_target j) with
  | Some r => mret r
  | None => expected_at anchor_tok
  end.

Definition parse_if_goto_tail (cond_text : list byte) : P Stmt :=
  _ ← bump;
  label_tok ← peek;
  target_addr ← expect_label;
  '(cmp_bytes, cond_code, wide, _) ← parse_jcc_attrs label_tok;
  _ ← expect Semicolon;
  mret (IfGoto cond_text target_addr cmp_bytes cond_code wide).

Definition parse_if_return_tail (cond_text : list byte) : P Stmt :=
  anchor_tok ← peek;
  _ ← bump;
  k ← peek_kind;
  value_text ← if is_semicolon_or_hash k then mret [] else parse_until_semicolon_or_attr;
  '(cmp_bytes, cond_code, wide, target) ← parse_jcc_attrs anchor_tok;
  _ ← expect Semicolon;
  match target with
  | Some target_addr => mret (IfReturn cond_text value_text target_addr cmp_bytes cond_code wide)
  | None => expected_at anchor_tok
  end.

Definition parse_goto_stmt : P Stmt :=
  _ ← bump;
  target_addr ← expect_label;
  attrs ← parse_attrs;
  _ ← expect Semicolon;
  mret (Goto target_addr
    (existsb (fun a => str_eqb (key a) (str "wide") && match avalue a with AFlag => true | _ => false end) attrs)).

Definition parse_label_stmt : P Stmt := a ← expect_label; _ ← expect Colon; mret (Label a).

(** * Switches *)

(** The last attribute with that name and the right kind of value. *)
Definition last_string_attr (name : list byte) (attrs : list Attribute) : option (list byte) :=
  foldl (fun d a => match avalue a with AString s => if decide (key a = name) then Some s else d | _ => d end) None attrs.
Definition last_int_attr (name : list byte) (attrs : list Attribute) : option Z :=
  foldl (fun d a => match avalue a with AInt n => if decide (key a = name) then Some n else d | _ => d end) None attrs.

(** [: goto label;]. *)
Definition case_target : P Z :=
  _ ← expect Colon; _ ← expect_keyword (str "goto"); t ← expect_label; _ ← expect Semicolon; mret t.

Fixpoint switch_cases (case_table : list (Z * Z)) (default_addr : option Z) (fuel : nat) : P (list (Z * Z) * option Z) :=
  match fuel with
  | O => fail OutOfFuel
  | S f =>
      e ← at_kind RBrace;
      if e : bool then mret (case_table, default_addr)
      else
        kw_tok ← peek;
        kw ← expect_ident;
        if decide (kw = str "case") then
          value ← expect_int; t ← case_target; switch_cases (case_table ++ [(value, t)]) default_addr f
        else if decide (kw = str "default") then
          t ← case_target; switch_cases case_table (Some t) f
        else expected_at kw_tok
  end.

Definition parse_switch_stmt : P Stmt :=
  switch_tok ← peek;
  _ ← bump;
  selector ← parens;
  attrs ← parse_attrs;
  match dispatch ← last_string_attr (str "dispatch") attrs; va ← last_int_attr (str "table_va") attrs; Some (dispatch, va) with
  | None => expected_at switch_tok
  | Some (dispatch, table_va) =>
      _ ← expect LBrace;
      '(case_table, default_addr) ← with_fuel (switch_cases [] None);
      _ ← expect RBrace;
      mret (Switch selector (map snd (sort_by_key fst case_table))
              (match default_addr with Some a => a | None => 0 end) dispatch table_va)
  end.

(** * Prologues and epilogues *)

Definition codec_bits (bits : Z) : CodecBits := if bits =? 64 then Bits64 else Bits32.

Definition prologue_to_codec (p : PrologueParams) : StructuredPrologue :=
  {| saves := pp_saves p; saves_after := pp_saves_after p; frame := pp_frame p; sub_esp := pp_sub_esp p;
     cf_protect := pp_cf_protect p; frame_alt_encoding := pp_frame_alt p |}.

Definition epilogue_to_codec (e : EpilogueParams) : StructuredEpilogue :=
  {| e_saves := ep_saves e; leave := ep_leave e; pop_frame := ep_pop_frame e; add_esp := ep_add_esp e; ret_imm := ep_ret_imm e |}.

Definition encode_prologue_bytes (params : PrologueParams) (bits : Z) : res unit (list byte) :=
  encode_prologue (prologue_to_codec params) (codec_bits bits).

Definition encode_epilogue_bytes (params : EpilogueParams) (bits : Z) : res unit (list byte) :=
  encode_epilogue (epilogue_to_codec params) (codec_bits bits).

Definition default_prologue_params : PrologueParams :=
  {| pp_saves := []; pp_saves_after := []; pp_frame := false; pp_sub_esp := 0; pp_cf_protect := false; pp_frame_alt := false |}.
Definition default_epilogue_params : EpilogueParams :=
  {| ep_saves := []; ep_leave := false; ep_pop_frame := false; ep_add_esp := 0; ep_ret_imm := 0 |}.

(** One field of a structured prologue. *)
Definition parse_prologue_field (p : PrologueParams) : P PrologueParams :=
  kw_tok ← peek;
  kw ← expect_ident;
  if decide (kw = str "saves") then
    _ ← expect Colon; r ← parse_register_list;
    mret {| pp_saves := r; pp_saves_after := pp_saves_after p; pp_frame := pp_frame p; pp_sub_esp := pp_sub_esp p;
            pp_cf_protect := pp_cf_protect p; pp_frame_alt := pp_frame_alt p |}
  else if decide (kw = str "saves_after") then
    _ ← expect Colon; r ← parse_register_list;
    mret {| pp_saves := pp_saves p; pp_saves_after := r; pp_frame := pp_frame p; pp_sub_esp := pp_sub_esp p;
            pp_cf_protect := pp_cf_protect p; pp_frame_alt := pp_frame_alt p |}
  else if decide (kw = str "frame") then
    e ← eat_kind Eq;
    alt ← if e : bool then _ ← expect_keyword (str "alt"); mret true else mret (pp_frame_alt p);
    mret {| pp_saves := pp_saves p; pp_saves_after := pp_saves_after p; pp_frame := true; pp_sub_esp := pp_sub_esp p;
            pp_cf_protect := pp_cf_protect p; pp_frame_alt := alt |}
  else if decide (kw = str "sub") then
    _ ← expect Colon; n ← expect_int;
    mret {| pp_saves := pp_saves p; pp_saves_after := pp_saves_after p; pp_frame := pp_frame p; pp_sub_esp := wrap 32 n;
            pp_cf_protect := pp_cf_protect p; pp_frame_alt := pp_frame_alt p |}
  else if decide (kw = str "cf") then
    mret {| pp_saves := pp_saves p; pp_saves_after := pp_saves_after p; pp_frame := pp_frame p; pp_sub_esp := pp_sub_esp p;
            pp_cf_protect := true; pp_frame_alt := pp_frame_alt p |}
  else expected_at kw_tok.

Definition parse_epilogue_field (e : EpilogueParams) : P EpilogueParams :=
  kw_tok ← peek;
  kw ← expect_ident;
  if decide (kw = str "saves") then
    _ ← expect Colon; r ← parse_register_list;
    mret {| ep_saves := r; ep_leave := ep_leave e; ep_pop_frame := ep_pop_frame e; ep_add_esp := ep_add_esp e;
            ep_ret_imm := ep_ret_imm e |}
  else if decide (kw = str "leave") then
    mret {| ep_saves := ep_saves e; ep_leave := true; ep_pop_frame := ep_pop_frame e; ep_add_esp := ep_add_esp e;
            ep_ret_imm := ep_ret_imm e |}
  else if decide (kw = str "pop_frame") then
    mret {| ep_saves := ep_saves e; ep_leave := ep_leave e; ep_pop_frame := true; ep_add_esp := ep_add_esp e;
            ep_ret_imm := ep_ret_imm e |}
  else if decide (kw = str "add") then
    _ ← expect Colon; n ← expect_int;
    mret {| ep_saves := ep_saves e; ep_leave := ep_leave e; ep_pop_frame := ep_pop_frame e; ep_add_esp := wrap 32 n;
            ep_ret_imm := ep_ret_imm e |}
  else if decide (kw = str "ret_imm") then
    _ ← expect Colon; n ← expect_int;
    mret {| ep_saves := ep_saves e; ep_leave := ep_leave e; ep_pop_frame := ep_pop_frame e; ep_add_esp := ep_add_esp e;
            ep_ret_imm := wrap 16 n |}
  else expected_at kw_tok.

(** [loop { if peek == RParen break; field; if peek == Comma bump }]. *)
Fixpoint params_loop {A} (field : A -> P A) (p : A) (fuel : nat) : P A :=
  match fuel with
  | O => fail OutOfFuel
  | S f =>
      e ← at_kind RParen;
      if e : bool then mret p else p ← field p; _ ← eat_kind Comma; params_loop field p f
  end.

Definition parse_prologue_params : P PrologueParams := with_fuel (params_loop parse_prologue_field default_prologue_params).
Definition parse_epilogue_params : P EpilogueParams := with_fuel (params_loop parse_epilogue_field default_epilogue_params).

(** Behind [@prologue] and [@epilogue]: the kind alone, with bytes, or with
    fields; [stmt] builds the statement, [enc] encodes the fields. *)
Definition parse_frame_directive {A} (dflt : A) (parse_params : P A) (enc : A -> Z -> res unit (list byte))
    (stmt : list byte -> option A -> list byte -> Stmt) : P Stmt :=
  _ ← expect LParen;
  k ← expect_string;
  e ← eat_kind RParen;
  s ← get_parser;
  if e : bool then bytes ← lift (enc dflt (bits s)); mret (stmt k (Some dflt) bytes)
  else
    _ ← expect Comma;
    b ← at_kind LBracket;
    if b : bool then bytes ← parse_byte_list; _ ← expect RParen; mret (stmt k None bytes)
    else
      params ← parse_params;
      _ ← expect RParen;
      bytes ← lift (enc params (bits s));
      mret (stmt k (Some params) bytes).

(** * Directives without a body *)

(** [, [bytes])]. *)
Definition bytes_close : P (list byte) := bytes ← parse_byte_list; _ ← expect RParen; mret bytes.

Definition int_comma : P Z := n ← expect_int; _ ← expect Comma; mret n.
Definition string_comma : P (list byte) := s ← expect_string; _ ← expect Comma; mret s.

Definition parse_simple_directive (dir_name : list byte) (dir_tok : Token) : P Stmt :=
  if decide (dir_name = str "asm") then
    _ ← expect LParen;
    text ← expect_string;
    c ← eat_kind Comma;
    bytes ← if c : bool then parse_byte_list else mret [];
    _ ← expect RParen;
    mret (Asm text bytes)
  else if decide (dir_name = str "return") then
    _ ← expect LParen; value ← int_comma; bytes ← bytes_close; mret (Return value bytes)
  else if decide (dir_name = str "prologue") then
    parse_frame_directive default_prologue_params parse_prologue_params encode_prologue_bytes Prologue
  else if decide (dir_name = str "epilogue") then
    parse_frame_directive default_epilogue_params parse_epilogue_params encode_epilogue_bytes Epilogue
  else if decide (dir_name = str "save") then
    _ ← expect LParen; reg ← string_comma; bytes ← bytes_close; mret (Save reg bytes)
  else if decide (dir_name = str "restore") then
    _ ← expect LParen; reg ← string_comma; bytes ← bytes_close; mret (RestoreReg reg bytes)
  else if decide (dir_name = str "seh_install") then
    _ ← expect LParen; bytes ← bytes_close; mret (SehInstall bytes)
  else if decide (dir_name = str "seh_restore") then
    _ ← expect LParen; bytes ← bytes_close; mret (SehRestore bytes)
  else if decide (dir_name = str "if_return") then fail (Expected 0 0)
  else if decide (dir_name = str "return_expr") then
    _ ← expect LParen; text ← string_comma; bytes ← bytes_close; mret (ReturnExpr text bytes)
  else if decide (dir_name = str "arg_spill") then
    _ ← expect LParen;
    idx ← expect_int;
    if 2 ^ 32 - 1 <? idx then expected_at dir_tok
    else _ ← expect Comma; bytes ← bytes_close; mret (ArgSpill idx bytes)
  else if decide (dir_name = str "local_set") then
    _ ← expect LParen; slot ← int_comma; value ← int_comma; bytes ← bytes_close;
    mret (LocalSet (sint 64 slot) (sint 64 value) bytes)
  else if decide (dir_name = str "local_arith") then
    _ ← expect LParen; slot ← int_comma; op ← string_comma; value ← int_comma; bytes ← bytes_close;
    mret (LocalArith (sint 64 slot) op (sint 64 value) bytes)
  else if decide (dir_name = str "local_compound") then
    _ ← expect LParen; dst ← int_comma; op ← string_comma; src ← int_comma; bytes ← bytes_close;
    mret (LocalCompound (sint 64 dst) op (sint 64 src) bytes)
  else if decide (dir_name = str "move") then
    _ ← expect LParen; dst ← string_comma; src ← string_comma; bytes ← bytes_close; mret (Move dst src bytes)
  else if decide (dir_name = str "inc16") then
    _ ← expect LParen; lo ← string_comma; hi ← string_comma; bytes ← bytes_close; mret (Inc16 lo hi bytes)
  else fail (UnknownDirective dir_name (line dir_tok) (col dir_tok)).

(** * Statements with a body *)

(** [ensure_head_bytes]. *)
Definition ensure_head_bytes (cond_text : list byte) (pre_body : list Stmt) (attrs : list Attribute) : res unit (list Attribute) :=
  match pre_body with
  | [] => Ok attrs
  | _ =>
      if existsb (fun a => str_eqb (key a) (str "head_bytes")) attrs then Ok attrs
      else
        bytes ← encode_head_from_cond_text cond_text;
        Ok match bytes with
           | Some bytes => attrs ++ [{| key := str "head_bytes"; avalue := AByteList bytes |}]
           | None => attrs
           end
  end.

Section bodies.
(** [parse_stmt_list_until_rbrace] and [parse_stmt_list_one]. *)
Context (list_until_rbrace : P (list Stmt)) (stmt_list_one : P Stmt).

Definition block : P (list Stmt) := _ ← expect LBrace; b ← list_until_rbrace; _ ← expect RBrace; mret b.

Fixpoint if_arms (accumulated : list Stmt) (then_body else_body : option (list Stmt)) (fuel : nat)
    : P (list Stmt * option (list Stmt) * option (list Stmt)) :=
  match fuel with
  | O => fail OutOfFuel
  | S f =>
      k ← peek_kind;
      s ← get_parser;
      let next := if decide (k = At) then kind <$> tokens s !! (pos s + 1)%nat else None in
      if decide (next = Some (Ident (str "then")) \/ next = Some (Ident (str "else"))) then
        _ ← bump;
        arm_name ← expect_ident;
        arm ← block;
        if decide (arm_name = str "then") then if_arms accumulated (Some arm) else_body f
        else if_arms accumulated then_body (Some arm) f
      else if decide (k = RBrace) then mret (accumulated, then_body, else_body)
      else st ← stmt_list_one; if_arms (accumulated ++ [st]) then_body else_body f
  end.

Definition parse_if_body_with_optional_arms : P (list Stmt * list Stmt * option (list Stmt)) :=
  '(accumulated, then_body, else_body) ← with_fuel (if_arms [] None None);
  mret match then_body with
       | Some then_body => (accumulated, then_body, else_body)
       | None => ([], accumulated, else_body)
       end.

Definition parse_if_stmt : P Stmt :=
  _ ← bump;
  cond_text ← parens;
  r ← at_keyword (str "return");
  if r : bool then parse_if_return_tail cond_text
  else
    g ← at_keyword (str "goto");
    if g : bool then parse_if_goto_tail cond_text
    else
      attrs ← parse_attrs;
      cond_bytes ← opt_byte_list;
      _ ← expect LBrace;
      '(pre_body, then_body, else_body_in_braces) ← parse_if_body_with_optional_arms;
      _ ← expect RBrace;
      e ← at_keyword (str "else");
      else_body ← match else_body_in_braces with
                  | Some b => mret (Some b)
                  | None => if e : bool then _ ← bump; b ← block; mret (Some b) else mret None
                  end;
      attrs ← lift (ensure_head_bytes cond_text pre_body attrs);
      mret (IfBranch cond_text cond_bytes attrs pre_body then_body else_body).

Definition parse_do_while_stmt : P Stmt :=
  _ ← bump;
  e ← at_keyword (str "entry");
  entry_jmp_bytes ← if e : bool then _ ← bump; _ ← expect Eq; b ← parse_byte_list; mret (Some b) else mret None;
  body ← block;
  _ ← expect_keyword (str "while");
  cond_text ← parens;
  tail_bytes ← parse_byte_list;
  mret (Loop cond_text entry_jmp_bytes tail_bytes body).

Definition parse_ifblock_stmt : P Stmt :=
  _ ← bump;
  cond_text ← parens;
  cond_bytes ← parse_byte_list;
  then_body ← block;
  e ← at_keyword (str "else");
  '(then_tail_jmp, else_body) ←
    if e : bool then
      _ ← bump;
      t ← at_keyword (str "tail");
      tail ← if t : bool then _ ← bump; _ ← expect Eq; parse_byte_list else mret [];
      body ← block;
      mret (tail, body)
    else mret ([], []);
  mret (IfBlock cond_text cond_bytes then_body then_tail_jmp else_body).

Definition parse_whileblock_stmt : P Stmt :=
  _ ← bump;
  cond_text ← parens;
  _ ← expect_keyword (str "entry");
  _ ← expect Eq;
  entry_bytes ← parse_byte_list;
  _ ← expect_keyword (str "tail");
  _ ← expect Eq;
  tail_bytes ← parse_byte_list;
  body ← block;
  mret (WhileBlock cond_text entry_bytes tail_bytes body).

Definition parse_loop_directive : P Stmt :=
  _ ← expect LParen;
  e ← at_keyword (str "entry_jmp");
  entry_jmp_bytes ← if e : bool then _ ← bump; _ ← expect Eq; b ← parse_byte_list; _ ← expect Comma; mret (Some b) else mret None;
  cond_text ← string_comma;
  tail_bytes ← bytes_close;
  body ← block;
  mret (Loop cond_text entry_jmp_bytes tail_bytes body).

(** The arms of [@if_branch], the closing brace included. *)
Fixpoint branch_arms (then_body else_body : option (list Stmt)) (fuel : nat) : P (option (list Stmt) * option (list Stmt)) :=
  match fuel with
  | O => fail OutOfFuel
  | S f =>
      k ← peek_kind;
      match k with
      | RBrace => _ ← bump; mret (then_body, else_body)
      | Eof => fail UnexpectedEof
      | Comment _ => _ ← bump; branch_arms then_body else_body f
      | At =>
          _ ← bump;
          arm_tok ← peek;
          arm_name ← expect_ident;
          if decide (arm_name = str "then") then
            match then_body with
            | Some _ => expected_at arm_tok
            | None => b ← block; branch_arms (Some b) else_body f
            end
          else if decide (arm_name = str "else") then
            match else_body with
            | Some _ => expected_at arm_tok
            | None => b ← block; branch_arms then_body (Some b) f
            end
          else fail (UnknownDirective arm_name (line arm_tok) (col arm_tok))
      | _ => expected_here
      end
  end.

Definition parse_if_branch_directive (dir_tok : Token) : P Stmt :=
  _ ← expect LParen;
  cond_text ← string_comma;
  cond_bytes ← bytes_close;
  _ ← expect LBrace;
  '(then_body, else_body) ← with_fuel (branch_arms None None);
  match then_body with
  | Some then_body => mret (IfBranch cond_text cond_bytes [] [] then_body else_body)
  | None => expected_at dir_tok
  end.

Definition parse_stmt_at_directive (dir_name : list byte) (dir_tok : Token) : P Stmt :=
  if decide (dir_name = str "if_branch") then parse_if_branch_directive dir_tok
  else if decide (dir_name = str "loop") then parse_loop_directive
  else parse_simple_directive dir_name dir_tok.

(** The match on the first token; [with_switch] in
    [parse_stmt_list_until_rbrace], which alone knows [switch]. *)
Definition parse_stmt (with_switch : bool) : P Stmt :=
  tok ← peek;
  match kind tok with
  | Comment text => _ ← bump; mret (StComment text)
  | At =>
      _ ← bump;
      dir_tok ← peek;
      dir_name ← expect_ident;
      parse_stmt_at_directive dir_name dir_tok
  | Ident name =>
      if decide (name = str "if") then parse_if_stmt
      else if decide (name = str "ifblock") then parse_ifblock_stmt
      else if decide (name = str "whileblock") then parse_whileblock_stmt
      else if decide (name = str "do") then parse_do_while_stmt
      else if decide (name = str "goto") then parse_goto_stmt
      else if decide (name = str "return") then parse_return_stmt
      else if with_switch && bool_decide (name = str "switch") then parse_switch_stmt
      else if is_label_name name then
        s ← get_parser;
        if decide ((kind <$> tokens s !! (pos s + 1)%nat) = Some Colon) then parse_label_stmt else parse_call_or_move_stmt
      else parse_call_or_move_stmt
  | LBracket | LParen | Dollar => parse_call_or_move_stmt
  | _ => expected_at tok
  end.
End bodies.

(** [parse_stmt_list_until_rbrace] and [parse_stmt_list_one]. *)
Fixpoint parse_stmt_list_until_rbrace (fuel : nat) : P (list Stmt) :=
  match fuel with
  | O => fail OutOfFuel
  | S f =>
      k ← peek_kind;
      match k with
      | RBrace => mret []
      | Eof => fail UnexpectedEof
      | _ =>
          s ← parse_stmt (parse_stmt_list_until_rbrace f) (parse_stmt_list_one f) true;
          l ← parse_stmt_list_until_rbrace f;
          mret (s :: l)
      end
  end
with parse_stmt_list_one (fuel : nat) : P Stmt :=
  match fuel with
  | O => fail OutOfFuel
  | S f =>
      k ← peek_kind;
      match k with
      | Eof => fail UnexpectedEof
      | _ => parse_stmt (parse_stmt_list_until_rbrace f) (parse_stmt_list_one f) false
      end
  end.

(** * Functions and items *)

(** The names and types of one [let]. *)
Fixpoint let_group (fuel : nat) : P (list (list byte * Ty)) :=
  match fuel with
  | O => fail OutOfFuel
  | S f =>
      name ← expect_ident; _ ← expect Colon; ty ← with_fuel parse_type;
      c ← eat_kind Comma;
      if c : bool then l ← let_group f; mret ((name, ty) :: l) else mret [(name, ty)]
  end.

(** One [let]: its names share the kind. *)
Definition parse_let : P (list LocalDecl) :=
  _ ← bump;
  group ← with_fuel let_group;
  a ← eat_kind At;
  k ← if a : bool then
        marker ← expect_ident;
        if decide (marker = str "reg") then mret LRegister else expected_here
      else mret LStack;
  _ ← expect Semicolon;
  mret (map (fun '(name, ty) => {| l_name := name; l_ty := ty; l_kind := k |}) group).

Fixpoint parse_local_decls (fuel : nat) : P (list LocalDecl) :=
  match fuel with
  | O => fail OutOfFuel
  | S f =>
      is_let ← at_keyword (str "let");
      if is_let : bool then d ← parse_let; l ← parse_local_decls f; mret (d ++ l) else mret []
  end.

Definition signature_of (params : option (list Param)) (return_type : option Ty) : option Signature :=
  match params, return_type with
  | None, None => None
  | Some p, Some r => Some {| params := p; return_type := r |}
  | Some p, None => Some {| params := p; return_type := TVoid |}
  | None, Some r => Some {| params := []; return_type := r |}
  end.

Definition parse_fn (addr : option Z) : P Item :=
  _ ← expect_keyword (str "fn");
  name ← expect_ident;
  _ ← expect LParen;
  e ← at_kind RParen;
  params ← if e : bool then mret None else l ← parse_param_list; mret (Some l);
  _ ← expect RParen;
  a ← eat_kind Arrow;
  return_type ← if a : bool then t ← with_fuel parse_type; mret (Some t) else mret None;
  attrs ← parse_attrs;
  _ ← expect LBrace;
  locals ← with_fuel parse_local_decls;
  body ← with_fuel parse_stmt_list_until_rbrace;
  _ ← expect RBrace;
  mret (Function {| addr := addr; fn_name := name; attrs := attrs; signature := signature_of params return_type;
                    locals := locals; body := body |}).

(** The fields of a note read so far. *)
Definition note_fields : Type := option Z * option (list byte) * option (list byte).

Fixpoint note_loop (n : note_fields) (fuel : nat) : P note_fields :=
  match fuel with
  | O => fail OutOfFuel
  | S f =>
      e ← at_kind RBrace;
      if e : bool then mret n
      else
        key_tok ← peek;
        key ← expect_ident;
        _ ← expect Colon;
        let '(ty, name, desc) := n in
        n ← (if decide (key = str "type") then
               v ← expect_int; if v <? 2 ^ 32 then mret (Some v, name, desc) else expected_at key_tok
             else if decide (key = str "name") then v ← expect_string; mret (ty, Some v, desc)
             else if decide (key = str "desc") then v ← parse_byte_list; mret (ty, name, Some v)
             else expected_at key_tok);
        c ← eat_kind Comma;
        if c : bool then note_loop n f else mret n
  end.

Definition parse_note_entry : P NoteEntry :=
  _ ← expect LBrace;
  '(ty, name, desc) ← with_fuel (note_loop (None, None, None));
  _ ← expect RBrace;
  match ty with
  | Some ty => mret {| note_type := ty; note_name := match name with Some n => n | None => [] end;
                       desc := match desc with Some d => d | None => [] end |}
  | None => expected_here
  end.

Definition parse_jump_table_entry : P JumpTableEntry :=
  case_ident ← expect_ident;
  match s ← strip_prefix (str "case_") case_ident; parse_unsigned 10 64 s with
  | None => expected_here
  | Some c =>
      _ ← expect Colon;
      target_ident ← expect_ident;
      match parse_label_addr target_ident with
      | None => expected_here
      | Some t => mret {| case := c; target := t |}
      end
  end.

Section items.
Context (parse_item : P Item).

Definition parse_at_directive (fuel : nat) : P Item :=
  _ ← expect At;
  dir_tok ← peek;
  name ← expect_ident;
  if decide (name = str "addr") then
    _ ← expect LParen; a ← expect_int; _ ← expect RParen; parse_fn (Some a)
  else if decide (name = str "raw") then
    _ ← expect LParen; a ← int_comma; bytes ← bytes_close; mret (Raw a bytes)
  else if decide (name = str "strings") then
    _ ← expect LParen; a ← int_comma; _ ← expect LBracket;
    strings ← with_fuel (while_list expect_string RBracket);
    _ ← expect RBracket; _ ← expect RParen;
    mret (Strings a strings)
  else if decide (name = str "notes") then
    _ ← expect LParen; a ← int_comma; _ ← expect LBracket;
    entries ← with_fuel (while_list parse_note_entry RBracket);
    _ ← expect RBracket; _ ← expect RParen;
    mret (Notes a entries)
  else if decide (name = str "jump_table") then
    _ ← expect LParen; a ← int_comma;
    dispatch_key ← expect_ident;
    if decide (dispatch_key <> str "dispatch") then expected_at dir_tok
    else
      _ ← expect Eq; dispatch ← expect_string; _ ← expect RParen; _ ← expect LBrace;
      entries ← with_fuel (while_list parse_jump_table_entry RBrace);
      _ ← expect RBrace;
      mret (JumpTable a dispatch entries)
  else if decide (name = str "section") then
    _ ← expect LParen; section_name ← string_comma; a ← expect_int; _ ← expect RParen; _ ← expect LBrace;
    items ← many_until parse_item RBrace fuel;
    _ ← expect RBrace;
    mret (Section_ section_name a items)
  else fail (UnknownDirective name (line dir_tok) (col dir_tok)).
End items.

Fixpoint parse_item (fuel : nat) : P Item :=
  match fuel with
  | O => fail OutOfFuel
  | S f =>
      tok ← peek;
      match kind tok with
      | Comment text => _ ← bump; mret (ItComment text)
      | At => parse_at_directive (parse_item f) f
      | Ident name => if decide (name = str "fn") then parse_fn None else expected_at tok
      | _ => expected_at tok
      end
  end.

(** [while self.peek().kind != Eof { item }]. *)
Definition parse_items : P (list Item) := with_fuel (many_until (with_fuel parse_item) Eof).

(** The width the header declares: its first field [bits] decides. *)
Fixpoint module_bits (fields : list Field) (dflt : Z) : Z :=
  match fields with
  | [] => dflt
  | (name, v) :: fields =>
      if decide (name = str "bits") then match v with VInt n => if n <? 2 ^ 32 then n else dflt | _ => dflt end
      else module_bits fields dflt
  end.

Definition set_bits (b : Z) : P unit := fun s => Ok (tt, {| src := src s; tokens := tokens s; pos := pos s; bits := b |}).

Definition parse_file : P UdFile :=
  module ← parse_module;
  s ← get_parser;
  _ ← set_bits (module_bits module (bits s));
  items ← parse_items;
  mret {| module := module; items := items |}.

Definition parse (input : list byte) : res ParseError UdFile :=
  tokens ← map_err Lex (tokenize input);
  '(file, _) ← parse_file (parser_new input tokens);
  Ok file.
