(* ===== verification/ParserTotal.v ===== *)
(** The parser ends: on every text the lexer accepts, every loop and every
    recursion of [Parser] finishes within its fuel, the number of tokens.

    [runs m s Q]: from [s], [m] does not run out of fuel, and a result
    satisfies [Q] (errors and panics are allowed). [Total] is the contract of
    a parsing function: it only moves forward in the token list, strictly so
    when it consumes something. *)

From S2P Require Import Prelude Text X86Prologue X86CondText Lexer LexerSpec Ast Parser.

(** * States *)

(** The last token alone is [Eof], and the tokens are in the order of the
    text. *)
Definition ordered_tokens (toks : list Token) : Prop :=
  (forall i t, toks !! i = Some t -> kind t <> Eof -> (S i < length toks)%nat) /\
  (forall i j t u, toks !! i = Some t -> toks !! j = Some u -> (i <= j)%nat -> (tstart t <= tstart u)%nat).

Definition wf (s : Parser) : Prop := (pos s < length (tokens s))%nat /\ ordered_tokens (tokens s).

Definition left (s : Parser) : nat := length (tokens s) - pos s.

Definition here (s : Parser) (t : Token) : Prop := tokens s !! pos s = Some t.

(** [s'] is [s] further on. *)
Record later (strict : bool) (s s' : Parser) : Prop := {
  later_tokens : tokens s' = tokens s;
  later_len : length (tokens s') = length (tokens s);
  later_wf : wf s';
  later_pos : (if strict then pos s < pos s' else pos s <= pos s')%nat;
}.

Definition runs {A} (m : P A) (s : Parser) (Q : A -> Parser -> Prop) : Prop :=
  match m s with Ok (a, s') => Q a s' | Err OutOfFuel => False | _ => True end.

Lemma later_refl s : wf s -> later false s s.
Proof. by intros H. Qed.

Lemma later_weaken b s s' : later b s s' -> later false s s'.
Proof. intros [? ? ? ?]. split; [done|done|done|]. destruct b; lia. Qed.

Lemma later_trans b1 b2 s1 s2 s3 : later b1 s1 s2 -> later b2 s2 s3 -> later (b1 || b2) s1 s3.
Proof. intros [? ? ? ?] [? ? ? ?]. split; [congruence|congruence|done|]. destruct b1, b2; cbn; lia. Qed.

Lemma left_pos s : wf s -> (0 < left s)%nat.
Proof. intros [H _]. unfold left. lia. Qed.

Lemma later_left b s s' : later b s s' -> (left s' + (if b then 1 else 0) <= left s)%nat.
Proof. intros [_ Hl [Hw _] Hp]. unfold left. rewrite Hl in *. destruct b; lia. Qed.

(** * Rules *)

Lemma runs_ret {A} (a : A) s (Q : A -> Parser -> Prop) : Q a s -> runs (mret a) s Q.
Proof. done. Qed.

Lemma runs_bind {A B} (m : P A) (f : A -> P B) s Q : runs m s (fun a s' => runs (f a) s' Q) -> runs (m ≫= f) s Q.
Proof. unfold runs, mbind, P_bind. by destruct (m s) as [[a s']|[]|]. Qed.

Lemma runs_mono {A} (m : P A) s (Q Q' : A -> Parser -> Prop) : runs m s Q -> (forall a s', Q a s' -> Q' a s') -> runs m s Q'.
Proof. unfold runs. destruct (m s) as [[a s']|[]|]; auto. Qed.

Lemma runs_fail {A} e s (Q : A -> Parser -> Prop) : e <> OutOfFuel -> runs (fail e) s Q.
Proof. by destruct e. Qed.

Lemma runs_expected_at {A} t s (Q : A -> Parser -> Prop) : runs (expected_at t) s Q.
Proof. done. Qed.

Lemma runs_lift {E A} (r : res E A) s (Q : A -> Parser -> Prop) : (forall a, Q a s) -> runs (lift r) s Q.
Proof. intros H. unfold runs, lift. by destruct r. Qed.

Lemma runs_get s (Q : Parser -> Parser -> Prop) : Q s s -> runs get_parser s Q.
Proof. done. Qed.

Lemma runs_peek s (Q : Token -> Parser -> Prop) : (forall t, here s t -> Q t s) -> runs peek s Q.
Proof. intros H. unfold runs, peek, here in *. destruct (_ !! _); auto. Qed.

Lemma runs_bump_more s t (Q : Token -> Parser -> Prop) : wf s -> here s t -> (S (pos s) < length (tokens s))%nat ->
  (forall s', later true s s' -> Q t s') -> runs bump s Q.
Proof.
  intros [Hp Hw] Ht Hl H. unfold runs, bump. unfold here in Ht. rewrite Ht. apply H.
  replace (pos s + 1 <? length (tokens s))%nat with true by (symmetry; apply Nat.ltb_lt; lia).
  split; cbn; [done|done|split; cbn; [lia|done]|lia].
Qed.

Lemma runs_bump s t (Q : Token -> Parser -> Prop) : wf s -> here s t -> kind t <> Eof ->
  (forall s', later true s s' -> Q t s') -> runs bump s Q.
Proof. intros Hw Ht Hk. apply runs_bump_more; [done|done|]. by eapply Hw. Qed.

Lemma runs_peek_kind s (Q : TokenKind -> Parser -> Prop) : (forall t, here s t -> Q (kind t) s) -> runs peek_kind s Q.
Proof. intros H. apply runs_bind, runs_peek. intros t Ht. by apply runs_ret, H. Qed.

Lemma runs_at_kind s k (Q : bool -> Parser -> Prop) :
  (forall t, here s t -> kind t = k -> Q true s) -> (forall t, here s t -> kind t <> k -> Q false s) -> runs (at_kind k) s Q.
Proof.
  intros H1 H2. apply runs_bind, runs_peek_kind. intros t Ht. apply runs_ret.
  destruct (decide (kind t = k)); [rewrite bool_decide_eq_true_2 by done|rewrite bool_decide_eq_false_2 by done]; eauto.
Qed.

(** The contract, for states with at most [n] tokens left. *)
Class Total {A} (n : nat) (strict : bool) (m : P A) : Prop :=
  total : forall s, wf s -> (left s <= n)%nat -> runs m s (fun _ s' => later strict s s').

Lemma runs_total {A} b (m : P A) s (Q : A -> Parser -> Prop) : Total (left s) b m -> wf s ->
  (forall a s', later b s s' -> Q a s') -> runs m s Q.
Proof. intros Hm Hs HQ. eapply runs_mono; [by apply Hm|]. auto. Qed.

Lemma total_mono {A} n n' (m : P A) b : (n' <= n)%nat -> Total n b m -> Total n' b m.
Proof. intros Hn Hm s Hs Hl. apply Hm; [done|lia]. Qed.

(** A loop whose fuel covers what is left. *)
Lemma total_with_fuel {A : Type} n b (f : nat -> P A) : (forall k m, (m <= k)%nat -> (m <= n)%nat -> Total m b (f k)) ->
  Total n b (with_fuel f).
Proof.
  intros Hf s Hs Hn. unfold with_fuel, runs. apply (Hf _ (left s)); [unfold left; lia|done|done|lia].
Qed.

(** What is known of the states met so far. *)
Ltac facts :=
  repeat match goal with
  | H : later ?b ?s ?s' |- _ =>
      lazymatch goal with
      | _ : tokens s' = tokens s |- _ => fail
      | _ =>
          let Hp := fresh "Hp" in let Hf := fresh "Hf" in
          pose proof (later_tokens _ _ _ H); pose proof (later_pos _ _ _ H) as Hp; pose proof (later_wf _ _ _ H);
          pose proof (later_left _ _ _ H) as Hf; cbn [andb orb] in Hp, Hf; cbv iota in Hp, Hf
      end
  end.

Ltac later_lia := facts; cbn [andb orb] in *; lia.

(** [later] from a chain of steps. *)
Lemma later_intro (b : bool) (s s' : Parser) : tokens s' = tokens s -> wf s' -> (if b then pos s < pos s' else pos s <= pos s')%nat -> later b s s'.
Proof. intros E Hw Hp. split; [done|by rewrite E|done|done]. Qed.

Ltac solve_later := facts; apply later_intro; [congruence|done|cbn [andb orb] in *; lia].

Lemma kind_not_eof t k : kind t = k -> k <> Eof -> kind t <> Eof.
Proof. by intros ->. Qed.

#[export] Instance peek_kind_total n : Total n false peek_kind.
Proof. intros s Hs _. apply runs_bind, runs_peek. intros t _. apply runs_ret. by apply later_refl. Qed.

#[export] Instance get_total n : Total n false get_parser.
Proof. intros s Hs _. by apply runs_get, later_refl. Qed.

#[export] Instance at_kind_total n k : Total n false (at_kind k).
Proof. intros s Hs Hn. apply runs_bind. eapply runs_total; [apply _|done|]. intros a s' H. by apply runs_ret. Qed.

#[export] Instance at_keyword_total n k : Total n false (at_keyword k).
Proof. intros s Hs Hn. apply runs_bind. eapply runs_total; [apply _|done|]. intros a s' H. by apply runs_ret. Qed.

Lemma expect_total n k : k <> Eof -> Total n true (expect k).
Proof.
  intros Hk s Hs _. apply runs_bind, runs_peek. intros t Ht. destruct (decide (kind t = k)) as [E|]; [|done].
  apply runs_bind. eapply runs_bump; [done|done|by rewrite E|]. intros s' H. by apply runs_ret.
Qed.

Lemma eat_kind_total n k : k <> Eof -> Total n false (eat_kind k).
Proof.
  intros Hk s Hs _. apply runs_bind, runs_peek. intros t Ht. destruct (decide (kind t = k)) as [E|].
  - apply runs_bind. eapply runs_bump; [done|done|by rewrite E|]. intros s' H. apply runs_ret. by eapply later_weaken.
  - apply runs_ret. by apply later_refl.
Qed.
#[export] Hint Extern 1 (Total _ _ (expect _)) => (apply expect_total; discriminate) : typeclass_instances.
#[export] Hint Extern 1 (Total _ _ (eat_kind _)) => (apply eat_kind_total; discriminate) : typeclass_instances.

#[export] Instance expect_ident_total n : Total n true expect_ident.
Proof.
  intros s Hs _. apply runs_bind, runs_peek. intros t Ht. destruct (kind t) eqn:E; try done.
  apply runs_bind. eapply runs_bump; [done|done|by rewrite E|]. intros s' H. by apply runs_ret.
Qed.

#[export] Instance expect_string_total n : Total n true expect_string.
Proof.
  intros s Hs _. apply runs_bind, runs_peek. intros t Ht. destruct (kind t) eqn:E; try done.
  apply runs_bind. eapply runs_bump; [done|done|by rewrite E|]. intros s' H. by apply runs_ret.
Qed.

#[export] Instance expect_int_total n : Total n true expect_int.
Proof.
  intros s Hs _. apply runs_bind, runs_peek. intros t Ht. destruct (kind t) eqn:E; try done.
  apply runs_bind. eapply runs_bump; [done|done|by rewrite E|]. intros s' H. by apply runs_ret.
Qed.

#[export] Instance expect_keyword_total n kw : Total n true (expect_keyword kw).
Proof.
  intros s Hs _. apply runs_bind, runs_peek. intros t Ht. destruct (decide _) as [E|]; [|done].
  apply runs_bind. eapply runs_bump; [done|done|by rewrite E|]. intros s' H. by apply runs_ret.
Qed.

Lemma runs_snip a b s (Q : list byte -> Parser -> Prop) : (forall t, Q t s) -> runs (snip a b) s Q.
Proof. intros H. apply runs_bind, runs_get, runs_lift. done. Qed.

Lemma runs_snip_trim a b s (Q : list byte -> Parser -> Prop) : (forall t, Q t s) -> runs (snip_trim a b) s Q.
Proof. intros H. apply runs_bind, runs_snip. intros t. by apply runs_ret. Qed.

#[export] Instance expected_here_total {A} n b : Total n b (expected_here (A:=A)).
Proof. intros s Hs _. by apply runs_bind, runs_peek. Qed.

(** A part whose contract has a bound: what is left is within it. *)
#[export] Hint Extern 2 (Total _ _ ?m) =>
  match goal with H : Total ?n ?b m |- Total ?n' _ m => apply (total_mono n n' m b); [later_lia|exact H] end : typeclass_instances.
#[export] Hint Extern 3 (Total _ _ (with_fuel _)) => (apply total_with_fuel; intros ? ? ? ?; apply _) : typeclass_instances.

(** One step of a function: the contract of the part that runs first. *)
Ltac step :=
  lazymatch goal with
  | |- runs (mret _) _ _ => apply runs_ret
  | |- runs (fail _) _ _ => apply runs_fail; discriminate
  | |- runs (expected_at _) _ _ => apply runs_expected_at
  | |- runs (peek ≫= _) _ _ => apply runs_bind, runs_peek; let t := fresh "t" in let H := fresh "Ht" in intros t H
  | |- runs (peek_kind ≫= _) _ _ => apply runs_bind, runs_peek_kind; let t := fresh "t" in let H := fresh "Ht" in intros t H
  | |- runs (at_kind _ ≫= _) _ _ => apply runs_bind, runs_at_kind; let t := fresh "t" in let H := fresh "Ht" in let E := fresh "Ek" in intros t H E
  | |- runs (at_keyword _ ≫= _) _ _ => apply runs_bind, runs_at_kind; let t := fresh "t" in let H := fresh "Ht" in let E := fresh "Ek" in intros t H E
  | |- runs (get_parser ≫= _) _ _ => apply runs_bind, runs_get
  | |- runs (lift _ ≫= _) _ _ => apply runs_bind, runs_lift; let a := fresh "a" in intros a
  | |- runs (snip _ _ ≫= _) _ _ => apply runs_bind, runs_snip; let a := fresh "a" in intros a
  | |- runs (snip_trim _ _ ≫= _) _ _ => apply runs_bind, runs_snip_trim; let a := fresh "a" in intros a
  | |- runs (snip_trim _ _) _ _ => apply runs_snip_trim; let a := fresh "a" in intros a
  | |- runs expected_here _ _ => apply runs_bind, runs_peek; let t := fresh "t" in let H := fresh "Ht" in intros t H
  | |- runs (expected_here ≫= _) _ _ => apply runs_bind, runs_bind, runs_peek; let t := fresh "t" in let H := fresh "Ht" in intros t H
  | |- runs (bump ≫= _) _ _ =>
      apply runs_bind;
      match goal with E : kind ?t = _, H : here ?s ?t |- runs bump ?s _ =>
        apply (runs_bump s t); [facts; assumption|exact H|by rewrite E|];
        let s' := fresh "s" in let H := fresh "Hl" in intros s' H
      end
  | |- runs ((_ ≫= _) ≫= _) _ _ => apply runs_bind
  | |- runs (mret ?a ≫= ?f) ?s ?Q => change (runs (f a) s Q); cbv beta
  | |- runs (expected_at _ ≫= _) _ _ => apply runs_bind, runs_expected_at
  | |- runs (fail _ ≫= _) _ _ => apply runs_bind, runs_fail; discriminate
  | |- runs ((if ?b then _ else _) ≫= _) _ _ => destruct b eqn:?
  | |- runs ((match ?x with _ => _ end) ≫= _) _ _ => destruct x eqn:?
  | |- runs (_ ≫= _) _ _ =>
      apply runs_bind; eapply runs_total; [apply _|facts; assumption|];
      let a := fresh "a" in let s' := fresh "s" in let H := fresh "Hl" in intros a s' H
  | |- runs (if ?b then _ else _) _ _ => destruct b eqn:?
  | |- runs (match ?x with _ => _ end) _ _ => destruct x eqn:?
  | |- runs _ _ _ =>
      eapply runs_total; [apply _|facts; assumption|];
      let a := fresh "a" in let s' := fresh "s" in let H := fresh "Hl" in intros a s' H
  end; try solve_later.


(** The recursive call of a loop. *)
Ltac recur IH :=
  lazymatch goal with |- runs (_ ≫= _) _ _ => apply runs_bind | _ => idtac end;
  eapply runs_total;
    [apply IH; [later_lia|..]; eapply total_mono; [|eassumption]; later_lia|facts; assumption|
     let a := fresh "a" in let s' := fresh "s" in let H := fresh "Hl" in intros a s' H];
  repeat step.

(** * Lists *)

(** Nothing is left to run out of. *)
Lemma total_zero {A} b (m : P A) : Total 0 b m.
Proof. intros s Hs Hn. pose proof (left_pos s Hs). lia. Qed.

Lemma comma_list_total {A} (item : P A) close f : forall n, (n <= f)%nat -> Total n true item ->
  Total n true (comma_list item close f).
Proof.
  induction f as [|f IH]; intros n Hf Hi; [replace n with O by lia; apply total_zero|].
  intros s Hs Hn. cbn [comma_list]. repeat step.
  recur IH.
Qed.

Lemma while_list_total {A} (item : P A) close f : forall n, (n <= f)%nat -> Total n true item ->
  Total n false (while_list item close f).
Proof.
  induction f as [|f IH]; intros n Hf Hi; [replace n with O by lia; apply total_zero|].
  intros s Hs Hn. cbn [while_list]. repeat step.
  recur IH.
Qed.

Lemma many_until_total {A} (item : P A) close f : forall n, (n <= f)%nat -> Total n true item ->
  Total n false (many_until item close f).
Proof.
  induction f as [|f IH]; intros n Hf Hi; [replace n with O by lia; apply total_zero|].
  intros s Hs Hn. cbn [many_until]. repeat step.
  recur IH.
Qed.

#[export] Hint Extern 2 (Total _ _ (comma_list _ _ _)) => (apply comma_list_total; [later_lia|apply _]) : typeclass_instances.
#[export] Hint Extern 2 (Total _ _ (while_list _ _ _)) => (apply while_list_total; [later_lia|apply _]) : typeclass_instances.
#[export] Hint Extern 2 (Total _ _ (many_until _ _ _)) => (apply many_until_total; [later_lia|apply _]) : typeclass_instances.

#[export] Instance bracketed_list_total {A} n (item : P A) : Total n true item -> Total n true (bracketed_list item).
Proof.
  intros Hi s Hs Hn. unfold bracketed_list. repeat step.
Qed.

Ltac steps := let s := fresh "s" in let Hs := fresh "Hs" in let Hn := fresh "Hn" in intros s Hs Hn; repeat step.

(** A recursive call, and an item written in place. *)
#[export] Hint Extern 2 (Total _ _ ?m) =>
  match goal with H : forall _ : nat, _ |- _ => apply H; later_lia end : typeclass_instances.
#[export] Hint Extern 5 (Total _ true (_ ≫= _)) => solve [steps] : typeclass_instances.

#[export] Instance parse_byte_total n : Total n true parse_byte.
Proof. unfold parse_byte. steps. Qed.

#[export] Instance parse_byte_list_total n : Total n true parse_byte_list.
Proof. apply bracketed_list_total, _. Qed.

#[export] Instance opt_byte_list_total n : Total n false opt_byte_list.
Proof. unfold opt_byte_list. steps. Qed.

#[export] Instance parse_register_list_total n : Total n true parse_register_list.
Proof. apply bracketed_list_total, _. Qed.

(** * Module header, types, attributes *)

Lemma parse_value_total f : forall n, (n <= f)%nat -> Total n true (parse_value f).
Proof.
  induction f as [|f IH]; intros n Hf; [replace n with O by lia; apply total_zero|].
  cbn [parse_value]. steps.
Qed.
#[export] Hint Extern 2 (Total _ _ (parse_value _)) => (apply parse_value_total; later_lia) : typeclass_instances.

#[export] Instance parse_field_total n : Total n true parse_field.
Proof. unfold parse_field. steps. Qed.

#[export] Instance parse_field_list_total n : Total n false parse_field_list.
Proof. unfold parse_field_list. steps. Qed.

Lemma skip_comments_total f : forall n, (n <= f)%nat -> Total n false (skip_comments f).
Proof.
  induction f as [|f IH]; intros n Hf; [replace n with O by lia; apply total_zero|].
  cbn [skip_comments]. unfold peek_kind. steps.
Qed.
#[export] Hint Extern 2 (Total _ _ (skip_comments _)) => (apply skip_comments_total; later_lia) : typeclass_instances.

#[export] Instance parse_module_total n : Total n true parse_module.
Proof. unfold parse_module. steps. Qed.

Lemma parse_type_total f : forall n, (n <= f)%nat -> Total n true (parse_type f).
Proof.
  induction f as [|f IH]; intros n Hf; [replace n with O by lia; apply total_zero|]. cbn [parse_type]. steps.
Qed.
#[export] Hint Extern 2 (Total _ _ (parse_type _)) => (apply parse_type_total; later_lia) : typeclass_instances.

#[export] Instance parse_param_total n : Total n true parse_param.
Proof. unfold parse_param. steps. Qed.

#[export] Instance parse_param_list_total n : Total n true parse_param_list.
Proof. unfold parse_param_list. steps. Qed.

#[export] Instance parse_attr_value_total n : Total n true parse_attr_value.
Proof. unfold parse_attr_value. steps. Qed.

#[export] Instance parse_attr_total n : Total n true parse_attr.
Proof. unfold parse_attr. steps. Qed.

#[export] Instance parse_attrs_total n : Total n false parse_attrs.
Proof. unfold parse_attrs. steps. Qed.

#[export] Instance expect_label_total n : Total n true expect_label.
Proof. unfold expect_label. steps. Qed.

(** * Raw text *)

Lemma bump_until_total stop f : forall n, (n <= f)%nat -> Total n false (bump_until stop f).
Proof.
  induction f as [|f IH]; intros n Hf; [replace n with O by lia; apply total_zero|]. cbn [bump_until]. steps.
Qed.
#[export] Hint Extern 2 (Total _ _ (bump_until _ _)) => (apply bump_until_total; later_lia) : typeclass_instances.

#[export] Instance snip_until_total n stop : Total n false (snip_until stop).
Proof. unfold snip_until. steps. Qed.

Lemma paren_loop_total f : forall n depth, (n <= f)%nat -> Total n false (paren_loop depth f).
Proof.
  induction f as [|f IH]; intros n depth Hf; [replace n with O by lia; apply total_zero|]. cbn [paren_loop].
  steps.
Qed.
#[export] Hint Extern 2 (Total _ _ (paren_loop _ _)) => (apply paren_loop_total; later_lia) : typeclass_instances.

#[export] Instance paren_raw_total n a : Total n false (paren_raw a).
Proof. unfold paren_raw. steps. Qed.

#[export] Instance parse_paren_inner_total n : Total n false parse_paren_inner.
Proof. unfold parse_paren_inner. steps. Qed.

#[export] Instance parens_total n : Total n true parens.
Proof. unfold parens. steps. Qed.

(** * Assignments and calls *)

(** [p] is where a token starts. *)
Lemma bump_to_total p f : forall s u, wf s -> (left s <= f)%nat -> u ∈ tokens s -> p = tstart u ->
  runs (bump_to p f) s (fun _ s' => later false s s').
Proof.
  induction f as [|f IH]; intros s u Hs Hn Hu Hp; [pose proof (left_pos s Hs); lia|]. cbn [bump_to]. step. step.
  apply runs_bind. apply (runs_bump_more s t); [done|done| |].
  - apply list_elem_of_lookup in Hu as [j Hj]. destruct Hs as [Hp' [_ Hmono]].
    destruct (decide (S (pos s) < length (tokens s))%nat); [done|]. apply lookup_lt_Some in Hj as Hj'.
    apply Nat.ltb_lt in Heqb. pose proof (Hmono j (pos s) u t Hj Ht). lia.
  - intros s' H. eapply runs_mono; [apply (IH s' u)|].
    + apply H.
    + later_lia.
    + by rewrite (later_tokens _ _ _ H).
    + done.
    + intros ? s'' H'. cbn in H'. solve_later.
Qed.

Lemma bump_line_total l e f : forall n, (n <= f)%nat -> Total n false (bump_line l e f).
Proof.
  revert e. induction f as [|f IH]; intros e n Hf; [replace n with O by lia; apply total_zero|]. cbn [bump_line]. steps.
Qed.

Definition starts_move (k : TokenKind) : Prop :=
  match k with Ident _ | LBracket | LParen | Dollar => True | _ => False end.

Lemma starts_move_not_eof k : starts_move k -> k <> Eof.
Proof. by destruct k. Qed.

Lemma runs_bump_line s t e (Q : nat -> Parser -> Prop) : wf s -> here s t -> starts_move (kind t) ->
  (forall n s', later true s s' -> Q n s') -> runs (with_fuel (bump_line (line t) e)) s Q.
Proof.
  intros Hs Ht Hk HQ. unfold runs, with_fuel. change (runs (bump_line (line t) e (S (length (tokens s)))) s Q).
  cbn [bump_line]. apply runs_bind, runs_peek. intros t' Ht'. assert (t' = t) as -> by (unfold here in *; congruence).
  rewrite Nat.eqb_refl. cbn [negb].
  assert (runs (_ ← bump; bump_line (line t) (tend t) (length (tokens s))) s Q).
  { apply runs_bind. eapply runs_bump; [done|done|by apply starts_move_not_eof|]. intros s' H.
    eapply runs_total; [apply bump_line_total; facts; unfold left in *; lia|apply H|]. intros n s'' H'. apply HQ. solve_later. }
  by destruct (kind t).
Qed.

Lemma runs_bump_to s u (Q : unit -> Parser -> Prop) : wf s -> u ∈ tokens s -> (forall s', later false s s' -> Q tt s') ->
  runs (with_fuel (bump_to (tstart u))) s Q.
Proof.
  intros Hs Hu HQ. unfold runs, with_fuel. eapply runs_mono; [eapply (bump_to_total _ _ s u); [done|unfold left; lia|done|done]|].
  intros [] s' H. by apply HQ.
Qed.

Lemma parse_move_stmt_total s t : wf s -> here s t -> starts_move (kind t) ->
  runs parse_move_stmt s (fun _ s' => later true s s').
Proof.
  intros Hs Ht Hk. unfold parse_move_stmt. step. assert (t0 = t) as -> by (unfold here in *; congruence).
  repeat step.
  - apply runs_bind, runs_bump_to; [done| |intros s' Hl'; repeat step].
    destruct o0 as [i|]; [|done]. cbn [mbind option_bind] in Heqo0. destruct (tokens s !! i) as [u|] eqn:E; [|done]. cbn [mbind option_bind] in Heqo0.
    destruct (_ <? _)%nat; [|done]. injection Heqo0 as <-. by eapply list_elem_of_lookup_2.
  - apply runs_bind, (runs_bump_line s t); [done|done|done|]. intros m s' Hl'. repeat step.
Qed.

Lemma bump_past_total close f : forall n s, wf s -> (left s <= n)%nat -> (n <= f)%nat -> (S close < length (tokens s))%nat ->
  runs (bump_past close f) s (fun _ s' => later false s s').
Proof.
  induction f as [|f IH]; intros n s Hs Hn Hf Hc; [pose proof (left_pos s Hs); lia|]. cbn [bump_past]. step. step.
  apply andb_prop in Heqb as [H1%Nat.ltb_lt H2%Nat.leb_le].
  destruct (lookup_lt_is_Some_2 (tokens s) (pos s) H1) as [t Ht].
  apply runs_bind. apply (runs_bump_more s t); [done|done|lia|]. intros s' H. facts.
  eapply runs_mono; [apply (IH (left s')); [done|lia|lia|]|].
  - by rewrite (later_tokens _ _ _ H).
  - intros ? s'' H'. cbn in H'. solve_later.
Qed.

(** The first token is bumped, for the close delimiter is behind it. *)
Lemma runs_bump_past s close (Q : unit -> Parser -> Prop) : wf s -> (pos s <= close)%nat -> (S close < length (tokens s))%nat ->
  (forall s', later true s s' -> Q tt s') -> runs (with_fuel (bump_past close)) s Q.
Proof.
  intros Hs Hp Hc HQ. unfold runs, with_fuel. change (runs (bump_past close (S (length (tokens s)))) s Q). cbn [bump_past].
  apply runs_bind, runs_get. replace ((pos s <? length (tokens s))%nat && (pos s <=? close)%nat) with true; last first.
  { symmetry. apply andb_true_intro. destruct Hs. split; [by apply Nat.ltb_lt|by apply Nat.leb_le]. }
  destruct (lookup_lt_is_Some_2 (tokens s) (pos s) (proj1 Hs)) as [t Ht].
  apply runs_bind. apply (runs_bump_more s t); [done|done|lia|]. intros s' H. facts.
  eapply runs_mono; [eapply (bump_past_total _ _ (left s')); [done|lia|unfold left in *; lia|]|].
  - by rewrite (later_tokens _ _ _ H).
  - intros [] s'' H'. cbn in H'. apply HQ. solve_later.
Qed.

Lemma matching_close_spec close depth i l c : (close = RParen \/ close = RBracket) -> matching_close close depth i l = Some c ->
  (i <= c)%nat /\ l !! (c - i)%nat = Some close.
Proof.
  intros Hcl. revert depth i. induction l as [|k l IH]; intros depth i; [done|]. cbn [matching_close].
  assert (forall d, matching_close close d (S i) l = Some c -> (i <= c)%nat /\ (k :: l) !! (c - i)%nat = Some close) as Hrec.
  { intros d H. apply IH in H as [Hle H]. split; [lia|]. by replace (c - i)%nat with (S (c - S i)) by lia. }
  destruct (decide _); [apply Hrec|]. destruct (decide (k = close)) as [->|].
  - destruct (_ =? 0); [|apply Hrec]. intros [= ->]. split; [lia|]. by rewrite Nat.sub_diag.
  - destruct (decide _); [apply Hrec|]. destruct (decide _); [done|]. apply Hrec.
Qed.

Lemma find_matching_close_spec s o c t : wf s -> find_matching_close (tokens s) o = Some c -> tokens s !! c = Some t ->
  (o <= c)%nat /\ (S c < length (tokens s))%nat.
Proof.
  intros [_ [Hw _]] H Hc. unfold find_matching_close in H.
  assert (exists close, (close = RParen \/ close = RBracket) /\ matching_close close 0 o (map kind (drop o (tokens s))) = Some c) as (cl & Hcl & H').
  { destruct (map kind _) as [|[] l] eqn:E; try done; eauto. }
  destruct (matching_close_spec cl 0 o _ c Hcl H') as [Hle Hk]. split; [done|]. apply (Hw c t Hc).
  change (map kind ?l) with (kind <$> l) in Hk.
  rewrite list_lookup_fmap, lookup_drop in Hk. replace (o + (c - o))%nat with c in Hk by lia. rewrite Hc in Hk.
  cbn in Hk. injection Hk as ->. by destruct Hcl as [-> | ->].
Qed.

Lemma method_chain_total st f : forall n name, (n <= f)%nat -> Total n false (method_chain st name f).
Proof.
  induction f as [|f IH]; intros n name Hf; [replace n with O by lia; apply total_zero|]. cbn [method_chain]. steps.
Qed.
#[export] Hint Extern 2 (Total _ _ (method_chain _ _ _)) => (apply method_chain_total; later_lia) : typeclass_instances.

Lemma close_token s c t : wf s ->
  (find_matching_close (tokens s) (pos s) ≫= (fun c => tokens s !! c ≫= (fun t => Some (c, t)))) = Some (c, t) ->
  (pos s <= c)%nat /\ (S c < length (tokens s))%nat.
Proof.
  intros Hs H. destruct (find_matching_close _ _) as [c'|] eqn:E; [|done]. cbn in H.
  destruct (tokens s !! c') as [t'|] eqn:Et; [|done]. injection H as <- <-. by eapply find_matching_close_spec.
Qed.

#[export] Instance parse_call_target_name_total n : Total n true parse_call_target_name.
Proof.
  unfold parse_call_target_name. steps.
  all: match goal with E : _ = Some (_, _) |- _ => apply close_token in E as [? ?]; [|done] end.
  all: apply runs_bind, runs_bump_past; [done|done|done|]; intros s' Hl; by repeat step.
Qed.

Lemma runs_flush a b o k s (Q : list (list byte) -> Parser -> Prop) : (forall l, Q l s) -> runs (flush_call_arg a b o k) s Q.
Proof. intros H. unfold flush_call_arg. repeat case_match; repeat step; apply H. Qed.

Lemma collect_call_args_total f : forall n depth a str k, (n <= f)%nat -> Total n false (collect_call_args depth a str k f).
Proof.
  induction f as [|f IH]; intros n depth a str k Hf; [replace n with O by lia; apply total_zero|]. cbn [collect_call_args]. steps.
  - apply runs_flush. intros l. by apply later_refl.
  - apply runs_bind, runs_flush. intros l. repeat step.
Qed.
#[export] Hint Extern 2 (Total _ _ (collect_call_args _ _ _ _ _)) => (apply collect_call_args_total; later_lia) : typeclass_instances.

#[export] Instance parse_call_stmt_total n : Total n true parse_call_stmt.
Proof. unfold parse_call_stmt. steps. Qed.

Lemma parse_call_or_move_total s t : wf s -> here s t -> starts_move (kind t) ->
  runs parse_call_or_move_stmt s (fun _ s' => later true s s').
Proof.
  intros Hs Ht Hk. unfold parse_call_or_move_stmt. step. step.
  assert (t0 = t) as -> by (unfold here in *; congruence).
  assert (runs parse_call_stmt s (fun _ s' => later true s s')) as Hcall by (eapply (parse_call_stmt_total (left s)); [done|lia]).
  pose proof (parse_move_stmt_total s t Hs Ht Hk) as Hmove.
  destruct (kind t); try done; by repeat case_match.
Qed.

(** * Jumps, returns, switches *)

Lemma parse_return_stmt_total s t k : wf s -> here s t -> kind t = Ident k -> runs parse_return_stmt s (fun _ s' => later true s s').
Proof. intros Hs Ht Hk. unfold parse_return_stmt, parse_until_semicolon. repeat step. Qed.

#[export] Instance parse_jcc_attrs_total n t : Total n false (parse_jcc_attrs t).
Proof. unfold parse_jcc_attrs. steps. Qed.

Lemma parse_if_goto_tail_total s t k c : wf s -> here s t -> kind t = Ident k ->
  runs (parse_if_goto_tail c) s (fun _ s' => later true s s').
Proof. intros Hs Ht Hk. unfold parse_if_goto_tail. repeat step. Qed.

Lemma parse_if_return_tail_total s t k c : wf s -> here s t -> kind t = Ident k ->
  runs (parse_if_return_tail c) s (fun _ s' => later true s s').
Proof.
  intros Hs Ht Hk. unfold parse_if_return_tail, parse_until_semicolon_or_attr. repeat step.
Qed.

Lemma parse_goto_stmt_total s t k : wf s -> here s t -> kind t = Ident k -> runs parse_goto_stmt s (fun _ s' => later true s s').
Proof. intros Hs Ht Hk. unfold parse_goto_stmt. repeat step. Qed.

#[export] Instance parse_label_stmt_total n : Total n true parse_label_stmt.
Proof. unfold parse_label_stmt. steps. Qed.

#[export] Instance case_target_total n : Total n true case_target.
Proof. unfold case_target. steps. Qed.

Lemma switch_cases_total f : forall n t d, (n <= f)%nat -> Total n false (switch_cases t d f).
Proof.
  induction f as [|f IH]; intros n t d Hf; [replace n with O by lia; apply total_zero|]. cbn [switch_cases]. steps.
Qed.
#[export] Hint Extern 2 (Total _ _ (switch_cases _ _ _)) => (apply switch_cases_total; later_lia) : typeclass_instances.

Lemma parse_switch_stmt_total s t k : wf s -> here s t -> kind t = Ident k -> runs parse_switch_stmt s (fun _ s' => later true s s').
Proof.
  intros Hs Ht Hk. unfold parse_switch_stmt. repeat step.
Qed.

(** * Directives *)

#[export] Instance parse_prologue_field_total n p : Total n true (parse_prologue_field p).
Proof. unfold parse_prologue_field. steps. Qed.

#[export] Instance parse_epilogue_field_total n e : Total n true (parse_epilogue_field e).
Proof. unfold parse_epilogue_field. steps. Qed.

Lemma params_loop_total {A} (field : A -> P A) f : (forall n p, Total n true (field p)) ->
  forall n p, (n <= f)%nat -> Total n false (params_loop field p f).
Proof.
  intros Hfield. induction f as [|f IH]; intros n p Hf; [replace n with O by lia; apply total_zero|]. cbn [params_loop]. steps.
Qed.
#[export] Hint Extern 2 (Total _ _ (params_loop _ _ _)) => (apply params_loop_total; [apply _|later_lia]) : typeclass_instances.

#[export] Instance parse_frame_directive_total {A} n (d : A) (m : P A) enc stmt : Total n false m ->
  Total n true (parse_frame_directive d m enc stmt).
Proof. intros Hm. unfold parse_frame_directive. steps. Qed.

#[export] Instance parse_prologue_params_total n : Total n false parse_prologue_params.
Proof. unfold parse_prologue_params. apply _. Qed.

#[export] Instance parse_epilogue_params_total n : Total n false parse_epilogue_params.
Proof. unfold parse_epilogue_params. apply _. Qed.

#[export] Instance bytes_close_total n : Total n true bytes_close.
Proof. unfold bytes_close. steps. Qed.

#[export] Instance int_comma_total n : Total n true int_comma.
Proof. unfold int_comma. steps. Qed.

#[export] Instance string_comma_total n : Total n true string_comma.
Proof. unfold string_comma. steps. Qed.

#[export] Instance parse_simple_directive_total n d t : Total n true (parse_simple_directive d t).
Proof. unfold parse_simple_directive. steps. Qed.

(** * Statements with a body *)

Section bodies.
Context (n : nat) (list_until_rbrace : P (list Stmt)) (stmt_list_one : P Stmt).
Context `{Hlist : !Total n false list_until_rbrace} `{Hone : !Total n true stmt_list_one}.

#[local] Instance block_total : Total n true (block list_until_rbrace).
Proof. unfold block. steps. Qed.

Lemma if_arms_total f : forall m acc th el, (m <= f)%nat -> (m <= n)%nat ->
  Total m false (if_arms list_until_rbrace stmt_list_one acc th el f).
Proof.
  pose proof block_total as Hblock.
  induction f as [|f IH]; intros m acc th el Hf Hm; [replace m with O by lia; apply total_zero|]. cbn [if_arms]. steps.
  destruct (decide (kind t = At)) as [Ek|]; [|by destruct o]. repeat step.
Qed.

#[local] Instance if_body_total : Total n false (parse_if_body_with_optional_arms list_until_rbrace stmt_list_one).
Proof.
  unfold parse_if_body_with_optional_arms. intros s Hs Hn. apply runs_bind.
  eapply runs_total; [apply total_with_fuel; intros k m Hk Hm; apply if_arms_total; lia|done|]. intros [[a b] c] s' Hl. repeat step.
Qed.

Section keyword.
Context (s : Parser) (t : Token) (k : list byte).
Context (Hs : wf s) (Ht : here s t) (Hk : kind t = Ident k) (Hn : (left s <= S n)%nat).

Lemma parse_if_stmt_total : runs (parse_if_stmt list_until_rbrace stmt_list_one) s (fun _ s' => later true s s').
Proof using All.
  pose proof block_total as Hblock. pose proof if_body_total as Hbody. unfold parse_if_stmt. repeat step.
  - eapply runs_mono; [eapply parse_if_return_tail_total; [by facts|done|done]|]. intros ? s3 H3. cbn in H3. solve_later.
  - eapply runs_mono; [eapply parse_if_goto_tail_total; [by facts|done|done]|]. intros ? s3 H3. cbn in H3. solve_later.
Qed.

Lemma parse_do_while_stmt_total : runs (parse_do_while_stmt list_until_rbrace) s (fun _ s' => later true s s').
Proof using All. pose proof block_total as Hblock. unfold parse_do_while_stmt. repeat step. Qed.

Lemma parse_ifblock_stmt_total : runs (parse_ifblock_stmt list_until_rbrace) s (fun _ s' => later true s s').
Proof using All. pose proof block_total as Hblock. unfold parse_ifblock_stmt. repeat step. Qed.

Lemma parse_whileblock_stmt_total : runs (parse_whileblock_stmt list_until_rbrace) s (fun _ s' => later true s s').
Proof using All. pose proof block_total as Hblock. unfold parse_whileblock_stmt. repeat step. Qed.
End keyword.

#[local] Instance parse_loop_directive_total : Total n true (parse_loop_directive list_until_rbrace).
Proof. pose proof block_total as Hblock. unfold parse_loop_directive. steps. Qed.

Lemma branch_arms_total f : forall m th el, (m <= f)%nat -> (m <= n)%nat -> Total m true (branch_arms list_until_rbrace th el f).
Proof.
  pose proof block_total as Hblock.
  induction f as [|f IH]; intros m th el Hf Hm; [replace m with O by lia; apply total_zero|]. cbn [branch_arms]. steps.
Qed.

#[local] Instance parse_if_branch_directive_total t : Total n true (parse_if_branch_directive list_until_rbrace t).
Proof.
  unfold parse_if_branch_directive. intros s Hs Hn. step. step. step. step. apply runs_bind.
  eapply runs_total; [apply total_with_fuel; intros k m Hk Hm; apply branch_arms_total; later_lia|by facts|]. intros [th el] s' Hl'. repeat step.
Qed.

#[local] Instance parse_stmt_at_directive_total d t : Total n true (parse_stmt_at_directive list_until_rbrace d t).
Proof.
  unfold parse_stmt_at_directive. pose proof parse_loop_directive_total. pose proof (parse_if_branch_directive_total t). steps.
Qed.

Lemma parse_stmt_total w : Total (S n) true (parse_stmt list_until_rbrace stmt_list_one w).
Proof.
  pose proof parse_stmt_at_directive_total as Hdir. unfold parse_stmt. intros s Hs Hn. step. 
  assert (starts_move (kind t) -> runs parse_call_or_move_stmt s (fun _ s' => later true s s')) as Hmove by (by apply parse_call_or_move_total).
  destruct (kind t) eqn:Ek; try (apply Hmove; exact I); try (by repeat step).
  - step. step. step. pose proof (Hdir a t0). repeat step.
  - specialize (Hmove I).
    repeat (case_match; [first [by eapply parse_if_stmt_total|by eapply parse_ifblock_stmt_total|by eapply parse_whileblock_stmt_total
      |by eapply parse_do_while_stmt_total|by eapply parse_goto_stmt_total|by eapply parse_return_stmt_total
      |by eapply parse_switch_stmt_total|idtac]|]); [|done].
    step. step; [|done]. by eapply (parse_label_stmt_total (left s)); [|lia].
Qed.
End bodies.

Lemma parse_stmts_total f : forall n, (n <= f)%nat ->
  Total n false (parse_stmt_list_until_rbrace f) /\ Total n true (parse_stmt_list_one f).
Proof.
  induction f as [|f IH]; intros n Hf; [replace n with O by lia; split; apply total_zero|].
  destruct (IH f) as [HL HO]; [lia|]. cbn [parse_stmt_list_until_rbrace parse_stmt_list_one].
  assert (forall w, Total n true (parse_stmt (parse_stmt_list_until_rbrace f) (parse_stmt_list_one f) w)) as Hstmt.
  { intros w. eapply total_mono; [|by apply (parse_stmt_total f)]. lia. }
  pose proof (Hstmt true). pose proof (Hstmt false). split; steps.
Qed.

#[export] Instance parse_stmt_list_total n f : (n <= f)%nat -> Total n false (parse_stmt_list_until_rbrace f).
Proof. intros Hf. by apply parse_stmts_total. Qed.
#[export] Hint Extern 2 (Total _ _ (parse_stmt_list_until_rbrace _)) => (apply parse_stmt_list_total; later_lia) : typeclass_instances.

(** * Functions and items *)

Lemma let_group_total f : forall n, (n <= f)%nat -> Total n true (let_group f).
Proof.
  induction f as [|f IH]; intros n Hf; [replace n with O by lia; apply total_zero|]. cbn [let_group]. steps.
Qed.
#[export] Hint Extern 2 (Total _ _ (let_group _)) => (apply let_group_total; later_lia) : typeclass_instances.

Lemma parse_let_total s t k : wf s -> here s t -> kind t = Ident k -> runs parse_let s (fun _ s' => later true s s').
Proof. intros Hs Ht Hk. unfold parse_let. repeat step. Qed.

Lemma parse_local_decls_total f : forall n, (n <= f)%nat -> Total n false (parse_local_decls f).
Proof.
  induction f as [|f IH]; intros n Hf; [replace n with O by lia; apply total_zero|]. cbn [parse_local_decls]. steps.
  apply runs_bind. eapply runs_mono; [by eapply parse_let_total|]. intros d s' Hl. cbn in Hl. repeat step.
Qed.
#[export] Hint Extern 2 (Total _ _ (parse_local_decls _)) => (apply parse_local_decls_total; later_lia) : typeclass_instances.

#[export] Instance parse_fn_total n a : Total n true (parse_fn a).
Proof. unfold parse_fn. steps. Qed.

Lemma note_loop_total f : forall n x, (n <= f)%nat -> Total n false (note_loop x f).
Proof.
  induction f as [|f IH]; intros n x Hf; [replace n with O by lia; apply total_zero|]. cbn [note_loop]. steps.
Qed.
#[export] Hint Extern 2 (Total _ _ (note_loop _ _)) => (apply note_loop_total; later_lia) : typeclass_instances.

#[export] Instance parse_note_entry_total n : Total n true parse_note_entry.
Proof. unfold parse_note_entry. steps. Qed.

#[export] Instance parse_jump_table_entry_total n : Total n true parse_jump_table_entry.
Proof. unfold parse_jump_table_entry. steps. Qed.

Lemma parse_at_directive_total n (item : P Item) f : Total n true item -> (n <= f)%nat -> Total (S n) true (parse_at_directive item f).
Proof. intros Hi Hf. unfold parse_at_directive. steps. Qed.

Lemma parse_item_total f : forall n, (n <= f)%nat -> Total n true (parse_item f).
Proof.
  induction f as [|f IH]; intros n Hf; [replace n with O by lia; apply total_zero|]. cbn [parse_item].
  assert (Total n true (parse_at_directive (parse_item f) f)) as Hat.
  { eapply total_mono; [|apply (parse_at_directive_total f); [by apply IH|done]]. lia. }
  steps.
Qed.
#[export] Hint Extern 2 (Total _ _ (parse_item _)) => (apply parse_item_total; later_lia) : typeclass_instances.

#[export] Instance parse_items_total n : Total n false parse_items.
Proof. unfold parse_items. apply _. Qed.

Lemma runs_set_bits b s (Q : unit -> Parser -> Prop) : wf s -> (forall s', later false s s' -> Q tt s') -> runs (set_bits b) s Q.
Proof. intros [Hp Ho] HQ. apply HQ. by split. Qed.

#[export] Instance parse_file_total n : Total n true parse_file.
Proof.
  unfold parse_file. steps. apply runs_bind, runs_set_bits; [by facts|]. intros s2 H2. repeat step.
Qed.

(** * The tokens of a text *)

Lemma place_starts pos lc ps t : t ∈ place pos lc ps -> (pos <= tstart t)%nat.
Proof.
  revert pos lc. induction ps as [|[w|w k] ps IH]; intros pos lc; cbn [place].
  - intros ->%list_elem_of_singleton. done.
  - intros H%IH. lia.
  - intros [->|H%IH]%elem_of_cons; cbn; lia.
Qed.

Lemma place_ordered pos lc ps : ordered_tokens (place pos lc ps).
Proof.
  revert pos lc. induction ps as [|[w|w k] ps IH]; intros pos lc; cbn [place]; [|apply IH|].
  - split; [intros [|i] t; [by intros [= <-]|done]|]. intros [|i] [|j] t u; try done. by intros [= <-] [= <-].
  - destruct (IH (pos + length w)%nat (advance lc w)) as [H1 H2]. split.
    + intros [|i] t; cbn [lookup list_lookup length]; intros H Hk; [|by apply H1 in H; [lia|]].
      assert (place (pos + length w) (advance lc w) ps <> []) as Hne.
      { clear. generalize (pos + length w)%nat (advance lc w). induction ps as [|[|] ps IH]; intros p l; cbn; [done|apply IH|done]. }
      destruct (place _ _ _); [done|cbn; lia].
    + intros [|i] [|j] t u; cbn [lookup list_lookup]; intros Ht Hu Hij; try lia.
      * by simplify_eq.
      * injection Ht as <-. cbn. apply list_elem_of_lookup_2, place_starts in Hu. lia.
      * eapply H2; [done|done|lia].
Qed.

Lemma place_nonempty pos lc ps : (0 < length (place pos lc ps))%nat.
Proof. revert pos lc. induction ps as [|[|] ps IH]; intros pos lc; cbn; [lia|apply IH|lia]. Qed.

(** C38: The parser ends on every text: on valid UTF-8, no loop and no
    recursion of it runs out of fuel, whatever the tokens. *)
Theorem parse_terminates input : utf8_valid input = true -> parse input <> Err OutOfFuel.
Proof.
  intros Hu. apply utf8_of_valid in Hu. pose proof (tokenize_wp input Hu) as Ht. unfold parse.
  destruct (tokenize input) as [toks|e|]; [|done|done]. destruct Ht as (ps & _ & _ & ->). cbn [map_err mbind res_bind].
  pose proof (parse_file_total (length (place 0 (1, 1)%nat ps)) (parser_new input (place 0 (1, 1)%nat ps))) as H.
  assert (wf (parser_new input (place 0 (1, 1)%nat ps))) as Hwf by (split; [apply place_nonempty|apply place_ordered]).
  specialize (H Hwf ltac:(unfold left; cbn; lia)). unfold runs in H.
  destruct (parse_file _) as [[file s']|e|]; cbn; [done| |done]. by destruct e.
Qed.

Lemma parse_terminates_witness : utf8_valid (str "@module { a: [1, [2, }") = true /\ parse (str "@module { a: [1, [2, }") <> Err OutOfFuel.
Proof. split; [reflexivity|apply (parse_terminates (str "@module { a: [1, [2, }")); reflexivity]. Defined.
