(* ===== verification/Pieces.v ===== *)
(** Printed text as pieces, and the parser over them.

    A printer is described by the pieces ([LexerSpec.piece]) of the text it
    writes. [seg ps] says that the pieces divide their text in front of
    anything that does not continue a word, [closed ps] in front of anything.
    [reads b p ps a ok] says that the parser function [p], standing in front
    of the pieces [ps] in a module of width [b], consumes exactly them and
    returns [a], provided what follows satisfies [ok]. The rules below step
    through a parser function over its pieces. *)

From S2P Require Import Prelude Text Lexer LexerSpec Ast Parser.

(** * Counting and placing *)

Fixpoint ntk (ps : list piece) : nat :=
  match ps with [] => O | Sp _ :: ps => ntk ps | Tk _ _ :: ps => S (ntk ps) end.

(** The kinds of the tokens, [Eof] at the end. *)
Fixpoint kinds (ps : list piece) : list TokenKind :=
  match ps with [] => [Eof] | Sp _ :: ps => kinds ps | Tk _ k :: ps => k :: kinds ps end.

Definition hd_kind (ps : list piece) : TokenKind := match kinds ps with k :: _ => k | [] => Eof end.

Lemma ntk_app ps qs : ntk (ps ++ qs) = (ntk ps + ntk qs)%nat.
Proof. induction ps as [|[w|w k] ps IH]; cbn; [done|done|by rewrite IH]. Qed.

Lemma render_app ps qs : render (ps ++ qs) = render ps ++ render qs.
Proof. unfold render. by rewrite map_app, concat_app. Qed.

Lemma render_cons p ps : render (p :: ps) = piece_text p ++ render ps.
Proof. done. Qed.

Lemma place_drop pre ps : forall n lc,
  drop (ntk pre) (place n lc (pre ++ ps)) = place (n + length (render pre)) (advance lc (render pre)) ps.
Proof.
  induction pre as [|[w|w k] pre IH]; intros n lc; cbn [ntk app place drop]; [by rewrite Nat.add_0_r| |];
    rewrite IH, render_cons, length_app, Nat.add_assoc, advance_app; done.
Qed.

Lemma length_place n lc ps : length (place n lc ps) = S (ntk ps).
Proof. revert n lc. induction ps as [|[w|w k] ps IH]; intros n lc; cbn; by rewrite ?IH. Qed.

Lemma map_kind_place n lc ps : map kind (place n lc ps) = kinds ps.
Proof. revert n lc. induction ps as [|[w|w k] ps IH]; intros n lc; cbn; by rewrite ?IH. Qed.

Lemma kinds_app ps qs : kinds (ps ++ qs) = take (ntk ps) (kinds ps) ++ kinds qs.
Proof. induction ps as [|[w|w k] ps IH]; cbn; by rewrite ?IH. Qed.

(** * Words *)

(** The text does not continue a word, or a number. *)
Definition sep (rest : list byte) : Prop := stops is_ident_continue rest.

Lemma ident_continue_ascii ch : is_ident_continue ch = true -> exists b, ch = [b] /\ u8 b < 128.
Proof.
  unfold is_ident_continue, ascii_char, is_alpha, is_digit10. destruct ch as [|b [|]]; [done| |done].
  intros H. exists b. split; [done|]. lia.
Qed.

Lemma sep_mono (p : list byte -> bool) rest : (forall c, p c = true -> is_ident_continue c = true) -> sep rest -> stops p rest.
Proof.
  unfold sep, stops. intros Hp. destruct (next_char rest) as [[c t]|]; [|done]. intros H.
  destruct (p c) eqn:E; [|done]. by rewrite (Hp c E) in H.
Qed.

Lemma is_char_continue n c : is_ident_continue [byte_of n] = true -> is_char n c = true -> is_ident_continue c = true.
Proof. intros Hn Hc. by apply is_char_byte in Hc as ->. Qed.

Lemma digit_of_continue r c : r <= 16 -> digit_of r c = true -> is_ident_continue c = true.
Proof.
  intros Hr. unfold digit_of, is_char, is_digit, ascii_char, is_ident_continue, ascii_char. destruct c as [|b [|]]; [done| |done].
  intros [H|H]%orb_prop; [replace (u8 b) with 95 by lia; done|]. unfold digit_val in H. unfold is_alpha, is_digit10.
  repeat case_match; try done; lia.
Qed.

Lemma is_x_continue c : is_x c = true -> is_ident_continue c = true.
Proof. unfold is_x. intros [H|H]%orb_prop; by (eapply is_char_continue; [|exact H]). Qed.

(** A byte that no word continues with. *)
Definition sep_byte (b : byte) : bool := negb (is_ident_continue [b]) && (u8 b <? 128).

Lemma sep_cons b s : sep_byte b = true -> sep (b :: s).
Proof.
  unfold sep_byte. intros [H1 H2]%andb_prop. unfold sep, stops. rewrite next_char_ascii by lia.
  by destruct (is_ident_continue [b]).
Qed.

Lemma sep_nil : sep [].
Proof. done. Qed.

(** * Segments *)

Definition seg (ps : list piece) : Prop := forall rest, sep rest -> divides ps rest.
Definition closed (ps : list piece) : Prop := forall rest, divides ps rest.
(** The text starts with a byte that ends a word. *)
Definition opens (ps : list piece) : Prop := exists b s, render ps = b :: s /\ sep_byte b = true.

Lemma divides_app ps qs rest : divides (ps ++ qs) rest <-> divides ps (render qs ++ rest) /\ divides qs rest.
Proof.
  induction ps as [|[w|w k] ps IH]; cbn [app divides]; [naive_solver|rewrite IH; naive_solver|].
  rewrite IH, render_app, <- (assoc_L (++)). naive_solver.
Qed.

Lemma opens_sep ps rest : opens ps -> sep (render ps ++ rest).
Proof. intros (b & s & -> & H). by apply sep_cons. Qed.

Lemma opens_app ps qs : opens ps -> opens (ps ++ qs).
Proof. intros (b & s & E & H). exists b, (s ++ render qs). by rewrite render_app, E. Qed.

Lemma closed_seg ps : closed ps -> seg ps.
Proof. intros H rest _. apply H. Qed.

Lemma closed_app ps qs : closed ps -> closed qs -> closed (ps ++ qs).
Proof. intros H H' rest. apply divides_app. split; [apply H|apply H']. Qed.

Lemma seg_closed_app ps qs : seg ps -> opens qs -> closed qs -> closed (ps ++ qs).
Proof. intros H Ho H' rest. apply divides_app. split; [by apply H, opens_sep|apply H']. Qed.

Lemma closed_seg_app ps qs : closed ps -> seg qs -> seg (ps ++ qs).
Proof. intros H H' rest Hr. apply divides_app. split; [apply H|by apply H']. Qed.

Lemma seg_app ps qs : seg ps -> opens qs -> seg qs -> seg (ps ++ qs).
Proof. intros H Ho H' rest Hr. apply divides_app. split; [by apply H, opens_sep|by apply H']. Qed.

Lemma closed_nil : closed [].
Proof. by intros rest. Qed.

Lemma divides_utf8 ps rest : divides ps rest -> Forall (fun p => utf8 (piece_text p)) ps.
Proof.
  induction ps as [|[w|w k] ps IH]; intros H; [constructor| |]; destruct H as [H1 H2]; constructor; auto.
  - by eapply Chars_utf8.
  - by eapply lexeme_utf8.
Qed.

Lemma utf8_render ps : Forall (fun p => utf8 (piece_text p)) ps -> utf8 (render ps).
Proof. induction 1; [constructor|]. rewrite render_cons. by apply Chars_app. Qed.

(** * Constant text *)

(** The pieces between the tokens of a text. *)
Fixpoint cut (n : nat) (s : list byte) (toks : list Token) : list piece :=
  match toks with
  | [] => []
  | t :: toks =>
      let ws := take (tstart t - n) s in
      let s := drop (tstart t - n) s in
      match ws with [] => [] | _ => [Sp ws] end ++
      match kind t with
      | Eof => []
      | k => Tk (take (tend t - tstart t) s) k :: cut (tend t) (drop (tend t - tstart t) s) toks
      end
  end.

Definition C (s : list byte) : list piece := match tokenize s with Ok toks => cut 0 s toks | _ => [] end.

#[global] Strategy opaque [C].

(** Words, marks and arrows, checked against the next byte. *)
Definition const_tk (w : list byte) (k : TokenKind) (next : bool) : bool :=
  match w with
  | [] => false
  | [b] => match punct (u8 b) with
           | Some k' => bool_decide (k' = k)
           | None => is_ident_start [b] && next && bool_decide (k = Ident w)
           end
  | b :: t =>
      if is_ident_start [b] then forallb (fun c => is_ident_continue [c]) t && next && bool_decide (k = Ident w)
      else bool_decide (w = [byte_of 45; byte_of 62] /\ k = Arrow)
  end.

Definition is_blank (b : byte) : bool := (u8 b =? 32) || (u8 b =? 10).

Fixpoint const_ok (last : bool) (ps : list piece) : bool :=
  match ps with
  | [] => true
  | Sp w :: ps => forallb is_blank w && const_ok last ps
  | Tk w k :: ps =>
      const_tk w k (match render ps with [] => last | b :: _ => sep_byte b end) && const_ok last ps
  end.

Lemma continue_chars w : forallb (fun c => is_ident_continue [c]) w = true -> Chars is_ident_continue w.
Proof.
  intros H. apply Chars_ascii, Forall_forall. intros b Hb. rewrite List.forallb_forall in H.
  specialize (H b ltac:(by apply list_elem_of_In)). split; [|done].
  apply ident_continue_ascii in H as (b' & [= ->] & Hb'). done.
Qed.

Lemma word_lexeme b t rest : is_ident_start [b] = true -> forallb (fun c => is_ident_continue [c]) t = true -> sep rest ->
  lexeme (b :: t) (Ident (b :: t)) rest.
Proof. intros Hb Ht Hr. apply L_ident; [done|by apply continue_chars|done]. Qed.

Lemma const_lexeme w k next rest : const_tk w k next = true -> (next = true -> sep rest) -> lexeme w k rest.
Proof.
  unfold const_tk. destruct w as [|b t]; [done|].
  assert (is_ident_start [b] = true -> forallb (fun c => is_ident_continue [c]) t && next && bool_decide (k = Ident (b :: t)) = true ->
    (next = true -> sep rest) -> lexeme (b :: t) k rest) as Hw.
  { intros Hb [[Ht Hn]%andb_prop Hk%bool_decide_eq_true]%andb_prop Hr. subst k. apply word_lexeme; auto. }
  destruct t as [|c t].
  - destruct (punct (u8 b)) as [k'|] eqn:E.
    + intros Hk%bool_decide_eq_true. subst k'. intros _. by apply L_punct.
    + intros [[Hb Hn]%andb_prop Hk]%andb_prop. apply Hw; [done|]. cbn. by rewrite Hn.
  - destruct (is_ident_start [b]); [by apply Hw|].
    intros [E Ek]%bool_decide_eq_true _. rewrite E, Ek. constructor.
Qed.

Lemma blank_chars w : forallb is_blank w = true -> Chars is_whitespace w.
Proof.
  intros H. apply Chars_ascii, Forall_forall. intros b Hb. rewrite List.forallb_forall in H.
  specialize (H b ltac:(by apply list_elem_of_In)). unfold is_blank in H.
  assert (b = byte_of 32 \/ b = byte_of 10) as [-> | ->]; [|done|done].
  destruct (Z.eqb_spec (u8 b) 32) as [E|]; [left|right]; apply u8_inj; [by rewrite E|].
  replace (u8 b) with 10 by lia. done.
Qed.

Lemma const_divides last ps rest : const_ok last ps = true -> (last = true -> sep rest) -> divides ps rest.
Proof.
  intros H Hr. induction ps as [|[w|w k] ps IH]; [done| |]; cbn [const_ok divides] in *; apply andb_prop in H as [H1 H2].
  - split; [by apply blank_chars|auto].
  - split; [|auto]. eapply const_lexeme; [exact H1|]. destruct (render ps) as [|b s]; [done|]. intros Hb. by apply sep_cons.
Qed.

Lemma closed_const ps : const_ok false ps = true -> closed ps.
Proof. intros H rest. by eapply const_divides. Qed.

Lemma seg_const ps : const_ok true ps = true -> seg ps.
Proof. intros H rest Hr. by eapply const_divides. Qed.

(** * The parser over pieces *)

(** The parser on the text of [W], behind the pieces [pre]. *)
Definition st (W : list piece) (b : Z) (pre : list piece) : Parser :=
  {| src := render W; tokens := place 0 (1, 1)%nat W; pos := ntk pre; bits := b |}.

(** Texts that are texts. *)
Definition texts (W : list piece) : Prop := Forall (fun p => utf8 (piece_text p)) W.

Definition reads {A} (b : Z) (p : P A) (ps : list piece) (a : A) (ok : list piece -> Prop) : Prop :=
  forall pre post, texts (pre ++ ps ++ post) -> ok post ->
    p (st (pre ++ ps ++ post) b pre) = Ok (a, st (pre ++ ps ++ post) b (pre ++ ps)).

(** The token the parser stands in front of. *)
Definition tok_at (pre ps : list piece) : Token :=
  match place (length (render pre)) (advance (1, 1)%nat (render pre)) ps with
  | t :: _ => t
  | [] => {| kind := Eof; line := 0; col := 0; tstart := 0; tend := 0 |}
  end.

Lemma kind_tok_at pre ps : kind (tok_at pre ps) = hd_kind ps.
Proof.
  unfold tok_at, hd_kind. rewrite <- (map_kind_place (length (render pre)) (advance (1, 1)%nat (render pre))).
  by destruct place.
Qed.

Lemma drop_tokens b pre ps :
  drop (ntk pre) (tokens (st (pre ++ ps) b pre)) = place (length (render pre)) (advance (1, 1)%nat (render pre)) ps.
Proof. cbn [tokens st]. by rewrite place_drop. Qed.

Lemma token_here b pre ps : tokens (st (pre ++ ps) b pre) !! ntk pre = Some (tok_at pre ps).
Proof.
  rewrite <- (Nat.add_0_r (ntk pre)) at 1. rewrite <- lookup_drop, drop_tokens. unfold tok_at.
  pose proof (length_place (length (render pre)) (advance (1, 1)%nat (render pre)) ps). by destruct place.
Qed.

Lemma kinds_from b pre ps : map kind (drop (ntk pre) (tokens (st (pre ++ ps) b pre))) = kinds ps.
Proof. by rewrite drop_tokens, map_kind_place. Qed.

Lemma kind_lookup b pre ps i : kind <$> (tokens (st (pre ++ ps) b pre) !! (ntk pre + i)%nat) = kinds ps !! i.
Proof. rewrite <- (kinds_from b pre ps), <- lookup_drop. symmetry. apply (list_lookup_fmap kind). Qed.

Lemma peek_st b pre ps : peek (st (pre ++ ps) b pre) = Ok (tok_at pre ps, st (pre ++ ps) b pre).
Proof. unfold peek. change (pos (st (pre ++ ps) b pre)) with (ntk pre). by rewrite token_here. Qed.

Lemma bump_st b pre w k ps : bump (st (pre ++ Tk w k :: ps) b pre) =
  Ok (tok_at pre (Tk w k :: ps), st (pre ++ Tk w k :: ps) b (pre ++ [Tk w k])).
Proof.
  unfold bump. change (pos (st (pre ++ Tk w k :: ps) b pre)) with (ntk pre). rewrite token_here. cbn [pos st tokens]. rewrite length_place, ntk_app. cbn [ntk].
  replace (_ <? _)%nat with true by (symmetry; apply Nat.ltb_lt; lia). f_equal. f_equal. unfold set_pos, st. cbn.
  f_equal. rewrite ntk_app. cbn. lia.
Qed.

(** * Rules *)

Section rules.
Context {A : Type} {b : Z}.
Implicit Types (p : P A) (ps qs post : list piece) (a : A) (ok : list piece -> Prop).

Lemma reads_weaken p ps a ok ok' : reads b p ps a ok -> (forall post, ok' post -> ok post) -> reads b p ps a ok'.
Proof. intros H Hok pre post Ht Hp. apply H; auto. Qed.

Lemma reads_ext p p' ps a ok : (forall s, p' s = p s) -> reads b p ps a ok -> reads b p' ps a ok.
Proof. intros E H pre post Ht Hp. rewrite E. by apply H. Qed.

Lemma reads_ret a ok : reads b (mret a) [] a ok.
Proof. intros pre post _ _. by rewrite app_nil_r. Qed.

Lemma reads_sp p w ps a ok : reads b p ps a ok -> reads b p (Sp w :: ps) a ok.
Proof.
  intros H pre post. specialize (H (pre ++ [Sp w]) post). rewrite <- !(assoc_L (++)) in H. cbn [app] in *.
  unfold st in *. rewrite !ntk_app in *. cbn [ntk app] in *. by rewrite Nat.add_0_r in H.
Qed.

Lemma reads_ret_bind {B} (x : B) (f : B -> P A) ps a ok : reads b (f x) ps a ok -> reads b (mret x ≫= f) ps a ok.
Proof. done. Qed.

Lemma reads_assoc {B D} (m : P B) (f : B -> P D) (g : D -> P A) ps a ok :
  reads b (m ≫= fun x => f x ≫= g) ps a ok -> reads b ((m ≫= f) ≫= g) ps a ok.
Proof. apply reads_ext. intros s. unfold mbind, P_bind. by destruct (m s) as [[x s']|e|]. Qed.

Lemma reads_bind {B} (m : P B) (f : B -> P A) ps qs x a ok1 ok :
  reads b m ps x ok1 -> reads b (f x) qs a ok -> (forall post, ok post -> ok1 (qs ++ post)) ->
  reads b (m ≫= f) (ps ++ qs) a ok.
Proof.
  intros Hm Hf Hok pre post Ht Hp. unfold mbind, P_bind. rewrite <- (assoc_L (++)) in Ht |- *.
  rewrite (Hm pre (qs ++ post)) by auto. specialize (Hf (pre ++ ps) post).
  rewrite <- !(assoc_L (++)) in Hf. by apply Hf.
Qed.

Lemma reads_last p ps a ok : reads b (p ≫= mret) ps a ok -> reads b p ps a ok.
Proof. apply reads_ext. intros s. unfold mbind, P_bind. by destruct (p s) as [[x s']|e|]. Qed.

(** What a peek finds. *)
Lemma reads_peek (f : Token -> P A) qs a ok :
  (forall t, (exists post, ok post /\ kind t = hd_kind (qs ++ post)) -> reads b (f t) qs a ok) -> reads b (peek ≫= f) qs a ok.
Proof.
  intros H pre post Ht Hp. unfold mbind, P_bind. rewrite peek_st. apply H; [|done|done].
  exists post. by rewrite kind_tok_at.
Qed.

Lemma reads_peek_tk (f : Token -> P A) w k qs a ok :
  (forall t, kind t = k -> reads b (f t) (Tk w k :: qs) a ok) -> reads b (peek ≫= f) (Tk w k :: qs) a ok.
Proof. intros H. apply reads_peek. intros t (post & _ & Hk). by apply H. Qed.

Lemma reads_bump (f : Token -> P A) w k qs a ok :
  (forall t, kind t = k -> reads b (f t) qs a ok) -> reads b (bump ≫= f) (Tk w k :: qs) a ok.
Proof.
  intros H pre post Ht Hp. cbn [app] in *. unfold mbind, P_bind. rewrite bump_st.
  specialize (H (tok_at pre (Tk w k :: qs ++ post)) ltac:(by rewrite kind_tok_at) (pre ++ [Tk w k]) post).
  rewrite <- !(assoc_L (++)) in H. by apply H.
Qed.

Lemma reads_peek_kind (f : TokenKind -> P A) k qs a ok :
  (forall post, ok post -> hd_kind (qs ++ post) = k) -> reads b (f k) qs a ok -> reads b (peek_kind ≫= f) qs a ok.
Proof.
  intros Hk H. apply reads_assoc, reads_peek. intros t (post & Hp & E). apply reads_ret_bind. by rewrite E, Hk.
Qed.

Lemma reads_peek_kind_tk (f : TokenKind -> P A) w k qs a ok :
  reads b (f k) (Tk w k :: qs) a ok -> reads b (peek_kind ≫= f) (Tk w k :: qs) a ok.
Proof. by apply reads_peek_kind. Qed.

Lemma reads_at_kind (f : bool -> P A) k v qs a ok :
  (forall post, ok post -> bool_decide (hd_kind (qs ++ post) = k) = v) -> reads b (f v) qs a ok -> reads b (at_kind k ≫= f) qs a ok.
Proof.
  intros Hk H. apply reads_assoc, reads_assoc, reads_peek. intros t (post & Hp & E). apply reads_ret_bind, reads_ret_bind.
  by rewrite E, Hk.
Qed.

Lemma reads_at_keyword (f : bool -> P A) kw v qs a ok :
  (forall post, ok post -> bool_decide (hd_kind (qs ++ post) = Ident kw) = v) -> reads b (f v) qs a ok ->
  reads b (at_keyword kw ≫= f) qs a ok.
Proof. apply reads_at_kind. Qed.

Lemma reads_eat_yes (f : bool -> P A) w k qs a ok : reads b (f true) qs a ok -> reads b (eat_kind k ≫= f) (Tk w k :: qs) a ok.
Proof.
  intros H. apply reads_assoc, reads_peek_tk. intros t E. rewrite decide_True by done. apply reads_assoc, reads_bump.
  intros _ _. by apply reads_ret_bind.
Qed.

Lemma reads_eat_no (f : bool -> P A) k qs a ok :
  (forall post, ok post -> hd_kind (qs ++ post) <> k) -> reads b (f false) qs a ok -> reads b (eat_kind k ≫= f) qs a ok.
Proof.
  intros Hk H. apply reads_assoc, reads_peek. intros t (post & Hp & E). rewrite decide_False; [by apply reads_ret_bind|].
  rewrite E. auto.
Qed.

Lemma reads_expect (f : unit -> P A) w k qs a ok : reads b (f tt) qs a ok -> reads b (expect k ≫= f) (Tk w k :: qs) a ok.
Proof.
  intros H. apply reads_assoc, reads_peek_tk. intros t E. rewrite decide_True by done. apply reads_assoc, reads_bump.
  intros _ _. by apply reads_ret_bind.
Qed.

Lemma reads_keyword (f : unit -> P A) w kw qs a ok :
  reads b (f tt) qs a ok -> reads b (expect_keyword kw ≫= f) (Tk w (Ident kw) :: qs) a ok.
Proof. apply reads_expect. Qed.

Lemma reads_ident (f : list byte -> P A) w name qs a ok :
  reads b (f name) qs a ok -> reads b (expect_ident ≫= f) (Tk w (Ident name) :: qs) a ok.
Proof.
  intros H. apply reads_assoc, reads_peek_tk. intros t E. rewrite E. apply reads_assoc, reads_bump. intros _ _. by apply reads_ret_bind.
Qed.

Lemma reads_string (f : list byte -> P A) w s qs a ok :
  reads b (f s) qs a ok -> reads b (expect_string ≫= f) (Tk w (TString s) :: qs) a ok.
Proof.
  intros H. apply reads_assoc, reads_peek_tk. intros t E. rewrite E. apply reads_assoc, reads_bump. intros _ _. by apply reads_ret_bind.
Qed.

Lemma reads_int (f : Z -> P A) w n qs a ok : reads b (f n) qs a ok -> reads b (expect_int ≫= f) (Tk w (Int n) :: qs) a ok.
Proof.
  intros H. apply reads_assoc, reads_peek_tk. intros t E. rewrite E. apply reads_assoc, reads_bump. intros _ _. by apply reads_ret_bind.
Qed.

Lemma reads_lift {E B} (r : res E B) (f : B -> P A) x qs a ok : r = Ok x -> reads b (f x) qs a ok -> reads b (lift r ≫= f) qs a ok.
Proof. intros ->. done. Qed.

Lemma reads_fuel (f : nat -> P A) ps a ok :
  (forall n, (ntk ps < n)%nat -> reads b (f n) ps a ok) -> reads b (with_fuel f) ps a ok.
Proof.
  intros H pre post Ht Hp. unfold with_fuel. apply H; [|done|done]. cbn [tokens st]. rewrite length_place, !ntk_app. lia.
Qed.

Lemma reads_get (f : Parser -> P A) qs a ok :
  (forall pre post, ok post -> reads b (f (st (pre ++ qs ++ post) b pre)) qs a ok) -> reads b (get_parser ≫= f) qs a ok.
Proof. intros H pre post Ht Hp. by apply (H pre post Hp). Qed.
End rules.
