(* ===== verification/Literals.v ===== *)
(** The literals of the source language as the emitter writes them
    (src/src/ast/emit.rs), read by the lexer: numbers, byte lists, quoted
    strings, names. Each is one piece. *)

From S2P Require Import Prelude Text Lexer LexerSpec Ast Emit Parser Pieces.

(** * Digits *)

Lemma digits_val_digits r bound acc s v : digits_val r bound acc s = Some v ->
  Forall (fun b => is_Some (digit_val r b)) s.
Proof.
  revert acc. induction s as [|b s IH]; intros acc H; [constructor|]. cbn [digits_val] in H.
  destruct (digit_val r b) eqn:E; [|done]. constructor; [by rewrite E|]. case_match; [eauto|done].
Qed.

Lemma fmt_digits r v : 2 <= r <= 16 -> 0 <= v -> Forall (fun b => is_Some (digit_val r b)) (fmt_radix false r v).
Proof. intros Hr Hv. eapply digits_val_digits, (digits_val_fmt false r (v + 1)); lia. Qed.

Lemma digit_facts r b : r <= 16 -> is_Some (digit_val r b) ->
  u8 b < 128 /\ digit_of r [b] = true /\ (u8 b =? 95) = false /\ is_x [b] = false /\ (r = 10 -> is_digit10 (u8 b) = true).
Proof.
  intros Hr H. assert (48 <= u8 b <= 57 \/ (r > 10 /\ (97 <= u8 b <= 102 \/ 65 <= u8 b <= 70))) as Hb.
  { destruct H as [d H]. unfold digit_val in H. repeat case_match; try done; lia. }
  split_and!; [lia| |lia| |].
  - unfold digit_of, is_digit. destruct H as [d ->]. apply orb_true_r.
  - unfold is_x. rewrite !is_char_single. lia.
  - unfold is_digit10. lia.
Qed.

Lemma digits_chars r s : r <= 16 -> Forall (fun b => is_Some (digit_val r b)) s -> Chars (digit_of r) s.
Proof.
  intros Hr H. apply Chars_ascii. eapply Forall_impl; [exact H|]. intros b Hb. destruct (digit_facts r b Hr Hb) as (? & ? & _). auto.
Qed.

Lemma digits_body r s : r <= 16 -> Forall (fun b => is_Some (digit_val r b)) s ->
  List.filter (fun b => negb (u8 b =? 95)) s = s.
Proof.
  intros Hr. induction 1 as [|b s Hb _ IH]; [done|]. cbn.
  destruct (digit_facts r b Hr Hb) as (_ & _ & -> & _). cbn. by rewrite IH.
Qed.

Lemma sep_digits r rest : r <= 16 -> sep rest -> stops (digit_of r) rest.
Proof. intros Hr. apply sep_mono. intros c. by apply digit_of_continue. Qed.

Lemma number_value (neg : bool) r s n text : parse_unsigned r 64 s = Some n ->
  number_result neg r s text = inr (Int (if neg then wrap 64 (- n) else n)).
Proof. intros H. unfold number_result, u64_from_str_radix. by rewrite H. Qed.

(** * Numbers *)

Lemma hex_number (neg : bool) s n rest : Forall (fun b => is_Some (digit_val 16 b)) s -> parse_unsigned 16 64 s = Some n -> sep rest ->
  lexeme ((if neg then [byte_of 45] else []) ++ str "0x" ++ s) (Int (if neg then wrap 64 (- n) else n)) rest.
Proof.
  intros Hs Hn Hr. set (p := {| np_neg := neg; np_first := byte_of 48; np_hex := Some (byte_of 120); np_digits := s |}).
  apply (L_number p); [split; cbn|].
  - done.
  - by intros x [= <-].
  - done.
  - by apply digits_chars.
  - by apply sep_digits.
  - unfold np_body, np_radix. cbn [np_hex np_digits np_neg p app]. rewrite (digits_body 16) by done. by apply number_value.
Qed.

Lemma hex_digits n : 0 <= n -> Forall (fun b => is_Some (digit_val 16 b)) (fmt_hex n).
Proof. by apply fmt_digits. Qed.

Lemma hex_lexeme n rest : in_range 64 n -> sep rest -> lexeme (hex_lit n) (Int n) rest.
Proof.
  intros Hn Hr. apply (hex_number false (fmt_hex n) n); [apply hex_digits, Hn| |done]. by apply (parse_fmt false 16 64).
Qed.

Lemma byte_lexeme b rest : sep rest -> lexeme (byte_lit b) (Int (u8 b)) rest.
Proof.
  pose proof (u8_range b). intros Hr. apply (hex_number false (pad0 2 (fmt_hex (u8 b))) (u8 b)); [| |done].
  - apply Forall_app. split; [|apply hex_digits; lia]. apply Forall_replicate. by eexists.
  - apply (parse_pad0 false 2 64); [lia|]. unfold in_range. lia.
Qed.

Lemma dec_lexeme n rest : in_range 64 n -> sep rest -> lexeme (fmt_dec n) (Int n) rest.
Proof.
  intros Hn Hr. pose proof (parse_fmt false 10 64 n ltac:(lia) Hn) as Hp.
  pose proof (fmt_digits 10 n ltac:(lia) ltac:(destruct Hn; lia)) as Hd. unfold fmt_dec.
  destruct (fmt_radix_shape false 10 n ltac:(lia)) as (c & ds & E & _). rewrite E in *. inversion Hd as [|? ? Hc Hds]; subst.
  set (p := {| np_neg := false; np_first := c; np_hex := None; np_digits := ds |}).
  destruct (digit_facts 10 c ltac:(lia) Hc) as (_ & _ & _ & _ & Hc'). apply (L_number p); [split; cbn|].
  - by apply Hc'.
  - done.
  - intros _ _. destruct ds as [|d ds]; cbn [app]; [apply (sep_mono is_x _ is_x_continue Hr)|].
    inversion Hds as [|? ? Hd1 _]; subst. destruct (digit_facts 10 d ltac:(lia) Hd1) as (Ha & _ & _ & Hx & _).
    unfold stops. by rewrite next_char_ascii.
  - by apply digits_chars.
  - by apply sep_digits.
  - unfold np_body, np_radix. cbn [np_hex np_digits np_neg np_first p app]. rewrite (digits_body 10) by done. by apply (number_value false).
Qed.

Lemma signed_lexeme n rest : - 2 ^ 63 <= n < 2 ^ 63 -> sep rest -> lexeme (emit_signed_hex n) (Int (wrap 64 n)) rest.
Proof.
  intros Hn Hr. unfold emit_signed_hex. destruct (Z.ltb_spec n 0).
  - replace (wrap 64 n) with (if true then wrap 64 (- - n) else - n) by (f_equal; lia).
    apply (hex_number true (fmt_hex (- n)) (- n)); [apply hex_digits; lia| |done].
    apply (parse_fmt false 16 64); [lia|]. unfold in_range. lia.
  - rewrite wrap_small by (unfold in_range; lia). apply hex_lexeme; [unfold in_range; lia|done].
Qed.

(** * Strings *)

Lemma char_len_pos b : (0 < char_len b)%nat.
Proof. unfold char_len. repeat case_match; lia. Qed.

Lemma chars_n_fuel n s : (length s <= n)%nat -> chars_n n s = chars s.
Proof.
  assert (forall m n s, (length s <= m)%nat -> (length s <= n)%nat -> chars_n n s = chars_n m s) as H.
  { clear. induction m as [|m IH]; intros n s Hm Hn; (destruct s as [|b s]; [by destruct n|]); cbn in *; [lia|].
    destruct n as [|n]; [lia|]. cbn. f_equal.
    pose proof (char_len_pos b). destruct (char_len b) as [|k]; [lia|]. cbn. apply IH; rewrite length_drop; lia. }
  intros Hn. by apply H.
Qed.

Lemma chars_valid ch s : valid_char ch -> chars (ch ++ s) = ch :: chars s.
Proof.
  intros Hc. unfold chars at 1. rewrite length_app.
  destruct ch as [|b t]; [done|]. cbn [length app Nat.add chars_n].
  change (b :: t ++ s) with ((b :: t) ++ s). rewrite (next_char_valid _ s Hc). f_equal. apply chars_n_fuel. lia.
Qed.

Lemma hex_escape b : (u8 b <? 0x20) || (u8 b =? 0x7f) = true -> exists h1 h2, pad0 2 (fmt_hex (u8 b)) = [h1] ++ [h2] /\
  valid_char [h1] /\ valid_char [h2] /\ parse_unsigned 16 32 ([h1] ++ [h2]) = Some (u8 b).
Proof.
  intros Hb. pose proof (u8_range b).
  pose proof (parse_pad0 false 2 32 (u8 b) ltac:(lia) ltac:(unfold in_range; lia)) as Hp.
  assert (forallb (fun c => if (c <? 0x20) || (c =? 0x7f) then match pad0 2 (fmt_hex c) with [h1; h2] => (u8 h1 <? 128) && (u8 h2 <? 128) | _ => false end
    else true) (seqZ 0 256) = true) as Hs by reflexivity.
  rewrite List.forallb_forall in Hs. specialize (Hs (u8 b) ltac:(apply list_elem_of_In, elem_of_seqZ; lia)). cbv beta in Hs.
  rewrite Hb in Hs. unfold fmt_hex in *. destruct (pad0 2 _) as [|h1 [|h2 [|]]]; try done. apply andb_prop in Hs as [H1 H2].
  exists h1, h2. split_and!; [done|by apply valid_ascii; lia|by apply valid_ascii; lia|done].
Qed.

Ltac named_escape :=
  first [apply (SC_named 92 92)|apply (SC_named 34 34)|apply (SC_named 110 10)|apply (SC_named 114 13)|apply (SC_named 116 9)|apply (SC_named 48 0)];
  unfold named_escapes; repeat first [left|right].

Lemma quote_char_ok ch : valid_char ch -> str_char (quote_char ch) ch.
Proof.
  intros Hc. unfold quote_char.
  repeat match goal with |- context [if is_char ?c ch then _ else _] => destruct (is_char c ch) eqn:? end;
    try match goal with H : is_char ?c ch = true |- _ => apply is_char_byte in H as ->; named_escape end.
  destruct ch as [|b [|c t]]; [done| |by apply SC_plain].
  destruct ((u8 b <? 0x20) || (u8 b =? 0x7f)) eqn:E; [|by apply SC_plain].
  destruct (hex_escape b E) as (h1 & h2 & -> & H1 & H2 & Hp). apply (SC_hex [h1] [h2] (u8 b)); try done.
  unfold char_from_u32. replace (u8 b <? 0x80) with true by lia. by rewrite byte_of_u8.
Qed.

Lemma quote_body s : utf8 s -> str_body (concat (map quote_char (chars s))) s.
Proof.
  induction 1 as [|ch s Hc _ _ IH]; [constructor|]. rewrite chars_valid by done. cbn [map concat].
  constructor; [by apply quote_char_ok|done].
Qed.

Lemma quote_lexeme s rest : utf8 s -> lexeme (quote_string s) (TString s) rest.
Proof. intros Hs. apply L_string. by apply quote_body. Qed.

(** * Names *)

Definition ident_ok (s : list byte) : bool :=
  match s with [] => false | b :: t => is_ident_start [b] && forallb (fun c => is_ident_continue [c]) t end.

Lemma ident_lexeme s rest : ident_ok s = true -> sep rest -> lexeme s (Ident s) rest.
Proof. destruct s as [|b t]; [done|]. intros [Hb Ht]%andb_prop. by apply word_lexeme. Qed.

(** A name with a number behind it is a name. *)
Lemma number_word_ok r p v : 2 <= r <= 16 -> ident_ok p = true -> 0 <= v -> ident_ok (p ++ fmt_radix false r v) = true.
Proof.
  intros Hr Hp Hv. destruct p as [|b t]; [done|]. cbn [ident_ok app] in *. apply andb_prop in Hp as [-> Ht].
  rewrite List.forallb_app, Ht. apply List.forallb_forall. intros c Hc. apply list_elem_of_In in Hc.
  pose proof (fmt_digits r v Hr Hv) as Hd. rewrite Forall_forall in Hd. specialize (Hd c Hc).
  destruct (digit_facts r c ltac:(lia) Hd) as (_ & H & _). apply (digit_of_continue r); [lia|done].
Qed.
