(* ===== verification/Reads.v ===== *)
(** Stepping a parser function over printed pieces: lists, and the tactics.

    [segs] proves that a concatenation of pieces divides its text, [rd] steps
    through the binds of a parser function along the pieces. *)

From S2P Require Import Prelude Text Lexer LexerSpec Ast Emit Parser Pieces Literals.

(** * One-piece literals *)

Abbreviation hexT n := (Tk (hex_lit n) (Int n)).
Abbreviation decT n := (Tk (fmt_dec n) (Int n)).
Abbreviation byteT b := (Tk (byte_lit b) (Int (u8 b))).
Abbreviation signedT n := (Tk (emit_signed_hex n) (Int (wrap 64 n))).
Abbreviation strT s := (Tk (quote_string s) (TString s)).
Abbreviation idT s := (Tk s (Ident s)).

Lemma seg_tk w k : (forall rest, sep rest -> lexeme w k rest) -> seg [Tk w k].
Proof. intros H rest Hr. by split; [apply H|]. Qed.

Lemma seg_hex n : in_range 64 n -> seg [hexT n].
Proof. intros Hn. apply seg_tk. intros rest. by apply hex_lexeme. Qed.
Lemma seg_dec n : in_range 64 n -> seg [decT n].
Proof. intros Hn. apply seg_tk. intros rest. by apply dec_lexeme. Qed.
Lemma seg_byte b : seg [byteT b].
Proof. apply seg_tk. intros rest. apply byte_lexeme. Qed.
Lemma seg_signed n : - 2 ^ 63 <= n < 2 ^ 63 -> seg [signedT n].
Proof. intros Hn. apply seg_tk. intros rest. by apply signed_lexeme. Qed.
Lemma seg_ident s : ident_ok s = true -> seg [idT s].
Proof. intros Hs. apply seg_tk. intros rest. by apply ident_lexeme. Qed.
Lemma closed_str s : utf8 s -> closed [strT s].
Proof. intros Hs rest. by split; [apply quote_lexeme|]. Qed.

Create HintDb seg.
#[export] Hint Resolve seg_hex seg_dec seg_byte seg_signed seg_ident closed_str closed_seg closed_nil : seg.

Lemma opens_const ps b s : render ps = b :: s -> sep_byte b = true -> opens ps.
Proof. intros E H. by exists b, s. Qed.

Lemma opens_str s qs : opens (strT s :: qs).
Proof. eexists _, _. by rewrite render_cons. Qed.

Lemma closed_blank w : forallb is_blank w = true -> closed [Sp w].
Proof. intros H rest. split; [by apply blank_chars|done]. Qed.

Lemma blank_spaces n : forallb is_blank (spaces n) = true.
Proof. induction n; [done|]. done. Qed.

(** * Tactics *)

(** Constant text to pieces. *)
Ltac expand_C :=
  repeat match goal with |- context [C ?c] => let v := eval vm_compute in (C c) in replace (C c) with v by (vm_compute; reflexivity) end; cbn [app].

(** The number of tokens of a concatenation. *)
Ltac ntks :=
  repeat (rewrite ?ntk_app in *; cbn [ntk] in *);
  repeat match goal with
  | H : context [ntk (C ?c)] |- _ => let v := eval vm_compute in (ntk (C c)) in replace (ntk (C c)) with v in H by (vm_compute; reflexivity)
  | |- context [ntk (C ?c)] => let v := eval vm_compute in (ntk (C c)) in replace (ntk (C c)) with v by (vm_compute; reflexivity)
  end.

Ltac opens_tac :=
  lazymatch goal with
  | |- opens (C ?c ++ _) => apply opens_app; apply (opens_const (C c) _ _ ltac:(vm_compute; reflexivity)); reflexivity
  | |- opens (C ?c) => apply (opens_const (C c) _ _ ltac:(vm_compute; reflexivity)); reflexivity
  | |- opens _ => auto with seg
  end.

(** [closed] or [seg] of a right-nested concatenation. *)
Ltac segs :=
  lazymatch goal with
  | |- closed (C _) => apply closed_const; vm_compute; reflexivity
  | |- seg (C _) => apply seg_const; vm_compute; reflexivity
  | |- closed (C _ ++ _) => first [apply closed_app; [apply closed_const; vm_compute; reflexivity|segs]
                                  |apply seg_closed_app; [apply seg_const; vm_compute; reflexivity|opens_tac|segs]]
  | |- seg (C _ ++ _) => first [apply closed_seg_app; [apply closed_const; vm_compute; reflexivity|segs]
                               |apply seg_app; [apply seg_const; vm_compute; reflexivity|opens_tac|segs]]
  | |- closed (_ ++ _) => first [apply closed_app; [solve [auto with seg]|segs]
                                |apply seg_closed_app; [solve [auto with seg]|opens_tac|segs]]
  | |- seg (_ ++ _) => first [apply closed_seg_app; [solve [auto with seg]|segs]
                             |apply seg_app; [solve [auto with seg]|opens_tac|segs]]
  | |- _ => auto with seg
  end.

(** A condition whose two sides are known. *)
Ltac decided :=
  first [vm_compute; reflexivity|let H := fresh in intros H; vm_compute in H; repeat destruct H as [H|H]; discriminate H|vm_compute; tauto].

Ltac kind_tac := intros; first [reflexivity|discriminate|done].

(** One step along the pieces. *)
Ltac rd1 :=
  cbv beta match; cbn [app];
  lazymatch goal with
  | |- reads _ _ (Sp _ :: _) _ _ => apply reads_sp
  | |- reads _ (mret _) [] _ _ => apply reads_ret
  | |- reads _ (mret _ ≫= _) _ _ _ => apply reads_ret_bind
  | |- reads _ ((_ ≫= _) ≫= _) _ _ _ => apply reads_assoc
  | |- reads _ ((if decide ?P then _ else _) ≫= _) _ _ _ =>
      first [rewrite (decide_True (P:=P)) by decided|rewrite (decide_False (P:=P)) by decided]
  | |- reads _ (if decide ?P then _ else _) _ _ _ =>
      first [rewrite (decide_True (P:=P)) by decided|rewrite (decide_False (P:=P)) by decided]
  | |- reads _ (expect _ ≫= _) (Tk _ _ :: _) _ _ => apply reads_expect
  | |- reads _ (expect_keyword _ ≫= _) (Tk _ _ :: _) _ _ => apply reads_expect
  | |- reads _ (expect_ident ≫= _) (Tk _ _ :: _) _ _ => apply reads_ident
  | |- reads _ (expect_string ≫= _) (Tk _ _ :: _) _ _ => apply reads_string
  | |- reads _ (expect_int ≫= _) (Tk _ _ :: _) _ _ => apply reads_int
  | |- reads _ (bump ≫= _) (Tk _ _ :: _) _ _ => apply reads_bump; intros _ _
  | |- reads _ (at_kind _ ≫= _) (Tk _ _ :: _) _ _ =>
      first [apply (reads_at_kind _ _ true); [kind_tac|]|apply (reads_at_kind _ _ false); [kind_tac|]]; cbv iota
  | |- reads _ (at_keyword _ ≫= _) (Tk _ _ :: _) _ _ =>
      first [apply (reads_at_keyword _ _ true); [kind_tac|]|apply (reads_at_keyword _ _ false); [kind_tac|]]; cbv iota
  | |- reads _ (eat_kind _ ≫= _) (Tk _ _ :: _) _ _ =>
      first [apply reads_eat_yes|apply reads_eat_no; [kind_tac|]]; cbv iota
  | |- reads _ (peek_kind ≫= _) (Tk _ _ :: _) _ _ => apply reads_peek_kind_tk; cbv iota
  | |- reads _ (peek ≫= _) (Tk _ _ :: _) _ _ =>
      let t := fresh "t" in let Ht := fresh "Ht" in
      apply reads_peek_tk; intros t Ht; rewrite ?Ht; cbv iota
  | |- reads _ (int_comma ≫= _) _ _ _ => unfold int_comma at 1
  | |- reads _ (string_comma ≫= _) _ _ _ => unfold string_comma at 1
  end.

Ltac rd := repeat rd1.

(** * Lists *)

Definition comma : list piece := [Tk [byte_of 44] Comma; Sp [byte_of 32]].

(** Pieces with commas between them. *)
Fixpoint commas (l : list (list piece)) : list piece :=
  match l with
  | [] => []
  | [x] => x
  | x :: l => x ++ comma ++ commas l
  end.

Lemma render_commas l : render (commas l) = sep_by (str ", ") (map render l).
Proof.
  induction l as [|x l IH]; [done|]. destruct l as [|y l]; [done|].
  change (commas (x :: y :: l)) with (x ++ comma ++ commas (y :: l)). rewrite !render_app, IH. done.
Qed.

Lemma seg_commas l : Forall seg l -> seg (commas l).
Proof.
  induction 1 as [|x l Hx Hl IH]; [apply closed_seg, closed_nil|]. destruct l as [|y l]; [done|].
  change (commas (x :: y :: l)) with (x ++ comma ++ commas (y :: l)). apply seg_app; [done| |].
  - apply opens_app. by apply (opens_const comma _ _ eq_refl).
  - apply closed_seg_app; [by apply closed_const|done].
Qed.

Lemma length_commas l : Forall (fun ps => 0 < ntk ps)%nat l -> (length l <= ntk (commas l))%nat.
Proof.
  induction 1 as [|x l Hx Hl IH]; [done|]. destruct l as [|y l]; [cbn in *; lia|].
  change (commas (x :: y :: l)) with (x ++ comma ++ commas (y :: l)). rewrite !ntk_app. cbn [length] in *. cbn [ntk comma]. lia.
Qed.

(** What follows an item of a list. *)
Definition item_end (close : TokenKind) (post : list piece) : Prop := hd_kind post = Comma \/ hd_kind post = close.

Section lists.
Context {A : Type} (b : Z) (item : P A) (close : TokenKind).
Context (Hclose : close <> Comma).

(** [x] is read from [ps], which does not start like the end of the list. *)
Definition reads_item (x : A) (ps : list piece) : Prop :=
  reads b item ps x (item_end close) /\ (forall post, hd_kind (ps ++ post) <> close /\ hd_kind (ps ++ post) <> Eof) /\ (0 < ntk ps)%nat.

Lemma reads_comma_list xs pss fuel : Forall2 reads_item xs pss -> xs <> [] -> (length xs <= fuel)%nat ->
  reads b (comma_list item close fuel) (commas pss) xs (fun post => hd_kind post = close).
Proof.
  intros H. revert fuel. induction H as [|x ps xs pss (Hx & Hk & _) H IH]; intros fuel Hn Hf; [done|].
  destruct fuel as [|fuel]; [cbn in Hf; lia|]. cbn [comma_list length] in *. destruct H as [|y ps' xs pss (Hy & Hk' & Hn') H].
  - rewrite <- (app_nil_r (commas _)). eapply reads_bind; [exact Hx| |by right]. cbn beta.
    apply reads_eat_no; [intros post Hp E; cbn [app] in E; congruence|]. apply reads_ret.
  - change (commas (ps :: ps' :: pss)) with (ps ++ comma ++ commas (ps' :: pss)).
    eapply reads_bind; [exact Hx| |by left]. cbn beta. apply reads_eat_yes, reads_sp. cbv iota.
    apply (reads_at_kind _ _ false).
    + intros post _. apply bool_decide_eq_false. destruct pss; cbn [commas app]; rewrite <- ?(assoc_L (++)); apply Hk'.
    + rewrite <- (app_nil_r (commas _)). eapply reads_bind; [apply IH; [done|lia]|apply reads_ret|done].
Qed.

Lemma items_length xs pss : Forall2 reads_item xs pss -> (length xs <= ntk (commas pss))%nat.
Proof.
  intros H. rewrite (Forall2_length _ _ _ H). apply length_commas.
  induction H as [|? ? ? ? (_ & _ & ?)]; constructor; auto.
Qed.

Lemma items_start xs pss post : Forall2 reads_item xs pss -> xs <> [] -> hd_kind (commas pss ++ post) <> close.
Proof.
  intros [|x ps xs' pss' (_ & Hk & _) H]; [done|]. intros _. destruct pss'; cbn [commas]; rewrite <- ?(assoc_L (++)); apply Hk.
Qed.

(** Items with a comma after each. *)
Definition lines (pss : list (list piece)) : list piece := concat (map (fun ps => ps ++ C (str ",") ++ [Sp nl]) pss).

Lemma reads_while_list xs pss fuel : Forall2 reads_item xs pss -> (length xs < fuel)%nat ->
  reads b (while_list item close fuel) (lines pss) xs (fun post => hd_kind post = close).
Proof.
  intros H. revert fuel. induction H as [|x ps xs pss (Hx & Hk & _) H IH]; intros fuel Hf; (destruct fuel as [|fuel]; [cbn in Hf; lia|]);
    cbn [while_list length] in *.
  - eapply reads_peek_kind; [intros post Hp; exact Hp|]. cbv beta. rewrite decide_True by auto. apply reads_ret.
  - unfold lines in *. cbn [map concat]. rewrite <- !(assoc_L (++)). unfold peek_kind. apply reads_assoc, reads_peek.
    intros t (post & _ & E). apply reads_ret_bind. rewrite decide_False.
    + eapply reads_bind; [exact Hx| |by left]. cbv beta. expand_C. apply reads_eat_yes, reads_sp. cbv iota.
      rewrite <- (app_nil_r (concat _)). eapply reads_bind; [apply IH; lia|apply reads_ret|done].
    + rewrite E, <- !(assoc_L (++)). destruct (Hk (C (str ",") ++ [Sp nl] ++ concat (map (fun ps0 => ps0 ++ C (str ",") ++ [Sp nl]) pss) ++ post)).
      by intros [?|?].
Qed.

Lemma reads_many_until xs pss fuel :
  Forall2 (fun x ps => reads b item ps x (fun _ => True) /\ (forall post, hd_kind (ps ++ post) <> close /\ hd_kind (ps ++ post) <> Eof)) xs pss ->
  (length xs < fuel)%nat ->
  reads b (many_until item close fuel) (concat pss) xs (fun post => hd_kind post = close).
Proof.
  intros H. revert fuel. induction H as [|x ps xs pss (Hx & Hk) H IH]; intros fuel Hf; (destruct fuel as [|fuel]; [cbn in Hf; lia|]);
    cbn [many_until length concat] in *.
  - eapply reads_peek_kind; [intros post Hp; exact Hp|]. cbv beta. rewrite decide_True by auto. apply reads_ret.
  - unfold peek_kind. apply reads_assoc, reads_peek. intros t (post & _ & E). apply reads_ret_bind. rewrite decide_False.
    + eapply reads_bind; [exact Hx| |done]. rewrite <- (app_nil_r (concat _)). eapply reads_bind; [apply IH; lia|apply reads_ret|done].
    + rewrite E, <- !(assoc_L (++)). destruct (Hk (concat pss ++ post)). by intros [?|?].
Qed.
End lists.

Lemma reads_bracketed_list {A} b (item : P A) xs pss : Forall2 (reads_item b item RBracket) xs pss ->
  reads b (bracketed_list item) (C (str "[") ++ commas pss ++ C (str "]")) xs (fun _ => True).
Proof.
  intros H. unfold bracketed_list. expand_C. rd. destruct (decide (xs = [])) as [->|Hn].
  - inversion H; subst. cbn [commas app]. rd.
  - apply (reads_at_kind _ _ false).
    { intros post _. apply bool_decide_eq_false. rewrite <- (assoc_L (++)). by apply (items_start b item RBracket xs). }
    eapply reads_bind; [apply reads_fuel; intros n Hlt; apply reads_comma_list; [done|exact H|done|]| |done].
    + pose proof (items_length b item RBracket xs pss H). lia.
    + rd.
Qed.
