(* ===== verification/RoundBasic.v ===== *)
(** Byte lists, types, values, attributes and declarations: the pieces of
    their text, and that the parser reads them back. *)

From S2P Require Import Prelude Text Lexer LexerSpec Ast Emit Parser Pieces Literals Reads.

(** A text that is UTF-8, and an [u64], as tests. *)
Definition u64_ok (n : Z) : bool := (0 <=? n) && (n <? 2 ^ 64).

Lemma u64_ok_range n : u64_ok n = true -> in_range 64 n.
Proof. unfold u64_ok, in_range. lia. Qed.
#[export] Hint Resolve u64_ok_range utf8_of_valid : seg.

Lemma emit_sep_by {A} (f : A -> list byte) l : emit_sep f l = sep_by (str ", ") (map f l).
Proof.
  induction l as [|x l IH]; [done|]. cbn [emit_sep map]. rewrite IH. destruct l; [by cbn; rewrite app_nil_r|done].
Qed.

Lemma emit_all_concat {A} (f : A -> list byte) l : emit_all f l = concat (map f l).
Proof. induction l as [|x l IH]; [done|]. cbn. by rewrite IH. Qed.

Lemma render_concat pss : render (concat pss) = concat (map render pss).
Proof. induction pss as [|ps pss IH]; [done|]. cbn [concat map]. by rewrite render_app, IH. Qed.

Lemma closed_concat pss : Forall closed pss -> closed (concat pss).
Proof. induction 1; [apply closed_nil|]. by apply closed_app. Qed.

Lemma Forall2_map_r {A B} (P : A -> B -> Prop) (f : A -> B) l : Forall (fun x => P x (f x)) l -> Forall2 P l (map f l).
Proof. induction 1; constructor; auto. Qed.

Lemma forallb_Forall {A} (f : A -> bool) (P : A -> Prop) l : (forall x, f x = true -> P x) -> forallb f l = true -> Forall P l.
Proof. intros H. induction l as [|x l IH]; [constructor|]. intros [Hx Hl]%andb_prop. constructor; auto. Qed.

Lemma render_tk w k : render [Tk w k] = w.
Proof. apply app_nil_r. Qed.

(** [render] of a concatenation, constants evaluated. *)
Ltac renders :=
  repeat (rewrite ?render_app, ?render_commas, ?render_concat, ?map_map);
  repeat match goal with |- context [render (C ?c)] =>
    let v := eval vm_compute in (render (C c)) in replace (render (C c)) with v by (vm_compute; reflexivity) end;
  repeat match goal with |- context [str ?s] => let v := eval vm_compute in (str s) in change (str s) with v end;
  rewrite ?render_tk.

(** * Byte lists *)

Definition bytesP (bytes : list byte) : list piece := C (str "[") ++ commas (map (fun b => [byteT b]) bytes) ++ C (str "]").

Lemma render_bytes bytes : render (bytesP bytes) = str "[" ++ emit_byte_list bytes ++ str "]".
Proof.
  unfold bytesP, emit_byte_list. rewrite !render_app, render_commas, map_map.
  f_equal. f_equal. f_equal. apply map_ext. intros b. apply render_tk.
Qed.

Lemma closed_bytes bytes : closed (bytesP bytes).
Proof.
  unfold bytesP. apply closed_app; [by apply closed_const|]. apply seg_closed_app; [|opens_tac|by apply closed_const].
  apply seg_commas, Forall_map, Forall_forall. intros b _. apply seg_byte.
Qed.

Lemma reads_byte b x : reads_item b parse_byte RBracket x [byteT x].
Proof.
  split_and!; [|done|cbn; lia]. unfold parse_byte. rd. pose proof (u8_range x).
  replace (0xff <? u8 x) with false by lia. rewrite byte_of_u8. rd.
Qed.

Lemma reads_bytes b bytes : reads b parse_byte_list (bytesP bytes) bytes (fun _ => True).
Proof. apply reads_bracketed_list, Forall2_map_r, Forall_forall. intros x _. apply reads_byte. Qed.

Lemma opens_bytes bytes : opens (bytesP bytes).
Proof. unfold bytesP. opens_tac. Qed.

#[export] Hint Resolve closed_bytes opens_bytes : seg.

(** * Types *)

Fixpoint typeP (t : Ty) : list piece :=
  match t with
  | TPointer inner => C (str "ptr<") ++ typeP inner ++ C (str ">")
  | t => [idT (emit_type t)]
  end.

Lemma render_type t : render (typeP t) = emit_type t.
Proof.
  induction t as [| | | | | | | | | | | | |t IH|]; cycle -2; [|apply render_tk..].
  cbn [typeP emit_type]. rewrite !render_app, IH. reflexivity.
Qed.

Lemma seg_type t : seg (typeP t).
Proof. induction t as [| | | | | | | | | | | | |t IH|]; cycle -2; [|by apply seg_ident..]. cbn [typeP]. segs. Qed.
#[export] Hint Resolve seg_type : seg.

(** The value of [f] at a constant. *)
Ltac evals f := repeat match goal with |- context [f ?s] => let v := eval vm_compute in (f s) in replace (f s) with v by (vm_compute; reflexivity) end; cbv iota.

Lemma reads_primitive b t n ok : (forall t', t <> TPointer t') -> reads b (parse_type (S n)) [idT (emit_type t)] t ok.
Proof.
  intros H. cbn [parse_type]. rd. assert (primitive (emit_type t) = Some t) as ->; [|rd].
  destruct t; try (vm_compute; reflexivity). by edestruct H.
Qed.

Lemma reads_pointer b t n ok : reads b (parse_type n) (typeP t) t (fun _ => True) ->
  reads b (parse_type (S n)) (typeP (TPointer t)) (TPointer t) ok.
Proof.
  intros H. cbn [typeP parse_type] in *. expand_C. rd. evals primitive. rd.
  eapply (reads_bind _ _ (typeP t)); [apply H| |done]. rd.
Qed.

Lemma reads_type_n b t : forall n ok, (ntk (typeP t) < n)%nat -> reads b (parse_type n) (typeP t) t ok.
Proof.
  induction t as [| | | | | | | | | | | | |t IH|]; intros n ok Hn; (destruct n as [|n]; [by apply Nat.nlt_0_r in Hn|]);
    cycle -2; [|by apply reads_primitive..].
  apply reads_pointer, IH. cbn [typeP] in Hn. rewrite !ntk_app in Hn. ntks. clear -Hn. lia.
Qed.

Lemma reads_type b t ok : reads b (with_fuel parse_type) (typeP t) t ok.
Proof. apply reads_fuel. intros n. apply reads_type_n. Qed.

Lemma ntk_type t : (0 < ntk (typeP t))%nat.
Proof. destruct t; cbn [typeP]; ntks; cbn; lia. Qed.

(** * Values *)

Definition lineP (indent : nat) (ps : list piece) : list piece := [Sp (spaces indent)] ++ ps ++ [Sp nl].

Fixpoint valueP (v : Value) (depth : nat) : list piece :=
  match v with
  | VString s => [strT s]
  | VInt n => [hexT n]
  | VList items => C (str "[") ++ commas (map (fun v => valueP v depth) items) ++ C (str "]")
  | VBlock fields =>
      C (str "{") ++ [Sp nl] ++
      concat (map (fun '(name, v) => lineP ((depth + 1) * 4) ([idT name] ++ C (str ": ") ++ valueP v (depth + 1) ++ C (str ","))) fields) ++
      [Sp (spaces (depth * 4))] ++ C (str "}")
  end.

Definition fieldP (f : Field) (depth : nat) : list piece :=
  lineP (depth * 4) ([idT f.1] ++ C (str ": ") ++ valueP f.2 depth ++ C (str ",")).

Fixpoint wf_value (v : Value) : bool :=
  match v with
  | VString s => utf8_valid s
  | VInt n => u64_ok n
  | VList items => forallb wf_value items
  | VBlock fields => forallb (fun '(name, v) => ident_ok name && wf_value v) fields
  end.

Definition wf_field (f : Field) : bool := ident_ok f.1 && wf_value f.2.

Lemma render_line n ps : render (lineP n ps) = spaces n ++ render ps ++ nl.
Proof. unfold lineP. rewrite !render_app. cbn [render map piece_text concat]. by rewrite !app_nil_r. Qed.

Lemma render_value v : forall depth, render (valueP v depth) = emit_value v depth.
Proof.
  induction v as [s|n|l IH|l IH] using value_ind; intros depth; cbn [valueP emit_value]; [apply render_tk|apply render_tk| |].
  - rewrite !render_app, render_commas, emit_sep_by, map_map. f_equal. f_equal. f_equal. apply map_ext_in.
    intros v Hv. rewrite Forall_forall in IH. apply IH. by apply list_elem_of_In.
  - rewrite !render_app, render_concat, emit_all_concat, map_map. change (render [Sp nl]) with nl.
    change (render [Sp (spaces (depth * 4))]) with (spaces (depth * 4) ++ []). rewrite app_nil_r.
    f_equal. f_equal. f_equal. f_equal. apply map_ext_in. intros [name v] Hv. rewrite Forall_forall in IH.
    rewrite render_line, !render_app, (IH (name, v)) by (by apply list_elem_of_In). rewrite render_tk.
    by rewrite <- !(assoc_L (++)).
Qed.

Lemma closed_line n ps : closed ps -> closed (lineP n ps).
Proof. intros H. apply closed_app; [apply closed_blank, blank_spaces|]. apply closed_app; [done|by apply closed_blank]. Qed.

Lemma seg_value v : forall depth, wf_value v = true -> seg (valueP v depth).
Proof.
  induction v as [s|n|l IH|l IH] using value_ind; intros depth Hwf; cbn [valueP wf_value] in *; [auto with seg..| |].
  - assert (seg (commas (map (fun v => valueP v depth) l))); [|segs].
    apply seg_commas, Forall_map, Forall_forall. intros v Hv.
    rewrite Forall_forall in IH. apply IH; [done|]. rewrite List.forallb_forall in Hwf. by apply Hwf, list_elem_of_In.
  - apply closed_seg. pose proof (closed_blank nl eq_refl). pose proof (closed_blank _ (blank_spaces (depth * 4))).
    match goal with |- closed (_ ++ _ ++ ?l ++ _) => assert (closed l); [|segs] end.
    apply closed_concat, Forall_map, Forall_forall. intros [name v] Hv.
    rewrite List.forallb_forall in Hwf. specialize (Hwf (name, v) ltac:(by apply list_elem_of_In)).
    apply andb_prop in Hwf as [Hn Hw]. rewrite Forall_forall in IH. specialize (IH (name, v) Hv (depth + 1)%nat Hw).
    apply closed_line. segs.
Qed.

Lemma value_start v depth : (forall post, hd_kind (valueP v depth ++ post) <> RBracket /\ hd_kind (valueP v depth ++ post) <> Eof) /\
  (0 < ntk (valueP v depth))%nat.
Proof. destruct v; cbn [valueP]; rewrite ?ntk_app; expand_C; (split; [done|cbn; lia]). Qed.

Lemma ntk_in ps pss : ps ∈ pss -> (ntk ps <= ntk (concat pss))%nat.
Proof.
  induction pss as [|qs pss IH]; [by intros ?%elem_of_nil|]. cbn [concat]. rewrite ntk_app. intros [->|H]%elem_of_cons; [lia|].
  specialize (IH H). lia.
Qed.

Lemma ntk_in_commas ps pss : ps ∈ pss -> (ntk ps <= ntk (commas pss))%nat.
Proof.
  induction pss as [|qs pss IH]; [by intros ?%elem_of_nil|]. destruct pss as [|rs pss].
  - by intros ->%list_elem_of_singleton.
  - change (commas (qs :: rs :: pss)) with (qs ++ comma ++ commas (rs :: pss)). rewrite !ntk_app.
    intros [->|H]%elem_of_cons; [lia|]. specialize (IH H). lia.
Qed.

Lemma length_concat pss : Forall (fun ps => 0 < ntk ps)%nat pss -> (length pss <= ntk (concat pss))%nat.
Proof. induction 1; [done|]. cbn [concat length]. rewrite ntk_app. lia. Qed.

Lemma field_reads b (value : P Value) name v depth indent :
  reads b value (valueP v depth) v (fun _ => True) ->
  reads b (name ← expect_ident; _ ← expect Colon; v ← value; _ ← expect Comma; mret (name, v))
    (lineP indent ([idT name] ++ C (str ": ") ++ valueP v depth ++ C (str ","))) (name, v) (fun _ => True).
Proof.
  intros H. unfold lineP. expand_C. rd. rewrite <- !(assoc_L (++)). eapply reads_bind; [exact H| |done]. rd.
Qed.

Lemma line_start n name ps post : hd_kind (lineP n ([idT name] ++ ps) ++ post) <> RBrace /\ hd_kind (lineP n ([idT name] ++ ps) ++ post) <> Eof.
Proof. by split. Qed.

Lemma reads_value_n b v : forall n depth ok, (ntk (valueP v depth) < n)%nat -> reads b (parse_value n) (valueP v depth) v ok.
Proof.
  induction v as [s|k|l IH|l IH] using value_ind; intros n depth ok Hn; (destruct n as [|n]; [lia|]); cbn [valueP parse_value] in *;
    [rd|rd| |].
  - ntks. expand_C. rd. assert (Forall2 (reads_item b (parse_value n) RBracket) l (map (fun v => valueP v depth) l)) as H.
    { apply Forall2_map_r, Forall_forall. intros v Hv. destruct (value_start v depth) as [Hk Hp]. split_and!; [|done|done].
      rewrite Forall_forall in IH. apply IH; [done|].
      pose proof (ntk_in_commas (valueP v depth) (map (fun v => valueP v depth) l)) as Hc.
      specialize (Hc (list_elem_of_fmap_2 (fun v => valueP v depth) l v Hv)). lia. }
    pose proof (items_length _ _ _ _ _ H). destruct (decide (l = [])) as [->|Hl]; [cbn [map commas app]; rd|].
    apply (reads_at_kind _ _ false).
    { intros post _. apply bool_decide_eq_false. rewrite <- (assoc_L (++)). by apply (items_start b (parse_value n) RBracket l). }
    eapply reads_bind; [apply reads_comma_list; [done|exact H|done|lia]| |done]. rd.
  - set (pss := map _ l) in *. ntks. expand_C. rd.
    assert (Forall (fun ps => 0 < ntk ps)%nat pss) as Hp.
    { apply Forall_map, Forall_forall. intros [name v] _. unfold lineP. ntks. lia. }
    eapply reads_bind; [apply reads_many_until with (pss := pss)| |].
    + apply Forall2_map_r, Forall_forall. intros [name v] Hv. split; [|intros; apply line_start].
      apply field_reads. rewrite Forall_forall in IH. apply (IH (name, v) Hv).
      pose proof (ntk_in _ pss (list_elem_of_fmap_2 _ l (name, v) Hv)) as Hi. unfold lineP in Hi. cbv beta iota in Hi. ntks. cbn [snd]. lia.
    + pose proof (length_concat pss Hp). unfold pss in *. rewrite length_map in *. lia.
    + rd.
    + done.
Qed.

Lemma reads_value b v depth ok : reads b (with_fuel parse_value) (valueP v depth) v ok.
Proof. apply reads_fuel. intros n. apply reads_value_n. Qed.

Lemma reads_field b f depth : reads b parse_field (fieldP f depth) f (fun _ => True).
Proof. destruct f as [name v]. apply field_reads, reads_value. Qed.

Lemma render_field f depth : render (fieldP f depth) = emit_field f depth.
Proof.
  unfold fieldP, emit_field. rewrite render_line, !render_app, render_value, render_tk. by rewrite <- !(assoc_L (++)).
Qed.

Lemma closed_field f depth : wf_field f = true -> closed (fieldP f depth).
Proof. unfold wf_field, fieldP. intros [Hn Hv]%andb_prop. pose proof (seg_value f.2 depth Hv). apply closed_line. segs. Qed.

(** * Attributes *)

Definition attrP (a : Attribute) : list piece :=
  [idT (key a)] ++
  match avalue a with
  | AString s => C (str "=") ++ [strT s]
  | AInt n => C (str "=") ++ [hexT n]
  | AByteList bytes => C (str "=") ++ bytesP bytes
  | AFlag => []
  end.

Definition attrsP (l : list Attribute) : list piece := C (str "#") ++ C (str "[") ++ commas (map attrP l) ++ C (str "]").

Definition wf_attr (a : Attribute) : bool :=
  ident_ok (key a) && match avalue a with AString s => utf8_valid s | AInt n => u64_ok n | _ => true end.

Lemma render_attr a : render (attrP a) = emit_attr a.
Proof.
  unfold attrP, emit_attr. destruct (avalue a); rewrite !render_app, ?render_bytes, ?render_tk; reflexivity.
Qed.

Lemma render_attrs l : l <> [] -> render (attrsP l) = emit_attrs l.
Proof.
  intros Hl. unfold attrsP, emit_attrs. rewrite !render_app, render_commas, map_map.
  rewrite (map_ext (fun x => render (attrP x)) emit_attr render_attr). by destruct l.
Qed.

Lemma seg_attr a : wf_attr a = true -> seg (attrP a).
Proof.
  unfold wf_attr, attrP. intros [Hk Hv]%andb_prop. destruct (avalue a); [segs|segs|segs|]. rewrite app_nil_r. auto with seg.
Qed.

Lemma closed_attrs l : forallb wf_attr l = true -> closed (attrsP l).
Proof.
  intros H. assert (seg (commas (map attrP l))); [|unfold attrsP; segs].
  by apply seg_commas, Forall_map, (forallb_Forall wf_attr), H; intros; apply seg_attr.
Qed.

Lemma reads_attr b a : reads_item b parse_attr RBracket a (attrP a).
Proof.
  destruct a as [k v]. unfold attrP. cbn [key avalue]. split_and!; [|done|destruct v; ntks; lia]. unfold parse_attr.
  destruct v as [s|n|bytes|]; expand_C; rd; unfold parse_attr_value; rd.
  - apply reads_peek. intros t (post & _ & E). change (kind t = LBracket) in E. rewrite E. rd.
    rewrite <- (app_nil_r (bytesP bytes)). eapply reads_bind; [apply reads_bytes| |done]. rd.
  - unfold peek_kind. apply reads_assoc, reads_peek. intros t (post & Hp & E). apply reads_ret_bind. rewrite E, decide_True by apply Hp. rd.
Qed.

Lemma reads_attrs b l : reads b parse_attrs (attrsP l) l (fun _ => True).
Proof.
  unfold parse_attrs, attrsP. change (C (str "#")) with [Tk [byte_of 35] Hash]. rd.
  apply reads_bracketed_list, Forall2_map_r, Forall_forall. intros a _. apply reads_attr.
Qed.

(** No attributes where no [#] is. *)
Lemma reads_no_attrs b ok : (forall post, ok post -> hd_kind post <> Hash) -> reads b parse_attrs [] [] ok.
Proof. intros H. apply (reads_at_kind _ _ false); [|apply reads_ret]. intros post Hp. by apply bool_decide_eq_false, H. Qed.

(** * Parameters and locals *)

Definition paramP (p : Param) : list piece :=
  [idT (p_name p)] ++ C (str ": ") ++ typeP (p_ty p) ++ match location p with Some l => C (str " @") ++ [idT l] | None => [] end.

Definition wf_param (p : Param) : bool := ident_ok (p_name p) && match location p with Some l => ident_ok l | None => true end.

Lemma render_param p : render (paramP p) = emit_param p.
Proof.
  unfold paramP, emit_param. destruct (location p); rewrite !render_app, render_type, ?render_tk; reflexivity.
Qed.

Lemma seg_param p : wf_param p = true -> seg (paramP p).
Proof. unfold wf_param, paramP. intros [Hn Hl]%andb_prop. destruct (location p); [segs|rewrite app_nil_r; segs]. Qed.

Lemma reads_param b p : reads_item b parse_param RParen p (paramP p).
Proof.
  destruct p as [n t l]. unfold paramP. cbn [p_name p_ty location]. split_and!; [|done|ntks; lia]. unfold parse_param.
  change (C (str ": ")) with [Tk [byte_of 58] Colon; Sp [byte_of 32]]. rd.
  eapply reads_bind; [apply reads_type with (ok := fun _ => True)| |done]. destruct l as [l|]; expand_C; rd.
  apply reads_eat_no; [|rd]. intros post [E|E]; cbn [app]; by rewrite E.
Qed.

Definition localP (l : LocalDecl) : list piece := [idT (l_name l)] ++ C (str ": ") ++ typeP (l_ty l).

Lemma render_local l : render (localP l) = emit_local l.
Proof. unfold localP, emit_local. rewrite !render_app, render_type, render_tk. reflexivity. Qed.

Lemma seg_local l : ident_ok (l_name l) = true -> seg (localP l).
Proof. intros Hn. unfold localP. segs. Qed.

(** The declarations on one line. *)
Definition letP (indent : nat) (l : list LocalDecl) (mark : list byte) : list piece :=
  lineP indent (C (str "let ") ++ commas (map localP l) ++ C mark).

Definition localsP (l : list LocalDecl) (indent : nat) : list piece :=
  concat (map (fun l => letP indent [l] (str ";")) (List.filter is_stack l)) ++
  match List.filter (fun l => negb (is_stack l)) l with [] => [] | regs => letP indent regs (str " @reg;") end.

(** Locals are printed stack slots first. *)
Definition wf_locals (l : list LocalDecl) : Prop :=
  Forall (fun d => ident_ok (l_name d) = true) l /\
  l = List.filter is_stack l ++ List.filter (fun d => negb (is_stack d)) l.

Lemma render_locals l indent : render (localsP l indent) = emit_locals l (spaces indent).
Proof.
  unfold localsP, emit_locals. rewrite render_app, render_concat, emit_all_concat, map_map. f_equal.
  - f_equal. apply map_ext. intros d. unfold letP. rewrite render_line, !render_app. cbn [map commas].
    rewrite render_local. by rewrite <- !(assoc_L (++)).
  - destruct (List.filter _ l) as [|d regs]; [done|]. unfold letP. rewrite render_line, !render_app, render_commas, emit_sep_by, map_map.
    rewrite (map_ext (fun x => render (localP x)) emit_local render_local). by rewrite <- !(assoc_L (++)).
Qed.

Lemma closed_let indent l mark : Forall (fun d => ident_ok (l_name d) = true) l -> closed (C mark) -> opens (C mark) ->
  closed (letP indent l mark).
Proof.
  intros Hl Hc Ho. apply closed_line. apply closed_app; [by apply closed_const|]. apply seg_closed_app; [|done|done].
  apply seg_commas, Forall_map. eapply Forall_impl; [exact Hl|]. intros d. apply seg_local.
Qed.

Lemma closed_locals l indent : wf_locals l -> closed (localsP l indent).
Proof.
  intros [Hl _]. unfold localsP. apply closed_app.
  - apply closed_concat, Forall_map, Forall_filter_list. eapply Forall_impl; [exact Hl|]. intros d Hd.
    apply closed_let; [by constructor|by apply closed_const|opens_tac].
  - pose proof (Forall_filter_list _ (fun d => negb (is_stack d)) _ Hl) as Hr. destruct (List.filter _ l); [apply closed_nil|].
    apply closed_let; [done|by apply closed_const|opens_tac].
Qed.

Lemma reads_let_group b g : forall n, g <> [] -> (length g <= n)%nat ->
  reads b (let_group n) (commas (map localP g)) (map (fun d => (l_name d, l_ty d)) g) (fun post => hd_kind post <> Comma).
Proof.
  induction g as [|d g IH]; intros n Hg Hn; [done|]. destruct n as [|n]; [cbn in Hn; lia|]. cbn [let_group length] in *.
  destruct g as [|d' g].
  - cbn [map commas]. rewrite <- (app_nil_r (localP d)). cbn [localP app]. rd.
    rewrite <- (assoc_L (++)). change (C (str ": ")) with [Tk [byte_of 58] Colon; Sp [byte_of 32]]. rd.
    eapply reads_bind; [apply reads_type with (ok := fun _ => True)| |done]. apply reads_eat_no; [done|]. rd.
  - change (commas (map localP (d :: d' :: g))) with (localP d ++ comma ++ commas (map localP (d' :: g))).
    unfold localP at 1. rewrite <- !(assoc_L (++)). change (C (str ": ")) with [Tk [byte_of 58] Colon; Sp [byte_of 32]]. rd.
    eapply reads_bind; [apply reads_type with (ok := fun _ => True)| |done]. unfold comma. rd.
    rewrite <- (app_nil_r (commas _)). eapply reads_bind; [apply IH; [done|lia]| |done]. rd.
Qed.

(** One [let] of the kind its mark says. *)
Lemma reads_let b indent g (reg : bool) : g <> [] ->
  Forall (fun d => l_kind d = if reg then LRegister else LStack) g ->
  reads b parse_let (letP indent g (if reg then str " @reg;" else str ";")) g (fun _ => True).
Proof.
  intros Hg Hk. unfold parse_let, letP, lineP. change (C (str "let ")) with [Tk (str "let") (Ident (str "let")); Sp [byte_of 32]].
  rd. rewrite <- !(assoc_L (++)).
  eapply reads_bind; [apply reads_fuel; intros n Hn; apply reads_let_group; [done|]| |].
  - assert (length (map localP g) <= ntk (commas (map localP g)))%nat as Hl.
    { apply length_commas, Forall_map, Forall_forall. intros d _. unfold localP. ntks. lia. }
    rewrite length_map in Hl. lia.
  - assert (map (fun '(name, ty) => {| l_name := name; l_ty := ty; l_kind := if reg then LRegister else LStack |})
              (map (fun d => (l_name d, l_ty d)) g) = g) as E.
    { clear -Hk. induction Hk as [|d g Hd _ IH]; [done|]. cbn [map]. rewrite IH. destruct d as [n t k]. cbn in *. by rewrite Hd. }
    destruct reg; expand_C; rd; rewrite E; rd.
  - intros post _. destruct reg; expand_C; discriminate.
Qed.

Lemma let_start indent g mark : exists ps, letP indent g mark = [Sp (spaces indent); Tk (str "let") (Ident (str "let"))] ++ ps.
Proof.
  unfold letP, lineP. change (C (str "let ")) with [Tk (str "let") (Ident (str "let")); Sp [byte_of 32]]. by eexists.
Qed.

Lemma reads_lets b gs pss fuel :
  Forall2 (fun g ps => reads b parse_let ps g (fun _ => True) /\ exists w ps', ps = [Sp w; Tk (str "let") (Ident (str "let"))] ++ ps') gs pss ->
  (length gs < fuel)%nat ->
  reads b (parse_local_decls fuel) (concat pss) (concat gs) (fun post => hd_kind post <> Ident (str "let")).
Proof.
  intros H. revert fuel. induction H as [|g ps gs pss [Hg (w & ps' & ->)] H IH]; intros fuel Hf; (destruct fuel as [|fuel]; [cbn in Hf; lia|]);
    cbn [parse_local_decls concat length] in *.
  - apply (reads_at_keyword _ _ false); [intros post Hp; by apply bool_decide_eq_false|]. rd.
  - apply (reads_at_keyword _ _ true); [done|]. cbv iota.
    eapply reads_bind; [exact Hg| |done]. rewrite <- (app_nil_r (concat pss)). eapply reads_bind; [apply IH; lia| |done]. rd.
Qed.

Lemma reads_locals b l indent : wf_locals l ->
  reads b (with_fuel parse_local_decls) (localsP l indent) l (fun post => hd_kind post <> Ident (str "let")).
Proof.
  intros [_ El]. apply reads_fuel. intros n Hn.
  set (regs := List.filter (fun d => negb (is_stack d)) l).
  set (gs := map (fun d => [d]) (List.filter is_stack l) ++ match regs with [] => [] | _ => [regs] end).
  set (pss := map (fun d => letP indent [d] (str ";")) (List.filter is_stack l) ++ match regs with [] => [] | _ => [letP indent regs (str " @reg;")] end).
  assert (localsP l indent = concat pss) as Ep.
  { unfold localsP, pss, regs. rewrite concat_app. f_equal.
    destruct (List.filter (fun d => negb (is_stack d)) l); [done|]. cbn [concat]. by rewrite app_nil_r. }
  assert (l = concat gs) as Eg.
  { rewrite El at 1. unfold gs. rewrite concat_app. f_equal.
    - clear. induction (List.filter is_stack l) as [|d k IH]; [done|]. cbn. by rewrite <- IH.
    - fold regs. destruct regs; [done|]. cbn [concat]. by rewrite app_nil_r. }
  rewrite Ep in *. rewrite Eg. apply reads_lets.
  - unfold gs, pss. apply Forall2_app.
    + apply Forall2_fmap_2. apply Forall_Forall2_diag, Forall_forall. intros d Hd. apply list_elem_of_In, List.filter_In in Hd as [_ Hd].
      split; [|eexists _; apply let_start]. apply (reads_let b indent [d] false); [done|]. constructor; [|done]. unfold is_stack in Hd. by destruct (l_kind d).
    + destruct regs as [|d k] eqn:Er; constructor; [|done]. split; [|eexists _; apply let_start]. apply (reads_let b indent (d :: k) true); [done|].
      rewrite <- Er. apply Forall_forall. intros d' Hd. apply list_elem_of_In, List.filter_In in Hd as [_ Hd].
      unfold is_stack in Hd. by destruct (l_kind d').
  - assert (length pss = length gs) as <- by (unfold gs, pss; rewrite !length_app, !length_map; by destruct regs).
    eapply Nat.le_lt_trans; [apply length_concat|exact Hn]. unfold pss. apply Forall_app. split.
    + apply Forall_map, Forall_forall. intros d _. destruct (let_start indent [d] (str ";")) as [ps ->]. cbn. lia.
    + destruct regs as [|d k]; constructor; [|done]. destruct (let_start indent (d :: k) (str " @reg;")) as [ps ->]. cbn. lia.
Qed.

(** * Registers and frames *)

Definition registersP (regs : list (list byte)) : list piece := C (str "[") ++ commas (map (fun r => [idT r]) regs) ++ C (str "]").

Lemma reads_registers b regs : reads b parse_register_list (registersP regs) regs (fun _ => True).
Proof. apply reads_bracketed_list, Forall2_map_r, Forall_forall. intros r _. split_and!; [|done|cbn; lia]. apply reads_last. rd. Qed.

Lemma closed_registers regs : forallb ident_ok regs = true -> closed (registersP regs).
Proof.
  intros Hr. assert (seg (commas (map (fun r => [idT r]) regs))); [|unfold registersP; segs].
  apply seg_commas, Forall_map, (forallb_Forall ident_ok); [|done]. intros x Hx. auto with seg.
Qed.
#[export] Hint Resolve closed_registers : seg.

(** The fields of a structured frame, a comma in front of each. *)
Definition fieldsP (fs : list (list piece)) : list piece := concat (map (app comma) fs).

Definition regsF (name : list byte) (regs : list (list byte)) : list (list piece) :=
  match regs with [] => [] | _ => [[idT name] ++ C (str ": ") ++ registersP regs] end.
Definition numF (name : list byte) (n : Z) : list (list piece) :=
  if 0 <? n then [[idT name] ++ C (str ": ") ++ [hexT n]] else [].
Definition flagF (f : bool) (text : list byte) : list (list piece) := if f then [C text] else [].

Definition prologueF (p : PrologueParams) : list (list piece) :=
  regsF (str "saves") (pp_saves p) ++
  flagF (pp_frame p) (if pp_frame_alt p then str "frame=alt" else str "frame") ++
  numF (str "sub") (pp_sub_esp p) ++
  regsF (str "saves_after") (pp_saves_after p) ++
  flagF (pp_cf_protect p) (str "cf").

Definition epilogueF (e : EpilogueParams) : list (list piece) :=
  regsF (str "saves") (ep_saves e) ++
  numF (str "add") (ep_add_esp e) ++
  (if ep_leave e then flagF true (str "leave") else flagF (ep_pop_frame e) (str "pop_frame")) ++
  numF (str "ret_imm") (ep_ret_imm e).

(** What the printed form keeps. *)
Definition wf_prologue (p : PrologueParams) : bool :=
  forallb ident_ok (pp_saves p) && forallb ident_ok (pp_saves_after p) &&
  (0 <=? pp_sub_esp p) && (pp_sub_esp p <? 2 ^ 32) && (pp_frame p || negb (pp_frame_alt p)).
Definition wf_epilogue (e : EpilogueParams) : bool :=
  forallb ident_ok (ep_saves e) && (0 <=? ep_add_esp e) && (ep_add_esp e <? 2 ^ 32) &&
  (0 <=? ep_ret_imm e) && (ep_ret_imm e <? 2 ^ 16) && negb (ep_leave e && ep_pop_frame e).

Lemma fieldsP_app fs gs : fieldsP (fs ++ gs) = fieldsP fs ++ fieldsP gs.
Proof. unfold fieldsP. by rewrite map_app, concat_app. Qed.

Lemma fieldsP_cons f fs : fieldsP (f :: fs) = comma ++ commas (f :: fs).
Proof.
  revert f. induction fs as [|g fs IH]; intros f; unfold fieldsP; cbn [map concat]; [by rewrite app_nil_r|].
  change (commas (f :: g :: fs)) with (f ++ comma ++ commas (g :: fs)). rewrite <- IH. by rewrite <- (assoc_L (++)).
Qed.

Lemma fieldsP_one f : fieldsP [f] = comma ++ f.
Proof. apply app_nil_r. Qed.

Lemma render_regsF name regs : render (fieldsP (regsF name regs)) = emit_regs name regs.
Proof.
  unfold regsF, emit_regs. destruct regs as [|r regs]; [done|]. rewrite fieldsP_one. unfold registersP.
  rewrite !render_app, render_commas, map_map, render_tk.
  rewrite (map_ext (fun x => render [idT x]) id (fun x => render_tk x (Ident x))), map_id. reflexivity.
Qed.

Lemma render_numF name n : render (fieldsP (numF name n)) = if 0 <? n then str ", " ++ name ++ str ": " ++ hex_lit n else [].
Proof. unfold numF. destruct (0 <? n); [|done]. rewrite fieldsP_one, !render_app, !render_tk. reflexivity. Qed.

Lemma render_prologueF p : render (fieldsP (prologueF p)) = emit_prologue_params p.
Proof.
  unfold prologueF, emit_prologue_params. rewrite !fieldsP_app, !render_app, !render_regsF, render_numF.
  f_equal. f_equal; [by destruct (pp_frame p), (pp_frame_alt p)|]. f_equal. f_equal. by destruct (pp_cf_protect p).
Qed.

Lemma render_epilogueF e : render (fieldsP (epilogueF e)) = emit_epilogue_params e.
Proof.
  unfold epilogueF, emit_epilogue_params. rewrite !fieldsP_app, !render_app, !render_regsF, !render_numF.
  f_equal. f_equal. f_equal. by destruct (ep_leave e), (ep_pop_frame e).
Qed.

Lemma seg_fields fs : Forall seg fs -> seg (fieldsP fs).
Proof.
  destruct fs as [|f fs]; [intros _; apply closed_seg, closed_nil|]. intros H. rewrite fieldsP_cons.
  apply closed_seg_app; [by apply closed_const|by apply seg_commas].
Qed.

Lemma seg_regsF name regs : ident_ok name = true -> forallb ident_ok regs = true -> Forall seg (regsF name regs).
Proof. intros Hn Hr. unfold regsF. destruct regs as [|r regs]; constructor; [|done]. segs. Qed.

Lemma seg_numF name n : ident_ok name = true -> u64_ok n = true -> Forall seg (numF name n).
Proof. intros Hn Hr. unfold numF. case_match; constructor; [|done]. segs. Qed.

Lemma seg_flagF f text : const_ok true (C text) = true -> Forall seg (flagF f text).
Proof. intros H. unfold flagF. case_match; constructor; [|done]. by apply seg_const. Qed.

Lemma seg_prologueF p : wf_prologue p = true -> Forall seg (prologueF p).
Proof.
  unfold wf_prologue, prologueF. rewrite !andb_true_iff. intros ((((Hs & Ha) & H0) & H1) & _).
  repeat apply Forall_app_2; [by apply seg_regsF| |apply seg_numF; [done|unfold u64_ok; lia]|by apply seg_regsF|by apply seg_flagF].
  by apply seg_flagF; destruct (pp_frame_alt p).
Qed.

Lemma seg_epilogueF e : wf_epilogue e = true -> Forall seg (epilogueF e).
Proof.
  unfold wf_epilogue, epilogueF. rewrite !andb_true_iff. intros (((((Hs & H0) & H1) & H2) & H3) & _).
  repeat apply Forall_app_2; [by apply seg_regsF|apply seg_numF; [done|unfold u64_ok; lia]| |apply seg_numF; [done|unfold u64_ok; lia]].
  by destruct (ep_leave e); apply seg_flagF.
Qed.

(** A loop over fields, each a change of the record. *)
Lemma reads_params_loop {A} b (field : A -> P A) (gs : list (A -> A)) fs fuel p :
  Forall2 (fun g ps => (forall p, reads b (field p) ps (g p) (item_end RParen)) /\ (forall post, hd_kind (ps ++ post) <> RParen)) gs fs ->
  (length gs < fuel)%nat ->
  reads b (params_loop field p fuel) (commas fs) (foldl (fun p g => g p) p gs) (fun post => hd_kind post = RParen).
Proof.
  intros H. revert p fuel. induction H as [|g ps gs fs (Hg & Hk) H IH]; intros p fuel Hf; (destruct fuel as [|fuel]; [cbn in Hf; lia|]);
    cbn [params_loop foldl length] in *.
  - apply (reads_at_kind _ _ true); [intros post Hp; by apply bool_decide_eq_true|]. cbn [commas]. rd.
  - apply (reads_at_kind _ _ false).
    { intros post _. apply bool_decide_eq_false. destruct fs; cbn [commas]; rewrite <- ?(assoc_L (++)); apply Hk. }
    cbv iota. destruct fs as [|qs fs].
    + inversion H; subst. cbn [commas]. rewrite <- (app_nil_r ps). eapply reads_bind; [apply Hg| |by right]. cbv beta.
      apply reads_eat_no; [intros post Hp E; cbn [app] in E; congruence|]. apply (IH (g p) fuel). cbn in *. lia.
    + change (commas (ps :: qs :: fs)) with (ps ++ comma ++ commas (qs :: fs)). eapply reads_bind; [apply Hg| |by left].
      cbv beta. unfold comma. cbn [app]. apply reads_eat_yes, reads_sp. apply IH. lia.
Qed.

(** The changes the fields of a frame make. *)
Definition with_saves r p := {| pp_saves := r; pp_saves_after := pp_saves_after p; pp_frame := pp_frame p;
  pp_sub_esp := pp_sub_esp p; pp_cf_protect := pp_cf_protect p; pp_frame_alt := pp_frame_alt p |}.
Definition with_saves_after r p := {| pp_saves := pp_saves p; pp_saves_after := r; pp_frame := pp_frame p;
  pp_sub_esp := pp_sub_esp p; pp_cf_protect := pp_cf_protect p; pp_frame_alt := pp_frame_alt p |}.
Definition with_frame (alt : bool) p := {| pp_saves := pp_saves p; pp_saves_after := pp_saves_after p; pp_frame := true;
  pp_sub_esp := pp_sub_esp p; pp_cf_protect := pp_cf_protect p; pp_frame_alt := if alt then true else pp_frame_alt p |}.
Definition with_sub n p := {| pp_saves := pp_saves p; pp_saves_after := pp_saves_after p; pp_frame := pp_frame p;
  pp_sub_esp := wrap 32 n; pp_cf_protect := pp_cf_protect p; pp_frame_alt := pp_frame_alt p |}.
Definition with_cf p := {| pp_saves := pp_saves p; pp_saves_after := pp_saves_after p; pp_frame := pp_frame p;
  pp_sub_esp := pp_sub_esp p; pp_cf_protect := true; pp_frame_alt := pp_frame_alt p |}.

Definition with_esaves r e := {| ep_saves := r; ep_leave := ep_leave e; ep_pop_frame := ep_pop_frame e; ep_add_esp := ep_add_esp e;
  ep_ret_imm := ep_ret_imm e |}.
Definition with_leave e := {| ep_saves := ep_saves e; ep_leave := true; ep_pop_frame := ep_pop_frame e; ep_add_esp := ep_add_esp e;
  ep_ret_imm := ep_ret_imm e |}.
Definition with_pop e := {| ep_saves := ep_saves e; ep_leave := ep_leave e; ep_pop_frame := true; ep_add_esp := ep_add_esp e;
  ep_ret_imm := ep_ret_imm e |}.
Definition with_add n e := {| ep_saves := ep_saves e; ep_leave := ep_leave e; ep_pop_frame := ep_pop_frame e; ep_add_esp := wrap 32 n;
  ep_ret_imm := ep_ret_imm e |}.
Definition with_ret n e := {| ep_saves := ep_saves e; ep_leave := ep_leave e; ep_pop_frame := ep_pop_frame e; ep_add_esp := ep_add_esp e;
  ep_ret_imm := wrap 16 n |}.

Definition regsG {A} (g : A -> A) (regs : list (list byte)) : list (A -> A) := match regs with [] => [] | _ => [g] end.
Definition opt_g {A} (c : bool) (g : A -> A) : list (A -> A) := if c then [g] else [].

Definition prologueG (p : PrologueParams) : list (PrologueParams -> PrologueParams) :=
  regsG (with_saves (pp_saves p)) (pp_saves p) ++ opt_g (pp_frame p) (with_frame (pp_frame_alt p)) ++
  opt_g (0 <? pp_sub_esp p) (with_sub (pp_sub_esp p)) ++
  regsG (with_saves_after (pp_saves_after p)) (pp_saves_after p) ++ opt_g (pp_cf_protect p) with_cf.

Definition epilogueG (e : EpilogueParams) : list (EpilogueParams -> EpilogueParams) :=
  regsG (with_esaves (ep_saves e)) (ep_saves e) ++ opt_g (0 <? ep_add_esp e) (with_add (ep_add_esp e)) ++
  (if ep_leave e then [with_leave] else opt_g (ep_pop_frame e) with_pop) ++
  opt_g (0 <? ep_ret_imm e) (with_ret (ep_ret_imm e)).

Lemma prologueG_ok p : wf_prologue p = true -> foldl (fun p g => g p) default_prologue_params (prologueG p) = p.
Proof.
  unfold wf_prologue. rewrite !andb_true_iff. intros ((((_ & _) & H0) & H1) & Hf).
  assert (wrap 32 (pp_sub_esp p) = pp_sub_esp p) as Ew by (apply wrap_small; unfold in_range; lia).
  destruct p as [s a f n c al]. unfold prologueG, regsG, opt_g. cbn [pp_saves pp_saves_after pp_frame pp_sub_esp pp_cf_protect pp_frame_alt] in *.
  assert (n = 0 \/ (0 <? n) = true) as [-> | ->] by lia; destruct s, f, a, c, al; try done;
    cbn -[wrap]; unfold with_frame, with_saves, with_saves_after, with_sub, with_cf; cbn -[wrap]; by rewrite ?Ew.
Qed.

Lemma epilogueG_ok e : wf_epilogue e = true -> foldl (fun p g => g p) default_epilogue_params (epilogueG e) = e.
Proof.
  unfold wf_epilogue. rewrite !andb_true_iff. intros (((((_ & H0) & H1) & H2) & H3) & Hf).
  assert (wrap 32 (ep_add_esp e) = ep_add_esp e) as Ew by (apply wrap_small; unfold in_range; lia).
  assert (wrap 16 (ep_ret_imm e) = ep_ret_imm e) as Ew' by (apply wrap_small; unfold in_range; lia).
  destruct e as [s l f n r]. unfold epilogueG, regsG, opt_g. cbn [ep_saves ep_leave ep_pop_frame ep_add_esp ep_ret_imm] in *.
  assert (n = 0 \/ (0 <? n) = true) as [-> | ->] by lia; assert (r = 0 \/ (0 <? r) = true) as [-> | ->] by lia; destruct s, l, f; try done;
    cbn -[wrap]; unfold with_esaves, with_leave, with_pop, with_add, with_ret; cbn -[wrap]; by rewrite ?Ew, ?Ew'.
Qed.

(** The pieces of a field make its change. *)
Definition field_ok {A} b (field : A -> P A) (g : A -> A) (ps : list piece) : Prop :=
  (forall p, reads b (field p) ps (g p) (item_end RParen)) /\ (forall post, hd_kind (ps ++ post) <> RParen).

(** A parameter that is spelled out: the name, a colon, a value. *)
Lemma regs_field {A} b (field : A -> P A) g name regs :
  (forall p, reads b (field p) ([idT name] ++ C (str ": ") ++ registersP regs) (g p) (item_end RParen)) ->
  Forall2 (field_ok b field) (regsG g regs) (regsF name regs).
Proof. intros H. unfold regsG, regsF. destruct regs; constructor; [|done]. by split. Qed.

Lemma num_field {A} b (field : A -> P A) g name n :
  (forall p, reads b (field p) ([idT name] ++ C (str ": ") ++ [hexT n]) (g p) (item_end RParen)) ->
  Forall2 (field_ok b field) (opt_g (0 <? n) g) (numF name n).
Proof. intros H. unfold opt_g, numF. case_match; constructor; [|done]. by split. Qed.

Lemma flag_field {A} b (field : A -> P A) g f text :
  (forall p, reads b (field p) (C text) (g p) (item_end RParen)) -> (forall post, hd_kind (C text ++ post) <> RParen) ->
  Forall2 (field_ok b field) (opt_g f g) (flagF f text).
Proof. intros H Hk. unfold opt_g, flagF. destruct f; constructor; [|done]. by split. Qed.

Lemma reads_regs {A} b (f : list (list byte) -> P A) regs a ok : reads b (f regs) [] a ok ->
  reads b (r ← parse_register_list; f r) (registersP regs) a ok.
Proof. intros H. rewrite <- (app_nil_r (registersP regs)). eapply reads_bind; [apply reads_registers|exact H|done]. Qed.

Lemma not_eq_end post : item_end RParen post -> hd_kind ([] ++ post) <> Eq.
Proof. intros [E|E]; cbn [app]; by rewrite E. Qed.

Ltac kind_ne := intros; expand_C; discriminate.
Ltac field_tac := intros; expand_C; rd; try (apply reads_regs); rd.

Lemma prologue_fields b p : Forall2 (field_ok b parse_prologue_field) (prologueG p) (prologueF p).
Proof.
  unfold prologueG, prologueF. repeat apply Forall2_app.
  - apply regs_field. unfold parse_prologue_field. field_tac.
  - apply flag_field; destruct (pp_frame_alt p); [| |kind_ne|kind_ne]; unfold parse_prologue_field; field_tac.
    apply reads_eat_no; [apply not_eq_end|]. rd.
  - apply num_field. unfold parse_prologue_field. field_tac.
  - apply regs_field. unfold parse_prologue_field. field_tac.
  - apply flag_field; [|kind_ne]. unfold parse_prologue_field. field_tac.
Qed.

Lemma epilogue_fields b e : Forall2 (field_ok b parse_epilogue_field) (epilogueG e) (epilogueF e).
Proof.
  unfold epilogueG, epilogueF. repeat apply Forall2_app.
  - apply regs_field. unfold parse_epilogue_field. field_tac.
  - apply num_field. unfold parse_epilogue_field. field_tac.
  - destruct (ep_leave e); [apply (flag_field b _ with_leave true)|apply flag_field]; [|kind_ne| |kind_ne];
      unfold parse_epilogue_field; field_tac.
  - apply num_field. unfold parse_epilogue_field. field_tac.
Qed.

(** What stands between the parentheses of a frame directive with fields. *)
Lemma reads_frame {A} b (dflt x : A) (field : A -> P A) gs fs enc (mk : list byte -> option A -> list byte -> Stmt) k bytes :
  Forall2 (field_ok b field) gs fs -> foldl (fun p g => g p) dflt gs = x -> enc x b = Ok bytes ->
  (forall f, f ∈ fs -> forall post, hd_kind (f ++ post) <> LBracket) -> Forall (fun f => 0 < ntk f)%nat fs ->
  reads b (parse_frame_directive dflt (with_fuel (params_loop field dflt)) enc mk)
    (C (str "(") ++ [strT k] ++ fieldsP fs ++ C (str ")")) (mk k (Some x) bytes) (fun _ => True).
Proof.
  intros H Ex Eb Hb Hn. unfold parse_frame_directive. change (C (str "(")) with [Tk [byte_of 40] LParen]. rd.
  destruct fs as [|f fs].
  - inversion H; subst. cbn [fieldsP map concat foldl] in *. expand_C. rd. apply reads_get. intros pre post _. cbv match.
    apply (reads_lift (A:=Stmt) _ _ bytes); [exact Eb|]. rd.
  - rewrite fieldsP_cons. unfold comma. cbn [app]. apply reads_eat_no; [done|]. apply reads_get. intros pre post _. rd.
    apply (reads_at_kind _ _ false).
    { intros post' _. apply bool_decide_eq_false. rewrite <- (assoc_L (++)). assert (f ∈ f :: fs) as Hf by left.
      destruct fs; cbn [commas]; rewrite <- ?(assoc_L (++)); by apply (Hb f Hf). }
    cbv match. eapply reads_bind; [apply reads_fuel; intros n Hf; apply (reads_params_loop b field gs); [exact H|]| |done].
    + rewrite (Forall2_length _ _ _ H). pose proof (length_commas (f :: fs) Hn). lia.
    + rewrite Ex. expand_C. rd. apply (reads_lift (A:=Stmt) _ _ bytes); [exact Eb|]. rd.
Qed.
