(* ===== verification/RoundText.v ===== *)
(** Source text the tree carries verbatim (conditions, operands, values): its
    division, that the division survives inside a larger text, and the slices
    the parser cuts it out with. *)

From S2P Require Import Prelude Text Lexer LexerSpec Ast Emit Parser Pieces Literals Reads RoundBasic.

(** * Lexemes in a larger text *)

(** The bytes the emitter writes behind a verbatim text. *)
Definition ender (b : byte) : bool :=
  (u8 b =? 10) || (u8 b =? 32) || (u8 b =? 40) || (u8 b =? 41) || (u8 b =? 44) || (u8 b =? 59).
Definition ends (rest : list byte) : Prop := exists b t, rest = b :: t /\ ender b = true.

Lemma ends_stops p rest : (forall b, ender b = true -> p [b] = false) -> ends rest -> stops p rest.
Proof.
  intros Hp (b & t & -> & Hb). unfold stops. rewrite next_char_ascii by (unfold ender in Hb; lia). auto.
Qed.

Lemma ender_cases b : ender b = true -> b = byte_of 10 \/ b = byte_of 32 \/ b = byte_of 40 \/ b = byte_of 41 \/ b = byte_of 44 \/ b = byte_of 59.
Proof.
  unfold ender. intros H. assert (u8 b = 10 \/ u8 b = 32 \/ u8 b = 40 \/ u8 b = 41 \/ u8 b = 44 \/ u8 b = 59) as [E|[E|[E|[E|[E|E]]]]] by lia;
    rewrite <- (byte_of_u8 b), E; tauto.
Qed.

Ltac ender_tac := let b := fresh in let H := fresh in intros b H; destruct (ender_cases b H) as [-> |[-> |[-> |[-> |[-> | ->]]]]]; reflexivity.

Lemma ends_sep rest : ends rest -> sep rest.
Proof. apply ends_stops. ender_tac. Qed.

Lemma stops_app p r rest : utf8 r -> stops p r -> (r = [] -> stops p rest) -> stops p (r ++ rest).
Proof.
  intros Hu Hr Hn. apply utf8_inv in Hu as [->|(ch & t & -> & Hc & _)]; [by apply Hn|].
  unfold stops in *. rewrite <- (assoc_L (++)). rewrite next_char_valid in Hr |- * by done. done.
Qed.

Definition is_comment (k : TokenKind) : bool := match k with Comment _ => true | _ => false end.

Lemma lexeme_more w k r rest : lexeme w k r -> utf8 r -> is_comment k = false -> ends rest -> lexeme w k (r ++ rest).
Proof.
  intros H Hu Hk He. assert (sep rest) as Hs by by apply ends_sep.
  destruct H as [b k r Hp|r|w r _ _|r H|r H H'|w v r Hw|p k r [Hf Hx Hd Hds Hst] Hn|b w r Hb Hw H]; try done.
  - by apply L_punct.
  - constructor.
  - apply L_slash, stops_app; [done|done|]. intros _. apply ends_stops; [ender_tac|done].
  - apply L_minus; (apply stops_app; [done|done|]; intros _; apply ends_stops; [ender_tac|done]).
  - by apply L_string.
  - apply L_number; [|done]. split; [done|done| |done|].
    + intros Hh Hz. rewrite (assoc_L (++)). apply stops_app; [|by apply Hd|].
      * apply Chars_app; [by eapply Chars_utf8|done].
      * intros _. apply (sep_mono _ _ is_x_continue Hs).
    + apply stops_app; [done|done|]. intros _. apply sep_digits; [|done]. unfold np_radix. by case_match.
  - apply L_ident; [done|done|]. apply stops_app; [done|done|]. by intros _.
Qed.

Lemma divides_tail_utf8 ps rest : divides ps rest -> utf8 (render ps).
Proof. intros H. by eapply utf8_render, divides_utf8. Qed.

(** The kinds without the end. *)
Fixpoint tkinds (ps : list piece) : list TokenKind :=
  match ps with [] => [] | Sp _ :: ps => tkinds ps | Tk _ k :: ps => k :: tkinds ps end.

Lemma kinds_tkinds ps : kinds ps = tkinds ps ++ [Eof].
Proof. induction ps as [|[w|w k] ps IH]; cbn; by rewrite ?IH. Qed.

Lemma tkinds_app ps qs : tkinds (ps ++ qs) = tkinds ps ++ tkinds qs.
Proof. induction ps as [|[w|w k] ps IH]; cbn; by rewrite ?IH. Qed.

Lemma length_tkinds ps : length (tkinds ps) = ntk ps.
Proof. induction ps as [|[w|w k] ps IH]; cbn; by rewrite ?IH. Qed.

(** Divided in front of whatever the emitter puts behind. *)
Definition ended (ps : list piece) : Prop := forall rest, ends rest -> divides ps rest.

Lemma divides_ended ps : divides ps [] -> existsb is_comment (tkinds ps) = false -> ended ps.
Proof.
  intros H Hc rest He. induction ps as [|[w|w k] ps IH]; [done| |]; cbn [divides tkinds existsb] in *.
  - destruct H as [Hw H]. auto.
  - apply orb_false_iff in Hc as [Hk Hc]. destruct H as [Hl H]. split; [|by apply IH]. rewrite app_nil_r in Hl.
    apply lexeme_more; [done| |done|done]. by eapply divides_tail_utf8.
Qed.

Lemma ended_closed_app ps qs : ended ps -> (forall rest, ends (render qs ++ rest)) -> closed qs -> closed (ps ++ qs).
Proof. intros H He H' rest. apply divides_app. split; [by apply H|apply H']. Qed.

(** * Verbatim text *)

(** First and last byte are visible. *)
Definition tidy (s : list byte) : bool :=
  match head s, last s with Some a, Some b => graphic a && graphic b | _, _ => false end.

Definition text_kinds (s : list byte) : list TokenKind :=
  match tokenize s with Ok toks => take (length toks - 1) (map kind toks) | _ => [] end.

Definition text_ok (s : list byte) : bool :=
  utf8_valid s && tidy s && lexes s && negb (existsb is_comment (text_kinds s)).

Lemma text_kinds_pieces ps : divides ps [] -> text_kinds (render ps) = tkinds ps.
Proof.
  intros H. unfold text_kinds. rewrite tokenize_complete; [|by eapply divides_tail_utf8|done].
  rewrite length_place, map_kind_place, kinds_tkinds, Nat.sub_1_r. cbn [pred].
  rewrite <- length_tkinds. apply take_app_length.
Qed.

Lemma blank_not_graphic ws b : Chars is_whitespace ws -> head ws = Some b -> graphic b = false.
Proof.
  intros H Hb. destruct (graphic b) eqn:E; [|done]. exfalso. destruct H as [|ch s Hc Hw _]; [done|].
  destruct ch as [|c t]; [done|]. cbn in Hb. simplify_eq.
  pose proof (graphic_char b E) as [Ha Hn]. rewrite (valid_char_ascii (b :: t) b Hc eq_refl Ha) in Hw. congruence.
Qed.

Lemma blank_last ws b : Chars is_whitespace ws -> last ws = Some b -> graphic b = false.
Proof.
  induction 1 as [|ch s Hc Hw Hs IH]; [done|]. destruct s as [|c s].
  - rewrite app_nil_r. destruct ch as [|c t]; [done|]. destruct (last t) as [d|] eqn:E.
    + destruct Hc as (_ & _ & Ht). rewrite last_cons, E. intros [= <-]. apply last_Some in E as [t' ->].
      apply Forall_app in Ht as [_ Ht]. inversion Ht as [|? ? Hd _]; subst. unfold is_cont in Hd. unfold graphic. lia.
    + apply last_None in E as ->. intros [= <-]. by apply (blank_not_graphic [c] c); [apply (Chars_cons _ [c] []); [done|done|constructor]|].
  - rewrite last_app. destruct (last (c :: s)) as [d|] eqn:E; [auto|]. by apply last_None in E.
Qed.

Lemma render_sp w : render [Sp w] = w.
Proof. apply app_nil_r. Qed.

(** Pieces of a tidy text end in a token. *)
Lemma last_piece ps : forall b, divides ps [] -> last (render ps) = Some b -> graphic b = true ->
  exists ps' w k, render (ps' ++ [Tk w k]) = render ps /\ divides (ps' ++ [Tk w k]) [] /\ tkinds (ps' ++ [Tk w k]) = tkinds ps /\
    (forall w0 k0 qs, ps = Tk w0 k0 :: qs -> exists qs', ps' ++ [Tk w k] = Tk w0 k0 :: qs').
Proof.
  induction ps as [|[w|w k] ps IH] using rev_ind; intros b Hd Hl Hg; [done| |].
  - apply divides_app in Hd as [Hd [Hw _]]. rewrite ?app_nil_r in Hd. rewrite render_app, render_sp in Hl.
    destruct (last w) as [c|] eqn:E.
    { rewrite last_app, E in Hl. simplify_eq. rewrite (blank_last w b Hw E) in Hg. done. }
    apply last_None in E as ->. rewrite app_nil_r in Hl. destruct (IH b Hd Hl Hg) as (ps' & w & k & E1 & E2 & E3 & E4).
    exists ps', w, k. rewrite (render_app ps [Sp []]), (tkinds_app ps [Sp []]), render_sp. change (tkinds [Sp []]) with ([] : list TokenKind). rewrite !app_nil_r.
    split_and!; [done..|]. intros w0 k0 qs E. destruct ps as [|p ps]; [done|]. cbn in E. simplify_eq. by eapply E4.
  - exists ps, w, k. split_and!; [done..|]. intros w0 k0 qs ->. by exists qs.
Qed.

Lemma text_pieces s : text_ok s = true -> exists ps, render ps = s /\ ended ps /\ tkinds ps = text_kinds s /\ texts ps /\
  (exists w k qs, ps = Tk w k :: qs) /\ (exists qs w k, ps = qs ++ [Tk w k]).
Proof.
  unfold text_ok. intros [[[Hu Ht]%andb_prop Hl]%andb_prop Hc]%andb_prop. apply utf8_of_valid in Hu.
  pose proof (tokenize_wp s Hu) as H. unfold lexes in Hl. destruct (tokenize s) as [toks| |] eqn:E; [|done|done].
  cbn in H. destruct H as (ps & Er & Hd & _). unfold tidy in Ht. destruct (head s) as [a|] eqn:Eh; [|done].
  destruct (last s) as [z|] eqn:El; [|done]. apply andb_prop in Ht as [Ha Hz].
  destruct (divides_split ps [] Hd) as (ws & Hws & Hps).
  assert (ws = []) as ->.
  { destruct ws as [|c ws]; [done|]. exfalso. assert (a = c) as ->; [|by rewrite (blank_not_graphic (c :: ws) c Hws eq_refl) in Ha].
    destruct Hps as [[E' _]|(w & k & ps' & E' & _)]; rewrite <- Er, E' in Eh; cbn in Eh; by simplify_eq. }
  destruct Hps as [[E' _]|(w & k & ps' & E' & Hk & Hd' & _ & _)]; [by rewrite <- Er, E' in Eh|].
  assert (divides (Tk w k :: ps') []) as Hd2 by done. assert (render (Tk w k :: ps') = s) as Es by (by rewrite <- Er, E').
  destruct (last_piece (Tk w k :: ps') z Hd2 ltac:(by rewrite Es) Hz) as (qs & w' & k' & E1 & E2 & E3 & E4).
  destruct (E4 w k ps' eq_refl) as [qs' Eq']. exists (qs ++ [Tk w' k']). rewrite E1, E3, <- Es.
  rewrite <- Es, text_kinds_pieces in Hc by done. apply negb_true_iff in Hc. split_and!.
  - done.
  - apply divides_ended; [done|by rewrite E3].
  - by rewrite text_kinds_pieces.
  - by eapply divides_utf8.
  - by exists w, k, qs'.
  - by exists qs, w', k'.
Qed.

(** * Trimmed slices *)

Lemma trim_start_blank w s : forallb is_blank w = true -> trim_start (w ++ s) = trim_start s.
Proof.
  induction w as [|b w IH]; [done|]. intros [Hb Hw]%andb_prop. rewrite <- (IH Hw). cbn [app].
  unfold trim_start at 1. cbn [length trim_start_n].
  assert (ws_len (b :: w ++ s) = 1%nat) as ->.
  { unfold ws_len. cbn [map]. unfold is_blank in Hb. by replace (((9 <=? u8 b) && (u8 b <=? 13)) || (u8 b =? 32)) with true by lia. }
  done.
Qed.

Lemma trim_end_blank w s b : forallb is_blank w = true -> graphic b = true -> trim_end ((s ++ [b]) ++ w) = s ++ [b].
Proof.
  intros Hw Hb. assert (trim_end w = []) as Ew.
  { destruct w as [|c w]; [done|]. cbn [trim_end]. pose proof (trim_start_blank (c :: w) [] Hw) as E. rewrite app_nil_r in E.
    by rewrite E. }
  induction s as [|c s IH]; cbn [app trim_end].
  - by rewrite trim_start_graphic, Ew.
  - destruct (trim_start (c :: (s ++ [b]) ++ w)) eqn:E; [|by rewrite IH].
    exfalso. eapply (trim_start_keeps b); [done| |exact E]. right. apply elem_of_app. left. apply elem_of_app. right. by left.
Qed.

(** Blanks around a tidy text are trimmed. *)
Lemma trim_tidy w s w' : forallb is_blank w = true -> forallb is_blank w' = true -> tidy s = true -> trim (w ++ s ++ w') = s.
Proof.
  intros Hw Hw' Ht. unfold trim. rewrite trim_start_blank by done. unfold tidy in Ht. destruct s as [|a s]; [done|]. cbn [head] in Ht.
  destruct (last (a :: s)) as [b|] eqn:El; [|done]. apply andb_prop in Ht as [Ha Hb].
  cbn [app]. rewrite trim_start_graphic by done. apply last_Some in El as [s' El].
  change (a :: s ++ w') with ((a :: s) ++ w'). rewrite El. by apply trim_end_blank.
Qed.

Lemma text_tidy s : text_ok s = true -> tidy s = true.
Proof. unfold text_ok. rewrite !andb_true_iff. tauto. Qed.

Lemma trim_text s : text_ok s = true -> trim s = s.
Proof. intros H. rewrite <- (trim_tidy [] s []) at 2; [|done|done|by apply text_tidy]. cbn [app]. by rewrite app_nil_r. Qed.

(** The slice of a text that some pieces are. *)
Lemma snip_pieces W b pre ps post p : W = pre ++ ps ++ post -> texts W ->
  snip (length (render pre)) (length (render (pre ++ ps))) (st W b p) = Ok (render ps, st W b p).
Proof.
  intros -> Ht. unfold snip, get_parser, mbind, P_bind, lift. cbn [src st].
  unfold texts in Ht. rewrite !Forall_app in Ht. destruct Ht as (_ & Hps & Hpost).
  rewrite (render_app pre (ps ++ post)), (render_app ps post), (render_app pre ps), length_app.
  rewrite (str_slice_ok _ (render pre) (render ps) (render post)); [done|done| |by apply utf8_render].
  apply Chars_app; by apply utf8_render.
Qed.

Lemma snip_trim_pieces W b pre ps post p : W = pre ++ ps ++ post -> texts W ->
  snip_trim (length (render pre)) (length (render (pre ++ ps))) (st W b p) = Ok (trim (render ps), st W b p).
Proof. intros E Ht. unfold snip_trim, mbind, P_bind. by rewrite (snip_pieces W b pre ps post p). Qed.

Lemma tstart_tok_at pre w k ps : tstart (tok_at pre (Tk w k :: ps)) = length (render pre).
Proof. done. Qed.
Lemma tend_tok_at pre w k ps : tend (tok_at pre (Tk w k :: ps)) = length (render (pre ++ [Tk w k])).
Proof. rewrite render_app, length_app. cbn. by rewrite app_nil_r. Qed.

(** * Text between parentheses *)

(** The parser's bracket count stays inside and ends at zero. *)
Fixpoint paren_safe (d : Z) (ks : list TokenKind) : bool :=
  match ks with
  | [] => d =? 0
  | (LParen | LBracket) :: ks => paren_safe (d + 1) ks
  | RParen :: ks => (0 <? d) && paren_safe (d - 1) ks
  | RBracket :: ks => paren_safe (if 0 <? d then d - 1 else d) ks
  | Eof :: _ => false
  | _ :: ks => paren_safe d ks
  end.

Lemma bind_ok {A B} (m : P A) (f : A -> P B) s a s' : m s = Ok (a, s') -> (m ≫= f) s = f a s'.
Proof. intros E. unfold mbind, P_bind. by rewrite E. Qed.

Lemma sp_state W b pre w : st W b (pre ++ [Sp w]) = st W b pre.
Proof. unfold st. by rewrite ntk_app, Nat.add_0_r. Qed.

Lemma paren_loop_pieces b ps w post : forall d n pre, paren_safe d (tkinds ps) = true -> (ntk ps < n)%nat ->
  paren_loop d n (st (pre ++ ps ++ Tk w RParen :: post) b pre) =
  Ok (tok_at (pre ++ ps) (Tk w RParen :: post), st (pre ++ ps ++ Tk w RParen :: post) b (pre ++ ps)).
Proof.
  induction ps as [|[v|v k] ps IH]; intros d n pre Hs Hn; (destruct n as [|n]; [lia|]).
  - cbn [tkinds paren_safe app paren_loop] in *. rewrite app_nil_r. erewrite bind_ok by apply peek_st.
    rewrite kind_tok_at. cbn [hd_kind kinds]. by replace (0 <? d) with false by lia.
  - cbn [tkinds ntk app] in *. specialize (IH d (S n) (pre ++ [Sp v]) Hs ltac:(lia)). rewrite <- !(assoc_L (++)) in IH. cbn [app] in IH.
    by rewrite sp_state in IH.
  - cbn [tkinds ntk app paren_loop] in *. erewrite bind_ok by apply peek_st. rewrite kind_tok_at. cbn [hd_kind kinds].
    assert (forall d', paren_safe d' (tkinds ps) = true ->
      (bump ≫= fun _ => paren_loop d' n) (st (pre ++ Tk v k :: ps ++ Tk w RParen :: post) b pre) =
      Ok (tok_at (pre ++ Tk v k :: ps) (Tk w RParen :: post), st (pre ++ Tk v k :: ps ++ Tk w RParen :: post) b (pre ++ Tk v k :: ps))) as Hb.
    { intros d' Hd'. erewrite bind_ok by apply bump_st. specialize (IH d' n (pre ++ [Tk v k]) Hd' ltac:(lia)).
      rewrite <- !(assoc_L (++)) in IH. exact IH. }
    destruct k; cbn [paren_safe] in Hs; try (by apply Hb); try done.
    + apply andb_prop in Hs as [-> Hs]. by apply Hb.
    + destruct (0 <? d); by apply Hb.
Qed.

(** A condition the emitter writes as it is. *)
Definition raw_cond (s : list byte) : bool :=
  match s with
  | [] => true
  | _ => text_ok s && paren_safe 0 (text_kinds s) &&
         match text_kinds s with (TString _ | RParen) :: _ => false | _ => true end
  end.

(** Some pieces of a text, in front of anything. *)
Definition paren_post (post : list piece) : Prop := exists qs, post = Tk [byte_of 41] RParen :: qs.

Lemma raw_cond_reads s : raw_cond s = true -> exists ps, render ps = s /\ ended ps /\
  forall b, reads b parse_paren_inner ps s paren_post.
Proof.
  intros H. destruct s as [|c s].
  - exists []. split_and!; [done|by intros rest|]. intros b. unfold parse_paren_inner. apply reads_peek.
    intros t (post & (qs & ->) & E). rewrite E. cbn. rd.
  - unfold raw_cond in H. apply andb_prop in H as [[Ht Hp]%andb_prop Hk].
    destruct (text_pieces _ Ht) as (ps0 & Er & He & Ek & _ & (w & k & ps & ->) & _). exists (Tk w k :: ps). split_and!; [done|done|]. intros b.
    rewrite <- Ek in *. unfold parse_paren_inner. intros pre post Htx (qs & ->).
    erewrite bind_ok by apply (peek_st b pre (Tk w k :: ps ++ Tk [byte_of 41] RParen :: qs)). rewrite kind_tok_at. cbn [hd_kind kinds app].
    assert (paren_raw (tstart (tok_at pre (Tk w k :: ps ++ Tk [byte_of 41] RParen :: qs))) (st (pre ++ Tk w k :: ps ++ Tk [byte_of 41] RParen :: qs) b pre)
      = Ok (c :: s, st (pre ++ Tk w k :: ps ++ Tk [byte_of 41] RParen :: qs) b (pre ++ Tk w k :: ps))) as Hr.
    { unfold paren_raw. erewrite bind_ok.
      2: { unfold with_fuel. apply (paren_loop_pieces b (Tk w k :: ps)); [done|]. cbn [tokens st]. rewrite length_place, !ntk_app. cbn [ntk]. rewrite ntk_app. lia. }
      rewrite !tstart_tok_at. erewrite (snip_trim_pieces _ b pre (Tk w k :: ps) (Tk [byte_of 41] RParen :: qs)) by done.
      by rewrite Er, (trim_text _ Ht). }
    cbn [tkinds] in Hk. by destruct k.
Qed.

(** The conditions of [emit]: quoted unless safe. *)
Definition wf_cond (s : list byte) : bool := if cond_is_unquoted_safe s then raw_cond s else utf8_valid s.

Lemma cond_reads s : wf_cond s = true -> exists ps, render ps = render_cond s /\ ended ps /\
  forall b, reads b parse_paren_inner ps s paren_post.
Proof.
  unfold wf_cond, render_cond. destruct (cond_is_unquoted_safe s); [apply raw_cond_reads|]. intros Hu%utf8_of_valid.
  exists [strT s]. split_and!; [apply render_tk|intros rest _; by apply closed_str|]. intros b. unfold parse_paren_inner. rd.
  apply (reads_at_kind _ _ true); [by intros post (qs & ->)|]. rd.
Qed.
