(* ===== verification/RoundMove.v ===== *)
(** Assignments: the parser finds the operator and the byte list of the line
    the emitter wrote. *)

From S2P Require Import Prelude Text Lexer LexerSpec Ast Emit Parser Pieces Literals Reads RoundBasic RoundText.

(** * Lines and token offsets *)

Definition no_nl (s : list byte) : bool := forallb (fun b => negb (u8 b =? 10)) s.

Lemma advance_no_nl s lc : no_nl s = true -> (advance lc s).1 = lc.1.
Proof.
  revert lc. induction s as [|b s IH]; [done|]. intros lc [Hb Hs]%andb_prop. cbn. rewrite IH by done.
  unfold step_pos. apply negb_true_iff in Hb. rewrite Hb. by destruct (is_cont (u8 b)).
Qed.

Lemma no_nl_app s t : no_nl (s ++ t) = no_nl s && no_nl t.
Proof. apply List.forallb_app. Qed.

(** The tokens of some pieces end inside them. *)
Lemma place_bound pre ps n lc i t : (i < ntk pre)%nat -> place n lc (pre ++ ps) !! i = Some t ->
  (tstart t <= tend t <= n + length (render pre))%nat.
Proof.
  revert n lc i. induction pre as [|[w|w k] pre IH]; intros n lc i Hi; cbn [ntk app place] in *; [lia| |].
  - intros E. apply IH in E; [|done]. rewrite render_cons, length_app. cbn [piece_text]. lia.
  - rewrite render_cons, length_app. cbn [piece_text]. destruct i as [|i]; cbn [lookup list_lookup].
    + intros [= <-]. cbn. lia.
    + intros E. apply IH in E; [|lia]. lia.
Qed.

(** * The scan of the line *)

Definition byte_block (ks : list TokenKind) : bool :=
  match ks with
  | LBracket :: RBracket :: _ => true
  | LBracket :: l => byte_list_rest l
  | _ => false
  end.

Lemma is_byte_list_block_kinds T i : is_byte_list_block T i = byte_block (drop i (map kind T)).
Proof. unfold is_byte_list_block, byte_block. by rewrite skipn_map. Qed.

(** What the scan knows: depth, last [=], last byte list. *)
Definition seen : Type := Z * option nat * option nat.

(** The scan over tokens of one line, by their kinds. *)
Fixpoint over (T : list Token) (ks : list TokenKind) (probe : nat) (s : seen) : option seen :=
  let '(d, e, l) := s in
  match ks with
  | [] => Some s
  | LBracket :: ks => over T ks (S probe) (d + 1, e, if (d =? 0) && is_byte_list_block T probe then Some probe else l)
  | LParen :: ks => over T ks (S probe) (d + 1, e, l)
  | (RParen | RBracket) :: ks => over T ks (S probe) (d - 1, e, l)
  | Eq :: ks => over T ks (S probe) (d, if d =? 0 then Some probe else e, l)
  | (Eof | Comment _ | RBrace) :: _ => None
  | _ :: ks => over T ks (S probe) s
  end.

Lemma scan_over T L ps post : forall n lc probe d e l d' e' l', no_nl (render ps) = true -> lc.1 = L ->
  over T (tkinds ps) probe (d, e, l) = Some (d', e', l') ->
  scan_move T L (place n lc (ps ++ post)) probe d e l =
  scan_move T L (place (n + length (render ps)) (advance lc (render ps)) post) (probe + ntk ps) d' e' l'.
Proof.
  induction ps as [|[w|w k] ps IH]; intros n lc probe d e l d' e' l' Hn HL H.
  - cbn in H. simplify_eq. cbn. by rewrite !Nat.add_0_r.
  - rewrite render_cons, no_nl_app in Hn. apply andb_prop in Hn as [Hw Hn]. cbn [tkinds app place ntk] in *.
    rewrite (IH (n + length w)%nat (advance lc w) probe d e l d' e' l'); [|done|by rewrite advance_no_nl|done].
    rewrite render_cons, length_app, advance_app. cbn [piece_text]. f_equal. f_equal. lia.
  - rewrite render_cons, no_nl_app in Hn. apply andb_prop in Hn as [Hw Hn]. cbn [tkinds app place ntk scan_move line kind] in *.
    rewrite HL, Nat.eqb_refl. cbn [negb].
    assert (forall s', over T (tkinds ps) (S probe) s' = Some (d', e', l') ->
      scan_move T L (place (n + length w) (advance lc w) (ps ++ post)) (S probe) s'.1.1 s'.1.2 s'.2 =
      scan_move T L (place (n + length (render (Tk w k :: ps))) (advance lc (render (Tk w k :: ps))) post) (probe + S (ntk ps)) d' e' l') as Hs.
    { intros [[d1 e1] l1] H1. cbn [fst snd].
      rewrite (IH (n + length w)%nat (advance lc w) (S probe) d1 e1 l1 d' e' l'); [|done|by rewrite advance_no_nl|done].
      rewrite render_cons, length_app, advance_app. cbn [piece_text]. f_equal; [f_equal; lia|lia]. }
    destruct k; cbn [over] in H; try done; exact (Hs _ H).
Qed.

(** The scan ends at the next line. *)
Lemma scan_next T L n lc post probe d e l : (forall t ts, place n lc post = t :: ts -> line t <> L) ->
  scan_move T L (place n lc post) probe d e l = (e, l).
Proof.
  intros H. destruct (place n lc post) as [|t ts] eqn:E; [done|]. cbn [scan_move].
  specialize (H t ts eq_refl). by replace (line t =? L)%nat with false by (symmetry; by apply Nat.eqb_neq).
Qed.

(** * Operands *)

(** The depth behind some tokens, if the scan gets past them. *)
Fixpoint depth_over (d : Z) (ks : list TokenKind) : option Z :=
  match ks with
  | [] => Some d
  | (LBracket | LParen) :: ks => depth_over (d + 1) ks
  | (RParen | RBracket) :: ks => if 0 <? d then depth_over (d - 1) ks else None
  | (Eof | Comment _ | RBrace) :: _ => None
  | _ :: ks => depth_over d ks
  end.

(** No [=] outside brackets. *)
Fixpoint no_eq (d : Z) (ks : list TokenKind) : bool :=
  match ks with
  | [] => true
  | (LBracket | LParen) :: ks => no_eq (d + 1) ks
  | (RParen | RBracket) :: ks => no_eq (d - 1) ks
  | Eq :: ks => negb (d =? 0) && no_eq d ks
  | _ :: ks => no_eq d ks
  end.

(** No byte list outside brackets. *)
Fixpoint no_block (d : Z) (ks : list TokenKind) : bool :=
  match ks with
  | [] => true
  | LBracket :: ks' => negb ((d =? 0) && byte_block ks) && no_block (d + 1) ks'
  | LParen :: ks => no_block (d + 1) ks
  | (RParen | RBracket) :: ks => no_block (d - 1) ks
  | _ :: ks => no_block d ks
  end.

(** An index the scan recorded lies among the tokens scanned. *)
Definition below (n : nat) (o : option nat) : Prop := forall i, o = Some i -> (i < n)%nat.

Lemma over_depth T ks : forall probe d e l d', depth_over d ks = Some d' -> below probe e -> below probe l ->
  exists e' l', over T ks probe (d, e, l) = Some (d', e', l') /\ below (probe + length ks) e' /\ below (probe + length ks) l'.
Proof.
  induction ks as [|k ks IH]; intros probe d e l d' H He Hl.
  - cbn in *. simplify_eq. exists e, l. rewrite Nat.add_0_r. done.
  - assert (below (S probe) e /\ below (S probe) l) as [He' Hl'] by (split; intros i E; [specialize (He i E)|specialize (Hl i E)]; lia).
    assert (below (S probe) (Some probe)) as Hp by (intros i [= <-]; lia).
    assert (forall d1 e1 l1, depth_over d1 ks = Some d' -> below (S probe) e1 -> below (S probe) l1 ->
      exists e' l', over T ks (S probe) (d1, e1, l1) = Some (d', e', l') /\ below (probe + length (k :: ks)) e' /\ below (probe + length (k :: ks)) l') as Hs.
    { intros d1 e1 l1 H1 H2 H3. destruct (IH (S probe) d1 e1 l1 d' H1 H2 H3) as (e' & l' & E & Be & Bl). exists e', l'.
      cbn [length]. replace (probe + S (length ks))%nat with (S probe + length ks)%nat by lia. done. }
    destruct k; cbn [depth_over over] in *; try done; try (destruct (0 <? d); [|done]); apply Hs; try done; case_match; done.
Qed.

(** A bracket that is closed later: the rest has a closing one. *)
Definition is_closer (k : TokenKind) : bool := match k with RParen | RBracket => true | _ => false end.

Lemma depth_closer ks : forall d d', depth_over d ks = Some d' -> d' < d -> existsb is_closer ks = true.
Proof.
  induction ks as [|k ks IH]; intros d d' H Hd; cbn in *; [simplify_eq; lia|].
  destruct k; try done; cbn [is_closer orb]; by eapply IH; [exact H|lia].
Qed.

Lemma byte_list_rest_more l r : existsb is_closer l = true -> byte_list_rest (l ++ r) = byte_list_rest l.
Proof.
  revert l. fix IH 1. intros [|k [|k' l]] H; [done| |].
  - destruct k; done.
  - destruct k; try done. destruct k'; try done. cbn [app byte_list_rest]. apply IH. exact H.
Qed.

Lemma byte_block_more ks r d d' : depth_over d ks = Some d' -> d' < d -> byte_block (LBracket :: ks ++ r) = byte_block (LBracket :: ks).
Proof.
  intros H Hd. pose proof (depth_closer ks d d' H Hd) as Hc. destruct ks as [|k ks]; [done|].
  assert (byte_list_rest ((k :: ks) ++ r) = byte_list_rest (k :: ks)) as E by by apply byte_list_rest_more.
  cbn [app] in *. by destruct k.
Qed.

Lemma depth_nonneg ks : forall d d', depth_over d ks = Some d' -> 0 <= d -> 0 <= d'.
Proof.
  induction ks as [|k ks IH]; intros d d' H Hd; cbn in *; [by simplify_eq|].
  destruct k; try done; try (destruct (Z.ltb_spec 0 d); [|done]); by eapply IH; [exact H|lia].
Qed.

(** Over an operand behind the [=]. *)
Lemma over_src T ks r : forall probe d e l, drop probe (map kind T) = ks ++ r ->
  depth_over d ks = Some 0 -> 0 <= d -> no_eq d ks = true ->
  exists l', over T ks probe (d, e, l) = Some (0, e, l') /\ (no_block d ks = true -> l' = l).
Proof.
  induction ks as [|k ks IH]; intros probe d e l HT H Hd He; [cbn in *; simplify_eq; by exists l|].
  assert (drop (S probe) (map kind T) = ks ++ r) as HT'.
  { change (S probe) with (1 + probe)%nat. rewrite Nat.add_comm, <- drop_drop, HT. done. }
  assert (is_byte_list_block T probe = byte_block (k :: ks ++ r)) as Eb by (by rewrite is_byte_list_block_kinds, HT).
  destruct k; cbn [depth_over over no_eq no_block] in *; try done;
    try (destruct (Z.ltb_spec 0 d); [|done]); try (apply IH; [done|done|lia|done]).
  - destruct (IH (S probe) (d + 1) e (if (d =? 0) && is_byte_list_block T probe then Some probe else l)) as (l' & E & Hl'); [done|done|lia|done|].
    exists l'. split; [done|]. intros [Hb Hn]%andb_prop. rewrite (Hl' Hn), Eb.
    rewrite (byte_block_more ks r (d + 1) 0 H) by lia. apply negb_true_iff in Hb. by rewrite Hb.
  - apply andb_prop in He as [Hz He]. apply negb_true_iff in Hz. rewrite Hz. by apply IH.
Qed.

Lemma depths_app T ks ls probe s : over T (ks ++ ls) probe s =
  match over T ks probe s with Some s' => over T ls (probe + length ks) s' | None => None end.
Proof.
  revert probe s. induction ks as [|k ks IH]; intros probe [[d e] l]; [cbn; by rewrite Nat.add_0_r|].
  cbn [app length]. rewrite <- Nat.add_succ_comm. destruct k; cbn [over]; try done; apply IH.
Qed.

(** Over the list of bytes that ends the line. *)
Lemma over_ints T bytes : forall probe e l, over T (tkinds (commas (map (fun b => [byteT b]) bytes))) probe (1, e, l) = Some (1, e, l).
Proof.
  induction bytes as [|b bytes IH]; intros probe e l; [done|]. destruct bytes as [|b' bytes]; [done|]. exact (IH (S (S probe)) e l).
Qed.

Lemma block_bytes bytes r : byte_block (tkinds (bytesP bytes) ++ r) = true.
Proof.
  unfold bytesP. expand_C. cbn [tkinds]. rewrite tkinds_app. destruct bytes as [|b bytes]; [done|]. cbn [app byte_block].
  assert (byte_list_rest (tkinds (commas (map (fun b => [byteT b]) (b :: bytes))) ++ RBracket :: r) = true) as E.
  { revert b. induction bytes as [|b' bytes IH]; intros b; [done|]. exact (IH b'). }
  rewrite <- (assoc_L (++)). destruct bytes; exact E.
Qed.

Lemma over_bytes T bytes r probe e l : drop probe (map kind T) = tkinds (bytesP bytes) ++ r ->
  over T (tkinds (bytesP bytes)) probe (0, e, l) = Some (0, e, Some probe).
Proof.
  intros HT. assert (is_byte_list_block T probe = true) as Hb by (rewrite is_byte_list_block_kinds, HT; apply block_bytes).
  unfold bytesP. expand_C. cbn [tkinds app over]. rewrite Hb, tkinds_app, depths_app, over_ints. done.
Qed.

(** * Bumping along the line *)

Lemma bump_to_pieces b ps w0 : forall n pre post, (ntk ps < n)%nat -> w0 <> [] ->
  (exists w k qs, post = Tk w k :: qs) ->
  bump_to (length (render (pre ++ ps ++ [Sp w0]))) n (st (pre ++ ps ++ Sp w0 :: post) b pre) =
  Ok (tt, st (pre ++ ps ++ Sp w0 :: post) b (pre ++ ps ++ [Sp w0])).
Proof.
  induction ps as [|[v|v k] ps IH]; intros n pre post Hn Hw Hp; (destruct n as [|n]; [lia|]).
  - destruct Hp as (w & k & qs & ->). cbn [app bump_to]. rewrite <- (sp_state _ b pre w0).
    replace (pre ++ Sp w0 :: Tk w k :: qs) with ((pre ++ [Sp w0]) ++ Tk w k :: qs) by (by rewrite <- (assoc_L (++))).
    erewrite bind_ok by apply peek_st. rewrite tstart_tok_at, Nat.ltb_irrefl. done.
  - cbn [ntk app] in *. specialize (IH (S n) (pre ++ [Sp v]) post ltac:(lia) Hw Hp). rewrite <- !(assoc_L (++)) in IH. cbn [app] in IH.
    by rewrite sp_state in IH.
  - cbn [ntk app bump_to] in *. erewrite bind_ok by apply peek_st. rewrite tstart_tok_at.
    replace (_ <? _)%nat with true.
    2: { symmetry. apply Nat.ltb_lt. rewrite render_app, length_app, render_cons, length_app, render_app, length_app, render_sp. destruct w0; [done|cbn; lia]. }
    erewrite bind_ok by apply bump_st. specialize (IH n (pre ++ [Tk v k]) post ltac:(lia) Hw Hp). rewrite <- !(assoc_L (++)) in IH. exact IH.
Qed.

(** Kinds that end a line early. *)
Definition line_stop (k : TokenKind) : bool := match k with Eof | Comment _ | RBrace => true | _ => false end.

Lemma depth_stops ks : forall d d', depth_over d ks = Some d' -> existsb line_stop ks = false.
Proof.
  induction ks as [|k ks IH]; intros d d' H; [done|]. cbn in *. destruct k; try done; try (destruct (0 <? d); [|done]); by eapply IH.
Qed.

Lemma advance_mono s lc : (lc.1 <= (advance lc s).1)%nat.
Proof.
  revert lc. induction s as [|b s IH]; [done|]. intros lc. cbn. etransitivity; [|apply IH]. unfold step_pos. repeat case_match; cbn; lia.
Qed.

Lemma place_line ps : forall n lc t ts, place n lc ps = t :: ts -> (lc.1 <= line t)%nat.
Proof.
  induction ps as [|[w|w k] ps IH]; intros n lc t ts H; cbn [place] in H; simplify_eq; [done| |done].
  etransitivity; [apply (advance_mono w)|]. by eapply IH.
Qed.

(** The line the parser stands on, behind some pieces. *)
Definition line_of (pre : list piece) : nat := (advance (1, 1)%nat (render pre)).1.

Lemma line_tok pre w k ps : line (tok_at pre (Tk w k :: ps)) = line_of pre.
Proof. done. Qed.

Lemma line_app pre ps : no_nl (render ps) = true -> line_of (pre ++ ps) = line_of pre.
Proof. intros H. unfold line_of. by rewrite render_app, advance_app, advance_no_nl. Qed.

Lemma next_line pre post : (line_of pre < line (tok_at (pre ++ [Sp nl]) post))%nat.
Proof.
  unfold tok_at. destruct (place _ _ post) as [|t ts] eqn:E.
  { apply (f_equal length) in E. rewrite length_place in E. done. }
  apply place_line in E. rewrite render_app, advance_app in E. unfold line_of. destruct (advance (1, 1)%nat (render pre)) as [a c]. change (a + 1 <= line t)%nat in E. cbn [fst]. lia.
Qed.

Lemma bump_line_pieces b ps : forall n e pre post, (ntk ps < n)%nat -> no_nl (render ps) = true -> existsb line_stop (tkinds ps) = false ->
  (ps = [] /\ e = length (render pre) \/ exists qs w k, ps = qs ++ [Tk w k]) ->
  bump_line (line_of pre) e n (st (pre ++ ps ++ Sp nl :: post) b pre) =
  Ok (length (render (pre ++ ps)), st (pre ++ ps ++ Sp nl :: post) b (pre ++ ps)).
Proof.
  induction ps as [|[v|v k] ps IH]; intros n e pre post Hn Hl Hk Hp; (destruct n as [|n]; [lia|]).
  - destruct Hp as [[_ ->]|(qs & w & k & E)]; [|by destruct qs]. rewrite app_nil_r. cbn [app bump_line].
    replace (pre ++ Sp nl :: post) with ((pre ++ [Sp nl]) ++ post) by (by rewrite <- (assoc_L (++))). rewrite <- (sp_state _ b pre nl) at 1.
    erewrite bind_ok by apply peek_st. pose proof (next_line pre post).
    replace (_ =? _)%nat with false by (symmetry; apply Nat.eqb_neq; lia). cbn [negb]. rewrite sp_state. done.
  - rewrite render_cons, no_nl_app in Hl. apply andb_prop in Hl as [Hv Hl]. cbn [ntk tkinds app] in *.
    specialize (IH (S n) e (pre ++ [Sp v]) post ltac:(lia) Hl Hk). rewrite <- !(assoc_L (++)) in IH. cbn [app] in IH.
    rewrite sp_state, line_app in IH by (by rewrite render_sp). apply IH. right.
    destruct Hp as [[? _]|(qs & w & k & E)]; [done|]. destruct qs as [|q qs]; [done|]. cbn in E. simplify_eq. by exists qs, w, k.
  - rewrite render_cons, no_nl_app in Hl. apply andb_prop in Hl as [Hv Hl]. cbn [ntk tkinds app existsb bump_line] in *.
    apply orb_false_iff in Hk as [Hk Hks]. erewrite bind_ok by apply peek_st. rewrite line_tok, Nat.eqb_refl, kind_tok_at. cbn [negb hd_kind kinds].
    specialize (IH n (tend (tok_at pre (Tk v k :: ps ++ Sp nl :: post))) (pre ++ [Tk v k]) post ltac:(lia) Hl Hks).
    rewrite <- !(assoc_L (++)) in IH. cbn [app] in IH. rewrite line_app in IH by (by rewrite render_tk).
    assert ((bump ≫= fun _ => bump_line (line_of pre) (tend (tok_at pre (Tk v k :: ps ++ Sp nl :: post))) n)
      (st (pre ++ Tk v k :: ps ++ Sp nl :: post) b pre) =
      Ok (length (render (pre ++ Tk v k :: ps)), st (pre ++ Tk v k :: ps ++ Sp nl :: post) b (pre ++ Tk v k :: ps))) as Hb.
    { erewrite bind_ok by apply bump_st. apply IH. destruct Hp as [[? _]|([|q qs] & w & k' & E)]; [done| |]; cbn in E; simplify_eq.
      - left. by rewrite tend_tok_at.
      - right. by exists qs, w, k'. }
    by destruct k.
Qed.

(** * The line of an assignment *)

Abbreviation sp1 := (Sp [byte_of 32]).
Abbreviation eqT := (Tk [byte_of 61] Eq).

(** The operators of a compound assignment, without the [=]. *)
Definition op_table : list (list byte * list piece) :=
  [(str "+=", [Tk (str "+") Plus]); (str "-=", [Tk (str "-") Minus]); (str "*=", [Tk (str "*") Star]);
   (str "/=", [Tk (str "/") Slash]); (str "%=", [Tk (str "%") Percent]); (str "|=", [Tk (str "|") Pipe]);
   (str "&=", [Tk (str "&") Ampersand]); (str "^=", [Tk (str "^") Caret]);
   (str "<<=", [Tk (str "<") Lt; Tk (str "<") Lt]); (str ">>=", [Tk (str ">") Gt; Tk (str ">") Gt])].

(** No operator, or one of the table. *)
Definition op_ok (O : list piece) : Prop := O = [] \/ exists op, (op, O) ∈ op_table.

Ltac op_cases H :=
  let E := fresh "E" in
  destruct H as [E|[? E]]; [|unfold op_table in E; repeat (apply elem_of_cons in E as [E|E]); [..|by apply not_elem_of_nil in E]];
  simplify_eq.

(** An operand: its pieces, and what the scan needs of its kinds. *)
Record operand (ps : list piece) : Prop := {
  o_first : exists w k qs, ps = Tk w k :: qs;
  o_last : exists qs w k, ps = qs ++ [Tk w k];
  o_line : no_nl (render ps) = true;
  o_depth : depth_over 0 (tkinds ps) = Some 0;
}.

Definition semiP (s : bool) : list piece := if s then [Tk [byte_of 59] Semicolon] else [].
Definition tailP (bytes : list byte) : list piece := match bytes with [] => [] | _ => sp1 :: bytesP bytes end.

Lemma tailP_bytes bytes : bytes <> [] -> tailP bytes = sp1 :: bytesP bytes.
Proof. by destruct bytes. Qed.

Lemma no_nl_bytes bytes : no_nl (render (tailP bytes)) = true.
Proof.
  destruct bytes as [|c bytes]; [done|]. cbn [tailP]. rewrite render_cons, render_bytes, no_nl_app. cbn [piece_text]. apply andb_true_intro.
  split; [done|]. rewrite no_nl_app. apply andb_true_intro. split; [done|]. rewrite no_nl_app. apply andb_true_intro. split; [|done].
  unfold emit_byte_list. generalize (c :: bytes). clear. intros l. induction l as [|x l IH]; [done|].
  assert (no_nl (byte_lit x) = true) as Hx by (destruct x; vm_compute; reflexivity).
  cbn [map sep_by]. destruct l as [|y l]; [done|]. cbn [map] in *. rewrite !no_nl_app, Hx, IH. done.
Qed.

Lemma tok_look W p q : W = p ++ q -> place 0 (1, 1)%nat W !! ntk p = Some (tok_at p q).
Proof. intros ->. exact (token_here 0 p q). Qed.

Lemma kinds_look W p q : W = p ++ q -> drop (ntk p) (map kind (place 0 (1, 1)%nat W)) = kinds q.
Proof. intros ->. rewrite <- (kinds_from 0 p q), skipn_map. done. Qed.

Section assign.
Context (pre D O S post : list piece) (semi : bool) (bytes : list byte).
Context (HD : operand D) (HO : op_ok O) (HS : operand S).
Context (Heq : no_eq 0 (tkinds S) = true) (Hblock : bytes <> [] \/ no_block 0 (tkinds S) = true).

Let to_op := pre ++ D ++ [sp1].
Let to_eq := to_op ++ O.
Let behind := to_eq ++ [eqT; sp1].
Let to_semi := behind ++ S.
Let to_bytes := to_semi ++ semiP semi.
Let body := D ++ [sp1] ++ O ++ [eqT; sp1] ++ S ++ semiP semi ++ tailP bytes.
Let W := pre ++ body ++ Sp nl :: post.
Let T := place 0 (1, 1)%nat W.

Lemma W_body : W = (pre ++ body) ++ Sp nl :: post.
Proof. unfold W. by rewrite <- !(assoc_L (++)). Qed.

Lemma W_op : W = to_op ++ O ++ [eqT; sp1] ++ S ++ semiP semi ++ tailP bytes ++ Sp nl :: post.
Proof. unfold W, body, to_op. by rewrite <- !(assoc_L (++)). Qed.

Lemma W_eq : W = to_eq ++ eqT :: sp1 :: S ++ semiP semi ++ tailP bytes ++ Sp nl :: post.
Proof. rewrite W_op. unfold to_eq. by rewrite <- !(assoc_L (++)). Qed.

Lemma W_behind : W = behind ++ S ++ semiP semi ++ tailP bytes ++ Sp nl :: post.
Proof. rewrite W_eq. unfold behind. by rewrite <- !(assoc_L (++)). Qed.

Lemma W_bytes : W = to_bytes ++ tailP bytes ++ Sp nl :: post.
Proof. rewrite W_behind. unfold to_bytes, to_semi. by rewrite <- !(assoc_L (++)). Qed.

Lemma no_nl_body : no_nl (render body) = true.
Proof.
  unfold body. rewrite !render_app, !no_nl_app, (o_line D HD), (o_line S HS), no_nl_bytes.
  assert (no_nl (render O) = true) as -> by (op_cases HO; reflexivity). by destruct semi.
Qed.

Lemma over_op probe d e l : over T (tkinds O) probe (d, e, l) = Some (d, e, l).
Proof. op_cases HO; reflexivity. Qed.

Lemma over_body : exists l, over T (tkinds body) (ntk pre) (0, None, None) = Some (0, Some (ntk to_eq), l) /\
  (bytes = [] -> below (ntk to_op) l) /\ (bytes <> [] -> l = Some (ntk to_bytes)).
Proof.
  assert (ntk to_op = (ntk pre + ntk D)%nat) as Eop by (unfold to_op; rewrite !ntk_app; cbn; lia).
  assert (ntk to_eq = (ntk to_op + ntk O)%nat) as Eeq by (unfold to_eq; by rewrite ntk_app).
  destruct (over_depth T (tkinds D) (ntk pre) 0 None None 0 (o_depth D HD)) as (e' & l' & E & _ & Hl'); [done|done|].
  unfold body. rewrite !tkinds_app, depths_app, E. cbn [tkinds app]. rewrite length_tkinds in *. rewrite <- Eop in *.
  rewrite depths_app, over_op, length_tkinds, <- Eeq. cbn [over]. change (0 =? 0) with true. cbv iota.
  destruct (over_src T (tkinds S) (tkinds (semiP semi ++ tailP bytes ++ Sp nl :: post) ++ [Eof]) (Datatypes.S (ntk to_eq)) 0 (Some (ntk to_eq)) l')
    as (l2 & E2 & Hl2); [|apply HS|done|done|].
  { assert (Datatypes.S (ntk to_eq) = ntk behind) as -> by (unfold behind; rewrite ntk_app; cbn; lia).
    unfold T. rewrite (kinds_look _ _ _ W_behind), kinds_tkinds, tkinds_app. by rewrite <- (assoc_L (++)). }
  rewrite depths_app, E2. rewrite length_tkinds.
  assert (ntk to_bytes = (Datatypes.S (ntk to_eq) + ntk S + ntk (semiP semi))%nat) as Eb.
  { unfold to_bytes, to_semi, behind. rewrite !ntk_app. cbn. lia. }
  rewrite depths_app. assert (forall p s, over T (tkinds (semiP semi)) p s = Some s) as -> by (intros ? [[]]; by destruct semi).
  rewrite length_tkinds, <- Eb. destruct (decide (bytes = [])) as [Ebs|Ebs].
  - exists l2. rewrite Ebs at 1. split_and!; [done| |done]. intros _. destruct Hblock as [?|Hb]; [done|]. by rewrite (Hl2 Hb).
  - exists (Some (ntk to_bytes)). split_and!; [|done|done]. rewrite (tailP_bytes bytes Ebs). cbn [tkinds].
    eapply over_bytes. unfold T. rewrite (kinds_look _ _ _ W_bytes), kinds_tkinds, tailP_bytes, tkinds_app, <- (assoc_L (++)) by done. reflexivity.
Qed.

Lemma scan_line : exists l, scan_move T (line_of pre) (drop (ntk pre) T) (ntk pre) 0 None None = (Some (ntk to_eq), l) /\
  (bytes = [] -> below (ntk to_op) l) /\ (bytes <> [] -> l = Some (ntk to_bytes)).
Proof.
  destruct over_body as (l & E & Hl). exists l. split; [|exact Hl]. unfold T at 2, W. rewrite place_drop.
  erewrite scan_over; [|apply no_nl_body|done|exact E]. apply scan_next. intros t ts Et.
  assert (line_of pre = line_of (pre ++ body)) as -> by (rewrite line_app; [done|apply no_nl_body]).
  pose proof (next_line (pre ++ body) post) as Hn. unfold tok_at in Hn.
  rewrite !render_app, !advance_app, !length_app, render_sp in Hn. cbn [place] in Et. rewrite <- !Nat.add_assoc in *. cbn [Nat.add] in *. rewrite Et in Hn. lia.
Qed.
(** The operator in front of the [=]. *)
Lemma detect_op : detect_compound_op T (ntk to_eq) = match O with [] => None | _ => Some (ntk to_op, Datatypes.S (ntk O)) end.
Proof.
  unfold detect_compound_op, T. rewrite (tok_look _ _ _ W_eq).
  assert (O = [] -> exists w k D', D = D' ++ [Tk w k] /\ W = (pre ++ D') ++ Tk w k :: [sp1] ++ O ++ [eqT; sp1] ++ S ++ semiP semi ++ tailP bytes ++ Sp nl :: post) as Hd.
  { intros _. destruct (o_last D HD) as (D' & w & k & E). exists w, k, D'. split; [done|]. unfold W, body. rewrite E. by rewrite <- !(assoc_L (++)). }
  pose proof W_op as Wo. assert (ntk to_eq = (ntk to_op + ntk O)%nat) as En by (unfold to_eq; by rewrite ntk_app).
  destruct HO as [EO|[op Hop]].
  - destruct (Hd EO) as (w & k & D' & ED & EW). rewrite EO.
    assert (ntk to_eq = Datatypes.S (ntk (pre ++ D'))) as -> by (unfold to_eq, to_op; rewrite EO, ED, !ntk_app; cbn; lia).
    cbn [Nat.eqb Nat.sub]. rewrite Nat.sub_0_r, (tok_look _ _ _ EW). cbn [mbind option_bind]. rewrite tend_tok_at, tstart_tok_at.
    replace (length _ =? length _)%nat with false; [done|]. symmetry. apply Nat.eqb_neq.
    unfold to_eq, to_op. rewrite EO, ED, !render_app, !length_app. cbn. lia.
  - assert (forall o1 k1 rest, O = [Tk o1 k1] -> W = to_op ++ Tk o1 k1 :: rest -> ntk to_eq = Datatypes.S (ntk to_op) /\
      T !! ntk to_op = Some (tok_at to_op (Tk o1 k1 :: rest)) /\ length (render (to_op ++ [Tk o1 k1])) = length (render to_eq)) as H1.
    { intros o1 k1 rest E1 E2. unfold T. rewrite (tok_look _ _ _ E2). split_and!; [rewrite En, E1; cbn; lia|done|by unfold to_eq; rewrite E1]. }
    assert (forall o1 k1 rest, O = [Tk o1 k1; Tk o1 k1] -> W = to_op ++ Tk o1 k1 :: Tk o1 k1 :: rest -> ntk to_eq = Datatypes.S (Datatypes.S (ntk to_op)) /\
      T !! ntk to_op = Some (tok_at to_op (Tk o1 k1 :: Tk o1 k1 :: rest)) /\
      T !! Datatypes.S (ntk to_op) = Some (tok_at (to_op ++ [Tk o1 k1]) (Tk o1 k1 :: rest)) /\
      length (render ((to_op ++ [Tk o1 k1]) ++ [Tk o1 k1])) = length (render to_eq)) as H2.
    { intros o1 k1 rest E1 E2. assert (W = (to_op ++ [Tk o1 k1]) ++ Tk o1 k1 :: rest) as E3 by (by rewrite <- (assoc_L (++))).
      pose proof (tok_look _ _ _ E3) as E4. rewrite ntk_app, Nat.add_1_r in E4. unfold T. rewrite (tok_look _ _ _ E2), E4.
      split_and!; [rewrite En, E1; cbn; lia|done|done|unfold to_eq; by rewrite E1, <- (assoc_L (++))]. }
    unfold op_table in Hop. repeat (apply elem_of_cons in Hop as [E|Hop]; [simplify_eq|]); [..|by apply not_elem_of_nil in Hop];
      (first [destruct (H1 _ _ _ eq_refl Wo) as (-> & E1 & E2)|destruct (H2 _ _ _ eq_refl Wo) as (-> & E0 & E1 & E2)]);
      cbn [Nat.eqb Nat.sub Nat.leb]; rewrite ?Nat.sub_0_r; unfold T in *; rewrite E1; cbn [mbind option_bind];
      rewrite tend_tok_at, tstart_tok_at, E2, Nat.eqb_refl; cbn [negb]; rewrite !kind_tok_at; cbn [hd_kind kinds app]; try done;
      rewrite E0; cbn [mbind option_bind]; rewrite kind_tok_at, tend_tok_at, tstart_tok_at, Nat.eqb_refl; done.
Qed.
Context (Htexts : texts W) (Hd : tidy (render D) = true) (Hs : tidy (render S) = true).
Context (Hstrip : semi = true \/ strip_suffix (str ";") (render S) = None).

Lemma strip_value : strip_semicolon (render (S ++ semiP semi)) = render S.
Proof.
  unfold strip_semicolon. destruct semi.
  - rewrite render_app. change (render (semiP true)) with (str ";"). rewrite strip_suffix_app.
    pose proof (trim_tidy [] _ [] eq_refl eq_refl Hs) as E. cbn [app] in E. by rewrite app_nil_r in E.
  - rewrite app_nil_r. by destruct Hstrip as [|E]; [|rewrite E].
Qed.

Lemma tidy_value : tidy (render (S ++ semiP semi)) = true.
Proof.
  rewrite render_app. destruct semi; [|by rewrite app_nil_r]. unfold tidy in *. destruct (render S) as [|a t]; [done|]. cbn [app head] in *.
  destruct (last (a :: t)); [|done]. apply andb_prop in Hs as [Ha _]. rewrite Ha. change (render (semiP true)) with [byte_of 59]. rewrite app_comm_cons, last_snoc. done.
Qed.

(** The value and the bytes behind the [=]. *)
Lemma value_bytes b :
  (bytes <> [] -> snip_trim (length (render (to_eq ++ [eqT]))) (length (render (to_bytes ++ [sp1]))) (st W b pre) = Ok (render (S ++ semiP semi), st W b pre)) /\
  (bytes = [] -> snip_trim (length (render (to_eq ++ [eqT]))) (length (render (pre ++ body))) (st W b (pre ++ body)) = Ok (render (S ++ semiP semi), st W b (pre ++ body))).
Proof.
  split; intros E.
  - replace (to_bytes ++ [sp1]) with ((to_eq ++ [eqT]) ++ [sp1] ++ S ++ semiP semi ++ [sp1]) by
      (unfold to_bytes, to_semi, behind; by rewrite <- !(assoc_L (++))).
    erewrite (snip_trim_pieces _ b _ _ (bytesP bytes ++ Sp nl :: post)); [|rewrite W_bytes, (tailP_bytes bytes E); unfold to_bytes, to_semi, behind; by rewrite <- !(assoc_L (++))|done].
    rewrite !render_app. change (render [sp1]) with [byte_of 32]. rewrite (assoc_L (++) (render S)), <- render_app. by rewrite trim_tidy by (done || apply tidy_value).
  - assert (pre ++ body = (to_eq ++ [eqT]) ++ [sp1] ++ S ++ semiP semi) as EB.
    { unfold body. rewrite E. unfold to_eq, to_op. cbn [tailP]. rewrite app_nil_r. by rewrite <- !(assoc_L (++)). }
    rewrite EB at 1. erewrite (snip_trim_pieces _ b _ _ (Sp nl :: post)); [|by rewrite W_body, EB, <- !(assoc_L (++))|done].
    rewrite render_app. change (render [sp1]) with [byte_of 32]. f_equal. f_equal.
    pose proof (trim_tidy [byte_of 32] _ [] eq_refl eq_refl tidy_value) as Et. by rewrite app_nil_r in Et.
Qed.

Lemma dst_text b : snip_trim (length (render pre)) (length (render to_op)) (st W b pre) = Ok (render D, st W b pre).
Proof.
  unfold to_op. erewrite (snip_trim_pieces _ b pre (D ++ [sp1])); [|by rewrite W_op; unfold to_op; rewrite <- !(assoc_L (++))|done].
  rewrite render_app. change (render [sp1]) with [byte_of 32]. f_equal. f_equal. by apply (trim_tidy []).
Qed.

Lemma op_text b p : O <> [] -> snip_trim (length (render to_op)) (length (render (to_eq ++ [eqT]))) (st W b p) = Ok (render (O ++ [eqT]), st W b p).
Proof.
  intros Hn. unfold to_eq. rewrite <- (assoc_L (++)).
  erewrite (snip_trim_pieces _ b to_op (O ++ [eqT])); [|by rewrite W_op, <- !(assoc_L (++))|done].
  f_equal. f_equal. destruct HO as [?|[op Hop]]; [done|]. unfold op_table in Hop.
  repeat (apply elem_of_cons in Hop as [E|Hop]; [simplify_eq; reflexivity|]). by apply not_elem_of_nil in Hop.
Qed.

Definition assigned : Stmt :=
  match O with [] => Move (render D) (render S) bytes | _ => RegArith (render D) (render (O ++ [eqT])) (render S) bytes end.

Lemma body_last : bytes = [] -> exists qs w k, body = qs ++ [Tk w k].
Proof.
  intros E. unfold body. rewrite E. cbn [tailP]. rewrite app_nil_r. destruct semi; cbn [semiP].
  - exists (D ++ [sp1] ++ O ++ [eqT; sp1] ++ S), [byte_of 59], Semicolon. by rewrite <- !(assoc_L (++)).
  - destruct (o_last S HS) as (qs & w & k & ->). exists (D ++ [sp1] ++ O ++ [eqT; sp1] ++ qs), w, k.
    rewrite app_nil_r. by rewrite <- !(assoc_L (++)).
Qed.

Lemma body_stops : bytes = [] -> existsb line_stop (tkinds body) = false.
Proof.
  intros E. unfold body. rewrite E. cbn [tailP]. rewrite app_nil_r, !tkinds_app, !existsb_app.
  rewrite (depth_stops _ _ _ (o_depth D HD)), (depth_stops _ _ _ (o_depth S HS)).
  assert (existsb line_stop (tkinds O) = false) as -> by (op_cases HO; reflexivity). by destruct semi.
Qed.

(** The bytes behind the value, if there are any, and where the parser is
    then. *)
Definition btok_of (l : option nat) : option Token :=
  i ← l; t ← T !! i; if (length (render to_eq) <? tstart t)%nat then Some t else None.

Lemma btok_none l : below (ntk to_op) l -> btok_of l = None.
Proof.
  intros Hl. unfold btok_of. destruct l as [i|]; [|done]. cbn [mbind option_bind]. specialize (Hl i eq_refl).
  destruct (T !! i) as [t|] eqn:Et; [|done]. cbn [mbind option_bind]. unfold T in Et. rewrite W_op in Et.
  apply place_bound in Et; [|done]. replace (_ <? _)%nat with false; [done|]. symmetry. apply Nat.ltb_ge.
  unfold to_eq. rewrite render_app, length_app. lia.
Qed.

Lemma bytes_at : bytes <> [] -> W = (to_bytes ++ [sp1]) ++ bytesP bytes ++ Sp nl :: post.
Proof. intros E. rewrite W_bytes, (tailP_bytes bytes E). by rewrite <- !(assoc_L (++)). Qed.

Lemma btok_some : bytes <> [] -> btok_of (Some (ntk to_bytes)) = Some (tok_at (to_bytes ++ [sp1]) (bytesP bytes ++ Sp nl :: post)).
Proof.
  intros E. unfold btok_of. cbn [mbind option_bind]. assert (ntk to_bytes = ntk (to_bytes ++ [sp1])) as -> by (rewrite ntk_app; cbn; lia).
  unfold T. rewrite (tok_look _ _ _ (bytes_at E)). cbn [mbind option_bind]. unfold bytesP. expand_C. rewrite tstart_tok_at.
  replace (_ <? _)%nat with true; [done|]. symmetry. apply Nat.ltb_lt. unfold to_bytes, to_semi, behind. rewrite !render_app, !length_app. cbn. lia.
Qed.
Lemma eq_here : T !! ntk to_eq = Some (tok_at to_eq (eqT :: sp1 :: S ++ semiP semi ++ tailP bytes ++ Sp nl :: post)).
Proof. apply tok_look, W_eq. Qed.

Lemma op_here : O <> [] -> exists w k qs, T !! ntk to_op = Some (tok_at to_op (Tk w k :: qs)).
Proof.
  intros Hn. assert (exists w k qs, O = Tk w k :: qs) as (w & k & qs & EO) by (op_cases HO; try done; by do 3 eexists).
  exists w, k, (qs ++ [eqT; sp1] ++ S ++ semiP semi ++ tailP bytes ++ Sp nl :: post). apply tok_look. by rewrite W_op, EO.
Qed.

(** What the parser makes of the rest of the line. *)
Lemma rest_bytes b btok : bytes <> [] -> btok = tok_at (to_bytes ++ [sp1]) (bytesP bytes ++ Sp nl :: post) ->
  (value ← snip_trim (length (render (to_eq ++ [eqT]))) (tstart btok);
   _ ← with_fuel (bump_to (tstart btok));
   bytes ← parse_byte_list;
   mret (value, bytes)) (st W b pre) = Ok (render (S ++ semiP semi), bytes, st W b (pre ++ body)).
Proof.
  intros E ->. destruct (value_bytes b) as [V _]. pose proof (bytes_at E) as EW.
  assert (tstart (tok_at (to_bytes ++ [sp1]) (bytesP bytes ++ Sp nl :: post)) = length (render (to_bytes ++ [sp1]))) as ->
    by (unfold bytesP; expand_C; apply tstart_tok_at).
  rewrite (bind_ok _ _ _ _ _ (V E)). set (ps := D ++ [sp1] ++ O ++ [eqT; sp1] ++ S ++ semiP semi).
  assert (to_bytes = pre ++ ps) as Ep by (unfold to_bytes, to_semi, behind, to_eq, to_op, ps; by rewrite <- !(assoc_L (++))).
  assert (pre ++ body = (to_bytes ++ [sp1]) ++ bytesP bytes) as Eb.
  { unfold body. rewrite (tailP_bytes bytes E), Ep. unfold ps. by rewrite <- !(assoc_L (++)). }
  erewrite bind_ok.
  2: { unfold with_fuel. rewrite EW, Ep, <- !(assoc_L (++)).
    apply (bump_to_pieces b ps [byte_of 32]); [cbn [tokens st]; rewrite length_place, !ntk_app; lia|done|].
    unfold bytesP. expand_C. by do 3 eexists. }
  rewrite Eb. pose proof (reads_bytes b bytes (to_bytes ++ [sp1]) (Sp nl :: post)) as R. rewrite <- EW in R.
  assert (pre ++ ps ++ [sp1] ++ bytesP bytes ++ Sp nl :: post = W) as EW' by (rewrite EW, Ep; by rewrite <- !(assoc_L (++))).
  assert (pre ++ ps ++ [sp1] = to_bytes ++ [sp1]) as Eps by (rewrite Ep; by rewrite <- (assoc_L (++))).
  cbn [app] in EW', Eps |- *. rewrite ?EW', ?Eps. by rewrite (bind_ok _ _ _ _ _ (R Htexts I)).
Qed.

Lemma rest_line b : bytes = [] ->
  (last_tok_end ← with_fuel (bump_line (line_of pre) (length (render (to_eq ++ [eqT]))));
   value ← snip_trim (length (render (to_eq ++ [eqT]))) last_tok_end;
   mret (value, ([] : list byte))) (st W b pre) = Ok (render (S ++ semiP semi), bytes, st W b (pre ++ body)).
Proof.
  intros E. destruct (value_bytes b) as [_ V]. erewrite bind_ok.
  2: { unfold with_fuel, W. apply (bump_line_pieces b body); [|apply no_nl_body|by apply body_stops|right; by apply body_last].
    cbn [tokens st]. rewrite length_place, !ntk_app. lia. }
  rewrite (bind_ok _ _ _ _ _ (V E)). by rewrite E at 1.
Qed.

Lemma reads_assign b : parse_move_stmt (st W b pre) = Ok (assigned, st W b (pre ++ body)).
Proof.
  unfold parse_move_stmt. destruct (o_first D HD) as (w & k & qs & ED).
  assert (exists rest, W = pre ++ Tk w k :: rest) as [rest EW] by (unfold W, body; rewrite ED; by eexists).
  assert (peek (st W b pre) = Ok (tok_at pre (Tk w k :: rest), st W b pre)) as Ep by (rewrite EW; apply peek_st).
  rewrite (bind_ok _ _ _ _ _ Ep). unfold mbind at 1, P_bind at 1, get_parser. cbn [tokens st pos].
  rewrite line_tok, tstart_tok_at. fold T. destruct scan_line as (l & -> & L1 & L2). cbn [mbind option_bind]. rewrite eq_here. cbn [mbind option_bind].
  rewrite detect_op, !tend_tok_at, !tstart_tok_at. fold (btok_of l).
  assert (match (fst <$> match O with [] => None | _ => Some (ntk to_op, Datatypes.S (ntk O)) end) ≫= (fun p => T !! p) with
          | Some t => tstart t | None => length (render to_eq) end = length (render to_op)) as ->.
  { destruct (decide (O = [])) as [E|E]; [unfold to_eq; rewrite E, app_nil_r; reflexivity|].
    destruct (op_here E) as (w' & k' & qs' & Eo). assert (forall (x y : option (nat * nat)), match O with [] => x | _ => y end = y) as -> by (by destruct O).
    cbn. by rewrite Eo. }
  rewrite (bind_ok _ _ _ _ _ (dst_text b)).
  erewrite bind_ok.
  2: { destruct (decide (bytes = [])) as [E|E].
    - rewrite (btok_none l (L1 E)). by apply rest_line.
    - rewrite (L2 E), (btok_some E). by apply rest_bytes. }
  cbv beta iota zeta. rewrite strip_value. unfold assigned.
  destruct (decide (O = [])) as [E|E]; [by rewrite E|].
  assert (forall A (x y : A), match O with [] => x | _ => y end = y) as HE by (by destruct O). rewrite !HE.
  by rewrite (bind_ok _ _ _ _ _ (op_text b _ E)).
Qed.
End assign.

(** The line of an assignment, its end included. *)
Definition assignP (D O S : list piece) (semi : bool) (bytes : list byte) : list piece :=
  D ++ [sp1] ++ O ++ [eqT; sp1] ++ S ++ semiP semi ++ tailP bytes ++ [Sp nl].

Lemma reads_assignment b D O S semi bytes : operand D -> op_ok O -> operand S ->
  no_eq 0 (tkinds S) = true -> bytes <> [] \/ no_block 0 (tkinds S) = true ->
  tidy (render D) = true -> tidy (render S) = true -> semi = true \/ strip_suffix (str ";") (render S) = None ->
  reads b parse_move_stmt (assignP D O S semi bytes) (assigned D O S bytes) (fun _ => True).
Proof.
  intros HD HO HS Heq Hb Hd Hs Hsemi pre post Ht _. set (body := D ++ [sp1] ++ O ++ [eqT; sp1] ++ S ++ semiP semi ++ tailP bytes).
  assert (assignP D O S semi bytes = body ++ [Sp nl]) as E by (unfold assignP, body; by rewrite <- !(assoc_L (++))).
  rewrite E in *. rewrite (assoc_L (++) pre body), sp_state, <- !(assoc_L (++)) in *.
  exact (reads_assign pre D O S post semi bytes HD HO HS Heq Hb Ht Hd Hs Hsemi b).
Qed.

Lemma closed_tail bytes : closed (tailP bytes ++ [Sp nl]).
Proof.
  destruct bytes as [|c bytes]; [by apply closed_blank|]. cbn [tailP]. change (closed ([sp1] ++ (bytesP (c :: bytes) ++ [Sp nl]))).
  apply closed_app; [by apply closed_blank|]. apply closed_app; [apply closed_bytes|by apply closed_blank].
Qed.

Lemma closed_assign D O S semi bytes : ended D -> op_ok O -> ended S -> closed (assignP D O S semi bytes).
Proof.
  intros HD HO HS. unfold assignP. apply ended_closed_app; [done|by intros rest; eexists _, _|].
  assert (closed (S ++ semiP semi ++ tailP bytes ++ [Sp nl])) as Hc.
  { apply ended_closed_app; [done| |].
    - intros rest. destruct semi; [by eexists _, _|]. destruct bytes; by eexists _, _.
    - apply closed_app; [|apply closed_tail]. destruct semi; [by apply closed_const|apply closed_nil]. }
  assert (closed ([sp1] ++ O ++ [eqT; sp1])) as HO' by
    (op_cases HO; first [apply closed_const; vm_compute; reflexivity
      |apply (closed_app [sp1]); [by apply closed_blank|]; intros rest; split; [first [by apply L_minus|by apply L_slash]|by apply (closed_const [eqT; sp1])]]).
  pose proof (closed_app _ _ HO' Hc) as H. by rewrite <- !(assoc_L (++)) in H.
Qed.

(** * How the parser tells an assignment from a call *)

Definition stmt_words : list (list byte) :=
  [str "if"; str "ifblock"; str "whileblock"; str "do"; str "goto"; str "return"; str "switch"; str "else"; str "let"].

Definition stmt_word (name : list byte) : bool := existsb (str_eqb name) stmt_words.

(** No chain [-> name] that ends in a parenthesis. *)
Fixpoint no_chain (l : list TokenKind) : bool :=
  match l with
  | Arrow :: Ident _ :: l => no_chain l
  | Arrow :: _ :: _ => true
  | [Arrow] | [] | LParen :: _ => false
  | _ => true
  end.

(** Behind the closing bracket there is something else than a parenthesis. *)
Definition no_call (close : TokenKind) (ks : list TokenKind) : bool :=
  match c ← matching_close close 0 0 ks; ks !! (c + 1)%nat with Some k => negb (bool_decide (k = LParen)) | None => false end.

(** The kinds an assignment starts with. *)
Definition move_start (ks : list TokenKind) : bool :=
  match ks with
  | Ident name :: k2 :: _ =>
      negb (stmt_word name) && negb (is_label_name name && bool_decide (k2 = Colon)) && negb (bool_decide (k2 = LParen)) &&
      no_chain (tail ks)
  | LBracket :: _ => no_call RBracket ks
  | LParen :: _ => no_call RParen ks
  | Dollar :: _ => true
  | _ => false
  end.

Lemma no_chain_arrow l : forall r saw, no_chain l = true -> arrow_chain saw (l ++ r) = false.
Proof.
  revert l. fix IH 1. intros [|k [|k' l]] r saw H; [done| |].
  - by destruct k.
  - destruct k; try done. destruct k'; try done. cbn [app arrow_chain]. exact (IH l r true H).
Qed.

Lemma matching_close_more close ks r : forall d i j p, matching_close close d i ks = Some j ->
  matching_close close d (p + i) (ks ++ r) = Some (p + j)%nat.
Proof.
  induction ks as [|k ks IH]; intros d i j p H; [done|]. cbn [app matching_close] in *. rewrite <- !Nat.add_succ_r.
  repeat case_decide; try done; try by apply IH. destruct (d - 1 =? 0); [by simplify_eq|by apply IH].
Qed.


(** The kinds behind [pre] start with [ks]. *)
Definition starts (ks : list TokenKind) (ps : list piece) : Prop := exists r, kinds ps = ks ++ r.

Lemma starts_close b close k ks pre ps : k = LParen /\ close = RParen \/ k = LBracket /\ close = RBracket ->
  no_call close (k :: ks) = true -> starts (k :: ks) ps ->
  exists k', k' <> LParen /\ (c ← find_matching_close (tokens (st (pre ++ ps) b pre)) (ntk pre);
    kind <$> tokens (st (pre ++ ps) b pre) !! (c + 1)%nat) = Some k'.
Proof.
  intros Hk H [r Er]. unfold no_call in H. destruct (matching_close close 0 0 (k :: ks)) as [c|] eqn:Ec; [|done]. cbn [mbind option_bind] in H.
  destruct ((k :: ks) !! (c + 1)%nat) as [k'|] eqn:El; [|done]. exists k'. split; [intros ->; done|].
  assert (find_matching_close (tokens (st (pre ++ ps) b pre)) (ntk pre) = Some (ntk pre + c)%nat) as ->.
  { unfold find_matching_close. rewrite kinds_from, Er. pose proof (matching_close_more close (k :: ks) r 0 0 c (ntk pre) Ec) as Hm.
    rewrite Nat.add_0_r in Hm. by destruct Hk as [[-> ->]|[-> ->]]. }
  cbn [mbind option_bind]. rewrite <- Nat.add_assoc, kind_lookup, Er. by apply lookup_app_l_Some.
Qed.

Lemma reads_call_or_move b ps s ok ks : reads b parse_move_stmt ps s ok ->
  (forall post, ok post -> starts ks (ps ++ post)) -> move_start ks = true -> reads b parse_call_or_move_stmt ps s ok.
Proof.
  intros H Hs Hm pre post Ht Hp. specialize (H pre post Ht Hp). specialize (Hs post Hp). unfold parse_call_or_move_stmt.
  rewrite (bind_ok _ _ _ _ _ (peek_st b pre (ps ++ post))). unfold mbind at 1, P_bind at 1, get_parser. rewrite kind_tok_at.
  change (pos (st (pre ++ ps ++ post) b pre)) with (ntk pre). destruct Hs as [r Er]. unfold hd_kind. rewrite Er.
  destruct ks as [|k ks]; [done|]. cbn [app].
  assert (forall close, k = LParen /\ close = RParen \/ k = LBracket /\ close = RBracket -> no_call close (k :: ks) = true ->
    match close ← find_matching_close (tokens (st (pre ++ ps ++ post) b pre)) (ntk pre);
          kind <$> tokens (st (pre ++ ps ++ post) b pre) !! (close + 1)%nat with
    | Some LParen => parse_call_stmt | _ => parse_move_stmt end (st (pre ++ ps ++ post) b pre) = Ok (s, st (pre ++ ps ++ post) b (pre ++ ps))) as Hc.
  { intros close Hk Hn. destruct (starts_close b close k ks pre (ps ++ post) Hk Hn (ex_intro _ r Er)) as (k' & Hk' & ->). by destruct k'. }
  destruct k; try done; cbn [move_start tail] in Hm; [| | |].
  all: try (apply (Hc RParen); [by left|exact Hm]); try (apply (Hc RBracket); [by right|exact Hm]).
  - unfold find_matching_close. by rewrite kinds_from, Er.
  - destruct ks as [|k2 ks]; [done|]. apply andb_prop in Hm as [[_ Hl]%andb_prop Hc0].
    assert (lookahead_is_method_call (tokens (st (pre ++ ps ++ post) b pre)) (ntk pre) = false) as ->.
    { unfold lookahead_is_method_call. rewrite <- drop_drop, <- skipn_map.
      replace (map kind (drop (ntk pre) (tokens (st (pre ++ ps ++ post) b pre)))) with (kinds (ps ++ post)) by (symmetry; apply kinds_from).
      rewrite Er. cbn [app]. change (drop 1 (?x :: ?l)) with l. by apply (no_chain_arrow (k2 :: ks)). }
    rewrite orb_false_r, bool_decide_eq_false_2; [done|]. rewrite (kind_lookup b pre (ps ++ post) 1), Er. cbn. intros [= ->]. done.
Qed.

(** The first token decides that it is no other statement. *)
Lemma reads_dispatch b ps s ok ks : reads b parse_call_or_move_stmt ps s ok ->
  (forall post, ok post -> starts ks (ps ++ post)) ->
  match ks with
  | Ident name :: k2 :: _ => negb (stmt_word name) && negb (is_label_name name && bool_decide (k2 = Colon))
  | (LBracket | LParen | Dollar) :: _ => true
  | _ => false
  end = true ->
  forall list one sw, reads b (parse_stmt list one sw) ps s ok.
Proof.
  intros H Hs Hk list one sw pre post Ht Hp. specialize (H pre post Ht Hp). destruct (Hs post Hp) as [r Er]. unfold parse_stmt.
  rewrite (bind_ok _ _ _ _ _ (peek_st b pre (ps ++ post))), kind_tok_at. unfold hd_kind. rewrite Er.
  destruct ks as [|k ks]; [done|]. cbn [app]. destruct k; try done. destruct ks as [|k2 ks]; [done|].
  apply andb_prop in Hk as [Hw Hl]. unfold stmt_word in Hw. apply negb_true_iff in Hw. cbn [stmt_words existsb] in Hw.
  repeat (apply orb_false_iff in Hw as [? Hw]).
  assert (forall t, str_eqb name t = false -> name <> t) as Hne by (intros t Ht' ->; by unfold str_eqb in Ht'; rewrite bool_decide_eq_true_2 in Ht').
  rewrite !decide_False by auto. rewrite bool_decide_eq_false_2, andb_false_r by auto. destruct (is_label_name name); [|exact H].
  unfold mbind, P_bind, get_parser. rewrite decide_False; [exact H|].
  change (pos (st (pre ++ ps ++ post) b pre)) with (ntk pre). rewrite kind_lookup, Er. cbn. intros [= ->]. done.
Qed.

(** * Assignments as statements *)

Definition wf_side (s : list byte) : bool :=
  move_side_is_unquoted_safe s && text_ok s && no_nl s && bool_decide (depth_over 0 (text_kinds s) = Some 0).

Definition next_kind (O : list piece) : TokenKind := match tkinds O with k :: _ => k | [] => Eq end.

Definition wf_assign (d : list byte) (O : list piece) (s : list byte) (semi : bool) (bytes : list byte) : bool :=
  wf_side d && wf_side s && move_start (text_kinds d ++ [next_kind O]) && no_eq 0 (text_kinds s) &&
  (bool_decide (bytes <> []) || no_block 0 (text_kinds s)) && (semi || bool_decide (strip_suffix (str ";") s = None)).

Lemma side_operand s : wf_side s = true -> exists ps, render ps = s /\ ended ps /\ operand ps /\ tkinds ps = text_kinds s /\ tidy s = true.
Proof.
  unfold wf_side. intros [[[_ Ht]%andb_prop Hn]%andb_prop Hd%bool_decide_eq_true]%andb_prop.
  destruct (text_pieces s Ht) as (ps & Er & He & Ek & _ & Hf & Hl). exists ps. split_and!; [done|done| |done|by apply text_tidy].
  split; [done|done|by rewrite Er|by rewrite Ek].
Qed.

Lemma render_assign D O S semi bytes : render (assignP D O S semi bytes) =
  render D ++ str " " ++ render O ++ str "= " ++ render S ++ (if semi then str ";" else []) ++ opt_bytes bytes.
Proof.
  unfold assignP. rewrite !render_app. change (render [sp1]) with (str " "). change (render [eqT; sp1]) with (str "= ").
  assert (render (semiP semi) = if semi then str ";" else []) as -> by (by destruct semi).
  assert (render (tailP bytes) ++ render [Sp nl] = opt_bytes bytes) as ->; [|done].
  destruct bytes as [|c bytes]; [done|]. cbn [tailP]. rewrite render_cons, render_bytes. unfold opt_bytes. by rewrite <- !(assoc_L (++)).
Qed.

Lemma starts_assign D O S semi bytes post : starts (tkinds D ++ [next_kind O]) (assignP D O S semi bytes ++ post).
Proof.
  unfold starts, assignP, next_kind. rewrite kinds_tkinds, !tkinds_app. cbn [tkinds app]. rewrite <- !(assoc_L (++)).
  destruct (tkinds O) as [|k ks]; cbn [app]; eexists; rewrite <- ?(assoc_L (++)); reflexivity.
Qed.

Lemma assign_stmt d O s semi bytes : op_ok O -> wf_assign d O s semi bytes = true -> exists ps,
  render ps = d ++ str " " ++ render O ++ str "= " ++ s ++ (if semi then str ";" else []) ++ opt_bytes bytes /\
  closed ps /\ (forall post, starts (text_kinds d ++ [next_kind O]) (ps ++ post)) /\
  forall b list one sw, reads b (parse_stmt list one sw) ps
    (match O with [] => Move d s bytes | _ => RegArith d (render (O ++ [eqT])) s bytes end) (fun _ => True).
Proof.
  intros HO. unfold wf_assign. intros [[[[[Hd Hs]%andb_prop Hm]%andb_prop He]%andb_prop Hb]%andb_prop Hl]%andb_prop.
  destruct (side_operand d Hd) as (D & Ed & HD & OD & Kd & Td), (side_operand s Hs) as (S & Es & HS & OS & Ks & Ts).
  exists (assignP D O S semi bytes). rewrite render_assign, Ed, Es. split_and!; [done|by apply closed_assign|intros post; rewrite <- Kd; apply starts_assign|].
  intros b list one sw. assert (reads b parse_move_stmt (assignP D O S semi bytes) (assigned D O S bytes) (fun _ => True)) as R.
  { apply reads_assignment; [done|done|done|by rewrite Ks| |by rewrite Ed|by rewrite Es|].
    - rewrite Ks. apply orb_prop in Hb as [Hb%bool_decide_eq_true|Hb]; tauto.
    - rewrite Es. apply orb_prop in Hl as [Hl|Hl%bool_decide_eq_true]; tauto. }
  unfold assigned in R. rewrite Ed, Es in R.
  apply (reads_dispatch b _ _ _ (text_kinds d ++ [next_kind O])); [apply (reads_call_or_move b _ _ _ (text_kinds d ++ [next_kind O])); [exact R| |exact Hm]| |].
  - intros post _. rewrite <- Kd. apply starts_assign.
  - intros post _. rewrite <- Kd. apply starts_assign.
  - unfold move_start in Hm. destruct (text_kinds d ++ [next_kind O]) as [|k ks]; [done|]. destruct k; try done.
    destruct ks; [done|]. apply andb_prop in Hm as [[Hm _]%andb_prop _]. exact Hm.
Qed.
