(* ===== verification/RoundCall.v ===== *)
(** Calls: the parser finds the name, the arguments and the bytes the emitter
    wrote. *)

From S2P Require Import Prelude Text Lexer LexerSpec Ast Emit Parser Pieces Literals Reads RoundBasic RoundText RoundMove.

(** Concatenations to the right. *)
Ltac apps := repeat first [progress cbn [app]|rewrite <- (assoc_L (++))].

(** * The name *)

Lemma bump_past_pieces b ps : forall n c pre post, (ntk ps < n)%nat -> S c = ntk (pre ++ ps) ->
  bump_past c n (st (pre ++ ps ++ post) b pre) = Ok (tt, st (pre ++ ps ++ post) b (pre ++ ps)).
Proof.
  induction ps as [|[v|v k] ps IH]; intros n c pre post Hn Hc; (destruct n as [|n]; [lia|]).
  - rewrite app_nil_r in *. cbn [app bump_past]. unfold mbind, P_bind, get_parser. cbn [pos st].
    replace (ntk pre <=? c)%nat with false by (symmetry; apply Nat.leb_gt; lia). by rewrite andb_false_r.
  - cbn [ntk app] in *. specialize (IH (S n) c (pre ++ [Sp v]) post ltac:(lia)). rewrite <- !(assoc_L (++)) in IH. cbn [app] in IH.
    rewrite sp_state in IH. by apply IH.
  - cbn [ntk app bump_past] in *. unfold mbind at 1, P_bind at 1, get_parser. cbn [pos tokens st]. rewrite length_place, !ntk_app in *. cbn [ntk] in *.
    replace (_ <? _)%nat with true by (symmetry; apply Nat.ltb_lt; lia). replace (_ <=? _)%nat with true by (symmetry; apply Nat.leb_le; lia).
    cbn [andb]. rewrite (bind_ok _ _ _ _ _ (bump_st b pre v k (ps ++ post))).
    specialize (IH n c (pre ++ [Tk v k]) post ltac:(lia)). rewrite <- !(assoc_L (++)), !ntk_app in IH. cbn [app ntk] in IH. apply IH. lia.
Qed.

(** The [-> name] pairs behind the first name. *)
Fixpoint chain (ks : list TokenKind) : bool :=
  match ks with [] => true | Arrow :: Ident _ :: ks => chain ks | _ => false end.


Lemma tk_split ps k ks : tkinds ps = k :: ks -> exists bl w rest, ps = bl ++ Tk w k :: rest /\ ntk bl = O /\ tkinds rest = ks.
Proof.
  induction ps as [|[v|v k'] ps IH]; intros H; [done| |].
  - destruct (IH H) as (bl & w & rest & -> & Hb & Hr). by exists (Sp v :: bl), w, rest.
  - cbn in H. simplify_eq. by exists [], v, ps.
Qed.

Lemma blank_state W b pre bl : ntk bl = O -> st W b (pre ++ bl) = st W b pre.
Proof. intros H. unfold st. by rewrite ntk_app, H, Nat.add_0_r. Qed.

(** Empty, or a token last. *)
Definition tight (ps : list piece) : Prop := ps = [] \/ exists qs w k, ps = qs ++ [Tk w k].

Lemma tight_app ps qs : tight (ps ++ qs) -> tight qs.
Proof.
  intros [H|(rs & w & k & H)]; [by apply app_nil in H as [_ ->]; left|]. destruct qs as [|q qs] using rev_ind; [by left|right].
  rewrite (assoc_L (++)) in H. apply app_inj_tail in H as [_ ->]. by exists qs, w, k.
Qed.

Lemma tight_empty ps : tight ps -> tkinds ps = [] -> ps = [].
Proof. intros [?|(qs & w & k & ->)]; [done|]. rewrite tkinds_app. by destruct (tkinds qs). Qed.


Lemma peek_kind_st b pre ps : peek_kind (st (pre ++ ps) b pre) = Ok (hd_kind ps, st (pre ++ ps) b pre).
Proof. unfold peek_kind. rewrite (bind_ok _ _ _ _ _ (peek_st b pre ps)), kind_tok_at. done. Qed.

Lemma at_kind_st b pre ps k : at_kind k (st (pre ++ ps) b pre) = Ok (bool_decide (hd_kind ps = k), st (pre ++ ps) b pre).
Proof. unfold at_kind. by rewrite (bind_ok _ _ _ _ _ (peek_kind_st b pre ps)). Qed.

Lemma chain_pieces b : forall n ps got pre0 post, chain (tkinds ps) = true -> (ntk ps < n)%nat -> hd_kind post = LParen ->
  texts (pre0 ++ got ++ ps ++ post) -> tight ps ->
  method_chain (length (render pre0)) (render got) n (st (pre0 ++ got ++ ps ++ post) b (pre0 ++ got)) =
  Ok (render (got ++ ps), st (pre0 ++ got ++ ps ++ post) b (pre0 ++ got ++ ps)).
Proof.
  induction n as [|n IH]; intros ps got pre0 post Hc Hn Hp Ht Hl; [lia|]. cbn [method_chain].
  destruct (tkinds ps) as [|k ks] eqn:Ek.
  - rewrite (tight_empty ps Hl Ek). cbn [app]. rewrite app_nil_r. rewrite (assoc_L (++) pre0).
    rewrite (bind_ok _ _ _ _ _ (at_kind_st b (pre0 ++ got) post _)). by rewrite Hp.
  - destruct k; try done. destruct ks as [|k2 ks]; [done|]. destruct k2; try done.
    destruct (tk_split _ _ _ Ek) as (b1 & w1 & rest1 & -> & Hb1 & Ek1). destruct (tk_split _ _ _ Ek1) as (b2 & w2 & rest & -> & Hb2 & Ek2).
    set (pre1 := pre0 ++ got ++ b1). set (pre2 := pre1 ++ [Tk w1 Arrow] ++ b2).
    set (got' := got ++ b1 ++ [Tk w1 Arrow] ++ b2 ++ [Tk w2 (Ident name)]).
    set (W := pre0 ++ got ++ (b1 ++ Tk w1 Arrow :: b2 ++ Tk w2 (Ident name) :: rest) ++ post) in *.
    assert (W = pre1 ++ Tk w1 Arrow :: b2 ++ Tk w2 (Ident name) :: rest ++ post) as E1 by (unfold W, pre1; by apps).
    assert (W = pre2 ++ Tk w2 (Ident name) :: rest ++ post) as E2 by (rewrite E1; unfold pre2; by apps).
    assert (W = pre0 ++ got' ++ rest ++ post) as E3 by (rewrite E2; unfold pre2, pre1, got'; by apps).
    assert (pre2 ++ [Tk w2 (Ident name)] = pre0 ++ got') as E4 by (unfold pre2, pre1, got'; by apps).
    assert (st W b (pre0 ++ got) = st W b pre1) as -> by (unfold pre1; rewrite (assoc_L (++)); symmetry; by apply blank_state).
    rewrite E1. rewrite (bind_ok _ _ _ _ _ (at_kind_st b pre1 _ _)). cbn [hd_kind kinds]. rewrite bool_decide_eq_true_2 by done. cbv iota.
    rewrite (bind_ok _ _ _ _ _ (bump_st b pre1 w1 Arrow _)), <- E1.
    assert (st W b (pre1 ++ [Tk w1 Arrow]) = st W b pre2) as -> by (unfold pre2; rewrite (assoc_L (++)); symmetry; by apply blank_state).
    rewrite E2. rewrite (bind_ok _ _ _ _ _ (peek_st b pre2 _)), kind_tok_at. cbn [hd_kind kinds].
    rewrite (bind_ok _ _ _ _ _ (bump_st b pre2 w2 (Ident name) _)), <- E2, tend_tok_at, E4.
    rewrite (bind_ok _ _ _ _ _ (snip_pieces W b pre0 got' (rest ++ post) _ E3 Ht)). rewrite E3 at 1 2.
    assert (tight rest) as Hr by (apply (tight_app ((b1 ++ Tk w1 Arrow :: b2) ++ [Tk w2 (Ident name)])); apps; exact Hl).
    rewrite !ntk_app in Hn. cbn [ntk] in Hn. rewrite ntk_app in Hn. cbn [ntk] in Hn.
    rewrite IH; [|by rewrite Ek2|lia|done|by rewrite <- E3|done].
    rewrite <- E3. by replace (got' ++ rest) with (got ++ b1 ++ Tk w1 Arrow :: b2 ++ Tk w2 (Ident name) :: rest) by (unfold got'; by apps).
Qed.

(** One group of brackets, closed by the last token. *)
Definition group (close : TokenKind) (ks : list TokenKind) : bool :=
  bool_decide (matching_close close 0 0 ks = Some (length ks - 1)%nat).

(** The kinds of a callee. *)
Definition call_start (ks : list TokenKind) : bool :=
  match ks with
  | Ident n :: r => negb (stmt_word n) && chain r
  | LBracket :: _ => group RBracket ks
  | LParen :: _ => group RParen ks
  | _ => false
  end.

Definition call_bare (name : list byte) : bool := call_name_starts_ok name && lexes name.

Definition wf_name (name : list byte) : bool :=
  text_ok name &&
  if call_bare name then call_start (text_kinds name) && negb (bool_decide (head (text_kinds name) = Some LParen))
  else call_start (LParen :: text_kinds name ++ [RParen]).

Lemma lexeme_ident w n rest : lexeme w (Ident n) rest -> w = n.
Proof.
  intros H. inversion H as [? ? ? Hp| | | | | |? ? ? ? Hr|]; subst; [|exfalso|done].
  - unfold punct in Hp. repeat case_match; congruence.
  - unfold number_result in Hr. repeat case_match; congruence.
Qed.

Lemma group_find b pre ps post k close ks : kinds (ps ++ post) = (k :: ks) ++ kinds post -> group close (k :: ks) = true ->
  k = LParen /\ close = RParen \/ k = LBracket /\ close = RBracket ->
  find_matching_close (tokens (st (pre ++ ps ++ post) b pre)) (ntk pre) = Some (ntk pre + length ks)%nat.
Proof.
  intros Er Hg%bool_decide_eq_true Hk. unfold find_matching_close. rewrite kinds_from, Er. cbn [length] in Hg. rewrite Nat.sub_succ, Nat.sub_0_r in Hg.
  pose proof (matching_close_more close (k :: ks) (kinds post) 0 0 _ (ntk pre) Hg) as Hm.
  rewrite Nat.add_0_r in Hm. by destruct Hk as [[-> ->]|[-> ->]].
Qed.

Lemma kinds_split ps post : kinds (ps ++ post) = tkinds ps ++ kinds post.
Proof. induction ps as [|[w|w k] ps IH]; cbn; by rewrite ?IH. Qed.

(** A name, or a chain of them. *)
Lemma reads_chain b w n ps : tight ps -> chain (tkinds ps) = true -> w = n ->
  reads b parse_call_target_name (Tk w (Ident n) :: ps) (render (Tk w (Ident n) :: ps)) (fun post => hd_kind post = LParen).
Proof.
  intros Hl Hc -> pre post Ht Hp. unfold parse_call_target_name. cbn [app]. cbn [app] in Ht.
  rewrite (bind_ok _ _ _ _ _ (peek_st b pre (Tk n (Ident n) :: ps ++ post))). unfold mbind at 1, P_bind at 1, get_parser.
  rewrite kind_tok_at. cbn [hd_kind kinds]. rewrite (bind_ok _ _ _ _ _ (bump_st b pre n (Ident n) (ps ++ post))), tstart_tok_at.
  unfold with_fuel. pose proof (chain_pieces b (S (length (tokens (st (pre ++ Tk n (Ident n) :: ps ++ post) b (pre ++ [Tk n (Ident n)])))))
    ps [Tk n (Ident n)] pre post Hc) as H. rewrite render_tk in H. cbn [app] in H. apply H; [|done|done|done].
  cbn [tokens st]. rewrite length_place, !ntk_app. cbn [ntk]. rewrite ntk_app. lia.
Qed.

(** A bracketed callee is its text. *)
Lemma reads_group b ps : (exists w qs, ps = Tk w LBracket :: qs) -> (exists qs w k, ps = qs ++ [Tk w k]) -> group RBracket (tkinds ps) = true ->
  reads b parse_call_target_name ps (render ps) (fun _ => True).
Proof.
  intros (w & qs & E) (qs' & w' & k' & E') Hg pre post Ht _. unfold parse_call_target_name.
  rewrite (bind_ok _ _ _ _ _ (peek_st b pre (ps ++ post))). unfold mbind at 1, P_bind at 1, get_parser. rewrite kind_tok_at.
  assert (hd_kind (ps ++ post) = LBracket) as -> by by rewrite E. cbv iota.
  change (pos (st (pre ++ ps ++ post) b pre)) with (ntk pre).
  assert (tkinds ps = LBracket :: tkinds qs) as Ek by by rewrite E.
  rewrite (group_find b pre ps post LBracket RBracket (tkinds qs)) by (rewrite ?kinds_split, ?Ek; auto; by rewrite <- Ek).
  cbn [mbind option_bind]. rewrite length_tkinds.
  assert (pre ++ ps ++ post = (pre ++ qs') ++ Tk w' k' :: post) as EW by (rewrite E'; by apps).
  assert ((ntk pre + ntk qs)%nat = ntk (pre ++ qs')) as En.
  { assert (ntk ps = S (ntk qs)) as H1 by by rewrite E. rewrite E', ntk_app in H1. cbn in H1. rewrite ntk_app. lia. }
  rewrite En. cbn [tokens st]. rewrite (tok_look _ _ _ EW). cbn [mbind option_bind]. rewrite tend_tok_at.
  assert ((pre ++ qs') ++ [Tk w' k'] = pre ++ ps) as -> by (rewrite E'; by apps).
  assert (tstart (tok_at pre (ps ++ post)) = length (render pre)) as -> by (rewrite E; apply tstart_tok_at).
  rewrite (bind_ok _ _ _ _ _ (snip_pieces _ b pre ps post _ eq_refl Ht)). erewrite bind_ok; [reflexivity|]. unfold with_fuel.
  apply bump_past_pieces; [cbn [tokens st]; rewrite length_place, !ntk_app; lia|]. rewrite E', (assoc_L (++)), (ntk_app (pre ++ qs')). cbn [ntk]. lia.
Qed.

(** A callee in parentheses is what is between them. *)
Lemma reads_parens_name b ps : tidy (render ps) = true -> group RParen (LParen :: tkinds ps ++ [RParen]) = true ->
  reads b parse_call_target_name (Tk [byte_of 40] LParen :: ps ++ [Tk [byte_of 41] RParen]) (render ps) (fun _ => True).
Proof.
  intros Htd Hg pre post Ht _. unfold parse_call_target_name. set (L := Tk [byte_of 40] LParen :: ps ++ [Tk [byte_of 41] RParen]) in *.
  rewrite (bind_ok _ _ _ _ _ (peek_st b pre (L ++ post))). unfold mbind at 1, P_bind at 1, get_parser. rewrite kind_tok_at.
  change (hd_kind (L ++ post)) with LParen. cbv iota. change (pos (st (pre ++ L ++ post) b pre)) with (ntk pre).
  rewrite (group_find b pre L post LParen RParen (tkinds ps ++ [RParen])) by (rewrite ?kinds_split; unfold L; cbn [tkinds]; rewrite ?tkinds_app; auto).
  cbn [mbind option_bind]. rewrite length_app, length_tkinds. cbn [length].
  assert (pre ++ L ++ post = (pre ++ Tk [byte_of 40] LParen :: ps) ++ Tk [byte_of 41] RParen :: post) as EW by (unfold L; by apps).
  assert ((ntk pre + (ntk ps + 1))%nat = ntk (pre ++ Tk [byte_of 40] LParen :: ps)) as En by (rewrite ntk_app; cbn; lia).
  rewrite En. cbn [tokens st]. rewrite (tok_look _ _ _ EW). cbn [mbind option_bind].
  assert (tend (tok_at pre (L ++ post)) = length (render (pre ++ [Tk [byte_of 40] LParen]))) as -> by apply tend_tok_at.
  rewrite tstart_tok_at. assert (pre ++ Tk [byte_of 40] LParen :: ps = (pre ++ [Tk [byte_of 40] LParen]) ++ ps) as E1 by by apps.
  rewrite E1 at 1. erewrite bind_ok; [|apply (snip_trim_pieces _ b _ ps (Tk [byte_of 41] RParen :: post)); [rewrite EW; by apps|done]].
  erewrite bind_ok.
  2: { unfold with_fuel. apply (bump_past_pieces b L); [cbn [tokens st]; rewrite length_place, !ntk_app; lia|].
       rewrite !ntk_app. unfold L. cbn [ntk]. rewrite ntk_app. cbn. lia. }
  pose proof (trim_tidy [] (render ps) [] eq_refl eq_refl Htd) as E. cbn [app] in E. rewrite app_nil_r in E. by rewrite E.
Qed.

(** The text of a callee as the emitter writes it. *)
Definition emit_name (name : list byte) : list byte := if call_bare name then name else str "(" ++ name ++ str ")".

Lemma name_pieces name : wf_name name = true -> exists N, render N = emit_name name /\ ended N /\ call_start (tkinds N) = true /\
  tkinds N = (if call_bare name then text_kinds name else LParen :: text_kinds name ++ [RParen]) /\
  forall b, reads b parse_call_target_name N name (fun post => hd_kind post = LParen).
Proof.
  unfold wf_name, emit_name. intros [Ht Hc]%andb_prop. destruct (text_pieces name Ht) as (ps & Er & He & Ek & _ & (w & k & qs & E) & Hl).
  destruct (call_bare name) eqn:Eb.
  - apply andb_prop in Hc as [Hc Hp]. exists ps. split_and!; [done|done|by rewrite Ek|done|]. intros b. rewrite <- Er.
    rewrite <- Ek in *. assert (tkinds ps = k :: tkinds qs) as Ek' by by rewrite E. rewrite Ek' in Hc, Hp. destruct k; try done.
    + assert (reads b parse_call_target_name ps (render ps) (fun _ => True)) as R; [|by eapply reads_weaken].
      apply reads_group; [by exists w, qs|done|by rewrite Ek'].
    + cbn [call_start] in Hc. apply andb_prop in Hc as [_ Hc]. rewrite E. apply reads_chain; [|done|].
      * apply (tight_app [Tk w (Ident name0)]). right. cbn [app]. by rewrite <- E.
      * specialize (He [byte_of 10] ltac:(by eexists _, _)). rewrite E in He. destruct He as [He _]. by apply lexeme_ident in He.
  - exists (Tk [byte_of 40] LParen :: ps ++ [Tk [byte_of 41] RParen]). split_and!.
    + rewrite render_cons, render_app, Er. done.
    + intros rest Hr. split; [by apply L_punct|]. apply divides_app. split; [apply He; by eexists _, _|]. split; [by apply L_punct|done].
    + cbn [tkinds]. by rewrite tkinds_app, Ek.
    + cbn [tkinds]. by rewrite tkinds_app, Ek.
    + intros b. assert (reads b parse_call_target_name (Tk [byte_of 40] LParen :: ps ++ [Tk [byte_of 41] RParen]) name (fun _ => True)) as R;
        [|by eapply reads_weaken].
      rewrite <- Er. apply reads_parens_name; [rewrite Er; by apply text_tidy|by rewrite Ek].
Qed.

(** * The arguments *)

(** Brackets balanced, no comma outside them. *)
Fixpoint arg_safe (d : Z) (ks : list TokenKind) : bool :=
  match ks with
  | [] => d =? 0
  | (LParen | LBracket) :: ks => arg_safe (d + 1) ks
  | RParen :: ks => (0 <? d) && arg_safe (d - 1) ks
  | RBracket :: ks => arg_safe (if 0 <? d then d - 1 else d) ks
  | Comma :: ks => negb (d =? 0) && arg_safe d ks
  | Eof :: _ => false
  | _ :: ks => arg_safe d ks
  end.

(** The string the argument is, after some of its tokens. *)
Fixpoint seg_over (d : Z) (seg : option (list byte)) (count : nat) (ks : list TokenKind) : option (list byte) :=
  match ks with
  | [] => seg
  | TString s :: ks => seg_over d (if (count =? 0)%nat then Some s else None) (S count) ks
  | (LParen | LBracket) :: ks => seg_over (d + 1) seg (S count) ks
  | RParen :: ks => seg_over (d - 1) seg (S count) ks
  | RBracket :: ks => if 0 <? d then seg_over (d - 1) seg (S count) ks else seg_over d None (S count) ks
  | _ :: ks => seg_over d None (S count) ks
  end.

Lemma collect_over b start ps post : forall d seg count n pre, arg_safe d (tkinds ps) = true -> (ntk ps <= n)%nat ->
  collect_call_args d start seg count n (st (pre ++ ps ++ post) b pre) =
  collect_call_args 0 start (seg_over d seg count (tkinds ps)) (count + ntk ps) (n - ntk ps) (st (pre ++ ps ++ post) b (pre ++ ps)).
Proof.
  induction ps as [|[v|v k] ps IH]; intros d seg count n pre Hs Hn.
  - cbn in Hs. replace d with 0 by lia. cbn [tkinds seg_over ntk app]. by rewrite Nat.add_0_r, Nat.sub_0_r, app_nil_r.
  - cbn [ntk app tkinds] in *. specialize (IH d seg count n (pre ++ [Sp v]) Hs Hn). rewrite <- !(assoc_L (++)) in IH. cbn [app] in IH.
    by rewrite sp_state in IH.
  - cbn [ntk app tkinds] in *. destruct n as [|n]; [lia|]. cbn [collect_call_args].
    rewrite (bind_ok _ _ _ _ _ (peek_st b pre (Tk v k :: ps ++ post))), kind_tok_at. cbn [hd_kind kinds].
    assert (forall d' seg', arg_safe d' (tkinds ps) = true ->
      (bump ≫= fun _ => collect_call_args d' start seg' (S count) n) (st (pre ++ Tk v k :: ps ++ post) b pre) =
      collect_call_args 0 start (seg_over d' seg' (S count) (tkinds ps)) (count + S (ntk ps)) (S n - S (ntk ps))
        (st (pre ++ Tk v k :: ps ++ post) b (pre ++ Tk v k :: ps))) as Hb.
    { intros d' seg' Hd'. rewrite (bind_ok _ _ _ _ _ (bump_st b pre v k (ps ++ post))).
      specialize (IH d' seg' (S count) n (pre ++ [Tk v k]) Hd' ltac:(lia)). rewrite <- !(assoc_L (++)) in IH. cbn [app] in IH. rewrite IH.
      by rewrite (Nat.add_succ_r count (ntk ps)). }
    destruct k; cbn [arg_safe seg_over] in *; try (by apply Hb); try done.
    + apply andb_prop in Hs as [-> Hs]. by apply Hb.
    + destruct (0 <? d); by apply Hb.
    + apply andb_prop in Hs as [Hd Hs]. apply negb_true_iff in Hd. rewrite Hd. by apply Hb.
Qed.

Definition lone_string (ks : list TokenKind) : bool := match ks with [TString _] => true | _ => false end.

(** An argument as the emitter writes it. *)
Definition wf_arg (a : list byte) : bool :=
  if arg_is_unquoted_safe a then text_ok a && arg_safe 0 (text_kinds a) && negb (lone_string (text_kinds a)) else utf8_valid a.

(** Pieces of one argument. *)
Definition arg_pieces (a : list byte) (ps : list piece) : Prop :=
  render ps = emit_arg a /\ ended ps /\ (exists w k qs, ps = Tk w k :: qs) /\ arg_safe 0 (tkinds ps) = true /\
  (tkinds ps = [TString a] \/ lone_string (tkinds ps) = false /\ a <> [] /\ trim (render ps) = a).

Lemma arg_text a : wf_arg a = true -> exists ps, arg_pieces a ps.
Proof.
  unfold wf_arg, arg_pieces, emit_arg. destruct (arg_is_unquoted_safe a).
  - intros [[Ht Hs]%andb_prop Hl%negb_true_iff]%andb_prop. destruct (text_pieces a Ht) as (ps & Er & He & Ek & _ & Hf & _).
    exists ps. rewrite Ek, Er. split_and!; [done|done|done|done|]. right. split_and!; [done| |by apply trim_text].
    intros ->. done.
  - intros Hu. exists [strT a]. split_and!; [apply render_tk| |by eexists _, _, _|done|by left].
    intros rest _. apply closed_str. by apply utf8_of_valid.
Qed.

Lemma flush_arg W b p pre a ps post : arg_pieces a ps -> W = pre ++ ps ++ post -> texts W ->
  flush_call_arg (length (render pre)) (length (render (pre ++ ps))) (seg_over 0 None 0 (tkinds ps)) (ntk ps) (st W b p) = Ok ([a], st W b p).
Proof.
  intros (_ & _ & (w & k & qs & E) & Hs & Ha) EW Ht. unfold flush_call_arg. assert (ntk ps = S (ntk qs)) as En by by rewrite E.
  rewrite En. destruct Ha as [Ek|(Hl & Hn & Et)].
  - rewrite Ek. cbn. apply (f_equal length) in Ek. rewrite length_tkinds, En in Ek. cbn in Ek. replace (ntk qs) with O by lia. done.
  - assert ((raw ← snip_trim (length (render pre)) (length (render (pre ++ ps))); mret (match raw with [] => [] | _ => [raw] end)) (st W b p)
      = Ok ([a], st W b p)) as Hr.
    { rewrite (bind_ok _ _ _ _ _ (snip_trim_pieces W b pre ps post p EW Ht)), Et. by destruct a. }
    destruct (ntk qs) as [|m] eqn:Eq; [|exact Hr].
    assert (tkinds ps = [k]) as Ek. { rewrite E. cbn [tkinds]. f_equal. apply nil_length_inv. by rewrite length_tkinds. }
    rewrite Ek in *. destruct k; try done; exact Hr.
Qed.

Lemma collect_args b : forall args pss n pre post, Forall2 arg_pieces args pss -> args <> [] -> (ntk (commas pss) < n)%nat ->
  (exists w qs, post = Tk w RParen :: qs) -> texts (pre ++ commas pss ++ post) ->
  collect_call_args 0 (length (render pre)) None 0 n (st (pre ++ commas pss ++ post) b pre) =
  Ok (args, st (pre ++ commas pss ++ post) b (pre ++ commas pss)).
Proof.
  intros args pss n pre post H. revert n pre. induction H as [|a ps args pss Ha H IH]; intros n pre Hn Hf Hp Ht; [done|].
  pose proof Ha as (_ & _ & (w & k & qs & E) & Hs & _). destruct H as [|a' ps' args pss Ha' H].
  - cbn [commas] in *. destruct Hp as (w' & qs' & ->). rewrite (collect_over b _ ps) by (done || lia). cbn [Nat.add].
    destruct (n - ntk ps)%nat as [|m] eqn:Em; [lia|]. cbn [collect_call_args]. rewrite (assoc_L (++)) at 1.
    rewrite (bind_ok _ _ _ _ _ (peek_st b (pre ++ ps) (Tk w' RParen :: qs'))), kind_tok_at. cbn [hd_kind kinds]. rewrite tstart_tok_at.
    rewrite <- (assoc_L (++)). by eapply flush_arg.
  - change (commas (ps :: ps' :: pss)) with (ps ++ comma ++ commas (ps' :: pss)) in *. set (rest := commas (ps' :: pss)) in *.
    set (W := pre ++ (ps ++ comma ++ rest) ++ post) in *. assert (W = pre ++ ps ++ comma ++ rest ++ post) as E1 by (unfold W; by apps).
    assert (W = (pre ++ ps ++ comma) ++ rest ++ post) as E2 by (rewrite E1; by apps).
    assert (W = (pre ++ ps) ++ Tk [byte_of 44] Comma :: Sp [byte_of 32] :: rest ++ post) as E3 by (rewrite E1; by apps).
    rewrite !ntk_app in Hf. change (ntk comma) with 1%nat in Hf.
    rewrite E1 at 1. rewrite (collect_over b _ ps) by (done || lia). cbn [Nat.add]. rewrite <- E1.
    destruct (n - ntk ps)%nat as [|m] eqn:Em; [lia|]. cbn [collect_call_args]. rewrite E3 at 1.
    rewrite (bind_ok _ _ _ _ _ (peek_st b (pre ++ ps) _)), kind_tok_at. cbn [hd_kind kinds]. change (0 =? 0) with true. cbv iota.
    rewrite <- E3, tstart_tok_at, (bind_ok _ _ _ _ _ (flush_arg W b _ pre a ps _ Ha E1 Ht)). rewrite E3 at 1.
    rewrite (bind_ok _ _ _ _ _ (bump_st b (pre ++ ps) _ _ _)), <- E3. rewrite <- (sp_state W b _ [byte_of 32]).
    assert (((pre ++ ps) ++ [Tk [byte_of 44] Comma]) ++ [Sp [byte_of 32]] = pre ++ ps ++ comma) as -> by by apps.
    assert (exists w2 k2 qs2, rest ++ post = Tk w2 k2 :: qs2) as (w2 & k2 & qs2 & E4).
    { destruct Ha' as (_ & _ & (w2 & k2 & qs2 & E') & _). unfold rest. rewrite E'. destruct pss; cbn [commas app]; by do 3 eexists. }
    rewrite E2 at 1. rewrite (bind_ok _ _ _ _ _ (peek_st b (pre ++ ps ++ comma) _)). rewrite E4 at 1. rewrite tstart_tok_at.
    rewrite (bind_ok _ _ _ _ _ (IH m (pre ++ ps ++ comma) ltac:(done) ltac:(lia) Hp ltac:(by rewrite <- E2))).
    rewrite <- E2. unfold mret, P_ret. f_equal. f_equal. f_equal. by apps.
Qed.

(** * The call *)

Lemma expect_st b pre w k ps : expect k (st (pre ++ Tk w k :: ps) b pre) = Ok (tt, st (pre ++ Tk w k :: ps) b (pre ++ [Tk w k])).
Proof.
  unfold expect. rewrite (bind_ok _ _ _ _ _ (peek_st b pre _)), kind_tok_at. cbn [hd_kind kinds]. rewrite decide_True by done.
  by rewrite (bind_ok _ _ _ _ _ (bump_st b pre w k ps)).
Qed.

Lemma expect_in b W pre w k ps p : W = pre ++ Tk w k :: ps -> p = pre ++ [Tk w k] -> expect k (st W b pre) = Ok (tt, st W b p).
Proof. intros -> ->. apply expect_st. Qed.

Lemma reads_in {A} b (m : P A) ps a ok W pre post p : reads b m ps a ok -> texts W -> W = pre ++ ps ++ post -> ok post -> p = pre ++ ps ->
  m (st W b pre) = Ok (a, st W b p).
Proof. intros H Ht -> Hp ->. by apply H. Qed.

Definition targetP (t : option Z) : list piece :=
  match t with Some a => sp1 :: attrsP [{| key := str "target"; avalue := AInt a |}] | None => [] end.

Definition lparT : piece := Tk [byte_of 40] LParen.
Definition rparT : piece := Tk [byte_of 41] RParen.

Definition callP (N : list piece) (pss : list (list piece)) (t : option Z) (bytes : list byte) : list piece :=
  N ++ lparT :: commas pss ++ rparT :: targetP t ++ tailP bytes ++ [Sp nl].

(** The target attribute, if there is one. *)
Definition target_attrs (t : option Z) : list Attribute :=
  match t with Some a => [{| key := str "target"; avalue := AInt a |}] | None => [] end.

Lemma reads_target b t : reads b parse_attrs (targetP t) (target_attrs t) (fun post => hd_kind post <> Hash).
Proof.
  destruct t as [a|]; cbn [targetP target_attrs].
  - apply reads_sp. eapply reads_weaken; [apply reads_attrs|done].
  - by apply reads_no_attrs.
Qed.

Lemma find_target t : find_int_attr (str "target") (target_attrs t) = t.
Proof. by destruct t. Qed.

(** The last token ends on the line it is on. *)
Definition ends_line (X : list piece) : Prop := exists qs w k, X = qs ++ [Tk w k] /\ no_nl w = true.

Lemma targetP_end t : ends_line (rparT :: targetP t).
Proof.
  destruct t as [a|]; [|by exists [], [byte_of 41], RParen]. exists (rparT :: sp1 :: [Tk [byte_of 35] Hash; Tk [byte_of 91] LBracket] ++
    commas (map attrP [{| key := str "target"; avalue := AInt a |}])), [byte_of 93], RBracket.
  split; [unfold targetP, attrsP; expand_C; by apps|done].
Qed.

Lemma args_start pss args post : Forall2 arg_pieces args pss -> hd_kind (commas pss ++ rparT :: post) = RParen <-> args = [].
Proof.
  destruct 1 as [|a ps args pss (_ & _ & (w & k & qs & ->) & Hs & _) H]; [done|]. split; [|done]. intros E. exfalso.
  assert (k = RParen) as -> by (destruct pss; exact E). done.
Qed.

Lemma parse_args b args pss pre post : Forall2 arg_pieces args pss -> texts (pre ++ commas pss ++ rparT :: post) ->
  (first ← peek; if decide (kind first = RParen) then mret [] else with_fuel (collect_call_args 0 (tstart first) None 0))
    (st (pre ++ commas pss ++ rparT :: post) b pre) = Ok (args, st (pre ++ commas pss ++ rparT :: post) b (pre ++ commas pss)).
Proof.
  intros Ha Ht. rewrite (bind_ok _ _ _ _ _ (peek_st b pre _)), kind_tok_at. destruct (decide (args = [])) as [E|E].
  - rewrite decide_True by by apply (args_start pss args). subst. inversion Ha; subst. cbn [commas app]. by rewrite app_nil_r.
  - rewrite decide_False by (by intros H; apply E, (args_start pss args post)).
    assert (tstart (tok_at pre (commas pss ++ rparT :: post)) = length (render pre)) as ->.
    { destruct Ha as [|a ps args pss (_ & _ & (w & k & qs & ->) & _) H]; [done|]. destruct pss; apply tstart_tok_at. }
    unfold with_fuel. apply collect_args; [done|done| |by exists [byte_of 41], post|done].
    cbn [tokens st]. rewrite length_place, !ntk_app. lia.
Qed.

Lemma parse_tail b pre X post bytes : ends_line X -> texts (pre ++ X ++ tailP bytes ++ Sp nl :: post) ->
  forall name args attrs,
  (s ← get_parser;
   let call_line := match tokens s !! (pos s - 1)%nat with Some t => line t | None => O end in
   tok ← peek;
   bytes ← if bool_decide (kind tok = LBracket) && (line tok =? call_line)%nat && is_byte_list_block (tokens s) (pos s)
           then parse_byte_list else mret [];
   mret (Call name args bytes (find_int_attr (str "target") attrs)))
    (st (pre ++ X ++ tailP bytes ++ Sp nl :: post) b (pre ++ X)) =
  Ok (Call name args bytes (find_int_attr (str "target") attrs), st (pre ++ X ++ tailP bytes ++ Sp nl :: post) b (pre ++ X ++ tailP bytes)).
Proof.
  intros (qs & w & k & EX & Hw) Ht name args attrs. set (W := pre ++ X ++ tailP bytes ++ Sp nl :: post) in *.
  unfold mbind at 1, P_bind at 1, get_parser. change (pos (st W b (pre ++ X))) with (ntk (pre ++ X)). cbn [tokens st].
  assert (W = (pre ++ qs) ++ Tk w k :: tailP bytes ++ Sp nl :: post) as E1 by (unfold W; rewrite EX; by apps).
  assert ((ntk (pre ++ X) - 1)%nat = ntk (pre ++ qs)) as -> by (rewrite EX, (assoc_L (++)), (ntk_app (pre ++ qs)); cbn [ntk]; lia).
  rewrite (tok_look _ _ _ E1), line_tok. assert (line_of (pre ++ qs) = line_of (pre ++ X)) as -> by
    (rewrite EX, (assoc_L (++)); symmetry; apply line_app; by rewrite render_tk).
  destruct (decide (bytes = [])) as [E|E].
  - assert (W = ((pre ++ X) ++ [Sp nl]) ++ post) as E2 by (unfold W; rewrite E; by apps).
    assert (peek (st W b (pre ++ X)) = Ok (tok_at ((pre ++ X) ++ [Sp nl]) post, st W b (pre ++ X))) as Ep.
    { rewrite <- (sp_state W b (pre ++ X) nl), E2. apply peek_st. }
    rewrite (bind_ok _ _ _ _ _ Ep). pose proof (next_line (pre ++ X) post).
    replace (_ =? _)%nat with false by (symmetry; apply Nat.eqb_neq; lia). rewrite andb_false_r, E. cbn [tailP]. by rewrite app_nil_r.
  - set (pre1 := (pre ++ X) ++ [sp1]). assert (W = pre1 ++ bytesP bytes ++ Sp nl :: post) as E2 by (unfold W, pre1; rewrite (tailP_bytes bytes E); by apps).
    assert (peek (st W b (pre ++ X)) = Ok (tok_at pre1 (bytesP bytes ++ Sp nl :: post), st W b (pre ++ X))) as Ep.
    { rewrite <- (sp_state W b (pre ++ X) [byte_of 32]), E2. apply peek_st. }
    rewrite (bind_ok _ _ _ _ _ Ep), kind_tok_at.
    assert (line (tok_at pre1 (bytesP bytes ++ Sp nl :: post)) = line_of (pre ++ X)) as ->.
    { unfold bytesP. expand_C. rewrite line_tok. by apply line_app. }
    assert (hd_kind (bytesP bytes ++ Sp nl :: post) = LBracket) as -> by (unfold bytesP; by expand_C).
    assert (is_byte_list_block (place 0 (1, 1)%nat W) (ntk (pre ++ X)) = true) as ->.
    { rewrite is_byte_list_block_kinds. assert (ntk (pre ++ X) = ntk pre1) as -> by (unfold pre1; rewrite (ntk_app (pre ++ X)); cbn; lia).
      rewrite (kinds_look _ _ _ E2), kinds_split. apply block_bytes. }
    rewrite Nat.eqb_refl, bool_decide_eq_true_2 by done. cbn [andb].
    assert (st W b (pre ++ X) = st W b pre1) as -> by (unfold pre1; by rewrite sp_state).
    pose proof (reads_bytes b bytes pre1 (Sp nl :: post)) as R. rewrite <- E2 in R.
    rewrite (bind_ok _ _ _ _ _ (R Ht I)). unfold mret, P_ret. f_equal. f_equal. f_equal. unfold pre1. rewrite (tailP_bytes bytes E). by apps.
Qed.

Lemma reads_call b name args N pss t bytes : reads b parse_call_target_name N name (fun post => hd_kind post = LParen) ->
  Forall2 arg_pieces args pss ->
  reads b parse_call_stmt (callP N pss t bytes) (Call name args bytes t) (fun post => hd_kind post <> Hash).
Proof.
  intros HN Ha pre post Ht Hp. unfold parse_call_stmt.
  set (rest := tailP bytes ++ Sp nl :: post). set (W := pre ++ callP N pss t bytes ++ post) in *.
  set (p1 := pre ++ N). set (p2 := p1 ++ [lparT]). set (p3 := p2 ++ commas pss). set (p4 := p3 ++ [rparT]).
  rewrite (bind_ok _ _ _ _ _ (reads_in b _ N name _ W pre (lparT :: commas pss ++ rparT :: targetP t ++ rest) p1 HN Ht
    ltac:(unfold W, callP, rest; by apps) eq_refl eq_refl)).
  rewrite (bind_ok _ _ _ _ _ (expect_in b W p1 [byte_of 40] LParen (commas pss ++ rparT :: targetP t ++ rest) p2
    ltac:(unfold W, callP, rest, p1; by apps) eq_refl)).
  assert (W = p2 ++ commas pss ++ rparT :: targetP t ++ rest) as E2 by (unfold W, callP, rest, p2, p1; by apps).
  pose proof (parse_args b args pss p2 (targetP t ++ rest) Ha) as R2. rewrite <- E2 in R2. specialize (R2 Ht).
  unfold mbind, P_bind in R2 |- *. destruct (peek (st W b p2)) as [[first s2]| |]; [|done|done]. rewrite R2. fold p3.
  rewrite (expect_in b W p3 [byte_of 41] RParen (targetP t ++ rest) p4) by
    (reflexivity || (unfold W, callP, rest, p3, p2, p1; by apps)).
  rewrite (reads_in b _ (targetP t) _ _ W p4 rest (p4 ++ targetP t) (reads_target b t) Ht); [| |by destruct bytes|done].
  2: { unfold W, callP, rest, p4, p3, p2, p1; by apps. }
  assert (W = p3 ++ (rparT :: targetP t) ++ tailP bytes ++ Sp nl :: post) as E5 by (unfold W, callP, p3, p2, p1; by apps).
  pose proof (parse_tail b p3 (rparT :: targetP t) post bytes (targetP_end t)) as R5. rewrite <- E5 in R5.
  specialize (R5 Ht name args (target_attrs t)). unfold mbind, P_bind in R5.
  assert (p4 ++ targetP t = p3 ++ rparT :: targetP t) as -> by (unfold p4; by apps). refine (eq_trans R5 _). rewrite find_target. f_equal. f_equal.
  assert (pre ++ callP N pss t bytes = (p3 ++ (rparT :: targetP t) ++ tailP bytes) ++ [Sp nl]) as -> by (unfold callP, p3, p2, p1; by apps).
  by rewrite sp_state.
Qed.

(** * Calls as statements *)

Lemma chain_arrow r : forall saw l, chain r = true -> arrow_chain saw (r ++ LParen :: l) = saw || negb (bool_decide (r = [])).
Proof.
  revert r. fix IH 1. intros [|k [|k' r]] saw l H.
  - by destruct saw.
  - by destruct k.
  - destruct k; try done. destruct k'; try done. cbn [app arrow_chain]. rewrite (IH r true l H). by destruct saw.
Qed.

Lemma reads_call_start b ps s ok ks : reads b parse_call_stmt ps s ok ->
  (forall post, starts (ks ++ [LParen]) (ps ++ post)) -> call_start ks = true -> reads b parse_call_or_move_stmt ps s ok.
Proof.
  intros H Hs Hm pre post Ht Hp. specialize (H pre post Ht Hp). specialize (Hs post). unfold parse_call_or_move_stmt.
  rewrite (bind_ok _ _ _ _ _ (peek_st b pre (ps ++ post))). unfold mbind at 1, P_bind at 1, get_parser. rewrite kind_tok_at.
  change (pos (st (pre ++ ps ++ post) b pre)) with (ntk pre). destruct Hs as [r Er]. unfold hd_kind. rewrite Er.
  destruct ks as [|k ks]; [done|]. cbn [app].
  assert (forall close, k = LParen /\ close = RParen \/ k = LBracket /\ close = RBracket -> group close (k :: ks) = true ->
    (c ← find_matching_close (tokens (st (pre ++ ps ++ post) b pre)) (ntk pre);
     kind <$> tokens (st (pre ++ ps ++ post) b pre) !! (c + 1)%nat) = Some LParen) as Hc.
  { intros close Hk Hg%bool_decide_eq_true. cbn [length] in Hg. rewrite Nat.sub_succ, Nat.sub_0_r in Hg.
    assert (find_matching_close (tokens (st (pre ++ ps ++ post) b pre)) (ntk pre) = Some (ntk pre + length ks)%nat) as ->.
    { unfold find_matching_close. rewrite kinds_from, Er, <- (assoc_L (++)).
      pose proof (matching_close_more close (k :: ks) ([LParen] ++ r) 0 0 _ (ntk pre) Hg) as Hm'.
      rewrite Nat.add_0_r in Hm'. by destruct Hk as [[-> ->]|[-> ->]]. }
    cbn [mbind option_bind]. rewrite <- Nat.add_assoc, kind_lookup, Er, Nat.add_1_r, <- (assoc_L (++)). cbn [app].
    exact (list_lookup_middle ks r LParen (length ks) eq_refl). }
  destruct k; try done; cbn [call_start] in Hm.
  - rewrite (Hc RParen); [exact H|by left|exact Hm].
  - rewrite (Hc RBracket); [exact H|by right|exact Hm].
  - apply andb_prop in Hm as [_ Hm].
    assert (lookahead_is_method_call (tokens (st (pre ++ ps ++ post) b pre)) (ntk pre) = negb (bool_decide (ks = []))) as ->.
    { unfold lookahead_is_method_call. rewrite <- drop_drop, <- skipn_map.
      replace (map kind (drop (ntk pre) (tokens (st (pre ++ ps ++ post) b pre)))) with (kinds (ps ++ post)) by (symmetry; apply kinds_from).
      rewrite Er, <- (assoc_L (++)). cbn [app]. change (drop 1 (?x :: ?l)) with l. by apply (chain_arrow ks false r). }
    rewrite (kind_lookup b pre (ps ++ post) 1), Er, <- (assoc_L (++)). cbn [app lookup list_lookup]. destruct ks; [exact H|]. by rewrite (bool_decide_eq_false_2 (_ :: _ = [])), orb_true_r by done.
Qed.

Definition wf_call (name : list byte) (args : list (list byte)) (t : option Z) : bool :=
  wf_name name && forallb wf_arg args && match t with Some a => u64_ok a | None => true end.

Lemma args_pieces args : forallb wf_arg args = true -> exists pss, Forall2 arg_pieces args pss.
Proof.
  induction args as [|a args IH]; [by exists []|]. intros [Ha Hl]%andb_prop. destruct (arg_text a Ha) as [ps Hps], (IH Hl) as [pss Hpss].
  exists (ps :: pss). by constructor.
Qed.

Lemma ended_commas args pss : Forall2 arg_pieces args pss -> ended (commas pss).
Proof.
  induction 1 as [|a ps args pss (_ & He & _) H IH]; [by intros rest|]. destruct pss as [|ps' pss]; [done|].
  change (commas (ps :: ps' :: pss)) with (ps ++ comma ++ commas (ps' :: pss)). intros rest Hr. apply divides_app.
  split; [apply He; by eexists _, _|]. apply divides_app. split; [by apply closed_const|by apply IH].
Qed.

Lemma closed_target t : match t with Some a => u64_ok a | None => true end = true -> closed (targetP t).
Proof.
  destruct t as [a|]; [|intros _; apply closed_nil]. intros Ha. apply (closed_app [sp1]); [by apply closed_blank|]. apply closed_attrs.
  cbn [forallb]. unfold wf_attr. cbn [key avalue]. by rewrite Ha.
Qed.

Lemma call_stmt name args bytes t : wf_call name args t = true -> exists ps ks,
  render ps = emit_call [] name args bytes t /\ closed ps /\ call_start ks = true /\ (forall post, starts (ks ++ [LParen]) (ps ++ post)) /\
  ks = (if call_bare name then text_kinds name else LParen :: text_kinds name ++ [RParen]) /\
  forall b list one sw, reads b (parse_stmt list one sw) ps (Call name args bytes t) (fun post => hd_kind post <> Hash).
Proof.
  unfold wf_call. intros [[Hn Ha]%andb_prop Ht]%andb_prop. destruct (name_pieces name Hn) as (N & Er & He & Hc & Ek & HN), (args_pieces args Ha) as [pss Hp].
  assert (forall post, starts (tkinds N ++ [LParen]) (callP N pss t bytes ++ post)) as Hs.
  { intros post. unfold starts, callP. rewrite kinds_split, tkinds_app. unfold lparT at 1. cbn [tkinds]. eexists. apps. reflexivity. }
  exists (callP N pss t bytes), (tkinds N). split_and!; [| |done|done|done|].
  - unfold callP, emit_call. fold (call_bare name). fold (emit_name name). rewrite !render_app, Er, render_cons, render_app, render_commas, render_cons, !render_app.
    cbn [app]. assert (map render pss = map emit_arg args) as ->.
    { clear -Hp. induction Hp as [|a ps args pss (E & _) H IH]; [done|]. cbn [map]. by rewrite E, IH. }
    assert (render (targetP t) = match t with Some t => str " #[target=" ++ hex_lit t ++ str "]" | None => [] end) as ->.
    { destruct t as [a|]; [|done]. cbn [targetP]. by rewrite render_cons, render_attrs. }
    assert (render (tailP bytes) ++ render [Sp nl] = opt_bytes bytes) as ->; [|done].
    destruct bytes as [|c bytes]; [done|]. cbn [tailP]. rewrite render_cons, render_bytes. unfold opt_bytes. by rewrite <- !(assoc_L (++)).
  - unfold callP. apply ended_closed_app; [done|by intros rest; eexists _, _|]. apply (closed_app [lparT]); [by apply closed_const|].
    apply ended_closed_app; [by eapply ended_commas|by intros rest; eexists _, _|]. apply (closed_app [rparT]); [by apply closed_const|].
    apply closed_app; [by apply closed_target|apply closed_tail].
  - intros b list one sw. eapply (reads_dispatch b _ _ _ (tkinds N ++ [LParen])); [| |].
    + apply (reads_call_start b _ _ _ (tkinds N)); [by apply reads_call|done|done].
    + intros post _. apply Hs.
    + destruct (tkinds N) as [|k ks]; [done|]. destruct k; try done. cbn [call_start app] in *. apply andb_prop in Hc as [Hw Hc]. rewrite Hw.
      destruct ks as [|k ks]; cbn [app]; [by rewrite bool_decide_eq_false_2, andb_false_r|]. destruct k; try done. by rewrite bool_decide_eq_false_2, andb_false_r.
Qed.
