(* ===== verification/RoundStmt.v ===== *)
(** Statements: the parser reads back what the emitter wrote for each. *)

From S2P Require Import Prelude Text X86Prologue X86CondText Lexer LexerSpec Ast Emit Parser Pieces Literals Reads RoundBasic RoundText RoundMove RoundCall.

(** Conjunctions of tests, apart. *)
Ltac bools := repeat match goal with H : _ && _ = true |- _ => apply andb_prop in H as [? ?] end.

(** * What is shown of a statement *)

Definition late_word (w : list byte) : bool := str_eqb w (str "else") || str_eqb w (str "let").
Definition arm_word (w : list byte) : bool := str_eqb w (str "then") || str_eqb w (str "else").

(** The first kinds of a statement. *)
Definition stmt_start (ks : list TokenKind) : bool :=
  match ks with
  | At :: Ident w :: _ => negb (arm_word w)
  | Ident w :: _ => negb (late_word w)
  | (Comment _ | LBracket | LParen | Dollar) :: _ => true
  | _ => false
  end.

(** The kinds that may follow a statement. *)
Definition follows (k : TokenKind) : bool :=
  match k with
  | RBrace | At | Comment _ | LBracket | LParen | Dollar => true
  | Ident w => negb (late_word w)
  | _ => false
  end.

(** A return whose bytes are left out: the parser takes a bracket behind it
    for them. *)
Definition bare_return (s : Stmt) : bool := match s with Return _ [] => true | _ => false end.

Definition after (s : Stmt) (post : list piece) : Prop :=
  follows (hd_kind post) = true /\ (bare_return s = true -> hd_kind post <> LBracket).

(** Its text starts with a bracket. *)
Definition opens_bracket (s : Stmt) : bool :=
  match s with
  | Move t _ _ | RegArith t _ _ _ => bool_decide (head (text_kinds t) = Some LBracket)
  | Call t _ _ _ => call_bare t && bool_decide (head (text_kinds t) = Some LBracket)
  | _ => false
  end.

Record shape (s : Stmt) (ps : list piece) : Prop := {
  sh_closed : closed ps;
  sh_start : exists ks, (forall post, starts ks (ps ++ post)) /\ stmt_start ks = true /\ (head ks = Some LBracket -> opens_bracket s = true);
}.

(** Read at any place, whatever the recursion does. *)
Definition simple_ok (b : Z) (sw : bool) (s : Stmt) (ps : list piece) : Prop :=
  shape s ps /\ forall list one, reads b (parse_stmt list one sw) ps s (after s).

Lemma starts_sp ks w ps : starts ks (Sp w :: ps) <-> starts ks ps.
Proof. done. Qed.

Lemma simple_indent b sw s ps n : simple_ok b sw s ps -> simple_ok b sw s (Sp (spaces n) :: ps).
Proof.
  intros [[Hc (ks & Hs & Hk)] H]. split; [split|].
  - apply (closed_app [Sp (spaces n)]); [apply closed_blank, blank_spaces|done].
  - exists ks. split; [|done]. intros post. apply starts_sp, Hs.
  - intros list one. apply reads_sp, H.
Qed.

Lemma after_not s post k : after s post -> follows k = false -> hd_kind post <> k.
Proof. intros [H _] Hk E. congruence. Qed.

(** * Directives *)

#[export] Hint Extern 0 (closed [Sp _]) => apply closed_blank; reflexivity : seg.

Lemma reads_close {A} b (f : list byte -> A) bytes ok :
  reads b (bytes ← bytes_close; mret (f bytes)) (bytesP bytes ++ C (str ")") ++ [Sp nl]) (f bytes) ok.
Proof.
  unfold bytes_close. apply reads_assoc. eapply reads_bind; [apply reads_bytes| |done]. expand_C. rd.
Qed.

(** Where a constant starts a statement. *)
Ltac start_tac ks := exists ks; split; [intros post; expand_C; eexists; reflexivity|split; [reflexivity|discriminate]].

Definition bytes_tail (bytes : list byte) : list piece := bytesP bytes ++ C (str ")") ++ [Sp nl].

Lemma closed_bytes_tail bytes : closed (bytes_tail bytes).
Proof. unfold bytes_tail. apply closed_app; [apply closed_bytes|]. apply closed_app; [by apply closed_const|by apply closed_blank]. Qed.

Lemma opens_bytes_tail bytes : opens (bytes_tail bytes).
Proof. unfold bytes_tail. apply opens_app, opens_bytes. Qed.
#[export] Hint Resolve closed_bytes_tail opens_bytes_tail : seg.

Lemma render_bytes_tail bytes : render (bytes_tail bytes) = str "[" ++ emit_byte_list bytes ++ str "])" ++ nl.
Proof. unfold bytes_tail. rewrite !render_app, render_bytes. apps. reflexivity. Qed.

Ltac dir_tac := unfold parse_stmt; expand_C; rd; unfold parse_stmt_at_directive; rd; unfold parse_simple_directive; rd.
Ltac dir_render := cbn [emit_simple]; unfold directive; rewrite !render_app, ?render_bytes_tail, ?render_tk; apps; reflexivity.
Ltac dir_stmt ps name :=
  exists ps; split; [dir_render|split; [split; [segs|start_tac [At; Ident name]]|intros list one; dir_tac; first [apply reads_close|idtac]]].

Definition s64_ok (n : Z) : bool := (- 2 ^ 63 <=? n) && (n <? 2 ^ 63).

Lemma s64_ok_range n : s64_ok n = true -> - 2 ^ 63 <= n < 2 ^ 63.
Proof. unfold s64_ok. lia. Qed.

Lemma s64_back n : s64_ok n = true -> sint 64 (wrap 64 n) = n.
Proof.
  intros H%s64_ok_range. unfold sint, wrap. change (2 ^ (64 - 1)) with (2 ^ 63).
  destruct (Z.leb_spec 0 n); [rewrite Z.mod_small by lia|rewrite <- (Z.mod_add n 1), Z.mod_small by lia]; case_match; lia.
Qed.
#[export] Hint Resolve s64_ok_range : seg.

(** Directives that carry text, numbers and bytes. *)
Definition wf_directive (s : Stmt) : bool :=
  match s with
  | Asm text _ | Save text _ | RestoreReg text _ => utf8_valid text
  | SehInstall _ | SehRestore _ => true
  | ArgSpill i _ => (0 <=? i) && (i <? 2 ^ 32)
  | LocalSet slot value _ => s64_ok slot && s64_ok value
  | LocalArith slot op value _ | LocalCompound slot op value _ => s64_ok slot && utf8_valid op && s64_ok value
  | Inc16 lo hi _ => utf8_valid lo && utf8_valid hi
  | _ => false
  end.

Lemma directive_stmt printable b sw s : wf_directive s = true -> exists ps,
  render ps = emit_simple printable s [] /\ simple_ok b sw s ps.
Proof.
  intros H. destruct s; try done; cbn [wf_directive] in H; bools.
  - destruct bytes as [|c bytes].
    + dir_stmt (C (str "@asm(") ++ [strT text] ++ C (str ")") ++ [Sp nl]) (str "asm").
    + dir_stmt (C (str "@asm(") ++ [strT text] ++ C (str ", ") ++ bytes_tail (c :: bytes)) (str "asm").
      eapply reads_bind; [apply reads_bytes| |done]. expand_C. rd.
  - dir_stmt (C (str "@save(") ++ [strT reg] ++ C (str ", ") ++ bytes_tail bytes) (str "save").
  - dir_stmt (C (str "@restore(") ++ [strT reg] ++ C (str ", ") ++ bytes_tail bytes) (str "restore").
  - dir_stmt (C (str "@seh_install(") ++ bytes_tail bytes) (str "seh_install").
  - dir_stmt (C (str "@seh_restore(") ++ bytes_tail bytes) (str "seh_restore").
  - assert (in_range 64 arg_index) by (unfold in_range; lia).
    dir_stmt (C (str "@arg_spill(") ++ [decT arg_index] ++ C (str ", ") ++ bytes_tail bytes) (str "arg_spill").
    replace (2 ^ 32 - 1 <? arg_index) with false by lia. rd. apply reads_close.
  - dir_stmt (C (str "@local_set(") ++ [signedT slot] ++ C (str ", ") ++ [signedT value] ++ C (str ", ") ++ bytes_tail bytes) (str "local_set").
    rewrite !s64_back by done. apply reads_close.
  - dir_stmt (C (str "@local_arith(") ++ [signedT slot] ++ C (str ", ") ++ [strT op] ++ C (str ", ") ++ [signedT value] ++ C (str ", ") ++
      bytes_tail bytes) (str "local_arith").
    rewrite !s64_back by done. apply reads_close.
  - dir_stmt (C (str "@local_compound(") ++ [signedT dst] ++ C (str ", ") ++ [strT op] ++ C (str ", ") ++ [signedT src] ++ C (str ", ") ++
      bytes_tail bytes) (str "local_compound").
    rewrite !s64_back by done. apply reads_close.
  - dir_stmt (C (str "@inc16(") ++ [strT lo] ++ C (str ", ") ++ [strT hi] ++ C (str ", ") ++ bytes_tail bytes) (str "inc16").
Qed.

(** * Prologues and epilogues *)

(** The field starts with its name. *)
Definition named (f : list piece) : Prop := exists name ps, f = idT name :: ps.

Lemma named_regs name regs : Forall named (regsF name regs).
Proof. unfold regsF. destruct regs; constructor; [|done]. by eexists _, _. Qed.
Lemma named_num name n : Forall named (numF name n).
Proof. unfold numF. case_match; constructor; [|done]. by eexists _, _. Qed.
Lemma named_flag f text : named (C text) -> Forall named (flagF f text).
Proof. unfold flagF. intros H. destruct f; constructor; [exact H|constructor]. Qed.

Ltac named_tac :=
  lazymatch goal with
  | |- Forall named (regsF _ _) => apply named_regs
  | |- Forall named (numF _ _) => apply named_num
  | |- Forall named (flagF _ (str _)) => apply named_flag; unfold named; expand_C; eexists _, _; reflexivity
  end.

Lemma named_prologue p : Forall named (prologueF p).
Proof. unfold prologueF. rewrite !Forall_app. split_and!; try named_tac. destruct (pp_frame_alt p); named_tac. Qed.
Lemma named_epilogue e : Forall named (epilogueF e).
Proof. unfold epilogueF. rewrite !Forall_app. split_and!; try named_tac. destruct (ep_leave e); named_tac. Qed.

Lemma named_first fs : Forall named fs -> (forall f, f ∈ fs -> forall post, hd_kind (f ++ post) <> LBracket) /\ Forall (fun f => 0 < ntk f)%nat fs.
Proof.
  intros H. split.
  - intros f Hf post. rewrite Forall_forall in H. destruct (H f Hf) as (name & ps & ->). done.
  - eapply Forall_impl; [exact H|]. intros f (name & ps & ->). cbn. lia.
Qed.

(** The bytes are those the fields encode to. *)
Definition encodes (r : res unit (list byte)) (bytes : list byte) : bool := match r with Ok bs => str_eqb bs bytes | _ => false end.

Lemma encodes_ok r bytes : encodes r bytes = true -> r = Ok bytes.
Proof. unfold encodes, str_eqb. destruct r as [bs| |]; [|done|done]. intros ->%bool_decide_eq_true. done. Qed.

Definition wf_frame (b : Z) (s : Stmt) : bool :=
  match s with
  | Prologue kind None _ | Epilogue kind None _ => utf8_valid kind
  | Prologue kind (Some p) bytes => utf8_valid kind && wf_prologue p && encodes (encode_prologue_bytes p b) bytes
  | Epilogue kind (Some e) bytes => utf8_valid kind && wf_epilogue e && encodes (encode_epilogue_bytes e b) bytes
  | _ => false
  end.

Lemma reads_plain_frame {A} b (dflt : A) params enc (mk : list byte -> option A -> list byte -> Stmt) k bytes ok :
  reads b (parse_frame_directive dflt params enc mk) (C (str "(") ++ [strT k] ++ C (str ", ") ++ bytes_tail bytes) (mk k None bytes) ok.
Proof.
  unfold parse_frame_directive. expand_C. rd. apply reads_get. intros pre post _. cbv iota. rd. unfold bytes_tail.
  apply (reads_at_kind _ _ true); [intros; unfold bytesP; by expand_C|]. cbv iota.
  eapply reads_bind; [apply reads_bytes| |done]. expand_C. rd.
Qed.

Lemma closed_frame fs k : Forall seg fs -> utf8 k -> closed (C (str "(") ++ [strT k] ++ fieldsP fs ++ C (str ")")).
Proof.
  intros H Hk. apply closed_app; [by apply closed_const|]. apply closed_app; [by apply closed_str|].
  apply seg_closed_app; [by apply seg_fields|opens_tac|by apply closed_const].
Qed.

Lemma closed_word w ps : const_ok true (C w) = true -> opens ps -> closed ps -> closed (C w ++ ps).
Proof. intros H Ho Hc. apply seg_closed_app; [by apply seg_const|done|done]. Qed.

Lemma reads_line {A} b (m : P A) ps a : reads b m ps a (fun _ => True) -> reads b m (ps ++ [Sp nl]) a (fun _ => True).
Proof.
  intros H pre post Ht _. assert (pre ++ ps ++ [Sp nl] = (pre ++ ps) ++ [Sp nl]) as -> by by apps. rewrite sp_state.
  rewrite <- (assoc_L (++)) in *. by apply (H pre ([Sp nl] ++ post)).
Qed.

Lemma reads_directive_word b list one sw name ps s : name <> str "if_branch" -> name <> str "loop" ->
  (forall t, reads b (parse_simple_directive name t) ps s (fun _ => True)) ->
  reads b (parse_stmt list one sw) (Tk [byte_of 64] At :: idT name :: ps) s (after s).
Proof.
  intros H1 H2 H. apply (reads_weaken _ _ _ (fun _ => True)); [|done]. unfold parse_stmt. rd. unfold parse_stmt_at_directive. rewrite !decide_False by done.
  apply H.
Qed.

Lemma frame_stmt printable b sw s : wf_frame b s = true -> exists ps, render ps = emit_simple printable s [] /\ simple_ok b sw s ps.
Proof.
  intros H. destruct s as [| | |kind params bytes|kind params bytes| | | | | | | | | | | | | | | | | | | | | |]; try done; cbn [wf_frame] in H.
  - destruct params as [p|]; bools.
    + exists (C (str "@prologue") ++ (C (str "(") ++ [strT kind] ++ fieldsP (prologueF p) ++ C (str ")")) ++ [Sp nl]). split; [|split; [split|]].
      * cbn [emit_simple emit_prologue]. rewrite !render_app, render_prologueF, render_tk. apps. reflexivity.
      * apply closed_word; [by vm_compute|apply opens_app; opens_tac|]. apply closed_app; [|by apply closed_blank]. apply closed_frame; [by apply seg_prologueF|auto with seg].
      * start_tac [At; Ident (str "prologue")].
      * intros list one. change (C (str "@prologue")) with [Tk [byte_of 64] At; idT (str "prologue")].
        apply reads_directive_word; [discriminate..|]. intros t. apply reads_line.
        destruct (named_first _ (named_prologue p)) as [Hb Hn].
        by apply (reads_frame b default_prologue_params p parse_prologue_field (prologueG p)); [apply prologue_fields|apply prologueG_ok|apply encodes_ok| |].
    + exists (C (str "@prologue") ++ (C (str "(") ++ [strT kind] ++ C (str ", ") ++ bytes_tail bytes)). split; [|split; [split|]].
      * cbn [emit_simple emit_prologue]. unfold directive. rewrite !render_app, render_bytes_tail, render_tk. apps. reflexivity.
      * apply closed_word; [by vm_compute|opens_tac|segs].
      * start_tac [At; Ident (str "prologue")].
      * intros list one. change (C (str "@prologue")) with [Tk [byte_of 64] At; idT (str "prologue")].
        apply reads_directive_word; [discriminate..|]. intros t. apply reads_plain_frame.
  - destruct params as [e|]; bools.
    + exists (C (str "@epilogue") ++ (C (str "(") ++ [strT kind] ++ fieldsP (epilogueF e) ++ C (str ")")) ++ [Sp nl]). split; [|split; [split|]].
      * cbn [emit_simple emit_epilogue]. rewrite !render_app, render_epilogueF, render_tk. apps. reflexivity.
      * apply closed_word; [by vm_compute|apply opens_app; opens_tac|]. apply closed_app; [|by apply closed_blank].
        apply closed_frame; [by apply seg_epilogueF|auto with seg].
      * start_tac [At; Ident (str "epilogue")].
      * intros list one. change (C (str "@epilogue")) with [Tk [byte_of 64] At; idT (str "epilogue")].
        apply reads_directive_word; [discriminate..|]. intros t. apply reads_line.
        destruct (named_first _ (named_epilogue e)) as [Hb Hn].
        by apply (reads_frame b default_epilogue_params e parse_epilogue_field (epilogueG e)); [apply epilogue_fields|apply epilogueG_ok|apply encodes_ok| |].
    + exists (C (str "@epilogue") ++ (C (str "(") ++ [strT kind] ++ C (str ", ") ++ bytes_tail bytes)). split; [|split; [split|]].
      * cbn [emit_simple emit_epilogue]. unfold directive. rewrite !render_app, render_bytes_tail, render_tk. apps. reflexivity.
      * apply closed_word; [by vm_compute|opens_tac|segs].
      * start_tac [At; Ident (str "epilogue")].
      * intros list one. change (C (str "@epilogue")) with [Tk [byte_of 64] At; idT (str "epilogue")].
        apply reads_directive_word; [discriminate..|]. intros t. apply reads_plain_frame.
Qed.

(** * Labels *)

Lemma label_ident a : u64_ok a = true -> ident_ok (label_ref a) = true.
Proof. intros Ha%u64_ok_range. apply number_word_ok; [lia|done|apply Ha]. Qed.

Lemma label_back a : u64_ok a = true -> parse_label_addr (label_ref a) = Some a.
Proof.
  intros Ha%u64_ok_range. unfold parse_label_addr, label_ref. rewrite strip_prefix_app. cbn [mbind option_bind].
  by apply parse_fmt; [lia|].
Qed.

Lemma seg_label a : u64_ok a = true -> seg [idT (label_ref a)].
Proof. intros Ha. by apply seg_ident, label_ident. Qed.
#[export] Hint Resolve seg_label : seg.

Lemma reads_label {A} b a (f : Z -> P A) ps x ok : u64_ok a = true -> reads b (f a) ps x ok ->
  reads b (expect_label ≫= f) (idT (label_ref a) :: ps) x ok.
Proof. intros Ha H. unfold expect_label. rd. rewrite label_back by done. exact H. Qed.

Lemma label_word a w : head w <> Some (byte_of 108) -> label_ref a <> w.
Proof. intros H <-. done. Qed.

Lemma label_stmt b sw a : u64_ok a = true -> simple_ok b sw (Label a) ([idT (label_ref a)] ++ C (str ":") ++ [Sp nl]).
Proof.
  intros Ha. split; [split|].
  - segs.
  - exists [Ident (label_ref a); Colon]. split; [intros post; expand_C; by eexists|]. split; [|done]. cbn [stmt_start].
    unfold late_word, str_eqb. by rewrite !bool_decide_eq_false_2 by (intros E; discriminate E).
  - intros list one. expand_C. apply reads_peek_tk. intros t Ht. rewrite Ht.
    rewrite !decide_False by (apply label_word; discriminate). rewrite bool_decide_eq_false_2, andb_false_r by (apply label_word; discriminate).
    unfold is_label_name. rewrite label_back by done. apply reads_get. intros pre post _.
    change (pos (st ?W b pre)) with (ntk pre). rewrite kind_lookup. cbn [kinds lookup list_lookup app]. rewrite decide_True by done.
    unfold parse_label_stmt. apply reads_label; [done|]. rd.
Qed.

(** * Text up to a mark *)

Definition stops_at (stop : TokenKind -> bool) (post : list piece) : Prop := exists w k qs, post = Tk w k :: qs /\ stop k = true.

Lemma bump_until_pieces b stop ps : forall n pre post, existsb (fun k => stop k || bool_decide (k = Eof)) (tkinds ps) = false ->
  stops_at stop post -> (ntk ps < n)%nat ->
  bump_until stop n (st (pre ++ ps ++ post) b pre) = Ok (tok_at (pre ++ ps) post, st (pre ++ ps ++ post) b (pre ++ ps)).
Proof.
  induction ps as [|[v|v k] ps IH]; intros n pre post Hk Hp Hn; (destruct n as [|n]; [lia|]).
  - destruct Hp as (w & k & qs & -> & Hs). rewrite app_nil_r. cbn [app bump_until].
    by rewrite (bind_ok _ _ _ _ _ (peek_st b pre _)), kind_tok_at; cbn [hd_kind kinds]; rewrite Hs.
  - cbn [tkinds ntk app] in *. specialize (IH (S n) (pre ++ [Sp v]) post Hk Hp ltac:(lia)). rewrite <- !(assoc_L (++)) in IH. cbn [app] in IH.
    by rewrite sp_state in IH.
  - cbn [tkinds ntk app existsb bump_until] in *. apply orb_false_iff in Hk as [[Hk1 Hk2%bool_decide_eq_false]%orb_false_iff Hk].
    rewrite (bind_ok _ _ _ _ _ (peek_st b pre _)), kind_tok_at. cbn [hd_kind kinds]. rewrite Hk1.
    specialize (IH n (pre ++ [Tk v k]) post Hk Hp ltac:(lia)). rewrite <- !(assoc_L (++)) in IH. cbn [app] in IH.
    assert ((bump ≫= fun _ => bump_until stop n) (st (pre ++ Tk v k :: ps ++ post) b pre) =
      Ok (tok_at (pre ++ Tk v k :: ps) post, st (pre ++ Tk v k :: ps ++ post) b (pre ++ Tk v k :: ps))) as Hb
      by (rewrite (bind_ok _ _ _ _ _ (bump_st b pre v k (ps ++ post))); exact IH).
    by destruct k.
Qed.

(** Tidy text up to the mark, a blank in front of the mark or not. *)
Lemma reads_until b stop ps w : (exists v k qs, ps = Tk v k :: qs) -> tidy (render ps) = true -> forallb is_blank w = true ->
  existsb (fun k => stop k || bool_decide (k = Eof)) (tkinds ps) = false ->
  reads b (snip_until stop) (ps ++ [Sp w]) (render ps) (stops_at stop).
Proof.
  intros (v & k & qs & E) Ht Hw Hk pre post Htx Hp. unfold snip_until.
  rewrite (bind_ok _ _ _ _ _ (peek_st b pre _)).
  assert (tstart (tok_at pre ((ps ++ [Sp w]) ++ post)) = length (render pre)) as -> by (rewrite E; apply tstart_tok_at).
  erewrite bind_ok.
  2: { unfold with_fuel. apply bump_until_pieces; [by rewrite tkinds_app, app_nil_r|done|]. cbn [tokens st]. rewrite length_place, !ntk_app. lia. }
  destruct Hp as (w' & k' & qs' & -> & Hs). rewrite tstart_tok_at.
  rewrite (snip_trim_pieces _ b pre (ps ++ [Sp w]) (Tk w' k' :: qs') _ eq_refl Htx), render_app, render_sp.
  pose proof (trim_tidy [] (render ps) w eq_refl Hw Ht) as Et. cbn [app] in Et. by rewrite Et.
Qed.
