(* ===== verification/RoundJump.v ===== *)
(** Comments, jumps, returns and switches: the parser reads back what the
    emitter wrote for each. *)

From S2P Require Import Prelude Text X86Prologue X86CondText Lexer LexerSpec Ast Emit Parser Pieces Literals Reads RoundBasic RoundText RoundMove RoundCall RoundStmt.

(** * Comments *)

(** A comment keeps to its line and does not start with white space. *)
Definition wf_comment (text : list byte) : bool := utf8_valid text && no_nl text && bool_decide (trim_start text = text).

Lemma comment_chars text : utf8 text -> no_nl text = true -> Chars (fun c => negb (is_char 10 c)) text.
Proof.
  induction 1 as [|ch s Hc _ Hs IH]; [constructor|]. rewrite no_nl_app. intros [Hn1 Hn2]%andb_prop. constructor; [done| |by apply IH].
  apply negb_true_iff. destruct (is_char 10 ch) eqn:E; [|done]. apply is_char_byte in E as ->. done.
Qed.

Definition commentP (text : list byte) : list piece := [Tk (str "// " ++ text) (Comment text); Sp nl].

Lemma closed_comment text : wf_comment text = true -> closed (commentP text).
Proof.
  intros [[Hu%utf8_of_valid Hn]%andb_prop Ht%bool_decide_eq_true]%andb_prop rest. split; [|by split; [apply blank_chars|]].
  change (str "// " ++ text) with ([byte_of 47; byte_of 47] ++ ([byte_of 32] ++ text)).
  assert (trim_start ([byte_of 32] ++ text) = text) as E by (by rewrite trim_start_blank).
  rewrite <- E at 2. apply L_comment; [|done]. apply comment_chars; [|done]. apply Chars_app; [|done].
  apply (Chars_utf8 is_whitespace). by apply blank_chars.
Qed.

Lemma comment_stmt b sw text : wf_comment text = true -> simple_ok b sw (StComment text) (commentP text).
Proof.
  intros H. split; [split|].
  - by apply closed_comment.
  - exists [Comment text]. split; [intros post; by eexists|]. done.
  - intros list one. unfold commentP, parse_stmt. rd.
Qed.

(** * Attributes of a jump *)

Definition flag (name : list byte) : Attribute := {| key := name; avalue := AFlag |}.

(** The attributes [emit_jcc_attrs] writes. *)
Definition jccA (code : Z) (wide : bool) (cmp : list byte) (target : option Z) : list Attribute :=
  [{| key := str "cond"; avalue := AString (jcc_cond_name_for_emit code) |}] ++
  match cmp with [] => [] | _ => [{| key := str "cmp"; avalue := AByteList cmp |}] end ++
  (if wide then [flag (str "wide")] else []) ++
  match target with Some a => [{| key := str "target"; avalue := AInt a |}] | None => [] end.

Definition code_ok (code : Z) : bool := (0 <=? code) && (code <? 16).

Lemma code_cases (P : Z -> Prop) : (forall c, c ∈ seqZ 0 16 -> P c) -> forall code, code_ok code = true -> P code.
Proof. intros H code Hc. apply H, elem_of_seqZ. unfold code_ok in Hc. lia. Qed.

Lemma code_back code : code_ok code = true -> jcc_cond_code_from_name (jcc_cond_name_for_emit code) = Some code.
Proof.
  revert code. apply code_cases. intros c Hc.
  repeat (apply elem_of_cons in Hc as [->|Hc]; [vm_compute; reflexivity|]). by apply not_elem_of_nil in Hc.
Qed.

Lemma render_cond_name code : code_ok code = true -> quote_string (jcc_cond_name_for_emit code) = [byte_of 34] ++ jcc_cond_name_for_emit code ++ [byte_of 34].
Proof.
  revert code. apply code_cases. intros c Hc.
  repeat (apply elem_of_cons in Hc as [->|Hc]; [vm_compute; reflexivity|]). by apply not_elem_of_nil in Hc.
Qed.

Lemma cond_name_utf8 code : code_ok code = true -> utf8_valid (jcc_cond_name_for_emit code) = true.
Proof.
  revert code. apply code_cases. intros c Hc.
  repeat (apply elem_of_cons in Hc as [->|Hc]; [vm_compute; reflexivity|]). by apply not_elem_of_nil in Hc.
Qed.

Definition opt_u64 (t : option Z) : bool := match t with Some a => u64_ok a | None => true end.

Definition jccP (code : Z) (wide : bool) (cmp : list byte) (target : option Z) : list piece := sp1 :: attrsP (jccA code wide cmp target).

Lemma render_jcc code wide cmp target (incl : bool) : code_ok code = true ->
  render (jccP code wide cmp (if incl then Some target else None)) = emit_jcc_attrs code wide cmp target incl.
Proof.
  intros Hc. unfold jccP. rewrite render_cons, render_attrs by done. unfold emit_attrs, emit_jcc_attrs, jccA. cbn [map app].
  unfold emit_attr at 1. cbn [key avalue emit_attr_value]. rewrite render_cond_name by done.
  destruct cmp, wide, incl; reflexivity.
Qed.

Lemma closed_jcc code wide cmp target : code_ok code = true -> opt_u64 target = true -> closed (jccP code wide cmp target).
Proof.
  intros Hc Ht. apply (closed_app [sp1]); [by apply closed_blank|]. apply closed_attrs. unfold jccA. rewrite !List.forallb_app. cbn [forallb].
  unfold wf_attr at 1. cbn [key avalue]. rewrite cond_name_utf8 by done. destruct cmp, wide, target as [a|]; cbn [opt_u64] in Ht; try reflexivity;
    cbn [forallb]; unfold wf_attr; cbn [avalue]; rewrite ?Ht; reflexivity.
Qed.

Lemma reads_jcc_attrs {A} b tok code wide cmp target (f : list byte * Z * bool * option Z -> P A) ps a ok : code_ok code = true ->
  reads b (f (cmp, code, wide, target)) ps a ok ->
  reads b (parse_jcc_attrs tok ≫= f) (attrsP (jccA code wide cmp target) ++ ps) a ok.
Proof.
  intros Hc H. unfold parse_jcc_attrs. apply reads_assoc. eapply reads_bind; [apply reads_attrs| |done].
  assert (fold_jcc_attrs (jccA code wide cmp target) {| j_cmp := []; j_code := None; j_wide := false; j_target := None |} =
    Some {| j_cmp := cmp; j_code := Some code; j_wide := wide; j_target := target |}) as ->; [|exact H].
  unfold jccA. cbn [app fold_jcc_attrs avalue key]. rewrite decide_True, code_back by done. by destruct cmp, wide, target.
Qed.

Lemma reads_jcc {A} b tok code wide cmp target (f : list byte * Z * bool * option Z -> P A) ps a ok : code_ok code = true ->
  reads b (f (cmp, code, wide, target)) ps a ok -> reads b (parse_jcc_attrs tok ≫= f) (jccP code wide cmp target ++ ps) a ok.
Proof. intros Hc H. by apply reads_sp, reads_jcc_attrs. Qed.

(** * Jumps *)

Lemma goto_stmt printable b sw a wide : u64_ok a = true -> exists ps,
  render ps = emit_simple printable (Goto a wide) [] /\ simple_ok b sw (Goto a wide) ps.
Proof.
  intros Ha. exists (C (str "goto ") ++ [idT (label_ref a)] ++ (if wide then sp1 :: attrsP [flag (str "wide")] else []) ++ C (str ";") ++ [Sp nl]).
  split; [|split; [split|]].
  - cbn [emit_simple]. rewrite !render_app, render_tk. destruct wide; [|apps; reflexivity]. rewrite render_cons, render_attrs by done. apps. reflexivity.
  - assert (closed (C (str ";") ++ [Sp nl])) as He by (apply closed_app; [by apply closed_const|by apply closed_blank]).
    apply closed_app; [by apply closed_const|]. apply seg_closed_app; [auto with seg| |].
    + destruct wide; cbn [app]; [by eexists _, _|opens_tac].
    + destruct wide; [|done]. apply (closed_app (sp1 :: attrsP [flag (str "wide")])); [|done].
      apply (closed_app [sp1]); [by apply closed_blank|by apply closed_attrs].
  - start_tac [Ident (str "goto")].
  - intros list one. change (C (str "goto ")) with [Tk (str "goto") (Ident (str "goto")); Sp [byte_of 32]].
    unfold parse_stmt. rd. unfold parse_goto_stmt. rd. apply reads_label; [done|]. destruct wide; cbn [app].
    + apply reads_sp. eapply reads_bind; [apply reads_attrs| |done]. expand_C. rd.
    + rewrite <- (app_nil_l (C (str ";") ++ _)). eapply reads_bind; [apply (reads_no_attrs b (fun post => hd_kind post = Semicolon)); intros; congruence| |].
      * expand_C. rd.
      * intros post _. by expand_C.
Qed.

(** A condition in parentheses, and what follows. *)
Lemma reads_parens {A} b s ps (f : list byte -> P A) qs a ok : (forall b, reads b parse_paren_inner ps s paren_post) ->
  reads b (f s) qs a ok -> reads b (parens ≫= f) (Tk [byte_of 40] LParen :: ps ++ Tk [byte_of 41] RParen :: qs) a ok.
Proof.
  intros H Hf. unfold parens. apply reads_assoc, reads_expect. apply reads_assoc. eapply reads_bind; [apply H| |].
  - apply reads_assoc, reads_expect, reads_ret_bind. exact Hf.
  - intros post _. by eexists.
Qed.

Lemma ended_rpar ps qs : ended ps -> closed qs -> closed (ps ++ Tk [byte_of 41] RParen :: qs).
Proof.
  intros H Hc. apply ended_closed_app; [done|by intros rest; eexists _, _|]. apply (closed_app [rparT]); [by apply closed_const|done].
Qed.

Lemma if_goto_stmt printable b sw cond a cmp code wide : raw_cond cond = true -> u64_ok a = true -> code_ok code = true -> exists ps,
  render ps = emit_simple printable (IfGoto cond a cmp code wide) [] /\ simple_ok b sw (IfGoto cond a cmp code wide) ps.
Proof.
  intros Hr Ha Hc. destruct (raw_cond_reads cond Hr) as (ps & Er & He & Hps).
  exists ([idT (str "if"); sp1; lparT] ++ ps ++ rparT :: C (str " goto ") ++ [idT (label_ref a)] ++ jccP code wide cmp None ++ C (str ";") ++ [Sp nl]).
  split; [|split; [split|]].
  - cbn [emit_simple]. rewrite <- (render_jcc code wide cmp a false) by done.
    rewrite !render_app, (render_cons rparT), !render_app, Er, render_tk. apps. reflexivity.
  - apply closed_app; [by apply closed_const|]. apply ended_rpar; [done|]. apply closed_app; [by apply closed_const|].
    apply seg_closed_app; [auto with seg|by eexists _, _|]. apply closed_app; [by apply closed_jcc|].
    apply closed_app; [by apply closed_const|by apply closed_blank].
  - by exists [Ident (str "if")]; split; [intros post; eexists|].
  - intros list one. cbn [app]. unfold parse_stmt. rd. unfold parse_if_stmt. rd. apply (reads_parens b cond); [done|].
    change (C (str " goto ")) with [sp1; Tk (str "goto") (Ident (str "goto")); sp1]. rd. unfold parse_if_goto_tail. rd.
    apply reads_label; [done|]. apply reads_jcc; [done|]. expand_C. rd.
Qed.

(** A value that a jump or a return carries: one text, no mark in it. *)
Definition wf_value_text (stop : TokenKind -> bool) (s : list byte) : bool :=
  text_ok s && negb (existsb (fun k => stop k || bool_decide (k = Eof)) (text_kinds s)).

Lemma if_return_stmt printable b sw cond value a cmp code wide : raw_cond cond = true ->
  value = [] \/ wf_value_text is_semicolon_or_hash value = true -> u64_ok a = true -> code_ok code = true -> exists ps,
  render ps = emit_simple printable (IfReturn cond value a cmp code wide) [] /\ simple_ok b sw (IfReturn cond value a cmp code wide) ps.
Proof.
  intros Hr Hv Ha Hc. destruct (raw_cond_reads cond Hr) as (ps & Er & He & Hps).
  assert (exists vs, render vs = match value with [] => [] | _ => str " " ++ value end /\
    (forall rest, closed rest -> closed (vs ++ sp1 :: rest)) /\ (vs = [] \/ exists qs, vs = sp1 :: qs) /\
    forall tok, reads b (k ← peek_kind; value_text ← if is_semicolon_or_hash k then mret [] else parse_until_semicolon_or_attr;
       '(cmp_bytes, cond_code, wide, target) ← parse_jcc_attrs tok; _ ← expect Semicolon;
       match target with Some target_addr => mret (IfReturn cond value_text target_addr cmp_bytes cond_code wide) | None => expected_at tok end)
      (vs ++ jccP code wide cmp (Some a) ++ C (str ";") ++ [Sp nl]) (IfReturn cond value a cmp code wide) (fun _ => True))
    as (vs & Evs & Hvs & Hvs' & Rvs).
  { assert (forall tok v, reads b ('(cmp_bytes, cond_code, wide, target) ← parse_jcc_attrs tok; _ ← expect Semicolon;
       match target with Some target_addr => mret (IfReturn cond v target_addr cmp_bytes cond_code wide) | None => expected_at tok end)
       (attrsP (jccA code wide cmp (Some a)) ++ C (str ";") ++ [Sp nl]) (IfReturn cond v a cmp code wide) (fun _ => True)) as Hj.
    { intros tok v. apply reads_jcc_attrs; [done|]. expand_C. rd. }
    destruct (decide (value = [])) as [->|Hn].
    - exists []. split_and!; [done|intros rest Hrest; by apply (closed_app [sp1]); [apply closed_blank|]|by left|]. intros tok. cbn [app].
      apply (reads_peek_kind _ Hash); [intros post _; unfold jccP, attrsP; by expand_C|]. cbn [is_semicolon_or_hash]. rd. unfold jccP. rd. apply Hj.
    - destruct Hv as [?|Hv]; [done|]. apply andb_prop in Hv as [Ht Hk%negb_true_iff].
      destruct (text_pieces value Ht) as (qs & Eq & Hq & Ek & _ & Hf & _). exists (sp1 :: qs). split_and!.
      + rewrite render_cons, Eq. by destruct value.
      + intros rest Hrest. apply (closed_app [sp1]); [by apply closed_blank|]. apply ended_closed_app; [done|by intros r; eexists _, _|].
        apply (closed_app [sp1]); [by apply closed_blank|done].
      + right. by eexists.
      + intros tok. cbn [app]. apply reads_sp. rewrite <- Ek in Hk. destruct Hf as (w & k & qs' & E).
        assert (is_semicolon_or_hash k = false) as Hk1 by (rewrite E in Hk; cbn [tkinds existsb] in Hk; by apply orb_false_iff in Hk as [[? _]%orb_false_iff _]).
        apply (reads_peek_kind _ k); [intros post _; by rewrite E|]. rewrite Hk1. unfold parse_until_semicolon_or_attr.
        assert (qs ++ jccP code wide cmp (Some a) ++ C (str ";") ++ [Sp nl] =
          (qs ++ [sp1]) ++ attrsP (jccA code wide cmp (Some a)) ++ C (str ";") ++ [Sp nl]) as -> by (unfold jccP; by apps).
        eapply reads_bind; [apply reads_until; [by exists w, k, qs'|rewrite Eq; by apply text_tidy|done|exact Hk]| |].
        * rewrite Eq. apply Hj.
        * intros post _. unfold attrsP. expand_C. by eexists _, _, _. }
  exists ([idT (str "if"); sp1; lparT] ++ ps ++ rparT :: C (str " return") ++ vs ++ jccP code wide cmp (Some a) ++ C (str ";") ++ [Sp nl]).
  split; [|split; [split|]].
  - cbn [emit_simple]. rewrite <- (render_jcc code wide cmp a true) by done. rewrite <- Evs.
    rewrite !render_app, (render_cons rparT), !render_app, Er. apps. reflexivity.
  - apply closed_app; [by apply closed_const|]. apply ended_rpar; [done|].
    assert (closed (vs ++ jccP code wide cmp (Some a) ++ C (str ";") ++ [Sp nl])) as H.
    { unfold jccP. cbn [app]. apply Hvs. apply closed_app; [|apply closed_app; [by apply closed_const|by apply closed_blank]].
      assert (closed ([sp1] ++ attrsP (jccA code wide cmp (Some a)))) as Hcl by by apply closed_jcc. by intros rest; apply Hcl. }
    apply seg_closed_app; [by apply seg_const| |done]. destruct Hvs' as [->|[qs ->]]; by eexists _, _.
  - by exists [Ident (str "if")]; split; [intros post; eexists|].
  - intros list one. cbn [app]. unfold parse_stmt. rd. unfold parse_if_stmt. rd. apply (reads_parens b cond); [done|].
    change (C (str " return")) with [sp1; Tk (str "return") (Ident (str "return"))]. rd. unfold parse_if_return_tail.
    apply (reads_weaken _ _ _ (fun _ => True)); [|done]. rd. apply Rvs.
Qed.

(** * Returns *)

Definition return_text (v : Z) : list byte := if v <? 10 then fmt_dec v else hex_lit v.

Lemma small_cases (P : Z -> Prop) : (forall c, c ∈ seqZ 0 10 -> P c) -> forall v, 0 <= v < 10 -> P v.
Proof. intros H v Hv. apply H, elem_of_seqZ. lia. Qed.

Lemma digits_tidy r s : r <= 16 -> s <> [] -> Forall (fun b => is_Some (digit_val r b)) s -> tidy s = true.
Proof.
  intros Hr Hn H. assert (forall b, is_Some (digit_val r b) -> graphic b = true) as Hg.
  { intros b [v Hb]. unfold digit_val in Hb. unfold graphic. repeat case_match; try done; lia. }
  unfold tidy. destruct s as [|a t]; [done|]. cbn [head]. rewrite Forall_forall in H. rewrite (Hg a) by (apply H; left).
  destruct (last (a :: t)) as [z|] eqn:E; [|by apply last_None in E]. apply last_Some_elem_of in E. cbn [andb]. by apply Hg, H.
Qed.

Lemma return_tidy v : u64_ok v = true -> tidy (return_text v) = true.
Proof.
  intros H%u64_ok_range. unfold return_text, fmt_dec, hex_lit. destruct (v <? 10).
  - apply (digits_tidy 10); [lia| |by apply fmt_digits; [lia|apply H]]. destruct (fmt_radix_shape false 10 v ltac:(lia)) as (c & ds & -> & _). done.
  - assert (tidy (fmt_hex v) = true) as Ht.
    { apply (digits_tidy 16); [lia| |by apply hex_digits, H]. destruct (fmt_radix_shape false 16 v ltac:(lia)) as (c & ds & E & _). unfold fmt_hex. by rewrite E. }
    unfold tidy in *. destruct (fmt_hex v) as [|a t]; [done|]. cbn [head] in Ht.
    change (last (str "0x" ++ a :: t)) with (last (a :: t)). destruct (last (a :: t)); [|done]. by apply andb_prop in Ht as [_ ->].
Qed.

Lemma tidy_trim s : tidy s = true -> trim s = s.
Proof. intros H. pose proof (trim_tidy [] s [] eq_refl eq_refl H) as E. cbn [app] in E. by rewrite app_nil_r in E. Qed.

Lemma return_back v : u64_ok v = true -> parse_int_literal (return_text v) = Some v.
Proof.
  intros H. unfold parse_int_literal. rewrite tidy_trim by by apply return_tidy. apply u64_ok_range in H. unfold return_text.
  destruct (Z.ltb_spec v 10).
  - assert (0 <= v < 10) as Hv by (unfold in_range in H; lia). clear H H0. revert v Hv. apply small_cases.
    intros c Hc. repeat (apply elem_of_cons in Hc as [->|Hc]; [vm_compute; reflexivity|]). by apply not_elem_of_nil in Hc.
  - unfold hex_lit. rewrite strip_prefix_app. cbn [or_else]. apply parse_fmt; [lia|done].
Qed.

Lemma seg_return v : u64_ok v = true -> seg [Tk (return_text v) (Int v)].
Proof. intros H. unfold return_text. destruct (v <? 10); auto with seg. Qed.

Lemma reads_opt_bytes {A} b bytes (f : list byte -> A) ok : (forall post, ok post -> bytes = [] -> hd_kind post <> LBracket) ->
  reads b (bs ← opt_byte_list; mret (f bs)) (tailP bytes ++ [Sp nl]) (f bytes) ok.
Proof.
  intros Hok. unfold opt_byte_list. apply reads_assoc. destruct (decide (bytes = [])) as [->|Hn].
  - apply (reads_at_kind _ _ false); [intros post Hp; apply bool_decide_eq_false; exact (Hok post Hp eq_refl)|]. cbn [tailP]. rd.
  - rewrite tailP_bytes by done. cbn [app]. apply reads_sp. apply (reads_at_kind _ _ true); [intros; unfold bytesP; by expand_C|].
    cbv iota. eapply reads_bind; [apply reads_bytes| |done]. rd.
Qed.

Lemma return_stmt printable b sw v bytes : u64_ok v = true -> exists ps,
  render ps = emit_simple printable (Return v bytes) [] /\ simple_ok b sw (Return v bytes) ps.
Proof.
  intros H. exists (C (str "return ") ++ ([Tk (return_text v) (Int v)] ++ [Sp []]) ++ C (str ";") ++ tailP bytes ++ [Sp nl]). split; [|split; [split|]].
  - cbn [emit_simple]. rewrite !render_app, render_sp, render_tk, app_nil_r. fold (return_text v).
    assert (render (tailP bytes) ++ render [Sp nl] = opt_bytes bytes) as ->; [|apps; reflexivity].
    destruct bytes as [|c bytes]; [done|]. cbn [tailP]. rewrite render_cons, render_bytes. unfold opt_bytes. by rewrite <- !(assoc_L (++)).
  - apply closed_app; [by apply closed_const|]. rewrite <- (assoc_L (++)). apply seg_closed_app; [by apply seg_return|by eexists _, _|].
    apply (closed_app [Sp []]); [by apply closed_blank|]. apply closed_app; [by apply closed_const|]. apply closed_tail.
  - start_tac [Ident (str "return")].
  - intros list one. change (C (str "return ")) with [Tk (str "return") (Ident (str "return")); sp1]. unfold parse_stmt. rd.
    unfold parse_return_stmt. rd. unfold parse_until_semicolon.
    change (Tk ?w ?k :: Sp [] :: ?r) with (([Tk w k] ++ [Sp []]) ++ r).
    eapply reads_bind; [apply (reads_until b is_semicolon [Tk (return_text v) (Int v)] []); [by eexists _, _, _|rewrite render_tk; by apply return_tidy|done|done]| |].
    + expand_C. rd. rewrite render_tk, return_back by done. apply (reads_opt_bytes b bytes (fun bs => Return v bs)).
      intros post [_ Hp] ->. by apply Hp.
    + intros post _. expand_C. by eexists _, _, _.
Qed.

(** A text that is not a number. *)
Definition not_number (s : list byte) : bool := bool_decide (parse_int_literal s = None).

Lemma return_expr_stmt printable b sw text bytes :
  text = [] \/ wf_value_text is_semicolon text && not_number text = true -> exists ps,
  render ps = emit_simple printable (ReturnExpr text bytes) [] /\ simple_ok b sw (ReturnExpr text bytes) ps.
Proof.
  intros Hv.
  assert (forall list one ps, (forall t, kind t = Ident (str "return") -> reads b (e ← at_kind Semicolon;
      value_text ← if e : bool then mret [] else parse_until_semicolon; _ ← expect Semicolon; bytes ← opt_byte_list;
      mret match parse_int_literal value_text with Some value => Return value bytes | None => ReturnExpr value_text bytes end)
      ps (ReturnExpr text bytes) (fun _ => True)) ->
    reads b (parse_stmt list one sw) (Tk (str "return") (Ident (str "return")) :: ps) (ReturnExpr text bytes) (after (ReturnExpr text bytes))) as Hr.
  { intros list one ps H. apply (reads_weaken _ _ _ (fun _ => True)); [|done]. unfold parse_stmt. rd. unfold parse_return_stmt. apply reads_bump.
    intros t0 Ht0. by apply (H t0). }
  assert (forall t, reads b (bytes ← opt_byte_list; mret (ReturnExpr t bytes)) (bytesP bytes ++ [Sp nl]) (ReturnExpr t bytes) (fun _ => True)) as Hb.
  { intros t. unfold opt_byte_list. apply reads_assoc. apply (reads_at_kind _ _ true); [intros; unfold bytesP; by expand_C|].
    cbv iota. eapply reads_bind; [apply reads_bytes| |done]. rd. }
  assert (closed (sp1 :: bytesP bytes ++ [Sp nl])) as Hc.
  { apply (closed_app [sp1]); [by apply closed_blank|]. apply closed_app; [apply closed_bytes|by apply closed_blank]. }
  assert (render (sp1 :: bytesP bytes ++ [Sp nl]) = str " [" ++ emit_byte_list bytes ++ str "]" ++ nl) as Er.
  { rewrite render_cons, render_app, render_bytes. apps. reflexivity. }
  destruct (decide (text = [])) as [->|Hn].
  - exists (C (str "return;") ++ sp1 :: bytesP bytes ++ [Sp nl]). split; [|split; [split|]].
    + cbn [emit_simple]. rewrite render_app, Er. reflexivity.
    + apply closed_app; [by apply closed_const|done].
    + start_tac [Ident (str "return")].
    + intros list one. change (C (str "return;")) with [Tk (str "return") (Ident (str "return")); Tk [byte_of 59] Semicolon]. cbn [app].
      apply Hr. intros t _. rd. change (parse_int_literal []) with (@None Z). apply Hb.
  - destruct Hv as [?|[Hv Hnn%bool_decide_eq_true]%andb_prop]; [done|]. apply andb_prop in Hv as [Ht Hk%negb_true_iff].
    destruct (text_pieces text Ht) as (qs & Eq & Hq & Ek & _ & Hf & _). rewrite <- Ek in Hk.
    exists (C (str "return ") ++ (qs ++ [Sp []]) ++ C (str ";") ++ sp1 :: bytesP bytes ++ [Sp nl]). split; [|split; [split|]].
    + cbn [emit_simple]. rewrite !render_app, render_sp, Er, Eq. destruct text; [done|]. rewrite app_nil_r. apps. reflexivity.
    + apply closed_app; [by apply closed_const|]. rewrite <- (assoc_L (++)). apply ended_closed_app; [done|by intros r; eexists _, _|].
      apply (closed_app [Sp []]); [by apply closed_blank|]. apply closed_app; [by apply closed_const|done].
    + start_tac [Ident (str "return")].
    + intros list one. change (C (str "return ")) with [Tk (str "return") (Ident (str "return")); sp1]. cbn [app].
      apply Hr. intros t _. apply reads_sp. destruct Hf as (w & k & qs' & E).
      assert (is_semicolon k = false) as Hk1 by (rewrite E in Hk; cbn [tkinds existsb] in Hk; by apply orb_false_iff in Hk as [[? _]%orb_false_iff _]).
      apply (reads_at_kind _ _ false); [intros post _; apply bool_decide_eq_false; rewrite E; cbn; by intros ->|]. unfold parse_until_semicolon.
      eapply reads_bind; [apply (reads_until b is_semicolon qs []); [by exists w, k, qs'|rewrite Eq; by apply text_tidy|done|exact Hk]| |].
      * expand_C. rd. rewrite Eq, Hnn. apply Hb.
      * intros post _. expand_C. by eexists _, _, _.
Qed.

(** * Switches *)

Definition ascii_print (s : list byte) : bool := forallb (fun b => (32 <=? u8 b) && (u8 b <=? 126)) s.

Lemma debug_quote printable s : ascii_print s = true -> debug_str printable s = quote_string s.
Proof.
  intros H. unfold debug_str, quote_string. f_equal. f_equal.
  induction s as [|b s IH]; [done|]. cbn [ascii_print forallb] in H. apply andb_prop in H as [Hb Hs].
  change (b :: s) with ([b] ++ s). rewrite chars_valid by (apply valid_ascii; lia). cbn [map concat]. rewrite IH by done. f_equal.
  clear -Hb. destruct b; first [discriminate Hb|reflexivity].
Qed.

Lemma sort_sorted {A} (key : A -> Z) l : StronglySorted (fun x y => key x <= key y) l -> sort_by_key key l = l.
Proof.
  induction 1 as [|x l Hl IH Hx]; [done|]. cbn [sort_by_key foldr]. fold (sort_by_key key l). rewrite IH.
  destruct l as [|y l]; [done|]. cbn [insert_by_key]. inversion Hx; subst. by replace (key x <=? key y) with true by lia.
Qed.

Lemma zip_seq {A} (l : list A) : forall k, StronglySorted (fun x y => x.1 <= y.1) (zip (seqZ k (len l)) l) /\
  Forall (fun x => k <= x.1 < k + len l) (zip (seqZ k (len l)) l).
Proof.
  unfold len. induction l as [|a l IH]; intros k; [rewrite seqZ_nil by (cbn; lia); split; constructor|].
  rewrite seqZ_cons by (cbn; lia). cbn [length zip zip_with]. rewrite Nat2Z.inj_succ, Z.pred_succ. destruct (IH (Z.succ k)) as [H1 H2].
  split; constructor; [exact H1| |cbn; lia|]; (eapply Forall_impl; [exact H2|]); intros [i x]; cbn; lia.
Qed.

Lemma cases_sorted {A} (l : list A) : map snd (sort_by_key fst (zip (seqZ 0 (len l)) l)) = l.
Proof.
  rewrite sort_sorted by apply zip_seq. apply (snd_zip (seqZ 0 (len l)) l). rewrite length_seqZ. unfold len. lia.
Qed.

Definition switch_attrs (dispatch : list byte) (va : Z) : list Attribute :=
  [{| key := str "dispatch"; avalue := AString dispatch |}; {| key := str "table_va"; avalue := AInt va |}].

Definition caseP (n : nat) (c : Z * Z) : list piece :=
  lineP n (C (str "case ") ++ [decT c.1] ++ C (str ": goto ") ++ [idT (label_ref c.2)] ++ C (str ";")).
Definition defaultP (n : nat) (a : Z) : list piece := lineP n (C (str "default: goto ") ++ [idT (label_ref a)] ++ C (str ";")).

Lemma reads_case_target {A} b a (f : Z -> P A) w1 w2 w3 w4 w5 ps x ok : u64_ok a = true -> reads b (f a) ps x ok ->
  reads b (case_target ≫= f) (Tk w1 Colon :: Sp w2 :: Tk w3 (Ident (str "goto")) :: Sp w4 :: idT (label_ref a) :: Tk w5 Semicolon :: ps) x ok.
Proof.
  intros Ha H. unfold case_target. apply reads_assoc, reads_expect, reads_assoc, reads_sp, reads_keyword, reads_assoc, reads_sp, reads_label; [done|].
  apply reads_assoc, reads_expect, reads_ret_bind, H.
Qed.

Lemma reads_cases b n cs d : Forall (fun c => u64_ok c.2 = true) cs -> u64_ok d = true -> forall fuel acc, (S (length cs) < fuel)%nat ->
  reads b (switch_cases acc None fuel) (concat (map (caseP n) cs) ++ defaultP n d) (acc ++ cs, Some d) (fun post => hd_kind post = RBrace).
Proof.
  intros H Hd. induction H as [|[i t] cs Ht H IH]; intros fuel acc Hf; (destruct fuel as [|fuel]; [lia|]); cbn [switch_cases map concat length] in *.
  - unfold defaultP, lineP. expand_C. rd. apply reads_case_target; [done|].
    destruct fuel as [|fuel]; [lia|]. cbn [switch_cases]. rd. apply (reads_at_kind _ _ true); [intros post Hp; by apply bool_decide_eq_true|].
    cbv iota. rewrite app_nil_r. rd.
  - unfold caseP at 1, lineP. expand_C. cbn [fst snd] in *. apps. rd. apply reads_case_target; [done|]. rd.
    specialize (IH fuel (acc ++ [(i, t)]) ltac:(lia)). rewrite <- (assoc_L (++) acc) in IH. exact IH.
Qed.

Lemma closed_label a : u64_ok a = true -> closed ([idT (label_ref a)] ++ C (str ";")).
Proof. intros Ha. apply seg_closed_app; [by apply seg_label|opens_tac|by apply closed_const]. Qed.

Definition wf_switch (selector : list byte) (cases : list Z) (dflt : Z) (dispatch : list byte) (va : Z) : bool :=
  raw_cond selector && forallb u64_ok cases && (len cases <? 2 ^ 64) && u64_ok dflt && ascii_print dispatch && utf8_valid dispatch && u64_ok va.

Lemma switch_stmt printable b selector cases dflt dispatch va n : wf_switch selector cases dflt dispatch va = true -> exists ps,
  render ps = emit_simple printable (Switch selector cases dflt dispatch va) (spaces n) /\
  simple_ok b true (Switch selector cases dflt dispatch va) ps.
Proof.
  unfold wf_switch. intros [[[[[[Hsel Hcases]%andb_prop Hlen]%andb_prop Hd]%andb_prop Hp]%andb_prop Hu]%andb_prop Hva]%andb_prop.
  destruct (raw_cond_reads selector Hsel) as (ps & Er & He & Hps).
  set (cs := zip (seqZ 0 (len cases)) cases).
  set (lines := concat (map (caseP (n + 4)) cs) ++ defaultP (n + 4) dflt).
  assert (Forall (fun c => 0 <= c.1 < len cases /\ u64_ok c.2 = true) cs) as Hcs.
  { apply Forall_and. split; [apply (proj2 (zip_seq cases 0))|]. unfold cs. apply (Forall_impl (fun c => c.2 ∈ cases)).
    - apply Forall_forall. intros [i t] Hx. by apply elem_of_zip_r in Hx.
    - intros [i t] Hx. cbn in *. rewrite List.forallb_forall in Hcases. by apply Hcases, list_elem_of_In. }
  exists ([Sp (spaces n)] ++ [idT (str "switch"); sp1; lparT] ++ ps ++ [rparT; sp1] ++ attrsP (switch_attrs dispatch va) ++ C (str " {") ++ [Sp nl] ++ lines ++
    [Sp (spaces n)] ++ C (str "}") ++ [Sp nl]).
  assert (closed (C (str " {") ++ [Sp nl] ++ lines ++ [Sp (spaces n)] ++ C (str "}") ++ [Sp nl])) as Hcl.
  { apply closed_app; [by apply closed_const|]. apply closed_app; [by apply closed_blank|]. apply closed_app.
    - unfold lines. apply closed_app.
      + apply closed_concat, Forall_map. eapply Forall_impl; [exact Hcs|]. intros [i t] [Hi Ht]. cbn [fst snd] in *. apply closed_line.
        apply closed_app; [by apply closed_const|]. apply seg_closed_app; [apply seg_dec; unfold in_range; cbn [fst]; lia|opens_tac|].
        apply closed_app; [by apply closed_const|]. by apply closed_label.
      + apply closed_line, closed_app; [by apply closed_const|]. by apply closed_label.
    - apply closed_app; [apply closed_blank, blank_spaces|]. apply closed_app; [by apply closed_const|by apply closed_blank]. }
  split; [|split; [split|]].
  - cbn [emit_simple]. rewrite debug_quote by done.
    rewrite !render_app, render_sp, Er, render_attrs by done. unfold emit_attrs, switch_attrs. cbn [map sep_by]. unfold emit_attr. cbn [avalue key emit_attr_value].
    assert (render lines = emit_all (fun '(i, t) => deeper (spaces n) ++ str "case " ++ fmt_dec i ++ str ": goto " ++ label_ref t ++ str ";" ++ nl) cs ++
      deeper (spaces n) ++ str "default: goto " ++ label_ref dflt ++ str ";" ++ nl) as ->; [|apps; reflexivity].
    assert (deeper (spaces n) = spaces (n + 4)) as -> by (unfold deeper, spaces; by rewrite replicate_add).
    unfold lines. rewrite render_app, render_concat, map_map, emit_all_concat.
    assert (render (defaultP (n + 4) dflt) = spaces (n + 4) ++ str "default: goto " ++ label_ref dflt ++ str ";" ++ nl) as ->
      by (unfold defaultP; rewrite render_line, !render_app, render_tk; apps; reflexivity).
    f_equal. f_equal. apply map_ext. intros [i t]. unfold caseP. rewrite render_line, !render_app, !render_tk. apps. reflexivity.
  - apply (closed_app [Sp (spaces n)]); [apply closed_blank, blank_spaces|]. apply closed_app; [by apply closed_const|]. apply ended_rpar; [done|].
    apply (closed_app [sp1]); [by apply closed_blank|]. apply closed_app; [|done]. apply closed_attrs. cbn [switch_attrs forallb]. unfold wf_attr.
    cbn [key avalue]. by rewrite Hu, Hva.
  - by exists [Ident (str "switch")]; split; [intros post; eexists|].
  - intros list one. cbn [app]. unfold parse_stmt. rd. cbn [andb]. rewrite bool_decide_eq_true_2 by done. unfold parse_switch_stmt. rd. apply (reads_parens b selector); [done|].
    apply reads_sp. eapply reads_bind; [apply reads_attrs| |done]. cbn [last_string_attr last_int_attr switch_attrs foldl avalue key].
    rewrite !decide_True by done. cbn [mbind option_bind]. change (C (str " {")) with [sp1; Tk [byte_of 123] LBrace]. rd.
    eapply reads_bind; [apply reads_fuel; intros f Hf; apply (reads_cases b (n + 4) cs dflt); [by eapply Forall_impl; [exact Hcs|intros c [_ ?]]|done|]| |].
    + unfold lines in Hf. rewrite ntk_app in Hf. assert (length (map (caseP (n + 4)) cs) <= ntk (concat (map (caseP (n + 4)) cs)))%nat as Hl.
      { apply length_concat, Forall_map, Forall_forall. intros c _. unfold caseP, lineP. ntks. lia. }
      rewrite length_map in Hl. unfold defaultP, lineP in Hf. ntks. lia.
    + rd. expand_C. cbn [app]. unfold cs. rewrite cases_sorted. rd.
    + intros post _. by expand_C.
Qed.
