(* ===== verification/RoundBody.v ===== *)
(** Statement lists and the statements with bodies. *)

From S2P Require Import Prelude Text X86Prologue X86CondText Lexer LexerSpec Ast Emit Parser Pieces Literals Reads RoundBasic RoundText RoundMove RoundCall RoundStmt RoundJump.

Abbreviation until := parse_stmt_list_until_rbrace.
Abbreviation one := parse_stmt_list_one.

(** The statement is read from the pieces, given as much fuel as they have
    tokens. *)
Definition stmt_read (b : Z) (sw : bool) (s : Stmt) (ps : list piece) : Prop :=
  shape s ps /\ forall m, (ntk ps <= m)%nat -> reads b (parse_stmt (until m) (one m) sw) ps s (after s).

Lemma simple_read b sw s ps : simple_ok b sw s ps -> stmt_read b sw s ps.
Proof. intros [H1 H2]. split; [done|]. intros m _. apply H2. Qed.

(** * Lists *)

(** No bracket behind a return without bytes. *)
Fixpoint adjacent (l : list Stmt) : bool :=
  match l with
  | s :: l' => negb (bare_return s && match l' with s' :: _ => opens_bracket s' | [] => false end) && adjacent l'
  | [] => true
  end.

Lemma shape_kind s ps post : shape s ps -> exists k, hd_kind (ps ++ post) = k /\ follows k = true /\ k <> RBrace /\ k <> Eof /\
  (k = LBracket -> opens_bracket s = true).
Proof.
  intros [_ (ks & Hs & Hk & Hb)]. destruct (Hs post) as [r Er]. unfold hd_kind. rewrite Er. destruct ks as [|k ks]; [done|]. exists k. cbn [app].
  split; [done|]. destruct k; try done; split_and!; try done; cbn [head] in Hb; try (intros _; by apply Hb).
Qed.

Lemma shape_ntk s ps : shape s ps -> (0 < ntk ps)%nat.
Proof.
  intros H. destruct (shape_kind s ps [] H) as (k & E & _ & _ & He & _). rewrite app_nil_r in E. unfold hd_kind in E. rewrite kinds_tkinds in E.
  rewrite <- length_tkinds. destruct (tkinds ps); [by rewrite <- E in He|]. cbn. lia.
Qed.

(** What follows a statement of a list. *)
Lemma after_next b sw s l pss post : Forall2 (stmt_read b sw) l pss -> adjacent (s :: l) = true ->
  follows (hd_kind post) = true -> (hd_kind post = LBracket -> False) -> after s (concat pss ++ post).
Proof.
  intros H Ha Hp Hb. destruct H as [|s' ps l pss [Hs _] H]; [by split|]. cbn [concat]. rewrite <- (assoc_L (++)).
  destruct (shape_kind s' ps (concat pss ++ post) Hs) as (k & E & Hk & _ & _ & Ho). split; [by rewrite E|]. intros Hr E'.
  cbn [adjacent] in Ha. rewrite Hr, Ho in Ha by congruence. done.
Qed.

Lemma reads_until_list b l pss : Forall2 (stmt_read b true) l pss -> adjacent l = true -> forall m, (ntk (concat pss) < m)%nat ->
  reads b (until m) (concat pss) l (fun post => hd_kind post = RBrace).
Proof.
  induction 1 as [|s ps l pss [Hs Hr] H IH]; intros Ha m Hm; (destruct m as [|m]; [lia|]); cbn [concat parse_stmt_list_until_rbrace] in *.
  - apply (reads_peek_kind _ RBrace); [done|]. rd.
  - rewrite ntk_app in Hm. pose proof (shape_ntk s ps Hs). unfold peek_kind. apply reads_assoc, reads_peek. intros t (post & _ & E). apply reads_ret_bind.
    assert (reads b (x ← parse_stmt (until m) (one m) true; l0 ← until m; mret (x :: l0)) (ps ++ concat pss) (s :: l) (fun post => hd_kind post = RBrace)) as R.
    { eapply reads_bind; [apply Hr; lia| |].
      - rewrite <- (app_nil_r (concat pss)). eapply reads_bind; [apply IH; [|lia]|rd|done]. cbn [adjacent] in Ha. by apply andb_prop in Ha as [_ Ha].
      - intros post' Hp. apply (after_next b true s l); [done|done|by rewrite Hp|by rewrite Hp]. }
    rewrite <- (assoc_L (++)) in E. destruct (shape_kind s ps (concat pss ++ post) Hs) as (k & E' & Hf & H1 & H2 & _). rewrite E, E'. by destruct k.
Qed.

(** A body in braces. *)
Definition blockP (n : nat) (body : list piece) : list piece := [Tk [byte_of 123] LBrace; Sp nl] ++ body ++ [Sp (spaces n); Tk [byte_of 125] RBrace].

Lemma reads_block b l pss n m ok : Forall2 (stmt_read b true) l pss -> adjacent l = true -> (ntk (concat pss) < m)%nat ->
  reads b (block (until m)) (blockP n (concat pss)) l ok.
Proof.
  intros H Ha Hm. unfold block, blockP. cbn [app]. rd.
  eapply reads_bind; [by apply reads_until_list| |done]. rd.
Qed.

Lemma closed_body b sw l pss : Forall2 (stmt_read b sw) l pss -> closed (concat pss).
Proof.
  intros H. apply closed_concat. induction H as [|s ps l pss [[Hc _] _] H IH]; constructor; auto.
Qed.

Lemma closed_block n body : closed body -> closed (blockP n body).
Proof.
  intros H. unfold blockP. apply closed_app; [by apply closed_const|]. apply closed_app; [done|].
  apply (closed_app [Sp (spaces n)]); [apply closed_blank, blank_spaces|by apply closed_const].
Qed.

(** * The statements directly in the braces of an [if] *)

(** The kinds behind a statement are not an arm. *)
Definition no_arm (ks : list TokenKind) : Prop := forall w r, ks = At :: Ident w :: r -> arm_word w = false.

Lemma shape_no_arm s ps post : shape s ps -> no_arm (kinds (ps ++ post)).
Proof.
  intros [_ (ks & Hs & Hk & _)] w r E. destruct (Hs post) as [r' Er]. rewrite Er in E. destruct ks as [|k ks]; [done|]. cbn [app] in E.
  injection E as Ek Es. subst k. destruct ks as [|k2 ks]; [done|]. cbn [app] in Es. injection Es as Ek2 _. subst k2.
  cbn [stmt_start] in Hk. by apply negb_true_iff in Hk.
Qed.

(** One turn of the loop: a statement. *)
Lemma reads_arm_stmt b s ps acc th el X r ok f m : stmt_read b false s ps -> (ntk ps <= m)%nat ->
  reads b (if_arms (until (S m)) (one (S m)) (acc ++ [s]) th el f) X r ok -> (forall post, ok post -> after s (X ++ post)) ->
  reads b (if_arms (until (S m)) (one (S m)) acc th el (S f)) (ps ++ X) r ok.
Proof.
  intros [Hs Hr] Hm HX Hok. cbn [if_arms]. unfold peek_kind. apply reads_assoc, reads_peek. intros t (post & Hp & E). apply reads_ret_bind.
  apply reads_get. intros pre post' Hp'. rewrite <- (assoc_L (++)) in E. destruct (shape_kind s ps (X ++ post) Hs) as (k & E' & Hf & H1 & H2 & _).
  rewrite E, E'. change (pos (st ?W b pre)) with (ntk pre). rewrite kind_lookup.
  rewrite decide_False.
  - rewrite decide_False by done. eapply reads_bind; [|exact HX|exact Hok]. cbn [parse_stmt_list_one]. unfold peek_kind.
    apply reads_assoc, reads_peek. intros t2 (post2 & _ & E2). apply reads_ret_bind.
    destruct (shape_kind s ps post2 Hs) as (k2 & E2' & _ & _ & H3 & _). rewrite E2, E2'.
    assert (reads b (parse_stmt (until m) (one m) false) ps s (after s)) as R by by apply Hr. by destruct k2.
  - destruct (decide (k = At)) as [->|]; [|by intros [?|?]].
    pose proof (shape_no_arm s ps (X ++ post') Hs) as Hn. destruct (shape_kind s ps (X ++ post') Hs) as (k2 & E2 & _).
    destruct Hs as [_ (ks & Hst & Hk & _)]. destruct (Hst (X ++ post)) as [r1 Er1], (Hst (X ++ post')) as [r2 Er2].
    unfold hd_kind in E'. rewrite Er1 in E'. rewrite <- (assoc_L (++)). rewrite Er2 in Hn |- *. destruct ks as [|k ks]; [done|]. cbn [app] in *. subst k.
    destruct ks as [|k2' ks]; [done|]. cbn [stmt_start] in Hk. cbn. destruct k2'; try done. specialize (Hn name (ks ++ r2) eq_refl).
    unfold arm_word, str_eqb in Hn. apply orb_false_iff in Hn as [Hn1%bool_decide_eq_false Hn2%bool_decide_eq_false]. intros [[= ->]|[= ->]]; done.
Qed.

Lemma reads_arm_stmts b l pss : Forall2 (stmt_read b false) l pss -> forall acc th el X r ok f m,
  adjacent l = true -> (ntk (concat pss) <= m)%nat ->
  reads b (if_arms (until (S m)) (one (S m)) (acc ++ l) th el f) X r ok ->
  (forall post, ok post -> follows (hd_kind (X ++ post)) = true /\ hd_kind (X ++ post) <> LBracket) ->
  reads b (if_arms (until (S m)) (one (S m)) acc th el (length l + f)) (concat pss ++ X) r ok.
Proof.
  induction 1 as [|s ps l pss Hs H IH]; intros acc th el X r ok f m Ha Hm HX Hok; cbn [concat app length Nat.add] in *; [by rewrite app_nil_r in HX|].
  rewrite ntk_app in Hm. rewrite <- (assoc_L (++)). apply (reads_arm_stmt b s); [done|lia| |].
  - apply IH; [|lia| |done].
    + cbn [adjacent] in Ha. by apply andb_prop in Ha as [_ Ha].
    + by rewrite <- (assoc_L (++)).
  - intros post Hp. rewrite <- (assoc_L (++)). destruct (Hok post Hp). by apply (after_next b false s l).
Qed.

Lemma reads_arms_end b acc th el X f ok (U : P (list Stmt)) (O : P Stmt) : (forall post, ok post -> hd_kind (X ++ post) = RBrace) ->
  X = [] -> reads b (if_arms U O acc th el (S f)) X (acc, th, el) ok.
Proof.
  intros Hok ->. cbn [if_arms]. apply (reads_peek_kind _ RBrace); [exact Hok|]. apply reads_get. intros pre post _. cbv zeta.
  rewrite (decide_False (P := RBrace = At)) by done. rewrite decide_False by (by intros [?|?]). rewrite decide_True by done. rd.
Qed.

(** One turn of the loop: an arm. *)
Lemma reads_arm b w l pss n acc th el X r ok f m : w = str "then" \/ w = str "else" ->
  Forall2 (stmt_read b true) l pss -> adjacent l = true -> (ntk (concat pss) < m)%nat ->
  reads b (if decide (w = str "then") then if_arms (until m) (one m) acc (Some l) el f
           else if_arms (until m) (one m) acc th (Some l) f) X r ok ->
  reads b (if_arms (until m) (one m) acc th el (S f)) ([Tk [byte_of 64] At; idT w; sp1] ++ blockP n (concat pss) ++ X) r ok.
Proof.
  intros Hw H Ha Hm HX. cbn [if_arms app]. apply reads_peek_kind_tk. apply reads_get. intros pre post _.
  rewrite (decide_True (P := At = At)) by done. change (pos (st ?W b pre)) with (ntk pre). rewrite kind_lookup. cbn [app kinds lookup list_lookup].
  rewrite decide_True by (destruct Hw as [->| ->]; auto). rd. eapply reads_bind; [by apply (reads_block b l pss n m (fun _ => True))| |done]. exact HX.
Qed.
