(* ===== verification/RoundLoop.v ===== *)
(** Loops, blocks and branches: the parser reads back what the emitter wrote,
    given that it does so for the bodies. *)

From S2P Require Import Prelude Text X86Prologue X86CondText Lexer LexerSpec Ast Emit Parser Pieces Literals Reads RoundBasic RoundText RoundMove RoundCall RoundStmt RoundJump RoundBody.

Lemma render_block n body : render (blockP n body) = str "{" ++ nl ++ render body ++ spaces n ++ str "}".
Proof. unfold blockP. rewrite !render_app. reflexivity. Qed.

Lemma keyword_shape s w ps : negb (late_word w) = true -> closed (idT w :: ps) -> shape s (idT w :: ps).
Proof. intros Hw Hc. split; [done|]. exists [Ident w]. split; [intros post; by eexists|]. done. Qed.

Lemma keyword_read b sw s w n ps : negb (late_word w) = true -> closed (idT w :: ps) ->
  (forall m, (ntk (idT w :: ps) <= m)%nat -> reads b (parse_stmt (until m) (one m) sw) (idT w :: ps) s (after s)) ->
  stmt_read b sw s (Sp (spaces n) :: idT w :: ps).
Proof.
  intros Hw Hc H. destruct (keyword_shape s w ps Hw Hc) as [Hc' (ks & Hs)]. split.
  - split; [apply (closed_app [Sp (spaces n)]); [apply closed_blank, blank_spaces|done]|]. exists ks. exact Hs.
  - intros m Hm. apply reads_sp, H, Hm.
Qed.

(** [ name=[bytes]]. *)
Definition keyP (name : list byte) (bytes : list byte) : list piece := [sp1; idT name; eqT] ++ bytesP bytes.

Lemma render_key name bytes : render (keyP name bytes) = str " " ++ name ++ str "=[" ++ emit_byte_list bytes ++ str "]".
Proof. unfold keyP. rewrite render_app, render_bytes. change (render [sp1; idT name; eqT]) with (str " " ++ name ++ str "="). apps. reflexivity. Qed.

Lemma closed_key name bytes : ident_ok name = true -> closed (keyP name bytes).
Proof.
  intros H. unfold keyP. apply closed_app; [|apply closed_bytes]. apply (closed_app [sp1]); [by apply closed_blank|].
  apply (seg_closed_app [idT name] [eqT]); [by apply seg_ident|by eexists _, _|by apply closed_const].
Qed.

Lemma reads_key {A} b name bytes (f : list byte -> P A) ps a ok : reads b (f bytes) ps a ok ->
  reads b (_ ← expect_keyword name; _ ← expect Eq; bs ← parse_byte_list; f bs) (keyP name bytes ++ ps) a ok.
Proof.
  intros H. unfold keyP. cbn [app]. apply reads_sp. rd. eapply reads_bind; [apply reads_bytes|exact H|done].
Qed.

(** [(cond) ] behind a word. *)
Definition condP (c : list piece) : list piece := [sp1; lparT] ++ c ++ [rparT].

Lemma closed_cond c : ended c -> closed (condP c).
Proof.
  intros H. unfold condP. apply closed_app; [by apply closed_const|]. apply ended_closed_app; [done|by intros r; eexists _, _|by apply closed_const].
Qed.

Lemma render_condP c : render (condP c) = str " (" ++ render c ++ str ")".
Proof. unfold condP. rewrite !render_app. reflexivity. Qed.

Lemma reads_condP {A} b s c (f : list byte -> P A) qs a ok : (forall b, reads b parse_paren_inner c s paren_post) ->
  reads b (f s) qs a ok -> reads b (parens ≫= f) (condP c ++ qs) a ok.
Proof.
  intros H Hf. unfold condP. assert (([sp1; lparT] ++ c ++ [rparT]) ++ qs = sp1 :: Tk [byte_of 40] LParen :: c ++ Tk [byte_of 41] RParen :: qs) as -> by by apps.
  apply reads_sp. by apply (reads_parens b s).
Qed.

(** * Loops *)

Definition entryP (o : option (list byte)) : list piece := match o with Some j => keyP (str "entry") j | None => [] end.

Lemma loop_read b sw cond ej tail body pss n : wf_cond cond = true -> Forall2 (stmt_read b true) body pss -> adjacent body = true -> exists ps,
  render ps = braces (spaces n ++ str "do" ++
      match ej with Some j => str " entry=[" ++ emit_byte_list j ++ str "]" | None => [] end) (render (concat pss)) (spaces n) ++
    str " while (" ++ render_cond cond ++ str ") [" ++ emit_byte_list tail ++ str "]" ++ nl /\
  stmt_read b sw (Loop cond ej tail body) ps.
Proof.
  intros Hc H Ha. destruct (cond_reads cond Hc) as (c & Er & He & Hr). set (B := concat pss).
  set (rest := entryP ej ++ [sp1] ++ blockP n B ++ [sp1; idT (str "while")] ++ condP c ++ [sp1] ++ bytesP tail ++ [Sp nl]).
  assert (render (entryP ej) = match ej with Some j => str " entry=[" ++ emit_byte_list j ++ str "]" | None => [] end) as Ee.
  { destruct ej as [j|]; [|done]. cbn [entryP]. rewrite render_key. reflexivity. }
  exists ([Sp (spaces n)] ++ [idT (str "do")] ++ rest). split.
  - unfold rest, braces. rewrite !render_app, Ee, render_block, render_condP, render_sp, Er, render_bytes. apps. reflexivity.
  - apply keyword_read; [done| |].
    + assert (closed rest) as Hcl.
      { unfold rest. apply closed_app; [destruct ej; [by apply closed_key|apply closed_nil]|]. apply closed_app; [by apply closed_blank|].
        apply closed_app; [apply closed_block; by eapply closed_body|]. apply (closed_app [sp1]); [by apply closed_blank|].
        apply (seg_closed_app [idT (str "while")]); [by apply seg_ident|by eexists _, _|]. apply closed_app; [by apply closed_cond|].
        apply closed_app; [by apply closed_blank|]. apply closed_app; [apply closed_bytes|by apply closed_blank]. }
      apply (seg_closed_app [idT (str "do")]); [by apply seg_ident| |done]. unfold rest. destruct ej; by eexists _, _.
    + intros m Hm. assert (ntk B < m)%nat as HB by (cbn [ntk] in Hm; unfold rest, blockP in Hm; rewrite !ntk_app in Hm; cbn [ntk] in Hm; lia).
      apply (reads_weaken _ _ _ (fun _ => True)); [|done]. unfold parse_stmt. rd. unfold parse_do_while_stmt. rd. unfold rest.
      assert (reads b (body0 ← block (until m); _ ← expect_keyword (str "while"); cond_text ← parens; tail_bytes ← parse_byte_list;
          mret (Loop cond_text ej tail_bytes body0)) (blockP n B ++ [sp1; idT (str "while")] ++ condP c ++ [sp1] ++ bytesP tail ++ [Sp nl])
          (Loop cond ej tail body) (fun _ => True)) as R.
      { eapply reads_bind; [by apply (reads_block b body pss n m (fun _ => True))| |done]. cbn [app]. rd.
        apply (reads_condP b cond); [done|]. rd. eapply reads_bind; [apply reads_bytes| |done]. rd. }
      destruct ej as [j|]; cbn [entryP].
      * unfold keyP. cbn [app]. apply reads_sp. rd. eapply reads_bind; [apply reads_bytes| |done]. rd. exact R.
      * apply (reads_at_keyword _ _ false); [done|]. rd. exact R.
Qed.

Lemma while_read b sw cond entry tail body pss n : wf_cond cond = true -> Forall2 (stmt_read b true) body pss -> adjacent body = true -> exists ps,
  render ps = braces (spaces n ++ str "whileblock (" ++ render_cond cond ++ str ") entry=[" ++ emit_byte_list entry ++
                str "] tail=[" ++ emit_byte_list tail ++ str "]") (render (concat pss)) (spaces n) ++ nl /\
  stmt_read b sw (WhileBlock cond entry tail body) ps.
Proof.
  intros Hc H Ha. destruct (cond_reads cond Hc) as (c & Er & He & Hr). set (B := concat pss).
  set (rest := condP c ++ keyP (str "entry") entry ++ keyP (str "tail") tail ++ [sp1] ++ blockP n B ++ [Sp nl]).
  exists ([Sp (spaces n)] ++ [idT (str "whileblock")] ++ rest). split.
  - unfold rest, braces. rewrite !render_app, !render_key, render_block, render_condP, render_sp, Er. apps. reflexivity.
  - apply keyword_read; [done| |].
    + assert (closed rest) as Hcl.
      { unfold rest. apply closed_app; [by apply closed_cond|]. apply closed_app; [by apply closed_key|]. apply closed_app; [by apply closed_key|].
        apply closed_app; [by apply closed_blank|]. apply closed_app; [apply closed_block; by eapply closed_body|by apply closed_blank]. }
      apply (seg_closed_app [idT (str "whileblock")]); [by apply seg_ident|by eexists _, _|done].
    + intros m Hm. assert (ntk B < m)%nat as HB by (cbn [ntk] in Hm; unfold rest, blockP in Hm; rewrite !ntk_app in Hm; cbn [ntk] in Hm; lia).
      apply (reads_weaken _ _ _ (fun _ => True)); [|done]. unfold parse_stmt. rd. unfold parse_whileblock_stmt. rd. unfold rest.
      apply (reads_condP b cond); [done|]. apply reads_key, reads_key. rd.
      eapply reads_bind; [by apply (reads_block b body pss n m (fun _ => True))| |done]. rd.
Qed.

(** The [else] of a block statement. *)
Definition elseP (n : nat) (tail : list byte) (el : list Stmt) (E : list piece) : list piece :=
  match el, tail with
  | [], [] => []
  | _, _ => [sp1; idT (str "else")] ++ match tail with [] => [] | _ => keyP (str "tail") tail end ++ [sp1] ++ blockP n E
  end.

Lemma closed_else n tail el E : closed E -> closed (elseP n tail el E ++ [Sp nl]).
Proof.
  intros H. assert (closed ([sp1; idT (str "else")] ++ match tail with [] => [] | _ => keyP (str "tail") tail end ++ [sp1] ++ blockP n E)) as Hc.
  { apply (closed_app [sp1]); [by apply closed_blank|]. apply (seg_closed_app [idT (str "else")]); [by apply seg_ident|destruct tail; by eexists _, _|].
    apply closed_app; [destruct tail; [apply closed_nil|by apply closed_key]|]. apply closed_app; [by apply closed_blank|by apply closed_block]. }
  apply closed_app; [|by apply closed_blank]. unfold elseP. destruct el, tail; try exact Hc. apply closed_nil.
Qed.

Lemma follows_not post w : follows (hd_kind post) = true -> late_word w = true -> hd_kind post <> Ident w.
Proof. intros H Hw E. rewrite E in H. cbn in H. by rewrite Hw in H. Qed.

Lemma reads_else {A} b n tail el pss (f : list byte -> list Stmt -> A) m s : Forall2 (stmt_read b true) el pss -> adjacent el = true -> (ntk (elseP n tail el (concat pss)) <= m)%nat ->
  reads b (e ← at_keyword (str "else");
    '(then_tail_jmp, else_body) ←
      if e : bool then
        _ ← bump; t ← at_keyword (str "tail");
        tail ← if t : bool then _ ← bump; _ ← expect Eq; parse_byte_list else mret [];
        body ← block (until m); mret (tail, body)
      else mret ([], []);
    mret (f then_tail_jmp else_body)) (elseP n tail el (concat pss) ++ [Sp nl]) (f tail el) (after s).
Proof.
  intros H Ha Hm.
  assert (el = [] /\ tail = [] \/ elseP n tail el (concat pss) = [sp1; idT (str "else")] ++ match tail with [] => [] | _ => keyP (str "tail") tail end ++ [sp1] ++ blockP n (concat pss))
    as [[-> ->]|E] by (destruct el, tail; auto).
  - inversion H; subst. cbn [elseP app]. apply (reads_at_keyword _ _ false).
    { intros post [Hp _]. apply bool_decide_eq_false. by apply (follows_not post). }
    rd.
  - rewrite E in Hm |- *. assert (ntk (concat pss) < m)%nat as HB.
    { revert Hm. clear. unfold blockP. rewrite !ntk_app. cbn [ntk]. lia. }
    apply (reads_weaken _ _ _ (fun _ => True)); [|done]. cbn [app]. rd. destruct tail as [|c tail].
    + cbn [app]. apply (reads_at_keyword _ _ false); [done|]. rd.
      rewrite <- (app_nil_r (blockP n (concat pss))), <- (assoc_L (++)).
      eapply reads_bind; [by apply (reads_block b el pss n m (fun _ => True))| |done]. rd.
    + unfold keyP. cbn [app]. rd. rewrite <- !(assoc_L (++)). eapply reads_bind; [apply reads_bytes| |done]. cbn [app]. rd.
      eapply reads_bind; [by apply (reads_block b el pss n m (fun _ => True))| |done]. rd.
Qed.

Lemma ifblock_read b sw cond cb th tj el pss pss' n : wf_cond cond = true ->
  Forall2 (stmt_read b true) th pss -> adjacent th = true -> Forall2 (stmt_read b true) el pss' -> adjacent el = true -> exists ps,
  render ps = (let head := braces (spaces n ++ str "ifblock (" ++ render_cond cond ++ str ") [" ++ emit_byte_list cb ++ str "]") (render (concat pss)) (spaces n) in
    match el, tj with
    | [], [] => head ++ nl
    | _, _ => braces (head ++ str " else" ++ match tj with [] => [] | _ => str " tail=[" ++ emit_byte_list tj ++ str "]" end)
                (render (concat pss')) (spaces n) ++ nl
    end) /\
  stmt_read b sw (IfBlock cond cb th tj el) ps.
Proof.
  intros Hc H Ha H' Ha'. destruct (cond_reads cond Hc) as (c & Er & He & Hr). set (B := concat pss). set (E := concat pss').
  set (rest := condP c ++ [sp1] ++ bytesP cb ++ [sp1] ++ blockP n B ++ elseP n tj el E ++ [Sp nl]).
  exists ([Sp (spaces n)] ++ [idT (str "ifblock")] ++ rest). split.
  - assert (render (elseP n tj el E) = match el, tj with [], [] => [] | _, _ => str " else" ++
        match tj with [] => [] | _ => str " tail=[" ++ emit_byte_list tj ++ str "]" end ++ str " {" ++ nl ++ render E ++ spaces n ++ str "}" end) as Ee.
    { unfold elseP. destruct el, tj; [done|..]; rewrite !render_app, render_block, ?render_key; apps; reflexivity. }
    unfold rest, braces. rewrite !render_app, Ee, render_block, render_condP, render_sp, Er, render_bytes. destruct el, tj; apps; reflexivity.
  - apply keyword_read; [done| |].
    + assert (closed rest) as Hcl.
      { unfold rest. apply closed_app; [by apply closed_cond|]. apply closed_app; [by apply closed_blank|]. apply closed_app; [apply closed_bytes|].
        apply closed_app; [by apply closed_blank|]. apply closed_app; [apply closed_block; by eapply closed_body|].
        apply closed_else. by eapply closed_body. }
      apply (seg_closed_app [idT (str "ifblock")]); [by apply seg_ident|by eexists _, _|done].
    + intros m Hm. cbn [ntk] in Hm. unfold rest in Hm. rewrite !ntk_app in Hm.
      assert (ntk B < m /\ ntk (elseP n tj el E) <= m)%nat as [HB HE] by (unfold blockP in Hm; rewrite !ntk_app in Hm; cbn [ntk] in Hm; lia).
      unfold parse_stmt. rd. unfold parse_ifblock_stmt. rd. unfold rest.
      apply (reads_condP b cond); [done|]. cbn [app]. rd. eapply reads_bind; [apply reads_bytes| |done]. rd.
      eapply reads_bind; [by apply (reads_block b th pss n m (fun _ => True))| |done].
      by apply (reads_else b n tj el pss' (fun t e => IfBlock cond cb th t e)).
Qed.
