(* ===== verification/RoundBranch.v ===== *)
(** Branches: the parser reads back what the emitter wrote, given that it does
    so for the bodies. *)

From S2P Require Import Prelude Text X86Prologue X86CondText Lexer LexerSpec Ast Emit Parser Pieces Literals Reads RoundBasic RoundText RoundMove RoundCall RoundStmt RoundJump RoundBody RoundLoop.

(** * The head *)

(** The attributes a branch shows, a space behind them. *)
Definition shownP (V : list Attribute) : list piece := match V with [] => [] | _ => attrsP V ++ [sp1] end.

Definition headP (c : list piece) (V : list Attribute) (cb : list byte) : list piece :=
  condP c ++ [sp1] ++ shownP V ++ bytesP cb ++ [sp1].

Lemma render_head c V cb : render (headP c V cb) =
  str " (" ++ render c ++ str ") " ++ emit_attrs V ++ match V with [] => [] | _ => str " " end ++ str "[" ++ emit_byte_list cb ++ str "] ".
Proof.
  unfold headP. rewrite !render_app, render_condP, render_bytes.
  assert (render (shownP V) = emit_attrs V ++ match V with [] => [] | _ => str " " end) as ->.
  { destruct V as [|a V]; [done|]. unfold shownP. by rewrite render_app, render_attrs. }
  apps. reflexivity.
Qed.

Lemma closed_head c V cb : ended c -> forallb wf_attr V = true -> closed (headP c V cb).
Proof.
  intros Hc HV. unfold headP. apply closed_app; [by apply closed_cond|]. apply closed_app; [by apply closed_blank|].
  apply closed_app; [|apply closed_app; [apply closed_bytes|by apply closed_blank]].
  destruct V as [|a V]; [apply closed_nil|]. apply closed_app; [by apply closed_attrs|by apply closed_blank].
Qed.

Lemma reads_head b cond V cb c (f : list byte -> list Attribute -> list byte -> P Stmt) ps s ok : (forall b, reads b parse_paren_inner c cond paren_post) ->
  reads b (f cond V cb) ps s ok ->
  reads b (cond_text ← parens;
    r ← at_keyword (str "return");
    if r : bool then parse_if_return_tail cond_text
    else g ← at_keyword (str "goto");
         if g : bool then parse_if_goto_tail cond_text
         else attrs ← parse_attrs; cond_bytes ← opt_byte_list; f cond_text attrs cond_bytes) (headP c V cb ++ ps) s ok.
Proof.
  intros Hc H. unfold headP. rewrite <- !(assoc_L (++)). apply (reads_condP b cond); [done|]. cbn [app]. apply reads_sp.
  assert (forall post, hd_kind ((shownP V ++ bytesP cb ++ sp1 :: ps) ++ post) = Hash \/ hd_kind ((shownP V ++ bytesP cb ++ sp1 :: ps) ++ post) = LBracket) as Hk.
  { intros post. destruct V as [|a V]; [right; unfold bytesP; by expand_C|left; unfold shownP, attrsP; by expand_C]. }
  apply (reads_at_keyword _ _ false); [intros post _; apply bool_decide_eq_false; intros E; destruct (Hk post); congruence|].
  cbv iota. apply (reads_at_keyword _ _ false); [intros post _; apply bool_decide_eq_false; intros E; destruct (Hk post); congruence|].
  cbv iota. assert (reads b (cond_bytes ← opt_byte_list; f cond V cond_bytes) (bytesP cb ++ sp1 :: ps) s ok) as R.
  { unfold opt_byte_list. apply reads_assoc. apply (reads_at_kind _ _ true); [intros; unfold bytesP; by expand_C|]. cbv iota.
    eapply reads_bind; [apply reads_bytes|by apply reads_sp|done]. }
  destruct V as [|a V]; cbn [shownP].
  - rewrite <- (app_nil_l (bytesP cb ++ _)). eapply reads_bind; [apply (reads_no_attrs b (fun post => hd_kind post = LBracket)); intros; congruence|exact R|].
    intros post _. unfold bytesP. by expand_C.
  - rewrite <- (assoc_L (++)). eapply reads_bind; [apply reads_attrs|by apply reads_sp|done].
Qed.

(** * Behind the braces *)

Definition else_blockP (n : nat) (E : option (list piece)) : list piece :=
  match E with Some E => [sp1; idT (str "else"); sp1] ++ blockP n E | None => [] end.

Lemma reads_else_arm b m n cond cb V pre th inner outer E attrs ok : ensure_head_bytes cond pre V = Ok attrs ->
  match outer, E with
  | Some l, Some E => inner = None /\ exists pss, E = concat pss /\ Forall2 (stmt_read b true) l pss /\ adjacent l = true /\ (ntk E < m)%nat
  | None, None => forall post, ok post -> hd_kind post <> Ident (str "else")
  | _, _ => False
  end ->
  reads b (e ← at_keyword (str "else");
    else_body ← match inner with
                | Some b => mret (Some b)
                | None => if e : bool then _ ← bump; b ← block (until m); mret (Some b) else mret None
                end;
    attrs ← lift (ensure_head_bytes cond pre V);
    mret (IfBranch cond cb attrs pre th else_body)) (else_blockP n E ++ [Sp nl])
    (IfBranch cond cb attrs pre th (match outer with Some l => Some l | None => inner end)) ok.
Proof.
  intros He H. assert (forall el, reads b (attrs ← lift (ensure_head_bytes cond pre V); mret (IfBranch cond cb attrs pre th el)) [Sp nl]
    (IfBranch cond cb attrs pre th el) ok) as R by (intros el; apply (reads_lift (A:=Stmt) _ _ attrs); [exact He|]; rd).
  destruct outer as [l|], E as [E|]; try done.
  - destruct H as [-> (pss & -> & HF & Ha & Hm)]. cbn [else_blockP app]. apply reads_sp. rd.
    eapply reads_bind; [by apply (reads_block b l pss n m (fun _ => True))| |done]. apply reads_ret_bind, R.
  - cbn [else_blockP app]. apply (reads_at_keyword _ _ false).
    { intros post Hp. apply bool_decide_eq_false. exact (H post Hp). }
    destruct inner; apply reads_ret_bind, R.
Qed.

(** * The branch *)

Lemma branch_read b sw cond cb V attrs c body pre th inner outer E n : ended c -> forallb wf_attr V = true ->
  (forall b, reads b parse_paren_inner c cond paren_post) -> ensure_head_bytes cond pre V = Ok attrs -> closed body -> closed (else_blockP n E ++ [Sp nl]) ->
  (forall m, (ntk body + ntk (else_blockP n E) < m)%nat -> reads b (parse_if_body_with_optional_arms (until m) (one m)) body (pre, th, inner) (fun post => hd_kind post = RBrace)) ->
  (forall m, (ntk body + ntk (else_blockP n E) < m)%nat -> match outer, E with
  | Some l, Some E => inner = None /\ exists pss, E = concat pss /\ Forall2 (stmt_read b true) l pss /\ adjacent l = true /\ (ntk E < m)%nat
  | None, None => True
  | _, _ => False
  end) ->
  stmt_read b sw (IfBranch cond cb attrs pre th (match outer with Some l => Some l | None => inner end))
    (Sp (spaces n) :: idT (str "if") :: headP c V cb ++ [Tk [byte_of 123] LBrace; Sp nl] ++ body ++ [Sp (spaces n); Tk [byte_of 125] RBrace] ++ else_blockP n E ++ [Sp nl]).
Proof.
  intros Hc HV Hr He Hb Hcl HR HE. apply keyword_read; [done| |].
  - apply (seg_closed_app [idT (str "if")]); [by apply seg_ident|by eexists _, _|]. apply closed_app; [by apply closed_head|].
    apply closed_app; [by apply closed_const|]. apply closed_app; [done|].
    apply (closed_app [Sp (spaces n)]); [apply closed_blank, blank_spaces|]. apply (closed_app [Tk [byte_of 125] RBrace]); [by apply closed_const|exact Hcl].
  - intros m Hm. cbn [ntk] in Hm. rewrite !ntk_app in Hm. cbn [ntk] in Hm.
    unfold parse_stmt. rd. unfold parse_if_stmt. rd.
    refine (reads_head b cond V cb c (fun _ _ _ => _) _ _ _ Hr _).
    cbn [app]. rd. eapply reads_bind; [apply HR; lia| |done]. rd. apply reads_else_arm; [done|].
    assert (ntk body + ntk (else_blockP n E) < m)%nat as Hm' by lia. specialize (HE m Hm').
    destruct outer, E; try done. intros post [Hp _]. by apply follows_not.
Qed.

Ltac cnt := repeat (progress (rewrite ?ntk_app; cbn [ntk])).

(** The statements stand directly in the braces. *)
Lemma reads_flat b l pss m : Forall2 (stmt_read b false) l pss -> adjacent l = true -> (ntk (concat pss) < m)%nat ->
  reads b (parse_if_body_with_optional_arms (until m) (one m)) (concat pss) ([], l, None) (fun post => hd_kind post = RBrace).
Proof.
  intros H Ha Hm. destruct m as [|m]; [lia|]. unfold parse_if_body_with_optional_arms.
  assert (length l <= ntk (concat pss))%nat as Hl.
  { rewrite (Forall2_length _ _ _ H). apply length_concat. induction H as [|s ps l pss [Hs _] H IH]; constructor; [by eapply shape_ntk|].
    apply IH; [|cbn [concat] in Hm; rewrite ntk_app in Hm; lia]. cbn [adjacent] in Ha. by apply andb_prop in Ha as [_ Ha]. }
  rewrite <- (app_nil_r (concat pss)). apply (reads_bind _ _ _ _ (l, None, None) _ (fun post => hd_kind post = RBrace)); [|rd|done].
  apply reads_fuel. intros n Hn. replace n with (length l + S (n - length l - 1))%nat by lia.
  rewrite <- (app_nil_r (concat pss)). apply (reads_arm_stmts b l pss H []); [done|lia| |].
  - by apply reads_arms_end.
  - intros post Hp. cbn [app]. by rewrite Hp.
Qed.

(** An arm on lines of its own. *)
Definition armP (n : nat) (w : list byte) (B : list piece) : list piece :=
  Sp (spaces n) :: ([Tk [byte_of 64] At; idT w; sp1] ++ blockP n B) ++ [Sp nl].

Lemma closed_arm n w B : ident_ok w = true -> closed B -> closed (armP n w B).
Proof.
  intros Hw HB. apply (closed_app [Sp (spaces n)]); [apply closed_blank, blank_spaces|]. apply closed_app; [|by apply closed_blank].
  apply (closed_app [Tk [byte_of 64] At]); [by apply closed_const|]. apply (seg_closed_app [idT w]); [by apply seg_ident|by eexists _, _|].
  apply (closed_app [sp1]); [by apply closed_blank|by apply closed_block].
Qed.

Definition opt_arm (n : nat) (E : option (list piece)) : list piece := match E with Some E => armP n (str "else") E | None => [] end.

Lemma reads_arms b pre th el ppre pth pel n m : Forall2 (stmt_read b false) pre ppre -> adjacent pre = true ->
  Forall2 (stmt_read b true) th pth -> adjacent th = true ->
  match el, pel with
  | Some l, Some pl => Forall2 (stmt_read b true) l pl /\ adjacent l = true | None, None => True | _, _ => False
  end ->
  (ntk (concat ppre ++ armP n (str "then") (concat pth) ++ opt_arm n (concat (A:=piece) <$> pel)) < m)%nat ->
  reads b (parse_if_body_with_optional_arms (until m) (one m)) (concat ppre ++ armP n (str "then") (concat pth) ++ opt_arm n (concat (A:=piece) <$> pel))
    (pre, th, el) (fun post => hd_kind post = RBrace).
Proof.
  intros H Ha H' Ha' He Hm. destruct m as [|m]; [lia|]. unfold parse_if_body_with_optional_arms.
  assert (length pre <= ntk (concat ppre))%nat as Hl.
  { clear -H. rewrite (Forall2_length _ _ _ H). apply length_concat. induction H as [|s ps l pss [Hs _] H IH]; constructor; [by eapply shape_ntk|done]. }
  set (X := armP n (str "then") (concat pth) ++ opt_arm n (concat (A:=piece) <$> pel)) in *.
  rewrite <- (app_nil_r (concat ppre ++ X)). apply (reads_bind _ _ _ _ (pre, Some th, el) _ (fun post => hd_kind post = RBrace)); [|rd|done].
  apply reads_fuel. intros k Hk. rewrite ntk_app in Hk, Hm.
  assert (2 <= ntk X /\ ntk (concat pth) < ntk X /\ (el <> None -> 4 <= ntk X))%nat as (HX & Hth & HX').
  { unfold X, armP, blockP. destruct pel as [pl|]; cbn [fmap option_fmap option_map opt_arm]; unfold armP, blockP; cnt; [lia|].
    split_and!; [lia|lia|]. intros Hel. by destruct el. }
  replace k with (length pre + S (k - length pre - 1))%nat by lia. apply (reads_arm_stmts b pre ppre H []); [done|lia| |].
  - unfold X at 1, armP. rewrite <- app_comm_cons. apply reads_sp. rewrite <- !(assoc_L (++)). cbn [app].
    eapply (reads_arm b (str "then") th pth n pre None None); [by left|done|done|lia|]. rewrite decide_True by done. apply reads_sp.
    destruct el as [l|], pel as [pl|]; try done; cbn [fmap option_fmap option_map opt_arm].
    + destruct He as [He1 He2]. unfold armP. apply reads_sp. rewrite <- !(assoc_L (++)).
      destruct (k - length pre - 1)%nat as [|k'] eqn:Ek; [specialize (HX' ltac:(done)); lia|].
      eapply (reads_arm b (str "else") l pl n pre (Some th) None); [by right|done|done| |].
      * revert Hm. unfold X. cbn [fmap option_fmap option_map opt_arm]. unfold armP, blockP. cnt. clear. lia.
      * rewrite decide_False by done. apply reads_sp. destruct k' as [|k'']; [specialize (HX' ltac:(done)); lia|]. by apply reads_arms_end.
    + destruct (k - length pre - 1)%nat as [|k'] eqn:Ek; [lia|]. by apply reads_arms_end.
  - intros post Hp. unfold X, armP. by cbn.
Qed.
