(* ===== verification/RoundTrip.v ===== *)
(** The round trip of the source language: a tree that [wf_file] accepts is
    emitted, and the parser reads the text back as that tree. *)

From S2P Require Import Prelude Text X86Prologue X86CondText Lexer LexerSpec Ast Emit Parser Pieces Literals Reads RoundBasic RoundText RoundMove RoundCall RoundStmt RoundJump RoundBody RoundLoop RoundBranch.

#[export] Instance AttrValue_eq_dec : EqDecision AttrValue.
Proof. solve_decision. Defined.
#[export] Instance Attribute_eq_dec : EqDecision Attribute.
Proof. solve_decision. Defined.

(** * What keeps its text *)

Definition find_op (op : list byte) : option (list piece) := snd <$> List.find (fun e => str_eqb e.1 op) op_table.

(** What the head of a branch shows of its attributes, and that the parser
    completes it to them. *)
Definition branch_attrs (cond : list byte) (pre : list Stmt) (attrs : list Attribute) : bool :=
  match visible_attrs attrs cond with
  | Ok V => forallb wf_attr V && match ensure_head_bytes cond pre V with Ok a => bool_decide (a = attrs) | _ => false end
  | _ => false
  end.

(** A branch without attributes to show and without leading statements. *)
Definition is_flat (cond : list byte) (pre : list Stmt) (attrs : list Attribute) : bool :=
  match visible_attrs attrs cond, pre with Ok [], [] => true | _, _ => false end.

(** [b] is the width of the module; [sw] tells whether a switch may stand
    here: the parser does not look for one directly in the braces of an
    [if]. *)
Fixpoint wf_stmt (b : Z) (sw : bool) (s : Stmt) : bool :=
  match s with
  | StComment text => wf_comment text
  | Return v _ => u64_ok v
  | Prologue _ _ _ | Epilogue _ _ _ => wf_frame b s
  | IfReturn cond value a cmp code wide =>
      raw_cond cond && (bool_decide (value = []) || wf_value_text is_semicolon_or_hash value) && u64_ok a && code_ok code
  | Label a | Goto a _ => u64_ok a
  | IfGoto cond a _ code _ => raw_cond cond && u64_ok a && code_ok code
  | Switch selector cases dflt dispatch va => sw && wf_switch selector cases dflt dispatch va
  | ReturnExpr text _ => bool_decide (text = []) || (wf_value_text is_semicolon text && not_number text)
  | Call name args _ t => wf_call name args t
  | Move d x bytes => wf_assign d [] x false bytes
  | RegArith d op x bytes => match find_op op with Some mark => wf_assign d mark x true bytes | None => false end
  | IfBranch cond cb attrs pre th el =>
      wf_cond cond && branch_attrs cond pre attrs &&
      (forallb (wf_stmt b false) pre && adjacent pre) &&
      (forallb (wf_stmt b (negb (is_flat cond pre attrs))) th && adjacent th) &&
      match el with Some l => forallb (wf_stmt b true) l && adjacent l | None => true end
  | Loop cond _ _ body | WhileBlock cond _ _ body => wf_cond cond && (forallb (wf_stmt b true) body && adjacent body)
  | IfBlock cond _ th _ el =>
      wf_cond cond && (forallb (wf_stmt b true) th && adjacent th) && (forallb (wf_stmt b true) el && adjacent el)
  | _ => wf_directive s
  end.

Definition wf_stmts (b : Z) (sw : bool) (l : list Stmt) : bool := forallb (wf_stmt b sw) l && adjacent l.

(** * Statements *)

Section stmts.
Context (printable : list byte -> bool) (b : Z).

Definition round (s : Stmt) : Prop := forall sw, wf_stmt b sw s = true -> forall n, exists ps,
  emit_stmt printable s (spaces n) = Ok (render ps) /\ stmt_read b sw s ps.

Lemma deeper_spaces n : deeper (spaces n) = spaces (n + 4).
Proof. unfold deeper, spaces. by rewrite replicate_add. Qed.

(** A statement on one line, behind its indentation. *)
Lemma round_simple sw s n : (exists ps, render ps = emit_simple printable s [] /\ simple_ok b sw s ps) ->
  emit_stmt printable s (spaces n) = Ok (emit_simple printable s (spaces n)) ->
  emit_simple printable s (spaces n) = spaces n ++ emit_simple printable s [] -> exists ps,
  emit_stmt printable s (spaces n) = Ok (render ps) /\ stmt_read b sw s ps.
Proof.
  intros (ps & Er & H) E1 E2. exists (Sp (spaces n) :: ps). rewrite E1, E2, render_cons, Er. split; [done|].
  by apply simple_read, simple_indent.
Qed.

Lemma round_bodies l sw n : Forall round l -> forallb (wf_stmt b sw) l = true -> exists pss,
  emit_stmts_with (emit_stmt printable) l (spaces n) = Ok (render (concat pss)) /\ Forall2 (stmt_read b sw) l pss.
Proof.
  induction 1 as [|s l Hs H IH]; intros Hw; [by exists []|]. cbn [forallb] in Hw. apply andb_prop in Hw as [Hw Hl].
  destruct (Hs sw Hw n) as (ps & E & Hr), (IH Hl) as (pss & E' & Hr'). exists (ps :: pss). split; [|by constructor].
  cbn [emit_stmts_with]. rewrite E. cbn [mbind res_bind]. rewrite E'. cbn [mbind res_bind concat]. by rewrite render_app.
Qed.

Lemma op_in op O : find_op op = Some O -> (op, O) ∈ op_table.
Proof.
  unfold find_op. destruct (List.find _ op_table) as [[o p]|] eqn:E; [|done]. cbn. intros [= ->].
  apply List.find_some in E as [E1 E2%bool_decide_eq_true]. cbn in E2. subst. by apply list_elem_of_In.
Qed.

Lemma op_render op O : (op, O) ∈ op_table -> render O ++ str "= " = op ++ str " " /\ render (O ++ [eqT]) = op /\ O <> [].
Proof.
  unfold op_table. intros H. repeat (apply elem_of_cons in H as [E|H]; [simplify_eq; done|]). by apply not_elem_of_nil in H.
Qed.


Lemma not_late name : stmt_word name = false -> late_word name = false.
Proof.
  unfold stmt_word, late_word. cbn [stmt_words existsb]. intros H. repeat (apply orb_false_iff in H as [? H]).
  repeat match goal with E : str_eqb _ _ = false |- _ => try rewrite E; clear E end. done.
Qed.

Lemma move_start_ok ks : move_start ks = true -> stmt_start ks = true.
Proof.
  unfold move_start, stmt_start. destruct ks as [|k ks]; [done|]. destruct k; try done. destruct ks as [|k2 ks]; [done|].
  intros [[[H _]%andb_prop _]%andb_prop _]%andb_prop. by rewrite not_late by by apply negb_true_iff.
Qed.

Lemma call_start_ok ks : call_start ks = true -> stmt_start (ks ++ [LParen]) = true.
Proof.
  unfold call_start, stmt_start. destruct ks as [|k ks]; [done|]. destruct k; try done. cbn [app].
  intros [H _]%andb_prop. by rewrite not_late by by apply negb_true_iff.
Qed.

Lemma side_emitted d : wf_side d = true -> emit_move_side d = d.
Proof. unfold wf_side, emit_move_side. by intros [[[-> _]%andb_prop _]%andb_prop _]%andb_prop. Qed.

Lemma assign_emitted d O x semi bytes : wf_assign d O x semi bytes = true -> emit_move_side d = d /\ emit_move_side x = x.
Proof. unfold wf_assign. intros H. bools. split; by apply side_emitted. Qed.

Lemma head_app {A} (l r : list A) x : l <> [] -> head (l ++ r) = Some x -> head l = Some x.
Proof. by destruct l. Qed.

Lemma assign_start d O x semi bytes : wf_assign d O x semi bytes = true ->
  stmt_start (text_kinds d ++ [next_kind O]) = true /\
  (head (text_kinds d ++ [next_kind O]) = Some LBracket -> bool_decide (head (text_kinds d) = Some LBracket) = true).
Proof.
  unfold wf_assign. intros H. bools. split; [by apply move_start_ok|]. intros Hh. apply bool_decide_eq_true.
  apply (head_app _ [next_kind O]); [|done]. intros E. destruct (side_operand d ltac:(done)) as (ps & _ & _ & Ho & Ek & _).
  destruct (o_first ps Ho) as (w & k & qs & ->). by rewrite E in Ek.
Qed.

Lemma move_core sw d x bytes : wf_assign d [] x false bytes = true -> exists ps,
  render ps = emit_simple printable (Move d x bytes) [] /\ simple_ok b sw (Move d x bytes) ps.
Proof.
  intros H. destruct (assign_stmt d [] x false bytes ltac:(by left) H) as (ps & Er & Hc & Hs & Hr).
  destruct (assign_emitted _ _ _ _ _ H) as [E1 E2], (assign_start _ _ _ _ _ H) as [S1 S2]. exists ps. split.
  - cbn [emit_simple]. rewrite Er, E1, E2. apps. reflexivity.
  - split; [split; [done|by eexists]|]. intros list one. by eapply reads_weaken; [apply Hr|].
Qed.

Lemma arith_core sw d op O x bytes : find_op op = Some O -> wf_assign d O x true bytes = true -> exists ps,
  render ps = emit_simple printable (RegArith d op x bytes) [] /\ simple_ok b sw (RegArith d op x bytes) ps.
Proof.
  intros Ho H. apply op_in in Ho. destruct (op_render op O Ho) as (Eo & Eo' & Hn).
  destruct (assign_stmt d O x true bytes ltac:(right; by eexists) H) as (ps & Er & Hc & Hs & Hr).
  destruct (assign_emitted _ _ _ _ _ H) as [E1 E2], (assign_start _ _ _ _ _ H) as [S1 S2]. exists ps. split.
  - cbn [emit_simple]. rewrite Er, E1, E2. cbn [app]. f_equal. f_equal. rewrite (assoc_L (++) (render O)), Eo. by apps.
  - split; [split; [done|by eexists]|]. intros list one. rewrite Eo' in Hr. apply (reads_weaken _ _ _ (fun _ => True)); [|done]. specialize (Hr b list one sw). by destruct O.
Qed.

Lemma call_core sw name args bytes t : wf_call name args t = true -> exists ps,
  render ps = emit_simple printable (Call name args bytes t) [] /\ simple_ok b sw (Call name args bytes t) ps.
Proof.
  intros H. destruct (call_stmt name args bytes t H) as (ps & ks & Er & Hc & Hk & Hs & Ek & Hr). exists ps. split; [exact Er|].
  split; [split; [done|]|].
  - exists (ks ++ [LParen]). split; [exact Hs|]. split; [by apply call_start_ok|]. intros Hh. cbn [opens_bracket]. subst ks.
    destruct (call_bare name); [|done]. cbn [andb]. apply bool_decide_eq_true. apply (head_app _ [LParen]); [|done]. by intros E; rewrite E in Hk.
  - intros list one. eapply reads_weaken; [apply Hr|]. intros post [Hp _] E. by rewrite E in Hp.
Qed.

Lemma round_label sw a n : u64_ok a = true -> exists ps, emit_stmt printable (Label a) (spaces n) = Ok (render ps) /\ stmt_read b sw (Label a) ps.
Proof.
  intros Ha. set (m := if (4 <=? length (spaces n))%nat then (length (spaces n) - 4)%nat else n).
  exists (Sp (spaces m) :: [idT (label_ref a)] ++ C (str ":") ++ [Sp nl]). split; [|by apply simple_read, simple_indent, label_stmt].
  cbn [emit_stmt emit_simple]. f_equal. rewrite render_cons, !render_app, render_tk. cbn [piece_text].
  assert ((if (4 <=? length (spaces n))%nat then take (length (spaces n) - 4) (spaces n) else spaces n) = spaces m) as ->; [|apps; reflexivity].
  unfold m. case_match; [|done]. unfold spaces. rewrite take_replicate, length_replicate. f_equal. lia.
Qed.

Lemma round_loop cond ej tail body sw n : Forall round body -> wf_stmt b sw (Loop cond ej tail body) = true -> exists ps,
  emit_stmt printable (Loop cond ej tail body) (spaces n) = Ok (render ps) /\ stmt_read b sw (Loop cond ej tail body) ps.
Proof.
  intros IH H. cbn [wf_stmt] in H. apply andb_prop in H as [Hc [Hb Ha]%andb_prop].
  destruct (round_bodies body true (n + 4) IH Hb) as (pss & E & HF).
  destruct (loop_read b sw cond ej tail body pss n Hc HF Ha) as (ps & Er & H). exists ps. split; [|done].
  cbn [emit_stmt]. rewrite deeper_spaces, E. cbn [mbind res_bind]. by rewrite Er.
Qed.

Lemma round_while cond entry tail body sw n : Forall round body -> wf_stmt b sw (WhileBlock cond entry tail body) = true -> exists ps,
  emit_stmt printable (WhileBlock cond entry tail body) (spaces n) = Ok (render ps) /\ stmt_read b sw (WhileBlock cond entry tail body) ps.
Proof.
  intros IH H. cbn [wf_stmt] in H. apply andb_prop in H as [Hc [Hb Ha]%andb_prop].
  destruct (round_bodies body true (n + 4) IH Hb) as (pss & E & HF).
  destruct (while_read b sw cond entry tail body pss n Hc HF Ha) as (ps & Er & H). exists ps. split; [|done].
  cbn [emit_stmt]. rewrite deeper_spaces, E. cbn [mbind res_bind]. by rewrite Er.
Qed.

Lemma round_ifblock cond cb th tj el sw n : Forall round th -> Forall round el -> wf_stmt b sw (IfBlock cond cb th tj el) = true -> exists ps,
  emit_stmt printable (IfBlock cond cb th tj el) (spaces n) = Ok (render ps) /\ stmt_read b sw (IfBlock cond cb th tj el) ps.
Proof.
  intros IH IH' H. cbn [wf_stmt] in H. apply andb_prop in H as [[Hc [Hb Ha]%andb_prop]%andb_prop [Hb' Ha']%andb_prop].
  destruct (round_bodies th true (n + 4) IH Hb) as (pss & E & HF), (round_bodies el true (n + 4) IH' Hb') as (pss' & E' & HF').
  destruct (ifblock_read b sw cond cb th tj el pss pss' n Hc HF Ha HF' Ha') as (ps & Er & H). exists ps. split; [|done].
  cbn [emit_stmt]. rewrite deeper_spaces, E, E'. cbn [mbind res_bind]. rewrite Er. by destruct el, tj.
Qed.

(** The pieces of an optional arm. *)
Definition else_read (el : option (list Stmt)) (pel : option (list (list piece))) : Prop :=
  match el, pel with Some l, Some pl => Forall2 (stmt_read b true) l pl /\ adjacent l = true | None, None => True | _, _ => False end.

Lemma round_else el n : (forall l, el = Some l -> Forall round l) -> match el with Some l => forallb (wf_stmt b true) l && adjacent l | None => true end = true ->
  exists pel, match el with Some l => e ← emit_stmts_with (emit_stmt printable) l (spaces n); Ok (Some e) | None => Ok None end =
    Ok ((fun ps => render (concat ps)) <$> pel) /\
  else_read el pel.
Proof.
  intros IH H. destruct el as [l|]; [|by exists None]. apply andb_prop in H as [Hb Ha].
  destruct (round_bodies l true n (IH l eq_refl) Hb) as (pss & E & HF). exists (Some pss). by rewrite E.
Qed.

Lemma render_rbrace n : render [Sp (spaces n); Tk [byte_of 125] RBrace] = spaces n ++ str "}".
Proof. reflexivity. Qed.

(** A branch whose statements stand directly in its braces. *)
Lemma round_flat cond cb th el sw n pth pel : wf_cond cond = true ->
  Forall2 (stmt_read b false) th pth -> adjacent th = true ->
  else_read el pel ->
  exists ps, render ps = spaces n ++ str "if (" ++ render_cond cond ++ str ") [" ++ emit_byte_list cb ++ str "] {" ++ nl ++ render (concat pth) ++
      opt_else ((fun ps => render (concat ps)) <$> pel) (fun e => spaces n ++ str "} else {" ++ nl ++ e) ++ spaces n ++ str "}" ++ nl /\
    stmt_read b sw (IfBranch cond cb [] [] th el) ps.
Proof.
  intros Hc HF Ha He. destruct (cond_reads cond Hc) as (c & Er & Hec & Hr). set (E := concat (A:=piece) <$> pel).
  eexists. split; [|assert (IfBranch cond cb [] [] th el = IfBranch cond cb [] [] th (match el with Some l => Some l | None => None end)) as -> by (by destruct el);
    apply (branch_read b sw cond cb [] [] c (concat pth) [] th None el E n Hec eq_refl Hr eq_refl)].
  - rewrite render_cons, (render_cons (idT (str "if"))), !render_app, render_head, render_rbrace, Er. unfold E.
    destruct pel as [pl|]; cbn [fmap option_fmap option_map opt_else else_blockP]; [rewrite render_app, render_block|]; apps; reflexivity.
  - by eapply closed_body.
  - unfold E. destruct el as [l|], pel as [pl|]; try done; cbn [fmap option_fmap option_map else_blockP]; [|by apply closed_blank].
    apply closed_app; [|by apply closed_blank]. apply (closed_app [sp1]); [by apply closed_blank|].
    apply (seg_closed_app [idT (str "else")]); [by apply seg_ident|by eexists _, _|]. apply (closed_app [sp1]); [by apply closed_blank|].
    apply closed_block. destruct He as [He _]. by eapply closed_body.
  - intros m Hm. apply reads_flat; [done|done|lia].
  - intros m Hm. unfold E in *. destruct el as [l|], pel as [pl|]; try done. destruct He as [He1 He2]. split; [done|]. exists pl.
    split_and!; [done|done|done|]. revert Hm. cbn [fmap option_fmap option_map else_blockP]. unfold blockP. cnt. lia.
Qed.

Lemma render_arm n w B : render (armP n w B) = spaces n ++ str "@" ++ w ++ str " {" ++ nl ++ render B ++ spaces n ++ str "}" ++ nl.
Proof.
  unfold armP. rewrite render_cons, !render_app, render_block. change (render [Tk [byte_of 64] At; idT w; sp1]) with (str "@" ++ w ++ str " ").
  apps. reflexivity.
Qed.

(** A branch with attributes or leading statements: its arms are marked. *)
Lemma round_arms cond cb V attrs pre th el sw n ppre pth pel : wf_cond cond = true -> forallb wf_attr V = true -> ensure_head_bytes cond pre V = Ok attrs ->
  Forall2 (stmt_read b false) pre ppre -> adjacent pre = true ->
  Forall2 (stmt_read b true) th pth -> adjacent th = true ->
  else_read el pel ->
  exists ps, render ps = spaces n ++ str "if (" ++ render_cond cond ++ str ") " ++ emit_attrs V ++ match V with [] => [] | _ => str " " end ++
      str "[" ++ emit_byte_list cb ++ str "] {" ++ nl ++ render (concat ppre) ++
      braces (spaces (n + 4) ++ str "@then") (render (concat pth)) (spaces (n + 4)) ++ nl ++
      opt_else ((fun ps => render (concat ps)) <$> pel) (fun e => braces (spaces (n + 4) ++ str "@else") e (spaces (n + 4)) ++ nl) ++ spaces n ++ str "}" ++ nl /\
    stmt_read b sw (IfBranch cond cb attrs pre th el) ps.
Proof.
  intros Hc HV Hen HFp Hap HF Ha He. destruct (cond_reads cond Hc) as (c & Er & Hec & Hr).
  set (body := concat ppre ++ armP (n + 4) (str "then") (concat pth) ++ opt_arm (n + 4) (concat (A:=piece) <$> pel)).
  eexists. split; [|apply (branch_read b sw cond cb V attrs c body pre th el None None n Hec HV Hr Hen)].
  - rewrite render_cons, (render_cons (idT (str "if"))), !render_app, render_head, render_rbrace, Er. unfold body, braces.
    rewrite !render_app, render_arm.
    destruct pel as [pl|]; cbn [fmap option_fmap option_map opt_else opt_arm]; [rewrite render_arm|]; apps; reflexivity.
  - unfold body. apply closed_app; [by eapply closed_body|]. apply closed_app; [apply closed_arm; [done|by eapply closed_body]|].
    destruct el as [l|], pel as [pl|]; try done. destruct He as [He _]. apply closed_arm; [done|by eapply closed_body].
  - by apply closed_blank.
  - intros m Hm. unfold body. apply reads_arms; [done|done|done|done|done|]. fold body. lia.
  - done.
Qed.

Lemma round_branch cond cb attrs pre th el sw n : Forall round pre -> Forall round th -> (forall l, el = Some l -> Forall round l) ->
  wf_stmt b sw (IfBranch cond cb attrs pre th el) = true -> exists ps,
  emit_stmt printable (IfBranch cond cb attrs pre th el) (spaces n) = Ok (render ps) /\ stmt_read b sw (IfBranch cond cb attrs pre th el) ps.
Proof.
  intros IHp IHt IHe H. cbn [wf_stmt] in H. apply andb_prop in H as [[[[Hc Hat]%andb_prop [Hbp Hap]%andb_prop]%andb_prop [Hbt Hat']%andb_prop]%andb_prop He].
  unfold branch_attrs, is_flat in *. destruct (visible_attrs attrs cond) as [V| |] eqn:EV; [|done|done]. apply andb_prop in Hat as [HV Hen].
  destruct (ensure_head_bytes cond pre V) as [a| |] eqn:Een; [|done|done]. apply bool_decide_eq_true in Hen as ->.
  cbn [emit_stmt]. rewrite EV, !deeper_spaces. cbn [mbind res_bind].
  destruct (decide (V = [] /\ pre = [])) as [[-> ->]|Hn].
  - cbn in Een. simplify_eq. destruct (round_bodies th false (n + 4) IHt Hbt) as (pth & Et & HFt), (round_else el (n + 4) IHe He) as (pel & Ee & HFe).
    rewrite Et. cbn [mbind res_bind]. rewrite Ee. cbn [mbind res_bind].
    destruct (round_flat cond cb th el sw n pth pel Hc HFt Hat' HFe) as (ps & Er & H). exists ps. split; [|done]. rewrite Er. f_equal. apps. reflexivity.
  - assert (match V, pre with [], [] => true | _, _ => false end = false) as Ef by (destruct V, pre; tauto). 
    assert (forallb (wf_stmt b true) th = true) as Hbt' by (destruct V, pre; (done || tauto)).
    destruct (round_bodies pre false (n + 4) IHp Hbp) as (ppre & Ep & HFp), (round_bodies th true (n + 4 + 4) IHt Hbt') as (pth & Et & HFt),
      (round_else el (n + 4 + 4) IHe He) as (pel & Ee & HFe).
    destruct (round_arms cond cb V attrs pre th el sw n ppre pth pel Hc HV Een HFp Hap HFt Hat' HFe) as (ps & Er & H). exists ps. split; [|done].
    rewrite Ep, Et, Ee. cbn [mbind res_bind]. rewrite Er.
    destruct V, pre; [tauto|..]; f_equal; apps; reflexivity.
Qed.

Ltac round_tac := apply round_simple; [|reflexivity|first [reflexivity|cbn [emit_simple]; unfold emit_prologue, emit_epilogue; case_match; reflexivity]].

Lemma round_stmt s : round s.
Proof.
  induction s as [s IH] using stmt_ind. intros sw Hw n. destruct s; cbn [wf_stmt inside] in *;
    try (round_tac; by apply directive_stmt); try (apply round_label; exact Hw).
  - round_tac. exists (commentP text). split; [|by apply comment_stmt]. cbn [emit_simple]. unfold commentP. rewrite render_cons. by cbn [piece_text]; apps.
  - round_tac. by apply return_stmt.
  - round_tac. by apply frame_stmt.
  - round_tac. by apply frame_stmt.
  - round_tac. bools. apply if_return_stmt; [done| |done|done]. apply orb_prop in H2 as [?%bool_decide_eq_true|?]; tauto.
  - round_tac. by apply goto_stmt.
  - round_tac. bools. by apply if_goto_stmt.
  - apply andb_prop in Hw as [-> Hw]. destruct (switch_stmt printable b selector cases default_addr dispatch table_va n Hw) as (ps & Er & H).
    exists ps. cbn [emit_stmt]. rewrite Er. split; [done|]. by apply simple_read.
  - round_tac. apply return_expr_stmt. apply orb_prop in Hw as [?%bool_decide_eq_true|?]; tauto.
  - round_tac. by apply call_core.
  - destruct IH as (IHp & IHt & IHe). by apply round_branch.
  - round_tac. by apply move_core.
  - by apply round_loop.
  - destruct IH. by apply round_ifblock.
  - by apply round_while.
  - round_tac. destruct (find_op op) as [mark|] eqn:E; [|done]. by eapply arith_core.
Qed.
End stmts.
