(* ===== verification/RoundFile.v ===== *)
(** Items and files: what the emitter writes for a tree that [wf_file]
    accepts, the parser reads back as that tree. *)

From S2P Require Import Prelude Text X86Prologue X86CondText Lexer LexerSpec Ast Emit Parser Pieces Literals Reads RoundBasic RoundText RoundMove RoundCall RoundStmt RoundJump RoundBody RoundLoop RoundBranch RoundTrip.

#[export] Instance Ty_eq_dec : EqDecision Ty.
Proof. solve_decision. Defined.
#[export] Instance LocalKind_eq_dec : EqDecision LocalKind.
Proof. solve_decision. Defined.
#[export] Instance LocalDecl_eq_dec : EqDecision LocalDecl.
Proof. solve_decision. Defined.

(** * Items without statements *)

(** The item is read from the pieces, given more fuel than they have tokens. *)
Definition item_read (b : Z) (it : Item) (ps : list piece) : Prop :=
  closed ps /\ (0 < ntk ps)%nat /\ (forall post, hd_kind (ps ++ post) <> RBrace /\ hd_kind (ps ++ post) <> Eof) /\
  forall fuel, (ntk ps < fuel)%nat -> reads b (parse_item fuel) ps it (fun _ => True).

(** One level down, behind a directive's name. *)
Ltac item_at := let f := fresh "f" in let Hf := fresh "Hf" in
  intros f Hf; destruct f as [|f]; [lia|]; cbn [parse_item]; rd; unfold parse_at_directive; rd.

Definition rawP (addr : Z) (bytes : list byte) (n : nat) : list piece :=
  [Sp (spaces n)] ++ C (str "@raw(") ++ [hexT addr] ++ C (str ", ") ++ bytes_tail bytes.

Lemma raw_item b addr bytes n : u64_ok addr = true -> item_read b (Raw addr bytes) (rawP addr bytes n).
Proof.
  intros Ha. unfold rawP. split_and!; [|ntks; lia|by expand_C|].
  - apply closed_app; [apply closed_blank, blank_spaces|]. segs.
  - expand_C. item_at. apply reads_close.
Qed.

Lemma render_raw addr bytes d : render (rawP addr bytes (d * 4)) = emit_raw addr bytes d.
Proof. unfold rawP, emit_raw. rewrite !render_app, render_bytes_tail, render_tk, render_sp. apps. reflexivity. Qed.

(** Lists of lines. *)
Lemma closed_lines pss : Forall (fun ps => closed (ps ++ C (str ",") ++ [Sp nl])) pss -> closed (lines pss).
Proof. intros H. unfold lines. apply closed_concat. by apply Forall_map. Qed.

Lemma length_lines pss : (length pss <= ntk (lines pss))%nat.
Proof.
  unfold lines. rewrite <- (length_map (fun ps => ps ++ C (str ",") ++ [Sp nl])). apply length_concat, Forall_map, Forall_forall.
  intros ps _. ntks. lia.
Qed.

Lemma render_lines pss : render (lines pss) = concat (map (fun ps => render ps ++ str "," ++ nl) pss).
Proof.
  unfold lines. rewrite render_concat, map_map. f_equal. apply map_ext. intros ps. rewrite !render_app. by rewrite render_sp.
Qed.

(** A list of items on lines of their own between brackets. *)
Lemma reads_lines {A B} b (item : P A) close xs pss (f : list A -> P B) qs y ok : close <> Comma ->
  Forall2 (reads_item b item close) xs pss -> (forall post, hd_kind (qs ++ post) = close) ->
  reads b (f xs) qs y ok -> reads b (with_fuel (while_list item close) ≫= f) (lines pss ++ qs) y ok.
Proof.
  intros Hc H Hk Hq. eapply reads_bind; [apply reads_fuel; intros n Hn; apply (reads_while_list b item close); [exact H|]|exact Hq|intros post _; apply Hk].
  rewrite (Forall2_length _ _ _ H). pose proof (length_lines pss). lia.
Qed.

Definition stringsP (addr : Z) (strings : list (list byte)) (n : nat) : list piece :=
  [Sp (spaces n)] ++ C (str "@strings(") ++ [hexT addr] ++ C (str ", [") ++ [Sp nl] ++
  lines (map (fun s => [Sp (spaces (n + 4)); strT s]) strings) ++ [Sp (spaces n)] ++ C (str "])") ++ [Sp nl].

Lemma strings_item b addr strings n : u64_ok addr = true -> forallb utf8_valid strings = true ->
  item_read b (Strings addr strings) (stringsP addr strings n).
Proof.
  intros Ha Hs. unfold stringsP. set (L := lines (map (fun s => [Sp (spaces (n + 4)); strT s]) strings)).
  assert (closed L) as HL.
  { apply closed_lines, Forall_map, (forallb_Forall utf8_valid); [|exact Hs]. intros s Hu%utf8_of_valid.
    apply (closed_app [Sp (spaces (n + 4)); strT s]); [|apply closed_app; [by apply closed_const|by apply closed_blank]].
    apply (closed_app [Sp (spaces (n + 4))]); [apply closed_blank, blank_spaces|by apply closed_str]. }
  split_and!; [|ntks; lia|by expand_C|].
  - apply closed_app; [apply closed_blank, blank_spaces|]. apply closed_app; [by apply closed_const|]. apply seg_closed_app; [auto with seg|opens_tac|].
    apply closed_app; [by apply closed_const|]. apply closed_app; [by apply closed_blank|]. apply closed_app; [done|].
    apply closed_app; [apply closed_blank, blank_spaces|]. apply closed_app; [by apply closed_const|by apply closed_blank].
  - expand_C. item_at. unfold L. apply (reads_lines b expect_string RBracket strings); [done| |by expand_C|].
    + apply Forall2_map_r, Forall_forall. intros s _. split_and!; [|done|cbn; lia]. apply reads_sp. apply reads_last, reads_string, reads_ret.
    + expand_C. rd.
Qed.

Lemma render_strings addr strings d : render (stringsP addr strings (d * 4)) = emit_strings addr strings d.
Proof.
  unfold stringsP, emit_strings. rewrite !render_app, render_tk, render_lines, map_map, emit_all_concat, !render_sp.
  replace ((d + 1) * 4)%nat with (d * 4 + 4)%nat by lia. apps.
  assert (map (fun x => render [Sp (spaces (d * 4 + 4)); strT x] ++ str "," ++ nl) strings =
    map (fun s => spaces (d * 4 + 4) ++ quote_string s ++ str "," ++ nl) strings) as ->; [|reflexivity].
  apply map_ext. intros s. rewrite render_cons, render_tk. by apps.
Qed.

(** * Notes *)

Definition noteP (e : NoteEntry) (n : nat) : list piece :=
  [Sp (spaces n)] ++ C (str "{") ++ [Sp nl] ++
  [Sp (spaces (n + 4))] ++ C (str "type: ") ++ [hexT (note_type e)] ++ C (str ",") ++ [Sp nl] ++
  [Sp (spaces (n + 4))] ++ C (str "name: ") ++ [strT (note_name e)] ++ C (str ",") ++ [Sp nl] ++
  [Sp (spaces (n + 4))] ++ C (str "desc: ") ++ bytesP (desc e) ++ C (str ",") ++ [Sp nl] ++
  [Sp (spaces n)] ++ C (str "}").

Definition wf_note (e : NoteEntry) : bool := (0 <=? note_type e) && (note_type e <? 2 ^ 32) && utf8_valid (note_name e).

Lemma closed_note e n : wf_note e = true -> closed (noteP e n).
Proof.
  unfold wf_note. intros [[H1 H2]%andb_prop Hu%utf8_of_valid]%andb_prop.
  assert (closed ([Sp (spaces n)] ++ C (str "}"))) as He.
  { apply closed_app; [apply closed_blank, blank_spaces|by apply closed_const]. }
  assert (forall ps, closed ps -> closed (C (str ",") ++ [Sp nl] ++ ps)) as Hc.
  { intros ps Hps. apply closed_app; [by apply closed_const|]. apply closed_app; [by apply closed_blank|done]. }
  assert (forall t ps, const_ok false (C t) = true -> closed ps -> closed ([Sp (spaces (n + 4))] ++ C t ++ ps)) as Hk.
  { intros t ps Ht Hps. apply closed_app; [apply closed_blank, blank_spaces|]. apply closed_app; [by apply closed_const|done]. }
  unfold noteP. apply closed_app; [apply closed_blank, blank_spaces|]. apply closed_app; [by apply closed_const|]. apply closed_app; [by apply closed_blank|].
  apply Hk; [by vm_compute|]. apply seg_closed_app; [apply seg_hex; unfold in_range; lia|opens_tac|]. apply Hc.
  apply Hk; [by vm_compute|]. apply closed_app; [by apply closed_str|]. apply Hc.
  apply Hk; [by vm_compute|]. apply closed_app; [apply closed_bytes|]. by apply Hc.
Qed.

Lemma reads_fuel_bind {A B} b (f : nat -> P A) (k : A -> P B) ps a ok :
  (forall n, (ntk ps < n)%nat -> reads b (f n ≫= k) ps a ok) -> reads b (with_fuel f ≫= k) ps a ok.
Proof.
  intros H pre post Ht Hp. unfold with_fuel, mbind, P_bind. apply (H (S (length (tokens (st (pre ++ ps ++ post) b pre))))); [|done|done].
  cbn [tokens st]. rewrite length_place, !ntk_app. lia.
Qed.

Lemma reads_note b e n : wf_note e = true -> reads_item b parse_note_entry RBracket e (noteP e n).
Proof.
  unfold wf_note. intros [[H1 H2]%andb_prop _]%andb_prop. unfold noteP. split_and!; [|by expand_C|ntks; lia].
  unfold parse_note_entry. expand_C. rd. apply reads_fuel_bind. intros m Hm. cbn [ntk] in Hm. rewrite ntk_app in Hm. cbn [ntk] in Hm.
  do 4 (destruct m as [|m]; [lia|]). clear Hm. cbn [note_loop]. rd. rewrite H2. rd. cbn [note_loop]. rd. cbn [note_loop]. rd.
  eapply reads_bind; [apply reads_bytes| |done]. rd. cbn [note_loop]. rd. destruct e. apply reads_ret.
Qed.

Definition notesP (addr : Z) (entries : list NoteEntry) (n : nat) : list piece :=
  [Sp (spaces n)] ++ C (str "@notes(") ++ [hexT addr] ++ C (str ", [") ++ [Sp nl] ++
  lines (map (fun e => noteP e (n + 4)) entries) ++ [Sp (spaces n)] ++ C (str "])") ++ [Sp nl].

Lemma notes_item b addr entries n : u64_ok addr = true -> forallb wf_note entries = true ->
  item_read b (Notes addr entries) (notesP addr entries n).
Proof.
  intros Ha Hs. unfold notesP. set (L := lines (map (fun e => noteP e (n + 4)) entries)).
  assert (closed L) as HL.
  { apply closed_lines, Forall_map, (forallb_Forall wf_note); [|exact Hs]. intros e He.
    apply closed_app; [by apply closed_note|]. apply closed_app; [by apply closed_const|by apply closed_blank]. }
  split_and!; [|ntks; lia|by expand_C|].
  - apply closed_app; [apply closed_blank, blank_spaces|]. apply closed_app; [by apply closed_const|]. apply seg_closed_app; [auto with seg|opens_tac|].
    apply closed_app; [by apply closed_const|]. apply closed_app; [by apply closed_blank|]. apply closed_app; [done|].
    apply closed_app; [apply closed_blank, blank_spaces|]. apply closed_app; [by apply closed_const|by apply closed_blank].
  - expand_C. item_at. unfold L. apply (reads_lines b parse_note_entry RBracket entries); [done| |by expand_C|].
    + apply Forall2_map_r, (forallb_Forall wf_note); [|exact Hs]. intros e He. by apply reads_note.
    + expand_C. rd.
Qed.

Lemma render_notes addr entries d : render (notesP addr entries (d * 4)) = emit_notes addr entries d.
Proof.
  unfold notesP, emit_notes. rewrite !render_app, render_tk, render_lines, map_map, emit_all_concat, !render_sp. apps.
  assert (map (fun x => render (noteP x (d * 4 + 4)) ++ str "," ++ nl) entries = map (fun e => emit_note e d) entries) as ->; [|reflexivity].
  apply map_ext. intros e. unfold noteP, emit_note. rewrite !render_app, !render_sp, !render_tk, render_bytes.
  replace ((d + 1) * 4)%nat with (d * 4 + 4)%nat by lia. replace ((d + 2) * 4)%nat with (d * 4 + 4 + 4)%nat by lia. apps. reflexivity.
Qed.

(** * Jump tables *)

Definition entryJ (e : JumpTableEntry) (n : nat) : list piece :=
  [Sp (spaces n); idT (str "case_" ++ fmt_dec (case e))] ++ C (str ": ") ++ [idT (label_ref (target e))].

Definition wf_entry (e : JumpTableEntry) : bool := u64_ok (case e) && u64_ok (target e).

Lemma case_ident n : u64_ok n = true -> ident_ok (str "case_" ++ fmt_dec n) = true.
Proof. intros Hn%u64_ok_range. apply number_word_ok; [lia|done|apply Hn]. Qed.

Lemma reads_entry b e n : wf_entry e = true -> reads_item b parse_jump_table_entry RBrace e (entryJ e n).
Proof.
  unfold wf_entry. intros [Hc Ht]%andb_prop. unfold entryJ. split_and!; [|done|ntks; lia].
  unfold parse_jump_table_entry. expand_C. rd. rewrite strip_prefix_app. cbn [mbind option_bind].
  unfold fmt_dec. rewrite (parse_fmt false 10 64 (case e)) by (lia || by apply u64_ok_range). rd. rewrite label_back by done. destruct e. apply reads_ret.
Qed.

Definition jumpP (addr : Z) (dispatch : list byte) (entries : list JumpTableEntry) (n : nat) : list piece :=
  [Sp (spaces n)] ++ C (str "@jump_table(") ++ [hexT addr] ++ C (str ", dispatch=") ++ [strT dispatch] ++ C (str ") {") ++ [Sp nl] ++
  lines (map (fun e => entryJ e (n + 4)) entries) ++ [Sp (spaces n)] ++ C (str "}") ++ [Sp nl].

Lemma jump_item b addr dispatch entries n : u64_ok addr = true -> utf8_valid dispatch = true -> forallb wf_entry entries = true ->
  item_read b (JumpTable addr dispatch entries) (jumpP addr dispatch entries n).
Proof.
  intros Ha Hd%utf8_of_valid Hs. unfold jumpP. set (L := lines (map (fun e => entryJ e (n + 4)) entries)).
  assert (closed L) as HL.
  { apply closed_lines, Forall_map, (forallb_Forall wf_entry); [|exact Hs]. intros e [Hc Ht]%andb_prop. unfold entryJ.
    rewrite <- !(assoc_L (++)). apply (closed_app [Sp (spaces (n + 4))]); [apply closed_blank, blank_spaces|].
    apply (seg_closed_app [idT (str "case_" ++ fmt_dec (case e))]); [by apply seg_ident, case_ident|opens_tac|].
    apply closed_app; [by apply closed_const|]. apply seg_closed_app; [by apply seg_label|opens_tac|].
    apply closed_app; [by apply closed_const|by apply closed_blank]. }
  split_and!; [|ntks; lia|by expand_C|].
  - apply closed_app; [apply closed_blank, blank_spaces|]. apply closed_app; [by apply closed_const|]. apply seg_closed_app; [auto with seg|opens_tac|].
    apply closed_app; [by apply closed_const|]. apply closed_app; [by apply closed_str|]. apply closed_app; [by apply closed_const|].
    apply closed_app; [by apply closed_blank|]. apply closed_app; [done|].
    apply closed_app; [apply closed_blank, blank_spaces|]. apply closed_app; [by apply closed_const|by apply closed_blank].
  - expand_C. item_at. unfold L. apply (reads_lines b parse_jump_table_entry RBrace entries); [done| |by expand_C|].
    + apply Forall2_map_r, (forallb_Forall wf_entry); [|exact Hs]. intros e He. by apply reads_entry.
    + expand_C. rd.
Qed.

Lemma render_jump addr dispatch entries d : render (jumpP addr dispatch entries (d * 4)) = emit_jump_table addr dispatch entries d.
Proof.
  unfold jumpP, emit_jump_table. rewrite !render_app, !render_tk, render_lines, map_map, emit_all_concat, !render_sp. apps.
  replace ((d + 1) * 4)%nat with (d * 4 + 4)%nat by lia.
  assert (map (fun x => render (entryJ x (d * 4 + 4)) ++ str "," ++ nl) entries =
    map (fun e => spaces (d * 4 + 4) ++ str "case_" ++ fmt_dec (case e) ++ str ": " ++ label_ref (target e) ++ str "," ++ nl) entries) as ->; [|reflexivity].
  apply map_ext. intros e. unfold entryJ. rewrite !render_app, render_cons, !render_tk. apps. reflexivity.
Qed.

Lemma comment_item b text n : wf_comment text = true -> item_read b (ItComment text) (Sp (spaces n) :: commentP text).
Proof.
  intros H. split_and!; [|unfold commentP; cbn; lia|done|].
  - apply (closed_app [Sp (spaces n)]); [apply closed_blank, blank_spaces|by apply closed_comment].
  - unfold commentP. intros f Hf. destruct f as [|f]; [lia|]. cbn [parse_item]. rd.
Qed.

(** * Functions *)

(** A signature is there when it says something. *)
Definition wf_signature (s : option Signature) : bool :=
  match s with
  | Some s => forallb wf_param (params s) && negb (bool_decide (params s = [] /\ return_type s = TVoid))
  | None => true
  end.

Definition wf_locals_b (l : list LocalDecl) : bool :=
  forallb (fun d => ident_ok (l_name d)) l && bool_decide (l = List.filter is_stack l ++ List.filter (fun d => negb (is_stack d)) l).

Lemma wf_locals_ok l : wf_locals_b l = true -> wf_locals l.
Proof.
  unfold wf_locals_b. intros [H1 H2%bool_decide_eq_true]%andb_prop. split; [|done]. by apply (forallb_Forall (fun d => ident_ok (l_name d))).
Qed.

Definition wf_fn (b : Z) (f : FnDecl) : bool :=
  opt_u64 (addr f) && ident_ok (fn_name f) && wf_signature (signature f) && forallb wf_attr (attrs f) && wf_locals_b (locals f) &&
  wf_stmts b true (body f).

Definition paramsP (s : option Signature) : list piece := match s with Some s => commas (map paramP (params s)) | None => [] end.
Definition returnP (s : option Signature) : list piece :=
  match s with Some s => match return_type s with TVoid => [] | t => C (str " -> ") ++ typeP t end | None => [] end.
Definition fn_attrsP (a : list Attribute) : list piece := match a with [] => [] | _ => [sp1] ++ attrsP a end.
Definition fn_localsP (l : list LocalDecl) (n : nat) (body : list Stmt) : list piece :=
  match l with [] => [] | _ => localsP l n ++ match body with [] => [] | _ => [Sp nl] end end.

(** Behind [fn]. *)
Definition fnP (f : FnDecl) (n : nat) (B : list piece) : list piece :=
  C (str "fn ") ++ [idT (fn_name f)] ++ C (str "(") ++ paramsP (signature f) ++ C (str ")") ++ returnP (signature f) ++ fn_attrsP (attrs f) ++
  C (str " {") ++ [Sp nl] ++ fn_localsP (locals f) (n + 4) (body f) ++ B ++ [Sp (spaces n)] ++ C (str "}") ++ [Sp nl].

Definition addrP (a : option Z) (n : nat) : list piece :=
  match a with Some a => [Sp (spaces n)] ++ C (str "@addr(") ++ [hexT a] ++ C (str ")") ++ [Sp nl] | None => [] end.

Lemma seg_params s : wf_signature s = true -> seg (paramsP s).
Proof.
  destruct s as [s|]; [|intros _; apply closed_seg, closed_nil]. intros [H _]%andb_prop. cbn [paramsP]. apply seg_commas, Forall_map.
  apply (forallb_Forall wf_param); [|done]. apply seg_param.
Qed.

Lemma closed_fn_tail f n B : forallb wf_attr (attrs f) = true -> wf_locals (locals f) -> closed B ->
  closed (fn_attrsP (attrs f) ++ C (str " {") ++ [Sp nl] ++ fn_localsP (locals f) (n + 4) (body f) ++ B ++ [Sp (spaces n)] ++ C (str "}") ++ [Sp nl]).
Proof.
  intros Ha Hl HB. apply closed_app.
  { destruct (attrs f) as [|a l] eqn:E; [apply closed_nil|]. unfold fn_attrsP. apply closed_app; [by apply closed_blank|by apply closed_attrs]. }
  apply closed_app; [by apply closed_const|]. apply closed_app; [by apply closed_blank|]. apply closed_app.
  { unfold fn_localsP. destruct (locals f) as [|d l] eqn:E; [apply closed_nil|]. apply closed_app; [by apply closed_locals|].
    destruct (body f); [apply closed_nil|by apply closed_blank]. }
  apply closed_app; [done|]. apply closed_app; [apply closed_blank, blank_spaces|]. apply closed_app; [by apply closed_const|by apply closed_blank].
Qed.

Lemma opens_fn_tail f X : opens (fn_attrsP (attrs f) ++ C (str " {") ++ X).
Proof. destruct (attrs f) as [|a l]; cbn [fn_attrsP app]; [opens_tac|by eexists _, _]. Qed.

Lemma closed_fn f n B : ident_ok (fn_name f) = true -> wf_signature (signature f) = true ->
  forallb wf_attr (attrs f) = true -> wf_locals (locals f) -> closed B -> closed (fnP f n B).
Proof.
  intros Hn Hs Ha Hl HB. unfold fnP. apply closed_app; [by apply closed_const|]. apply seg_closed_app; [by apply seg_ident|opens_tac|].
  apply closed_app; [by apply closed_const|]. apply seg_closed_app; [by apply seg_params|opens_tac|]. apply closed_app; [by apply closed_const|].
  pose proof (closed_fn_tail f n B Ha Hl HB) as Ht. unfold returnP. destruct (signature f) as [s|]; [|done].
  assert (forall t, closed ((C (str " -> ") ++ typeP t) ++ fn_attrsP (attrs f) ++ C (str " {") ++ [Sp nl] ++ fn_localsP (locals f) (n + 4) (body f) ++ B ++
    [Sp (spaces n)] ++ C (str "}") ++ [Sp nl])) as Hr.
  { intros t. rewrite <- (assoc_L (++) (C (str " -> "))). apply closed_app; [by apply closed_const|]. apply seg_closed_app; [apply seg_type|apply opens_fn_tail|done]. }
  destruct (return_type s); first [exact Ht|apply Hr].
Qed.

Lemma render_fn f n B : render (fnP f n B) = str "fn " ++ fn_name f ++ str "(" ++
  match signature f with Some sig => emit_params (params sig) | None => [] end ++ str ")" ++
  match signature f with Some sig => match return_type sig with TVoid => [] | t => str " -> " ++ emit_type t end | None => [] end ++
  match attrs f with [] => [] | a => str " " ++ emit_attrs a end ++ str " {" ++ nl ++
  match locals f with [] => [] | l => emit_locals l (spaces (n + 4)) ++ match body f with [] => [] | _ => nl end end ++
  render B ++ spaces n ++ str "}" ++ nl.
Proof.
  unfold fnP. rewrite !render_app, render_tk, !render_sp.
  assert (render (paramsP (signature f)) = match signature f with Some sig => emit_params (params sig) | None => [] end) as ->.
  { destruct (signature f) as [s|]; [|done]. cbn [paramsP]. unfold emit_params. rewrite render_commas, emit_sep_by, map_map.
    f_equal. apply map_ext, render_param. }
  assert (render (returnP (signature f)) = match signature f with Some sig => match return_type sig with TVoid => [] | t => str " -> " ++ emit_type t end | None => [] end) as ->.
  { destruct (signature f) as [s|]; [|done]. cbn [returnP]. destruct (return_type s); try done; rewrite render_app, render_type; reflexivity. }
  assert (render (fn_attrsP (attrs f)) = match attrs f with [] => [] | a => str " " ++ emit_attrs a end) as ->.
  { destruct (attrs f) as [|a l]; [done|]. cbn [fn_attrsP]. by rewrite render_app, render_attrs. }
  assert (render (fn_localsP (locals f) (n + 4) (body f)) = match locals f with [] => [] | l => emit_locals l (spaces (n + 4)) ++ match body f with [] => [] | _ => nl end end) as ->.
  { destruct (locals f) as [|d l]; [done|]. cbn [fn_localsP]. rewrite render_app, render_locals. by destruct (body f). }
  reflexivity.
Qed.

Definition params_of (s : option Signature) : option (list Param) :=
  match s with Some s => match params s with [] => None | l => Some l end | None => None end.
Definition return_of (s : option Signature) : option Ty :=
  match s with Some s => match return_type s with TVoid => None | t => Some t end | None => None end.

Lemma signature_back s : wf_signature s = true -> signature_of (params_of s) (return_of s) = s.
Proof.
  destruct s as [[p r]|]; [|done]. cbn. intros [_ H%negb_true_iff%bool_decide_eq_false]%andb_prop.
  destruct p, r; try done. by edestruct H.
Qed.

Lemma reads_fn_params {A} b s (f : option (list Param) -> P A) qs a ok : wf_signature s = true -> (forall post, hd_kind (qs ++ post) = RParen) ->
  reads b (f (params_of s)) qs a ok ->
  reads b (e ← at_kind RParen; params ← if e : bool then mret None else l ← parse_param_list; mret (Some l); f params) (paramsP s ++ qs) a ok.
Proof.
  intros Hs Hk H. assert (paramsP s = [] /\ params_of s = None \/ exists l, l <> [] /\ paramsP s = commas (map paramP l) /\ params_of s = Some l)
    as [[-> E]|(l & Hl & -> & E)].
  { destruct s as [[[|p l] r]|]; [by left| |by left]. right. by exists (p :: l). }
  - rewrite E in H. cbn [app]. apply (reads_at_kind _ _ true); [intros post _; by apply bool_decide_eq_true|]. exact H.
  - rewrite E in H. assert (Forall2 (reads_item b parse_param RParen) l (map paramP l)) as HF by (apply Forall2_map_r, Forall_forall; intros p _; apply reads_param).
    apply (reads_at_kind _ _ false); [intros post _; apply bool_decide_eq_false; rewrite <- (assoc_L (++)); by apply (items_start b parse_param RParen l)|].
    apply reads_assoc. eapply reads_bind; [apply reads_fuel; intros n Hn; apply (reads_comma_list b parse_param RParen); [done|exact HF|done|]|exact H|intros post _; apply Hk].
    pose proof (items_length b parse_param RParen l _ HF). lia.
Qed.

Lemma reads_fn_return {A} b s (f : option Ty -> P A) qs a ok : (forall post, hd_kind (qs ++ post) <> Arrow) ->
  reads b (f (return_of s)) qs a ok ->
  reads b (r ← eat_kind Arrow; return_type ← if r : bool then t ← with_fuel parse_type; mret (Some t) else mret None; f return_type) (returnP s ++ qs) a ok.
Proof.
  intros Hk H. assert (returnP s = [] /\ return_of s = None \/ exists t, returnP s = C (str " -> ") ++ typeP t /\ return_of s = Some t)
    as [[-> E]|(t & -> & E)].
  { destruct s as [[p r]|]; [|by left]. cbn [returnP return_of return_type]. destruct r; first [by left|right; by eexists]. }
  - rewrite E in H. cbn [app]. apply reads_eat_no; [intros post _; apply Hk|]. exact H.
  - rewrite E in H. rewrite <- (assoc_L (++)). expand_C. apply reads_sp, reads_eat_yes, reads_sp. cbv iota. apply reads_assoc.
    eapply reads_bind; [apply (reads_type b t (fun _ => True))|exact H|done].
Qed.

Lemma reads_fn_attrs {A} b l (f : list Attribute -> P A) qs a ok : (forall post, hd_kind (qs ++ post) <> Hash) ->
  reads b (f l) qs a ok -> reads b (parse_attrs ≫= f) (fn_attrsP l ++ qs) a ok.
Proof.
  intros Hk H. destruct l as [|x l].
  - cbn [fn_attrsP]. eapply reads_bind; [apply (reads_no_attrs b (fun post => hd_kind post <> Hash)); done|exact H|intros post _; apply Hk].
  - cbn [fn_attrsP]. rewrite <- (assoc_L (++)). apply reads_sp. eapply reads_bind; [apply reads_attrs|exact H|done].
Qed.

Lemma reads_fn_locals {A} b l n body (f : list LocalDecl -> P A) qs a ok : wf_locals l -> (forall post, hd_kind (qs ++ post) <> Ident (str "let")) ->
  reads b (f l) qs a ok -> reads b (with_fuel parse_local_decls ≫= f) (fn_localsP l n body ++ qs) a ok.
Proof.
  intros Hl Hk H. assert (reads b (with_fuel parse_local_decls ≫= f) (localsP l n ++ qs) a ok) as R.
  { eapply reads_bind; [by apply reads_locals|exact H|intros post _; apply Hk]. }
  destruct l as [|d l]; [exact R|]. unfold fn_localsP. destruct body as [|s body]; [by rewrite app_nil_r|].
  rewrite <- (assoc_L (++)). eapply reads_bind; [by apply reads_locals|by apply reads_sp|]. intros post _. cbn [app]. exact (Hk post).
Qed.

Lemma body_start b l pss n post : Forall2 (stmt_read b true) l pss -> hd_kind ((concat pss ++ [Sp (spaces n)] ++ C (str "}") ++ [Sp nl]) ++ post) <> Ident (str "let").
Proof.
  intros [|s ps l' pss' [Hs _] H]; [by expand_C|]. cbn [concat]. rewrite <- !(assoc_L (++)).
  destruct (shape_kind s ps (concat pss' ++ [Sp (spaces n)] ++ C (str "}") ++ [Sp nl] ++ post) Hs) as (k & E & Hf & _).
  rewrite E. intros ->. done.
Qed.

Lemma reads_fn b f n pss : wf_fn b f = true -> Forall2 (stmt_read b true) (body f) pss ->
  reads b (parse_fn (addr f)) (fnP f n (concat pss)) (Function f) (fun _ => True).
Proof.
  unfold wf_fn, wf_stmts. intros [[[[[Ha Hn]%andb_prop Hs]%andb_prop Hat]%andb_prop Hl%wf_locals_ok]%andb_prop [_ Hadj]%andb_prop]%andb_prop HF.
  unfold parse_fn, fnP. change (C (str "fn ")) with [Tk (str "fn") (Ident (str "fn")); sp1]. change (C (str "(")) with [Tk [byte_of 40] LParen]. rd.
  apply reads_fn_params; [done|by expand_C|]. change (C (str ")")) with [Tk [byte_of 41] RParen]. rd.
  apply reads_fn_return; [intros post; destruct (attrs f); cbn [fn_attrsP]; unfold attrsP; by expand_C|].
  apply reads_fn_attrs; [by expand_C|]. change (C (str " {")) with [sp1; Tk [byte_of 123] LBrace]. rd.
  apply reads_fn_locals; [done|intros post; by eapply body_start|].
  eapply reads_bind; [apply reads_fuel; intros m Hm; by apply reads_until_list| |by expand_C]. expand_C. rd.
  rewrite signature_back by done. destruct f. apply reads_ret.
Qed.

Section items.
Context (printable : list byte -> bool) (b : Z).

Definition fn_itemP (f : FnDecl) (n : nat) (B : list piece) : list piece := addrP (addr f) n ++ [Sp (spaces n)] ++ fnP f n B.

Lemma fn_item f d : wf_fn b f = true -> exists ps,
  emit_fn_indented printable f d = Ok (render ps) /\ item_read b (Function f) ps.
Proof.
  intros H. pose proof H as H0. unfold wf_fn, wf_stmts in H0. apply andb_prop in H0 as [[[[[Ha Hn]%andb_prop Hs]%andb_prop Hat]%andb_prop Hl%wf_locals_ok]%andb_prop [Hst Hadj]%andb_prop].
  destruct (round_bodies printable b (body f) true (d * 4 + 4)) as (pss & E & HF); [|done|].
  { apply Forall_forall. intros s _. apply round_stmt. }
  pose proof (reads_fn b f (d * 4) pss H HF) as R. pose proof (closed_body _ _ _ _ HF) as HB.
  exists (fn_itemP f (d * 4) (concat pss)). split.
  - unfold emit_fn_indented, emit_stmts. replace ((d + 1) * 4)%nat with (d * 4 + 4)%nat by lia. rewrite E. cbn [mbind res_bind]. f_equal.
    unfold fn_itemP. rewrite !render_app, render_fn, render_sp. unfold addrP. destruct (addr f) as [a|]; [|by apps].
    rewrite !render_app, render_tk, !render_sp. apps. reflexivity.
  - assert (closed (fnP f (d * 4) (concat pss))) as Hc by by apply closed_fn.
    unfold fn_itemP, addrP. split_and!.
    + apply closed_app; [|apply closed_app; [apply closed_blank, blank_spaces|done]]. destruct (addr f) as [a|]; [|apply closed_nil].
      apply closed_app; [apply closed_blank, blank_spaces|]. apply closed_app; [by apply closed_const|]. apply seg_closed_app; [by apply seg_hex, u64_ok_range|opens_tac|].
      apply closed_app; [by apply closed_const|by apply closed_blank].
    + destruct (addr f); unfold fnP; ntks; lia.
    + intros post. destruct (addr f); unfold fnP; by expand_C.
    + destruct (addr f) as [a|] eqn:Ea.
      * set (F := fnP f (d * 4) (concat pss)) in *. expand_C. item_at. exact R.
      * intros m Hm. destruct m as [|m]; [lia|]. cbn [parse_item app]. apply reads_sp. apply reads_peek. intros t (post & _ & Et).
        assert (hd_kind (fnP f (d * 4) (concat pss) ++ post) = Ident (str "fn")) as E' by (unfold fnP; by expand_C). rewrite Et, E', decide_True by done. exact R.
Qed.

(** * Sections and files *)

Fixpoint wf_item (it : Item) : bool :=
  match it with
  | ItComment text => wf_comment text
  | Function f => wf_fn b f
  | Raw addr _ => u64_ok addr
  | Strings addr strings => u64_ok addr && forallb utf8_valid strings
  | Notes addr entries => u64_ok addr && forallb wf_note entries
  | Section_ name addr items => utf8_valid name && u64_ok addr && forallb wf_item items
  | JumpTable addr dispatch entries => u64_ok addr && utf8_valid dispatch && forallb wf_entry entries
  end.

Definition sectionP (name : list byte) (addr : Z) (B : list piece) (n : nat) : list piece :=
  [Sp (spaces n)] ++ C (str "@section(") ++ [strT name] ++ C (str ", ") ++ [hexT addr] ++ C (str ") {") ++ [Sp nl] ++ B ++ [Sp (spaces n)] ++ C (str "}") ++ [Sp nl].

Lemma reads_items (item : P Item) its pss close fuel : Forall2 (item_read b) its pss -> close = RBrace \/ close = Eof ->
  (ntk (concat pss) < fuel)%nat ->
  (forall it ps, item_read b it ps -> (ntk ps <= ntk (concat pss))%nat -> reads b item ps it (fun _ => True)) ->
  reads b (many_until item close fuel) (concat pss) its (fun post => hd_kind post = close).
Proof.
  intros H Hc Hf Hi. apply reads_many_until.
  - clear Hf. induction H as [|it ps its pss Hit H IH]; constructor.
    + split; [apply Hi; [done|cbn [concat]; rewrite ntk_app; lia]|]. intros post. destruct Hit as (_ & _ & Hk & _). destruct (Hk post), Hc as [-> | ->]; auto.
    + apply IH. intros it' ps' Hit' Hn. apply Hi; [done|]. cbn [concat]. rewrite ntk_app. lia.
  - rewrite (Forall2_length _ _ _ H). eapply Nat.le_lt_trans; [apply length_concat|exact Hf].
    clear -H. induction H as [|it ps its pss (_ & Hn & _) H IH]; constructor; done.
Qed.
Lemma item_read_line it ps : item_read b it ps -> item_read b it (ps ++ [Sp nl]).
Proof.
  intros (Hc & Hn & Hk & Hr). assert (ntk (ps ++ [Sp nl]) = ntk ps) as E by (rewrite ntk_app; cbn [ntk]; lia).
  split_and!; [|by rewrite E|intros post; rewrite <- (assoc_L (++)); apply Hk|].
  - apply closed_app; [done|by apply closed_blank].
  - intros fuel. rewrite E. intros Hf. by apply reads_line, Hr.
Qed.

Lemma line_item_read it ps : item_read b it ps -> item_read b it (Sp nl :: ps).
Proof.
  intros (Hc & Hn & Hk & Hr). split_and!; [|done|exact Hk|].
  - apply (closed_app [Sp nl]); [by apply closed_blank|done].
  - intros fuel Hf. by apply reads_sp, Hr.
Qed.

Definition round_at (it : Item) : Prop :=
  forall d, wf_item it = true -> exists ps, emit_item_indented printable it d = Ok (render ps) /\ item_read b it ps.

Lemma round_list its d : Forall round_at its -> forallb wf_item its = true -> exists pss,
  emit_items_with (fun it => emit_item_indented printable it d) its = Ok (render (concat pss)) /\ Forall2 (item_read b) its pss.
Proof.
  induction 1 as [|it its Hit H IH]; [by exists []|]. cbn [forallb]. intros [Hw Hws]%andb_prop.
  destruct (Hit d Hw) as (ps & E & R), (IH Hws) as (pss & Es & Rs). cbn [emit_items_with]. rewrite E, Es. cbn [mbind res_bind].
  destruct its as [|it' its].
  - apply Forall2_nil_inv_l in Rs as ->. exists [ps]. split; [cbn [concat]; by rewrite render_app|by constructor].
  - exists ((ps ++ [Sp nl]) :: pss). split; [cbn [concat]; rewrite !render_app, render_sp; by apps|]. constructor; [by apply item_read_line|done].
Qed.

Lemma closed_items its pss : Forall2 (item_read b) its pss -> closed (concat pss).
Proof. intros H. apply closed_concat. induction H as [|it ps its pss (Hc & _) H IH]; by constructor. Qed.

Lemma section_item name addr its pss n : utf8_valid name = true -> u64_ok addr = true -> Forall2 (item_read b) its pss ->
  item_read b (Section_ name addr its) (sectionP name addr (concat pss) n).
Proof.
  intros Hu%utf8_of_valid Ha H. pose proof (closed_items _ _ H) as HB. unfold sectionP. set (B := concat pss) in *. split_and!; [|ntks; lia|by expand_C|].
  - apply closed_app; [apply closed_blank, blank_spaces|]. apply closed_app; [by apply closed_const|]. apply closed_app; [by apply closed_str|].
    apply closed_app; [by apply closed_const|]. apply seg_closed_app; [auto with seg|opens_tac|]. apply closed_app; [by apply closed_const|].
    apply closed_app; [by apply closed_blank|]. apply closed_app; [done|].
    apply closed_app; [apply closed_blank, blank_spaces|]. apply closed_app; [by apply closed_const|by apply closed_blank].
  - intros f Hf. assert (ntk B + 5 < f)%nat as Hn by (ntks; lia). clear Hf. expand_C. destruct f as [|f]; [lia|]. cbn [parse_item]. rd. unfold parse_at_directive. rd.
    eapply reads_bind; [apply reads_items; [exact H|by left|fold B; lia|]| |].
    + intros it ps (_ & _ & _ & Hr) Hp. apply Hr. fold B in Hp. lia.
    + rd.
    + by expand_C.
Qed.

Lemma render_section name addr B d : render (sectionP name addr B (d * 4)) =
  spaces (d * 4) ++ str "@section(" ++ quote_string name ++ str ", " ++ hex_lit addr ++ str ") {" ++ nl ++ render B ++ spaces (d * 4) ++ str "}" ++ nl.
Proof. unfold sectionP. rewrite !render_app, !render_tk, !render_sp. by apps. Qed.

Lemma round_item it : round_at it.
Proof.
  induction it as [name addr its IH|it Ho] using item_ind; intros d H.
  - cbn [wf_item] in H. apply andb_prop in H as [[Hu Ha]%andb_prop Hs]. cbn [emit_item_indented].
    destruct (round_list its (d + 1) IH Hs) as (pss & E & R). rewrite E. cbn [mbind res_bind].
    eexists. split; [f_equal; symmetry; apply render_section|by apply section_item].
  - destruct it as [text|f|addr bytes|addr strings|addr entries|name addr its|addr dispatch entries]; cbn [wf_item emit_item_indented] in *.
    + exists (Sp (spaces (d * 4)) :: commentP text). split; [reflexivity|by apply comment_item].
    + by apply fn_item.
    + eexists. split; [by rewrite <- render_raw|by apply raw_item].
    + apply andb_prop in H as [Ha Hs]. eexists. split; [by rewrite <- render_strings|by apply strings_item].
    + apply andb_prop in H as [Ha Hs]. eexists. split; [by rewrite <- render_notes|by apply notes_item].
    + by edestruct Ho.
    + apply andb_prop in H as [[Ha Hs]%andb_prop He]. eexists. split; [by rewrite <- render_jump|by apply jump_item].
Qed.

Lemma round_top its : forallb wf_item its = true -> exists pss,
  emit_top printable its = Ok (render (concat pss)) /\ Forall2 (item_read b) its pss.
Proof.
  induction its as [|it its IH]; [by exists []|]. cbn [forallb]. intros [Hw Hws]%andb_prop.
  destruct (round_item it 0%nat Hw) as (ps & E & R), (IH Hws) as (pss & Es & Rs). cbn [emit_top]. unfold emit_item. rewrite E, Es.
  exists ((Sp nl :: ps) :: pss). split; [|constructor; [by apply line_item_read|done]]. cbn [mbind res_bind concat app].
  rewrite render_cons, render_app. done.
Qed.

Lemma reads_top its pss : Forall2 (item_read b) its pss -> reads b parse_items (concat pss) its (fun post => hd_kind post = Eof).
Proof.
  intros H. unfold parse_items. apply reads_fuel. intros n Hn. apply reads_items; [done|by right|done|].
  intros it ps (_ & _ & _ & Hr) _. by apply reads_fuel.
Qed.
End items.

(** What the emitter writes for a tree the parser reads back: a file whose
    names are words, whose texts are texts and whose numbers fit. *)
Definition wf_file (f : UdFile) : bool :=
  forallb wf_field (module f) && forallb (wf_item (module_bits (module f) 32)) (items f).

Definition moduleP (fields : list Field) : list piece :=
  C (str "@module {") ++ [Sp nl] ++ concat (map (fun f => fieldP f 1) fields) ++ C (str "}") ++ [Sp nl].

Lemma render_module fields : render (moduleP fields) = emit_module fields.
Proof.
  unfold moduleP, emit_module. rewrite !render_app, render_concat, map_map, emit_all_concat, !render_sp.
  by rewrite (map_ext _ _ (fun f => render_field f 1)).
Qed.

Lemma closed_module fields : forallb wf_field fields = true -> closed (moduleP fields).
Proof.
  intros H. unfold moduleP. apply closed_app; [by apply closed_const|]. apply closed_app; [by apply closed_blank|].
  apply closed_app; [|apply closed_app; [by apply closed_const|by apply closed_blank]].
  apply closed_concat, Forall_map. apply (forallb_Forall wf_field); [|done]. intros f Hf. by apply closed_field.
Qed.

Lemma reads_fields b fields : reads b parse_field_list (concat (map (fun f => fieldP f 1) fields)) fields (fun post => hd_kind post = RBrace).
Proof.
  unfold parse_field_list. apply reads_fuel. intros n Hn. apply reads_many_until.
  - apply Forall2_map_r, Forall_forall. intros f _. split; [apply reads_field|]. intros post. apply line_start.
  - eapply Nat.le_lt_trans; [|exact Hn]. rewrite <- (length_map (fun f => fieldP f 1)). apply length_concat, Forall_map, Forall_forall.
    intros f _. unfold fieldP, lineP. ntks. lia.
Qed.

Lemma reads_module b fields : reads b parse_module (moduleP fields) fields (fun _ => True).
Proof.
  unfold parse_module, moduleP. expand_C. apply reads_fuel_bind. intros n Hn. destruct n as [|n]; [lia|]. cbn [skip_comments]. rd.
  eapply reads_bind; [apply reads_fields| |done]. rd.
Qed.

Lemma st_bits W b b' pre : set_bits b' (st W b pre) = Ok (tt, st W b' pre).
Proof. done. Qed.

Lemma file_back f pss W : W = moduleP (module f) ++ concat pss ->
  forallb wf_field (module f) = true -> Forall2 (item_read (module_bits (module f) 32)) (items f) pss ->
  parse (render W) = Ok f.
Proof.
  intros E Hm H. assert (closed W) as Hc by (rewrite E; apply closed_app; [by apply closed_module|by eapply closed_items]).
  pose proof (Hc []) as Hd. assert (texts W) as Ht by exact (divides_utf8 W [] Hd). pose proof (utf8_render W Ht) as Hu.
  unfold parse. rewrite (tokenize_complete W Hu Hd). cbn [map_err mbind res_bind].
  change (parser_new (render W) (place 0 (1, 1)%nat W)) with (st W 32 []). unfold parse_file.
  pose proof (reads_module 32 (module f) [] (concat pss)) as M. rewrite (app_nil_l (_ ++ concat pss)), (app_nil_l (moduleP _)), <- E in M.
  rewrite (bind_ok _ _ _ _ _ (M Ht I)). clear M.
  erewrite bind_ok by reflexivity. cbn [bits st]. erewrite bind_ok by apply st_bits.
  pose proof (reads_top _ _ _ H (moduleP (module f)) []) as R. rewrite (app_nil_r (concat pss)), <- E in R.
  rewrite (bind_ok _ _ _ _ _ (R Ht eq_refl)). by destruct f.
Qed.

(** C2: the source language loses nothing. Every tree that [wf_file] accepts
    has a text, whatever the platform's table of printable characters, and the
    parser reads that text back as the same tree: module header, functions with
    their statements nested to any depth, data, tables, sections and comments.
    (The lexer's lines and columns are counted without bound; for texts below
    2^32 - 1 bytes the [u32] counters of the source agree, [bump_u32_eq].) *)
Theorem parse_emit (printable : list byte -> bool) (f : UdFile) : wf_file f = true ->
  exists text, emit printable f = Ok text /\ parse text = Ok f.
Proof.
  intros [Hm Hi]%andb_prop. destruct (round_top printable _ (items f) Hi) as (pss & E & H).
  exists (render (moduleP (module f) ++ concat pss)). split; [|by eapply file_back].
  unfold emit. rewrite E. cbn [mbind res_bind]. by rewrite render_app, render_module.
Qed.

(** A file with a nested section and a function with blocks in blocks. *)
Definition sample_body : list Stmt := [
  StComment (str "entry");
  Prologue (str "frame") None [byte_of 0x55; byte_of 0x8b; byte_of 0xec];
  Save (str "esi") [byte_of 0x56];
  Loop (str "eax < 10") (Some [byte_of 0xeb; byte_of 4]) [byte_of 0x7c; byte_of 0xf0] [
    Move (str "eax") (str "[ebx + 4]") [byte_of 0x8b; byte_of 0x43; byte_of 4];
    IfBlock (str "eax == 0") [byte_of 0x85; byte_of 0xc0] [
      Call (str "strlen") [str "esi"; str "a b"] [byte_of 0xe8] (Some 0x401000);
      WhileBlock (str "p != 0; q") [] [byte_of 0x75; byte_of 1] [Label 0x401020; Goto 0x401020 true]
    ] [byte_of 0xeb; byte_of 2] [RegArith (str "ecx") (str "+=") (str "eax") [byte_of 1; byte_of 0xc1]]
  ];
  LocalSet (-8) (-1) [byte_of 0xc7];
  IfGoto (str "eax != ebx") 0x401080 [] 5 false;
  Switch (str "eax") [0x401010; 0x401020] 0x401030 (str "direct") 0x402000;
  ReturnExpr (str "eax + 1") [byte_of 0xc3];
  Return 7 [byte_of 0xb8; byte_of 7]
].

Definition sample_file : UdFile := {|
  module := [(str "arch", VString (str "x86")); (str "bits", VInt 32);
             (str "headers", VBlock [(str "kinds", VList [VInt 1; VString [byte_of 10; byte_of 34]])])];
  items := [
    ItComment (str "a module");
    Section_ (str ".text") 0x401000 [
      Function {| addr := Some 0x401000; fn_name := str "main"; attrs := [{| key := str "tail"; avalue := AByteList [byte_of 0x90] |}];
        signature := Some {| params := [{| p_name := str "argc"; p_ty := TPointer TI32; location := Some (str "ebx") |}]; return_type := TU32 |};
        locals := [{| l_name := str "n"; l_ty := TI32; l_kind := LStack |}; {| l_name := str "r"; l_ty := TPointer TU8; l_kind := LRegister |}];
        body := sample_body |};
      Section_ (str "inner") 0 [Raw 0x402000 (replicate 20 (byte_of 0xcc))];
      JumpTable 0x402000 (str "direct") [{| case := 0; target := 0x401010 |}; {| case := 1; target := 0x401020 |}]
    ];
    Strings 0x403000 [str "hello"; [byte_of 0xc3; byte_of 0xa9; byte_of 9]];
    Notes 0x404000 [{| note_type := 1; note_name := str "GNU"; desc := [byte_of 0; byte_of 255] |}]
  ]
|}.

Lemma parse_emit_witness : exists text, emit (fun _ => true) sample_file = Ok text /\ parse text = Ok sample_file.
Proof. apply (parse_emit (fun _ => true) sample_file). vm_compute. reflexivity. Defined.

(** Two trees [wf_file] leaves out, because the parser does not read their text
    back: a bare [return 5;] in front of a store, whose bracket it takes for the
    bytes of the return, and a switch directly in the braces of an [if]. *)
Definition back (body : list Stmt) : res ParseError UdFile :=
  match emit (fun _ => true) {| module := []; items := [Function {| addr := None; fn_name := str "f"; attrs := []; signature := None; locals := []; body := body |}] |} with
  | Ok text => parse text
  | _ => Panic
  end.

Definition returned (r : res ParseError UdFile) : bool := match r with Ok _ => true | _ => false end.

Example return_before_store :
  returned (back [Return 5 [byte_of 0xc3]; Move (str "[eax]") (str "1") [byte_of 0xc6]]) = true /\
  returned (back [Return 5 []; Move (str "[eax]") (str "1") [byte_of 0xc6]]) = false.
Proof. split; vm_compute; reflexivity. Qed.

Example switch_in_branch (s := Switch (str "eax") [0x401010] 0x401030 (str "direct") 0x402000) :
  returned (back [Loop (str "eax") None [] [s]]) = true /\
  returned (back [IfBranch (str "eax") [byte_of 0x74; byte_of 1] [] [] [s] None]) = false.
Proof. split; vm_compute; reflexivity. Qed.
