(* ===== verification/X86Decode.v ===== *)
(** Operand decoding of the x86 interpreter
    (src/src/emulator/emulator/decode.rs): ModR/M and SIB bytes, the 16- and
    32-bit addressing forms, and access to an operand. *)

From S2P Require Import Prelude Mmu Regs.

(** * ModR/M and SIB *)

Record ModRm : Type := { mode : Z; reg : Z; rm : Z }.

Definition modrm_decode (b : Z) : ModRm :=
  {| mode := Z.land (Z.shiftr b 6) 3; reg := Z.land (Z.shiftr b 3) 7; rm := Z.land b 7 |}.

Record Sib : Type := { scale : Z; sib_index : Z; base : Z }.

Definition sib_decode (b : Z) : Sib :=
  {| scale := Z.land (Z.shiftr b 6) 3; sib_index := Z.land (Z.shiftr b 3) 7; base := Z.land b 7 |}.

(** A register, or a 32-bit linear address. *)
Inductive Operand : Type := OReg32 (r : Reg32) | OMem32 (a : Z).

Definition sign_ext_8_to_32 (b : Z) : Z := wrap32 (sint 8 b).
Definition sign_ext_8_to_16 (b : Z) : Z := wrap16 (sint 8 b).
Definition sign_ext_16_to_32 (w : Z) : Z := wrap32 (sint 16 w).

Definition unreachable_trap : Trap := UndefinedOpcode 0 0.

Definition read_imm16 (bytes : list byte) (offset : Z) : res Trap Z :=
  s ← ok_or (get_range bytes offset (offset + 2)) unreachable_trap; Ok (from_le s).

Definition read_imm32 (bytes : list byte) (offset : Z) : res Trap Z :=
  s ← ok_or (get_range bytes offset (offset + 4)) unreachable_trap; Ok (from_le s).

Definition at_bits (regs : Regs) (b : Z) : Z := get32 regs (reg32_from_bits b).

(** * 32-bit addressing *)

(** The base of the address; a SIB byte comes with its [Option<Sib>]. *)
Inductive BaseKind : Type := BRm (rm : Z) | BSib (s : Sib).

Definition sib_index_term (s : Sib) (regs : Regs) : Z :=
  if sib_index s =? 4 then 0 else wrap32 (at_bits regs (sib_index s) * Z.shiftl 1 (scale s)).

(** The base term, and the bytes consumed after it. *)
Definition sib_base_at_mod0 (s : Sib) (after : list byte) (consumed : Z) (regs : Regs) : res Trap (Z * Z) :=
  if base s =? 5 then disp ← read_imm32 after consumed; Ok (disp, consumed + 4)
  else Ok (at_bits regs (base s), consumed).

(** [base + disp] for a displacement of either width. *)
Definition displaced (kind : BaseKind) (disp : Z) (regs : Regs) : Z :=
  match kind with
  | BRm rm => wrap32 (at_bits regs rm + disp)
  | BSib s => wrap32 (wrap32 (at_bits regs (base s) + sib_index_term s regs) + disp)
  end.

Definition base_kind (modrm : ModRm) (bytes : list byte) : res Trap (BaseKind * Z) :=
  if rm modrm =? 4 then
    match bytes with
    | b :: _ => Ok (BSib (sib_decode (u8 b)), 1)
    | [] => Err (UndefinedOpcode 0 0)
    end
  else Ok (BRm (rm modrm), 0).

(** The address of a memory form, by its [mod] field. *)
Definition resolve_kind (modrm : ModRm) (kind : BaseKind) (consumed : Z) (bytes : list byte) (regs : Regs) : res Trap (Operand * Z) :=
  match mode modrm with
  | 0 =>
      match kind with
      | BRm rm =>
          if rm =? 5 then disp ← read_imm32 bytes consumed; Ok (OMem32 disp, consumed + 4)
          else Ok (OMem32 (at_bits regs rm), consumed)
      | BSib s =>
          bc ← sib_base_at_mod0 s bytes consumed regs;
          let '(b, consumed) := bc in
          Ok (OMem32 (wrap32 (b + sib_index_term s regs)), consumed)
      end
  | 1 =>
      b ← ok_or (get bytes consumed) unreachable_trap;
      Ok (OMem32 (displaced kind (sign_ext_8_to_32 (u8 b)) regs), consumed + 1)
  | 2 =>
      disp ← read_imm32 bytes consumed;
      Ok (OMem32 (displaced kind disp regs), consumed + 4)
  | _ => Panic
  end.

(** The operand, and the bytes consumed past the ModR/M byte. *)
Definition resolve_modrm32 (modrm : ModRm) (bytes : list byte) (regs : Regs) : res Trap (Operand * Z) :=
  if mode modrm =? 3 then Ok (OReg32 (reg32_from_bits (rm modrm)), 0)
  else kc ← base_kind modrm bytes; resolve_kind modrm kc.1 kc.2 bytes regs.

(** * 16-bit addressing *)

(** The base term, and whether the form is relative to BP. *)
Definition base16 (modrm : ModRm) (regs : Regs) : res Trap (Z * bool) :=
  let r16 := get16 regs in
  match rm modrm with
  | 0 => Ok (wrap32 (r16 Bx + r16 Si), false)
  | 1 => Ok (wrap32 (r16 Bx + r16 Di), false)
  | 2 => Ok (wrap32 (r16 Bp + r16 Si), true)
  | 3 => Ok (wrap32 (r16 Bp + r16 Di), true)
  | 4 => Ok (r16 Si, false)
  | 5 => Ok (r16 Di, false)
  | 6 => if mode modrm =? 0 then Ok (0, false) else Ok (r16 Bp, true)
  | 7 => Ok (r16 Bx, false)
  | _ => Panic
  end.

(** The displacement, and the bytes it takes. *)
Definition disp16 (modrm : ModRm) (bytes : list byte) : res Trap (Z * Z) :=
  match mode modrm with
  | 0 => if rm modrm =? 6 then d ← read_imm16 bytes 0; Ok (d, 2) else Ok (0, 0)
  | 1 => b ← ok_or (get bytes 0) unreachable_trap; Ok (sign_ext_8_to_16 (u8 b), 1)
  | 2 => d ← read_imm16 bytes 0; Ok (d, 2)
  | _ => Panic
  end.

Definition resolve_modrm16 (modrm : ModRm) (bytes : list byte) (regs : Regs) : res Trap (Operand * Z * bool) :=
  if mode modrm =? 3 then Ok (OReg32 (reg32_from_bits (rm modrm)), 0, false)
  else
    bp ← base16 modrm regs;
    let '(base, bp_relative) := bp in
    dc ← disp16 modrm bytes;
    let '(disp, consumed) := dc in
    Ok (OMem32 (Z.land (wrap32 (base + disp)) 0xFFFF), consumed, bp_relative).

(** * Access *)

Definition read_operand32 (op : Operand) (regs : Regs) (m : Mmu) : res Trap Z :=
  match op with OReg32 r => Ok (get32 regs r) | OMem32 a => load32 m a end.

(** Writing gives back the registers too. *)
Definition write_operand32 (op : Operand) (value : Z) (regs : Regs) : St Regs :=
  match op with
  | OReg32 r => mret (set32 regs r value)
  | OMem32 a => store32 a value ;; mret regs
  end.

Definition read_operand16 (op : Operand) (regs : Regs) (m : Mmu) : res Trap Z :=
  match op with OReg32 r => Ok (wrap16 (get32 regs r)) | OMem32 a => load16 m a end.

Definition write_operand16 (op : Operand) (value : Z) (regs : Regs) : St Regs :=
  match op with
  | OReg32 r => mret (set32 regs r (Z.lor (Z.land (get32 regs r) 0xFFFF0000) value))
  | OMem32 a => store16 a value ;; mret regs
  end.
