(* ===== verification/X86Cpu.v ===== *)
(** The x86 processor of the emulator (the state, segments, stack, fetching and
    instrumentation of src/src/emulator/emulator/isa_int.rs). An operation is
    a state function on the processor and the memory that can trap; like the
    source it keeps what was changed before the trap. The fields are grouped
    into records; what only the x87, MMX, SSE and AVX executors use is the
    parameter [Ext]. *)

From S2P Require Import Prelude Mmu Regs X86Alu X86Decode.

(** * State *)

Inductive Seg : Type := Es | Cs | Ss | Ds | Fs | Gs.
Inductive RepPrefix : Type := Rep | Repne.

Record Prefixes : Type := {
  op_size_16_prefix : bool;
  addr_size_16_prefix : bool;
  rep_prefix : option RepPrefix;
  seg_override : option Seg;
}.

Definition no_prefixes : Prefixes :=
  {| op_size_16_prefix := false; addr_size_16_prefix := false; rep_prefix := None; seg_override := None |}.

Record Segments : Type := {
  cs_sel : Z; ds_sel : Z; es_sel : Z; ss_sel : Z;
  cs_base : Z; ds_base : Z; es_base : Z; ss_base : Z; fs_base : Z; gs_base : Z;
  selectors : gmap Z Z;
}.

(** The trace ring, the visited set, the register watchpoints and what they
    captured. *)
Record Instruments : Type := {
  trace_ring : list Z;
  trace_ring_cap : Z;
  track_visited_eips : bool;
  visited_eips : gset Z;
  register_watchpoints : gset Z;
  register_snapshots : list (Z * list Z);
  memory_snapshots : list (Z * list (Z * Z));
  register_snapshots_cap : Z;
  snapshot_probes : list (Z * Z * Z);
  snapshot_probe_values : list (list (option Z));
  snapshot_block_dump : option (Z * Z * Z);
  snapshot_block_dumps : list (Z * list Z);
}.

(** The state of the executors outside this file. *)
Class VectorState : Type := { Ext : Type; ext_new : Ext }.

Section cpu.
Context `{VectorState}.

Record Cpu : Type := {
  regs : Regs;
  instr_count : Z;
  instr_limit : Z;
  prefixes : Prefixes;
  segments : Segments;
  cur_default_seg : Seg;
  code16 : bool;
  long64 : bool;
  cpuid_dispatch_count : Z;
  instruments : Instruments;
  ext : Ext;
}.

Definition DEFAULT_INSTR_LIMIT : Z := 10000000.

Definition segments_new : Segments :=
  {| cs_sel := 0; ds_sel := 0; es_sel := 0; ss_sel := 0; cs_base := 0; ds_base := 0; es_base := 0; ss_base := 0;
     fs_base := 0; gs_base := 0; selectors := ∅ |}.

Definition instruments_new : Instruments :=
  {| trace_ring := []; trace_ring_cap := 0; track_visited_eips := false; visited_eips := ∅; register_watchpoints := ∅;
     register_snapshots := []; memory_snapshots := []; register_snapshots_cap := 16; snapshot_probes := [];
     snapshot_probe_values := []; snapshot_block_dump := None; snapshot_block_dumps := [] |}.

Definition cpu_new : Cpu :=
  {| regs := regs_new; instr_count := 0; instr_limit := DEFAULT_INSTR_LIMIT; prefixes := no_prefixes;
     segments := segments_new; cur_default_seg := Ds; code16 := false; long64 := false; cpuid_dispatch_count := 0;
     instruments := instruments_new; ext := ext_new |}.

(** Assignments to a field. *)
Definition with_regs (c : Cpu) (r : Regs) : Cpu :=
  {| regs := r; instr_count := instr_count c; instr_limit := instr_limit c; prefixes := prefixes c; segments := segments c;
     cur_default_seg := cur_default_seg c; code16 := code16 c; long64 := long64 c;
     cpuid_dispatch_count := cpuid_dispatch_count c; instruments := instruments c; ext := ext c |}.
Definition with_count (c : Cpu) (n : Z) : Cpu :=
  {| regs := regs c; instr_count := n; instr_limit := instr_limit c; prefixes := prefixes c; segments := segments c;
     cur_default_seg := cur_default_seg c; code16 := code16 c; long64 := long64 c;
     cpuid_dispatch_count := cpuid_dispatch_count c; instruments := instruments c; ext := ext c |}.
Definition with_limit (c : Cpu) (n : Z) : Cpu :=
  {| regs := regs c; instr_count := instr_count c; instr_limit := n; prefixes := prefixes c; segments := segments c;
     cur_default_seg := cur_default_seg c; code16 := code16 c; long64 := long64 c;
     cpuid_dispatch_count := cpuid_dispatch_count c; instruments := instruments c; ext := ext c |}.
Definition with_prefixes (c : Cpu) (p : Prefixes) : Cpu :=
  {| regs := regs c; instr_count := instr_count c; instr_limit := instr_limit c; prefixes := p; segments := segments c;
     cur_default_seg := cur_default_seg c; code16 := code16 c; long64 := long64 c;
     cpuid_dispatch_count := cpuid_dispatch_count c; instruments := instruments c; ext := ext c |}.
Definition with_segments (c : Cpu) (s : Segments) (d : Seg) : Cpu :=
  {| regs := regs c; instr_count := instr_count c; instr_limit := instr_limit c; prefixes := prefixes c; segments := s;
     cur_default_seg := d; code16 := code16 c; long64 := long64 c;
     cpuid_dispatch_count := cpuid_dispatch_count c; instruments := instruments c; ext := ext c |}.
Definition with_modes (c : Cpu) (m16 m64 : bool) : Cpu :=
  {| regs := regs c; instr_count := instr_count c; instr_limit := instr_limit c; prefixes := prefixes c; segments := segments c;
     cur_default_seg := cur_default_seg c; code16 := m16; long64 := m64;
     cpuid_dispatch_count := cpuid_dispatch_count c; instruments := instruments c; ext := ext c |}.
Definition with_cpuid (c : Cpu) (n : Z) : Cpu :=
  {| regs := regs c; instr_count := instr_count c; instr_limit := instr_limit c; prefixes := prefixes c; segments := segments c;
     cur_default_seg := cur_default_seg c; code16 := code16 c; long64 := long64 c;
     cpuid_dispatch_count := n; instruments := instruments c; ext := ext c |}.
Definition with_instruments (c : Cpu) (i : Instruments) : Cpu :=
  {| regs := regs c; instr_count := instr_count c; instr_limit := instr_limit c; prefixes := prefixes c; segments := segments c;
     cur_default_seg := cur_default_seg c; code16 := code16 c; long64 := long64 c;
     cpuid_dispatch_count := cpuid_dispatch_count c; instruments := i; ext := ext c |}.

(** * Configuration *)

Definition watching (i : Instruments) (w : gset Z) (snaps : list (Z * list Z)) (mems : list (Z * list (Z * Z))) : Instruments :=
  {| trace_ring := trace_ring i; trace_ring_cap := trace_ring_cap i; track_visited_eips := track_visited_eips i;
     visited_eips := visited_eips i; register_watchpoints := w; register_snapshots := snaps; memory_snapshots := mems;
     register_snapshots_cap := register_snapshots_cap i; snapshot_probes := snapshot_probes i;
     snapshot_probe_values := snapshot_probe_values i; snapshot_block_dump := snapshot_block_dump i;
     snapshot_block_dumps := snapshot_block_dumps i |}.
Definition tracing (i : Instruments) (ring : list Z) (cap : Z) (track : bool) (seen : gset Z) : Instruments :=
  {| trace_ring := ring; trace_ring_cap := cap; track_visited_eips := track; visited_eips := seen;
     register_watchpoints := register_watchpoints i; register_snapshots := register_snapshots i;
     memory_snapshots := memory_snapshots i; register_snapshots_cap := register_snapshots_cap i;
     snapshot_probes := snapshot_probes i; snapshot_probe_values := snapshot_probe_values i;
     snapshot_block_dump := snapshot_block_dump i; snapshot_block_dumps := snapshot_block_dumps i |}.
Definition probing (i : Instruments) (values : list (list (option Z))) (dumps : list (Z * list Z)) : Instruments :=
  {| trace_ring := trace_ring i; trace_ring_cap := trace_ring_cap i; track_visited_eips := track_visited_eips i;
     visited_eips := visited_eips i; register_watchpoints := register_watchpoints i;
     register_snapshots := register_snapshots i; memory_snapshots := memory_snapshots i;
     register_snapshots_cap := register_snapshots_cap i; snapshot_probes := snapshot_probes i;
     snapshot_probe_values := values; snapshot_block_dump := snapshot_block_dump i; snapshot_block_dumps := dumps |}.

Definition add_register_watchpoint (a : Z) (c : Cpu) : Cpu :=
  let i := instruments c in
  with_instruments c (watching i ({[a]} ∪ register_watchpoints i) (register_snapshots i) (memory_snapshots i)).

(** The calls that drain a buffer return it with the new state. *)
Definition clear_register_watchpoints (c : Cpu) : list (Z * list Z) * Cpu :=
  let i := instruments c in (register_snapshots i, with_instruments c (watching i ∅ [] [])).
Definition take_memory_snapshots (c : Cpu) : list (Z * list (Z * Z)) * Cpu :=
  let i := instruments c in
  (memory_snapshots i, with_instruments c (watching i (register_watchpoints i) (register_snapshots i) [])).
Definition take_snapshot_probes (c : Cpu) : list (list (option Z)) * list (Z * list Z) * Cpu :=
  let i := instruments c in
  (snapshot_probe_values i, snapshot_block_dumps i, with_instruments c (probing i [] [])).
Definition enable_visited_eip_tracking (c : Cpu) : Cpu :=
  let i := instruments c in with_instruments c (tracing i (trace_ring i) (trace_ring_cap i) true (visited_eips i)).
Definition disable_visited_eip_tracking (c : Cpu) : Cpu :=
  let i := instruments c in with_instruments c (tracing i (trace_ring i) (trace_ring_cap i) false (visited_eips i)).
Definition take_visited_eips (c : Cpu) : gset Z * Cpu :=
  let i := instruments c in
  (visited_eips i, with_instruments c (tracing i (trace_ring i) (trace_ring_cap i) (track_visited_eips i) ∅)).
Definition enable_trace_ring (cap : Z) (c : Cpu) : Cpu :=
  let i := instruments c in with_instruments c (tracing i [] cap (track_visited_eips i) (visited_eips i)).
Definition set_instr_limit (n : Z) (c : Cpu) : Cpu := with_limit c n.

Definition bases (s : Segments) (fs gs : Z) (sel : gmap Z Z) : Segments :=
  {| cs_sel := cs_sel s; ds_sel := ds_sel s; es_sel := es_sel s; ss_sel := ss_sel s; cs_base := cs_base s;
     ds_base := ds_base s; es_base := es_base s; ss_base := ss_base s; fs_base := fs; gs_base := gs; selectors := sel |}.
Definition set_fs_base (b : Z) (c : Cpu) : Cpu :=
  let s := segments c in with_segments c (bases s b (gs_base s) (selectors s)) (cur_default_seg c).
Definition set_gs_base (b : Z) (c : Cpu) : Cpu :=
  let s := segments c in with_segments c (bases s (fs_base s) b (selectors s)) (cur_default_seg c).
Definition set_long64 (on : bool) (c : Cpu) : Cpu := with_modes c (code16 c) on.
Definition set_code16 (on : bool) (c : Cpu) : Cpu := with_modes c on (long64 c).
Definition define_selector (selector b : Z) (c : Cpu) : Cpu :=
  let s := segments c in
  with_segments c (bases s (fs_base s) (gs_base s) (<[selector := b]> (selectors s))) (cur_default_seg c).

(** * Segments *)

Definition seg_base (c : Cpu) (s : Seg) : Z :=
  let g := segments c in
  match s with
  | Es => es_base g | Cs => cs_base g | Ss => ss_base g | Ds => ds_base g | Fs => fs_base g | Gs => gs_base g
  end.

Definition seg_translate (c : Cpu) (ea : Z) : Z :=
  let seg := default (cur_default_seg c) (seg_override (prefixes c)) in
  wrap32 (ea + seg_base c seg).

Definition selector_base (c : Cpu) (selector : Z) : option Z := selectors (segments c) !! selector.

Definition load_segment (seg : Seg) (selector : Z) (c : Cpu) : Cpu :=
  let b := default 0 (selector_base c selector) in
  let g := segments c in
  let put cs ds es ss csb dsb esb ssb fsb gsb :=
    {| cs_sel := cs; ds_sel := ds; es_sel := es; ss_sel := ss; cs_base := csb; ds_base := dsb; es_base := esb;
       ss_base := ssb; fs_base := fsb; gs_base := gsb; selectors := selectors g |} in
  with_segments c
    match seg with
    | Cs => put selector (ds_sel g) (es_sel g) (ss_sel g) b (ds_base g) (es_base g) (ss_base g) (fs_base g) (gs_base g)
    | Ds => put (cs_sel g) selector (es_sel g) (ss_sel g) (cs_base g) b (es_base g) (ss_base g) (fs_base g) (gs_base g)
    | Es => put (cs_sel g) (ds_sel g) selector (ss_sel g) (cs_base g) (ds_base g) b (ss_base g) (fs_base g) (gs_base g)
    | Ss => put (cs_sel g) (ds_sel g) (es_sel g) selector (cs_base g) (ds_base g) (es_base g) b (fs_base g) (gs_base g)
    | Fs => put (cs_sel g) (ds_sel g) (es_sel g) (ss_sel g) (cs_base g) (ds_base g) (es_base g) (ss_base g) b (gs_base g)
    | Gs => put (cs_sel g) (ds_sel g) (es_sel g) (ss_sel g) (cs_base g) (ds_base g) (es_base g) (ss_base g) (fs_base g) b
    end (cur_default_seg c).

Definition segment_selector (c : Cpu) (seg : Seg) : Z :=
  let g := segments c in
  match seg with Cs => cs_sel g | Ds => ds_sel g | Es => es_sel g | Ss => ss_sel g | Fs | Gs => 0 end.

(** [self.regs.eip = v]. *)
Definition with_eip (r : Regs) (v : Z) : Regs :=
  {| gp := gp r; eip := v; flags := flags r; gp64 := gp64 r; rip := rip r |}.
Definition with_flags (r : Regs) (f : Flags) : Regs :=
  {| gp := gp r; eip := eip r; flags := f; gp64 := gp64 r; rip := rip r |}.

Definition set_cs_ip (cs_selector ip : Z) (c : Cpu) : Cpu :=
  let c := load_segment Cs cs_selector c in
  with_regs c (with_eip (regs c) (wrap32 (cs_base (segments c) + ip))).
Definition set_ss_sp (ss_selector sp : Z) (c : Cpu) : Cpu :=
  let c := load_segment Ss ss_selector c in with_regs c (set_esp (regs c) sp).
Definition ds_selector (c : Cpu) : Z := ds_sel (segments c).

Definition seg_from_reg_field (reg_field : Z) : Seg :=
  match Z.land reg_field 7 with 0 => Es | 1 => Cs | 2 => Ss | 3 => Ds | 4 => Fs | _ => Gs end.
Definition win32_segment_selector (reg_field : Z) : Z :=
  match Z.land reg_field 7 with
  | 0 => 0x23 | 1 => 0x1B | 2 => 0x23 | 3 => 0x23 | 4 => 0x3B | 5 => 0 | _ => 0
  end.

Definition set_segment_reg (which selector : Z) (c : Cpu) : Cpu := load_segment (seg_from_reg_field which) selector c.
Definition far_to_linear (c : Cpu) (selector offset : Z) : Z := wrap32 (default 0 (selector_base c selector) + offset).

(** Reading the stack of a far call. *)
Definition stack_word (c : Cpu) (m : Mmu) (byte_off : Z) : res Trap Z :=
  let sp := Z.land (wrap32 (esp (regs c) + byte_off)) 0xFFFF in
  load16 m (wrap32 (ss_base (segments c) + sp)).
Definition stack_dword (c : Cpu) (m : Mmu) (byte_off : Z) : res Trap Z :=
  lo ← stack_word c m byte_off;
  if 2 ^ 32 <=? byte_off + 2 then Panic
  else hi ← stack_word c m (byte_off + 2); Ok (Z.lor (Z.shiftl hi 16) lo).

(** * Operations *)

(** [&mut self] and [&mut Mmu] with a [Result<_, Trap>]. *)
Definition X (A : Type) : Type := Cpu * Mmu -> (Cpu * Mmu) * res Trap A.

#[export] Instance x_ret : MRet X := fun A a s => (s, Ok a).
#[export] Instance x_bind : MBind X := fun A B f c s =>
  match c s with
  | (s', Ok a) => f a s'
  | (s', Err e) => (s', Err e)
  | (s', Panic) => (s', Panic)
  end.

Definition cpu : X Cpu := fun s => (s, Ok s.1).
Definition trap {A} (t : Trap) : X A := fun s => (s, Err t).
Definition panic {A} : X A := fun s => (s, Panic).
(** Changing the processor, asking the memory, changing the memory. *)
Definition upd (f : Cpu -> Cpu) : X unit := fun s => ((f s.1, s.2), Ok tt).
Definition ask {A} (f : Mmu -> res Trap A) : X A := fun s => (s, f s.2).
Definition act {A} (f : St A) : X A := fun s => let '(m, r) := f s.2 in ((s.1, m), r).

Definition get_regs : X Regs := c ← cpu; mret (regs c).
Definition put_regs (r : Regs) : X unit := upd (fun c => with_regs c r).
Definition put_flags (f : Flags) : X unit := upd (fun c => with_regs c (with_flags (regs c) f)).
Definition get_flags : X Flags := r ← get_regs; mret (flags r).
Definition get_eip : X Z := r ← get_regs; mret (eip r).
Definition put_eip (v : Z) : X unit := upd (fun c => with_regs c (with_eip (regs c) v)).
Definition r32 (r : Reg32) : X Z := s ← get_regs; mret (get32 s r).
Definition r16 (r : Reg16) : X Z := s ← get_regs; mret (get16 s r).
Definition r8 (r : Reg8) : X Z := s ← get_regs; mret (get8 s r).
Definition w32 (r : Reg32) (v : Z) : X unit := upd (fun c => with_regs c (set32 (regs c) r v)).
Definition w16 (r : Reg16) (v : Z) : X unit := upd (fun c => with_regs c (set16 (regs c) r v)).
Definition w8 (r : Reg8) (v : Z) : X unit := upd (fun c => with_regs c (set8 (regs c) r v)).
Definition undefined {A} (e opcode : Z) : X A := trap (UndefinedOpcode e opcode).
Definition privileged {A} (e : Z) (mnemonic : list byte) : X A := trap (PrivilegedOpcode e mnemonic).

(** An arithmetic primitive on the flags. *)
Definition alu (f : Alu) (lhs rhs : Z) : X (Z * bool) :=
  fl ← get_flags; let '(r, wb, fl) := f lhs rhs fl in _ ← put_flags fl; mret (r, wb).

(** * The stack *)

Definition sp_wrap (c : Cpu) (sp : Z) : Z := if code16 c then Z.land (wrap32 sp) 0xFFFF else wrap32 sp.

Definition dec_sp (n : Z) : X Z :=
  c ← cpu; let sp := sp_wrap c (esp (regs c) - n) in
  _ ← put_regs (set_esp (regs c) sp); mret sp.
Definition inc_sp (n : Z) : X unit :=
  c ← cpu; put_regs (set_esp (regs c) (sp_wrap c (esp (regs c) + n))).
Definition stack_addr (c : Cpu) (sp : Z) : Z := wrap32 (ss_base (segments c) + sp).

Definition push32 (value : Z) : X unit := new_sp ← dec_sp 4; c ← cpu; act (store32 (stack_addr c new_sp) value).
Definition pop32 : X Z :=
  c ← cpu; v ← ask (fun m => load32 m (stack_addr c (esp (regs c)))); _ ← inc_sp 4; mret v.
Definition push16 (value : Z) : X unit := new_sp ← dec_sp 2; c ← cpu; act (store16 (stack_addr c new_sp) value).
Definition pop16 : X Z :=
  c ← cpu; v ← ask (fun m => load16 m (stack_addr c (esp (regs c)))); _ ← inc_sp 2; mret v.

Definition near_ret_pop : X Z :=
  c ← cpu;
  if code16 c then ip ← pop16; mret (wrap32 (cs_base (segments c) + ip)) else pop32.

(** [load_segment(Cs, sel); eip = cs_base + off]. *)
Definition far_jump (sel off : Z) : X unit :=
  _ ← upd (load_segment Cs sel); c ← cpu; put_eip (wrap32 (cs_base (segments c) + off)).

Definition far_return_and_clean (clean_bytes : Z) : X unit :=
  ip ← pop16; cs ← pop16;
  _ ← far_jump cs ip;
  if negb (clean_bytes =? 0) then inc_sp clean_bytes else mret tt.

Definition seg_push (seg : Seg) (entry_eip opc : Z) : X StepOk :=
  c ← cpu;
  if code16 c then _ ← push16 (segment_selector c seg); mret Continued else undefined entry_eip opc.
Definition seg_pop (seg : Seg) (entry_eip opc : Z) : X StepOk :=
  c ← cpu;
  if code16 c then sel ← pop16; _ ← upd (load_segment seg sel); mret Continued else undefined entry_eip opc.

(** * Fetching *)

Definition op_size_16 : X bool := c ← cpu; mret (xorb (op_size_16_prefix (prefixes c)) (code16 c)).
Definition addr16 : X bool := c ← cpu; mret (xorb (addr_size_16_prefix (prefixes c)) (code16 c)).
Definition rep_prefix_byte (c : Cpu) : option Z :=
  match rep_prefix (prefixes c) with Some Rep => Some 0xF3 | Some Repne => Some 0xF2 | None => None end.
Definition advance_eip (n : Z) : X unit := upd (fun c => with_regs c (with_eip (regs c) (wrap32 (eip (regs c) + n)))).

Definition fetch_imm8 : X Z :=
  e ← get_eip; v ← ask (fun m => fetch_x8 m e); _ ← advance_eip 1; mret (u8 v).
Definition fetch_imm16 : X Z :=
  e ← get_eip;
  lo ← ask (fun m => fetch_x8 m e); hi ← ask (fun m => fetch_x8 m (wrap32 (e + 1)));
  _ ← advance_eip 2; mret (from_le [lo; hi]).
Definition fetch_imm32 : X Z :=
  e ← get_eip;
  b0 ← ask (fun m => fetch_x8 m e); b1 ← ask (fun m => fetch_x8 m (wrap32 (e + 1)));
  b2 ← ask (fun m => fetch_x8 m (wrap32 (e + 2))); b3 ← ask (fun m => fetch_x8 m (wrap32 (e + 3)));
  _ ← advance_eip 4; mret (from_le [b0; b1; b2; b3]).

Definition fetch_moffs : X Z :=
  _ ← upd (fun c => with_segments c (segments c) Ds);
  a ← addr16; if a : bool then fetch_imm16 else fetch_imm32.

Definition fetch_modrm : X ModRm := b ← fetch_imm8; mret (modrm_decode b).

(** The bytes from index [i]; a fault behind the first ends the list. *)
Fixpoint peek_from (m : Mmu) (e : Z) (n : nat) (i : Z) : res Trap (list byte) :=
  match n with
  | O => Ok []
  | S n =>
      match fetch_x8 m (wrap32 (e + i)) with
      | Ok b => rest ← peek_from m e n (i + 1); Ok (b :: rest)
      | Err t => if 1 <=? i then Ok [] else Err t
      | Panic => Panic
      end
  end.
Definition peek_after_modrm (n : nat) : X (list byte) := e ← get_eip; ask (fun m => peek_from m e n 0).

(** * Operands *)

Definition default_seg (d : Seg) : X unit := upd (fun c => with_segments c (segments c) d).

Definition resolve_modrm (mr : ModRm) (bytes : list byte) : X (Operand * Z) :=
  a ← addr16;
  r ← get_regs;
  if a : bool then
    o ← ask (fun _ => resolve_modrm16 mr bytes r);
    let '(op, consumed, bp_relative) := o in
    _ ← default_seg (if bp_relative : bool then Ss else Ds); mret (op, consumed)
  else _ ← default_seg Ds; ask (fun _ => resolve_modrm32 mr bytes r).

Definition seg_apply (c : Cpu) (op : Operand) : Operand :=
  match op with OMem32 a => OMem32 (seg_translate c a) | other => other end.

(** The sequence in front of every ModR/M instruction: [peek_after_modrm],
    [resolve_modrm], the advance past what it consumed. *)
Definition resolve_at (mr : ModRm) : X (Operand * Z) :=
  bytes ← peek_after_modrm 16;
  oc ← resolve_modrm mr bytes;
  _ ← advance_eip (wrap32 oc.2); mret oc.
(** ... and [seg_apply]. *)
Definition operand (mr : ModRm) : X Operand := oc ← resolve_at mr; c ← cpu; mret (seg_apply c oc.1).

Definition read32 (op : Operand) : X Z := r ← get_regs; ask (read_operand32 op r).
Definition read16 (op : Operand) : X Z := r ← get_regs; ask (read_operand16 op r).
Definition write32 (op : Operand) (v : Z) : X unit := r ← get_regs; r ← act (write_operand32 op v r); put_regs r.
Definition write16 (op : Operand) (v : Z) : X unit := r ← get_regs; r ← act (write_operand16 op v r); put_regs r.

Inductive Op8Dst : Type := Reg8Dst (r : Reg8) | Mem8Dst (a : Z).
Inductive Op16Dst : Type := Reg16Dst (r : Reg16) | Mem16Dst (a : Z).

Definition resolve_op8 (mr : ModRm) : X (Z * Op8Dst) :=
  if mode mr =? 3 then let r := reg8_from_bits (rm mr) in v ← r8 r; mret (v, Reg8Dst r)
  else
    op ← operand mr;
    match op with OReg32 _ => panic | OMem32 a => v ← ask (fun m => load8 m a); mret (v, Mem8Dst a) end.
Definition resolve_op16 (mr : ModRm) : X (Z * Op16Dst) :=
  if mode mr =? 3 then let r := reg16_from_bits (rm mr) in v ← r16 r; mret (v, Reg16Dst r)
  else
    op ← operand mr;
    match op with OReg32 _ => panic | OMem32 a => v ← ask (fun m => load16 m a); mret (v, Mem16Dst a) end.
Definition write_op8 (dst : Op8Dst) (value : Z) : X unit :=
  match dst with Reg8Dst r => w8 r value | Mem8Dst a => act (store8 a value) end.
Definition write_op16 (dst : Op16Dst) (value : Z) : X unit :=
  match dst with Reg16Dst r => w16 r value | Mem16Dst a => act (store16 a value) end.
End cpu.
