(* ===== verification/X86Exec.v ===== *)
(** The instruction bodies of the x86 interpreter that the dispatch shares
    (src/src/emulator/emulator/isa_int.rs): arithmetic forms, shifts and
    rotates, multiplication and division, the double shifts, string
    instructions and group 5. *)

From S2P Require Import Prelude Mmu Regs X86Alu X86Decode X86Cpu.

(** * Shifts and rotates

    [val.rotate_left(c)] and [rotate_right] at width [w]. *)
Definition rotate_left (w val c : Z) : Z := wrap w (Z.lor (Z.shiftl val (c mod w)) (Z.shiftr val ((- c) mod w))).
Definition rotate_right (w val c : Z) : Z := rotate_left w val (- c).

(** One step of RCL and RCR at a width, [cf] carried along. *)
Definition rcl_step_32 (s : Z * bool) : Z * bool :=
  let '(v, cf) := s in (Z.lor (wrap32 (Z.shiftl v 1)) (Z.b2z cf), any_bit v 0x80000000).
Definition rcl_step_16 (s : Z * bool) : Z * bool :=
  let '(v, cf) := s in (Z.lor (Z.land (wrap32 (Z.shiftl v 1)) 0xFFFF) (Z.b2z cf), any_bit v 0x8000).
Definition rcl_step_8 (s : Z * bool) : Z * bool :=
  let '(v, cf) := s in (Z.lor (Z.land (wrap32 (Z.shiftl v 1)) 0xFF) (Z.b2z cf), any_bit v 0x80).
Definition rcr_step_32 (s : Z * bool) : Z * bool :=
  let '(v, cf) := s in (Z.lor (Z.shiftr v 1) (Z.shiftl (Z.b2z cf) 31), any_bit v 1).
Definition rcr_step_16 (s : Z * bool) : Z * bool :=
  let '(v, cf) := s in (Z.lor (Z.shiftr v 1) (Z.shiftl (Z.b2z cf) 15), any_bit v 1).
Definition rcr_step_8 (s : Z * bool) : Z * bool :=
  let '(v, cf) := s in (Z.lor (Z.shiftr v 1) (Z.shiftl (Z.b2z cf) 7), any_bit v 1).

(** [for _ in 0..c]. *)
Definition times (c : Z) (f : Z * bool -> Z * bool) (s : Z * bool) : Z * bool := Nat.iter (Z.to_nat c) f s.

(** The flags change for a count other than zero only. *)
Definition flags_if (count : Z) (f' f : Flags) : Flags := if negb (count =? 0) then f' else f.

(** Result and flags of group 2; [None] is the undefined extension. *)
Definition group2_op_32 (reg val count : Z) (f : Flags) : option (Z * Flags) :=
  match reg with
  | 4 | 6 =>
      let r := if 32 <=? count then 0 else wrap32 (Z.shiftl val count) in
      let carry := if count <=? 32 then negb (Z.land (Z.shiftr val (32 - count)) 1 =? 0) else false in
      Some (r, flags_if count (set_szp_32 (with_cf f carry) r) f)
  | 5 =>
      let r := if 32 <=? count then 0 else Z.shiftr val count in
      let carry := negb (Z.land (Z.shiftr val (count - 1)) 1 =? 0) in
      Some (r, flags_if count (set_szp_32 (with_cf f carry) r) f)
  | 7 =>
      let signed := sint 32 val in
      let r := if 32 <=? count then (if signed <? 0 then wrap32 (-1) else 0) else wrap32 (Z.shiftr signed count) in
      let carry := negb (Z.land (Z.shiftr val (count - 1)) 1 =? 0) in
      Some (r, flags_if count (set_szp_32 (with_cf f carry) r) f)
  | 0 =>
      let c := count mod 32 in
      let r := if c =? 0 then val else rotate_left 32 val c in
      Some (r, flags_if count (with_cf f (negb (Z.land r 1 =? 0))) f)
  | 1 =>
      let c := count mod 32 in
      let r := if c =? 0 then val else rotate_right 32 val c in
      Some (r, flags_if count (with_cf f (any_bit r 0x80000000)) f)
  | 2 =>
      let '(v, carry) := times (Z.land count 0x1F) rcl_step_32 (val, cf f) in
      Some (v, flags_if count (with_cf f carry) f)
  | 3 =>
      let '(v, carry) := times (Z.land count 0x1F) rcr_step_32 (val, cf f) in
      Some (v, flags_if count (with_cf f carry) f)
  | _ => None
  end.

Definition group2_op_16 (reg val count : Z) (f : Flags) : option (Z * Flags) :=
  match reg with
  | 4 | 6 =>
      let r := wrap16 (if 16 <=? count then 0 else wrap32 (Z.shiftl val count)) in
      let carry := if count <=? 16 then negb (Z.land (Z.shiftr val (16 - count)) 1 =? 0) else false in
      Some (r, flags_if count (set_szp_16 (with_cf f carry) r) f)
  | 5 =>
      let r := wrap16 (if 16 <=? count then 0 else Z.shiftr val count) in
      let carry := negb (Z.land (Z.shiftr val (count - 1)) 1 =? 0) in
      Some (r, flags_if count (set_szp_16 (with_cf f carry) r) f)
  | 7 =>
      let signed := sint 16 val in
      let r := if 16 <=? count then (if signed <? 0 then 0xFFFF else 0) else wrap16 (Z.shiftr signed count) in
      let carry := negb (Z.land (Z.shiftr val (count - 1)) 1 =? 0) in
      Some (r, flags_if count (set_szp_16 (with_cf f carry) r) f)
  | 0 =>
      let c := count mod 16 in
      let r := if c =? 0 then val else rotate_left 16 val c in
      Some (r, flags_if count (with_cf f (negb (Z.land r 1 =? 0))) f)
  | 1 =>
      let c := count mod 16 in
      let r := if c =? 0 then val else rotate_right 16 val c in
      Some (r, flags_if count (with_cf f (any_bit r 0x8000)) f)
  | 2 =>
      let '(v, carry) := times (Z.land count 0x1F) rcl_step_16 (val, cf f) in
      Some (wrap16 v, flags_if count (with_cf f carry) f)
  | 3 =>
      let '(v, carry) := times (Z.land count 0x1F) rcr_step_16 (val, cf f) in
      Some (wrap16 v, flags_if count (with_cf f carry) f)
  | _ => None
  end.

Definition group2_op_8 (reg val count : Z) (f : Flags) : option (Z * Flags) :=
  match reg with
  | 4 | 6 =>
      let r := wrap8 (if 8 <=? count then 0 else wrap32 (Z.shiftl val count)) in
      let carry := if count <=? 8 then negb (Z.land (Z.shiftr val (8 - count)) 1 =? 0) else false in
      Some (r, flags_if count (set_szp_8 (with_cf f carry) r) f)
  | 5 =>
      let r := wrap8 (if 8 <=? count then 0 else Z.shiftr val count) in
      let carry := negb (Z.land (Z.shiftr val (count - 1)) 1 =? 0) in
      Some (r, flags_if count (set_szp_8 (with_cf f carry) r) f)
  | 7 =>
      let signed := sint 8 val in
      let r := if 8 <=? count then (if signed <? 0 then 0xFF else 0) else wrap8 (Z.shiftr signed count) in
      let carry := negb (Z.land (Z.shiftr val (count - 1)) 1 =? 0) in
      Some (r, flags_if count (set_szp_8 (with_cf f carry) r) f)
  | 0 =>
      let c := count mod 8 in
      let r := if c =? 0 then val else rotate_left 8 val c in
      Some (r, flags_if count (with_cf f (negb (Z.land r 1 =? 0))) f)
  | 1 =>
      let c := count mod 8 in
      let r := if c =? 0 then val else rotate_right 8 val c in
      Some (r, flags_if count (with_cf f (any_bit r 0x80)) f)
  | 2 =>
      let '(v, carry) := times (Z.land count 0x1F) rcl_step_8 (val, cf f) in
      Some (wrap8 v, flags_if count (with_cf f carry) f)
  | 3 =>
      let '(v, carry) := times (Z.land count 0x1F) rcr_step_8 (val, cf f) in
      Some (wrap8 v, flags_if count (with_cf f carry) f)
  | _ => None
  end.

Inductive ShiftCount : Type := One | FromCl | Imm8.
Inductive StringSize : Type := B8 | W16 | D32.

Section exec.
Context `{VectorState}.

Definition done : X StepOk := mret Continued.

(** * Arithmetic forms *)

Definition alu_rm16_r16 (f : Alu) : X StepOk :=
  mr ← fetch_modrm; lhs_op ← operand mr;
  lhs ← read16 lhs_op; rhs ← r16 (reg16_from_bits (reg mr));
  rw ← alu f lhs rhs;
  _ ← if rw.2 : bool then write16 lhs_op rw.1 else mret tt; done.
Definition alu_r16_rm16 (f : Alu) : X StepOk :=
  mr ← fetch_modrm; rhs_op ← operand mr;
  let dst := reg16_from_bits (reg mr) in
  lhs ← r16 dst; rhs ← read16 rhs_op;
  rw ← alu f lhs rhs;
  _ ← if rw.2 : bool then w16 dst rw.1 else mret tt; done.

Definition alu_rm32_r32 (op : Z) (f : Alu) : X StepOk :=
  o ← op_size_16;
  if o : bool then alu_rm16_r16 (alu_fn16_for_opcode op)
  else
    mr ← fetch_modrm; lhs_op ← operand mr;
    lhs ← read32 lhs_op; rhs ← r32 (reg32_from_bits (reg mr));
    rw ← alu f lhs rhs;
    _ ← if rw.2 : bool then write32 lhs_op rw.1 else mret tt; done.
Definition alu_r32_rm32 (op : Z) (f : Alu) : X StepOk :=
  o ← op_size_16;
  if o : bool then alu_r16_rm16 (alu_fn16_for_opcode op)
  else
    mr ← fetch_modrm; rhs_op ← operand mr;
    let dst := reg32_from_bits (reg mr) in
    lhs ← r32 dst; rhs ← read32 rhs_op;
    rw ← alu f lhs rhs;
    _ ← if rw.2 : bool then w32 dst rw.1 else mret tt; done.
Definition alu_eax_imm32 (op : Z) (f : Alu) : X StepOk :=
  o ← op_size_16;
  if o : bool then
    imm ← fetch_imm16; lhs ← r16 Ax;
    rw ← alu (alu_fn16_for_opcode op) lhs imm;
    _ ← if rw.2 : bool then w16 Ax rw.1 else mret tt; done
  else
    imm ← fetch_imm32; lhs ← r32 Eax;
    rw ← alu f lhs imm;
    _ ← if rw.2 : bool then w32 Eax rw.1 else mret tt; done.

Definition alu_rm8_r8 (f : Alu) : X StepOk :=
  mr ← fetch_modrm; ld ← resolve_op8 mr; rhs ← r8 (reg8_from_bits (reg mr));
  rw ← alu f ld.1 rhs;
  _ ← if rw.2 : bool then write_op8 ld.2 rw.1 else mret tt; done.
Definition alu_r8_rm8 (f : Alu) : X StepOk :=
  mr ← fetch_modrm; rd ← resolve_op8 mr;
  let dst_reg := reg8_from_bits (reg mr) in
  lhs ← r8 dst_reg;
  rw ← alu f lhs rd.1;
  _ ← if rw.2 : bool then w8 dst_reg rw.1 else mret tt; done.
Definition alu_al_imm8 (f : Alu) : X StepOk :=
  imm ← fetch_imm8; lhs ← r8 Al;
  rw ← alu f lhs imm;
  _ ← if rw.2 : bool then w8 Al rw.1 else mret tt; done.

Definition group1_rm8_imm8 : X StepOk :=
  mr ← fetch_modrm; ld ← resolve_op8 mr; imm ← fetch_imm8;
  rw ← alu (group1_op_8 (reg mr)) ld.1 imm;
  _ ← if rw.2 : bool then write_op8 ld.2 rw.1 else mret tt; done.
Definition group1_rm32_imm32 : X StepOk :=
  mr ← fetch_modrm; lhs_op ← operand mr;
  o ← op_size_16;
  if o : bool then
    lhs ← read16 lhs_op; imm ← fetch_imm16;
    rw ← alu (group1_op_16 (reg mr)) lhs imm;
    _ ← if rw.2 : bool then write16 lhs_op rw.1 else mret tt; done
  else
    lhs ← read32 lhs_op; imm ← fetch_imm32;
    rw ← alu (group1_op_32 (reg mr)) lhs imm;
    _ ← if rw.2 : bool then write32 lhs_op rw.1 else mret tt; done.
Definition group1_rm32_imm8 : X StepOk :=
  mr ← fetch_modrm; lhs_op ← operand mr;
  o ← op_size_16;
  if o : bool then
    lhs ← read16 lhs_op; b ← fetch_imm8;
    rw ← alu (group1_op_16 (reg mr)) lhs (sign_ext_8_to_16 b);
    _ ← if rw.2 : bool then write16 lhs_op rw.1 else mret tt; done
  else
    lhs ← read32 lhs_op; b ← fetch_imm8;
    rw ← alu (group1_op_32 (reg mr)) lhs (sign_ext_8_to_32 b);
    _ ← if rw.2 : bool then write32 lhs_op rw.1 else mret tt; done.

(** The flags of TEST: CF and OF cleared, then sign, zero and parity. *)
Definition test_flags (szp : Flags -> Z -> Flags) (res : Z) : X unit :=
  fl ← get_flags; put_flags (szp (with_of (with_cf fl false) false) res).

Definition test_rm8_r8 : X StepOk :=
  mr ← fetch_modrm; ld ← resolve_op8 mr; rhs ← r8 (reg8_from_bits (reg mr));
  _ ← test_flags set_szp_8 (Z.land ld.1 rhs); done.

(** * Moves *)

Definition mov_rm8_r8 : X StepOk :=
  mr ← fetch_modrm; vd ← resolve_op8 mr; src ← r8 (reg8_from_bits (reg mr));
  _ ← write_op8 vd.2 src; done.
Definition mov_rm32_r32 : X StepOk :=
  mr ← fetch_modrm; op ← operand mr;
  o ← op_size_16; src ← r32 (reg32_from_bits (reg mr));
  _ ← if o : bool then write16 op (wrap16 src) else write32 op src; done.
Definition mov_r8_rm8 : X StepOk :=
  mr ← fetch_modrm; vd ← resolve_op8 mr; _ ← w8 (reg8_from_bits (reg mr)) vd.1; done.
Definition mov_r32_rm32 : X StepOk :=
  mr ← fetch_modrm; op ← operand mr;
  let dst := reg32_from_bits (reg mr) in
  o ← op_size_16;
  if o : bool then
    src ← read16 op; prev ← r32 dst;
    _ ← w32 dst (Z.lor (Z.land prev 0xFFFF0000) src); done
  else src ← read32 op; _ ← w32 dst src; done.

Definition lea_r32_m : X StepOk :=
  mr ← fetch_modrm;
  if mode mr =? 3 then e ← get_eip; undefined e 0x8D
  else
    oc ← resolve_at mr;
    match oc.1 with
    | OMem32 a => _ ← w32 (reg32_from_bits (reg mr)) a; done
    | OReg32 _ => panic
    end.

Definition pop_rm32 : X StepOk :=
  mr ← fetch_modrm;
  if negb (reg mr =? 0) then e ← get_eip; undefined e 0x8F
  else
    o ← op_size_16;
    if o : bool then v ← pop16; op ← operand mr; _ ← write16 op v; done
    else v ← pop32; op ← operand mr; _ ← write32 op v; done.

(** * Group 2 *)

Definition shift_count (source : ShiftCount) : X Z :=
  match source with
  | One => mret 1
  | FromCl => c ← r8 Cl; mret (Z.land c 0x1F)
  | Imm8 => b ← fetch_imm8; mret (Z.land b 0x1F)
  end.

(** The undefined extension traps at the current [eip]. *)
Definition group2 (f : Z -> Z -> Z -> Flags -> option (Z * Flags)) (opcode reg val count : Z) : X Z :=
  fl ← get_flags;
  match f reg val count fl with
  | Some (r, fl) => _ ← put_flags fl; mret r
  | None => e ← get_eip; undefined e (Z.lor opcode reg)
  end.

Definition group2_rm16 (source : ShiftCount) : X StepOk :=
  mr ← fetch_modrm; op ← operand mr; val ← read16 op; count ← shift_count source;
  result ← group2 group2_op_16 0xC100 (reg mr) val count;
  _ ← write16 op result; done.
Definition group2_rm32 (source : ShiftCount) : X StepOk :=
  o ← op_size_16;
  if o : bool then group2_rm16 source
  else
    mr ← fetch_modrm; op ← operand mr; val ← read32 op; count ← shift_count source;
    result ← group2 group2_op_32 0xC100 (reg mr) val count;
    _ ← write32 op result; done.
Definition group2_rm8 (source : ShiftCount) : X StepOk :=
  mr ← fetch_modrm; vd ← resolve_op8 mr; count ← shift_count source;
  result ← group2 group2_op_8 0xC000 (reg mr) vd.1 count;
  _ ← write_op8 vd.2 result; done.

(** * Group 3 *)

(** [cf] and [of] set to the same bit. *)
Definition carry_overflow (b : bool) : X unit := fl ← get_flags; put_flags (with_of (with_cf fl b) b).

(** The flags of NEG. *)
Definition neg_flags (szp : Flags -> Z -> Flags) (val min r : Z) : X unit :=
  fl ← get_flags; put_flags (szp (with_of (with_cf fl (negb (val =? 0))) (val =? min)) r).

(** The quotient of two signed words: Rust panics when it does not fit. *)
Definition signed_div (w dividend divisor : Z) : X (Z * Z) :=
  if (dividend =? - 2 ^ (w - 1)) && (divisor =? -1) then panic
  else mret (Z.quot dividend divisor, Z.rem dividend divisor).
Definition fits (w q : Z) : bool := (- 2 ^ (w - 1) <=? q) && (q <=? 2 ^ (w - 1) - 1).

Definition group3_rm16 (entry_eip : Z) : X StepOk :=
  mr ← fetch_modrm; op ← operand mr; val ← read16 op;
  match reg mr with
  | 0 | 1 => imm ← fetch_imm16; _ ← test_flags set_szp_16 (Z.land val imm); done
  | 2 => _ ← write16 op (wrap16 (Z.lnot val)); done
  | 3 => let r := wrap16 (0 - val) in _ ← neg_flags set_szp_16 val 0x8000 r; _ ← write16 op r; done
  | 4 =>
      a ← r16 Ax; let prod := a * val in
      _ ← w16 Ax (wrap16 prod); _ ← w16 Dx (wrap16 (Z.shiftr prod 16));
      _ ← carry_overflow (negb (Z.shiftr prod 16 =? 0)); done
  | 5 =>
      a ← r16 Ax; let prod := sint 16 a * sint 16 val in
      _ ← w16 Ax (wrap16 prod); _ ← w16 Dx (wrap16 (Z.shiftr prod 16));
      _ ← carry_overflow (negb (prod =? sint 16 (wrap16 prod))); done
  | 6 =>
      if val =? 0 then trap (DivideByZero entry_eip)
      else
        d ← r16 Dx; a ← r16 Ax;
        let dividend := Z.lor (Z.shiftl d 16) a in
        let q := dividend / val in let r := dividend mod val in
        if 0xFFFF <? q then trap (DivideByZero entry_eip)
        else _ ← w16 Ax (wrap16 q); _ ← w16 Dx (wrap16 r); done
  | 7 =>
      if val =? 0 then trap (DivideByZero entry_eip)
      else
        d ← r16 Dx; a ← r16 Ax;
        let dividend := Z.lor (Z.shiftl (sint 16 d) 16) (Z.land a 0xFFFF) in
        qr ← signed_div 32 dividend (sint 16 val);
        if negb (fits 16 qr.1) then trap (DivideByZero entry_eip)
        else _ ← w16 Ax (wrap16 qr.1); _ ← w16 Dx (wrap16 qr.2); done
  | _ => panic
  end.

(** MUL, DIV and IDIV of a 32-bit operand. *)
Definition mul_32 (val : Z) : X StepOk :=
  a ← r32 Eax; let prod := a * val in
  _ ← w32 Eax (wrap32 prod); _ ← w32 Edx (wrap32 (Z.shiftr prod 32));
  _ ← carry_overflow (negb (Z.shiftr prod 32 =? 0)); done.
Definition div_32 (entry_eip val : Z) : X StepOk :=
  if val =? 0 then trap (DivideByZero entry_eip)
  else
    d ← r32 Edx; a ← r32 Eax;
    let dividend := Z.lor (Z.shiftl d 32) a in
    let q := dividend / val in let r := dividend mod val in
    if 0xFFFFFFFF <? q then trap (DivideByZero entry_eip)
    else _ ← w32 Eax (wrap32 q); _ ← w32 Edx (wrap32 r); done.
Definition idiv_32 (entry_eip val : Z) : X StepOk :=
  if val =? 0 then trap (DivideByZero entry_eip)
  else
    d ← r32 Edx; a ← r32 Eax;
    let dividend := Z.lor (Z.shiftl (sint 32 d) 32) a in
    qr ← signed_div 64 dividend (sint 32 val);
    if negb (fits 32 qr.1) then trap (DivideByZero entry_eip)
    else _ ← w32 Eax (wrap32 qr.1); _ ← w32 Edx (wrap32 qr.2); done.

Definition group3_rm32 (entry_eip : Z) : X StepOk :=
  o ← op_size_16;
  if o : bool then group3_rm16 entry_eip
  else
  mr ← fetch_modrm; op ← operand mr; val ← read32 op;
  match reg mr with
  | 0 | 1 => imm ← fetch_imm32; _ ← test_flags set_szp_32 (Z.land val imm); done
  | 2 => _ ← write32 op (wrap32 (Z.lnot val)); done
  | 3 => let r := wrap32 (0 - val) in _ ← neg_flags set_szp_32 val 0x80000000 r; _ ← write32 op r; done
  | 4 => mul_32 val
  | 5 =>
      a ← r32 Eax; let prod := sint 32 a * sint 32 val in
      _ ← w32 Eax (wrap32 prod); _ ← w32 Edx (wrap32 (Z.shiftr prod 32));
      _ ← carry_overflow (negb (prod =? sint 32 (wrap32 prod))); done
  | 6 => div_32 entry_eip val
  | 7 => idiv_32 entry_eip val
  | _ => panic
  end.

Definition group3_rm8 (entry_eip : Z) : X StepOk :=
  mr ← fetch_modrm; vd ← resolve_op8 mr;
  let '(val, dst) := vd in
  match reg mr with
  | 0 | 1 => imm ← fetch_imm8; _ ← test_flags set_szp_8 (Z.land val imm); done
  | 2 => _ ← write_op8 dst (wrap8 (Z.lnot val)); done
  | 3 => let r := wrap8 (0 - val) in _ ← neg_flags set_szp_8 val 0x80 r; _ ← write_op8 dst r; done
  | 4 =>
      a ← r8 Al; let prod := a * val in
      _ ← w16 Ax prod; _ ← carry_overflow (any_bit prod 0xFF00); done
  | 5 =>
      a ← r8 Al; let prod := sint 8 a * sint 8 val in
      _ ← w16 Ax (wrap16 prod); _ ← carry_overflow (negb (prod =? sint 8 (wrap8 prod))); done
  | 6 =>
      if val =? 0 then trap (DivideByZero entry_eip)
      else
        dividend ← r16 Ax;
        let q := dividend / val in let r := dividend mod val in
        if 0xFF <? q then trap (DivideByZero entry_eip)
        else _ ← w8 Al (wrap8 q); _ ← w8 Ah (wrap8 r); done
  | 7 =>
      if val =? 0 then trap (DivideByZero entry_eip)
      else
        a ← r16 Ax;
        qr ← signed_div 16 (sint 16 a) (sint 8 val);
        if negb (fits 8 qr.1) then trap (DivideByZero entry_eip)
        else _ ← w8 Al (wrap8 qr.1); _ ← w8 Ah (wrap8 qr.2); done
  | _ => panic
  end.

(** * Double shifts *)

Definition shld_apply (op : Operand) (reg_field count : Z) : X StepOk :=
  dest ← read32 op; src ← r32 (reg32_from_bits reg_field);
  if count =? 0 then done
  else
    let combined := Z.lor (Z.shiftl dest 32) src in
    let result := wrap32 (Z.shiftr (wrap64 (Z.shiftl combined count)) 32) in
    fl ← get_flags;
    _ ← put_flags (set_szp_32 (with_cf fl (negb (Z.land (Z.shiftr dest (32 - count)) 1 =? 0))) result);
    _ ← write32 op result; done.
Definition shrd_apply (op : Operand) (reg_field count : Z) : X StepOk :=
  dest ← read32 op; src ← r32 (reg32_from_bits reg_field);
  if count =? 0 then done
  else
    let combined := Z.lor (Z.shiftl src 32) dest in
    let result := wrap32 (Z.shiftr combined count) in
    fl ← get_flags;
    _ ← put_flags (set_szp_32 (with_cf fl (negb (Z.land (Z.shiftr dest (count - 1)) 1 =? 0))) result);
    _ ← write32 op result; done.

Definition shld_imm : X StepOk :=
  mr ← fetch_modrm; op ← operand mr; imm ← fetch_imm8; shld_apply op (reg mr) (Z.land imm 0x1F).
Definition shld_cl : X StepOk :=
  mr ← fetch_modrm; op ← operand mr; c ← r8 Cl; shld_apply op (reg mr) (Z.land c 0x1F).
Definition shrd_imm : X StepOk :=
  mr ← fetch_modrm; op ← operand mr; imm ← fetch_imm8; shrd_apply op (reg mr) (Z.land imm 0x1F).
Definition shrd_cl : X StepOk :=
  mr ← fetch_modrm; op ← operand mr; c ← r8 Cl; shrd_apply op (reg mr) (Z.land c 0x1F).

(** * String instructions *)

Definition string_size (sized_dword : bool) : X StringSize :=
  o ← op_size_16; mret (if negb sized_dword then B8 else if o : bool then W16 else D32).

Definition str_di_addr : X Z :=
  c ← cpu; mret (if code16 c then wrap32 (es_base (segments c) + get16 (regs c) Di) else get32 (regs c) Edi).
Definition str_si_addr (translate : bool) : X Z :=
  c ← cpu;
  mret (if code16 c then wrap32 (seg_base c (default Ds (seg_override (prefixes c))) + get16 (regs c) Si)
        else if translate then seg_translate c (get32 (regs c) Esi)
        else get32 (regs c) Esi).

Definition str_advance (s16 : Reg16) (s32 : Reg32) (step : Z) : X unit :=
  c ← cpu;
  if code16 c then w16 s16 (wrap16 (get16 (regs c) s16 + step)) else w32 s32 (wrap32 (get32 (regs c) s32 + step)).

Definition string_step_for (size : StringSize) : X Z :=
  fl ← get_flags;
  let inc := match size with B8 => 1 | W16 => 2 | D32 => 4 end in
  mret (if df fl then - inc else inc).

(** The loop of a prefixed instruction, with a round for each unit of ECX. *)
Fixpoint rep_loop (fuel : nat) (rep : RepPrefix) (step : X unit) (compare : bool) : X StepOk :=
  ecx ← r32 Ecx;
  if ecx =? 0 then done
  else
    match fuel with
    | O => panic
    | S fuel =>
        _ ← step;
        n ← r32 Ecx; _ ← w32 Ecx (wrap32 (n - 1));
        fl ← get_flags;
        let stop := match rep with Rep => negb (zf fl) | Repne => zf fl end in
        if compare && stop then done else rep_loop fuel rep step compare
    end.

Definition string_loop (step : X unit) (compare : bool) : X StepOk :=
  c ← cpu;
  match rep_prefix (prefixes c) with
  | None => _ ← step; done
  | Some rep => rep_loop (Z.to_nat (get32 (regs c) Ecx)) rep step compare
  end.

(** Loading and storing at a string size. *)
Definition load_size (size : StringSize) (a : Z) : X Z :=
  ask (fun m => match size with B8 => load8 m a | W16 => load16 m a | D32 => load32 m a end).
Definition store_size (size : StringSize) (a v : Z) : X unit :=
  act (match size with B8 => store8 a v | W16 => store16 a v | D32 => store32 a v end).
Definition acc_size (size : StringSize) : X Z := match size with B8 => r8 Al | W16 => r16 Ax | D32 => r32 Eax end.
Definition sub_size (size : StringSize) : Alu := match size with B8 => alu_sub_8 | W16 => alu_sub_16 | D32 => alu_sub_32 end.

Definition movs_one (size : StringSize) (step : Z) : X unit :=
  src ← str_si_addr true; dst ← str_di_addr;
  v ← load_size size src; _ ← store_size size dst v;
  _ ← str_advance Si Esi step; str_advance Di Edi step.
Definition stos_one (size : StringSize) (step : Z) : X unit :=
  dst ← str_di_addr; v ← acc_size size; _ ← store_size size dst v; str_advance Di Edi step.
Definition lods_one (size : StringSize) (step : Z) : X unit :=
  src ← str_si_addr false; v ← load_size size src;
  _ ← match size with B8 => w8 Al v | W16 => w16 Ax v | D32 => w32 Eax v end;
  str_advance Si Esi step.
Definition cmps_one (size : StringSize) (step : Z) : X unit :=
  src ← str_si_addr true; dst ← str_di_addr;
  a ← load_size size src; b ← load_size size dst;
  _ ← alu (sub_size size) a b;
  _ ← str_advance Si Esi step; str_advance Di Edi step.
Definition scas_one (size : StringSize) (step : Z) : X unit :=
  dst ← str_di_addr; v ← load_size size dst; acc ← acc_size size;
  _ ← alu (sub_size size) acc v; str_advance Di Edi step.

Definition string_movs (sized_dword : bool) : X StepOk :=
  size ← string_size sized_dword; step ← string_step_for size; string_loop (movs_one size step) false.
Definition string_stos (sized_dword : bool) : X StepOk :=
  size ← string_size sized_dword; step ← string_step_for size; string_loop (stos_one size step) false.
Definition string_lods (sized_dword : bool) : X StepOk :=
  size ← string_size sized_dword; step ← string_step_for size; string_loop (lods_one size step) false.
Definition string_cmps (sized_dword : bool) : X StepOk :=
  size ← string_size sized_dword; step ← string_step_for size; string_loop (cmps_one size step) true.
Definition string_scas (sized_dword : bool) : X StepOk :=
  size ← string_size sized_dword; step ← string_step_for size; string_loop (scas_one size step) true.

(** * Group 5 *)

(** [v + 1] or [v - 1] with its flags; CF stays. *)
Definition inc_dec_32 (v : Z) (sub : bool) : X Z :=
  let r := wrap32 (if sub then v - 1 else v + 1) in
  fl ← get_flags; _ ← put_flags (with_cf (set_flags_inc_dec_32 fl v 1 r sub) (cf fl)); mret r.
Definition inc_dec_16 (v : Z) (sub : bool) : X Z :=
  let r := wrap16 (if sub then v - 1 else v + 1) in
  fl ← get_flags; _ ← put_flags (with_cf (set_flags_inc_dec_16 fl v 1 r sub) (cf fl)); mret r.

(** The offset of [eip] in the code segment. *)
Definition ret_ip (c : Cpu) : Z := wrap16 (wrap32 (eip (regs c) - cs_base (segments c))).

(** [push16(cs_sel); push16(ret_ip)]. *)
Definition push_far_return : X unit :=
  c ← cpu; _ ← push16 (cs_sel (segments c)); push16 (ret_ip c).

Definition far_ptr (op : Operand) (r entry_eip : Z) : X (Z * Z) :=
  match op with
  | OMem32 a => off ← ask (fun m => load16 m a); sel ← ask (fun m => load16 m (wrap32 (a + 2))); mret (off, sel)
  | OReg32 _ => undefined entry_eip (Z.lor 0xFF00 r)
  end.

Definition group5_rm16 (mr : ModRm) (op : Operand) (entry_eip : Z) : X StepOk :=
  match reg mr with
  | 0 => v ← read16 op; r ← inc_dec_16 v false; _ ← write16 op r; done
  | 1 => v ← read16 op; r ← inc_dec_16 v true; _ ← write16 op r; done
  | 2 =>
      target ← read16 op; c ← cpu; _ ← push16 (ret_ip c);
      c ← cpu; _ ← put_eip (wrap32 (cs_base (segments c) + target)); done
  | 3 => os ← far_ptr op (reg mr) entry_eip; _ ← push_far_return; _ ← far_jump os.2 os.1; done
  | 4 => target ← read16 op; c ← cpu; _ ← put_eip (wrap32 (cs_base (segments c) + target)); done
  | 5 => os ← far_ptr op (reg mr) entry_eip; _ ← far_jump os.2 os.1; done
  | 6 => v ← read16 op; _ ← push16 v; done
  | _ => undefined entry_eip (Z.lor 0xFF00 (reg mr))
  end.

Definition group5_rm32 (entry_eip : Z) : X StepOk :=
  mr ← fetch_modrm; op ← operand mr;
  o ← op_size_16;
  if o : bool then group5_rm16 mr op entry_eip
  else
    val ← read32 op;
    match reg mr with
    | 0 => r ← inc_dec_32 val false; _ ← write32 op r; done
    | 1 => r ← inc_dec_32 val true; _ ← write32 op r; done
    | 2 => e ← get_eip; _ ← push32 e; _ ← put_eip val; done
    | 3 | 5 => privileged entry_eip (str "far call/jmp m")
    | 4 => _ ← put_eip val; done
    | 6 => _ ← push32 val; done
    | _ => undefined entry_eip (Z.lor 0xFF00 (reg mr))
    end.

(** * Byte-reversed moves and CPUID *)

Definition swap_bytes_32 (v : Z) : Z := from_le (reverse (to_le 4 v)).
Definition swap_bytes_16 (v : Z) : Z := from_le (reverse (to_le 2 v)).

(** The register form traps three bytes in front of what was consumed. *)
Definition movbe_load : X StepOk :=
  mr ← fetch_modrm; oc ← resolve_at mr; c ← cpu;
  match seg_apply c oc.1 with
  | OMem32 a => v ← ask (fun m => load32 m a); _ ← w32 (reg32_from_bits (reg mr)) (swap_bytes_32 v); done
  | OReg32 _ => undefined (wrap32 (eip (regs c) - (oc.2 + 3))) 0x0F38F000
  end.
Definition movbe_store : X StepOk :=
  mr ← fetch_modrm; oc ← resolve_at mr; c ← cpu;
  src ← r32 (reg32_from_bits (reg mr));
  match seg_apply c oc.1 with
  | OMem32 a =>
      o ← op_size_16;
      _ ← if o : bool then act (write a (to_le 2 (swap_bytes_16 (wrap16 src)))) else act (store32 a (swap_bytes_32 src));
      done
  | OReg32 _ => undefined (wrap32 (eip (regs c) - (oc.2 + 3))) 0x0F38F100
  end.

Definition cpuid : X unit :=
  _ ← upd (fun c => with_cpuid c (wrap64 (cpuid_dispatch_count c + 1)));
  leaf ← r32 Eax;
  match leaf with
  | 0 =>
      _ ← w32 Eax 1; _ ← w32 Ebx (from_le (str "Genu")); _ ← w32 Edx (from_le (str "ineI")); w32 Ecx (from_le (str "ntel"))
  | 1 =>
      _ ← w32 Eax (Z.lor (Z.shiftl 6 8) (Z.shiftl 3 4)); _ ← w32 Ebx 0; _ ← w32 Ecx 0;
      w32 Edx (Z.lor (Z.lor (Z.lor (Z.lor 1 (Z.shiftl 1 4)) (Z.shiftl 1 8)) (Z.shiftl 1 15)) (Z.shiftl 1 23))
  | _ => _ ← w32 Eax 0; _ ← w32 Ebx 0; _ ← w32 Ecx 0; w32 Edx 0
  end.
End exec.
