(* ===== verification/X86Step.v ===== *)
(** The instruction dispatch of the x86 interpreter, one step and the run loop
    (src/src/emulator/emulator/isa_int.rs). The x87, MMX, SSE and AVX executors
    and the 64-bit mode are the parameter [OtherIsa]. Debug assertions are
    panics, as in a debug build; the [trace] features are off. *)

From S2P Require Import Prelude Mmu Regs X86Alu X86Decode X86Cpu X86Exec.

(** The executors of the sibling modules: isa_fpu.rs, isa_mmx.rs, isa_sse.rs,
    isa_avx.rs and long64.rs. The arguments are the opcode byte and the address
    of the instruction. *)
Class OtherIsa `{VectorState} : Type := {
  fpu_dispatch : Z -> Z -> X StepOk;
  mmx_dispatch : Z -> Z -> X StepOk;
  sse_dispatch : Z -> Z -> X StepOk;
  sse_dispatch_xmm_int : Z -> Z -> X StepOk;
  avx_dispatch : Z -> Z -> X StepOk;
  step_long64 : X StepOk;
}.

Section step.
Context `{VS : VectorState, OI : !OtherIsa}.

(** * One-byte opcodes *)

Definition op_inc_dec (op : Z) (sub : bool) : X StepOk :=
  o ← op_size_16;
  if o : bool then let r := reg16_from_bits op in v ← r16 r; out ← inc_dec_16 v sub; _ ← w16 r out; done
  else let r := reg32_from_bits op in v ← r32 r; out ← inc_dec_32 v sub; _ ← w32 r out; done.

Definition op_pushad : X StepOk :=
  s ← get_regs;
  _ ← push32 (get32 s Eax); _ ← push32 (get32 s Ecx); _ ← push32 (get32 s Edx); _ ← push32 (get32 s Ebx);
  _ ← push32 (esp s); _ ← push32 (get32 s Ebp); _ ← push32 (get32 s Esi); _ ← push32 (get32 s Edi);
  done.
Definition op_popad : X StepOk :=
  edi ← pop32; esi ← pop32; ebp ← pop32; _ ← pop32; ebx ← pop32; edx ← pop32; ecx ← pop32; eax ← pop32;
  _ ← w32 Edi edi; _ ← w32 Esi esi; _ ← w32 Ebp ebp; _ ← w32 Ebx ebx; _ ← w32 Edx edx; _ ← w32 Ecx ecx; _ ← w32 Eax eax;
  done.

Definition op_push_r (op : Z) : X StepOk :=
  o ← op_size_16;
  if o : bool then v ← r16 (reg16_from_bits op); _ ← push16 v; done
  else v ← r32 (reg32_from_bits op); _ ← push32 v; done.
Definition op_pop_r (op : Z) : X StepOk :=
  o ← op_size_16;
  if o : bool then v ← pop16; _ ← w16 (reg16_from_bits op) v; done
  else v ← pop32; _ ← w32 (reg32_from_bits op) v; done.
Definition op_push_imm : X StepOk :=
  o ← op_size_16;
  if o : bool then v ← fetch_imm16; _ ← push16 v; done else v ← fetch_imm32; _ ← push32 v; done.
Definition op_push_imm8 : X StepOk :=
  o ← op_size_16;
  if o : bool then b ← fetch_imm8; _ ← push16 (sign_ext_8_to_16 b); done
  else b ← fetch_imm8; _ ← push32 (sign_ext_8_to_32 b); done.

(** The signed product of two words, truncated, with the flags of IMUL. *)
Definition imul_flags (w : Z) (szp : Flags -> Z -> Flags) (prod : Z) : X unit :=
  let overflow := negb (prod =? sint w (wrap w prod)) in
  fl ← get_flags; put_flags (szp (with_of (with_cf fl overflow) overflow) (wrap w prod)).

Definition op_imul_imm : X StepOk :=
  mr ← fetch_modrm; src_op ← operand mr;
  o ← op_size_16;
  if o : bool then
    imm ← fetch_imm16; a ← read16 src_op;
    let prod := sint 16 a * sint 16 imm in
    _ ← w16 (reg16_from_bits (reg mr)) (wrap16 prod); _ ← imul_flags 16 set_szp_16 prod; done
  else
    imm ← fetch_imm32; a ← read32 src_op;
    let prod := sint 32 a * sint 32 imm in
    _ ← w32 (reg32_from_bits (reg mr)) (wrap32 prod); _ ← imul_flags 32 set_szp_32 prod; done.
Definition op_imul_imm8 : X StepOk :=
  mr ← fetch_modrm; src_op ← operand mr;
  o ← op_size_16;
  if o : bool then
    imm ← fetch_imm8; a ← read16 src_op;
    let prod := sint 16 a * sint 16 (sign_ext_8_to_16 imm) in
    _ ← w16 (reg16_from_bits (reg mr)) (wrap16 prod); _ ← imul_flags 16 set_szp_16 prod; done
  else
    imm ← fetch_imm8; a ← read32 src_op;
    let prod := sint 32 a * sint 32 (sign_ext_8_to_32 imm) in
    _ ← w32 (reg32_from_bits (reg mr)) (wrap32 prod); _ ← imul_flags 32 set_szp_32 prod; done.

Definition op_jcc (op : Z) : X StepOk :=
  b ← fetch_imm8; fl ← get_flags;
  _ ← if condition_holds (Z.land op 0x0F) fl then advance_eip (sign_ext_8_to_32 b) else mret tt; done.

Definition op_xchg8 : X StepOk :=
  mr ← fetch_modrm; ld ← resolve_op8 mr;
  let rhs_reg := reg8_from_bits (reg mr) in
  rhs ← r8 rhs_reg; _ ← write_op8 ld.2 rhs; _ ← w8 rhs_reg ld.1; done.
Definition op_xchg32 : X StepOk :=
  mr ← fetch_modrm; rm_op ← operand mr;
  let rhs_reg := reg32_from_bits (reg mr) in
  lhs ← read32 rm_op; rhs ← r32 rhs_reg; _ ← write32 rm_op rhs; _ ← w32 rhs_reg lhs; done.
Definition op_xchg_eax (op : Z) : X StepOk :=
  let r := reg32_from_bits (op - 0x90) in
  a ← r32 Eax; b ← r32 r; _ ← w32 Eax b; _ ← w32 r a; done.

Definition op_cbw : X StepOk :=
  o ← op_size_16;
  if o : bool then v ← r8 Al; _ ← w16 Ax (wrap16 (sint 8 v)); done
  else v ← r16 Ax; _ ← w32 Eax (wrap32 (sint 16 v)); done.
Definition op_cwd : X StepOk :=
  o ← op_size_16;
  if o : bool then v ← r16 Ax; _ ← w16 Dx (if any_bit v 0x8000 then 0xFFFF else 0); done
  else v ← r32 Eax; _ ← w32 Edx (if any_bit v 0x80000000 then 0xFFFFFFFF else 0); done.

Definition op_pushf : X StepOk :=
  fl ← get_flags; let v := pack fl in
  o ← op_size_16;
  _ ← if o : bool then push16 (wrap16 v) else push32 v; done.
Definition op_popf : X StepOk :=
  o ← op_size_16;
  if o : bool then
    lo ← pop16; cur ← get_flags; _ ← put_flags (unpack (Z.lor (Z.land (pack cur) 0xFFFF0000) lo)); done
  else v ← pop32; _ ← put_flags (unpack v); done.
Definition op_sahf : X StepOk :=
  ah ← r8 Ah; fl ← get_flags;
  _ ← put_flags {| cf := any_bit ah 0x01; pf := any_bit ah 0x04; af := any_bit ah 0x10; zf := any_bit ah 0x40;
                   sf := any_bit ah 0x80; df := df fl; of_ := of_ fl; id_ := id_ fl |};
  done.
Definition op_lahf : X StepOk :=
  fl ← get_flags;
  let bit (b : bool) (m v : Z) := if b then Z.lor v m else v in
  _ ← w8 Ah (bit (sf fl) 0x80 (bit (zf fl) 0x40 (bit (af fl) 0x10 (bit (pf fl) 0x04 (bit (cf fl) 0x01 2))))); done.

Definition moffs : X Z := imm ← fetch_moffs; c ← cpu; mret (seg_translate c imm).
Definition op_mov_al_moffs : X StepOk := a ← moffs; v ← ask (fun m => load8 m a); _ ← w8 Al v; done.
Definition op_mov_eax_moffs : X StepOk :=
  a ← moffs; o ← op_size_16;
  if o : bool then v ← ask (fun m => load16 m a); _ ← w16 Ax v; done
  else v ← ask (fun m => load32 m a); _ ← w32 Eax v; done.
Definition op_mov_moffs_al : X StepOk := a ← moffs; v ← r8 Al; _ ← act (store8 a v); done.
Definition op_mov_moffs_eax : X StepOk :=
  a ← moffs; o ← op_size_16;
  if o : bool then v ← r16 Ax; _ ← act (store16 a v); done else v ← r32 Eax; _ ← act (store32 a v); done.

Definition op_xlat : X StepOk :=
  al ← r8 Al; a16 ← addr16; c ← cpu;
  let ea := if a16 : bool then Z.land (wrap32 (get16 (regs c) Bx + al)) 0xFFFF else wrap32 (get32 (regs c) Ebx + al) in
  let seg := default Ds (seg_override (prefixes c)) in
  b ← ask (fun m => load8 m (wrap32 (ea + seg_base c seg)));
  _ ← w8 Al b; done.

Definition op_test_al : X StepOk := imm ← fetch_imm8; v ← r8 Al; _ ← test_flags set_szp_8 (Z.land v imm); done.
Definition op_test_eax : X StepOk :=
  o ← op_size_16;
  if o : bool then imm ← fetch_imm16; v ← r16 Ax; _ ← test_flags set_szp_16 (Z.land v imm); done
  else imm ← fetch_imm32; v ← r32 Eax; _ ← test_flags set_szp_32 (Z.land v imm); done.

Definition op_mov_r8_imm (op : Z) : X StepOk := imm ← fetch_imm8; _ ← w8 (reg8_from_bits (op - 0xB0)) imm; done.
Definition op_mov_r_imm (op : Z) : X StepOk :=
  o ← op_size_16;
  if o : bool then imm ← fetch_imm16; _ ← w16 (reg16_from_bits (op - 0xB8)) imm; done
  else imm ← fetch_imm32; _ ← w32 (reg32_from_bits (op - 0xB8)) imm; done.

(** Jumping to a return address. *)
Definition return_to (ret : Z) : X StepOk :=
  _ ← put_eip ret; mret (if ret =? RET_SENTINEL then Halted else Continued).
Definition op_retn_imm : X StepOk := pop ← fetch_imm16; ret ← near_ret_pop; _ ← inc_sp pop; return_to ret.
Definition op_retn : X StepOk := ret ← near_ret_pop; return_to ret.

(** [debug_assert!(mr.reg == 0)] *)
Definition debug_assert (b : bool) : X unit := if b then mret tt else panic.
Definition op_mov_rm8_imm : X StepOk :=
  mr ← fetch_modrm; _ ← debug_assert (reg mr =? 0);
  vd ← resolve_op8 mr; imm ← fetch_imm8; _ ← write_op8 vd.2 imm; done.
Definition op_mov_rm_imm : X StepOk :=
  mr ← fetch_modrm; _ ← debug_assert (reg mr =? 0);
  op ← operand mr; o ← op_size_16;
  if o : bool then imm ← fetch_imm16; _ ← write16 op imm; done else imm ← fetch_imm32; _ ← write32 op imm; done.

(** The display copies of a nested frame. *)
Fixpoint copy_display (n : nat) (current_ebp : Z) : X unit :=
  match n with
  | O => mret tt
  | S n =>
      let current_ebp := wrap32 (current_ebp - 4) in
      display ← ask (fun m => load32 m current_ebp); _ ← push32 display; copy_display n current_ebp
  end.
Definition op_enter : X StepOk :=
  alloc_size ← fetch_imm16; b ← fetch_imm8;
  let nesting_level := Z.land b 0x1F in
  c ← cpu;
  if code16 c then
    _ ← push16 (get16 (regs c) Bp);
    s ← get_regs; _ ← w16 Bp (wrap16 (Z.land (esp s) 0xFFFF));
    s ← get_regs; _ ← put_regs (set_esp s (Z.land (wrap32 (esp s - alloc_size)) 0xFFFF)); done
  else
    let frame_temp := wrap32 (esp (regs c) - 4) in
    _ ← push32 (ebp (regs c));
    _ ← if nesting_level =? 0 then mret tt
        else s ← get_regs; _ ← copy_display (Z.to_nat (nesting_level - 1)) (ebp s); push32 frame_temp;
    _ ← w32 Ebp frame_temp;
    s ← get_regs; _ ← put_regs (set_esp s (wrap32 (esp s - alloc_size))); done.
Definition op_leave : X StepOk :=
  c ← cpu;
  if code16 c then _ ← put_regs (set_esp (regs c) (get16 (regs c) Bp)); v ← pop16; _ ← w16 Bp v; done
  else _ ← put_regs (set_esp (regs c) (ebp (regs c))); v ← pop32; _ ← w32 Ebp v; done.

Definition op_int : X StepOk := num ← fetch_imm8; e ← get_eip; trap (SoftwareInterrupt num e).

Definition op_call : X StepOk :=
  o ← op_size_16;
  if o : bool then
    d ← fetch_imm16; c ← cpu; let target := wrap32 (eip (regs c) + sint 16 d) in
    _ ← push16 (ret_ip c); _ ← put_eip target; done
  else
    d ← fetch_imm32; e ← get_eip; let target := wrap32 (e + sint 32 d) in
    _ ← push32 e; _ ← put_eip target; done.
Definition op_jmp : X StepOk :=
  o ← op_size_16;
  disp ← if o : bool then d ← fetch_imm16; mret (sint 16 d) else d ← fetch_imm32; mret (sint 32 d);
  e ← get_eip; _ ← put_eip (wrap32 (e + disp)); done.
Definition op_jmp8 : X StepOk := b ← fetch_imm8; _ ← advance_eip (sign_ext_8_to_32 b); done.
Definition op_loop (op : Z) : X StepOk :=
  b ← fetch_imm8; a ← addr16;
  count ← if a : bool then v ← r16 Cx; let c := wrap16 (v - 1) in _ ← w16 Cx c; mret c
          else v ← r32 Ecx; let c := wrap32 (v - 1) in _ ← w32 Ecx c; mret c;
  fl ← get_flags;
  let cond := match op with
              | 0xE0 => negb (count =? 0) && negb (zf fl)
              | 0xE1 => negb (count =? 0) && zf fl
              | _ => negb (count =? 0)
              end in
  _ ← if cond : bool then advance_eip (sign_ext_8_to_32 b) else mret tt; done.
Definition op_jcxz : X StepOk :=
  b ← fetch_imm8; a ← addr16; s ← get_regs;
  let zero := if a : bool then get16 s Cx =? 0 else get32 s Ecx =? 0 in
  _ ← if zero : bool then advance_eip (sign_ext_8_to_32 b) else mret tt; done.

Definition upd_flags (f : Flags -> Flags) : X StepOk := fl ← get_flags; _ ← put_flags (f fl); done.
Definition with_df (f : Flags) (b : bool) : Flags :=
  {| cf := cf f; pf := pf f; af := af f; zf := zf f; sf := sf f; df := b; of_ := of_ f; id_ := id_ f |}.

Definition op_salc : X StepOk := fl ← get_flags; _ ← w8 Al (if cf fl then 0xFF else 0x00); done.

(** Group 4; CF stays. *)
Definition op_group4 (entry_eip : Z) : X StepOk :=
  mr ← fetch_modrm; vd ← resolve_op8 mr;
  let '(val, dst) := vd in
  fl ← get_flags;
  match reg mr with
  | 0 =>
      let r := wrap8 (val + 1) in
      let fl' := with_of (with_af fl (any_bit (Z.lxor (Z.lxor val 1) r) 0x10)) (any_bit (Z.land (Z.lxor val r) (Z.lxor 1 r)) 0x80) in
      _ ← put_flags (with_cf (set_szp_8 fl' r) (cf fl)); _ ← write_op8 dst r; done
  | 1 =>
      let r := wrap8 (val - 1) in
      let fl' := with_of (with_af fl (any_bit (Z.lxor (Z.lxor val 1) r) 0x10)) (any_bit (Z.land (Z.lxor val 1) (Z.lxor val r)) 0x80) in
      _ ← put_flags (with_cf (set_szp_8 fl' r) (cf fl)); _ ← write_op8 dst r; done
  | other => undefined entry_eip (Z.lor 0xFE00 other)
  end.

(** LES and LDS in 16-bit code, the VEX prefixes otherwise. *)
Definition op_les_vex (op entry_eip : Z) : X StepOk :=
  c ← cpu;
  if code16 c then
    mr ← fetch_modrm; operand ← operand mr;
    match operand with
    | OReg32 _ => undefined entry_eip op
    | OMem32 lin =>
        off ← ask (fun m => load16 m lin); seg ← ask (fun m => load16 m (wrap32 (lin + 2)));
        _ ← w16 (reg16_from_bits (reg mr)) off;
        _ ← upd (load_segment (if op =? 0xC4 then Es else Ds) seg); done
    end
  else
    probe ← ask (fun m => fetch_x8 m (eip (regs c)));
    if any_bit (u8 probe) 0x80 then avx_dispatch op entry_eip else undefined entry_eip op.

Definition op_far_call (entry_eip : Z) : X StepOk :=
  c ← cpu;
  if code16 c then
    off ← fetch_imm16; sel ← fetch_imm16; _ ← push_far_return; _ ← far_jump sel off; done
  else privileged entry_eip (str "far call").
Definition op_far_jmp (entry_eip : Z) : X StepOk :=
  c ← cpu;
  if code16 c then off ← fetch_imm16; sel ← fetch_imm16; _ ← far_jump sel off; done
  else privileged entry_eip (str "far jmp").
Definition op_far_ret (op entry_eip : Z) : X StepOk :=
  c ← cpu;
  if code16 c then
    pop_extra ← if op =? 0xCA then fetch_imm16 else mret 0;
    ip ← pop16; sel ← pop16; _ ← far_jump sel ip;
    _ ← if negb (pop_extra =? 0) then inc_sp pop_extra else mret tt;
    e ← get_eip; mret (if e =? RET_SENTINEL then Halted else Continued)
  else privileged entry_eip (str "far ret").

Definition op_mov_rm_sreg : X StepOk :=
  mr ← fetch_modrm; c ← cpu;
  let value := if code16 c then segment_selector c (seg_from_reg_field (reg mr)) else win32_segment_selector (reg mr) in
  od ← resolve_op16 mr; _ ← write_op16 od.2 value; done.
Definition op_mov_sreg_rm : X StepOk :=
  mr ← fetch_modrm; vd ← resolve_op16 mr; c ← cpu;
  _ ← if code16 c then upd (load_segment (seg_from_reg_field (reg mr)) vd.1) else mret tt; done.

(** * Two-byte opcodes *)

Definition op_cmov (op2 : Z) : X StepOk :=
  mr ← fetch_modrm; src_op ← operand mr; src ← read32 src_op; fl ← get_flags;
  _ ← if condition_holds (Z.land op2 0x0F) fl then w32 (reg32_from_bits (reg mr)) src else mret tt; done.
Definition op_jcc_near (op2 : Z) : X StepOk :=
  d ← fetch_imm32; fl ← get_flags; e ← get_eip;
  _ ← if condition_holds (Z.land op2 0x0F) fl then put_eip (wrap32 (e + sint 32 d)) else mret tt; done.
Definition op_setcc (op2 : Z) : X StepOk :=
  mr ← fetch_modrm; fl ← get_flags;
  let bit := Z.b2z (condition_holds (Z.land op2 0x0F) fl) in
  vd ← resolve_op8 mr; _ ← write_op8 vd.2 bit; done.
Definition op_rdtsc : X StepOk :=
  c ← cpu; let tsc := wrap64 (Z.shiftl (instr_count c) 6) in
  _ ← w32 Eax (wrap32 tsc); _ ← w32 Edx (wrap32 (Z.shiftr tsc 32)); done.

(** CF is the bit tested. *)
Definition test_bit (v bit : Z) : X unit :=
  fl ← get_flags; put_flags (with_cf fl (negb (Z.land (Z.shiftr v bit) 1 =? 0))).
(** BT, BTS and BTR with the bit in a register. *)
Definition op_bt_r (change : option (Z -> Z -> Z)) : X StepOk :=
  mr ← fetch_modrm; op ← operand mr; v ← read32 op; b ← r32 (reg32_from_bits (reg mr));
  let bit := Z.land b 31 in
  _ ← test_bit v bit;
  _ ← match change with Some f => write32 op (f v bit) | None => mret tt end; done.
Definition bit_set (v bit : Z) : Z := Z.lor v (Z.shiftl 1 bit).
Definition bit_reset (v bit : Z) : Z := Z.land v (wrap32 (Z.lnot (Z.shiftl 1 bit))).
Definition bit_flip (v bit : Z) : Z := Z.lxor v (Z.shiftl 1 bit).
Definition op_group8 : X StepOk :=
  mr ← fetch_modrm; op ← operand mr; v ← read32 op; b ← fetch_imm8;
  let bit := Z.land b 0x1F in
  _ ← test_bit v bit;
  match reg mr with
  | 4 => done
  | 5 => _ ← write32 op (bit_set v bit); done
  | 6 => _ ← write32 op (bit_reset v bit); done
  | 7 => _ ← write32 op (bit_flip v bit); done
  | other => e ← get_eip; undefined e (Z.lor 0x0FBA00 other)
  end.

Definition op_cmpxchg : X StepOk :=
  mr ← fetch_modrm; op ← operand mr; dest ← read32 op;
  acc ← r32 Eax; src ← r32 (reg32_from_bits (reg mr));
  _ ← alu alu_sub_32 acc dest;
  _ ← if acc =? dest then write32 op src else w32 Eax dest; done.
Definition op_xadd : X StepOk :=
  mr ← fetch_modrm; op ← operand mr; dest ← read32 op;
  let src_reg := reg32_from_bits (reg mr) in
  src ← r32 src_reg; sum ← alu alu_add_32 dest src;
  _ ← w32 src_reg dest; _ ← write32 op sum.1; done.
Definition op_bswap (op2 : Z) : X StepOk :=
  let r := reg32_from_bits (op2 - 0xC8) in v ← r32 r; _ ← w32 r (swap_bytes_32 v); done.
Definition op_imul_r : X StepOk :=
  mr ← fetch_modrm; op ← operand mr;
  let dst := reg32_from_bits (reg mr) in
  a ← r32 dst; b ← read32 op;
  let prod := sint 32 a * sint 32 b in
  _ ← w32 dst (wrap32 prod); _ ← imul_flags 32 set_szp_32 prod; done.
Definition op_movx8 (f : Z -> Z) : X StepOk :=
  mr ← fetch_modrm; vd ← resolve_op8 mr; _ ← w32 (reg32_from_bits (reg mr)) (f vd.1); done.
Definition op_movx16 (f : Z -> Z) : X StepOk :=
  mr ← fetch_modrm; vd ← resolve_op16 mr; _ ← w32 (reg32_from_bits (reg mr)) (f vd.1); done.

(** [u32::trailing_zeros] and [31 - leading_zeros] of a word that is not 0. *)
Fixpoint trailing_zeros (n : nat) (v : Z) : Z :=
  match n with O => 0 | S n => if Z.odd v then 0 else 1 + trailing_zeros n (Z.shiftr v 1) end.
Definition op_bit_scan (op2 : Z) : X StepOk :=
  mr ← fetch_modrm; op ← operand mr; v ← read32 op; fl ← get_flags;
  if v =? 0 then _ ← put_flags (with_szp fl true (sf fl) (pf fl)); done
  else
    _ ← put_flags (with_szp fl false (sf fl) (pf fl));
    _ ← w32 (reg32_from_bits (reg mr)) (if op2 =? 0xBC then trailing_zeros 32 v else Z.log2 v); done.

(** [lo..=hi] contains [op]. *)
Definition among (lo hi op : Z) : bool := (lo <=? op) && (op <=? hi).

Definition dispatch_0f (entry_eip : Z) : X StepOk :=
  op2 ← fetch_imm8;
  if among 0x40 0x4F op2 then op_cmov op2
  else if among 0x80 0x8F op2 then op_jcc_near op2
  else if among 0x90 0x9F op2 then op_setcc op2
  else if among 0xC8 0xCF op2 then op_bswap op2
  else if among 0x60 0x7F op2 || among 0xD0 0xFF op2 then
    o ← op_size_16; if o : bool then sse_dispatch_xmm_int op2 entry_eip else mmx_dispatch op2 entry_eip
  else if among 0x10 0x1F op2 || among 0x28 0x2F op2 || among 0x50 0x5F op2 || (op2 =? 0xC2) || among 0xC4 0xC6 op2 then
    sse_dispatch op2 entry_eip
  else
    match op2 with
    | 0x31 => op_rdtsc
    | 0xA2 => _ ← cpuid; done
    | 0xA3 => op_bt_r None
    | 0xA4 => shld_imm
    | 0xA5 => shld_cl
    | 0xAC => shrd_imm
    | 0xAD => shrd_cl
    | 0xAB => op_bt_r (Some bit_set)
    | 0xB3 => op_bt_r (Some bit_reset)
    | 0xB1 => op_cmpxchg
    | 0xC1 => op_xadd
    | 0xAF => op_imul_r
    | 0xB6 => op_movx8 (fun v => v)
    | 0xB7 => op_movx16 (fun v => v)
    | 0xBA => op_group8
    | 0xBC | 0xBD => op_bit_scan op2
    | 0xBE => op_movx8 sign_ext_8_to_32
    | 0xBF => op_movx16 sign_ext_16_to_32
    | 0x38 =>
        op3 ← fetch_imm8;
        match op3 with
        | 0xF0 => movbe_load
        | 0xF1 => movbe_store
        | _ => undefined entry_eip (Z.lor 0x0F3800 op3)
        end
    | other => undefined entry_eip (Z.lor 0x0F00 other)
    end.

(** * Dispatch *)

(** 0x00 to 0x3D: eight operations in six forms each. *)
Definition alu_table (op : Z) : option (Alu * Alu) :=
  match Z.shiftr op 3 with
  | 0 => Some (alu_add_8, alu_add_32) | 1 => Some (alu_or_8, alu_or_32) | 2 => Some (alu_adc_8, alu_adc_32)
  | 3 => Some (alu_sbb_8, alu_sbb_32) | 4 => Some (alu_and_8, alu_and_32) | 5 => Some (alu_sub_8, alu_sub_32)
  | 6 => Some (alu_xor_8, alu_xor_32) | 7 => Some (alu_cmp_8, alu_cmp_32) | _ => None
  end.
Definition dispatch_alu (op : Z) (f8 f32 : Alu) : X StepOk :=
  match Z.land op 7 with
  | 0 => alu_rm8_r8 f8
  | 1 => alu_rm32_r32 op f32
  | 2 => alu_r8_rm8 f8
  | 3 => alu_r32_rm32 op f32
  | 4 => alu_al_imm8 f8
  | _ => alu_eax_imm32 op f32
  end.

Definition dispatch (op entry_eip : Z) : X StepOk :=
  match alu_table op with
  | Some (f8, f32) =>
      if Z.land op 7 <? 6 then dispatch_alu op f8 f32
      else
        match op with
        | 0x06 => seg_push Es entry_eip 0x06
        | 0x07 => seg_pop Es entry_eip 0x07
        | 0x0E => seg_push Cs entry_eip 0x0E
        | 0x0F => dispatch_0f entry_eip
        | 0x16 => seg_push Ss entry_eip 0x16
        | 0x17 => seg_pop Ss entry_eip 0x17
        | 0x1E => seg_push Ds entry_eip 0x1E
        | 0x1F => seg_pop Ds entry_eip 0x1F
        | other => undefined entry_eip other
        end
  | None =>
  if among 0x40 0x47 op then op_inc_dec (op - 0x40) false
  else if among 0x48 0x4F op then op_inc_dec (op - 0x48) true
  else if among 0x50 0x57 op then op_push_r (op - 0x50)
  else if among 0x58 0x5F op then op_pop_r (op - 0x58)
  else if among 0x70 0x7F op then op_jcc op
  else if among 0x91 0x97 op then op_xchg_eax op
  else if among 0xB0 0xB7 op then op_mov_r8_imm op
  else if among 0xB8 0xBF op then op_mov_r_imm op
  else if among 0xD8 0xDF op then fpu_dispatch op entry_eip
  else if among 0xE0 0xE2 op then op_loop op
  else
    match op with
    | 0x60 => op_pushad
    | 0x61 => op_popad
    | 0x68 => op_push_imm
    | 0x69 => op_imul_imm
    | 0x6A => op_push_imm8
    | 0x6B => op_imul_imm8
    | 0x80 => group1_rm8_imm8
    | 0x81 => group1_rm32_imm32
    | 0x83 => group1_rm32_imm8
    | 0x84 => test_rm8_r8
    | 0x85 => alu_rm32_r32 op alu_test_32
    | 0x86 => op_xchg8
    | 0x87 => op_xchg32
    | 0x88 => mov_rm8_r8
    | 0x89 => mov_rm32_r32
    | 0x8A => mov_r8_rm8
    | 0x8B => mov_r32_rm32
    | 0x8C => op_mov_rm_sreg
    | 0x8D => lea_r32_m
    | 0x8E => op_mov_sreg_rm
    | 0x8F => pop_rm32
    | 0x90 => done
    | 0x98 => op_cbw
    | 0x99 => op_cwd
    | 0x9A => op_far_call entry_eip
    | 0x9B => done
    | 0x9C => op_pushf
    | 0x9D => op_popf
    | 0x9E => op_sahf
    | 0x9F => op_lahf
    | 0xA0 => op_mov_al_moffs
    | 0xA1 => op_mov_eax_moffs
    | 0xA2 => op_mov_moffs_al
    | 0xA3 => op_mov_moffs_eax
    | 0xA4 => string_movs false
    | 0xA5 => string_movs true
    | 0xA6 => string_cmps false
    | 0xA7 => string_cmps true
    | 0xA8 => op_test_al
    | 0xA9 => op_test_eax
    | 0xAA => string_stos false
    | 0xAB => string_stos true
    | 0xAC => string_lods false
    | 0xAD => string_lods true
    | 0xAE => string_scas false
    | 0xAF => string_scas true
    | 0xC0 => group2_rm8 Imm8
    | 0xC1 => group2_rm32 Imm8
    | 0xC2 => op_retn_imm
    | 0xC3 => op_retn
    | 0xC4 | 0xC5 => op_les_vex op entry_eip
    | 0xC6 => op_mov_rm8_imm
    | 0xC7 => op_mov_rm_imm
    | 0xC8 => op_enter
    | 0xC9 => op_leave
    | 0xCA | 0xCB => op_far_ret op entry_eip
    | 0xCC => privileged entry_eip (str "int3")
    | 0xCD => op_int
    | 0xCF => privileged entry_eip (str "iretd")
    | 0xD0 => group2_rm8 One
    | 0xD1 => group2_rm32 One
    | 0xD2 => group2_rm8 FromCl
    | 0xD3 => group2_rm32 FromCl
    | 0xD6 => op_salc
    | 0xD7 => op_xlat
    | 0xE3 => op_jcxz
    | 0xE8 => op_call
    | 0xE9 => op_jmp
    | 0xEA => op_far_jmp entry_eip
    | 0xEB => op_jmp8
    | 0xF4 => privileged entry_eip (str "hlt")
    | 0xF5 => upd_flags (fun fl => with_cf fl (negb (cf fl)))
    | 0xF6 => group3_rm8 entry_eip
    | 0xF7 => group3_rm32 entry_eip
    | 0xF8 => upd_flags (fun fl => with_cf fl false)
    | 0xF9 => upd_flags (fun fl => with_cf fl true)
    | 0xFA | 0xFB => privileged entry_eip (str "cli/sti")
    | 0xFC => upd_flags (fun fl => with_df fl false)
    | 0xFD => upd_flags (fun fl => with_df fl true)
    | 0xFE => op_group4 entry_eip
    | 0xFF => group5_rm32 entry_eip
    | other => undefined entry_eip other
    end
  end.

(** * One step *)

Definition trace_entry (entry_eip : Z) : X unit :=
  upd (fun c =>
    let i := instruments c in
    let ring :=
      if 0 <? trace_ring_cap i then
        (if len (trace_ring i) =? trace_ring_cap i then tail (trace_ring i) else trace_ring i) ++ [entry_eip]
      else trace_ring i in
    let seen := if track_visited_eips i then {[entry_eip]} ∪ visited_eips i else visited_eips i in
    with_instruments c (tracing i ring (trace_ring_cap i) (track_visited_eips i) seen)).

Definition opt {A} (r : res Trap A) : option A := match r with Ok a => Some a | _ => None end.

(** Eax, Ecx, Edx, Ebx, Esp, Ebp, Esi, Edi. *)
Definition snapshot (s : Regs) : list Z :=
  [get32 s Eax; get32 s Ecx; get32 s Edx; get32 s Ebx; esp s; get32 s Ebp; get32 s Esi; get32 s Edi].

(** The probes of a watchpoint: [snap[*r]] is a bounds-checked index. *)
Definition probe_values (m : Mmu) (snap : list Z) (probes : list (Z * Z * Z)) : res Trap (list (option Z)) :=
  mapM_res (fun '(r, off, w) =>
    v ← index snap r;
    let a := wrap32 (v + wrap32 off) in
    Ok (opt (if w =? 1 then load8 m a else load32 m a))) probes.

Definition watch_entry (entry_eip : Z) : X unit := fun s =>
  let '(c, m) := s in
  let i := instruments c in
  if bool_decide (register_watchpoints i = ∅) then (s, Ok tt)
  else if register_snapshots_cap i <=? len (register_snapshots i) then (s, Ok tt)
  else if negb (bool_decide (entry_eip ∈ register_watchpoints i)) then (s, Ok tt)
  else
    let snap := snapshot (regs c) in
    let snaps := register_snapshots i ++ [(entry_eip, snap)] in
    let i1 := watching i (register_watchpoints i) snaps (memory_snapshots i) in
    match (if bool_decide (snapshot_probes i = []) then Ok (snapshot_probe_values i)
           else vs ← probe_values m snap (snapshot_probes i); Ok (snapshot_probe_values i ++ [vs])) with
    | Ok values =>
        let i2 := probing i1 values (snapshot_block_dumps i) in
        let dumped := match snapshot_block_dump i with
          | Some (e, r, n) =>
              if e =? entry_eip then
                b ← index snap r;
                Ok (snapshot_block_dumps i ++
                    [(len snaps - 1, List.map (fun k => default 0 (opt (load8 m (wrap32 (b + k))))) (seqZ 0 n))])
              else Ok (snapshot_block_dumps i)
          | None => Ok (snapshot_block_dumps i)
          end in
        match dumped : res Trap _ with
        | Ok dumps =>
            let i3 := probing i2 values dumps in
            let addrs := [esp (regs c); wrap32 (esp (regs c) + 4); wrap32 (get32 (regs c) Ebp + 8); wrap32 (get32 (regs c) Ebp - 0x50)] in
            let mem_snap := List.map (fun a => (a, default 0 (opt (load32 m a)))) addrs in
            let i4 := watching i3 (register_watchpoints i) snaps (memory_snapshots i ++ [(entry_eip, mem_snap)]) in
            ((with_instruments c i4, m), Ok tt)
        | Err t => ((with_instruments c i2, m), Err t)
        | Panic => ((with_instruments c i2, m), Panic)
        end
    | Err t => ((with_instruments c i1, m), Err t)
    | Panic => ((with_instruments c i1, m), Panic)
    end.

(** What a prefix byte changes; [None] is no prefix. *)
Definition prefix (b : Z) (p : Prefixes) : option Prefixes :=
  let seg s := {| op_size_16_prefix := op_size_16_prefix p; addr_size_16_prefix := addr_size_16_prefix p;
                  rep_prefix := rep_prefix p; seg_override := Some s |} in
  let rep r := {| op_size_16_prefix := op_size_16_prefix p; addr_size_16_prefix := addr_size_16_prefix p;
                  rep_prefix := Some r; seg_override := seg_override p |} in
  match b with
  | 0x66 => Some {| op_size_16_prefix := true; addr_size_16_prefix := addr_size_16_prefix p;
                    rep_prefix := rep_prefix p; seg_override := seg_override p |}
  | 0x67 => Some {| op_size_16_prefix := op_size_16_prefix p; addr_size_16_prefix := true;
                    rep_prefix := rep_prefix p; seg_override := seg_override p |}
  | 0xF3 => Some (rep Rep) | 0xF2 => Some (rep Repne)
  | 0x26 => Some (seg Es) | 0x2E => Some (seg Cs) | 0x36 => Some (seg Ss) | 0x3E => Some (seg Ds)
  | 0x64 => Some (seg Fs) | 0x65 => Some (seg Gs)
  | 0xF0 => Some p
  | _ => None
  end.

Fixpoint prefix_loop (n : nat) : X unit :=
  match n with
  | O => mret tt
  | S n =>
      c ← cpu; b ← ask (fun m => fetch_x8 m (eip (regs c)));
      match prefix (u8 b) (prefixes c) with
      | Some p => _ ← upd (fun c => with_prefixes c p); _ ← advance_eip 1; prefix_loop n
      | None => mret tt
      end
  end.

(** [self.instr_count += 1] *)
Definition count_instr : X unit :=
  c ← cpu; if instr_count c =? 2 ^ 64 - 1 then panic else upd (fun c => with_count c (instr_count c + 1)).

(** An undefined opcode names the instruction. *)
Definition restate {A} (entry_eip : Z) (x : X A) : X A := fun s =>
  match x s with
  | (s', Err (UndefinedOpcode a op)) => (s', Err (UndefinedOpcode entry_eip op))
  | r => r
  end.

Definition record_entry (entry_eip : Z) (m : Mmu) : Mmu :=
  {| pages := pages m; coverage := record_exec entry_eip (coverage m); dbg_eip := entry_eip; watches := watches m;
     watch_log := watch_log m; watch_limit := watch_limit m; watch_seq := watch_seq m; watch_dropped := watch_dropped m |}.

(** The part behind the mode test: instrumentation, then the prefixes and the
    opcode byte; gives the address of the instruction too. *)
Definition fetch_opcode : X (Z * Z) :=
  _ ← upd (fun c => with_prefixes c no_prefixes);
  entry_eip ← get_eip;
  _ ← act (modify (record_entry entry_eip));
  _ ← trace_entry entry_eip;
  _ ← watch_entry entry_eip;
  _ ← prefix_loop 8;
  opcode ← fetch_imm8; mret (entry_eip, opcode).

Definition step_ia32 : X StepOk :=
  eo ← fetch_opcode;
  _ ← count_instr;
  restate eo.1 (dispatch eo.2 eo.1).

Definition step : X StepOk := c ← cpu; if long64 c then step_long64 else step_ia32.

(** [run]: [None] is out of fuel. *)
Fixpoint run (fuel : nat) (s : Cpu * Mmu) : option ((Cpu * Mmu) * res Trap unit) :=
  match fuel with
  | O => None
  | S fuel =>
      let c := s.1 in
      if eip (regs c) =? RET_SENTINEL then Some (s, Ok tt)
      else if instr_limit c <=? instr_count c then Some (s, Err (InstructionLimitExceeded (eip (regs c)) (instr_count c)))
      else
        match step s with
        | (s, Ok Continued) => run fuel s
        | (s, Ok Halted) => Some (s, Ok tt)
        | (s, Err t) => Some (s, Err t)
        | (s, Panic) => Some (s, Panic)
        end
  end.
End step.

(** * A processor with integer instructions only *)

#[export] Instance no_vectors : VectorState := {| Ext := unit; ext_new := tt |}.
#[export] Instance no_executors : OtherIsa := {|
  fpu_dispatch op e := undefined e op;
  mmx_dispatch op e := undefined e op;
  sse_dispatch op e := undefined e op;
  sse_dispatch_xmm_int op e := undefined e op;
  avx_dispatch op e := undefined e op;
  step_long64 := trap (UndefinedOpcode 0 0);
|}.
(** * A program in memory

    Code at 0x1000, a data page at 0x3000 and a stack at 0x4000 that starts
    with the sentinel as return address. *)
Definition blank : Mmu := map 0x3000 0x2000 3 (map 0x1000 0x1000 5 new).
Definition loaded (code : list Z) : Mmu * res Trap unit := write_initializer 0x1000 (List.map byte_of code) blank.

Definition started (code : list Z) : Cpu * Mmu :=
  (with_regs cpu_new (set_esp (with_eip (regs cpu_new) 0x1000) 0x4FF0), (loaded code).1).
Definition sample (code : list Z) : Cpu * Mmu := (push32 RET_SENTINEL (started code)).1.

(** The program fits into its page. *)
Definition fits_page (code : list Z) : bool :=
  match (loaded code).2, (push32 RET_SENTINEL (started code)).2 with Ok _, Ok _ => true | _, _ => false end.

(** The registers a program ends with, or what it raises. *)
Definition result (code : list Z) : option (list Z + Trap) :=
  match run 100 (sample code) with
  | Some ((c, _), Ok _) => Some (inl (gp (regs c)))
  | Some (_, Err t) => Some (inr t)
  | _ => None
  end.

(** * Unit tests of the source *)

Example xor_mov_add_ret : result [0x33; 0xC0; 0xB8; 0x42; 0; 0; 0; 0x83; 0xC0; 0x01; 0xC3] = Some (inl [0x43; 0; 0; 0; 0x4FF0; 0; 0; 0]).
Proof. vm_compute. reflexivity. Qed.
Example call_relative_then_ret :
  result [0xE8; 5; 0; 0; 0; 0xB8; 1; 0; 0; 0; 0xB8; 0x99; 0; 0; 0; 0xC3] = Some (inl [0x99; 0; 0; 0; 0x4FF0; 0; 0; 0]).
Proof. vm_compute. reflexivity. Qed.
Example cmp_je_taken :
  result [0xB8; 5; 0; 0; 0; 0x83; 0xF8; 5; 0x74; 5; 0xB8; 0; 0; 0; 0; 0xBB; 7; 0; 0; 0; 0xC3] =
  Some (inl [5; 0; 0; 7; 0x4FF0; 0; 0; 0]).
Proof. vm_compute. reflexivity. Qed.
Example lea_displacement : result [0xBB; 0; 1; 0; 0; 0x8D; 0x43; 0x40; 0xC3] = Some (inl [0x140; 0; 0; 0x100; 0x4FF0; 0; 0; 0]).
Proof. vm_compute. reflexivity. Qed.
(** [mov edi, 0x3000; mov ecx, 3; mov al, 7; rep stosb; mov eax, [0x3000]] *)
Example rep_stos_bytes :
  result [0xBF; 0; 0x30; 0; 0; 0xB9; 3; 0; 0; 0; 0xB0; 7; 0xF3; 0xAA; 0xA1; 0; 0x30; 0; 0; 0xC3] =
  Some (inl [0x070707; 0; 0; 0; 0x4FF0; 0; 0; 0x3003]).
Proof. vm_compute. reflexivity. Qed.
Example hlt_privileged : result [0xF4] = Some (inr (PrivilegedOpcode 0x1000 (str "hlt"))).
Proof. vm_compute. reflexivity. Qed.

(** * Programs that stop the host *)

(** [mov edx, 0x80000000; xor eax, eax; mov ecx, -1; idiv ecx]: the quotient
    does not fit in 64 bits. *)
Example idiv_minimum_panics :
  snd <$> run 10 (sample [0xBA; 0; 0; 0; 0x80; 0x33; 0xC0; 0xB9; 0xFF; 0xFF; 0xFF; 0xFF; 0xF7; 0xF9]) = Some Panic.
Proof. vm_compute. reflexivity. Qed.
(** C6 with another operation field. *)
Example debug_assertion_panics : (step (sample [0xC6; 0xC8; 0])).2 = Panic.
Proof. vm_compute. reflexivity. Qed.

(** [mov eax, ebx] in the last two bytes of the mapped code: the look-ahead
    behind the ModR/M byte faults, although the form has no further byte. *)
Definition last_two_bytes : Cpu * Mmu :=
  (with_regs cpu_new (with_eip (regs cpu_new) 0x1FFE), (write_initializer 0x1FFE (List.map byte_of [0x8B; 0xC3]) blank).1).
Example look_ahead_faults : (step last_two_bytes).2 = Err (MemoryFault 0x2000).
Proof. vm_compute. reflexivity. Qed.
