(* ===== verification/X86Sane.v ===== *)
(** Well-formed states of the x86 interpreter, and operations that keep them:
    whatever the outcome, registers, segments and memory keep their ranges, a
    page without write permission its bytes, every page its permissions, and
    the counters and modes of the processor their values. *)

From S2P Require Import Prelude Mmu MmuMemory MmuPages MmuState Regs X86Alu X86Decode X86Cpu.

(** * States *)

Definition segments_wf (g : Segments) : Prop :=
  Forall (in_range 16) [cs_sel g; ds_sel g; es_sel g; ss_sel g] /\
  Forall (in_range 32) [cs_base g; ds_base g; es_base g; ss_base g; fs_base g; gs_base g] /\
  map_Forall (fun _ b => in_range 32 b) (selectors g).

(** Same pages with the same permissions; those that are not writable keep
    their bytes. *)
Definition confined (m m' : Mmu) : Prop := forall p,
  match pages m !! p with
  | None => pages m' !! p = None
  | Some pg => exists pg', pages m' !! p = Some pg' /\ p_perm pg' = p_perm pg /\
      (perm_contains (p_perm pg) perm_W = false -> pg' = pg)
  end.

#[export] Instance confined_preorder : PreOrder confined.
Proof.
  split.
  - intros m p. destruct (pages m !! p) as [pg|] eqn:E; [|done]. by exists pg.
  - intros m1 m2 m3 H1 H2 p. specialize (H1 p). specialize (H2 p). destruct (pages m1 !! p) as [pg|].
    + destruct H1 as (pg' & E & Hp & Hw). rewrite E in H2. destruct H2 as (pg'' & E' & Hp' & Hw').
      exists pg''. split_and!; [done|congruence|]. intros Hn. rewrite Hw' by (by rewrite Hp). by apply Hw.
    + by rewrite H1 in H2.
Qed.

Lemma confined_pages m m' : pages m' = pages m -> confined m m'.
Proof. intros E p. rewrite E. destruct (pages m !! p) as [pg|]; [by exists pg|done]. Qed.

(** A store that is confined and leaves the watched ranges alone. *)
Definition kept (f : St unit) : Prop := forall m, confined m (f m).1 /\ watches (f m).1 = watches m.

Lemma kept_bind f g : kept f -> kept g -> kept (f ;; g).
Proof.
  intros Hf Hg m. unfold mbind, st_bind. destruct (Hf m) as [C1 W1]. destruct (f m) as [m1 [u|t|]]; cbn [fst] in *; [|done..].
  destruct (Hg m1) as [C2 W2]. split; [by transitivity m1|congruence].
Qed.

Lemma kept_put_byte a v : kept (put_byte a v).
Proof.
  intros m. unfold put_byte. destruct (pages m !! page_index a) as [pg|] eqn:E; [|done].
  destruct (perm_contains (p_perm pg) perm_W) eqn:Hw; cbn [negb]; [|done]. split; [|done].
  intros p. unfold poke. cbn [fst pages with_pages]. destruct (decide (page_index a = p)) as [<-|Hne].
  - rewrite lookup_insert_eq, E. eexists. split_and!; [done|done|congruence].
  - rewrite lookup_insert_ne by done. destruct (pages m !! p) as [q|]; [by exists q|done].
Qed.

Lemma kept_note_store a w v : kept (note_store a w v).
Proof.
  intros m. unfold note_store, mbind, st_bind, modify, note_watch.
  repeat case_match; simplify_eq/=; (split; [by apply confined_pages|done]).
Qed.

Lemma kept_store8 a v : kept (store8 a v).
Proof. apply kept_bind; [apply kept_put_byte|apply kept_note_store]. Qed.
Lemma kept_store16 a v : kept (store16 a v).
Proof. repeat (apply kept_bind; [apply kept_put_byte|]). apply kept_note_store. Qed.
Lemma kept_store32 a v : kept (store32 a v).
Proof. repeat (apply kept_bind; [apply kept_put_byte|]). apply kept_note_store. Qed.

Lemma kept_for_each {A} (f : A -> St unit) l : (forall x, kept (f x)) -> kept (for_each f l).
Proof. intros H. induction l as [|x l IH]; cbn [for_each]; [done|by apply kept_bind]. Qed.
Lemma kept_write a data : kept (write a data).
Proof. apply kept_for_each. intros [i b]. apply kept_store8. Qed.

(** The counter of the watched stores is at its end. *)
Definition watch_full (m : Mmu) : Prop := watches m <> [] /\ watch_seq m = 2 ^ 64 - 1.

(** A store panics only when it has to count past that end. *)
Definition counted (m : Mmu) : Prop := watch_dropped m <= watch_seq m < 2 ^ 64.
Definition panics_full (f : St unit) : Prop := forall m, counted m ->
  counted (f m).1 /\ ((f m).2 = Panic -> watch_full (f m).1).

Lemma inv_counted m : inv m -> counted m.
Proof. intros Hm. unfold counted. pose proof (inv_u64 m Hm). rewrite (inv_count m Hm) in *. pose proof (len_nonneg (watch_log m)). lia. Qed.

Lemma full_bind (f g : St unit) : panics_full f -> panics_full g -> panics_full (f ;; g).
Proof.
  intros Hf Hg m Hm. unfold mbind, st_bind. destruct (Hf m Hm) as [Hc Hp].
  destruct (f m) as [m1 [u|t|]]; cbn [fst snd] in *; [by apply Hg|done|by split].
Qed.

Lemma full_put_byte a v : panics_full (put_byte a v).
Proof. intros m Hm. unfold put_byte. by repeat case_match. Qed.
Lemma full_note_store a w v : panics_full (note_store a w v).
Proof.
  intros m Hm. unfold note_store, mbind, st_bind, modify, note_watch, counted, watch_full, usize_add in *.
  cbn [watches with_coverage watch_seq watch_dropped watch_log watch_limit] in *. case_bool_decide; [done|].
  destruct (existsb _ _); [|done]. destruct (Z.ltb_spec (watch_seq m + 1) (2 ^ 64)) as [E|E].
  - destruct (_ <? watch_limit m); cbn; [by split; [lia|]|]. destruct (Z.ltb_spec (watch_dropped m + 1) (2 ^ 64)); cbn; [by split; [lia|]|].
    lia.
  - cbn. split; [lia|]. intros _. split; [done|]. lia.
Qed.

Ltac full_tac := repeat (apply full_bind; [apply full_put_byte|]); apply full_note_store.
Lemma full_store8 a v : panics_full (store8 a v).
Proof. full_tac. Qed.
Lemma full_store16 a v : panics_full (store16 a v).
Proof. full_tac. Qed.
Lemma full_store32 a v : panics_full (store32 a v).
Proof. full_tac. Qed.
Lemma full_write a data : panics_full (write a data).
Proof.
  unfold write. generalize (zip (seqZ 0 (len data)) data). intros l. induction l as [|[i b] l IH]; cbn [for_each]; [done|].
  apply full_bind; [apply full_store8|exact IH].
Qed.

Section sane.
Context `{VectorState}.

Definition Cpu_wf (c : Cpu) : Prop := Regs_wf (regs c) /\ segments_wf (segments c) /\ in_range 64 (instr_count c).
Definition state_ok (s : Cpu * Mmu) : Prop := Cpu_wf s.1 /\ inv s.2.

(** What an instruction leaves alone. *)
Record frame (s s' : Cpu * Mmu) : Prop := {
  fr_mem : confined s.2 s'.2;
  fr_watches : watches s'.2 = watches s.2;
  fr_count : instr_count s'.1 = instr_count s.1;
  fr_limit : instr_limit s'.1 = instr_limit s.1;
  fr_code16 : code16 s'.1 = code16 s.1;
  fr_long64 : long64 s'.1 = long64 s.1;
}.

#[export] Instance frame_preorder : PreOrder frame.
Proof.
  split; [intros s; by split|]. intros s1 s2 s3 [] []. split; [by etransitivity|congruence..].
Qed.

(** [bad] tells whether the operation may panic on its own account; counting a
    watched store can always. *)
Definition sane {A} (bad : bool) (Q : A -> Prop) (x : X A) : Prop := forall s, state_ok s ->
  match x s with
  | (s', Ok a) => state_ok s' /\ frame s s' /\ Q a
  | (s', Err _) => state_ok s' /\ frame s s'
  | (s', Panic) => bad = true \/ watch_full s'.2
  end.

(** A bind after an operation that succeeded. *)
Lemma x_bind_ok {A B} (x : X A) (k : A -> X B) s s' a : x s = (s', Ok a) -> (x ≫= k) s = k a s'.
Proof. intros E. unfold mbind, x_bind. by rewrite E. Qed.

Lemma sane_ret {A} bad (Q : A -> Prop) a : Q a -> sane bad Q (mret a).
Proof. intros Ha s Hs. by split_and!. Qed.

Lemma sane_bind {A B} bad (Q : A -> Prop) (R : B -> Prop) (x : X A) (f : A -> X B) :
  sane bad Q x -> (forall a, Q a -> sane bad R (f a)) -> sane bad R (x ≫= f).
Proof.
  intros Hx Hf s Hs. unfold mbind, x_bind. specialize (Hx s Hs). destruct (x s) as [s' [a|t|]]; [|done|done].
  destruct Hx as (Hs' & Hfr & Ha). specialize (Hf a Ha s' Hs'). destruct (f a s') as [s'' [b|t|]].
  - destruct Hf as (? & ? & ?). split_and!; [done|by transitivity s'|done].
  - destruct Hf as (? & ?). split; [done|by transitivity s'].
  - done.
Qed.

Lemma sane_weaken {A} bad (Q R : A -> Prop) x : sane bad Q x -> (forall a, Q a -> R a) -> sane bad R x.
Proof.
  intros Hx HQ s Hs. specialize (Hx s Hs). destruct (x s) as [s' [a|t|]]; [|done|done].
  destruct Hx as (? & ? & ?). split_and!; auto.
Qed.

Lemma sane_any {A} bad (Q : A -> Prop) x : sane bad Q x -> sane bad (fun _ => True) x.
Proof. intros Hx. by eapply sane_weaken. Qed.

Lemma sane_bad {A} (Q : A -> Prop) bad x : sane false Q x -> sane bad Q x.
Proof.
  intros Hx s Hs. specialize (Hx s Hs). destruct (x s) as [s' [a|t|]]; [done|done|]. right. by destruct Hx.
Qed.

Lemma sane_cpu bad : sane bad Cpu_wf cpu.
Proof. intros s Hs. split_and!; [done|done|apply Hs]. Qed.
Lemma sane_trap {A} bad (Q : A -> Prop) t : sane bad Q (trap t).
Proof. intros s Hs. by split. Qed.
Lemma sane_panic {A} (Q : A -> Prop) : sane true Q panic.
Proof. intros s Hs. by left. Qed.
Lemma sane_false {A} bad (Q : A -> Prop) x : False -> sane bad Q x.
Proof. done. Qed.

(** What a change of the processor leaves alone. *)
Definition same_modes (c c' : Cpu) : Prop :=
  instr_count c' = instr_count c /\ instr_limit c' = instr_limit c /\ code16 c' = code16 c /\ long64 c' = long64 c.

Lemma sane_upd bad f : (forall c, Cpu_wf c -> Cpu_wf (f c) /\ same_modes c (f c)) -> sane bad (fun _ => True) (upd f).
Proof.
  intros Hf [c m] [Hc Hm]. destruct (Hf c Hc) as [Hc' (? & ? & ? & ?)]. split_and!; [by split|by split|done].
Qed.

Lemma sane_ask {A} bad (Q : A -> Prop) f :
  (forall m, inv m -> match f m with Ok a => Q a | Err _ => True | Panic => False end) -> sane bad Q (ask f).
Proof.
  intros Hf [c m] [Hc Hm]. unfold ask. cbn [snd]. specialize (Hf m Hm).
  destruct (f m) as [a|t|]; [split_and!; [by split|by split|done]|split; [by split|by split]|done].
Qed.

Lemma sane_act bad f : keeps f -> kept f -> panics_full f -> sane bad (fun _ => True) (act f).
Proof.
  intros Hk Hc Hw [c m] [Hwf Hm]. unfold act. cbn [snd fst]. specialize (Hk m Hm). destruct (Hw m (inv_counted m Hm)) as [_ Hw']. destruct (Hc m) as [Hcf HW].
  destruct (f m) as [m' r]; cbn [fst snd] in *.
  assert (frame (c, m) (c, m')) as Hfr by by split. destruct r as [u|t|]; [| |right; by apply Hw'].
  - split_and!; [|done|done]. split; [done|by apply Hk].
  - split; [|done]. split; [done|by apply Hk].
Qed.
End sane.

Create HintDb sane.
#[export] Hint Resolve kept_store8 kept_store16 kept_store32 kept_write full_store8 full_store16 full_store32 full_write
  keeps_store8 keeps_store16 keeps_store32 : sane.

(** * Ranges *)

Lemma land_in_range w a b : 0 <= w -> in_range w a -> in_range w (Z.land a b).
Proof.
  intros Hw Ha. apply in_range_bits; [done|apply Z.land_nonneg; left; apply Ha|].
  intros k Hk. by rewrite Z.land_spec, (high_bits_zero w a).
Qed.
Lemma land_in_range_r w a b : 0 <= w -> in_range w b -> in_range w (Z.land a b).
Proof. intros Hw Hb. rewrite Z.land_comm. by apply land_in_range. Qed.
Lemma lor_in_range w a b : 0 <= w -> in_range w a -> in_range w b -> in_range w (Z.lor a b).
Proof.
  intros Hw Ha Hb. apply in_range_bits; [done|apply Z.lor_nonneg; split; [apply Ha|apply Hb]|].
  intros k Hk. by rewrite Z.lor_spec, (high_bits_zero w a), (high_bits_zero w b).
Qed.
Lemma lxor_in_range w a b : 0 <= w -> in_range w a -> in_range w b -> in_range w (Z.lxor a b).
Proof.
  intros Hw Ha Hb. apply in_range_bits; [done|apply Z.lxor_nonneg; destruct Ha, Hb; lia|].
  intros k Hk. by rewrite Z.lxor_spec, (high_bits_zero w a), (high_bits_zero w b).
Qed.
Lemma shiftr_in_range w a n : 0 <= w -> 0 <= n -> in_range w a -> in_range w (Z.shiftr a n).
Proof.
  intros Hw Hn Ha. apply in_range_bits; [done|by apply Z.shiftr_nonneg, Ha|].
  intros k Hk. rewrite Z.shiftr_spec by lia. apply (high_bits_zero w); [done|lia].
Qed.
Lemma in_range_mono w w' a : 0 <= w <= w' -> in_range w a -> in_range w' a.
Proof. intros Hw [H0 H1]. split; [done|]. pose proof (Z.pow_le_mono_r 2 w w'). lia. Qed.
Lemma wrap_range' w z : 0 <= w -> in_range w (wrap w z).
Proof. apply wrap_range. Qed.
Lemma u8_in_range b : in_range 8 (u8 b).
Proof. apply u8_range. Qed.
Lemma from_le_in_range w bs : 0 <= w -> 8 * Z.of_nat (length bs) = w -> in_range w (from_le bs).
Proof.
  intros Hw <-. unfold in_range. pose proof (from_le_range bs). rewrite (Z.pow_mul_r 2) by lia. done.
Qed.
Lemma b2z_in_range w b : 0 < w -> in_range w (Z.b2z b).
Proof. intros Hw. unfold in_range. pose proof (Z.pow_le_mono_r 2 1 w). destruct b; cbn; lia. Qed.

(** A register file at hand is well formed. *)
Ltac regs_hyp := first [assumption|match goal with H : Cpu_wf ?c |- Regs_wf (regs ?c) => exact (proj1 H) end].

(** [in_range] goals. *)
Ltac rng :=
  cbn [fst snd] in *;
  lazymatch goal with
  | H : in_range ?w ?x |- in_range ?w ?x => exact H
  | |- in_range _ (wrap _ _) => apply wrap_range; lia
  | |- in_range _ (u8 _) => apply u8_in_range
  | |- in_range _ (Z.land _ _) => first [apply land_in_range; [lia|rng]|apply land_in_range_r; [lia|rng]]
  | |- in_range _ (Z.lor _ _) => apply lor_in_range; [lia|rng|rng]
  | |- in_range _ (Z.lxor _ _) => apply lxor_in_range; [lia|rng|rng]
  | |- in_range _ (Z.shiftr _ _) => apply shiftr_in_range; [lia|lia|rng]
  | |- in_range _ (Z.b2z _) => apply b2z_in_range; lia
  | |- in_range _ (from_le _) => apply from_le_in_range; [lia|rewrite ?length_reverse, ?length_to_le; reflexivity]
  | |- in_range _ (if ?b then _ else _) => destruct b; rng
  | |- in_range _ (sign_ext_8_to_32 _) => apply wrap_range; lia
  | |- in_range _ (sign_ext_8_to_16 _) => apply wrap_range; lia
  | |- in_range _ (sign_ext_16_to_32 _) => apply wrap_range; lia
  | |- in_range _ (get32 _ _) => apply gp_at_range; regs_hyp
  | |- in_range _ (esp _) => apply gp_at_range; regs_hyp
  | |- in_range _ (ebp _) => apply gp_at_range; regs_hyp
  | |- in_range _ (gp_at _ _) => apply gp_at_range; regs_hyp
  | |- in_range _ (get16 _ _) => apply (in_range_mono 16); [lia|apply wrap_range; lia]
  | |- in_range _ (get8 _ _) => unfold get8; case_match; apply wrap_range; lia
  | |- in_range _ _ => first [eassumption|unfold in_range; lia|unfold in_range in *; lia]
  end.

(** * Registers *)

Lemma set32_wf s r v : Regs_wf s -> in_range 32 v -> Regs_wf (set32 s r v).
Proof. apply with_gp_wf. Qed.
Lemma set16_wf s r v : Regs_wf s -> in_range 16 v -> Regs_wf (set16 s r v).
Proof. intros Hs Hv. apply with_gp_wf; [done|]. assert (in_range 32 v) by (by apply (in_range_mono 16)). rng. Qed.
Lemma set8_wf s r v : Regs_wf s -> in_range 8 v -> Regs_wf (set8 s r v).
Proof.
  intros Hs Hv. assert (in_range 32 v) by (by apply (in_range_mono 8)).
  assert (in_range 32 (Z.shiftl v 8)) by (unfold in_range in *; rewrite Z.shiftl_mul_pow2 by lia; lia).
  unfold set8. case_match; apply with_gp_wf; try done; rng.
Qed.
Lemma with_eip_wf s v : Regs_wf s -> in_range 32 v -> Regs_wf (with_eip s v).
Proof. intros (? & ? & _ & ?) Hv. unfold Regs_wf. cbn. tauto. Qed.
Lemma with_flags_wf s f : Regs_wf s -> Regs_wf (with_flags s f).
Proof. done. Qed.
Lemma eip_range s : Regs_wf s -> in_range 32 (eip s).
Proof. by intros (? & ? & ? & ?). Qed.

#[export] Hint Resolve set32_wf set16_wf set8_wf with_eip_wf with_flags_wf : sane.

Section ops.
Context `{VectorState}.

Lemma with_regs_wf c r : Cpu_wf c -> Regs_wf r -> Cpu_wf (with_regs c r) /\ same_modes c (with_regs c r).
Proof. intros (? & ? & ?) Hr. unfold Cpu_wf, same_modes. cbn. tauto. Qed.

Lemma segments_base g s : segments_wf g -> in_range 32
  match s with Es => es_base g | Cs => cs_base g | Ss => ss_base g | Ds => ds_base g | Fs => fs_base g | Gs => gs_base g end.
Proof. intros (_ & Hb & _). rewrite !Forall_cons in Hb. destruct s; tauto. Qed.

Lemma seg_base_range c s : Cpu_wf c -> in_range 32 (seg_base c s).
Proof. intros (_ & Hg & _). by apply segments_base. Qed.

Lemma load_segment_wf seg sel c : in_range 16 sel -> Cpu_wf c -> Cpu_wf (load_segment seg sel c) /\ same_modes c (load_segment seg sel c).
Proof.
  intros Hs (Hr & (Hsel & Hb & Hm) & Hn). assert (in_range 32 (default 0 (selector_base c sel))) as Hd.
  { unfold selector_base. destruct (selectors (segments c) !! sel) as [b|] eqn:E; [by apply (Hm sel)|done]. }
  rewrite !Forall_cons in Hsel. rewrite !Forall_cons in Hb. split; [|done]. split; [done|]. split; [|done].
  destruct seg; unfold segments_wf; cbn; rewrite !Forall_cons; tauto.
Qed.

Lemma selector_range c s : Cpu_wf c -> in_range 16 (segment_selector c s).
Proof. intros (_ & (Hs & _) & _). rewrite !Forall_cons in Hs. destruct s; cbn; tauto || done. Qed.

(** * Small operations *)

Lemma sane_get_regs bad : sane bad Regs_wf get_regs.
Proof. eapply sane_bind; [apply sane_cpu|]. intros c Hc. apply sane_ret, Hc. Qed.
Lemma sane_get_flags bad : sane bad (fun _ => True) get_flags.
Proof. eapply sane_bind; [apply sane_get_regs|]. intros r _. by apply sane_ret. Qed.
Lemma sane_get_eip bad : sane bad (in_range 32) get_eip.
Proof. eapply sane_bind; [apply sane_get_regs|]. intros r Hr. by apply sane_ret, eip_range. Qed.
Lemma sane_put_regs bad r : Regs_wf r -> sane bad (fun _ => True) (put_regs r).
Proof. intros Hr. apply sane_upd. intros c Hc. by apply with_regs_wf. Qed.
Lemma sane_put_flags bad f : sane bad (fun _ => True) (put_flags f).
Proof. apply sane_upd. intros c Hc. apply with_regs_wf; [done|]. apply with_flags_wf, Hc. Qed.
Lemma sane_put_eip bad v : in_range 32 v -> sane bad (fun _ => True) (put_eip v).
Proof. intros Hv. apply sane_upd. intros c Hc. apply with_regs_wf; [done|]. apply with_eip_wf; [apply Hc|done]. Qed.
Lemma sane_r32 bad r : sane bad (in_range 32) (r32 r).
Proof. eapply sane_bind; [apply sane_get_regs|]. intros s Hs. apply sane_ret. rng. Qed.
Lemma sane_r16 bad r : sane bad (in_range 16) (r16 r).
Proof. eapply sane_bind; [apply sane_get_regs|]. intros s Hs. apply sane_ret. rng. Qed.
Lemma sane_r8 bad r : sane bad (in_range 8) (r8 r).
Proof. eapply sane_bind; [apply sane_get_regs|]. intros s Hs. apply sane_ret. rng. Qed.
Lemma sane_w32 bad r v : in_range 32 v -> sane bad (fun _ => True) (w32 r v).
Proof. intros Hv. apply sane_upd. intros c Hc. apply with_regs_wf; [done|]. apply set32_wf; [apply Hc|done]. Qed.
Lemma sane_w16 bad r v : in_range 16 v -> sane bad (fun _ => True) (w16 r v).
Proof. intros Hv. apply sane_upd. intros c Hc. apply with_regs_wf; [done|]. apply set16_wf; [apply Hc|done]. Qed.
Lemma sane_w8 bad r v : in_range 8 v -> sane bad (fun _ => True) (w8 r v).
Proof. intros Hv. apply sane_upd. intros c Hc. apply with_regs_wf; [done|]. apply set8_wf; [apply Hc|done]. Qed.
Lemma sane_advance bad n : sane bad (fun _ => True) (advance_eip n).
Proof. apply sane_upd. intros c Hc. apply with_regs_wf; [done|]. apply with_eip_wf; [apply Hc|rng]. Qed.
Lemma sane_undefined {A} bad (Q : A -> Prop) e op : sane bad Q (undefined e op).
Proof. apply sane_trap. Qed.
Lemma sane_privileged {A} bad (Q : A -> Prop) e t : sane bad Q (privileged e t).
Proof. apply sane_trap. Qed.

(** An arithmetic primitive keeps its width. *)
Definition alu_ok (w : Z) (f : Alu) : Prop := forall a b fl, in_range w a -> in_range w b -> in_range w (f a b fl).1.1.

Lemma sane_alu bad w f a b : alu_ok w f -> in_range w a -> in_range w b -> sane bad (fun rw => in_range w rw.1) (alu f a b).
Proof.
  intros Hf Ha Hb. eapply sane_bind; [apply sane_get_flags|]. intros fl _. specialize (Hf a b fl Ha Hb).
  destruct (f a b fl) as [[r wb] fl']. cbn [fst] in Hf. eapply sane_bind; [apply sane_put_flags|]. intros _ _. by apply sane_ret.
Qed.

(** * Memory *)

Lemma fetch_byte_case m a : match fetch_byte m a with Ok _ => True | Err _ => True | Panic => False end.
Proof. unfold fetch_byte. destruct (pages m !! page_index a); cbn; [|done]. by destruct (negb _). Qed.
Lemma fetch_x8_case m a : match fetch_x8 m a with Ok _ => True | Err _ => True | Panic => False end.
Proof. unfold fetch_x8. destruct (pages m !! page_index a); cbn; [|done]. by destruct (negb _). Qed.

Lemma sane_fetch bad a : sane bad (fun _ => True) (ask (fun m => fetch_x8 m a)).
Proof. apply sane_ask. intros m _. pose proof (fetch_x8_case m a). by destruct (fetch_x8 m a). Qed.

Lemma load8_case m a : match load8 m a with Ok v => in_range 8 v | Err _ => True | Panic => False end.
Proof. unfold load8. pose proof (fetch_byte_case m a). destruct (fetch_byte m a); cbn -[u8]; [rng|done|done]. Qed.
Lemma load16_case m a : match load16 m a with Ok v => in_range 16 v | Err _ => True | Panic => False end.
Proof.
  unfold load16. pose proof (fetch_byte_case m a). destruct (fetch_byte m a); cbn -[from_le]; [|done|done].
  pose proof (fetch_byte_case m (wrap32 (a + 1))). destruct (fetch_byte m _); cbn -[from_le]; [apply from_le_in_range; done|done|done].
Qed.
Lemma load32_case m a : match load32 m a with Ok v => in_range 32 v | Err _ => True | Panic => False end.
Proof.
  unfold load32. pose proof (fetch_byte_case m a). destruct (fetch_byte m a); cbn -[from_le]; [|done|done].
  pose proof (fetch_byte_case m (wrap32 (a + 1))). destruct (fetch_byte m (wrap32 (a + 1))); cbn -[from_le]; [|done|done].
  pose proof (fetch_byte_case m (wrap32 (a + 2))). destruct (fetch_byte m (wrap32 (a + 2))); cbn -[from_le]; [|done|done].
  pose proof (fetch_byte_case m (wrap32 (a + 3))). destruct (fetch_byte m _); cbn -[from_le]; [apply from_le_in_range; done|done|done].
Qed.

Lemma sane_load8 bad a : sane bad (in_range 8) (ask (fun m => load8 m a)).
Proof. apply sane_ask. intros m _. apply load8_case. Qed.
Lemma sane_load16 bad a : sane bad (in_range 16) (ask (fun m => load16 m a)).
Proof. apply sane_ask. intros m _. apply load16_case. Qed.
Lemma sane_load32 bad a : sane bad (in_range 32) (ask (fun m => load32 m a)).
Proof. apply sane_ask. intros m _. apply load32_case. Qed.
Lemma sane_store8 bad a v : in_range 32 a -> sane bad (fun _ => True) (act (store8 a v)).
Proof. intros Ha. apply sane_act; auto with sane. Qed.
Lemma sane_store16 bad a v : in_range 32 a -> sane bad (fun _ => True) (act (store16 a v)).
Proof. intros Ha. apply sane_act; auto with sane. Qed.
Lemma sane_store32 bad a v : in_range 32 a -> sane bad (fun _ => True) (act (store32 a v)).
Proof. intros Ha. apply sane_act; auto with sane. Qed.
Lemma sane_write bad a data : in_range 32 a -> sane bad (fun _ => True) (act (write a data)).
Proof. intros Ha. apply sane_act; auto with sane. exact (keeps_op (OpWrite a data) Ha). Qed.
End ops.

#[export] Hint Resolve sane_get_regs sane_get_flags sane_get_eip sane_put_regs sane_put_flags sane_put_eip sane_r32 sane_r16 sane_r8
  sane_w32 sane_w16 sane_w8 sane_advance sane_undefined sane_privileged sane_trap sane_panic sane_cpu sane_fetch sane_load8 sane_load16
  sane_load32 sane_store8 sane_store16 sane_store32 sane_write : sane.
