(* ===== verification/X86SaneCpu.v ===== *)
(** Stack, fetching and operands of the x86 interpreter keep well-formed states,
    and do not panic. *)

From S2P Require Import Prelude Mmu MmuMemory MmuState Regs X86Alu X86Decode X86Cpu X86Sane.

#[export] Hint Extern 1 (in_range _ _) => rng : sane.
#[export] Hint Extern 1 (Regs_wf (regs _)) => match goal with H : Cpu_wf _ |- _ => apply H end : sane.
#[export] Hint Extern 1 True => exact I : sane.

(** The operation at the head, by its lemma. *)
Ltac sane_leaf := solve [eauto 4 with sane nocore].

Ltac conjs := cbv beta in *; repeat match goal with H : _ /\ _ |- _ => destruct H end; cbn [fst snd] in *.

(** One step through an operation. *)
Ltac sane1 :=
  cbv beta zeta; cbn [fst snd];
  lazymatch goal with
  | |- sane _ _ (mret _) => apply sane_ret; eauto 4 with sane nocore
  | |- sane _ _ (mret _ ≫= _) => eapply (sane_bind _ (fun _ => True)); [by apply sane_ret|intros ? _]
  | |- sane _ _ ((if _ then _ else _) ≫= _) =>
      eapply (sane_bind _ (fun _ => True)); [case_match|intros ? _]
  | |- sane _ _ ((match _ with _ => _ end) ≫= _) =>
      eapply (sane_bind _ (fun _ => True)); [case_match|intros ? _]
  | |- sane _ _ ((_ ≫= _) ≫= _) => eapply (sane_bind _ (fun _ => True)); [|intros ? _]
  | |- sane _ _ (_ ≫= _) => eapply sane_bind; [sane_leaf|let a := fresh "v" in let Ha := fresh "Hv" in intros a Ha; conjs]
  | |- sane _ _ (match _ with _ => _ end) => case_match; conjs
  | |- sane _ _ _ => first [sane_leaf|eapply sane_any; sane_leaf]
  end.
Ltac sane_tac := repeat sane1.

Section cpu.
Context `{VectorState}.

Lemma sp_wrap_range c n : in_range 32 (sp_wrap c n).
Proof. unfold sp_wrap. destruct (code16 c); rng. Qed.

Lemma set_esp_wf s v : Regs_wf s -> in_range 32 v -> Regs_wf (set_esp s v).
Proof. apply with_gp_wf. Qed.

Hint Resolve set_esp_wf sp_wrap_range : sane.

Lemma sane_dec_sp bad n : sane bad (in_range 32) (dec_sp n).
Proof. unfold dec_sp. sane1. apply (sane_bind _ (fun _ => True)); [apply sane_put_regs, set_esp_wf; [apply Hv|apply sp_wrap_range]|intros _ _]. apply sane_ret, sp_wrap_range. Qed.
Lemma sane_inc_sp bad n : sane bad (fun _ => True) (inc_sp n).
Proof. unfold inc_sp. sane1. apply sane_put_regs, set_esp_wf; [apply Hv|apply sp_wrap_range]. Qed.

Lemma stack_addr_range c sp : in_range 32 (stack_addr c sp).
Proof. unfold stack_addr. rng. Qed.
Hint Resolve sane_dec_sp sane_inc_sp stack_addr_range : sane.

Lemma sane_push32 bad v : sane bad (fun _ => True) (push32 v).
Proof. unfold push32. sane_tac. Qed.
Lemma sane_push16 bad v : sane bad (fun _ => True) (push16 v).
Proof. unfold push16. sane_tac. Qed.
Lemma sane_pop32 bad : sane bad (in_range 32) pop32.
Proof. unfold pop32. sane_tac. Qed.
Lemma sane_pop16 bad : sane bad (in_range 16) pop16.
Proof. unfold pop16. sane_tac. Qed.
Hint Resolve sane_push32 sane_push16 sane_pop32 sane_pop16 : sane.

Lemma sane_near_ret_pop bad : sane bad (in_range 32) near_ret_pop.
Proof. unfold near_ret_pop. sane_tac. Qed.
Lemma sane_load_segment bad seg sel : in_range 16 sel -> sane bad (fun _ => True) (upd (load_segment seg sel)).
Proof. intros Hs. apply sane_upd. intros c. by apply load_segment_wf. Qed.
Hint Resolve sane_near_ret_pop sane_load_segment : sane.
Lemma sane_far_jump bad sel off : in_range 16 sel -> sane bad (fun _ => True) (far_jump sel off).
Proof. intros Hs. unfold far_jump. sane_tac. Qed.
Hint Resolve sane_far_jump selector_range : sane.

Lemma sane_seg_push bad seg e opc : sane bad (fun _ => True) (seg_push seg e opc).
Proof. unfold seg_push. sane_tac. Qed.
Lemma sane_seg_pop bad seg e opc : sane bad (fun _ => True) (seg_pop seg e opc).
Proof. unfold seg_pop. sane_tac. Qed.

(** * Fetching *)

Lemma sane_op_size_16 bad : sane bad (fun _ => True) op_size_16.
Proof. unfold op_size_16. sane_tac. Qed.
Lemma sane_addr16 bad : sane bad (fun _ => True) addr16.
Proof. unfold addr16. sane_tac. Qed.
Lemma sane_fetch_imm8 bad : sane bad (in_range 8) fetch_imm8.
Proof. unfold fetch_imm8. sane_tac. Qed.
Lemma sane_fetch_imm16 bad : sane bad (in_range 16) fetch_imm16.
Proof. unfold fetch_imm16. sane_tac. Qed.
Lemma sane_fetch_imm32 bad : sane bad (in_range 32) fetch_imm32.
Proof. unfold fetch_imm32. sane_tac. Qed.
Hint Resolve sane_op_size_16 sane_addr16 sane_fetch_imm8 sane_fetch_imm16 sane_fetch_imm32 : sane.

Lemma sane_default_seg bad d : sane bad (fun _ => True) (default_seg d).
Proof. apply sane_upd. intros c Hc. split; [exact Hc|done]. Qed.
Hint Resolve sane_default_seg : sane.

Lemma sane_fetch_moffs bad : sane bad (in_range 32) fetch_moffs.
Proof.
  unfold fetch_moffs. eapply sane_bind; [apply sane_default_seg|intros _ _]. sane1. case_match; [|sane_tac].
  eapply sane_weaken; [apply sane_fetch_imm16|]. intros a. apply in_range_mono. lia.
Qed.

(** ModR/M fields have two and three bits. *)
Definition modrm_ok (mr : ModRm) : Prop := 0 <= mode mr < 4 /\ 0 <= reg mr < 8 /\ 0 <= rm mr < 8.

Lemma land_mask a n : 0 <= n -> 0 <= Z.land a (2 ^ n - 1) < 2 ^ n.
Proof.
  intros Hn. replace (2 ^ n - 1) with (Z.ones n) by (rewrite Z.ones_equiv; lia). rewrite Z.land_ones by done.
  apply Z.mod_pos_bound, Z.pow_pos_nonneg; lia.
Qed.

Lemma modrm_decode_ok b : modrm_ok (modrm_decode b).
Proof. unfold modrm_ok, modrm_decode. cbn [mode reg rm]. split_and; [apply (land_mask _ 2)|split; apply (land_mask _ 3)]; lia. Qed.

Lemma sane_fetch_modrm bad : sane bad modrm_ok fetch_modrm.
Proof. unfold fetch_modrm. sane1. apply sane_ret, modrm_decode_ok. Qed.
Hint Resolve sane_fetch_moffs sane_fetch_modrm : sane.

Lemma peek_case m e n : forall i, match peek_from m e n i with Panic => False | _ => True end.
Proof.
  induction n as [|n IH]; intros i; cbn [peek_from]; [done|]. pose proof (fetch_x8_case m (wrap32 (e + i))).
  destruct (fetch_x8 m _); [|by destruct (1 <=? i)|done]. specialize (IH (i + 1)). by destruct (peek_from m e n _).
Qed.

Lemma sane_peek bad n : sane bad (fun _ => True) (peek_after_modrm n).
Proof.
  unfold peek_after_modrm. sane1. apply sane_ask. intros m _. pose proof (peek_case m v n 0). by destruct (peek_from m v n 0).
Qed.
Hint Resolve sane_peek : sane.

(** * Operands *)

(** A memory operand is a 32-bit address, and comes from the forms that are not
    the register form. *)
Definition operand_ok (mr : ModRm) (op : Operand) : Prop :=
  match op with OMem32 a => in_range 32 a | OReg32 _ => mode mr = 3 end.

Lemma read_imm_case w bytes o : w = 2 \/ w = 4 ->
  match (s ← ok_or (get_range bytes o (o + w)) unreachable_trap; Ok (from_le s)) with Ok v => in_range (8 * w) v | Err _ => True | Panic => False end.
Proof.
  intros Hw. destruct (get_range bytes o (o + w)) as [s|] eqn:E; cbn -[from_le]; [|done].
  apply get_range_Some in E as (? & ? & ->). apply from_le_in_range; [lia|]. rewrite length_sub by lia. lia.
Qed.
Lemma read_imm16_case bytes o : match read_imm16 bytes o with Ok v => in_range 16 v | Err _ => True | Panic => False end.
Proof. apply (read_imm_case 2). by left. Qed.
Lemma read_imm32_case bytes o : match read_imm32 bytes o with Ok v => in_range 32 v | Err _ => True | Panic => False end.
Proof. apply (read_imm_case 4). by right. Qed.

Lemma at_bits_range r b : Regs_wf r -> in_range 32 (at_bits r b).
Proof. intros Hr. unfold at_bits. rng. Qed.

Ltac imm32 :=
  match goal with |- context [read_imm32 ?b ?o] => pose proof (read_imm32_case b o); destruct (read_imm32 b o); cbn; [|done|done] end.
Ltac imm16 :=
  match goal with |- context [read_imm16 ?b ?o] => pose proof (read_imm16_case b o); destruct (read_imm16 b o); cbn; [|done|done] end.

Lemma displaced_range k d r : in_range 32 (displaced k d r).
Proof. destruct k; cbn [displaced]; rng. Qed.

Lemma resolve_kind_case mr k consumed bytes r : mode mr = 0 \/ mode mr = 1 \/ mode mr = 2 -> Regs_wf r ->
  match resolve_kind mr k consumed bytes r with Ok oc => operand_ok mr oc.1 | Err _ => True | Panic => False end.
Proof.
  intros Hm Hr. unfold resolve_kind. destruct Hm as [->|[->| ->]].
  - destruct k as [b|s]; [destruct (b =? 5); [by imm32|cbn; by apply at_bits_range]|].
    unfold sib_base_at_mod0. destruct (base s =? 5); [imm32|cbn]; rng.
  - destruct (get bytes consumed); cbn; [apply displaced_range|done].
  - imm32. apply displaced_range.
Qed.

Lemma memory_modes mr : modrm_ok mr -> (mode mr =? 3) = false -> mode mr = 0 \/ mode mr = 1 \/ mode mr = 2.
Proof. intros (Hm & _) E. lia. Qed.

Lemma resolve32_case mr bytes r : modrm_ok mr -> Regs_wf r ->
  match resolve_modrm32 mr bytes r with Ok oc => operand_ok mr oc.1 | Err _ => True | Panic => False end.
Proof.
  intros Hmr Hr. unfold resolve_modrm32. destruct (mode mr =? 3) eqn:E3; [by apply Z.eqb_eq|].
  unfold base_kind. destruct (rm mr =? 4); [destruct bytes; [done|]|]; cbn [mbind res_bind fst snd];
    (apply resolve_kind_case; [by apply memory_modes|done]).
Qed.

Lemma base16_ok mr r : modrm_ok mr -> exists bp, base16 mr r = Ok bp.
Proof.
  intros (_ & _ & Hrm). unfold base16.
  assert (rm mr = 0 \/ rm mr = 1 \/ rm mr = 2 \/ rm mr = 3 \/ rm mr = 4 \/ rm mr = 5 \/ rm mr = 6 \/ rm mr = 7) as Hc by lia.
  repeat destruct Hc as [->|Hc]; try by eexists. { destruct (mode mr =? 0); by eexists. } rewrite Hc. by eexists.
Qed.

Lemma resolve16_case mr bytes r : modrm_ok mr -> Regs_wf r ->
  match resolve_modrm16 mr bytes r with Ok oc => operand_ok mr oc.1.1 | Err _ => True | Panic => False end.
Proof.
  intros Hmr Hr. unfold resolve_modrm16. destruct (mode mr =? 3) eqn:E3; [by apply Z.eqb_eq|].
  destruct (base16_ok mr r Hmr) as [[b bp] ->]. cbn [mbind res_bind].
  assert (match disp16 mr bytes with Panic => False | _ => True end) as Hd.
  { unfold disp16. destruct (memory_modes mr Hmr E3) as [->|[->| ->]].
    - destruct (rm mr =? 6); [imm16|]; done.
    - by destruct (get bytes 0).
    - by imm16. }
  destruct (disp16 mr bytes) as [[d c]|t|]; [|done|done]. cbn. rng.
Qed.

Lemma sane_resolve bad mr bytes : modrm_ok mr -> sane bad (fun oc => operand_ok mr oc.1) (resolve_modrm mr bytes).
Proof.
  intros Hmr. unfold resolve_modrm. eapply sane_bind; [apply sane_addr16|intros a _]. eapply sane_bind; [apply sane_get_regs|intros r Hr]. destruct a.
  - eapply (sane_bind _ (fun o => operand_ok mr o.1.1)); [apply sane_ask; intros m _; by apply resolve16_case|].
    intros [[op c] bp] Ho. eapply sane_bind; [apply sane_default_seg|intros _ _]. by apply sane_ret.
  - eapply sane_bind; [apply sane_default_seg|intros _ _]. apply sane_ask. intros m _. by apply resolve32_case.
Qed.

Lemma sane_resolve_at bad mr : modrm_ok mr -> sane bad (fun oc => operand_ok mr oc.1) (resolve_at mr).
Proof.
  intros Hmr. unfold resolve_at. sane1. eapply sane_bind; [by apply sane_resolve|intros oc Ho].
  eapply sane_bind; [apply sane_advance|intros _ _]. by apply sane_ret.
Qed.

Lemma seg_apply_ok mr c op : operand_ok mr op -> operand_ok mr (seg_apply c op).
Proof. destruct op; [done|]. intros _. cbn. unfold seg_translate. rng. Qed.

Lemma sane_operand bad mr : modrm_ok mr -> sane bad (operand_ok mr) (operand mr).
Proof.
  intros Hmr. unfold operand. eapply sane_bind; [by apply sane_resolve_at|intros oc Ho].
  eapply sane_bind; [apply sane_cpu|intros c _]. by apply sane_ret, seg_apply_ok.
Qed.

Lemma sane_read32 bad op : sane bad (in_range 32) (read32 op).
Proof.
  unfold read32. sane1. apply sane_ask. intros m _. destruct op; cbn [read_operand32]; [rng|apply load32_case].
Qed.
Lemma sane_read16 bad op : sane bad (in_range 16) (read16 op).
Proof.
  unfold read16. sane1. apply sane_ask. intros m _. destruct op; cbn [read_operand16]; [rng|apply load16_case].
Qed.

Lemma sane_write32 bad mr op x : operand_ok mr op -> in_range 32 x -> sane bad (fun _ => True) (write32 op x).
Proof.
  intros Ho Hx. unfold write32. sane1. destruct op as [r|a]; cbn [write_operand32].
  - eapply (sane_bind _ (fun r => Regs_wf r)); [|intros r' Hr'; by apply sane_put_regs].
    intros s Hs. cbn. destruct s. split_and!; [done|done|by apply set32_wf].
  - intros s Hs. pose proof (sane_store32 bad a x Ho s Hs) as Hst. unfold mbind, x_bind, act in *. unfold st_bind in *.
    destruct (store32 a x s.2) as [m [u|t|]]; [|exact Hst|exact Hst]. cbn. destruct Hst as (Hs' & Hf & _).
    destruct Hs' as [Hc Hm]. cbn [fst snd] in *. destruct (with_regs_wf s.1 v Hc Hv) as [Hwf _]. split_and!; [by split| |done].
    destruct Hf. by split.
Qed.

Lemma sane_write16 bad mr op x : operand_ok mr op -> in_range 16 x -> sane bad (fun _ => True) (write16 op x).
Proof.
  intros Ho Hx. assert (in_range 32 x) by (by apply (in_range_mono 16)). unfold write16. sane1. destruct op as [r|a]; cbn [write_operand16].
  - eapply (sane_bind _ (fun r => Regs_wf r)); [|intros r' Hr'; by apply sane_put_regs].
    intros s Hs. cbn. destruct s. split_and!; [done|done|]. apply set32_wf; [done|]. rng.
  - intros s Hs. pose proof (sane_store16 bad a x Ho s Hs) as Hst. unfold mbind, x_bind, act in *. unfold st_bind in *.
    destruct (store16 a x s.2) as [m [u|t|]]; [|exact Hst|exact Hst]. cbn. destruct Hst as (Hs' & Hf & _).
    destruct Hs' as [Hc Hm]. cbn [fst snd] in *. destruct (with_regs_wf s.1 v Hc Hv) as [Hwf _]. split_and!; [by split| |done].
    destruct Hf. by split.
Qed.

Definition dst8_ok (d : Op8Dst) : Prop := match d with Mem8Dst a => in_range 32 a | _ => True end.
Definition dst16_ok (d : Op16Dst) : Prop := match d with Mem16Dst a => in_range 32 a | _ => True end.

Lemma sane_resolve_op8 bad mr : modrm_ok mr -> sane bad (fun vd => in_range 8 vd.1 /\ dst8_ok vd.2) (resolve_op8 mr).
Proof.
  intros Hmr. unfold resolve_op8. case_match eqn:E3; [sane1; by apply sane_ret|]. apply Z.eqb_neq in E3.
  eapply sane_bind; [by apply sane_operand|intros op Ho]. destruct op; [by apply sane_false|]. sane1. by apply sane_ret.
Qed.
Lemma sane_resolve_op16 bad mr : modrm_ok mr -> sane bad (fun vd => in_range 16 vd.1 /\ dst16_ok vd.2) (resolve_op16 mr).
Proof.
  intros Hmr. unfold resolve_op16. case_match eqn:E3; [sane1; by apply sane_ret|]. apply Z.eqb_neq in E3.
  eapply sane_bind; [by apply sane_operand|intros op Ho]. destruct op; [by apply sane_false|]. sane1. by apply sane_ret.
Qed.
Lemma sane_write_op8 bad d x : dst8_ok d -> in_range 8 x -> sane bad (fun _ => True) (write_op8 d x).
Proof. intros Hd Hx. destruct d; cbn [write_op8]; [by apply sane_w8|by apply sane_store8]. Qed.
Lemma sane_write_op16 bad d x : dst16_ok d -> in_range 16 x -> sane bad (fun _ => True) (write_op16 d x).
Proof. intros Hd Hx. destruct d; cbn [write_op16]; [by apply sane_w16|by apply sane_store16]. Qed.
End cpu.

#[export] Hint Resolve set_esp_wf sp_wrap_range sane_dec_sp sane_inc_sp stack_addr_range sane_push32 sane_push16 sane_pop32 sane_pop16
  sane_near_ret_pop sane_load_segment sane_far_jump selector_range sane_seg_push sane_seg_pop sane_op_size_16 sane_addr16 sane_fetch_imm8
  sane_fetch_imm16 sane_fetch_imm32 sane_default_seg sane_fetch_moffs sane_fetch_modrm sane_peek sane_resolve_at sane_operand sane_read32
  sane_read16 sane_write32 sane_write16 sane_resolve_op8 sane_resolve_op16 sane_write_op8 sane_write_op16 : sane.
