(* ===== verification/X86SaneExec.v ===== *)
(** The instruction bodies of X86Exec.v keep well-formed states (X86Sane.v). Only
    the signed division of group 3 can panic. *)

From S2P Require Import Prelude Mmu MmuMemory MmuState Regs X86Alu X86Decode X86Cpu X86Exec X86Sane X86SaneCpu.

(** * Arithmetic primitives *)

Ltac alu_ok_tac := intros a b fl Ha Hb; cbn -[Z.land Z.lor Z.lxor wrap]; rng.

Lemma alu_ok_8 f : f ∈ [alu_add_8; alu_or_8; alu_adc_8; alu_sbb_8; alu_and_8; alu_sub_8; alu_xor_8; alu_cmp_8] -> alu_ok 8 f.
Proof. rewrite !elem_of_cons. intros Hf. repeat destruct Hf as [->|Hf]; [alu_ok_tac..|by apply elem_of_nil in Hf]. Qed.
Lemma alu_ok_16 f :
  f ∈ [alu_add_16; alu_or_16; alu_adc_16; alu_sbb_16; alu_and_16; alu_sub_16; alu_xor_16; alu_cmp_16; alu_test_16] -> alu_ok 16 f.
Proof. rewrite !elem_of_cons. intros Hf. repeat destruct Hf as [->|Hf]; [alu_ok_tac..|by apply elem_of_nil in Hf]. Qed.
Lemma alu_ok_32 f :
  f ∈ [alu_add_32; alu_or_32; alu_adc_32; alu_sbb_32; alu_and_32; alu_sub_32; alu_xor_32; alu_cmp_32; alu_test_32] -> alu_ok 32 f.
Proof. rewrite !elem_of_cons. intros Hf. repeat destruct Hf as [->|Hf]; [alu_ok_tac..|by apply elem_of_nil in Hf]. Qed.

Lemma group1_op_8_ok r : alu_ok 8 (group1_op_8 r).
Proof. unfold group1_op_8. repeat case_match; apply alu_ok_8; set_solver. Qed.
Lemma group1_op_16_ok r : alu_ok 16 (group1_op_16 r).
Proof. unfold group1_op_16. repeat case_match; apply alu_ok_16; set_solver. Qed.
Lemma group1_op_32_ok r : alu_ok 32 (group1_op_32 r).
Proof. unfold group1_op_32. repeat case_match; apply alu_ok_32; set_solver. Qed.
Lemma alu_fn16_ok op : alu_ok 16 (alu_fn16_for_opcode op).
Proof. unfold alu_fn16_for_opcode. repeat case_match; apply alu_ok_16; set_solver. Qed.
#[export] Hint Resolve group1_op_8_ok group1_op_16_ok group1_op_32_ok alu_fn16_ok : sane.

(** A table of group 2 keeps its width. *)
Definition group2_ok (w : Z) (f : Z -> Z -> Z -> Flags -> option (Z * Flags)) : Prop := forall reg val count fl r,
  in_range w val -> 0 <= count -> f reg val count fl = Some r -> in_range w r.1.

Lemma times_range w c f s : (forall s, in_range w s.1 -> in_range w (f s).1) -> in_range w s.1 -> in_range w (times c f s).1.
Proof. intros Hf Hs. unfold times. by apply (Nat.iter_invariant (Z.to_nat c) _ f (fun s => in_range w s.1)). Qed.

Lemma rotate_range w v c : 0 <= w -> in_range w (rotate_left w v c).
Proof. intros Hw. by apply wrap_range. Qed.

Lemma rcl_range s : in_range 32 s.1 -> in_range 32 (rcl_step_32 s).1.
Proof. destruct s as [v b]. intros Hv. cbn -[Z.lor Z.shiftl wrap]. rng. Qed.
Lemma rcr_range s : in_range 32 s.1 -> in_range 32 (rcr_step_32 s).1.
Proof.
  destruct s as [v b]. intros Hv. cbn -[Z.lor Z.shiftl Z.shiftr wrap]. assert (in_range 32 (Z.shiftl (Z.b2z b) 31)) by (by destruct b). rng.
Qed.

Lemma group2_ok_32 : group2_ok 32 group2_op_32.
Proof.
  unfold group2_ok, group2_op_32. intros reg val count fl r Hv Hc.
  assert (forall f, (forall s, in_range 32 s.1 -> in_range 32 (f s).1) -> in_range 32 (times (Z.land count 0x1F) f (val, cf fl)).1) as Ht.
  { intros f Hf. by apply times_range. }
  pose proof (Ht _ rcl_range). pose proof (Ht _ rcr_range). unfold rotate_right.
  repeat case_match; intros [= <-]; cbn [fst] in *; first [rng|apply rotate_range; lia].
Qed.
Lemma group2_ok_16 : group2_ok 16 group2_op_16.
Proof.
  unfold group2_ok, group2_op_16. intros reg val count fl r Hv Hc. unfold rotate_right.
  repeat case_match; intros [= <-]; cbn [fst] in *; first [rng|apply rotate_range; lia].
Qed.
Lemma group2_ok_8 : group2_ok 8 group2_op_8.
Proof.
  unfold group2_ok, group2_op_8. intros reg val count fl r Hv Hc. unfold rotate_right.
  repeat case_match; intros [= <-]; cbn [fst] in *; first [rng|apply rotate_range; lia].
Qed.

Lemma land_nonneg_r a b : 0 <= b -> 0 <= Z.land a b.
Proof. intros. apply Z.land_nonneg. by right. Qed.

Section exec.
Context `{VectorState}.

Notation quiet x := (sane false (fun _ => True) x).

Lemma sane_done bad : sane bad (fun _ => True) done.
Proof. by apply sane_ret. Qed.
Hint Resolve sane_done sane_alu : sane.

Tactic Notation "handler" reference(x) := unfold x; sane_tac.

(** * Arithmetic forms *)

Lemma sane_alu_rm16_r16 f : alu_ok 16 f -> quiet (alu_rm16_r16 f).
Proof. intros Hf. handler alu_rm16_r16. Qed.
Lemma sane_alu_r16_rm16 f : alu_ok 16 f -> quiet (alu_r16_rm16 f).
Proof. intros Hf. handler alu_r16_rm16. Qed.
Hint Resolve sane_alu_rm16_r16 sane_alu_r16_rm16 : sane.
Lemma sane_alu_rm32_r32 op f : alu_ok 32 f -> quiet (alu_rm32_r32 op f).
Proof. intros Hf. handler alu_rm32_r32. Qed.
Lemma sane_alu_r32_rm32 op f : alu_ok 32 f -> quiet (alu_r32_rm32 op f).
Proof. intros Hf. handler alu_r32_rm32. Qed.
Lemma sane_alu_eax_imm32 op f : alu_ok 32 f -> quiet (alu_eax_imm32 op f).
Proof. intros Hf. handler alu_eax_imm32. Qed.
Lemma sane_alu_rm8_r8 f : alu_ok 8 f -> quiet (alu_rm8_r8 f).
Proof. intros Hf. handler alu_rm8_r8. Qed.
Lemma sane_alu_r8_rm8 f : alu_ok 8 f -> quiet (alu_r8_rm8 f).
Proof. intros Hf. handler alu_r8_rm8. Qed.
Lemma sane_alu_al_imm8 f : alu_ok 8 f -> quiet (alu_al_imm8 f).
Proof. intros Hf. handler alu_al_imm8. Qed.
Lemma sane_group1_rm8_imm8 : quiet group1_rm8_imm8.
Proof. handler group1_rm8_imm8. Qed.
Lemma sane_group1_rm32_imm32 : quiet group1_rm32_imm32.
Proof. handler group1_rm32_imm32. Qed.
Lemma sane_group1_rm32_imm8 : quiet group1_rm32_imm8.
Proof. handler group1_rm32_imm8. Qed.
Lemma sane_test_flags bad szp r : sane bad (fun _ => True) (test_flags szp r).
Proof. handler test_flags. Qed.
Hint Resolve sane_test_flags : sane.
Lemma sane_test_rm8_r8 : quiet test_rm8_r8.
Proof. handler test_rm8_r8. Qed.

(** * Moves *)

Lemma sane_mov_rm8_r8 : quiet mov_rm8_r8.
Proof. handler mov_rm8_r8. Qed.
Lemma sane_mov_rm32_r32 : quiet mov_rm32_r32.
Proof. handler mov_rm32_r32. Qed.
Lemma sane_mov_r8_rm8 : quiet mov_r8_rm8.
Proof. handler mov_r8_rm8. Qed.
Lemma sane_mov_r32_rm32 : quiet mov_r32_rm32.
Proof. handler mov_r32_rm32. Qed.
Lemma sane_lea_r32_m : quiet lea_r32_m.
Proof.
  unfold lea_r32_m. sane1. destruct (mode v =? 3) eqn:E3; [sane_tac|]. apply Z.eqb_neq in E3.
  eapply sane_bind; [by apply sane_resolve_at|intros [[r|a] n] Ho]; [by apply sane_false|]. sane_tac.
Qed.
Lemma sane_pop_rm32 : quiet pop_rm32.
Proof. handler pop_rm32. Qed.

(** * Groups 2 and 3 *)

Lemma sane_shift_count bad s : sane bad (Z.le 0) (shift_count s).
Proof.
  unfold shift_count. destruct s; [by apply sane_ret|eapply sane_bind; [sane_leaf|intros c _]..]; apply sane_ret; by apply land_nonneg_r.
Qed.
Lemma sane_group2 bad w f opcode r val count : group2_ok w f -> in_range w val -> 0 <= count ->
  sane bad (in_range w) (group2 f opcode r val count).
Proof.
  intros Hf Hv Hc. unfold group2. eapply sane_bind; [apply sane_get_flags|intros fl _].
  destruct (f r val count fl) as [[o fl']|] eqn:E; [|sane_tac].
  eapply sane_bind; [apply sane_put_flags|intros _ _]. apply sane_ret. by apply (Hf r val count fl _ Hv Hc E).
Qed.
Hint Resolve sane_shift_count sane_group2 group2_ok_32 group2_ok_16 group2_ok_8 : sane.
Hint Extern 1 (0 <= _) => eassumption : sane.

Lemma sane_group2_rm16 s : quiet (group2_rm16 s).
Proof. handler group2_rm16. Qed.
Hint Resolve sane_group2_rm16 : sane.
Lemma sane_group2_rm32 s : quiet (group2_rm32 s).
Proof. handler group2_rm32. Qed.
Lemma sane_group2_rm8 s : quiet (group2_rm8 s).
Proof. handler group2_rm8. Qed.

Lemma sane_carry_overflow bad b : sane bad (fun _ => True) (carry_overflow b).
Proof. handler carry_overflow. Qed.
Lemma sane_neg_flags bad szp a b c : sane bad (fun _ => True) (neg_flags szp a b c).
Proof. handler neg_flags. Qed.
Lemma sane_signed_div w a b : sane true (fun _ => True) (signed_div w a b).
Proof. handler signed_div. Qed.
Hint Resolve sane_carry_overflow sane_neg_flags sane_signed_div : sane.

Lemma product_8 a b : in_range 8 a -> in_range 8 b -> in_range 16 (a * b).
Proof. unfold in_range. change (2 ^ 8) with 256. change (2 ^ 16) with 65536. nia. Qed.
Hint Resolve product_8 : sane.

Lemma sane_group3_rm16 e : sane true (fun _ => True) (group3_rm16 e).
Proof. handler group3_rm16. Qed.
Hint Resolve sane_group3_rm16 : sane.
Lemma sane_mul_32 bad v : sane bad (fun _ => True) (mul_32 v).
Proof. handler mul_32. Qed.
Lemma sane_div_32 bad e v : sane bad (fun _ => True) (div_32 e v).
Proof. handler div_32. Qed.
Lemma sane_idiv_32 e v : sane true (fun _ => True) (idiv_32 e v).
Proof. handler idiv_32. Qed.
Hint Resolve sane_mul_32 sane_div_32 sane_idiv_32 : sane.
Lemma sane_group3_rm32 e : sane true (fun _ => True) (group3_rm32 e).
Proof. handler group3_rm32. Qed.
Lemma sane_group3_rm8 e : sane true (fun _ => True) (group3_rm8 e).
Proof. handler group3_rm8. Qed.

(** * Double shifts *)

Lemma sane_shld_apply mr op r c : operand_ok mr op -> quiet (shld_apply op r c).
Proof. intros Ho. handler shld_apply. Qed.
Lemma sane_shrd_apply mr op r c : operand_ok mr op -> quiet (shrd_apply op r c).
Proof. intros Ho. handler shrd_apply. Qed.
Hint Resolve sane_shld_apply sane_shrd_apply : sane.
Lemma sane_shld_imm : quiet shld_imm.
Proof. handler shld_imm. Qed.
Lemma sane_shld_cl : quiet shld_cl.
Proof. handler shld_cl. Qed.
Lemma sane_shrd_imm : quiet shrd_imm.
Proof. handler shrd_imm. Qed.
Lemma sane_shrd_cl : quiet shrd_cl.
Proof. handler shrd_cl. Qed.

(** * Group 5 *)

Lemma sane_inc_dec_32 bad v sub : sane bad (in_range 32) (inc_dec_32 v sub).
Proof. handler inc_dec_32. Qed.
Lemma sane_inc_dec_16 bad v sub : sane bad (in_range 16) (inc_dec_16 v sub).
Proof. handler inc_dec_16. Qed.
Lemma sane_push_far_return bad : sane bad (fun _ => True) push_far_return.
Proof. handler push_far_return. Qed.
Lemma sane_far_ptr bad op r e : sane bad (fun os => in_range 16 os.1 /\ in_range 16 os.2) (far_ptr op r e).
Proof. handler far_ptr; by split. Qed.
Hint Resolve sane_inc_dec_32 sane_inc_dec_16 sane_push_far_return sane_far_ptr : sane.
Lemma sane_group5_rm16 mr op e : operand_ok mr op -> quiet (group5_rm16 mr op e).
Proof. intros Ho. handler group5_rm16. Qed.
Hint Resolve sane_group5_rm16 : sane.
Lemma sane_group5_rm32 e : quiet (group5_rm32 e).
Proof. handler group5_rm32. Qed.

(** * Byte-reversed moves and CPUID *)

Lemma swap_bytes_32_range v : in_range 32 (swap_bytes_32 v).
Proof. unfold swap_bytes_32. rng. Qed.
Lemma swap_bytes_16_range v : in_range 16 (swap_bytes_16 v).
Proof. unfold swap_bytes_16. rng. Qed.
Hint Resolve swap_bytes_32_range swap_bytes_16_range : sane.

Lemma seg_apply_range mr c op a : operand_ok mr op -> seg_apply c op = OMem32 a -> in_range 32 a.
Proof. intros Ho E. pose proof (seg_apply_ok mr c op Ho) as Hs. by rewrite E in Hs. Qed.

Lemma sane_movbe_load : quiet movbe_load.
Proof. handler movbe_load. Qed.
Lemma sane_movbe_store : quiet movbe_store.
Proof.
  unfold movbe_store. sane1. eapply sane_bind; [by apply sane_resolve_at|intros oc Ho]. do 2 sane1.
  destruct (seg_apply v0 oc.1) as [r|a] eqn:E; [sane_tac|]. pose proof (seg_apply_range _ _ _ _ Ho E). sane_tac.
Qed.
Lemma sane_cpuid : quiet cpuid.
Proof.
  unfold cpuid. eapply sane_bind; [apply sane_upd; intros c Hc; by split|intros _ _]. sane_tac.
Qed.
End exec.

(** * String instructions *)

Section string.
Context `{VectorState}.

(** * Operations that leave a register alone *)

Definition fixes {A} (i : nat) (x : X A) : Prop := forall s s' a, x s = (s', Ok a) -> gp (regs s'.1) !! i = gp (regs s.1) !! i.

Lemma fixes_ret {A} i (a : A) : fixes i (mret a).
Proof. by intros s s' a' [= <- _]. Qed.
Lemma fixes_bind {A B} i (x : X A) (f : A -> X B) : fixes i x -> (forall a, fixes i (f a)) -> fixes i (x ≫= f).
Proof.
  intros Hx Hf s s' b. unfold mbind, x_bind. specialize (Hx s). destruct (x s) as [s1 [a|t|]]; [|done|done].
  intros E. rewrite (Hf a _ _ _ E). by apply (Hx s1 a).
Qed.
Lemma fixes_cpu i : fixes i cpu.
Proof. by intros s s' a [= <- _]. Qed.
Lemma fixes_ask {A} i (f : Mmu -> res Trap A) : fixes i (ask f).
Proof. by intros s s' a [= <- _]. Qed.
Lemma fixes_act {A} i (f : St A) : fixes i (act f).
Proof. intros s s' a. unfold act. destruct (f s.2). by intros [= <- _]. Qed.
Lemma fixes_upd i f : (forall c, gp (regs (f c)) !! i = gp (regs c) !! i) -> fixes i (upd f).
Proof. intros Hf s s' a [= <- _]. apply Hf. Qed.

Lemma with_gp_other s i j v : i <> j -> gp (with_gp s j v) !! i = gp s !! i.
Proof. intros Hij. cbn. by rewrite list_lookup_insert_ne. Qed.

Create HintDb fixes.
Hint Resolve fixes_ret fixes_cpu fixes_ask fixes_act : fixes.

Lemma fixes_regs i : fixes i get_regs.
Proof. apply fixes_bind; auto with fixes. Qed.
Lemma fixes_flags i : fixes i get_flags.
Proof. apply fixes_bind; auto using fixes_regs with fixes. Qed.
Lemma fixes_put_flags i f : fixes i (put_flags f).
Proof. by apply fixes_upd. Qed.
Lemma fixes_w32 i r v : i <> reg32_index r -> fixes i (w32 r v).
Proof. intros Hi. apply fixes_upd. intros c. by apply with_gp_other. Qed.
Lemma fixes_w16 i r v : i <> reg16_index r -> fixes i (w16 r v).
Proof. intros Hi. apply fixes_upd. intros c. by apply with_gp_other. Qed.
Lemma fixes_alu i f a b : fixes i (alu f a b).
Proof.
  apply fixes_bind; [apply fixes_flags|intros fl]. destruct (f a b fl) as [[r wb] fl'].
  apply fixes_bind; [apply fixes_put_flags|intros _; apply fixes_ret].
Qed.
Hint Resolve fixes_regs fixes_flags fixes_put_flags fixes_alu : fixes.

Ltac fixes_tac := repeat first
  [ progress (cbv beta zeta)
  | solve [auto with fixes]
  | apply fixes_bind; [|intros ?]
  | case_match ].

Lemma fixes_str_di_addr i : fixes i str_di_addr.
Proof. unfold str_di_addr. fixes_tac. Qed.
Lemma fixes_str_si_addr i t : fixes i (str_si_addr t).
Proof. unfold str_si_addr. fixes_tac. Qed.
Lemma fixes_load_size i size a : fixes i (load_size size a).
Proof. apply fixes_ask. Qed.
Lemma fixes_store_size i size a v : fixes i (store_size size a v).
Proof. apply fixes_act. Qed.
Lemma fixes_acc_size i size : fixes i (acc_size size).
Proof. unfold acc_size, r8, r16, r32. fixes_tac. Qed.
Lemma fixes_advance i r16 r32 step : i <> reg16_index r16 -> i <> reg32_index r32 -> fixes i (str_advance r16 r32 step).
Proof. intros H1 H2. unfold str_advance. fixes_tac; [by apply fixes_w16|by apply fixes_w32]. Qed.
Hint Resolve fixes_str_di_addr fixes_str_si_addr fixes_load_size fixes_store_size fixes_acc_size : fixes.
Hint Extern 1 (fixes _ (str_advance _ _ _)) => apply fixes_advance; cbn; lia : fixes.

(** No string instruction changes ECX in its round. *)
Lemma fixes_movs size step : fixes 1 (movs_one size step).
Proof. unfold movs_one. fixes_tac. Qed.
Lemma fixes_stos size step : fixes 1 (stos_one size step).
Proof. unfold stos_one. fixes_tac. Qed.
Lemma fixes_lods size step : fixes 1 (lods_one size step).
Proof.
  unfold lods_one. do 2 (apply fixes_bind; [solve [auto with fixes]|intros ?]).
  apply fixes_bind; [|intros _; fixes_tac]. destruct size; apply fixes_upd; intros c; by apply with_gp_other.
Qed.
Lemma fixes_cmps size step : fixes 1 (cmps_one size step).
Proof. unfold cmps_one. fixes_tac. Qed.
Lemma fixes_scas size step : fixes 1 (scas_one size step).
Proof. unfold scas_one. fixes_tac. Qed.

(** * The loop *)

Definition ecx (s : Cpu * Mmu) : Z := get32 (regs s.1) Ecx.

(** What an operation that panics only if [bad] may give from a state, with
    [Q] of the state it ends in. *)
Definition outcome {A} (bad : bool) (Q : Cpu * Mmu -> Prop) (s : Cpu * Mmu) (r : (Cpu * Mmu) * res Trap A) : Prop :=
  match r with
  | (s', Ok _) => state_ok s' /\ frame s s' /\ Q s'
  | (s', Err _) => state_ok s' /\ frame s s'
  | (s', Panic) => bad = true \/ watch_full s'.2
  end.

Lemma outcome_frame {A} bad Q s s1 (r : (Cpu * Mmu) * res Trap A) : frame s s1 -> outcome bad Q s1 r -> outcome bad Q s r.
Proof.
  intros Hf. destruct r as [s' [a|t|]]; cbn.
  - intros (? & ? & ?). split_and!; [done|by transitivity s1|done].
  - intros (? & ?). split; [done|by transitivity s1].
  - done.
Qed.

Lemma put_ecx s v : state_ok s -> in_range 32 v -> ecx ((with_regs s.1 (set32 (regs s.1) Ecx v)), s.2) = v.
Proof.
  intros [(Hr & _) _] Hv. unfold ecx, get32, set32. cbn [fst regs with_regs]. rewrite gp_at_with; [done|].
  destruct Hr as [-> _]. cbn. lia.
Qed.

Lemma rep_loop_outcome bad rep step compare : sane bad (fun _ => True) step -> fixes 1 step -> forall fuel s, state_ok s ->
  ecx s <= Z.of_nat fuel -> outcome bad (fun s' => compare = false -> ecx s' = 0) s (rep_loop fuel rep step compare s).
Proof.
  intros Hstep Hfix. induction fuel as [|fuel IH]; intros s Hs Hfuel; pose proof (gp_at_range _ 1 (proj1 (proj1 Hs))) as Hr;
    cbn [rep_loop]; unfold mbind at 1, x_bind at 1, r32, mbind at 1, x_bind at 1, get_regs, mbind at 1, x_bind at 1, cpu, mret, x_ret;
    cbn beta iota zeta; fold (ecx s); destruct (ecx s =? 0) eqn:E0.
  - apply Z.eqb_eq in E0. by split_and!.
  - unfold ecx, get32 in *. cbn [reg32_index] in *. unfold in_range in Hr. lia.
  - apply Z.eqb_eq in E0. by split_and!.
  - unfold mbind at 1, x_bind at 1. specialize (Hstep s Hs). pose proof (Hfix s) as Hf1.
    destruct (step s) as [s1 [u|t|]]; [|exact Hstep|exact Hstep]. destruct Hstep as (Hs1 & Hfr & _).
    assert (ecx s1 = ecx s) as Ee. { unfold ecx, get32, gp_at. cbn [reg32_index]. by rewrite (Hf1 s1 u). }
    apply (outcome_frame _ _ _ s1 _ Hfr).
    set (s2 := (with_regs s1.1 (set32 (regs s1.1) Ecx (wrap32 (ecx s1 - 1))), s1.2)).
    assert (state_ok s2 /\ frame s1 s2) as [Hs2 Hfr2].
    { pose proof (sane_w32 false Ecx (wrap32 (ecx s1 - 1)) ltac:(rng) s1 Hs1) as (? & ? & _). done. }
    apply (outcome_frame _ _ _ s2 _ Hfr2).
    assert (ecx s2 = ecx s - 1) as E2.
    { unfold s2. rewrite put_ecx by (done || rng). rewrite Ee. unfold ecx, get32 in *. cbn [reg32_index] in *.
      rewrite wrap_small; [done|]. apply Z.eqb_neq in E0. unfold in_range in *. lia. }
    unfold get_flags, get_regs, mbind, x_bind, cpu, mret, x_ret, w32, upd. cbn beta iota zeta. cbn [fst snd].
    change (with_regs s1.1 (set32 (regs s1.1) Ecx (wrap32 (get32 (regs s1.1) Ecx - 1))), s1.2) with s2.
    destruct (compare && _) eqn:Ec; [|apply IH; [done|lia]].
    destruct compare; [|done]. cbn. by split_and!.
Qed.

Lemma sane_string_loop bad step compare : sane bad (fun _ => True) step -> fixes 1 step -> sane bad (fun _ => True) (string_loop step compare).
Proof.
  intros Hstep Hfix s Hs. unfold string_loop, mbind at 1, x_bind at 1, cpu at 1. cbn beta iota.
  destruct (rep_prefix (prefixes s.1)) as [rep|].
  - pose proof (gp_at_range _ 1 (proj1 (proj1 Hs))) as Hr. change (gp_at (regs s.1) 1) with (ecx s) in Hr. fold (ecx s).
    pose proof (rep_loop_outcome bad rep step compare Hstep Hfix (Z.to_nat (ecx s)) s Hs ltac:(unfold in_range in Hr; lia)) as Ho.
    unfold outcome in Ho. destruct (rep_loop _ _ _ _ s) as [s' [a|t|]]; [|done|done]. by destruct Ho as (? & ? & _).
  - exact (sane_bind bad (fun _ => True) (fun _ => True) step (fun _ => done) Hstep (fun _ _ => sane_ret _ _ _ I) s Hs).
Qed.

(** * The instructions *)

Lemma sane_str_di_addr bad : sane bad (in_range 32) str_di_addr.
Proof. unfold str_di_addr. sane_tac. Qed.
Lemma sane_str_si_addr bad t : sane bad (fun _ => True) (str_si_addr t).
Proof. unfold str_si_addr. sane_tac. Qed.
Lemma sane_string_size bad d : sane bad (fun _ => True) (string_size d).
Proof. unfold string_size. sane_tac. Qed.
Lemma sane_string_step_for bad size : sane bad (fun _ => True) (string_step_for size).
Proof. unfold string_step_for. sane_tac. Qed.
Lemma sane_str_advance bad r16 r32 step : sane bad (fun _ => True) (str_advance r16 r32 step).
Proof. unfold str_advance. sane_tac. Qed.

Definition size_width (size : StringSize) : Z := match size with B8 => 8 | W16 => 16 | D32 => 32 end.
Lemma sane_load_size bad size a : sane bad (in_range (size_width size)) (load_size size a).
Proof. destruct size; [apply sane_load8|apply sane_load16|apply sane_load32]. Qed.
Lemma sane_store_size bad size a v : in_range 32 a -> sane bad (fun _ => True) (store_size size a v).
Proof. intros Ha. destruct size; [by apply sane_store8|by apply sane_store16|by apply sane_store32]. Qed.
Lemma sane_acc_size bad size : sane bad (in_range (size_width size)) (acc_size size).
Proof. destruct size; [apply sane_r8|apply sane_r16|apply sane_r32]. Qed.
Lemma sub_size_ok size : alu_ok (size_width size) (sub_size size).
Proof. destruct size; [apply alu_ok_8|apply alu_ok_16|apply alu_ok_32]; set_solver. Qed.
Hint Resolve sane_str_di_addr sane_str_si_addr sane_string_size sane_string_step_for sane_str_advance sane_load_size sane_store_size
  sane_acc_size sub_size_ok sane_alu : sane.

Lemma sane_movs bad size step : sane bad (fun _ => True) (movs_one size step).
Proof. unfold movs_one. sane_tac. Qed.
Lemma sane_stos bad size step : sane bad (fun _ => True) (stos_one size step).
Proof. unfold stos_one. sane_tac. Qed.
Lemma sane_lods bad size step : sane bad (fun _ => True) (lods_one size step).
Proof. unfold lods_one. do 2 sane1. destruct size; cbn [size_width] in *; sane_tac. Qed.
Lemma sane_cmps bad size step : sane bad (fun _ => True) (cmps_one size step).
Proof. unfold cmps_one. sane_tac. Qed.
Lemma sane_scas bad size step : sane bad (fun _ => True) (scas_one size step).
Proof. unfold scas_one. sane_tac. Qed.

Ltac string_tac := sane1; sane1; apply sane_string_loop.
Lemma sane_string_movs bad d : sane bad (fun _ => True) (string_movs d).
Proof. unfold string_movs. string_tac; [apply sane_movs|apply fixes_movs]. Qed.
Lemma sane_string_stos bad d : sane bad (fun _ => True) (string_stos d).
Proof. unfold string_stos. string_tac; [apply sane_stos|apply fixes_stos]. Qed.
Lemma sane_string_lods bad d : sane bad (fun _ => True) (string_lods d).
Proof. unfold string_lods. string_tac; [apply sane_lods|apply fixes_lods]. Qed.
Lemma sane_string_cmps bad d : sane bad (fun _ => True) (string_cmps d).
Proof. unfold string_cmps. string_tac; [apply sane_cmps|apply fixes_cmps]. Qed.
Lemma sane_string_scas bad d : sane bad (fun _ => True) (string_scas d).
Proof. unfold string_scas. string_tac; [apply sane_scas|apply fixes_scas]. Qed.
End string.
