(* ===== verification/X86SaneStep.v ===== *)
(** The dispatch and a whole step of the x86 interpreter keep well-formed states
    (X86Sane.v), against the interface [ExecutorsOk] of the executors that are
    not modelled. *)

From S2P Require Import Prelude Mmu MmuMemory MmuState Regs X86Alu X86Decode X86Cpu X86Exec X86Step X86Sane X86SaneCpu X86SaneExec.

(** What the x87, MMX, SSE and AVX executors and the 64-bit mode promise: they
    keep well-formed states, and panic only if [bad]. *)
Class ExecutorsOk `{VS : VectorState, OI : !OtherIsa} (bad : bool) : Prop := {
  fpu_sane op e : sane bad (fun _ => True) (fpu_dispatch op e);
  mmx_sane op e : sane bad (fun _ => True) (mmx_dispatch op e);
  sse_sane op e : sane bad (fun _ => True) (sse_dispatch op e);
  sse_int_sane op e : sane bad (fun _ => True) (sse_dispatch_xmm_int op e);
  avx_sane op e : sane bad (fun _ => True) (avx_dispatch op e);
}.

#[export] Hint Resolve sane_done sane_alu : sane.

Section ops.
Context `{VS : VectorState, OI : !OtherIsa}.

Notation quiet x := (sane false (fun _ => True) x).
Tactic Notation "handler" reference(x) := unfold x; sane_tac.

Hint Resolve sane_inc_dec_32 sane_inc_dec_16 sane_test_flags sane_push_far_return swap_bytes_32_range : sane.

Lemma sane_op_inc_dec op sub : quiet (op_inc_dec op sub).
Proof. handler op_inc_dec. Qed.
Lemma sane_op_pushad : quiet op_pushad.
Proof. handler op_pushad. Qed.
Lemma sane_op_popad : quiet op_popad.
Proof. handler op_popad. Qed.
Lemma sane_op_push_r op : quiet (op_push_r op).
Proof. handler op_push_r. Qed.
Lemma sane_op_pop_r op : quiet (op_pop_r op).
Proof. handler op_pop_r. Qed.
Lemma sane_op_push_imm : quiet op_push_imm.
Proof. handler op_push_imm. Qed.
Lemma sane_op_push_imm8 : quiet op_push_imm8.
Proof. handler op_push_imm8. Qed.

Lemma sane_imul_flags w szp prod : quiet (imul_flags w szp prod).
Proof. handler imul_flags. Qed.
Hint Resolve sane_imul_flags : sane.
Lemma sane_op_imul_imm : quiet op_imul_imm.
Proof. handler op_imul_imm. Qed.
Lemma sane_op_imul_imm8 : quiet op_imul_imm8.
Proof. handler op_imul_imm8. Qed.

Lemma sane_op_jcc op : quiet (op_jcc op).
Proof. handler op_jcc. Qed.
Lemma sane_op_xchg8 : quiet op_xchg8.
Proof. handler op_xchg8. Qed.
Lemma sane_op_xchg32 : quiet op_xchg32.
Proof. handler op_xchg32. Qed.
Lemma sane_op_xchg_eax op : quiet (op_xchg_eax op).
Proof. handler op_xchg_eax. Qed.
Lemma sane_op_cbw : quiet op_cbw.
Proof. handler op_cbw. Qed.
Lemma sane_op_cwd : quiet op_cwd.
Proof. handler op_cwd. Qed.
Lemma sane_op_pushf : quiet op_pushf.
Proof. handler op_pushf. Qed.
Lemma sane_op_popf : quiet op_popf.
Proof. handler op_popf. Qed.
Lemma sane_op_sahf : quiet op_sahf.
Proof. handler op_sahf. Qed.
Lemma sane_op_lahf : quiet op_lahf.
Proof. handler op_lahf. Qed.
Lemma seg_translate_range c a : in_range 32 (seg_translate c a).
Proof. unfold seg_translate. rng. Qed.
Hint Resolve seg_translate_range : sane.
Lemma sane_moffs : sane false (in_range 32) moffs.
Proof. handler moffs. Qed.
Hint Resolve sane_moffs : sane.
Lemma sane_op_mov_al_moffs : quiet op_mov_al_moffs.
Proof. handler op_mov_al_moffs. Qed.
Lemma sane_op_mov_eax_moffs : quiet op_mov_eax_moffs.
Proof. handler op_mov_eax_moffs. Qed.
Lemma sane_op_mov_moffs_al : quiet op_mov_moffs_al.
Proof. handler op_mov_moffs_al. Qed.
Lemma sane_op_mov_moffs_eax : quiet op_mov_moffs_eax.
Proof. handler op_mov_moffs_eax. Qed.
Lemma sane_op_xlat : quiet op_xlat.
Proof. handler op_xlat. Qed.
Lemma sane_op_test_al : quiet op_test_al.
Proof. handler op_test_al. Qed.
Lemma sane_op_test_eax : quiet op_test_eax.
Proof. handler op_test_eax. Qed.
Lemma sane_op_mov_r8_imm op : quiet (op_mov_r8_imm op).
Proof. handler op_mov_r8_imm. Qed.
Lemma sane_op_mov_r_imm op : quiet (op_mov_r_imm op).
Proof. handler op_mov_r_imm. Qed.

Lemma sane_return_to a : in_range 32 a -> quiet (return_to a).
Proof. intros Ha. handler return_to. Qed.
Hint Resolve sane_return_to : sane.
Lemma sane_op_retn_imm : quiet op_retn_imm.
Proof. handler op_retn_imm. Qed.
Lemma sane_op_retn : quiet op_retn.
Proof. handler op_retn. Qed.

(** The debug assertion of C6 and C7 panics. *)
Lemma sane_debug_assert b : sane true (fun _ => True) (debug_assert b).
Proof. handler debug_assert. Qed.
Hint Resolve sane_debug_assert : sane.
Lemma sane_op_mov_rm8_imm : sane true (fun _ => True) op_mov_rm8_imm.
Proof. handler op_mov_rm8_imm. Qed.
Lemma sane_op_mov_rm_imm : sane true (fun _ => True) op_mov_rm_imm.
Proof. handler op_mov_rm_imm. Qed.

Lemma sane_copy_display n : forall e, quiet (copy_display n e).
Proof. induction n as [|n IH]; intros e; cbn [copy_display]; sane_tac. Qed.
Hint Resolve sane_copy_display : sane.
Lemma sane_op_enter : quiet op_enter.
Proof. handler op_enter. Qed.
Lemma sane_op_leave : quiet op_leave.
Proof. handler op_leave. Qed.
Lemma sane_op_int : quiet op_int.
Proof. handler op_int. Qed.
Lemma sane_op_call : quiet op_call.
Proof. handler op_call. Qed.
Lemma sane_op_jmp : quiet op_jmp.
Proof. handler op_jmp. Qed.
Lemma sane_op_jmp8 : quiet op_jmp8.
Proof. handler op_jmp8. Qed.
Lemma sane_op_loop op : quiet (op_loop op).
Proof. handler op_loop. Qed.
Lemma sane_op_jcxz : quiet op_jcxz.
Proof. handler op_jcxz. Qed.
Lemma sane_upd_flags f : quiet (upd_flags f).
Proof. handler upd_flags. Qed.
Lemma sane_op_salc : quiet op_salc.
Proof. handler op_salc. Qed.
Lemma sane_op_group4 e : quiet (op_group4 e).
Proof. handler op_group4. Qed.
Lemma sane_op_far_call e : quiet (op_far_call e).
Proof. handler op_far_call. Qed.
Lemma sane_op_far_jmp e : quiet (op_far_jmp e).
Proof. handler op_far_jmp. Qed.
Lemma sane_op_far_ret op e : quiet (op_far_ret op e).
Proof. handler op_far_ret. Qed.

Lemma selector_value_range c f : Cpu_wf c ->
  in_range 16 (if code16 c then segment_selector c (seg_from_reg_field f) else win32_segment_selector f).
Proof. intros Hc. case_match; [by apply selector_range|]. unfold win32_segment_selector. by repeat case_match. Qed.
Lemma sane_op_mov_rm_sreg : quiet op_mov_rm_sreg.
Proof.
  unfold op_mov_rm_sreg. do 2 sane1. pose proof (selector_value_range v0 (reg v) Hv0) as Hr. revert Hr.
  generalize (if code16 v0 then segment_selector v0 (seg_from_reg_field (reg v)) else win32_segment_selector (reg v)).
  intros x Hx. sane_tac.
Qed.
Lemma sane_op_mov_sreg_rm : quiet op_mov_sreg_rm.
Proof. handler op_mov_sreg_rm. Qed.

Lemma sane_op_cmov op2 : quiet (op_cmov op2).
Proof. handler op_cmov. Qed.
Lemma sane_op_jcc_near op2 : quiet (op_jcc_near op2).
Proof. handler op_jcc_near. Qed.
Lemma sane_op_setcc op2 : quiet (op_setcc op2).
Proof. handler op_setcc. Qed.
Lemma sane_op_rdtsc : quiet op_rdtsc.
Proof. handler op_rdtsc. Qed.
Lemma sane_test_bit v b : quiet (test_bit v b).
Proof. handler test_bit. Qed.
Hint Resolve sane_test_bit : sane.

(** A change of one bit keeps the word. *)
Definition bit_op_ok (f : Z -> Z -> Z) : Prop := forall v b, in_range 32 v -> 0 <= b < 32 -> in_range 32 (f v b).
Lemma one_bit_range b : 0 <= b < 32 -> in_range 32 (Z.shiftl 1 b).
Proof.
  intros Hb. rewrite Z.shiftl_1_l. split; [apply Z.pow_nonneg; lia|]. apply Z.pow_lt_mono_r; lia.
Qed.
Lemma bit_set_ok : bit_op_ok bit_set.
Proof. intros v b Hv Hb. pose proof (one_bit_range b Hb). unfold bit_set. rng. Qed.
Lemma bit_reset_ok : bit_op_ok bit_reset.
Proof. intros v b Hv Hb. unfold bit_reset. rng. Qed.
Lemma bit_flip_ok : bit_op_ok bit_flip.
Proof. intros v b Hv Hb. pose proof (one_bit_range b Hb). unfold bit_flip. rng. Qed.
Lemma bit_index v : 0 <= Z.land v 31 < 32.
Proof. apply (land_mask v 5). lia. Qed.
Hint Resolve bit_set_ok bit_reset_ok bit_flip_ok bit_index : sane.
Hint Extern 1 (in_range _ (_ (Z.land _ _))) => match goal with H : bit_op_ok _ |- _ => apply H end : sane.

Lemma sane_op_bt_r change : (forall f, change = Some f -> bit_op_ok f) -> quiet (op_bt_r change).
Proof.
  intros Hc. unfold op_bt_r. do 4 sane1. pose proof (bit_index v2) as Hb. destruct change as [f|].
  - pose proof (Hc f eq_refl v1 (Z.land v2 31) Hv1 Hb). cbv iota. sane_tac.
  - cbv iota. sane_tac.
Qed.
Lemma sane_op_group8 : quiet op_group8.
Proof.
  unfold op_group8. do 4 sane1. pose proof (bit_index v2) as Hb.
  pose proof (bit_set_ok _ _ Hv1 Hb). pose proof (bit_reset_ok _ _ Hv1 Hb). pose proof (bit_flip_ok _ _ Hv1 Hb). sane_tac.
Qed.

Lemma alu_sub_32_ok : alu_ok 32 alu_sub_32.
Proof. apply alu_ok_32. set_solver. Qed.
Lemma alu_add_32_ok : alu_ok 32 alu_add_32.
Proof. apply alu_ok_32. set_solver. Qed.
Hint Resolve alu_sub_32_ok alu_add_32_ok : sane.
Lemma sane_op_cmpxchg : quiet op_cmpxchg.
Proof. handler op_cmpxchg. Qed.
Lemma sane_op_xadd : quiet op_xadd.
Proof. handler op_xadd. Qed.
Lemma sane_op_bswap op2 : quiet (op_bswap op2).
Proof. handler op_bswap. Qed.
Lemma sane_op_imul_r : quiet op_imul_r.
Proof. handler op_imul_r. Qed.
Lemma sane_op_movx8 f : (forall v, in_range 8 v -> in_range 32 (f v)) -> quiet (op_movx8 f).
Proof. intros Hf. handler op_movx8. Qed.
Lemma sane_op_movx16 f : (forall v, in_range 16 v -> in_range 32 (f v)) -> quiet (op_movx16 f).
Proof. intros Hf. handler op_movx16. Qed.

Lemma trailing_zeros_range n : forall v, 0 <= trailing_zeros n v <= Z.of_nat n.
Proof. induction n as [|n IH]; intros v; cbn [trailing_zeros]; [lia|]. specialize (IH (Z.shiftr v 1)). case_match; lia. Qed.
Lemma bit_scan_range (b : bool) v : in_range 32 v -> in_range 32 (if b then trailing_zeros 32 v else Z.log2 v).
Proof.
  intros Hv. destruct b; [pose proof (trailing_zeros_range 32 v)|]; unfold in_range in *; [lia|].
  pose proof (Z.log2_nonneg v). pose proof (Z.log2_le_mono v (2 ^ 32 - 1)). change (Z.log2 (2 ^ 32 - 1)) with 31 in *. lia.
Qed.
Lemma sane_op_bit_scan op2 : quiet (op_bit_scan op2).
Proof.
  unfold op_bit_scan. do 4 sane1. pose proof (bit_scan_range (op2 =? 0xBC) v1 Hv1) as Hr. revert Hr.
  generalize (if op2 =? 0xBC then trailing_zeros 32 v1 else Z.log2 v1). intros x Hx. sane_tac.
Qed.
End ops.

#[export] Hint Resolve sane_alu_rm32_r32 sane_alu_r32_rm32 sane_alu_eax_imm32 sane_alu_rm8_r8 sane_alu_r8_rm8 sane_alu_al_imm8
  sane_group1_rm8_imm8 sane_group1_rm32_imm32 sane_group1_rm32_imm8 sane_test_rm8_r8 sane_mov_rm8_r8 sane_mov_rm32_r32 sane_mov_r8_rm8
  sane_mov_r32_rm32 sane_lea_r32_m sane_pop_rm32 sane_group2_rm32 sane_group2_rm8 sane_shld_imm sane_shld_cl sane_shrd_imm sane_shrd_cl
  sane_group5_rm32 sane_movbe_load sane_movbe_store sane_cpuid : sane.
#[export] Hint Resolve sane_string_movs sane_string_stos sane_string_lods sane_string_cmps sane_string_scas : sane.
#[export] Hint Resolve sane_op_inc_dec sane_op_pushad sane_op_popad sane_op_push_r sane_op_pop_r sane_op_push_imm sane_op_push_imm8
  sane_op_imul_imm sane_op_imul_imm8 sane_op_jcc sane_op_xchg8 sane_op_xchg32 sane_op_xchg_eax sane_op_cbw sane_op_cwd sane_op_pushf
  sane_op_popf sane_op_sahf sane_op_lahf sane_op_mov_al_moffs sane_op_mov_eax_moffs sane_op_mov_moffs_al sane_op_mov_moffs_eax
  sane_op_xlat sane_op_test_al sane_op_test_eax sane_op_mov_r8_imm sane_op_mov_r_imm sane_op_retn_imm sane_op_retn sane_op_enter
  sane_op_leave sane_op_int sane_op_call sane_op_jmp sane_op_jmp8 sane_op_loop sane_op_jcxz sane_upd_flags sane_op_salc sane_op_group4
  sane_op_far_call sane_op_far_jmp sane_op_far_ret sane_op_mov_rm_sreg sane_op_mov_sreg_rm : sane.
#[export] Hint Resolve sane_op_cmov sane_op_jcc_near sane_op_setcc sane_op_rdtsc sane_op_group8 sane_op_cmpxchg sane_op_xadd sane_op_bswap
  sane_op_imul_r sane_op_bit_scan : sane.

Section dispatch.
Context {VS : VectorState} {OI : OtherIsa}.
Context (bad : bool) {EO : ExecutorsOk bad}.

Notation may x := (sane bad (fun _ => True) x).

(** The head of a dispatch arm that cannot panic. *)
Ltac arm := solve [apply sane_bad; auto 2 with sane nocore].

Lemma sane_op_les_vex op e : may (op_les_vex op e).
Proof. unfold op_les_vex. sane_tac; apply avx_sane. Qed.

Lemma sane_bits0 : may (op_bt_r None).
Proof. apply sane_bad, sane_op_bt_r. done. Qed.
Lemma sane_bits f : bit_op_ok f -> may (op_bt_r (Some f)).
Proof. intros Hf. apply sane_bad, sane_op_bt_r. by intros f' [= <-]. Qed.
Lemma zero_extend w v : 0 <= w <= 32 -> in_range w v -> in_range 32 v.
Proof. apply in_range_mono. Qed.
Lemma sane_0f38 e : may (op3 ← fetch_imm8;
  match op3 with 0xF0 => movbe_load | 0xF1 => movbe_store | _ => undefined e (Z.lor 0x0F3800 op3) end).
Proof. sane1. apply sane_bad. sane_tac. Qed.

Lemma sane_dispatch_0f e : may (dispatch_0f e).
Proof.
  unfold dispatch_0f. eapply sane_bind; [sane_leaf|intros op2 _].
  repeat match goal with |- sane _ _ (if ?b then _ else _) => destruct b end;
    try first [arm|apply sse_sane|sane1; [apply sse_int_sane|apply mmx_sane]].
  { sane1. case_match; [apply sse_int_sane|apply mmx_sane]. }
  repeat match goal with
    | |- sane _ _ (match ?x with _ => _ end) => is_var x; destruct x
    end; try first [apply sane_undefined|arm|apply sane_0f38|apply sane_bits0];
    first [apply sane_bits; by auto using bit_set_ok, bit_reset_ok|apply sane_bad];
    first [apply sane_op_movx8; intros v Hv; rng|apply sane_op_movx16; intros v Hv; rng|sane_tac].
Qed.

(** * One-byte opcodes *)

(** The opcodes with a debug assertion or a signed division. *)
Definition may_panic (op : Z) : bool := bool_decide (op ∈ [0xC6; 0xC7; 0xF6; 0xF7]).

Lemma sane_dispatch_alu op f8 f32 : alu_ok 8 f8 -> alu_ok 32 f32 -> may (dispatch_alu op f8 f32).
Proof. intros H8 H32. unfold dispatch_alu. repeat case_match; arm. Qed.

Lemma alu_table_ok op f8 f32 : alu_table op = Some (f8, f32) -> alu_ok 8 f8 /\ alu_ok 32 f32.
Proof. unfold alu_table. repeat case_match; intros [= <- <-]; (split; [apply alu_ok_8|apply alu_ok_32]; set_solver). Qed.

Lemma alu_test_32_ok : alu_ok 32 alu_test_32.
Proof. apply alu_ok_32. set_solver. Qed.
Hint Resolve alu_test_32_ok : sane.

Lemma sane_true {A} b (Q : A -> Prop) x : b = true -> sane true Q x -> sane b Q x.
Proof. by intros ->. Qed.

Lemma sane_dispatch op e : sane (bad || may_panic op) (fun _ => True) (dispatch op e).
Proof.
  assert (forall x : X StepOk, may x -> sane (bad || may_panic op) (fun _ => True) x) as Hmay.
  { intros x Hx. destruct bad; cbn [orb]; [done|by apply sane_bad]. }
  unfold dispatch. destruct (alu_table op) as [[f8 f32]|] eqn:E.
  - apply alu_table_ok in E as [H8 H32]. apply Hmay. destruct (Z.land op 7 <? 6); [by apply sane_dispatch_alu|].
    repeat match goal with |- sane _ _ (match ?x with _ => _ end) => is_var x; destruct x end;
      first [apply sane_undefined|arm|apply sane_dispatch_0f].
  - clear E. repeat match goal with |- sane _ _ (if ?b then _ else _) => destruct b; [apply Hmay; first [arm|apply fpu_sane]|] end.
    clear Hmay.
    repeat match goal with |- sane _ _ (match ?x with _ => _ end) => is_var x; destruct x end.
    all: first
      [ apply sane_undefined | arm | apply sane_trap
      | apply sane_true; [cbn; apply orb_true_r|auto 2 using sane_group3_rm8, sane_group3_rm32, sane_op_mov_rm8_imm, sane_op_mov_rm_imm]
      | cbn; rewrite orb_false_r; apply sane_op_les_vex ].
Qed.
End dispatch.

(** * The processor without executors *)

#[export] Instance no_executors_ok : ExecutorsOk false.
Proof. split; intros op e; apply sane_trap. Qed.

Lemma blank_inv : inv blank.
Proof.
  unfold blank. apply (keeps_op (OpMap 0x3000 0x2000 3)); [split; done| |done].
  apply (keeps_op (OpMap 0x1000 0x1000 5)); [split; done|apply inv_new|done].
Qed.

Lemma cpu_new_wf : Cpu_wf cpu_new.
Proof.
  assert (forall w, 0 < w -> in_range w 0) as H0 by (intros w Hw; split; [done|by apply Z.pow_pos_nonneg; lia]).
  split_and!; [split_and!; try done; apply Forall_replicate, H0; lia| |by apply H0].
  split_and!; [| |done]; repeat first [apply Forall_cons_2|apply Forall_nil_2]; apply H0; lia.
Qed.

Lemma sample_ok code : fits_page code = true -> state_ok (sample code).
Proof.
  unfold fits_page, sample. intros Hl. assert (state_ok (started code)) as Hs.
  { split.
    - apply with_regs_wf; [apply cpu_new_wf|]. apply set_esp_wf; [|done]. apply with_eip_wf; [apply cpu_new_wf|done].
    - apply (keeps_op (OpWriteInitializer 0x1000 _)); [done|apply blank_inv|]. cbn [run_op]. fold (loaded code).
      by destruct (loaded code) as [m [u|t|]]. }
  pose proof (sane_push32 true RET_SENTINEL _ Hs) as Hp.
  destruct (loaded code).2; try done. destruct (push32 RET_SENTINEL (started code)) as [s' [u|t|]]; [apply Hp|done..].
Qed.
