(* ===== verification/X86Safe.v ===== *)
(** Whole steps and runs of the x86 interpreter: a step keeps well-formed
    states and stays inside writable pages whatever the guest does, panics for
    four opcodes at most, and a run ends within its instruction limit. *)

From S2P Require Import Prelude Mmu MmuMemory MmuState Regs X86Alu X86Decode X86Cpu X86Exec X86Step X86Sane X86SaneCpu X86SaneExec X86SaneStep.

(** * In front of the opcode *)

Section front.
Context {VS : VectorState} {OI : OtherIsa}.

(** The probes name registers of the snapshot. *)
Definition probes_ok (c : Cpu) : Prop :=
  let i := instruments c in
  Forall (fun p => 0 <= p.1.1 < 8) (snapshot_probes i) /\
  match snapshot_block_dump i with Some (_, r, _) => 0 <= r < 8 | None => True end.

Lemma inv_record e m : inv m -> inv (record_entry e m).
Proof. intros [? ? ? ? ? ?]. by split. Qed.

Lemma sane_record bad e : sane bad (fun _ => True) (act (modify (record_entry e))).
Proof.
  apply sane_act; [intros m Hm _; by apply inv_record|intros m; split; [by apply confined_pages|done]|intros m Hm; by split].
Qed.
Lemma sane_trace bad e : sane bad (fun _ => True) (trace_entry e).
Proof. apply sane_upd. intros c Hc. by split. Qed.
Lemma sane_reset bad p : sane bad (fun _ => True) (upd (fun c => with_prefixes c p)).
Proof. apply sane_upd. intros c Hc. by split. Qed.
Hint Resolve sane_record sane_trace sane_reset : sane.

Lemma sane_prefix_loop bad n : sane bad (fun _ => True) (prefix_loop n).
Proof. induction n as [|n IH]; cbn [prefix_loop]; sane_tac. Qed.
Hint Resolve sane_prefix_loop : sane.

Lemma snapshot_index_ok {A} (l : list A) i : 0 <= i < len l -> exists v : A, index (E:=Trap) l i = Ok v.
Proof.
  intros Hi. unfold index, get. unfold len in *. replace (0 <=? i) with true by lia.
  destruct (lookup_lt_is_Some_2 l (Z.to_nat i)) as [v Hv]; [lia|]. rewrite Hv. by exists v.
Qed.

Lemma probe_values_ok m r probes : Forall (fun p => 0 <= p.1.1 < 8) probes -> exists vs, probe_values m (snapshot r) probes = Ok vs.
Proof.
  unfold probe_values. induction 1 as [|[[i off] w] probes Hi _ [vs IH]]; cbn [mapM_res]; [by eexists|].
  destruct (snapshot_index_ok (snapshot r) i Hi) as [v ->]. cbn [mbind res_bind]. rewrite IH. by eexists.
Qed.

(** The watchpoints change the captured buffers only, and read registers that
    exist if the probes are well formed. *)
Lemma watch_entry_case e s : exists i, (watch_entry e s).1 = (with_instruments s.1 i, s.2).
Proof.
  destruct s as [c m]. assert ((c, m) = (with_instruments c (instruments c), m)) as Ec by (by destruct c).
  unfold watch_entry. repeat (case_match; try (exists (instruments c); exact Ec)). all: by eexists.
Qed.

Lemma watch_entry_ok e s : probes_ok s.1 -> (watch_entry e s).2 = Ok tt.
Proof.
  destruct s as [c m]. intros [Hp Hd]. cbn [fst] in *. unfold watch_entry.
  destruct (bool_decide (register_watchpoints _ = ∅)); [done|]. destruct (_ <=? _); [done|]. destruct (negb _); [done|].
  destruct (probe_values_ok m (regs c) _ Hp) as [vs ->]. cbn [mbind res_bind].
  set (values := if bool_decide (snapshot_probes _ = []) then _ else _). assert (exists v, values = Ok v) as [v ->] by (unfold values; destruct (bool_decide _); by eexists).
  destruct (snapshot_block_dump (instruments c)) as [[[x r] n]|]; [|done]. destruct (x =? e); [|done].
  by destruct (snapshot_index_ok (snapshot (regs c)) r Hd) as [b ->].
Qed.

Lemma index_no_err {A} (l : list A) i t : index (E:=Trap) l i <> Err t.
Proof. unfold index. by destruct (get l i). Qed.

Lemma probe_values_no_err m snap probes t : probe_values m snap probes <> Err t.
Proof.
  unfold probe_values. induction probes as [|[[i off] w] probes IH]; cbn [mapM_res]; [done|].
  pose proof (index_no_err snap i) as Hi. destruct (index snap i) as [v|t'|]; [|intros _; by apply (Hi t')|done].
  cbn [mbind res_bind]. by destruct (mapM_res _ probes).
Qed.

Lemma watch_entry_no_err e s t : (watch_entry e s).2 <> Err t.
Proof.
  destruct s as [c m]. unfold watch_entry.
  destruct (bool_decide (register_watchpoints _ = ∅)); [done|]. destruct (_ <=? _); [done|]. destruct (negb _); [done|].
  set (values := if bool_decide (snapshot_probes _ = []) then _ else _).
  assert (forall t, values <> Err t) as Hv.
  { intros t'. unfold values. destruct (bool_decide _); [done|]. pose proof (probe_values_no_err m (snapshot (regs c)) (snapshot_probes (instruments c))) as Hp.
    destruct (probe_values _ _ _) as [v|t2|]; [done|intros _; by apply (Hp t2)|done]. }
  destruct values as [v|t'|]; [|intros _; by apply (Hv t')|done].
  destruct (snapshot_block_dump (instruments c)) as [[[x r] n]|]; [|done]. destruct (x =? e); [|done].
  pose proof (index_no_err (snapshot (regs c)) r) as Hi. destruct (index _ r) as [b|t'|]; [done|intros _; by apply (Hi t')|done].
Qed.

Lemma sane_watch e : sane true (fun _ => True) (watch_entry e).
Proof.
  intros s Hs. destruct (watch_entry_case e s) as [i E]. destruct (watch_entry e s) as [s' r]. cbn [fst] in E. subst s'.
  assert (state_ok (with_instruments s.1 i, s.2) /\ frame s (with_instruments s.1 i, s.2)) as [? ?] by (split; [split; apply Hs|by split]).
  destruct r; [done|done|by left].
Qed.

(** * Prefixes *)

Definition is_prefix (b : Z) : bool := bool_decide (b ∈ [0x66; 0x67; 0xF3; 0xF2; 0x26; 0x2E; 0x36; 0x3E; 0x64; 0x65; 0xF0]).

(** The opcode byte of the instruction at [e], behind at most [n] prefixes. *)
Fixpoint opcode_at (m : Mmu) (e : Z) (n : nat) : res Trap Z :=
  b ← fetch_x8 m e;
  match n with
  | O => Ok (u8 b)
  | S n => if is_prefix (u8 b) then opcode_at m (wrap32 (e + 1)) n else Ok (u8 b)
  end.

Lemma prefix_case b p : if is_prefix b then exists p', prefix b p = Some p' else prefix b p = None.
Proof.
  unfold is_prefix. destruct (bool_decide _) eqn:E.
  - apply bool_decide_eq_true in E. rewrite !elem_of_cons in E. repeat destruct E as [->|E]; [by eexists..|by apply elem_of_nil in E].
  - apply bool_decide_eq_false in E. unfold prefix. repeat (case_match; try done); exfalso; apply E; subst; set_solver.
Qed.

Lemma fetch_imm8_result s : (fetch_imm8 s).2 = (b ← fetch_x8 s.2 (eip (regs s.1)); Ok (u8 b)).
Proof.
  unfold fetch_imm8, get_eip, get_regs, mbind, x_bind, cpu, ask, mret, x_ret. cbn. by destruct (fetch_x8 _ _).
Qed.

Lemma fetch_result n : forall s, ((prefix_loop n ≫= fun _ => fetch_imm8) s).2 = opcode_at s.2 (eip (regs s.1)) n.
Proof.
  induction n as [|n IH]; intros s; cbn [prefix_loop opcode_at].
  - apply fetch_imm8_result.
  - unfold mbind at 1 2 3, x_bind at 1 2 3, cpu, ask. cbn [fst snd]. pose proof (fetch_imm8_result s) as Hi. revert Hi.
    destruct (fetch_x8 s.2 (eip (regs s.1))) as [b|t|]; cbn [mbind res_bind]; [|done|done]. intros Hi.
    pose proof (prefix_case (u8 b) (prefixes s.1)) as Hp. destruct (is_prefix (u8 b)).
    + destruct Hp as [p' ->]. apply (IH (with_regs (with_prefixes s.1 p') (with_eip (regs s.1) (wrap32 (eip (regs s.1) + 1))), s.2)).
    + rewrite Hp. exact Hi.
Qed.
End front.

#[export] Hint Resolve sane_record sane_trace sane_reset sane_watch sane_prefix_loop : sane.

Section step.
Context {VS : VectorState} {OI : OtherIsa}.

Lemma sane_fetch_opcode : sane true (fun eo => in_range 32 eo.1) fetch_opcode.
Proof. unfold fetch_opcode. sane_tac. Qed.

Lemma opcode_at_pages m m' n : pages m = pages m' -> forall e, opcode_at m e n = opcode_at m' e n.
Proof.
  intros E. induction n as [|n IH]; intros e; cbn [opcode_at]; unfold fetch_x8; rewrite E; [done|].
  destruct (pages m' !! page_index e); [|done]. cbn [ok_or mbind res_bind]. destruct (negb _); [done|]. cbn [mbind res_bind].
  by rewrite IH.
Qed.

Lemma opcode_at_no_panic m n : forall e, opcode_at m e n <> Panic.
Proof.
  induction n as [|n IH]; intros e; cbn [opcode_at]; pose proof (fetch_x8_case m e); destruct (fetch_x8 m e); cbn [mbind res_bind]; try done.
  destruct (is_prefix _); [apply IH|done].
Qed.

(** What the first part of a step finds: the first byte that is no prefix. *)
Lemma fetch_opcode_result s : let e := eip (regs s.1) in let r := (op ← opcode_at s.2 e 8; Ok (e, op)) in
  (fetch_opcode s).2 = r \/ ((fetch_opcode s).2 = Panic /\ ~ probes_ok s.1).
Proof.
  cbv zeta. set (e := eip (regs s.1)). unfold fetch_opcode.
  rewrite (x_bind_ok _ _ s (with_prefixes s.1 no_prefixes, s.2) tt) by done.
  rewrite (x_bind_ok _ _ _ (with_prefixes s.1 no_prefixes, s.2) e) by done.
  rewrite (x_bind_ok _ _ _ (with_prefixes s.1 no_prefixes, record_entry e s.2) tt) by done.
  unfold trace_entry. erewrite (x_bind_ok (upd _) _ _ (_, _) tt) by done. cbn [fst snd].
  set (s1 := (with_instruments _ _, record_entry e s.2)).
  pose proof (watch_entry_ok e s1) as Hok. destruct (watch_entry_case e s1) as [i Ei].
  destruct (watch_entry e s1) as [s2 r2] eqn:E2. cbn [fst snd] in *. subst s2.
  pose proof (watch_entry_no_err e s1) as Hne. rewrite E2 in Hne. destruct r2 as [[]|t|]; [|by destruct (Hne t)|].
  - left. rewrite (x_bind_ok _ _ _ _ _ E2). set (s2 := (with_instruments s1.1 i, s1.2)). pose proof (fetch_result 8 s2) as Hf.
    rewrite (opcode_at_pages s2.2 s.2) in Hf by done. change (eip (regs s2.1)) with e in Hf. rewrite <- Hf.
    unfold mbind, x_bind. destruct (prefix_loop 8 s2) as [s3 [u|t|]]; [|done|done].
    by destruct (fetch_imm8 s3) as [s4 [op|t|]].
  - right. split; [unfold mbind, x_bind; by rewrite E2|]. intros Hp. by discriminate (Hok Hp).
Qed.

Lemma sane_restate {A} bad (Q : A -> Prop) e x : sane bad Q x -> sane bad Q (restate e x).
Proof.
  intros Hx s Hs. specialize (Hx s Hs). unfold restate. destruct (x s) as [s' [a|t|]]; [done| |done]. by destruct t.
Qed.

Definition count_of (s : Cpu * Mmu) : Z := instr_count s.1.
Definition limit_of (s : Cpu * Mmu) : Z := instr_limit s.1.

(** What a step leaves alone: [frame] but for the counter. *)
Record stepped (s s' : Cpu * Mmu) : Prop := {
  st_mem : confined s.2 s'.2;
  st_watches : watches s'.2 = watches s.2;
  st_limit : limit_of s' = limit_of s;
  st_long64 : long64 s'.1 = long64 s.1;
}.

Lemma frame_stepped s s' : frame s s' -> stepped s s'.
Proof. intros []. by split. Qed.
#[export] Instance stepped_trans : Transitive stepped.
Proof. intros s1 s2 s3 [] []. split; [by etransitivity|congruence..]. Qed.

Lemma count_instr_case s : state_ok s ->
  match count_instr s with
  | (s', Ok _) => state_ok s' /\ stepped s s' /\ count_of s' = count_of s + 1
  | (s', Err _) => False
  | (_, Panic) => count_of s = 2 ^ 64 - 1
  end.
Proof.
  intros [(Hr & Hg & Hn) Hm]. unfold count_instr, mbind, x_bind, cpu. fold (count_of s).
  destruct (count_of s =? 2 ^ 64 - 1) eqn:E; [by apply Z.eqb_eq|]. unfold upd. split_and!; [|by split; try apply confined_pages|done].
  split; [|done]. split_and!; [done|done|]. apply Z.eqb_neq in E. unfold in_range, count_of in *. cbn. lia.
Qed.
End step.

Section safe.
Context {VS : VectorState} {OI : OtherIsa} (bad : bool) {EO : ExecutorsOk bad}.

(** The causes of a panic of a step from [s] that leaves [s']: an executor
    outside the model, the counter of the watched stores at its end, the
    instruction counter at its end, probes of registers that do not exist, or
    an opcode with a debug assertion or a signed division. *)
Definition panic_cause (s s' : Cpu * Mmu) : Prop :=
  bad = true \/ watch_full s'.2 \/ count_of s = 2 ^ 64 - 1 \/ ~ probes_ok s.1 \/
  exists op, opcode_at s.2 (eip (regs s.1)) 8 = Ok op /\ may_panic op = true.

Lemma step_ia32_case s : state_ok s ->
  match step_ia32 s with
  | (s', Ok _) => state_ok s' /\ stepped s s' /\ count_of s' = count_of s + 1
  | (s', Err _) => state_ok s' /\ stepped s s' /\ count_of s <= count_of s' <= count_of s + 1
  | (s', Panic) => panic_cause s s'
  end.
Proof.
  intros Hs. unfold step_ia32, mbind at 1, x_bind at 1. pose proof (sane_fetch_opcode s Hs) as Hf.
  pose proof (fetch_opcode_result s) as Hr. cbv zeta in Hr. unfold panic_cause.
  destruct (fetch_opcode s) as [s1 [[e op]|t|]]; cbn [fst snd] in *.
  2:{ destruct Hf as [Hs1 Hfr]. split_and!; [done|by apply frame_stepped|unfold count_of; rewrite (fr_count _ _ Hfr); lia..]. }
  2:{ destruct Hr as [Hr|[_ Hp]]; [|tauto]. pose proof (opcode_at_no_panic s.2 8 (eip (regs s.1))) as Hn.
      by destruct (opcode_at _ _ _). }
  destruct Hf as (Hs1 & Hfr & _). destruct Hr as [Hr|[? _]]; [|done].
  assert (opcode_at s.2 (eip (regs s.1)) 8 = Ok op) as Eop by (destruct (opcode_at _ _ _); by simplify_eq/=).
  pose proof (count_instr_case s1 Hs1) as Hc. unfold mbind, x_bind. unfold count_of in *. rewrite (fr_count _ _ Hfr) in Hc.
  destruct (count_instr s1) as [s2 [u|t|]]; [|done|tauto].
  destruct Hc as (Hs2 & Hst & Hn). pose proof (sane_restate _ _ e _ (sane_dispatch bad op e) s2 Hs2) as Hd.
  destruct (restate e (dispatch op e) s2) as [s3 [a|t|]].
  - destruct Hd as (Hs3 & Hfr3 & _). split_and!; [done| |rewrite (fr_count _ _ Hfr3); lia].
    transitivity s1; [by apply frame_stepped|]. transitivity s2; [done|by apply frame_stepped].
  - destruct Hd as (Hs3 & Hfr3). split_and!; [done| |rewrite (fr_count _ _ Hfr3); lia..].
    transitivity s1; [by apply frame_stepped|]. transitivity s2; [done|by apply frame_stepped].
  - destruct Hd as [Hb|Hw]; [|tauto].
    apply orb_true_iff in Hb as [Hb|Hb]; [tauto|]. do 4 right. by exists op.
Qed.
End safe.

(** * The theorems *)

Section theorems.
Context {VS : VectorState} {OI : OtherIsa} (bad : bool) {EO : ExecutorsOk bad}.

Lemma step_keeps s s' r : state_ok s -> long64 s.1 = false -> step s = (s', r) -> r <> Panic ->
  state_ok s' /\ long64 s'.1 = false /\ limit_of s' = limit_of s /\ count_of s <= count_of s' <= count_of s + 1 /\
  (forall ok, r = Ok ok -> count_of s' = count_of s + 1) /\ confined s.2 s'.2.
Proof.
  intros Hs Hl E Hr. unfold step, mbind, x_bind, cpu in E. rewrite Hl in E. pose proof (step_ia32_case bad s Hs) as H.
  rewrite E in H. destruct r as [ok|t|]; [| |done]; destruct H as (Hs' & Hst & Hn); pose proof (st_long64 _ _ Hst);
    (split_and!; [done|congruence|by apply st_limit|lia|lia|done|by apply st_mem]).
Qed.

(** C21: type preservation. Whatever the guest does, trapping half-way through an
    instruction included, a 32-bit step that does not panic ends in a
    well-formed state: the registers, the instruction pointer, the segments
    and the selector table keep their widths, the memory its invariant; the
    mode, the watched ranges and the instruction limit are as before, and the
    counter has advanced by one, if at all, and by one for sure when the
    instruction completes. The executors outside the model are taken to do the
    same ([ExecutorsOk]). *)
Theorem step_keeps_state s s' r :
  state_ok s -> long64 s.1 = false -> step s = (s', r) -> r <> Panic ->
  state_ok s' /\ long64 s'.1 = false /\ watches s'.2 = watches s.2 /\ instr_limit s'.1 = instr_limit s.1 /\
  instr_count s.1 <= instr_count s'.1 <= instr_count s.1 + 1 /\
  (forall ok, r = Ok ok -> instr_count s'.1 = instr_count s.1 + 1).
Proof.
  intros Hs Hl E Hr. destruct (step_keeps s s' r Hs Hl E Hr) as (Hs' & Hl' & Hlim & Hcnt & Hok & _).
  split_and!; [done|done| |exact Hlim|apply Hcnt|apply Hcnt|exact Hok].
  unfold step, mbind, x_bind, cpu in E. rewrite Hl in E. pose proof (step_ia32_case bad s Hs) as H.
  rewrite E in H. destruct r; [apply H..|done].
Qed.

(** C22: isolation. A guest instruction of the 32-bit interpreter cannot touch a
    page without write permission, nor any page's permissions, nor map or
    unmap one; and it cannot crash the host, unless ranges are watched and the
    step has brought the counter of the watched stores to its end, the
    instruction counter is at its end, a probe names no register, or the opcode
    is one of the four with a signed division or a debug assertion. The x87,
    MMX, SSE and AVX executors (isa_fpu.rs, isa_mmx.rs, isa_sse.rs, isa_avx.rs)
    are not modelled: that they are isolated in the same way, and panic only if
    [bad], is assumed ([ExecutorsOk]). *)
Theorem step_isolated s s' r :
  state_ok s -> long64 s.1 = false -> step s = (s', r) ->
  match r with
  | Panic => panic_cause bad s s'
  | _ => forall p,
      match pages s.2 !! p with
      | None => pages s'.2 !! p = None
      | Some pg => exists pg', pages s'.2 !! p = Some pg' /\ p_perm pg' = p_perm pg /\
          (perm_contains (p_perm pg) perm_W = false -> pg' = pg)
      end
  end.
Proof.
  intros Hs Hl E. unfold step, mbind, x_bind, cpu in E. rewrite Hl in E. pose proof (step_ia32_case bad s Hs) as H.
  rewrite E in H. destruct r as [ok|t|]; [apply H..|done].
Qed.

(** C23: errors. When the byte behind the prefixes, the opcode, cannot be fetched,
    the step raises that fault (unless a probe names no register) without
    counting an instruction. Otherwise a step that traps has counted the
    instruction, and an undefined opcode is reported with the address of the
    instruction it belongs to, prefixes included. Behind the opcode an
    undefined opcode can also stand for an operand that could not be fetched
    ([displacement_off_the_end]). Of the executors that are not modelled it is
    assumed that they keep states well formed ([ExecutorsOk]). *)
Theorem step_faults s s' r :
  state_ok s -> long64 s.1 = false -> step s = (s', r) ->
  let e := eip (regs s.1) in
  match opcode_at s.2 e 8 with
  | Err f => (probes_ok s.1 -> r = Err f) /\ (r <> Panic -> r = Err f /\ instr_count s'.1 = instr_count s.1)
  | _ => forall t, r = Err t -> instr_count s'.1 = instr_count s.1 + 1 /\ forall a o, t = UndefinedOpcode a o -> a = e
  end.
Proof.
  intros Hs Hl E e. unfold step, mbind at 1, x_bind at 1, cpu in E. rewrite Hl in E.
  unfold step_ia32, mbind at 1, x_bind at 1 in E. pose proof (sane_fetch_opcode s Hs) as Hf.
  pose proof (fetch_opcode_result s) as Hr. cbv zeta in Hr. fold e in Hr.
  destruct (fetch_opcode s) as [s1 [[e1 op]|f|]]; cbn [fst snd] in *.
  - destruct Hr as [Hr|[? _]]; [|done]. destruct (opcode_at s.2 e 8) as [op'|f|]; [|done..]. injection Hr as -> ->.
    intros t ->. destruct Hf as (Hs1 & Hfr & _). pose proof (count_instr_case s1 Hs1) as Hc. unfold mbind, x_bind, count_of in *.
    destruct (count_instr s1) as [s2 [u|t2|]]; [|done|done]. destruct Hc as (Hs2 & _ & Hn).
    pose proof (sane_dispatch bad op' e s2 Hs2) as Hd. unfold restate in E. cbn [fst snd] in E.
    destruct (dispatch op' e s2) as [s3 [a|t3|]]; [done| |done]. destruct Hd as [_ Hfr3].
    rewrite <- (fr_count _ _ Hfr), <- Hn, <- (fr_count _ _ Hfr3). destruct t3; simplify_eq/=; split; try done. by intros a o [= <- _].
  - injection E as <- <-. destruct Hf as [_ Hfr]. destruct Hr as [Hr|[? _]]; [|done].
    destruct (opcode_at s.2 e 8) as [op'|f'|]; simplify_eq/=. split; [done|]. intros _. split; [done|apply Hfr].
  - injection E as <- <-. destruct Hr as [Hr|[_ Hp]]; [|by destruct (opcode_at s.2 e 8)].
    pose proof (opcode_at_no_panic s.2 8 e). by destruct (opcode_at s.2 e 8).
Qed.

(** * Runs *)

(** Steps that go on, of a machine that is neither at the sentinel nor at the
    limit. *)
Inductive steps : Cpu * Mmu -> Cpu * Mmu -> Prop :=
| steps_refl s : steps s s
| steps_go s s1 s2 : eip (regs s.1) <> RET_SENTINEL -> instr_count s.1 < instr_limit s.1 ->
    step s = (s1, Ok Continued) -> steps s1 s2 -> steps s s2.

(** How a run that has come to [s] ends, in [s'] with [r]. *)
Inductive run_end (s : Cpu * Mmu) : Cpu * Mmu -> res Trap unit -> Prop :=
| end_sentinel : eip (regs s.1) = RET_SENTINEL -> run_end s s (Ok tt)
| end_limit : eip (regs s.1) <> RET_SENTINEL -> instr_limit s.1 <= instr_count s.1 ->
    run_end s s (Err (InstructionLimitExceeded (eip (regs s.1)) (instr_count s.1)))
| end_halted s' : eip (regs s.1) <> RET_SENTINEL -> instr_count s.1 < instr_limit s.1 ->
    step s = (s', Ok Halted) -> run_end s s' (Ok tt)
| end_trap s' t : eip (regs s.1) <> RET_SENTINEL -> instr_count s.1 < instr_limit s.1 ->
    step s = (s', Err t) -> run_end s s' (Err t)
| end_panic s' : eip (regs s.1) <> RET_SENTINEL -> instr_count s.1 < instr_limit s.1 ->
    step s = (s', Panic) -> panic_cause bad s s' -> run_end s s' Panic.

Definition run_kept (s s' : Cpu * Mmu) : Prop := state_ok s' /\ confined s.2 s'.2 /\ count_of s' <= Z.max (count_of s) (limit_of s).

Lemma run_kept_refl s : state_ok s -> run_kept s s.
Proof. intros Hs. split_and!; [done|done|lia]. Qed.

(** One step of a run, whatever its outcome but a panic. *)
Lemma step_run_kept s s1 r : state_ok s -> long64 s.1 = false -> count_of s < limit_of s -> step s = (s1, r) -> r <> Panic ->
  run_kept s s1.
Proof.
  intros Hs Hl Hn E Hr. destruct (step_keeps s s1 r Hs Hl E Hr) as (Hs1 & _ & _ & Hcnt & _ & Hconf). split_and!; [done|done|lia].
Qed.

Lemma step_panic s s1 : state_ok s -> long64 s.1 = false -> step s = (s1, Panic) -> panic_cause bad s s1.
Proof.
  intros Hs Hl E. unfold step, mbind, x_bind, cpu in E. rewrite Hl in E. pose proof (step_ia32_case bad s Hs) as H. by rewrite E in H.
Qed.

Lemma run_case n : forall s, state_ok s -> long64 s.1 = false -> limit_of s - count_of s <= Z.of_nat n ->
  exists s1 s' r, run (S n) s = Some (s', r) /\ steps s s1 /\ run_end s1 s' r /\ (r <> Panic -> run_kept s s').
Proof.
  induction n as [|n IH]; intros s Hs Hl Hn; cbn [run]; fold (count_of s) (limit_of s).
  all: destruct (Z.eqb_spec (eip (regs s.1)) RET_SENTINEL) as [He|He];
    [exists s, s, (Ok tt); split_and!; [done|apply steps_refl|by apply end_sentinel|intros _; by apply run_kept_refl]|].
  all: destruct (Z.leb_spec (limit_of s) (count_of s)) as [Hc|Hc];
    [exists s, s; eexists; split_and!; [done|apply steps_refl|by apply end_limit|intros _; by apply run_kept_refl]|].
  { lia. }
  destruct (step s) as [s1 r1] eqn:E. pose proof (step_run_kept s s1 r1 Hs Hl Hc E) as Hk. destruct r1 as [[]|t|].
  - specialize (Hk ltac:(done)). destruct (step_keeps s s1 _ Hs Hl E ltac:(done)) as (Hs1 & Hl1 & Hlim & _ & Hok & _).
    specialize (Hok _ eq_refl). destruct (IH s1 Hs1 Hl1) as (s2 & s' & r & Er & Hst & Hend & Hr); [rewrite Hlim, Hok; lia|].
    exists s2, s', r. split_and!; [done|by eapply steps_go|done|]. intros Hp. destruct (Hr Hp) as (? & ? & Hcnt).
    destruct Hk as (_ & ? & _). split_and!; [done|by etransitivity|]. rewrite Hlim, Hok in Hcnt. lia.
  - exists s, s1, (Ok tt). split_and!; [done|apply steps_refl|by apply end_halted|]. intros _. by apply Hk.
  - exists s, s1, (Err t). split_and!; [done|apply steps_refl|by apply end_trap|]. intros _. by apply Hk.
  - exists s, s1, Panic. split_and!; [done|apply steps_refl| |done]. apply end_panic; [done..|]. by apply step_panic.
Qed.

Lemma run_mono n : forall s r m, run n s = Some r -> (n <= m)%nat -> run m s = Some r.
Proof.
  induction n as [|n IH]; intros s r m; [done|]. destruct m as [|m]; [lia|]. cbn [run]. intros E Hm.
  destruct (_ =? RET_SENTINEL); [done|]. destruct (_ <=? _); [done|].
  destruct (step s) as [s1 [[]|t|]]; try done. apply (IH s1); [done|lia].
Qed.

(** C24: a run ends. Whatever the program, after at most as many steps as the limit
    leaves the run loop has returned, and it returns as the steps say
    ([run_end]): it has gone on for some steps, below the limit and off the
    sentinel, to a state that is at the sentinel, or at the limit (the error
    then carries that state's address and count), or whose step halts, traps
    (the run ends with that trap) or panics for one of the causes of
    [panic_cause]. Unless it panicked, the counter is at most the limit (or
    where it was), the state is well formed, and no page without write
    permission has changed. The executors that are not modelled are assumed to
    be isolated and to keep states well formed ([ExecutorsOk]). *)
Theorem run_ends s :
  state_ok s -> long64 s.1 = false ->
  exists s1 s' r, (forall n, (Z.to_nat (instr_limit s.1 - instr_count s.1) < n)%nat -> run n s = Some (s', r)) /\
    steps s s1 /\ run_end s1 s' r /\
    (r <> Panic -> state_ok s' /\ confined s.2 s'.2 /\ instr_count s'.1 <= Z.max (instr_count s.1) (instr_limit s.1)).
Proof.
  intros Hs Hl. fold (limit_of s) (count_of s).
  destruct (run_case (Z.to_nat (limit_of s - count_of s)) s Hs Hl ltac:(lia)) as (s1 & s' & r & E & Hst & Hend & Hr).
  exists s1, s', r. split_and!; [|done|done|done]. intros n Hn. by apply (run_mono _ _ _ n E).
Qed.
End theorems.

(** * At programs *)

(** [push eax]. *)
Lemma step_keeps_state_witness :
  state_ok (step (sample [0x50])).1 /\ instr_count (step (sample [0x50])).1.1 = 1.
Proof.
  split.
  - apply (step_keeps_state false (sample [0x50]) _ (step (sample [0x50])).2);
      [by apply sample_ok; vm_compute|by vm_compute|by destruct (step _)|by vm_compute].
  - vm_compute. reflexivity.
Defined.

(** [mov byte [0x1000], 7] aims at the code itself. *)
Definition self_modify : Cpu * Mmu := sample [0xC6; 0x05; 0x00; 0x10; 0x00; 0x00; 0x07].
Lemma step_isolated_witness :
  (step self_modify).2 = Err (WriteProtectFault 0x1000) /\ pages (step self_modify).1.2 !! 1 = pages self_modify.2 !! 1.
Proof.
  assert (state_ok self_modify) as Hs by (by apply sample_ok; vm_compute).
  pose proof (step_isolated false self_modify (step self_modify).1 (step self_modify).2 Hs) as H.
  assert ((step self_modify).2 = Err (WriteProtectFault 0x1000)) as E by (vm_compute; reflexivity).
  split; [exact E|]. rewrite E in H. specialize (H ltac:(vm_compute; reflexivity)). rewrite <- E in H.
  specialize (H ltac:(by destruct (step self_modify)) 1).
  destruct (pages self_modify.2 !! 1) as [pg|] eqn:Ep; [|exact H]. destruct H as (pg' & -> & _ & Hw). f_equal. apply Hw.
  assert (p_perm <$> pages self_modify.2 !! 1 = Some 5) as E5 by (vm_compute; reflexivity).
  rewrite Ep in E5. injection E5 as ->. reflexivity.
Defined.

(** An undefined opcode behind two prefixes. *)
Definition undefined_opcode : Cpu * Mmu := sample [0x66; 0xF3; 0x0F; 0xFF].
Lemma step_faults_witness :
  (step undefined_opcode).2 = Err (UndefinedOpcode 0x1000 0xFF) /\ instr_count (step undefined_opcode).1.1 = 1.
Proof.
  assert (state_ok undefined_opcode) as Hs by (by apply sample_ok; vm_compute).
  assert ((step undefined_opcode).2 = Err (UndefinedOpcode 0x1000 0xFF)) as E by (vm_compute; reflexivity).
  split; [exact E|].
  pose proof (step_faults false undefined_opcode (step undefined_opcode).1 (step undefined_opcode).2 Hs ltac:(vm_compute; reflexivity)
    ltac:(by destruct (step undefined_opcode))) as H.
  cbv zeta in H. replace (opcode_at undefined_opcode.2 _ 8) with (Ok (E:=Trap) 0x0F) in H by (vm_compute; reflexivity).
  rewrite E in H. destruct (H _ eq_refl) as [-> _]. vm_compute. reflexivity.
Defined.

(** A load of [eax] from a 32-bit displacement in the last three bytes of the page: the displacement
    cannot be fetched, and the trap is an undefined opcode. *)
Definition at_page_end : Cpu * Mmu :=
  let s := sample [] in
  (with_regs s.1 (with_eip (regs s.1) 0x1FFD), (write_initializer 0x1FFD (List.map byte_of [0x8B; 0x05; 0x00]) s.2).1).
Example displacement_off_the_end :
  opcode_at at_page_end.2 0x1FFD 8 = Ok 0x8B /\ fetch_x8 at_page_end.2 0x2000 = Err (MemoryFault 0x2000) /\
  (step at_page_end).2 = Err (UndefinedOpcode 0x1FFD 0).
Proof. split_and!; vm_compute; reflexivity. Qed.

(** [jmp $] with room for a hundred instructions. *)
Definition endless : Cpu * Mmu := let s := sample [0xEB; 0xFE] in (set_instr_limit 100 s.1, s.2).
Lemma run_ends_witness :
  exists s', run 101 endless = Some (s', Err (InstructionLimitExceeded 0x1000 100)).
Proof.
  assert (state_ok endless) as Hs.
  { assert (state_ok (sample [0xEB; 0xFE])) as [Hc Hm] by (by apply sample_ok; vm_compute). by split. }
  destruct (run_ends false endless Hs ltac:(vm_compute; reflexivity)) as (s1 & s' & r & Hn & _).
  exists s'. rewrite (Hn 101%nat) by (apply Nat.ltb_lt; vm_compute; reflexivity). f_equal. f_equal.
  assert (snd <$> run 101 endless = Some (Err (InstructionLimitExceeded 0x1000 100))) as E by (vm_compute; reflexivity).
  rewrite (Hn 101%nat) in E by (apply Nat.ltb_lt; vm_compute; reflexivity). by injection E.
Defined.
