(* ===== verification/X86Spec.v ===== *)
(** What instructions of the x86 interpreter compute, against definitions that
    do not follow the code: the 32-bit addressing forms of X86Decode.v against
    the table of the manual; multiplication and division of X86Exec.v against
    the integers, with their overflow behaviour; and REP STOS, which fills
    memory, also when a page stops it half-way. *)

From S2P Require Import Prelude Mmu MmuMemory MmuState Regs X86Alu X86Decode X86Cpu X86Exec X86Step X86Sane X86SaneCpu X86SaneExec X86SaneStep.

(** * Addressing forms *)

(** A SIB byte follows in the forms with [rm] 4; its fields. *)
Definition has_sib (mr : ModRm) : bool := rm mr =? 4.
Definition sib_of (mr : ModRm) (bytes : list byte) : Sib :=
  sib_decode (match bytes with b :: _ => u8 b | [] => 0 end).
(** The number of the base register. *)
Definition base_number (mr : ModRm) (bytes : list byte) : Z := if has_sib mr then base (sib_of mr bytes) else rm mr.
(** No base register: the place of EBP without displacement. *)
Definition no_base (mr : ModRm) (bytes : list byte) : bool := (mode mr =? 0) && (base_number mr bytes =? 5).

(** The width of the displacement in bytes. *)
Definition disp_width (mr : ModRm) (bytes : list byte) : Z :=
  if mode mr =? 1 then 1 else if (mode mr =? 2) || no_base mr bytes then 4 else 0.
(** What comes after the ModR/M byte. *)
Definition form_length (mr : ModRm) (bytes : list byte) : Z := Z.b2z (has_sib mr) + disp_width mr bytes.

Definition base_value (mr : ModRm) (bytes : list byte) (r : Regs) : Z :=
  if no_base mr bytes then 0 else get32 r (reg32_from_bits (base_number mr bytes)).
(** ESP is no index. *)
Definition index_value (mr : ModRm) (bytes : list byte) (r : Regs) : Z :=
  let s := sib_of mr bytes in
  if has_sib mr && negb (sib_index s =? 4) then get32 r (reg32_from_bits (sib_index s)) * 2 ^ scale s else 0.
(** The displacement is signed. *)
Definition disp_value (mr : ModRm) (bytes : list byte) : Z :=
  let o := Z.b2z (has_sib mr) in let w := disp_width mr bytes in
  if w =? 0 then 0 else sint (8 * w) (from_le (sub bytes o (o + w))).

Definition effective_address (mr : ModRm) (bytes : list byte) (r : Regs) : Z :=
  wrap32 (base_value mr bytes r + index_value mr bytes r + disp_value mr bytes).

Lemma read_imm32_eq bytes o : 0 <= o -> read_imm32 bytes o =
  if o + 4 <=? len bytes then Ok (from_le (sub bytes o (o + 4))) else Err unreachable_trap.
Proof.
  intros Ho. unfold read_imm32, get_range. replace (0 <=? o) with true by lia. replace (o <=? o + 4) with true by lia. cbn [andb].
  by destruct (o + 4 <=? len bytes).
Qed.

Lemma sub_one (bytes : list byte) o b : get bytes o = Some b -> sub bytes o (o + 1) = [b].
Proof.
  unfold get, sub. destruct (0 <=? o) eqn:E; [|done]. intros Hb. replace (Z.to_nat (o + 1 - o)) with 1%nat by lia.
  by rewrite (drop_S _ _ _ Hb).
Qed.

(** A byte of displacement. *)
Lemma read_disp8 {A} (k : Z -> A) bytes o : 0 <= o ->
  (b ← ok_or (get bytes o) unreachable_trap; Ok (k (u8 b))) =
  if o + 1 <=? len bytes then Ok (k (from_le (sub bytes o (o + 1)))) else Err unreachable_trap.
Proof.
  intros Ho. destruct (get bytes o) as [b|] eqn:E; cbn [ok_or mbind res_bind].
  - rewrite (sub_one _ _ _ E). unfold get in E. destruct (0 <=? o); [|done]. apply lookup_lt_Some in E.
    unfold len. replace (o + 1 <=? Z.of_nat (length bytes)) with true by lia. do 2 f_equal. cbn. lia.
  - unfold get in E. replace (0 <=? o) with true in E by lia. apply lookup_ge_None in E.
    unfold len. by replace (o + 1 <=? Z.of_nat (length bytes)) with false by lia.
Qed.

(** Four bytes of it. *)
Lemma read_disp32 {A} (k : Z -> A) bytes o : 0 <= o ->
  (d ← read_imm32 bytes o; Ok (k d)) =
  if o + 4 <=? len bytes then Ok (k (from_le (sub bytes o (o + 4)))) else Err unreachable_trap.
Proof. intros Ho. rewrite read_imm32_eq by done. by destruct (o + 4 <=? len bytes). Qed.

Lemma wrap_mod_eq x y k : x = y + k * 2 ^ 32 -> wrap32 x = wrap32 y.
Proof. intros ->. unfold wrap. by rewrite Z_mod_plus_full. Qed.

(** The number of the base register and the index term of a form. *)
Definition kind_base (k : BaseKind) : Z := match k with BRm rm => rm | BSib s => base s end.
Definition kind_index (k : BaseKind) (r : Regs) : Z := match k with BRm _ => 0 | BSib s => sib_index_term s r end.

Definition kind_width (mode base : Z) : Z :=
  if mode =? 1 then 1 else if (mode =? 2) || ((mode =? 0) && (base =? 5)) then 4 else 0.
Definition kind_disp (w : Z) (bytes : list byte) (o : Z) : Z :=
  if w =? 0 then 0 else sint (8 * w) (from_le (sub bytes o (o + w))).
Definition kind_address (mode : Z) (k : BaseKind) (o : Z) (bytes : list byte) (r : Regs) : Z :=
  wrap32 ((if (mode =? 0) && (kind_base k =? 5) then 0 else at_bits r (kind_base k)) + kind_index k r +
          kind_disp (kind_width mode (kind_base k)) bytes o).

Lemma disp32_range (bytes : list byte) o : 0 <= o -> o + 4 <= len bytes -> in_range 32 (from_le (sub bytes o (o + 4))).
Proof. intros Ho Hl. apply from_le_in_range; [lia|]. rewrite length_sub by lia. lia. Qed.

(** A word and its signed value are the same address. *)
Lemma sint32_mod x : exists k, sint 32 x = x + k * 2 ^ 32.
Proof. unfold sint. case_match; [exists 0|exists (-1)]; lia. Qed.
Lemma wrap_mod x : exists k, wrap32 x = x + k * 2 ^ 32.
Proof. exists (- (x / 2 ^ 32)). unfold wrap. pose proof (Z.div_mod x (2 ^ 32)). lia. Qed.

Lemma displaced_address k d r : wrap32 (at_bits r (kind_base k) + kind_index k r + d) = displaced k d r.
Proof.
  destruct k as [b|s]; cbn [kind_base kind_index displaced]; [by rewrite Z.add_0_r|]. by rewrite wrap_add_wrap.
Qed.
Lemma displaced_mod k d d' n r : d = d' + n * 2 ^ 32 -> displaced k d r = displaced k d' r.
Proof. intros ->. rewrite <- !displaced_address. apply (wrap_mod_eq _ _ n). lia. Qed.

Lemma kind_disp_0 bytes o : kind_disp 0 bytes o = 0.
Proof. done. Qed.
Lemma kind_disp_1 bytes o : kind_disp 1 bytes o = sint 8 (from_le (sub bytes o (o + 1))).
Proof. done. Qed.
Lemma kind_disp_4 bytes o : kind_disp 4 bytes o = sint 32 (from_le (sub bytes o (o + 4))).
Proof. done. Qed.

Lemma resolve_kind_table mr k o bytes r : mode mr = 0 \/ mode mr = 1 \/ mode mr = 2 -> Regs_wf r -> 0 <= o <= len bytes ->
  resolve_kind mr k o bytes r =
    if o + kind_width (mode mr) (kind_base k) <=? len bytes
    then Ok (OMem32 (kind_address (mode mr) k o bytes r), o + kind_width (mode mr) (kind_base k))
    else Err unreachable_trap.
Proof.
  intros Hm Hr Ho. unfold resolve_kind, kind_address, kind_width. destruct Hm as [->|[->| ->]]; cbn [Z.eqb andb orb Pos.eqb].
  - destruct k as [b|s]; cbn [kind_base kind_index].
    + destruct (b =? 5).
      * rewrite (read_disp32 (fun d => (OMem32 d, o + 4))) by lia. destruct (Z.leb_spec (o + 4) (len bytes)); [|done].
        do 3 f_equal. rewrite kind_disp_4. destruct (sint32_mod (from_le (sub bytes o (o + 4)))) as [n ->].
        rewrite (wrap_mod_eq _ (from_le (sub bytes o (o + 4))) n) by lia. symmetry. apply wrap_small, disp32_range; lia.
      * replace (o + 0 <=? len bytes) with true by lia. rewrite kind_disp_0, !Z.add_0_r. rewrite wrap_small; [done|by apply at_bits_range].
    + unfold sib_base_at_mod0. destruct (base s =? 5); cbn [mbind res_bind].
      * rewrite read_imm32_eq by lia. destruct (Z.leb_spec (o + 4) (len bytes)); [|done]. cbn [mbind res_bind].
        do 3 f_equal. rewrite kind_disp_4. destruct (sint32_mod (from_le (sub bytes o (o + 4)))) as [n ->].
        symmetry. apply (wrap_mod_eq _ _ n). lia.
      * replace (o + 0 <=? len bytes) with true by lia. rewrite kind_disp_0, !Z.add_0_r. done.
  - rewrite (read_disp8 (fun b => (OMem32 (displaced k (sign_ext_8_to_32 b) r), o + 1))) by lia.
    destruct (Z.leb_spec (o + 1) (len bytes)); [|done]. do 3 f_equal. rewrite kind_disp_1. rewrite displaced_address.
    destruct (wrap_mod (sint 8 (from_le (sub bytes o (o + 1))))) as [n E]. by apply (displaced_mod _ _ _ n).
  - rewrite (read_disp32 (fun d => (OMem32 (displaced k d r), o + 4))) by lia.
    destruct (Z.leb_spec (o + 4) (len bytes)); [|done]. do 3 f_equal. rewrite kind_disp_4. rewrite displaced_address.
    destruct (sint32_mod (from_le (sub bytes o (o + 4)))) as [n E]. symmetry. by apply (displaced_mod _ _ _ n).
Qed.

(** C25: every 32-bit ModR/M form. A register form names its register and takes
    no further byte; a memory form takes the bytes of the table, traps without
    them, and is the sum of base, scaled index and signed displacement
    modulo 2^32: no base in the displacement-only forms, ESP is no index. *)
Theorem modrm32_table mr bytes r :
  modrm_ok mr -> Regs_wf r ->
  resolve_modrm32 mr bytes r =
    if mode mr =? 3 then Ok (OReg32 (reg32_from_bits (rm mr)), 0)
    else if form_length mr bytes <=? len bytes then Ok (OMem32 (effective_address mr bytes r), form_length mr bytes)
    else Err (UndefinedOpcode 0 0).
Proof.
  intros Hmr Hr. unfold resolve_modrm32. destruct (mode mr =? 3) eqn:E3; [done|]. pose proof (memory_modes mr Hmr E3) as Hm.
  unfold base_kind, form_length, disp_width, no_base, effective_address, base_value, index_value, disp_value, disp_width, no_base, base_number, has_sib.
  destruct (rm mr =? 4).
  - destruct bytes as [|b bytes]; cbn [mbind res_bind fst snd].
    { replace (_ <=? len []) with false; [done|]. symmetry. apply Z.leb_gt. change (len []) with 0. cbn [Z.b2z]. repeat case_match; lia. }
    rewrite resolve_kind_table by (done || unfold len; cbn [length]; lia).
    unfold kind_address, kind_width, kind_disp. cbn [kind_base kind_index Z.b2z andb].
    change (sib_of mr (b :: bytes)) with (sib_decode (u8 b)). set (sb := sib_decode (u8 b)).
    destruct (_ <=? len _); [|done]. do 3 f_equal. unfold sib_index_term. destruct (sib_index sb =? 4); cbn [negb]; [done|].
    rewrite Z.shiftl_1_l. change (at_bits r (sib_index sb)) with (get32 r (reg32_from_bits (sib_index sb))).
    destruct (wrap_mod (get32 r (reg32_from_bits (sib_index sb)) * 2 ^ scale sb)) as [n ->]. apply (wrap_mod_eq _ _ n). unfold at_bits. lia.
  - cbn [mbind res_bind fst snd]. rewrite resolve_kind_table by (done || unfold len; lia).
    unfold kind_address, kind_width, kind_disp. cbn [kind_base kind_index Z.b2z andb]. done.
Qed.

(** [ebx + esi * 4 - 8] *)
Definition sib_regs : Regs := set32 (set32 regs_new Ebx 0x1000) Esi 0x10.
Definition sib_bytes : list byte := List.map byte_of [0xB3; 0xF8].
Lemma modrm32_table_witness :
  resolve_modrm32 (modrm_decode 0x44) sib_bytes sib_regs = Ok (OMem32 0x1038, 2).
Proof.
  rewrite modrm32_table; [vm_compute; reflexivity|by apply modrm_decode_ok|].
  assert (Regs_wf regs_new) as H0.
  { split_and!; try done; apply Forall_replicate; done. }
  apply set32_wf; [apply set32_wf; [exact H0|done]|done].
Defined.

(** * Multiplication and division *)

Section arith.
Context `{VectorState}.

Definition eax (s : Cpu * Mmu) : Z := get32 (regs s.1) Eax.
Definition edx (s : Cpu * Mmu) : Z := get32 (regs s.1) Edx.

(** EAX and EDX assigned. *)
Definition put_pair (s : Cpu * Mmu) (a d : Z) : Cpu * Mmu :=
  (with_regs s.1 (set32 (set32 (regs s.1) Eax a) Edx d), s.2).

Lemma eax_put s a d : Regs_wf (regs s.1) -> eax (put_pair s a d) = a.
Proof.
  intros [Hl _]. unfold eax, put_pair, get32, set32. cbn [fst regs with_regs]. rewrite !gp_at_with; cbn; rewrite ?length_insert; done || lia.
Qed.
Lemma edx_put s a d : Regs_wf (regs s.1) -> edx (put_pair s a d) = d.
Proof.
  intros [Hl _]. unfold edx, put_pair, get32, set32. cbn [fst regs with_regs]. rewrite gp_at_with; cbn; rewrite ?length_insert; done || lia.
Qed.

(** The double word of two words. *)
Lemma lor_high d a : in_range 32 a -> Z.lor (Z.shiftl d 32) a = d * 2 ^ 32 + a.
Proof.
  intros Ha. rewrite <- Z.shiftl_mul_pow2 by lia. rewrite <- Z.add_lor_land.
  assert (Z.land (Z.shiftl d 32) a = 0) as ->; [|lia]. apply Z.bits_inj'. intros k Hk. rewrite Z.land_spec, Z.bits_0.
  destruct (Z.le_gt_cases 32 k); [by rewrite (high_bits_zero 32 a), andb_false_r|by rewrite Z.shiftl_spec_low].
Qed.

Lemma sint64_pair d a : in_range 32 d -> in_range 32 a -> sint 64 (d * 2 ^ 32 + a) = sint 32 d * 2 ^ 32 + a.
Proof.
  unfold in_range, sint. change (2 ^ (64 - 1)) with (2 ^ 31 * 2 ^ 32). change (2 ^ (32 - 1)) with (2 ^ 31). change (2 ^ 64) with (2 ^ 32 * 2 ^ 32).
  intros Hd Ha. repeat case_match; lia.
Qed.

Lemma sint_wrap_small w z : 0 < w -> - 2 ^ (w - 1) <= z < 2 ^ (w - 1) -> sint w (wrap w z) = z.
Proof.
  intros Hw Hz. assert (2 ^ w = 2 * 2 ^ (w - 1)) as E by (rewrite <- Z.pow_succ_r by lia; f_equal; lia).
  unfold sint, wrap. destruct (Z.le_gt_cases 0 z).
  - rewrite Z.mod_small by lia. by replace (z <? 2 ^ (w - 1)) with true by lia.
  - replace (z mod 2 ^ w) with (z + 2 ^ w). 2:{ symmetry. rewrite <- (Z_mod_plus_full z 1), Z.mul_1_l. apply Z.mod_small. lia. }
    replace (z + 2 ^ w <? 2 ^ (w - 1)) with false by lia. lia.
Qed.

(** C27: IDIV is exact and its bounds are these. The dividend is EDX:EAX, the
    quotient rounds to zero and the remainder has the sign of the dividend;
    the quotient and remainder go to EAX and EDX exactly when the quotient is
    a signed 32-bit number. Otherwise, and for a zero divisor, the state stays
    and the instruction raises a divide error, except for the one dividend
    whose quotient does not fit in 64 bits: there the host panics. *)
Theorem idiv_exact e val s :
  Regs_wf (regs s.1) -> in_range 32 val ->
  let n := sint 64 (edx s * 2 ^ 32 + eax s) in let d := sint 32 val in
  match idiv_32 e val s with
  | (s', Ok ok) => ok = Continued /\ exists q r,
      n = q * d + r /\ Z.abs r < Z.abs d /\ 0 <= r * n /\ - 2 ^ 31 <= q < 2 ^ 31 /\
      sint 32 (eax s') = q /\ sint 32 (edx s') = r
  | (s', Err t) => s' = s /\ t = DivideByZero e /\ (d = 0 \/ ~ - 2 ^ 31 <= Z.quot n d < 2 ^ 31)
  | (s', Panic) => n = - 2 ^ 63 /\ d = -1
  end.
Proof.
  intros Hr Hv n d. pose proof (gp_at_range _ 0 Hr) as Ha. pose proof (gp_at_range _ 2 Hr) as Hd. change (gp_at (regs s.1) 0) with (eax s) in Ha. change (gp_at (regs s.1) 2) with (edx s) in Hd.
  unfold idiv_32. destruct (val =? 0) eqn:E0.
  { apply Z.eqb_eq in E0. unfold trap. split_and!; [done|done|]. left. unfold d. by rewrite E0. }
  assert (d <> 0) as Hd0. { apply Z.eqb_neq in E0. unfold d, sint. unfold in_range in Hv. case_match; lia. }
  unfold r32, get_regs, mbind, x_bind, cpu, mret, x_ret. cbn beta iota zeta.
  change (get32 (regs s.1) Edx) with (edx s). change (get32 (regs s.1) Eax) with (eax s).
  rewrite lor_high by done. rewrite <- sint64_pair by done. fold n. fold d. unfold signed_div, mret, x_ret.
  destruct ((n =? _) && (d =? -1)) eqn:Em; [apply andb_true_iff in Em as [E1 E2]; unfold panic; lia|].
  cbn [fst snd]. unfold fits. destruct (negb _) eqn:Ef; [unfold trap; split_and!; [done|done|right; lia]|].
  unfold w32, upd, done, mret, x_ret. cbn beta iota.
  match goal with |- context [eax ?p] => change p with (put_pair s (wrap32 (Z.quot n d)) (wrap32 (Z.rem n d))) end.
  split; [done|]. exists (Z.quot n d), (Z.rem n d). rewrite eax_put, edx_put by done.
  pose proof (Z.quot_rem' n d). pose proof (Z.rem_bound_abs n d Hd0).
  assert (Z.abs d <= 2 ^ 31) by (unfold d, sint, in_range in *; case_match; lia).
  split_and!; [lia|done|by apply Z.rem_sign_mul|lia|lia|apply sint_wrap_small; lia|apply sint_wrap_small; lia].
Qed.

Lemma div_32_case e val s : Regs_wf (regs s.1) -> in_range 32 val -> val <> 0 -> edx s < val ->
  let n := edx s * 2 ^ 32 + eax s in div_32 e val s = (put_pair s (n / val) (n mod val), Ok Continued).
Proof.
  intros Hr Hv H0 Hlt n. pose proof (gp_at_range _ 0 Hr) as Ha. pose proof (gp_at_range _ 2 Hr) as Hd. change (gp_at (regs s.1) 0) with (eax s) in Ha. change (gp_at (regs s.1) 2) with (edx s) in Hd.
  unfold div_32. replace (val =? 0) with false by lia. unfold r32, get_regs, mbind, x_bind, cpu, mret, x_ret. cbn beta iota zeta.
  change (get32 (regs s.1) Edx) with (edx s). change (get32 (regs s.1) Eax) with (eax s). rewrite lor_high by done. fold n.
  assert (n / val < 2 ^ 32) as Hq. { apply Z.div_lt_upper_bound; unfold in_range, n in *; nia. }
  assert (0 <= n / val) as Hq0. { apply Z.div_pos; unfold in_range, n in *; lia. }
  replace (0xFFFFFFFF <? n / val) with false by lia. unfold w32, upd, done, mret, x_ret. cbn beta iota.
  assert (0 <= n mod val < val) as Hm by (apply Z.mod_pos_bound; unfold in_range in *; lia).
  unfold put_pair. rewrite !wrap_small; [done|..]; unfold in_range in *; lia.
Qed.

(** C28: MUL is exact and DIV undoes it. MUL leaves the double product in
    EDX:EAX and sets carry and overflow exactly when EDX is needed; dividing
    that by the same operand succeeds and gives EAX back with no remainder. *)
Theorem div_undoes_mul e val s :
  Regs_wf (regs s.1) -> in_range 32 val -> val <> 0 ->
  exists s1 s2, mul_32 val s = (s1, Ok Continued) /\ div_32 e val s1 = (s2, Ok Continued) /\
    edx s1 * 2 ^ 32 + eax s1 = eax s * val /\
    cf (flags (regs s1.1)) = negb (edx s1 =? 0) /\ of_ (flags (regs s1.1)) = negb (edx s1 =? 0) /\
    eax s2 = eax s /\ edx s2 = 0.
Proof.
  intros Hr Hv H0. pose proof (gp_at_range _ 0 Hr) as Ha. change (gp_at (regs s.1) 0) with (eax s) in Ha. set (p := eax s * val).
  assert (0 <= p < 2 ^ 64) as Hp by (unfold p, in_range in *; change (2 ^ 64) with (2 ^ 32 * 2 ^ 32); nia).
  assert (Z.shiftr p 32 = p / 2 ^ 32) as Es by (by rewrite Z.shiftr_div_pow2 by lia).
  assert (in_range 32 (p / 2 ^ 32)) as Hh.
  { split; [apply Z.div_pos; lia|]. apply Z.div_lt_upper_bound; lia. }
  set (s0 := put_pair s (wrap32 p) (wrap32 (Z.shiftr p 32))). set (b := negb (Z.shiftr p 32 =? 0)).
  set (s1 := (with_regs s0.1 (with_flags (regs s0.1) (with_of (with_cf (flags (regs s0.1)) b) b)), s0.2)).
  assert (mul_32 val s = (s1, Ok Continued)) as Em by done.
  assert (eax s1 = wrap32 p) as Ea by (change (eax s1) with (eax s0); unfold s0; by rewrite eax_put).
  assert (edx s1 = p / 2 ^ 32) as Ed. { change (edx s1) with (edx s0). unfold s0. rewrite edx_put, Es by done. by apply wrap_small. }
  assert (Regs_wf (regs s1.1)) as Hr1. { apply with_flags_wf, set32_wf; [apply set32_wf; [done|]|]; apply wrap_range; lia. }
  assert (edx s1 * 2 ^ 32 + eax s1 = p) as En. { rewrite Ea, Ed. unfold wrap. pose proof (Z.div_mod p (2 ^ 32)). lia. }
  exists s1, (put_pair s1 (p / val) (p mod val)). split; [done|]. split.
  { rewrite <- En. apply div_32_case; [done|done|done|]. rewrite Ed. apply Z.div_lt_upper_bound; unfold p, in_range in *; nia. }
  rewrite En, eax_put, edx_put by done. split; [done|]. rewrite Ed, <- Es. unfold p. rewrite Z.div_mul, Z_mod_mult by done. done.
Qed.
End arith.

(** 0x80000001 * 6, and -7 / 2. *)
Definition product : Cpu * Mmu := (with_regs cpu_new (set32 (regs cpu_new) Eax 0x80000001), new).
Lemma div_undoes_mul_witness : exists s1 s2, mul_32 6 product = (s1, Ok Continued) /\ edx s1 = 3 /\ eax s1 = 6 /\
  div_32 0 6 s1 = (s2, Ok Continued) /\ eax s2 = 0x80000001.
Proof.
  destruct (div_undoes_mul 0 6 product) as (s1 & s2 & Em & Ed & Hn & _ & _ & Ha & _); [|done|done|].
  { apply set32_wf; [apply cpu_new_wf|done]. }
  exists s1, s2. split; [exact Em|]. assert (s1 = (mul_32 6 product).1) as -> by (by rewrite Em).
  split; [vm_compute; reflexivity|]. split; [vm_compute; reflexivity|]. split; [exact Ed|]. rewrite Ha. vm_compute. reflexivity.
Defined.

Definition quotient : Cpu * Mmu := (with_regs cpu_new (set32 (set32 (regs cpu_new) Eax (2 ^ 32 - 7)) Edx (2 ^ 32 - 1)), new).
Lemma idiv_exact_witness : exists s', idiv_32 0 2 quotient = (s', Ok Continued) /\ sint 32 (eax s') = -3 /\ sint 32 (edx s') = -1.
Proof.
  assert (Regs_wf (regs quotient.1)) as Hr by (apply set32_wf; [apply set32_wf; [apply cpu_new_wf|done]|done]).
  pose proof (idiv_exact 0 2 quotient Hr ltac:(done)) as H. cbv zeta in H.
  assert (snd (idiv_32 0 2 quotient) = Ok Continued) as E by (vm_compute; reflexivity).
  destruct (idiv_32 0 2 quotient) as [s' r]. cbn [snd] in E. subst r. exists s'. split; [reflexivity|].
  destruct H as (_ & q & r & Hn & Hb & Hs & _ & -> & ->).
  change (sint 64 _) with (-7) in Hn, Hs. change (sint 32 2) with 2 in *. lia.
Defined.

(** * REP STOS *)

Section fill.
Context `{VectorState}.

Definition edi (s : Cpu * Mmu) : Z := get32 (regs s.1) Edi.

Definition unit_bytes (size : StringSize) : Z := match size with B8 => 1 | W16 => 2 | D32 => 4 end.
Definition store_unit (size : StringSize) (a v : Z) : St unit :=
  match size with B8 => store8 a v | W16 => store16 a v | D32 => store32 a v end.
(** AL, AX or EAX. *)
Definition acc_value (size : StringSize) (r : Regs) : Z :=
  match size with B8 => get8 r Al | W16 => get16 r Ax | D32 => get32 r Eax end.

(** The bytes of [n] units. *)
Definition unit_image (size : StringSize) (v : Z) : list byte := to_le (Z.to_nat (unit_bytes size)) v.
Fixpoint fill_bytes (size : StringSize) (v : Z) (n : nat) : list byte :=
  match n with O => [] | S n => unit_image size v ++ fill_bytes size v n end.

Lemma len_unit_image size v : len (unit_image size v) = unit_bytes size.
Proof. unfold len, unit_image. rewrite length_to_le. by destruct size. Qed.
Lemma len_fill size v n : len (fill_bytes size v n) = Z.of_nat n * unit_bytes size.
Proof.
  induction n as [|n IH]; cbn [fill_bytes]; [done|]. unfold len in *. rewrite length_app, Nat2Z.inj_add, IH.
  pose proof (len_unit_image size v) as E. unfold len in E. rewrite E. lia.
Qed.

Lemma store_unit_stores size a v : in_range 32 a -> stores 1 (store_unit size a v) a (unit_image size v).
Proof. intros Ha. destruct size; [by apply store8_stores|by apply store16_stores|by apply store32_stores]. Qed.

(** A round in 32-bit code with the direction flag clear. *)
Definition after_round (size : StringSize) (c : Cpu) : Cpu :=
  with_regs c (set32 (regs c) Edi (wrap32 (get32 (regs c) Edi + unit_bytes size))).

Lemma stos_one_eq size s : code16 s.1 = false ->
  stos_one size (unit_bytes size) s =
  match store_unit size (edi s) (acc_value size (regs s.1)) s.2 with
  | (m, Ok _) => ((after_round size s.1, m), Ok tt)
  | (m, Err t) => ((s.1, m), Err t)
  | (m, Panic) => ((s.1, m), Panic)
  end.
Proof.
  intros Hc. unfold stos_one, str_di_addr, str_advance, store_size, acc_size, r8, r16, r32, get_regs, act, w32, upd, mbind, x_bind, cpu, mret, x_ret.
  cbn beta iota. rewrite Hc. fold (edi s). destruct size; cbn [store_unit acc_value]; cbn beta iota;
    destruct (_ (edi s) _ s.2) as [m [u|t|]]; cbn [fst snd]; try done; rewrite Hc; done.
Qed.

(** What a round and the decrement of ECX leave in the registers. *)
Definition next_regs (size : StringSize) (r : Regs) : Regs :=
  set32 (set32 r Edi (wrap32 (get32 r Edi + unit_bytes size))) Ecx (wrap32 (get32 r Ecx - 1)).

Lemma next_regs_wf size r : Regs_wf r -> Regs_wf (next_regs size r).
Proof. intros Hr. apply set32_wf; [apply set32_wf; [done|]|]; apply wrap_range; lia. Qed.
Lemma next_ecx size r : Regs_wf r -> get32 (next_regs size r) Ecx = wrap32 (get32 r Ecx - 1).
Proof. intros [Hl _]. unfold next_regs, get32, set32. rewrite gp_at_with; cbn; rewrite ?length_insert; done || lia. Qed.
Lemma next_edi size r : Regs_wf r -> get32 (next_regs size r) Edi = wrap32 (get32 r Edi + unit_bytes size).
Proof. intros [Hl _]. unfold next_regs, get32, set32. rewrite !gp_at_with; cbn; rewrite ?length_insert; done || lia. Qed.
Lemma next_acc size r : Regs_wf r -> acc_value size (next_regs size r) = acc_value size r.
Proof.
  intros [Hl _]. unfold next_regs, acc_value, get8, get16, get32, set32. cbn [reg8_index reg16_index reg32_index Nat.ltb Nat.leb].
  destruct size; rewrite !gp_at_with; cbn; rewrite ?length_insert; done || lia.
Qed.

(** The rest of a fill of [n] units, from any of its states. *)
Definition filled (size : StringSize) (n : nat) (s : Cpu * Mmu) (r : (Cpu * Mmu) * res Trap StepOk) : Prop :=
  let v := acc_value size (regs s.1) in
  match r with
  | (s', Ok ok) => ok = Continued /\ same_cells s'.2 (over (cell s.2) (edi s) (fill_bytes size v n)) /\
      ecx s' = 0 /\ edi s' = wrap32 (edi s + Z.of_nat n * unit_bytes size)
  | (s', Err t) => exists i j, 0 <= i < Z.of_nat n /\ i * unit_bytes size <= j < (i + 1) * unit_bytes size /\
      store_fault s.2 (wrap32 (edi s + j)) t /\
      same_cells s'.2 (over (cell s.2) (edi s) (take (Z.to_nat j) (fill_bytes size v n))) /\
      ecx s' = Z.of_nat n - i /\ edi s' = wrap32 (edi s + i * unit_bytes size)
  | (_, Panic) => False
  end.

Lemma rep_loop_round fuel rep step s : ecx s <> 0 ->
  rep_loop (S fuel) rep step false s =
  match step s with
  | (s1, Ok _) => rep_loop fuel rep step false (with_regs s1.1 (set32 (regs s1.1) Ecx (wrap32 (ecx s1 - 1))), s1.2)
  | (s1, Err t) => (s1, Err t)
  | (s1, Panic) => (s1, Panic)
  end.
Proof.
  intros H0. cbn [rep_loop]. rewrite (x_bind_ok _ _ s s (ecx s)) by done. rewrite (proj2 (Z.eqb_neq _ _) H0).
  unfold mbind, x_bind. by destruct (step s) as [s1 [u|t|]].
Qed.
Lemma rep_loop_end fuel rep step s : ecx s = 0 -> rep_loop fuel rep step false s = (s, Ok Continued).
Proof.
  intros H0. destruct fuel; cbn [rep_loop]; rewrite (x_bind_ok _ _ s s (ecx s)) by done; by rewrite H0.
Qed.

Lemma unit_pos size : 0 < unit_bytes size.
Proof. by destruct size. Qed.

Lemma rep_stos_filled rep size n : forall fuel s, (n <= fuel)%nat -> Regs_wf (regs s.1) -> code16 s.1 = false -> mmu_wf s.2 ->
  room (Z.of_nat n) s.2 -> ecx s = Z.of_nat n -> Z.of_nat n * unit_bytes size < 2 ^ 32 ->
  filled size n s (rep_loop fuel rep (stos_one size (unit_bytes size)) false s).
Proof.
  pose proof (unit_pos size) as Hu. induction n as [|n IH]; intros fuel s Hfuel Hr Hc Hm Hroom Hn Hlen;
    pose proof (gp_at_range _ 7 Hr) as He; change (gp_at (regs s.1) 7) with (edi s) in He.
  - rewrite rep_loop_end by done. cbn [filled fill_bytes]. split_and!; [done|intros x _; by rewrite over_nil|done|].
    rewrite Z.add_0_r, wrap_small; done.
  - destruct fuel as [|fuel]; [lia|]. rewrite rep_loop_round by lia. rewrite stos_one_eq by done.
    set (v := acc_value size (regs s.1)). pose proof (store_unit_stores size (edi s) v He s.2 (Z.of_nat n) Hm) as Hst.
    rewrite Nat2Z.inj_succ in Hroom, Hlen, Hn. specialize (Hst ltac:(by replace (1 + Z.of_nat n) with (Z.succ (Z.of_nat n)) by lia) ltac:(lia)).
    destruct (store_unit size (edi s) v s.2) as [m [u|t|]]; [| |done].
    + destruct Hst as (Hm1 & Hroom1 & Hcells & _). cbn [fst snd].
      set (s2 := (with_regs _ _, m)). assert (regs s2.1 = next_regs size (regs s.1)) as Eregs.
      { unfold s2, next_regs, ecx, after_round. cbn [fst regs with_regs]. f_equal. f_equal. f_equal.
        destruct Hr as [Hl _]. unfold get32, set32. rewrite gp_at_with; cbn; done || lia. }
      assert (ecx s2 = Z.of_nat n) as Hn2.
      { unfold ecx. rewrite Eregs, next_ecx by done. change (get32 (regs s.1) Ecx) with (ecx s). rewrite Hn. rewrite wrap_small; unfold in_range; lia. }
      assert (edi s2 = wrap32 (edi s + unit_bytes size)) as He2 by (unfold edi; rewrite Eregs; by rewrite next_edi).
      specialize (IH fuel s2 ltac:(lia) ltac:(rewrite Eregs; by apply next_regs_wf) Hc Hm1 Hroom1 Hn2 ltac:(lia)).
      unfold filled in *. rewrite Eregs, next_acc in IH by done. fold v in IH. fold v. change s2.2 with m in IH. rewrite He2 in IH.
      pose proof (len_unit_image size v) as Hl1. pose proof (len_fill size v n) as Hl2.
      destruct (rep_loop fuel rep _ false s2) as [s' [ok|t|]]; [| |done].
      * destruct IH as (-> & Hs' & Hc' & He'). split_and!; [done| |done|].
        { cbn [fill_bytes]. eapply same_cells_over; [done|lia|exact Hcells|by rewrite Hl1]. }
        rewrite He', wrap32_add. f_equal. lia.
      * destruct IH as (i & j & Hi & Hj & Hf & Hs' & Hc' & He'). exists (i + 1), (j + unit_bytes size). rewrite wrap32_add in Hf.
        split_and!; [lia|lia|lia|lia| | |lia|].
        { replace (edi s + (j + unit_bytes size)) with (edi s + (unit_bytes size + j)) by lia.
          by eapply store_fault_over; [apply wrap32_range|exact Hcells|]. }
        { cbn [fill_bytes]. rewrite take_app_ge by (unfold len in Hl1; lia).
          replace (Z.to_nat (j + unit_bytes size) - length (unit_image size v))%nat with (Z.to_nat j) by (unfold len in Hl1; lia).
          eapply same_cells_over; [done| |exact Hcells|by rewrite Hl1]. unfold len in *. rewrite length_take. lia. }
        rewrite He', wrap32_add. f_equal. lia.
    + destruct Hst as (Hm1 & k & Hk & Hf & _ & Hcells). rewrite len_unit_image in Hk. cbn [filled fst snd].
      exists 0, k. split_and!; [lia|lia|lia|lia|done| |change (ecx (s.1, m)) with (ecx s); by rewrite Hn, Nat2Z.inj_succ, Z.sub_0_r|].
      { fold v. cbn [fill_bytes]. rewrite take_app_le; [done|]. pose proof (len_unit_image size v) as Hl. unfold len in Hl. lia. }
      change (edi (s.1, m)) with (edi s). rewrite Z.mul_0_l, Z.add_0_r. by rewrite wrap_small.
Qed.

Definition unit_size (c : Cpu) (sized_dword : bool) : StringSize :=
  if negb sized_dword then B8 else if op_size_16_prefix (prefixes c) then W16 else D32.

(** C26: REP STOS fills memory. In 32-bit code with the direction flag clear,
    ECX units of AL, AX or EAX go to EDI and up, over page borders too; no
    other byte and no permission changes, ECX ends at 0 and EDI behind the
    last unit. When a page may not be written the instruction stops at the
    first such byte, everything before it is written, and ECX and EDI are
    those of the unit it lies in, so that the instruction can be restarted. *)
Theorem rep_stos_fills d rep s :
  Regs_wf (regs s.1) -> mmu_wf s.2 -> rep_prefix (prefixes s.1) = Some rep -> code16 s.1 = false -> df (flags (regs s.1)) = false ->
  room (ecx s) s.2 ->
  let size := unit_size s.1 d in let u := unit_bytes size in let bytes := fill_bytes size (acc_value size (regs s.1)) (Z.to_nat (ecx s)) in
  ecx s * u < 2 ^ 32 ->
  match string_stos d s with
  | (s', Ok ok) => ok = Continued /\ same_cells s'.2 (over (cell s.2) (edi s) bytes) /\ ecx s' = 0 /\ edi s' = wrap32 (edi s + ecx s * u)
  | (s', Err t) => exists i j, 0 <= i < ecx s /\ i * u <= j < (i + 1) * u /\ store_fault s.2 (wrap32 (edi s + j)) t /\
      same_cells s'.2 (over (cell s.2) (edi s) (take (Z.to_nat j) bytes)) /\ ecx s' = ecx s - i /\ edi s' = wrap32 (edi s + i * u)
  | (_, Panic) => False
  end.
Proof.
  intros Hr Hm Hp Hc Hd Hroom size u bytes Hlen. pose proof (gp_at_range _ 1 Hr) as Hn. change (gp_at (regs s.1) 1) with (ecx s) in Hn.
  assert (Z.of_nat (Z.to_nat (ecx s)) = ecx s) as En by (unfold in_range in Hn; lia).
  assert (string_size d s = (s, Ok size)) as E1.
  { unfold string_size, op_size_16, mbind, x_bind, cpu, mret, x_ret. cbn beta iota. rewrite Hc. unfold size, unit_size. by rewrite xorb_false_r. }
  assert (string_step_for size s = (s, Ok u)) as E2.
  { unfold string_step_for, get_flags, get_regs, mbind, x_bind, cpu, mret, x_ret. cbn beta iota. rewrite Hd. by destruct size. }
  unfold string_stos. rewrite (x_bind_ok _ _ _ _ _ E1), (x_bind_ok _ _ _ _ _ E2). unfold string_loop.
  rewrite (x_bind_ok _ _ s s s.1) by done. rewrite Hp.
  pose proof (rep_stos_filled rep size (Z.to_nat (ecx s)) (Z.to_nat (ecx s)) s ltac:(lia) Hr Hc Hm) as Hf.
  rewrite En in Hf. specialize (Hf Hroom eq_refl Hlen). unfold filled in Hf. rewrite En in Hf. exact Hf.
Qed.
End fill.

(** [rep stosd] over the border of the data page and the stack page, and up to
    the end of the stack page. *)
Definition filling (edi ecx : Z) : Cpu * Mmu :=
  (with_prefixes (with_regs cpu_new (set32 (set32 (set32 (regs cpu_new) Eax 0x11223344) Edi edi) Ecx ecx))
     {| op_size_16_prefix := false; addr_size_16_prefix := false; rep_prefix := Some Rep; seg_override := None |}, blank).

Lemma filling_wf a n : in_range 32 a -> in_range 32 n -> Regs_wf (regs (filling a n).1).
Proof. intros Ha Hn. do 2 (apply set32_wf; [|done]). apply set32_wf; [apply cpu_new_wf|done]. Qed.

Lemma rep_stos_fills_witness :
  (exists s', string_stos true (filling 0x3FFE 2) = (s', Ok Continued) /\ ecx s' = 0 /\ edi s' = 0x4006) /\
  (exists s' a, string_stos true (filling 0x4FFA 3) = (s', Err (MemoryFault a)) /\ ecx s' = 2 /\ edi s' = 0x4FFE).
Proof.
  assert (forall a n, in_range 32 n -> room n (filling a n).2) as Hroom.
  { intros a n Hn. split; [|done]. unfold in_range in Hn. change (watch_seq (filling a n).2) with 0. lia. }
  assert (mmu_wf blank) as Hm by apply (inv_pages _ blank_inv). split.
  - pose proof (rep_stos_fills true Rep (filling 0x3FFE 2) ltac:(by apply filling_wf) Hm eq_refl eq_refl eq_refl ltac:(by apply Hroom) ltac:(done)) as H.
    assert (snd (string_stos true (filling 0x3FFE 2)) = Ok Continued) as E by (vm_compute; reflexivity).
    destruct (string_stos true (filling 0x3FFE 2)) as [s' r]. cbn [snd] in E. subst r. exists s'. split; [reflexivity|].
    destruct H as (_ & _ & -> & ->). split; reflexivity.
  - pose proof (rep_stos_fills true Rep (filling 0x4FFA 3) ltac:(by apply filling_wf) Hm eq_refl eq_refl eq_refl ltac:(by apply Hroom) ltac:(done)) as H.
    assert (snd (string_stos true (filling 0x4FFA 3)) = Err (MemoryFault 0x5000)) as E by (vm_compute; reflexivity).
    assert (ecx (string_stos true (filling 0x4FFA 3)).1 = 2) as E2 by (vm_compute; reflexivity).
    destruct (string_stos true (filling 0x4FFA 3)) as [s' r]. cbn [snd fst] in E, E2. subst r. exists s', 0x5000. split; [reflexivity|].
    split; [exact E2|]. destruct H as (i & j & Hi & _ & _ & _ & Hc & ->). change (ecx (filling 0x4FFA 3)) with 3 in *.
    assert (i = 1) as -> by lia. reflexivity.
Defined.
